(* ===== verification/_CoqProject ===== *)
-Q . S2P
Prelude.v
Wire.v
Messages.v
ChanIds.v
Failures.v
Results.v
Sha256.v
Shachain.v
Sig.v
Units.v
Tx.v
OmniOp.v
Keys.v
Scripts.v
FwdPkg.v
UpdateLog.v
Circuits.v
CircuitOps.v
CircuitRestart.v
CircuitTheorems.v
Mailbox.v
MailboxTheorems.v
PayDescs.v
Switch.v
SwitchTheorems.v
ChanDB.v
Features.v
Bech32.v
PayAmounts.v
Zpay32.v
Zpay32Theorems.v
Payments.v
Amp.v
InvoiceDB.v
Invoices.v
InvoiceSafety.v
InvoiceStore.v
InvoiceTheorems.v
Commitment.v
Channel.v
ChannelOps.v
Link.v
LinkTheorems.v
ChannelSign.v
Reload.v
Reestablish.v
Views.v
Dance.v
Protocol.v
Reach.v
Safety.v
HtlcSigs.v
DanceSpec.v
ReestablishTheorems.v
