(* ===== verification/Prelude.v ===== *)
(** * A verification library of obd

    obd ([src/oblnd]) is a Lightning node, a fork of lnd, whose channels carry
    either bitcoin or one Omni asset.  This library models the parts of it that
    decide about money, as pure functions over explicit state, and proves what
    they promise.  Paths below are relative to [src/oblnd].

    ** How a Go program is read

    A fallible function returns [res]: a value, an error, or a run-time panic.  A
    method that mutates its receiver is a computation [M S E A] that returns the
    new state on every outcome, so what was written before an early [return err]
    stays written; [transaction] is a database transaction, of which nothing stays
    if it fails.  Machine integers are [Z] with every wrap-around written
    ([uwrap], [swrap]).  Maps are [gmap]s; where Go ranges over a map in an
    unspecified order and the order can show, the order is an argument.  Where
    the code shares pointers and a claim depends on it (update logs, circuits) the
    objects live in a heap.  Locks are not modelled: an operation is one step.
    Code outside the repository is an interface with the documented laws that are
    used: public keys and the curve ([Messages.PubKeyOps], [Keys.CurveOps]), the
    script builder and its hashes ([Scripts.ScriptLib]), transaction and signature
    hashes and signing ([Commitment.TxLib], [ChannelSign.SigLib]), the onion library
    ([Circuits.SphinxLib], [Results.OnionErrorDecrypter], the hop iterator of [Link]),
    variable-length integers ([Failures.VarIntOps]), writing bech32 strings
    ([Bech32.Bech32Lib]), addresses and request signatures ([Zpay32.PayReqLib]).
    SHA-256 is defined and checked against test vectors ([Sha256]).

    ** The parts and their files

    Wire and data formats.
    - [Wire], [Messages]: readers, writers, framing and the channel messages
      ([lnwire/writer.go], [lnwire.go], [message.go], [update_*.go],
      [commit_sig.go], [revoke_and_ack.go], [channel_reestablish.go], ping and
      pong).  [Message] is the Go interface, [MessageLaws] the round trip
      [WriteMessage] is proved against.
    - [ChanIds]: channel ids and short channel ids.  [Sig]: DER and 64-byte
      signatures.  [Features]: feature vectors, their encodings and the check of
      dependencies ([lnwire/features.go], [feature/deps.go]).
    - [Units]: [lnwire/msat.go], fee rates, weights, dust ([input/size.go],
      [chainfee/rates.go]).  [Tx]: transactions and [lnwallet/commit_sort.go].
    - [OmniOp]: the Omni payload output ([lnwallet/omnicore/op/opreturn.go]).
    - [Failures]: the failures of an onion, their codes and their binary form
      ([lnwire/onion_error.go], [channel_update.go], [htlcswitch/failure.go]).
    - [Bech32], [PayAmounts], [Zpay32]: payment requests ([zpay32]): bech32 strings,
      amounts in units, invoices written, signed and read; [Zpay32Theorems] what
      reading gives.

    Keys and scripts.
    - [Sha256], [Shachain]: per-commitment secrets, the producer and the 48-bucket
      store ([shachain]).  [Keys], [Scripts]: key derivation and output scripts
      ([input/script_utils.go], [lnwallet/commitment.go]).

    Storage.
    - [FwdPkg] ([channeldb/forwarding_package.go]), [ChanDB]
      ([channeldb/channel.go]), [Payments] ([channeldb/payment_control.go],
      [payments.go]), [InvoiceDB] ([channeldb/invoices.go]).  A bucket is a finite
      map of decoded values, less what the codecs drop.

    The channel state machine ([lnwallet/channel.go], [commitment.go],
    [transactions.go]).
    - [UpdateLog]: the two update logs and their compaction.  [Commitment]: the
      commitment transaction built from a view.  [Channel]: views and the
      constraint check.  [ChannelOps]: adding, settling, failing, fees.
      [ChannelSign]: [SignNextCommitment], [ReceiveNewCommitment],
      [RevokeCurrentCommitment], [ReceiveRevocation].  [Reload]: the channel rebuilt
      from what was stored ([NewLightningChannel], [restoreCommitState]).
    - [Views], [Dance], [Protocol], [Reach], [Safety], [HtlcSigs], [DanceSpec]: the
      methods as a transition system, its invariant by induction over steps, what the
      HTLC signatures cover, and the theorems on it.
    - [Reestablish]: meeting the peer again: [ProcessChanSyncMsg], and how the link
      resumes or fails ([htlcswitch/link.go]); [ReestablishTheorems] what is sent
      again.

    Payments to and through us.
    - [Amp] ([amp]), [Invoices] ([invoices/invoiceregistry.go], [update.go],
      [resolution.go]) on top of [InvoiceDB]; [InvoiceSafety], [InvoiceStore],
      [InvoiceTheorems] prove what the registry keeps.
    - [Circuits]: the circuit map of the switch ([htlcswitch/circuit_map.go],
      [circuit.go]), which ties an incoming HTLC to the outgoing one;
      [CircuitOps], [CircuitRestart] and [CircuitTheorems] prove what it keeps.
    - [Mailbox], [MailboxTheorems]: the queue of packets of a channel and its courier
      ([htlcswitch/mailbox.go]).  [Results]: the stored results of our payments
      ([htlcswitch/payment_result.go]).
    - [Switch], [SwitchTheorems]: the links and their indexes, forwarding adds and
      answers, batches and restarts ([htlcswitch/switch.go]); [PayDescs] reads updates
      back from disk.  A link is an interface ([Switch.ChannelLink], [ChannelLinkLaws]).
    - [Link], [LinkTheorems]: the link that implements it ([htlcswitch/link.go]): fees,
      checks, HTLCs the peer locked in, packets from the switch.

    How they interact.  An HTLC of a peer arrives as a message ([Messages]),
    enters the remote log of the channel ([ChannelOps], [UpdateLog]), is locked in
    by the dance ([ChannelSign]), which stores the channel ([ChanDB]) and hands
    the HTLC over in a forwarding package ([FwdPkg]).  It pays an invoice
    ([Invoices], announced by a request of [Zpay32]) or the link ([Link]) hands it to
    the switch ([Switch]), which gives it a circuit ([Circuits]) and puts it into the
    mailbox ([Mailbox]) of a link to the next peer; its answer, an update of that
    link's log or a failure ([Failures]), finds its way back by the circuit.  What we
    pay ourselves is tracked by [Payments], its results by [Results].

    ** What is proved

    - The dance ([DanceSpec]): in every state reached from a new channel
      no coin of the asset is made or lost, heights and indexes are consecutive,
      the disk holds the tail of both chains, the pending commitment and every revoked
      one; what each of the four methods does; and neither revoking nor receiving a
      valid revocation can fail.
    - Reestablishment ([ReestablishTheorems]): two peers get back in step whatever was
      lost between them, in the order it was sent, also by a channel rebuilt from its
      bucket; no message draws a secret but the last revoked one; a channel that has
      lost state is not closed by force.
    - Stores: what each store holds in every state it reaches, and that a payment
      is not made twice, a settled invoice not unsettled, a preimage not released
      unpaid, a circuit not closed twice, a revocation secret not lost.
    - Forwarding ([SwitchTheorems], [LinkTheorems], [MailboxTheorems]): the indexes of
      the switch agree in every state, an add goes to one link that takes it or is
      failed once, an answer passes once, a forwarded HTLC pays the fee of the policy,
      and going through a package again after a restart decides the same.
    - Requests ([Zpay32Theorems], [PayAmounts], [Bech32]): what is written is read, an
      accepted invoice is signed by its destination, a wrong character is noticed.
    - Building blocks: both peers build the same transaction; outputs are located;
      balances are conserved by views and by the cooperative close; keys derived
      by the two sides agree; codecs round trip.
    - Errors: theorems that state a defect of the code as it is (assets that are
      not compared, HTLCs and requests that crash or are never released or read, a
      stale index, keystones a failed write leaves behind, products that wrap).

    ** Fuel and bounds

    Loops over lists and maps are structural.  [Features.ValidateDeps] runs with
    fuel that is proved sufficient for every vector; [Circuits.TrimOpenCircuits]
    with one unit more than the open circuits, proved sufficient; the fields of a
    request with the length of the text ([Zpay32.parse_fields]), of which every turn
    consumes a part; decimal numbers and groups of five bits with the digits of a
    64-bit number.  The bounds
    assumed are those of the data: a log has room for one more update below 2^64,
    the fee of a bitcoin commitment is below 2^53, payments are of realistic
    amounts, the 32-bit numbers of invoices are not used up ([Reach.room],
    [Safety.fees_ok], [InvoiceTheorems.reg_step]); heights that are revoked again
    leave two secrets of the 2^48 ([ReestablishTheorems.peers]).

    ** Not modelled

    Locks, goroutines and timers around the modelled operations (the message loop of
    a link, the peer, the registry's event loop); the binary form of database
    records; failures of the key-value store in [ChanDB] and at the start of the circuit
    map (elsewhere whether a write commits is an argument); that the update logs
    [Reload] rebuilds are those before a restart (its chains are); HTLC resolutions and
    the contract court; funding; path finding, graph and gossip; RPC, start-up,
    wallet and chain back ends; generated gRPC code; watchtowers, sweeper and
    autopilot. *)

From Stdlib Require Export ZArith Lia Sorted.
From coqutil Require Export Byte.
From coqutil Require Import Word.LittleEndianList.
From stdpp Require Export base numbers list gmap strings countable.

#[global] Open Scope Z_scope.

(** ** Results of fallible Go code

    A Go function that returns [(T, error)] yields [Ok t] or [Err e]; [Panic]
    is a run-time panic (a nil dereference, an index out of range). *)
Inductive res (E A : Type) : Type :=
| Ok (a : A)
| Err (e : E)
| Panic.
Arguments Ok {E A} a.
Arguments Err {E A} e.
Arguments Panic {E A}.

Definition res_bind {E A B : Type} (f : A -> res E B) (m : res E A) : res E B :=
  match m with
  | Ok a => f a
  | Err e => Err e
  | Panic => Panic
  end.

#[export] Instance res_ret E : MRet (res E) := fun _ a => Ok a.
#[export] Instance res_mbind E : MBind (res E) := fun _ _ f m => res_bind f m.

Lemma res_bind_Ok_l {E A B : Type} (a : A) (f : A -> res E B) : Ok a ≫= f = f a.
Proof. done. Qed.

(** An [error] test that returns early: [if cond { return err }]. *)
Definition guard_err {E : Type} (cond : bool) (e : E) : res E unit :=
  if cond then Err e else Ok tt.

Lemma res_bind_Ok {E A B : Type} (m : res E A) (f : A -> res E B) b :
  m ≫= f = Ok b <-> exists a, m = Ok a /\ f a = Ok b.
Proof.
  split.
  - destruct m; simpl; intros H; try discriminate; eauto.
  - intros (a & -> & H); exact H.
Qed.

(** ** State and errors

    Go code mutates shared state and returns errors: a mutation made before an
    early [return err] stays.  A computation over a state [S] therefore returns
    the new state on every outcome. *)
Definition M (S E A : Type) : Type := S -> res E A * S.

#[export] Instance M_ret S E : MRet (M S E) := fun _ a s => (Ok a, s).
#[export] Instance M_bind S E : MBind (M S E) := fun _ _ f m s =>
  match m s with
  | (Ok a, s') => f a s'
  | (Err e, s') => (Err e, s')
  | (Panic, s') => (Panic, s')
  end.

Definition get {S E} : M S E S := fun s => (Ok s, s).
Definition gets {S E A} (f : S -> A) : M S E A := fun s => (Ok (f s), s).
Definition modify {S E} (f : S -> S) : M S E unit := fun s => (Ok tt, f s).
Definition throw {S E A} (e : E) : M S E A := fun s => (Err e, s).
Definition panic {S E A} : M S E A := fun s => (Panic, s).
Definition lift {S E A} (r : res E A) : M S E A := fun s => (r, s).
Definition check {S E} (bad : bool) (e : E) : M S E unit :=
  fun s => (if bad then Err e else Ok tt, s).

(** A database transaction: nothing it wrote stays if it fails. *)
Definition transaction {S E A} (m : M S E A) : M S E A := fun s =>
  match m s with
  | (Ok a, s') => (Ok a, s')
  | (r, _) => (r, s)
  end.

Lemma transaction_Ok {S E A} (m : M S E A) s a s' : transaction m s = (Ok a, s') -> m s = (Ok a, s').
Proof. unfold transaction. destruct (m s) as [[b| |] s1]; try done. Qed.

Lemma M_bind_Ok {S E A B} (m : M S E A) (f : A -> M S E B) s b s' :
  (m ≫= f) s = (Ok b, s') <->
  exists a s1, m s = (Ok a, s1) /\ f a s1 = (Ok b, s').
Proof.
  unfold mbind, M_bind. split.
  - destruct (m s) as [[a|e|] s1]; intros H; try discriminate; eauto.
  - intros (a & s1 & -> & H); exact H.
Qed.

Lemma M_bind_run {S E A B} (m : M S E A) (k : A -> M S E B) s a s1 :
  m s = (Ok a, s1) -> (m ≫= k) s = k a s1.
Proof. intros Hm. unfold mbind, M_bind. by rewrite Hm. Qed.

Lemma M_bind_pair {S E A B} (m : M S E A) (k : A -> M S E B) s r s1 :
  m s = (r, s1) -> (m ≫= k) s = match r with Ok a => k a s1 | Err e => (Err e, s1) | Panic => (Panic, s1) end.
Proof. intros Hm. unfold mbind, M_bind. rewrite Hm. by destruct r. Qed.

Lemma M_bind_Err {S E A B} (m : M S E A) (k : A -> M S E B) s e s1 :
  m s = (Err e, s1) -> (m ≫= k) s = (Err e, s1).
Proof. intros Hm. unfold mbind, M_bind. by rewrite Hm. Qed.

Lemma res_bind_ext {E A B} (m : res E A) (f g : A -> res E B) : (forall a, f a = g a) -> m ≫= f = m ≫= g.
Proof. intros Hfg. destruct m; cbn; [apply Hfg|done..]. Qed.

Lemma M_bind_ext {S E A B} (m m' : M S E A) (f g : A -> M S E B) s : m s = m' s -> (forall a s', f a s' = g a s') -> (m ≫= f) s = (m' ≫= g) s.
Proof. intros Hm Hfg. unfold mbind, M_bind. rewrite Hm. destruct (m' s) as [[a| |] s1]; [apply Hfg|done..]. Qed.

Lemma check_Ok {S E} bad (e : E) (s : S) u s' :
  check bad e s = (Ok u, s') <-> bad = false /\ s' = s.
Proof.
  unfold check. destruct bad; split.
  - discriminate.
  - intros [? _]; discriminate.
  - intros H; injection H as <- <-; done.
  - intros [_ ->]; by destruct u.
Qed.

(** Inverts a successful run of a monadic computation in a hypothesis. *)
Ltac inv_ok H :=
  match type of H with
  | (_ ≫= _) _ = (Ok _, _) =>
      let a := fresh "a" in let s := fresh "s" in
      let H1 := fresh "H" in let H2 := fresh "H" in
      apply M_bind_Ok in H as (a & s & H1 & H2); inv_ok H1; inv_ok H2
  | (_ ≫= _) = Ok _ =>
      let a := fresh "a" in
      let H1 := fresh "H" in let H2 := fresh "H" in
      apply res_bind_Ok in H as (a & H1 & H2); inv_ok H1; inv_ok H2
  | check _ _ _ = (Ok _, _) =>
      let Hc := fresh "Hc" in apply check_Ok in H as [Hc ?]; subst
  | get _ = (Ok _, _) => unfold get in H; injection H as ? ?; subst
  | gets _ _ = (Ok _, _) => unfold gets in H; injection H as ? ?; subst
  | modify _ _ = (Ok _, _) => unfold modify in H; injection H as ? ?; subst
  | throw _ _ = (Ok _, _) => unfold throw in H; discriminate H
  | panic _ = (Ok _, _) => unfold panic in H; discriminate H
  | _ => idtac
  end.

(** What a computation may do to the state, whatever its outcome. *)
Definition frames {S E A} (R : S -> S -> Prop) (m : M S E A) : Prop := forall s, R s (snd (m s)).

Lemma frames_bind {S E A B} (R : S -> S -> Prop) `{!PreOrder R} (m : M S E A) (k : A -> M S E B) :
  frames R m -> (forall a, frames R (k a)) -> frames R (m ≫= k).
Proof.
  intros Hm Hk s. unfold mbind, M_bind. pose proof (Hm s) as H1. destruct (m s) as [[a|e|] s1]; cbn in *; [|done..].
  etrans; [exact H1|apply Hk].
Qed.

Lemma frames_read {S E A} (R : S -> S -> Prop) `{!PreOrder R} (f : S -> res E A) :
  frames R (fun s => (f s, s)).
Proof. intros s. reflexivity. Qed.

Lemma frames_check {S E} (R : S -> S -> Prop) `{!PreOrder R} b (e : E) : frames R (check b e).
Proof. intros s. reflexivity. Qed.

Lemma frames_modify {S E} (R : S -> S -> Prop) (f : S -> S) : (forall s, R s (f s)) -> frames R (@modify S E f).
Proof. intros Hf s. apply Hf. Qed.

Lemma frames_mono {S E A} (R R' : S -> S -> Prop) (m : M S E A) :
  (forall s s', R s s' -> R' s s') -> frames R m -> frames R' m.
Proof. intros HR Hm s. apply HR, Hm. Qed.

Create HintDb frames.

(** Splits a monadic computation into its steps; what only reads is closed. *)
Ltac frames :=
  repeat match goal with
  | |- frames ?R (mbind _ _) => apply (@frames_bind _ _ _ _ R _); [|intros ?]
  | |- frames _ (let '(_, _) := ?x in _) => destruct x
  | |- frames _ (if ?b then _ else _) => destruct b
  | |- frames _ (match ?x with _ => _ end) => destruct x
  | |- frames ?R (mret _) => apply (@frames_read _ _ _ R _ (fun _ => Ok _))
  | |- frames ?R (gets _) => apply (@frames_read _ _ _ R _ (fun s => Ok _))
  | |- frames ?R (lift _) => apply (@frames_read _ _ _ R _ (fun _ => _))
  | |- frames ?R (throw _) => apply (@frames_read _ _ _ R _ (fun _ => Err _))
  | |- frames ?R panic => apply (@frames_read _ _ _ R _ (fun _ => Panic))
  | |- frames ?R (check _ _) => apply (@frames_check _ _ R _)
  | |- frames ?R (fun s => (_, s)) => apply (@frames_read _ _ _ R _)
  | |- frames _ _ => solve [eauto with frames nocore]
  end.

(** ** Machine integers

    A Go unsigned integer of width [w] is a [Z] in [0, 2^w); the result of an
    arithmetic operation is reduced by [uwrap].  A signed one is a [Z] in
    [-2^(w-1), 2^(w-1)), reduced by [swrap]. *)
Definition uwrap (w : Z) (z : Z) : Z := z mod 2 ^ w.
Definition swrap (w : Z) (z : Z) : Z := (z + 2 ^ (w - 1)) mod 2 ^ w - 2 ^ (w - 1).

Abbreviation u8 := (uwrap 8).
Abbreviation u16 := (uwrap 16).
Abbreviation u32 := (uwrap 32).
Abbreviation u64 := (uwrap 64).
Abbreviation i32 := (swrap 32).
Abbreviation i64 := (swrap 64).

Definition is_uint (w z : Z) : Prop := 0 <= z < 2 ^ w.
Definition is_sint (w z : Z) : Prop := - 2 ^ (w - 1) <= z < 2 ^ (w - 1).

Lemma uwrap_range w z : 0 <= w -> is_uint w (uwrap w z).
Proof. intros Hw. apply Z.mod_pos_bound. lia. Qed.

Lemma uwrap_id w z : is_uint w z -> uwrap w z = z.
Proof. intros H. apply Z.mod_small. exact H. Qed.

Lemma pow2_half w : 0 < w -> 2 ^ w = 2 * 2 ^ (w - 1).
Proof. intros H. rewrite <- Z.pow_succ_r by lia. f_equal. lia. Qed.

Lemma swrap_range w z : 0 < w -> is_sint w (swrap w z).
Proof.
  intros Hw. unfold is_sint, swrap.
  pose proof (Z.mod_pos_bound (z + 2 ^ (w - 1)) (2 ^ w) ltac:(lia)).
  pose proof (pow2_half w Hw). lia.
Qed.

Lemma swrap_id w z : 0 < w -> is_sint w z -> swrap w z = z.
Proof.
  intros Hw H. unfold swrap. unfold is_sint in H.
  pose proof (pow2_half w Hw).
  rewrite Z.mod_small; lia.
Qed.

Lemma uwrap_uwrap w z : uwrap w (uwrap w z) = uwrap w z.
Proof. apply Z.mod_mod_divide. by exists 1; lia. Qed.

Lemma uwrap_swrap w z : 0 < w -> uwrap w (swrap w z) = uwrap w z.
Proof.
  intros Hw. unfold uwrap, swrap.
  rewrite Zminus_mod_idemp_l. f_equal. lia.
Qed.

(** Wrapped values agree exactly when the integers agree modulo [2 ^ w]. *)
Lemma swrap_uwrap w z : 0 < w -> swrap w (uwrap w z) = swrap w z.
Proof.
  intros Hw. unfold uwrap, swrap. by rewrite Zplus_mod_idemp_l.
Qed.

Lemma swrap_swrap w z : 0 < w -> swrap w (swrap w z) = swrap w z.
Proof. intros Hw. apply swrap_id; [done|]. by apply swrap_range. Qed.

(** Congruence modulo [2 ^ w]: the equality wrap-around arithmetic keeps. *)
Definition eqw (w a b : Z) : Prop := a mod 2 ^ w = b mod 2 ^ w.

#[export] Instance eqw_equiv w : Equivalence (eqw w).
Proof. split; unfold eqw; [by intros ?|by intros ? ?|congruence]. Qed.

#[export] Instance eqw_add w : Proper (eqw w ==> eqw w ==> eqw w) Z.add.
Proof.
  intros a a' Ha b b' Hb. unfold eqw in *.
  rewrite (Zplus_mod a b), (Zplus_mod a' b'). by rewrite Ha, Hb.
Qed.

#[export] Instance eqw_sub w : Proper (eqw w ==> eqw w ==> eqw w) Z.sub.
Proof.
  intros a a' Ha b b' Hb. unfold eqw in *.
  by rewrite (Zminus_mod a b), (Zminus_mod a' b'), Ha, Hb.
Qed.

#[export] Instance eqw_mul w : Proper (eqw w ==> eqw w ==> eqw w) Z.mul.
Proof.
  intros a a' Ha b b' Hb. unfold eqw in *.
  by rewrite (Zmult_mod a b), (Zmult_mod a' b'), Ha, Hb.
Qed.

Lemma eqw_of_eq w a b : a = b -> eqw w a b.
Proof. by intros ->. Qed.

Lemma eqw_uwrap w z : eqw w (uwrap w z) z.
Proof. apply uwrap_uwrap. Qed.

Lemma eqw_swrap w z : 0 < w -> eqw w (swrap w z) z.
Proof. apply uwrap_swrap. Qed.

Lemma eqw_eq_uint w a b : is_uint w a -> is_uint w b -> eqw w a b -> a = b.
Proof. unfold is_uint, eqw. intros ? ? H. rewrite !Z.mod_small in H by lia. exact H. Qed.

Lemma eqw_eq_sint w a b : 0 < w -> is_sint w a -> is_sint w b -> eqw w a b -> a = b.
Proof.
  intros Hw Ha Hb H. rewrite <- (swrap_id w a), <- (swrap_id w b) by done.
  rewrite <- (swrap_uwrap w a), <- (swrap_uwrap w b) by done.
  unfold uwrap. by rewrite H.
Qed.

Lemma eqw_add_cancel w a b c : eqw w (a + c) (b + c) -> eqw w a b.
Proof.
  intros H. assert (H' : eqw w (a + c - c) (b + c - c)) by (by rewrite H).
  by replace (a + c - c) with a in H' by lia; replace (b + c - c) with b in H' by lia.
Qed.

Lemma lxor_range n a b : 0 <= n -> is_uint n a -> is_uint n b -> is_uint n (Z.lxor a b).
Proof.
  intros Hn Ha Hb. rewrite <- (Z.mod_small a (2 ^ n)), <- (Z.mod_small b (2 ^ n)) by done.
  enough (Z.lxor (a mod 2 ^ n) (b mod 2 ^ n) = Z.lxor a b mod 2 ^ n) as ->.
  { apply Z.mod_pos_bound. lia. }
  apply Z.bits_inj'. intros i Hi. rewrite Z.lxor_spec.
  destruct (Z.lt_ge_cases i n).
  - by rewrite !Z.mod_pow2_bits_low, Z.lxor_spec by lia.
  - by rewrite !Z.mod_pow2_bits_high by lia.
Qed.

Create HintDb wrap.
#[export] Hint Resolve uwrap_range swrap_range : wrap.

(** Go's integer division truncates toward zero. *)
Definition go_div (a b : Z) : Z := Z.quot a b.

(** ** Bytes

    Big-endian integers, as [binary.BigEndian] reads and writes them. *)
Abbreviation byte := Init.Byte.byte.
Abbreviation bytes := (list Init.Byte.byte).

#[export] Instance byte_eq_dec : EqDecision byte := Byte.byte_eq_dec.
#[export] Program Instance byte_countable : Countable byte :=
  inj_countable Byte.to_N Byte.of_N _.
Next Obligation. intros b. apply Byte.of_to_N. Qed.

Definition be_put (n : nat) (z : Z) : bytes := rev (le_split n z).
Definition be_get (bs : bytes) : Z := le_combine (rev bs).

Lemma length_be_put n z : length (be_put n z) = n.
Proof. unfold be_put. by rewrite length_rev, length_le_split. Qed.

Lemma be_get_put n z : be_get (be_put n z) = uwrap (Z.of_nat n * 8) z.
Proof. unfold be_get, be_put. by rewrite rev_involutive, le_combine_split. Qed.

Lemma be_get_put_id n z : is_uint (Z.of_nat n * 8) z -> be_get (be_put n z) = z.
Proof. intros H. by rewrite be_get_put, uwrap_id. Qed.

Lemma be_put_get bs : be_put (length bs) (be_get bs) = bs.
Proof.
  unfold be_get, be_put. rewrite <- (length_rev bs), split_le_combine.
  apply rev_involutive.
Qed.

Lemma be_get_range bs : is_uint (Z.of_nat (length bs) * 8) (be_get bs).
Proof.
  unfold be_get, is_uint. rewrite <- (length_rev bs).
  replace (Z.of_nat (length (rev bs)) * 8) with (8 * Z.of_nat (length (rev bs))) by lia.
  apply le_combine_bound.
Qed.

Arguments be_put : simpl never.
Arguments be_get : simpl never.
Arguments uwrap : simpl never.
Arguments swrap : simpl never.

(** ** Sums *)
Definition zsum (l : list Z) : Z := foldr Z.add 0 l.

#[export] Instance zsum_perm : Proper ((≡ₚ) ==> eq) zsum.
Proof.
  intros l l' Hp. unfold zsum. refine (foldr_permutation_proper (=) Z.add 0 _ l l' Hp). intros; lia.
Qed.

Lemma zsum_app l k : zsum (l ++ k) = zsum l + zsum k.
Proof. unfold zsum in *. induction l as [|x l IH]; simpl; [done|]. rewrite IH. lia. Qed.

Lemma zsum_filter {A} (P : A -> Prop) `{!forall x, Decision (P x)} (f : A -> Z) l :
  zsum (f <$> filter P l) = zsum ((fun x => if decide (P x) then f x else 0) <$> l).
Proof.
  induction l as [|x l IH]; [done|]. rewrite filter_cons, fmap_cons.
  unfold zsum in *.
  destruct (decide (P x)); rewrite ?fmap_cons; cbn [foldr]; rewrite IH; lia.
Qed.

Lemma zsum_ext_in {A} (f g : A -> Z) l : (forall x, x ∈ l -> f x = g x) -> zsum (f <$> l) = zsum (g <$> l).
Proof.
  induction l as [|x l IH]; intros Hf; [done|]. rewrite !fmap_cons. cbn.
  rewrite (Hf x) by (by left). f_equal. apply IH. intros y Hy. apply Hf. by right.
Qed.

Lemma zsum_add {A} (f g : A -> Z) l :
  zsum ((fun x => f x + g x) <$> l) = zsum (f <$> l) + zsum (g <$> l).
Proof. induction l as [|x l IH]; [done|]. rewrite !fmap_cons. unfold zsum in *. cbn [foldr]. rewrite IH. lia. Qed.

Lemma zsum_cons x l : zsum (x :: l) = x + zsum l.
Proof. done. Qed.

Lemma filter_ext_in {A} (P Q : A -> Prop) `{!forall x, Decision (P x), !forall x, Decision (Q x)} (l : list A) :
  (forall x, x ∈ l -> P x <-> Q x) -> filter P l = filter Q l.
Proof.
  induction l as [|x l IH]; intros Hpq; [done|]. rewrite !filter_cons.
  rewrite IH by (intros y Hy; apply Hpq; by right). specialize (Hpq x ltac:(by left)).
  destruct (decide (P x)), (decide (Q x)); tauto || done.
Qed.

Lemma zsum_single {A} `{!EqDecision A} (q : A) x l : NoDup l -> q ∈ l ->
  zsum ((fun a => if decide (a = q) then x else 0) <$> l) = x.
Proof.
  assert (Hnone : forall k, q ∉ k -> zsum ((fun a => if decide (a = q) then x else 0) <$> k) = 0).
  { induction k as [|a k IH]; [done|]. rewrite not_elem_of_cons, fmap_cons, zsum_cons. intros [Hne Hk].
    rewrite decide_False, IH by (done || by intros ->). done. }
  induction l as [|a l IH]; intros Hnd Hq; [by apply not_elem_of_nil in Hq|].
  apply list.NoDup_cons in Hnd as [Ha Hnd]. rewrite fmap_cons, zsum_cons.
  apply elem_of_cons in Hq as [->|Hq].
  - rewrite decide_True, Hnone by done. lia.
  - rewrite decide_False, IH by (done || by intros ->). lia.
Qed.

Lemma zsum_zero {A} (f : A -> Z) (l : list A) : (forall x, x ∈ l -> f x = 0) -> zsum (f <$> l) = 0.
Proof.
  induction l as [|x l IH]; intros Hf; [done|]. rewrite fmap_cons, zsum_cons, Hf by (by left).
  apply IH. intros y Hy. apply Hf. by right.
Qed.

(** ** Sorting

    [sort.Sort] moves the elements until no neighbours are out of order for
    [Less]; below 12 elements it is the insertion sort written here, above it
    only the order of [Less]-equivalent elements may differ. *)
Section GoSort.
Context {A : Type} (Less : A -> A -> bool).

Fixpoint sort_insert (x : A) (l : list A) : list A :=
  match l with
  | [] => [x]
  | y :: l' => if Less x y then x :: l else y :: sort_insert x l'
  end.

Definition go_sort (l : list A) : list A := foldl (fun acc x => sort_insert x acc) [] l.

(** [y] may stand before [x]. *)
Definition not_after (y x : A) : Prop := Less x y = false.

Lemma sort_insert_perm x l : sort_insert x l ≡ₚ x :: l.
Proof.
  induction l as [|y l IH]; simpl; [done|]. destruct (Less x y); [done|].
  rewrite IH. apply Permutation_swap.
Qed.

Lemma go_sort_perm l : go_sort l ≡ₚ l.
Proof.
  unfold go_sort. assert (H : forall acc, foldl (fun acc x => sort_insert x acc) acc l ≡ₚ acc ++ l).
  { induction l as [|x l IH]; intros acc; simpl; [by rewrite app_nil_r|].
    rewrite IH, sort_insert_perm. apply Permutation_middle. }
  apply H.
Qed.

Lemma sort_insert_all (P : A -> Prop) x l : P x -> Forall P l -> Forall P (sort_insert x l).
Proof. intros Hx Hl. rewrite sort_insert_perm. by constructor. Qed.

Context (Less_asym : forall x y, Less x y = true -> Less y x = false).
Context (Less_trans : forall x y z, Less x y = false -> Less y z = false -> Less x z = false).

Lemma sort_insert_sorted x l :
  StronglySorted not_after l -> StronglySorted not_after (sort_insert x l).
Proof.
  induction 1 as [|y l Hs IH Hy]; simpl; [repeat constructor|].
  destruct (Less x y) eqn:E.
  - assert (Hxy : not_after x y) by (apply Less_asym; exact E).
    constructor; [by constructor|]. constructor; [done|].
    eapply Forall_impl; [|exact Hy]. intros z Hz. by apply (Less_trans z y x).
  - constructor; [exact IH|]. apply sort_insert_all; [exact E|exact Hy].
Qed.

Lemma go_sort_sorted l : StronglySorted not_after (go_sort l).
Proof.
  unfold go_sort. assert (H : forall acc, StronglySorted not_after acc ->
    StronglySorted not_after (foldl (fun acc x => sort_insert x acc) acc l)).
  { induction l as [|x l IH]; intros acc Ha; simpl; [done|].
    by apply IH, sort_insert_sorted. }
  apply H. constructor.
Qed.
End GoSort.

(** [bytes.Compare(a, b) < 0]: the lexicographic order. *)
Fixpoint bytes_lt (a b : bytes) : bool :=
  match a, b with
  | _, [] => false
  | [], _ :: _ => true
  | x :: a', y :: b' =>
      if byte.unsigned x <? byte.unsigned y then true
      else if byte.unsigned y <? byte.unsigned x then false
      else bytes_lt a' b'
  end.

Lemma bytes_lt_asym a b : bytes_lt a b = true -> bytes_lt b a = false.
Proof.
  revert b. induction a as [|x a IH]; intros [|y b]; simpl; try done.
  destruct (Z.ltb_spec (byte.unsigned x) (byte.unsigned y));
  destruct (Z.ltb_spec (byte.unsigned y) (byte.unsigned x)); try done; try lia. apply IH.
Qed.

Lemma bytes_lt_trans a b c :
  bytes_lt a b = false -> bytes_lt b c = false -> bytes_lt a c = false.
Proof.
  revert b c. induction a as [|x a IH]; intros [|y b] [|z c]; simpl; try done.
  destruct (Z.ltb_spec (byte.unsigned x) (byte.unsigned y));
  destruct (Z.ltb_spec (byte.unsigned y) (byte.unsigned x));
  destruct (Z.ltb_spec (byte.unsigned y) (byte.unsigned z));
  destruct (Z.ltb_spec (byte.unsigned z) (byte.unsigned y));
  destruct (Z.ltb_spec (byte.unsigned x) (byte.unsigned z));
  destruct (Z.ltb_spec (byte.unsigned z) (byte.unsigned x)); try done; try lia. apply IH.
Qed.

Lemma unsigned_inj x y : byte.unsigned x = byte.unsigned y -> x = y.
Proof. intros H. rewrite <- (byte.of_Z_unsigned x), H. apply byte.of_Z_unsigned. Qed.

Lemma bytes_lt_total a b : bytes_lt a b = false -> bytes_lt b a = false -> a = b.
Proof.
  revert b. induction a as [|x a IH]; intros [|y b]; simpl; try done.
  destruct (Z.ltb_spec (byte.unsigned x) (byte.unsigned y));
  destruct (Z.ltb_spec (byte.unsigned y) (byte.unsigned x)); try done; try lia.
  intros H1 H2. f_equal; [apply unsigned_inj; lia|by apply IH].
Qed.

(** Wrapping an error: [if err != nil { return fmt.Errorf(..., err) }]. *)
Definition map_err {S E E' A} (f : E -> E') (m : M S E A) : M S E' A := fun s =>
  match m s with
  | (Ok a, s') => (Ok a, s')
  | (Err e, s') => (Err (f e), s')
  | (Panic, s') => (Panic, s')
  end.

(** [sum f l]: the total of [f] over [l]. *)
Fixpoint sum {A} (f : A -> Z) (l : list A) : Z :=
  match l with [] => 0 | x :: l' => f x + sum f l' end.

Lemma sum_app {A} (f : A -> Z) l l' : sum f (l ++ l') = sum f l + sum f l'.
Proof. induction l as [|x l IH]; simpl; lia. Qed.

#[export] Instance sum_perm {A} (f : A -> Z) : Proper ((≡ₚ) ==> eq) (sum f).
Proof. intros l l' H. induction H; simpl; lia. Qed.

Lemma sum_ext {A} (f g : A -> Z) l : (forall x, x ∈ l -> f x = g x) -> sum f l = sum g l.
Proof.
  induction l as [|x l IH]; simpl; intros H; [done|].
  rewrite (H x), IH; [done| |apply list_elem_of_here].
  intros y Hy. apply H. by apply list_elem_of_further.
Qed.

Lemma sum_nonneg {A} (f : A -> Z) l : Forall (fun x => 0 <= f x) l -> 0 <= sum f l.
Proof. induction 1; simpl; lia. Qed.

Lemma sum_fmap {A B} (f : B -> Z) (g : A -> B) l : sum f (g <$> l) = sum (fun x => f (g x)) l.
Proof. induction l as [|x l IH]; simpl; [done|]. by rewrite <- IH. Qed.

(** ** Updating one field of a record

    [r <| f := v |>] is [r] with field [f] set to [v]; a record type supports it
    once it has an [Eta] instance that rebuilds a record from its fields. *)
Class Eta (R : Type) := eta : R -> R.
Class Upd {R T : Type} (p : R -> T) := upd : (T -> T) -> R -> R.
Arguments upd {R T} p {_} f r : simpl nomatch.

Ltac solve_upd :=
  lazymatch goal with
  | |- @Upd ?R ?T ?p =>
      let e := constr:(_ : Eta R) in
      exact (fun (upd_f : T -> T) (upd_r : R) =>
        ltac:(let br := eval hnf in (e upd_r) in
              let br' := eval pattern (p upd_r) in br in
              lazymatch br' with
              | ?g _ => let t := eval cbv beta in (g (upd_f (p upd_r))) in exact t
              end))
  end.
#[export] Hint Extern 0 (Upd _) => solve_upd : typeclass_instances.

#[warnings="-postfix-notation-not-level-1"]
Notation "r <| p := v |>" := (upd p (fun _ => v) r)
  (at level 12, left associativity, p at next level, v at level 200).
#[warnings="-postfix-notation-not-level-1"]
Notation "r <| p ::= f |>" := (upd p f r)
  (at level 12, left associativity, p at next level, f at level 200).
