(* ===== verification/Wire.v ===== *)
(** * Lightning wire codec ([lnwire])

    The writers of [lnwire/writer.go], the readers of [lnwire/lnwire.go] and
    the channel messages built from them, as state-passing functions over a
    byte buffer.  A writer appends to the [bytes.Buffer] it is given; a reader
    consumes the front of the [io.Reader].  The interface [Message] is Go's
    [lnwire.Message]; [MessageLaws] is what a well-behaved message promises to
    [WriteMessage]: its encoding decodes back to the message. *)

From S2P Require Import Prelude.

(** ** Errors *)
Inductive werr : Type :=
| EOF
| ErrUnexpectedEOF
| ErrNilPublicKey
| ErrParsePubKey
| ErrHeightTooBig
| ErrTxIndexTooBig
| ErrMaxPongBytesExceeded
| ErrorEncodeMessage (e : werr)
| ErrorPayloadTooLarge (size : Z)
| UnknownEncrypterType (t : Z).

(** ** Readers and writers *)
Abbreviation Writer := (M bytes werr unit).
Abbreviation Reader A := (M bytes werr A).

Definition WriteBytes (b : bytes) : Writer := modify (fun buf => buf ++ b).

(** [io.ReadFull]: [io.EOF] when nothing could be read, [io.ErrUnexpectedEOF]
    when the input stopped short; the bytes that were there are consumed. *)
Definition ReadFull (n : nat) : Reader bytes := fun r =>
  if decide (n <= length r)%nat then (Ok (take n r), drop n r)
  else match r with
       | [] => (Err EOF, [])
       | _ => (Err ErrUnexpectedEOF, [])
       end.

Definition WriteUint8 (n : Z) : Writer := WriteBytes (be_put 1 n).
Definition WriteUint16 (n : Z) : Writer := WriteBytes (be_put 2 n).
Definition WriteUint32 (n : Z) : Writer := WriteBytes (be_put 4 n).
Definition WriteUint64 (n : Z) : Writer := WriteBytes (be_put 8 n).

Definition ReadUint (n : nat) : Reader Z :=
  b ← ReadFull n; mret (be_get b).
Definition ReadUint8 : Reader Z := ReadUint 1.
Definition ReadUint16 : Reader Z := ReadUint 2.
Definition ReadUint32 : Reader Z := ReadUint 4.
Definition ReadUint64 : Reader Z := ReadUint 8.

(** [uint16(len(data))] then the data: a length above 65535 wraps. *)
Definition writeDataWithLength (data : bytes) : Writer :=
  _ ← WriteBytes (be_put 2 (u16 (Z.of_nat (length data))));
  WriteBytes data.

Definition ReadDataWithLength : Reader bytes :=
  l ← ReadUint16; ReadFull (Z.to_nat l).

(** [ExtraOpaqueData.Decode]: everything that is left. *)
Definition ReadExtraOpaqueData : Reader bytes := fun r => (Ok r, []).

(** *** Signatures, [Sig [64]byte] *)
Definition WriteSig (sig : bytes) : Writer := WriteBytes sig.

Fixpoint WriteSigs_loop (sigs : list bytes) : Writer :=
  match sigs with
  | [] => mret tt
  | s :: rest => _ ← WriteSig s; WriteSigs_loop rest
  end.

Definition WriteSigs (sigs : list bytes) : Writer :=
  _ ← WriteUint16 (u16 (Z.of_nat (length sigs)));
  WriteSigs_loop sigs.

Definition ReadSig : Reader bytes := ReadFull 64.

Fixpoint ReadSigs_loop (n : nat) : Reader (list bytes) :=
  match n with
  | O => mret []
  | S n => s ← ReadSig; rest ← ReadSigs_loop n; mret (s :: rest)
  end.

Definition ReadSigs : Reader (list bytes) :=
  numSigs ← ReadUint16; ReadSigs_loop (Z.to_nat numSigs).

(** *** Short channel ids *)
Record ShortChannelID := mkSCID {
  BlockHeight : Z;
  TxIndex : Z;
  TxPosition : Z
}.

#[export] Instance ShortChannelID_eq_dec : EqDecision ShortChannelID.
Proof. solve_decision. Defined.

Definition NewShortChanIDFromInt (chanID : Z) : ShortChannelID :=
  mkSCID (u32 (Z.shiftr chanID 40))
         (Z.land (u32 (Z.shiftr chanID 16)) 0xFFFFFF)
         (u16 chanID).

Definition ToUint64 (c : ShortChannelID) : Z :=
  Z.lor (Z.lor (u64 (Z.shiftl (BlockHeight c) 40))
               (u64 (Z.shiftl (TxIndex c) 16)))
        (TxPosition c).

Definition WriteShortChannelID (c : ShortChannelID) : Writer :=
  _ ← check (2 ^ 24 - 1 <? BlockHeight c) ErrHeightTooBig;
  _ ← WriteBytes (drop 1 (be_put 4 (BlockHeight c)));
  _ ← check (2 ^ 24 - 1 <? TxIndex c) ErrTxIndexTooBig;
  _ ← WriteBytes (drop 1 (be_put 4 (TxIndex c)));
  WriteUint16 (TxPosition c).

Definition ReadShortChannelID : Reader ShortChannelID :=
  blockHeight ← ReadFull 3;
  txIndex ← ReadFull 3;
  txPosition ← ReadFull 2;
  mret (mkSCID (be_get (Byte.x00 :: blockHeight)) (be_get (Byte.x00 :: txIndex))
               (be_get txPosition)).

(** *** Channel ids

    [wire.OutPoint]: the 32-byte transaction id and the output index. *)
Record OutPoint := mkOutPoint { Hash : bytes; Index : Z }.

Definition xor_byte (a b : byte) : byte :=
  byte.of_Z (Z.lxor (byte.unsigned a) (byte.unsigned b)).

Definition xorTxid (cid : bytes) (outputIndex : Z) : bytes :=
  let buf := be_put 2 outputIndex in
  let x i j := match cid !! i, buf !! j with
               | Some a, Some b => xor_byte a b
               | _, _ => Byte.x00
               end in
  <[31%nat := x 31%nat 1%nat]> (<[30%nat := x 30%nat 0%nat]> cid).

Definition NewChanIDFromOutPoint (op : OutPoint) : bytes :=
  xorTxid (Hash op) (u16 (Index op)).

Definition MaxFundingTxOutputs : Z := 65535.

Definition GenPossibleOutPoints (c : bytes) : list OutPoint :=
  (fun i => mkOutPoint (xorTxid c (Z.of_nat i)) (Z.of_nat i))
    <$> seq 0 (Z.to_nat MaxFundingTxOutputs).

Definition IsChanPoint (c : bytes) (op : OutPoint) : bool :=
  bool_decide (NewChanIDFromOutPoint op = c).

(** ** What readers and writers promise

    [writes w bs]: the writer succeeds and appends exactly [bs].  [reads m bs a]:
    the reader consumes exactly [bs] from the front of any input and returns
    [a]. *)
Definition writes (w : Writer) (bs : bytes) : Prop :=
  forall buf, w buf = (Ok tt, buf ++ bs).

Definition reads {A} (m : Reader A) (bs : bytes) (a : A) : Prop :=
  forall rest, m (bs ++ rest) = (Ok a, rest).

Create HintDb wire.

Lemma writes_bytes b : writes (WriteBytes b) b.
Proof. intros buf. done. Qed.

Lemma writes_ret : writes (mret tt) [].
Proof. intros buf. by rewrite app_nil_r. Qed.

Lemma writes_bind (w : Writer) (k : unit -> Writer) bs1 bs2 :
  writes w bs1 -> writes (k tt) bs2 -> writes (w ≫= k) (bs1 ++ bs2).
Proof.
  intros H1 H2 buf. unfold mbind, M_bind. rewrite H1, H2. by rewrite app_assoc.
Qed.

Lemma writes_check (bad : bool) e : bad = false -> writes (check bad e) [].
Proof. intros -> buf. by rewrite app_nil_r. Qed.

Lemma writes_data data :
  writes (writeDataWithLength data) (be_put 2 (u16 (Z.of_nat (length data))) ++ data).
Proof. apply writes_bind; apply writes_bytes. Qed.

Lemma reads_ret {A} (a : A) : reads (mret a) [] a.
Proof. intros rest. done. Qed.

Lemma reads_bind {A B} (m : Reader A) (k : A -> Reader B) bs1 bs2 a b :
  reads m bs1 a -> reads (k a) bs2 b -> reads (m ≫= k) (bs1 ++ bs2) b.
Proof.
  intros H1 H2 rest. unfold mbind, M_bind. rewrite <- app_assoc, H1. apply H2.
Qed.

Lemma reads_bind_nil {A B} (m : Reader A) (k : A -> Reader B) bs a b :
  reads m bs a -> reads (k a) [] b -> reads (m ≫= k) bs b.
Proof. intros H1 H2. rewrite <- (app_nil_r bs). by eapply reads_bind. Qed.

Lemma reads_full n b : length b = n -> reads (ReadFull n) b b.
Proof.
  intros <- rest. unfold ReadFull. rewrite decide_True by (rewrite length_app; lia).
  by rewrite take_app_length, drop_app_length.
Qed.

Lemma reads_uint n z :
  is_uint (Z.of_nat n * 8) z -> reads (ReadUint n) (be_put n z) z.
Proof.
  intros Hz. eapply reads_bind_nil; [apply reads_full, length_be_put|].
  rewrite be_get_put_id by done. apply reads_ret.
Qed.

Lemma reads_uint8 z : is_uint 8 z -> reads ReadUint8 (be_put 1 z) z.
Proof. apply (reads_uint 1). Qed.
Lemma reads_uint16 z : is_uint 16 z -> reads ReadUint16 (be_put 2 z) z.
Proof. apply (reads_uint 2). Qed.
Lemma reads_uint32 z : is_uint 32 z -> reads ReadUint32 (be_put 4 z) z.
Proof. apply (reads_uint 4). Qed.
Lemma reads_uint64 z : is_uint 64 z -> reads ReadUint64 (be_put 8 z) z.
Proof. apply (reads_uint 8). Qed.

Lemma be_put_u16 n : be_put 2 (u16 n) = be_put 2 n.
Proof.
  unfold be_put. f_equal. symmetry. apply LittleEndianList.le_split_mod.
Qed.

Lemma reads_data data :
  is_uint 16 (Z.of_nat (length data)) ->
  reads ReadDataWithLength (be_put 2 (u16 (Z.of_nat (length data))) ++ data) data.
Proof.
  intros Hl. rewrite be_put_u16. eapply reads_bind; [by apply reads_uint16|].
  apply reads_full. lia.
Qed.

Lemma writes_sigs sigs :
  writes (WriteSigs sigs) (be_put 2 (u16 (Z.of_nat (length sigs))) ++ concat sigs).
Proof.
  apply writes_bind; [apply writes_bytes|].
  induction sigs as [|s sigs IH]; simpl; [apply writes_ret|].
  apply writes_bind; [apply writes_bytes|exact IH].
Qed.

Lemma reads_sigs sigs :
  is_uint 16 (Z.of_nat (length sigs)) -> Forall (fun s => length s = 64%nat) sigs ->
  reads ReadSigs (be_put 2 (u16 (Z.of_nat (length sigs))) ++ concat sigs) sigs.
Proof.
  intros Hl Hs. rewrite be_put_u16. eapply reads_bind; [by apply reads_uint16|].
  rewrite Nat2Z.id. clear Hl.
  induction Hs as [|s sigs Hs _ IH]; simpl; [apply reads_ret|].
  eapply reads_bind; [by apply reads_full|].
  eapply reads_bind_nil; [exact IH|]. apply reads_ret.
Qed.

#[export] Hint Resolve writes_bytes writes_ret writes_sigs writes_data : wire.
#[export] Hint Resolve reads_ret reads_uint8 reads_uint16 reads_uint32
  reads_uint64 reads_data reads_sigs reads_full : wire.

(** Runs a writer or a reader through its binds. *)
Ltac solve_writes :=
  repeat first
    [ solve [eauto 2 with wire]
    | apply writes_bind
    | apply writes_check; (reflexivity || lia) ].
