(* ===== verification/Messages.v ===== *)
(** * Channel messages ([lnwire/update_*.go], [commit_sig.go], ...)

    One record per message with its [Encode] and [Decode], as instances of the
    interface [Message] (Go's [lnwire.Message]) and, for the round trip, of
    [MessageLaws].  [WriteMessage] is written against the interface alone. *)

From S2P Require Import Prelude Wire.

(** ** The interface *)
Class Message (A : Type) : Type := {
  MsgType : A -> Z;
  Encode : A -> Writer;
  Decode : Reader A
}.

(** [wire_ok] says which values the wire format can carry. *)
Class MessageLaws (A : Type) `{Message A} : Type := {
  wire_ok : A -> Prop;
  payload : A -> bytes;
  encode_payload m : wire_ok m -> writes (Encode m) (payload m);
  decode_payload m : wire_ok m -> Decode (payload m) = (Ok m, [])
}.

(** [btcec.PublicKey]: the compressed serialization and its parser. *)
Class PubKeyOps : Type := {
  PublicKey : Type;
  SerializeCompressed : PublicKey -> bytes;
  ParsePubKey : bytes -> option PublicKey
}.

Class PubKeyLaws `{PubKeyOps} : Prop := {
  pubkey_length p : length (SerializeCompressed p) = 33%nat;
  pubkey_parse p : ParsePubKey (SerializeCompressed p) = Some p
}.

Section PublicKeys.
Context `{PubKeyOps}.

Definition WritePublicKey (pub : option PublicKey) : Writer :=
  match pub with
  | None => throw ErrNilPublicKey
  | Some p => WriteBytes (SerializeCompressed p)
  end.

Definition ReadPublicKey : Reader (option PublicKey) :=
  b ← ReadFull 33;
  match ParsePubKey b with
  | None => throw ErrParsePubKey
  | Some p => mret (Some p)
  end.

Lemma writes_pubkey p : writes (WritePublicKey (Some p)) (SerializeCompressed p).
Proof. apply writes_bytes. Qed.

Lemma reads_pubkey `{!PubKeyLaws} p :
  reads ReadPublicKey (SerializeCompressed p) (Some p).
Proof.
  eapply reads_bind_nil; [by apply reads_full, pubkey_length|].
  rewrite pubkey_parse. apply reads_ret.
Qed.
End PublicKeys.
#[export] Hint Resolve writes_pubkey reads_pubkey : wire.

(** ** The messages *)
Record UpdateAddHTLC := mkUpdateAddHTLC {
  add_ChanID : bytes; add_ID : Z; add_Amount : Z; add_AssetID : Z;
  add_PaymentHash : bytes; add_Expiry : Z; add_OnionBlob : bytes;
  add_ExtraData : bytes
}.

Definition OnionPacketSize : nat := 1366.

Definition UpdateAddHTLC_Encode (c : UpdateAddHTLC) : Writer :=
  _ ← WriteBytes (add_ChanID c);
  _ ← WriteUint64 (add_ID c);
  _ ← WriteUint32 (add_AssetID c);
  _ ← WriteUint64 (add_Amount c);
  _ ← WriteBytes (add_PaymentHash c);
  _ ← WriteUint32 (add_Expiry c);
  _ ← WriteBytes (add_OnionBlob c);
  WriteBytes (add_ExtraData c).

Definition UpdateAddHTLC_Decode : Reader UpdateAddHTLC :=
  chanID ← ReadFull 32;
  id ← ReadUint64;
  assetID ← ReadUint32;
  amount ← ReadUint64;
  paymentHash ← ReadFull 32;
  expiry ← ReadUint32;
  onionBlob ← ReadFull OnionPacketSize;
  extra ← ReadExtraOpaqueData;
  mret (mkUpdateAddHTLC chanID id amount assetID paymentHash expiry onionBlob extra).

Record UpdateFulfillHTLC := mkUpdateFulfillHTLC {
  ful_ChanID : bytes; ful_ID : Z; ful_PaymentPreimage : bytes; ful_ExtraData : bytes
}.

Definition UpdateFulfillHTLC_Encode (c : UpdateFulfillHTLC) : Writer :=
  _ ← WriteBytes (ful_ChanID c);
  _ ← WriteUint64 (ful_ID c);
  _ ← WriteBytes (ful_PaymentPreimage c);
  WriteBytes (ful_ExtraData c).

Definition UpdateFulfillHTLC_Decode : Reader UpdateFulfillHTLC :=
  chanID ← ReadFull 32;
  id ← ReadUint64;
  preimage ← ReadFull 32;
  extra ← ReadExtraOpaqueData;
  mret (mkUpdateFulfillHTLC chanID id preimage extra).

Record UpdateFailHTLC := mkUpdateFailHTLC {
  fail_ChanID : bytes; fail_ID : Z; fail_Reason : bytes; fail_ExtraData : bytes
}.

Definition UpdateFailHTLC_Encode (c : UpdateFailHTLC) : Writer :=
  _ ← WriteBytes (fail_ChanID c);
  _ ← WriteUint64 (fail_ID c);
  _ ← writeDataWithLength (fail_Reason c);
  WriteBytes (fail_ExtraData c).

Definition UpdateFailHTLC_Decode : Reader UpdateFailHTLC :=
  chanID ← ReadFull 32;
  id ← ReadUint64;
  reason ← ReadDataWithLength;
  extra ← ReadExtraOpaqueData;
  mret (mkUpdateFailHTLC chanID id reason extra).

Record UpdateFailMalformedHTLC := mkUpdateFailMalformedHTLC {
  mal_ChanID : bytes; mal_ID : Z; mal_ShaOnionBlob : bytes; mal_FailureCode : Z;
  mal_ExtraData : bytes
}.

Definition UpdateFailMalformedHTLC_Encode (c : UpdateFailMalformedHTLC) : Writer :=
  _ ← WriteBytes (mal_ChanID c);
  _ ← WriteUint64 (mal_ID c);
  _ ← WriteBytes (mal_ShaOnionBlob c);
  _ ← WriteUint16 (mal_FailureCode c);
  WriteBytes (mal_ExtraData c).

Definition UpdateFailMalformedHTLC_Decode : Reader UpdateFailMalformedHTLC :=
  chanID ← ReadFull 32;
  id ← ReadUint64;
  sha ← ReadFull 32;
  code ← ReadUint16;
  extra ← ReadExtraOpaqueData;
  mret (mkUpdateFailMalformedHTLC chanID id sha code extra).

Record UpdateFee := mkUpdateFee {
  fee_ChanID : bytes; fee_AssetID : Z; fee_FeePerKw : Z; fee_ExtraData : bytes
}.

(** [AssetID] is not written, and a decoded message keeps its zero value. *)
Definition UpdateFee_Encode (c : UpdateFee) : Writer :=
  _ ← WriteBytes (fee_ChanID c);
  _ ← WriteUint32 (fee_FeePerKw c);
  WriteBytes (fee_ExtraData c).

Definition UpdateFee_Decode : Reader UpdateFee :=
  chanID ← ReadFull 32;
  feePerKw ← ReadUint32;
  extra ← ReadExtraOpaqueData;
  mret (mkUpdateFee chanID 0 feePerKw extra).

Record CommitSig := mkCommitSig {
  cs_ChanID : bytes; cs_CommitSig : bytes; cs_HtlcSigs : list bytes;
  cs_ExtraData : bytes
}.

Definition CommitSig_Encode (c : CommitSig) : Writer :=
  _ ← WriteBytes (cs_ChanID c);
  _ ← WriteSig (cs_CommitSig c);
  _ ← WriteSigs (cs_HtlcSigs c);
  WriteBytes (cs_ExtraData c).

Definition CommitSig_Decode : Reader CommitSig :=
  chanID ← ReadFull 32;
  sig ← ReadSig;
  sigs ← ReadSigs;
  extra ← ReadExtraOpaqueData;
  mret (mkCommitSig chanID sig sigs extra).

Record Ping := mkPing { NumPongBytes : Z; PaddingBytes : bytes }.

Definition MaxPongBytes : Z := 65531.

Definition Ping_Encode (p : Ping) : Writer :=
  _ ← WriteUint16 (NumPongBytes p);
  writeDataWithLength (PaddingBytes p).

Definition Ping_Decode : Reader Ping :=
  n ← ReadUint16;
  padding ← ReadDataWithLength;
  _ ← check (MaxPongBytes <? n) ErrMaxPongBytesExceeded;
  mret (mkPing n padding).

Section PubKeyMessages.
Context `{PubKeyOps}.

Record RevokeAndAck := mkRevokeAndAck {
  rev_ChanID : bytes; rev_Revocation : bytes;
  rev_NextRevocationKey : option PublicKey; rev_ExtraData : bytes
}.

Definition RevokeAndAck_Encode (c : RevokeAndAck) : Writer :=
  _ ← WriteBytes (rev_ChanID c);
  _ ← WriteBytes (rev_Revocation c);
  _ ← WritePublicKey (rev_NextRevocationKey c);
  WriteBytes (rev_ExtraData c).

Definition RevokeAndAck_Decode : Reader RevokeAndAck :=
  chanID ← ReadFull 32;
  revocation ← ReadFull 32;
  key ← ReadPublicKey;
  extra ← ReadExtraOpaqueData;
  mret (mkRevokeAndAck chanID revocation key extra).

Record ChannelReestablish := mkChannelReestablish {
  re_ChanID : bytes; re_NextLocalCommitHeight : Z; re_RemoteCommitTailHeight : Z;
  re_LastRemoteCommitSecret : bytes;
  re_LocalUnrevokedCommitPoint : option PublicKey; re_ExtraData : bytes
}.

Definition ChannelReestablish_Encode (a : ChannelReestablish) : Writer :=
  _ ← WriteBytes (re_ChanID a);
  _ ← WriteUint64 (re_NextLocalCommitHeight a);
  _ ← WriteUint64 (re_RemoteCommitTailHeight a);
  match re_LocalUnrevokedCommitPoint a with
  | None => WriteBytes (re_ExtraData a)
  | Some p =>
      _ ← WriteBytes (re_LastRemoteCommitSecret a);
      _ ← WritePublicKey (Some p);
      WriteBytes (re_ExtraData a)
  end.

Definition zero32 : bytes := replicate 32 Byte.x00.

Definition ChannelReestablish_tail (chanID : bytes) (next tail : Z) :
    Reader ChannelReestablish := fun r =>
  match ReadFull 32 r with
  | (Err EOF, r') => (Ok (mkChannelReestablish chanID next tail zero32 None []), r')
  | (Err e, r') => (Err e, r')
  | (Panic, r') => (Panic, r')
  | (Ok secret, r') =>
      (key ← ReadPublicKey;
       extra ← ReadExtraOpaqueData;
       mret (mkChannelReestablish chanID next tail secret key extra)) r'
  end.

Definition ChannelReestablish_Decode : Reader ChannelReestablish :=
  chanID ← ReadFull 32;
  next ← ReadUint64;
  tail ← ReadUint64;
  ChannelReestablish_tail chanID next tail.
End PubKeyMessages.

(** ** [WriteMessage] ([lnwire/message.go]) *)
Definition MaxMsgBody : Z := 65533.

(** On an error the buffer is truncated to its old length. *)
Definition WriteMessage {A} `{Message A} (msg : A) : M bytes werr Z := fun buf =>
  let oldByteSize := length buf in
  let cleanBrokenBytes (b : bytes) := take oldByteSize b in
  let buf1 := buf ++ be_put 2 (MsgType msg) in
  match Encode msg buf1 with
  | (Err e, buf2) => (Err (ErrorEncodeMessage e), cleanBrokenBytes buf2)
  | (Panic, buf2) => (Panic, buf2)
  | (Ok _, buf2) =>
      let lenp := Z.of_nat (length buf2) - Z.of_nat oldByteSize - 2 in
      if MaxMsgBody <? lenp then (Err (ErrorPayloadTooLarge lenp), cleanBrokenBytes buf2)
      else (Ok (Z.of_nat (length buf2) - Z.of_nat oldByteSize), buf2)
  end.

(** ** Instances *)
#[export] Instance UpdateAddHTLC_Message : Message UpdateAddHTLC :=
  {| MsgType _ := 1128; Encode := UpdateAddHTLC_Encode; Decode := UpdateAddHTLC_Decode |}.
#[export] Instance UpdateFulfillHTLC_Message : Message UpdateFulfillHTLC :=
  {| MsgType _ := 1130; Encode := UpdateFulfillHTLC_Encode;
     Decode := UpdateFulfillHTLC_Decode |}.
#[export] Instance UpdateFailHTLC_Message : Message UpdateFailHTLC :=
  {| MsgType _ := 1131; Encode := UpdateFailHTLC_Encode; Decode := UpdateFailHTLC_Decode |}.
#[export] Instance CommitSig_Message : Message CommitSig :=
  {| MsgType _ := 1132; Encode := CommitSig_Encode; Decode := CommitSig_Decode |}.
#[export] Instance RevokeAndAck_Message `{PubKeyOps} : Message RevokeAndAck :=
  {| MsgType _ := 1133; Encode := RevokeAndAck_Encode; Decode := RevokeAndAck_Decode |}.
#[export] Instance UpdateFee_Message : Message UpdateFee :=
  {| MsgType _ := 1134; Encode := UpdateFee_Encode; Decode := UpdateFee_Decode |}.
#[export] Instance UpdateFailMalformedHTLC_Message : Message UpdateFailMalformedHTLC :=
  {| MsgType _ := 1135; Encode := UpdateFailMalformedHTLC_Encode;
     Decode := UpdateFailMalformedHTLC_Decode |}.
#[export] Instance ChannelReestablish_Message `{PubKeyOps} : Message ChannelReestablish :=
  {| MsgType _ := 1136; Encode := ChannelReestablish_Encode;
     Decode := ChannelReestablish_Decode |}.
#[export] Instance Ping_Message : Message Ping :=
  {| MsgType _ := 1018; Encode := Ping_Encode; Decode := Ping_Decode |}.

(** ** Round trips *)

(** Every field of a message read back, then the extra data takes the rest. *)
Lemma extra_tail {A B} (m : Reader A) (k : A -> Reader B) bs rest a b :
  reads m bs a -> k a rest = (Ok b, []) -> (m ≫= k) (bs ++ rest) = (Ok b, []).
Proof. intros Hm Hk. unfold mbind, M_bind. by rewrite Hm, Hk. Qed.

Ltac decode_step := eapply extra_tail; [solve [eauto 2 with wire]|].
Ltac solve_decode m D :=
  match goal with |- _ ?p = _ => change (D p = (Ok m, [])); unfold D end;
  repeat first [decode_step | rewrite app_assoc; decode_step];
  destruct m; reflexivity.
Ltac solve_encode := cbn [Encode]; solve_writes.

#[export] Program Instance UpdateAddHTLC_Laws : MessageLaws UpdateAddHTLC := {|
  wire_ok c := length (add_ChanID c) = 32%nat /\ is_uint 64 (add_ID c) /\
    is_uint 32 (add_AssetID c) /\ is_uint 64 (add_Amount c) /\
    length (add_PaymentHash c) = 32%nat /\ is_uint 32 (add_Expiry c) /\
    length (add_OnionBlob c) = OnionPacketSize;
  payload c := add_ChanID c ++ be_put 8 (add_ID c) ++ be_put 4 (add_AssetID c) ++
    be_put 8 (add_Amount c) ++ add_PaymentHash c ++ be_put 4 (add_Expiry c) ++
    add_OnionBlob c ++ add_ExtraData c
|}.
Next Obligation. intros. solve_encode. Qed.
Next Obligation. intros c (?&?&?&?&?&?&?). solve_decode c UpdateAddHTLC_Decode. Qed.

#[export] Program Instance UpdateFulfillHTLC_Laws : MessageLaws UpdateFulfillHTLC := {|
  wire_ok c := length (ful_ChanID c) = 32%nat /\ is_uint 64 (ful_ID c) /\
    length (ful_PaymentPreimage c) = 32%nat;
  payload c := ful_ChanID c ++ be_put 8 (ful_ID c) ++ ful_PaymentPreimage c ++
    ful_ExtraData c
|}.
Next Obligation. intros. solve_encode. Qed.
Next Obligation. intros c (?&?&?). solve_decode c UpdateFulfillHTLC_Decode. Qed.

#[export] Program Instance UpdateFailHTLC_Laws : MessageLaws UpdateFailHTLC := {|
  wire_ok c := length (fail_ChanID c) = 32%nat /\ is_uint 64 (fail_ID c) /\
    is_uint 16 (Z.of_nat (length (fail_Reason c)));
  payload c := fail_ChanID c ++ be_put 8 (fail_ID c) ++
    (be_put 2 (u16 (Z.of_nat (length (fail_Reason c)))) ++ fail_Reason c) ++
    fail_ExtraData c
|}.
Next Obligation. intros. solve_encode. Qed.
Next Obligation. intros c (?&?&?). solve_decode c UpdateFailHTLC_Decode. Qed.

#[export] Program Instance UpdateFailMalformedHTLC_Laws : MessageLaws UpdateFailMalformedHTLC := {|
  wire_ok c := length (mal_ChanID c) = 32%nat /\ is_uint 64 (mal_ID c) /\
    length (mal_ShaOnionBlob c) = 32%nat /\ is_uint 16 (mal_FailureCode c);
  payload c := mal_ChanID c ++ be_put 8 (mal_ID c) ++ mal_ShaOnionBlob c ++
    be_put 2 (mal_FailureCode c) ++ mal_ExtraData c
|}.
Next Obligation. intros. solve_encode. Qed.
Next Obligation. intros c (?&?&?&?). solve_decode c UpdateFailMalformedHTLC_Decode. Qed.

#[export] Program Instance CommitSig_Laws : MessageLaws CommitSig := {|
  wire_ok c := length (cs_ChanID c) = 32%nat /\ length (cs_CommitSig c) = 64%nat /\
    is_uint 16 (Z.of_nat (length (cs_HtlcSigs c))) /\
    Forall (fun s => length s = 64%nat) (cs_HtlcSigs c);
  payload c := cs_ChanID c ++ cs_CommitSig c ++
    (be_put 2 (u16 (Z.of_nat (length (cs_HtlcSigs c)))) ++ concat (cs_HtlcSigs c)) ++
    cs_ExtraData c
|}.
Next Obligation. intros. solve_encode. Qed.
Next Obligation. intros c (?&?&?&?). solve_decode c CommitSig_Decode. Qed.

(** [ReadMessage] refuses a ping that asks for too long a pong, so a ping
    round-trips only below the bound. *)
#[export] Program Instance Ping_Laws : MessageLaws Ping := {|
  wire_ok c := 0 <= NumPongBytes c <= MaxPongBytes /\
    is_uint 16 (Z.of_nat (length (PaddingBytes c)));
  payload c := be_put 2 (NumPongBytes c) ++
    (be_put 2 (u16 (Z.of_nat (length (PaddingBytes c)))) ++ PaddingBytes c)
|}.
Next Obligation. intros. solve_encode. Qed.
Next Obligation.
  intros c [Hn ?]. change (Ping_Decode (be_put 2 (NumPongBytes c) ++
    be_put 2 (u16 (Z.of_nat (length (PaddingBytes c)))) ++ PaddingBytes c) = (Ok c, [])).
  unfold Ping_Decode, MaxPongBytes in *.
  assert (is_uint 16 (NumPongBytes c)) by (unfold is_uint; lia).
  decode_step.
  rewrite <- (app_nil_r (PaddingBytes c)) at 2. rewrite app_assoc. decode_step.
  unfold check, mbind, M_bind. rewrite (proj2 (Z.ltb_ge _ _)) by lia. by destruct c.
Qed.

(** The optional commit point decides whether the secret is sent at all. *)
#[export] Program Instance RevokeAndAck_Laws `{PubKeyOps, !PubKeyLaws} :
    MessageLaws RevokeAndAck := {|
  wire_ok c := length (rev_ChanID c) = 32%nat /\ length (rev_Revocation c) = 32%nat /\
    is_Some (rev_NextRevocationKey c);
  payload c := rev_ChanID c ++ rev_Revocation c ++
    match rev_NextRevocationKey c with Some p => SerializeCompressed p | None => [] end ++
    rev_ExtraData c
|}.
Next Obligation.
  intros ? ? [? ? [p|] ?] (?&?&[? [=]]); cbn [Encode RevokeAndAck_Message]; unfold RevokeAndAck_Encode; simpl in *. solve_writes.
Qed.
Next Obligation.
  intros ? ? [? ? [p|] ?] (?&?&[? [=]]); simpl in * |-.
  match goal with |- _ ?b = (Ok ?m, _) =>
    change (RevokeAndAck_Decode b = (Ok m, [])) end.
  unfold RevokeAndAck_Decode. cbn [rev_ChanID rev_Revocation rev_NextRevocationKey rev_ExtraData].
  do 3 decode_step. reflexivity.
Qed.

#[export] Program Instance ChannelReestablish_Laws `{PubKeyOps, !PubKeyLaws} :
    MessageLaws ChannelReestablish := {|
  wire_ok c := length (re_ChanID c) = 32%nat /\ is_uint 64 (re_NextLocalCommitHeight c) /\
    is_uint 64 (re_RemoteCommitTailHeight c) /\
    match re_LocalUnrevokedCommitPoint c with
    | Some _ => length (re_LastRemoteCommitSecret c) = 32%nat
    | None => re_LastRemoteCommitSecret c = zero32 /\ re_ExtraData c = []
    end;
  payload c := re_ChanID c ++ be_put 8 (re_NextLocalCommitHeight c) ++
    be_put 8 (re_RemoteCommitTailHeight c) ++
    match re_LocalUnrevokedCommitPoint c with
    | Some p => re_LastRemoteCommitSecret c ++ SerializeCompressed p ++ re_ExtraData c
    | None => re_ExtraData c
    end
|}.
Next Obligation.
  intros ? ? [? ? ? ? [p|] ?] _; cbn [Encode ChannelReestablish_Message];
    unfold ChannelReestablish_Encode;
    cbn [re_ChanID re_NextLocalCommitHeight re_RemoteCommitTailHeight
       re_LastRemoteCommitSecret re_LocalUnrevokedCommitPoint re_ExtraData];
    solve_writes.
Qed.
Next Obligation.
  intros ? ? [? ? ? ? [p|] ?] (?&?&?&Hc); simpl in * |-;
  match goal with |- _ ?b = (Ok ?m, _) =>
    change (ChannelReestablish_Decode b = (Ok m, [])) end;
  unfold ChannelReestablish_Decode;
  cbn [re_ChanID re_NextLocalCommitHeight re_RemoteCommitTailHeight
       re_LastRemoteCommitSecret re_LocalUnrevokedCommitPoint re_ExtraData];
  do 3 decode_step; unfold ChannelReestablish_tail.
  - rewrite reads_full by done. decode_step. reflexivity.
  - destruct Hc as [-> ->]. reflexivity.
Qed.

(** ** Theorems *)

(** A message framed by [WriteMessage] is its type, then a payload that
    decodes to the message. *)
Lemma WriteMessage_Ok {A} `{MessageLaws A} (m : A) buf :
  wire_ok m -> Z.of_nat (length (payload m)) <= MaxMsgBody ->
  WriteMessage m buf =
    (Ok (Z.of_nat (length (payload m)) + 2), buf ++ be_put 2 (MsgType m) ++ payload m).
Proof.
  intros Hok Hlen. unfold WriteMessage. rewrite (encode_payload m Hok).
  rewrite <- app_assoc. rewrite !length_app, length_be_put.
  rewrite (proj2 (Z.ltb_ge _ _)) by lia. do 3 f_equal. lia.
Qed.

(** Encoders only append, so a failed [WriteMessage] restores the buffer. *)
Definition appends (w : Writer) : Prop :=
  forall buf, exists bs, snd (w buf) = buf ++ bs.

Lemma appends_bind (w : Writer) k : appends w -> appends (k tt) -> appends (w ≫= k).
Proof.
  intros Hw Hk buf. unfold mbind, M_bind. destruct (Hw buf) as [b1 H1].
  destruct (w buf) as [[[]|e|] s]; simpl in *; [|by eauto..].
  destruct (Hk s) as [b2 H2]. exists (b1 ++ b2). rewrite H2, H1. by rewrite app_assoc.
Qed.

Lemma appends_writes w bs : writes w bs -> appends w.
Proof. intros H buf. exists bs. by rewrite H. Qed.

Lemma appends_throw e : appends (throw e).
Proof. intros buf. exists []. simpl. by rewrite app_nil_r. Qed.

Lemma WriteMessage_atomic {A} `{Message A} (m : A) buf e buf' :
  appends (Encode m) -> WriteMessage m buf = (Err e, buf') -> buf' = buf.
Proof.
  intros Ha. unfold WriteMessage.
  destruct (Ha (buf ++ be_put 2 (MsgType m))) as [bs Hs].
  destruct (Encode m _) as [[u|e'|] s]; simpl in Hs; subst s.
  - case_match; intros [= <- <-]. by rewrite <- app_assoc, take_app_length.
  - intros [= <- <-]. by rewrite <- app_assoc, take_app_length.
  - discriminate.
Qed.

Lemma RevokeAndAck_appends `{PubKeyOps} (m : RevokeAndAck) : appends (Encode m).
Proof.
  cbn [Encode RevokeAndAck_Message]. unfold RevokeAndAck_Encode.
  repeat apply appends_bind; try (eapply appends_writes, writes_bytes).
  destruct (rev_NextRevocationKey m); [eapply appends_writes, writes_bytes|].
  apply appends_throw.
Qed.

(** ** Log updates

    The messages a channel stores in its log ([channeldb.LogUpdate.UpdateMsg]). *)
Inductive UpdateMsg : Type :=
| UMAdd (m : UpdateAddHTLC)
| UMFulfill (m : UpdateFulfillHTLC)
| UMFail (m : UpdateFailHTLC)
| UMMalformed (m : UpdateFailMalformedHTLC)
| UMFee (m : UpdateFee).

Definition write_update (m : UpdateMsg) : M bytes werr Z :=
  match m with
  | UMAdd m => WriteMessage m
  | UMFulfill m => WriteMessage m
  | UMFail m => WriteMessage m
  | UMMalformed m => WriteMessage m
  | UMFee m => WriteMessage m
  end.

Definition update_type (m : UpdateMsg) : Z :=
  match m with
  | UMAdd m => MsgType m
  | UMFulfill m => MsgType m
  | UMFail m => MsgType m
  | UMMalformed m => MsgType m
  | UMFee m => MsgType m
  end.

(** The rows of [makeEmptyMessage] for these types, and their [Decode]. *)
Definition decode_update (msgType : Z) : option (Reader UpdateMsg) :=
  match msgType with
  | 1128 => Some (m ← UpdateAddHTLC_Decode; mret (UMAdd m))
  | 1131 => Some (m ← UpdateFailHTLC_Decode; mret (UMFail m))
  | 1130 => Some (m ← UpdateFulfillHTLC_Decode; mret (UMFulfill m))
  | 1134 => Some (m ← UpdateFee_Decode; mret (UMFee m))
  | 1135 => Some (m ← UpdateFailMalformedHTLC_Decode; mret (UMMalformed m))
  | _ => None
  end.

Definition update_ok (m : UpdateMsg) : Prop :=
  match m with
  | UMAdd m => wire_ok m /\ Z.of_nat (length (payload m)) <= MaxMsgBody
  | UMFulfill m => wire_ok m /\ Z.of_nat (length (payload m)) <= MaxMsgBody
  | UMFail m => wire_ok m /\ Z.of_nat (length (payload m)) <= MaxMsgBody
  | UMMalformed m => wire_ok m /\ Z.of_nat (length (payload m)) <= MaxMsgBody
  | UMFee m => length (fee_ChanID m) = 32%nat /\ is_uint 32 (fee_FeePerKw m) /\
      Z.of_nat (length (fee_ExtraData m)) <= MaxMsgBody - 36
  end.

(** What survives the wire: everything but the asset id of a fee update. *)
Definition on_wire (m : UpdateMsg) : UpdateMsg :=
  match m with
  | UMFee m => UMFee (mkUpdateFee (fee_ChanID m) 0 (fee_FeePerKw m) (fee_ExtraData m))
  | m => m
  end.

Definition UpdateFee_payload (m : UpdateFee) : bytes :=
  fee_ChanID m ++ be_put 4 (fee_FeePerKw m) ++ fee_ExtraData m.

Lemma UpdateFee_writes m : writes (Encode m) (UpdateFee_payload m).
Proof. solve_encode. Qed.

Lemma UpdateFee_decodes m :
  length (fee_ChanID m) = 32%nat -> is_uint 32 (fee_FeePerKw m) ->
  UpdateFee_Decode (UpdateFee_payload m) =
    (Ok (mkUpdateFee (fee_ChanID m) 0 (fee_FeePerKw m) (fee_ExtraData m)), []).
Proof.
  intros. unfold UpdateFee_Decode, UpdateFee_payload. do 2 decode_step. reflexivity.
Qed.

Lemma decode_then {A B} (d : Reader A) (f : A -> B) p a :
  d p = (Ok a, []) -> (m ← d; mret (f m)) p = (Ok (f a), []).
Proof. intros H. unfold mbind, M_bind. by rewrite H. Qed.

Lemma WriteMessage_payload {A} `{Message A} (m : A) p buf :
  writes (Encode m) p -> Z.of_nat (length p) <= MaxMsgBody ->
  WriteMessage m buf =
    (Ok (Z.of_nat (length p) + 2), buf ++ be_put 2 (MsgType m) ++ p).
Proof.
  intros Hw Hlen. unfold WriteMessage. rewrite Hw.
  rewrite <- app_assoc. rewrite !length_app, length_be_put.
  rewrite (proj2 (Z.ltb_ge _ _)) by lia. do 3 f_equal. lia.
Qed.

(** The frame of a written update, and its payload read by the type in the frame. *)
Lemma update_framed (m : UpdateMsg) (buf : bytes) :
  update_ok m ->
  exists n p d,
    write_update m buf = (Ok n, buf ++ be_put 2 (update_type m) ++ p) /\
    n = Z.of_nat (length p) + 2 /\ n <= 65535 /\
    decode_update (update_type m) = Some d /\ d p = (Ok (on_wire m), []).
Proof.
  intros Hok.
  assert (Hgen : forall A (HA : Message A) (a : A) p d f,
    writes (Encode a) p -> Z.of_nat (length p) <= MaxMsgBody -> d p = (Ok f, []) ->
    exists n q (e : Reader UpdateMsg),
      WriteMessage a buf = (Ok n, buf ++ be_put 2 (MsgType a) ++ q) /\
      n = Z.of_nat (length q) + 2 /\ n <= 65535 /\ Some d = Some e /\ e q = (Ok f, [])).
  { intros A HA a p d f Hw Hl Hd. exists (Z.of_nat (length p) + 2), p, d.
    unfold MaxMsgBody in Hl. split_and!; [by apply WriteMessage_payload|done|lia|done|done]. }
  destruct m as [m|m|m|m|m]; cbn [update_ok] in Hok.
  1-4: destruct Hok as [Hok Hl]; apply Hgen with (p := payload m);
    [by apply encode_payload|exact Hl|apply (decode_then _ _ _ m), (decode_payload m Hok)].
  destruct Hok as (H1 & H2 & H3). apply Hgen with (p := UpdateFee_payload m).
  - apply UpdateFee_writes.
  - unfold UpdateFee_payload. rewrite !length_app, length_be_put, H1. lia.
  - eapply (decode_then _ UMFee). by apply UpdateFee_decodes.
Qed.

(** Every log update a channel stores, written by [WriteMessage], is framed
    by its type, stays within the maximum message size, and its payload decodes
    by that type to the same update, except that a fee update comes back with
    asset id 0. *)
Theorem update_msg_roundtrip (m : UpdateMsg) (buf : bytes) :
  update_ok m ->
  exists n p d,
    write_update m buf = (Ok n, buf ++ be_put 2 (update_type m) ++ p) /\
    n = Z.of_nat (length p) + 2 /\ n <= 65535 /\
    decode_update (update_type m) = Some d /\ d p = (Ok (on_wire m), []).
Proof. apply update_framed. Qed.

Definition fee_example : UpdateMsg :=
  UMFee (mkUpdateFee zero32 2147483651 1000 [Byte.x01; Byte.x02]).

Lemma update_msg_roundtrip_witness :
  exists n p d,
    write_update fee_example [] = (Ok n, be_put 2 1134 ++ p) /\
    n = Z.of_nat (length p) + 2 /\ n <= 65535 /\
    decode_update 1134 = Some d /\ d p = (Ok (on_wire fee_example), []).
Proof.
  apply (update_msg_roundtrip fee_example []).
  split; [reflexivity|]. split; [split; [discriminate|reflexivity]|discriminate].
Defined.

(** The asset id of a fee update does not survive the wire: for every asset
    channel, the decoded message differs from the one that was sent. *)
Theorem update_fee_loses_asset (m : UpdateFee) :
  length (fee_ChanID m) = 32%nat -> is_uint 32 (fee_FeePerKw m) ->
  fee_AssetID m <> 0 ->
  exists p, Encode m [] = (Ok tt, p) /\
    exists m', Decode p = (Ok m', []) /\ m' <> m /\ fee_AssetID m' = 0 /\
      fee_FeePerKw m' = fee_FeePerKw m.
Proof.
  intros H1 H2 H3. exists (UpdateFee_payload m).
  split; [apply UpdateFee_writes|]. eexists.
  split; [by apply (UpdateFee_decodes m)|]. split_and!; [|done..].
  intros Heq. apply H3. by rewrite <- Heq.
Qed.

Lemma update_fee_loses_asset_witness :
  exists p, Encode (mkUpdateFee zero32 31 253 []) [] = (Ok tt, p) /\
    exists m', Decode p = (Ok m', []) /\ m' <> mkUpdateFee zero32 31 253 [] /\
      fee_AssetID m' = 0 /\ fee_FeePerKw m' = 253.
Proof.
  apply (update_fee_loses_asset (mkUpdateFee zero32 31 253 []));
    [reflexivity|split; [discriminate|reflexivity]|discriminate].
Defined.

(** The two messages that carry a commitment point, and a failing encoder:
    with a point the frame decodes to the message, and a [RevokeAndAck] without
    one is refused with the buffer left as it was. *)
Theorem revocation_messages_wire `{PubKeyOps, !PubKeyLaws} (m : RevokeAndAck)
    (c : ChannelReestablish) (buf : bytes) :
  wire_ok c -> Z.of_nat (length (re_ExtraData c)) <= 1000 ->
  (exists n p, WriteMessage c buf = (Ok n, buf ++ be_put 2 1136 ++ p) /\
     Decode p = (Ok c, [])) /\
  match rev_NextRevocationKey m with
  | None => WriteMessage m buf = (Err (ErrorEncodeMessage ErrNilPublicKey), buf)
  | Some _ => wire_ok m -> Z.of_nat (length (rev_ExtraData m)) <= 1000 ->
      exists n p, WriteMessage m buf = (Ok n, buf ++ be_put 2 1133 ++ p) /\
        Decode p = (Ok m, [])
  end.
Proof.
  intros Hc Hx. split.
  - eexists _, (payload c). split; [|by apply decode_payload].
    apply (WriteMessage_Ok c buf Hc). destruct Hc as (H1 & _ & _ & Hp). cbn [payload ChannelReestablish_Laws].
    rewrite !length_app, !length_be_put. unfold MaxMsgBody.
    revert Hp. destruct (re_LocalUnrevokedCommitPoint c); intros Hp;
      rewrite ?length_app, ?pubkey_length; [|lia]. change (length (re_LastRemoteCommitSecret c) = 32%nat) in Hp. lia.
  - destruct m as [ch rv [k|] ex]; cbn [rev_NextRevocationKey rev_ExtraData].
    + intros Hm Hl.
      eexists _, (payload (mkRevokeAndAck ch rv (Some k) ex)).
      split; [|exact (decode_payload _ Hm)].
      apply (WriteMessage_Ok _ buf Hm). destruct Hm as (H1 & H2 & _).
      cbn [payload RevokeAndAck_Laws rev_ChanID rev_Revocation rev_NextRevocationKey
           rev_ExtraData] in *.
      rewrite !length_app, pubkey_length. unfold MaxMsgBody. lia.
    + destruct (WriteMessage _ buf) as [r b] eqn:E.
      assert (Hr : r = Err (ErrorEncodeMessage ErrNilPublicKey)).
      { revert E. unfold WriteMessage. cbn. by intros [= <- _]. }
      subst r. f_equal. 
      apply (WriteMessage_atomic (mkRevokeAndAck ch rv None ex) buf _ b
               (RevokeAndAck_appends _) E).
Qed.

(** A concrete key type: one byte, serialized 33 times. *)
Definition toy_keys : PubKeyOps := {|
  PublicKey := byte;
  SerializeCompressed b := replicate 33 b;
  ParsePubKey b := head b
|}.

Lemma toy_keys_laws : @PubKeyLaws toy_keys.
Proof. split; intros p; [apply length_replicate|reflexivity]. Defined.

Lemma revocation_messages_wire_witness :
  let ops := toy_keys in
  let c := mkChannelReestablish (H := ops) zero32 7 6 zero32 (Some Byte.x02) [] in
  let m := mkRevokeAndAck (H := ops) zero32 zero32 None [] in
  exists n p, WriteMessage c [] = (Ok n, be_put 2 1136 ++ p) /\ Decode p = (Ok c, []).
Proof.
  intros ops c m.
  refine (proj1 (@revocation_messages_wire toy_keys toy_keys_laws m c [] _ _));
    [|discriminate].
  split; [reflexivity|]. split; [split; [discriminate|reflexivity]|].
  split; [split; [discriminate|reflexivity]|reflexivity].
Defined.
