(* ===== verification/ChanIds.v ===== *)
(** * Channel identifiers

    Round trips of the short channel id ([lnwire/short_channel_id.go]) through
    its 64-bit and its wire form, and the relation between a funding outpoint
    and the channel id computed from it ([lnwire/channel_id.go]). *)

From S2P Require Import Prelude Wire.

Definition scid_ok (c : ShortChannelID) : Prop :=
  is_uint 24 (BlockHeight c) /\ is_uint 24 (TxIndex c) /\ is_uint 16 (TxPosition c).

(** ** Bits *)
Lemma lor_shiftl_add a b n : 0 <= n -> is_uint n b -> Z.lor (Z.shiftl a n) b = a * 2 ^ n + b.
Proof.
  intros Hn Hb. rewrite Z.shiftl_mul_pow2 by done.
  rewrite <- Z.add_lor_land.
  enough (Z.land (a * 2 ^ n) b = 0) by lia.
  apply Z.bits_inj'. intros i Hi. rewrite Z.land_spec, Z.bits_0.
  destruct (Z.lt_ge_cases i n).
  - rewrite Z.mul_pow2_bits_low by done. done.
  - rewrite <- (Z.mod_small b (2 ^ n)) by done. rewrite Z.mod_pow2_bits_high by lia.
    by rewrite andb_false_r.
Qed.

Lemma ToUint64_eq c : scid_ok c ->
  ToUint64 c = BlockHeight c * 2 ^ 40 + TxIndex c * 2 ^ 16 + TxPosition c.
Proof.
  unfold scid_ok, is_uint. intros (Hb & Ht & Hp). unfold ToUint64.
  assert (E1 : u64 (Z.shiftl (BlockHeight c) 40) = Z.shiftl (BlockHeight c) 40).
  { apply uwrap_id. unfold is_uint. rewrite Z.shiftl_mul_pow2; lia. }
  assert (E2 : u64 (Z.shiftl (TxIndex c) 16) = TxIndex c * 2 ^ 16).
  { rewrite Z.shiftl_mul_pow2 by lia. apply uwrap_id. unfold is_uint. lia. }
  rewrite E1, E2, (lor_shiftl_add _ _ 40) by (unfold is_uint; lia).
  replace (BlockHeight c * 2 ^ 40 + TxIndex c * 2 ^ 16)
    with (Z.shiftl (BlockHeight c * 2 ^ 24 + TxIndex c) 16)
    by (rewrite Z.shiftl_mul_pow2 by lia; lia).
  rewrite lor_shiftl_add by (unfold is_uint; lia).
  rewrite Z.shiftl_mul_pow2 by lia. lia.
Qed.

Lemma land_ones_mod a : Z.land a 0xFFFFFF = a mod 2 ^ 24.
Proof. exact (Z.land_ones a 24 ltac:(lia)). Qed.

Lemma be_get_cons0 bs : be_get (Byte.x00 :: bs) = be_get bs.
Proof.
  unfold be_get. simpl rev. apply LittleEndianList.le_combine_snoc_0.
Qed.

Lemma be_get_drop_put z : is_uint 24 z -> be_get (drop 1 (be_put 4 z)) = z.
Proof.
  intros Hz.
  assert (Hhd : be_put 4 z = Byte.x00 :: drop 1 (be_put 4 z)).
  { cbv [be_put LittleEndianList.le_split rev app drop].
    f_equal. rewrite !Z.shiftr_shiftr by lia. rewrite Z.shiftr_div_pow2 by lia.
    unfold is_uint in Hz. rewrite Z.div_small by exact Hz. reflexivity. }
  rewrite <- be_get_cons0, <- Hhd. apply be_get_put_id. unfold is_uint in *. lia.
Qed.

(** ** Theorems *)

(** A short channel id whose fields fit (24, 24 and 16 bits) survives both
    its compact 64-bit form and its wire form, and every 64-bit value is the
    compact form of the id it decodes to. *)
Theorem short_chan_id_roundtrip (c : ShortChannelID) (chanID : Z) :
  scid_ok c -> is_uint 64 chanID ->
  NewShortChanIDFromInt (ToUint64 c) = c /\
  ToUint64 (NewShortChanIDFromInt chanID) = chanID /\
  exists p, writes (WriteShortChannelID c) p /\ length p = 8%nat /\
    reads ReadShortChannelID p c.
Proof.
  intros Hc Hid. pose proof Hc as (Hb & Ht & Hp). unfold is_uint in Hb, Ht, Hp, Hid.
  split_and!.
  - unfold NewShortChanIDFromInt. rewrite ToUint64_eq by done. unfold uwrap.
    rewrite !Z.shiftr_div_pow2, land_ones_mod by lia.
    destruct c as [b t p]; cbn [BlockHeight TxIndex TxPosition] in *. f_equal; Z.div_mod_to_equations; lia.
  - assert (Hok : scid_ok (NewShortChanIDFromInt chanID)).
    { unfold scid_ok, NewShortChanIDFromInt, is_uint, uwrap; cbn [BlockHeight TxIndex TxPosition].
      rewrite !Z.shiftr_div_pow2, land_ones_mod by lia.
      split_and!; Z.div_mod_to_equations; lia. }
    rewrite ToUint64_eq by done. unfold NewShortChanIDFromInt, uwrap; cbn [BlockHeight TxIndex TxPosition].
    rewrite !Z.shiftr_div_pow2, land_ones_mod by lia. Z.div_mod_to_equations; lia.
  - exists (drop 1 (be_put 4 (BlockHeight c)) ++ drop 1 (be_put 4 (TxIndex c)) ++
      be_put 2 (TxPosition c)). split_and!.
    + change (?x ++ ?y) with ([] ++ x ++ ([] ++ y)) at 1.
      unfold WriteShortChannelID.
      repeat (apply writes_bind || apply writes_bytes || (apply writes_check; lia)).
    + by rewrite !length_app, !length_drop, !length_be_put.
    + unfold ReadShortChannelID.
      do 2 (eapply reads_bind; [by apply reads_full; rewrite length_drop, length_be_put|]).
      eapply reads_bind_nil; [by apply reads_full; rewrite length_be_put|].
      rewrite !be_get_cons0, !be_get_drop_put, be_get_put_id by done.
      destruct c. apply reads_ret.
Qed.

Definition scid_example : ShortChannelID := mkSCID 700001 42 3.

Lemma short_chan_id_roundtrip_witness :
  NewShortChanIDFromInt (ToUint64 scid_example) = scid_example /\
  ToUint64 (NewShortChanIDFromInt 769659239628537859) = 769659239628537859 /\
  exists p, writes (WriteShortChannelID scid_example) p /\ length p = 8%nat /\
    reads ReadShortChannelID p scid_example.
Proof.
  apply (short_chan_id_roundtrip scid_example 769659239628537859).
  - repeat split; vm_compute; congruence.
  - split; vm_compute; congruence.
Defined.

(** ** Channel ids of outpoints *)

Lemma xor_byte_invol a b : xor_byte (xor_byte a b) b = a.
Proof.
  unfold xor_byte. rewrite byte.unsigned_of_Z. unfold byte.wrap.
  rewrite Z.mod_small.
  - rewrite Z.lxor_assoc, Z.lxor_nilpotent, Z.lxor_0_r. apply byte.of_Z_unsigned.
  - apply lxor_range; [lia|apply byte.unsigned_range..].
Qed.

Lemma length_xorTxid h i : length (xorTxid h i) = length h.
Proof. unfold xorTxid. by rewrite !length_insert. Qed.

Lemma be_put2_lookup i (j : nat) : (j < 2)%nat -> exists b, be_put 2 i !! j = Some b.
Proof. intros Hj. apply lookup_lt_is_Some_2. by rewrite length_be_put. Qed.

Lemma xorTxid_invol h i : length h = 32%nat -> xorTxid (xorTxid h i) i = h.
Proof.
  intros Hh. unfold xorTxid.
  destruct (be_put2_lookup i 0) as [b0 ->]; [lia|].
  destruct (be_put2_lookup i 1) as [b1 ->]; [lia|].
  destruct (lookup_lt_is_Some_2 h 30) as [x Hx]; [lia|].
  destruct (lookup_lt_is_Some_2 h 31) as [y Hy]; [lia|].
  rewrite Hx, Hy.
  rewrite (list_lookup_insert_ne _ 31 30) by lia.
  rewrite (list_lookup_insert_eq _ 30) by lia.
  rewrite list_lookup_insert_eq by (rewrite ?length_insert; lia).
  rewrite !xor_byte_invol.
  apply list_eq. intros k. rewrite list_lookup_insert.
  case_decide as H1; [by destruct H1 as [<- _]|].
  rewrite list_lookup_insert. case_decide as H2; [by destruct H2 as [<- _]|].
  rewrite !length_insert, Hh in *.
  rewrite !list_lookup_insert_ne by lia. done.
Qed.

Lemma elem_of_Gen c op :
  op ∈ GenPossibleOutPoints c <->
  0 <= Index op < MaxFundingTxOutputs /\ Hash op = xorTxid c (Index op).
Proof.
  unfold GenPossibleOutPoints. rewrite list_elem_of_fmap. split.
  - intros (i & -> & Hi%elem_of_seq). unfold MaxFundingTxOutputs in *. simpl. split; [lia|done].
  - intros [Hi Hh]. exists (Z.to_nat (Index op)).
    rewrite elem_of_seq. unfold MaxFundingTxOutputs in *. destruct op as [h i]; simpl in *. split; [|lia].
    rewrite !Z2Nat.id by lia. by rewrite Hh.
Qed.

(** The brute-force inversion of a channel id finds the funding outpoint it
    was computed from, for every output index below [MaxFundingTxOutputs], and
    every outpoint it proposes has that channel id; the outpoint with the
    largest 16-bit index, 65535, is the one it misses. *)
Theorem possible_outpoints_complete (op : OutPoint) :
  length (Hash op) = 32%nat -> is_uint 16 (Index op) ->
  let cid := NewChanIDFromOutPoint op in
  IsChanPoint cid op = true /\
  (op ∈ GenPossibleOutPoints cid <-> Index op <> 65535) /\
  forall op', op' ∈ GenPossibleOutPoints cid -> IsChanPoint cid op' = true.
Proof.
  intros Hh Hi cid. unfold is_uint in Hi.
  assert (Hc : forall o, 0 <= Index o < 2 ^ 16 ->
    NewChanIDFromOutPoint o = xorTxid (Hash o) (Index o)).
  { intros o Ho. unfold NewChanIDFromOutPoint. by rewrite uwrap_id. }
  unfold IsChanPoint. split_and!.
  - by apply bool_decide_eq_true_2.
  - unfold cid. rewrite elem_of_Gen, Hc, xorTxid_invol by done.
    unfold MaxFundingTxOutputs. split; [intros [? _]; lia|intros; split; [lia|done]].
  - intros op' [Hr Ho]%elem_of_Gen. unfold MaxFundingTxOutputs in Hr.
    apply bool_decide_eq_true_2. rewrite Hc by lia. rewrite Ho. apply xorTxid_invol.
    unfold cid. rewrite Hc by done. by rewrite length_xorTxid.
Qed.

Lemma possible_outpoints_complete_witness :
  let op := mkOutPoint (replicate 32 Byte.xa5) 7 in
  let cid := NewChanIDFromOutPoint op in
  IsChanPoint cid op = true /\
  (op ∈ GenPossibleOutPoints cid <-> 7 <> 65535) /\
  forall op', op' ∈ GenPossibleOutPoints cid -> IsChanPoint cid op' = true.
Proof.
  intros op. apply (possible_outpoints_complete op); [reflexivity|].
  split; [discriminate|reflexivity].
Defined.
