(* ===== verification/Failures.v ===== *)
(** * Failure messages ([lnwire/onion_error.go], [lnwire/channel_update.go],
      [htlcswitch/failure.go])

    Why an HTLC failed, as it travels back in the onion: a code, and for some codes
    data, often the channel update of the channel that refused.  Every failure is
    padded to one length, so that it does not show what it is. *)

From S2P Require Import Prelude Wire Messages ChanIds.

(** ** Channel updates *)
Record ChannelUpdate := mkChannelUpdate {
  cu_Signature : bytes;
  cu_ChainHash : bytes;
  cu_ShortChannelID : ShortChannelID;
  cu_Timestamp : Z;
  cu_MessageFlags : Z;
  cu_ChannelFlags : Z;
  cu_TimeLockDelta : Z;
  cu_HtlcMinimumMsat : Z;
  cu_BaseFee : Z;
  cu_FeeRate : Z;
  cu_HtlcMaximumMsat : Z;
  cu_AssetId : Z;
  cu_ExtraOpaqueData : bytes
}.

#[export] Instance ChannelUpdate_eq_dec : EqDecision ChannelUpdate.
Proof. solve_decision. Defined.

Definition ChanUpdateOptionMaxHtlc : Z := 1.
Definition ChanUpdateDisabled : Z := 2.
Definition HasMaxHtlc (flags : Z) : bool := negb (Z.land flags ChanUpdateOptionMaxHtlc =? 0).
Definition IsDisabled (flags : Z) : bool := Z.land flags ChanUpdateDisabled =? ChanUpdateDisabled.

(** What the signature covers, and after it the rest of the message. *)
Definition ChannelUpdate_Body (a : ChannelUpdate) : Writer :=
  _ ← WriteBytes (cu_ChainHash a);
  _ ← WriteShortChannelID (cu_ShortChannelID a);
  _ ← WriteUint32 (cu_Timestamp a);
  _ ← WriteUint8 (cu_MessageFlags a);
  _ ← WriteUint8 (cu_ChannelFlags a);
  _ ← WriteUint16 (cu_TimeLockDelta a);
  _ ← WriteUint64 (cu_HtlcMinimumMsat a);
  _ ← WriteUint32 (cu_AssetId a);
  _ ← WriteUint32 (cu_BaseFee a);
  _ ← WriteUint64 (cu_FeeRate a);
  _ ← (if HasMaxHtlc (cu_MessageFlags a) then WriteUint64 (cu_HtlcMaximumMsat a) else mret tt);
  WriteBytes (cu_ExtraOpaqueData a).

Definition ChannelUpdate_Encode (a : ChannelUpdate) : Writer := _ ← WriteSig (cu_Signature a); ChannelUpdate_Body a.

Definition DataToSign (a : ChannelUpdate) : res werr bytes :=
  match ChannelUpdate_Body a [] with
  | (Ok _, b) => Ok b
  | (Err e, _) => Err e
  | (Panic, _) => Panic
  end.

Definition ChannelUpdate_Decode : Reader ChannelUpdate :=
  sig ← ReadSig;
  chainHash ← ReadFull 32;
  scid ← ReadShortChannelID;
  timestamp ← ReadUint32;
  messageFlags ← ReadUint8;
  channelFlags ← ReadUint8;
  timeLockDelta ← ReadUint16;
  htlcMinimum ← ReadUint64;
  assetId ← ReadUint32;
  baseFee ← ReadUint32;
  feeRate ← ReadUint64;
  htlcMaximum ← (if HasMaxHtlc messageFlags then ReadUint64 else mret 0);
  extra ← ReadExtraOpaqueData;
  mret (mkChannelUpdate sig chainHash scid timestamp messageFlags channelFlags timeLockDelta htlcMinimum baseFee feeRate
    htlcMaximum assetId extra).

#[export] Instance ChannelUpdate_Message : Message ChannelUpdate :=
  {| MsgType _ := 1258; Encode := ChannelUpdate_Encode; Decode := ChannelUpdate_Decode |}.

(** ** The failures *)
Inductive FailureMessage : Type :=
| FailInvalidRealm
| FailTemporaryNodeFailure
| FailPermanentNodeFailure
| FailRequiredNodeFeatureMissing
| FailPermanentChannelFailure
| FailRequiredChannelFeatureMissing
| FailUnknownNextPeer
| FailIncorrectPaymentAmount
| FailIncorrectDetails (amount height : Z)
| FailFinalExpiryTooSoon
| FailInvalidOnionVersion (OnionSHA256 : bytes)
| FailInvalidOnionHmac (OnionSHA256 : bytes)
| FailInvalidOnionKey (OnionSHA256 : bytes)
| FailTemporaryChannelFailure (Update : option ChannelUpdate)
| FailAmountBelowMinimum (HtlcMsat : Z) (Update : ChannelUpdate)
| FailFeeInsufficient (HtlcMsat : Z) (Update : ChannelUpdate)
| FailIncorrectCltvExpiry (CltvExpiry : Z) (Update : ChannelUpdate)
| FailExpiryTooSoon (Update : ChannelUpdate)
| FailChannelDisabled (Flags : Z) (Update : ChannelUpdate)
| FailFinalIncorrectCltvExpiry (CltvExpiry : Z)
| FailFinalIncorrectHtlcAmount (IncomingHTLCAmount : Z)
| FailExpiryTooFar
| InvalidOnionPayload (Type_ Offset : Z)
| FailMPPTimeout.

#[export] Instance FailureMessage_eq_dec : EqDecision FailureMessage.
Proof. solve_decision. Defined.

Definition FailureMessageLength : Z := 256.

Definition FlagBadOnion : Z := 0x8000.
Definition FlagPerm : Z := 0x4000.
Definition FlagNode : Z := 0x2000.
Definition FlagUpdate : Z := 0x1000.

Definition CodeNone : Z := 0.
Definition CodeInvalidRealm : Z := Z.lor FlagBadOnion 1.
Definition CodeTemporaryNodeFailure : Z := Z.lor FlagNode 2.
Definition CodePermanentNodeFailure : Z := Z.lor (Z.lor FlagPerm FlagNode) 2.
Definition CodeRequiredNodeFeatureMissing : Z := Z.lor (Z.lor FlagPerm FlagNode) 3.
Definition CodeInvalidOnionVersion : Z := Z.lor (Z.lor FlagBadOnion FlagPerm) 4.
Definition CodeInvalidOnionHmac : Z := Z.lor (Z.lor FlagBadOnion FlagPerm) 5.
Definition CodeInvalidOnionKey : Z := Z.lor (Z.lor FlagBadOnion FlagPerm) 6.
Definition CodeTemporaryChannelFailure : Z := Z.lor FlagUpdate 7.
Definition CodePermanentChannelFailure : Z := Z.lor FlagPerm 8.
Definition CodeRequiredChannelFeatureMissing : Z := Z.lor FlagPerm 9.
Definition CodeUnknownNextPeer : Z := Z.lor FlagPerm 10.
Definition CodeAmountBelowMinimum : Z := Z.lor FlagUpdate 11.
Definition CodeFeeInsufficient : Z := Z.lor FlagUpdate 12.
Definition CodeIncorrectCltvExpiry : Z := Z.lor FlagUpdate 13.
Definition CodeExpiryTooSoon : Z := Z.lor FlagUpdate 14.
Definition CodeChannelDisabled : Z := Z.lor FlagUpdate 20.
Definition CodeIncorrectOrUnknownPaymentDetails : Z := Z.lor FlagPerm 15.
Definition CodeIncorrectPaymentAmount : Z := Z.lor FlagPerm 16.
Definition CodeFinalExpiryTooSoon : Z := 17.
Definition CodeFinalIncorrectCltvExpiry : Z := 18.
Definition CodeFinalIncorrectHtlcAmount : Z := 19.
Definition CodeExpiryTooFar : Z := 21.
Definition CodeInvalidOnionPayload : Z := Z.lor FlagPerm 22.
Definition CodeMPPTimeout : Z := 23.

Definition Code (f : FailureMessage) : Z :=
  match f with
  | FailInvalidRealm => CodeInvalidRealm
  | FailTemporaryNodeFailure => CodeTemporaryNodeFailure
  | FailPermanentNodeFailure => CodePermanentNodeFailure
  | FailRequiredNodeFeatureMissing => CodeRequiredNodeFeatureMissing
  | FailPermanentChannelFailure => CodePermanentChannelFailure
  | FailRequiredChannelFeatureMissing => CodeRequiredChannelFeatureMissing
  | FailUnknownNextPeer => CodeUnknownNextPeer
  | FailIncorrectPaymentAmount => CodeIncorrectPaymentAmount
  | FailIncorrectDetails _ _ => CodeIncorrectOrUnknownPaymentDetails
  | FailFinalExpiryTooSoon => CodeFinalExpiryTooSoon
  | FailInvalidOnionVersion _ => CodeInvalidOnionVersion
  | FailInvalidOnionHmac _ => CodeInvalidOnionHmac
  | FailInvalidOnionKey _ => CodeInvalidOnionKey
  | FailTemporaryChannelFailure _ => CodeTemporaryChannelFailure
  | FailAmountBelowMinimum _ _ => CodeAmountBelowMinimum
  | FailFeeInsufficient _ _ => CodeFeeInsufficient
  | FailIncorrectCltvExpiry _ _ => CodeIncorrectCltvExpiry
  | FailExpiryTooSoon _ => CodeExpiryTooSoon
  | FailChannelDisabled _ _ => CodeChannelDisabled
  | FailFinalIncorrectCltvExpiry _ => CodeFinalIncorrectCltvExpiry
  | FailFinalIncorrectHtlcAmount _ => CodeFinalIncorrectHtlcAmount
  | FailExpiryTooFar => CodeExpiryTooFar
  | InvalidOnionPayload _ _ => CodeInvalidOnionPayload
  | FailMPPTimeout => CodeMPPTimeout
  end.

Inductive failerr : Type :=
| ErrReadLength (e : werr) | ErrFailureTooLong (length : Z) | ErrReadPayload (e : werr)
| ErrReadCode (e : werr) | ErrUnknownCode (code : Z) | ErrDecodeUpdate (e : werr)
| ErrEncode (e : werr) | ErrExceedsMax (length : Z).

(** [tlv.WriteVarInt] and [tlv.ReadVarInt] of the tlv module. *)
Class VarIntOps : Type := { WriteVarInt : Z -> bytes; ReadVarInt : Reader Z }.
Class VarIntLaws `{VarIntOps} : Prop := {
  varint_reads z : is_uint 64 z -> reads ReadVarInt (WriteVarInt z) z;
  varint_length z : is_uint 64 z -> (length (WriteVarInt z) <= 9)%nat
}.

Section Codec.
Context `{VarIntOps}.

(** *** Writing *)
Definition writeOnionErrorChanUpdate (chanUpdate : ChannelUpdate) : Writer := fun w =>
  match ChannelUpdate_Encode chanUpdate [] with
  | (Ok _, b) => (_ ← WriteUint16 (u16 (Z.of_nat (length b))); WriteBytes b) w
  | (Err e, _) => (Err e, w)
  | (Panic, _) => (Panic, w)
  end.

Definition FailTemporaryChannelFailure_Encode (update : option ChannelUpdate) : Writer :=
  match update with
  | Some update => writeOnionErrorChanUpdate update
  | None => _ ← WriteUint16 0; WriteBytes []
  end.

Definition FailIncorrectDetails_Encode (amount height : Z) : Writer := _ ← WriteUint64 amount; WriteUint32 height.
Definition FailInvalidOnionVersion_Encode (sha : bytes) : Writer := WriteBytes sha.
Definition FailInvalidOnionHmac_Encode (sha : bytes) : Writer := WriteBytes sha.
Definition FailInvalidOnionKey_Encode (sha : bytes) : Writer := WriteBytes sha.
Definition FailAmountBelowMinimum_Encode (amt : Z) (update : ChannelUpdate) : Writer := _ ← WriteUint64 amt; writeOnionErrorChanUpdate update.
Definition FailFeeInsufficient_Encode (amt : Z) (update : ChannelUpdate) : Writer := _ ← WriteUint64 amt; writeOnionErrorChanUpdate update.
Definition FailIncorrectCltvExpiry_Encode (expiry : Z) (update : ChannelUpdate) : Writer := _ ← WriteUint32 expiry; writeOnionErrorChanUpdate update.
Definition FailExpiryTooSoon_Encode (update : ChannelUpdate) : Writer := writeOnionErrorChanUpdate update.
Definition FailChannelDisabled_Encode (flags : Z) (update : ChannelUpdate) : Writer := _ ← WriteUint16 flags; writeOnionErrorChanUpdate update.
Definition FailFinalIncorrectCltvExpiry_Encode (expiry : Z) : Writer := WriteUint32 expiry.
Definition FailFinalIncorrectHtlcAmount_Encode (amt : Z) : Writer := WriteUint64 amt.
Definition InvalidOnionPayload_Encode (typ offset : Z) : Writer := _ ← WriteBytes (WriteVarInt typ); WriteUint16 offset.

Definition Failure_Encode (f : FailureMessage) : Writer :=
  match f with
  | FailIncorrectDetails amount height => FailIncorrectDetails_Encode amount height
  | FailInvalidOnionVersion sha => FailInvalidOnionVersion_Encode sha
  | FailInvalidOnionHmac sha => FailInvalidOnionHmac_Encode sha
  | FailInvalidOnionKey sha => FailInvalidOnionKey_Encode sha
  | FailTemporaryChannelFailure update => FailTemporaryChannelFailure_Encode update
  | FailAmountBelowMinimum amt update => FailAmountBelowMinimum_Encode amt update
  | FailFeeInsufficient amt update => FailFeeInsufficient_Encode amt update
  | FailIncorrectCltvExpiry expiry update => FailIncorrectCltvExpiry_Encode expiry update
  | FailExpiryTooSoon update => FailExpiryTooSoon_Encode update
  | FailChannelDisabled flags update => FailChannelDisabled_Encode flags update
  | FailFinalIncorrectCltvExpiry expiry => FailFinalIncorrectCltvExpiry_Encode expiry
  | FailFinalIncorrectHtlcAmount amt => FailFinalIncorrectHtlcAmount_Encode amt
  | InvalidOnionPayload typ offset => InvalidOnionPayload_Encode typ offset
  | _ => mret tt
  end.

Definition EncodeFailureMessage (f : FailureMessage) : Writer :=
  _ ← WriteUint16 (Code f); Failure_Encode f.

Definition EncodeFailure (f : FailureMessage) : M bytes failerr unit := fun w =>
  match EncodeFailureMessage f [] with
  | (Err e, _) => (Err (ErrEncode e), w)
  | (Panic, _) => (Panic, w)
  | (Ok _, failureMessage) =>
      let n := Z.of_nat (length failureMessage) in
      if FailureMessageLength <? n then (Err (ErrExceedsMax n), w)
      else
        let pad := replicate (Z.to_nat (FailureMessageLength - n)) Byte.x00 in
        map_err ErrEncode
          (_ ← WriteUint16 (u16 n); _ ← WriteBytes failureMessage;
           _ ← WriteUint16 (u16 (Z.of_nat (length pad))); WriteBytes pad) w
  end.

(** *** Reading *)

(** Some nodes send the update with its message type in front. *)
Definition parseChannelUpdateCompatabilityMode : Reader ChannelUpdate := fun r =>
  match r with
  | a :: b :: rest => ChannelUpdate_Decode (if be_get [a; b] =? 1258 then rest else r)
  | _ => (Err EOF, r)
  end.

Definition FailIncorrectDetails_Decode : Reader FailureMessage := fun r =>
  match ReadUint64 r with
  | (Err EOF, r) => (Ok (FailIncorrectDetails 0 0), r)
  | (Err e, r) => (Err e, r)
  | (Panic, r) => (Panic, r)
  | (Ok amount, r) =>
      match ReadUint32 r with
      | (Err EOF, r) => (Ok (FailIncorrectDetails amount 0), r)
      | (Err e, r) => (Err e, r)
      | (Panic, r) => (Panic, r)
      | (Ok height, r) => (Ok (FailIncorrectDetails amount height), r)
      end
  end.

Definition FailTemporaryChannelFailure_Decode : Reader FailureMessage :=
  l ← ReadUint16;
  if l =? 0 then mret (FailTemporaryChannelFailure None)
  else u ← parseChannelUpdateCompatabilityMode; mret (FailTemporaryChannelFailure (Some u)).

(** A field, the length of the update, which is not looked at, and the update. *)
Definition with_update {A} (field : Reader A) (mk : A -> ChannelUpdate -> FailureMessage) : Reader FailureMessage :=
  a ← field; _ ← ReadUint16; u ← parseChannelUpdateCompatabilityMode; mret (mk a u).

Definition FailInvalidOnionVersion_Decode : Reader FailureMessage := s ← ReadFull 32; mret (FailInvalidOnionVersion s).
Definition FailInvalidOnionHmac_Decode : Reader FailureMessage := s ← ReadFull 32; mret (FailInvalidOnionHmac s).
Definition FailInvalidOnionKey_Decode : Reader FailureMessage := s ← ReadFull 32; mret (FailInvalidOnionKey s).
Definition FailAmountBelowMinimum_Decode : Reader FailureMessage := with_update ReadUint64 FailAmountBelowMinimum.
Definition FailFeeInsufficient_Decode : Reader FailureMessage := with_update ReadUint64 FailFeeInsufficient.
Definition FailIncorrectCltvExpiry_Decode : Reader FailureMessage := with_update ReadUint32 FailIncorrectCltvExpiry.
Definition FailExpiryTooSoon_Decode : Reader FailureMessage := with_update (mret tt) (fun _ => FailExpiryTooSoon).
Definition FailChannelDisabled_Decode : Reader FailureMessage := with_update ReadUint16 FailChannelDisabled.
Definition FailFinalIncorrectCltvExpiry_Decode : Reader FailureMessage := e ← ReadUint32; mret (FailFinalIncorrectCltvExpiry e).
Definition FailFinalIncorrectHtlcAmount_Decode : Reader FailureMessage := a ← ReadUint64; mret (FailFinalIncorrectHtlcAmount a).

Definition InvalidOnionPayload_Decode : Reader FailureMessage :=
  typ ← ReadVarInt; offset ← ReadUint16; mret (InvalidOnionPayload typ offset).

(** The failure of a code, and how its data is read. *)
Definition makeEmptyOnionError (code : Z) : option (Reader FailureMessage) :=
  if code =? CodeInvalidRealm then Some (mret FailInvalidRealm)
  else if code =? CodeTemporaryNodeFailure then Some (mret FailTemporaryNodeFailure)
  else if code =? CodePermanentNodeFailure then Some (mret FailPermanentNodeFailure)
  else if code =? CodeRequiredNodeFeatureMissing then Some (mret FailRequiredNodeFeatureMissing)
  else if code =? CodePermanentChannelFailure then Some (mret FailPermanentChannelFailure)
  else if code =? CodeRequiredChannelFeatureMissing then Some (mret FailRequiredChannelFeatureMissing)
  else if code =? CodeUnknownNextPeer then Some (mret FailUnknownNextPeer)
  else if code =? CodeIncorrectOrUnknownPaymentDetails then Some FailIncorrectDetails_Decode
  else if code =? CodeIncorrectPaymentAmount then Some (mret FailIncorrectPaymentAmount)
  else if code =? CodeFinalExpiryTooSoon then Some (mret FailFinalExpiryTooSoon)
  else if code =? CodeInvalidOnionVersion then Some FailInvalidOnionVersion_Decode
  else if code =? CodeInvalidOnionHmac then Some FailInvalidOnionHmac_Decode
  else if code =? CodeInvalidOnionKey then Some FailInvalidOnionKey_Decode
  else if code =? CodeTemporaryChannelFailure then Some FailTemporaryChannelFailure_Decode
  else if code =? CodeAmountBelowMinimum then Some FailAmountBelowMinimum_Decode
  else if code =? CodeFeeInsufficient then Some FailFeeInsufficient_Decode
  else if code =? CodeIncorrectCltvExpiry then Some FailIncorrectCltvExpiry_Decode
  else if code =? CodeExpiryTooSoon then Some FailExpiryTooSoon_Decode
  else if code =? CodeChannelDisabled then Some FailChannelDisabled_Decode
  else if code =? CodeFinalIncorrectCltvExpiry then Some FailFinalIncorrectCltvExpiry_Decode
  else if code =? CodeFinalIncorrectHtlcAmount then Some FailFinalIncorrectHtlcAmount_Decode
  else if code =? CodeExpiryTooFar then Some (mret FailExpiryTooFar)
  else if code =? CodeInvalidOnionPayload then Some InvalidOnionPayload_Decode
  else if code =? CodeMPPTimeout then Some (mret FailMPPTimeout)
  else None.

Definition DecodeFailureMessage : M bytes failerr FailureMessage :=
  failCode ← map_err ErrReadCode ReadUint16;
  match makeEmptyOnionError failCode with
  | None => throw (ErrUnknownCode failCode)
  | Some decode => map_err ErrDecodeUpdate decode
  end.

Definition DecodeFailure : M bytes failerr FailureMessage :=
  failureLength ← map_err ErrReadLength ReadUint16;
  _ ← check (FailureMessageLength <? failureLength) (ErrFailureTooLong failureLength);
  failureData ← map_err ErrReadPayload (ReadFull (Z.to_nat failureLength));
  lift (fst (DecodeFailureMessage failureData)).
End Codec.

(** ** Failures of a link ([htlcswitch/failure.go], [failure_detail.go]) *)
Inductive OutgoingFailure : Type :=
| OutgoingFailureNone | OutgoingFailureDecodeError | OutgoingFailureLinkNotEligible | OutgoingFailureOnChainTimeout
| OutgoingFailureHTLCExceedsMax | OutgoingFailureInsufficientBalance | OutgoingFailureCircularRoute
| OutgoingFailureIncompleteForward | OutgoingFailureDownstreamHtlcAdd | OutgoingFailureForwardsDisabled.

#[export] Instance OutgoingFailure_eq_dec : EqDecision OutgoingFailure.
Proof. solve_decision. Defined.

Record LinkError := mkLinkError { WireMessage : FailureMessage; detail : option OutgoingFailure }.

#[export] Instance LinkError_eq_dec : EqDecision LinkError.
Proof. solve_decision. Defined.

Definition NewLinkError (msg : FailureMessage) : LinkError := mkLinkError msg None.
Definition NewDetailedLinkError (msg : FailureMessage) (d : OutgoingFailure) : LinkError := mkLinkError msg (Some d).

(** ** Round trips *)
Definition update_wire_ok (u : ChannelUpdate) : Prop :=
  length (cu_Signature u) = 64%nat /\ length (cu_ChainHash u) = 32%nat /\ scid_ok (cu_ShortChannelID u) /\
  is_uint 32 (cu_Timestamp u) /\ is_uint 8 (cu_MessageFlags u) /\ is_uint 8 (cu_ChannelFlags u) /\
  is_uint 16 (cu_TimeLockDelta u) /\ is_uint 64 (cu_HtlcMinimumMsat u) /\ is_uint 32 (cu_AssetId u) /\
  is_uint 32 (cu_BaseFee u) /\ is_uint 64 (cu_FeeRate u) /\
  (if HasMaxHtlc (cu_MessageFlags u) then is_uint 64 (cu_HtlcMaximumMsat u) else cu_HtlcMaximumMsat u = 0).

Definition scid_bytes (c : ShortChannelID) : bytes :=
  drop 1 (be_put 4 (BlockHeight c)) ++ drop 1 (be_put 4 (TxIndex c)) ++ be_put 2 (TxPosition c).

Lemma writes_scid c : scid_ok c -> writes (WriteShortChannelID c) (scid_bytes c).
Proof.
  intros (Hb & Ht & _). unfold is_uint in *. unfold WriteShortChannelID, scid_bytes.
  change (?x ++ ?y ++ ?z) with ([] ++ x ++ ([] ++ y ++ z)) at 1.
  repeat (apply writes_bind || apply writes_bytes || (apply writes_check; lia)).
Qed.

Lemma reads_scid c : scid_ok c -> reads ReadShortChannelID (scid_bytes c) c.
Proof.
  intros (Hb & Ht & Hp). unfold ReadShortChannelID, scid_bytes.
  do 2 (eapply reads_bind; [by apply reads_full; rewrite length_drop, length_be_put|]).
  eapply reads_bind_nil; [by apply reads_full; rewrite length_be_put|].
  rewrite !be_get_cons0, !be_get_drop_put, be_get_put_id by done. destruct c. apply reads_ret.
Qed.
#[export] Hint Resolve writes_scid reads_scid : wire.

Definition max_htlc_bytes (u : ChannelUpdate) : bytes :=
  if HasMaxHtlc (cu_MessageFlags u) then be_put 8 (cu_HtlcMaximumMsat u) else [].

Definition update_body (u : ChannelUpdate) : bytes :=
  cu_ChainHash u ++ scid_bytes (cu_ShortChannelID u) ++ be_put 4 (cu_Timestamp u) ++
  be_put 1 (cu_MessageFlags u) ++ be_put 1 (cu_ChannelFlags u) ++ be_put 2 (cu_TimeLockDelta u) ++
  be_put 8 (cu_HtlcMinimumMsat u) ++ be_put 4 (cu_AssetId u) ++ be_put 4 (cu_BaseFee u) ++
  be_put 8 (cu_FeeRate u) ++ max_htlc_bytes u ++ cu_ExtraOpaqueData u.

Lemma writes_max u : writes (if HasMaxHtlc (cu_MessageFlags u) then WriteUint64 (cu_HtlcMaximumMsat u) else mret tt) (max_htlc_bytes u).
Proof. unfold max_htlc_bytes. case_match; eauto with wire. Qed.

Lemma reads_max u : update_wire_ok u ->
  reads (if HasMaxHtlc (cu_MessageFlags u) then ReadUint64 else mret 0) (max_htlc_bytes u) (cu_HtlcMaximumMsat u).
Proof.
  intros (_&_&_&_&_&_&_&_&_&_&_&Hm). unfold max_htlc_bytes. destruct (HasMaxHtlc _); [by apply reads_uint64|].
  rewrite Hm. apply reads_ret.
Qed.
#[export] Hint Resolve writes_max reads_max : wire.

#[export] Program Instance ChannelUpdate_Laws : MessageLaws ChannelUpdate := {|
  wire_ok := update_wire_ok;
  payload u := cu_Signature u ++ update_body u
|}.
Next Obligation.
  intros u (?&?&?&?). cbn [Encode ChannelUpdate_Message]. unfold ChannelUpdate_Encode, ChannelUpdate_Body, update_body, WriteSig. solve_writes.
Qed.
Next Obligation.
  intros u Hu. pose proof Hu as (?&?&?&?&?&?&?&?&?&?&?&?). unfold update_body. solve_decode u ChannelUpdate_Decode.
Qed.

Lemma update_payload_length u : update_wire_ok u ->
  (length (payload u) <= 144 + length (cu_ExtraOpaqueData u))%nat /\ (136 <= length (payload u))%nat.
Proof.
  intros (Hs & Hc & _). cbn [payload ChannelUpdate_Laws]. unfold update_body, scid_bytes, max_htlc_bytes.
  rewrite !length_app, !length_drop, !length_be_put, Hs, Hc. case_match; rewrite ?length_be_put; simpl; lia.
Qed.

(** The signature is what a signature covers the rest of the message by. *)
Lemma DataToSign_eq u : update_wire_ok u -> DataToSign u = Ok (update_body u).
Proof.
  intros Hu. unfold DataToSign. assert (Hw : writes (ChannelUpdate_Body u) (update_body u)).
  { destruct Hu as (?&?&?&?). unfold ChannelUpdate_Body, update_body. solve_writes. }
  by rewrite Hw.
Qed.

(** The first two bytes are not taken for a message type. *)
Definition unambiguous (u : ChannelUpdate) : Prop := be_get (take 2 (cu_Signature u)) <> 1258.

Lemma parse_payload u : update_wire_ok u -> unambiguous u ->
  parseChannelUpdateCompatabilityMode (payload u) = (Ok u, []).
Proof.
  intros Hok Hun. pose proof Hok as (Hs & _). unfold unambiguous in Hun.
  assert (exists a b rest, payload u = a :: b :: rest /\ be_get [a; b] <> 1258) as (a & b & rest & Heq & Hne).
  { cbn [payload ChannelUpdate_Laws]. destruct (cu_Signature u) as [|a [|b rest]]; try done. by exists a, b, (rest ++ update_body u). }
  unfold parseChannelUpdateCompatabilityMode. rewrite Heq, (proj2 (Z.eqb_neq _ _) Hne), <- Heq.
  pose proof (decode_payload u) as Hd. by apply Hd.
Qed.

Ltac unfold_failures :=
  unfold FailIncorrectDetails_Encode, FailInvalidOnionVersion_Encode, FailInvalidOnionHmac_Encode,
    FailInvalidOnionKey_Encode, FailAmountBelowMinimum_Encode, FailFeeInsufficient_Encode,
    FailIncorrectCltvExpiry_Encode, FailExpiryTooSoon_Encode, FailChannelDisabled_Encode,
    FailFinalIncorrectCltvExpiry_Encode, FailFinalIncorrectHtlcAmount_Encode, InvalidOnionPayload_Encode,
    FailInvalidOnionVersion_Decode, FailInvalidOnionHmac_Decode, FailInvalidOnionKey_Decode,
    FailAmountBelowMinimum_Decode, FailFeeInsufficient_Decode, FailIncorrectCltvExpiry_Decode,
    FailExpiryTooSoon_Decode, FailChannelDisabled_Decode, FailFinalIncorrectCltvExpiry_Decode,
    FailFinalIncorrectHtlcAmount_Decode.

Section RoundTrip.
Context `{VarIntLaws}.

Definition the_update (f : FailureMessage) : option ChannelUpdate :=
  match f with
  | FailTemporaryChannelFailure u => u
  | FailAmountBelowMinimum _ u | FailFeeInsufficient _ u | FailIncorrectCltvExpiry _ u
  | FailExpiryTooSoon u | FailChannelDisabled _ u => Some u
  | _ => None
  end.

(** The fields fit; an update can be told from one that is sent with its type and
    has little extra data. *)
Definition failure_ok (f : FailureMessage) : Prop :=
  match f with
  | FailIncorrectDetails amount height => is_uint 64 amount /\ is_uint 32 height
  | FailInvalidOnionVersion sha | FailInvalidOnionHmac sha | FailInvalidOnionKey sha => length sha = 32%nat
  | FailAmountBelowMinimum amt _ | FailFeeInsufficient amt _ => is_uint 64 amt
  | FailIncorrectCltvExpiry expiry _ => is_uint 32 expiry
  | FailChannelDisabled flags _ => is_uint 16 flags
  | FailFinalIncorrectCltvExpiry expiry => is_uint 32 expiry
  | FailFinalIncorrectHtlcAmount amt => is_uint 64 amt
  | InvalidOnionPayload typ offset => is_uint 64 typ /\ is_uint 16 offset
  | _ => True
  end /\
  (forall u, the_update f = Some u -> update_wire_ok u /\ unambiguous u /\ (length (cu_ExtraOpaqueData u) <= 100)%nat).

Definition sized (u : ChannelUpdate) : bytes := be_put 2 (u16 (Z.of_nat (length (payload u)))) ++ payload u.

(** What is written after the code. *)
Definition failure_bytes (f : FailureMessage) : bytes :=
  match f with
  | FailIncorrectDetails amount height => be_put 8 amount ++ be_put 4 height
  | FailInvalidOnionVersion sha | FailInvalidOnionHmac sha | FailInvalidOnionKey sha => sha
  | FailTemporaryChannelFailure None => be_put 2 0
  | FailTemporaryChannelFailure (Some u) => sized u
  | FailAmountBelowMinimum amt u | FailFeeInsufficient amt u => be_put 8 amt ++ sized u
  | FailIncorrectCltvExpiry expiry u => be_put 4 expiry ++ sized u
  | FailExpiryTooSoon u => sized u
  | FailChannelDisabled flags u => be_put 2 flags ++ sized u
  | FailFinalIncorrectCltvExpiry expiry => be_put 4 expiry
  | FailFinalIncorrectHtlcAmount amt => be_put 8 amt
  | InvalidOnionPayload typ offset => WriteVarInt typ ++ be_put 2 offset
  | _ => []
  end.

Lemma writes_update u : update_wire_ok u -> writes (writeOnionErrorChanUpdate u) (sized u).
Proof.
  intros Hu w. unfold writeOnionErrorChanUpdate. pose proof (encode_payload u) as He. specialize (He Hu []). cbn [Encode ChannelUpdate_Message app] in He.
  rewrite He. apply (writes_bind _ _ (be_put 2 _)); apply writes_bytes.
Qed.

Lemma writes_failure f : failure_ok f -> writes (Failure_Encode f) (failure_bytes f).
Proof.
  intros [_ Hu].
  assert (Hw : forall u, the_update f = Some u -> writes (writeOnionErrorChanUpdate u) (sized u)).
  { intros u Hf. by apply writes_update, Hu. }
  destruct f as [| | | | | | | | | | | | |[u|]| | | | | | | | | |]; cbn [Failure_Encode failure_bytes FailTemporaryChannelFailure_Encode the_update] in *;
    unfold_failures;
    try (apply writes_ret || apply writes_bytes || by apply Hw); try (apply writes_bind; [apply writes_bytes|]; apply writes_bytes || by apply Hw).
  rewrite <- (app_nil_r (be_put 2 0)). apply writes_bind; apply writes_bytes.
Qed.

Lemma failure_bytes_length f : failure_ok f -> (length (failure_bytes f) <= 254)%nat.
Proof.
  intros [Hf Hu].
  assert (Hs : forall u, the_update f = Some u -> (length (sized u) <= 246)%nat).
  { intros u Hup. destruct (Hu u Hup) as (Hok & _ & Hex). unfold sized. rewrite length_app, length_be_put.
    pose proof (update_payload_length u Hok). lia. }
  destruct f as [| | | | | | | | | | | | |[u|]| | | | | | | | | |]; cbn [failure_bytes the_update] in *;
    rewrite ?length_app, ?length_be_put; cbn [length]; try lia;
    try (match goal with |- context [sized ?u] => specialize (Hs u eq_refl) end; lia).
  destruct Hf as [Hty _]. pose proof (varint_length _ Hty). lia.
Qed.

Lemma reads_sized {B} u (k : ChannelUpdate -> Reader B) b : update_wire_ok u -> unambiguous u ->
  k u [] = (Ok b, []) ->
  (_ ← ReadUint16; u ← parseChannelUpdateCompatabilityMode; k u) (sized u) = (Ok b, []).
Proof.
  intros Hok Hun Hk. unfold sized, mbind, M_bind. rewrite reads_uint16 by (apply uwrap_range; lia).
  by rewrite parse_payload, Hk.
Qed.

Lemma reads_with_update {A} (field : Reader A) mk bs a u : reads field bs a -> update_wire_ok u -> unambiguous u ->
  with_update field mk (bs ++ sized u) = (Ok (mk a u), []).
Proof.
  intros Hf Hok Hun. unfold with_update. eapply extra_tail; [exact Hf|]. by apply reads_sized.
Qed.

Lemma sized_nonzero u : update_wire_ok u -> (length (cu_ExtraOpaqueData u) <= 100)%nat -> u16 (Z.of_nat (length (payload u))) <> 0.
Proof. intros Hok Hex. pose proof (update_payload_length u Hok). rewrite uwrap_id; unfold is_uint; lia. Qed.

Lemma reads_only {A B} (m : Reader A) (f : A -> B) bs a : reads m bs a -> (x ← m; mret (f x)) bs = (Ok (f a), []).
Proof. intros Hm. specialize (Hm []). rewrite app_nil_r in Hm. unfold mbind, M_bind. by rewrite Hm. Qed.

(** The code selects the reader of its data. *)
Lemma failure_decodes f : failure_ok f ->
  exists d, makeEmptyOnionError (Code f) = Some d /\ d (failure_bytes f) = (Ok f, []).
Proof.
  intros [Hf Hu].
  destruct f as [| | | | | | | | | | | | |[u|]| | | | | | | | | |]; cbn [failure_bytes the_update] in *;
    (eexists; split; [reflexivity|]); unfold_failures;
    try match goal with |- mret _ [] = _ => reflexivity end;
    try (destruct (Hu _ eq_refl) as (Hok & Hun & Hex));
    try match goal with |- with_update _ _ (_ ++ _) = _ => apply reads_with_update; [|done|done] end;
    try lazymatch goal with |- reads ReadUint64 _ _ => exact (reads_uint64 _ Hf) | |- reads ReadUint32 _ _ => exact (reads_uint32 _ Hf) | |- reads ReadUint16 _ _ => exact (reads_uint16 _ Hf) end.
  - destruct Hf. unfold FailIncorrectDetails_Decode. rewrite reads_uint64 by done.
    pose proof (reads_uint32 height) as Hr. specialize (Hr ltac:(done) []). rewrite app_nil_r in Hr. by rewrite Hr.
  - by apply reads_only, reads_full.
  - by apply reads_only, reads_full.
  - by apply reads_only, reads_full.
  - unfold FailTemporaryChannelFailure_Decode, sized. eapply extra_tail; [apply reads_uint16, uwrap_range; lia|].
    rewrite (proj2 (Z.eqb_neq _ _)) by by apply sized_nonzero. unfold mbind, M_bind. by rewrite parse_payload.
  - reflexivity.
  - apply (reads_with_update (mret tt) (fun _ => FailExpiryTooSoon) [] tt); [apply reads_ret|done|done].
  - by apply reads_only, reads_uint32.
  - by apply reads_only, reads_uint64.
  - destruct Hf. unfold InvalidOnionPayload_Decode. eapply extra_tail; [by apply varint_reads|].
    by apply reads_only, reads_uint16.
Qed.

Lemma Code_range f : is_uint 16 (Code f).
Proof. destruct f; vm_compute; done. Qed.

(** The bytes of a failure: its length, its code and data, and padding. *)
Definition failure_payload (f : FailureMessage) : bytes := be_put 2 (Code f) ++ failure_bytes f.

Lemma writes_failure_message f : failure_ok f -> writes (EncodeFailureMessage f) (failure_payload f).
Proof. intros Hf. apply writes_bind; [apply writes_bytes|by apply writes_failure]. Qed.

Lemma EncodeFailure_ok (f : FailureMessage) (w : bytes) :
  failure_ok f -> exists p, EncodeFailure f w = (Ok tt, w ++ p) /\
    Z.of_nat (length p) = FailureMessageLength + 4 /\
    forall rest, fst (DecodeFailure (p ++ rest)) = Ok f.
Proof.
  intros Hf. set (n := length (failure_payload f)).
  assert (Hn : (2 <= n <= 256)%nat).
  { unfold n, failure_payload. rewrite length_app, length_be_put. pose proof (failure_bytes_length f Hf). lia. }
  set (pad := replicate (Z.to_nat (FailureMessageLength - Z.of_nat n)) Byte.x00).
  assert (Hpad : length pad = (256 - n)%nat).
  { unfold pad, FailureMessageLength. rewrite length_replicate. lia. }
  exists (be_put 2 (u16 (Z.of_nat n)) ++ failure_payload f ++ be_put 2 (u16 (Z.of_nat (length pad))) ++ pad). split_and!.
  - unfold EncodeFailure. rewrite (writes_failure_message f Hf []). cbn [app]. fold n.
    rewrite (proj2 (Z.ltb_ge _ _)) by (unfold FailureMessageLength; lia).
    unfold map_err. fold pad.
    assert (Hw : writes (_ ← WriteUint16 (u16 (Z.of_nat n)); _ ← WriteBytes (failure_payload f);
      _ ← WriteUint16 (u16 (Z.of_nat (length pad))); WriteBytes pad)
      (be_put 2 (u16 (Z.of_nat n)) ++ failure_payload f ++ be_put 2 (u16 (Z.of_nat (length pad))) ++ pad)).
    { repeat (apply writes_bind || apply writes_bytes). }
    by rewrite Hw.
  - rewrite !length_app, !length_be_put. fold n. rewrite Hpad. unfold FailureMessageLength. lia.
  - intros rest. unfold DecodeFailure. rewrite <- !app_assoc. unfold mbind, M_bind, map_err, check, lift.
    rewrite reads_uint16 by (apply uwrap_range; lia). rewrite uwrap_id by (unfold is_uint; lia).
    rewrite (proj2 (Z.ltb_ge _ _)) by (unfold FailureMessageLength; lia).
    rewrite Nat2Z.id, reads_full by done. unfold DecodeFailureMessage, failure_payload, mbind, M_bind, map_err.
    rewrite reads_uint16 by apply Code_range. destruct (failure_decodes f Hf) as (d & -> & Hd). cbn. by rewrite Hd.
Qed.

(** C28. Every failure a node sends is 260 bytes long whatever it says, and the bytes
    decode to it, with its channel update, if the fields fit and the signature of the
    update does not begin with the type of an update. *)
Theorem failure_roundtrip (f : FailureMessage) (w : bytes) :
  failure_ok f -> exists p, EncodeFailure f w = (Ok tt, w ++ p) /\
    Z.of_nat (length p) = FailureMessageLength + 4 /\
    forall rest, fst (DecodeFailure (p ++ rest)) = Ok f.
Proof. apply EncodeFailure_ok. Qed.
End RoundTrip.

(** *** Witnesses *)
Definition varint8 : VarIntOps := {| WriteVarInt := be_put 8; ReadVarInt := ReadUint64 |}.
#[local] Existing Instance varint8.
Lemma varint8_laws : VarIntLaws.
Proof. split; [intros z Hz; exact (reads_uint64 z Hz)|]. intros z _. change (length (be_put 8 z) <= 9)%nat. rewrite (length_be_put 8 z). lia. Defined.

Definition ex_update : ChannelUpdate :=
  mkChannelUpdate (replicate 64 Byte.x07) (replicate 32 Byte.x01) scid_example 1700000000 1 0 40 1000 1000 1 990000000 31 [].

Lemma failure_roundtrip_witness :
  exists p, EncodeFailure (FailFeeInsufficient 5000 ex_update) [] = (Ok tt, p) /\
    Z.of_nat (length p) = 260 /\ forall rest, fst (DecodeFailure (p ++ rest)) = Ok (FailFeeInsufficient 5000 ex_update).
Proof.
  apply (@failure_roundtrip varint8 varint8_laws (FailFeeInsufficient 5000 ex_update) []). split; [split; [discriminate|reflexivity]|].
  intros u [= <-]. split.
  - unfold update_wire_ok, scid_ok, is_uint. cbn. repeat split; discriminate || reflexivity.
  - split; [vm_compute; discriminate|]. cbn. lia.
Defined.

(** A signature that begins with 0x04ea loses these bytes: another update is read. *)
Example ambiguous_update_misread :
  let u := mkChannelUpdate (Byte.x04 :: Byte.xea :: replicate 62 Byte.x07) (replicate 32 Byte.x01) scid_example 1700000000 1 0 40
             1000 1000 1 990000000 31 [] in
  let p := snd (EncodeFailure (FailExpiryTooSoon u) []) in
  match fst (DecodeFailure p) with
  | Ok (FailExpiryTooSoon u') => cu_AssetId u' = 2031616 /\ cu_FeeRate u' = 65536
  | _ => False
  end.
Proof. vm_compute. done. Qed.
