(* ===== verification/Results.v ===== *)
(** * Results of our own payments ([htlcswitch/payment_result.go])

    What comes back for an HTLC that we sent is written to disk before anybody is
    told, so that whoever asks later, after a restart too, gets it.  What a result
    means is decided when it is read. *)

From S2P Require Import Prelude Wire Messages Failures.

(** [nr_nilReason]: the message is a failure whose reason is a nil slice, as the
    switch makes them for contracts resolved on chain; once written and read a slice
    is empty but not nil. *)
Record networkResult := mkNetworkResult { nr_msg : UpdateMsg; nr_unencrypted : bool; nr_isResolution : bool; nr_nilReason : bool }.

#[export] Instance networkResult_eta : Eta networkResult := fun n =>
  mkNetworkResult (nr_msg n) (nr_unencrypted n) (nr_isResolution n) (nr_nilReason n).

Inductive reserr : Type := ErrPaymentIDNotFound | ErrWriteResult (e : werr) | ErrReadResult (e : werr) | ErrUnknownMessage | ErrStore.

(** ** The binary form ([channeldb/codec.go])

    A message is framed by its length; reading it is limited to that many bytes. *)
Definition WriteBool (b : bool) : Writer := WriteUint8 (if b then 1 else 0).
Definition ReadBool : Reader bool := b ← ReadUint8; mret (negb (b =? 0)).

Definition write_message (m : UpdateMsg) : Writer := fun w =>
  match write_update m [] with
  | (Ok _, b) => (_ ← WriteUint16 (u16 (Z.of_nat (length b))); WriteBytes b) w
  | (Err e, _) => (Err e, w)
  | (Panic, _) => (Panic, w)
  end.

(** The messages that are stored are updates of a channel. *)
Definition ReadMessage : M bytes reserr UpdateMsg :=
  t ← map_err ErrReadResult ReadUint16;
  match decode_update t with
  | None => throw ErrUnknownMessage
  | Some d => map_err ErrReadResult d
  end.

(** [io.LimitReader]. *)
Definition limited {A} (n : nat) (m : M bytes reserr A) : M bytes reserr A := fun r =>
  let '(a, rest) := m (take n r) in (a, rest ++ drop n r).

Definition read_message : M bytes reserr UpdateMsg :=
  l ← map_err ErrReadResult ReadUint16; limited (Z.to_nat l) ReadMessage.

Definition serializeNetworkResult (n : networkResult) : Writer :=
  _ ← write_message (nr_msg n); _ ← WriteBool (nr_unencrypted n); WriteBool (nr_isResolution n).

Definition deserializeNetworkResult : M bytes reserr networkResult :=
  msg ← read_message;
  unencrypted ← map_err ErrReadResult ReadBool;
  isResolution ← map_err ErrReadResult ReadBool;
  mret (mkNetworkResult msg unencrypted isResolution false).

(** ** The store

    The channels handed out to subscribers hold one result each; [rs_results] says
    which wait for a payment. *)
Record networkResultStore := mkResultStore {
  rs_bucket : gmap Z bytes;
  rs_results : gmap Z (list nat);
  rs_chans : list (option networkResult)
}.

#[export] Instance networkResultStore_eta : Eta networkResultStore := fun s => mkResultStore (rs_bucket s) (rs_results s) (rs_chans s).

Definition newNetworkResultStore (bucket : gmap Z bytes) : networkResultStore := mkResultStore bucket ∅ [].

Abbreviation RS := (M networkResultStore reserr).

Definition send (n : networkResult) (chans : list (option networkResult)) (c : nat) : list (option networkResult) := <[c := Some n]> chans.

Definition serialized (n : networkResult) : res reserr bytes :=
  match serializeNetworkResult n [] with
  | (Ok _, b) => Ok b
  | (Err e, _) => Err (ErrWriteResult e)
  | (Panic, _) => Panic
  end.

Definition storeResult (commits : bool) (paymentID : Z) (result : networkResult) : RS unit :=
  b ← lift (serialized result);
  _ ← check (negb commits) ErrStore;
  _ ← modify (fun s => s <| rs_bucket ::= <[paymentID := b]> |>);
  modify (fun s => s <| rs_chans ::= fun chans => foldl (send result) chans (default [] (rs_results s !! paymentID)) |>
                     <| rs_results ::= delete paymentID |>).

Definition fetchResult (pid : Z) (s : networkResultStore) : res reserr networkResult :=
  match rs_bucket s !! pid with
  | None => Err ErrPaymentIDNotFound
  | Some resultBytes => fst (deserializeNetworkResult resultBytes)
  end.

Definition getResult (pid : Z) : RS networkResult := fun s => (fetchResult pid s, s).

Definition subscribeResult (paymentID : Z) : RS nat :=
  s ← get;
  let c := length (rs_chans s) in
  match fetchResult paymentID s with
  | Ok result => _ ← modify (fun s => s <| rs_chans ::= fun l => l ++ [Some result] |>); mret c
  | Err ErrPaymentIDNotFound =>
      _ ← modify (fun s => s <| rs_chans ::= fun l => l ++ [None] |>
                             <| rs_results ::= fun rs => <[paymentID := default [] (rs !! paymentID) ++ [c]]> rs |>);
      mret c
  | Err e => throw e
  | Panic => panic
  end.

Definition cleanStore (commits : bool) (keep : gset Z) : RS unit :=
  _ ← check (negb commits) ErrStore;
  modify (fun s => s <| rs_bucket ::= filter (fun kb => kb.1 ∈ keep) |>).

(** ** Reading a result ([switch.go], [failure.go])

    [DecryptError] of the onion library: the node that failed the HTLC and what it
    said. *)
Class OnionErrorDecrypter : Type := { onion_DecryptError : bytes -> option (Z * bytes) }.

Record ForwardingError := mkForwardingError { FailureSourceIdx : Z; fe_msg : option FailureMessage }.

Inductive payerr : Type :=
| PayLinkError (e : LinkError)
| PayForwardingError (e : ForwardingError)
| ErrUnreadableFailureMessage.

Inductive PaymentResult : Type := ResultPreimage (p : bytes) | ResultError (e : payerr).

Section Extract.
Context `{VarIntOps, OnionErrorDecrypter}.

Definition DecryptError (reason : bytes) : option ForwardingError :=
  match onion_DecryptError reason with
  | None => None
  | Some (senderIdx, message) =>
      Some (match fst (DecodeFailure message) with
            | Ok failureMsg => mkForwardingError senderIdx (Some failureMsg)
            | _ => mkForwardingError senderIdx None
            end)
  end.

Definition parseFailedPayment (n : networkResult) (htlc : UpdateFailHTLC) : payerr :=
  if nr_unencrypted n then
    PayLinkError (match fst (DecodeFailure (fail_Reason htlc)) with
                  | Ok failureMsg => NewLinkError failureMsg
                  | _ => NewDetailedLinkError (FailTemporaryChannelFailure None) OutgoingFailureDecodeError
                  end)
  else if nr_isResolution n && nr_nilReason n then
    PayLinkError (NewDetailedLinkError FailPermanentChannelFailure OutgoingFailureOnChainTimeout)
  else match DecryptError (fail_Reason htlc) with
       | None => ErrUnreadableFailureMessage
       | Some failure => PayForwardingError failure
       end.

(** No result for another type of message. *)
Definition extractResult (n : networkResult) : option PaymentResult :=
  match nr_msg n with
  | UMFulfill htlc => Some (ResultPreimage (ful_PaymentPreimage htlc))
  | UMFail htlc => Some (ResultError (parseFailedPayment n htlc))
  | _ => None
  end.
End Extract.

(** ** What is read is what was written *)
Lemma reads_bool (b : bool) : reads ReadBool (be_put 1 (if b then 1 else 0)) b.
Proof. intros rest. by destruct b. Qed.

(** What reading a stored result gives. *)
Definition read_back (n : networkResult) : networkResult := n <| nr_nilReason := false |>.

(** The messages that are results, within the size of a message. *)
Definition result_ok (n : networkResult) : Prop :=
  match nr_msg n with UMFulfill _ | UMFail _ => update_ok (nr_msg n) | _ => False end.

Lemma result_framed n : result_ok n -> exists b, serializeNetworkResult n [] = (Ok tt, b) /\
  fst (deserializeNetworkResult b) = Ok (read_back n).
Proof.
  intros Hok. assert (Hu : update_ok (nr_msg n) /\ on_wire (nr_msg n) = nr_msg n).
  { unfold result_ok in Hok. by destruct (nr_msg n). }
  destruct Hu as [Hu Hw]. destruct (update_framed _ [] Hu) as (k & p & d & Hrun & -> & Hk & Hd & Hp). cbn [app] in Hrun.
  set (msg := be_put 2 (update_type (nr_msg n)) ++ p) in *.
  assert (Hl : Z.of_nat (length msg) = Z.of_nat (length p) + 2) by (unfold msg; rewrite length_app, length_be_put; lia).
  assert (Hwm : writes (write_message (nr_msg n)) (be_put 2 (Z.of_nat (length msg)) ++ msg)).
  { intros w. unfold write_message. rewrite Hrun. rewrite uwrap_id by (unfold is_uint; lia).
    apply (writes_bind (WriteUint16 (Z.of_nat (length msg))) (fun _ => WriteBytes msg)); apply writes_bytes. }
  exists ((be_put 2 (Z.of_nat (length msg)) ++ msg) ++ be_put 1 (if nr_unencrypted n then 1 else 0) ++ be_put 1 (if nr_isResolution n then 1 else 0)).
  split.
  - assert (Hs : writes (serializeNetworkResult n) ((be_put 2 (Z.of_nat (length msg)) ++ msg) ++
      be_put 1 (if nr_unencrypted n then 1 else 0) ++ be_put 1 (if nr_isResolution n then 1 else 0))).
    { apply writes_bind; [exact Hwm|]. apply writes_bind; apply writes_bytes. }
    apply Hs.
  - unfold deserializeNetworkResult, read_message, mbind, M_bind, map_err. rewrite <- !app_assoc, reads_uint16 by (unfold is_uint; lia).
    unfold limited. rewrite Nat2Z.id, take_app_length, drop_app_length. unfold ReadMessage, mbind, M_bind, map_err, msg.
    rewrite reads_uint16 by (destruct (nr_msg n); vm_compute; done). rewrite Hd, Hp, Hw. cbn [app].
    rewrite reads_bool. rewrite <- (app_nil_r (be_put 1 (if nr_isResolution n then 1 else 0))), reads_bool. done.
Qed.

(** ** The store at work *)
Lemma serialized_ok n : result_ok n -> exists b, serialized n = Ok b /\ fst (deserializeNetworkResult b) = Ok (read_back n).
Proof.
  intros Hn. destruct (result_framed n Hn) as (b & Hs & Hd). exists b. unfold serialized. by rewrite Hs.
Qed.

Inductive store_op : Type :=
| OStore (commits : bool) (pid : Z) (n : networkResult)
| OSubscribe (pid : Z)
| OClean (commits : bool) (keep : gset Z)
| ORestart.

Definition run_store (op : store_op) (s : networkResultStore) : networkResultStore :=
  match op with
  | OStore commits pid n => snd (storeResult commits pid n s)
  | OSubscribe pid => snd (subscribeResult pid s)
  | OClean commits keep => snd (cleanStore commits keep s)
  | ORestart => newNetworkResultStore (rs_bucket s)
  end.

(** The operations that leave what is stored for [pid] alone. *)
Definition spares (pid : Z) (op : store_op) : Prop :=
  match op with
  | OStore commits pid' _ => commits = false \/ pid' <> pid
  | OClean commits keep => commits = false \/ pid ∈ keep
  | OSubscribe _ | ORestart => True
  end.

Definition later (pid : Z) (s s' : networkResultStore) : Prop := exists op, spares pid op /\ s' = run_store op s.

(** The stores a node reaches from what was on its disk. *)
Definition store_reachable (s : networkResultStore) : Prop :=
  exists bucket, rtc (fun s s' => exists op, s' = run_store op s) (newNetworkResultStore bucket) s.

(** [c] was handed out for [pid] and waits. *)
Definition waits (s : networkResultStore) (pid : Z) (c : nat) : Prop := c ∈ default [] (rs_results s !! pid).

#[export] Instance waits_dec s pid c : Decision (waits s pid c) := decide (c ∈ default [] (rs_results s !! pid)).

Record store_ok (s : networkResultStore) : Prop := {
  so_waits : forall pid c, waits s pid c -> rs_chans s !! c = Some None /\ rs_bucket s !! pid = None;
  so_apart : forall pid pid' c, waits s pid c -> waits s pid' c -> pid = pid';
  so_open : forall c, rs_chans s !! c = Some None -> exists pid, waits s pid c
}.

Lemma send_all n cs : forall chans c, (forall c', c' ∈ cs -> (c' < length chans)%nat) ->
  foldl (send n) chans cs !! c = if decide (c ∈ cs) then Some (Some n) else chans !! c.
Proof.
  induction cs as [|c0 cs IH]; intros chans c Hlt; [by rewrite decide_False by apply not_elem_of_nil|]. cbn [foldl].
  rewrite IH by (intros c' Hc'; unfold send; rewrite length_insert; apply Hlt; by right).
  destruct (decide (c ∈ cs)) as [Hin|Hin]; [by rewrite decide_True by (by right)|]. unfold send.
  destruct (decide (c = c0)) as [->|Hne].
  - rewrite list_lookup_insert_eq by (apply Hlt; by left). by rewrite decide_True by (by left).
  - rewrite list_lookup_insert_ne by done. rewrite decide_False; [done|]. by rewrite elem_of_cons; intros [?|?].
Qed.

Lemma store_run commits pid n s : storeResult commits pid n s =
  match serialized n with
  | Ok b => if commits then (Ok tt, s <| rs_bucket ::= <[pid := b]> |>
        <| rs_chans ::= fun chans => foldl (send n) chans (default [] (rs_results s !! pid)) |> <| rs_results ::= delete pid |>)
      else (Err ErrStore, s)
  | Err e => (Err e, s)
  | Panic => (Panic, s)
  end.
Proof. unfold storeResult, mbind, M_bind, lift, check, modify. destruct (serialized n); [|done..]. by destruct commits. Qed.

Lemma waits_lt s pid c : store_ok s -> waits s pid c -> (c < length (rs_chans s))%nat.
Proof. intros Hok [Hc _]%(so_waits s Hok). by eapply lookup_lt_Some. Qed.

Lemma store_result_ok commits pid n s : store_ok s -> store_ok (snd (storeResult commits pid n s)).
Proof.
  intros Hok.
  rewrite store_run. destruct (serialized n) as [b| |]; [|done..]. destruct commits; [|done]. cbn [snd].
  assert (Hsend := send_all n (default [] (rs_results s !! pid)) (rs_chans s)).
  assert (Hlt : forall c', c' ∈ default [] (rs_results s !! pid) -> (c' < length (rs_chans s))%nat) by (intros c'; apply (waits_lt s pid c' Hok)).
  assert (Hw : forall pid' c, waits (s <| rs_bucket ::= <[pid := b]> |>
      <| rs_chans ::= fun chans => foldl (send n) chans (default [] (rs_results s !! pid)) |> <| rs_results ::= delete pid |>) pid' c <->
      pid' <> pid /\ waits s pid' c).
  { intros pid' c. unfold waits. cbn. destruct (decide (pid' = pid)) as [->|Hne].
    - rewrite lookup_delete_eq. cbn. rewrite elem_of_nil. naive_solver.
    - rewrite lookup_delete_ne by done. naive_solver. }
  split.
  + intros pid' c [Hne Hc]%Hw. cbn. rewrite Hsend by done. destruct (decide _) as [Hin|Hin].
    * by destruct Hne; apply (so_apart s Hok pid' pid c).
    * rewrite lookup_insert_ne by done. by apply so_waits.
  + intros pid1 pid2 c [_ H1]%Hw [_ H2]%Hw. by apply (so_apart s Hok pid1 pid2 c).
  + intros c. cbn. rewrite Hsend by done. destruct (decide _) as [Hin|Hin]; [done|].
    intros [pid' Hc]%(so_open s Hok). exists pid'. apply Hw. split; [|done]. by intros ->.
Qed.

Lemma subscribe_ok pid s : store_ok s -> store_ok (snd (subscribeResult pid s)).
Proof.
  intros Hok.
  unfold subscribeResult, mbind, M_bind, get, modify. destruct (fetchResult pid s) as [r|[]|] eqn:Hf; cbn [snd]; try done.
  + split.
    * intros pid' c Hc. destruct (so_waits s Hok pid' c Hc) as [H1 H2]. split; [|done]. cbn. by apply lookup_app_l_Some.
    * intros pid1 pid2 c. apply (so_apart s Hok).
    * intros c. cbn. intros [Hc|[Hl Hc]]%lookup_app_Some; [by apply (so_open s Hok)|]. by apply list_lookup_singleton_Some in Hc as [_ ?].
  + assert (Hb : rs_bucket s !! pid = None).
    { unfold fetchResult in Hf. destruct (rs_bucket s !! pid) as [b|]; [|done]. revert Hf. clear.
      unfold deserializeNetworkResult, read_message, limited, ReadMessage, map_err, mbind, M_bind, throw, lift.
      repeat (case_match; simplify_eq/=; try done). }
    set (s1 := s <| rs_chans ::= _ |> <| rs_results ::= _ |>).
    assert (Hw : forall pid' c, waits s1 pid' c <-> waits s pid' c \/ (pid' = pid /\ c = length (rs_chans s))).
    { intros pid' c. unfold waits, s1. cbn. destruct (decide (pid' = pid)) as [->|Hne].
      - rewrite lookup_insert_eq. cbn. rewrite elem_of_app, list_elem_of_singleton. naive_solver.
      - rewrite lookup_insert_ne by done. naive_solver. }
    split.
    * intros pid' c [Hc|[-> ->]]%Hw; cbn.
      -- destruct (so_waits s Hok pid' c Hc) as [H1 H2]. split; [|done]. by apply lookup_app_l_Some.
      -- split; [|done]. rewrite lookup_app_r by lia. by rewrite Nat.sub_diag.
    * intros pid1 pid2 c [H1|[-> ->]]%Hw [H2|[-> Hc2]]%Hw; [by apply (so_apart s Hok pid1 pid2 c)| |by apply (waits_lt s) in H2; [lia|]|done].
      subst c. apply (waits_lt s) in H1; [lia|done].
    * intros c. cbn. intros [Hc|[Hl Hc]]%lookup_app_Some.
      -- apply (so_open s Hok) in Hc as [pid' Hc]. exists pid'. apply Hw. by left.
      -- apply list_lookup_singleton_Some in Hc as [Hc _]. exists pid. apply Hw. right. split; [done|]. lia.
Qed.

Lemma clean_ok commits keep s : store_ok s -> store_ok (snd (cleanStore commits keep s)).
Proof.
  intros Hok.
  unfold cleanStore, mbind, M_bind, check, modify. destruct commits; [|done]. cbn. split; cbn.
  + intros pid c Hc. destruct (so_waits s Hok pid c Hc) as [H1 H2]. split; [done|]. by rewrite map_lookup_filter, H2.
  + intros pid1 pid2 c. apply (so_apart s Hok).
  + apply (so_open s Hok).
Qed.

Lemma clean_store_run commits keep s : cleanStore commits keep s =
  if commits then (Ok tt, s <| rs_bucket ::= filter (fun kb => kb.1 ∈ keep) |>) else (Err ErrStore, s).
Proof. by destruct commits. Qed.

Lemma fresh_store_ok bucket : store_ok (newNetworkResultStore bucket).
Proof.
  unfold newNetworkResultStore. split; unfold waits; cbn.
  - intros pid c. rewrite lookup_empty. by intros ?%elem_of_nil.
  - intros pid pid' c. rewrite lookup_empty. by intros ?%elem_of_nil.
  - done.
Qed.

Lemma run_store_ok op s : store_ok s -> store_ok (run_store op s).
Proof.
  intros Hok. destruct op; cbn [run_store]; [by apply store_result_ok|by apply subscribe_ok|by apply clean_ok|apply fresh_store_ok].
Qed.

Lemma store_reachable_ok s : store_reachable s -> store_ok s.
Proof.
  intros [bucket Hr]. pose proof (fresh_store_ok bucket) as H0. induction Hr as [|s s1 s2 [op ->] _ IH]; [done|]. by apply IH, run_store_ok.
Qed.

(** What is stored for [pid] stays. *)
Lemma subscribe_bucket pid s : rs_bucket (snd (subscribeResult pid s)) = rs_bucket s.
Proof. unfold subscribeResult, mbind, M_bind, get, modify. by destruct (fetchResult pid s) as [|[]|]. Qed.

Lemma later_bucket pid s s' : rtc (later pid) s s' -> rs_bucket s' !! pid = rs_bucket s !! pid.
Proof.
  induction 1 as [|s s1 s2 (op & Hop & ->) _ IH]; [done|]. rewrite IH. destruct op as [commits pid' n|pid'|commits keep|]; cbn [run_store spares] in *.
  - rewrite store_run. destruct (serialized n); [|done..]. destruct commits, Hop as [?|Hne]; try done. cbn. by rewrite lookup_insert_ne.
  - by rewrite subscribe_bucket.
  - rewrite clean_store_run. destruct commits, Hop as [?|Hin]; try done. cbn. rewrite map_lookup_filter. destruct (rs_bucket s !! pid); [|done].
    cbn. rewrite option_guard_True; done.
  - done.
Qed.

(** What somebody was sent stays, until a restart. *)
Lemma sent_stays op c r s : store_ok s -> op <> ORestart -> rs_chans s !! c = Some (Some r) -> rs_chans (run_store op s) !! c = Some (Some r).
Proof.
  intros Hok Hop Hc. destruct op as [commits pid n|pid|commits keep|]; cbn [run_store]; [| | |done].
  - rewrite store_run. destruct (serialized n); [|done..]. destruct commits; [|done]. cbn.
    rewrite send_all by (intros c' Hc'; by apply (waits_lt s pid c' Hok)). destruct (decide (c ∈ _)) as [Hin|]; [|done].
    apply (so_waits s Hok pid c) in Hin as [Hn _]. congruence.
  - unfold subscribeResult, mbind, M_bind, get, modify. destruct (fetchResult pid s) as [|[]|]; cbn; try done; by apply lookup_app_l_Some.
  - rewrite clean_store_run. by destruct commits.
Qed.

(** Whoever asks for a stored result gets it at once. *)
Lemma asked_later pid s r : fetchResult pid s = Ok r ->
  getResult pid s = (Ok r, s) /\ subscribeResult pid s = (Ok (length (rs_chans s)), s <| rs_chans ::= fun l => l ++ [Some r] |>).
Proof. intros Hf. unfold getResult, subscribeResult, mbind, M_bind, get, modify. by rewrite Hf. Qed.

(** C26. Whatever was stored, subscribed, cleaned and restarted before: when a result is
    stored, everybody who waits for it has it, and only they, and nothing else that is
    stored or waited for changes; if it cannot be written nothing changes.  Whoever asks
    for it afterwards gets it at once as it reads back ([read_back]: a missing reason has
    become an empty one), whatever happens in between, restarts included, until another
    result is stored under its id or the id is cleaned.  Nobody ever waits for a result
    that is stored, and what somebody was sent stays.  Cleaning removes exactly the
    results that are not to be kept. *)
Theorem result_delivered (s : networkResultStore) (pid : Z) (n : networkResult) : store_reachable s -> result_ok n ->
  storeResult false pid n s = (Err ErrStore, s) /\
  (exists s', storeResult true pid n s = (Ok tt, s') /\
    (forall c, waits s pid c -> rs_chans s' !! c = Some (Some n)) /\
    (forall c, ~ waits s pid c -> rs_chans s' !! c = rs_chans s !! c) /\
    (forall pid', pid' <> pid -> rs_bucket s' !! pid' = rs_bucket s !! pid' /\ rs_results s' !! pid' = rs_results s !! pid') /\
    forall s2, rtc (later pid) s' s2 -> getResult pid s2 = (Ok (read_back n), s2) /\
      subscribeResult pid s2 = (Ok (length (rs_chans s2)), s2 <| rs_chans ::= fun l => l ++ [Some (read_back n)] |>)) /\
  (forall c, rs_chans s !! c = Some None -> exists pid', waits s pid' c /\ rs_bucket s !! pid' = None) /\
  (forall op c r, op <> ORestart -> rs_chans s !! c = Some (Some r) -> rs_chans (run_store op s) !! c = Some (Some r)) /\
  (forall keep, exists s', cleanStore true keep s = (Ok tt, s') /\ rs_chans s' = rs_chans s /\ rs_results s' = rs_results s /\
    forall pid', rs_bucket s' !! pid' = if decide (pid' ∈ keep) then rs_bucket s !! pid' else None).
Proof.
  intros Hok%store_reachable_ok Hn. destruct (serialized_ok n Hn) as (b & Hs & Hd).
  split; [by rewrite store_run, Hs|]. split; [|split; [|split]].
  - rewrite store_run, Hs. eexists. split; [reflexivity|].
    set (s' := s <| rs_bucket ::= _ |> <| rs_chans ::= _ |> <| rs_results ::= _ |>) in *.
    assert (Hsend : forall c, rs_chans s' !! c = if decide (waits s pid c) then Some (Some n) else rs_chans s !! c).
    { intros c. apply send_all. intros c'. by apply waits_lt. }
    split_and!.
    + intros c Hc. by rewrite Hsend, decide_True.
    + intros c Hc. by rewrite Hsend, decide_False.
    + intros pid' Hne. cbn. by rewrite lookup_insert_ne, lookup_delete_ne.
    + intros s2 Hl%later_bucket. apply asked_later. unfold fetchResult. rewrite Hl. cbn. by rewrite lookup_insert_eq.
  - intros c [pid' Hc]%(so_open s Hok). exists pid'. split; [done|]. by apply (so_waits s Hok pid' c).
  - intros op c r. by apply sent_stays.
  - intros keep. rewrite clean_store_run. eexists. split; [reflexivity|]. do 2 (split; [done|]). intros pid'. cbn. rewrite map_lookup_filter.
    destruct (rs_bucket s !! pid'); cbn; [|by destruct (decide _)]. destruct (decide (pid' ∈ keep)); [by rewrite option_guard_True|by rewrite option_guard_False].
Qed.

Section ReadResult.
Context `{VarIntOps, OnionErrorDecrypter}.

(** A result that is read from the store means what it meant when it was stored,
    unless it says that the contract timed out on chain: its reason is nil then and
    empty once it was read, and instead of the permanent channel failure the sender
    gets what the onion library makes of no bytes, which it cannot read. *)
Theorem stored_result_meaning (s s' : networkResultStore) (pid : Z) (n n' : networkResult) :
  result_ok n -> storeResult true pid n s = (Ok tt, s') -> getResult pid s' = (Ok n', s') ->
  (nr_nilReason n = false -> extractResult n' = extractResult n) /\
  (nr_nilReason n = true -> nr_isResolution n = true -> nr_unencrypted n = false -> onion_DecryptError [] = None ->
   forall htlc, nr_msg n = UMFail htlc -> fail_Reason htlc = [] ->
   extractResult n = Some (ResultError (PayLinkError (NewDetailedLinkError FailPermanentChannelFailure OutgoingFailureOnChainTimeout))) /\
   extractResult n' = Some (ResultError ErrUnreadableFailureMessage)).
Proof.
  intros Hn Hrun Hget. destruct (serialized_ok n Hn) as (b & Hs & Hd). rewrite store_run, Hs in Hrun. injection Hrun as <-.
  unfold getResult, fetchResult in Hget. cbn in Hget. rewrite lookup_insert_eq in Hget. injection Hget as Hget. rewrite Hd in Hget. injection Hget as <-.
  split.
  - intros Hr. unfold read_back. destruct n as [? ? ? nil]. cbn in Hr. by subst nil.
  - intros Hr Hi Hu Hdec htlc Hm Hre. unfold extractResult, read_back. cbn. rewrite Hm. unfold parseFailedPayment. cbn.
    rewrite Hu, Hi, Hr. cbn. split; [done|]. unfold DecryptError. by rewrite Hre, Hdec.
Qed.
End ReadResult.

(** ** Witnesses *)
Definition timed_out : networkResult := mkNetworkResult (UMFail (mkUpdateFailHTLC zero32 0 [] [])) false true true.
Definition asked : networkResultStore := run_store (OSubscribe 7) (run_store (OSubscribe 8) (newNetworkResultStore ∅)).

Lemma timed_out_ok : result_ok timed_out.
Proof. cbn. repeat split; vm_compute; done. Defined.

Lemma asked_reachable : store_reachable asked.
Proof. exists ∅. eapply rtc_l; [by exists (OSubscribe 8)|]. eapply rtc_l; [by exists (OSubscribe 7)|]. apply rtc_refl. Defined.

Definition cleaned_later (s : networkResultStore) : networkResultStore := run_store (OClean true {[7]}) (run_store ORestart s).

Lemma result_delivered_witness : exists s', storeResult true 7 timed_out asked = (Ok tt, s') /\ rs_chans s' !! 1%nat = Some (Some timed_out) /\
  getResult 7 (cleaned_later s') = (Ok (read_back timed_out), cleaned_later s').
Proof.
  destruct (result_delivered asked 7 timed_out asked_reachable timed_out_ok) as (_ & (s' & Hrun & Hw & _ & _ & Hask) & _).
  exists s'. split; [exact Hrun|]. split; [apply Hw; vm_compute; left|].
  apply (Hask (cleaned_later s')). eapply rtc_l; [exists ORestart; split; [exact I|reflexivity]|].
  apply rtc_once. exists (OClean true {[7]}). split; [right; set_solver|reflexivity].
Defined.

#[local] Existing Instance varint8.
#[local] Instance no_onion : OnionErrorDecrypter := {| onion_DecryptError _ := None |}.

Lemma stored_result_meaning_witness : exists s' n', storeResult true 7 timed_out asked = (Ok tt, s') /\ getResult 7 s' = (Ok n', s') /\
  extractResult n' = Some (ResultError ErrUnreadableFailureMessage).
Proof.
  destruct (storeResult true 7 timed_out asked) as [r s'] eqn:Hrun. assert (Hr : r = Ok tt) by (vm_compute in Hrun; congruence). subst r.
  exists s', (read_back timed_out). split; [reflexivity|].
  assert (Hget : getResult 7 s' = (Ok (read_back timed_out), s')) by (vm_compute in Hrun; injection Hrun as <-; vm_compute; reflexivity).
  split; [exact Hget|].
  destruct (stored_result_meaning asked s' 7 timed_out _ timed_out_ok Hrun Hget) as [_ H].
  by destruct (H eq_refl eq_refl eq_refl eq_refl _ eq_refl eq_refl).
Defined.
