(* ===== verification/Sha256.v ===== *)
(** * SHA-256

    Go's [crypto/sha256.Sum256], which the shachain and the HTLC preimage check
    call.  Executable, and checked below against the published test vectors; the
    theorems of the library use only that a digest has 32 bytes. *)

From S2P Require Import Prelude.

Definition rotr (n x : Z) : Z :=
  Z.lor (Z.shiftr x n) (u32 (Z.shiftl x (32 - n))).

Definition add32 (a b : Z) : Z := u32 (a + b).

(** The constants of FIPS 180-2, by their definition: the first 32 bits of the
    fractional parts of the cube roots (of the square roots, for the initial
    state) of the first primes. *)
Definition is_prime (n : nat) : bool :=
  forallb (fun d => negb (n mod d =? 0)%nat) (seq 2 (n - 2)).

Definition primes : list Z := Z.of_nat <$> List.filter is_prime (seq 2 310).

(** The integer cube root below [2 ^ n], bit by bit from the top. *)
Fixpoint cbrt_from (n : nat) (r x : Z) : Z :=
  match n with
  | O => r
  | S n =>
      let r' := r + 2 ^ Z.of_nat n in
      cbrt_from n (if r' * r' * r' <=? x then r' else r) x
  end.

Definition K256 : list Z :=
  Eval vm_compute in (fun p => u32 (cbrt_from 36 0 (p * 2 ^ 96))) <$> primes.

Definition H256 : list Z :=
  Eval vm_compute in (fun p => u32 (Z.sqrt (p * 2 ^ 64))) <$> take 8 primes.

(** The message schedule, newest word first. *)
Fixpoint schedule (n : nat) (ws : list Z) : list Z :=
  match n with
  | O => ws
  | S n =>
      let w i := nth i ws 0 in
      let s0 := Z.lxor (Z.lxor (rotr 7 (w 14%nat)) (rotr 18 (w 14%nat))) (Z.shiftr (w 14%nat) 3) in
      let s1 := Z.lxor (Z.lxor (rotr 17 (w 1%nat)) (rotr 19 (w 1%nat))) (Z.shiftr (w 1%nat) 10) in
      schedule n (u32 (w 15%nat + s0 + w 6%nat + s1) :: ws)
  end.

Definition round (st : list Z) (kw : Z * Z) : list Z :=
  match st with
  | [a; b; c; d; e; f; g; h] =>
      let s1 := Z.lxor (Z.lxor (rotr 6 e) (rotr 11 e)) (rotr 25 e) in
      let ch := Z.lxor (Z.land e f) (Z.land (Z.lxor e 0xffffffff) g) in
      let t1 := u32 (h + s1 + ch + fst kw + snd kw) in
      let s0 := Z.lxor (Z.lxor (rotr 2 a) (rotr 13 a)) (rotr 22 a) in
      let maj := Z.lxor (Z.lxor (Z.land a b) (Z.land a c)) (Z.land b c) in
      [u32 (t1 + s0 + maj); a; b; c; add32 d t1; e; f; g]
  | _ => st
  end.

Fixpoint words (n : nat) (bs : bytes) : list Z :=
  match n with
  | O => []
  | S n => be_get (take 4 bs) :: words n (drop 4 bs)
  end.

Definition compress (st : list Z) (block : bytes) : list Z :=
  let ws := rev (schedule 48 (rev (words 16 block))) in
  zip_with add32 st (foldl round st (zip K256 ws)).

Fixpoint blocks (n : nat) (st : list Z) (bs : bytes) : list Z :=
  match n with
  | O => st
  | S n => blocks n (compress st (take 64 bs)) (drop 64 bs)
  end.

Definition pad (bs : bytes) : bytes :=
  let len := length bs in
  let k := Z.to_nat ((55 - Z.of_nat len) mod 64) in
  bs ++ Byte.x80 :: replicate k Byte.x00 ++ be_put 8 (8 * Z.of_nat len).

Definition Sum256 (bs : bytes) : bytes :=
  let p := pad bs in
  let st := blocks (length p / 64) H256 p in
  concat ((fun i => be_put 4 (nth i st 0)) <$> seq 0 8).

Lemma length_concat_be_put {A} n (f : A -> Z) l :
  length (concat ((fun i => be_put n (f i)) <$> l)) = (n * length l)%nat.
Proof.
  induction l as [|x l IH]; [simpl; lia|].
  rewrite fmap_cons. cbn [concat length]. rewrite length_app, length_be_put, IH. lia.
Qed.

Lemma length_Sum256 bs : length (Sum256 bs) = 32%nat.
Proof. apply (length_concat_be_put 4). Qed.

(** The vectors of FIPS 180-2: the empty string and "abc". *)
Example Sum256_empty :
  be_get (Sum256 []) = 0xe3b0c44298fc1c149afbf4c8996fb92427ae41e4649b934ca495991b7852b855.
Proof. vm_compute. reflexivity. Qed.

Example Sum256_abc :
  be_get (Sum256 [Byte.x61; Byte.x62; Byte.x63]) =
    0xba7816bf8f01cfea414140de5dae2223b00361a396177a9cb410ff61f20015ad.
Proof. vm_compute. reflexivity. Qed.

#[global] Opaque Sum256.
