(* ===== verification/Shachain.v ===== *)
(** * Per-commitment secrets ([shachain])

    [element.go], [utils.go], [producer.go] and [store.go]: the producer derives
    one secret per index from a root, the store keeps at most [maxHeight]
    buckets from which every secret received so far can be derived again.
    [secret seed i] is the specification: the hash of the element the producer
    returns for the (reversed) index [i].  [store_holds] is the store's
    invariant; the last section proves that the store is a correct, compact
    representation of the list of secrets added to it. *)

From S2P Require Import Prelude Wire Sha256.

(** ** Data *)
Inductive shaerr : Type :=
| ErrPrefixesDiffer
| ErrHashSize
| ErrUnableToDerive (ind : Z)
| ErrNotDerivable
| ErrRead (e : werr).

Record element := mkElement { index : Z; hash : bytes }.

#[export] Instance element_eq_dec : EqDecision element.
Proof. solve_decision. Defined.

Definition maxHeight : nat := 48.
Definition rootIndex : Z := 0.
Definition startIndex : Z := u64 (Z.shiftl 1 (Z.of_nat maxHeight) - 1).
Definition newIndex (v : Z) : Z := u64 (startIndex - v).

(** ** Bits of an index ([utils.go]) *)
Definition getBit (ind : Z) (position : nat) : Z :=
  u8 (Z.land (Z.shiftr ind (Z.of_nat position)) 1).

Definition getPrefix (ind : Z) (position : nat) : Z :=
  let mask := u64 (u64 (0 - 1) - u64 (u64 (Z.shiftl 1 (Z.of_nat position)) - 1)) in
  Z.land ind mask.

Fixpoint countTrailingZeros_loop (fuel zeros : nat) (ind : Z) : nat :=
  match fuel with
  | O => zeros
  | S fuel =>
      if bool_decide (getBit ind zeros <> 0) then zeros
      else countTrailingZeros_loop fuel (S zeros) ind
  end.

(** [for ; zeros < maxHeight; zeros++]: [maxHeight] iterations at most. *)
Definition countTrailingZeros (ind : Z) : nat :=
  countTrailingZeros_loop maxHeight 0 ind.

(** ** Derivation ([element.go]) *)

(** The loop [for position := zeros - 1; ; position--], down to position 0. *)
Fixpoint positions_from (to : Z) (position : nat) : list nat :=
  let rest := match position with O => [] | S p => positions_from to p end in
  if bool_decide (getBit to position = 1) then position :: rest else rest.

Definition deriveBitTransformations (from to : Z) : res shaerr (list nat) :=
  if bool_decide (from = to) then Ok []
  else
    let zeros := countTrailingZeros from in
    if bool_decide (from <> getPrefix to zeros) then Err ErrPrefixesDiffer
    else Ok (positions_from to (Z.to_nat (u8 (Z.of_nat zeros - 1)))).

(** [buf[byteNumber] ^= (1 << bitNumber); buf = sha256.Sum256(buf)]. *)
Definition flip_hash (buf : bytes) (position : nat) : bytes :=
  let byteNumber := (position / 8)%nat in
  let bitNumber := (position mod 8)%nat in
  Sum256 (alter (fun b => xor_byte b (byte.of_Z (Z.shiftl 1 (Z.of_nat bitNumber))))
            byteNumber buf).

(** [chainhash.NewHash] accepts exactly 32 bytes. *)
Definition NewHash (b : bytes) : res shaerr bytes :=
  if bool_decide (length b = 32%nat) then Ok b else Err ErrHashSize.

Definition derive (e : element) (toIndex : Z) : res shaerr element :=
  positions ← deriveBitTransformations (index e) toIndex;
  h ← NewHash (foldl flip_hash (hash e) positions);
  mret (mkElement toIndex h).

Definition isEqual (e e2 : element) : bool :=
  bool_decide (index e = index e2) && bool_decide (hash e = hash e2).

(** ** Producer ([producer.go]) *)
Definition RevocationProducer : Type := element.

Definition NewRevocationProducer (root : bytes) : RevocationProducer :=
  mkElement rootIndex root.

Definition AtIndex (p : RevocationProducer) (v : Z) : res shaerr bytes :=
  e ← derive p (newIndex v); mret (hash e).

Definition Producer_Encode (p : RevocationProducer) : Writer := WriteBytes (hash p).

Definition NewRevocationProducerFromBytes (data : bytes) : res shaerr RevocationProducer :=
  root ← NewHash data; mret (mkElement rootIndex root).

(** ** Store ([store.go]) *)
Record RevocationStore := mkStore {
  lenBuckets : nat;
  buckets : list element;
  st_index : Z
}.

Definition zero_element : element := mkElement 0 (replicate 32 Byte.x00).

Definition NewRevocationStore : RevocationStore :=
  mkStore 0 (replicate maxHeight zero_element) startIndex.

Fixpoint LookUp_loop (ind : Z) (bs : list element) : res shaerr bytes :=
  match bs with
  | [] => Err (ErrUnableToDerive ind)
  | b :: rest =>
      match derive b ind with
      | Ok e => Ok (hash e)
      | Err _ => LookUp_loop ind rest
      | Panic => Panic
      end
  end.

Definition LookUp (store : RevocationStore) (v : Z) : res shaerr bytes :=
  LookUp_loop (newIndex v) (take (lenBuckets store) (buckets store)).

(** The loop [for i := 0; i < bucket; i++] over the buckets below. *)
Fixpoint check_buckets (newElement : element) (bs : list element) : res shaerr unit :=
  match bs with
  | [] => Ok tt
  | b :: rest =>
      e ← derive newElement (index b);
      if isEqual e b then check_buckets newElement rest else Err ErrNotDerivable
  end.

(** The array has [maxHeight] buckets: writing bucket [maxHeight] panics. *)
Definition AddNextEntry (h : bytes) : M RevocationStore shaerr unit := fun store =>
  let newElement := mkElement (st_index store) h in
  let bucket := countTrailingZeros (index newElement) in
  match check_buckets newElement (take bucket (buckets store)) with
  | Err e => (Err e, store)
  | Panic => (Panic, store)
  | Ok _ =>
      if decide (bucket < length (buckets store))%nat then
        let len' := if (lenBuckets store <? bucket + 1)%nat then (bucket + 1)%nat
                    else lenBuckets store in
        (Ok tt, mkStore len' (<[bucket := newElement]> (buckets store))
                        (u64 (st_index store - 1)))
      else (Panic, store)
  end.

Fixpoint Encode_loop (bs : list element) : Writer :=
  match bs with
  | [] => mret tt
  | e :: rest =>
      _ ← WriteBytes (be_put 8 (index e));
      _ ← WriteBytes (hash e);
      Encode_loop rest
  end.

Definition Store_Encode (store : RevocationStore) : Writer :=
  _ ← WriteBytes (be_put 1 (Z.of_nat (lenBuckets store)));
  _ ← Encode_loop (take (lenBuckets store) (buckets store));
  WriteBytes (be_put 8 (st_index store)).

Fixpoint FromBytes_loop (n i : nat) (bs : list element) : Reader (list element) :=
  match n with
  | O => mret bs
  | S n =>
      hashIndex ← ReadUint 8;
      nextHash ← ReadFull 32;
      if decide (i < length bs)%nat then
        FromBytes_loop n (S i) (<[i := mkElement hashIndex nextHash]> bs)
      else panic
  end.

Definition NewRevocationStoreFromBytes : Reader RevocationStore :=
  len ← ReadUint 1;
  bs ← FromBytes_loop (Z.to_nat len) 0 (replicate maxHeight zero_element);
  ind ← ReadUint 8;
  mret (mkStore (Z.to_nat len) bs ind).

(** ** Specification *)

(** The secret of index [i]: the element the producer derives from its root. *)
Definition secret (seed : bytes) (i : Z) : bytes :=
  foldl flip_hash seed (positions_from i (maxHeight - 1)).

(** Adding a list of secrets in order. *)
Fixpoint AddEntries (hs : list bytes) : M RevocationStore shaerr unit :=
  match hs with
  | [] => mret tt
  | h :: rest => _ ← AddNextEntry h; AddEntries rest
  end.

(** ** Arithmetic of indices *)
Definition pw (k : nat) : Z := 2 ^ Z.of_nat k.
Definition low (i : Z) (k : nat) : Z := i mod pw k.
Definition valid_index (i : Z) : Prop := 0 <= i < 2 ^ 48.

Lemma pw_pos k : 0 < pw k.
Proof. unfold pw. lia. Qed.

Lemma pw_S k : pw (S k) = 2 * pw k.
Proof. unfold pw. rewrite Nat2Z.inj_succ, Z.pow_succ_r by lia. done. Qed.

Lemma pw_add a b : pw (a + b) = pw a * pw b.
Proof. unfold pw. rewrite Nat2Z.inj_add, Z.pow_add_r by lia. done. Qed.

Lemma pw_le a b : (a <= b)%nat -> exists c, pw b = c * pw a /\ 1 <= c.
Proof.
  intros H. exists (pw (b - a)). rewrite <- pw_add. split; [f_equal; lia|].
  pose proof (pw_pos (b - a)). lia.
Qed.

Lemma low_range i k : 0 <= low i k < pw k.
Proof. apply Z.mod_pos_bound, pw_pos. Qed.

Lemma low_S i k : low i (S k) = low i k + Z.b2z (Z.testbit i (Z.of_nat k)) * pw k.
Proof.
  unfold low. rewrite pw_S, (Z.mul_comm 2), Z.rem_mul_r by (pose proof (pw_pos k); lia).
  rewrite Z.testbit_spec' by lia. fold (pw k). lia.
Qed.

Lemma low_le i a b : (a <= b)%nat -> low i b = 0 -> low i a = 0.
Proof.
  intros Hab H. destruct (pw_le a b Hab) as (c & Hc & _). unfold low in *.
  apply Z.mod_divide in H; [|pose proof (pw_pos b); lia].
  apply Z.mod_divide; [pose proof (pw_pos a); lia|].
  etrans; [|exact H]. exists c. done.
Qed.

Lemma getBit_b2z i p : getBit i p = Z.b2z (Z.testbit i (Z.of_nat p)).
Proof.
  unfold getBit. rewrite Z.testbit_spec' by lia.
  change 1 with (Z.ones 1). rewrite Z.land_ones, Z.shiftr_div_pow2 by lia.
  apply uwrap_id. unfold is_uint. change (2 ^ 1) with 2.
  pose proof (Z.mod_pos_bound (i / 2 ^ Z.of_nat p) 2). lia.
Qed.

(** The number of trailing zeros, up to the 48 bits of an index. *)
Definition tz (i : Z) (k : nat) : Prop :=
  (k <= 48)%nat /\ low i k = 0 /\ ((k < 48)%nat -> low i (S k) = pw k).

Lemma countTrailingZeros_loop_tz i fuel zeros :
  (zeros + fuel = 48)%nat -> low i zeros = 0 ->
  tz i (countTrailingZeros_loop fuel zeros i).
Proof.
  revert zeros. induction fuel as [|fuel IH]; intros zeros Hf Hz; simpl.
  - split_and!; [lia|done|lia].
  - rewrite getBit_b2z. pose proof (low_S i zeros) as HS.
    destruct (Z.testbit i (Z.of_nat zeros)); simpl Z.b2z in *.
    + rewrite bool_decide_eq_true_2 by done. split_and!; [lia|done|intros; lia].
    + rewrite bool_decide_eq_false_2 by lia. apply IH; lia.
Qed.

Lemma countTrailingZeros_tz i : tz i (countTrailingZeros i).
Proof.
  apply countTrailingZeros_loop_tz; [done|]. unfold low. by rewrite Z.mod_1_r.
Qed.

Lemma tz_unique i k k' : tz i k -> tz i k' -> k = k'.
Proof.
  assert (forall a b, tz i a -> tz i b -> ~ (a < b)%nat) as Hlt.
  { intros a b (_ & _ & Ha) (Hb & Hb0 & _) Hab.
    pose proof (low_le i (S a) b ltac:(lia) Hb0). pose proof (pw_pos a).
    rewrite Ha in * by lia. lia. }
  intros H H'. pose proof (Hlt _ _ H H'). pose proof (Hlt _ _ H' H). lia.
Qed.

Lemma getPrefix_eq i k : is_uint 64 i -> (k <= 48)%nat -> getPrefix i k = i - low i k.
Proof.
  unfold is_uint. intros Hi Hk. unfold getPrefix, low, pw.
  assert (Hm : u64 (u64 (0 - 1) - u64 (u64 (Z.shiftl 1 (Z.of_nat k)) - 1))
    = Z.shiftl (Z.ones (64 - Z.of_nat k)) (Z.of_nat k)).
  { assert (0 < 2 ^ Z.of_nat k <= 2 ^ 48) by (split; [lia|apply Z.pow_le_mono_r; lia]).
    rewrite Z.shiftl_1_l. rewrite (uwrap_id 64 (2 ^ Z.of_nat k)) by (unfold is_uint; lia).
    rewrite (uwrap_id 64 (2 ^ Z.of_nat k - 1)) by (unfold is_uint; lia).
    change (u64 (0 - 1)) with (2 ^ 64 - 1). rewrite uwrap_id by (unfold is_uint; lia).
    rewrite Z.ones_equiv, Z.shiftl_mul_pow2 by lia.
    rewrite <- Z.sub_1_r, Z.mul_sub_distr_r, <- Z.pow_add_r by lia.
    replace (64 - Z.of_nat k + Z.of_nat k) with 64 by lia. lia. }
  rewrite Hm.
  replace (i - i mod 2 ^ Z.of_nat k) with (Z.shiftl (Z.shiftr i (Z.of_nat k)) (Z.of_nat k)).
  2:{ rewrite Z.shiftl_mul_pow2, Z.shiftr_div_pow2 by lia.
      pose proof (Z.div_mod i (2 ^ Z.of_nat k)). lia. }
  apply Z.bits_inj'. intros n Hn. rewrite Z.land_spec.
  destruct (Z.lt_ge_cases n (Z.of_nat k)).
  - by rewrite !Z.shiftl_spec_low, andb_false_r by lia.
  - rewrite !Z.shiftl_spec, Z.shiftr_spec by lia.
    replace (n - Z.of_nat k + Z.of_nat k) with n by lia.
    destruct (Z.lt_ge_cases n 64).
    + rewrite Z.ones_spec_low by lia. by rewrite andb_true_r.
    + rewrite Z.ones_spec_high, andb_false_r by lia. symmetry.
      rewrite <- (Z.mod_small i (2 ^ 64)) by lia. apply Z.mod_pow2_bits_high. lia.
Qed.

(** ** Derivation as a fold over the set bits *)
Definition bits_below (to : Z) (n : nat) : list nat :=
  match n with O => [] | S p => positions_from to p end.

(** [a] is an ancestor of [b]: [b] with its low bits cleared, down to the
    trailing zeros of [a]. *)
Definition ancestor (a b : Z) : Prop := a = b - low b (countTrailingZeros a).

#[export] Instance ancestor_dec a b : Decision (ancestor a b).
Proof. unfold ancestor. apply _. Defined.

Lemma bits_below_S to p :
  bits_below to (S p) =
    if Z.testbit to (Z.of_nat p) then p :: bits_below to p else bits_below to p.
Proof.
  unfold bits_below at 1. destruct p; cbn [positions_from]; rewrite getBit_b2z;
    by destruct (Z.testbit _ _).
Qed.

Lemma bits_below_low0 b z : low b z = 0 -> bits_below b z = [].
Proof.
  induction z as [|z IH]; [done|]. rewrite low_S, bits_below_S.
  pose proof (low_range b z). pose proof (pw_pos z).
  destruct (Z.testbit b (Z.of_nat z)); simpl Z.b2z; intros H'; [lia|apply IH; lia].
Qed.

Lemma low_clear b z : low (b - low b z) z = 0.
Proof.
  unfold low. rewrite Zminus_mod_idemp_r, Z.sub_diag. apply Z.mod_0_l.
  pose proof (pw_pos z). lia.
Qed.

Lemma testbit_clear b z p : (z <= p)%nat ->
  Z.testbit (b - low b z) (Z.of_nat p) = Z.testbit b (Z.of_nat p).
Proof.
  intros Hp. unfold low, pw.
  replace (b - b mod 2 ^ Z.of_nat z) with (Z.shiftl (Z.shiftr b (Z.of_nat z)) (Z.of_nat z)).
  2:{ rewrite Z.shiftl_mul_pow2, Z.shiftr_div_pow2 by lia.
      pose proof (Z.div_mod b (2 ^ Z.of_nat z)). lia. }
  rewrite Z.shiftl_spec, Z.shiftr_spec by lia. f_equal. lia.
Qed.

Lemma bits_below_split b z n : (z <= n)%nat ->
  bits_below b n = bits_below (b - low b z) n ++ bits_below b z.
Proof.
  induction 1 as [|n Hn IH].
  - by rewrite (bits_below_low0 (b - low b z)) by apply low_clear.
  - rewrite !bits_below_S, testbit_clear by done. rewrite IH.
    by destruct (Z.testbit b (Z.of_nat n)).
Qed.

Lemma length_flip_hash h p : length (flip_hash h p) = 32%nat.
Proof. apply length_Sum256. Qed.

Lemma length_fold_flip h ps : length h = 32%nat -> length (foldl flip_hash h ps) = 32%nat.
Proof.
  revert h. induction ps as [|p ps IH]; intros h Hh; simpl; [done|].
  apply IH, length_flip_hash.
Qed.

Lemma derive_eq a b h : valid_index a -> valid_index b -> length h = 32%nat ->
  derive (mkElement a h) b =
    if decide (ancestor a b)
    then Ok (mkElement b (foldl flip_hash h (bits_below b (countTrailingZeros a))))
    else Err ErrPrefixesDiffer.
Proof.
  unfold valid_index. intros Ha Hb Hh. unfold derive, deriveBitTransformations.
  cbn [index hash]. destruct (countTrailingZeros_tz a) as (Hk & Hk0 & _).
  set (k := countTrailingZeros a) in *.
  case_bool_decide as Hab.
  - subst b. rewrite decide_True by (unfold ancestor; fold k; lia).
    rewrite bits_below_low0 by done. simpl. unfold NewHash.
    by rewrite bool_decide_eq_true_2.
  - rewrite getPrefix_eq by (unfold is_uint; lia). fold k.
    unfold ancestor. fold k. case_bool_decide as Hp.
    + by rewrite decide_False.
    + rewrite decide_True by done. destruct k as [|k'].
      { unfold low in Hp. rewrite Z.mod_1_r in Hp. lia. }
      rewrite uwrap_id by (unfold is_uint; lia).
      replace (Z.to_nat (Z.of_nat (S k') - 1)) with k' by lia.
      change (positions_from b k') with (bits_below b (S k')).
      simpl. unfold NewHash. rewrite bool_decide_eq_true_2; [done|].
      by apply length_fold_flip.
Qed.

Lemma ctz_0 : countTrailingZeros 0 = 48%nat.
Proof. reflexivity. Qed.

Lemma bits_below_pos i p : bits_below i (S p) = positions_from i p.
Proof. reflexivity. Qed.

Lemma secret_bits seed i : secret seed i = foldl flip_hash seed (bits_below i 48).
Proof. exact (f_equal (foldl flip_hash seed) (eq_sym (bits_below_pos i 47))). Qed.

Lemma length_secret seed i : length seed = 32%nat -> length (secret seed i) = 32%nat.
Proof. apply length_fold_flip. Qed.

(** Deriving from an ancestor's secret gives the descendant's secret. *)
Lemma secret_derive seed a b : ancestor a b ->
  foldl flip_hash (secret seed a) (bits_below b (countTrailingZeros a)) = secret seed b.
Proof.
  intros Hab. rewrite !secret_bits.
  destruct (countTrailingZeros_tz a) as (Hk & _ & _).
  rewrite (bits_below_split b (countTrailingZeros a) 48) by done.
  unfold ancestor in Hab. by rewrite <- Hab, foldl_app.
Qed.

Definition node (seed : bytes) (i : Z) : element := mkElement i (secret seed i).

Lemma derive_node seed a b : length seed = 32%nat -> valid_index a -> valid_index b ->
  derive (node seed a) b = if decide (ancestor a b) then Ok (node seed b)
                           else Err ErrPrefixesDiffer.
Proof.
  intros Hs Ha Hb. unfold node. rewrite derive_eq by (try done; by apply length_secret).
  case_decide; [|done]. by rewrite secret_derive.
Qed.

Lemma newIndex_eq v : 0 <= v < 2 ^ 48 -> newIndex v = 2 ^ 48 - 1 - v.
Proof.
  intros Hv. unfold newIndex. change startIndex with (2 ^ 48 - 1).
  apply uwrap_id. unfold is_uint. lia.
Qed.

#[global] Opaque bits_below.

Lemma AtIndex_secret seed v : length seed = 32%nat -> 0 <= v < 2 ^ 48 ->
  AtIndex (NewRevocationProducer seed) v = Ok (secret seed (newIndex v)).
Proof.
  intros Hs Hv. unfold AtIndex, NewRevocationProducer, rootIndex.
  rewrite newIndex_eq by done. rewrite derive_eq by (unfold valid_index; lia).
  assert (Hanc : ancestor 0 (2 ^ 48 - 1 - v)).
  { unfold ancestor. rewrite ctz_0. unfold low. change (pw 48) with (2 ^ 48).
    rewrite Z.mod_small; lia. }
  rewrite decide_True by done. rewrite ctz_0, secret_bits. reflexivity.
Qed.

(** ** The store's invariant

    [m0] is the smallest index added so far (indices are added downwards).
    [last_of m0 k m]: [m] is the index added last among those with [k] trailing
    zeros. *)
Definition last_of (m0 : Z) (k : nat) (m : Z) : Prop :=
  m0 <= m < 2 ^ 48 /\ tz m k /\ m < m0 + pw (S k).

Record store_holds (seed : bytes) (m0 : Z) (s : RevocationStore) : Prop := {
  sh_range : 0 < m0 <= 2 ^ 48;
  sh_index : st_index s = m0 - 1;
  sh_length : length (buckets s) = maxHeight;
  sh_len : (lenBuckets s <= maxHeight)%nat;
  sh_last k m : (k < 48)%nat -> last_of m0 k m ->
    (k < lenBuckets s)%nat /\ buckets s !! k = Some (node seed m);
  sh_live k : (k < lenBuckets s)%nat -> exists m, last_of m0 k m;
  sh_zero k : (lenBuckets s <= k < 48)%nat -> buckets s !! k = Some zero_element
}.

Lemma new_store_holds seed : store_holds seed (2 ^ 48) NewRevocationStore.
Proof.
  split; unfold NewRevocationStore; cbn [st_index buckets lenBuckets]; try done; try lia.
  - intros k m _ [? _]. lia.
  - intros k Hk. apply lookup_replicate_2. unfold maxHeight. lia.
Qed.

(** Adding index [m0 - 1] below [m0]: its own bucket changes, no other. *)
Lemma last_of_other m0 k b m : 0 < m0 -> tz (m0 - 1) b -> k <> b -> (k < 48)%nat ->
  last_of (m0 - 1) k m <-> last_of m0 k m.
Proof.
  intros H0 Hb Hkb Hk. unfold last_of. split.
  - intros (Hr & Hm & Hlt).
    assert (m <> m0 - 1) by (intros ->; by apply Hkb, (tz_unique (m0 - 1))).
    split; [lia|split; [done|lia]].
  - intros (Hr & Hm & Hlt). split; [lia|split; [done|]].
    destruct (Z.eq_dec m (m0 - 1 + pw (S k))) as [->|]; [|lia]. exfalso. apply Hkb.
    apply (tz_unique (m0 - 1)); [|done].
    destruct Hm as (_ & Hlow & Hs). specialize (Hs Hk).
    assert (Hmod : forall j, (j <= S k)%nat -> low (m0 - 1 + pw (S k)) j = low (m0 - 1) j).
    { intros j Hj. unfold low. destruct (pw_le j (S k) Hj) as (c & -> & _).
      apply Z.mod_add. pose proof (pw_pos j). lia. }
    rewrite Hmod in Hlow, Hs by lia. split_and!; [lia|done|done].
Qed.

Lemma last_of_self m0 b m : 0 < m0 <= 2 ^ 48 -> tz (m0 - 1) b -> (b < 48)%nat ->
  last_of (m0 - 1) b m <-> m = m0 - 1.
Proof.
  intros Hr Hb Hlt. split.
  - intros (Hm & Htz & Hub). destruct Hb as (_ & Hb0 & Hb1), Htz as (_ & Ht0 & Ht1).
    specialize (Hb1 Hlt). specialize (Ht1 Hlt). unfold low in Hb1, Ht1.
    pose proof (Z.div_mod (m0 - 1) (pw (S b))). pose proof (Z.div_mod m (pw (S b))).
    pose proof (pw_pos (S b)).
    assert (m / pw (S b) < (m0 - 1) / pw (S b) + 1)
      by (apply (Z.mul_lt_mono_pos_r (pw (S b))); lia).
    assert ((m0 - 1) / pw (S b) < m / pw (S b) + 1)
      by (apply (Z.mul_lt_mono_pos_r (pw (S b))); lia).
    replace (m / pw (S b)) with ((m0 - 1) / pw (S b)) in * by lia. lia.
  - intros ->. split; [lia|split; [done|]]. pose proof (pw_pos (S b)). lia.
Qed.

(** The subtree below [a]: [a + 2 ^ i] for each [i] under [a]'s zeros. *)
Lemma low_add_pw a b i j : low a b = 0 -> (j <= b)%nat -> low (a + pw i) j = low (pw i) j.
Proof.
  intros Hb Hj. pose proof (low_le a j b Hj Hb) as H0. unfold low in *.
  rewrite Zplus_mod, H0, Z.add_0_l. apply Z.mod_mod. pose proof (pw_pos j). lia.
Qed.

Lemma low_pw_small i j : (i < j)%nat -> low (pw i) j = pw i.
Proof.
  intros H. destruct (pw_le (S i) j H) as (c & Hc & ?). rewrite pw_S in Hc.
  pose proof (pw_pos i). unfold low. rewrite Z.mod_small; nia.
Qed.

Lemma subtree_tz a b i : tz a b -> (i < b)%nat -> tz (a + pw i) i.
Proof.
  intros (Hb & H0 & _) Hi. split; [lia|split].
  - rewrite (low_add_pw a b) by (done || lia). unfold low. apply Z.mod_same.
    pose proof (pw_pos i). lia.
  - intros _. rewrite (low_add_pw a b) by (done || lia). apply low_pw_small. lia.
Qed.

Lemma subtree_ancestor a b i : tz a b -> (i < b)%nat -> ancestor a (a + pw i).
Proof.
  intros Ha Hi. unfold ancestor.
  rewrite (tz_unique a _ b (countTrailingZeros_tz a) Ha). destruct Ha as (Hb & H0 & _).
  rewrite (low_add_pw a b), low_pw_small by (done || lia). lia.
Qed.

Lemma subtree_last_of m0 b i : 0 < m0 <= 2 ^ 48 -> tz (m0 - 1) b -> (i < b)%nat ->
  last_of m0 i (m0 - 1 + pw i).
Proof.
  intros Hm Hb Hi. pose proof (subtree_tz _ _ _ Hb Hi) as Ht.
  destruct Hb as (Hb & H0 & _). pose proof (pw_pos i). unfold last_of. rewrite pw_S.
  split; [|split; [done|lia]]. split; [lia|].
  destruct (pw_le (S i) b ltac:(lia)) as (c & Hc & ?). rewrite pw_S in Hc.
  destruct (pw_le b 48 Hb) as (d & Hd & ?). change (pw 48) with (2 ^ 48) in Hd.
  unfold low in H0. apply Z.mod_divide in H0 as [q Hq]; [|pose proof (pw_pos b); lia].
  assert (q < d) by (apply (Z.mul_lt_mono_pos_r (pw b)); [apply pw_pos|lia]).
  nia.
Qed.

Lemma check_buckets_ok seed a l : length seed = 32%nat -> valid_index a ->
  Forall (fun e => exists m, valid_index m /\ e = node seed m /\ ancestor a m) l ->
  check_buckets (node seed a) l = Ok tt.
Proof.
  intros Hs Ha. induction 1 as [|e l (m & Hm & -> & Hanc) _ IH]; [done|].
  cbn [check_buckets]. change (index (node seed m)) with m.
  rewrite derive_node by done. rewrite decide_True by done.
  cbn. unfold isEqual. by rewrite !bool_decide_eq_true_2.
Qed.

Lemma buckets_below_ok seed m0 s b : store_holds seed m0 s -> tz (m0 - 1) b ->
  Forall (fun e => exists m, valid_index m /\ e = node seed m /\ ancestor (m0 - 1) m)
    (take b (buckets s)).
Proof.
  intros Hh Hb. apply Forall_lookup_2. intros i e Hi.
  apply lookup_take_Some in Hi as [Hi Hib].
  pose proof (sh_range _ _ _ Hh) as Hr.
  pose proof (subtree_last_of m0 b i Hr Hb Hib) as Hlast.
  assert (i < 48)%nat by (destruct Hb as [? _]; lia).
  destruct (sh_last _ _ _ Hh i _ ltac:(done) Hlast) as [_ Hl].
  exists (m0 - 1 + pw i). rewrite Hl in Hi. injection Hi as <-.
  destruct Hlast as [? _]. split; [unfold valid_index; lia|split; [done|]].
  by apply (subtree_ancestor _ b).
Qed.

Lemma AddNextEntry_ok seed m0 s : length seed = 32%nat -> store_holds seed m0 s -> 1 < m0 ->
  exists s', AddNextEntry (secret seed (m0 - 1)) s = (Ok tt, s') /\
    store_holds seed (m0 - 1) s'.
Proof.
  intros Hs Hh H1. pose proof (sh_range _ _ _ Hh) as Hr. unfold AddNextEntry.
  rewrite (sh_index _ _ _ Hh). cbn [index].
  pose proof (countTrailingZeros_tz (m0 - 1)) as Hb.
  set (b := countTrailingZeros (m0 - 1)) in *.
  change (mkElement (m0 - 1) (secret seed (m0 - 1))) with (node seed (m0 - 1)).
  rewrite check_buckets_ok;
    [|done|unfold valid_index; lia|by apply buckets_below_ok].
  assert (Hb48 : (b < 48)%nat).
  { destruct (decide (b = 48%nat)) as [E|]; [|destruct Hb; lia]. exfalso.
    destruct Hb as (_ & H0 & _). rewrite E in H0. unfold low in H0.
    change (pw 48) with (2 ^ 48) in H0. rewrite Z.mod_small in H0 by lia. lia. }
  rewrite decide_True by (rewrite (sh_length _ _ _ Hh); exact Hb48).
  eexists. split; [reflexivity|].
  set (len' := if (lenBuckets s <? b + 1)%nat then (b + 1)%nat else lenBuckets s).
  assert (Hlen' : (b < len' /\ lenBuckets s <= len' /\ len' <= 48)%nat /\
    forall k, (k < len')%nat -> k = b \/ (k < lenBuckets s)%nat \/ (k < b)%nat).
  { pose proof (sh_len _ _ _ Hh). unfold maxHeight in *. subst len'.
    destruct (Nat.ltb_spec (lenBuckets s) (b + 1)); split; [lia| |lia|]; intros; lia. }
  destruct Hlen' as [(HbL & HLe & HL48) Hcase].
  split; cbn [st_index buckets lenBuckets].
  - lia.
  - apply uwrap_id. unfold is_uint. lia.
  - rewrite length_insert. apply (sh_length _ _ _ Hh).
  - done.
  - intros k m Hk Hlast. destruct (decide (k = b)) as [->|Hkb].
    + apply last_of_self in Hlast; [|done..]. subst m. split; [done|].
      apply list_lookup_insert_eq. by rewrite (sh_length _ _ _ Hh).
    + apply (last_of_other m0 k b) in Hlast; [|lia|done..].
      destruct (sh_last _ _ _ Hh k m Hk Hlast). split; [lia|].
      by rewrite list_lookup_insert_ne.
  - intros k Hk. destruct (decide (k = b)) as [->|Hkb].
    + exists (m0 - 1). by apply last_of_self.
    + assert (k < 48)%nat by lia.
      destruct (Hcase k Hk) as [?|[Hl|Hl]]; [done| |].
      * destruct (sh_live _ _ _ Hh k Hl) as [m Hm]. exists m.
        apply (last_of_other m0 k b); [lia|done..].
      * exists (m0 - 1 + pw k). apply (last_of_other m0 k b); [lia|done..|].
        by apply (subtree_last_of m0 b).
  - intros k Hk. rewrite list_lookup_insert_ne by lia. apply (sh_zero _ _ _ Hh). lia.
Qed.

(** ** Looking a secret up *)
Lemma ancestor_le a b : ancestor a b -> a <= b.
Proof. unfold ancestor. intros ->. pose proof (low_range b (countTrailingZeros (b - low b (countTrailingZeros a)))).
  pose proof (low_range b (countTrailingZeros a)). lia. Qed.

Lemma ancestor_tz_le a b : ancestor a b ->
  (countTrailingZeros b <= countTrailingZeros a)%nat.
Proof.
  unfold ancestor. pose proof (countTrailingZeros_tz b) as (_ & Hb0 & _).
  intros Hab. destruct (Nat.lt_ge_cases (countTrailingZeros a) (countTrailingZeros b))
    as [Hlt|]; [|done].
  pose proof (low_le b _ _ (Nat.lt_le_incl _ _ Hlt) Hb0).
  assert (a = b) as -> by lia. done.
Qed.

Lemma ancestor_trans a b c : ancestor a b -> ancestor b c -> ancestor a c.
Proof.
  intros Hab0. pose proof (ancestor_tz_le a b Hab0) as Hge. revert Hab0.
  unfold ancestor. pose proof (countTrailingZeros_tz a) as Ha.
  pose proof (countTrailingZeros_tz b) as Hb.
  set (ka := countTrailingZeros a) in *. set (kb := countTrailingZeros b) in *.
  intros Hab Hbc.
  - destruct (pw_le kb ka Hge) as (q & Hq & _).
    pose proof (low_range c kb). pose proof (low_range b ka).
    destruct Ha as (_ & Ha0 & _), Hb as (_ & Hb0 & _). unfold low in *.
    apply Z.mod_divide in Ha0 as [x Hx]; [|pose proof (pw_pos ka); lia].
    apply Z.mod_divide in Hb0 as [y Hy]; [|pose proof (pw_pos kb); lia].
    assert (y - x * q < q) by (apply (Z.mul_lt_mono_pos_r (pw kb)); [apply pw_pos|lia]).
    assert (Hc : c mod pw ka = c - a); [|lia]. symmetry.
    apply (Z.mod_unique_pos _ _ x); [|lia]. nia.
Qed.

Lemma parent_ancestor m k : tz m k -> (k < 48)%nat -> ancestor (m - pw k) m.
Proof.
  intros (Hk & H0 & H1) Hlt. specialize (H1 Hlt). unfold ancestor.
  pose proof (countTrailingZeros_tz (m - pw k)) as (Hk' & H0' & H1').
  set (k' := countTrailingZeros (m - pw k)) in *.
  assert (HS : low (m - pw k) (S k) = 0).
  { unfold low in *. rewrite Zminus_mod, H1, (Z.mod_small (pw k)).
    - by rewrite Z.sub_diag.
    - rewrite pw_S. pose proof (pw_pos k). lia. }
  destruct (Nat.lt_ge_cases k k') as [Hlt'|Hge].
  - pose proof (low_add_pw _ _ k k' H0' (Nat.le_refl _)) as E.
    replace (m - pw k + pw k) with m in E by lia. rewrite E, low_pw_small by done. done.
  - pose proof (low_le _ (S k') (S k) ltac:(lia) HS). specialize (H1' ltac:(lia)).
    pose proof (pw_pos k'). lia.
Qed.

Lemma covering_bucket m0 j m : 0 < m0 -> m0 <= m -> m < 2 ^ 48 -> ancestor m j ->
  exists k m', (k < 48)%nat /\ last_of m0 k m' /\ ancestor m' j.
Proof.
  intros H0 Hm. remember (Z.to_nat m) as n eqn:En. revert m Hm En.
  induction n as [n IH] using lt_wf_ind. intros m Hm -> Hlt Hanc.
  pose proof (countTrailingZeros_tz m) as Htz. set (k := countTrailingZeros m) in *.
  assert (Hk : (k < 48)%nat).
  { destruct (decide (k = 48%nat)) as [E|]; [|destruct Htz; lia]. exfalso.
    destruct Htz as (_ & Hl & _). rewrite E in Hl. unfold low in Hl.
    change (pw 48) with (2 ^ 48) in Hl. rewrite Z.mod_small in Hl; lia. }
  destruct (Z.lt_ge_cases m (m0 + pw (S k))) as [Hin|Hout].
  - exists k, m. split; [done|split; [|done]]. split; [lia|by split].
  - pose proof (pw_pos k). rewrite pw_S in Hout.
    apply (IH (Z.to_nat (m - pw k)) ltac:(lia) (m - pw k)); [lia|done|lia|].
    eapply ancestor_trans; [by apply parent_ancestor|done].
Qed.

Lemma LookUp_loop_found seed j l : length seed = 32%nat -> valid_index j ->
  Forall (fun e => exists m, valid_index m /\ e = node seed m) l ->
  Exists (fun e => ancestor (index e) j) l ->
  LookUp_loop j l = Ok (secret seed j).
Proof.
  intros Hs Hj Hall Hex. induction Hall as [|e l (m & Hm & ->) _ IH]; [by inversion Hex|].
  cbn [LookUp_loop]. rewrite derive_node by done. case_decide as Hd; [done|].
  apply IH. by inversion Hex.
Qed.

Lemma LookUp_loop_none seed j l : length seed = 32%nat -> valid_index j ->
  Forall (fun e => exists m, valid_index m /\ e = node seed m /\ j < m) l ->
  LookUp_loop j l = Err (ErrUnableToDerive j).
Proof.
  intros Hs Hj. induction 1 as [|e l (m & Hm & -> & Hjm) _ IH]; [done|].
  cbn [LookUp_loop]. rewrite derive_node by done.
  rewrite decide_False; [exact IH|]. intros ?%ancestor_le. lia.
Qed.

Lemma live_buckets seed m0 s : store_holds seed m0 s ->
  Forall (fun e => exists m, m0 <= m /\ valid_index m /\ e = node seed m)
    (take (lenBuckets s) (buckets s)).
Proof.
  intros Hh. apply Forall_lookup_2. intros k e [Hk Hlt]%lookup_take_Some.
  destruct (sh_live _ _ _ Hh k Hlt) as [m Hm].
  pose proof (sh_len _ _ _ Hh). unfold maxHeight in *. pose proof (sh_range _ _ _ Hh).
  destruct (sh_last _ _ _ Hh k m ltac:(lia) Hm) as [_ Hb].
  exists m. destruct Hm as [? _]. split; [lia|split; [unfold valid_index; lia|]].
  congruence.
Qed.

Lemma LookUp_spec seed m0 s v : length seed = 32%nat -> store_holds seed m0 s ->
  0 <= v < 2 ^ 48 ->
  LookUp s v = if decide (m0 <= newIndex v) then Ok (secret seed (newIndex v))
               else Err (ErrUnableToDerive (newIndex v)).
Proof.
  intros Hs Hh Hv. unfold LookUp. rewrite newIndex_eq by done. set (j := 2 ^ 48 - 1 - v).
  assert (Hj : valid_index j) by (unfold valid_index; lia).
  pose proof (sh_range _ _ _ Hh). pose proof (live_buckets _ _ _ Hh) as Hlive.
  case_decide as Hd.
  - apply LookUp_loop_found; [done..| |].
    { eapply Forall_impl; [|exact Hlive]. intros e (m & _ & ?). by exists m. }
    destruct (covering_bucket m0 j j) as (k & m & Hk & Hm & Hanc);
      [lia|done|unfold valid_index in Hj; lia| |].
    { unfold ancestor. destruct (countTrailingZeros_tz j) as (_ & -> & _). lia. }
    destruct (sh_last _ _ _ Hh k m Hk Hm) as [Hkl Hb].
    apply Exists_exists. exists (node seed m). split; [|done].
    apply list_elem_of_In, list_elem_of_lookup. exists k. apply lookup_take_Some. done.
  - apply (LookUp_loop_none seed); [done..|].
    eapply Forall_impl; [|exact Hlive]. intros e (m & ? & ? & ?). exists m.
    split_and!; [done|done|lia].
Qed.

(** ** Encoding *)
Lemma writes_Encode_loop l : writes (Encode_loop l)
  (concat ((fun e => be_put 8 (index e) ++ hash e) <$> l)).
Proof.
  induction l as [|e l IH]; [apply writes_ret|]. rewrite fmap_cons. cbn [concat Encode_loop].
  rewrite <- app_assoc. repeat (apply writes_bind || apply writes_bytes). exact IH.
Qed.

Definition element_ok (e : element) : Prop := is_uint 64 (index e) /\ length (hash e) = 32%nat.

Lemma FromBytes_loop_reads l i bs :
  Forall element_ok l -> (i + length l <= length bs)%nat ->
  reads (FromBytes_loop (length l) i bs)
    (concat ((fun e => be_put 8 (index e) ++ hash e) <$> l))
    (take i bs ++ l ++ drop (i + length l) bs).
Proof.
  intros Hl. revert i bs. induction Hl as [|e l [Hi Hh] _ IH]; intros i bs Hlen.
  - cbn [length FromBytes_loop]. rewrite app_nil_l, Nat.add_0_r, take_drop. apply reads_ret.
  - cbn [length FromBytes_loop] in *. rewrite fmap_cons. cbn [concat]. rewrite <- app_assoc.
    eapply reads_bind; [by apply (reads_uint 8)|].
    eapply reads_bind; [by apply reads_full|].
    rewrite decide_True by lia. destruct e as [ind h]; cbn [index hash] in *.
    assert (E : take i bs ++ (mkElement ind h :: l) ++ drop (i + S (length l)) bs =
      take (S i) (<[i:=mkElement ind h]> bs) ++ l ++
        drop (S i + length l) (<[i:=mkElement ind h]> bs)).
    { rewrite (drop_insert_lt _ (S i + length l)) by lia.
      rewrite (take_S_r _ i (mkElement ind h)) by (apply list_lookup_insert_eq; lia).
      rewrite take_insert_ge by lia. rewrite <- !app_assoc. simpl.
      by replace (S (i + length l)) with (i + S (length l))%nat by lia. }
    rewrite E. apply IH. rewrite length_insert. lia.
Qed.

Lemma store_elements_ok seed m0 s : length seed = 32%nat -> store_holds seed m0 s ->
  Forall element_ok (take (lenBuckets s) (buckets s)).
Proof.
  intros Hs Hh. eapply Forall_impl; [|by apply (live_buckets seed m0)].
  intros e (m & _ & Hm & ->). unfold valid_index in Hm. split.
  - unfold is_uint. simpl. lia.
  - by apply length_secret.
Qed.

Lemma store_tail seed m0 s : store_holds seed m0 s ->
  take (lenBuckets s) (buckets s) ++
    drop (lenBuckets s) (replicate maxHeight zero_element) = buckets s.
Proof.
  intros Hh. pose proof (sh_length _ _ _ Hh) as Hl. pose proof (sh_len _ _ _ Hh).
  apply list_eq. intros k. destruct (Nat.lt_ge_cases k (lenBuckets s)).
  - rewrite lookup_app_l by (rewrite length_take; lia). by rewrite lookup_take_lt.
  - rewrite lookup_app_r by (rewrite length_take; lia).
    rewrite length_take, Nat.min_l, lookup_drop by lia.
    replace (lenBuckets s + (k - lenBuckets s))%nat with k by lia.
    destruct (Nat.lt_ge_cases k 48).
    + rewrite (sh_zero _ _ _ Hh) by lia. apply lookup_replicate_2. unfold maxHeight. lia.
    + rewrite !lookup_ge_None_2; [done|rewrite Hl; unfold maxHeight; lia|
        rewrite length_replicate; unfold maxHeight; lia].
Qed.

(** ** Theorems *)

(** [hs] are the first [n] secrets of a producer, in the order it reveals them. *)
Definition first_secrets (p : RevocationProducer) (n : nat) (hs : list bytes) : Prop :=
  Forall2 (fun i h => AtIndex p (Z.of_nat i) = Ok h) (seq 0 n) hs.

Lemma first_secrets_snoc seed n hs : length seed = 32%nat -> (Z.of_nat (S n) <= 2 ^ 48) ->
  first_secrets (NewRevocationProducer seed) (S n) hs ->
  exists hs', hs = hs' ++ [secret seed (2 ^ 48 - 1 - Z.of_nat n)] /\
    first_secrets (NewRevocationProducer seed) n hs'.
Proof.
  intros Hs Hn H. unfold first_secrets in *. rewrite seq_S in H.
  apply Forall2_app_inv_l in H as (hs' & l & H1 & H2 & ->).
  apply Forall2_cons_inv_l in H2 as (h & ? & Hh & H3 & ->). apply Forall2_nil_inv_l in H3 as ->.
  exists hs'. split; [|done]. do 2 f_equal.
  rewrite AtIndex_secret, newIndex_eq in Hh by lia. simpl in Hh. congruence.
Qed.

Lemma AddEntries_app l h s s1 : AddEntries l s = (Ok tt, s1) ->
  AddEntries (l ++ [h]) s = AddNextEntry h s1.
Proof.
  revert s. induction l as [|x l IH]; intros s H; cbn [AddEntries app] in *.
  - injection H as ->. unfold mbind, M_bind. by destruct (AddNextEntry h s1) as [[[]|?|] ?].
  - apply M_bind_Ok in H as ([] & s2 & H1 & H2).
    unfold mbind, M_bind at 1. rewrite H1. by apply IH.
Qed.

Lemma AddEntries_first seed n hs : length seed = 32%nat -> (Z.of_nat n < 2 ^ 48) ->
  first_secrets (NewRevocationProducer seed) n hs ->
  exists s, AddEntries hs NewRevocationStore = (Ok tt, s) /\
    store_holds seed (2 ^ 48 - Z.of_nat n) s.
Proof.
  intros Hs. revert hs. induction n as [|n IH]; intros hs Hn H.
  - apply Forall2_nil_inv_l in H as ->. exists NewRevocationStore.
    split; [done|]. rewrite Z.sub_0_r. apply new_store_holds.
  - apply first_secrets_snoc in H as (hs' & -> & H); [|done|lia].
    destruct (IH hs' ltac:(lia) H) as (s & Hadd & Hh).
    destruct (AddNextEntry_ok seed _ s Hs Hh ltac:(lia)) as (s' & Hn' & Hh').
    replace (2 ^ 48 - Z.of_nat n - 1) with (2 ^ 48 - 1 - Z.of_nat n) in * by lia.
    exists s'. rewrite (AddEntries_app _ _ _ _ Hadd), Hn'. split; [done|].
    by replace (2 ^ 48 - Z.of_nat (S n)) with (2 ^ 48 - 1 - Z.of_nat n) by lia.
Qed.

Lemma store_lookup seed n s v : length seed = 32%nat -> (Z.of_nat n < 2 ^ 48) ->
  store_holds seed (2 ^ 48 - Z.of_nat n) s -> 0 <= v < 2 ^ 48 ->
  LookUp s v = if decide (v < Z.of_nat n) then AtIndex (NewRevocationProducer seed) v
               else Err (ErrUnableToDerive (newIndex v)).
Proof.
  intros Hs Hn Hh Hv. rewrite (LookUp_spec seed _ s v Hs Hh Hv).
  rewrite AtIndex_secret by done. rewrite newIndex_eq by done.
  destruct (decide (v < Z.of_nat n)); [by rewrite decide_True by lia|].
  by rewrite decide_False by lia.
Qed.

(** C30. The store is a correct compact representation of the secrets a producer
    reveals: adding the first [n < 2^48] of them in order succeeds with at most
    48 buckets in use, every one of them can then be looked up again, and a
    secret that was not revealed yet is not derivable. *)
Theorem revocation_store_correct (seed : bytes) (n : nat) (hs : list bytes) :
  length seed = 32%nat -> Z.of_nat n < 2 ^ 48 ->
  first_secrets (NewRevocationProducer seed) n hs ->
  exists s, AddEntries hs NewRevocationStore = (Ok tt, s) /\
    (lenBuckets s <= maxHeight)%nat /\
    (forall v, 0 <= v < Z.of_nat n ->
       LookUp s v = AtIndex (NewRevocationProducer seed) v) /\
    (forall v, Z.of_nat n <= v < 2 ^ 48 ->
       LookUp s v = Err (ErrUnableToDerive (newIndex v))).
Proof.
  intros Hs Hn Hf. destruct (AddEntries_first seed n hs Hs Hn Hf) as (s & Ha & Hh).
  exists s. split; [done|]. split; [apply (sh_len _ _ _ Hh)|].
  split; intros v Hv; rewrite (store_lookup seed n s v) by (done || lia).
  - by rewrite decide_True by lia.
  - by rewrite decide_False by lia.
Qed.

Definition example_seed : bytes := replicate 32 Byte.x11.

Lemma example_first_secrets :
  first_secrets (NewRevocationProducer example_seed) 2
    [secret example_seed (newIndex 0); secret example_seed (newIndex 1)].
Proof.
  repeat constructor; (apply AtIndex_secret; [reflexivity|split; [discriminate|reflexivity]]).
Qed.

Lemma revocation_store_correct_witness :
  exists s, AddEntries [secret example_seed (newIndex 0); secret example_seed (newIndex 1)]
      NewRevocationStore = (Ok tt, s) /\
    (lenBuckets s <= maxHeight)%nat /\
    (forall v, 0 <= v < Z.of_nat 2 ->
       LookUp s v = AtIndex (NewRevocationProducer example_seed) v) /\
    (forall v, Z.of_nat 2 <= v < 2 ^ 48 ->
       LookUp s v = Err (ErrUnableToDerive (newIndex v))).
Proof.
  apply (revocation_store_correct example_seed 2); [reflexivity..|].
  apply example_first_secrets.
Defined.

(** Derivation composes: from an ancestor's hash one derives the hash of a
    descendant directly or through any index in between, with the same result,
    and a step to an index that is not a descendant is refused. *)
Theorem derive_composes (a b c : Z) (h : bytes) :
  valid_index a -> valid_index b -> valid_index c -> length h = 32%nat ->
  ancestor a b ->
  exists e, derive (mkElement a h) b = Ok e /\ index e = b /\
    (ancestor b c -> derive e c = derive (mkElement a h) c) /\
    (~ ancestor b c -> derive e c = Err ErrPrefixesDiffer).
Proof.
  intros Ha Hb Hc Hh Hab. eexists. rewrite derive_eq, decide_True by done.
  split; [reflexivity|]. split; [done|].
  rewrite derive_eq by (done || by apply length_fold_flip).
  split; intros Hbc; [|by rewrite decide_False].
  rewrite decide_True, derive_eq, decide_True by (try done; by eapply ancestor_trans).
  do 2 f_equal. rewrite <- foldl_app. f_equal.
  rewrite (bits_below_split c (countTrailingZeros b) (countTrailingZeros a)).
  - do 2 f_equal. unfold ancestor in Hbc. by rewrite <- Hbc.
  - by apply ancestor_tz_le.
Qed.

Lemma derive_composes_witness :
  exists e, derive (mkElement (2 ^ 40) example_seed) (2 ^ 40 + 4) = Ok e /\
    index e = 2 ^ 40 + 4 /\
    (ancestor (2 ^ 40 + 4) (2 ^ 40 + 5) ->
       derive e (2 ^ 40 + 5) = derive (mkElement (2 ^ 40) example_seed) (2 ^ 40 + 5)) /\
    (~ ancestor (2 ^ 40 + 4) (2 ^ 40 + 5) ->
       derive e (2 ^ 40 + 5) = Err ErrPrefixesDiffer).
Proof.
  apply derive_composes;
    [split; [discriminate|reflexivity]..|reflexivity|reflexivity].
Defined.

(** ** Acceptance of a new secret *)
Lemma check_buckets_spec ne l :
  check_buckets ne l = Ok tt <->
  Forall (fun b => derive ne (index b) = Ok b) l.
Proof.
  induction l as [|b l IH]; [by split|]. cbn [check_buckets].
  rewrite Forall_cons_iff, <- IH. destruct (derive ne (index b)) as [e|e|] eqn:E; cbn;
    [|split; [done|by intros [? _]]..].
  unfold isEqual. destruct e as [ei eh], b as [bi bh]; cbn [index hash] in *.
  destruct (bool_decide_reflect (ei = bi)) as [->|?], (bool_decide_reflect (eh = bh)) as [->|?];
    cbn; split; try done; try (by intros [? ?]); intros [[=] _]; done.
Qed.

(** A secret is accepted exactly when every bucket below its own derives
    from it, which is the check that binds the peer to one secret per state; an
    accepted one goes in its bucket and the expected index goes down, and on any
    other outcome (a rejection, or a panic) the store is unchanged. *)
Theorem AddNextEntry_accepts (h : bytes) (s : RevocationStore) :
  let b := countTrailingZeros (st_index s) in
  let ne := mkElement (st_index s) h in
  (fst (AddNextEntry h s) = Ok tt <->
     (b < length (buckets s))%nat /\
     forall i e, (i < b)%nat -> buckets s !! i = Some e -> derive ne (index e) = Ok e) /\
  (fst (AddNextEntry h s) = Ok tt ->
     buckets (snd (AddNextEntry h s)) = <[b := ne]> (buckets s) /\
     lenBuckets (snd (AddNextEntry h s)) = Nat.max (lenBuckets s) (b + 1) /\
     st_index (snd (AddNextEntry h s)) = u64 (st_index s - 1)) /\
  (fst (AddNextEntry h s) <> Ok tt -> snd (AddNextEntry h s) = s).
Proof.
  intros b ne. unfold AddNextEntry. cbn [index]. fold b. fold ne.
  pose proof (check_buckets_spec ne (take b (buckets s))) as Hc.
  assert (HF : Forall (fun x => derive ne (index x) = Ok x) (take b (buckets s)) <->
    forall i e, (i < b)%nat -> buckets s !! i = Some e -> derive ne (index e) = Ok e).
  { rewrite Forall_lookup. split; intros H i e.
    - intros Hi He. apply (H i), lookup_take_Some. done.
    - intros [He Hi]%lookup_take_Some. by apply (H i). }
  pose proof (iff_trans Hc HF) as Hc'. clear Hc. rename Hc' into Hc. destruct (check_buckets ne (take b (buckets s))) as [[]|e|] eqn:E;
    [|cbn; split; [|done]; split; [done|by intros [_ H%Hc]]..].
  destruct (decide (b < length (buckets s))%nat); cbn [fst snd buckets lenBuckets st_index];
    [|split; [|done]; split; [done|by intros [? _]]].
  split; [|split; [|done]].
  - split; [|done]. intros _. split; [done|by apply Hc].
  - intros _. split; [done|split; [|done]]. destruct (Nat.ltb_spec (lenBuckets s) (b + 1)); lia.
Qed.

(** ** The last secret *)

(** A store that holds every secret but the last, that of index 0. *)
Definition full_store (seed : bytes) : RevocationStore :=
  mkStore maxHeight ((fun k => node seed (pw k)) <$> seq 0 maxHeight) 0.

Lemma tz_1_last k m : (k < 48)%nat -> last_of 1 k m <-> m = pw k.
Proof.
  intros Hk. pose proof (pw_pos k) as Hp. unfold last_of, tz. split.
  - intros (Hm & (_ & H0 & H1) & Hlt). specialize (H1 Hk).
    assert (Hr : m mod pw (S k) = pw k) by exact H1.
    rewrite pw_S in *. destruct (Z.eq_dec m (2 * pw k)) as [->|?].
    + rewrite Z_mod_same_full in Hr. lia.
    + rewrite Z.mod_small in Hr; lia.
  - intros ->. assert (Hle : pw k < 2 ^ 48) by (apply Z.pow_lt_mono_r; lia).
    split; [lia|]. split; [|rewrite pw_S; lia].
    split; [lia|]. split; [apply Z_mod_same_full|]. intros _. apply low_pw_small. lia.
Qed.

Lemma full_store_holds seed : store_holds seed 1 (full_store seed).
Proof.
  split; unfold full_store; cbn [st_index buckets lenBuckets]; try done; try lia.
  - intros k m Hk ->%tz_1_last; [|done]. unfold maxHeight. split; [done|].
    rewrite list_lookup_fmap, lookup_seq_lt by done. done.
  - intros k Hk. exists (pw k). by apply tz_1_last.
  - unfold maxHeight. lia.
Qed.

(** The last index of the chain cannot be stored: once the store holds every
    secret but that of index 0, adding the producer's own last secret, which is
    consistent with all buckets, writes past the 48 buckets and panics. *)
Theorem last_secret_panics (seed : bytes) (s : RevocationStore) :
  length seed = 32%nat -> store_holds seed 1 s ->
  AtIndex (NewRevocationProducer seed) (2 ^ 48 - 1) = Ok (secret seed 0) /\
  AddNextEntry (secret seed 0) s = (Panic, s).
Proof.
  intros Hs Hh. split.
  { rewrite AtIndex_secret, newIndex_eq by (done || lia). done. }
  unfold AddNextEntry. rewrite (sh_index _ _ _ Hh). cbn [index].
  change (1 - 1) with 0. rewrite ctz_0.
  change (mkElement 0 (secret seed 0)) with (node seed 0).
  rewrite check_buckets_ok; [|done|by unfold valid_index; lia|].
  - rewrite decide_False; [done|]. rewrite (sh_length _ _ _ Hh). unfold maxHeight. lia.
  - apply (buckets_below_ok seed 1 s 48 Hh). split; [lia|]. split; [done|lia].
Qed.

Lemma last_secret_panics_witness :
  AtIndex (NewRevocationProducer example_seed) (2 ^ 48 - 1) = Ok (secret example_seed 0) /\
  AddNextEntry (secret example_seed 0) (full_store example_seed) =
    (Panic, full_store example_seed).
Proof. apply last_secret_panics; [reflexivity|apply full_store_holds]. Defined.

(** A store survives its serialisation: reading back what [Encode] wrote
    for the store of the first [n] secrets gives the very same store and leaves
    the bytes that follow. *)
Theorem revocation_store_roundtrip (seed : bytes) (n : nat) (hs : list bytes) (rest : bytes) :
  length seed = 32%nat -> Z.of_nat n < 2 ^ 48 ->
  first_secrets (NewRevocationProducer seed) n hs ->
  exists s bs, AddEntries hs NewRevocationStore = (Ok tt, s) /\
    Store_Encode s [] = (Ok tt, bs) /\
    NewRevocationStoreFromBytes (bs ++ rest) = (Ok s, rest).
Proof.
  intros Hs Hn Hf. destruct (AddEntries_first seed n hs Hs Hn Hf) as (s & Ha & Hh).
  pose proof (sh_len _ _ _ Hh) as Hlen. pose proof (sh_length _ _ _ Hh) as Hl.
  pose proof (sh_range _ _ _ Hh). pose proof (sh_index _ _ _ Hh) as Hi.
  set (l := take (lenBuckets s) (buckets s)).
  assert (Hll : length l = lenBuckets s) by (unfold l; rewrite length_take; lia).
  unfold maxHeight in *.
  exists s, (be_put 1 (Z.of_nat (lenBuckets s)) ++
    concat ((fun e => be_put 8 (index e) ++ hash e) <$> l) ++ be_put 8 (st_index s)).
  split; [done|split].
  - rewrite <- (app_nil_l (be_put 1 _ ++ _)). generalize (@nil byte).
    change (writes (Store_Encode s) (be_put 1 (Z.of_nat (lenBuckets s)) ++
      concat ((fun e => be_put 8 (index e) ++ hash e) <$> l) ++ be_put 8 (st_index s))).
    apply writes_bind; [apply writes_bytes|].
    apply writes_bind; [apply writes_Encode_loop|apply writes_bytes].
  - revert rest. change (reads NewRevocationStoreFromBytes
      (be_put 1 (Z.of_nat (lenBuckets s)) ++
       concat ((fun e => be_put 8 (index e) ++ hash e) <$> l) ++ be_put 8 (st_index s)) s).
    eapply reads_bind; [apply (reads_uint 1); unfold is_uint; lia|]. rewrite Nat2Z.id.
    eapply reads_bind.
    { rewrite <- Hll. apply FromBytes_loop_reads; [by apply (store_elements_ok seed _ s Hs Hh)|].
      rewrite length_replicate. unfold maxHeight. lia. }
    rewrite take_0, app_nil_l, Nat.add_0_l, Hll. unfold l. rewrite (store_tail _ _ _ Hh).
    rewrite <- (app_nil_r (be_put 8 _)).
    eapply reads_bind; [apply (reads_uint 8); unfold is_uint; lia|].
    destruct s; apply reads_ret.
Qed.

Lemma revocation_store_roundtrip_witness :
  exists s bs, AddEntries [secret example_seed (newIndex 0); secret example_seed (newIndex 1)]
      NewRevocationStore = (Ok tt, s) /\
    Store_Encode s [] = (Ok tt, bs) /\
    NewRevocationStoreFromBytes (bs ++ [Byte.x01]) = (Ok s, [Byte.x01]).
Proof.
  apply (revocation_store_roundtrip example_seed 2); [reflexivity..|].
  apply example_first_secrets.
Defined.
