(* ===== verification/Sig.v ===== *)
(** * Fixed-size signatures ([lnwire/signature.go])

    A signature travels as 64 bytes, [R] and [S] zero-padded to 32 bytes each;
    Bitcoin wants the canonical DER encoding.  [NewSigFromRawSignature] goes from
    DER to the fixed form and [ToSignatureBytes] back.  Lengths are [uint8]. *)

From S2P Require Import Prelude.

Inductive sigerr : Type :=
| ErrEmptySignature
| ErrSOver32
| ErrROver32.

Definition byte_at (b : bytes) (i : Z) : option Z :=
  byte.unsigned <$> (b !! Z.to_nat i).

(** [copy(dst[off:], src)]. *)
Definition copy_at (dst : bytes) (off : Z) (src : bytes) : bytes :=
  let o := Z.to_nat off in
  take o dst ++ take (length dst - o) src ++ drop (o + length src) dst.

(** [sig[k:]] panics when [k] is past the end. *)
Definition slice_from (sig : bytes) (k : Z) : res sigerr bytes :=
  if decide (Z.to_nat k <= length sig)%nat then Ok (drop (Z.to_nat k) sig) else Panic.

Definition index_byte (sig : bytes) (k : Z) : res sigerr Z :=
  match byte_at sig k with Some v => Ok v | None => Panic end.

Definition copy_S (b sig : bytes) (rLen sLen : Z) : res sigerr bytes :=
  if 32 <? sLen then
    bad ← (if 33 <? sLen then Ok true
           else v ← index_byte sig (u8 (6 + rLen)); mret (negb (v =? 0)));
    _ ← guard_err bad ErrSOver32;
    let sLen := sLen - 1 in
    src ← slice_from sig (u8 (7 + rLen));
    mret (copy_at b (64 - sLen) src)
  else
    src ← slice_from sig (u8 (6 + rLen));
    mret (copy_at b (64 - sLen) src).

Definition copy_R (b sig : bytes) (rLen : Z) : res sigerr bytes :=
  if 32 <? rLen then
    bad ← (if 33 <? rLen then Ok true
           else v ← index_byte sig 4; mret (negb (v =? 0)));
    _ ← guard_err bad ErrROver32;
    let rLen := rLen - 1 in
    src ← slice_from sig 5;
    mret (copy_at b (32 - rLen) (take (Z.to_nat rLen) src))
  else
    src ← slice_from sig 4;
    mret (copy_at b (32 - rLen) (take (Z.to_nat rLen) src)).

Definition NewSigFromRawSignature (sig : bytes) : res sigerr bytes :=
  let b := replicate 64 Byte.x00 in
  if decide (sig = []) then Err ErrEmptySignature
  else
    rLen ← index_byte sig 3;
    sLen ← index_byte sig (u8 (5 + rLen));
    b ← copy_S b sig rLen sLen;
    copy_R b sig rLen.

Fixpoint extractCanonicalPadding (b : bytes) : bytes :=
  match b with
  | [] => [Byte.x00]
  | x :: rest =>
      if 0 <? byte.unsigned x then
        if Z.land (byte.unsigned x) 0x80 =? 0x80 then Byte.x00 :: b else b
      else extractCanonicalPadding rest
  end.

Definition ToSignatureBytes (b : bytes) : bytes :=
  let r := extractCanonicalPadding (take 32 b) in
  let s := extractCanonicalPadding (drop 32 b) in
  let rLen := u8 (Z.of_nat (length r)) in
  let sLen := u8 (Z.of_nat (length s)) in
  [Byte.x30; byte.of_Z (u8 (4 + rLen + sLen)); Byte.x02; byte.of_Z rLen] ++ r ++
  [Byte.x02; byte.of_Z sLen] ++ s.

(** ** Canonical integers *)

(** A DER integer: no sign bit, no superfluous leading zero, at most 32 bytes
    of magnitude. *)
Definition canonical (r : bytes) : Prop :=
  match r with
  | [] => False
  | x :: rest =>
      byte.unsigned x < 0x80 /\
      (byte.unsigned x = 0 -> match rest with [] => True | y :: _ => 0x80 <= byte.unsigned y end) /\
      ((length r <= 32)%nat \/ (length r = 33%nat /\ byte.unsigned x = 0))
  end.

(** The magnitude, padded to 32 bytes. *)
Definition pad32 (r : bytes) : bytes :=
  let m := if decide (length r = 33)%nat then drop 1 r else r in
  replicate (32 - length m) Byte.x00 ++ m.

Definition der (r s : bytes) : bytes :=
  [Byte.x30; byte.of_Z (Z.of_nat (4 + length r + length s)); Byte.x02;
   byte.of_Z (Z.of_nat (length r))] ++ r ++
  [Byte.x02; byte.of_Z (Z.of_nat (length s))] ++ s.

Lemma land_0x80 x : (Z.land (byte.unsigned x) 0x80 =? 0x80) = (0x80 <=? byte.unsigned x).
Proof. by destruct x. Qed.

Lemma byte_range x : is_uint 8 (byte.unsigned x).
Proof. apply byte.unsigned_range. Qed.

Lemma byte_zero x : byte.unsigned x = 0 -> x = Byte.x00.
Proof. intros H. by apply unsigned_inj. Qed.

Lemma extract_canonical b : (length b <= 32)%nat -> canonical (extractCanonicalPadding b).
Proof.
  induction b as [|x b IH]; intros Hl; cbn [extractCanonicalPadding].
  - cbn. split; [lia|]. split; [done|]. left. lia.
  - pose proof (byte_range x) as Hx. unfold is_uint in Hx. rewrite land_0x80.
    destruct (Z.ltb_spec 0 (byte.unsigned x)); [|apply IH; cbn [length] in Hl; lia].
    destruct (Z.leb_spec 0x80 (byte.unsigned x)).
    + split; [cbn; lia|]. split; [done|]. cbn [length] in *.
      destruct (decide (length b = 31%nat)); [right; cbn; lia|left; lia].
    + split; [done|]. split; [lia|]. by left.
Qed.

Lemma length_extract b : (length b <= 32)%nat -> (1 <= length (extractCanonicalPadding b) <= 33)%nat.
Proof.
  intros Hl. pose proof (extract_canonical b Hl) as H.
  destruct (extractCanonicalPadding b) as [|x r]; [done|]. destruct H as (_ & _ & H).
  cbn [length] in *. lia.
Qed.

Lemma pad32_extract_aux b k : (length b + k = 32)%nat ->
  pad32 (extractCanonicalPadding b) = replicate k Byte.x00 ++ b.
Proof.
  revert k. induction b as [|x b IH]; intros k Hl; cbn [extractCanonicalPadding].
  - cbn [length] in Hl. replace k with 32%nat by lia. reflexivity.
  - pose proof (byte_range x) as Hx. rewrite land_0x80. cbn [length] in Hl.
    destruct (Z.ltb_spec 0 (byte.unsigned x)) as [Hp|Hz].
    + unfold pad32. destruct (0x80 <=? byte.unsigned x).
      * cbn [length]. destruct (decide (S (S (length b)) = 33%nat)) as [E|E].
        -- cbn [drop length]. do 2 f_equal. lia.
        -- cbn [length]. replace k with (S (32 - S (S (length b)))) by lia.
           rewrite replicate_S_end, <- app_assoc. done.
      * cbn [length]. rewrite decide_False by lia. do 2 f_equal. cbn [length]. lia.
    + unfold is_uint in Hx. rewrite (byte_zero x) by lia. rewrite (IH (S k)) by lia.
      by rewrite replicate_S_end, <- app_assoc.
Qed.

Lemma pad32_extract b : length b = 32%nat -> pad32 (extractCanonicalPadding b) = b.
Proof. intros Hl. by rewrite (pad32_extract_aux b 0) by lia. Qed.

Lemma extract_replicate k b : extractCanonicalPadding (replicate k Byte.x00 ++ b) = extractCanonicalPadding b.
Proof. induction k as [|k IH]; [done|]. exact IH. Qed.

Lemma extract_pad32 r : canonical r -> extractCanonicalPadding (pad32 r) = r.
Proof.
  destruct r as [|x r]; [done|]. intros (Hx & Hz & Hl). unfold pad32.
  rewrite extract_replicate. cbn [length] in *.
  pose proof (byte_range x) as Hr. unfold is_uint in Hr.
  destruct (decide (S (length r) = 33%nat)) as [E|E].
  - assert (H0 : byte.unsigned x = 0) by lia. rewrite (byte_zero x H0).
    cbn [skipn]; rewrite skipn_0. specialize (Hz H0). destruct r as [|y r]; [cbn in E; lia|].
    cbn [extractCanonicalPadding]. rewrite land_0x80.
    rewrite (proj2 (Z.ltb_lt 0 _)), (proj2 (Z.leb_le 0x80 _)) by lia. done.
  - cbn [extractCanonicalPadding]. rewrite land_0x80.
    destruct (Z.ltb_spec 0 (byte.unsigned x)) as [Hp|Hp].
    + by rewrite (proj2 (Z.leb_gt 0x80 _)) by lia.
    + assert (H0 : byte.unsigned x = 0) by lia. rewrite (byte_zero x H0).
      specialize (Hz H0). destruct r as [|y r]; [done|].
      cbn [extractCanonicalPadding]. rewrite land_0x80.
      by rewrite (proj2 (Z.ltb_lt 0 _)), (proj2 (Z.leb_le 0x80 _)) by lia.
Qed.

Lemma length_pad32 r : canonical r -> length (pad32 r) = 32%nat.
Proof.
  destruct r as [|x r]; [done|]. intros (_ & _ & Hl). unfold pad32. cbn [length] in Hl.
  rewrite length_app, length_replicate. cbn [length].
  destruct (decide (S (length r) = 33%nat)); rewrite ?length_drop; cbn [length]; lia.
Qed.

(** ** Parsing the canonical form *)
Lemma byte_at_app_l a b i : (Z.to_nat i < length a)%nat -> byte_at (a ++ b) i = byte_at a i.
Proof. intros H. unfold byte_at. by rewrite lookup_app_l. Qed.

Lemma index_byte_at pre x rest k : Z.to_nat k = length pre ->
  index_byte (pre ++ x :: rest) k = Ok (byte.unsigned x).
Proof. intros H. unfold index_byte, byte_at. rewrite H. by rewrite list_lookup_middle. Qed.

Lemma slice_from_at pre rest k : Z.to_nat k = length pre ->
  slice_from (pre ++ rest) k = Ok rest.
Proof.
  intros H. unfold slice_from. rewrite decide_True by (rewrite length_app; lia).
  by rewrite H, drop_app_length.
Qed.

Lemma canonical_length r : canonical r -> (1 <= length r <= 33)%nat.
Proof. destruct r as [|x r]; [done|]. intros (_ & _ & H). cbn [length] in *. lia. Qed.

Lemma byte_of_len n : (n <= 255)%nat -> byte.unsigned (byte.of_Z (Z.of_nat n)) = Z.of_nat n.
Proof. intros H. rewrite byte.unsigned_of_Z. apply Z.mod_small. lia. Qed.

(** The 32 bytes the code copies: the integer less its padding byte. *)
Definition magnitude (r : bytes) : bytes := if decide (length r = 33%nat) then drop 1 r else r.

Lemma length_magnitude r : canonical r -> (length (magnitude r) <= 32)%nat.
Proof.
  intros H%canonical_length. unfold magnitude.
  destruct (decide _); rewrite ?length_drop; lia.
Qed.

Lemma magnitude_case r : canonical r ->
  (exists m, r = Byte.x00 :: m /\ length m = 32%nat /\ magnitude r = m) \/
  ((length r <= 32)%nat /\ magnitude r = r).
Proof.
  intros H. pose proof (canonical_length _ H). unfold magnitude.
  destruct (decide (length r = 33%nat)) as [E|E]; [left|right; split; [lia|done]].
  destruct r as [|x r]; [done|]. destruct H as (_ & _ & H). cbn [length] in *.
  exists r. rewrite (byte_zero x) by lia. split; [done|split; [lia|done]].
Qed.

Lemma copy_S_canonical b pre r s :
  (length pre = 4)%nat -> canonical r -> canonical s ->
  copy_S b (pre ++ r ++ [Byte.x02; byte.of_Z (Z.of_nat (length s))] ++ s)
    (Z.of_nat (length r)) (Z.of_nat (length s)) =
  Ok (copy_at b (64 - Z.of_nat (length (magnitude s))) (magnitude s)).
Proof.
  intros Hp Hr Hs. pose proof (canonical_length _ Hr). pose proof (canonical_length _ Hs).
  set (pre' := pre ++ r ++ [Byte.x02; byte.of_Z (Z.of_nat (length s))]).
  assert (Hpre : length pre' = (6 + length r)%nat)
    by (unfold pre'; rewrite !length_app, Hp; cbn; lia).
  replace (pre ++ r ++ [Byte.x02; byte.of_Z (Z.of_nat (length s))] ++ s) with (pre' ++ s)
    by (unfold pre'; by rewrite <- !app_assoc).
  unfold copy_S. destruct (magnitude_case s Hs) as [(m & E & Hm & ->)|[Hl ->]].
  - assert (HL : Z.of_nat (length s) = 33) by (rewrite E; cbn [length]; lia).
    rewrite HL. change (32 <? 33) with true. change (33 <? 33) with false. cbn [negb].
    rewrite E, (index_byte_at pre') by (rewrite uwrap_id; [lia|unfold is_uint; lia]).
    replace (pre' ++ Byte.x00 :: m) with ((pre' ++ [Byte.x00]) ++ m) by (by rewrite <- app_assoc).
    rewrite res_bind_Ok_l. change (mret (negb _)) with (@Ok sigerr bool false).
    rewrite res_bind_Ok_l. change (guard_err _ _) with (@Ok sigerr unit tt).
    rewrite res_bind_Ok_l, slice_from_at by
      (rewrite uwrap_id by (unfold is_uint; lia); rewrite length_app, Hpre; cbn [length]; lia).
    rewrite Hm. done.
  - rewrite (proj2 (Z.ltb_ge 32 _)) by lia.
    rewrite slice_from_at by (rewrite uwrap_id by (unfold is_uint; lia); lia). done.
Qed.

Lemma copy_R_canonical b pre r post :
  (length pre = 4)%nat -> canonical r ->
  copy_R b (pre ++ r ++ post) (Z.of_nat (length r)) =
  Ok (copy_at b (32 - Z.of_nat (length (magnitude r))) (magnitude r)).
Proof.
  intros Hp Hr. pose proof (canonical_length _ Hr). unfold copy_R.
  destruct (magnitude_case r Hr) as [(m & E & Hm & ->)|[Hl ->]].
  - assert (HL : Z.of_nat (length r) = 33) by (rewrite E; cbn [length]; lia).
    rewrite HL. change (32 <? 33) with true. change (33 <? 33) with false.
    rewrite E. cbn [app]. rewrite (index_byte_at pre) by (rewrite Hp; done).
    replace (pre ++ Byte.x00 :: m ++ post) with ((pre ++ [Byte.x00]) ++ m ++ post)
      by (by rewrite <- app_assoc).
    rewrite res_bind_Ok_l. change (mret (negb _)) with (@Ok sigerr bool false).
    rewrite res_bind_Ok_l. change (guard_err _ _) with (@Ok sigerr unit tt).
    rewrite res_bind_Ok_l, slice_from_at by (rewrite length_app, Hp; done).
    rewrite res_bind_Ok_l, Hm. change (Z.to_nat (33 - 1)) with 32%nat.
    by rewrite take_app_length' by done.
  - rewrite (proj2 (Z.ltb_ge 32 _)) by lia.
    rewrite slice_from_at by (rewrite Hp; done). cbn -[copy_at length].
    by rewrite Nat2Z.id, take_app_length.
Qed.

Lemma copy_at_pad n k m x : (length m <= 32)%nat -> (n + 32 + k = length x)%nat ->
  take 32 (drop n x) = replicate 32 Byte.x00 ->
  copy_at x (Z.of_nat (n + 32) - Z.of_nat (length m)) m =
    take n x ++ (replicate (32 - length m) Byte.x00 ++ m) ++ drop (n + 32) x.
Proof.
  intros Hm Hx H0. unfold copy_at.
  replace (Z.to_nat (Z.of_nat (n + 32) - Z.of_nat (length m))) with (n + (32 - length m))%nat by lia.
  rewrite (take_ge m) by lia.
  replace (n + (32 - length m) + length m)%nat with (n + 32)%nat by lia.
  rewrite <- app_assoc, (app_assoc (take n x)). f_equal.
  rewrite <- (take_drop n x) at 1.
  rewrite take_app_ge by (rewrite length_take; lia). rewrite length_take, Nat.min_l by lia.
  f_equal. replace (n + (32 - length m) - n)%nat with (32 - length m)%nat by lia.
  replace (32 - length m)%nat with (Nat.min (32 - length m) 32) at 1 by lia.
  rewrite <- take_take, H0. by rewrite take_replicate, Nat.min_l by lia.
Qed.

Lemma pad32_magnitude r : pad32 r = replicate (32 - length (magnitude r)) Byte.x00 ++ magnitude r.
Proof. done. Qed.

Lemma NewSig_der r s : canonical r -> canonical s ->
  NewSigFromRawSignature (der r s) = Ok (pad32 r ++ pad32 s).
Proof.
  intros Hr Hs. pose proof (canonical_length _ Hr) as Lr. pose proof (canonical_length _ Hs) as Ls.
  unfold NewSigFromRawSignature, der.
  set (h := [Byte.x30; byte.of_Z (Z.of_nat (4 + length r + length s)); Byte.x02;
    byte.of_Z (Z.of_nat (length r))]).
  assert (Hh : length h = 4%nat) by done.
  rewrite decide_False by done.
  assert (E3 : index_byte (h ++ r ++ [Byte.x02; byte.of_Z (Z.of_nat (length s))] ++ s) 3 =
    Ok (Z.of_nat (length r))).
  { change (h ++ r ++ [Byte.x02; byte.of_Z (Z.of_nat (length s))] ++ s) with
      ([Byte.x30; byte.of_Z (Z.of_nat (4 + length r + length s)); Byte.x02] ++
       byte.of_Z (Z.of_nat (length r)) :: r ++ [Byte.x02; byte.of_Z (Z.of_nat (length s))] ++ s).
    rewrite index_byte_at, byte_of_len by (done || lia). done. }
  rewrite E3, res_bind_Ok_l.
  assert (E5 : index_byte (h ++ r ++ [Byte.x02; byte.of_Z (Z.of_nat (length s))] ++ s)
      (u8 (5 + Z.of_nat (length r))) = Ok (Z.of_nat (length s))).
  { replace (h ++ r ++ [Byte.x02; byte.of_Z (Z.of_nat (length s))] ++ s) with
      ((h ++ r ++ [Byte.x02]) ++ byte.of_Z (Z.of_nat (length s)) :: s)
      by (by rewrite <- !app_assoc).
    rewrite index_byte_at, byte_of_len by
      (try lia; rewrite uwrap_id by (unfold is_uint; lia); rewrite !length_app, Hh; cbn [length]; lia).
    done. }
  rewrite E5, res_bind_Ok_l, copy_S_canonical, res_bind_Ok_l by done.
  rewrite copy_R_canonical by done. f_equal.
  pose proof (length_magnitude r Hr). pose proof (length_magnitude s Hs).
  rewrite (copy_at_pad 32 0 (magnitude s)) by (done || lia).
  rewrite <- pad32_magnitude. pose proof (length_pad32 s Hs) as Lps.
  rewrite (drop_ge (replicate 64 Byte.x00)) by (rewrite length_replicate; lia).
  rewrite app_nil_r. change (take 32 (replicate 64 Byte.x00)) with (replicate 32 Byte.x00).
  rewrite (copy_at_pad 0 32 (magnitude r)); [|done|rewrite length_app, Lps, length_replicate; lia|].
  - rewrite <- pad32_magnitude. rewrite take_0, app_nil_l. f_equal.
  - rewrite drop_0. apply take_app_length'. done.
Qed.

Lemma ToSignatureBytes_der b : length b = 64%nat ->
  ToSignatureBytes b =
    der (extractCanonicalPadding (take 32 b)) (extractCanonicalPadding (drop 32 b)).
Proof.
  intros Hl. unfold ToSignatureBytes, der.
  pose proof (length_extract (take 32 b)) as Hr. pose proof (length_extract (drop 32 b)) as Hs.
  rewrite length_take in Hr. rewrite length_drop in Hs.
  specialize (Hr ltac:(lia)). specialize (Hs ltac:(lia)).
  set (r := extractCanonicalPadding (take 32 b)) in *.
  set (s := extractCanonicalPadding (drop 32 b)) in *.
  rewrite (uwrap_id 8 (Z.of_nat (length r))), (uwrap_id 8 (Z.of_nat (length s))),
    uwrap_id by (unfold is_uint; lia).
  do 3 f_equal. f_equal. lia.
Qed.

(** The two encodings of a signature carry the same integers: a 64-byte
    signature survives the conversion to Bitcoin's encoding and back, and that
    encoding is canonical (minimal, non-negative integers); conversely a
    canonical DER signature survives the fixed-size form byte for byte. *)
Theorem signature_roundtrip (b r s : bytes) :
  length b = 64%nat -> canonical r -> canonical s ->
  NewSigFromRawSignature (ToSignatureBytes b) = Ok b /\
  (exists r' s', ToSignatureBytes b = der r' s' /\ canonical r' /\ canonical s') /\
  exists b', NewSigFromRawSignature (der r s) = Ok b' /\ length b' = 64%nat /\
    ToSignatureBytes b' = der r s.
Proof.
  intros Hb Hr Hs.
  assert (Ht : length (take 32 b) = 32%nat) by (rewrite length_take; lia).
  assert (Hd : length (drop 32 b) = 32%nat) by (rewrite length_drop; lia).
  rewrite ToSignatureBytes_der by done. split; [|split].
  - rewrite NewSig_der by (apply extract_canonical; lia).
    rewrite !pad32_extract by done. by rewrite take_drop.
  - eexists _, _. split; [done|]. split; apply extract_canonical; lia.
  - exists (pad32 r ++ pad32 s). rewrite NewSig_der by done. split; [done|].
    pose proof (length_pad32 r Hr) as Lr. pose proof (length_pad32 s Hs) as Ls.
    assert (Hl : length (pad32 r ++ pad32 s) = 64%nat) by (rewrite length_app; lia).
    split; [done|]. rewrite ToSignatureBytes_der by done.
    rewrite (take_app_length' _ _ 32), (drop_app_length' _ _ 32) by done.
    by rewrite !extract_pad32.
Qed.

Lemma signature_roundtrip_witness :
  let b := replicate 31 Byte.x00 ++ [Byte.x85] ++ replicate 32 Byte.x7f in
  NewSigFromRawSignature (ToSignatureBytes b) = Ok b /\
  (exists r' s', ToSignatureBytes b = der r' s' /\ canonical r' /\ canonical s') /\
  exists b', NewSigFromRawSignature (der [Byte.x00; Byte.x80] [Byte.x01]) = Ok b' /\
    length b' = 64%nat /\ ToSignatureBytes b' = der [Byte.x00; Byte.x80] [Byte.x01].
Proof.
  intros b. apply (signature_roundtrip b [Byte.x00; Byte.x80] [Byte.x01]); [reflexivity| |];
    cbn; lia.
Defined.
