(* ===== verification/Units.v ===== *)
(** * Amounts, fees and channel types

    [lnwire/msat.go], [chainfee/rates.go], the channel-type bits of
    [channeldb/channel.go], the weights of [input/size.go] and the fee and dust
    rules of [lnwallet/commitment.go] and [lnwallet/channel.go].  A
    [MilliSatoshi], [UnitPrec8] and [UnitPrec11] is a [uint64]; a
    [btcutil.Amount], an [omnicore.Amount] and a fee rate is an [int64]. *)

From S2P Require Import Prelude.

(** ** Amounts ([lnwire/msat.go]) *)
Definition mSatScale : Z := 1000.

Definition NewMSatFromSatoshis (sat : Z) : Z := u64 (u64 sat * mSatScale).
Definition ToSatoshis (m : Z) : Z := i64 (m / mSatScale).

Definition UnitPrec8_ToMsat (i : Z) : Z := NewMSatFromSatoshis (i64 i).
Definition UnitPrec8_ToSat (i : Z) : Z := i64 i.
Definition UnitPrec11_ToMsat (i : Z) : Z := u64 i.
Definition UnitPrec11_ToSat (i : Z) : Z := i64 (i / 1000).

Definition OmniGas : Z := 546.
Definition BtcAssetId : Z := 0.
Definition AssetMinHtlc : Z := 10000.

Definition LoadDefaultMinHtlc (assetId minHtlc : Z) : Z :=
  if assetId =? BtcAssetId then minHtlc else AssetMinHtlc.

(** ** Fee rates ([chainfee/rates.go]) *)
Definition FeePerKwFloor : Z := 253.
Definition AbsoluteFeePerKwFloor : Z := 250.
Definition WitnessScaleFactor : Z := 4.

Definition FeeForVSize (s vbytes : Z) : Z := go_div (i64 (s * vbytes)) 1000.
Definition FeePerKWeight (s : Z) : Z := go_div s WitnessScaleFactor.
Definition FeeForWeight (s wu : Z) : Z := go_div (i64 (s * wu)) 1000.
Definition FeePerKVByte (s : Z) : Z := i64 (s * WitnessScaleFactor).

(** ** Channel types ([channeldb/channel.go]) *)
Definition DualFunderBit : Z := 1.
Definition SingleFunderTweaklessBit : Z := 2.
Definition NoFundingTxBit : Z := 4.
Definition AnchorOutputsBit : Z := 8.
Definition FrozenBit : Z := 16.
Definition ZeroHtlcTxFeeBit : Z := 32.
Definition LeaseExpirationBit : Z := 64.

Definition IsSingleFunder (c : Z) : bool := Z.land c DualFunderBit =? 0.
Definition IsDualFunder (c : Z) : bool := Z.land c DualFunderBit =? DualFunderBit.
Definition IsTweakless (c : Z) : bool :=
  Z.land c SingleFunderTweaklessBit =? SingleFunderTweaklessBit.
Definition HasFundingTx (c : Z) : bool := Z.land c NoFundingTxBit =? 0.
Definition HasAnchors (c : Z) : bool := Z.land c AnchorOutputsBit =? AnchorOutputsBit.
Definition ZeroHtlcTxFee (c : Z) : bool := Z.land c ZeroHtlcTxFeeBit =? ZeroHtlcTxFeeBit.
Definition IsFrozen (c : Z) : bool := Z.land c FrozenBit =? FrozenBit.
Definition HasLeaseExpiration (c : Z) : bool :=
  Z.land c LeaseExpirationBit =? LeaseExpirationBit.

(** ** Weights ([input/size.go]) *)
Definition P2WPKHSize : Z := 1 + 1 + 20.
Definition P2WSHSize : Z := 1 + 1 + 32.
Definition MultiSigSize : Z := 1 + 1 + 33 + 1 + 33 + 1 + 1.
Definition MultiSigWitnessSize : Z := 1 + 1 + 1 + 73 + 1 + 73 + 1 + MultiSigSize.
Definition InputSize : Z := 32 + 4 + 1 + 4.
Definition FundingInputSize : Z := InputSize.
Definition CommitmentDelayOutput : Z := 8 + 1 + P2WSHSize.
Definition CommitmentKeyHashOutput : Z := 8 + 1 + P2WPKHSize.
Definition CommitmentAnchorOutput : Z := 8 + 1 + P2WSHSize.
Definition HTLCSize : Z := 8 + 1 + P2WSHSize.
Definition WitnessHeaderSize : Z := 1 + 1.
Definition BaseCommitmentTxSize : Z :=
  4 + 1 + FundingInputSize + 1 + CommitmentDelayOutput + CommitmentKeyHashOutput + 4.
Definition BaseCommitmentTxWeight : Z := WitnessScaleFactor * BaseCommitmentTxSize.
Definition WitnessCommitmentTxWeight : Z := WitnessHeaderSize + MultiSigWitnessSize.
Definition BaseAnchorCommitmentTxSize : Z :=
  4 + 1 + FundingInputSize + 3 + 2 * CommitmentDelayOutput + 2 * CommitmentAnchorOutput + 4.
Definition BaseAnchorCommitmentTxWeight : Z := WitnessScaleFactor * BaseAnchorCommitmentTxSize.
Definition baseCommitWeight : Z := BaseCommitmentTxWeight + WitnessCommitmentTxWeight.
Definition AnchorCommitWeight : Z := BaseAnchorCommitmentTxWeight + WitnessCommitmentTxWeight.
Definition HTLCWeight : Z := WitnessScaleFactor * HTLCSize.
Definition HtlcTimeoutWeight : Z := 663.
Definition HtlcSuccessWeight : Z := 703.
Definition HtlcConfirmedScriptOverhead : Z := 3.
Definition HtlcTimeoutWeightConfirmed : Z := HtlcTimeoutWeight + HtlcConfirmedScriptOverhead.
Definition HtlcSuccessWeightConfirmed : Z := HtlcSuccessWeight + HtlcConfirmedScriptOverhead.
Definition MaxHTLCNumber : Z := 966.

Definition EstimateCommitTxWeight (count : Z) (prediction : bool) : Z :=
  let count := if prediction then i64 (count + 1) else count in
  i64 (i64 (count * HTLCWeight) + BaseCommitmentTxWeight + WitnessCommitmentTxWeight).

(** ** Fees of the commitment and HTLC transactions ([lnwallet/commitment.go]) *)
Definition CommitWeight (chanType : Z) : Z :=
  if HasAnchors chanType then AnchorCommitWeight else baseCommitWeight.

Definition HtlcTimeoutFee (chanType feePerKw : Z) : Z :=
  if ZeroHtlcTxFee chanType then 0
  else if HasAnchors chanType then FeeForWeight feePerKw HtlcTimeoutWeightConfirmed
  else FeeForWeight feePerKw HtlcTimeoutWeight.

Definition HtlcSuccessFee (chanType feePerKw : Z) : Z :=
  if ZeroHtlcTxFee chanType then 0
  else if HasAnchors chanType then FeeForWeight feePerKw HtlcSuccessWeightConfirmed
  else FeeForWeight feePerKw HtlcSuccessWeight.

(** ** Dust ([lnwallet/channel.go]): an asset HTLC counts as three [OmniGas]. *)
Definition HtlcIsDust (chanType : Z) (incoming ourCommit : bool)
    (feePerKw htlcAmt dustLimit assetId : Z) : bool :=
  let htlcAmt := if negb (assetId =? BtcAssetId) then i64 (OmniGas * 3) else htlcAmt in
  let htlcFee :=
    if incoming && ourCommit then HtlcSuccessFee chanType feePerKw
    else if incoming && negb ourCommit then HtlcTimeoutFee chanType feePerKw
    else if negb incoming && ourCommit then HtlcTimeoutFee chanType feePerKw
    else HtlcSuccessFee chanType feePerKw in
  i64 (htlcAmt - htlcFee) <? dustLimit.

(** ** The documented weights *)
Example weights_documented :
  (BaseCommitmentTxWeight, WitnessCommitmentTxWeight, BaseAnchorCommitmentTxWeight,
   baseCommitWeight, AnchorCommitWeight, HTLCWeight) = (500, 224, 900, 724, 1124, 172).
Proof. reflexivity. Qed.

(** ** Amount conversions *)
Lemma NewMSat_small s : 0 <= s < 2 ^ 64 / 1000 -> NewMSatFromSatoshis s = 1000 * s.
Proof.
  intros Hs. change (2 ^ 64 / 1000) with 18446744073709551 in Hs.
  unfold NewMSatFromSatoshis, mSatScale. rewrite (uwrap_id 64 s) by (unfold is_uint; lia).
  rewrite uwrap_id by (unfold is_uint; lia). lia.
Qed.

Lemma ToSatoshis_div m : is_uint 64 m -> ToSatoshis m = m / 1000.
Proof.
  unfold is_uint. intros Hm. unfold ToSatoshis, mSatScale. apply swrap_id; [lia|].
  unfold is_sint. assert (0 <= m / 1000) by (apply Z.div_pos; lia).
  assert (m / 1000 <= m) by (apply Z.div_le_upper_bound; lia).
  assert (m / 1000 < 2 ^ 63) by (apply Z.div_lt_upper_bound; lia). lia.
Qed.

(** Satoshi amounts survive the round trip through milli-satoshis up to the
    largest amount whose milli-satoshi value fits 64 bits, the next one wraps,
    and converting milli-satoshis rounds down by less than one satoshi. *)
Theorem msat_conversions (s m : Z) :
  0 <= s < 2 ^ 64 / 1000 -> is_uint 64 m ->
  ToSatoshis (NewMSatFromSatoshis s) = s /\
  NewMSatFromSatoshis (ToSatoshis m) <= m < NewMSatFromSatoshis (ToSatoshis m) + 1000 /\
  NewMSatFromSatoshis (2 ^ 64 / 1000 + 1) < NewMSatFromSatoshis (2 ^ 64 / 1000).
Proof.
  intros Hs Hm. rewrite (NewMSat_small s Hs).
  change (2 ^ 64 / 1000) with 18446744073709551 in *. unfold is_uint in Hm.
  rewrite !ToSatoshis_div by (unfold is_uint; lia).
  split; [rewrite Z.mul_comm; apply Z.div_mul; lia|]. split; [|reflexivity].
  pose proof (Z.div_mod m 1000). pose proof (Z.mod_pos_bound m 1000).
  destruct (Z.eq_dec (m / 1000) 18446744073709551) as [E|E].
  - rewrite E. change (NewMSatFromSatoshis 18446744073709551) with 18446744073709551000. lia.
  - assert (m / 1000 <= 18446744073709551) by (apply Z.div_le_upper_bound; lia).
    assert (0 <= m / 1000) by (apply Z.div_pos; lia).
    rewrite NewMSat_small; [lia|].
    change (2 ^ 64 / 1000) with 18446744073709551. lia.
Qed.

Lemma msat_conversions_witness :
  ToSatoshis (NewMSatFromSatoshis 546) = 546 /\
  NewMSatFromSatoshis (ToSatoshis 1638999) <= 1638999
    < NewMSatFromSatoshis (ToSatoshis 1638999) + 1000 /\
  NewMSatFromSatoshis (2 ^ 64 / 1000 + 1) < NewMSatFromSatoshis (2 ^ 64 / 1000).
Proof.
  apply (msat_conversions 546 1638999).
  - split; [discriminate|reflexivity].
  - split; [discriminate|reflexivity].
Defined.

(** ** Fees *)
Lemma FeeForWeight_eq s wu : 0 <= s < 2 ^ 43 -> 0 <= wu < 2 ^ 20 ->
  FeeForWeight s wu = s * wu / 1000.
Proof.
  intros Hs Hw. unfold FeeForWeight, go_div.
  assert (0 <= s * wu) by nia.
  assert (s * wu < 2 ^ 63).
  { change (2 ^ 63) with (2 ^ 43 * 2 ^ 20). apply Z.mul_lt_mono_nonneg; lia. }
  rewrite swrap_id by (unfold is_sint; lia). rewrite Z.quot_div_nonneg by lia. done.
Qed.

Lemma FeeForWeight_bounds s wu : 0 <= s < 2 ^ 43 -> 0 <= wu < 2 ^ 20 ->
  0 <= FeeForWeight s wu < 2 ^ 63.
Proof.
  intros Hs Hw. rewrite FeeForWeight_eq by done.
  assert (0 <= s * wu < 2 ^ 63).
  { split; [nia|]. change (2 ^ 63) with (2 ^ 43 * 2 ^ 20). apply Z.mul_lt_mono_nonneg; lia. }
  split; [apply Z.div_pos; lia|]. apply Z.div_lt_upper_bound; lia.
Qed.

(** The second-level fee of an HTLC on one of the two commitments: a success
    transaction for the HTLC's receiver, a timeout transaction for its sender. *)
Definition second_level_fee (chanType : Z) (incoming ourCommit : bool) (feePerKw : Z) : Z :=
  if Bool.eqb incoming ourCommit then HtlcSuccessFee chanType feePerKw
  else HtlcTimeoutFee chanType feePerKw.

Lemma second_level_fee_bounds chanType incoming ourCommit feePerKw :
  0 <= feePerKw < 2 ^ 43 ->
  0 <= second_level_fee chanType incoming ourCommit feePerKw < 2 ^ 54.
Proof.
  intros Hf. unfold second_level_fee, HtlcSuccessFee, HtlcTimeoutFee,
    HtlcTimeoutWeightConfirmed, HtlcSuccessWeightConfirmed, HtlcTimeoutWeight,
    HtlcSuccessWeight, HtlcConfirmedScriptOverhead.
  destruct (Bool.eqb incoming ourCommit), (ZeroHtlcTxFee chanType), (HasAnchors chanType); try lia;
    (rewrite FeeForWeight_eq by lia; split;
     [apply Z.div_pos; lia|apply Z.div_lt_upper_bound; lia]).
Qed.

Lemma HtlcIsDust_eq chanType incoming ourCommit feePerKw htlcAmt dustLimit assetId :
  HtlcIsDust chanType incoming ourCommit feePerKw htlcAmt dustLimit assetId =
  (i64 ((if assetId =? BtcAssetId then htlcAmt else 3 * OmniGas) -
    second_level_fee chanType incoming ourCommit feePerKw) <? dustLimit).
Proof.
  unfold HtlcIsDust, second_level_fee.
  by destruct incoming, ourCommit, (assetId =? BtcAssetId).
Qed.

(** Both peers agree which HTLCs of a commitment are dust: what one peer
    computes for an incoming HTLC on its own commitment is what the other
    computes for that outgoing HTLC on the remote commitment.  A bitcoin HTLC is
    dust exactly when it is worth less than the dust limit plus the fee of the
    second-level transaction; for an asset HTLC the amount plays no role. *)
Theorem dust_agreement (chanType : Z) (incoming ourCommit : bool)
    (feePerKw htlcAmt dustLimit assetId : Z) :
  0 <= feePerKw < 2 ^ 43 -> 0 <= htlcAmt < 2 ^ 62 ->
  HtlcIsDust chanType incoming ourCommit feePerKw htlcAmt dustLimit assetId =
    HtlcIsDust chanType (negb incoming) (negb ourCommit) feePerKw htlcAmt dustLimit assetId /\
  HtlcIsDust chanType incoming ourCommit feePerKw htlcAmt dustLimit assetId =
    ((if assetId =? BtcAssetId then htlcAmt else 1638) <?
       dustLimit + second_level_fee chanType incoming ourCommit feePerKw).
Proof.
  intros Hf Ha. rewrite !HtlcIsDust_eq. split.
  - unfold second_level_fee. by destruct incoming, ourCommit.
  - pose proof (second_level_fee_bounds chanType incoming ourCommit feePerKw Hf).
    set (a := if assetId =? BtcAssetId then htlcAmt else 3 * OmniGas).
    assert (Ha' : 0 <= a < 2 ^ 62) by (unfold a, OmniGas; destruct (assetId =? BtcAssetId); lia).
    rewrite swrap_id by (unfold is_sint; lia).
    replace (if assetId =? BtcAssetId then htlcAmt else 1638) with a
      by (unfold a, OmniGas; by destruct (assetId =? BtcAssetId)).
    destruct (Z.ltb_spec (a - second_level_fee chanType incoming ourCommit feePerKw) dustLimit);
    destruct (Z.ltb_spec a (dustLimit + second_level_fee chanType incoming ourCommit feePerKw));
      lia || done.
Qed.

(** At 2000 sat/kw an asset HTLC is below a dust limit of 354, whatever it carries. *)
Lemma dust_agreement_witness :
  HtlcIsDust 0 true true 2000 5 354 31 = HtlcIsDust 0 false false 2000 5 354 31 /\
  HtlcIsDust 0 true true 2000 5 354 31 = true.
Proof.
  destruct (dust_agreement 0 true true 2000 5 354 31) as [H1 H2];
    [split; [discriminate|reflexivity]..|].
  split; [exact H1|]. rewrite H2. vm_compute. reflexivity.
Defined.
