(* ===== verification/Tx.v ===== *)
(** * Transactions

    The fields of btcd's [wire.MsgTx], [wire.TxIn] and [wire.TxOut] the source
    reads and writes, [FindScriptOutputIndex] of [input/script_utils.go] and the
    commitment sort of [lnwallet/commit_sort.go] with what it guarantees: a
    permutation, sorted, and the same for both parties whatever the order they
    built the outputs in. *)

From S2P Require Import Prelude Wire.

(** ** Data: [Value] is an [int64], the other numbers are unsigned. *)
Record TxOut := mkTxOut { Value : Z; PkScript : bytes }.

Record TxIn := mkTxIn {
  PreviousOutPoint : OutPoint;
  SignatureScript : bytes;
  Witness : list bytes;
  Sequence : Z
}.

Record MsgTx := mkMsgTx {
  Version : Z;
  TxIns : list TxIn;
  TxOuts : list TxOut;
  LockTime : Z
}.

#[export] Instance OutPoint_eq_dec : EqDecision OutPoint.
Proof. solve_decision. Defined.
#[export] Instance TxOut_eq_dec : EqDecision TxOut.
Proof. solve_decision. Defined.
#[export] Instance TxIn_eq_dec : EqDecision TxIn.
Proof. solve_decision. Defined.
#[export] Instance MsgTx_eq_dec : EqDecision MsgTx.
Proof. solve_decision. Defined.

Definition set_TxOuts (tx : MsgTx) (outs : list TxOut) : MsgTx :=
  mkMsgTx (Version tx) (TxIns tx) outs (LockTime tx).

(** ** [FindScriptOutputIndex]: the first output with the script *)
Fixpoint find_script (outs : list TxOut) (script : bytes) (i : Z) : option Z :=
  match outs with
  | [] => None
  | o :: rest => if bool_decide (PkScript o = script) then Some i
                 else find_script rest script (i + 1)
  end.

Definition FindScriptOutputIndex (tx : MsgTx) (script : bytes) : bool * Z :=
  match find_script (TxOuts tx) script 0 with
  | Some i => (true, u32 i)
  | None => (false, 0)
  end.

(** [o] is the first output with its script. *)
Definition first_output (outs : list TxOut) (script : bytes) (k : nat) : Prop :=
  (exists o, outs !! k = Some o /\ PkScript o = script) /\
  forall j o, (j < k)%nat -> outs !! j = Some o -> PkScript o <> script.

Lemma find_script_spec outs script i0 :
  match find_script outs script i0 with
  | Some i => exists k, i = i0 + Z.of_nat k /\ first_output outs script k
  | None => script ∉ PkScript <$> outs
  end.
Proof.
  revert i0. induction outs as [|o outs IH]; intros i0; simpl; [apply not_elem_of_nil|].
  case_bool_decide as H.
  - exists 0%nat. split; [lia|]. split; [by exists o|]. intros; lia.
  - specialize (IH (i0 + 1)). destruct (find_script outs script (i0 + 1)) as [i|].
    + destruct IH as (k & -> & (o' & Hk & Ho') & Hlt). exists (S k). split; [lia|].
      split; [by exists o'|]. intros [|j] x Hj Hx; [by injection Hx as <-|].
      apply (Hlt j); [lia|done].
    + apply not_elem_of_cons. done.
Qed.

Lemma first_output_unique outs script k k' :
  first_output outs script k -> first_output outs script k' -> k = k'.
Proof.
  intros [(o & Hk & Ho) H] [(o' & Hk' & Ho') H'].
  destruct (lt_eq_lt_dec k k') as [[?|?]|?]; [|done|].
  - by destruct (H' k o).
  - by destruct (H k' o').
Qed.

Lemma first_output_NoDup outs k o : NoDup (PkScript <$> outs) ->
  outs !! k = Some o -> first_output outs (PkScript o) k.
Proof.
  intros Hnd Hk. split; [by exists o|]. intros j x Hj Hx He.
  assert (j = k); [|lia]. apply (NoDup_lookup _ j k (PkScript o) Hnd).
  - by rewrite list_lookup_fmap, Hx, <- He.
  - by rewrite list_lookup_fmap, Hk.
Qed.

(** ** The commitment sort ([commit_sort.go]) *)
Definition input_Less (a b : TxIn) : bool :=
  let ia := PreviousOutPoint a in let ib := PreviousOutPoint b in
  if bool_decide (Hash ia = Hash ib) then Index ia <? Index ib
  else bytes_lt (rev (Hash ia)) (rev (Hash ib)).

Definition output_Less (a b : TxOut * Z) : bool :=
  let '(oi, ci) := a in let '(oj, cj) := b in
  if bool_decide (Value oi <> Value oj) then Value oi <? Value oj
  else if bool_decide (PkScript oi <> PkScript oj) then bytes_lt (PkScript oi) (PkScript oj)
  else ci <? cj.

(** Both slices are permuted together; a length mismatch panics. *)
Definition InPlaceCommitSort (tx : MsgTx) (cltvs : list Z) : res unit (MsgTx * list Z) :=
  if decide (length (TxOuts tx) <> length cltvs) then Panic
  else
    let outs := go_sort output_Less (zip (TxOuts tx) cltvs) in
    Ok (mkMsgTx (Version tx) (go_sort input_Less (TxIns tx)) outs.*1 (LockTime tx), outs.*2).

Lemma output_Less_false va pa ca vb pb cb :
  output_Less (mkTxOut va pa, ca) (mkTxOut vb pb, cb) = false <->
  vb < va \/ va = vb /\ (pa <> pb /\ bytes_lt pa pb = false \/ pa = pb /\ cb <= ca).
Proof.
  cbn. destruct (bool_decide_reflect (va <> vb)) as [?|E1].
  - rewrite Z.ltb_ge. split; [lia|]. intros [?|[? _]]; [lia|done].
  - apply dec_stable in E1. destruct (bool_decide_reflect (pa <> pb)) as [?|E2].
    + split; [by auto|]. intros [?|[_ [[_ ?]|[? _]]]]; [lia|done|done].
    + apply dec_stable in E2. rewrite Z.ltb_ge. split; [by auto|].
      intros [?|[_ [[? _]|[_ ?]]]]; [lia|done|done].
Qed.

Lemma output_Less_asym a b : output_Less a b = true -> output_Less b a = false.
Proof.
  destruct a as [[va pa] ca], b as [[vb pb] cb]. rewrite output_Less_false. cbn.
  destruct (bool_decide_reflect (va <> vb)) as [?|E1%dec_stable]; [rewrite Z.ltb_lt; by left|].
  destruct (bool_decide_reflect (pa <> pb)) as [?|E2%dec_stable].
  - intros H%bytes_lt_asym. right. split; [done|]. left. split; [congruence|done].
  - rewrite Z.ltb_lt. intros. right. split; [done|]. right. split; [done|lia].
Qed.

Lemma output_Less_trans a b c :
  output_Less a b = false -> output_Less b c = false -> output_Less a c = false.
Proof.
  destruct a as [[va pa] ca], b as [[vb pb] cb], c as [[vc pc] cc].
  rewrite !output_Less_false.
  intros [?|[-> [[Hn H]|[-> ?]]]] [?|[-> [[Hn' H']|[-> ?]]]]; try (left; lia);
    right; (split; [done|]); try (by left); try (right; split; [done|lia]).
  left. split; [|by eapply bytes_lt_trans]. intros ->. apply Hn.
  by apply bytes_lt_total.
Qed.

Lemma output_Less_total a b : output_Less a b = false -> output_Less b a = false -> a = b.
Proof.
  destruct a as [[va pa] ca], b as [[vb pb] cb]. rewrite !output_Less_false.
  intros [?|[-> [[Hn H]|[-> ?]]]] [?|[? [[Hn' H']|[? ?]]]]; try lia; try congruence.
  - destruct Hn. by apply bytes_lt_total.
  - repeat f_equal. lia.
Qed.

(** A list sorted for a total order is determined by its elements. *)
Lemma sorted_perm_unique {A} (R : A -> A -> Prop) l l' :
  (forall x y, R x y -> R y x -> x = y) ->
  StronglySorted R l -> StronglySorted R l' -> l ≡ₚ l' -> l = l'.
Proof.
  intros Hanti Hl. revert l'. induction Hl as [|x l Hl IH Hx]; intros l' Hl' Hp.
  - by apply Permutation_nil_l in Hp as ->.
  - destruct Hl' as [|y l' Hl' Hy]; [by apply Permutation_nil_r in Hp|].
    assert (x = y) as <-.
    { destruct (Permutation_in y (Permutation_sym Hp) (or_introl eq_refl)) as [?|Hin]; [done|].
      destruct (Permutation_in x Hp (or_introl eq_refl)) as [?|Hin']; [done|].
      apply Hanti; [by eapply List.Forall_forall in Hx|by eapply List.Forall_forall in Hy]. }
    f_equal. apply IH; [done|]. by eapply Permutation_cons_inv.
Qed.

Lemma zip_perm_sorted l l' : l ≡ₚ l' -> go_sort output_Less l = go_sort output_Less l'.
Proof.
  intros Hp. apply (sorted_perm_unique (not_after output_Less)).
  - unfold not_after. intros x y H1 H2. by apply output_Less_total.
  - apply go_sort_sorted; [apply output_Less_asym|apply output_Less_trans].
  - apply go_sort_sorted; [apply output_Less_asym|apply output_Less_trans].
  - by rewrite !go_sort_perm.
Qed.

(** Both parties agree on the commitment transaction: whatever the order in
    which they appended the outputs, with one expiry per output, sorting gives
    the same list of outputs with the same expiries; it is a permutation of what
    was built, so no output or expiry is lost or moved to another output. *)
Theorem commit_sort_canonical (tx tx' : MsgTx) (cltvs cltvs' : list Z) :
  length (TxOuts tx) = length cltvs -> length (TxOuts tx') = length cltvs' ->
  TxIns tx = TxIns tx' -> Version tx = Version tx' -> LockTime tx = LockTime tx' ->
  zip (TxOuts tx) cltvs ≡ₚ zip (TxOuts tx') cltvs' ->
  exists stx scltvs, InPlaceCommitSort tx cltvs = Ok (stx, scltvs) /\
    InPlaceCommitSort tx' cltvs' = Ok (stx, scltvs) /\
    zip (TxOuts stx) scltvs ≡ₚ zip (TxOuts tx) cltvs /\
    StronglySorted (not_after output_Less) (zip (TxOuts stx) scltvs).
Proof.
  intros Hl Hl' Hi Hv Ht Hp. unfold InPlaceCommitSort.
  rewrite !decide_False by (intros E; by apply E).
  rewrite (zip_perm_sorted _ _ Hp), Hi, Hv, Ht.
  eexists _, _. split; [reflexivity|split; [reflexivity|]]. cbn [TxOuts].
  rewrite zip_fst_snd. rewrite Hp. split; [apply go_sort_perm|].
  apply go_sort_sorted; [apply output_Less_asym|apply output_Less_trans].
Qed.

Lemma commit_sort_canonical_witness :
  let o v := mkTxOut v [Byte.x00; Byte.x14] in
  let tx := mkMsgTx 2 [] [o 5; o 3; o 3] 0 in
  let tx' := mkMsgTx 2 [] [o 3; o 5; o 3] 0 in
  exists stx scltvs, InPlaceCommitSort tx [0; 9; 4] = Ok (stx, scltvs) /\
    InPlaceCommitSort tx' [4; 0; 9] = Ok (stx, scltvs) /\
    zip (TxOuts stx) scltvs ≡ₚ zip (TxOuts tx) [0; 9; 4] /\
    StronglySorted (not_after output_Less) (zip (TxOuts stx) scltvs).
Proof.
  intros o tx tx'. apply (commit_sort_canonical tx tx'); [reflexivity..|]. cbn.
  transitivity [(o 5, 0); (o 3, 4); (o 3, 9)]; [by constructor; apply Permutation_swap|].
  apply Permutation_swap.
Defined.
