(* ===== verification/OmniOp.v ===== *)
(** * Omni payloads ([lnwallet/omnicore/op])

    [opreturn.go]: the send-to-many payload ([Opreturn]), the simple send
    payload ([OpreturnSimple]), their [OP_RETURN] scripts, the collection of
    (script, amount) pairs of a transaction ([PksAmounts]) and
    [AddOpReturnToTx], which maps each pair to the output that carries it and
    prepends the [OP_RETURN] output.  The specification side reads a script
    back ([parse_script]) and says how many tokens each output is credited. *)

From stdpp Require Import sorting.
From S2P Require Import Prelude Wire Units Tx.

(** ** Data *)
Inductive operr : Type :=
| ErrMissAssetId
| ErrTooManyReceivers
| ErrPayloadTooLong
| ErrScriptNotFound (pks : bytes) (amount : Z)
| ErrWire (e : werr).

Definition max_receivers : Z := 7.
Definition OP_RETURN : byte := Byte.x6a.
Definition OP_PUSHDATA1 : Z := 0x4c.
Definition omni_prefix : bytes := [Byte.x6f; Byte.x6d; Byte.x6e; Byte.x69].

Record Output := mkOutput { out_Index : Z; out_Amount : Z }.

Record Opreturn := mkOpreturn {
  Ver : Z; TranType : Z; Outputs : list Output; PropertyId : Z
}.

Record OpreturnSimple := mkOpreturnSimple {
  sVer : Z; sTranType : Z; sPropertyId : Z; sAmount : Z
}.

(** ** Send-to-many payload *)
Fixpoint Encode_outputs (outs : list Output) : Writer :=
  match outs with
  | [] => mret tt
  | o :: rest =>
      _ ← WriteUint8 (out_Index o);
      _ ← WriteUint64 (out_Amount o);
      Encode_outputs rest
  end.

Definition Opreturn_Encode (p : Opreturn) : M bytes operr unit :=
  _ ← check (PropertyId p =? 0) ErrMissAssetId;
  _ ← check (max_receivers <? Z.of_nat (length (Outputs p))) ErrTooManyReceivers;
  map_err ErrWire (
    _ ← WriteUint16 0;
    _ ← WriteUint16 7;
    _ ← WriteUint32 (PropertyId p);
    _ ← WriteUint8 (u8 (Z.of_nat (length (Outputs p))));
    Encode_outputs (Outputs p)).

Fixpoint Decode_outputs (n : nat) (acc : list Output) : Reader (list Output) :=
  match n with
  | O => mret acc
  | S n =>
      i ← ReadUint8;
      a ← ReadUint64;
      Decode_outputs n (acc ++ [mkOutput i a])
  end.

(** [Decode] appends to the outputs the receiver [o] already has. *)
Definition Opreturn_Decode (o : Opreturn) : Reader Opreturn :=
  ver ← ReadUint16;
  ty ← ReadUint16;
  id ← ReadUint32;
  outputs_count ← ReadUint8;
  outs ← Decode_outputs (Z.to_nat outputs_count) (Outputs o);
  mret (mkOpreturn ver ty outs id).

(** ** Scripts *)
Definition addOpCodeData (data : bytes) : bytes :=
  let len := Z.of_nat (length data) in
  if len <? OP_PUSHDATA1 then byte.of_Z (u8 len) :: data
  else if len <=? 0xff then byte.of_Z OP_PUSHDATA1 :: byte.of_Z (u8 len) :: data
  else [].

Definition getOpPKs (data : bytes) : res operr bytes :=
  let payload := omni_prefix ++ data in
  if 83 <? Z.of_nat (length payload) then Err ErrPayloadTooLong
  else Ok (OP_RETURN :: addOpCodeData payload).

Definition GetOpReturnOut (assetID : Z) (outs : list Output) : res operr TxOut :=
  let op := mkOpreturn 0 0 outs assetID in
  let '(r, w) := Opreturn_Encode op [] in
  _ ← r;
  opPks ← getOpPKs w;
  mret (mkTxOut 0 opPks).

(** ** Simple send *)
Definition OpreturnSimple_Encode (p : OpreturnSimple) : res operr bytes :=
  _ ← guard_err (sPropertyId p =? 0) ErrMissAssetId;
  let '(r, w) := map_err ErrWire (
    _ ← WriteUint16 0;
    _ ← WriteUint16 0;
    _ ← WriteUint32 (sPropertyId p);
    WriteUint64 (sAmount p)) [] in
  _ ← r;
  getOpPKs w.

Definition OpreturnSimple_AddOpReturnToTx (op : OpreturnSimple) (tx : MsgTx) : res operr MsgTx :=
  bs ← OpreturnSimple_Encode op;
  mret (set_TxOuts tx (mkTxOut 0 bs :: TxOuts tx)).

(** [pkScirpt[6:]] panics on a shorter script. *)
Definition OpreturnSimple_Decode (pkScirpt : bytes) : res operr OpreturnSimple :=
  if decide (length pkScirpt < 6)%nat then Panic
  else
    let reader :=
      ver ← ReadUint16;
      ty ← ReadUint16;
      id ← ReadUint32;
      amt ← ReadUint64;
      mret (mkOpreturnSimple ver ty id amt) in
    fst (map_err ErrWire reader (drop 6 pkScirpt)).

(** ** Collecting script amounts *)
Record PksAmounts := mkPksAmounts { AssetID : Z; pksAmounts : list (bytes * Z) }.

Definition NewPksAmounts (assetId : Z) : PksAmounts := mkPksAmounts assetId [].

Definition PksAmounts_Add (p : PksAmounts) (pks : bytes) (amount : Z) : PksAmounts :=
  if (AssetID p =? 0) || (AssetID p =? BtcAssetId) then p
  else if amount =? 0 then p
  else mkPksAmounts (AssetID p) (pksAmounts p ++ [(pks, amount)]).

Definition Output_Less (a b : Output) : bool := out_Index a <? out_Index b.

(** The loop that looks the output of each pair up. *)
Fixpoint locate_outputs (tx : MsgTx) (pas : list (bytes * Z)) : res operr (list Output) :=
  match pas with
  | [] => Ok []
  | (pks, amount) :: rest =>
      let '(found, assetOutIndex) := FindScriptOutputIndex tx pks in
      if found then
        outs ← locate_outputs tx rest;
        mret (mkOutput (u8 (u8 assetOutIndex + 1)) (u64 amount) :: outs)
      else Err (ErrScriptNotFound pks amount)
  end.

Definition AddOpReturnToTx (tx : MsgTx) (p : PksAmounts) : res operr MsgTx :=
  if (AssetID p =? 0) || (AssetID p =? BtcAssetId) then Ok tx
  else if decide (pksAmounts p = []) then Ok tx
  else
    opOutPuts ← locate_outputs tx (pksAmounts p);
    txOut ← GetOpReturnOut (AssetID p) (go_sort Output_Less opOutPuts);
    mret (set_TxOuts tx (txOut :: TxOuts tx)).

(** ** Specification *)

(** A script that pushes one piece of data after [OP_RETURN]. *)
Definition parse_push (bs : bytes) : option bytes :=
  match bs with
  | [] => None
  | n :: rest =>
      let n := byte.unsigned n in
      if n <? OP_PUSHDATA1 then
        if n =? Z.of_nat (length rest) then Some rest else None
      else if n =? OP_PUSHDATA1 then
        match rest with
        | [] => None
        | m :: rest => if byte.unsigned m =? Z.of_nat (length rest) then Some rest else None
        end
      else None
  end.

(** The Omni payload an [OP_RETURN] script carries. *)
Definition parse_script (script : bytes) : option bytes :=
  match script with
  | op :: rest =>
      if bool_decide (op = OP_RETURN) then
        data ← parse_push rest;
        if bool_decide (take 4 data = omni_prefix) then Some (drop 4 data) else None
      else None
  | [] => None
  end.

Definition empty_opreturn : Opreturn := mkOpreturn 0 0 [] 0.

(** What a reader of the chain sees: the send-to-many an output carries. *)
Definition read_opreturn (o : TxOut) : option Opreturn :=
  payload ← parse_script (PkScript o);
  match Opreturn_Decode empty_opreturn payload with
  | (Ok op, []) => Some op
  | _ => None
  end.

Definition output_ok (o : Output) : Prop := is_uint 8 (out_Index o) /\ is_uint 64 (out_Amount o).

(** Tokens the payload credits to output [i], and those collected for a script. *)
Definition credited (outs : list Output) (i : Z) : Z :=
  sum (fun o => if bool_decide (out_Index o = i) then out_Amount o else 0) outs.

Definition collected (pas : list (bytes * Z)) (script : bytes) : Z :=
  sum (fun pa => if bool_decide (pa.1 = script) then pa.2 else 0) pas.

(** ** The payload *)
Definition output_bytes (o : Output) : bytes := be_put 1 (out_Index o) ++ be_put 8 (out_Amount o).

Definition payload_bytes (id : Z) (outs : list Output) : bytes :=
  be_put 2 0 ++ be_put 2 7 ++ be_put 4 id ++ be_put 1 (u8 (Z.of_nat (length outs))) ++
  concat (output_bytes <$> outs).

Lemma length_payload id outs :
  Z.of_nat (length (payload_bytes id outs)) = 9 + 9 * Z.of_nat (length outs).
Proof.
  unfold payload_bytes. rewrite !length_app, !length_be_put.
  assert (length (concat (output_bytes <$> outs)) = 9 * length outs)%nat as ->; [|lia].
  induction outs as [|o outs IH]; [done|]. rewrite fmap_cons. cbn [concat].
  unfold output_bytes at 1. rewrite !length_app, !length_be_put, IH. cbn [length]. lia.
Qed.

Lemma writes_outputs outs : writes (Encode_outputs outs) (concat (output_bytes <$> outs)).
Proof.
  induction outs as [|o outs IH]; [apply writes_ret|]. rewrite fmap_cons.
  cbn [concat Encode_outputs]. unfold output_bytes at 1. rewrite <- app_assoc.
  repeat (apply writes_bind || apply writes_bytes). exact IH.
Qed.

Lemma reads_outputs outs acc : Forall output_ok outs ->
  reads (Decode_outputs (length outs) acc) (concat (output_bytes <$> outs)) (acc ++ outs).
Proof.
  intros H. revert acc. induction H as [|o outs [Hi Ha] _ IH]; intros acc.
  - rewrite app_nil_r. apply reads_ret.
  - rewrite fmap_cons. cbn [concat length Decode_outputs]. unfold output_bytes at 1.
    rewrite <- app_assoc.
    eapply reads_bind; [by apply reads_uint8|].
    eapply reads_bind; [by apply reads_uint64|].
    destruct o as [i a]. cbn [out_Index out_Amount].
    replace (acc ++ mkOutput i a :: outs) with ((acc ++ [mkOutput i a]) ++ outs)
      by (by rewrite <- app_assoc). apply IH.
Qed.

Lemma map_err_writes {E} (f : werr -> E) w bs buf :
  writes w bs -> map_err f w buf = (Ok tt, buf ++ bs).
Proof. intros H. unfold map_err. by rewrite H. Qed.

Lemma Opreturn_Encode_eq p buf :
  Opreturn_Encode p buf =
    if PropertyId p =? 0 then (Err ErrMissAssetId, buf)
    else if max_receivers <? Z.of_nat (length (Outputs p)) then (Err ErrTooManyReceivers, buf)
    else (Ok tt, buf ++ payload_bytes (PropertyId p) (Outputs p)).
Proof.
  unfold Opreturn_Encode, check, mbind, M_bind.
  destruct (PropertyId p =? 0); [done|].
  destruct (max_receivers <? _); [done|].
  apply map_err_writes. unfold payload_bytes.
  repeat (apply writes_bind; [apply writes_bytes|]). apply writes_outputs.
Qed.

Lemma Opreturn_Decode_reads id outs o :
  is_uint 32 id -> is_uint 8 (Z.of_nat (length outs)) -> Forall output_ok outs ->
  reads (Opreturn_Decode o) (payload_bytes id outs) (mkOpreturn 0 7 (Outputs o ++ outs) id).
Proof.
  intros Hid Hl Ho. unfold Opreturn_Decode, payload_bytes.
  eapply reads_bind; [apply reads_uint16; done|].
  eapply reads_bind; [apply reads_uint16; done|].
  eapply reads_bind; [by apply reads_uint32|].
  rewrite uwrap_id by done.
  eapply reads_bind; [by apply reads_uint8|]. rewrite Nat2Z.id.
  eapply reads_bind_nil; [by apply reads_outputs|apply reads_ret].
Qed.

(** ** The script *)
Lemma byte_unsigned_u8 z : is_uint 8 z -> byte.unsigned (byte.of_Z (u8 z)) = z.
Proof.
  intros H. rewrite uwrap_id by done. rewrite byte.unsigned_of_Z. by apply Z.mod_small.
Qed.

Lemma parse_push_add data :
  Z.of_nat (length data) <= 255 -> parse_push (addOpCodeData data) = Some data.
Proof.
  intros Hl. unfold addOpCodeData. set (n := Z.of_nat (length data)) in *.
  assert (0 <= n) by lia. destruct (Z.ltb_spec n OP_PUSHDATA1) as [Hlt|Hge].
  - unfold parse_push. rewrite byte_unsigned_u8 by (unfold is_uint; lia).
    rewrite (proj2 (Z.ltb_lt _ _) Hlt). unfold n. by rewrite Z.eqb_refl.
  - rewrite (proj2 (Z.leb_le n 0xff)) by lia. unfold parse_push.
    change (byte.unsigned (byte.of_Z OP_PUSHDATA1)) with OP_PUSHDATA1.
    rewrite Z.ltb_irrefl, Z.eqb_refl, byte_unsigned_u8 by (unfold is_uint; lia).
    unfold n. by rewrite Z.eqb_refl.
Qed.

Lemma getOpPKs_parse data : Z.of_nat (length data) <= 79 ->
  exists script, getOpPKs data = Ok script /\ parse_script script = Some data /\
    (length script <= length data + 7)%nat.
Proof.
  intros Hl. unfold getOpPKs.
  assert (Hp : Z.of_nat (length (omni_prefix ++ data)) = 4 + Z.of_nat (length data))
    by (rewrite length_app; cbn; lia).
  destruct (Z.ltb_spec 83 (Z.of_nat (length (omni_prefix ++ data)))) as [?|_]; [lia|].
  eexists. split; [reflexivity|]. split.
  - unfold parse_script. rewrite bool_decide_eq_true_2 by done.
    rewrite parse_push_add by lia. done.
  - unfold addOpCodeData. destruct (_ <? _); [|destruct (_ <=? _)]; cbn [length];
      rewrite ?length_app; cbn; lia.
Qed.

Lemma GetOpReturnOut_ok assetID outs :
  is_uint 32 assetID -> assetID <> 0 -> (length outs <= 7)%nat -> Forall output_ok outs ->
  exists o, GetOpReturnOut assetID outs = Ok o /\
    read_opreturn o = Some (mkOpreturn 0 7 outs assetID) /\
    Value o = 0 /\ (length (PkScript o) <= 83)%nat.
Proof.
  intros Hid H0 Hl Ho. unfold GetOpReturnOut. rewrite Opreturn_Encode_eq.
  cbn [PropertyId Outputs]. rewrite (proj2 (Z.eqb_neq _ _) H0). unfold max_receivers.
  rewrite (proj2 (Z.ltb_ge 7 _)) by lia. rewrite app_nil_l.
  pose proof (length_payload assetID outs) as Hlen.
  destruct (getOpPKs_parse (payload_bytes assetID outs)) as (script & Hs & Hp & Hsl); [lia|].
  rewrite res_bind_Ok_l, Hs, res_bind_Ok_l. eexists. split; [reflexivity|].
  cbn [Value PkScript]. split; [|split; [done|lia]].
  unfold read_opreturn. cbn [PkScript]. rewrite Hp. cbn.
  rewrite <- (app_nil_r (payload_bytes _ _)).
  rewrite (Opreturn_Decode_reads assetID outs empty_opreturn) by (done || unfold is_uint; lia).
  done.
Qed.

Lemma GetOpReturnOut_too_many assetID outs : assetID <> 0 -> (7 < length outs)%nat ->
  GetOpReturnOut assetID outs = Err ErrTooManyReceivers.
Proof.
  intros H0 Hl. unfold GetOpReturnOut. rewrite Opreturn_Encode_eq. cbn [PropertyId Outputs].
  rewrite (proj2 (Z.eqb_neq _ _) H0). unfold max_receivers.
  by rewrite (proj2 (Z.ltb_lt 7 _)) by lia.
Qed.

(** The send-to-many [OP_RETURN] output: it is built exactly when the asset
    is not bitcoin and there are at most seven receivers, fits the 83-byte
    standardness limit, carries no coins, and reads back to the very receivers
    and amounts; every other input is the stated error. *)
Theorem opreturn_out_roundtrip (assetID : Z) (outs : list Output) :
  is_uint 32 assetID -> Forall output_ok outs ->
  if bool_decide (assetID = BtcAssetId) then GetOpReturnOut assetID outs = Err ErrMissAssetId
  else if bool_decide (length outs <= 7)%nat then
    exists o, GetOpReturnOut assetID outs = Ok o /\
      read_opreturn o = Some (mkOpreturn 0 7 outs assetID) /\
      Value o = 0 /\ (length (PkScript o) <= 83)%nat
  else GetOpReturnOut assetID outs = Err ErrTooManyReceivers.
Proof.
  intros Hid Ho. unfold BtcAssetId. case_bool_decide as H0.
  - subst. unfold GetOpReturnOut. by rewrite Opreturn_Encode_eq.
  - case_bool_decide; [by apply GetOpReturnOut_ok|apply GetOpReturnOut_too_many; [done|lia]].
Qed.

Lemma opreturn_out_roundtrip_witness :
  exists o, GetOpReturnOut 31 [mkOutput 2 1050000000; mkOutput 3 50000000] = Ok o /\
      read_opreturn o = Some (mkOpreturn 0 7 [mkOutput 2 1050000000; mkOutput 3 50000000] 31) /\
      Value o = 0 /\ (length (PkScript o) <= 83)%nat.
Proof.
  apply (opreturn_out_roundtrip 31 [mkOutput 2 1050000000; mkOutput 3 50000000]).
  - split; [discriminate|reflexivity].
  - repeat constructor; discriminate.
Defined.

(** The payload of the test in [omni_test.go]. *)
Example opreturn_test_vector :
  Opreturn_Encode (mkOpreturn 0 0 [mkOutput 2 1050000000; mkOutput 3 50000000; mkOutput 5 1500000000] 31) [] =
  (Ok tt, byte.of_Z <$> [0;0;0;7;0;0;0;0x1f;3;2;0;0;0;0;0x3e;0x95;0xba;0x80;3;0;0;0;0;2;0xfa;0xf0;0x80;
    5;0;0;0;0;0x59;0x68;0x2f;0]).
Proof. reflexivity. Qed.

(** The simple send: encoding fails only for asset 0, and decoding the
    script gives back the asset and the amount, as version 0 and type 0. *)
Theorem simple_send_roundtrip (p : OpreturnSimple) :
  is_uint 32 (sPropertyId p) -> is_uint 64 (sAmount p) ->
  if bool_decide (sPropertyId p = 0) then OpreturnSimple_Encode p = Err ErrMissAssetId
  else exists script, OpreturnSimple_Encode p = Ok script /\ length script = 22%nat /\
    OpreturnSimple_Decode script = Ok (mkOpreturnSimple 0 0 (sPropertyId p) (sAmount p)).
Proof.
  intros Hid Ha. unfold OpreturnSimple_Encode. case_bool_decide as H0; [by rewrite H0|].
  rewrite (proj2 (Z.eqb_neq _ _) H0). cbn [guard_err]. rewrite res_bind_Ok_l.
  set (payload := be_put 2 0 ++ be_put 2 0 ++ be_put 4 (sPropertyId p) ++ be_put 8 (sAmount p)).
  rewrite (map_err_writes ErrWire _ payload [])
    by (repeat (apply writes_bind; [apply writes_bytes|]); apply writes_bytes).
  rewrite res_bind_Ok_l, app_nil_l.
  assert (Hl : length payload = 16%nat)
    by (unfold payload; rewrite !length_app, !length_be_put; done).
  exists (OP_RETURN :: Byte.x14 :: omni_prefix ++ payload). split; [|split].
  - unfold getOpPKs, addOpCodeData. by rewrite length_app, Hl.
  - cbn [length]. by rewrite length_app, Hl.
  - unfold OpreturnSimple_Decode. rewrite decide_False by (cbn [length]; rewrite length_app, Hl; cbn; lia).
    change (drop 6 _) with payload. rewrite <- (app_nil_r payload). unfold map_err.
    match goal with |- fst (match ?r _ with _ => _ end) = _ =>
      assert (Hr : reads r payload (mkOpreturnSimple 0 0 (sPropertyId p) (sAmount p))) end.
    { eapply reads_bind; [by apply reads_uint16|].
      eapply reads_bind; [by apply reads_uint16|].
      eapply reads_bind; [by apply reads_uint32|].
      eapply reads_bind_nil; [by apply reads_uint64|apply reads_ret]. }
    by rewrite Hr.
Qed.

Lemma simple_send_roundtrip_witness :
  exists script, OpreturnSimple_Encode (mkOpreturnSimple 0 0 2 10000000) = Ok script /\
    length script = 22%nat /\
    OpreturnSimple_Decode script = Ok (mkOpreturnSimple 0 0 2 10000000).
Proof.
  apply (simple_send_roundtrip (mkOpreturnSimple 0 0 2 10000000)); split;
    (discriminate || reflexivity).
Defined.

(** ** Crediting the outputs of a transaction *)

Definition pks_ok (pas : list (bytes * Z)) : Prop := Forall (fun pa => is_uint 63 pa.2) pas.

(** [loc] pairs each collected amount with the output it was located at. *)
Definition located (outs : list TxOut) (pa : bytes * Z) (o : Output) : Prop :=
  exists k, first_output outs pa.1 k /\ out_Index o = Z.of_nat k + 1 /\ out_Amount o = pa.2.

Lemma locate_outputs_spec tx pas :
  (length (TxOuts tx) < 255)%nat -> pks_ok pas ->
  match locate_outputs tx pas with
  | Ok os => Forall2 (located (TxOuts tx)) pas os
  | Err e => exists pks a, e = ErrScriptNotFound pks a /\ (pks, a) ∈ pas /\
      pks ∉ PkScript <$> TxOuts tx
  | Panic => False
  end.
Proof.
  intros Hl. induction 1 as [|[pks a] pas Ha _ IH]; [constructor|].
  cbn [locate_outputs]. unfold FindScriptOutputIndex.
  pose proof (find_script_spec (TxOuts tx) pks 0) as Hf.
  destruct (find_script (TxOuts tx) pks 0) as [i|].
  - destruct Hf as (k & -> & Hk). destruct Hk as [(o & Ho & Hs) Hlt].
    assert (k < length (TxOuts tx))%nat by (by eapply lookup_lt_Some).
    destruct (locate_outputs tx pas) as [os|e|]; cbn; [|destruct IH as (p & b & ? & ? & ?)|done].
    + constructor; [|done]. exists k. unfold is_uint in Ha. cbn in Ha.
      rewrite (uwrap_id 64) by (unfold is_uint; lia).
      rewrite (uwrap_id 32) by (unfold is_uint; lia).
      rewrite (uwrap_id 8 (0 + Z.of_nat k)) by (unfold is_uint; lia).
      rewrite (uwrap_id 8) by (unfold is_uint; lia).
      cbn. split; [|lia]. split; [by exists o|done].
    + exists p, b. split; [done|split; [by right|done]].
  - exists pks, a. split; [done|split; [by left|done]].
Qed.

Lemma located_credited outs pas os k script : first_output outs script k ->
  Forall2 (located outs) pas os -> credited os (Z.of_nat k + 1) = collected pas script.
Proof.
  intros Hk. induction 1 as [|[pks a] o pas os (j & Hj & Hi & Ha) _ IH]; [done|].
  unfold credited, collected in *. cbn [sum]. rewrite IH. f_equal.
  rewrite Hi, Ha. cbn in *. destruct (decide (pks = script)) as [->|Hne].
  - rewrite (first_output_unique _ _ _ _ Hj Hk). by rewrite !bool_decide_eq_true_2.
  - rewrite (bool_decide_eq_false_2 (pks = script)) by done.
    rewrite bool_decide_eq_false_2; [done|]. intros E.
    assert (j = k) as -> by lia. destruct Hj as [(x & Hx & <-) _], Hk as [(y & Hy & <-) _].
    congruence.
Qed.

Lemma located_uncredited outs pas os k : ~ (exists o, outs !! k = Some o /\
    first_output outs (PkScript o) k) ->
  Forall2 (located outs) pas os -> credited os (Z.of_nat k + 1) = 0.
Proof.
  intros Hk. induction 1 as [|[pks a] o pas os (j & Hj & Hi & Ha) _ IH]; [done|].
  unfold credited in *. cbn [sum]. rewrite IH, bool_decide_eq_false_2; [done|].
  intros E. apply Hk. assert (j = k) as -> by lia.
  pose proof Hj as [(x & Hx & Hs) _]. exists x. split; [done|]. by rewrite Hs.
Qed.

Lemma located_ok outs pas os : (length outs < 255)%nat -> pks_ok pas ->
  Forall2 (located outs) pas os -> Forall output_ok os.
Proof.
  intros Hl Hp H. revert Hp.
  induction H as [|[pks a] o pas os (j & [(x & Hj & _) _] & Hi & Ha) _ IH]; [constructor|].
  intros Hp. inversion Hp as [|? ? Hx Hp']; subst. constructor; [|by apply IH].
  apply lookup_lt_Some in Hj. unfold output_ok, is_uint in *. cbn in *. lia.
Qed.

Lemma located_total outs pas os :
  Forall2 (located outs) pas os -> sum out_Amount os = sum snd pas.
Proof.
  induction 1 as [|pa o pas os (k & _ & _ & Ha) _ IH]; [done|]. cbn [sum]. by rewrite IH, Ha.
Qed.

Lemma Output_Less_asym a b : Output_Less a b = true -> Output_Less b a = false.
Proof. unfold Output_Less. rewrite Z.ltb_lt, Z.ltb_ge. lia. Qed.

Lemma Output_Less_trans a b c :
  Output_Less a b = false -> Output_Less b c = false -> Output_Less a c = false.
Proof. unfold Output_Less. rewrite !Z.ltb_ge. lia. Qed.

(** What prepending the payload output promises about [tx']. *)
Definition pays_assets (tx : MsgTx) (p : PksAmounts) (tx' : MsgTx) : Prop :=
  exists o outs, tx' = set_TxOuts tx (o :: TxOuts tx) /\
    Value o = 0 /\ (length (PkScript o) <= 83)%nat /\
    read_opreturn o = Some (mkOpreturn 0 7 outs (AssetID p)) /\
    StronglySorted (not_after Output_Less) outs /\
    sum out_Amount outs = sum snd (pksAmounts p) /\
    forall k out, TxOuts tx !! k = Some out ->
      (first_output (TxOuts tx) (PkScript out) k ->
         credited outs (Z.of_nat k + 1) = collected (pksAmounts p) (PkScript out)) /\
      (~ first_output (TxOuts tx) (PkScript out) k -> credited outs (Z.of_nat k + 1) = 0).

Lemma AddOpReturnToTx_spec tx p :
  (length (TxOuts tx) < 255)%nat -> is_uint 32 (AssetID p) -> AssetID p <> 0 ->
  pks_ok (pksAmounts p) -> pksAmounts p <> [] ->
  match AddOpReturnToTx tx p with
  | Ok tx' => (length (pksAmounts p) <= 7)%nat /\ pays_assets tx p tx'
  | Err (ErrScriptNotFound pks a) => (pks, a) ∈ pksAmounts p /\ pks ∉ PkScript <$> TxOuts tx
  | Err e => e = ErrTooManyReceivers /\ (7 < length (pksAmounts p))%nat
  | Panic => False
  end.
Proof.
  intros Hl Hid H0 Hp Hne. unfold AddOpReturnToTx, BtcAssetId.
  rewrite (proj2 (Z.eqb_neq _ _) H0). cbn [orb]. rewrite decide_False by done.
  pose proof (locate_outputs_spec tx _ Hl Hp) as Hloc.
  destruct (locate_outputs tx (pksAmounts p)) as [os|e|]; cbn -[GetOpReturnOut go_sort];
    [|by destruct Hloc as (pks & a & -> & ? & ?)|done].
  set (sorted := go_sort Output_Less os).
  assert (Hperm : sorted ≡ₚ os) by apply go_sort_perm.
  assert (Hlen : length sorted = length (pksAmounts p))
    by (rewrite Hperm; symmetry; by eapply Forall2_length).
  destruct (Nat.lt_ge_cases 7 (length sorted)) as [?|?].
  { rewrite GetOpReturnOut_too_many by done. cbn. split; [done|lia]. }
  destruct (GetOpReturnOut_ok (AssetID p) sorted) as (o & -> & Hr & Hv & Hs); [done..| |].
  { rewrite Hperm. by eapply located_ok. }
  cbn. split; [lia|]. exists o, sorted.
  split; [done|split; [done|split; [done|split; [done|]]]].
  split; [apply go_sort_sorted; [apply Output_Less_asym|apply Output_Less_trans]|].
  split; [rewrite Hperm; by eapply located_total|].
  intros k out Hk. unfold credited. rewrite Hperm. split; intros Hf.
  - by eapply located_credited.
  - eapply located_uncredited; [|exact Hloc]. intros (x & Hx & Hfx). congruence.
Qed.


Definition ex_tx : MsgTx :=
  mkMsgTx 2 [] [mkTxOut 546 [Byte.x01]; mkTxOut 546 [Byte.x02]; mkTxOut 546 [Byte.x02]] 0.
Definition ex_pks : PksAmounts := mkPksAmounts 31 [([Byte.x02], 500); ([Byte.x01], 700); ([Byte.x02], 40)].


(** Two outputs with one script: the payload credits the tokens of both to
    the first and nothing to the second, although the source adds one entry per
    output.  Two HTLCs with one payment hash, direction and expiry are such a
    pair. *)
Theorem duplicate_script_unpaid (tx tx' : MsgTx) (p : PksAmounts) (j k : nat) (oj ok : TxOut) :
  (length (TxOuts tx) < 255)%nat -> is_uint 32 (AssetID p) -> AssetID p <> BtcAssetId ->
  pks_ok (pksAmounts p) -> pksAmounts p <> [] ->
  AddOpReturnToTx tx p = Ok tx' ->
  (j < k)%nat -> first_output (TxOuts tx) (PkScript oj) j ->
  TxOuts tx !! j = Some oj -> TxOuts tx !! k = Some ok -> PkScript ok = PkScript oj ->
  exists o outs, TxOuts tx' = o :: TxOuts tx /\
    read_opreturn o = Some (mkOpreturn 0 7 outs (AssetID p)) /\
    credited outs (Z.of_nat j + 1) = collected (pksAmounts p) (PkScript oj) /\
    credited outs (Z.of_nat k + 1) = 0.
Proof.
  intros Hl Hid H0 Hp Hne Hadd Hjk Hfj Hj Hk Hs.
  pose proof (AddOpReturnToTx_spec tx p Hl Hid H0 Hp Hne) as H. rewrite Hadd in H.
  destruct H as (_ & o & outs & -> & _ & _ & Hr & _ & _ & Hc).
  exists o, outs. split; [done|split; [done|]]. split.
  - by apply (Hc j oj Hj).
  - apply (Hc k ok Hk). intros [_ Hf]. by apply (Hf j oj).
Qed.

Lemma duplicate_script_unpaid_witness :
  exists tx' o outs, AddOpReturnToTx ex_tx ex_pks = Ok tx' /\ TxOuts tx' = o :: TxOuts ex_tx /\
    read_opreturn o = Some (mkOpreturn 0 7 outs 31) /\
    credited outs 2 = 540 /\ credited outs 3 = 0.
Proof.
  destruct (AddOpReturnToTx ex_tx ex_pks) as [tx'|e|] eqn:E; [|discriminate E..].
  exists tx'.
  destruct (duplicate_script_unpaid ex_tx tx' ex_pks 1 2 (mkTxOut 546 [Byte.x02])
    (mkTxOut 546 [Byte.x02])) as (o & outs & H1 & H2 & H3 & H4).
  - cbn. lia.
  - split; [discriminate|reflexivity].
  - discriminate.
  - unfold ex_pks, pks_ok, is_uint; repeat constructor; cbn; lia.
  - discriminate.
  - exact E.
  - lia.
  - split; [by eexists|]. intros [|j] o Hj; [|lia]. by intros [= <-].
  - reflexivity.
  - reflexivity.
  - reflexivity.
  - exists o, outs. split; [reflexivity|split; [exact H1|split; [exact H2|split; [exact H3|exact H4]]]].
Defined.

(** ** The payload does not depend on the order of collection *)
Lemma locate_outputs_perm tx pas pas' : pas ≡ₚ pas' ->
  forall os, locate_outputs tx pas = Ok os ->
  exists os', locate_outputs tx pas' = Ok os' /\ os ≡ₚ os'.
Proof.
  induction 1 as [|[p a] l l' _ IH|[p a] [q b] l|l1 l2 l3 _ IH1 _ IH2]; intros os Hos.
  - by exists os.
  - cbn [locate_outputs] in *. destruct (FindScriptOutputIndex tx p) as [[|] i]; [|done].
    inv_ok Hos. destruct (IH _ H) as (os' & -> & Hp). injection H0 as <-.
    eexists. split; [reflexivity|]. by constructor.
  - cbn [locate_outputs] in *.
    destruct (FindScriptOutputIndex tx p) as [[|] i]; [|by destruct (FindScriptOutputIndex tx q) as [[|] j]].
    destruct (FindScriptOutputIndex tx q) as [[|] j]; [|done].
    destruct (locate_outputs tx l) as [os0|e|]; [|done..]. cbn in *.
    injection Hos as <-. eexists. split; [reflexivity|]. apply Permutation_swap.
  - destruct (IH1 os Hos) as (os2 & H2 & Hp2). destruct (IH2 os2 H2) as (os3 & H3 & Hp3).
    exists os3. split; [done|]. by etrans.
Qed.

Lemma locate_outputs_index tx pas os : (length (TxOuts tx) < 255)%nat ->
  locate_outputs tx pas = Ok os ->
  Forall2 (fun pa o => exists k, first_output (TxOuts tx) pa.1 k /\ out_Index o = Z.of_nat k + 1) pas os.
Proof.
  intros Hl. revert os. induction pas as [|[p a] pas IH]; intros os Hos; cbn [locate_outputs] in Hos.
  - by injection Hos as <-.
  - unfold FindScriptOutputIndex in Hos. pose proof (find_script_spec (TxOuts tx) p 0) as Hf.
    destruct (find_script (TxOuts tx) p 0) as [i|]; [|done].
    destruct Hf as (k & -> & Hk). inv_ok Hos. injection H0 as <-. constructor; [|by apply IH].
    exists k. split; [done|]. cbn. pose proof Hk as [(o & Ho & _) _]. apply lookup_lt_Some in Ho.
    rewrite (uwrap_id 32) by (unfold is_uint; lia).
    rewrite (uwrap_id 8 (0 + Z.of_nat k)) by (unfold is_uint; lia).
    rewrite (uwrap_id 8) by (unfold is_uint; lia). lia.
Qed.

Lemma locate_outputs_NoDup tx pas os : (length (TxOuts tx) < 255)%nat ->
  locate_outputs tx pas = Ok os -> NoDup pas.*1 -> NoDup (out_Index <$> os).
Proof.
  intros Hl Hos. pose proof (locate_outputs_index tx pas os Hl Hos) as Hf. clear Hos.
  induction Hf as [|[p a] o pas os (k & Hk & Ho) Hf IH]; cbn; [constructor|].
  rewrite !list.NoDup_cons. intros [Hn Hnd]. split; [|by apply IH]. intros (o' & He & Hin)%list_elem_of_fmap.
  apply list_elem_of_lookup in Hin as [j Hj].
  destruct (Forall2_lookup_r _ _ _ _ _ Hf Hj) as ([q b] & Hq & k' & Hk' & Ho').
  apply list_elem_of_lookup_2 in Hq.
  assert (k = k') as <- by lia. cbn in *. destruct Hk as [(x & Hx & <-) _], Hk' as [(x' & Hx' & Hs) _].
  apply Hn. apply list_elem_of_fmap. exists (q, b). split; [|done]. cbn. congruence.
Qed.

Lemma AddOpReturn_perm tx id pas pas' tx' : pas ≡ₚ pas' -> NoDup pas.*1 ->
  (length (TxOuts tx) < 255)%nat ->
  AddOpReturnToTx tx (mkPksAmounts id pas) = Ok tx' ->
  AddOpReturnToTx tx (mkPksAmounts id pas') = Ok tx'.
Proof.
  intros Hp Hnd Hl. unfold AddOpReturnToTx. cbn [AssetID pksAmounts].
  destruct ((id =? 0) || (id =? BtcAssetId)); [done|].
  destruct (decide (pas = [])) as [->|Hne].
  { apply Permutation_nil_l in Hp as <-. done. }
  rewrite decide_False by (intros ->; by apply Permutation_nil_r in Hp).
  intros Hok. inv_ok Hok. destruct (locate_outputs_perm tx pas pas' Hp _ H) as (os' & -> & Hp').
  rewrite res_bind_Ok_l.
  assert (go_sort Output_Less a = go_sort Output_Less os') as <-; [|by rewrite H1].
  assert (Hndi : NoDup (out_Index <$> a)) by (by eapply locate_outputs_NoDup).
  apply (StronglySorted_unique_strong (not_after Output_Less)).
  - intros x y. rewrite !go_sort_perm, <- Hp'. intros Hx Hy. unfold not_after, Output_Less.
    rewrite !Z.ltb_ge. intros ??. assert (He : out_Index x = out_Index y) by lia.
    apply list_elem_of_lookup in Hx as [i Hi]. apply list_elem_of_lookup in Hy as [j Hj].
    assert (i = j) as ->; [|congruence]. eapply (NoDup_lookup _ i j (out_Index x) Hndi);
      rewrite list_lookup_fmap; [by rewrite Hi|by rewrite Hj, He].
  - apply go_sort_sorted; [apply Output_Less_asym|apply Output_Less_trans].
  - apply go_sort_sorted; [apply Output_Less_asym|apply Output_Less_trans].
  - by rewrite !go_sort_perm.
Qed.

(** The payload output, if any, goes in front of the outputs. *)
Lemma AddOpReturn_outs tx p tx' : AddOpReturnToTx tx p = Ok tx' ->
  exists pre, TxOuts tx' = pre ++ TxOuts tx.
Proof.
  unfold AddOpReturnToTx. destruct ((AssetID p =? 0) || (AssetID p =? BtcAssetId)).
  { intros E. injection E as <-. by exists []. }
  case_decide. { intros E. injection E as <-. by exists []. }
  intros Hok. inv_ok Hok. match goal with E : mret _ = Ok _ |- _ => injection E as <- end.
  by eexists [_].
Qed.

Lemma AddOpReturn_pre tx p tx' : AddOpReturnToTx tx p = Ok tx' ->
  exists pre, TxOuts tx' = pre ++ TxOuts tx /\ (length pre <= 1)%nat /\ (AssetID p = BtcAssetId -> pre = []).
Proof.
  unfold AddOpReturnToTx. destruct ((AssetID p =? 0) || (AssetID p =? BtcAssetId)) eqn:Hid.
  { intros E. injection E as <-. exists []. split; [done|]. split; [cbn; lia|done]. }
  case_decide. { intros E. injection E as <-. exists []. split; [done|]. split; [cbn; lia|done]. }
  intros Hok. inv_ok Hok. match goal with E : mret _ = Ok _ |- _ => injection E as <- end.
  eexists [_]. split; [done|]. split; [done|]. intros Hb. rewrite Hb in Hid. by rewrite Z.eqb_refl, orb_true_r in Hid.
Qed.

Lemma AddOpReturn_rest tx p tx' : AddOpReturnToTx tx p = Ok tx' ->
  TxIns tx' = TxIns tx /\ LockTime tx' = LockTime tx /\ Version tx' = Version tx.
Proof.
  unfold AddOpReturnToTx. destruct ((AssetID p =? 0) || (AssetID p =? BtcAssetId)).
  { intros E. by injection E as <-. }
  case_decide. { intros E. by injection E as <-. }
  intros Hok. inv_ok Hok. match goal with E : mret _ = Ok _ |- _ => by injection E as <- end.
Qed.
