(* ===== verification/Keys.v ===== *)
(** * Keys of a channel ([input/script_utils.go], [lnwallet/commitment.go])

    The elliptic curve is an interface, [CurveOps], with the group laws the
    derivations rely on in [CurveLaws]; scalars are integers modulo the order of
    secp256k1.  On top of it: the per-commitment tweaks, the revocation key, the
    configuration of one side of a channel and [DeriveCommitmentKeys]. *)

From S2P Require Import Prelude Wire Messages Units Sha256.

(** ** The curve (btcec) *)
Class CurveOps `{PubKeyOps} : Type := {
  pt_add : PublicKey -> PublicKey -> PublicKey;
  pt_mul : Z -> PublicKey -> PublicKey;
  base_point : PublicKey;
  IsEqual :: EqDecision PublicKey
}.

(** The order of the group. *)
Definition curve_N : Z :=
  0xFFFFFFFFFFFFFFFFFFFFFFFFFFFFFFFEBAAEDCE6AF48A03BBFD25E8CD0364141.

Class CurveLaws `{CurveOps} : Prop := {
  pt_mul_mul a b p : pt_mul a (pt_mul b p) = pt_mul (a * b) p;
  pt_mul_add a b p : pt_add (pt_mul a p) (pt_mul b p) = pt_mul (a + b) p;
  pt_mul_mod a p : pt_mul (a mod curve_N) p = pt_mul a p
}.

Section Curve.
Context `{CurveOps}.

(** [ModNScalar.SetByteSlice]: 32 big-endian bytes, reduced. *)
Definition scalar (b : bytes) : Z := be_get b mod curve_N.

Definition PubKey (priv : Z) : PublicKey := pt_mul priv base_point.

(** ** Derivations ([input/script_utils.go]) *)
Definition SingleTweakBytes (commitPoint basePoint : PublicKey) : bytes :=
  Sum256 (SerializeCompressed commitPoint ++ SerializeCompressed basePoint).

Definition TweakPubKeyWithTweak (pubKey : PublicKey) (tweakBytes : bytes) : PublicKey :=
  pt_add pubKey (pt_mul (scalar tweakBytes) base_point).

Definition TweakPubKey (basePoint commitPoint : PublicKey) : PublicKey :=
  TweakPubKeyWithTweak basePoint (SingleTweakBytes commitPoint basePoint).

Definition TweakPrivKey (basePriv : Z) (commitTweak : bytes) : Z :=
  (scalar commitTweak + basePriv) mod curve_N.

Definition DeriveRevocationPubkey (revokeBase commitPoint : PublicKey) : PublicKey :=
  pt_add (pt_mul (scalar (SingleTweakBytes revokeBase commitPoint)) revokeBase)
         (pt_mul (scalar (SingleTweakBytes commitPoint revokeBase)) commitPoint).

Definition DeriveRevocationPrivKey (revokeBasePriv commitSecret : Z) : Z :=
  let r := scalar (SingleTweakBytes (PubKey revokeBasePriv) (PubKey commitSecret)) in
  let c := scalar (SingleTweakBytes (PubKey commitSecret) (PubKey revokeBasePriv)) in
  ((r * revokeBasePriv) mod curve_N + (c * commitSecret) mod curve_N) mod curve_N.

Definition ComputeCommitmentPoint (commitSecret : bytes) : PublicKey :=
  PubKey (scalar commitSecret).

(** ** Channel configuration ([channeldb/channel.go])

    Keys are the public keys of the key descriptors. *)
Record ChannelConfig := mkChannelConfig {
  DustLimit : Z;
  ChanReserve : Z;
  MaxPendingAmount : Z;
  MinHTLC : Z;
  MaxAcceptedHtlcs : Z;
  CsvDelay : Z;
  MultiSigKey : PublicKey;
  RevocationBasePoint : PublicKey;
  PaymentBasePoint : PublicKey;
  DelayBasePoint : PublicKey;
  HtlcBasePoint : PublicKey
}.

(** ** Commitment keys ([lnwallet/commitment.go]) *)
Record CommitmentKeyRing := mkKeyRing {
  CommitPoint : PublicKey;
  LocalCommitKeyTweak : option bytes;
  LocalHtlcKeyTweak : bytes;
  LocalHtlcKey : PublicKey;
  RemoteHtlcKey : PublicKey;
  ToLocalKey : PublicKey;
  ToRemoteKey : PublicKey;
  RevocationKey : PublicKey
}.

Definition DeriveCommitmentKeys (commitPoint : PublicKey) (isOurCommit : bool) (chanType : Z)
    (localChanCfg remoteChanCfg : ChannelConfig) : CommitmentKeyRing :=
  let tweaklessCommit := IsTweakless chanType in
  let localBasePoint := if isOurCommit then DelayBasePoint localChanCfg
                        else PaymentBasePoint localChanCfg in
  let toLocalBasePoint := if isOurCommit then DelayBasePoint localChanCfg
                          else DelayBasePoint remoteChanCfg in
  let toRemoteBasePoint := if isOurCommit then PaymentBasePoint remoteChanCfg
                           else PaymentBasePoint localChanCfg in
  let revocationBasePoint := if isOurCommit then RevocationBasePoint remoteChanCfg
                             else RevocationBasePoint localChanCfg in
  mkKeyRing commitPoint
    (if tweaklessCommit && negb isOurCommit then None
     else Some (SingleTweakBytes commitPoint localBasePoint))
    (SingleTweakBytes commitPoint (HtlcBasePoint localChanCfg))
    (TweakPubKey (HtlcBasePoint localChanCfg) commitPoint)
    (TweakPubKey (HtlcBasePoint remoteChanCfg) commitPoint)
    (TweakPubKey toLocalBasePoint commitPoint)
    (if tweaklessCommit then toRemoteBasePoint else TweakPubKey toRemoteBasePoint commitPoint)
    (DeriveRevocationPubkey revocationBasePoint commitPoint).

(** The key ring as the peer sees it: its "local" keys are our "remote" ones. *)
Definition same_keys (a b : CommitmentKeyRing) : Prop :=
  LocalHtlcKey a = RemoteHtlcKey b /\ RemoteHtlcKey a = LocalHtlcKey b /\
  ToLocalKey a = ToLocalKey b /\ ToRemoteKey a = ToRemoteKey b /\
  RevocationKey a = RevocationKey b.

Lemma same_keys_derive point isOurs chanType cfgA cfgB :
  same_keys (DeriveCommitmentKeys point isOurs chanType cfgA cfgB)
            (DeriveCommitmentKeys point (negb isOurs) chanType cfgB cfgA).
Proof. by destruct isOurs. Qed.

(** ** Correctness of the derivations *)
Context `{!CurveLaws}.

Lemma PubKey_add a b : pt_add (PubKey a) (PubKey b) = PubKey (a + b).
Proof. apply pt_mul_add. Qed.

Lemma PubKey_mul a b : pt_mul a (PubKey b) = PubKey (a * b).
Proof. apply pt_mul_mul. Qed.

Lemma PubKey_mod a : PubKey (a mod curve_N) = PubKey a.
Proof. apply pt_mul_mod. Qed.

(** The private keys the code derives are the private keys of the public
    keys it derives: a tweaked base key, and the revocation key, which whoever
    holds the revocation base secret can claim with once the commitment secret
    is revealed.  Both peers derive one set of keys for a commitment, each
    seeing its own keys as the local ones. *)
Theorem key_derivation (basePriv commitSecret : Z) (secret : bytes)
    (isOurs : bool) (chanType : Z) (cfgA cfgB : ChannelConfig) :
  let commitPoint := PubKey commitSecret in
  PubKey (TweakPrivKey basePriv (SingleTweakBytes commitPoint (PubKey basePriv))) =
    TweakPubKey (PubKey basePriv) commitPoint /\
  PubKey (DeriveRevocationPrivKey basePriv commitSecret) =
    DeriveRevocationPubkey (PubKey basePriv) commitPoint /\
  PubKey (DeriveRevocationPrivKey basePriv (scalar secret)) =
    DeriveRevocationPubkey (PubKey basePriv) (ComputeCommitmentPoint secret) /\
  same_keys (DeriveCommitmentKeys commitPoint isOurs chanType cfgA cfgB)
            (DeriveCommitmentKeys commitPoint (negb isOurs) chanType cfgB cfgA).
Proof.
  intros commitPoint.
  assert (Hrev : forall b c, PubKey (DeriveRevocationPrivKey b c) =
    DeriveRevocationPubkey (PubKey b) (PubKey c)).
  { intros b c. unfold DeriveRevocationPrivKey, DeriveRevocationPubkey.
    rewrite !PubKey_mul, PubKey_add, PubKey_mod, <- PubKey_add, !PubKey_mod, PubKey_add. done. }
  split; [|split; [apply Hrev|split; [apply Hrev|apply same_keys_derive]]].
  unfold TweakPrivKey, TweakPubKey, TweakPubKeyWithTweak. fold (PubKey (scalar
    (SingleTweakBytes commitPoint (PubKey basePriv)))).
  rewrite PubKey_mod, <- PubKey_add, !PubKey_add. f_equal. lia.
Qed.

End Curve.

(** ** A concrete curve: the integers modulo the order, generated by 1 *)
Definition toy_point_parse (b : bytes) : option Z :=
  match b with _ :: rest => Some (be_get rest) | [] => None end.

Definition toy_pubkeys : PubKeyOps := {|
  PublicKey := Z;
  SerializeCompressed p := Byte.x02 :: be_put 32 p;
  ParsePubKey := toy_point_parse
|}.

Definition toy_curve : @CurveOps toy_pubkeys :=
  @Build_CurveOps toy_pubkeys
    (fun a b : Z => (a + b) mod curve_N)
    (fun k p : Z => (k * p) mod curve_N) 1 Z.eq_dec.

Lemma toy_curve_laws : @CurveLaws toy_pubkeys toy_curve.
Proof.
  split; intros; unfold pt_mul, pt_add; cbn.
  - rewrite Zmult_mod_idemp_r. f_equal. lia.
  - rewrite <- Zplus_mod. f_equal. lia.
  - by rewrite Zmult_mod_idemp_l.
Qed.

Definition toy_config (reserve dust : Z) : @ChannelConfig toy_pubkeys :=
  mkChannelConfig (H := toy_pubkeys) dust reserve (2 ^ 50) 1 483 144 11 12 13 14 15.

Lemma key_derivation_witness :
  let o := toy_pubkeys in let c := toy_curve in
  PubKey (TweakPrivKey 5 (SingleTweakBytes (PubKey 7) (PubKey 5))) = TweakPubKey (PubKey 5) (PubKey 7).
Proof.
  intros o c.
  exact (proj1 (@key_derivation toy_pubkeys toy_curve toy_curve_laws 5 7 [] true 0
    (toy_config 0 0) (toy_config 0 0))).
Defined.
