(* ===== verification/Scripts.v ===== *)
(** * Output scripts ([input/script_utils.go], [lnwallet/commitment.go])

    A script is the list of operations and pushes handed to btcd's
    [txscript.ScriptBuilder]; turning that list into bytes, and the two hashes,
    are the interface [ScriptLib].  The scripts of the funding output, of the
    commitment outputs and of the HTLC outputs, and the choice between them by
    channel type, direction and owner of the commitment. *)

From S2P Require Import Prelude Wire Messages Units Sha256 Tx Keys.

(** ** The builder *)
Inductive opcode : Type :=
| OP_0 | OP_1 | OP_2 | OP_16
| OP_IF | OP_NOTIF | OP_ELSE | OP_ENDIF
| OP_DUP | OP_IFDUP | OP_DROP | OP_SWAP | OP_SIZE
| OP_EQUAL | OP_EQUALVERIFY
| OP_HASH160
| OP_CHECKSIG | OP_CHECKSIGVERIFY | OP_CHECKMULTISIG
| OP_CHECKLOCKTIMEVERIFY | OP_CHECKSEQUENCEVERIFY.

Inductive item : Type :=
| AddOp (op : opcode)
| AddData (data : bytes)
| AddInt64 (n : Z).

#[export] Instance opcode_eq_dec : EqDecision opcode.
Proof. solve_decision. Defined.
#[export] Instance item_eq_dec : EqDecision item.
Proof. solve_decision. Defined.

Inductive scripterr : Type :=
| ErrScriptBuild
| ErrPubkeySize
| ErrFundingAmount.

Class ScriptLib : Type := {
  BuildScript : list item -> option bytes;
  Hash160 : bytes -> bytes;
  Ripemd160 : bytes -> bytes
}.

Section Scripts.
Context `{ScriptLib} `{PubKeyOps}.

(** [builder.Script()]. *)
Definition Script (l : list item) : res scripterr bytes :=
  match BuildScript l with Some b => Ok b | None => Err ErrScriptBuild end.

Definition Ripemd160H (d : bytes) : bytes := Ripemd160 d.

(** ** Hashed outputs *)
Definition GenerateP2SH (script : bytes) : res scripterr bytes :=
  Script [AddOp OP_HASH160; AddData (Hash160 script); AddOp OP_EQUAL].

Definition GenerateP2PKH (pubkey : bytes) : res scripterr bytes :=
  Script [AddOp OP_DUP; AddOp OP_HASH160; AddData (Hash160 pubkey); AddOp OP_EQUALVERIFY;
          AddOp OP_CHECKSIG].

(** ** Funding output *)
Definition GenMultiSigScript (aPub bPub : bytes) : res scripterr bytes :=
  if negb (bool_decide (length aPub = 33%nat)) || negb (bool_decide (length bPub = 33%nat))
  then Err ErrPubkeySize
  else
    let '(aPub, bPub) := if bytes_lt bPub aPub then (bPub, aPub) else (aPub, bPub) in
    Script [AddOp OP_2; AddData aPub; AddData bPub; AddOp OP_2; AddOp OP_CHECKMULTISIG].

Definition GenFundingPkScript (aPub bPub : bytes) (amt : Z) : res scripterr (bytes * TxOut) :=
  _ ← guard_err (amt <=? 0) ErrFundingAmount;
  witnessScript ← GenMultiSigScript aPub bPub;
  pkScript ← GenerateP2SH witnessScript;
  mret (witnessScript, mkTxOut amt pkScript).

(** ** HTLC outputs *)
Definition confirmed_check (confirmedSpend : bool) : list item :=
  if confirmedSpend then [AddOp OP_1; AddOp OP_CHECKSEQUENCEVERIFY; AddOp OP_DROP] else [].

Definition SenderHTLCScript (senderHtlcKey receiverHtlcKey revocationKey : PublicKey)
    (paymentHash : bytes) (confirmedSpend : bool) : res scripterr bytes :=
  Script (
    [AddOp OP_DUP; AddOp OP_HASH160; AddData (Hash160 (SerializeCompressed revocationKey));
     AddOp OP_EQUAL;
     AddOp OP_IF; AddOp OP_CHECKSIG;
     AddOp OP_ELSE;
     AddData (SerializeCompressed receiverHtlcKey);
     AddOp OP_SWAP; AddOp OP_SIZE; AddInt64 32; AddOp OP_EQUAL;
     AddOp OP_NOTIF;
     AddOp OP_DROP; AddOp OP_2; AddOp OP_SWAP; AddData (SerializeCompressed senderHtlcKey);
     AddOp OP_2; AddOp OP_CHECKMULTISIG;
     AddOp OP_ELSE;
     AddOp OP_HASH160; AddData (Ripemd160H paymentHash); AddOp OP_EQUALVERIFY;
     AddOp OP_CHECKSIG;
     AddOp OP_ENDIF] ++
    confirmed_check confirmedSpend ++
    [AddOp OP_ENDIF]).

Definition ReceiverHTLCScript (cltvExpiry : Z)
    (senderHtlcKey receiverHtlcKey revocationKey : PublicKey)
    (paymentHash : bytes) (confirmedSpend : bool) : res scripterr bytes :=
  Script (
    [AddOp OP_DUP; AddOp OP_HASH160; AddData (Hash160 (SerializeCompressed revocationKey));
     AddOp OP_EQUAL;
     AddOp OP_IF; AddOp OP_CHECKSIG;
     AddOp OP_ELSE;
     AddData (SerializeCompressed senderHtlcKey);
     AddOp OP_SWAP; AddOp OP_SIZE; AddInt64 32; AddOp OP_EQUAL;
     AddOp OP_IF;
     AddOp OP_HASH160; AddData (Ripemd160H paymentHash); AddOp OP_EQUALVERIFY;
     AddOp OP_2; AddOp OP_SWAP; AddData (SerializeCompressed receiverHtlcKey);
     AddOp OP_2; AddOp OP_CHECKMULTISIG;
     AddOp OP_ELSE;
     AddOp OP_DROP; AddInt64 cltvExpiry; AddOp OP_CHECKLOCKTIMEVERIFY; AddOp OP_DROP;
     AddOp OP_CHECKSIG;
     AddOp OP_ENDIF] ++
    confirmed_check confirmedSpend ++
    [AddOp OP_ENDIF]).

(** ** Second-level and to-self outputs *)
Definition input_SecondLevelHtlcScript (revocationKey delayKey : PublicKey) (csvDelay : Z)
    : res scripterr bytes :=
  Script
    [AddOp OP_IF; AddData (SerializeCompressed revocationKey);
     AddOp OP_ELSE;
     AddInt64 csvDelay; AddOp OP_CHECKSEQUENCEVERIFY; AddOp OP_DROP;
     AddData (SerializeCompressed delayKey);
     AddOp OP_ENDIF; AddOp OP_CHECKSIG].

Definition LeaseSecondLevelHtlcScript (revocationKey delayKey : PublicKey)
    (csvDelay cltvExpiry : Z) : res scripterr bytes :=
  Script
    [AddOp OP_IF; AddData (SerializeCompressed revocationKey);
     AddOp OP_ELSE;
     AddInt64 cltvExpiry; AddOp OP_CHECKLOCKTIMEVERIFY; AddOp OP_DROP;
     AddInt64 csvDelay; AddOp OP_CHECKSEQUENCEVERIFY; AddOp OP_DROP;
     AddData (SerializeCompressed delayKey);
     AddOp OP_ENDIF; AddOp OP_CHECKSIG].

Definition input_CommitScriptToSelf (csvTimeout : Z) (selfKey revokeKey : PublicKey)
    : res scripterr bytes :=
  Script
    [AddOp OP_IF; AddData (SerializeCompressed revokeKey);
     AddOp OP_ELSE;
     AddInt64 csvTimeout; AddOp OP_CHECKSEQUENCEVERIFY; AddOp OP_DROP;
     AddData (SerializeCompressed selfKey);
     AddOp OP_ENDIF; AddOp OP_CHECKSIG].

Definition LeaseCommitScriptToSelf (selfKey revokeKey : PublicKey) (csvTimeout leaseExpiry : Z)
    : res scripterr bytes :=
  Script
    [AddOp OP_IF; AddData (SerializeCompressed revokeKey);
     AddOp OP_ELSE;
     AddInt64 leaseExpiry; AddOp OP_CHECKLOCKTIMEVERIFY; AddOp OP_DROP;
     AddInt64 csvTimeout; AddOp OP_CHECKSEQUENCEVERIFY; AddOp OP_DROP;
     AddData (SerializeCompressed selfKey);
     AddOp OP_ENDIF; AddOp OP_CHECKSIG].

Definition CommitScriptToRemoteConfirmed (key : PublicKey) : res scripterr bytes :=
  Script [AddData (SerializeCompressed key); AddOp OP_CHECKSIGVERIFY; AddOp OP_1;
          AddOp OP_CHECKSEQUENCEVERIFY].

Definition LeaseCommitScriptToRemoteConfirmed (key : PublicKey) (leaseExpiry : Z)
    : res scripterr bytes :=
  Script [AddData (SerializeCompressed key); AddOp OP_CHECKSIGVERIFY;
          AddInt64 leaseExpiry; AddOp OP_CHECKLOCKTIMEVERIFY; AddOp OP_DROP;
          AddOp OP_1; AddOp OP_CHECKSEQUENCEVERIFY].

Definition CommitScriptAnchor (key : PublicKey) : res scripterr bytes :=
  Script [AddData (SerializeCompressed key); AddOp OP_CHECKSIG; AddOp OP_IFDUP;
          AddOp OP_NOTIF; AddOp OP_16; AddOp OP_CHECKSEQUENCEVERIFY; AddOp OP_ENDIF].

(** ** The choice by channel type ([lnwallet/commitment.go]) *)
Record ScriptInfo := mkScriptInfo { si_PkScript : bytes; si_WitnessScript : bytes }.

Definition CommitScriptToSelf (chanType : Z) (initiator : bool) (selfKey revokeKey : PublicKey)
    (csvDelay leaseExpiry : Z) : res scripterr ScriptInfo :=
  toLocalRedeemScript ←
    (if initiator && HasLeaseExpiration chanType then
       LeaseCommitScriptToSelf selfKey revokeKey csvDelay leaseExpiry
     else input_CommitScriptToSelf csvDelay selfKey revokeKey);
  toLocalScriptHash ← GenerateP2SH toLocalRedeemScript;
  mret (mkScriptInfo toLocalScriptHash toLocalRedeemScript).

Definition CommitScriptToRemote (chanType : Z) (initiator : bool) (key : PublicKey)
    (leaseExpiry : Z) : res scripterr (ScriptInfo * Z) :=
  if HasLeaseExpiration chanType && negb initiator then
    script ← LeaseCommitScriptToRemoteConfirmed key leaseExpiry;
    p2wsh ← GenerateP2SH script;
    mret (mkScriptInfo p2wsh script, 1)
  else if HasAnchors chanType then
    script ← CommitScriptToRemoteConfirmed key;
    p2wsh ← GenerateP2SH script;
    mret (mkScriptInfo p2wsh script, 1)
  else
    p2wkh ← GenerateP2PKH (SerializeCompressed key);
    mret (mkScriptInfo p2wkh p2wkh, 0).

Definition HtlcSecondLevelInputSequence (chanType : Z) : Z := if HasAnchors chanType then 1 else 0.

Definition SecondLevelHtlcScript (chanType : Z) (initiator : bool)
    (revocationKey delayKey : PublicKey) (csvDelay leaseExpiry : Z) : res scripterr ScriptInfo :=
  witnessScript ←
    (if initiator && HasLeaseExpiration chanType then
       LeaseSecondLevelHtlcScript revocationKey delayKey csvDelay leaseExpiry
     else input_SecondLevelHtlcScript revocationKey delayKey csvDelay);
  pkScript ← GenerateP2SH witnessScript;
  mret (mkScriptInfo pkScript witnessScript).

(** The public key script and the witness script of an HTLC output. *)
Definition genHtlcScript (chanType : Z) (isIncoming ourCommit : bool) (timeout : Z)
    (rHash : bytes) (keyRing : CommitmentKeyRing) : res scripterr (bytes * bytes) :=
  let confirmedHtlcSpends := HasAnchors chanType in
  witnessScript ←
    (if isIncoming && ourCommit then
       ReceiverHTLCScript timeout (RemoteHtlcKey keyRing) (LocalHtlcKey keyRing)
         (RevocationKey keyRing) rHash confirmedHtlcSpends
     else if isIncoming && negb ourCommit then
       SenderHTLCScript (RemoteHtlcKey keyRing) (LocalHtlcKey keyRing)
         (RevocationKey keyRing) rHash confirmedHtlcSpends
     else if negb isIncoming && ourCommit then
       SenderHTLCScript (LocalHtlcKey keyRing) (RemoteHtlcKey keyRing)
         (RevocationKey keyRing) rHash confirmedHtlcSpends
     else
       ReceiverHTLCScript timeout (LocalHtlcKey keyRing) (RemoteHtlcKey keyRing)
         (RevocationKey keyRing) rHash confirmedHtlcSpends);
  htlcP2WSH ← GenerateP2SH witnessScript;
  mret (htlcP2WSH, witnessScript).

(** Both peers script an HTLC of a commitment the same way. *)
Lemma genHtlcScript_same chanType isIncoming ourCommit timeout rHash a b :
  same_keys a b ->
  genHtlcScript chanType isIncoming ourCommit timeout rHash a =
  genHtlcScript chanType (negb isIncoming) (negb ourCommit) timeout rHash b.
Proof.
  intros (H1 & H2 & _ & _ & H3). unfold genHtlcScript. rewrite H1, H2, H3.
  by destruct isIncoming, ourCommit.
Qed.

End Scripts.
