(* ===== verification/FwdPkg.v ===== *)
(** * Forwarding packages ([channeldb/forwarding_package.go])

    The bit-vector [PkgFilter], the package of log updates one revocation locks
    in, and the packager's operations on the database.  A bucket is a finite map
    from its integer key to its value; big-endian keys make a bucket's iteration
    order the order of its keys.  A failing operation runs in a database
    transaction, so it leaves no partial write. *)

From stdpp Require Import sorting.
From S2P Require Import Prelude Wire Messages ChanIds.

Inductive pkgerr : Type :=
| ErrCorruptedFwdPkg
| ErrBucketNotFound
| ErrPkgWire (e : werr).

(** [channeldb.LogUpdate] ([channeldb/channel.go]). *)
Record LogUpdate := mkLogUpdate { lu_LogIndex : Z; lu_UpdateMsg : UpdateMsg }.

(** ** [PkgFilter] *)
Record PkgFilter := mkPkgFilter { count : Z; filter_bits : bytes }.

Definition NewPkgFilter (count : Z) : PkgFilter :=
  mkPkgFilter count (replicate (Z.to_nat (u16 (count + 7) / 8)) Byte.x00).

(** Out-of-range indexes of the byte slice panic. *)
Definition PkgFilter_Set {E} (f : PkgFilter) (i : Z) : res E PkgFilter :=
  let byt := Z.to_nat (i / 8) in
  match filter_bits f !! byt with
  | None => Panic
  | Some b => Ok (mkPkgFilter (count f)
      (<[byt := byte.of_Z (Z.lor (byte.unsigned b) (Z.shiftl 1 (7 - i mod 8)))]> (filter_bits f)))
  end.

Definition PkgFilter_Contains {E} (f : PkgFilter) (i : Z) : res E bool :=
  match filter_bits f !! Z.to_nat (i / 8) with
  | None => Panic
  | Some b => Ok (negb (Z.land (byte.unsigned b) (Z.shiftl 1 (7 - i mod 8)) =? 0))
  end.

Definition PkgFilter_Equal (f f2 : PkgFilter) : bool :=
  (count f =? count f2) && bool_decide (filter_bits f = filter_bits f2).

(** A loop that returns false at the first element failing [f]. *)
Fixpoint all_res {E A} (f : A -> res E bool) (l : list A) : res E bool :=
  match l with
  | [] => Ok true
  | x :: rest => b ← f x; if b : bool then all_res f rest else Ok false
  end.

Definition PkgFilter_IsFull {E} (f : PkgFilter) : res E bool :=
  full_bytes ← all_res (fun i : nat =>
      match filter_bits f !! i with
      | None => Panic
      | Some b => Ok (byte.unsigned b =? 0xFF)
      end) (seq 0 (Z.to_nat (count f / 8)));
  if full_bytes : bool then
    let rem := count f mod 8 in
    all_res (PkgFilter_Contains f) (seqZ (count f - rem) rem)
  else Ok false.

Definition PkgFilter_Size (f : PkgFilter) : Z := u16 (2 + u16 (count f + 7) / 8).

Definition PkgFilter_Encode (f : PkgFilter) : Writer :=
  _ ← WriteUint16 (count f);
  WriteBytes (filter_bits f).

Definition PkgFilter_Decode : Reader PkgFilter :=
  n ← ReadUint16;
  bits ← ReadFull (Z.to_nat (u16 (PkgFilter_Size (mkPkgFilter n []) - 2)));
  mret (mkPkgFilter n bits).

(** ** References ([AddRef], [SettleFailRef]) *)
Record AddRef := mkAddRef { ar_Height : Z; ar_Index : Z }.

#[export] Instance AddRef_eq_dec : EqDecision AddRef.
Proof. solve_decision. Defined.

Definition AddRef_Encode (a : AddRef) : Writer :=
  _ ← WriteUint64 (ar_Height a);
  WriteUint16 (ar_Index a).

Definition AddRef_Decode : Reader AddRef :=
  h ← ReadUint64; i ← ReadUint16; mret (mkAddRef h i).

Record SettleFailRef := mkSettleFailRef {
  sr_Source : ShortChannelID; sr_Height : Z; sr_Index : Z
}.

(** ** [FwdPkg] *)
Inductive FwdState : Type := FwdStateLockedIn | FwdStateProcessed | FwdStateCompleted.

Record FwdPkg := mkFwdPkg {
  pkg_Source : ShortChannelID;
  pkg_Height : Z;
  pkg_State : FwdState;
  pkg_Adds : list LogUpdate;
  pkg_FwdFilter : PkgFilter;
  pkg_AckFilter : PkgFilter;
  pkg_SettleFails : list LogUpdate;
  pkg_SettleFailFilter : PkgFilter
}.

Definition NewFwdPkg (source : ShortChannelID) (height : Z)
    (addUpdates settleFailUpdates : list LogUpdate) : FwdPkg :=
  let nAddUpdates := u16 (Z.of_nat (length addUpdates)) in
  let nSettleFailUpdates := u16 (Z.of_nat (length settleFailUpdates)) in
  mkFwdPkg source height FwdStateLockedIn addUpdates (NewPkgFilter nAddUpdates)
    (NewPkgFilter nAddUpdates) settleFailUpdates (NewPkgFilter nSettleFailUpdates).

Definition FwdPkg_ID (f : FwdPkg) : bytes :=
  be_put 8 (ToUint64 (pkg_Source f)) ++ be_put 8 (pkg_Height f).

(** ** The database *)
Record HeightBkt := mkHeightBkt {
  addBkt : option (gmap Z LogUpdate);
  failSettleBkt : option (gmap Z LogUpdate);
  fwdFilterBytes : option bytes;
  ackFilterBytes : option bytes;
  settleFailFilterBytes : option bytes
}.

#[export] Instance HeightBkt_eta : Eta HeightBkt := fun b =>
  mkHeightBkt (addBkt b) (failSettleBkt b) (fwdFilterBytes b) (ackFilterBytes b)
    (settleFailFilterBytes b).

Abbreviation SourceBkt := (gmap Z HeightBkt).

(** [fwdPackagesKey]: the top-level bucket, absent until the first package. *)
Abbreviation fwdStore := (option (gmap Z SourceBkt)).

Definition empty_height : HeightBkt := mkHeightBkt None None None None None.

(** The bytes an [Encode] leaves in an empty buffer. *)
Definition encoded (w : Writer) : res pkgerr bytes :=
  match w [] with
  | (Ok _, b) => Ok b
  | (Err e, _) => Err (ErrPkgWire e)
  | (Panic, _) => Panic
  end.

Definition decoded {A} (r : Reader A) (b : bytes) : res pkgerr A :=
  match r b with
  | (Ok a, _) => Ok a
  | (Err e, _) => Err (ErrPkgWire e)
  | (Panic, _) => Panic
  end.

(** [putLogUpdate] for the elements of a slice, under their [uint16] indexes. *)
Fixpoint putLogUpdates (i : nat) (us : list LogUpdate) (bkt : gmap Z LogUpdate) : gmap Z LogUpdate :=
  match us with
  | [] => bkt
  | x :: rest => putLogUpdates (S i) rest (<[u16 (Z.of_nat i) := x]> bkt)
  end.

Definition key_less {A} (a b : Z * A) : bool := a.1 <? b.1.

(** [bkt.ForEach]: in the order of the keys. *)
Definition loadHtlcs (bkt : gmap Z LogUpdate) : list LogUpdate :=
  (go_sort key_less (map_to_list bkt)).*2.

Definition AddFwdPkg (fwdPkg : FwdPkg) (db : fwdStore) : res pkgerr fwdStore :=
  let fwdPkgBkt := default ∅ db in
  let source := ToUint64 (pkg_Source fwdPkg) in
  let sourceBkt := default ∅ (fwdPkgBkt !! source) in
  let heightBkt := default empty_height (sourceBkt !! pkg_Height fwdPkg) in
  ack ← encoded (PkgFilter_Encode (pkg_AckFilter fwdPkg));
  sf ← encoded (PkgFilter_Encode (pkg_SettleFailFilter fwdPkg));
  let heightBkt := heightBkt
    <| addBkt ::= fun b => Some (putLogUpdates 0 (pkg_Adds fwdPkg) (default ∅ b)) |>
    <| failSettleBkt ::= fun b => Some (putLogUpdates 0 (pkg_SettleFails fwdPkg) (default ∅ b)) |>
    <| ackFilterBytes := Some ack |>
    <| settleFailFilterBytes := Some sf |> in
  mret (Some (<[source := <[pkg_Height fwdPkg := heightBkt]> sourceBkt]> fwdPkgBkt)).

(** A key that must be present. *)
Definition need {A} (x : option A) : res pkgerr A :=
  match x with None => Err ErrCorruptedFwdPkg | Some a => Ok a end.

Definition loadFwdPkg (fwdPkgBkt : gmap Z SourceBkt) (source : ShortChannelID) (height : Z)
    : res pkgerr FwdPkg :=
  sourceBkt ← need (fwdPkgBkt !! ToUint64 source);
  heightBkt ← need (sourceBkt !! height);
  adds ← need (addBkt heightBkt);
  let adds := loadHtlcs adds in
  ackBytes ← need (ackFilterBytes heightBkt);
  ackFilter ← decoded PkgFilter_Decode ackBytes;
  failSettles ← need (failSettleBkt heightBkt);
  let failSettles := loadHtlcs failSettles in
  sfBytes ← need (settleFailFilterBytes heightBkt);
  settleFailFilter ← decoded PkgFilter_Decode sfBytes;
  match fwdFilterBytes heightBkt with
  | None =>
      mret (mkFwdPkg source height FwdStateLockedIn adds
              (NewPkgFilter (u16 (Z.of_nat (length adds)))) ackFilter failSettles settleFailFilter)
  | Some fwdBytes =>
      fwdFilter ← decoded PkgFilter_Decode fwdBytes;
      ackFull ← PkgFilter_IsFull ackFilter;
      sfFull ← (if ackFull : bool then PkgFilter_IsFull settleFailFilter else Ok false);
      mret (mkFwdPkg source height (if sfFull : bool then FwdStateCompleted else FwdStateProcessed)
              adds fwdFilter ackFilter failSettles settleFailFilter)
  end.

Fixpoint loadPkgs (fwdPkgBkt : gmap Z SourceBkt) (source : ShortChannelID) (heights : list Z)
    : res pkgerr (list FwdPkg) :=
  match heights with
  | [] => mret []
  | h :: rest =>
      p ← loadFwdPkg fwdPkgBkt source h;
      ps ← loadPkgs fwdPkgBkt source rest;
      mret (p :: ps)
  end.

Definition loadChannelFwdPkgs (db : fwdStore) (source : ShortChannelID) : res pkgerr (list FwdPkg) :=
  match db with
  | None => mret []
  | Some fwdPkgBkt =>
      match fwdPkgBkt !! ToUint64 source with
      | None => mret []
      | Some sourceBkt =>
          loadPkgs fwdPkgBkt source (go_sort key_less (map_to_list sourceBkt)).*1
      end
  end.

Definition SetFwdFilter (source : ShortChannelID) (height : Z) (fwdFilter : PkgFilter)
    (db : fwdStore) : res pkgerr fwdStore :=
  fwdPkgBkt ← need db;
  sourceBkt ← need (fwdPkgBkt !! ToUint64 source);
  heightBkt ← need (sourceBkt !! height);
  match fwdFilterBytes heightBkt with
  | Some _ => mret db
  | None =>
      b ← encoded (PkgFilter_Encode fwdFilter);
      mret (Some (<[ToUint64 source :=
        <[height := heightBkt <| fwdFilterBytes := Some b |>]> sourceBkt]> fwdPkgBkt))
  end.

Fixpoint set_all (f : PkgFilter) (indexes : list Z) : res pkgerr PkgFilter :=
  match indexes with
  | [] => mret f
  | i :: rest => f ← PkgFilter_Set f i; set_all f rest
  end.

(** Decodes a stored filter, sets the indexes and encodes it again. *)
Definition update_filter (stored : option bytes) (indexes : list Z) : res pkgerr bytes :=
  b ← need stored;
  f ← decoded PkgFilter_Decode b;
  f ← set_all f indexes;
  encoded (PkgFilter_Encode f).

Definition ackAddHtlcsAtHeight (sourceBkt : SourceBkt) (height : Z) (indexes : list Z)
    : res pkgerr SourceBkt :=
  match sourceBkt !! height with
  | None => mret sourceBkt
  | Some heightBkt =>
      b ← update_filter (ackFilterBytes heightBkt) indexes;
      mret (<[height := heightBkt <| ackFilterBytes := Some b |>]> sourceBkt)
  end.

Definition ackSettleFailsAtHeight (destBkt : SourceBkt) (height : Z) (indexes : list Z)
    : res pkgerr SourceBkt :=
  match destBkt !! height with
  | None => mret destBkt
  | Some heightBkt =>
      b ← update_filter (settleFailFilterBytes heightBkt) indexes;
      mret (<[height := heightBkt <| settleFailFilterBytes := Some b |>]> destBkt)
  end.

(** The indexes of each height; Go iterates over this map in any order, here in
    the one of [map_to_list]. *)
Fixpoint heightDiffs (refs : list (Z * Z)) : gmap Z (list Z) :=
  match refs with
  | [] => ∅
  | (h, i) :: rest => let m := heightDiffs rest in <[h := i :: default [] (m !! h)]> m
  end.

Fixpoint ack_heights (ack : SourceBkt -> Z -> list Z -> res pkgerr SourceBkt)
    (bkt : SourceBkt) (diffs : list (Z * list Z)) : res pkgerr SourceBkt :=
  match diffs with
  | [] => mret bkt
  | (h, indexes) :: rest => bkt ← ack bkt h indexes; ack_heights ack bkt rest
  end.

Definition AckAddHtlcs (source : ShortChannelID) (addRefs : list AddRef) (db : fwdStore)
    : res pkgerr fwdStore :=
  match addRefs with
  | [] => mret db
  | _ =>
      fwdPkgBkt ← need db;
      sourceBkt ← need (fwdPkgBkt !! ToUint64 source);
      sourceBkt ← ack_heights ackAddHtlcsAtHeight sourceBkt
        (map_to_list (heightDiffs ((fun r => (ar_Height r, ar_Index r)) <$> addRefs)));
      mret (Some (<[ToUint64 source := sourceBkt]> fwdPkgBkt))
  end.

(** The references of each destination, keyed as the database keys them. *)
Fixpoint destHeightDiffs (refs : list SettleFailRef) : gmap Z (list (Z * Z)) :=
  match refs with
  | [] => ∅
  | r :: rest =>
      let m := destHeightDiffs rest in
      let dest := ToUint64 (sr_Source r) in
      <[dest := (sr_Height r, sr_Index r) :: default [] (m !! dest)]> m
  end.

Fixpoint ack_dests (fwdPkgBkt : gmap Z SourceBkt) (diffs : list (Z * list (Z * Z)))
    : res pkgerr (gmap Z SourceBkt) :=
  match diffs with
  | [] => mret fwdPkgBkt
  | (dest, refs) :: rest =>
      match fwdPkgBkt !! dest with
      | None => ack_dests fwdPkgBkt rest
      | Some destBkt =>
          destBkt ← ack_heights ackSettleFailsAtHeight destBkt (map_to_list (heightDiffs refs));
          ack_dests (<[dest := destBkt]> fwdPkgBkt) rest
      end
  end.

Definition ackSettleFails (settleFailRefs : list SettleFailRef) (db : fwdStore)
    : res pkgerr fwdStore :=
  match settleFailRefs with
  | [] => mret db
  | _ =>
      fwdPkgBkt ← need db;
      fwdPkgBkt ← ack_dests fwdPkgBkt (map_to_list (destHeightDiffs settleFailRefs));
      mret (Some fwdPkgBkt)
  end.

(** [DeleteNestedBucket] of an absent bucket is an error of the key-value store. *)
Definition RemovePkg (source : ShortChannelID) (height : Z) (db : fwdStore) : res pkgerr fwdStore :=
  match db with
  | None => mret db
  | Some fwdPkgBkt =>
      sourceBkt ← need (fwdPkgBkt !! ToUint64 source);
      match sourceBkt !! height with
      | None => Err ErrBucketNotFound
      | Some _ => mret (Some (<[ToUint64 source := delete height sourceBkt]> fwdPkgBkt))
      end
  end.

Definition Wipe (source : ShortChannelID) (db : fwdStore) : res pkgerr fwdStore :=
  match db with
  | None => mret db
  | Some fwdPkgBkt =>
      match fwdPkgBkt !! ToUint64 source with
      | None => mret db
      | Some _ => mret (Some (delete (ToUint64 source) fwdPkgBkt))
      end
  end.

(** ** The filter as a set of indexes *)
Definition filter_ok (f : PkgFilter) : Prop :=
  0 <= count f <= 65528 /\ length (filter_bits f) = Z.to_nat ((count f + 7) / 8).

(** Bit [i] of a byte string, most significant first. *)
Definition bit_at (b : bytes) (i : Z) : bool :=
  match b !! Z.to_nat (i / 8) with
  | None => false
  | Some x => Z.testbit (byte.unsigned x) (7 - i mod 8)
  end.

Lemma land_shiftl1 x k : 0 <= k -> negb (Z.land x (Z.shiftl 1 k) =? 0) = Z.testbit x k.
Proof.
  intros Hk. rewrite Z.shiftl_1_l.
  assert (Z.land x (2 ^ k) = Z.b2z (Z.testbit x k) * 2 ^ k) as ->.
  { apply Z.bits_inj'. intros n Hn. rewrite Z.land_spec, Z.pow2_bits_eqb by done.
    destruct (Z.eqb_spec k n) as [->|Hne].
    - rewrite andb_true_r. destruct (Z.testbit x n); cbn [Z.b2z].
      + by rewrite Z.mul_1_l, Z.pow2_bits_true by lia.
      + by rewrite Z.mul_0_l, Z.bits_0.
    - rewrite andb_false_r. destruct (Z.testbit x k); cbn [Z.b2z]; rewrite ?Z.mul_1_l, ?Z.mul_0_l.
      + by rewrite Z.pow2_bits_false by congruence.
      + by rewrite Z.bits_0. }
  destruct (Z.testbit x k); cbn [Z.b2z]; [|done].
  rewrite Z.mul_1_l. pose proof (Z.pow_pos_nonneg 2 k ltac:(lia) Hk).
  by destruct (Z.eqb_spec (2 ^ k) 0); [lia|].
Qed.

Lemma u16_count f : filter_ok f -> u16 (count f + 7) = count f + 7.
Proof. intros [? _]. apply uwrap_id. unfold is_uint. lia. Qed.

Lemma filter_byte f i : filter_ok f -> 0 <= i < count f ->
  exists b, filter_bits f !! Z.to_nat (i / 8) = Some b.
Proof.
  intros [Hc Hl] Hi. apply lookup_lt_is_Some. rewrite Hl.
  pose proof (Z.mod_pos_bound (count f + 7) 8 ltac:(lia)).
  pose proof (Z.div_mod (count f + 7) 8 ltac:(lia)).
  assert (i / 8 < (count f + 7) / 8) by (apply Z.div_lt_upper_bound; lia).
  assert (0 <= i / 8) by (apply Z.div_pos; lia). lia.
Qed.

Lemma Contains_bit {E} f i : filter_ok f -> 0 <= i < count f ->
  @PkgFilter_Contains E f i = Ok (bit_at (filter_bits f) i).
Proof.
  intros Hf Hi. destruct (filter_byte f i Hf Hi) as [b Hb].
  unfold PkgFilter_Contains, bit_at. rewrite Hb, land_shiftl1; [done|].
  pose proof (Z.mod_pos_bound i 8). lia.
Qed.

Lemma byte_of_Z_unsigned z : is_uint 8 z -> byte.unsigned (byte.of_Z z) = z.
Proof. intros H. rewrite byte.unsigned_of_Z. unfold byte.wrap. apply Z.mod_small, H. Qed.

Lemma lor_bit_range x k : is_uint 8 x -> 0 <= k < 8 -> is_uint 8 (Z.lor x (Z.shiftl 1 k)).
Proof.
  intros Hx Hk. unfold is_uint in *. rewrite Z.shiftl_1_l.
  assert (0 <= Z.lor x (2 ^ k)) by (apply Z.lor_nonneg; split; [lia|apply Z.pow_nonneg; lia]).
  split; [done|]. assert (2 ^ k < 2 ^ 8) by (apply Z.pow_lt_mono_r; lia).
  destruct (decide (Z.lor x (2 ^ k) = 0)) as [->|Hn]; [lia|].
  apply Z.log2_lt_pow2; [lia|]. rewrite Z.log2_lor by (try apply Z.pow_nonneg; lia).
  rewrite Z.log2_pow2 by lia.
  destruct (decide (x = 0)) as [->|]; [cbn; lia|]. assert (Z.log2 x < 8) by (apply Z.log2_lt_pow2; lia). lia.
Qed.

Lemma Set_bit {E} f i : filter_ok f -> 0 <= i < count f ->
  exists f', @PkgFilter_Set E f i = Ok f' /\ filter_ok f' /\ count f' = count f /\
    forall j, 0 <= j < count f -> bit_at (filter_bits f') j = bit_at (filter_bits f) j || (i =? j).
Proof.
  intros Hf Hi. destruct (filter_byte f i Hf Hi) as [b Hb].
  pose proof (byte.unsigned_range b) as Hr. pose proof (Z.mod_pos_bound i 8 ltac:(lia)) as Hm.
  unfold PkgFilter_Set. rewrite Hb. eexists. split; [done|]. cbn [count filter_bits].
  split; [|split; [done|]].
  { destruct Hf. split; cbn; [done|]. by rewrite length_insert. }
  intros j Hj. pose proof (Z.mod_pos_bound j 8 ltac:(lia)) as Hmj. unfold bit_at.
  pose proof (Z.div_mod i 8). pose proof (Z.div_mod j 8).
  assert (0 <= i / 8) by (apply Z.div_pos; lia). assert (0 <= j / 8) by (apply Z.div_pos; lia).
  destruct (decide (i / 8 = j / 8)) as [Hd|Hd].
  - rewrite <- Hd, list_lookup_insert_eq, Hb by (by eapply lookup_lt_Some).
    rewrite byte_of_Z_unsigned by (apply lor_bit_range; unfold is_uint; lia).
    rewrite Z.lor_spec, Z.shiftl_1_l, Z.pow2_bits_eqb by lia. f_equal.
    destruct (Z.eqb_spec (7 - i mod 8) (7 - j mod 8)), (Z.eqb_spec i j); try done; subst; lia.
  - rewrite list_lookup_insert_ne by lia. destruct (Z.eqb_spec i j); [congruence|].
    by rewrite orb_false_r.
Qed.

Lemma all_res_ok {E A} (f : A -> res E bool) (g : A -> bool) l :
  (forall x, x ∈ l -> f x = Ok (g x)) -> all_res f l = Ok (forallb g l).
Proof.
  induction l as [|x l IH]; intros H; [done|]. cbn [all_res]. rewrite H by (by left).
  rewrite res_bind_Ok_l. cbn. destruct (g x); [|done]. apply IH. intros y Hy. apply H. by right.
Qed.

Lemma byte_full b : byte.unsigned b = 255 <->
  forall k, 0 <= k < 8 -> Z.testbit (byte.unsigned b) (7 - k) = true.
Proof.
  split; [intros -> k Hk; assert (Hc : k = 0 \/ k = 1 \/ k = 2 \/ k = 3 \/ k = 4 \/ k = 5 \/ k = 6 \/ k = 7) by lia;
    by destruct Hc as [->|[->|[->|[->|[->|[->|[->| ->]]]]]]]|].
  intros H. pose proof (byte.unsigned_range b) as Hr. change 255 with (Z.ones 8).
  apply Z.bits_inj'. intros n Hn. destruct (decide (n < 8)).
  - rewrite Z.ones_spec_low by lia. rewrite <- (H (7 - n)) by lia. f_equal. lia.
  - rewrite Z.ones_spec_high by lia.
    destruct (decide (byte.unsigned b = 0)) as [->|]; [apply Z.bits_0|].
    apply Z.bits_above_log2; [lia|]. assert (Z.log2 (byte.unsigned b) < 8) by (apply Z.log2_lt_pow2; lia). lia.
Qed.

Lemma filter_byte_nat f (i : nat) : filter_ok f -> (i < Z.to_nat (count f / 8))%nat ->
  exists b, filter_bits f !! i = Some b.
Proof.
  intros Hf Hi. pose proof Hf as [Hc Hl]. pose proof (Z.div_mod (count f) 8 ltac:(lia)).
  pose proof (Z.mod_pos_bound (count f) 8 ltac:(lia)).
  assert (0 <= count f / 8) by (apply Z.div_pos; lia).
  destruct (filter_byte f (8 * Z.of_nat i) Hf) as [b Hb]; [lia|].
  exists b. rewrite <- Hb. f_equal. rewrite Z.mul_comm, Z.div_mul by lia. lia.
Qed.

Definition full_byte (f : PkgFilter) (i : nat) : bool :=
  byte.unsigned (default Byte.x00 (filter_bits f !! i)) =? 255.

(** The byte-wise part of [IsFull]. *)
Lemma full_bytes_iff f : filter_ok f ->
  forallb (full_byte f) (seq 0 (Z.to_nat (count f / 8))) = true <->
  forall i, 0 <= i < 8 * (count f / 8) -> bit_at (filter_bits f) i = true.
Proof.
  intros Hf. rewrite forallb_forall. unfold full_byte, bit_at. split; intros H i Hi.
  - assert (Hin : (Z.to_nat (i / 8) < Z.to_nat (count f / 8))%nat).
    { assert (i / 8 < count f / 8) by (apply Z.div_lt_upper_bound; lia).
      assert (0 <= i / 8) by (apply Z.div_pos; lia). lia. }
    specialize (H (Z.to_nat (i / 8))). rewrite in_seq in H. specialize (H ltac:(lia)).
    destruct (filter_byte_nat f _ Hf Hin) as [b Hb].
    rewrite Hb in H |- *. cbn in H. apply Z.eqb_eq in H.
    pose proof (Z.mod_pos_bound i 8 ltac:(lia)). by apply byte_full.
  - apply in_seq in Hi. destruct (filter_byte_nat f i Hf ltac:(lia)) as [b Hb]. rewrite Hb. cbn.
    apply Z.eqb_eq, byte_full. intros k Hk.
    specialize (H (8 * Z.of_nat i + k) ltac:(lia)).
    rewrite Z.mul_comm, Z.div_add_l, Z.div_small, Z.add_0_r, Nat2Z.id, Hb in H by lia.
    rewrite Z.add_comm, Z.mod_add, Z.mod_small in H by lia. done.
Qed.

Lemma IsFull_iff {E} f : filter_ok f ->
  exists r, @PkgFilter_IsFull E f = Ok r /\
    (r = true <-> forall i, 0 <= i < count f -> bit_at (filter_bits f) i = true).
Proof.
  intros Hf. pose proof Hf as [Hc _]. pose proof (Z.div_mod (count f) 8 ltac:(lia)) as Hdm.
  pose proof (Z.mod_pos_bound (count f) 8 ltac:(lia)) as Hm.
  pose proof (full_bytes_iff f Hf) as Hfull. unfold PkgFilter_IsFull.
  rewrite (all_res_ok _ (full_byte f)).
  2:{ intros i Hi. apply elem_of_seq in Hi. unfold full_byte.
      by destruct (filter_byte_nat f i Hf ltac:(lia)) as [b ->]. }
  rewrite res_bind_Ok_l. destruct (forallb _ _) eqn:Efull.
  - rewrite (all_res_ok _ (bit_at (filter_bits f))).
    2:{ intros i Hi. apply elem_of_seqZ in Hi. apply Contains_bit; [done|lia]. }
    eexists. split; [done|]. rewrite forallb_forall. split; intros H i Hi.
    + destruct (decide (i < 8 * (count f / 8))); [apply Hfull; [done|lia]|].
      apply H, list_elem_of_In, elem_of_seqZ. lia.
    + apply H. apply list_elem_of_In, elem_of_seqZ in Hi. lia.
  - exists false. split; [done|]. split; [done|]. intros H. apply Hfull.
    intros i Hi. apply H. lia.
Qed.

Lemma NewPkgFilter_ok n : 0 <= n <= 65528 -> filter_ok (NewPkgFilter n) /\
  count (NewPkgFilter n) = n /\ forall i, bit_at (filter_bits (NewPkgFilter n)) i = false.
Proof.
  intros Hn. assert (Hu : u16 (n + 7) = n + 7) by (apply uwrap_id; unfold is_uint; lia).
  unfold NewPkgFilter. rewrite Hu. split; [split; cbn; [done|apply length_replicate]|].
  split; [done|]. intros i. unfold bit_at. cbn.
  destruct (replicate _ _ !! _) as [b|] eqn:Hb; [|done].
  apply lookup_replicate in Hb as [-> _]. apply Z.bits_0.
Qed.

Lemma writes_filter f : writes (PkgFilter_Encode f) (be_put 2 (count f) ++ filter_bits f).
Proof. apply writes_bind; apply writes_bytes. Qed.

Lemma reads_filter f : filter_ok f ->
  reads PkgFilter_Decode (be_put 2 (count f) ++ filter_bits f) f.
Proof.
  intros Hf. pose proof Hf as [Hc Hl].
  eapply reads_bind; [apply reads_uint16; unfold is_uint; lia|].
  eapply (reads_bind_nil _ _ _ (filter_bits f) f); [|destruct f; apply reads_ret].
  apply reads_full. rewrite Hl. unfold PkgFilter_Size. cbn [count]. rewrite (u16_count f Hf).
  assert (0 <= (count f + 7) / 8 < 65530) by (split; [apply Z.div_pos; lia|apply Z.div_lt_upper_bound; lia]).
  rewrite (uwrap_id 16 (2 + _)) by (unfold is_uint; lia).
  rewrite uwrap_id by (unfold is_uint; lia). f_equal. lia.
Qed.

(** A well-sized filter is a set of indexes below its count: [Set] adds
    exactly its index, [Contains] never panics there, [IsFull] says exactly
    whether every index is in, and decoding an encoded filter gives it back. *)
Theorem pkg_filter_correct (f : PkgFilter) (i : Z) (buf rest : bytes) :
  filter_ok f -> 0 <= i < count f ->
  (exists f', @PkgFilter_Set pkgerr f i = Ok f' /\ filter_ok f' /\ count f' = count f /\
    forall j, 0 <= j < count f -> exists b, @PkgFilter_Contains pkgerr f j = Ok b /\
      @PkgFilter_Contains pkgerr f' j = Ok (b || (i =? j))) /\
  (exists full, @PkgFilter_IsFull pkgerr f = Ok full /\
    (full = true <-> forall j, 0 <= j < count f -> @PkgFilter_Contains pkgerr f j = Ok true)) /\
  (exists bs, PkgFilter_Encode f buf = (Ok tt, buf ++ bs) /\
    PkgFilter_Decode (bs ++ rest) = (Ok f, rest)).
Proof.
  intros Hf Hi. split; [|split].
  - destruct (@Set_bit pkgerr f i Hf Hi) as (f' & Hs & Hf' & Hc & Hbit).
    exists f'. split; [done|split; [done|split; [done|]]]. intros j Hj.
    eexists. split; [by apply Contains_bit|]. rewrite Contains_bit by (rewrite ?Hc; done).
    by rewrite Hbit.
  - destruct (@IsFull_iff pkgerr f Hf) as (r & Hr & Hiff). exists r. split; [done|].
    rewrite Hiff. split; intros H j Hj; specialize (H j Hj).
    + rewrite Contains_bit by done. by rewrite H.
    + rewrite Contains_bit in H by done. by injection H.
  - eexists. split; [apply writes_filter|by apply reads_filter].
Qed.

Lemma pkg_filter_correct_witness :
  exists f', @PkgFilter_Set pkgerr (NewPkgFilter 10) 9 = Ok f' /\
    @PkgFilter_Contains pkgerr f' 9 = Ok true /\ @PkgFilter_Contains pkgerr f' 8 = Ok false.
Proof.
  destruct (pkg_filter_correct (NewPkgFilter 10) 9 [] [] ) as ((f' & Hs & _ & _ & Hc) & _).
  - by apply NewPkgFilter_ok.
  - cbn; lia.
  - exists f'. split; [done|].
    destruct (Hc 9) as (b & Hb & ->); [cbn; lia|]. destruct (Hc 8) as (b' & Hb' & ->); [cbn; lia|].
    vm_compute in Hb, Hb'. injection Hb as <-. injection Hb' as <-. done.
Defined.

(** ** Stored packages *)

(** The stored bytes are those of the well-sized filter [f]. *)
Definition stored (bs : option bytes) (f : PkgFilter) : Prop :=
  bs = Some (be_put 2 (count f) ++ filter_bits f) /\ filter_ok f.

(** The bucket [b] of a height holds a package with these log updates and
    filters, [fwd] being its forwarding decision if there is one. *)
Record holds (b : HeightBkt) (adds sfs : list LogUpdate) (fwd : option PkgFilter)
    (ack sf : PkgFilter) : Prop := {
  ho_adds : loadHtlcs <$> addBkt b = Some adds;
  ho_sfs : loadHtlcs <$> failSettleBkt b = Some sfs;
  ho_fwd : match fwd with Some f => stored (fwdFilterBytes b) f | None => fwdFilterBytes b = None end;
  ho_ack : stored (ackFilterBytes b) ack;
  ho_sf : stored (settleFailFilterBytes b) sf;
  ho_ack_count : count ack = Z.of_nat (length adds);
  ho_sf_count : count sf = Z.of_nat (length sfs)
}.

Definition all_set (f : PkgFilter) : Prop :=
  forall i, 0 <= i < count f -> bit_at (filter_bits f) i = true.

Lemma decoded_stored bs f : stored bs f -> exists b, bs = Some b /\ decoded PkgFilter_Decode b = Ok f.
Proof.
  intros [-> Hf]. eexists. split; [done|]. unfold decoded.
  pose proof (reads_filter f Hf []) as H. rewrite app_nil_r in H. by rewrite H.
Qed.

Lemma encoded_filter f : encoded (PkgFilter_Encode f) = Ok (be_put 2 (count f) ++ filter_bits f).
Proof. unfold encoded. by rewrite (writes_filter f []). Qed.

(** What a load returns for a stored package, its state included. *)
Lemma loadFwdPkg_holds B bkt src h b adds sfs fwd ack sf :
  B !! ToUint64 src = Some bkt -> bkt !! h = Some b -> holds b adds sfs fwd ack sf ->
  exists p, loadFwdPkg B src h = Ok p /\ pkg_Source p = src /\ pkg_Height p = h /\
    pkg_Adds p = adds /\ pkg_SettleFails p = sfs /\ pkg_AckFilter p = ack /\
    pkg_SettleFailFilter p = sf /\
    pkg_FwdFilter p = default (NewPkgFilter (u16 (Z.of_nat (length adds)))) fwd /\
    (pkg_State p = FwdStateLockedIn <-> fwd = None) /\
    (pkg_State p = FwdStateCompleted <-> fwd <> None /\ all_set ack /\ all_set sf).
Proof.
  intros HB Hb [Ha Hs Hfwd Hack Hsf _ _].
  apply fmap_Some in Ha as (a & Ha & ->). apply fmap_Some in Hs as (s & Hs & ->).
  destruct (decoded_stored _ _ Hack) as (ba & Hba & Hda).
  destruct (decoded_stored _ _ Hsf) as (bs & Hbs & Hds).
  unfold loadFwdPkg. rewrite HB. cbn [need]. rewrite res_bind_Ok_l, Hb. cbn [need].
  rewrite res_bind_Ok_l, Ha. cbn [need]. rewrite res_bind_Ok_l, Hba. cbn [need].
  rewrite res_bind_Ok_l, Hda, res_bind_Ok_l, Hs. cbn [need].
  rewrite res_bind_Ok_l, Hbs. cbn [need]. rewrite res_bind_Ok_l, Hds, res_bind_Ok_l.
  destruct fwd as [f|].
  - destruct (decoded_stored _ _ Hfwd) as (bf & Hbf & Hdf). rewrite Hbf, Hdf, res_bind_Ok_l.
    destruct (@IsFull_iff pkgerr ack (proj2 Hack)) as (r & -> & Hr). rewrite res_bind_Ok_l.
    destruct (@IsFull_iff pkgerr sf (proj2 Hsf)) as (r' & Hr'eq & Hr').
    change (forall i, 0 <= i < count ack -> bit_at (filter_bits ack) i = true) with (all_set ack) in Hr.
    change (forall i, 0 <= i < count sf -> bit_at (filter_bits sf) i = true) with (all_set sf) in Hr'.
    destruct r; [rewrite Hr'eq|]; rewrite res_bind_Ok_l; eexists; (split; [done|]); cbn;
      (do 7 (split; [done|])); [destruct r'|]; split; naive_solver.
  - rewrite Hfwd. eexists. split; [done|]. cbn. do 7 (split; [done|]). split; naive_solver.
Qed.

(** A slice written under its indexes reads back as it was. *)
Lemma key_less_trans {A} (a b c : Z * A) :
  key_less a b = false -> key_less b c = false -> key_less a c = false.
Proof. unfold key_less. rewrite !Z.ltb_ge. lia. Qed.

Lemma key_less_asym {A} (a b : Z * A) : key_less a b = true -> key_less b a = false.
Proof. unfold key_less. rewrite Z.ltb_lt, Z.ltb_ge. lia. Qed.

Definition indexed (i : nat) (us : list LogUpdate) : list (Z * LogUpdate) :=
  imap (fun k x => (Z.of_nat (i + k), x)) us.

Lemma indexed_cons i x us : indexed i (x :: us) = (Z.of_nat i, x) :: indexed (S i) us.
Proof.
  unfold indexed. cbn. rewrite Nat.add_0_r. f_equal. apply imap_ext. intros k y _.
  unfold compose. f_equal. f_equal. lia.
Qed.

Lemma elem_of_indexed i us k x : (k, x) ∈ indexed i us <-> 
  Z.of_nat i <= k /\ us !! Z.to_nat (k - Z.of_nat i) = Some x.
Proof.
  unfold indexed. rewrite list_elem_of_lookup. setoid_rewrite list_lookup_imap. split.
  - intros (j & Hj). apply fmap_Some in Hj as (y & Hy & He). injection He as -> ->.
    split; [lia|]. by replace (Z.to_nat _) with j by lia.
  - intros [Hk Hx]. exists (Z.to_nat (k - Z.of_nat i)). rewrite Hx. cbn. do 2 f_equal. lia.
Qed.

Lemma sorted_indexed i us : StronglySorted (not_after key_less) (indexed i us).
Proof.
  revert i. induction us as [|x us IH]; intros i; [constructor|]. rewrite indexed_cons.
  constructor; [apply IH|]. apply list.Forall_forall. intros [k y] Hin%elem_of_indexed.
  unfold not_after, key_less. cbn. apply Z.ltb_ge. lia.
Qed.

Lemma indexed_snd i us : (indexed i us).*2 = us.
Proof. revert i. induction us as [|x us IH]; intros i; [done|]. rewrite indexed_cons. cbn. by rewrite IH. Qed.

Lemma putLogUpdates_map i us : (Z.of_nat (i + length us) <= 2 ^ 16) ->
  forall m, (forall k, Z.of_nat i <= k -> m !! k = None) ->
  map_to_list (putLogUpdates i us m) ≡ₚ indexed i us ++ map_to_list m.
Proof.
  revert i. induction us as [|x us IH]; intros i Hi m Hm; [done|].
  cbn [putLogUpdates]. cbn [length] in Hi. rewrite indexed_cons, IH by
    (try lia; intros k Hk; rewrite uwrap_id by (unfold is_uint; lia);
     rewrite lookup_insert_ne by lia; apply Hm; lia).
  rewrite uwrap_id by (unfold is_uint; lia).
  rewrite map_to_list_insert by (apply Hm; lia).
  cbn. by rewrite <- Permutation_middle.
Qed.

Lemma load_put us : Z.of_nat (length us) <= 2 ^ 16 -> loadHtlcs (putLogUpdates 0 us ∅) = us.
Proof.
  intros Hl. unfold loadHtlcs.
  assert (go_sort key_less (map_to_list (putLogUpdates 0 us ∅)) = indexed 0 us) as ->.
  { apply (StronglySorted_unique_strong (not_after key_less)).
    - intros [k x] [k' x'] Hin Hin' H1 H2.
      rewrite go_sort_perm, putLogUpdates_map, map_to_list_empty, app_nil_r in Hin by done.
      apply elem_of_indexed in Hin as [? Hx]. apply elem_of_indexed in Hin' as [? Hx'].
      unfold not_after, key_less in H1, H2. cbn in H1, H2. apply Z.ltb_ge in H1, H2.
      assert (k = k') as -> by lia. congruence.
    - apply go_sort_sorted; [apply key_less_asym|apply key_less_trans].
    - apply sorted_indexed.
    - by rewrite go_sort_perm, putLogUpdates_map, map_to_list_empty, app_nil_r by done. }
  apply indexed_snd.
Qed.

(** ** Adding a package *)

(** Loading a package from the whole database. *)
Definition load (db : fwdStore) (source : ShortChannelID) (height : Z) : res pkgerr FwdPkg :=
  match db with Some B => loadFwdPkg B source height | None => Err ErrCorruptedFwdPkg end.

Definition source_bkt (db : fwdStore) (source : Z) : SourceBkt := default ∅ (default ∅ db !! source).

Lemma load_source db src h :
  load db src h = match source_bkt db (ToUint64 src) !! h with
                  | None => Err ErrCorruptedFwdPkg
                  | Some b => loadFwdPkg {[ToUint64 src := {[h := b]}]} src h
                  end.
Proof.
  unfold load, source_bkt, loadFwdPkg. destruct db as [B|]; cbn [from_option id]; [|by rewrite !lookup_empty].
  destruct (B !! ToUint64 src) as [bkt|]; cbn [need from_option id].
  - rewrite !res_bind_Ok_l. destruct (bkt !! h) as [b|]; cbn [need]; [|done].
    rewrite lookup_singleton_eq. cbn [need]. rewrite !res_bind_Ok_l, lookup_singleton_eq. done.
  - by rewrite lookup_empty.
Qed.

Lemma load_other db db' src h :
  source_bkt db' (ToUint64 src) !! h = source_bkt db (ToUint64 src) !! h ->
  load db' src h = load db src h.
Proof. intros H. by rewrite !load_source, H. Qed.

Lemma source_bkt_insert B s s' bkt :
  source_bkt (Some (<[s := bkt]> B)) s' = if decide (s = s') then bkt else source_bkt (Some B) s'.
Proof.
  unfold source_bkt. cbn. case_decide as Hs; subst.
  - by rewrite lookup_insert_eq.
  - by rewrite lookup_insert_ne.
Qed.

Lemma load_holds db src h b adds sfs fwd ack sf :
  source_bkt db (ToUint64 src) !! h = Some b -> holds b adds sfs fwd ack sf ->
  exists p, load db src h = Ok p /\ pkg_Source p = src /\ pkg_Height p = h /\
    pkg_Adds p = adds /\ pkg_SettleFails p = sfs /\ pkg_AckFilter p = ack /\
    pkg_SettleFailFilter p = sf /\
    pkg_FwdFilter p = default (NewPkgFilter (u16 (Z.of_nat (length adds)))) fwd /\
    (pkg_State p = FwdStateLockedIn <-> fwd = None) /\
    (pkg_State p = FwdStateCompleted <-> fwd <> None /\ all_set ack /\ all_set sf).
Proof.
  intros Hb Hh. rewrite load_source, Hb. eapply loadFwdPkg_holds; [|apply lookup_singleton_eq|done].
  apply lookup_singleton_eq.
Qed.

Definition short (us : list LogUpdate) : Prop := Z.of_nat (length us) <= 65528.

Lemma new_filter_ok us : short us -> filter_ok (NewPkgFilter (u16 (Z.of_nat (length us)))) /\
  count (NewPkgFilter (u16 (Z.of_nat (length us)))) = Z.of_nat (length us).
Proof.
  unfold short. intros H. rewrite uwrap_id by (unfold is_uint; lia).
  destruct (NewPkgFilter_ok (Z.of_nat (length us))) as (? & ? & _); [lia|done].
Qed.

Lemma new_height_holds adds sfs h b : short adds -> short sfs ->
  b = empty_height
      <| addBkt := Some (putLogUpdates 0 adds ∅) |>
      <| failSettleBkt := Some (putLogUpdates 0 sfs ∅) |>
      <| ackFilterBytes := Some (be_put 2 (count (pkg_AckFilter (NewFwdPkg h 0 adds sfs))) ++
                                  filter_bits (pkg_AckFilter (NewFwdPkg h 0 adds sfs))) |>
      <| settleFailFilterBytes := Some (be_put 2 (count (pkg_SettleFailFilter (NewFwdPkg h 0 adds sfs))) ++
                                  filter_bits (pkg_SettleFailFilter (NewFwdPkg h 0 adds sfs))) |> ->
  holds b adds sfs None (NewPkgFilter (u16 (Z.of_nat (length adds))))
    (NewPkgFilter (u16 (Z.of_nat (length sfs)))).
Proof.
  unfold short. intros Ha Hs ->. destruct (new_filter_ok adds Ha), (new_filter_ok sfs Hs).
  split; cbn; try done; f_equal; apply load_put; lia.
Qed.

(** A new package written at a height without one is read back unchanged
    (the log updates in their order, no filter bit set, [FwdStateLockedIn]),
    and no other package is touched. *)
Theorem fwd_pkg_roundtrip (db : fwdStore) (source : ShortChannelID) (height : Z)
    (adds settleFails : list LogUpdate) :
  short adds -> short settleFails -> source_bkt db (ToUint64 source) !! height = None ->
  exists db', AddFwdPkg (NewFwdPkg source height adds settleFails) db = Ok db' /\
    load db' source height = Ok (NewFwdPkg source height adds settleFails) /\
    forall source' height', (ToUint64 source', height') <> (ToUint64 source, height) ->
      load db' source' height' = load db source' height'.
Proof.
  intros Ha Hs Hnone. unfold AddFwdPkg. rewrite !encoded_filter, !res_bind_Ok_l.
  cbn [pkg_Source pkg_Height NewFwdPkg].
  assert (Hnone' : default ∅ (default ∅ db !! ToUint64 source) !! height = None) by exact Hnone.
  rewrite Hnone'. cbn [default].
  eexists. split; [reflexivity|]. split.
  - edestruct load_holds as (p & Hp & H1 & H2 & H3 & H4 & H5 & H6 & H7 & H8 & _).
    + rewrite source_bkt_insert, decide_True by done. apply lookup_insert_eq.
    + apply (new_height_holds adds settleFails source); [done|done|reflexivity].
    + rewrite Hp. destruct p; cbn in *; subst. unfold NewFwdPkg. by rewrite (proj2 H8 eq_refl).
  - intros src' h' Hne. apply load_other. rewrite source_bkt_insert.
    case_decide as He; [|by destruct db].
    rewrite lookup_insert_ne by (intros ->; apply Hne; congruence). by rewrite <- He.
Qed.

Definition sample_add : LogUpdate := mkLogUpdate 4 (UMFee (mkUpdateFee [] 0 253 [])).
Definition sample_fail : LogUpdate := mkLogUpdate 5 (UMFail (mkUpdateFailHTLC [] 7 [] [])).

Lemma fwd_pkg_roundtrip_witness :
  exists db', AddFwdPkg (NewFwdPkg scid_example 3 [sample_add; sample_add] [sample_fail]) None = Ok db' /\
    load db' scid_example 3 = Ok (NewFwdPkg scid_example 3 [sample_add; sample_add] [sample_fail]).
Proof.
  destruct (fwd_pkg_roundtrip None scid_example 3 [sample_add; sample_add] [sample_fail])
    as (db' & H & Hl & _); [done|done|done|].
  exists db'. split; [exact H|exact Hl].
Defined.

(** ** Acknowledging *)
Lemma set_all_ok f idx : filter_ok f -> Forall (fun i => 0 <= i < count f) idx ->
  exists f', set_all f idx = Ok f' /\ filter_ok f' /\ count f' = count f /\
    forall j, 0 <= j < count f ->
      bit_at (filter_bits f') j = bit_at (filter_bits f) j || bool_decide (j ∈ idx).
Proof.
  revert f. induction idx as [|i idx IH]; intros f Hf Hidx.
  { exists f. do 3 (split; [done|]). intros j _. rewrite bool_decide_eq_false_2 by apply not_elem_of_nil.
    by rewrite orb_false_r. }
  apply Forall_cons_iff in Hidx as [Hi Hidx]. cbn [set_all].
  destruct (@Set_bit pkgerr f i Hf Hi) as (f1 & -> & Hf1 & Hc1 & Hb1). rewrite res_bind_Ok_l.
  destruct (IH f1 Hf1) as (f' & -> & Hf' & Hc' & Hb'); [by rewrite Hc1|].
  exists f'. split; [done|split; [done|split; [congruence|]]]. intros j Hj.
  rewrite Hb', Hb1, <- orb_assoc by (rewrite ?Hc1; done). f_equal.
  destruct (Z.eqb_spec i j) as [->|Hne]; cbn [orb].
  - symmetry. apply bool_decide_eq_true_2. by left.
  - apply bool_decide_ext. rewrite elem_of_cons. split; [by right|]. by intros [->|].
Qed.

Definition acked (f : PkgFilter) (idx : list Z) (f' : PkgFilter) : Prop :=
  count f' = count f /\ forall j, 0 <= j < count f ->
    bit_at (filter_bits f') j = bit_at (filter_bits f) j || bool_decide (j ∈ idx).

Lemma update_filter_ok bs f idx : stored bs f -> Forall (fun i => 0 <= i < count f) idx ->
  exists b' f', update_filter bs idx = Ok b' /\ stored (Some b') f' /\ acked f idx f'.
Proof.
  intros Hs Hidx. destruct (decoded_stored _ _ Hs) as (b & -> & Hd). unfold update_filter. cbn [need].
  rewrite res_bind_Ok_l, Hd, res_bind_Ok_l.
  destruct (set_all_ok f idx (proj2 Hs) Hidx) as (f' & -> & Hf' & Hc & Hb).
  rewrite res_bind_Ok_l, encoded_filter. by exists (be_put 2 (count f') ++ filter_bits f'), f'.
Qed.

Lemma heightDiffs_elem refs h i : i ∈ default [] (heightDiffs refs !! h) <-> (h, i) ∈ refs.
Proof.
  induction refs as [|[h' i'] refs IH]; cbn [heightDiffs].
  { rewrite lookup_empty. cbn. by rewrite !elem_of_nil. }
  rewrite elem_of_cons, <- IH. destruct (decide (h' = h)) as [->|Hne].
  - rewrite lookup_insert_eq. cbn. rewrite elem_of_cons. naive_solver.
  - rewrite lookup_insert_ne by done. naive_solver.
Qed.

(** Both [At] functions update one height through [upd]. *)
Definition ack_at (upd : HeightBkt -> list Z -> res pkgerr HeightBkt) (bkt : SourceBkt) (h : Z)
    (idx : list Z) : res pkgerr SourceBkt :=
  match bkt !! h with
  | None => mret bkt
  | Some b => b' ← upd b idx; mret (<[h := b']> bkt)
  end.

Definition upd_add (b : HeightBkt) (idx : list Z) : res pkgerr HeightBkt :=
  x ← update_filter (ackFilterBytes b) idx; mret (b <| ackFilterBytes := Some x |>).
Definition upd_sf (b : HeightBkt) (idx : list Z) : res pkgerr HeightBkt :=
  x ← update_filter (settleFailFilterBytes b) idx; mret (b <| settleFailFilterBytes := Some x |>).

Lemma ackAdd_at bkt h idx : ackAddHtlcsAtHeight bkt h idx = ack_at upd_add bkt h idx.
Proof.
  unfold ackAddHtlcsAtHeight, ack_at, upd_add. destruct (bkt !! h) as [b|]; [|done].
  by destruct (update_filter (ackFilterBytes b) idx).
Qed.

Lemma ackSf_at bkt h idx : ackSettleFailsAtHeight bkt h idx = ack_at upd_sf bkt h idx.
Proof.
  unfold ackSettleFailsAtHeight, ack_at, upd_sf. destruct (bkt !! h) as [b|]; [|done].
  by destruct (update_filter (settleFailFilterBytes b) idx).
Qed.

Lemma ack_heights_ok ack upd bkt diffs :
  (forall bkt h idx, ack bkt h idx = ack_at upd bkt h idx) ->
  NoDup diffs.*1 ->
  (forall h idx b, (h, idx) ∈ diffs -> bkt !! h = Some b -> exists b', upd b idx = Ok b') ->
  exists bkt', ack_heights ack bkt diffs = Ok bkt' /\
    (forall h, bkt !! h = None -> bkt' !! h = None) /\
    (forall h b, bkt !! h = Some b -> exists b', bkt' !! h = Some b' /\
      (forall idx, (h, idx) ∈ diffs -> upd b idx = Ok b') /\ (h ∉ diffs.*1 -> b' = b)).
Proof.
  intros Hack. revert bkt. induction diffs as [|[h0 idx0] diffs IH]; intros bkt Hnd Hupd.
  { exists bkt. split; [done|split; [done|]]. intros h b Hb. exists b. split; [done|].
    split; [|done]. by intros idx ?%not_elem_of_nil. }
  cbn [fmap list_fmap fst] in Hnd. apply list.NoDup_cons in Hnd as [Hn Hnd].
  cbn [ack_heights]. rewrite Hack. unfold ack_at.
  assert (Hin : forall h idx, (h, idx) ∈ diffs -> h ∈ diffs.*1).
  { intros h idx H. apply list_elem_of_fmap. by exists (h, idx). }
  destruct (bkt !! h0) as [b0|] eqn:Hb0.
  - destruct (Hupd h0 idx0 b0) as [b1 Hb1]; [by left|done|]. rewrite Hb1. cbn [mbind res_mbind res_bind].
    destruct (IH (<[h0 := b1]> bkt) Hnd) as (bkt' & Hr & HN & HS).
    { intros h idx b Hd Hb. rewrite lookup_insert_ne in Hb by (intros ->; eauto).
      eapply Hupd; [by right|done]. }
    exists bkt'. split; [exact Hr|split].
    + intros h Hh. apply HN. rewrite lookup_insert_ne by congruence. done.
    + intros h b Hb. destruct (decide (h0 = h)) as [<-|Hne].
      * destruct (HS h0 b1) as (b' & Hb' & _ & He); [apply lookup_insert_eq|]. rewrite He in Hb' by done.
        exists b1. split; [done|]. split.
        -- intros idx [Heq|?]%elem_of_cons; [|exfalso; eauto]. congruence.
        -- intros Hx. exfalso. apply Hx. cbn. by left.
      * destruct (HS h b) as (b' & Hb' & Hd & He); [by rewrite lookup_insert_ne|].
        exists b'. split; [done|]. split.
        -- intros idx [Heq|?]%elem_of_cons; [congruence|]. by apply Hd.
        -- intros Hx. apply He. intros ?. apply Hx. cbn. by right.
  - cbn [mbind res_mbind res_bind mret res_ret]. destruct (IH bkt Hnd) as (bkt' & Hr & HN & HS).
    { intros h idx b Hd Hb. eapply Hupd; [by right|done]. }
    exists bkt'. split; [exact Hr|split; [done|]]. intros h b Hb.
    destruct (HS h b Hb) as (b' & Hb' & Hd & He). exists b'. split; [done|].
    assert (h0 <> h) by congruence. split.
    + intros idx [Heq|?]%elem_of_cons; [congruence|]. by apply Hd.
    + intros Hx. apply He. intros ?. apply Hx. cbn. by right.
Qed.

(** The result of acknowledging the references [refs] of one source. *)
Lemma ack_source ack upd bkt refs :
  (forall bkt h idx, ack bkt h idx = ack_at upd bkt h idx) ->
  (forall h b, bkt !! h = Some b ->
     exists b', upd b (default [] (heightDiffs refs !! h)) = Ok b') ->
  exists bkt', ack_heights ack bkt (map_to_list (heightDiffs refs)) = Ok bkt' /\
    (forall h, bkt !! h = None -> bkt' !! h = None) /\
    (forall h b, bkt !! h = Some b -> exists b', bkt' !! h = Some b' /\
      (upd b (default [] (heightDiffs refs !! h)) = Ok b' \/ b' = b /\ forall i, (h, i) ∉ refs)).
Proof.
  intros Hack Hupd.
  destruct (ack_heights_ok ack upd bkt (map_to_list (heightDiffs refs)) Hack) as (bkt' & Hr & HN & HS).
  - apply NoDup_fst_map_to_list.
  - intros h idx b Hd%elem_of_map_to_list Hb. destruct (Hupd h b Hb) as [b' Hb']. exists b'.
    by rewrite Hd in Hb'.
  - exists bkt'. split; [done|split; [done|]]. intros h b Hb.
    destruct (HS h b Hb) as (b' & Hb' & Hd & He). exists b'. split; [done|].
    destruct (heightDiffs refs !! h) as [idx|] eqn:Hdiff.
    + left. apply Hd. by apply elem_of_map_to_list.
    + right. split.
      * apply He. intros ([h' idx] & -> & Hin)%list_elem_of_fmap.
        apply elem_of_map_to_list in Hin. cbn in *. congruence.
      * intros i Hi%heightDiffs_elem. rewrite Hdiff in Hi. by apply not_elem_of_nil in Hi.
Qed.

(** Every package of the bucket is well formed. *)
Definition well_stored (bkt : SourceBkt) : Prop :=
  forall h b, bkt !! h = Some b -> exists adds sfs fwd ack sf, holds b adds sfs fwd ack sf.

Lemma elem_of_refs (refs : list AddRef) h i :
  (h, i) ∈ (fun r => (ar_Height r, ar_Index r)) <$> refs <-> mkAddRef h i ∈ refs.
Proof.
  rewrite list_elem_of_fmap. split; [|by exists (mkAddRef h i)].
  intros ([h' i'] & He & Hin). cbn in He. by injection He as -> ->.
Qed.

Lemma upd_add_holds b adds sfs fwd ack sf idx : holds b adds sfs fwd ack sf ->
  Forall (fun i => 0 <= i < Z.of_nat (length adds)) idx ->
  exists b' ack', upd_add b idx = Ok b' /\ holds b' adds sfs fwd ack' sf /\ acked ack idx ack'.
Proof.
  intros [Ha Hs Hf Hack Hsf Hc Hcs] Hidx. unfold upd_add.
  destruct (update_filter_ok _ ack idx Hack) as (x & ack' & -> & Hst & Hak); [by rewrite Hc|].
  cbn [mbind res_mbind res_bind mret res_ret]. exists (b <| ackFilterBytes := Some x |>), ack'.
  split; [done|]. split; [split; cbn; try done|done]. by rewrite (proj1 Hak).
Qed.

Lemma AckAddHtlcs_bkts B source bkt refs :
  B !! ToUint64 source = Some bkt -> well_stored bkt ->
  (forall h b adds sfs fwd ack sf i, bkt !! h = Some b -> holds b adds sfs fwd ack sf ->
     mkAddRef h i ∈ refs -> 0 <= i < Z.of_nat (length adds)) ->
  exists db', AckAddHtlcs source refs (Some B) = Ok db' /\
    (forall s, s <> ToUint64 source -> source_bkt db' s = source_bkt (Some B) s) /\
    forall h b adds sfs fwd ack sf, bkt !! h = Some b -> holds b adds sfs fwd ack sf ->
      exists b' ack', source_bkt db' (ToUint64 source) !! h = Some b' /\
        holds b' adds sfs fwd ack' sf /\ count ack' = count ack /\
        forall j, 0 <= j < count ack -> bit_at (filter_bits ack') j =
          bit_at (filter_bits ack) j || bool_decide (mkAddRef h j ∈ refs).
Proof.
  intros HB Hwell Hrefs. destruct (decide (refs = [])) as [->|Hne].
  { exists (Some B). split; [done|split; [done|]]. intros h b adds sfs fwd ack sf Hb Hh.
    exists b, ack. unfold source_bkt. cbn. rewrite HB. cbn. split; [done|split; [done|split; [done|]]].
    intros j _. rewrite bool_decide_eq_false_2 by apply not_elem_of_nil. by rewrite orb_false_r. }
  set (prs := (fun r => (ar_Height r, ar_Index r)) <$> refs).
  assert (Hrange : forall h b adds sfs fwd ack sf, bkt !! h = Some b -> holds b adds sfs fwd ack sf ->
    Forall (fun i => 0 <= i < Z.of_nat (length adds)) (default [] (heightDiffs prs !! h))).
  { intros h b adds sfs fwd ack sf Hb Hh. apply list.Forall_forall.
    intros i Hi%heightDiffs_elem%elem_of_refs. by eapply Hrefs. }
  destruct (ack_source ackAddHtlcsAtHeight upd_add bkt prs ackAdd_at) as (bkt' & Hr & _ & HS).
  { intros h b Hb. destruct (Hwell h b Hb) as (adds & sfs & fwd & ack & sf & Hh).
    destruct (upd_add_holds _ _ _ _ _ _ _ Hh (Hrange _ _ _ _ _ _ _ Hb Hh)) as (b' & _ & ? & _).
    by exists b'. }
  exists (Some (<[ToUint64 source := bkt']> B)). split; [|split].
  - destruct refs as [|r0 refs0]; [done|]. unfold AckAddHtlcs. cbn [need].
    rewrite res_bind_Ok_l, HB. cbn [need]. rewrite res_bind_Ok_l. fold prs. by rewrite Hr.
  - intros s Hs. by rewrite source_bkt_insert, decide_False by done.
  - intros h b adds sfs fwd ack sf Hb Hh. rewrite source_bkt_insert, decide_True by done.
    destruct (HS h b Hb) as (b' & Hb' & Hcase).
    destruct (upd_add_holds _ _ _ _ _ _ _ Hh (Hrange _ _ _ _ _ _ _ Hb Hh))
      as (b2 & ack' & Hu & Hh2 & Hc & Hbit).
    destruct Hcase as [He|[-> Hno]].
    + rewrite Hu in He. injection He as ->. exists b', ack'. do 3 (split; [done|]).
      intros j Hj. rewrite Hbit by done. f_equal. apply bool_decide_ext.
      rewrite heightDiffs_elem. apply elem_of_refs.
    + exists b, ack. do 3 (split; [done|]). intros j _.
      rewrite bool_decide_eq_false_2; [by rewrite orb_false_r|].
      intros Hj%elem_of_refs. by apply (Hno j).
Qed.

(** Acknowledging adds of well-formed packages succeeds; in each package it
    marks exactly the referenced adds, drops no earlier mark, changes nothing
    else, and the package becomes [FwdStateCompleted] exactly when its forwarding
    decision is written and every add, settle and fail in it is acknowledged;
    packages of other channels are untouched. *)
Theorem ack_adds_correct (B : gmap Z SourceBkt) (source : ShortChannelID) (bkt : SourceBkt)
    (refs : list AddRef) :
  B !! ToUint64 source = Some bkt -> well_stored bkt ->
  (forall r p, r ∈ refs -> load (Some B) source (ar_Height r) = Ok p ->
     0 <= ar_Index r < Z.of_nat (length (pkg_Adds p))) ->
  exists db', AckAddHtlcs source refs (Some B) = Ok db' /\
    (forall h p, load (Some B) source h = Ok p -> exists p', load db' source h = Ok p' /\
       pkg_Adds p' = pkg_Adds p /\ pkg_SettleFails p' = pkg_SettleFails p /\
       pkg_FwdFilter p' = pkg_FwdFilter p /\ pkg_SettleFailFilter p' = pkg_SettleFailFilter p /\
       (forall i, 0 <= i < Z.of_nat (length (pkg_Adds p)) ->
          bit_at (filter_bits (pkg_AckFilter p')) i =
          bit_at (filter_bits (pkg_AckFilter p)) i || bool_decide (mkAddRef h i ∈ refs)) /\
       (pkg_State p' = FwdStateLockedIn <-> pkg_State p = FwdStateLockedIn) /\
       (pkg_State p' = FwdStateCompleted <-> pkg_State p <> FwdStateLockedIn /\
          all_set (pkg_AckFilter p') /\ all_set (pkg_SettleFailFilter p'))) /\
    forall source' h, ToUint64 source' <> ToUint64 source ->
      load db' source' h = load (Some B) source' h.
Proof.
  intros HB Hwell Hrefs.
  assert (Hsrc : source_bkt (Some B) (ToUint64 source) = bkt) by (unfold source_bkt; cbn; by rewrite HB).
  destruct (AckAddHtlcs_bkts B source bkt refs HB Hwell) as (db' & Hdb' & Hother & Hsame).
  { intros h b adds sfs fwd ack sf i Hb Hh Hin.
    destruct (load_holds (Some B) source h b adds sfs fwd ack sf) as (p & Hp & _ & _ & <- & _);
      [by rewrite Hsrc|done|]. by apply (Hrefs (mkAddRef h i) p). }
  exists db'. split; [done|split]; [|intros s h Hs; apply load_other; by rewrite Hother].
  intros h p Hp. rewrite load_source, Hsrc in Hp. destruct (bkt !! h) as [b|] eqn:Hb; [|done].
  destruct (Hwell h b Hb) as (adds & sfs & fwd & ack & sf & Hh).
  edestruct (load_holds (Some B) source h b) as (p0 & Hp0 & H1 & H2 & H3 & H4 & H5 & H6 & H7 & H8 & H9);
    [by rewrite Hsrc|exact Hh|].
  rewrite load_source, Hsrc, Hb, Hp in Hp0. injection Hp0 as <-.
  destruct (Hsame _ _ _ _ _ _ _ Hb Hh) as (b' & ack' & Hb' & Hh' & Hc' & Hbit').
  edestruct (load_holds db' source h b') as (p' & Hp' & G1 & G2 & G3 & G4 & G5 & G6 & G7 & G8 & G9);
    [exact Hb'|exact Hh'|].
  exists p'. split; [done|]. rewrite G3, G4, G7, G6, G5, H3, H4, H5, H6, H7.
  do 4 (split; [done|]). split; [|split].
  - intros i Hi. apply Hbit'. rewrite (ho_ack_count _ _ _ _ _ _ Hh). lia.
  - by rewrite G8, H8.
  - by rewrite G9, H8.
Qed.

(** A stored package with two adds and one fail. *)
Definition sample_pkg : FwdPkg := NewFwdPkg scid_example 3 [sample_add; sample_add] [sample_fail].
Definition sample_height : HeightBkt := empty_height
  <| addBkt := Some (putLogUpdates 0 [sample_add; sample_add] ∅) |>
  <| failSettleBkt := Some (putLogUpdates 0 [sample_fail] ∅) |>
  <| ackFilterBytes := Some (be_put 2 2 ++ [Byte.x00]) |>
  <| settleFailFilterBytes := Some (be_put 2 1 ++ [Byte.x00]) |>.

Lemma ack_adds_correct_witness :
  exists db', AckAddHtlcs scid_example [mkAddRef 3 1; mkAddRef 9 0]
      (Some {[ToUint64 scid_example := {[3 := sample_height]}]}) = Ok db' /\
    exists p', load db' scid_example 3 = Ok p' /\
      bit_at (filter_bits (pkg_AckFilter p')) 1 = true /\
      bit_at (filter_bits (pkg_AckFilter p')) 0 = false.
Proof.
  assert (Hh : holds sample_height [sample_add; sample_add] [sample_fail] None (NewPkgFilter 2)
                 (NewPkgFilter 1)) by 
    (by apply (new_height_holds [sample_add; sample_add] [sample_fail] scid_example)).
  destruct (ack_adds_correct {[ToUint64 scid_example := {[3 := sample_height]}]} scid_example
    {[3 := sample_height]} [mkAddRef 3 1; mkAddRef 9 0]) as (db' & H & Hl & _).
  - apply lookup_singleton_eq.
  - intros h b [<- <-]%lookup_singleton_Some. do 5 eexists. exact Hh.
  - intros r p Hr Hp.
    assert (Hc : r = mkAddRef 3 1 \/ r = mkAddRef 9 0) by set_solver.
    destruct Hc as [-> | ->].
    + vm_compute in Hp. injection Hp as <-. done.
    + vm_compute in Hp. discriminate Hp.
  - exists db'. split; [exact H|].
    destruct (Hl 3 sample_pkg) as (p' & Hp' & _ & _ & _ & _ & Hbit & _); [vm_compute; reflexivity|].
    exists p'. split; [exact Hp'|]. rewrite !Hbit by done. done.
Defined.
