(* ===== verification/UpdateLog.v ===== *)
(** * Payment descriptors and update logs ([lnwallet/channel.go])

    Go's logs are linked lists of pointers to [PaymentDescriptor]s that the
    indexes, the HTLC views and the log share, so descriptors live in a [heap]
    and the lists hold pointers.  [updateLog] and its operations, [compactLogs],
    and the invariant [logs_ok] of a pair of logs: the indexes are exact and
    every HTLC has at most one removal, recorded in [modifiedHtlcs]. *)

From S2P Require Import Prelude Wire Messages Units FwdPkg.

(** ** Data *)
Inductive updateType : Type := Add | Fail | MalformedFail | Settle | FeeUpdate.

#[export] Instance updateType_eq_dec : EqDecision updateType.
Proof. solve_decision. Defined.

(** [channeldb.CircuitKey]. *)
Record CircuitKey := mkCircuitKey { ck_ChanID : ShortChannelID; ck_HtlcID : Z }.

#[export] Instance ShortChannelID_countable : Countable ShortChannelID.
Proof.
  refine (inj_countable' (fun c => (BlockHeight c, TxIndex c, TxPosition c)) (fun '(a, b, c) => mkSCID a b c) _).
  by intros [].
Defined.

#[export] Instance CircuitKey_eq_dec : EqDecision CircuitKey.
Proof. solve_decision. Defined.

#[export] Instance CircuitKey_countable : Countable CircuitKey.
Proof. refine (inj_countable' (fun k => (ck_ChanID k, ck_HtlcID k)) (fun '(a, b) => mkCircuitKey a b) _). by intros []. Defined.

Definition zero_hash : bytes := replicate 32 Byte.x00.

Record PaymentDescriptor := mkPD {
  pd_RHash : bytes;
  pd_RPreimage : bytes;
  pd_Timeout : Z;
  pd_BtcAmount : Z;
  pd_AssetAmount : Z;
  pd_AssetID : Z;
  pd_LogIndex : Z;
  pd_HtlcIndex : Z;
  pd_ParentIndex : Z;
  pd_SourceRef : option AddRef;
  pd_DestRef : option SettleFailRef;
  pd_OpenCircuitKey : option CircuitKey;
  pd_ClosedCircuitKey : option CircuitKey;
  localOutputIndex : Z;
  remoteOutputIndex : Z;
  pd_sig : option bytes;
  addCommitHeightRemote : Z;
  addCommitHeightLocal : Z;
  removeCommitHeightRemote : Z;
  removeCommitHeightLocal : Z;
  pd_OnionBlob : bytes;
  pd_ShaOnionBlob : bytes;
  pd_FailReason : bytes;
  pd_FailCode : Z;
  ourPkScript : bytes;
  ourWitnessScript : bytes;
  theirPkScript : bytes;
  theirWitnessScript : bytes;
  pd_EntryType : updateType;
  isForwarded : bool
}.

#[export] Instance PaymentDescriptor_eta : Eta PaymentDescriptor := fun r =>
  mkPD (pd_RHash r) (pd_RPreimage r) (pd_Timeout r) (pd_BtcAmount r) (pd_AssetAmount r)
    (pd_AssetID r) (pd_LogIndex r) (pd_HtlcIndex r) (pd_ParentIndex r) (pd_SourceRef r)
    (pd_DestRef r) (pd_OpenCircuitKey r) (pd_ClosedCircuitKey r) (localOutputIndex r)
    (remoteOutputIndex r) (pd_sig r) (addCommitHeightRemote r) (addCommitHeightLocal r)
    (removeCommitHeightRemote r) (removeCommitHeightLocal r) (pd_OnionBlob r)
    (pd_ShaOnionBlob r) (pd_FailReason r) (pd_FailCode r) (ourPkScript r)
    (ourWitnessScript r) (theirPkScript r) (theirWitnessScript r) (pd_EntryType r)
    (isForwarded r).

(** The zero value of the struct; an [updateType] is [Add] by default. *)
Definition zero_pd : PaymentDescriptor :=
  mkPD zero_hash zero_hash 0 0 0 0 0 0 0 None None None None 0 0 None 0 0 0 0
    [] zero_hash [] 0 [] [] [] [] Add false.

(** ** Amounts of a descriptor *)
Definition SetAmtFromHtlcMsg (pd : PaymentDescriptor) (htlc : UpdateAddHTLC) : PaymentDescriptor :=
  if add_AssetID htlc =? BtcAssetId then pd <| pd_BtcAmount := u64 (add_Amount htlc) |>
  else pd <| pd_AssetAmount := i64 (add_Amount htlc) |>
          <| pd_BtcAmount := NewMSatFromSatoshis (i64 (OmniGas * 3)) |>.

Definition SetAmtFromMsgHtlc (pd : PaymentDescriptor) (htlc : UpdateAddHTLC) : PaymentDescriptor :=
  let pd := pd <| pd_AssetID := add_AssetID htlc |> in
  if add_AssetID htlc =? BtcAssetId then pd <| pd_BtcAmount := u64 (add_Amount htlc) |>
  else pd <| pd_AssetAmount := i64 (add_Amount htlc) |>
          <| pd_BtcAmount := NewMSatFromSatoshis (i64 (OmniGas * 3)) |>.

Definition GetMsgAmt (pd : PaymentDescriptor) : Z :=
  if pd_AssetID pd =? BtcAssetId then u64 (pd_BtcAmount pd) else u64 (pd_AssetAmount pd).

Definition GetHtlcAmt (pd : PaymentDescriptor) : Z :=
  if pd_AssetID pd =? BtcAssetId then u64 (pd_BtcAmount pd) else u64 (pd_AssetAmount pd).

(** ** The heap *)
Abbreviation ptr := nat.
Abbreviation heap := (list PaymentDescriptor).

Definition deref (h : heap) (p : ptr) : PaymentDescriptor := default zero_pd (h !! p).

(** ** Update logs *)
Record updateLog := mkUpdateLog {
  logIndex : Z;
  htlcCounter : Z;
  entries : list ptr;
  updateIndex : gmap Z ptr;
  htlcIndex : gmap Z ptr;
  modifiedHtlcs : gset Z
}.

#[export] Instance updateLog_eta : Eta updateLog := fun u =>
  mkUpdateLog (logIndex u) (htlcCounter u) (entries u) (updateIndex u) (htlcIndex u)
    (modifiedHtlcs u).

Definition newUpdateLog (logIndex htlcCounter : Z) : updateLog :=
  mkUpdateLog logIndex htlcCounter [] ∅ ∅ ∅.

(** [list.List.PushBack] and [Remove]. *)
Definition PushBack (u : updateLog) (p : ptr) : updateLog :=
  u <| entries ::= fun l => l ++ [p] |>.
Definition Remove (u : updateLog) (p : ptr) : updateLog :=
  u <| entries ::= filter (fun q => q <> p) |>.

Definition restoreHtlc (h : heap) (u : updateLog) (p : ptr) : updateLog :=
  let i := pd_HtlcIndex (deref h p) in
  match htlcIndex u !! i with
  | Some _ => u
  | None => PushBack u p <| htlcIndex ::= <[i := p]> |>
  end.

Definition appendUpdate (u : updateLog) (p : ptr) : updateLog :=
  PushBack u p <| updateIndex ::= <[logIndex u := p]> |>
               <| logIndex ::= fun i => u64 (i + 1) |>.

Definition restoreUpdate (h : heap) (u : updateLog) (p : ptr) : updateLog :=
  PushBack u p <| updateIndex ::= <[pd_LogIndex (deref h p) := p]> |>.

Definition appendHtlc (u : updateLog) (p : ptr) : updateLog :=
  PushBack u p <| htlcIndex ::= <[htlcCounter u := p]> |>
               <| htlcCounter ::= fun i => u64 (i + 1) |>
               <| logIndex ::= fun i => u64 (i + 1) |>.

Definition lookupHtlc (u : updateLog) (i : Z) : option ptr := htlcIndex u !! i.

(** A missing index entry is a nil element, which [Remove] dereferences. *)
Definition removeUpdate {E} (u : updateLog) (i : Z) : res E updateLog :=
  match updateIndex u !! i with
  | None => Panic
  | Some entry => Ok (Remove u entry <| updateIndex ::= delete i |>)
  end.

Definition removeHtlc {E} (u : updateLog) (i : Z) : res E updateLog :=
  match htlcIndex u !! i with
  | None => Panic
  | Some entry => Ok (Remove u entry <| htlcIndex ::= delete i |>
                                     <| modifiedHtlcs ::= fun m => m ∖ {[i]} |>)
  end.

Definition htlcHasModification (u : updateLog) (i : Z) : bool := bool_decide (i ∈ modifiedHtlcs u).

Definition markHtlcModified (u : updateLog) (i : Z) : updateLog :=
  u <| modifiedHtlcs ::= fun m => {[i]} ∪ m |>.

(** ** [compactLogs] *)

(** The entry has been removed at or below the tails of both chains. *)
Definition compactable (htlc : PaymentDescriptor) (localChainTail remoteChainTail : Z) : bool :=
  negb (removeCommitHeightRemote htlc =? 0) && negb (removeCommitHeightLocal htlc =? 0) &&
  (removeCommitHeightRemote htlc <=? remoteChainTail) &&
  (removeCommitHeightLocal htlc <=? localChainTail).

(** The traversal of [logA]: an iteration removes no other element of [logA]
    than the one it is at, so it visits the elements it started with. *)
Fixpoint compactLog {E} (h : heap) (localChainTail remoteChainTail : Z)
    (es : list ptr) (logA logB : updateLog) : res E (updateLog * updateLog) :=
  match es with
  | [] => Ok (logA, logB)
  | e :: rest =>
      let htlc := deref h e in
      if bool_decide (pd_EntryType htlc = Add) then
        compactLog h localChainTail remoteChainTail rest logA logB
      else if compactable htlc localChainTail remoteChainTail then
        if bool_decide (pd_EntryType htlc = FeeUpdate) then
          logA ← removeUpdate logA (pd_LogIndex htlc);
          compactLog h localChainTail remoteChainTail rest logA logB
        else
          logA ← removeUpdate logA (pd_LogIndex htlc);
          logB ← removeHtlc logB (pd_ParentIndex htlc);
          compactLog h localChainTail remoteChainTail rest logA logB
      else compactLog h localChainTail remoteChainTail rest logA logB
  end.

Definition compactLogs {E} (h : heap) (ourLog theirLog : updateLog)
    (localChainTail remoteChainTail : Z) : res E (updateLog * updateLog) :=
  '(ourLog, theirLog) ← compactLog h localChainTail remoteChainTail (entries ourLog) ourLog theirLog;
  '(theirLog, ourLog) ← compactLog h localChainTail remoteChainTail (entries theirLog) theirLog ourLog;
  mret (ourLog, theirLog).

(** ** The invariant of a pair of logs *)
Definition is_removal (t : updateType) : bool :=
  match t with Add | FeeUpdate => false | _ => true end.

(** The fields no operation changes once the descriptor is in a log. *)
Definition pd_id (pd : PaymentDescriptor) : updateType * Z * Z * Z :=
  (pd_EntryType pd, pd_LogIndex pd, pd_HtlcIndex pd, pd_ParentIndex pd).

Record log_wf (h : heap) (u : updateLog) : Prop := {
  lw_nodup : NoDup (entries u);
  lw_alloc p : p ∈ entries u -> (p < length h)%nat;
  lw_htlc i p : htlcIndex u !! i = Some p <->
    p ∈ entries u /\ pd_EntryType (deref h p) = Add /\ pd_HtlcIndex (deref h p) = i;
  lw_update i p : updateIndex u !! i = Some p <->
    p ∈ entries u /\ pd_EntryType (deref h p) <> Add /\ pd_LogIndex (deref h p) = i;
  lw_next p : p ∈ entries u -> pd_LogIndex (deref h p) < logIndex u;
  lw_next_htlc p : p ∈ entries u -> pd_EntryType (deref h p) = Add ->
    pd_HtlcIndex (deref h p) < htlcCounter u;
  lw_range : 0 <= logIndex u < 2 ^ 64 /\ 0 <= htlcCounter u < 2 ^ 64
}.

(** The removals in log [A] are exactly the marks on the HTLCs of log [B], at
    most one per HTLC. *)
Record removals (h : heap) (A B : updateLog) : Prop := {
  rm_marked i : i ∈ modifiedHtlcs B <->
    exists p, p ∈ entries A /\ is_removal (pd_EntryType (deref h p)) = true /\
      pd_ParentIndex (deref h p) = i;
  rm_unique p q : p ∈ entries A -> q ∈ entries A ->
    is_removal (pd_EntryType (deref h p)) = true ->
    is_removal (pd_EntryType (deref h q)) = true ->
    pd_ParentIndex (deref h p) = pd_ParentIndex (deref h q) -> p = q;
  rm_parent i : i ∈ modifiedHtlcs B -> is_Some (htlcIndex B !! i)
}.

Record logs_ok (h : heap) (A B : updateLog) : Prop := {
  lo_A : log_wf h A;
  lo_B : log_wf h B;
  lo_AB : removals h A B;
  lo_BA : removals h B A;
  lo_disjoint p : p ∈ entries A -> p ∈ entries B -> False
}.

Lemma logs_ok_sym h A B : logs_ok h A B -> logs_ok h B A.
Proof. intros [? ? ? ? Hd]. split; try done. intros p HA HB. by apply (Hd p). Qed.

Lemma is_removal_not_add t : is_removal t = true -> t <> Add.
Proof. by destruct t. Qed.

(** Removing one element of a log's list. *)
Lemma elem_of_Remove u p q : q ∈ entries (Remove u p) <-> q ∈ entries u /\ q <> p.
Proof. cbn. rewrite list_elem_of_filter. tauto. Qed.

Lemma log_wf_removeUpdate {E} h u p : log_wf h u -> p ∈ entries u ->
  pd_EntryType (deref h p) <> Add ->
  let u' := Remove u p <| updateIndex ::= delete (pd_LogIndex (deref h p)) |> in
  @removeUpdate E u (pd_LogIndex (deref h p)) = Ok u' /\ log_wf h u'.
Proof.
  intros Hw Hp Ht u'. pose proof (proj2 (lw_update _ _ Hw _ p) (conj Hp (conj Ht eq_refl))) as Hi.
  unfold removeUpdate. rewrite Hi. split; [done|].
  split; cbn; try setoid_rewrite list_elem_of_filter.
  - apply list.NoDup_filter, (lw_nodup _ _ Hw).
  - intros q [_ Hq]. by apply (lw_alloc _ _ Hw).
  - intros i q. rewrite (lw_htlc _ _ Hw). split; [|tauto].
    intros (Hq & Hadd & Hh). split; [split; [|done]|done]. by intros ->.
  - intros i q. rewrite lookup_delete_Some, (lw_update _ _ Hw). split.
    + intros (Hne & Hq & Hna & Hl). split; [split; [|done]|done]. intros ->. done.
    + intros ((Hne & Hq) & Hna & Hl). split; [|done]. intros E'. apply Hne.
      pose proof (proj2 (lw_update _ _ Hw i q) (conj Hq (conj Hna Hl))). congruence.
  - intros q [_ Hq]. by apply (lw_next _ _ Hw).
  - intros q [_ Hq]. by apply (lw_next_htlc _ _ Hw).
  - apply (lw_range _ _ Hw).
Qed.

Lemma log_wf_removeHtlc {E} h u i p : log_wf h u -> htlcIndex u !! i = Some p ->
  let u' := Remove u p <| htlcIndex ::= delete i |> <| modifiedHtlcs ::= fun m => m ∖ {[i]} |> in
  @removeHtlc E u i = Ok u' /\ log_wf h u'.
Proof.
  intros Hw Hi u'. unfold removeHtlc. rewrite Hi. split; [done|].
  destruct (proj1 (lw_htlc _ _ Hw _ _) Hi) as (Hp & Hadd & Hidx).
  split; cbn; try setoid_rewrite list_elem_of_filter.
  - apply list.NoDup_filter, (lw_nodup _ _ Hw).
  - intros q [_ Hq]. by apply (lw_alloc _ _ Hw).
  - intros j q. rewrite lookup_delete_Some, (lw_htlc _ _ Hw). split.
    + intros (Hne & Hq & Ha & Hl). split; [split; [|done]|done]. intros ->. congruence.
    + intros ((Hne & Hq) & Ha & Hl). split; [|done]. intros E'. apply Hne.
      pose proof (proj2 (lw_htlc _ _ Hw j q) (conj Hq (conj Ha Hl))). congruence.
  - intros j q. rewrite (lw_update _ _ Hw). split; [|tauto].
    intros (Hq & Hna & Hl). split; [split; [|done]|done]. intros ->. done.
  - intros q [_ Hq]. by apply (lw_next _ _ Hw).
  - intros q [_ Hq]. by apply (lw_next_htlc _ _ Hw).
  - apply (lw_range _ _ Hw).
Qed.

Lemma remove_fee {E} h A B p : logs_ok h A B -> p ∈ entries A ->
  pd_EntryType (deref h p) = FeeUpdate ->
  exists A', @removeUpdate E A (pd_LogIndex (deref h p)) = Ok A' /\ logs_ok h A' B /\
    entries A' = filter (fun q => q <> p) (entries A) /\
    logIndex A' = logIndex A /\ htlcCounter A' = htlcCounter A.
Proof.
  intros [HA HB [Hm Hu Hpar] [Hm' Hu' Hpar'] Hd] Hp Ht.
  destruct (@log_wf_removeUpdate E h A p HA Hp) as [Hr Hw]; [by rewrite Ht|].
  eexists. split; [exact Hr|]. split; [|done].
  split; [done|done| | |]; [split|split|]; cbn; try setoid_rewrite list_elem_of_filter; try done.
  - intros i. rewrite Hm. split; [|naive_solver].
    intros (q & Hq & Hrm & Hi). exists q. split; [split; [|done]|done].
    intros ->. by rewrite Ht in Hrm.
  - intros q q' [_ ?] [_ ?]. by apply Hu.
  - intros q [_ HqA] HqB. by apply (Hd q).
Qed.

Lemma remove_pair {E} h A B p : logs_ok h A B -> p ∈ entries A ->
  is_removal (pd_EntryType (deref h p)) = true ->
  exists A' B' pp, @removeUpdate E A (pd_LogIndex (deref h p)) = Ok A' /\
    htlcIndex B !! pd_ParentIndex (deref h p) = Some pp /\
    @removeHtlc E B (pd_ParentIndex (deref h p)) = Ok B' /\ logs_ok h A' B' /\
    entries A' = filter (fun q => q <> p) (entries A) /\
    entries B' = filter (fun q => q <> pp) (entries B) /\
    logIndex A' = logIndex A /\ htlcCounter A' = htlcCounter A /\
    logIndex B' = logIndex B /\ htlcCounter B' = htlcCounter B.
Proof.
  intros [HA HB [Hm Hu Hpar] [Hm' Hu' Hpar'] Hd] Hp Ht.
  set (i := pd_ParentIndex (deref h p)).
  assert (Hi : i ∈ modifiedHtlcs B) by (apply Hm; exists p; done).
  destruct (Hpar i Hi) as [pp Hpp]. destruct (proj1 (lw_htlc _ _ HB _ _) Hpp) as (HppB & Hadd & _).
  destruct (@log_wf_removeUpdate E h A p HA Hp (is_removal_not_add _ Ht)) as [Hr HwA].
  destruct (@log_wf_removeHtlc E h B i pp HB Hpp) as [Hr' HwB].
  eexists _, _, pp. split; [exact Hr|split; [done|split; [exact Hr'|]]]. split; [|done].
  split; [done|done| | |]; [split|split|]; cbn; try setoid_rewrite list_elem_of_filter.
  - intros j. rewrite elem_of_difference, elem_of_singleton, Hm. split.
    + intros [(q & Hq & Hrm & Hj) Hne]. exists q. split; [split; [|done]|done].
      intros ->. by apply Hne.
    + intros (q & [Hne Hq] & Hrm & Hj). split; [by exists q|]. intros ->. apply Hne.
      by apply Hu.
  - intros q q' [_ ?] [_ ?]. by apply Hu.
  - intros j [Hj Hne]%elem_of_difference. rewrite elem_of_singleton in Hne.
    rewrite lookup_delete_ne by done. by apply Hpar.
  - intros j. rewrite Hm'. split; [|naive_solver].
    intros (q & Hq & Hrm & Hj). exists q. split; [split; [|done]|done].
    intros ->. by rewrite Hadd in Hrm.
  - intros q q' [_ ?] [_ ?]. by apply Hu'.
  - intros j Hj. by apply Hpar'.
  - intros q [_ HqA] [_ HqB]. by apply (Hd q).
Qed.

(** ** What compaction does *)

(** [p] is a removal or fee update both tails have passed. *)
Definition spent (h : heap) (l r : Z) (p : ptr) : Prop :=
  pd_EntryType (deref h p) <> Add /\ compactable (deref h p) l r = true.

(** [p] is an HTLC removed by a spent entry among [es]. *)
Definition removed_by (h : heap) (l r : Z) (es : list ptr) (p : ptr) : Prop :=
  pd_EntryType (deref h p) = Add /\ exists q, q ∈ es /\ spent h l r q /\
    is_removal (pd_EntryType (deref h q)) = true /\
    pd_ParentIndex (deref h q) = pd_HtlcIndex (deref h p).

Lemma is_removal_cases t : t <> Add -> t <> FeeUpdate -> is_removal t = true.
Proof. by destruct t. Qed.

Lemma compactLog_spec {E} h l r es A B : logs_ok h A B -> NoDup es ->
  (forall p, p ∈ es -> p ∈ entries A) ->
  exists A' B', @compactLog E h l r es A B = Ok (A', B') /\ logs_ok h A' B' /\
    entries A' `sublist_of` entries A /\ entries B' `sublist_of` entries B /\
    (forall p, p ∈ entries A' <-> p ∈ entries A /\ ~ (p ∈ es /\ spent h l r p)) /\
    (forall p, p ∈ entries B' <-> p ∈ entries B /\ ~ removed_by h l r es p) /\
    logIndex A' = logIndex A /\ htlcCounter A' = htlcCounter A /\
    logIndex B' = logIndex B /\ htlcCounter B' = htlcCounter B.
Proof.
  revert A B. induction es as [|p es IH]; intros A B Hok Hnd Hin.
  { exists A, B. cbn. split; [done|split; [done|]]. do 2 (split; [done|]).
    split; [intros p; split; [|tauto]|split; [|done]].
    - intros Hp. split; [done|]. intros [Hn _]. by apply not_elem_of_nil in Hn.
    - intros p. split; [|tauto]. intros Hp. split; [done|].
      intros (_ & q & Hq & _). by apply not_elem_of_nil in Hq. }
  apply list.NoDup_cons in Hnd as [Hpes Hnd].
  assert (Hp : p ∈ entries A) by (apply Hin; by left).
  assert (Hskip : ~ spent h l r p -> exists A' B', @compactLog E h l r es A B = Ok (A', B') /\
    logs_ok h A' B' /\ entries A' `sublist_of` entries A /\ entries B' `sublist_of` entries B /\
    (forall q, q ∈ entries A' <-> q ∈ entries A /\ ~ (q ∈ p :: es /\ spent h l r q)) /\
    (forall q, q ∈ entries B' <-> q ∈ entries B /\ ~ removed_by h l r (p :: es) q) /\
    logIndex A' = logIndex A /\ htlcCounter A' = htlcCounter A /\
    logIndex B' = logIndex B /\ htlcCounter B' = htlcCounter B).
  { intros Hns. destruct (IH A B Hok Hnd) as (A' & B' & H1 & H2 & H3 & H4 & H5 & H6 & H7).
    { intros q Hq. apply Hin. by right. }
    exists A', B'. do 4 (split; [done|]). split; [|split; [|done]].
    - intros q. rewrite H5. rewrite elem_of_cons. naive_solver.
    - intros q. rewrite H6. unfold removed_by. setoid_rewrite elem_of_cons. naive_solver. }
  cbn [compactLog]. case_bool_decide as Hadd; [apply Hskip; by intros [? _]|].
  destruct (compactable (deref h p) l r) eqn:Hc; [|apply Hskip; intros [_ ?]; congruence].
  assert (Hsp : spent h l r p) by done. clear Hskip.
  case_bool_decide as Hfee.
  - destruct (@remove_fee E h A B p Hok Hp Hfee) as (A1 & Hr & Hok1 & He & HLi & HHi).
    rewrite Hr, res_bind_Ok_l.
    destruct (IH A1 B Hok1 Hnd) as (A' & B' & H1 & H2 & H3 & H4 & H5 & H6 & H7 & H8 & H9).
    { intros q Hq. rewrite He, list_elem_of_filter. split; [by intros ->|].
      apply Hin. by right. }
    exists A', B'. split; [done|split; [done|]].
    split; [etrans; [exact H3|rewrite He; apply sublist_filter]|split; [done|]].
    split; [|split; [|by rewrite H7, H8]].
    + intros q. rewrite H5, He, list_elem_of_filter, elem_of_cons.
      destruct (decide (q = p)) as [->|]; naive_solver.
    + intros q. rewrite H6. unfold removed_by. setoid_rewrite elem_of_cons. split; [|naive_solver].
      intros [Hq Hn]. split; [done|]. intros (Ha & q' & [->|Hq'] & Hs & Hrm & Hpar).
      * by rewrite Hfee in Hrm.
      * apply Hn. split; [done|]. by exists q'.
  - assert (Hrm : is_removal (pd_EntryType (deref h p)) = true) by by apply is_removal_cases.
    destruct (@remove_pair E h A B p Hok Hp Hrm)
      as (A1 & B1 & pp & Hr & Hpp & Hr' & Hok1 & HeA & HeB & G1 & G2 & G3 & G4).
    rewrite Hr, res_bind_Ok_l, Hr', res_bind_Ok_l.
    destruct (IH A1 B1 Hok1 Hnd) as (A' & B' & H1 & H2 & H3 & H4 & H5 & H6 & H7 & H8 & H9 & H10).
    { intros q Hq. rewrite HeA, list_elem_of_filter. split; [by intros ->|].
      apply Hin. by right. }
    exists A', B'. split; [done|split; [done|]].
    split; [etrans; [exact H3|rewrite HeA; apply sublist_filter]|].
    split; [etrans; [exact H4|rewrite HeB; apply sublist_filter]|].
    split; [|split; [|rewrite H7, H8, H9, H10; done]].
    + intros q. rewrite H5, HeA, list_elem_of_filter, elem_of_cons.
      destruct (decide (q = p)) as [->|]; naive_solver.
    + pose proof (proj1 (lw_htlc _ _ (lo_B _ _ _ Hok) _ _) Hpp) as (HppB & HppAdd & HppI).
      intros q. rewrite H6, HeB, list_elem_of_filter. unfold removed_by.
      setoid_rewrite elem_of_cons. split.
      * intros [[Hne Hq] Hn]. split; [done|]. intros (Ha & q' & [->|Hq'] & Hs & Hrm' & Hpar).
        -- apply Hne. pose proof (proj2 (lw_htlc _ _ (lo_B _ _ _ Hok) _ q) (conj Hq (conj Ha eq_refl))).
           congruence.
        -- apply Hn. split; [done|]. by exists q'.
      * intros [Hq Hn]. split; [split; [|done]|].
        -- intros ->. apply Hn. split; [done|]. exists p. split; [by left|done].
        -- intros (Ha & q' & Hq' & Hrest). apply Hn. split; [done|]. exists q'. split; [by right|done].
Qed.

(** Compaction never panics on a pair of well-formed logs, keeps them well
    formed, and deletes exactly the spent removals and fee updates together with
    the HTLCs the spent removals settle or fail. *)
Definition compacted (h : heap) (l r : Z) (A B A' : updateLog) : Prop :=
  entries A' `sublist_of` entries A /\
  (forall p, p ∈ entries A' <->
    p ∈ entries A /\ ~ spent h l r p /\ ~ removed_by h l r (entries B) p) /\
  logIndex A' = logIndex A /\ htlcCounter A' = htlcCounter A.

Lemma compactLogs_spec {E} h l r A B : logs_ok h A B ->
  exists A' B', @compactLogs E h A B l r = Ok (A', B') /\ logs_ok h A' B' /\
    compacted h l r A B A' /\ compacted h l r B A B'.
Proof.
  intros Hok.
  destruct (@compactLog_spec E h l r (entries A) A B Hok (lw_nodup _ _ (lo_A _ _ _ Hok)))
    as (A1 & B1 & H1 & Hok1 & HsA & HsB & HA & HB & G1 & G2 & G3 & G4); [done|].
  apply logs_ok_sym in Hok1.
  destruct (@compactLog_spec E h l r (entries B1) B1 A1 Hok1 (lw_nodup _ _ (lo_A _ _ _ Hok1)))
    as (B2 & A2 & H2 & Hok2 & HsB2 & HsA2 & HB2 & HA2 & K1 & K2 & K3 & K4); [done|].
  exists A2, B2. unfold compactLogs. rewrite H1, res_bind_Ok_l, H2. split; [done|].
  split; [by apply logs_ok_sym|]. unfold compacted.
  rewrite K1, K2, K3, K4, G1, G2, G3, G4.
  split; (split; [by etrans|split; [|done]]); intros p.
  - rewrite HA2, HA. assert (removed_by h l r (entries B1) p <-> removed_by h l r (entries B) p) as ->.
    { unfold removed_by. setoid_rewrite HB. split; [naive_solver|].
      intros (Ha & q & Hq & Hs & Hrm & Hi). split; [done|]. exists q. split; [|done].
      split; [done|]. intros [Ha' _]. by apply (is_removal_not_add _ Hrm). }
    naive_solver.
  - rewrite HB2, HB. naive_solver.
Qed.

(** On well-formed logs [compactLogs] succeeds (no nil dereference), keeps
    them well formed, keeps the order of what is left, and deletes exactly the
    removals and fee updates both commitment tails have passed together with the
    HTLCs those removals settled or failed; the counters stay. *)
Theorem compactLogs_correct {E} h l r A B : logs_ok h A B ->
  exists A' B', @compactLogs E h A B l r = Ok (A', B') /\ logs_ok h A' B' /\
    compacted h l r A B A' /\ compacted h l r B A B'.
Proof. apply compactLogs_spec. Qed.

(** ** The invariant under the operations *)

(** Between [h] and [h'], descriptors were allocated and fields outside [pd_id]
    (heights, output indexes, scripts) were written. *)
Definition heap_le (h h' : heap) : Prop :=
  (length h <= length h')%nat /\
  forall p, (p < length h)%nat -> pd_id (deref h' p) = pd_id (deref h p).

#[export] Instance heap_le_preorder : PreOrder heap_le.
Proof.
  split; [done|]. intros h1 h2 h3 [Hl1 H1] [Hl2 H2]. split; [lia|].
  intros p Hp. rewrite H2 by lia. by apply H1.
Qed.

Lemma pd_id_inv a b : pd_id a = pd_id b ->
  pd_EntryType a = pd_EntryType b /\ pd_LogIndex a = pd_LogIndex b /\
  pd_HtlcIndex a = pd_HtlcIndex b /\ pd_ParentIndex a = pd_ParentIndex b.
Proof. unfold pd_id. intros H. by simplify_eq. Qed.

Lemma log_wf_heap_le h h' u : heap_le h h' -> log_wf h u -> log_wf h' u.
Proof.
  intros [Hlen Hid] [Hnd Ha Hh Hu Hn Hnh Hr].
  assert (Hp : forall p, p ∈ entries u -> pd_id (deref h' p) = pd_id (deref h p)) by auto.
  split; [done| | | | | |done].
  - intros p ?%Ha. lia.
  - intros i p. rewrite Hh. split; intros (Hin & ? & ?);
      destruct (pd_id_inv _ _ (Hp p Hin)) as (? & ? & ? & ?); repeat split; congruence.
  - intros i p. rewrite Hu. split; intros (Hin & ? & ?);
      destruct (pd_id_inv _ _ (Hp p Hin)) as (? & ? & ? & ?); repeat split; congruence.
  - intros p Hin. destruct (pd_id_inv _ _ (Hp p Hin)) as (? & -> & ? & ?). auto.
  - intros p Hin. destruct (pd_id_inv _ _ (Hp p Hin)) as (-> & ? & -> & ?). auto.
Qed.

Lemma removals_heap_le h h' A B : heap_le h h' -> log_wf h A -> removals h A B -> removals h' A B.
Proof.
  intros [Hlen Hid] HA [Hm Hu Hpar].
  assert (Hp : forall p, p ∈ entries A -> pd_id (deref h' p) = pd_id (deref h p)).
  { intros p Hin. apply Hid, (lw_alloc _ _ HA), Hin. }
  split; [| |done].
  - intros i. rewrite Hm. apply exist_proper. intros p.
    split; intros (Hin & ? & ?); destruct (pd_id_inv _ _ (Hp p Hin)) as (? & ? & ? & ?);
      repeat split; congruence.
  - intros p q Hin Hin'. destruct (pd_id_inv _ _ (Hp p Hin)) as (-> & ? & ? & ->).
    destruct (pd_id_inv _ _ (Hp q Hin')) as (-> & ? & ? & ->). by apply Hu.
Qed.

Lemma logs_ok_heap_le h h' A B : heap_le h h' -> logs_ok h A B -> logs_ok h' A B.
Proof.
  intros Hle [HA HB HAB HBA Hd].
  split; [by eapply log_wf_heap_le|by eapply log_wf_heap_le| | |done];
    eapply removals_heap_le; done.
Qed.

(** Allocation. *)
Lemma heap_le_alloc h pd : heap_le h (h ++ [pd]).
Proof.
  split; [rewrite length_app; lia|]. intros p Hp. unfold deref. by rewrite lookup_app_l.
Qed.

Lemma deref_alloc h pd : deref (h ++ [pd]) (length h) = pd.
Proof. unfold deref. by rewrite list_lookup_middle. Qed.

(** A write to fields outside [pd_id]. *)
Definition write (h : heap) (p : ptr) (f : PaymentDescriptor -> PaymentDescriptor) : heap :=
  alter f p h.

Lemma deref_write h p q f : (p < length h)%nat ->
  deref (write h p f) q = if decide (p = q) then f (deref h q) else deref h q.
Proof.
  intros Hp. unfold deref, write. case_decide as Heq; subst.
  - rewrite list_lookup_alter_eq. by destruct (lookup_lt_is_Some_2 h q Hp) as [x ->].
  - by rewrite list_lookup_alter_ne.
Qed.

Lemma heap_le_write h p f : (forall pd, pd_id (f pd) = pd_id pd) -> heap_le h (write h p f).
Proof.
  intros Hf. split; [by unfold write; rewrite length_alter|].
  intros q Hq. unfold deref, write. destruct (decide (p = q)) as [->|Hne].
  - rewrite list_lookup_alter_eq. by destruct (lookup_lt_is_Some_2 h q Hq) as [x ->]; cbn.
  - by rewrite list_lookup_alter_ne.
Qed.

Lemma elem_of_snoc {A} (x y : A) l : x ∈ l ++ [y] <-> x ∈ l \/ x = y.
Proof. rewrite elem_of_app, list_elem_of_singleton. done. Qed.

Section Appends.
Context (h : heap) (A B : updateLog) (p : ptr).
Context (Hok : logs_ok h A B) (Hp : (p < length h)%nat) (HpA : p ∉ entries A) (HpB : p ∉ entries B).
Context (HL : pd_LogIndex (deref h p) = logIndex A) (Hbnd : logIndex A + 1 < 2 ^ 64).

Lemma appended_nodup : NoDup (entries A ++ [p]).
Proof.
  apply list.NoDup_app. split; [apply (lw_nodup _ _ (lo_A _ _ _ Hok))|].
  split; [|apply list.NoDup_singleton]. intros q Hq ->%list_elem_of_singleton. done.
Qed.

Lemma bumped : u64 (logIndex A + 1) = logIndex A + 1.
Proof. apply uwrap_id. destruct (lw_range _ _ (lo_A _ _ _ Hok)). unfold is_uint. lia. Qed.

(** A new HTLC: [AddHTLC] and [ReceiveHTLC]. *)
Lemma appendHtlc_ok : pd_EntryType (deref h p) = Add ->
  pd_HtlcIndex (deref h p) = htlcCounter A -> htlcCounter A + 1 < 2 ^ 64 ->
  logs_ok h (appendHtlc A p) B.
Proof using Type*.
  intros Ht HI Hbnd'. destruct Hok as [HA HB [Hm Hu Hpar] HBA Hd].
  pose proof (lw_range _ _ HA) as [HrL HrH].
  assert (HuH : u64 (htlcCounter A + 1) = htlcCounter A + 1) by (apply uwrap_id; unfold is_uint; lia).
  split; [split|done|split|destruct HBA as [Hm' Hu' Hpar']; split|]; cbn;
    rewrite ?bumped, ?HuH; try setoid_rewrite elem_of_snoc.
  - apply appended_nodup.
  - intros q [Hq| ->]; [by apply (lw_alloc _ _ HA)|done].
  - intros i q. rewrite lookup_insert_Some, (lw_htlc _ _ HA). split.
    + intros [[<- <-]|[Hne (Hq & Ha & Hi)]]; [tauto|tauto].
    + intros ([Hq| ->] & Ha & Hi); [|left; split; congruence].
      right. split; [|done]. pose proof (lw_next_htlc _ _ HA q Hq Ha). lia.
  - intros i q. rewrite (lw_update _ _ HA). split; [tauto|].
    intros ([Hq| ->] & Ha & Hi); done.
  - intros q [Hq| ->]; [pose proof (lw_next _ _ HA q Hq)|]; lia.
  - intros q [Hq| ->] Ha; [pose proof (lw_next_htlc _ _ HA q Hq Ha)|]; lia.
  - lia.
  - intros i. rewrite Hm. split; [naive_solver|].
    intros (q & [Hq| ->] & Hrm & Hi); [naive_solver|by rewrite Ht in Hrm].
  - intros q q' [Hq| ->] [Hq'| ->] Hr Hr'; [by apply Hu|by rewrite Ht in Hr'|by rewrite Ht in Hr|done].
  - done.
  - done.
  - done.
  - intros i Hi. destruct (Hpar' i Hi) as [q Hq]. destruct (decide (htlcCounter A = i)) as [<-|].
    + rewrite lookup_insert_eq. done.
    + rewrite lookup_insert_ne by done. done.
  - intros q [Hq| ->] HqB; [by apply (Hd q)|done].
Qed.

Lemma appendUpdate_wf : pd_EntryType (deref h p) <> Add -> log_wf h (appendUpdate A p).
Proof using Type*.
  intros Ht. pose proof (lo_A _ _ _ Hok) as HA. pose proof (lw_range _ _ HA) as [HrL HrH].
  split; cbn; rewrite ?bumped; try setoid_rewrite elem_of_snoc.
  - apply appended_nodup.
  - intros q [Hq| ->]; [by apply (lw_alloc _ _ HA)|done].
  - intros i q. rewrite (lw_htlc _ _ HA). split; [tauto|].
    intros ([Hq| ->] & Ha & Hi); done.
  - intros i q. rewrite lookup_insert_Some, (lw_update _ _ HA). split.
    + intros [[<- <-]|[Hne (Hq & Ha & Hi)]]; [tauto|tauto].
    + intros ([Hq| ->] & Ha & Hi); [|left; split; congruence].
      right. split; [|done]. pose proof (lw_next _ _ HA q Hq). lia.
  - intros q [Hq| ->]; [pose proof (lw_next _ _ HA q Hq)|]; lia.
  - intros q [Hq| ->] Ha; [apply (lw_next_htlc _ _ HA q Hq Ha)|done].
  - lia.
Qed.

(** A new fee update: [UpdateFee] and [ReceiveUpdateFee]. *)
Lemma appendFee_ok : pd_EntryType (deref h p) = FeeUpdate -> logs_ok h (appendUpdate A p) B.
Proof using Type*.
  intros Ht. assert (HA' := appendUpdate_wf). rewrite Ht in HA'. specialize (HA' ltac:(done)).
  destruct Hok as [HA HB [Hm Hu Hpar] [Hm' Hu' Hpar'] Hd].
  split; [done|done|split|split|]; cbn; try setoid_rewrite elem_of_snoc; try done.
  - intros i. rewrite Hm. split; [naive_solver|].
    intros (q & [Hq| ->] & Hrm & Hi); [naive_solver|by rewrite Ht in Hrm].
  - intros q q' [Hq| ->] [Hq'| ->] Hr Hr'; [by apply Hu|by rewrite Ht in Hr'|by rewrite Ht in Hr|done].
  - intros q [Hq| ->] HqB; [by apply (Hd q)|done].
Qed.

(** A new settle or fail together with the mark on the HTLC it removes. *)
Lemma appendRemoval_ok : is_removal (pd_EntryType (deref h p)) = true ->
  is_Some (htlcIndex B !! pd_ParentIndex (deref h p)) ->
  htlcHasModification B (pd_ParentIndex (deref h p)) = false ->
  logs_ok h (appendUpdate A p) (markHtlcModified B (pd_ParentIndex (deref h p))).
Proof using Type*.
  intros Ht Hsome Hno%bool_decide_eq_false.
  assert (HA' := appendUpdate_wf (is_removal_not_add _ Ht)).
  destruct Hok as [HA HB [Hm Hu Hpar] [Hm' Hu' Hpar'] Hd].
  assert (Hnew : forall q, q ∈ entries A -> is_removal (pd_EntryType (deref h q)) = true ->
    pd_ParentIndex (deref h q) <> pd_ParentIndex (deref h p)).
  { intros q Hq Hr He. apply Hno, Hm. by exists q. }
  split; [done|by destruct HB; split|split|split|]; cbn; try setoid_rewrite elem_of_snoc; try done.
  - intros i. rewrite elem_of_union, elem_of_singleton, Hm. split; [naive_solver|].
    intros (q & [Hq| ->] & Hrm & Hi); naive_solver.
  - intros q q' [Hq| ->] [Hq'| ->] Hr Hr' He; [by apply Hu| | |done].
    + by destruct (Hnew q Hq Hr).
    + by destruct (Hnew q' Hq' Hr').
  - intros i [->%elem_of_singleton|Hi]%elem_of_union; [done|by apply Hpar].
  - intros q [Hq| ->] HqB; [by apply (Hd q)|done].
Qed.
End Appends.

Lemma logs_ok_new h l1 c1 l2 c2 : is_uint 64 l1 -> is_uint 64 c1 -> is_uint 64 l2 -> is_uint 64 c2 ->
  logs_ok h (newUpdateLog l1 c1) (newUpdateLog l2 c2).
Proof.
  intros ? ? ? ?.
  split; [split|split|split|split|]; cbn; unfold is_uint in *; try setoid_rewrite elem_of_nil;
    try setoid_rewrite lookup_empty; try set_solver; try (intros; naive_solver);
    try (constructor; done); try lia.
Qed.

(** An HTLC of log [A] settled by log [B], the settle committed at height 3 of
    both chains. *)
Definition sample_heap : heap :=
  [zero_pd;
   zero_pd <| pd_EntryType := Settle |> <| removeCommitHeightRemote := 3 |>
           <| removeCommitHeightLocal := 3 |>].

Lemma compactLogs_correct_witness :
  exists A' B', @compactLogs string sample_heap
      (markHtlcModified (appendHtlc (newUpdateLog 0 0) 0) 0) (appendUpdate (newUpdateLog 0 0) 1) 3 3
    = Ok (A', B') /\ logs_ok sample_heap A' B' /\ entries A' = [] /\ entries B' = [] /\
      htlcCounter A' = 1 /\ logIndex B' = 1.
Proof.
  assert (H0 : logs_ok sample_heap (appendHtlc (newUpdateLog 0 0) 0) (newUpdateLog 0 0)).
  { apply appendHtlc_ok; [by apply logs_ok_new|cbn; lia|by apply not_elem_of_nil..| | | | |]; done. }
  apply logs_ok_sym in H0.
  assert (H1 : logs_ok sample_heap (markHtlcModified (appendHtlc (newUpdateLog 0 0) 0) 0)
                 (appendUpdate (newUpdateLog 0 0) 1)).
  { apply logs_ok_sym. refine (appendRemoval_ok _ _ _ 1 H0 _ _ _ _ _ _ _ _);
      [cbn; lia|by apply not_elem_of_nil|cbn; by rewrite list_elem_of_singleton| | |done| |]; done. }
  destruct (@compactLogs_correct string sample_heap 3 3 _ _ H1) as (A' & B' & Hc & Hok & _ & _).
  exists A', B'. split; [exact Hc|split; [exact Hok|]].
  vm_compute in Hc. injection Hc as <- <-. done.
Defined.
