(* ===== verification/Circuits.v ===== *)
(** * The circuit map of the switch ([htlcswitch/circuit_map.go], [circuit.go])

    For every HTLC that is forwarded the switch keeps a circuit: where it came
    from, and, once the outgoing link gave it an index, where it went.  The maps
    of the memory share pointers to circuits, so circuits live in a heap; the two
    buckets of the disk hold the circuits and their keystones.  An operation runs
    under the lock of the map; whether its database transaction commits is an
    argument. *)

From S2P Require Import Prelude Wire Messages Failures Units Tx FwdPkg UpdateLog.

(** ** Circuits *)

(** The error encrypter of a forwarded HTLC is known by its ephemeral key; the
    encrypter used in tests has no data. *)
Inductive ErrorEncrypter : Type := SphinxErrorEncrypter (EphemeralKey : bytes) | mockObfuscator.

Record PaymentCircuit := mkCircuit {
  pc_AddRef : AddRef;
  Incoming : CircuitKey;
  Outgoing : option CircuitKey;
  pc_PaymentHash : bytes;
  IncomingAmount : Z;
  OutgoingAmount : Z;
  pc_AssetId : Z;
  Encrypter : option ErrorEncrypter;
  LoadedFromDisk : bool
}.

#[export] Instance PaymentCircuit_eta : Eta PaymentCircuit := fun c =>
  mkCircuit (pc_AddRef c) (Incoming c) (Outgoing c) (pc_PaymentHash c) (IncomingAmount c) (OutgoingAmount c)
    (pc_AssetId c) (Encrypter c) (LoadedFromDisk c).

Definition EmptyCircuitKey : CircuitKey := mkCircuitKey (mkSCID 0 0 0) 0.
(** [hop.Source]. *)
Definition Source : ShortChannelID := mkSCID 0 0 0.

Definition HasKeystone (c : PaymentCircuit) : bool := bool_decide (is_Some (Outgoing c)).
Definition OutKey (c : PaymentCircuit) : CircuitKey := default EmptyCircuitKey (Outgoing c).

(** *** The form on disk *)
Inductive circuiterr : Type :=
| ErrUnknownCircuit | ErrCircuitClosing | ErrDuplicateKeystone | ErrEncrypter | ErrDatabase.

Definition CircuitKey_Encode (k : CircuitKey) : Writer := _ ← WriteUint64 (ToUint64 (ck_ChanID k)); WriteUint64 (ck_HtlcID k).
Definition CircuitKey_Decode : Reader CircuitKey :=
  chanID ← ReadUint64; htlcID ← ReadUint64; mret (mkCircuitKey (NewShortChanIDFromInt chanID) htlcID).

Definition EncrypterTypeNone : Z := 0.
Definition EncrypterTypeSphinx : Z := 1.
Definition EncrypterTypeMock : Z := 2.

Definition encrypterType (e : option ErrorEncrypter) : Z :=
  match e with
  | None => EncrypterTypeNone
  | Some (SphinxErrorEncrypter _) => EncrypterTypeSphinx
  | Some mockObfuscator => EncrypterTypeMock
  end.

Definition Circuit_Encode (c : PaymentCircuit) : Writer :=
  _ ← AddRef_Encode (pc_AddRef c);
  _ ← CircuitKey_Encode (Incoming c);
  _ ← WriteBytes (pc_PaymentHash c);
  _ ← WriteUint64 (IncomingAmount c);
  _ ← WriteUint64 (OutgoingAmount c);
  _ ← WriteUint32 (pc_AssetId c);
  _ ← WriteUint8 (encrypterType (Encrypter c));
  match Encrypter c with
  | Some (SphinxErrorEncrypter key) => WriteBytes key
  | _ => mret tt
  end.

Section Codec.
(** [btcec.ParsePubKey] succeeds. *)
Context (ParsePubKey : bytes -> bool).

Definition Circuit_Decode : Reader PaymentCircuit :=
  addRef ← AddRef_Decode;
  incoming ← CircuitKey_Decode;
  hash ← ReadFull 32;
  incomingAmount ← ReadUint64;
  outgoingAmount ← ReadUint64;
  assetId ← ReadUint32;
  type ← ReadUint8;
  encrypter ← (if type =? EncrypterTypeNone then mret None
               else if type =? EncrypterTypeSphinx then
                 key ← ReadFull 33;
                 _ ← check (negb (ParsePubKey key)) ErrParsePubKey;
                 mret (Some (SphinxErrorEncrypter key))
               else if type =? EncrypterTypeMock then mret (Some mockObfuscator)
               else throw (UnknownEncrypterType type));
  mret (mkCircuit addRef incoming None hash incomingAmount outgoingAmount assetId encrypter false).
End Codec.

(** *** Encrypting errors

    [EncryptError] of the onion library: the key, whether to add a MAC, the data. *)
Class SphinxLib : Type := { EncryptError : bytes -> bool -> bytes -> bytes }.

Section Encrypting.
Context `{VarIntOps, SphinxLib}.

(** A failure as plain bytes. *)
Definition encode_failure (failure : FailureMessage) : res failerr bytes :=
  match EncodeFailure failure [] with
  | (Ok _, b) => Ok b
  | (Err e, _) => Err e
  | (Panic, _) => Panic
  end.

Definition EncryptFirstHop (e : ErrorEncrypter) (failure : FailureMessage) : res failerr bytes :=
  b ← encode_failure failure;
  match e with
  | SphinxErrorEncrypter key => Ok (EncryptError key true b)
  | mockObfuscator => Ok b
  end.

Definition EncryptMalformedError (e : ErrorEncrypter) (reason : bytes) : bytes :=
  match e with SphinxErrorEncrypter key => EncryptError key true reason | mockObfuscator => reason end.

Definition IntermediateEncrypt (e : ErrorEncrypter) (reason : bytes) : bytes :=
  match e with SphinxErrorEncrypter key => EncryptError key false reason | mockObfuscator => reason end.
End Encrypting.

(** *** Packets ([packet.go])

    What links and switch hand each other about an HTLC; [pk_htlc] is an add, a
    fulfill or a fail.  Custom records, which are only handed on, are left out. *)
Record htlcPacket := mkPacket {
  incomingChanID : ShortChannelID;
  outgoingChanID : ShortChannelID;
  incomingHTLCID : Z;
  outgoingHTLCID : Z;
  sourceRef : option AddRef;
  destRef : option SettleFailRef;
  pk_incomingAmount : Z;
  pk_amount : Z;
  pk_assetId : Z;
  pk_htlc : UpdateMsg;
  obfuscator : option ErrorEncrypter;
  localFailure : bool;
  linkFailure : option LinkError;
  convertedError : bool;
  hasSource : bool;
  isResolution : bool;
  pk_circuit : option PaymentCircuit;
  incomingTimeout : Z;
  outgoingTimeout : Z
}.

#[export] Instance htlcPacket_eta : Eta htlcPacket := fun p =>
  mkPacket (incomingChanID p) (outgoingChanID p) (incomingHTLCID p) (outgoingHTLCID p) (sourceRef p) (destRef p) (pk_incomingAmount p)
    (pk_amount p) (pk_assetId p) (pk_htlc p) (obfuscator p) (localFailure p) (linkFailure p) (convertedError p) (hasSource p)
    (isResolution p) (pk_circuit p) (incomingTimeout p) (outgoingTimeout p).

Definition inKey (p : htlcPacket) : CircuitKey := mkCircuitKey (incomingChanID p) (incomingHTLCID p).
Definition outKey (p : htlcPacket) : CircuitKey := mkCircuitKey (outgoingChanID p) (outgoingHTLCID p).

Definition newPaymentCircuit (hash : bytes) (pkt : htlcPacket) : PaymentCircuit :=
  mkCircuit (default (mkAddRef 0 0) (sourceRef pkt)) (mkCircuitKey (incomingChanID pkt) (incomingHTLCID pkt)) None
    hash (pk_incomingAmount pkt) (pk_amount pkt) (pk_assetId pkt) (obfuscator pkt) false.

(** What the disk keeps of a circuit. *)
Definition persisted (c : PaymentCircuit) : PaymentCircuit := c <| Outgoing := None |> <| LoadedFromDisk := false |>.

(** ** The circuit map *)
Record CircuitFwdActions := mkActions { Adds : list PaymentCircuit; Drops : list PaymentCircuit; Fails : list PaymentCircuit }.
Record Keystone := mkKeystone { ks_InKey : CircuitKey; ks_OutKey : CircuitKey }.

Definition keystone (p : htlcPacket) : Keystone := mkKeystone (inKey p) (outKey p).

Record circuitMap := mkCircuitMap {
  cm_heap : gmap Z PaymentCircuit;
  cm_next : Z;
  pending : gmap CircuitKey Z;
  opened : gmap CircuitKey Z;
  closed : gset CircuitKey;
  hashIndex : gmap bytes (gset CircuitKey);
  (** The buckets [circuit-adds] and [circuit-keystones]. *)
  cm_adds : gmap CircuitKey PaymentCircuit;
  cm_keystones : gmap CircuitKey CircuitKey
}.

#[export] Instance circuitMap_eta : Eta circuitMap := fun m =>
  mkCircuitMap (cm_heap m) (cm_next m) (pending m) (opened m) (closed m) (hashIndex m) (cm_adds m) (cm_keystones m).

Abbreviation CM := (M circuitMap circuiterr).

(** A database transaction that commits, or fails and changes nothing. *)
Definition db_update (commits : bool) (f : circuitMap -> circuitMap) : CM unit :=
  if commits then modify f else throw ErrDatabase.

(** The circuit a pointer of the map leads to. *)
Definition deref (m : circuitMap) (l : option Z) : option PaymentCircuit := l ← l; cm_heap m !! l.

Definition LookupCircuit (inKey : CircuitKey) (m : circuitMap) : option PaymentCircuit := deref m (pending m !! inKey).
Definition LookupOpenCircuit (outKey : CircuitKey) (m : circuitMap) : option PaymentCircuit := deref m (opened m !! outKey).
Definition LookupByPaymentHash (hash : bytes) (m : circuitMap) : list PaymentCircuit :=
  omap (fun k => deref m (opened m !! k)) (elements (default ∅ (hashIndex m !! hash))).

Definition addCircuitToHashIndex (c : PaymentCircuit) (m : circuitMap) : circuitMap :=
  m <| hashIndex ::= fun ix => <[pc_PaymentHash c := {[OutKey c]} ∪ default ∅ (ix !! pc_PaymentHash c)]> ix |>.

Definition removeCircuitFromHashIndex (c : PaymentCircuit) (m : circuitMap) : circuitMap :=
  match hashIndex m !! pc_PaymentHash c with
  | None => m
  | Some set =>
      let set := set ∖ {[OutKey c]} in
      m <| hashIndex ::= if bool_decide (set = ∅) then delete (pc_PaymentHash c) else <[pc_PaymentHash c := set]> |>
  end.

(** *** Committing *)

(** The circuits of a batch so far: those to add, to drop, to fail, and those to
    fail should the write fail. *)
Record batch := mkBatch { b_adds : list PaymentCircuit; b_drops : list PaymentCircuit; b_fails : list PaymentCircuit; b_addFails : list PaymentCircuit }.

Definition reconcileOne (c : PaymentCircuit) (s : circuitMap * batch) : circuitMap * batch :=
  let '(m, b) := s in
  match LookupCircuit (Incoming c) m with
  | Some found =>
      if HasKeystone found || negb (LoadedFromDisk found) then
        (m, mkBatch (b_adds b) (b_drops b ++ [c]) (b_fails b) (b_addFails b))
      else (m, mkBatch (b_adds b) (b_drops b) (b_fails b ++ [c]) (b_addFails b ++ [c]))
  | None =>
      (m <| cm_heap ::= <[cm_next m := c]> |> <| pending ::= <[Incoming c := cm_next m]> |> <| cm_next ::= Z.succ |>,
       mkBatch (b_adds b ++ [c]) (b_drops b) (b_fails b) (b_addFails b ++ [c]))
  end.

Fixpoint reconcile (cs : list PaymentCircuit) (s : circuitMap * batch) : circuitMap * batch :=
  match cs with [] => s | c :: cs => reconcile cs (reconcileOne c s) end.

(** The actions are returned with the error. *)
Definition CommitCircuits (commits : bool) (circuits : list PaymentCircuit) (m : circuitMap) :
    CircuitFwdActions * option circuiterr * circuitMap :=
  let '(m, b) := reconcile circuits (m, mkBatch [] [] [] []) in
  match b_adds b with
  | [] => (mkActions [] (b_drops b) (b_fails b), None, m)
  | adds =>
      if commits then
        (mkActions adds (b_drops b) (b_fails b), None,
         m <| cm_adds ::= fun bkt => foldl (fun bkt c => <[Incoming c := persisted c]> bkt) bkt adds |>)
      else
        (mkActions [] (b_drops b) (b_addFails b), Some ErrDatabase,
         m <| pending ::= fun p => foldl (fun p c => delete (Incoming c) p) p adds |>)
  end.

(** *** Opening *)
Fixpoint checkKeystones (keystones : list Keystone) (m : circuitMap) : res circuiterr (list (Z * Keystone)) :=
  match keystones with
  | [] => Ok []
  | ks :: keystones =>
      _ ← guard_err (bool_decide (is_Some (opened m !! ks_OutKey ks))) ErrDuplicateKeystone;
      match pending m !! ks_InKey ks with
      | None => Err ErrUnknownCircuit
      | Some l => rest ← checkKeystones keystones m; Ok ((l, ks) :: rest)
      end
  end.

Definition openOne (m : circuitMap) (lk : Z * Keystone) : circuitMap :=
  let m := m <| cm_heap ::= alter (fun c => c <| Outgoing := Some (ks_OutKey lk.2) |>) lk.1 |>
             <| opened ::= <[ks_OutKey lk.2 := lk.1]> |> in
  match cm_heap m !! lk.1 with Some c => addCircuitToHashIndex c m | None => m end.

Definition OpenCircuits (commits : bool) (keystones : list Keystone) : CM unit :=
  openedCircuits ← (fun m => (checkKeystones keystones m, m));
  match keystones with
  | [] => mret tt
  | _ =>
      _ ← db_update commits (fun m => m <| cm_keystones ::= fun bkt => foldl (fun bkt ks => <[ks_OutKey ks := ks_InKey ks]> bkt) bkt keystones |>);
      modify (fun m => foldl openOne m openedCircuits)
  end.

(** *** Trimming

    The loop runs to the first index that is not open; every turn removes an open
    circuit, so the size of [opened] bounds it. *)
Definition trimOne (outKey : CircuitKey) (l : Z) (m : circuitMap) : circuitMap :=
  let m := m <| cm_heap ::= alter (fun c => c <| Outgoing := None |>) l |> <| opened ::= delete outKey |> in
  match cm_heap m !! l with Some c => removeCircuitFromHashIndex c m | None => m end.

Fixpoint trim_loop (fuel : nat) (chanID : ShortChannelID) (i : Z) (m : circuitMap) : option (list CircuitKey * circuitMap) :=
  match fuel with
  | O => None
  | S fuel =>
      let outKey := mkCircuitKey chanID i in
      match opened m !! outKey with
      | None => Some ([], m)
      | Some l => r ← trim_loop fuel chanID (u64 (i + 1)) (trimOne outKey l m); Some (outKey :: r.1, r.2)
      end
  end.

Definition TrimOpenCircuits (commits : bool) (chanID : ShortChannelID) (start : Z) : CM unit := fun m =>
  match trim_loop (S (size (opened m))) chanID start m with
  | None => (Panic, m)
  | Some (trimmed, m) =>
      match trimmed with
      | [] => (Ok tt, m)
      | _ => db_update commits (fun m => m <| cm_keystones ::= fun bkt => foldl (fun bkt k => delete k bkt) bkt trimmed |>) m
      end
  end.

(** *** Closing and deleting *)
Definition FailCircuit (inKey : CircuitKey) : CM PaymentCircuit :=
  m ← get;
  match LookupCircuit inKey m with
  | None => throw ErrUnknownCircuit
  | Some circuit =>
      _ ← check (bool_decide (inKey ∈ closed m)) ErrCircuitClosing;
      _ ← modify (fun m => m <| closed ::= union {[inKey]} |>);
      mret circuit
  end.

Definition CloseCircuit (outKey : CircuitKey) : CM PaymentCircuit :=
  m ← get;
  match LookupOpenCircuit outKey m with
  | None => throw ErrUnknownCircuit
  | Some circuit =>
      _ ← check (bool_decide (Incoming circuit ∈ closed m)) ErrCircuitClosing;
      _ ← modify (fun m => m <| closed ::= union {[Incoming circuit]} |>);
      mret circuit
  end.

(** What was removed: pointers, the circuits at that time, and whether they were
    closing. *)
Record removed := mkRemoved { rm_key : CircuitKey; rm_ptr : Z; rm_circuit : PaymentCircuit; rm_closing : bool }.

Definition removeOne (inKey : CircuitKey) (c : PaymentCircuit) (m : circuitMap) : circuitMap :=
  let m := m <| pending ::= delete inKey |> <| closed ::= fun s => s ∖ {[inKey]} |> in
  if HasKeystone c then removeCircuitFromHashIndex c (m <| opened ::= delete (OutKey c) |>) else m.

Fixpoint removeCircuits (inKeys : list CircuitKey) (m : circuitMap) : list removed * circuitMap :=
  match inKeys with
  | [] => ([], m)
  | inKey :: inKeys =>
      match pending m !! inKey, LookupCircuit inKey m with
      | Some l, Some c =>
          let '(rest, m') := removeCircuits inKeys (removeOne inKey c m) in
          (mkRemoved inKey l c (bool_decide (inKey ∈ closed m)) :: rest, m')
      | _, _ => removeCircuits inKeys m
      end
  end.

Definition deleteStored (m : circuitMap) (r : removed) : circuitMap :=
  let c := rm_circuit r in
  (if HasKeystone c then m <| cm_keystones ::= delete (OutKey c) |> else m) <| cm_adds ::= delete (Incoming c) |>.

Definition restoreRemoved (m : circuitMap) (r : removed) : circuitMap :=
  let c := rm_circuit r in
  let m := m <| pending ::= <[rm_key r := rm_ptr r]> |> <| closed ::= fun s => if rm_closing r then {[rm_key r]} ∪ s else s |> in
  if HasKeystone c then addCircuitToHashIndex c (m <| opened ::= <[OutKey c := rm_ptr r]> |>) else m.

Definition DeleteCircuits (commits : bool) (inKeys : list CircuitKey) : CM unit := fun m =>
  let '(rs, m) := removeCircuits inKeys m in
  match db_update commits (fun m => foldl deleteStored m rs) m with
  | (Ok tt, m) => (Ok tt, m)
  | (r, m) => (r, foldl restoreRemoved m rs)
  end.

Definition NumPending (m : circuitMap) : Z := Z.of_nat (size (pending m)).
Definition NumOpen (m : circuitMap) : Z := Z.of_nat (size (opened m)).

(** ** Starting up *)
Record closedChannel := mkClosedChannel { cc_ShortChanID : ShortChannelID; cc_IsPending : bool }.
Record activeChannel := mkActiveChannel { ac_ShortChanID : ShortChannelID; ac_IsPending : bool; ac_NextLocalHtlcIndex : Z }.

Section Start.
(** The shared secret of an ephemeral key can be extracted ([ExtractErrorEncrypter]). *)
Context (extracts : bytes -> bool).

Definition decodeCircuit (c : PaymentCircuit) : res circuiterr PaymentCircuit :=
  match Encrypter c with
  | Some (SphinxErrorEncrypter key) => if extracts key then Ok c else Err ErrEncrypter
  | _ => Ok c
  end.

Definition isClosedChannel (channels : list closedChannel) (chanID : ShortChannelID) : bool :=
  if ToUint64 chanID =? 0 then false
  else bool_decide (chanID ∈ cc_ShortChanID <$> filter (fun c => cc_IsPending c = false) channels).

(** The keys of the circuits and of the keystones to delete. *)
Definition closedKeys (channels : list closedChannel) (m : circuitMap) : gset CircuitKey * gset CircuitKey :=
  let circuits : gset CircuitKey :=
    list_to_set (Incoming <$> filter (fun c => isClosedChannel channels (ck_ChanID (Incoming c)) = true) (map_to_list (cm_adds m)).*2) in
  let stones := filter (fun oi : CircuitKey * CircuitKey =>
    isClosedChannel channels (ck_ChanID oi.2) || isClosedChannel channels (ck_ChanID oi.1) = true) (map_to_list (cm_keystones m)) in
  (circuits ∪ list_to_set stones.*2, list_to_set stones.*1).

Definition cleanClosedChannels (channels : list closedChannel) : CM unit :=
  match filter (fun c => cc_IsPending c = false) channels with
  | [] => mret tt
  | _ =>
      m ← get;
      _ ← lift (mapM decodeCircuit (map_to_list (cm_adds m)).*2);
      let '(circuitKeySet, keystoneKeySet) := closedKeys channels m in
      modify (fun m => m <| cm_adds ::= filter (fun kc => kc.1 ∉ circuitKeySet) |>
                         <| cm_keystones ::= filter (fun kc => kc.1 ∉ keystoneKeySet) |>)
  end.

(** The circuits of the disk get pointers. *)
Definition loadOne (m : circuitMap) (c : PaymentCircuit) : circuitMap :=
  m <| cm_heap ::= <[cm_next m := c <| LoadedFromDisk := true |>]> |> <| pending ::= <[Incoming c := cm_next m]> |> <| cm_next ::= Z.succ |>.

(** A keystone opens its circuit, or is stray. *)
Definition reopenOne (m : circuitMap) (oi : CircuitKey * CircuitKey) : circuitMap :=
  match pending m !! oi.2 with
  | None => m
  | Some l => m <| cm_heap ::= alter (fun c => c <| Outgoing := Some oi.1 |>) l |> <| opened ::= <[oi.1 := l]> |>
  end.

(** The order of the keys of a bucket. *)
Definition key_lt (a b : CircuitKey) : bool :=
  (ToUint64 (ck_ChanID a) <? ToUint64 (ck_ChanID b)) ||
  (ToUint64 (ck_ChanID a) =? ToUint64 (ck_ChanID b)) && (ck_HtlcID a <? ck_HtlcID b).

Definition keystones_in_order (m : circuitMap) : list (CircuitKey * CircuitKey) :=
  go_sort (fun a b => key_lt a.1 b.1) (map_to_list (cm_keystones m)).

Definition restoreMemState : CM unit :=
  m ← get;
  circuits ← lift (mapM decodeCircuit (map_to_list (cm_adds m)).*2);
  modify (fun m =>
    let keystones := keystones_in_order m in
    let m := mkCircuitMap ∅ 0 ∅ ∅ ∅ ∅ (cm_adds m) (cm_keystones m) in
    let m := foldl loadOne m circuits in
    let m := m <| cm_keystones ::= fun bkt => foldl (fun bkt k => delete k bkt) bkt
      (filter (fun oi : CircuitKey * CircuitKey => pending m !! oi.2 = None /\ ck_ChanID oi.1 = Source) keystones).*1 |> in
    let m := foldl reopenOne m keystones in
    foldl (fun m l => match cm_heap m !! l with Some c => addCircuitToHashIndex c m | None => m end) m (map_to_list (opened m)).*2).

Fixpoint trimAllOpenCircuits (commits : bool) (channels : list activeChannel) : CM unit :=
  match channels with
  | [] => mret tt
  | c :: channels =>
      _ ← (if ac_IsPending c || bool_decide (ac_ShortChanID c = Source) then mret tt
           else TrimOpenCircuits commits (ac_ShortChanID c) (ac_NextLocalHtlcIndex c));
      trimAllOpenCircuits commits channels
  end.

(** [NewCircuitMap] on the disk of [m]. *)
Definition NewCircuitMap (closedChannels : list closedChannel) (activeChannels : list activeChannel) : CM unit :=
  _ ← cleanClosedChannels closedChannels;
  _ ← restoreMemState;
  trimAllOpenCircuits true activeChannels.
End Start.

Definition empty_circuitMap : circuitMap := mkCircuitMap ∅ 0 ∅ ∅ ∅ ∅ ∅ ∅.
