(* ===== verification/CircuitOps.v ===== *)
(** * What the operations of the circuit map do

    The invariant of the map, memory and disk, and for committing, opening,
    trimming, closing and deleting circuits: that they keep it, and what becomes of
    the circuits. *)

From S2P Require Import Prelude Wire Messages ChanIds Units Tx FwdPkg UpdateLog Circuits.

(** ** What holds between operations

    The maps of the memory agree with the circuits they point to. *)
Record cm_ok (m : circuitMap) : Prop := {
  ok_next l c : cm_heap m !! l = Some c -> l < cm_next m;
  ok_pending k l : pending m !! k = Some l -> exists c, cm_heap m !! l = Some c /\ Incoming c = k;
  ok_opened o l : opened m !! o = Some l <->
    exists c, cm_heap m !! l = Some c /\ Outgoing c = Some o /\ pending m !! Incoming c = Some l;
  ok_closed k : k ∈ closed m -> is_Some (pending m !! k);
  ok_index o l c : opened m !! o = Some l -> cm_heap m !! l = Some c ->
    o ∈ (default ∅ (hashIndex m !! pc_PaymentHash c) : gset CircuitKey);
  ok_nonempty : opened m !! EmptyCircuitKey = None
}.

(** The buckets hold what the maps hold. *)
Definition synced (m : circuitMap) : Prop :=
  (forall k, cm_adds m !! k = persisted <$> LookupCircuit k m) /\
  (forall o, cm_keystones m !! o = Incoming <$> LookupOpenCircuit o m).

(** They do, but for keystones of [stale] that are not open any more: a failed
    write of [TrimOpenCircuits] leaves them behind. *)
Definition synced_but (stale : gset CircuitKey) (m : circuitMap) : Prop :=
  (forall k, cm_adds m !! k = persisted <$> LookupCircuit k m) /\
  (forall o, cm_keystones m !! o = Incoming <$> LookupOpenCircuit o m \/ (o ∈ stale /\ LookupOpenCircuit o m = None)).

Lemma synced_but_none m : synced_but ∅ m <-> synced m.
Proof.
  split; intros [Ha Hk]; (split; [done|]); intros o; [|by left]. destruct (Hk o) as [?|[Hin _]]; [done|set_solver].
Qed.

Lemma synced_but_more (s s' : gset CircuitKey) m : s ⊆ s' -> synced_but s m -> synced_but s' m.
Proof. intros Hs [Ha Hk]. split; [done|]. intros o. destruct (Hk o) as [?|[? ?]]; [by left|right; set_solver]. Qed.

(** Only the lookups and the buckets matter. *)
Lemma synced_but_ext s m m' : (forall k, LookupCircuit k m' = LookupCircuit k m) ->
  (forall o, LookupOpenCircuit o m' = LookupOpenCircuit o m) -> cm_adds m' = cm_adds m -> cm_keystones m' = cm_keystones m ->
  synced_but s m -> synced_but s m'.
Proof. intros L1 L2 Ea Ek [Ha Hk]. split; intros x; rewrite ?L1, ?L2, ?Ea, ?Ek; auto. Qed.

Section Facts.
Context (m : circuitMap) (Hok : cm_ok m).

Lemma ok_lookup k l : pending m !! k = Some l -> LookupCircuit k m = cm_heap m !! l.
Proof. intros H. unfold LookupCircuit, deref. by rewrite H. Qed.

Lemma lookup_Some k c : LookupCircuit k m = Some c <->
  exists l, pending m !! k = Some l /\ cm_heap m !! l = Some c /\ Incoming c = k.
Proof.
  unfold LookupCircuit, deref. split.
  - destruct (pending m !! k) as [l|] eqn:Hl; [|done]. cbn. intros Hc. exists l. split; [done|]. split; [done|].
    apply (ok_pending m Hok) in Hl as (c' & Hc' & Hin). congruence.
  - intros (l & -> & Hc & _). done.
Qed.

Lemma lookup_None k : LookupCircuit k m = None <-> pending m !! k = None.
Proof.
  unfold LookupCircuit, deref. destruct (pending m !! k) as [l|] eqn:Hl; [|done]. cbn.
  apply (ok_pending m Hok) in Hl as (c' & Hc' & _). by rewrite Hc'.
Qed.

Lemma lookup_open_Some o c : LookupOpenCircuit o m = Some c <->
  LookupCircuit (Incoming c) m = Some c /\ Outgoing c = Some o.
Proof.
  unfold LookupOpenCircuit, deref. split.
  - destruct (opened m !! o) as [l|] eqn:Hl; [|done]. cbn. intros Hc.
    apply (ok_opened m Hok) in Hl as (c' & Hc' & Ho & Hp). assert (c' = c) as -> by congruence.
    split; [|done]. by rewrite (ok_lookup _ _ Hp).
  - intros [H Ho]. apply lookup_Some in H as (l & Hp & Hc & _).
    assert (Hl : opened m !! o = Some l) by (apply (ok_opened m Hok); eauto). rewrite Hl. done.
Qed.

Lemma opened_is_Some o : is_Some (opened m !! o) <-> is_Some (LookupOpenCircuit o m).
Proof.
  unfold LookupOpenCircuit, deref. destruct (opened m !! o) as [l|] eqn:Hl; [|by split; intros []]. cbn.
  apply (ok_opened m Hok) in Hl as (c & Hc & _). rewrite Hc. split; by eexists.
Qed.

Lemma index_hash o c : LookupOpenCircuit o m = Some c -> c ∈ LookupByPaymentHash (pc_PaymentHash c) m.
Proof.
  intros H. unfold LookupByPaymentHash. apply list_elem_of_omap. exists o.
  unfold LookupOpenCircuit, deref in *. destruct (opened m !! o) as [l|] eqn:Hl; [|done]. cbn in H.
  split; [|exact H]. apply elem_of_elements. by eapply ok_index.
Qed.
End Facts.

(** ** Folds over the buckets *)
Lemma lookup_foldl_delete {A B} (f : B -> CircuitKey) (l : list B) (p : gmap CircuitKey A) k :
  foldl (fun p b => delete (f b) p) p l !! k = if decide (k ∈ f <$> l) then None else p !! k.
Proof.
  revert p. induction l as [|b l IH]; intros p; cbn [foldl fmap list_fmap].
  - rewrite decide_False by apply not_elem_of_nil. done.
  - rewrite IH. destruct (decide (k ∈ f <$> l)) as [Hin|Hin].
    + by rewrite decide_True by (by right).
    + destruct (decide (f b = k)) as [<-|Hne].
      * rewrite decide_True by (by left). apply lookup_delete_eq.
      * rewrite decide_False by (rewrite elem_of_cons; naive_solver). by apply lookup_delete_ne.
Qed.

Lemma lookup_foldl_insert {A B} (f : B -> CircuitKey) (g : B -> A) (l : list B) (p : gmap CircuitKey A) k v :
  NoDup (f <$> l) ->
  foldl (fun p b => <[f b := g b]> p) p l !! k = Some v <->
    (exists b, b ∈ l /\ f b = k /\ g b = v) \/ (k ∉ f <$> l /\ p !! k = Some v).
Proof.
  revert p. induction l as [|b l IH]; intros p Hnd; cbn [foldl].
  - split; [right; split; [apply not_elem_of_nil|done]|]. intros [(b & Hb & _)|[_ H]]; [by apply not_elem_of_nil in Hb|done].
  - rewrite fmap_cons, list.NoDup_cons in Hnd. destruct Hnd as [Hb Hnd]. rewrite IH by done. rewrite fmap_cons. split.
    + intros [(b' & Hb' & Hf & Hg)|[Hk Hp]]; [left; exists b'; split; [by right|done]|].
      apply lookup_insert_Some in Hp as [[? ?]|[? ?]].
      * left. exists b. split; [by left|done].
      * right. split; [|done]. rewrite not_elem_of_cons. done.
    + intros [(b' & Hb' & Hf & Hg)|[Hk Hp]].
      * apply elem_of_cons in Hb' as [->|Hb']; [|left; eauto]. right. subst. split; [done|]. apply lookup_insert_eq.
      * apply not_elem_of_cons in Hk as [? ?]. right. split; [done|]. rewrite lookup_insert_ne by done. done.
Qed.

(** ** Committing circuits *)

(** A circuit a link hands to [CommitCircuits]. *)
Definition fresh_circuit (c : PaymentCircuit) : Prop := Outgoing c = None /\ LoadedFromDisk c = false.

Lemma new_circuit_fresh hash pkt : fresh_circuit (newPaymentCircuit hash pkt).
Proof. done. Qed.

(** A repeated circuit that needs no answer: the first one is on its way out, or
    still in a mailbox of this run of the switch. *)
Definition underway (c : PaymentCircuit) : Prop := HasKeystone c = true \/ LoadedFromDisk c = false.

(** The memory but for the pending circuits. *)
Definition same_opened (m m' : circuitMap) : Prop :=
  opened m' = opened m /\ closed m' = closed m /\ hashIndex m' = hashIndex m /\
  cm_adds m' = cm_adds m /\ cm_keystones m' = cm_keystones m.

Record reconciled (m0 : circuitMap) (cs : list PaymentCircuit) (m : circuitMap) (b : batch) : Prop := {
  rc_ok : cm_ok m;
  rc_same : same_opened m0 m;
  rc_heap : cm_heap m0 ⊆ cm_heap m;
  rc_perm : b_adds b ++ b_drops b ++ b_fails b ≡ₚ cs;
  rc_addFails : b_addFails b ≡ₚ b_adds b ++ b_fails b;
  rc_order : b_adds b `sublist_of` cs /\ b_drops b `sublist_of` cs /\ b_fails b `sublist_of` cs /\ b_addFails b `sublist_of` cs;
  rc_nodup : NoDup (Incoming <$> b_adds b);
  rc_new c : c ∈ b_adds b -> pending m0 !! Incoming c = None;
  rc_pending k l : pending m0 !! k = Some l -> pending m !! k = Some l;
  rc_lookup k c : LookupCircuit k m = Some c <-> LookupCircuit k m0 = Some c \/ (c ∈ b_adds b /\ Incoming c = k);
  rc_drops c : c ∈ b_drops b -> exists f, LookupCircuit (Incoming c) m = Some f /\ underway f;
  rc_fails c : c ∈ b_fails b -> exists f, LookupCircuit (Incoming c) m = Some f /\ ~ underway f
}.

Lemma reconciled_start m : cm_ok m -> reconciled m [] m (mkBatch [] [] [] []).
Proof.
  intros Hok. split; cbn; try done; try (by repeat split; constructor); try (by intros c Hc; apply not_elem_of_nil in Hc); try apply base.NoDup_nil_2.
  intros k c. split; [by left|]. intros [?|[Hc _]]; [done|by apply not_elem_of_nil in Hc].
Qed.

(** A fresh circuit under a new pointer. *)
Definition alloc (c : PaymentCircuit) (m : circuitMap) : circuitMap :=
  m <| cm_heap ::= <[cm_next m := c]> |> <| pending ::= <[Incoming c := cm_next m]> |> <| cm_next ::= Z.succ |>.

Section Alloc.
Context (m : circuitMap) (Hok : cm_ok m) (c : PaymentCircuit) (Hnew : pending m !! Incoming c = None).

Lemma next_unused : cm_heap m !! cm_next m = None.
Proof. destruct (cm_heap m !! cm_next m) eqn:H; [|done]. apply (ok_next m Hok) in H. lia. Qed.

Lemma pending_old k l : pending m !! k = Some l -> l <> cm_next m /\ k <> Incoming c.
Proof.
  intros Hl. split; [|by intros ->; congruence]. intros ->. apply (ok_pending m Hok) in Hl as (c' & Hc & _).
  rewrite next_unused in Hc. done.
Qed.

Lemma alloc_lookup k c' : LookupCircuit k (alloc c m) = Some c' <-> LookupCircuit k m = Some c' \/ (c' = c /\ Incoming c = k).
Proof.
  unfold LookupCircuit, deref, alloc. cbn. destruct (decide (k = Incoming c)) as [->|Hne].
  - rewrite lookup_insert_eq, Hnew. cbn. rewrite lookup_insert_eq. naive_solver.
  - rewrite lookup_insert_ne by done. destruct (pending m !! k) as [l|] eqn:Hl; cbn; [|naive_solver].
    apply pending_old in Hl as [Hl _]. rewrite lookup_insert_ne by done. naive_solver.
Qed.

Lemma alloc_ok : Outgoing c = None -> cm_ok (alloc c m).
Proof.
  intros Hout. split; cbn.
  - intros l c'. rewrite lookup_insert_Some. intros [[<- _]|[_ Hl]]; [lia|]. apply (ok_next m Hok) in Hl. lia.
  - intros k l. rewrite lookup_insert_Some. intros [[<- <-]|[Hne Hl]]; [exists c; by rewrite lookup_insert_eq|].
    pose proof (pending_old _ _ Hl) as [Hl' _]. rewrite lookup_insert_ne by done. by apply ok_pending.
  - intros o l. rewrite (ok_opened m Hok). split.
    + intros (c' & Hc & Ho & Hp). exists c'. pose proof (pending_old _ _ Hp) as [? ?]. by rewrite !lookup_insert_ne by done.
    + intros (c' & Hc & Ho & Hp). apply lookup_insert_Some in Hc as [[_ <-]|[Hne Hc]]; [congruence|].
      apply lookup_insert_Some in Hp as [[_ <-]|[_ Hp]]; [done|]. eauto.
  - intros k Hk. apply (ok_closed m Hok) in Hk. apply lookup_insert_is_Some. destruct (decide (Incoming c = k)); auto.
  - intros o l c' Ho Hl. assert (H := Ho). apply (ok_opened m Hok) in H as (c1 & Hc1 & _ & Hp).
    apply pending_old in Hp as [Hp _]. rewrite lookup_insert_ne in Hl by done. by eapply ok_index.
  - apply (ok_nonempty m Hok).
Qed.
End Alloc.

(** One more circuit at the end of the batch. *)
Ltac order :=
  match goal with H : _ /\ _ /\ _ /\ _ |- _ /\ _ /\ _ /\ _ =>
    destruct H as (? & ? & ? & ?); split_and!;
    first [by apply sublist_app | by apply sublist_inserts_r]
  end.

Lemma reconciled_step m0 cs m b c m' b' : reconciled m0 cs m b -> fresh_circuit c ->
  reconcileOne c (m, b) = (m', b') -> reconciled m0 (cs ++ [c]) m' b'.
Proof.
  intros H [Hout Hdisk] Hrec. pose proof (rc_ok _ _ _ _ H) as Hok. unfold reconcileOne in Hrec.
  destruct (LookupCircuit (Incoming c) m) as [f|] eqn:Hf.
  - destruct (HasKeystone f || negb (LoadedFromDisk f)) eqn:Hu; injection Hrec as <- <-; destruct H; split; cbn; try done; try order.
    + rewrite <- rc_perm0, <- !app_assoc. apply Permutation_app_head, Permutation_app_head, Permutation_app_comm.
    + intros c'. rewrite elem_of_snoc. intros [?| ->]; [by apply rc_drops0|]. exists f. split; [done|].
      apply orb_true_iff in Hu as [?|Hu]; [by left|right; by destruct (LoadedFromDisk f)].
    + by rewrite <- rc_perm0, !app_assoc.
    + by rewrite rc_addFails0, !app_assoc.
    + intros c'. rewrite elem_of_snoc. intros [?| ->]; [by apply rc_fails0|]. exists f. split; [done|].
      apply orb_false_iff in Hu as [Hu1 Hu2]. intros [?|?]; destruct (LoadedFromDisk f); congruence || done.
  - injection Hrec as <- <-. assert (Hnew : pending m !! Incoming c = None) by (by apply lookup_None).
    assert (Hnew0 : pending m0 !! Incoming c = None).
    { destruct (pending m0 !! Incoming c) eqn:Hp; [|done]. apply (rc_pending _ _ _ _ H) in Hp. congruence. }
    pose proof (alloc_lookup m Hok c Hnew) as Hlk. pose proof (pending_old m Hok c Hnew) as Hold.
    pose proof (next_unused m Hok) as Hnx. pose proof (alloc_ok m Hok c Hnew Hout) as Hok'.
    change (m <| cm_heap ::= <[cm_next m := c]> |> <| pending ::= <[Incoming c := cm_next m]> |> <| cm_next ::= Z.succ |>)
      with (alloc c m).
    destruct H. split; cbn [b_adds b_drops b_fails b_addFails]; try done; try order.
    + etrans; [done|]. cbn. by apply insert_subseteq.
    + rewrite <- rc_perm0, <- !app_assoc. apply Permutation_app_head.
      by rewrite (Permutation_app_comm [c]), <- app_assoc.
    + rewrite rc_addFails0, <- !app_assoc. apply Permutation_app_head, Permutation_app_comm.
    + rewrite fmap_app. apply list.NoDup_app. split; [done|]. split; [|apply list.NoDup_singleton].
      intros k Hk Hin. apply list_elem_of_singleton in Hin as ->. apply list_elem_of_fmap in Hk as (c' & Heq & Hc').
      assert (Hl : LookupCircuit (Incoming c) m = Some c') by (apply rc_lookup0; auto). congruence.
    + intros c'. rewrite elem_of_snoc. intros [?| ->]; auto.
    + intros k l Hl. cbn. rewrite lookup_insert_ne; [by apply rc_pending0|]. apply rc_pending0, Hold in Hl as [_ ?]. done.
    + intros k c'. rewrite Hlk, rc_lookup0, elem_of_snoc. naive_solver.
    + intros c' Hc'. apply rc_drops0 in Hc' as (f & Hf' & Hu). exists f. split; [|done]. apply Hlk. by left.
    + intros c' Hc'. apply rc_fails0 in Hc' as (f & Hf' & Hu). exists f. split; [|done]. apply Hlk. by left.
Qed.

Lemma reconcile_ok m0 cs : forall done0 m b m' b', reconciled m0 done0 m b -> Forall fresh_circuit cs ->
  reconcile cs (m, b) = (m', b') -> reconciled m0 (done0 ++ cs) m' b'.
Proof.
  induction cs as [|c cs IH]; intros done0 m b m' b' H Hf Hrec; cbn [reconcile] in Hrec.
  - injection Hrec as <- <-. by rewrite app_nil_r.
  - apply list.Forall_cons in Hf as [Hc Hf]. destruct (reconcileOne c (m, b)) as [m1 b1] eqn:H1. rewrite ?H1 in Hrec.
    replace (done0 ++ c :: cs) with ((done0 ++ [c]) ++ cs) by (by rewrite <- app_assoc).
    eapply IH; [|done|exact Hrec]. by eapply reconciled_step.
Qed.

(** Memory alone decides [cm_ok]. *)
Lemma cm_ok_same m m' : cm_ok m -> pending m' = pending m -> opened m' = opened m -> closed m' = closed m ->
  hashIndex m' = hashIndex m -> cm_heap m ⊆ cm_heap m' -> (forall l c, cm_heap m' !! l = Some c -> l < cm_next m') -> cm_ok m'.
Proof.
  intros Hok Hp Ho Hc Hi Hh Hn. split; rewrite ?Hp, ?Ho, ?Hc, ?Hi; [done| | |apply (ok_closed m Hok)| |apply (ok_nonempty m Hok)].
  - intros k l Hl. apply (ok_pending m Hok) in Hl as (c & Hl & Hin). exists c. split; [|done]. by eapply lookup_weaken.
  - intros o l. rewrite (ok_opened m Hok). split; intros (c & Hl & Hout & Hpc); exists c; rewrite ?Hp in *.
    + split; [by eapply lookup_weaken|done].
    + split; [|done]. pose proof (ok_pending m Hok _ _ Hpc) as (c' & Hl' & _).
      assert (c = c') as ->; [|done]. apply (lookup_weaken _ (cm_heap m')) in Hl'; [congruence|done].
  - intros o l c Hl Hc'. apply (ok_index m Hok o l c Hl).
    assert (Hl2 := Hl). apply (ok_opened m Hok) in Hl2 as (c' & Hc2 & _).
    apply (lookup_weaken _ (cm_heap m')) in Hc2 as Hc3; [congruence|done].
Qed.

Lemma cm_ok_disk m a k : cm_ok m -> cm_ok (m <| cm_adds := a |> <| cm_keystones := k |>).
Proof. intros Hok. apply (cm_ok_same m); try done. apply (ok_next m Hok). Qed.

Lemma lookup_open_same m m' : cm_ok m -> opened m' = opened m -> cm_heap m ⊆ cm_heap m' ->
  forall o, LookupOpenCircuit o m' = LookupOpenCircuit o m.
Proof.
  intros Hok Ho Hh o. unfold LookupOpenCircuit, deref. rewrite Ho. destruct (opened m !! o) as [l|] eqn:Hl; [|done]. cbn.
  apply (ok_opened m Hok) in Hl as (c & Hc & _). rewrite Hc. by eapply lookup_weaken.
Qed.

Lemma lookup_same m m' : cm_ok m -> pending m' = pending m -> cm_heap m ⊆ cm_heap m' ->
  forall k, LookupCircuit k m' = LookupCircuit k m.
Proof.
  intros Hok Ho Hh k. unfold LookupCircuit, deref. rewrite Ho. destruct (pending m !! k) as [l|] eqn:Hl; [|done]. cbn.
  apply (ok_pending m Hok) in Hl as (c & Hc & _). rewrite Hc. by eapply lookup_weaken.
Qed.

Section Reconciled.
Context (m0 : circuitMap) (Hok : cm_ok m0) (cs : list PaymentCircuit) (m : circuitMap) (b : batch)
  (H : reconciled m0 cs m b).

(** A failed write takes back what was pending. *)
Lemma rollback_pending :
  foldl (fun p c => delete (Incoming c) p) (pending m) (b_adds b) = pending m0.
Proof.
  apply map_eq. intros k. rewrite lookup_foldl_delete. destruct (decide (k ∈ Incoming <$> b_adds b)) as [Hin|Hin].
  - apply list_elem_of_fmap in Hin as (c & -> & Hc). symmetry. by apply (rc_new _ _ _ _ H).
  - destruct (pending m0 !! k) as [l|] eqn:Hl; [by apply (rc_pending _ _ _ _ H)|].
    destruct (pending m !! k) as [l|] eqn:Hm; [|done]. destruct Hin.
    pose proof (ok_pending _ (rc_ok _ _ _ _ H) _ _ Hm) as (c & Hc & Hk).
    assert (Hlk : LookupCircuit k m = Some c) by (by rewrite (ok_lookup m k l)).
    apply (rc_lookup _ _ _ _ H) in Hlk as [Hlk|[Hin ?]].
    + apply (lookup_None m0 Hok) in Hl. congruence.
    + apply list_elem_of_fmap. by exists c.
Qed.

Lemma commit_open o : LookupOpenCircuit o m = LookupOpenCircuit o m0.
Proof. apply lookup_open_same; [done|apply (rc_same _ _ _ _ H)|apply (rc_heap _ _ _ _ H)]. Qed.

Lemma commit_adds s : synced_but s m0 ->
  forall k, foldl (fun bkt c => <[Incoming c := persisted c]> bkt) (cm_adds m) (b_adds b) !! k = persisted <$> LookupCircuit k m.
Proof.
  intros [Ha _] k. apply option_eq. intros v. rewrite lookup_foldl_insert by apply (rc_nodup _ _ _ _ H).
  destruct (rc_same _ _ _ _ H) as (_ & _ & _ & -> & _). rewrite fmap_Some, Ha, fmap_Some. split.
  - intros [(c & Hc & Hk & <-)|[Hk (c & Hc & ->)]]; exists c; (split; [|done]); apply (rc_lookup _ _ _ _ H); auto.
  - intros (c & Hc & ->). apply (rc_lookup _ _ _ _ H) in Hc as [Hc|[Hc Hk]]; [|left; eauto].
    right. split; [|eauto]. intros (c' & -> & Hc')%list_elem_of_fmap. apply (rc_new _ _ _ _ H) in Hc'.
    apply (lookup_None m0 Hok) in Hc'. congruence.
Qed.
End Reconciled.

(** What [CommitCircuits] promises. *)
Definition commit_spec (m : circuitMap) (cs : list PaymentCircuit) (acts : CircuitFwdActions) (err : option circuiterr)
    (m' : circuitMap) : Prop :=
  (Adds acts ++ Drops acts ++ Fails acts ≡ₚ cs) /\
  (Adds acts `sublist_of` cs /\ Drops acts `sublist_of` cs /\ Fails acts `sublist_of` cs) /\
  (forall o, LookupOpenCircuit o m' = LookupOpenCircuit o m) /\ closed m' = closed m /\
  match err with
  | None =>
      NoDup (Incoming <$> Adds acts) /\ (forall c, c ∈ Adds acts -> LookupCircuit (Incoming c) m = None) /\
      (forall k c, LookupCircuit k m' = Some c <-> LookupCircuit k m = Some c \/ (c ∈ Adds acts /\ Incoming c = k)) /\
      (forall c, c ∈ Drops acts -> exists f, LookupCircuit (Incoming c) m' = Some f /\ underway f) /\
      (forall c, c ∈ Fails acts -> exists f, LookupCircuit (Incoming c) m' = Some f /\ ~ underway f)
  | Some _ =>
      Adds acts = [] /\ (forall k, LookupCircuit k m' = LookupCircuit k m) /\
      (forall c, c ∈ Drops acts -> (exists f, LookupCircuit (Incoming c) m = Some f /\ underway f) \/
         exists c', c' ∈ Fails acts /\ Incoming c' = Incoming c) /\
      (forall c, c ∈ Fails acts -> LookupCircuit (Incoming c) m = None \/ exists f, LookupCircuit (Incoming c) m = Some f /\ ~ underway f)
  end.

(** The circuits a failed write drops and fails. *)
Lemma commit_failed m cs m1 b : cm_ok m -> Forall fresh_circuit cs -> reconciled m cs m1 b ->
  (forall c, c ∈ b_drops b -> (exists f, LookupCircuit (Incoming c) m = Some f /\ underway f) \/
     exists c', c' ∈ b_addFails b /\ Incoming c' = Incoming c) /\
  (forall c, c ∈ b_addFails b -> LookupCircuit (Incoming c) m = None \/ exists f, LookupCircuit (Incoming c) m = Some f /\ ~ underway f).
Proof.
  intros Hok Hf H. split; intros c Hc.
  - destruct (rc_drops _ _ _ _ H c Hc) as (f & [Hl|[Ha Hk]]%(rc_lookup _ _ _ _ H) & Hu); [left; eauto|right].
    exists f. split; [|done]. rewrite (rc_addFails _ _ _ _ H). apply elem_of_app. by left.
  - rewrite (rc_addFails _ _ _ _ H) in Hc. apply elem_of_app in Hc as [Hc|Hc].
    + left. apply (lookup_None m Hok). by apply (rc_new _ _ _ _ H).
    + right. destruct (rc_fails _ _ _ _ H c Hc) as (f & [Hl|[Ha Hk]]%(rc_lookup _ _ _ _ H) & Hu); [eauto|].
      destruct Hu. right. destruct (rc_order _ _ _ _ H) as (Hs & _). rewrite list.Forall_forall in Hf. eapply elem_of_sublist in Ha; [|exact Hs].
      by apply Hf in Ha as [_ ?].
Qed.

Lemma commit_ok s commits cs m acts err m' : cm_ok m -> synced_but s m -> Forall fresh_circuit cs ->
  CommitCircuits commits cs m = (acts, err, m') ->
  cm_ok m' /\ synced_but s m' /\ commit_spec m cs acts err m' /\ (err = None \/ commits = false) /\
  (commits = true \/ Adds acts = []).
Proof.
  intros Hok Hsy Hf. unfold CommitCircuits. destruct (reconcile cs _) as [m1 b] eqn:Hr.
  apply (reconcile_ok m cs [] _ _ _ _ (reconciled_start m Hok) Hf) in Hr as H. cbn [app] in H. clear Hr.
  pose proof (rc_ok _ _ _ _ H) as Hok1. pose proof (commit_open m Hok cs m1 b H) as Hopen.
  pose proof (commit_adds m Hok cs m1 b H s Hsy) as Hadds. pose proof (rollback_pending m Hok cs m1 b H) as Hback.
  destruct (rc_same _ _ _ _ H) as (Eo & Ec & Ei & Ea & Ek). pose proof (rc_order _ _ _ _ H) as (S1 & S2 & S3 & S4).
  pose proof (rc_perm _ _ _ _ H) as Hp. pose proof (rc_heap _ _ _ _ H) as Hh. destruct Hsy as [Ha Hk].
  pose proof (commit_failed m cs m1 b Hok Hf H) as Hfail.
  destruct (b_adds b) as [|a adds] eqn:Eb; [|destruct commits]; intros Hrun; injection Hrun as <- <- <-.
  - split; [done|]. split; [split; [exact Hadds|]|].
    { intros o. rewrite Ek, Hopen. apply Hk. }
    split; [|split; [by left|by right]]. split; [done|]. split; [by split; [apply sublist_nil_l|]|]. split; [done|]. split; [done|].
    cbn [Adds Drops Fails]. split; [constructor|]. split; [by intros c Hc%not_elem_of_nil|].
    split; [|split; apply H]. intros k c. rewrite (rc_lookup _ _ _ _ H), Eb. done.
  - rewrite ?Eb in Hadds. cbn [foldl] in Hadds. rewrite <- Eb.
    split; [by apply (cm_ok_disk m1 _ (cm_keystones m1))|]. split; [split; [exact Hadds|]|].
    { intros o. change (cm_keystones m1 !! o = Incoming <$> LookupOpenCircuit o m1 \/ (o ∈ s /\ LookupOpenCircuit o m1 = None)).
      rewrite Ek, Hopen. apply Hk. }
    split; [|split; by left]. split; [rewrite Eb; exact Hp|]. split; [rewrite Eb; done|]. split; [exact Hopen|]. split; [done|]. cbn [Adds Drops Fails].
    split; [apply H|]. split; [intros c Hc; apply (lookup_None m Hok); by apply (rc_new _ _ _ _ H)|].
    split; [exact (rc_lookup _ _ _ _ H)|]. split; [exact (rc_drops _ _ _ _ H)|exact (rc_fails _ _ _ _ H)].
  - rewrite ?Eb in Hback. cbn [foldl] in Hback.
    match goal with |- cm_ok ?x /\ _ => set (m2 := x) end.
    assert (Hok2 : cm_ok m2) by (apply (cm_ok_same m); try done; apply (ok_next m1 Hok1)).
    pose proof (lookup_same m m2 Hok Hback Hh) as Hlk.
    split; [done|]. split; [split|]; [intros k; rewrite Hlk; cbn; by rewrite Ea| |].
    { intros o. change (cm_keystones m1 !! o = Incoming <$> LookupOpenCircuit o m1 \/ (o ∈ s /\ LookupOpenCircuit o m1 = None)).
      rewrite Ek, Hopen. apply Hk. }
    split; [|split; by right]. split; cbn [Adds Drops Fails].
    { rewrite <- Hp, (rc_addFails _ _ _ _ H), Eb. etrans; [|apply Permutation_app_swap_app]. done. }
    split; [by split; [apply sublist_nil_l|]|]. split; [exact Hopen|]. split; [done|]. split; [done|]. split; [exact Hlk|exact Hfail].
Qed.

(** ** The hash index *)
Definition indexed (m : circuitMap) (h : bytes) : gset CircuitKey := default ∅ (hashIndex m !! h).

Lemma indexed_add c m h : indexed (addCircuitToHashIndex c m) h = 
  if decide (h = pc_PaymentHash c) then {[OutKey c]} ∪ indexed m h else indexed m h.
Proof.
  unfold indexed, addCircuitToHashIndex. cbn. destruct (decide (h = pc_PaymentHash c)) as [->|Hne].
  - by rewrite lookup_insert_eq.
  - by rewrite lookup_insert_ne.
Qed.

Lemma indexed_remove c m h : indexed (removeCircuitFromHashIndex c m) h =
  if decide (h = pc_PaymentHash c) then indexed m h ∖ {[OutKey c]} else indexed m h.
Proof.
  unfold indexed, removeCircuitFromHashIndex. destruct (hashIndex m !! pc_PaymentHash c) as [s|] eqn:Hs.
  - cbn. destruct (decide (h = pc_PaymentHash c)) as [->|Hne]; case_bool_decide as He.
    + rewrite lookup_delete_eq, Hs. cbn. by rewrite He.
    + by rewrite lookup_insert_eq, Hs.
    + by rewrite lookup_delete_ne.
    + by rewrite lookup_insert_ne.
  - destruct (decide (h = pc_PaymentHash c)) as [->|Hne]; [|done]. rewrite Hs. cbn. set_solver.
Qed.

Lemma add_index_frame c m : addCircuitToHashIndex c m = m <| hashIndex := hashIndex (addCircuitToHashIndex c m) |>.
Proof. by destruct m. Qed.

Lemma remove_index_frame c m : removeCircuitFromHashIndex c m = m <| hashIndex := hashIndex (removeCircuitFromHashIndex c m) |>.
Proof. unfold removeCircuitFromHashIndex. destruct m as [? ? ? ? ? ix]; cbn. by destruct (ix !! pc_PaymentHash c). Qed.

Lemma pending_inj m k k' l : cm_ok m -> pending m !! k = Some l -> pending m !! k' = Some l -> k = k'.
Proof.
  intros Hok H1 H2. apply (ok_pending m Hok) in H1 as (c & Hc & <-). apply (ok_pending m Hok) in H2 as (c' & Hc' & <-).
  congruence.
Qed.

(** ** Opening circuits *)
Definition opening (o : CircuitKey) (c : PaymentCircuit) : PaymentCircuit := c <| Outgoing := Some o |>.

(** The circuits under one pointer change. *)
Lemma lookup_alter m f l k c : cm_ok m -> pending m !! k = Some l -> cm_heap m !! l = Some c ->
  forall k' h', LookupCircuit k' (m <| cm_heap ::= alter f l |> <| hashIndex := h' |>) =
    if decide (k' = k) then Some (f c) else LookupCircuit k' m.
Proof.
  intros Hok Hl Hc k' h'. unfold LookupCircuit, deref. cbn. destruct (decide (k' = k)) as [->|Hne].
  - rewrite Hl. cbn. by rewrite lookup_alter_eq, Hc.
  - destruct (pending m !! k') as [l'|] eqn:Hl'; [|done]. cbn. rewrite lookup_alter_ne; [done|].
    intros ->. by apply Hne, (pending_inj m _ _ l').
Qed.

Section OpenOne.
Context (m : circuitMap) (Hok : cm_ok m) (l : Z) (ks : Keystone) (c : PaymentCircuit).
Context (Hl : pending m !! ks_InKey ks = Some l) (Hc : cm_heap m !! l = Some c) (Hno : Outgoing c = None)
  (Hfree : opened m !! ks_OutKey ks = None)
  (Hne : ks_OutKey ks <> EmptyCircuitKey).

Let c' := opening (ks_OutKey ks) c.

Lemma in_key : Incoming c = ks_InKey ks.
Proof. apply (ok_pending m Hok) in Hl as (c2 & Hc2 & Hk). congruence. Qed.

Lemma openOne_eq : openOne m (l, ks) = m <| cm_heap ::= alter (opening (ks_OutKey ks)) l |>
  <| opened ::= <[ks_OutKey ks := l]> |> <| hashIndex := hashIndex (addCircuitToHashIndex c' m) |>.
Proof.
  unfold openOne. cbn [fst snd]. cbv zeta.
  change (cm_heap (m <| cm_heap ::= _ |> <| opened ::= _ |>)) with (alter (opening (ks_OutKey ks)) l (cm_heap m)).
  rewrite lookup_alter_eq, Hc. cbn [fmap option_fmap option_map]. unfold addCircuitToHashIndex, c', upd. reflexivity.
Qed.

Lemma openOne_lookup k : LookupCircuit k (openOne m (l, ks)) =
  if decide (k = ks_InKey ks) then Some c' else LookupCircuit k m.
Proof. rewrite openOne_eq. by apply (lookup_alter m (opening (ks_OutKey ks)) l (ks_InKey ks) c Hok). Qed.

Lemma openOne_ok : cm_ok (openOne m (l, ks)).
Proof.
  rewrite openOne_eq. split; cbn -[addCircuitToHashIndex].
  - intros l' c2. rewrite lookup_alter_Some. intros [(-> & c3 & H3 & _)|[_ H3]]; by eapply ok_next.
  - intros k l' Hk. destruct (decide (l = l')) as [<-|Hneq].
    + rewrite lookup_alter_eq, Hc. cbn. exists c'. split; [done|]. cbn. rewrite in_key. by apply (pending_inj m _ _ l).
    + rewrite lookup_alter_ne by done. by apply ok_pending.
  - intros o l'. rewrite lookup_insert_Some, (ok_opened m Hok). split.
    + intros [[<- <-]|[Hneq (c2 & Hc2 & Ho & Hp)]].
      * exists c'. rewrite lookup_alter_eq, Hc. cbn. rewrite in_key. done.
      * exists c2. rewrite lookup_alter_ne; [done|]. intros ->. congruence.
    + intros (c2 & Hc2 & Ho & Hp). apply lookup_alter_Some in Hc2 as [(-> & c3 & H3 & ->)|[Hneq H3]].
      * left. cbn in Ho. split; congruence.
      * right. split; [|eauto]. intros <-. assert (Hx : opened m !! ks_OutKey ks = Some l') by (apply (ok_opened m Hok); eauto).
        congruence.
  - apply (ok_closed m Hok).
  - intros o l' c2. rewrite lookup_insert_Some. fold (indexed (addCircuitToHashIndex c' m)). intros Ho Hc2.
    change (o ∈ indexed (addCircuitToHashIndex c' m) (pc_PaymentHash c2)). rewrite indexed_add.
    destruct Ho as [[<- <-]|[Hneq Ho]].
    + rewrite lookup_alter_eq, Hc in Hc2. cbn in Hc2. injection Hc2 as <-. rewrite decide_True by done. cbn. set_solver.
    + assert (H := Ho). apply (ok_opened m Hok) in H as (c3 & Hc3 & Ho3 & _). rewrite lookup_alter_ne in Hc2 by (intros ->; congruence).
      pose proof (ok_index m Hok o l' c2 Ho Hc2) as Hi. change (o ∈ indexed m (pc_PaymentHash c2)) in Hi.
      destruct (decide _); [set_solver|done].
  - rewrite lookup_insert_ne by done. apply (ok_nonempty m Hok).
Qed.
Lemma openOne_lookup_open o : LookupOpenCircuit o (openOne m (l, ks)) =
  if decide (o = ks_OutKey ks) then Some c' else LookupOpenCircuit o m.
Proof.
  rewrite openOne_eq. unfold LookupOpenCircuit, deref. cbn -[addCircuitToHashIndex].
  destruct (decide (o = ks_OutKey ks)) as [->|Hneq].
  - rewrite lookup_insert_eq. cbn. by rewrite lookup_alter_eq, Hc.
  - rewrite lookup_insert_ne by done. destruct (opened m !! o) as [l'|] eqn:Hl'; [|done]. cbn.
    apply (ok_opened m Hok) in Hl' as (c2 & Hc2 & Ho & _). rewrite lookup_alter_ne; [done|]. intros ->. congruence.
Qed.
End OpenOne.

(** The circuits [OpenCircuits] may be asked to open: each once, to one place, and
    not open yet, which the code leaves to its callers. *)
Definition openable (m : circuitMap) (keystones : list Keystone) : Prop :=
  NoDup (ks_InKey <$> keystones) /\ NoDup (ks_OutKey <$> keystones) /\
  forall ks, ks ∈ keystones -> ks_OutKey ks <> EmptyCircuitKey /\
    forall c, LookupCircuit (ks_InKey ks) m = Some c -> Outgoing c = None.

(** What becomes of the circuits of the map. *)
Definition open_spec (m : circuitMap) (keystones : list Keystone) (m' : circuitMap) : Prop :=
  (forall ks, ks ∈ keystones -> exists c, LookupCircuit (ks_InKey ks) m = Some c /\
    LookupCircuit (ks_InKey ks) m' = Some (opening (ks_OutKey ks) c) /\
    LookupOpenCircuit (ks_OutKey ks) m = None /\
    LookupOpenCircuit (ks_OutKey ks) m' = Some (opening (ks_OutKey ks) c)) /\
  (forall k, k ∉ ks_InKey <$> keystones -> LookupCircuit k m' = LookupCircuit k m) /\
  (forall o, o ∉ ks_OutKey <$> keystones -> LookupOpenCircuit o m' = LookupOpenCircuit o m) /\
  closed m' = closed m.

Definition checked (m : circuitMap) (lk : Z * Keystone) : Prop :=
  opened m !! ks_OutKey lk.2 = None /\ pending m !! ks_InKey lk.2 = Some lk.1.

Lemma checkKeystones_Ok m keystones lks : checkKeystones keystones m = Ok lks ->
  lks.*2 = keystones /\ Forall (checked m) lks.
Proof.
  revert lks. induction keystones as [|ks kss IH]; intros lks Hrun; cbn in Hrun.
  - injection Hrun as <-. split; [done|constructor].
  - unfold guard_err in Hrun. case_bool_decide as Ho; cbn in Hrun; [done|].
    destruct (pending m !! ks_InKey ks) as [l|] eqn:Hl; [|done].
    apply res_bind_Ok in Hrun as (rest & Hr & Hrun). injection Hrun as <-. destruct (IH _ Hr) as [<- Hall].
    split; [done|]. constructor; [|done]. split; [|done]. cbn. by apply eq_None_not_Some.
Qed.

Lemma checkKeystones_Err m keystones e : checkKeystones keystones m = Err e ->
  exists ks, ks ∈ keystones /\
    ((e = ErrDuplicateKeystone /\ is_Some (opened m !! ks_OutKey ks)) \/
     (e = ErrUnknownCircuit /\ pending m !! ks_InKey ks = None)).
Proof.
  induction keystones as [|ks kss IH]; cbn; [done|]. unfold guard_err. case_bool_decide as Ho; cbn.
  - intros [= <-]. exists ks. split; [by left|auto].
  - destruct (pending m !! ks_InKey ks) as [l|] eqn:Hl.
    + destruct (checkKeystones kss m) as [a|e'|]; try done. cbn. intros [= ->]. destruct IH as (k & Hk & H); [done|].
      exists k. split; [by right|done].
    + intros [= <-]. exists ks. split; [by left|auto].
Qed.

Lemma checkKeystones_no_panic m keystones : checkKeystones keystones m <> Panic.
Proof.
  induction keystones as [|ks kss IH]; [done|]. cbn. unfold guard_err. case_bool_decide; [done|]. cbn.
  destruct (pending m !! ks_InKey ks); [|done]. by destruct (checkKeystones kss m).
Qed.

Lemma openOne_frame m lk : pending (openOne m lk) = pending m /\ closed (openOne m lk) = closed m /\
  cm_adds (openOne m lk) = cm_adds m /\ cm_keystones (openOne m lk) = cm_keystones m.
Proof. unfold openOne. cbv zeta. by destruct (cm_heap _ !! lk.1). Qed.

Lemma openOne_opened m lk o : o <> ks_OutKey lk.2 -> opened (openOne m lk) !! o = opened m !! o.
Proof. intros Hne. unfold openOne. cbv zeta. destruct (cm_heap _ !! lk.1); cbn; by rewrite lookup_insert_ne. Qed.

Lemma openAll_ok lks : forall m, cm_ok m -> openable m lks.*2 -> Forall (checked m) lks ->
  let m' := foldl openOne m lks in
  cm_ok m' /\ open_spec m lks.*2 m' /\ cm_adds m' = cm_adds m /\ cm_keystones m' = cm_keystones m.
Proof.
  induction lks as [|[l ks] lks IH]; intros m Hok (Hin & Hout & Hno) Hchk.
  { cbn. split; [done|]. split; [|done]. split; [|done]. by intros ks ?%not_elem_of_nil. }
  cbn [foldl]. apply list.Forall_cons in Hchk as [[Hfree Hl] Hchk]. cbn [fst snd] in Hfree, Hl.
  change ((l, ks) :: lks).*2 with (ks :: lks.*2) in *. cbn in Hin, Hout.
  apply list.NoDup_cons in Hin as [Hni Hin]. apply list.NoDup_cons in Hout as [Hno' Hout].
  destruct (ok_pending m Hok _ _ Hl) as (c & Hc & Hkc).
  assert (ks_OutKey ks <> EmptyCircuitKey /\ Outgoing c = None) as [Hnn Hcn].
  { destruct (Hno ks) as [H1 H2]; [by left|]. split; [done|]. apply H2. by rewrite (ok_lookup m _ l). }
  pose proof (openOne_ok m Hok l ks c Hl Hc Hcn Hfree Hnn) as Hok1.
  pose proof (openOne_lookup m Hok l ks c Hl Hc) as Hlk.
  pose proof (openOne_lookup_open m Hok l ks c Hl Hc Hcn) as Hlo.
  destruct (openOne_frame m (l, ks)) as (Ep & Ec & Ea & Ek).
  pose proof (openOne_opened m (l, ks)) as Ho. cbn [snd] in Ho.
  set (m1 := openOne m (l, ks)) in *.
  destruct (IH m1 Hok1) as (Hok2 & (S1 & S2 & S3 & S4) & Ea2 & Ek2).
  { split; [done|]. split; [done|]. intros ks' Hks. destruct (Hno ks') as [Hx Hy]; [by right|]. split; [done|].
    intros c'. rewrite Hlk, decide_False; [apply Hy|].
    intros Heq. apply Hni. rewrite <- Heq. by apply list_elem_of_fmap_2. }
  { apply list.Forall_forall. intros [l' ks'] Hin'. pose proof (proj1 (list.Forall_forall _ _) Hchk _ Hin') as [H1 H2].
    cbn in H1, H2. split; cbn; [|by rewrite Ep]. rewrite Ho; [done|]. intros Heq. apply Hno'. rewrite <- Heq.
    by apply list_elem_of_fmap_2, (list_elem_of_fmap_2 snd lks (l', ks')). }
  split; [done|]. split; [|by rewrite Ea2, Ek2]. split; [|split; [|split; [|by rewrite S4]]].
  - intros ks' [->|Hks]%elem_of_cons.
    + exists c. rewrite S2, S3, Hlk, Hlo, !decide_True by done. rewrite (ok_lookup m _ l Hl).
      split; [done|]. split; [done|]. split; [|done]. unfold LookupOpenCircuit. by rewrite Hfree.
    + assert (ks_InKey ks' <> ks_InKey ks /\ ks_OutKey ks' <> ks_OutKey ks) as [Hn1 Hn2].
      { split; intros Heq; [apply Hni|apply Hno']; rewrite <- Heq; by apply list_elem_of_fmap_2. }
      destruct (S1 ks' Hks) as (c' & H1 & H2 & H3 & H4). exists c'.
      rewrite Hlk, decide_False in H1 by done. by rewrite Hlo, decide_False in H3 by done.
  - intros k [Hne Hk]%not_elem_of_cons. by rewrite S2, Hlk, decide_False.
  - intros o [Hne Hk]%not_elem_of_cons. by rewrite S3, Hlo, decide_False.
Qed.

Lemma openAll_disk lks m x : foldl openOne (m <| cm_keystones := x |>) lks = foldl openOne m lks <| cm_keystones := x |>.
Proof.
  revert m. induction lks as [|lk lks IH]; intros m; [done|]. cbn [foldl]. rewrite <- IH. f_equal.
  unfold openOne. cbv zeta. cbn. by destruct (alter _ _ _ !! lk.1).
Qed.

(** Opening keeps the circuits of the disk and adds the keystones. *)
Lemma open_spec_adds m kss m' k : open_spec m kss m' ->
  persisted <$> LookupCircuit k m = persisted <$> LookupCircuit k m'.
Proof.
  intros (H1 & H2 & _). destruct (decide (k ∈ ks_InKey <$> kss)) as [Hin|Hin]; [|by rewrite H2].
  apply list_elem_of_fmap in Hin as (ks & -> & Hks). destruct (H1 ks Hks) as (c & -> & -> & _). done.
Qed.

Lemma nodup_key {A B} (f : A -> B) (l : list A) x y : NoDup (f <$> l) -> x ∈ l -> y ∈ l -> f x = f y -> x = y.
Proof.
  intros Hnd [i Hi]%list_elem_of_lookup [j Hj]%list_elem_of_lookup Hf.
  assert (i = j) as ->; [|congruence]. apply (NoDup_lookup (f <$> l) i j (f x) Hnd).
  - by rewrite list_lookup_fmap, Hi.
  - by rewrite list_lookup_fmap, Hj, Hf.
Qed.

Lemma open_spec_keystones s m kss m' : cm_ok m -> openable m kss -> open_spec m kss m' -> synced_but s m ->
  forall o, foldl (fun bkt ks => <[ks_OutKey ks := ks_InKey ks]> bkt) (cm_keystones m) kss !! o =
    Incoming <$> LookupOpenCircuit o m' \/ (o ∈ s /\ LookupOpenCircuit o m' = None).
Proof.
  intros Hok (Hin & Hout & _) (H1 & _ & H3 & _) [_ Hk] o. destruct (decide (o ∈ ks_OutKey <$> kss)) as [Ho|Ho].
  - left. apply option_eq. intros v. rewrite lookup_foldl_insert by done.
    apply list_elem_of_fmap in Ho as (ks & -> & Hks). destruct (H1 ks Hks) as (c & Hc & _ & _ & Hc'). rewrite Hc'. cbn.
    apply (lookup_Some m Hok) in Hc as (l & _ & _ & Hkc). rewrite Hkc. split.
    + intros [(ks' & Hks' & Heq & <-)|[Hno _]]; [|by destruct Hno; apply list_elem_of_fmap_2].
      f_equal. symmetry. f_equal. by apply (nodup_key ks_OutKey kss).
    + intros [= <-]. left. eauto.
  - rewrite H3 by done. replace (foldl _ _ _ !! o) with (cm_keystones m !! o); [apply Hk|].
    apply option_eq. intros v. rewrite lookup_foldl_insert by done. split; [auto|]. intros [(ks & Hks & <- & _)|[_ ?]]; [|done].
    by destruct Ho; apply list_elem_of_fmap_2.
Qed.

Lemma open_ok s commits keystones m r m' : cm_ok m -> synced_but s m -> openable m keystones ->
  OpenCircuits commits keystones m = (r, m') ->
  match r with
  | Ok _ => cm_ok m' /\ synced_but s m' /\ open_spec m keystones m'
  | Err e => m' = m /\
      ((e = ErrDatabase /\ commits = false) \/
       exists ks, ks ∈ keystones /\
         ((e = ErrDuplicateKeystone /\ is_Some (LookupOpenCircuit (ks_OutKey ks) m)) \/
          (e = ErrUnknownCircuit /\ LookupCircuit (ks_InKey ks) m = None)))
  | Panic => False
  end.
Proof.
  intros Hok Hsy Hopen. assert (Ha := proj1 Hsy). unfold OpenCircuits. unfold mbind at 1, M_bind at 1.
  destruct (checkKeystones keystones m) as [lks|e|] eqn:Hchk.
  2: { intros [= <- <-]. split; [done|]. right. destruct (checkKeystones_Err _ _ _ Hchk) as (ks & Hks & [[-> H]|[-> H]]);
       exists ks; (split; [done|]); [left|right]; (split; [done|]).
       - by apply (opened_is_Some m Hok).
       - by apply (lookup_None m Hok). }
  2: { by apply checkKeystones_no_panic in Hchk. }
  apply checkKeystones_Ok in Hchk as [<- Hchk].
  destruct (openAll_ok lks m Hok Hopen Hchk) as (Hok' & Hspec & Ea & Eks).
  destruct lks as [|lk lks].
  { intros [= <- <-]. done. }
  unfold mbind, M_bind. cbn [fmap list_fmap].
  destruct commits; cbn [db_update]; [|by intros [= <- <-]; auto].
  unfold modify. set (lks' := lk :: lks) in *. intros Hrun.
  assert (r = Ok tt /\ m' = foldl openOne (m <| cm_keystones :=
    foldl (fun bkt ks => <[ks_OutKey ks := ks_InKey ks]> bkt) (cm_keystones m) lks'.*2 |>) lks') as [-> ->].
  { injection Hrun as <- <-. done. }
  rewrite openAll_disk.
  split; [by apply (cm_ok_disk _ (cm_adds _) _ Hok')|]. split; [split|exact Hspec].
  - intros k. cbn -[foldl]. rewrite Ea, Ha. apply (open_spec_adds _ _ _ k Hspec).
  - by apply (open_spec_keystones s m).
Qed.

(** ** Trimming *)
Definition closing (c : PaymentCircuit) : PaymentCircuit := c <| Outgoing := None |>.

Section TrimOne.
Context (m : circuitMap) (Hok : cm_ok m) (o : CircuitKey) (l : Z) (Ho : opened m !! o = Some l).

Lemma trimOne_eq : exists c ix, cm_heap m !! l = Some c /\ Outgoing c = Some o /\ pending m !! Incoming c = Some l /\
  trimOne o l m = m <| cm_heap ::= alter closing l |> <| opened ::= delete o |> <| hashIndex := ix |> /\
  forall h, default ∅ (ix !! h) = if decide (h = pc_PaymentHash c) then indexed m h ∖ {[EmptyCircuitKey]} else indexed m h.
Proof.
  assert (H := Ho). apply (ok_opened m Hok) in H as (c & Hc & Hout & Hp).
  exists c, (hashIndex (removeCircuitFromHashIndex (closing c) m)). do 3 (split; [done|]). split.
  - unfold trimOne. cbv zeta.
    change (cm_heap (m <| cm_heap ::= _ |> <| opened ::= _ |>)) with (alter closing l (cm_heap m)).
    rewrite lookup_alter_eq, Hc. cbn [fmap option_fmap option_map]. rewrite remove_index_frame.
    unfold removeCircuitFromHashIndex. cbn. by destruct (hashIndex m !! pc_PaymentHash c).
  - intros h. apply (indexed_remove (closing c) m h).
Qed.

Lemma trimOne_ok : cm_ok (trimOne o l m).
Proof.
  destruct trimOne_eq as (c & ix & Hc & Hout & Hp & -> & Hix). split; cbn.
  - intros l' c2. rewrite lookup_alter_Some. intros [(-> & c3 & H3 & _)|[_ H3]]; by eapply ok_next.
  - intros k l' Hk. apply (ok_pending m Hok) in Hk as (c2 & Hc2 & Hk). destruct (decide (l = l')) as [<-|Hne].
    + exists (closing c2). rewrite lookup_alter_eq, Hc2. done.
    + exists c2. by rewrite lookup_alter_ne.
  - intros o' l'. rewrite lookup_delete_Some, (ok_opened m Hok). split.
    + intros [Hne (c2 & Hc2 & Ho2 & Hp2)]. exists c2. rewrite lookup_alter_ne; [done|]. intros ->. congruence.
    + intros (c2 & Hc2 & Ho2 & Hp2). apply lookup_alter_Some in Hc2 as [(-> & c3 & H3 & ->)|[Hne H3]]; [done|].
      split; [|eauto]. intros <-. assert (opened m !! o = Some l') by (apply (ok_opened m Hok); eauto). congruence.
  - apply (ok_closed m Hok).
  - intros o' l' c2. rewrite lookup_delete_Some. intros [Hne Ho'] Hc2. rewrite Hix.
    assert (H := Ho'). apply (ok_opened m Hok) in H as (c3 & Hc3 & Ho3 & _).
    rewrite lookup_alter_ne in Hc2 by (intros ->; congruence).
    pose proof (ok_index m Hok o' l' c2 Ho' Hc2) as Hi. destruct (decide _); [|done].
    apply elem_of_difference. split; [done|]. rewrite elem_of_singleton. intros ->. by rewrite (ok_nonempty m Hok) in Ho'.
  - apply lookup_delete_None. right. apply (ok_nonempty m Hok).
Qed.

Lemma trimOne_frame : opened (trimOne o l m) = delete o (opened m) /\ closed (trimOne o l m) = closed m /\
  cm_adds (trimOne o l m) = cm_adds m /\ cm_keystones (trimOne o l m) = cm_keystones m.
Proof. destruct trimOne_eq as (c & ix & _ & _ & _ & -> & _). done. Qed.

Lemma trimOne_lookup k : LookupCircuit k (trimOne o l m) =
  (fun c => if decide (Outgoing c = Some o) then closing c else c) <$> LookupCircuit k m.
Proof.
  destruct trimOne_eq as (c & ix & Hc & Hout & Hp & -> & _). unfold LookupCircuit, deref. cbn.
  destruct (pending m !! k) as [l'|] eqn:Hl; [|done]. cbn. destruct (ok_pending m Hok _ _ Hl) as (c2 & Hc2 & Hk).
  rewrite Hc2. cbn. destruct (decide (l = l')) as [<-|Hne].
  - rewrite lookup_alter_eq, Hc2. cbn. rewrite decide_True; [done|congruence].
  - rewrite lookup_alter_ne, decide_False; [done| |done]. intros Heq.
    assert (Ho2 : opened m !! o = Some l') by (apply (ok_opened m Hok); exists c2; rewrite Hk; eauto). congruence.
Qed.
End TrimOne.

(** The keys the loop visits from [start]. *)
Definition run_of (chanID : ShortChannelID) (start : Z) (n : nat) : list CircuitKey :=
  (fun i => mkCircuitKey chanID (u64 (start + Z.of_nat i))) <$> seq 0 n.

Lemma run_of_S chanID start n : is_uint 64 start ->
  run_of chanID start (S n) = mkCircuitKey chanID start :: run_of chanID (u64 (start + 1)) n.
Proof.
  intros Hs. unfold run_of. cbn [seq]. rewrite fmap_cons. f_equal.
  - f_equal. rewrite Z.add_0_r. by apply uwrap_id.
  - rewrite <- fmap_S_seq, <- list_fmap_compose. apply list_fmap_ext. intros _ i _. cbn. f_equal.
    unfold uwrap. rewrite Zplus_mod_idemp_l. f_equal. lia.
Qed.

(** What trimming the keys [keys] does to the memory. *)
Definition trimmed (keys : list CircuitKey) (c : PaymentCircuit) : PaymentCircuit :=
  match Outgoing c with
  | Some o => if decide (o ∈ keys) then closing c else c
  | None => c
  end.

Definition trim_spec (m : circuitMap) (keys : list CircuitKey) (m' : circuitMap) : Prop :=
  (forall k, LookupCircuit k m' = trimmed keys <$> LookupCircuit k m) /\
  (forall o, LookupOpenCircuit o m' = if decide (o ∈ keys) then None else LookupOpenCircuit o m) /\
  (forall o, o ∈ keys -> is_Some (LookupOpenCircuit o m)) /\ NoDup keys /\
  closed m' = closed m.

Lemma trimOne_spec m o l : cm_ok m -> opened m !! o = Some l -> trim_spec m [o] (trimOne o l m).
Proof.
  intros Hok Ho. pose proof (trimOne_lookup m Hok o l Ho) as Hlk. destruct (trimOne_frame m Hok o l Ho) as (Eo & Ec & _).
  assert (Hsome : is_Some (LookupOpenCircuit o m)) by (apply (opened_is_Some m Hok); by exists l).
  destruct (trimOne_eq m Hok o l Ho) as (c & ix & Hc & Hout & _ & Heq & _).
  split; [|split; [|split; [|split; [apply list.NoDup_singleton|done]]]].
  - intros k. rewrite Hlk. destruct (LookupCircuit k m) as [c2|]; [|done]. cbn. f_equal. unfold trimmed.
    destruct (Outgoing c2) as [o2|]; [|done]. destruct (decide (o2 = o)) as [->|Hne].
    + by rewrite !decide_True by (done || by apply list_elem_of_singleton).
    + rewrite !decide_False; [done|rewrite list_elem_of_singleton; congruence|congruence].
  - intros o2. unfold LookupOpenCircuit, deref. rewrite Eo. destruct (decide (o2 = o)) as [->|Hne].
    + by rewrite lookup_delete_eq, decide_True by by apply list_elem_of_singleton.
    + rewrite lookup_delete_ne, decide_False by (done || rewrite list_elem_of_singleton; congruence).
      destruct (opened m !! o2) as [l2|] eqn:Ho2; [|done]. cbn.
      apply (ok_opened m Hok) in Ho2 as (c2 & Hc2 & Hout2 & _). rewrite Heq. cbn. rewrite lookup_alter_ne; [done|].
      intros ->. congruence.
  - intros o2 ->%list_elem_of_singleton. done.
Qed.

Lemma trim_spec_app m keys1 m1 keys2 m2 : trim_spec m keys1 m1 -> trim_spec m1 keys2 m2 -> trim_spec m (keys1 ++ keys2) m2.
Proof.
  intros (A1 & A2 & A3 & Hnd1 & A4) (B1 & B2 & B3 & Hnd & B4).
  assert (Ho : forall o, o ∈ keys1 -> o ∉ keys2).
  { intros o H1 Hin. apply B3 in Hin. rewrite A2, decide_True in Hin by done. by destruct Hin. }
  split; [|split; [|split; [|split; [by apply list.NoDup_app|congruence]]]].
  - intros k. rewrite B1, A1. destruct (LookupCircuit k m) as [c|]; [|done]. cbn. f_equal. unfold trimmed.
    destruct (Outgoing c) as [o2|] eqn:Ho2; [|by rewrite Ho2]. destruct (decide (o2 ∈ keys1)) as [Hin|Hin].
    + cbn. by rewrite decide_True by (apply elem_of_app; by left).
    + rewrite Ho2. destruct (decide (o2 ∈ keys2)) as [Hk|Hk].
      * by rewrite decide_True by (apply elem_of_app; by right).
      * rewrite decide_False; [done|]. by intros [?|?]%elem_of_app.
  - intros o2. rewrite B2, A2. destruct (decide (o2 ∈ keys2)) as [Hk|Hk].
    + by rewrite decide_True by (apply elem_of_app; by right).
    + destruct (decide (o2 ∈ keys1)) as [Hin|Hin].
      * by rewrite decide_True by (apply elem_of_app; by left).
      * rewrite decide_False; [done|]. by intros [?|?]%elem_of_app.
  - intros o2 [Hk|Hk]%elem_of_app; [by apply A3|].
    apply B3 in Hk. rewrite A2 in Hk. destruct (decide _); [by destruct Hk|done].
Qed.

Lemma trim_spec_nil m : trim_spec m [] m.
Proof.
  split; [|split; [|split; [|split; [constructor|done]]]].
  - intros k. destruct (LookupCircuit k m) as [c|]; [|done]. cbn. f_equal. unfold trimmed. destruct (Outgoing c); [|done].
    rewrite decide_False; [done|apply not_elem_of_nil].
  - intros o. rewrite decide_False; [done|apply not_elem_of_nil].
  - by intros o ?%not_elem_of_nil.
Qed.

(** The loop stops, at the first key that is not open. *)
Lemma trim_loop_ok fuel : forall chanID start m, cm_ok m -> is_uint 64 start -> (size (opened m) < fuel)%nat ->
  exists n m', trim_loop fuel chanID start m = Some (run_of chanID start n, m') /\ cm_ok m' /\
    trim_spec m (run_of chanID start n) m' /\ LookupOpenCircuit (mkCircuitKey chanID (u64 (start + Z.of_nat n))) m' = None /\
    cm_adds m' = cm_adds m /\ cm_keystones m' = cm_keystones m.
Proof.
  induction fuel as [|fuel IH]; intros chanID start m Hok Hs Hsz; [lia|]. cbn [trim_loop].
  destruct (opened m !! mkCircuitKey chanID start) as [l|] eqn:Hl.
  - pose proof (trimOne_ok m Hok _ l Hl) as Hok1. pose proof (trimOne_spec m _ l Hok Hl) as Hsp.
    destruct (trimOne_frame m Hok _ l Hl) as (Eo & _ & Ea & Ek).
    destruct (IH chanID (u64 (start + 1)) (trimOne (mkCircuitKey chanID start) l m) Hok1) as (n & m' & Hrun & Hok' & Hsp' & Hend & Ea' & Ek').
    { apply uwrap_range. lia. }
    { rewrite Eo. assert (size (opened m) <> 0%nat) by (apply map_size_ne_0_lookup; eauto). rewrite map_size_delete_Some by done. lia. }
    exists (S n), m'. rewrite Hrun. cbn [mbind option_bind fst snd]. rewrite run_of_S by done.
    split; [done|]. split; [done|]. split; [by apply (trim_spec_app _ [mkCircuitKey chanID start] _ _ _ Hsp)|]. split; [|split; congruence].
    rewrite <- Hend. f_equal. f_equal. unfold uwrap. rewrite Zplus_mod_idemp_l. f_equal. lia.
  - exists 0%nat, m. split; [done|]. split; [done|]. split; [apply trim_spec_nil|].
    split; [|done]. rewrite Z.add_0_r, uwrap_id by done. unfold LookupOpenCircuit. by rewrite Hl.
Qed.

Lemma trim_adds s m m1 keys : synced_but s m -> trim_spec m keys m1 -> cm_adds m1 = cm_adds m ->
  forall k, cm_adds m1 !! k = persisted <$> LookupCircuit k m1.
Proof.
  intros [Ha _] (H1 & _) Ea k. rewrite Ea, Ha, H1. destruct (LookupCircuit k m) as [c|]; [|done]. cbn. f_equal. unfold trimmed.
  destruct (Outgoing c) as [o|]; [|done]. by destruct (decide (o ∈ keys)).
Qed.

(** The bucket [bkt] without the trimmed keys. *)
Definition without (keys : list CircuitKey) (bkt : gmap CircuitKey CircuitKey) : gmap CircuitKey CircuitKey :=
  foldl (fun bkt k => delete k bkt) bkt keys.

Lemma lookup_without keys bkt o : without keys bkt !! o = if decide (o ∈ keys) then None else bkt !! o.
Proof. unfold without. by rewrite (lookup_foldl_delete (fun k => k)), list_fmap_id. Qed.

Lemma trim_synced s m m1 keys : synced_but s m -> trim_spec m keys m1 -> cm_adds m1 = cm_adds m -> cm_keystones m1 = cm_keystones m ->
  synced_but s (m1 <| cm_keystones ::= without keys |>) /\ synced_but (s ∪ list_to_set keys) m1.
Proof.
  intros Hsy Hsp Ea Ek. pose proof (trim_adds s m m1 keys Hsy Hsp Ea) as Ha1. destruct Hsy as [_ Hk], Hsp as (_ & H2 & _).
  split; (split; [exact Ha1|]); intros o.
  - change (without keys (cm_keystones m1) !! o = Incoming <$> LookupOpenCircuit o m1 \/ (o ∈ s /\ LookupOpenCircuit o m1 = None)).
    rewrite lookup_without, H2, Ek. destruct (decide (o ∈ keys)); [by left|apply Hk].
  - rewrite Ek, H2. destruct (decide (o ∈ keys)) as [Hin|]; [right; set_solver|]. destruct (Hk o) as [?|[? ?]]; [by left|right; set_solver].
Qed.

Lemma trim_ok commits chanID start m : cm_ok m -> is_uint 64 start ->
  exists n m' r, TrimOpenCircuits commits chanID start m = (r, m') /\ cm_ok m' /\ trim_spec m (run_of chanID start n) m' /\
    LookupOpenCircuit (mkCircuitKey chanID (u64 (start + Z.of_nat n))) m' = None /\ cm_adds m' = cm_adds m /\
    (r = Ok tt /\ cm_keystones m' = without (run_of chanID start n) (cm_keystones m) /\ (forall s, synced_but s m -> synced_but s m') \/
     r = Err ErrDatabase /\ commits = false /\ cm_keystones m' = cm_keystones m /\
       (forall s, synced_but s m -> synced_but (s ∪ list_to_set (run_of chanID start n)) m')).
Proof.
  intros Hok Hs. destruct (trim_loop_ok (S (size (opened m))) chanID start m Hok Hs) as (n & m1 & Hrun & Hok1 & Hsp & Hend & Ea & Ek); [lia|].
  exists n. unfold TrimOpenCircuits. rewrite Hrun. pose proof (fun s H => trim_synced s m m1 _ H Hsp Ea Ek) as Hsy.
  destruct (run_of chanID start n) as [|k keys] eqn:Hkeys.
  { exists m1, (Ok tt). do 5 (split; [done|]). left. split; [done|]. split; [done|].
    intros s Hs'. destruct (Hsy s Hs') as [_ H]. revert H. apply synced_but_more. set_solver. }
  destruct commits; cbn [db_update].
  - exists (m1 <| cm_keystones ::= without (k :: keys) |>), (Ok tt). split; [done|].
    split; [apply (cm_ok_disk m1 (cm_adds m1) _ Hok1)|]. do 3 (split; [done|]). left. split; [done|]. split; [by rewrite <- Ek|].
    intros s Hs'. by apply Hsy.
  - exists m1, (Err ErrDatabase). do 5 (split; [done|]). right. do 3 (split; [done|]). intros s Hs'. by apply Hsy.
Qed.

(** ** Failing and closing *)
Lemma closed_ok m k : cm_ok m -> is_Some (LookupCircuit k m) -> cm_ok (m <| closed ::= union {[k]} |>).
Proof.
  intros Hok Hk. destruct Hok. split; try done. cbn. intros k'. rewrite elem_of_union, elem_of_singleton.
  intros [->|Hc]; [|auto]. unfold LookupCircuit, deref in Hk. destruct (pending m !! k); [done|by destruct Hk].
Qed.

Lemma fail_circuit_run m k : FailCircuit k m =
  match LookupCircuit k m with
  | None => (Err ErrUnknownCircuit, m)
  | Some c => if bool_decide (k ∈ closed m) then (Err ErrCircuitClosing, m) else (Ok c, m <| closed ::= union {[k]} |>)
  end.
Proof.
  unfold FailCircuit, mbind, M_bind, get, check, modify, mret, M_ret. destruct (LookupCircuit k m); [|done].
  by case_bool_decide.
Qed.

Lemma close_run m o : CloseCircuit o m =
  match LookupOpenCircuit o m with
  | None => (Err ErrUnknownCircuit, m)
  | Some c => if bool_decide (Incoming c ∈ closed m) then (Err ErrCircuitClosing, m)
      else (Ok c, m <| closed ::= union {[Incoming c]} |>)
  end.
Proof.
  unfold CloseCircuit, mbind, M_bind, get, check, modify, mret, M_ret. destruct (LookupOpenCircuit o m); [|done].
  by case_bool_decide.
Qed.

(** ** Deleting circuits *)

(** What removing the keys does to the memory. *)
Definition delete_spec (m : circuitMap) (inKeys : list CircuitKey) (m' : circuitMap) : Prop :=
  (forall k, LookupCircuit k m' = if decide (k ∈ inKeys) then None else LookupCircuit k m) /\
  (forall o, LookupOpenCircuit o m' = c ← LookupOpenCircuit o m; if decide (Incoming c ∈ inKeys) then None else Some c) /\
  (forall k, k ∈ closed m' <-> k ∈ closed m /\ k ∉ inKeys).

Section RemoveOne.
Context (m : circuitMap) (Hok : cm_ok m) (k : CircuitKey) (c : PaymentCircuit) (Hc : LookupCircuit k m = Some c).

Lemma removeOne_maps : exists ix, removeOne k c m =
    m <| pending ::= delete k |> <| closed ::= fun s => s ∖ {[k]} |>
      <| opened ::= fun op => match Outgoing c with Some o => delete o op | None => op end |> <| hashIndex := ix |> /\
  forall h, default ∅ (ix !! h) = 
    match Outgoing c with
    | Some o => if decide (h = pc_PaymentHash c) then indexed m h ∖ {[o]} else indexed m h
    | None => indexed m h
    end.
Proof.
  unfold removeOne, HasKeystone. cbv zeta. destruct (Outgoing c) as [o|] eqn:Ho.
  - rewrite bool_decide_true by done. exists (hashIndex (removeCircuitFromHashIndex c m)). split.
    + rewrite remove_index_frame. unfold removeCircuitFromHashIndex, OutKey. cbn. rewrite Ho. cbn.
      by destruct (hashIndex m !! pc_PaymentHash c).
    + intros h. pose proof (indexed_remove c m h) as H. unfold OutKey in H. rewrite Ho in H. exact H.
  - rewrite bool_decide_false by (by intros []). exists (hashIndex m). split; [by destruct m|done].
Qed.

Lemma removeOne_lookup k' : LookupCircuit k' (removeOne k c m) = if decide (k' = k) then None else LookupCircuit k' m.
Proof.
  destruct removeOne_maps as (ix & -> & _). unfold LookupCircuit, deref. cbn. destruct (decide (k' = k)) as [->|Hne].
  - by rewrite lookup_delete_eq.
  - by rewrite lookup_delete_ne.
Qed.

Lemma removeOne_ok : cm_ok (removeOne k c m).
Proof.
  destruct (proj1 (lookup_Some m Hok k c) Hc) as (l & Hl & Hcl & Hk). destruct removeOne_maps as (ix & -> & Hix).
  assert (Hopened : forall o l', match Outgoing c with Some o => delete o (opened m) | None => opened m end !! o = Some l' <->
    opened m !! o = Some l' /\ l' <> l).
  { intros o l'. destruct (Outgoing c) as [o2|] eqn:Ho2.
    - rewrite lookup_delete_Some. split; intros [H1 H2].
      + split; [done|]. intros ->. apply (ok_opened m Hok) in H2 as (c2 & ? & ? & _). congruence.
      + split; [|done]. intros ->. apply H2. assert (Hx : opened m !! o = Some l) by (apply (ok_opened m Hok); rewrite <- Hk in Hl; eauto).
        congruence.
    - split; [|tauto]. intros H. split; [done|]. intros ->. apply (ok_opened m Hok) in H as (c2 & ? & ? & _). congruence. }
  split; cbn.
  - apply (ok_next m Hok).
  - intros k' l' [_ H]%lookup_delete_Some. by apply ok_pending.
  - intros o l'. rewrite Hopened, (ok_opened m Hok). split.
    + intros [(c2 & Hc2 & Ho & Hp) Hne]. exists c2. split; [done|]. split; [done|]. apply lookup_delete_Some.
      split; [|done]. congruence.
    + intros (c2 & Hc2 & Ho & [Hne Hp]%lookup_delete_Some). split; [eauto|]. intros ->. congruence.
  - intros k' [Hk' Hne]%elem_of_difference. rewrite elem_of_singleton in Hne. rewrite lookup_delete_ne by done.
    by apply (ok_closed m Hok).
  - intros o l' c2. rewrite Hopened. intros [Ho Hne] Hc2. rewrite Hix. pose proof (ok_index m Hok o l' c2 Ho Hc2) as Hi.
    change (o ∈ indexed m (pc_PaymentHash c2)) in Hi. destruct (Outgoing c) as [o2|] eqn:Ho2; [|done].
    destruct (decide _); [|done]. apply elem_of_difference. split; [done|]. rewrite elem_of_singleton. intros ->.
    assert (Hx : opened m !! o2 = Some l) by (apply (ok_opened m Hok); rewrite <- Hk in Hl; eauto). congruence.
  - destruct (match Outgoing c with Some o => delete o (opened m) | None => opened m end !! EmptyCircuitKey) eqn:He; [|done].
    apply Hopened in He as [He _]. by rewrite (ok_nonempty m Hok) in He.
Qed.
End RemoveOne.

Lemma foldl_proj {S T B} (pi : S -> T) (f : S -> B -> S) (g : T -> B -> T) l s :
  (forall s b, pi (f s b) = g (pi s) b) -> pi (foldl f s l) = foldl g (pi s) l.
Proof. intros H. revert s. induction l as [|b l IH]; intros s; [done|]. cbn. by rewrite IH, H. Qed.

Lemma lookup_foldl_partial {A B} (f : B -> option CircuitKey) (g : B -> A) (l : list B) (p : gmap CircuitKey A) k v :
  (forall b b', b ∈ l -> b' ∈ l -> f b = f b' -> is_Some (f b) -> g b = g b') ->
  foldl (fun p b => match f b with Some k => <[k := g b]> p | None => p end) p l !! k = Some v <->
    (exists b, b ∈ l /\ f b = Some k /\ g b = v) \/ ((forall b, b ∈ l -> f b <> Some k) /\ p !! k = Some v).
Proof.
  revert p. induction l as [|b l IH]; intros p Hfun; cbn [foldl].
  { split; [right; split; [by intros b ?%not_elem_of_nil|done]|]. intros [(b & Hb & _)|[_ H]]; [by apply not_elem_of_nil in Hb|done]. }
  rewrite IH by (intros b1 b2 H1 H2; apply Hfun; by right). split.
  - intros [(b' & Hb' & Hf & Hg)|[Hk Hp]]; [left; exists b'; split; [by right|done]|].
    destruct (f b) as [k'|] eqn:Hfb; [destruct (decide (k' = k)) as [->|Hne]|].
    + rewrite lookup_insert_eq in Hp. injection Hp as <-. left. exists b. split; [by left|done].
    + rewrite lookup_insert_ne in Hp by done. right. split; [|done]. intros b' [->|Hb']%elem_of_cons; [congruence|auto].
    + right. split; [|done]. intros b' [->|Hb']%elem_of_cons; [congruence|auto].
  - intros [(b' & [->|Hb']%elem_of_cons & Hf & Hg)|[Hk Hp]].
    + destruct (decide (Exists (fun b' => f b' = Some k) l)) as [He|Hn].
      * apply list.Exists_exists in He as (b1 & Hb1 & Hf1). left. exists b1. split; [done|]. split; [done|].
        rewrite <- Hg. apply Hfun; [by right|by left|congruence|by rewrite Hf1].
      * right. split; [|by rewrite Hf, lookup_insert_eq, Hg]. intros b1 Hb1 Hf1. apply Hn, list.Exists_exists. eauto.
    + left. eauto.
    + right. split; [intros b' Hb'; apply Hk; by right|]. pose proof (Hk b ltac:(by left)).
      destruct (f b); [|done]. rewrite lookup_insert_ne; congruence.
Qed.

Lemma lookup_foldl_remove {A B} (f : B -> option CircuitKey) (l : list B) (p : gmap CircuitKey A) k v :
  foldl (fun p b => match f b with Some k => delete k p | None => p end) p l !! k = Some v <->
    (forall b, b ∈ l -> f b <> Some k) /\ p !! k = Some v.
Proof.
  revert p. induction l as [|b l IH]; intros p; cbn [foldl].
  { split; [|tauto]. split; [by intros b ?%not_elem_of_nil|done]. }
  rewrite IH. split.
  - intros [Hk Hp]. destruct (f b) as [k'|] eqn:Hfb.
    + apply lookup_delete_Some in Hp as [Hne Hp]. split; [|done]. intros b' [->|Hb']%elem_of_cons; [congruence|auto].
    + split; [|done]. intros b' [->|Hb']%elem_of_cons; [congruence|auto].
  - intros [Hk Hp]. split; [intros b' Hb'; apply Hk; by right|]. pose proof (Hk b ltac:(by left)).
    destruct (f b); [|done]. rewrite lookup_delete_ne; congruence.
Qed.

(** What [removeCircuits] leaves and reports. *)
Record deleted (m : circuitMap) (inKeys : list CircuitKey) (rs : list removed) (m' : circuitMap) : Prop := {
  dl_ok : cm_ok m';
  dl_frame : cm_heap m' = cm_heap m /\ cm_adds m' = cm_adds m /\ cm_keystones m' = cm_keystones m;
  dl_pending k : pending m' !! k = if decide (k ∈ inKeys) then None else pending m !! k;
  dl_closed k : k ∈ closed m' <-> k ∈ closed m /\ k ∉ inKeys;
  dl_report r : r ∈ rs -> rm_key r ∈ inKeys /\ pending m !! rm_key r = Some (rm_ptr r) /\
    cm_heap m !! rm_ptr r = Some (rm_circuit r) /\ Incoming (rm_circuit r) = rm_key r /\
    rm_closing r = bool_decide (rm_key r ∈ closed m);
  dl_all k : k ∈ inKeys -> is_Some (pending m !! k) -> exists r, r ∈ rs /\ rm_key r = k
}.

Lemma removeCircuits_ok inKeys : forall m rs m', cm_ok m -> removeCircuits inKeys m = (rs, m') -> deleted m inKeys rs m'.
Proof.
  induction inKeys as [|k keys IH]; intros m rs m' Hok Hrun; cbn [removeCircuits] in Hrun.
  - injection Hrun as <- <-. split; try done.
    + intros k. split; [|tauto]. intros ?. split; [done|apply not_elem_of_nil].
    + by intros r ?%not_elem_of_nil.
    + by intros r ?%not_elem_of_nil.
  - destruct (pending m !! k) as [l|] eqn:Hl.
    + destruct (ok_pending m Hok _ _ Hl) as (c & Hc & Hk).
      assert (Hlk : LookupCircuit k m = Some c) by (by rewrite (ok_lookup m _ _ Hl)). rewrite Hlk in Hrun.
      destruct (removeCircuits keys (removeOne k c m)) as [rest m2] eqn:Hrest. injection Hrun as <- <-.
      pose proof (removeOne_ok m Hok k c Hlk) as Hok1. destruct (removeOne_maps m Hok k c Hlk) as (ix & Heq & _).
      destruct (IH _ _ _ Hok1 Hrest) as [D1 (E1 & E2 & E3) D3 D4 D5 D6]. rewrite Heq in *. cbn in *.
      split; try done.
      * intros k'. rewrite D3. destruct (decide (k' ∈ keys)) as [Hin|Hin].
        { by rewrite decide_True by by right. }
        destruct (decide (k' = k)) as [->|Hne]; [by rewrite decide_True, lookup_delete_eq by by left|].
        rewrite lookup_delete_ne, decide_False by (done || by rewrite not_elem_of_cons). done.
      * intros k'. rewrite D4, elem_of_difference, elem_of_singleton, not_elem_of_cons. tauto.
      * intros r [->|Hr]%elem_of_cons; [cbn; split; [by left|done]|].
        destruct (D5 r Hr) as (H1 & [Hne H2]%lookup_delete_Some & H3 & H4 & H5). split; [by right|]. do 3 (split; [done|]).
        rewrite H5. apply bool_decide_ext. rewrite elem_of_difference, elem_of_singleton. split; [tauto|]. split; congruence.
      * intros k' [->|Hk']%elem_of_cons Hs; [eexists; split; [by left|done]|].
        destruct (decide (k' = k)) as [->|Hne]; [eexists; split; [by left|done]|].
        destruct (D6 k' Hk') as (r & Hr & Hrk); [by rewrite lookup_delete_ne|]. exists r. split; [by right|done].
    + destruct (IH _ _ _ Hok Hrun) as [D1 D2 D3 D4 D5 D6]. split; try done.
      * intros k'. rewrite D3. destruct (decide (k' ∈ keys)) as [Hin|Hin].
        { by rewrite decide_True by by right. }
        destruct (decide (k' ∈ k :: keys)) as [H|H]; [|done]. apply elem_of_cons in H as [->|]; done.
      * intros k'. rewrite D4, not_elem_of_cons. split; [|tauto]. intros [H1 H2]. split; [done|]. split; [|done].
        intros ->. apply (ok_closed m Hok) in H1. rewrite Hl in H1. by destruct H1.
      * intros r Hr. destruct (D5 r Hr) as (H1 & H2). split; [by right|done].
      * intros k' [->|Hk']%elem_of_cons Hs; [rewrite Hl in Hs; by destruct Hs|]. by apply D6.
Qed.

Section Deleted.
Context (m : circuitMap) (Hok : cm_ok m) (inKeys : list CircuitKey) (rs : list removed) (m1 : circuitMap)
  (H : deleted m inKeys rs m1).

Lemma deleted_lookup k : LookupCircuit k m1 = if decide (k ∈ inKeys) then None else LookupCircuit k m.
Proof.
  unfold LookupCircuit, deref. rewrite (dl_pending _ _ _ _ H). destruct (dl_frame _ _ _ _ H) as (-> & _).
  by destruct (decide (k ∈ inKeys)).
Qed.

Lemma deleted_spec : delete_spec m inKeys m1.
Proof.
  split; [apply deleted_lookup|]. split; [|apply H]. intros o. apply option_eq. intros c.
  rewrite (lookup_open_Some m1 (dl_ok _ _ _ _ H)), deleted_lookup, bind_Some. split.
  - intros [Hc Ho]. destruct (decide (Incoming c ∈ inKeys)) as [|Hn]; [done|]. exists c. rewrite decide_False by done.
    split; [|done]. by apply (lookup_open_Some m Hok).
  - intros (c' & Hc' & Hif). destruct (decide (Incoming c' ∈ inKeys)) as [|Hn]; [done|]. injection Hif as ->.
    rewrite decide_False by done. by apply (lookup_open_Some m Hok).
Qed.

(** A circuit was reported exactly when it is gone. *)
Lemma reported c : LookupCircuit (Incoming c) m = Some c ->
  Incoming c ∈ inKeys <-> exists r, r ∈ rs /\ rm_circuit r = c.
Proof.
  intros Hc. split.
  - intros Hin. apply (lookup_Some m Hok) in Hc as (l & Hl & Hcl & _).
    destruct (dl_all _ _ _ _ H _ Hin) as (r & Hr & Hk); [by exists l|]. exists r. split; [done|].
    destruct (dl_report _ _ _ _ H r Hr) as (_ & Hp & Hcr & _). congruence.
  - intros (r & Hr & <-). destruct (dl_report _ _ _ _ H r Hr) as (Hin & _ & _ & Hk & _). congruence.
Qed.

Lemma report_lookup r : r ∈ rs -> LookupCircuit (Incoming (rm_circuit r)) m = Some (rm_circuit r).
Proof.
  intros Hr. destruct (dl_report _ _ _ _ H r Hr) as (_ & Hp & Hc & Hk & _). rewrite Hk. by rewrite (ok_lookup m _ _ Hp).
Qed.

Lemma stored_frame l m0 : cm_heap (foldl deleteStored m0 l) = cm_heap m0 /\ cm_next (foldl deleteStored m0 l) = cm_next m0 /\
  pending (foldl deleteStored m0 l) = pending m0 /\ opened (foldl deleteStored m0 l) = opened m0 /\
  closed (foldl deleteStored m0 l) = closed m0 /\ hashIndex (foldl deleteStored m0 l) = hashIndex m0.
Proof.
  revert m0. induction l as [|r l IH]; intros m0; [done|]. cbn [foldl].
  destruct (IH (deleteStored m0 r)) as (-> & -> & -> & -> & -> & ->). unfold deleteStored. cbv zeta.
  by destruct (HasKeystone (rm_circuit r)).
Qed.

Lemma has_keystone_match {A} c (f : CircuitKey -> A) (x : A) :
  (if HasKeystone c then f (OutKey c) else x) = match Outgoing c with Some o => f o | None => x end.
Proof. unfold HasKeystone, OutKey. by destruct (Outgoing c). Qed.

Lemma stored_disk l m0 :
  cm_adds (foldl deleteStored m0 l) =
    foldl (fun p r => match Some (Incoming (rm_circuit r)) with Some k => delete k p | None => p end) (cm_adds m0) l /\
  cm_keystones (foldl deleteStored m0 l) =
    foldl (fun p r => match Outgoing (rm_circuit r) with Some k => delete k p | None => p end) (cm_keystones m0) l.
Proof.
  split; apply foldl_proj; intros s r; unfold deleteStored; cbv zeta.
  - by destruct (HasKeystone (rm_circuit r)).
  - rewrite <- (has_keystone_match (rm_circuit r) (fun k => delete k (cm_keystones s))).
    by destruct (HasKeystone (rm_circuit r)).
Qed.

Lemma deleted_synced s : synced_but s m -> synced_but s (foldl deleteStored m1 rs).
Proof.
  intros [Ha Hk]. destruct (stored_frame rs m1) as (Eh & _ & Ep & Eo & _). destruct (stored_disk rs m1) as (Ea & Ek).
  destruct (dl_frame _ _ _ _ H) as (_ & Ea1 & Ek1). destruct deleted_spec as (S1 & S2 & _). split.
  - intros k. rewrite Ea, Ea1. unfold LookupCircuit. rewrite Ep. unfold deref. rewrite Eh. change (l ← pending m1 !! k; cm_heap m1 !! l) with (LookupCircuit k m1).
    apply option_eq. intros v. rewrite (lookup_foldl_remove (fun r => Some (Incoming (rm_circuit r)))), Ha, S1.
    destruct (decide (k ∈ inKeys)) as [Hin|Hn].
    + split; [|done]. intros [Hno (c & Hc & _)%fmap_Some]. assert (Hkc : Incoming c = k) by (by apply (lookup_Some m Hok) in Hc as (l & _ & _ & ?)).
      subst k. apply reported in Hin as (r & Hr & <-); [|done]. by destruct (Hno r Hr).
    + split; [by intros [_ ?]|]. intros Hv. split; [|done]. intros r Hr [= <-]. apply Hn.
      destruct (dl_report _ _ _ _ H r Hr) as (Hin & _ & _ & Hkr & _). congruence.
  - intros o. rewrite Ek, Ek1. unfold LookupOpenCircuit. rewrite Eo. unfold deref. rewrite Eh. change (l ← opened m1 !! o; cm_heap m1 !! l) with (LookupOpenCircuit o m1).
    destruct (Hk o) as [Hko|[Hin Hno]]; [left|right; split; [done|]; by rewrite S2, Hno].
    apply option_eq. intros v. rewrite lookup_foldl_remove, Hko, S2, !fmap_Some. split.
    + intros [Hno (c & Hc & ->)]. exists c. split; [|done]. rewrite Hc. cbn. rewrite decide_False; [done|].
      apply (lookup_open_Some m Hok) in Hc as [Hc Ho]. intros Hin. apply reported in Hin as (r & Hr & <-); [|done]. by apply (Hno r Hr).
    + intros (c & (c' & Hc & Hif)%bind_Some & ->). destruct (decide (Incoming c' ∈ inKeys)) as [|Hn]; [done|]. injection Hif as ->.
      split; [|eauto]. intros r Hr Ho. apply Hn. apply (lookup_open_Some m Hok) in Hc as [Hc Ho'].
      assert (Heq : rm_circuit r = c).
      { pose proof (report_lookup r Hr) as Hr'. assert (X : LookupOpenCircuit o m = Some (rm_circuit r)) by (by apply (lookup_open_Some m Hok)).
        assert (Y : LookupOpenCircuit o m = Some c) by (by apply (lookup_open_Some m Hok)). congruence. }
      apply reported; eauto.
Qed.
End Deleted.

(** *** A failed write takes everything back *)
Lemma restore_frame l m0 : cm_heap (foldl restoreRemoved m0 l) = cm_heap m0 /\ cm_next (foldl restoreRemoved m0 l) = cm_next m0 /\
  cm_adds (foldl restoreRemoved m0 l) = cm_adds m0 /\ cm_keystones (foldl restoreRemoved m0 l) = cm_keystones m0.
Proof.
  revert m0. induction l as [|r l IH]; intros m0; [done|]. cbn [foldl].
  destruct (IH (restoreRemoved m0 r)) as (-> & -> & -> & ->). unfold restoreRemoved. cbv zeta.
  by destruct (HasKeystone (rm_circuit r)).
Qed.

Lemma restore_maps l m0 :
  pending (foldl restoreRemoved m0 l) =
    foldl (fun p r => match Some (rm_key r) with Some k => <[k := rm_ptr r]> p | None => p end) (pending m0) l /\
  opened (foldl restoreRemoved m0 l) =
    foldl (fun p r => match Outgoing (rm_circuit r) with Some o => <[o := rm_ptr r]> p | None => p end) (opened m0) l /\
  closed (foldl restoreRemoved m0 l) = foldl (fun s r => if rm_closing r then {[rm_key r]} ∪ s else s) (closed m0) l.
Proof.
  split; [|split]; apply foldl_proj; intros s r; unfold restoreRemoved; cbv zeta.
  - by destruct (HasKeystone (rm_circuit r)).
  - rewrite <- (has_keystone_match (rm_circuit r) (fun o => <[o := rm_ptr r]> (opened s))).
    by destruct (HasKeystone (rm_circuit r)).
  - by destruct (HasKeystone (rm_circuit r)).
Qed.

Lemma restore_index l : forall m0 h o, o ∈ indexed (foldl restoreRemoved m0 l) h <->
  o ∈ indexed m0 h \/ exists r, r ∈ l /\ Outgoing (rm_circuit r) = Some o /\ pc_PaymentHash (rm_circuit r) = h.
Proof.
  induction l as [|r l IH]; intros m0 h o; cbn [foldl].
  - split; [by left|]. intros [?|(r & Hr & _)]; [done|by apply not_elem_of_nil in Hr].
  - rewrite IH. 
    assert (Hone : o ∈ indexed (restoreRemoved m0 r) h <->
      o ∈ indexed m0 h \/ (Outgoing (rm_circuit r) = Some o /\ pc_PaymentHash (rm_circuit r) = h)).
    { unfold restoreRemoved, HasKeystone, OutKey. cbv zeta. destruct (Outgoing (rm_circuit r)) as [o'|] eqn:Ho.
      - rewrite bool_decide_true by done. rewrite indexed_add. unfold OutKey. rewrite Ho. cbn [default].
        change (indexed (_ <| opened ::= _ |>) h) with (indexed m0 h).
        destruct (decide (h = pc_PaymentHash (rm_circuit r))) as [->|Hne]; rewrite ?elem_of_union, ?elem_of_singleton; naive_solver.
      - rewrite bool_decide_false by (by intros []). change (indexed (_ <| closed ::= _ |>) h) with (indexed m0 h). naive_solver. }
    rewrite Hone. setoid_rewrite elem_of_cons. naive_solver.
Qed.

Lemma foldl_closed (l : list removed) (s : gset CircuitKey) k :
  k ∈ foldl (fun s r => if rm_closing r then {[rm_key r]} ∪ s else s) s l <->
  k ∈ s \/ exists r, r ∈ l /\ rm_closing r = true /\ rm_key r = k.
Proof.
  revert s. induction l as [|r l IH]; intros s; cbn [foldl].
  - split; [by left|]. intros [?|(r & Hr & _)]; [done|by apply not_elem_of_nil in Hr].
  - rewrite IH. split.
    + intros [Hs|(r' & Hr' & Hc & Hk)]; [|right; exists r'; split; [by right|done]].
      destruct (rm_closing r) eqn:Hr; [|by left]. apply elem_of_union in Hs as [->%elem_of_singleton|Hs]; [|by left].
      right. exists r. split; [by left|done].
    + intros [Hs|(r' & [->|Hr']%elem_of_cons & Hc & Hk)]; [| |right; eauto].
      * left. destruct (rm_closing r); [|done]. apply elem_of_union. by right.
      * left. rewrite Hc. apply elem_of_union. left. by apply elem_of_singleton.
Qed.

Section Restored.
Context (m : circuitMap) (Hok : cm_ok m) (inKeys : list CircuitKey) (rs : list removed) (m1 : circuitMap)
  (H : deleted m inKeys rs m1).

Let m2 := foldl restoreRemoved m1 rs.

Lemma restored_pending : pending m2 = pending m.
Proof.
  apply map_eq. intros k. apply option_eq. intros l. unfold m2. destruct (restore_maps rs m1) as (-> & _).
  rewrite (lookup_foldl_partial (fun r => Some (rm_key r))), (dl_pending _ _ _ _ H).
  - split.
    + intros [(r & Hr & [= <-] & <-)|[_ Hp]]; [by apply (dl_report _ _ _ _ H)|]. by destruct (decide _).
    + intros Hl. destruct (decide (k ∈ inKeys)) as [Hin|Hn].
      * left. destruct (dl_all _ _ _ _ H k Hin) as (r & Hr & <-); [by exists l|]. exists r. split; [done|]. split; [done|].
        destruct (dl_report _ _ _ _ H r Hr) as (_ & Hp & _). congruence.
      * right. split; [|done]. intros r Hr [= <-]. apply Hn. by apply (dl_report _ _ _ _ H).
  - intros r r' Hr Hr' [= Heq] _. destruct (dl_report _ _ _ _ H r Hr) as (_ & Hp & _).
    destruct (dl_report _ _ _ _ H r' Hr') as (_ & Hp' & _). congruence.
Qed.

Lemma report_open r o : r ∈ rs -> Outgoing (rm_circuit r) = Some o -> opened m !! o = Some (rm_ptr r).
Proof.
  intros Hr Ho. destruct (dl_report _ _ _ _ H r Hr) as (_ & Hp & Hc & Hk & _). apply (ok_opened m Hok).
  exists (rm_circuit r). rewrite Hk. done.
Qed.

Lemma restored_opened : opened m2 = opened m.
Proof.
  destruct (dl_frame _ _ _ _ H) as (Eh & _).
  apply map_eq. intros o. apply option_eq. intros l. unfold m2. destruct (restore_maps rs m1) as (_ & -> & _).
  rewrite lookup_foldl_partial.
  - rewrite (ok_opened m1 (dl_ok _ _ _ _ H)). split.
    + intros [(r & Hr & Ho & <-)|[_ (c & Hc & Ho & Hp)]]; [by apply report_open|].
      rewrite Eh in Hc. rewrite (dl_pending _ _ _ _ H) in Hp. destruct (decide _); [done|]. apply (ok_opened m Hok). eauto.
    + intros Hl. assert (Hl' := Hl). apply (ok_opened m Hok) in Hl' as (c & Hc & Ho & Hp).
      destruct (decide (Incoming c ∈ inKeys)) as [Hin|Hn].
      * left. destruct (dl_all _ _ _ _ H _ Hin) as (r & Hr & Hk); [by exists l|]. exists r.
        destruct (dl_report _ _ _ _ H r Hr) as (_ & Hpr & Hcr & _). split; [done|]. rewrite Hk, Hp in Hpr. injection Hpr as ->.
        split; [congruence|done].
      * right. split.
        -- intros r Hr Hor. pose proof (report_open r o Hr Hor) as Hl2. apply Hn.
           destruct (dl_report _ _ _ _ H r Hr) as (Hin & Hpr & Hcr & Hk & _).
           assert (Incoming c = rm_key r) as -> by congruence. done.
        -- exists c. rewrite Eh, (dl_pending _ _ _ _ H), decide_False by done. done.
  - intros r r' Hr Hr' Heq [o' Ho]. assert (Ho' := Ho). rewrite Heq in Ho'.
    pose proof (report_open r o' Hr Ho). pose proof (report_open r' o' Hr' Ho'). congruence.
Qed.

Lemma restored_closed : closed m2 = closed m.
Proof.
  apply set_eq. intros k. unfold m2. destruct (restore_maps rs m1) as (_ & _ & ->).
  rewrite foldl_closed, (dl_closed _ _ _ _ H). split.
  - intros [[? _]|(r & Hr & Hcl & <-)]; [done|]. destruct (dl_report _ _ _ _ H r Hr) as (_ & _ & _ & _ & Heq).
    rewrite Hcl in Heq. symmetry in Heq. by apply bool_decide_eq_true in Heq.
  - intros Hk. destruct (decide (k ∈ inKeys)) as [Hin|Hn]; [right|by left].
    destruct (dl_all _ _ _ _ H k Hin) as (r & Hr & <-); [by apply (ok_closed m Hok)|]. exists r. split; [done|]. split; [|done].
    destruct (dl_report _ _ _ _ H r Hr) as (_ & _ & _ & _ & ->). by apply bool_decide_true.
Qed.

Lemma restored_ok : cm_ok m2.
Proof.
  destruct (restore_frame rs m1) as (Eh2 & En2 & _). destruct (dl_frame _ _ _ _ H) as (Eh & _).
  split; rewrite ?restored_pending, ?restored_opened, ?restored_closed; unfold m2; rewrite ?Eh2, ?Eh, ?En2.
  - rewrite <- Eh. apply (ok_next m1 (dl_ok _ _ _ _ H)).
  - apply (ok_pending m Hok).
  - apply (ok_opened m Hok).
  - apply (ok_closed m Hok).
  - intros o l c Ho Hc. apply (restore_index rs m1 (pc_PaymentHash c) o).
    assert (Ho' := Ho). apply (ok_opened m Hok) in Ho' as (c2 & Hc2 & Hout & Hp). assert (c2 = c) as -> by congruence.
    destruct (decide (Incoming c ∈ inKeys)) as [Hin|Hn].
    + right. destruct (dl_all _ _ _ _ H _ Hin) as (r & Hr & Hk); [by exists l|]. exists r.
      destruct (dl_report _ _ _ _ H r Hr) as (_ & Hpr & Hcr & _). split; [done|]. rewrite Hk, Hp in Hpr. injection Hpr as ->.
      assert (rm_circuit r = c) as -> by congruence. done.
    + left. apply (ok_index m1 (dl_ok _ _ _ _ H) o l c); [|by rewrite Eh]. apply (ok_opened m1 (dl_ok _ _ _ _ H)).
      exists c. rewrite Eh, (dl_pending _ _ _ _ H), decide_False by done. done.
  - apply (ok_nonempty m Hok).
Qed.
End Restored.

Lemma delete_ok s commits inKeys m r m' : cm_ok m -> synced_but s m -> DeleteCircuits commits inKeys m = (r, m') ->
  cm_ok m' /\ synced_but s m' /\
  (r = Ok tt /\ delete_spec m inKeys m' \/
   r = Err ErrDatabase /\ commits = false /\ closed m' = closed m /\
     (forall k, LookupCircuit k m' = LookupCircuit k m) /\ (forall o, LookupOpenCircuit o m' = LookupOpenCircuit o m)).
Proof.
  intros Hok Hsy. unfold DeleteCircuits. destruct (removeCircuits inKeys m) as [rs m1] eqn:Hrm.
  apply (removeCircuits_ok _ _ _ _ Hok) in Hrm as H. destruct (dl_frame _ _ _ _ H) as (Eh & Ea & Ek).
  destruct commits; cbn [db_update]; intros Hrun.
  - unfold modify in Hrun. injection Hrun as <- <-.
    destruct (stored_frame rs m1) as (Eh' & En' & Ep' & Eo' & Ec' & Ei').
    split; [|split; [by eapply deleted_synced|left; split; [done|]]].
    + apply (cm_ok_same m1); try done; [apply H|by rewrite Eh'|]. rewrite Eh', En'. apply (ok_next m1 (dl_ok _ _ _ _ H)).
    + destruct (deleted_spec m Hok inKeys rs m1 H) as (S1 & S2 & S3). unfold delete_spec, LookupCircuit, LookupOpenCircuit, deref in *.
      rewrite Ep', Eo', Ec', Eh'. done.
  - unfold throw in Hrun. injection Hrun as <- <-.
    pose proof (restored_ok m Hok inKeys rs m1 H) as Hok2. destruct (restore_frame rs m1) as (Eh' & _ & Ea' & Ek').
    pose proof (restored_pending m inKeys rs m1 H) as Ep. pose proof (restored_opened m Hok inKeys rs m1 H) as Eo.
    pose proof (restored_closed m Hok inKeys rs m1 H) as Ec.
    set (m2 := foldl restoreRemoved m1 rs) in *.
    assert (L1 : forall k, LookupCircuit k m2 = LookupCircuit k m) by (intros k; unfold LookupCircuit, deref; by rewrite Ep, Eh', Eh).
    assert (L2 : forall o, LookupOpenCircuit o m2 = LookupOpenCircuit o m) by (intros k; unfold LookupOpenCircuit, deref; by rewrite Eo, Eh', Eh).
    split; [done|]. split; [|auto 6]. revert Hsy. apply synced_but_ext; congruence.
Qed.
