(* ===== verification/CircuitRestart.v ===== *)
(** * Restarting the circuit map

    From buckets that fit together, [NewCircuitMap] restores a map that satisfies the
    invariant; what it keeps of the circuits. *)

From S2P Require Import Prelude Wire Messages ChanIds Units Tx FwdPkg UpdateLog Circuits CircuitOps.

(** ** Restarting *)

(** Buckets that a circuit map can be restored from. *)
Record disk_ok (adds : gmap CircuitKey PaymentCircuit) (stones : gmap CircuitKey CircuitKey) : Prop := {
  do_adds k c : adds !! k = Some c -> Incoming c = k /\ Outgoing c = None /\ LoadedFromDisk c = false;
  do_stones o k : stones !! o = Some k -> is_Some (adds !! k) /\ o <> EmptyCircuitKey;
  do_once o o' k : stones !! o = Some k -> stones !! o' = Some k -> o = o'
}.

Lemma synced_disk m : cm_ok m -> synced m -> disk_ok (cm_adds m) (cm_keystones m).
Proof.
  intros Hok [Ha Hk].
  assert (Hst : forall o k, cm_keystones m !! o = Some k -> exists c, LookupOpenCircuit o m = Some c /\ k = Incoming c /\
    LookupCircuit k m = Some c /\ Outgoing c = Some o).
  { intros o k. rewrite Hk. intros (c & Hc & ->)%fmap_Some. exists c. split; [done|]. split; [done|].
    by apply (lookup_open_Some m Hok). }
  split.
  - intros k c. rewrite Ha. intros (c' & Hc & ->)%fmap_Some. apply (lookup_Some m Hok) in Hc as (l & _ & _ & <-). done.
  - intros o k H. destruct (Hst o k H) as (c & Hc & _ & Hlk & _). split; [rewrite Ha, Hlk; by eexists|].
    intros ->. unfold LookupOpenCircuit in Hc. by rewrite (ok_nonempty m Hok) in Hc.
  - intros o o' k H H'. destruct (Hst o k H) as (c & _ & _ & Hc & Ho). destruct (Hst o' k H') as (c' & _ & _ & Hc' & Ho').
    congruence.
Qed.

(** *** The channels that were closed *)
Section Clean.
Context (extracts : bytes -> bool) (channels : list closedChannel).

Definition gone (k : CircuitKey) : bool := isClosedChannel channels (ck_ChanID k).

(** The circuits and keystones that stay. *)
Definition cleaned (m m' : circuitMap) : Prop :=
  (forall k c, cm_adds m' !! k = Some c <->
    cm_adds m !! k = Some c /\ gone k = false /\ forall o, cm_keystones m !! o = Some k -> gone o = false) /\
  (forall o k, cm_keystones m' !! o = Some k <-> cm_keystones m !! o = Some k /\ gone k = false /\ gone o = false).

Lemma none_gone k : filter (fun c => cc_IsPending c = false) channels = [] -> gone k = false.
Proof.
  intros Hf. unfold gone, isClosedChannel. rewrite Hf. destruct (_ =? 0); [done|]. apply bool_decide_eq_false.
  apply not_elem_of_nil.
Qed.

Lemma closedKeys_spec m : (forall k c, cm_adds m !! k = Some c -> Incoming c = k) ->
  (forall k, k ∈ (closedKeys channels m).1 <->
    (is_Some (cm_adds m !! k) /\ gone k = true) \/ exists o, cm_keystones m !! o = Some k /\ (gone k = true \/ gone o = true)) /\
  (forall o, o ∈ (closedKeys channels m).2 <->
    exists k, cm_keystones m !! o = Some k /\ (gone k = true \/ gone o = true)).
Proof.
  intros Hin. unfold closedKeys. cbv beta zeta. cbn [fst snd].
  assert (Hst : forall o k, (o, k) ∈ filter (fun oi : CircuitKey * CircuitKey =>
    isClosedChannel channels (ck_ChanID oi.2) || isClosedChannel channels (ck_ChanID oi.1) = true) (map_to_list (cm_keystones m)) <->
    cm_keystones m !! o = Some k /\ (gone k = true \/ gone o = true)).
  { intros o k. rewrite list_elem_of_filter, elem_of_map_to_list, orb_true_iff. tauto. }
  split.
  - intros k. rewrite elem_of_union, !elem_of_list_to_set, !list_elem_of_fmap. split.
    + intros [(c & -> & [Hg Hc]%list_elem_of_filter)|([o k'] & -> & Hk')].
      * left. apply list_elem_of_fmap in Hc as ([k' c'] & -> & Hc%elem_of_map_to_list). cbn in *.
        apply Hin in Hc as Hk. subst k'. split; [by eexists|done].
      * right. exists o. by apply Hst.
    + intros [[[c Hc] Hg]|(o & Ho)].
      * left. exists c. apply Hin in Hc as Hk. split; [done|]. apply list_elem_of_filter. rewrite Hk. split; [done|].
        apply list_elem_of_fmap. exists (k, c). split; [done|]. by apply elem_of_map_to_list.
      * right. exists (o, k). split; [done|]. by apply Hst.
  - intros o. rewrite elem_of_list_to_set, list_elem_of_fmap. split.
    + intros ([o' k] & -> & Hk). exists k. by apply Hst.
    + intros (k & Hk). exists (o, k). split; [done|]. by apply Hst.
Qed.

Lemma clean_run m m' : (forall k c, cm_adds m !! k = Some c -> Incoming c = k) ->
  cleanClosedChannels extracts channels m = (Ok tt, m') -> cleaned m m'.
Proof.
  intros Hin Hrun. unfold cleanClosedChannels in Hrun.
  destruct (filter _ channels) as [|ch chs] eqn:Hf.
  - injection Hrun as <-. split.
    + intros k c. split; [|tauto]. intros H. rewrite none_gone by done. split; [done|]. split; [done|].
      intros o _. by apply none_gone.
    + intros o k. rewrite !none_gone by done. tauto.
  - apply M_bind_Ok in Hrun as (m0 & s0 & Hg & Hrun). injection Hg as <- <-.
    apply M_bind_Ok in Hrun as (l & s1 & Hl & Hrun). unfold lift in Hl. injection Hl as _ <-.
    destruct (closedKeys_spec m Hin) as [K1 K2]. destruct (closedKeys channels m) as [cs ks]. cbn [fst snd] in K1, K2.
    unfold modify in Hrun. injection Hrun as <-. split; cbn.
    + intros k c. rewrite map_lookup_filter_Some. cbn. rewrite K1. split.
      * intros [Hc Hn]. split; [done|]. split.
        -- destruct (gone k) eqn:Hg; [|done]. destruct Hn. left. split; [by eexists|done].
        -- intros o Ho. destruct (gone o) eqn:Hg; [|done]. destruct Hn. right. exists o. auto.
      * intros (Hc & Hg & Ho). split; [done|]. intros [[_ Hg']|(o & Hko & [Hg'|Hg'])]; [congruence..|]. rewrite (Ho o Hko) in Hg'. done.
    + intros o k. rewrite map_lookup_filter_Some. cbn. rewrite K2. split.
      * intros [Hk Hn]. split; [done|]. split; apply not_true_is_false; intros Hg; destruct Hn; eauto.
      * intros (Hk & Hg & Hg'). split; [done|]. intros (k' & Hk' & Hor). assert (k' = k) as -> by congruence. destruct Hor; congruence.
Qed.

Lemma cleaned_disk m m' : disk_ok (cm_adds m) (cm_keystones m) -> cleaned m m' -> disk_ok (cm_adds m') (cm_keystones m').
Proof.
  intros [D1 D2 D3] [C1 C2]. split.
  - intros k c (Hc & _)%C1. by apply D1.
  - intros o k (Ho & Hg & Hg')%C2. destruct (D2 o k Ho) as [[c Hc] Hne]. split; [|done]. exists c. apply C1. split; [done|].
    split; [done|]. intros o' Ho'. by rewrite (D3 o' o k Ho' Ho).
  - intros o o' k (Ho & _)%C2 (Ho' & _)%C2. by apply (D3 o o' k).
Qed.
End Clean.

(** *** Loading *)
Definition loaded (c : PaymentCircuit) : PaymentCircuit := c <| LoadedFromDisk := true |>.

Lemma load_ok cs : forall m, cm_ok m -> Forall (fun c => Outgoing c = None) cs -> NoDup (Incoming <$> cs) ->
  (forall c, c ∈ cs -> pending m !! Incoming c = None) ->
  let m' := foldl loadOne m cs in
  cm_ok m' /\ opened m' = opened m /\ closed m' = closed m /\ cm_adds m' = cm_adds m /\ cm_keystones m' = cm_keystones m /\
  forall k c, LookupCircuit k m' = Some c <-> LookupCircuit k m = Some c \/ exists c0, c0 ∈ cs /\ c = loaded c0 /\ Incoming c0 = k.
Proof.
  induction cs as [|c cs IH]; intros m Hok Hout Hnd Hnew.
  { cbn. do 5 (split; [done|]). intros k c. split; [by left|]. intros [?|(c0 & Hc0 & _)]; [done|by apply not_elem_of_nil in Hc0]. }
  cbn [foldl]. apply list.Forall_cons in Hout as [Hc Hout]. rewrite fmap_cons, list.NoDup_cons in Hnd. destruct Hnd as [Hni Hnd].
  assert (Hn : pending m !! Incoming (loaded c) = None) by exact (Hnew c ltac:(by left)).
  pose proof (alloc_ok m Hok (loaded c) Hn Hc) as Hok1. pose proof (alloc_lookup m Hok (loaded c) Hn) as Hlk.
  change (loadOne m c) with (alloc (loaded c) m).
  destruct (IH (alloc (loaded c) m) Hok1 Hout Hnd) as (Hok' & Eo & Ec & Ea & Ek & Hl).
  { intros c' Hc'. unfold alloc. cbn. rewrite lookup_insert_ne; [apply Hnew; by right|].
    intros Heq. apply Hni. rewrite Heq. by apply list_elem_of_fmap_2. }
  split; [done|]. split; [exact Eo|]. split; [exact Ec|]. split; [exact Ea|]. split; [exact Ek|].
  intros k c'. rewrite Hl, Hlk. split.
  - intros [[?|[-> Hk]]|(c0 & Hc0 & H)]; [by left| |].
    + right. exists c. split; [by left|]. split; [done|exact Hk].
    + right. exists c0. split; [by right|done].
  - intros [?|(c0 & [->|Hc0]%elem_of_cons & -> & Hk)]; [left; by left| |right; eauto].
    left. right. split; [done|exact Hk].
Qed.

(** Reopening is opening, but for the index, which is rebuilt at the end. *)
Lemma reopen_ok kss : forall m A lks, (forall lk, lk ∈ lks -> pending m !! ks_InKey lk.2 = Some lk.1 /\ is_Some (cm_heap m !! lk.1)) ->
  kss = (fun lk : Z * Keystone => (ks_OutKey lk.2, ks_InKey lk.2)) <$> lks ->
  A = m <| hashIndex := hashIndex A |> ->
  foldl openOne A lks = foldl reopenOne m kss <| hashIndex := hashIndex (foldl openOne A lks) |>.
Proof.
  intros m A lks. revert kss m A. induction lks as [|[l ks] lks IH]; intros kss m A Hall -> HA; [done|].
  rewrite fmap_cons. cbn [foldl fst snd].
  destruct (Hall (l, ks)) as [Hl [c Hc]]; [by left|]. cbn [fst snd] in Hl, Hc.
  apply (IH _ (reopenOne m (ks_OutKey ks, ks_InKey ks))).
  - intros lk Hlk. destruct (Hall lk) as [Hl' Hs']; [by right|]. unfold reopenOne. cbn [fst snd]. rewrite Hl. cbn.
    split; [done|]. rewrite lookup_alter_is_Some. done.
  - done.
  - rewrite HA. unfold reopenOne, openOne. cbn [fst snd]. rewrite Hl. cbv zeta. cbn. rewrite lookup_alter_eq, Hc. cbn. done.
Qed.

(** The index alone may change, as long as it is complete. *)
Lemma cm_ok_reindex m ix : cm_ok m ->
  (forall o l c, opened m !! o = Some l -> cm_heap m !! l = Some c -> o ∈ (default ∅ (ix !! pc_PaymentHash c) : gset CircuitKey)) ->
  cm_ok (m <| hashIndex := ix |>).
Proof. intros [] Hix. split; done. Qed.

Definition reindex (m : circuitMap) (l : Z) : circuitMap :=
  match cm_heap m !! l with Some c => addCircuitToHashIndex c m | None => m end.

Lemma reindex_frame ls : forall m, foldl reindex m ls = m <| hashIndex := hashIndex (foldl reindex m ls) |>.
Proof.
  induction ls as [|l ls IH]; intros m; [by destruct m|]. cbn [foldl]. etrans; [apply IH|].
  generalize (hashIndex (foldl reindex (reindex m l) ls)). intros ix. unfold reindex.
  by destruct (cm_heap m !! l).
Qed.

Lemma reindex_complete ls : forall m l c, (l ∈ ls -> cm_heap m !! l = Some c ->
    OutKey c ∈ indexed (foldl reindex m ls) (pc_PaymentHash c)) /\
  forall h o, o ∈ indexed m h -> o ∈ indexed (foldl reindex m ls) h.
Proof.
  induction ls as [|l0 ls IH]; intros m l c; cbn [foldl].
  { split; [by intros ?%not_elem_of_nil|done]. }
  assert (Hgrow : forall h o, o ∈ indexed m h -> o ∈ indexed (reindex m l0) h).
  { intros h o Ho. unfold reindex. destruct (cm_heap m !! l0); [|done]. rewrite indexed_add. destruct (decide _); [set_solver|done]. }
  destruct (IH (reindex m l0) l c) as [I1 I2]. split; [|intros h o Ho; by apply I2, Hgrow].
  intros [->|Hin]%elem_of_cons Hc.
  - apply I2. unfold reindex. rewrite Hc, indexed_add, decide_True by done. set_solver.
  - apply I1; [done|]. unfold reindex. destruct (cm_heap m !! l0); done.
Qed.

Section Restore.
Context (extracts : bytes -> bool).

Lemma decode_all (l l' : list PaymentCircuit) : mapM (decodeCircuit extracts) l = Ok l' -> l' = l.
Proof.
  revert l'. induction l as [|c l IH]; intros l'; cbn; [by intros [= <-]|].
  intros Hrun. apply res_bind_Ok in Hrun as (c' & Hc & Hrun). apply res_bind_Ok in Hrun as (l2 & Hl & Hrun).
  injection Hrun as <-. f_equal; [|by apply IH]. unfold decodeCircuit in Hc.
  destruct (Encrypter c) as [[key|]|]; [destruct (extracts key)|..]; congruence.
Qed.

Context (m : circuitMap) (Hd : disk_ok (cm_adds m) (cm_keystones m)).

Let m0 := mkCircuitMap ∅ 0 ∅ ∅ ∅ ∅ (cm_adds m) (cm_keystones m).
Let m1 := foldl loadOne m0 (map_to_list (cm_adds m)).*2.

Lemma load_keys : Incoming <$> (map_to_list (cm_adds m)).*2 = (map_to_list (cm_adds m)).*1.
Proof.
  rewrite <- list_fmap_compose. apply list_fmap_ext. intros i [k c] Hi. cbn.
  apply list_elem_of_lookup_2, elem_of_map_to_list in Hi. by apply (do_adds _ _ Hd).
Qed.

Lemma loaded_map : cm_ok m1 /\ opened m1 = ∅ /\ closed m1 = ∅ /\ cm_adds m1 = cm_adds m /\ cm_keystones m1 = cm_keystones m /\
  forall k c, LookupCircuit k m1 = Some c <-> exists c0, cm_adds m !! k = Some c0 /\ c = loaded c0.
Proof.
  destruct (load_ok (map_to_list (cm_adds m)).*2 m0) as (Hok & Eo & Ec & Ea & Ek & Hl).
  - split; cbn.
    + intros l c H. by rewrite lookup_empty in H.
    + intros k l H. by rewrite lookup_empty in H.
    + intros o l. split; [intros H; by rewrite lookup_empty in H|]. intros (c & Hc & _). by rewrite lookup_empty in Hc.
    + set_solver.
    + intros o l c H. by rewrite lookup_empty in H.
    + apply lookup_empty.
  - apply list.Forall_forall. intros c Hc. apply list_elem_of_fmap in Hc as ([k c'] & -> & Hc%elem_of_map_to_list).
    by apply (do_adds _ _ Hd) in Hc as (_ & ? & _).
  - rewrite load_keys. apply NoDup_fst_map_to_list.
  - intros c _. apply lookup_empty.
  - split; [done|]. do 4 (split; [done|]). intros k c. fold m1 in Hl. rewrite Hl. split.
    + intros [Hc|(c0 & Hc0 & -> & Hk)]; [unfold LookupCircuit in Hc; cbn in Hc; by rewrite lookup_empty in Hc|].
      exists c0. split; [|done]. apply list_elem_of_fmap in Hc0 as ([k' c'] & -> & Hc%elem_of_map_to_list). cbn in *.
      destruct (do_adds _ _ Hd _ _ Hc) as (Hk' & _). congruence.
    + intros (c0 & Hc0 & ->). right. exists c0. destruct (do_adds _ _ Hd _ _ Hc0) as (Hk' & _). split; [|done].
      apply list_elem_of_fmap. exists (k, c0). split; [done|]. by apply elem_of_map_to_list.
Qed.

Let kss := keystones_in_order m.

Lemma stones_elem o k : (o, k) ∈ kss <-> cm_keystones m !! o = Some k.
Proof. unfold kss, keystones_in_order. rewrite go_sort_perm. apply elem_of_map_to_list. Qed.

Lemma stone_pending o k : (o, k) ∈ kss -> exists c, LookupCircuit k m1 = Some c /\ Outgoing c = None /\ o <> EmptyCircuitKey.
Proof.
  intros Ho%stones_elem. destruct loaded_map as (_ & _ & _ & _ & _ & Hl).
  destruct (do_stones _ _ Hd _ _ Ho) as [[c0 Hc0] Hne]. exists (loaded c0). split; [apply Hl; eauto|].
  split; [|done]. by apply (do_adds _ _ Hd) in Hc0 as (_ & ? & _).
Qed.

Lemma no_strays : filter (fun oi : CircuitKey * CircuitKey => pending m1 !! oi.2 = None /\ ck_ChanID oi.1 = Source) kss = [].
Proof.
  destruct (filter _ kss) as [|[o k] l] eqn:Hf; [done|]. assert (Hin : (o, k) ∈ (o, k) :: l) by by left.
  rewrite <- Hf in Hin. apply list_elem_of_filter in Hin as [[Hn _] Hin]. apply stone_pending in Hin as (c & Hc & _).
  cbn in Hn. unfold LookupCircuit in Hc. by rewrite Hn in Hc.
Qed.

Let lks : list (Z * Keystone) := (fun oi : CircuitKey * CircuitKey => (default 0 (pending m1 !! oi.2), mkKeystone oi.2 oi.1)) <$> kss.

Lemma lks_kss : kss = (fun lk : Z * Keystone => (ks_OutKey lk.2, ks_InKey lk.2)) <$> lks.
Proof. unfold lks. rewrite <- list_fmap_compose. rewrite <- (list_fmap_id kss) at 1. apply list_fmap_ext. by intros i [o k] _. Qed.

Lemma stone_key o k : (o, k) ∈ kss <-> mkKeystone k o ∈ lks.*2.
Proof.
  rewrite lks_kss, !list_elem_of_fmap. split.
  - intros (lk & Heq & Hlk). injection Heq as -> ->. exists lk. split; [by destruct lk.2|done].
  - intros (lk & Heq & Hlk). exists lk. by rewrite <- Heq.
Qed.

Lemma lks_checked : Forall (checked m1) lks /\ forall lk, lk ∈ lks -> is_Some (cm_heap m1 !! lk.1).
Proof.
  destruct loaded_map as (Hok & Eo & _). 
  assert (H : forall lk, lk ∈ lks -> checked m1 lk /\ is_Some (cm_heap m1 !! lk.1)).
  { intros lk Hlk. apply list_elem_of_fmap in Hlk as ([o k] & -> & Hin). apply stone_pending in Hin as (c & Hc & _).
    apply (lookup_Some m1 Hok) in Hc as (l & Hl & Hcl & _). cbn. rewrite Hl. cbn. split; [|by eexists].
    split; cbn; [by rewrite Eo|done]. }
  split; [apply list.Forall_forall|]; intros lk Hlk; by apply H.
Qed.

Lemma lks_openable : openable m1 lks.*2.
Proof.
  assert (Hin : forall ks, ks ∈ lks.*2 -> (ks_OutKey ks, ks_InKey ks) ∈ kss) by (intros [i o] Hks; by apply stone_key).
  assert (Hnd : NoDup kss) by (unfold kss, keystones_in_order; rewrite go_sort_perm; apply NoDup_map_to_list).
  split; [|split].
  - replace (ks_InKey <$> lks.*2) with kss.*2 by (rewrite lks_kss, <- !list_fmap_compose; done).
    apply NoDup_fmap_2_strong; [|done]. intros [o k] [o' k'] Ho%stones_elem Ho'%stones_elem Heq. cbn in Heq. subst k'.
    f_equal. by apply (do_once _ _ Hd o o' k).
  - replace (ks_OutKey <$> lks.*2) with kss.*1 by (rewrite lks_kss, <- !list_fmap_compose; done).
    apply NoDup_fmap_2_strong; [|done]. intros [o k] [o' k'] Ho%stones_elem Ho'%stones_elem Heq. cbn in Heq. subst o'.
    congruence.
  - intros ks Hks%Hin. destruct (stone_pending _ _ Hks) as (c & Hc & Ho & Hne). split; [done|]. intros c'. congruence.
Qed.

Lemma restore_ok r m' : restoreMemState extracts m = (r, m') -> r = Ok tt ->
  cm_ok m' /\ synced m' /\ closed m' = ∅ /\ cm_adds m' = cm_adds m /\ cm_keystones m' = cm_keystones m /\
  forall k c, LookupCircuit k m' = Some c -> LoadedFromDisk c = true.
Proof.
  intros Hrun ->. unfold restoreMemState in Hrun. apply M_bind_Ok in Hrun as (x & s & Hg & Hrun). injection Hg as <- <-.
  apply M_bind_Ok in Hrun as (circuits & s & Hdec & Hrun). unfold lift in Hdec. injection Hdec as Hdec <-.
  apply decode_all in Hdec as ->. unfold modify in Hrun. fold m0 m1 in Hrun. fold kss in Hrun. rewrite no_strays in Hrun.
  destruct loaded_map as (Hok & Eo & Ec & Ea & Ek & Hl). destruct lks_checked as [Hchk Hheap].
  destruct (openAll_ok lks m1 Hok lks_openable Hchk) as (HokA & (S1 & S2 & S3 & S4) & EaA & EkA).
  assert (HB : foldl openOne m1 lks = foldl reopenOne m1 kss <| hashIndex := hashIndex (foldl openOne m1 lks) |>).
  { apply reopen_ok; [|apply lks_kss|by destruct m1]. intros lk Hlk. split; [|by apply Hheap].
    by apply (proj1 (list.Forall_forall _ _) Hchk). }
  set (A := foldl openOne m1 lks) in *. set (B := foldl reopenOne m1 kss) in *.
  assert (Hm : m' = foldl reindex B (map_to_list (opened B)).*2).
  { assert (E : forall x, x <| cm_keystones ::= fun bkt : gmap CircuitKey CircuitKey => bkt |> = x) by (by intros []).
    specialize (E m1). injection Hrun as <-. by rewrite E. }
  assert (HmA : m' = A <| hashIndex := hashIndex m' |>).
  { rewrite HB. rewrite Hm at 1. by rewrite reindex_frame, <- Hm. }
  assert (HokC : cm_ok m').
  { rewrite HmA. apply cm_ok_reindex; [done|]. intros o l c Ho Hc. assert (H := Ho).
    apply (ok_opened A HokA) in H as (c' & Hc' & Hout & _). assert (c' = c) as -> by congruence.
    assert (HoB : opened B !! o = Some l) by (rewrite HB in Ho; exact Ho). assert (HcB : cm_heap B !! l = Some c) by (rewrite HB in Hc; exact Hc).
    destruct (reindex_complete (map_to_list (opened B)).*2 B l c) as [Hin _]. rewrite <- Hm in Hin.
    unfold OutKey in Hin. rewrite Hout in Hin. apply Hin; [|done]. apply list_elem_of_fmap. exists (o, l). split; [done|].
    by apply elem_of_map_to_list. }
  assert (L1 : forall k, LookupCircuit k m' = LookupCircuit k A) by (intros k; by rewrite HmA).
  assert (L2 : forall o, LookupOpenCircuit o m' = LookupOpenCircuit o A) by (intros o; by rewrite HmA).
  assert (E1 : cm_adds m' = cm_adds m) by (rewrite HmA, <- Ea, <- EaA; done).
  assert (E2 : cm_keystones m' = cm_keystones m) by (rewrite HmA, <- Ek, <- EkA; done).
  assert (Hopen : open_spec m1 lks.*2 A) by done.
  split; [done|]. split; [split|split; [by rewrite HmA, <- Ec, <- S4|split; [done|split; [done|]]]].
  - intros k. rewrite E1, L1, <- (open_spec_adds _ _ _ k Hopen). apply option_eq. intros c. rewrite fmap_Some. split.
    + intros Hc. exists (loaded c). split; [apply Hl; eauto|]. apply (do_adds _ _ Hd) in Hc as (_ & Ho & Hld).
      destruct c; cbn in *. by subst.
    + intros (c' & (c0 & Hc & ->)%Hl & ->). rewrite Hc. apply (do_adds _ _ Hd) in Hc as (_ & Ho & Hld).
      destruct c0; cbn in *. by subst.
  - intros o. rewrite E2, L2. apply option_eq. intros k. rewrite fmap_Some, <- stones_elem, stone_key. split.
    + intros Hks. destruct (S1 _ Hks) as (c & Hc & _ & _ & Ho). exists (opening o c). split; [exact Ho|].
      apply (lookup_Some m1 Hok) in Hc as (l & _ & _ & Hk). symmetry. exact Hk.
    + intros (c & Hc & ->). destruct (decide (o ∈ ks_OutKey <$> lks.*2)) as [Hin|Hn].
      * apply list_elem_of_fmap in Hin as ([i o'] & -> & Hks). cbn [ks_OutKey] in *. destruct (S1 _ Hks) as (c0 & Hc0 & _ & _ & Ho).
        cbn in Ho. assert (c = opening o' c0) as -> by congruence.
        apply (lookup_Some m1 Hok) in Hc0 as (l & _ & _ & Hin). cbn in Hin. cbn [opening Incoming]. change (Incoming (opening o' c0)) with (Incoming c0).
        by rewrite Hin.
      * rewrite S3 in Hc by done. unfold LookupOpenCircuit in Hc. rewrite Eo, lookup_empty in Hc. done.
  - intros k c. rewrite L1. destruct (decide (k ∈ ks_InKey <$> lks.*2)) as [Hin|Hn].
    + apply list_elem_of_fmap in Hin as (ks & -> & Hks). destruct (S1 _ Hks) as (c0 & Hc0 & -> & _). intros [= <-].
      by apply Hl in Hc0 as (c1 & _ & ->).
    + rewrite S2 by done. by intros (c1 & _ & ->)%Hl.
Qed.
End Restore.

(** *** Trimming every channel *)
Definition live (c : activeChannel) : Prop := ac_IsPending c = false /\ ac_ShortChanID c <> Source.

#[export] Instance live_dec c : Decision (live c).
Proof. unfold live. apply _. Defined.

Definition next_key (c : activeChannel) : CircuitKey := mkCircuitKey (ac_ShortChanID c) (ac_NextLocalHtlcIndex c).

Lemma run_chan chanID start n o : o ∈ run_of chanID start n -> ck_ChanID o = chanID.
Proof. by intros (i & -> & _)%list_elem_of_fmap. Qed.

Lemma trim_next chanID start n m m' : is_uint 64 start -> trim_spec m (run_of chanID start n) m' ->
  LookupOpenCircuit (mkCircuitKey chanID (u64 (start + Z.of_nat n))) m' = None ->
  LookupOpenCircuit (mkCircuitKey chanID start) m' = None.
Proof.
  intros Hs (_ & H2 & _) Hend. destruct n as [|n].
  - rewrite Z.add_0_r, uwrap_id in Hend by done. done.
  - rewrite H2, decide_True; [done|]. rewrite run_of_S by done. by left.
Qed.

Lemma trimAll_ok channels : forall m, cm_ok m -> synced m -> Forall (fun c => is_uint 64 (ac_NextLocalHtlcIndex c)) channels ->
  exists keys m', trimAllOpenCircuits true channels m = (Ok tt, m') /\ cm_ok m' /\ synced m' /\ trim_spec m keys m' /\
    (forall o, o ∈ keys -> exists c, c ∈ channels /\ live c /\ ck_ChanID o = ac_ShortChanID c) /\
    forall c, c ∈ channels -> live c -> LookupOpenCircuit (next_key c) m' = None.
Proof.
  induction channels as [|c channels IH]; intros m Hok Hsy Hu.
  { exists [], m. split; [done|]. do 2 (split; [done|]). split; [apply trim_spec_nil|].
    split; [by intros o ?%not_elem_of_nil|by intros c ?%not_elem_of_nil]. }
  apply list.Forall_cons in Hu as [Hc Hu]. cbn [trimAllOpenCircuits].
  assert (Hhead : exists keys m1, (if ac_IsPending c || bool_decide (ac_ShortChanID c = Source) then mret tt
      else TrimOpenCircuits true (ac_ShortChanID c) (ac_NextLocalHtlcIndex c)) m = (Ok tt, m1) /\ cm_ok m1 /\ synced m1 /\
    trim_spec m keys m1 /\ (forall o, o ∈ keys -> live c /\ ck_ChanID o = ac_ShortChanID c) /\
    (live c -> LookupOpenCircuit (next_key c) m1 = None)).
  { destruct (decide (live c)) as [[Hp Hsrc]|Hn].
    - rewrite Hp, bool_decide_false by done. cbn.
      destruct (trim_ok true (ac_ShortChanID c) (ac_NextLocalHtlcIndex c) m Hok Hc) as (n & m1 & r & Hrun & Hok1 & Hsp & Hend & _ & Hr).
      destruct Hr as [(-> & _ & Hs)|(_ & Hf & _)]; [|done]. eexists _, m1. split; [exact Hrun|]. split; [done|].
      split; [by apply synced_but_none, Hs, synced_but_none|].
      split; [exact Hsp|]. split; [intros o Ho; split; [done|by apply run_chan in Ho]|]. intros _. by eapply trim_next.
    - exists [], m. assert (ac_IsPending c || bool_decide (ac_ShortChanID c = Source) = true) as ->.
      { unfold live in Hn. destruct (ac_IsPending c); [done|]. cbn. apply bool_decide_true. destruct (decide (ac_ShortChanID c = Source)); [done|].
        destruct Hn. done. }
      split; [done|]. do 2 (split; [done|]). split; [apply trim_spec_nil|]. split; [by intros o ?%not_elem_of_nil|done]. }
  destruct Hhead as (keys1 & m1 & Hrun1 & Hok1 & Hsy1 & Hsp1 & Hk1 & Hn1).
  destruct (IH m1 Hok1 Hsy1 Hu) as (keys2 & m2 & Hrun2 & Hok2 & Hsy2 & Hsp2 & Hk2 & Hn2).
  exists (keys1 ++ keys2), m2. split; [by rewrite (M_bind_run _ _ _ _ _ Hrun1)|]. do 2 (split; [done|]).
  split; [by eapply trim_spec_app|]. split.
  - intros o [Ho|Ho]%elem_of_app.
    + destruct (Hk1 o Ho). exists c. split; [by left|done].
    + destruct (Hk2 o Ho) as (c' & ? & ?). exists c'. split; [by right|done].
  - intros c' [->|Hc']%elem_of_cons Hl; [|by apply Hn2]. destruct Hsp2 as (_ & S2 & _). rewrite S2. by destruct (decide _); [|apply Hn1].
Qed.

(** What a restart keeps. *)
Definition restart_spec (closedChannels : list closedChannel) (activeChannels : list activeChannel) (m m' : circuitMap) : Prop :=
  closed m' = ∅ /\
  (forall k c, persisted <$> LookupCircuit k m' = Some c <->
    cm_adds m !! k = Some c /\ gone closedChannels k = false /\
    forall o, cm_keystones m !! o = Some k -> gone closedChannels o = false) /\
  (forall k c, LookupCircuit k m' = Some c -> LoadedFromDisk c = true) /\
  (forall o c, LookupOpenCircuit o m' = Some c -> cm_keystones m !! o = Some (Incoming c)) /\
  (forall o k, cm_keystones m !! o = Some k -> gone closedChannels o = false -> gone closedChannels k = false ->
    (forall c, c ∈ activeChannels -> live c -> ck_ChanID o <> ac_ShortChanID c) -> is_Some (LookupOpenCircuit o m')) /\
  (forall c, c ∈ activeChannels -> live c -> LookupOpenCircuit (next_key c) m' = None).

Lemma restart_ok extracts closedChannels activeChannels m m' : disk_ok (cm_adds m) (cm_keystones m) ->
  Forall (fun c => is_uint 64 (ac_NextLocalHtlcIndex c)) activeChannels ->
  NewCircuitMap extracts closedChannels activeChannels m = (Ok tt, m') ->
  cm_ok m' /\ synced m' /\ restart_spec closedChannels activeChannels m m'.
Proof.
  intros Hd Hu Hrun. unfold NewCircuitMap in Hrun. apply M_bind_Ok in Hrun as ([] & m1 & Hclean & Hrun).
  apply M_bind_Ok in Hrun as ([] & m2 & Hrest & Htrim).
  apply clean_run in Hclean as Hcl; [|intros k c Hc; by apply (do_adds _ _ Hd) in Hc as (? & _)].
  pose proof (cleaned_disk _ _ _ Hd Hcl) as Hd1.
  destruct (restore_ok extracts m1 Hd1 _ _ Hrest eq_refl) as (Hok2 & Hsy2 & Ec2 & Ea2 & Ek2 & Hld).
  destruct (trimAll_ok activeChannels m2 Hok2 Hsy2 Hu) as (keys & m3 & Hrun3 & Hok3 & Hsy3 & (S1 & S2 & S3 & _ & S5) & Hkeys & Hnext).
  rewrite Hrun3 in Htrim. injection Htrim as <-. destruct Hcl as [C1 C2]. destruct Hsy2 as [A2 K2].
  split; [done|]. split; [done|]. split; [by rewrite S5|]. split; [|split; [|split; [|split; [|exact Hnext]]]].
  - intros k c. rewrite <- C1, <- Ea2, A2, S1. destruct (LookupCircuit k m2) as [c2|]; [|done]. cbn.
    unfold trimmed. destruct (Outgoing c2) as [o|]; [|done]. by destruct (decide (o ∈ keys)).
  - intros k c. rewrite S1. destruct (LookupCircuit k m2) as [c2|] eqn:Hc2; [|done]. intros [= <-]. apply Hld in Hc2.
    unfold trimmed. destruct (Outgoing c2) as [o|]; [|done]. by destruct (decide (o ∈ keys)).
  - intros o c. rewrite S2. destruct (decide (o ∈ keys)) as [|Hn]; [done|]. intros Hc. 
    assert (H : cm_keystones m1 !! o = Some (Incoming c)) by (by rewrite <- Ek2, K2, Hc). by apply C2 in H as [? _].
  - intros o k Hk Hg Hg' Hno. rewrite S2, decide_False.
    + assert (H : cm_keystones m2 !! o = Some k) by (rewrite Ek2; by apply C2). rewrite K2 in H.
      destruct (LookupOpenCircuit o m2); [by eexists|done].
    + intros Hin. destruct (Hkeys o Hin) as (c & Hc & Hl & Heq). by apply (Hno c Hc Hl).
Qed.
