(* ===== verification/CircuitTheorems.v ===== *)
(** * What the circuit map guarantees

    Whatever the switch, its links and restarts ask of the map, in any order: the
    state it keeps, that a circuit is answered once, what every operation does, and
    the entry of the hash index that is never removed. *)

From S2P Require Import Prelude Wire Messages ChanIds Units Tx FwdPkg UpdateLog Circuits CircuitOps CircuitRestart.

(** ** The form on disk *)
Section Codec.
Context (ParsePubKey : bytes -> bool).

Definition circuit_wire_ok (c : PaymentCircuit) : Prop :=
  is_uint 64 (ar_Height (pc_AddRef c)) /\ is_uint 16 (ar_Index (pc_AddRef c)) /\
  scid_ok (ck_ChanID (Incoming c)) /\ is_uint 64 (ck_HtlcID (Incoming c)) /\ length (pc_PaymentHash c) = 32%nat /\
  is_uint 64 (IncomingAmount c) /\ is_uint 64 (OutgoingAmount c) /\ is_uint 32 (pc_AssetId c) /\
  match Encrypter c with
  | Some (SphinxErrorEncrypter key) => length key = 33%nat /\ ParsePubKey key = true
  | _ => True
  end.

Definition circuit_bytes (c : PaymentCircuit) : bytes :=
  (be_put 8 (ar_Height (pc_AddRef c)) ++ be_put 2 (ar_Index (pc_AddRef c))) ++
  (be_put 8 (ToUint64 (ck_ChanID (Incoming c))) ++ be_put 8 (ck_HtlcID (Incoming c))) ++
  pc_PaymentHash c ++ be_put 8 (IncomingAmount c) ++ be_put 8 (OutgoingAmount c) ++ be_put 4 (pc_AssetId c) ++
  be_put 1 (encrypterType (Encrypter c)) ++
  match Encrypter c with Some (SphinxErrorEncrypter key) => key | _ => [] end.

Lemma reads_addref a : is_uint 64 (ar_Height a) -> is_uint 16 (ar_Index a) ->
  reads AddRef_Decode (be_put 8 (ar_Height a) ++ be_put 2 (ar_Index a)) a.
Proof.
  intros H1 H2. eapply reads_bind; [by apply reads_uint64|]. eapply reads_bind_nil; [by apply reads_uint16|].
  destruct a. apply reads_ret.
Qed.

Lemma scid_64 c : scid_ok c -> is_uint 64 (ToUint64 c) /\ NewShortChanIDFromInt (ToUint64 c) = c.
Proof.
  intros Hc. split; [|apply (short_chan_id_roundtrip c 0); [done|done]].
  rewrite ToUint64_eq by done. destruct Hc as (? & ? & ?). unfold is_uint in *. lia.
Qed.

Lemma reads_circuit_key k : scid_ok (ck_ChanID k) -> is_uint 64 (ck_HtlcID k) ->
  reads CircuitKey_Decode (be_put 8 (ToUint64 (ck_ChanID k)) ++ be_put 8 (ck_HtlcID k)) k.
Proof.
  intros H1 H2. destruct (scid_64 _ H1) as [Hu Hr].
  eapply reads_bind; [by apply reads_uint64|]. eapply reads_bind_nil; [by apply reads_uint64|].
  rewrite Hr. destruct k. apply reads_ret.
Qed.

(** A circuit is written to bytes that read back to what the disk keeps of it. *)
Theorem circuit_roundtrip (c : PaymentCircuit) : circuit_wire_ok c ->
  writes (Circuit_Encode c) (circuit_bytes c) /\ reads (Circuit_Decode ParsePubKey) (circuit_bytes c) (persisted c).
Proof.
  intros (H1 & H2 & H3 & H4 & H5 & H6 & H7 & H8 & H9). split.
  - unfold Circuit_Encode, circuit_bytes, AddRef_Encode, CircuitKey_Encode.
    do 7 (apply writes_bind; [solve_writes|]). destruct (Encrypter c) as [[key|]|]; solve_writes.
  - unfold Circuit_Decode, circuit_bytes.
    eapply reads_bind; [by apply reads_addref|]. eapply reads_bind; [by apply reads_circuit_key|].
    eapply reads_bind; [by apply reads_full|]. do 2 (eapply reads_bind; [by apply reads_uint64|]).
    eapply reads_bind; [by apply reads_uint32|].
    eapply reads_bind; [apply reads_uint8; destruct (Encrypter c) as [[key|]|]; done|].
    unfold persisted. destruct c as [ref inc out hash ia oa asset enc ld]; cbn in *. destruct enc as [[key|]|]; cbn.
    + destruct H9 as [Hk Hp]. eapply reads_bind_nil; [|apply reads_ret]. eapply reads_bind_nil; [by apply reads_full|].
      rewrite Hp. apply reads_ret.
    + apply reads_ret.
    + apply reads_ret.
Qed.
End Codec.

(** ** The circuit map at work *)

(** What the switch, its links and a restart ask of the map. *)
Inductive request : Type :=
| RCommit (commits : bool) (circuits : list PaymentCircuit)
| ROpen (commits : bool) (keystones : list Keystone)
| RTrim (commits : bool) (chanID : ShortChannelID) (start : Z)
| RFailCircuit (inKey : CircuitKey)
| RCloseCircuit (outKey : CircuitKey)
| RDelete (commits : bool) (inKeys : list CircuitKey)
| RRestart (extracts : bytes -> bool) (closedChannels : list closedChannel) (activeChannels : list activeChannel).

Definition serve (q : request) (m : circuitMap) : circuitMap :=
  match q with
  | RCommit commits cs => (CommitCircuits commits cs m).2
  | ROpen commits kss => (OpenCircuits commits kss m).2
  | RTrim commits chanID start => (TrimOpenCircuits commits chanID start m).2
  | RFailCircuit k => (FailCircuit k m).2
  | RCloseCircuit o => (CloseCircuit o m).2
  | RDelete commits keys => (DeleteCircuits commits keys m).2
  | RRestart extracts closedChannels activeChannels => (NewCircuitMap extracts closedChannels activeChannels m).2
  end.

(** What callers keep to: circuits are new; a circuit is opened only while it is
    not open, to a key of its own ([openable], which the code does not check); and a
    node starts only if its circuits can be restored, the writes succeed, and the
    buckets fit together, which they do unless a write of [TrimOpenCircuits] failed
    (lemma [synced_disk]). *)
Definition allowed (q : request) (m : circuitMap) : Prop :=
  match q with
  | RCommit _ cs => Forall fresh_circuit cs
  | ROpen _ kss => openable m kss
  | RTrim _ _ start => is_uint 64 start
  | RRestart extracts closedChannels activeChannels =>
      Forall (fun c => is_uint 64 (ac_NextLocalHtlcIndex c)) activeChannels /\
      disk_ok (cm_adds m) (cm_keystones m) /\
      (NewCircuitMap extracts closedChannels activeChannels m).1 = Ok tt
  | _ => True
  end.

(** The keystones that failed writes of [TrimOpenCircuits] left on the disk since
    the node started. *)
Definition left_behind (q : request) (m : circuitMap) (stale : gset CircuitKey) : gset CircuitKey :=
  match q with
  | RTrim false chanID start =>
      match trim_loop (S (size (opened m))) chanID start m with
      | Some (trimmed, _) => stale ∪ list_to_set trimmed
      | None => stale
      end
  | RRestart _ _ _ => ∅
  | _ => stale
  end.

Inductive visited : gset CircuitKey -> circuitMap -> Prop :=
| visited_start : visited ∅ empty_circuitMap
| visited_step stale m q : visited stale m -> allowed q m -> visited (left_behind q m stale) (serve q m).

Definition reachable (m : circuitMap) : Prop := exists stale, visited stale m.

Lemma serve_ok stale q m : cm_ok m -> synced_but stale m -> allowed q m ->
  cm_ok (serve q m) /\ synced_but (left_behind q m stale) (serve q m).
Proof.
  intros Hok Hsy Hq. destruct q as [b cs|b kss|b ch st|k|o|b ks|ex cl ac]; cbn [allowed serve left_behind] in *.
  - destruct (CommitCircuits b cs m) as [[acts err] m'] eqn:Hrun. by apply (commit_ok stale b cs m acts err m' Hok Hsy Hq) in Hrun as (? & ? & _).
  - destruct (OpenCircuits b kss m) as [r m'] eqn:Hrun. apply (open_ok stale b kss m r m' Hok Hsy Hq) in Hrun. cbn.
    destruct r; [|by destruct Hrun as [-> _]|done]. by destruct Hrun as (? & ? & _).
  - destruct (trim_ok b ch st m Hok Hq) as (n & m' & r & Hrun & Hok' & _ & _ & _ & Hr).
    rewrite Hrun. split; [exact Hok'|]. cbn [snd]. unfold TrimOpenCircuits in Hrun.
    destruct (trim_loop_ok (S (size (opened m))) ch st m Hok Hq) as (n' & m1 & Hloop & _ & Hsp & _ & Ea & Ek); [lia|].
    rewrite Hloop in Hrun |- *. destruct b.
    + destruct Hr as [(_ & _ & Hs)|(_ & ? & _)]; [by apply Hs|done].
    + assert (m' = m1) as -> by (destruct (run_of ch st n'); by injection Hrun). by apply (trim_synced stale m m1).
  - rewrite fail_circuit_run. destruct (LookupCircuit k m) eqn:Hl; [|done]. case_bool_decide; [done|]. cbn.
    split; [apply closed_ok; [done|by rewrite Hl]|]. done.
  - rewrite close_run. destruct (LookupOpenCircuit o m) eqn:Hl; [|done]. case_bool_decide; [done|]. cbn.
    split; [|done]. apply closed_ok; [done|]. apply (lookup_open_Some m Hok) in Hl as [Hl _]. by rewrite Hl.
  - destruct (DeleteCircuits b ks m) as [r m'] eqn:Hrun. by apply (delete_ok stale b ks m r m' Hok Hsy) in Hrun as (? & ? & _).
  - destruct Hq as (Hu & Hd & Hr). destruct (NewCircuitMap ex cl ac m) as [r m'] eqn:Hrun. cbn in Hr. subst r. cbn.
    apply (restart_ok ex cl ac m m' Hd Hu) in Hrun as (? & ? & _). split; [done|]. by apply synced_but_none.
Qed.

Lemma no_circuits_ok : cm_ok empty_circuitMap /\ synced empty_circuitMap.
Proof.
  split; [split; cbn|split; intros k; cbn; by rewrite lookup_empty].
  - intros l c H. by rewrite lookup_empty in H.
  - intros k l H. by rewrite lookup_empty in H.
  - intros o l. split; [intros H; by rewrite lookup_empty in H|]. intros (c & Hc & _). by rewrite lookup_empty in Hc.
  - set_solver.
  - intros o l c H. by rewrite lookup_empty in H.
  - apply lookup_empty.
Qed.

Lemma visited_ok stale m : visited stale m -> cm_ok m /\ synced_but stale m.
Proof.
  induction 1 as [|stale m q _ [Hok Hsy] Hq]; [|by apply serve_ok].
  destruct no_circuits_ok. split; [done|]. by apply synced_but_none.
Qed.

(** The invariant, whatever was left behind. *)
Definition kept (m : circuitMap) : Prop := cm_ok m /\ exists stale, synced_but stale m.

Lemma serve_kept q m : kept m -> allowed q m -> kept (serve q m).
Proof. intros [Hok [stale Hsy]] Hq. destruct (serve_ok stale q m Hok Hsy Hq). split; eauto. Qed.

Lemma reachable_ok m : reachable m -> kept m.
Proof. intros [stale H]. destruct (visited_ok stale m H). split; eauto. Qed.

Lemma reachable_serve q m : reachable m -> allowed q m -> reachable (serve q m).
Proof. intros [stale H] Hq. eexists. by apply visited_step. Qed.

(** C15. In every state the circuit map reaches, failed writes and restarts included,
    as long as its callers open a circuit only while it is not open: the circuits
    that are open are exactly the pending ones with a keystone, each under its
    keystone; only pending circuits are closing; a payment hash finds every open
    circuit of that hash; and the two buckets hold exactly the circuits and the
    keystones of the memory, except that a keystone trimmed by a
    [TrimOpenCircuits] whose write failed may stay on the disk until the next start. *)
Theorem circuit_map_correct (stale : gset CircuitKey) (m : circuitMap) : visited stale m ->
  (forall k c, LookupCircuit k m = Some c -> Incoming c = k) /\
  (forall o c, LookupOpenCircuit o m = Some c <-> LookupCircuit (Incoming c) m = Some c /\ Outgoing c = Some o) /\
  (forall k, k ∈ closed m -> is_Some (LookupCircuit k m)) /\
  (forall o c, LookupOpenCircuit o m = Some c -> c ∈ LookupByPaymentHash (pc_PaymentHash c) m) /\
  (forall k, cm_adds m !! k = persisted <$> LookupCircuit k m) /\
  (forall o c, LookupOpenCircuit o m = Some c -> cm_keystones m !! o = Some (Incoming c)) /\
  (forall o, o ∉ stale -> cm_keystones m !! o = Incoming <$> LookupOpenCircuit o m).
Proof.
  intros [Hok [Ha Hk]]%visited_ok. split; [|split; [|split; [|split; [|split; [done|split]]]]].
  - intros k c Hc. by apply (lookup_Some m Hok) in Hc as (l & _ & _ & ?).
  - intros o c. by apply lookup_open_Some.
  - intros k Hc. destruct (LookupCircuit k m) eqn:Hl; [by eexists|]. apply (lookup_None m Hok) in Hl.
    apply (ok_closed m Hok) in Hc. rewrite Hl in Hc. by destruct Hc.
  - intros o c. by apply index_hash.
  - intros o c Hc. destruct (Hk o) as [->|[_ ?]]; [by rewrite Hc|congruence].
  - intros o Ho. destruct (Hk o) as [?|[? _]]; [done|set_solver].
Qed.

(** What makes the map forget that a circuit is closing. *)
Definition forgets (k : CircuitKey) (q : request) : Prop :=
  match q with
  | RDelete _ keys => k ∈ keys
  | RRestart _ _ _ => True
  | _ => False
  end.

Definition keeping (k : CircuitKey) (m m' : circuitMap) : Prop := exists q, allowed q m /\ ~ forgets k q /\ m' = serve q m.

Lemma keeping_closed k m m' : kept m -> k ∈ closed m -> keeping k m m' -> kept m' /\ k ∈ closed m'.
Proof.
  intros Hkept Hk (q & Hq & Hf & ->). split; [by apply serve_kept|].
  destruct Hkept as [Hok [s Hsy]]. destruct q as [b cs|b kss|b ch st|k'|o|b ks|ex cl ac]; cbn [allowed serve forgets] in *.
  - destruct (CommitCircuits b cs m) as [[acts err] m'] eqn:Hrun.
    apply (commit_ok s b cs m acts err m' Hok Hsy Hq) in Hrun as (_ & _ & (_ & _ & _ & Ec & _) & _). cbn. by rewrite Ec.
  - destruct (OpenCircuits b kss m) as [r m'] eqn:Hrun. apply (open_ok s b kss m r m' Hok Hsy Hq) in Hrun. cbn.
    destruct r; [|by destruct Hrun as [-> _]|done]. destruct Hrun as (_ & _ & (_ & _ & _ & ->)). done.
  - destruct (trim_ok b ch st m Hok Hq) as (n & m' & r & -> & _ & (_ & _ & _ & _ & Ec) & _). cbn. by rewrite Ec.
  - rewrite fail_circuit_run. destruct (LookupCircuit k' m); [|done]. case_bool_decide; [done|]. cbn. set_solver.
  - rewrite close_run. destruct (LookupOpenCircuit o m); [|done]. case_bool_decide; [done|]. cbn. set_solver.
  - destruct (DeleteCircuits b ks m) as [r m'] eqn:Hrun. apply (delete_ok s b ks m r m' Hok Hsy) in Hrun as (_ & _ & [[_ H]|(_ & _ & H & _)]); cbn.
    + by apply H.
    + by rewrite H.
  - done.
Qed.

(** C16. Once a circuit was failed or closed, whatever else is asked of the map, until
    the circuit is deleted or the node restarts, it is never failed or closed
    again: both answer that it is closing, and the HTLC is answered at most once. *)
Theorem circuit_closed_once (m m1 m2 : circuitMap) (c : PaymentCircuit) : reachable m ->
  (FailCircuit (Incoming c) m = (Ok c, m1) \/ exists o, CloseCircuit o m = (Ok c, m1)) ->
  rtc (keeping (Incoming c)) m1 m2 ->
  FailCircuit (Incoming c) m2 = (Err ErrCircuitClosing, m2) /\
  forall o c', LookupOpenCircuit o m2 = Some c' -> Incoming c' = Incoming c -> CloseCircuit o m2 = (Err ErrCircuitClosing, m2).
Proof.
  intros [Hok [s Hsy]]%reachable_ok Hcl Hsteps.
  assert (H1 : kept m1 /\ Incoming c ∈ closed m1).
  { destruct Hcl as [Hrun|[o Hrun]].
    - rewrite fail_circuit_run in Hrun. destruct (LookupCircuit _ m) eqn:Hl; [|done]. case_bool_decide; [done|]. injection Hrun as -> <-.
      split; [|cbn; set_solver]. split; [apply closed_ok; [done|by rewrite Hl]|by exists s].
    - rewrite close_run in Hrun. destruct (LookupOpenCircuit o m) eqn:Hl; [|done]. case_bool_decide; [done|]. injection Hrun as -> <-.
      apply (lookup_open_Some m Hok) in Hl as [Hl _]. split; [|cbn; set_solver].
      split; [apply closed_ok; [done|by rewrite Hl]|by exists s]. }
  assert (H2 : kept m2 /\ Incoming c ∈ closed m2).
  { clear Hcl. induction Hsteps as [|m1 m3 m2 Hstep _ IH]; [done|]. apply IH. destruct H1. by eapply keeping_closed. }
  destruct H2 as [[Hok2 _] Hin]. split.
  - rewrite fail_circuit_run. destruct (LookupCircuit (Incoming c) m2) eqn:Hl; [by rewrite bool_decide_true|].
    apply (lookup_None m2 Hok2) in Hl. apply (ok_closed m2 Hok2) in Hin. rewrite Hl in Hin. by destruct Hin.
  - intros o c' Hl Heq. rewrite close_run, Hl, Heq. by rewrite bool_decide_true.
Qed.

(** ** What each operation does *)

(** Committing a batch splits it, each part in the order of the batch, into
    circuits that are new (added, on disk too, one for each incoming key), circuits
    to drop because the first copy is under way, and circuits to fail because a
    restart lost the first copy; if the write fails nothing is added and everything
    that is not dropped fails. *)
Theorem commit_circuits_correct (m m' : circuitMap) (commits : bool) (cs : list PaymentCircuit)
    (acts : CircuitFwdActions) (err : option circuiterr) :
  reachable m -> Forall fresh_circuit cs -> CommitCircuits commits cs m = (acts, err, m') ->
  commit_spec m cs acts err m' /\ (err = None \/ commits = false) /\ (commits = true \/ Adds acts = []).
Proof. intros [Hok [s Hsy]]%reachable_ok Hf Hrun. by apply (commit_ok s commits cs m acts err m' Hok Hsy Hf) in Hrun as (_ & _ & ?). Qed.

(** Opening gives every circuit its keystone and makes it the circuit of its
    outgoing key, and touches no other circuit; it refuses a keystone that is taken
    or a circuit that is unknown, and a refusal or a failed write changes nothing. *)
Theorem open_circuits_correct (m m' : circuitMap) (commits : bool) (keystones : list Keystone) (r : res circuiterr unit) :
  reachable m -> openable m keystones -> OpenCircuits commits keystones m = (r, m') ->
  match r with
  | Ok _ => open_spec m keystones m'
  | Err e => m' = m /\
      ((e = ErrDatabase /\ commits = false) \/
       exists ks, ks ∈ keystones /\
         ((e = ErrDuplicateKeystone /\ is_Some (LookupOpenCircuit (ks_OutKey ks) m)) \/
          (e = ErrUnknownCircuit /\ LookupCircuit (ks_InKey ks) m = None)))
  | Panic => False
  end.
Proof.
  intros [Hok [s Hsy]]%reachable_ok Ho Hrun. apply (open_ok s commits keystones m r m' Hok Hsy Ho) in Hrun.
  destruct r; [by destruct Hrun as (_ & _ & ?)|done|done].
Qed.

(** C17. Trimming a channel returns: it makes the circuits whose outgoing indexes run
    on from the start half open again, on disk too unless the write fails, stops at
    the first index that is not open, and touches no other circuit. *)
Theorem trim_circuits_correct (m : circuitMap) (commits : bool) (chanID : ShortChannelID) (start : Z) :
  reachable m -> is_uint 64 start ->
  exists n m' r, TrimOpenCircuits commits chanID start m = (r, m') /\
    trim_spec m (run_of chanID start n) m' /\
    LookupOpenCircuit (mkCircuitKey chanID (u64 (start + Z.of_nat n))) m' = None /\
    cm_adds m' = cm_adds m /\
    (r = Ok tt /\ cm_keystones m' = without (run_of chanID start n) (cm_keystones m) /\ (synced m -> synced m') \/
     r = Err ErrDatabase /\ commits = false /\ cm_keystones m' = cm_keystones m).
Proof.
  intros [Hok _]%reachable_ok Hs. destruct (trim_ok commits chanID start m Hok Hs) as (n & m' & r & Hrun & _ & Hsp & Hend & Ea & Hr).
  exists n, m', r. do 4 (split; [done|]). destruct Hr as [(-> & Hk & H)|(-> & Hc & Hk & _)]; [left|by right].
  do 2 (split; [done|]). intros Hsy. by apply synced_but_none, H, synced_but_none.
Qed.

(** Deleting removes the named circuits with their keystones, and marks of
    closing, from memory and disk, and no other; if the write fails everything is
    as it was. *)
Theorem delete_circuits_correct (m m' : circuitMap) (commits : bool) (inKeys : list CircuitKey) (r : res circuiterr unit) :
  reachable m -> DeleteCircuits commits inKeys m = (r, m') -> (forall s, synced_but s m -> synced_but s m') /\
  (r = Ok tt /\ delete_spec m inKeys m' \/
   r = Err ErrDatabase /\ commits = false /\ closed m' = closed m /\
     (forall k, LookupCircuit k m' = LookupCircuit k m) /\ (forall o, LookupOpenCircuit o m' = LookupOpenCircuit o m)).
Proof.
  intros [Hok [s Hsy]]%reachable_ok Hrun. split.
  - intros s' Hs'. exact (proj1 (proj2 (delete_ok s' commits inKeys m r m' Hok Hs' Hrun))).
  - exact (proj2 (proj2 (delete_ok s commits inKeys m r m' Hok Hsy Hrun))).
Qed.

(** Decoding succeeds when every encrypter can be extracted. *)
Lemma decode_all_ok extracts l : Forall (fun c => decodeCircuit extracts c = Ok c) l -> mapM (decodeCircuit extracts) l = Ok l.
Proof. induction 1 as [|c l Hc _ IH]; [done|]. cbn. by rewrite Hc, IH. Qed.

Lemma clean_total extracts channels m : (forall k c, cm_adds m !! k = Some c -> decodeCircuit extracts c = Ok c) ->
  exists m', cleanClosedChannels extracts channels m = (Ok tt, m').
Proof.
  intros Hd. unfold cleanClosedChannels. destruct (filter _ channels) as [|ch chs]; [by eexists|].
  unfold mbind, M_bind, get, lift. rewrite decode_all_ok.
  - destruct (closedKeys channels m). by eexists.
  - apply list.Forall_forall. intros c Hc. apply list_elem_of_fmap in Hc as ([k c'] & -> & Hc%elem_of_map_to_list). by eapply Hd.
Qed.

Lemma restore_total extracts m : (forall k c, cm_adds m !! k = Some c -> decodeCircuit extracts c = Ok c) ->
  exists m', restoreMemState extracts m = (Ok tt, m').
Proof.
  intros Hd. unfold restoreMemState, mbind, M_bind, get, lift. rewrite decode_all_ok; [by eexists|].
  apply list.Forall_forall. intros c Hc. apply list_elem_of_fmap in Hc as ([k c'] & -> & Hc%elem_of_map_to_list). by eapply Hd.
Qed.

(** C18. A restart succeeds if the encrypters of the stored circuits can be extracted
    and no failed trim left keystones behind that do not fit the circuits.
    It keeps exactly the circuits that neither came in over nor went out over a
    closed channel, marked as loaded from disk and none as closing; what is open was
    open, every keystone to a channel that is not trimmed stays, and no circuit
    stays open at the next index of an active channel. *)
Theorem restart_correct (stale : gset CircuitKey) (m : circuitMap) (extracts : bytes -> bool) (closedChannels : list closedChannel)
    (activeChannels : list activeChannel) :
  visited stale m -> stale = ∅ \/ disk_ok (cm_adds m) (cm_keystones m) -> Forall (fun c => is_uint 64 (ac_NextLocalHtlcIndex c)) activeChannels ->
  (forall k c, LookupCircuit k m = Some c -> decodeCircuit extracts (persisted c) = Ok (persisted c)) ->
  exists m', NewCircuitMap extracts closedChannels activeChannels m = (Ok tt, m') /\
    restart_spec closedChannels activeChannels m m'.
Proof.
  intros [Hok Hsy]%visited_ok Hfit Hu Hdec.
  assert (Hd : disk_ok (cm_adds m) (cm_keystones m)).
  { destruct Hfit as [->|?]; [|done]. by apply synced_disk, synced_but_none. }
  assert (Hdm : forall k c, cm_adds m !! k = Some c -> decodeCircuit extracts c = Ok c).
  { intros k c. destruct Hsy as [Ha _]. rewrite Ha. intros (c' & Hc & ->)%fmap_Some. by eapply Hdec. }
  destruct (clean_total extracts closedChannels m Hdm) as [m1 Hclean].
  apply clean_run in Hclean as Hcl; [|intros k c Hc; by apply (do_adds _ _ Hd) in Hc as (? & _)].
  pose proof (cleaned_disk _ _ _ Hd Hcl) as Hd1.
  destruct (restore_total extracts m1) as [m2 Hrest].
  { intros k c Hc. apply Hcl in Hc as [Hc _]. by eapply Hdm. }
  destruct (restore_ok extracts m1 Hd1 _ _ Hrest eq_refl) as (Hok2 & Hsy2 & _).
  destruct (trimAll_ok activeChannels m2 Hok2 Hsy2 Hu) as (keys & m3 & Hrun3 & _).
  assert (Hrun : NewCircuitMap extracts closedChannels activeChannels m = (Ok tt, m3)).
  { unfold NewCircuitMap. rewrite (M_bind_run _ _ _ _ _ Hclean), (M_bind_run _ _ _ _ _ Hrest). done. }
  exists m3. split; [done|]. by apply (restart_ok extracts closedChannels activeChannels m m3 Hd Hu).
Qed.

(** *** The stale index *)
Lemma trimOne_index m o l h o' : cm_ok m -> opened m !! o = Some l -> o' <> EmptyCircuitKey ->
  o' ∈ indexed m h -> o' ∈ indexed (trimOne o l m) h.
Proof.
  intros Hok Ho Hne Hin. destruct (trimOne_eq m Hok o l Ho) as (c & ix & _ & _ & _ & -> & Hix).
  change (o' ∈ (default ∅ (ix !! h) : gset CircuitKey)). rewrite Hix. destruct (decide _); [set_solver|done].
Qed.

Lemma trim_loop_index fuel : forall chanID start m keys m' h o', cm_ok m -> o' <> EmptyCircuitKey -> o' ∈ indexed m h ->
  trim_loop fuel chanID start m = Some (keys, m') -> o' ∈ indexed m' h.
Proof.
  induction fuel as [|fuel IH]; intros chanID start m keys m' h o' Hok Hne Hin Hrun; [done|]. cbn [trim_loop] in Hrun.
  destruct (opened m !! mkCircuitKey chanID start) as [l|] eqn:Hl; [|by injection Hrun as <- <-].
  destruct (trim_loop fuel chanID _ _) as [[ks m1]|] eqn:Hrest; [|done]. cbn in Hrun. injection Hrun as <- <-.
  eapply IH; [| | |exact Hrest]; [by apply trimOne_ok|done|by apply trimOne_index].
Qed.

(** Trimming clears the keystone of a circuit before it removes the circuit from
    the hash index, so what it removes is the empty key: once another circuit is
    opened under the trimmed key, it is found under the payment hash of the circuit
    that was trimmed. *)
Theorem trimmed_hash_stays_indexed (m m1 m2 : circuitMap) (chanID : ShortChannelID) (start : Z) (c c2 : PaymentCircuit) :
  reachable m -> is_uint 64 start ->
  LookupOpenCircuit (mkCircuitKey chanID start) m = Some c -> TrimOpenCircuits true chanID start m = (Ok tt, m1) ->
  LookupCircuit (Incoming c2) m1 = Some c2 -> Outgoing c2 = None ->
  OpenCircuits true [mkKeystone (Incoming c2) (mkCircuitKey chanID start)] m1 = (Ok tt, m2) ->
  opening (mkCircuitKey chanID start) c2 ∈ LookupByPaymentHash (pc_PaymentHash c) m2.
Proof.
  intros Hr Hs Hopen Htrim Hc2 Hout Hrun. pose proof (reachable_ok m Hr) as [Hok [stale Hsy]].
  set (o := mkCircuitKey chanID start) in *.
  assert (Hne : o <> EmptyCircuitKey).
  { intros Heq. unfold LookupOpenCircuit in Hopen. rewrite Heq, (ok_nonempty m Hok) in Hopen. done. }
  assert (Hix : o ∈ indexed m1 (pc_PaymentHash c)).
  { assert (Hin : o ∈ indexed m (pc_PaymentHash c)).
    { unfold LookupOpenCircuit, deref in Hopen. destruct (opened m !! o) as [l|] eqn:Hl; [|done]. cbn in Hopen. by apply (ok_index m Hok o l c). }
    unfold TrimOpenCircuits in Htrim. destruct (trim_loop _ _ _ m) as [[keys m']|] eqn:Hloop; [|done].
    pose proof (trim_loop_index _ _ _ _ _ _ _ _ Hok Hne Hin Hloop) as H. destruct keys; injection Htrim as <-; exact H. }
  destruct (trim_ok true chanID start m Hok Hs) as (n & m1' & r & Hrun1 & Hok1 & _ & _ & _ & Hr1).
  rewrite Htrim in Hrun1. injection Hrun1 as <- <-. destruct Hr1 as [(_ & _ & Hsy1)|(? & _)]; [|done]. specialize (Hsy1 stale Hsy).
  assert (Hop : openable m1 [mkKeystone (Incoming c2) o]).
  { split; [apply list.NoDup_singleton|]. split; [apply list.NoDup_singleton|].
    intros ks ->%list_elem_of_singleton. cbn. split; [done|]. intros c'. congruence. }
  pose proof (open_ok stale true _ m1 _ m2 Hok1 Hsy1 Hop Hrun) as (Hok2 & _ & (S1 & _)).
  destruct (S1 _ ltac:(by apply list_elem_of_singleton)) as (c' & Hc' & _ & _ & Ho). cbn in Hc', Ho.
  assert (c' = c2) as -> by congruence.
  assert (Hix2 : o ∈ indexed m2 (pc_PaymentHash c)).
  { unfold OpenCircuits in Hrun. apply M_bind_Ok in Hrun as (lks & s & Hchk & Hrun). injection Hchk as Hchk <-.
    apply (checkKeystones_Ok m1 [mkKeystone (Incoming c2) o]) in Hchk as [Hsnd _]. apply M_bind_Ok in Hrun as ([] & s & Hdb & Hrun). injection Hdb as <-.
    unfold modify in Hrun. injection Hrun as <-. destruct lks as [|lk [|? ?]]; try done. cbn [foldl].
    unfold openOne. cbv zeta. destruct (cm_heap _ !! lk.1); [|exact Hix].
    rewrite indexed_add. destruct (decide _); [|exact Hix]. apply elem_of_union. right. exact Hix. }
  unfold LookupByPaymentHash. apply list_elem_of_omap. exists o. split; [by apply elem_of_elements|exact Ho].
Qed.

(** ** Witnesses *)
Lemma run_pair {A B} (p : A * B) a : p.1 = a -> p = (a, p.2).
Proof. intros <-. by destruct p. Qed.

Definition ex_chan (n : Z) : ShortChannelID := mkSCID n 1 0.
Definition ex_c1 : PaymentCircuit :=
  mkCircuit (mkAddRef 7 0) (mkCircuitKey (ex_chan 1) 0) None (replicate 32 Byte.x01) 1000 990 31 None false.
Definition ex_c2 : PaymentCircuit :=
  mkCircuit (mkAddRef 7 1) (mkCircuitKey (ex_chan 1) 1) None (replicate 32 Byte.x02) 2000 1990 31 None false.
Definition ex_out : CircuitKey := mkCircuitKey (ex_chan 2) 5.

(** Two circuits, the first of them open. *)
Definition ex_m1 : circuitMap := serve (RCommit true [ex_c1; ex_c2]) empty_circuitMap.
Definition ex_m2 : circuitMap := serve (ROpen true [mkKeystone (Incoming ex_c1) ex_out]) ex_m1.


Lemma single_openable m k o : o <> EmptyCircuitKey -> (match LookupCircuit k m with Some c => Outgoing c | None => None end) = None ->
  openable m [mkKeystone k o].
Proof.
  intros Ho H. split; [apply list.NoDup_singleton|]. split; [apply list.NoDup_singleton|].
  intros ks ->%list_elem_of_singleton. cbn. split; [done|]. intros c Hc. by rewrite Hc in H.
Qed.

Lemma ex_m1_visited : visited ∅ ex_m1.
Proof. apply (visited_step ∅ _ (RCommit _ _)); [constructor|]. by repeat constructor. Qed.

Lemma ex_m2_visited : visited ∅ ex_m2.
Proof. apply (visited_step ∅ _ (ROpen _ _)); [apply ex_m1_visited|]. apply single_openable; [done|vm_compute; reflexivity]. Qed.

Lemma ex_m2_reachable : reachable ex_m2.
Proof. exists ∅. exact ex_m2_visited. Qed.

(** The second circuit opened too, and trimmed while the disk is down: its keystone
    stays. *)
Definition ex_out2 : CircuitKey := mkCircuitKey (ex_chan 2) 6.
Definition ex_m5 : circuitMap := serve (ROpen true [mkKeystone (Incoming ex_c2) ex_out2]) ex_m2.
Definition ex_m6 : circuitMap := serve (RTrim false (ex_chan 2) 6) ex_m5.

Lemma ex_m6_visited : visited {[ex_out2]} ex_m6.
Proof.
  assert (E : left_behind (RTrim false (ex_chan 2) 6) ex_m5 ∅ = {[ex_out2]}) by (vm_compute; reflexivity).
  rewrite <- E. apply visited_step; [|done]. apply (visited_step ∅ _ (ROpen _ _)); [apply ex_m2_visited|].
  apply single_openable; [done|vm_compute; reflexivity].
Qed.

Lemma circuit_map_correct_witness :
  visited {[ex_out2]} ex_m6 /\ opening ex_out ex_c1 ∈ LookupByPaymentHash (replicate 32 Byte.x01) ex_m6 /\
  cm_keystones ex_m6 !! ex_out = Some (Incoming ex_c1) /\
  LookupOpenCircuit ex_out2 ex_m6 = None /\ cm_keystones ex_m6 !! ex_out2 = Some (Incoming ex_c2).
Proof.
  split; [exact ex_m6_visited|]. destruct (circuit_map_correct {[ex_out2]} ex_m6 ex_m6_visited) as (_ & _ & _ & H & _ & Hd & _).
  split; [apply (H ex_out (opening ex_out ex_c1)); vm_compute; reflexivity|].
  split; [apply (Hd ex_out (opening ex_out ex_c1)); vm_compute; reflexivity|]. split; vm_compute; reflexivity.
Defined.

Lemma circuit_closed_once_witness :
  FailCircuit (Incoming ex_c1) (CloseCircuit ex_out ex_m2).2 = (Err ErrCircuitClosing, (CloseCircuit ex_out ex_m2).2).
Proof.
  apply (circuit_closed_once ex_m2 (CloseCircuit ex_out ex_m2).2 (CloseCircuit ex_out ex_m2).2 (opening ex_out ex_c1)
    ex_m2_reachable).
  - right. exists ex_out. apply run_pair. vm_compute. reflexivity.
  - apply rtc_refl.
Defined.

Lemma commit_circuits_correct_witness :
  commit_spec ex_m2 [ex_c1] (mkActions [] [ex_c1] []) None ex_m2 /\ (None = @None circuiterr \/ true = false) /\
  (true = true \/ Adds (mkActions [] [ex_c1] []) = []).
Proof.
  apply (commit_circuits_correct ex_m2 ex_m2 true [ex_c1] _ _ ex_m2_reachable).
  - by repeat constructor.
  - vm_compute. reflexivity.
Defined.

Lemma open_circuits_correct_witness :
  ex_m2 = ex_m2 /\
    ((ErrDuplicateKeystone = ErrDatabase /\ true = false) \/
     exists ks, ks ∈ [mkKeystone (Incoming ex_c2) ex_out] /\
       ((ErrDuplicateKeystone = ErrDuplicateKeystone /\ is_Some (LookupOpenCircuit (ks_OutKey ks) ex_m2)) \/
        (ErrDuplicateKeystone = ErrUnknownCircuit /\ LookupCircuit (ks_InKey ks) ex_m2 = None))).
Proof.
  apply (open_circuits_correct ex_m2 ex_m2 true [mkKeystone (Incoming ex_c2) ex_out] (Err ErrDuplicateKeystone) ex_m2_reachable).
  - apply single_openable; [done|vm_compute; reflexivity].
  - vm_compute. reflexivity.
Defined.

Lemma trim_circuits_correct_witness :
  exists n m' r, TrimOpenCircuits true (ex_chan 2) 5 ex_m2 = (r, m') /\
    trim_spec ex_m2 (run_of (ex_chan 2) 5 n) m' /\
    LookupOpenCircuit (mkCircuitKey (ex_chan 2) (u64 (5 + Z.of_nat n))) m' = None /\
    cm_adds m' = cm_adds ex_m2 /\
    (r = Ok tt /\ cm_keystones m' = without (run_of (ex_chan 2) 5 n) (cm_keystones ex_m2) /\ (synced ex_m2 -> synced m') \/
     r = Err ErrDatabase /\ true = false /\ cm_keystones m' = cm_keystones ex_m2).
Proof. apply (trim_circuits_correct ex_m2 true (ex_chan 2) 5 ex_m2_reachable). done. Defined.

Lemma delete_circuits_correct_witness :
  synced_but ∅ (DeleteCircuits true [Incoming ex_c1] ex_m2).2 /\
  LookupOpenCircuit ex_out (DeleteCircuits true [Incoming ex_c1] ex_m2).2 = None.
Proof.
  destruct (delete_circuits_correct ex_m2 (DeleteCircuits true [Incoming ex_c1] ex_m2).2 true [Incoming ex_c1] (Ok tt) ex_m2_reachable)
    as [Hs [[_ (_ & H & _)]|(Hf & _)]]; [apply run_pair; vm_compute; reflexivity| |discriminate Hf].
  split; [apply Hs; exact (proj2 (visited_ok ∅ ex_m2 ex_m2_visited))|]. rewrite H. vm_compute. reflexivity.
Defined.

Lemma restart_correct_witness :
  exists m', NewCircuitMap (fun _ => true) [mkClosedChannel (ex_chan 3) false] [mkActiveChannel (ex_chan 2) false 5] ex_m2 = (Ok tt, m') /\
    restart_spec [mkClosedChannel (ex_chan 3) false] [mkActiveChannel (ex_chan 2) false 5] ex_m2 m'.
Proof.
  apply (restart_correct ∅ ex_m2 (fun _ => true) _ _ ex_m2_visited).
  - by left.
  - by repeat constructor.
  - intros k c _. unfold decodeCircuit. destruct (Encrypter (persisted c)) as [[key|]|]; reflexivity.
Defined.

(** The first circuit is trimmed, the second opened in its place: the hash of the
    first finds the second. *)
Definition ex_m3 : circuitMap := serve (RTrim true (ex_chan 2) 5) ex_m2.
Definition ex_m4 : circuitMap := serve (ROpen true [mkKeystone (Incoming ex_c2) ex_out]) ex_m3.

Lemma trimmed_hash_stays_indexed_witness :
  opening ex_out ex_c2 ∈ LookupByPaymentHash (replicate 32 Byte.x01) ex_m4.
Proof.
  apply (trimmed_hash_stays_indexed ex_m2 ex_m3 ex_m4 (ex_chan 2) 5 (opening ex_out ex_c1) ex_c2 ex_m2_reachable).
  - done.
  - vm_compute. reflexivity.
  - apply run_pair. vm_compute. reflexivity.
  - vm_compute. reflexivity.
  - reflexivity.
  - apply run_pair. vm_compute. reflexivity.
Defined.

(** [OpenCircuits] does not look whether a circuit is open: opened twice, a circuit
    stays under its first key when it is deleted, in memory and on disk. *)
Example open_twice_leaks :
  let twice := serve (ROpen true [mkKeystone (Incoming ex_c1) (mkCircuitKey (ex_chan 4) 0)]) ex_m2 in
  let after := serve (RDelete true [Incoming ex_c1]) twice in
  (OpenCircuits true [mkKeystone (Incoming ex_c1) (mkCircuitKey (ex_chan 4) 0)] ex_m2).1 = Ok tt /\
  LookupCircuit (Incoming ex_c1) after = None /\ is_Some (LookupOpenCircuit ex_out after) /\
  cm_keystones after !! ex_out = Some (Incoming ex_c1).
Proof. vm_compute. split; [done|]. split; [done|]. split; [by eexists|done]. Qed.

(** [TrimOpenCircuits] trims the memory before it writes and does not undo it when
    the write fails.  The circuit can then be opened under another key: the disk
    holds two keystones of it, and a restart opens it under both. *)
Example failed_trim_leaves_keystone :
  let again := serve (ROpen true [mkKeystone (Incoming ex_c2) (mkCircuitKey (ex_chan 4) 0)]) ex_m6 in
  let restarted := serve (RRestart (fun _ => true) [] []) again in
  (TrimOpenCircuits false (ex_chan 2) 6 ex_m5).1 = Err ErrDatabase /\
  (OpenCircuits true [mkKeystone (Incoming ex_c2) (mkCircuitKey (ex_chan 4) 0)] ex_m6).1 = Ok tt /\
  LookupOpenCircuit ex_out2 again = None /\ cm_keystones again !! ex_out2 = Some (Incoming ex_c2) /\
  Incoming <$> LookupOpenCircuit ex_out2 restarted = Some (Incoming ex_c2) /\
  Incoming <$> LookupOpenCircuit (mkCircuitKey (ex_chan 4) 0) restarted = Some (Incoming ex_c2).
Proof. vm_compute. repeat split. Qed.
