(* ===== verification/Mailbox.v ===== *)
(** * The mailboxes of the switch ([htlcswitch/mailbox.go])

    Every channel has a mailbox: packets wait there until its link has put them into
    a commitment, and are delivered again when the link comes back.  A courier
    goroutine looks at the heads of the two queues, lets go of the lock, and then
    delivers, so other operations happen in between; it is a state machine. *)

From S2P Require Import Prelude Wire Messages Failures Units Tx FwdPkg UpdateLog Circuits.

(** ** Queues

    A [list.List] with the map from circuit keys to its elements and the next
    element to deliver.  An element is known by the number it was given. *)
Record queue (A : Type) := mkQueue { q_list : list (Z * A); q_index : gmap CircuitKey Z; q_head : option Z }.
Arguments mkQueue {A} _ _ _.
Arguments q_list {A} _.
Arguments q_index {A} _.
Arguments q_head {A} _.

#[export] Instance queue_eta A : Eta (queue A) := fun q => mkQueue (q_list q) (q_index q) (q_head q).

Section Queue.
Context {A : Type}.

Definition empty_queue : queue A := mkQueue [] ∅ None.

Definition Front (q : queue A) : option Z := fst <$> head (q_list q).

Fixpoint value_of (e : Z) (l : list (Z * A)) : option A :=
  match l with [] => None | (i, a) :: l => if i =? e then Some a else value_of e l end.

(** [Element.Next]. *)
Fixpoint next_of (e : Z) (l : list (Z * A)) : option Z :=
  match l with [] => None | (i, _) :: l => if i =? e then fst <$> head l else next_of e l end.

Definition remove_el (e : Z) (l : list (Z * A)) : list (Z * A) := filter (fun x => x.1 <> e) l.

(** [PushBack], and the head if nothing else waits. *)
Definition push (k : CircuitKey) (e : Z) (a : A) (q : queue A) : queue A :=
  mkQueue (q_list q ++ [(e, a)]) (<[k := e]> (q_index q)) (match q_head q with None => Some e | h => h end).

(** The head moves on before its element is removed. *)
Definition ack (k : CircuitKey) (e : Z) (q : queue A) : queue A :=
  mkQueue (remove_el e (q_list q)) (delete k (q_index q))
    (if decide (q_head q = Some e) then next_of e (q_list q) else q_head q).

Definition peek (q : queue A) : option (Z * A) :=
  e ← q_head q; a ← value_of e (q_list q); Some (e, a).

(** The courier delivered [e]; it moves the head only if it is still there. *)
Definition advance (e : Z) (q : queue A) : queue A :=
  if decide (q_head q = Some e) then q <| q_head := next_of e (q_list q) |> else q.

Definition reset_head (q : queue A) : queue A := q <| q_head := Front q |>.
End Queue.

(** ** The mailbox *)
Record pktWithExpiry := mkPktWithExpiry { pe_pkt : htlcPacket; pe_expiry : Z }.

(** [isDust feeRate incoming localCommit amt assetId]. *)
Abbreviation dustClosure := (Z -> bool -> bool -> Z -> Z -> bool).

Inductive mberr : Type := ErrPacketAlreadyExists | ErrUnknownHtlcType.

Section Mailbox.
Context {Msg : Type}.

Record memoryMailBox := mkMailBox {
  mb_shortChanID : ShortChannelID;
  mb_expiry : Z;
  wireMessages : list Msg;
  repPkts : queue htlcPacket;
  addPkts : queue pktWithExpiry;
  mb_next : Z;
  mb_feeRate : Z;
  isDust : option dustClosure
}.

#[export] Instance memoryMailBox_eta : Eta memoryMailBox := fun m =>
  mkMailBox (mb_shortChanID m) (mb_expiry m) (wireMessages m) (repPkts m) (addPkts m) (mb_next m) (mb_feeRate m) (isDust m).

Definition newMemoryMailBox (shortChanID : ShortChannelID) (expiry : Z) : memoryMailBox :=
  mkMailBox shortChanID expiry [] empty_queue empty_queue 0 0 None.

Abbreviation MB := (M memoryMailBox mberr).

Definition AddMessage (msg : Msg) (m : memoryMailBox) : memoryMailBox := m <| wireMessages ::= fun l => l ++ [msg] |>.
Definition ResetMessages (m : memoryMailBox) : memoryMailBox := m <| wireMessages := [] |>.

(** The wire courier takes a message off the front. *)
Definition nextMsg (m : memoryMailBox) : option (Msg * memoryMailBox) :=
  match wireMessages m with [] => None | msg :: l => Some (msg, m <| wireMessages := l |>) end.

Definition AddPacket (now : Z) (pkt : htlcPacket) : MB unit :=
  match pk_htlc pkt with
  | UMFulfill _ | UMFail _ =>
      m ← get;
      _ ← check (bool_decide (is_Some (q_index (repPkts m) !! inKey pkt))) ErrPacketAlreadyExists;
      modify (fun m => m <| repPkts ::= push (inKey pkt) (mb_next m) pkt |> <| mb_next ::= Z.succ |>)
  | UMAdd _ =>
      m ← get;
      _ ← check (bool_decide (is_Some (q_index (addPkts m) !! inKey pkt))) ErrPacketAlreadyExists;
      modify (fun m => m <| addPkts ::= push (inKey pkt) (mb_next m) (mkPktWithExpiry pkt (now + mb_expiry m)) |>
                         <| mb_next ::= Z.succ |>)
  | _ => throw ErrUnknownHtlcType
  end.

Definition AckPacket (k : CircuitKey) (m : memoryMailBox) : bool * memoryMailBox :=
  match q_index (repPkts m) !! k with
  | Some e => (true, m <| repPkts ::= ack k e |>)
  | None =>
      match q_index (addPkts m) !! k with
      | Some e => (true, m <| addPkts ::= ack k e |>)
      | None => (false, m)
      end
  end.

Definition HasPacket (k : CircuitKey) (m : memoryMailBox) : bool := bool_decide (is_Some (q_index (repPkts m) !! k)).

Definition ResetPackets (m : memoryMailBox) : memoryMailBox :=
  m <| repPkts ::= reset_head |> <| addPkts ::= reset_head |>.

Definition SetFeeRate (feeRate : Z) (m : memoryMailBox) : memoryMailBox := m <| mb_feeRate := feeRate |>.
Definition SetDustClosure (d : dustClosure) (m : memoryMailBox) : memoryMailBox := m <| isDust := Some d |>.

(** The elements are summed up in the order of the list; the order of the map does
    not show in a sum. *)
Definition dust_of (d : dustClosure) (feeRate : Z) (localCommit : bool) (sum : Z) (p : htlcPacket) : Z :=
  let amt := pk_amount p in
  if d feeRate false localCommit (ToSatoshis amt) (pk_assetId p) then u64 (sum + amt) else sum.

Definition DustPackets (m : memoryMailBox) : res mberr (Z * Z) :=
  match q_list (addPkts m), isDust m with
  | [], _ => Ok (0, 0)
  | _, None => Panic
  | l, Some d =>
      let pkts := (fun x => pe_pkt x.2) <$> l in
      Ok (foldl (dust_of d (mb_feeRate m) true) 0 pkts, foldl (dust_of d (mb_feeRate m) false) 0 pkts)
  end.

(** *** Failing an add *)
Section FailAdd.
Context `{VarIntOps, SphinxLib} (fetchUpdate : ShortChannelID -> option ChannelUpdate).

Definition addFailure (sid : ShortChannelID) : FailureMessage :=
  match fetchUpdate sid with
  | None => FailTemporaryNodeFailure
  | Some update => FailTemporaryChannelFailure (Some update)
  end.

Definition failPacket (pkt : htlcPacket) (localFailure : bool) (failure : LinkError) (reason : bytes) : htlcPacket :=
  mkPacket (incomingChanID pkt) (mkSCID 0 0 0) (incomingHTLCID pkt) 0 (sourceRef pkt) None 0 0 0
    (UMFail (mkUpdateFailHTLC zero32 0 reason [])) None localFailure (Some failure) false true false (pk_circuit pkt) 0 0.

(** The packet the switch is sent, if any. *)
Definition FailAdd (pkt : htlcPacket) (m : memoryMailBox) : option htlcPacket * memoryMailBox :=
  match AckPacket (inKey pkt) m with
  | (false, m) => (None, m)
  | (true, m) =>
      let failure := addFailure (mb_shortChanID m) in
      let linkError := NewDetailedLinkError failure OutgoingFailureDownstreamHtlcAdd in
      match obfuscator pkt with
      | None => match encode_failure failure with
                | Ok reason => (Some (failPacket pkt true linkError reason), m)
                | _ => (None, m)
                end
      | Some e => match EncryptFirstHop e failure with
                  | Ok reason => (Some (failPacket pkt false linkError reason), m)
                  | _ => (None, m)
                  end
      end
  end.
End FailAdd.

(** *** The packet courier *)

(** What the courier saw when it held the lock. *)
Record peeked := mkPeeked { nextRep : option (Z * htlcPacket); nextAdd : option (Z * pktWithExpiry) }.

(** It waits while both heads are empty. *)
Definition courier_peek (m : memoryMailBox) : option peeked :=
  match q_head (repPkts m), q_head (addPkts m) with
  | None, None => None
  | _, _ => Some (mkPeeked (peek (repPkts m)) (peek (addPkts m)))
  end.

(** Replies go before adds. *)
Definition courier_deliver (p : peeked) (m : memoryMailBox) : option (htlcPacket * memoryMailBox) :=
  match nextRep p, nextAdd p with
  | Some (e, pkt), _ => Some (pkt, m <| repPkts ::= advance e |>)
  | None, Some (e, a) => Some (pe_pkt a, m <| addPkts ::= advance e |>)
  | None, None => None
  end.
End Mailbox.
Arguments memoryMailBox Msg : clear implicits.

(** ** The orchestrator: the mailboxes of all channels *)
Section Orchestrator.
Context {Msg : Type}.

Record mailOrchestrator := mkOrchestrator {
  mailboxes : gmap bytes (memoryMailBox Msg);
  liveIndex : gmap ShortChannelID bytes;
  unclaimedPackets : gmap ShortChannelID (list htlcPacket);
  mo_expiry : Z
}.

#[export] Instance mailOrchestrator_eta : Eta mailOrchestrator := fun mo =>
  mkOrchestrator (mailboxes mo) (liveIndex mo) (unclaimedPackets mo) (mo_expiry mo).

Definition newMailOrchestrator (expiry : Z) : mailOrchestrator := mkOrchestrator ∅ ∅ ∅ expiry.

Definition GetOrCreateMailBox (chanID : bytes) (sid : ShortChannelID) (mo : mailOrchestrator) : mailOrchestrator :=
  match mailboxes mo !! chanID with
  | Some _ => mo
  | None => mo <| mailboxes ::= <[chanID := newMemoryMailBox sid (mo_expiry mo)]> |>
  end.

(** [mailbox.AddPacket] of the mailbox a channel id leads to. *)
Definition addTo (now : Z) (chanID : bytes) (pkt : htlcPacket) : M mailOrchestrator mberr unit := fun mo =>
  match mailboxes mo !! chanID with
  | None => (Panic, mo)
  | Some box => let '(r, box) := AddPacket now pkt box in (r, mo <| mailboxes ::= <[chanID := box]> |>)
  end.

(** The mailbox of [cid] exists; errors of [AddPacket] are not looked at. *)
Definition BindLiveShortChanID (now : Z) (cid : bytes) (sid : ShortChannelID) (mo : mailOrchestrator) : mailOrchestrator :=
  let pkts := default [] (unclaimedPackets mo !! sid) in
  let mo := mo <| liveIndex ::= <[sid := cid]> |> <| unclaimedPackets ::= delete sid |> in
  foldl (fun mo pkt => snd (addTo now cid pkt mo)) mo pkts.

Definition Deliver (now : Z) (sid : ShortChannelID) (pkt : htlcPacket) : M mailOrchestrator mberr unit := fun mo =>
  match liveIndex mo !! sid with
  | Some chanID => addTo now chanID pkt (GetOrCreateMailBox chanID sid mo)
  | None => (Ok tt, mo <| unclaimedPackets ::= fun u => <[sid := default [] (u !! sid) ++ [pkt]]> u |>)
  end.
End Orchestrator.
Arguments mailOrchestrator Msg : clear implicits.
