(* ===== verification/MailboxTheorems.v ===== *)
(** * What mailboxes promise

    The queues of [Mailbox] keep each packet once and lose none; the courier delivers
    in order, once between resets, whatever happens between its look and its
    delivery; adds are failed once; links that register late lose nothing. *)

From S2P Require Import Prelude Wire Messages Failures Units Tx FwdPkg UpdateLog Circuits Mailbox.

(** ** What a queue keeps *)
Section QueueLaws.
Context {A : Type} (key : A -> CircuitKey).
Implicit Types (q : queue A) (l : list (Z * A)).

Definition ids l : list Z := fst <$> l.

Record queue_ok (next : Z) (q : queue A) : Prop := {
  qo_sorted : StronglySorted Z.lt (ids (q_list q));
  qo_below : forall e a, (e, a) ∈ q_list q -> e < next;
  qo_index : forall k e, q_index q !! k = Some e <-> exists a, (e, a) ∈ q_list q /\ key a = k;
  qo_head : forall e, q_head q = Some e -> e ∈ ids (q_list q)
}.

(** What was delivered since the last reset, and what the courier holds. *)
Record delivery_ok (next : Z) (q : queue A) (held : option (Z * A)) (D : list (Z * A)) : Prop := {
  do_sorted : StronglySorted Z.lt (ids D);
  do_below : forall d, d ∈ ids D -> d < next;
  do_head : forall d h, d ∈ ids D -> q_head q = Some h -> d < h;
  do_exact : forall e, e ∈ ids (q_list q) -> (e ∈ ids D <-> forall h, q_head q = Some h -> e < h);
  do_same : forall e a b, (e, a) ∈ D -> (e, b) ∈ q_list q -> a = b;
  do_held : forall e a, held = Some (e, a) -> e < next /\ (forall d, d ∈ ids D -> d < e) /\
    (q_head q = Some e /\ (e, a) ∈ q_list q \/ e ∉ ids (q_list q) /\ forall h, q_head q = Some h -> e < h)
}.

Lemma elem_of_ids e l : e ∈ ids l <-> exists a, (e, a) ∈ l.
Proof. unfold ids. rewrite list_elem_of_fmap. split; [intros ([e' a] & -> & ?); by exists a|intros [a ?]; by exists (e, a)]. Qed.

Lemma ids_remove e l : ids (remove_el e l) = filter (fun i => i <> e) (ids l).
Proof.
  induction l as [|[i a] l IH]; [done|]. change (ids ((i, a) :: l)) with (i :: ids l). unfold remove_el in *. rewrite !filter_cons.
  destruct (decide (i <> e)) as [Hi|Hi]; [rewrite decide_True by exact Hi|by rewrite decide_False by exact Hi].
  change (ids ((i, a) :: ?x)) with (i :: ids x). by rewrite IH.
Qed.

Lemma elem_of_remove e x l : x ∈ remove_el e l <-> x ∈ l /\ x.1 <> e.
Proof. unfold remove_el. rewrite list_elem_of_filter. tauto. Qed.

Lemma sorted_filter (P : Z -> Prop) `{!forall x, Decision (P x)} (l : list Z) : StronglySorted Z.lt l -> StronglySorted Z.lt (filter P l).
Proof.
  induction 1 as [|x l _ IH Hx]; [constructor|]. rewrite filter_cons. case_decide; [|done]. constructor; [done|].
  apply list.Forall_forall. intros y [_ Hy]%list_elem_of_filter. by eapply list.Forall_forall in Hx.
Qed.

Lemma sorted_snoc (l : list Z) x : StronglySorted Z.lt l -> (forall y, y ∈ l -> y < x) -> StronglySorted Z.lt (l ++ [x]).
Proof.
  induction 1 as [|z l Hl IH Hz]; intros Hx; cbn; [by repeat constructor|]. constructor; [apply IH; intros y Hy; apply Hx; by right|].
  apply Forall_app. split; [done|]. constructor; [|constructor]. apply Hx. by left.
Qed.

Lemma value_of_Some e l a : value_of e l = Some a -> (e, a) ∈ l.
Proof.
  induction l as [|[i b] l IH]; [done|]. cbn. destruct (Z.eqb_spec i e) as [ ->|]; [intros [= ->]; by left|]. intros H. right. by apply IH.
Qed.

Lemma value_of_is_Some e l : e ∈ ids l -> exists a, value_of e l = Some a.
Proof.
  induction l as [|[i b] l IH]; [by intros ?%elem_of_nil|]. cbn. intros [ ->|He]%elem_of_cons; [rewrite Z.eqb_refl; by eexists|].
  destruct (i =? e); [by eexists|by apply IH].
Qed.

(** In a sorted list [next_of] is the least element above. *)
Lemma next_of_spec e l : StronglySorted Z.lt (ids l) -> e ∈ ids l ->
  match next_of e l with
  | Some h => h ∈ ids l /\ e < h /\ (forall i, i ∈ ids l -> i < h <-> i <= e)
  | None => forall i, i ∈ ids l -> i <= e
  end.
Proof.
  induction l as [|[i a] l IH]; [by intros _ ?%elem_of_nil|]. cbn. intros [Hs Hi]%StronglySorted_inv He.
  assert (Hlt : forall j, j ∈ ids l -> i < j) by (intros j Hj; by eapply list.Forall_forall in Hi).
  destruct (Z.eqb_spec i e) as [ ->|Hne].
  - destruct l as [|[h b] l]; cbn in *.
    + intros i [ ->|?%elem_of_nil]%elem_of_cons; [lia|done].
    + apply StronglySorted_inv in Hs as [_ Hh]. split; [right; by left|]. split; [apply Hlt; by left|].
      intros j [ ->|[ ->|Hj]%elem_of_cons]%elem_of_cons; [specialize (Hlt h ltac:(by left)); lia|specialize (Hlt h ltac:(by left)); lia|].
      eapply list.Forall_forall in Hh as Hhj; [|exact Hj]. specialize (Hlt h ltac:(by left)). lia.
  - apply elem_of_cons in He as [ ->|He]; [done|]. specialize (IH Hs He). destruct (next_of e l) as [h|].
    + destruct IH as (Hh & Hlt' & Hiff). split; [by right|]. split; [done|]. intros j [ ->|Hj]%elem_of_cons; [|by apply Hiff].
      pose proof (Hlt e He). pose proof (Hlt h Hh). lia.
    + intros j [ ->|Hj]%elem_of_cons; [specialize (Hlt e He); lia|by apply IH].
Qed.

Lemma queue_key next q e a k : queue_ok next q -> (e, a) ∈ q_list q -> key a = k -> q_index q !! k = Some e.
Proof. intros Hq Ha Hk. apply (qo_index _ _ Hq). by exists a. Qed.

Lemma queue_functional next q e a b : queue_ok next q -> (e, a) ∈ q_list q -> (e, b) ∈ q_list q -> a = b.
Proof.
  intros Hq. pose proof (qo_sorted _ _ Hq) as Hs. revert Hs. generalize (q_list q). induction l as [|[i c] l IH]; [by intros _ ?%elem_of_nil|].
  cbn. intros [Hs Hi]%StronglySorted_inv [[= -> ->]|Ha]%elem_of_cons [Heq|Hb]%elem_of_cons.
  - congruence.
  - assert (Hin : i ∈ ids l) by (apply elem_of_ids; by eexists). eapply list.Forall_forall in Hi; [|exact Hin]. lia.
  - injection Heq as -> ->. assert (Hin : i ∈ ids l) by (apply elem_of_ids; by eexists). eapply list.Forall_forall in Hi; [|exact Hin]. lia.
  - by apply IH.
Qed.

Lemma empty_queue_ok next : queue_ok next empty_queue.
Proof. split; [constructor|by intros ?? ?%elem_of_nil| |done]. intros k e. unfold empty_queue. cbn. rewrite lookup_empty. split; [done|]. by intros (a & ?%elem_of_nil & _). Qed.

Lemma push_ok next q k a : queue_ok next q -> q_index q !! k = None -> key a = k -> queue_ok (Z.succ next) (push k next a q).
Proof.
  intros Hq Hk Ha.
  assert (Hids : ids (q_list (push k next a q)) = ids (q_list q) ++ [next]) by (unfold ids; cbn; by rewrite fmap_app).
  split.
  - rewrite Hids. apply sorted_snoc; [apply (qo_sorted _ _ Hq)|]. intros y [b Hy]%elem_of_ids. by eapply qo_below.
  - intros e b. cbn. intros [Hb|[= -> ->]%list_elem_of_singleton]%elem_of_app; [apply (qo_below _ _ Hq) in Hb|]; lia.
  - intros k' e. cbn. destruct (decide (k' = k)) as [ ->|Hne].
    + rewrite lookup_insert, decide_True by done. split.
      * intros [= <-]. exists a. split; [apply elem_of_app; right; by left|done].
      * intros (b & [Hb|[= -> ->]%list_elem_of_singleton]%elem_of_app & Hkb); [|done].
        rewrite (queue_key _ _ _ _ _ Hq Hb Hkb) in Hk. done.
    + rewrite lookup_insert_ne by done. rewrite (qo_index _ _ Hq). split; intros (b & Hb & Hkb); exists b.
      * split; [apply elem_of_app; by left|done].
      * apply elem_of_app in Hb as [Hb|[= -> ->]%list_elem_of_singleton]; [done|congruence].
  - intros e He. rewrite Hids. cbn in He. apply elem_of_app. destruct (q_head q) eqn:Hh.
    + left. apply (qo_head _ _ Hq). congruence.
    + injection He as <-. right. by left.
Qed.

Lemma ack_ok next q k e : queue_ok next q -> q_index q !! k = Some e -> queue_ok next (ack k e q).
Proof.
  intros Hq Hk. pose proof Hk as (a & Ha & Hka)%(qo_index _ _ Hq). split; cbn.
  - rewrite ids_remove. apply sorted_filter, (qo_sorted _ _ Hq).
  - intros i b [Hb _]%elem_of_remove. by eapply qo_below.
  - intros k' i. destruct (decide (k' = k)) as [ ->|Hne].
    + rewrite lookup_delete, decide_True by done. split; [done|]. intros (b & [Hb Hne]%elem_of_remove & Hkb). cbn in Hne.
      rewrite (queue_key _ _ _ _ _ Hq Hb Hkb) in Hk. congruence.
    + rewrite lookup_delete_ne by done. rewrite (qo_index _ _ Hq). split; intros (b & Hb & Hkb); exists b.
      * split; [|done]. apply elem_of_remove. split; [done|]. cbn. intros ->. rewrite (queue_functional _ _ _ _ _ Hq Hb Ha) in Hkb. congruence.
      * by apply elem_of_remove in Hb as [Hb _].
  - intros i Hi. rewrite ids_remove. apply list_elem_of_filter. destruct (decide (q_head q = Some e)) as [Hhe|Hhe].
    + pose proof (next_of_spec e (q_list q) (qo_sorted _ _ Hq) ltac:(apply elem_of_ids; by eexists)) as Hn. rewrite Hi in Hn.
      destruct Hn as (Hin & Hlt & _). split; [lia|done].
    + split; [congruence|by apply (qo_head _ _ Hq)].
Qed.

Lemma advance_ok next q e : queue_ok next q -> queue_ok next (advance e q).
Proof.
  intros Hq. unfold advance. case_decide as Hh; [|done]. split; cbn; try apply Hq. intros i Hi.
  pose proof (next_of_spec e (q_list q) (qo_sorted _ _ Hq) (qo_head _ _ Hq _ Hh)) as Hn. rewrite Hi in Hn. by destruct Hn.
Qed.

Lemma reset_ok next q : queue_ok next q -> queue_ok next (reset_head q).
Proof.
  intros Hq. split; cbn; try apply Hq. intros e He. unfold Front in He. destruct (q_list q) as [|[i a] l]; [done|]. injection He as <-. by left.
Qed.

(** *** Deliveries *)
Lemma ids_app l l' : ids (l ++ l') = ids l ++ ids l'.
Proof. unfold ids. apply fmap_app. Qed.

Lemma empty_delivery next : delivery_ok next empty_queue None [].
Proof. split; [constructor|by intros ? ?%elem_of_nil|by intros ?? ?%elem_of_nil|by intros ? ?%elem_of_nil|by intros ??? ?%elem_of_nil|done]. Qed.

Lemma push_delivery next q k a held D : queue_ok next q -> delivery_ok next q held D ->
  delivery_ok (Z.succ next) (push k next a q) held D.
Proof.
  intros Hq [H1 H2 H3 H4 Hs H5].
  assert (Hb : forall e, e ∈ ids (q_list q) -> e < next) by (intros e [b Hb]%elem_of_ids; by eapply qo_below).
  assert (Hids : ids (q_list (push k next a q)) = ids (q_list q) ++ [next]) by (cbn; by rewrite ids_app).
  split; [done|intros d Hd; specialize (H2 d Hd); lia| | | |].
  - intros d h Hd. cbn. destruct (q_head q) as [h'|]; intros [= <-]; [by eapply H3|by apply H2].
  - intros e. rewrite Hids. intros [He| ->%list_elem_of_singleton]%elem_of_app.
    + rewrite (H4 e He). cbn. destruct (q_head q) as [h'|]; [done|]. split; [|done]. intros _ h [= <-]. by apply Hb.
    + split; [intros Hd; specialize (H2 _ Hd); lia|]. cbn. destruct (q_head q) as [h'|] eqn:Hh; intros H.
      * specialize (H h' eq_refl). pose proof (Hb h' (qo_head _ _ Hq _ Hh)). lia.
      * specialize (H next eq_refl). lia.
  - intros e b c Hb'. cbn. intros [Hc|[= -> ->]%list_elem_of_singleton]%elem_of_app; [by eapply Hs|].
    specialize (H2 next ltac:(apply elem_of_ids; by eexists)). lia.
  - intros e b He. destruct (H5 e b He) as (Hlt & Hd & Hor). split; [lia|]. split; [done|]. rewrite Hids. cbn. destruct Hor as [[Hh Hin]|[Hni Hlth]].
    + left. rewrite Hh. split; [done|]. apply elem_of_app. by left.
    + right. split; [intros [Hin| ->%list_elem_of_singleton]%elem_of_app; [done|lia]|].
      destruct (q_head q) as [h'|]; intros h [= <-]; [by apply Hlth|done].
Qed.

Lemma ack_delivery next q k e held D : queue_ok next q -> q_index q !! k = Some e -> delivery_ok next q held D ->
  delivery_ok next (ack k e q) held D.
Proof.
  intros Hq Hk [H1 H2 H3 H4 Hs H5]. pose proof Hk as (a & Ha & _)%(qo_index _ _ Hq).
  assert (He : e ∈ ids (q_list q)) by (apply elem_of_ids; by eexists).
  pose proof (next_of_spec e (q_list q) (qo_sorted _ _ Hq) He) as Hn.
  assert (Hids : forall i, i ∈ ids (q_list (ack k e q)) <-> i ∈ ids (q_list q) /\ i <> e).
  { intros i. cbn. rewrite ids_remove, list_elem_of_filter. tauto. }
  split; [done|done| | | |].
  - intros d h Hd. cbn. case_decide as Hh; [|by apply H3]. intros Hh'. rewrite Hh' in Hn. specialize (H3 d e Hd Hh). lia.
  - intros i [Hi Hne]%Hids. rewrite (H4 i Hi). cbn. case_decide as Hh; [|done]. rewrite Hh. split.
    + intros Hlt h Hh'. rewrite Hh' in Hn. specialize (Hlt e eq_refl). lia.
    + intros Hlt h [= <-]. destruct (next_of e (q_list q)) as [h'|].
      * destruct Hn as (_ & _ & Hiff). apply Hiff in Hi as Hi'. specialize (Hlt h' eq_refl). lia.
      * specialize (Hn i Hi). lia.
  - intros i b c Hb [Hc _]%elem_of_remove. by eapply Hs.
  - intros i b Hi. destruct (H5 i b Hi) as (Hlt & Hd & Hor). split; [done|]. split; [done|]. rewrite Hids. cbn. destruct Hor as [[Hh Hin]|[Hni Hlth]].
    + destruct (decide (i = e)) as [->|Hne].
      * right. split; [tauto|]. rewrite decide_True by done. intros h Hh'. rewrite Hh' in Hn. lia.
      * left. rewrite decide_False by congruence. split; [done|]. by apply elem_of_remove.
    + right. split; [tauto|]. case_decide as Hh; [|done]. intros h Hh'. rewrite Hh' in Hn. specialize (Hlth e Hh). lia.
Qed.

Lemma advance_delivery next q e a D : queue_ok next q -> delivery_ok next q (Some (e, a)) D ->
  delivery_ok next (advance e q) None (D ++ [(e, a)]).
Proof.
  intros Hq [H1 H2 H3 H4 Hs H5]. destruct (H5 e a eq_refl) as (Hlt & Hd & Hor). clear H5.
  assert (Hids : ids (D ++ [(e, a)]) = ids D ++ [e]) by by rewrite ids_app.
  assert (Hsame : forall i b c, (i, b) ∈ D ++ [(e, a)] -> (i, c) ∈ q_list q -> b = c).
  { intros i b c [Hb|[= -> ->]%list_elem_of_singleton]%elem_of_app Hc; [by eapply Hs|]. destruct Hor as [[_ Hin]|[Hni _]].
    - by eapply queue_functional.
    - exfalso. apply Hni, elem_of_ids. by eexists. }
  assert (Hbel : forall d, d ∈ ids (D ++ [(e, a)]) -> d < next).
  { intros d. rewrite Hids. intros [?| ->%list_elem_of_singleton]%elem_of_app; [by apply H2|done]. }
  assert (Hsort : StronglySorted Z.lt (ids (D ++ [(e, a)]))) by (rewrite Hids; by apply sorted_snoc).
  unfold advance. case_decide as Hh.
  - pose proof (next_of_spec e (q_list q) (qo_sorted _ _ Hq) (qo_head _ _ Hq _ Hh)) as Hn. split; try done; rewrite ?Hids; cbn.
    + intros d h Hdd Hh'. rewrite Hh' in Hn. apply elem_of_app in Hdd as [Hdd| ->%list_elem_of_singleton]; [specialize (Hd d Hdd); lia|lia].
    + intros i Hi. rewrite elem_of_app, list_elem_of_singleton, (H4 i Hi), Hh. destruct (next_of e (q_list q)) as [h'|].
      * destruct Hn as (_ & _ & Hiff). specialize (Hiff i Hi). split.
        -- intros [Hl| ->] h [= <-]; [specialize (Hl e eq_refl)|]; lia.
        -- intros Hl. specialize (Hl h' eq_refl). destruct (decide (i = e)); [by right|]. left. intros h [= <-]. lia.
      * specialize (Hn i Hi). split; [done|]. intros _. destruct (decide (i = e)); [by right|]. left. intros h [= <-]. lia.
  - destruct Hor as [[? _]|[Hni Hlth]]; [done|]. split; try done; rewrite ?Hids.
    + intros d h [Hdd| ->%list_elem_of_singleton]%elem_of_app Hh'; [by eapply H3|by apply Hlth].
    + intros i Hi. rewrite elem_of_app, list_elem_of_singleton, <- (H4 i Hi). split; [|by left]. intros [?| ->]; [done|contradiction].
Qed.

Lemma drop_held next q held D : delivery_ok next q held D -> delivery_ok next q None D.
Proof. intros []. by split. Qed.

Lemma peek_delivery next q D : queue_ok next q -> delivery_ok next q None D -> delivery_ok next q (peek q) D.
Proof.
  intros Hq [H1 H2 H3 H4 Hs _]. split; [done..|]. intros e a. unfold peek. destruct (q_head q) as [h|] eqn:Hh; [|done]. cbn.
  destruct (value_of h (q_list q)) as [b|] eqn:Hv; [|done]. cbn. intros [= -> ->]. apply value_of_Some in Hv.
  split; [by eapply qo_below|]. split; [|by left]. intros d Hd. by eapply H3.
Qed.

Lemma reset_delivery next q : queue_ok next q -> delivery_ok next (reset_head q) None [].
Proof.
  intros Hq. split; [constructor|by intros ? ?%elem_of_nil|by intros ?? ?%elem_of_nil| |by intros ??? ?%elem_of_nil|done].
  intros e He. split; [by intros ?%elem_of_nil|]. cbn in *. unfold Front. pose proof (qo_sorted _ _ Hq) as Hs.
  destruct (q_list q) as [|[i a] l]; [by apply elem_of_nil in He|]. cbn. intros H. specialize (H i eq_refl).
  apply StronglySorted_inv in Hs as [_ Hs]. apply elem_of_cons in He as [ ->|He]; [cbn in H; lia|].
  eapply list.Forall_forall in Hs; [|exact He]. cbn in *. lia.
Qed.

Lemma queue_mono next next' q : next <= next' -> queue_ok next q -> queue_ok next' q.
Proof. intros Hle []. split; try done. intros e a Ha. specialize (qo_below0 e a Ha). lia. Qed.

Lemma delivery_mono next next' q held D : next <= next' -> delivery_ok next q held D -> delivery_ok next' q held D.
Proof.
  intros Hle []. split; try done; [intros d Hd; specialize (do_below0 d Hd); lia|]. intros e a He.
  destruct (do_held0 e a He) as (? & ? & ?). split; [lia|done].
Qed.

Lemma peek_head next q : queue_ok next q -> is_Some (q_head q) -> is_Some (peek q).
Proof. intros Hq [e He]. unfold peek. rewrite He. cbn. destruct (value_of_is_Some e _ (qo_head _ _ Hq e He)) as [a ->]. by eexists. Qed.
End QueueLaws.

(** ** Deliveries, step by step *)
Section Courier.
Context {Msg : Type} `{VarIntOps, SphinxLib} (fetchUpdate : ShortChannelID -> option ChannelUpdate).
Implicit Types (m : memoryMailBox Msg).

Definition add_key (a : pktWithExpiry) : CircuitKey := inKey (pe_pkt a).

Definition box_ok m : Prop := queue_ok inKey (mb_next m) (repPkts m) /\ queue_ok add_key (mb_next m) (addPkts m).

(** A mailbox, what its courier holds, what it delivered since the last reset, and
    the failures sent to the switch. *)
Record mailroom := mkMailroom {
  mr_box : memoryMailBox Msg;
  mr_peeked : option peeked;
  mr_reps : list (Z * htlcPacket);
  mr_adds : list (Z * pktWithExpiry);
  mr_failed : list htlcPacket
}.

Inductive mail_event : Type :=
| EvAdd (now : Z) (pkt : htlcPacket)
| EvAck (k : CircuitKey)
| EvFail (pkt : htlcPacket)
| EvPeek
| EvDeliver
| EvDeadline (now : Z)
| EvReset.

(** What was delivered is the packet that [courier_deliver] hands out. *)
Definition sent_rep (pkt : htlcPacket) (x : Z * htlcPacket) : Z * htlcPacket := (x.1, pkt).
Definition sent_add (pkt : htlcPacket) (x : Z * pktWithExpiry) : Z * pktWithExpiry := (x.1, mkPktWithExpiry pkt (pe_expiry x.2)).

Definition mail_step (ev : mail_event) (s : mailroom) : option mailroom :=
  match ev with
  | EvAdd now pkt => Some (mkMailroom (snd (AddPacket now pkt (mr_box s))) (mr_peeked s) (mr_reps s) (mr_adds s) (mr_failed s))
  | EvAck k => Some (mkMailroom (snd (AckPacket k (mr_box s))) (mr_peeked s) (mr_reps s) (mr_adds s) (mr_failed s))
  | EvFail pkt =>
      let '(f, box) := FailAdd fetchUpdate pkt (mr_box s) in
      Some (mkMailroom box (mr_peeked s) (mr_reps s) (mr_adds s) (mr_failed s ++ option_list f))
  | EvPeek =>
      match mr_peeked s, courier_peek (mr_box s) with
      | None, Some p => Some (mkMailroom (mr_box s) (Some p) (mr_reps s) (mr_adds s) (mr_failed s))
      | _, _ => None
      end
  | EvDeliver =>
      p ← mr_peeked s; r ← courier_deliver p (mr_box s);
      Some (mkMailroom r.2 None (mr_reps s ++ option_list (sent_rep r.1 <$> nextRep p))
              (mr_adds s ++ match nextRep p with None => option_list (sent_add r.1 <$> nextAdd p) | Some _ => [] end) (mr_failed s))
  | EvDeadline now =>
      p ← mr_peeked s; x ← nextAdd p;
      if pe_expiry x.2 <=? now then
        let '(f, box) := FailAdd fetchUpdate (pe_pkt x.2) (mr_box s) in
        Some (mkMailroom box None (mr_reps s) (mr_adds s) (mr_failed s ++ option_list f))
      else None
  | EvReset => Some (mkMailroom (ResetPackets (mr_box s)) None [] [] (mr_failed s))
  end.

Definition new_mailroom (sid : ShortChannelID) (expiry : Z) : mailroom := mkMailroom (newMemoryMailBox sid expiry) None [] [] [].

Definition mail_reachable (s : mailroom) : Prop :=
  exists sid expiry, rtc (fun s s' => exists ev, mail_step ev s = Some s') (new_mailroom sid expiry) s.

Record mailroom_ok (s : mailroom) : Prop := {
  mo_box : box_ok (mr_box s);
  mo_reps : delivery_ok (mb_next (mr_box s)) (repPkts (mr_box s)) (mr_peeked s ≫= nextRep) (mr_reps s);
  mo_adds : delivery_ok (mb_next (mr_box s)) (addPkts (mr_box s)) (mr_peeked s ≫= nextAdd) (mr_adds s);
  mo_peeked : forall p, mr_peeked s = Some p -> is_Some (nextRep p) \/ is_Some (nextAdd p)
}.

(** A mailbox operation keeps both queues and what is held and delivered. *)
Definition keeps (m m' : memoryMailBox Msg) : Prop :=
  box_ok m -> box_ok m' /\
  (forall held D, delivery_ok (mb_next m) (repPkts m) held D -> delivery_ok (mb_next m') (repPkts m') held D) /\
  (forall held D, delivery_ok (mb_next m) (addPkts m) held D -> delivery_ok (mb_next m') (addPkts m') held D).

Lemma keeps_refl m : keeps m m.
Proof. done. Qed.

Lemma AddPacket_keeps now pkt m : keeps m (snd (AddPacket now pkt m)).
Proof.
  intros [Hr Ha]. assert (Hs : mb_next m <= Z.succ (mb_next m)) by lia. unfold AddPacket. destruct (pk_htlc pkt); try done; cbn; unfold mbind, M_bind, get, check;
    case_bool_decide as Hk; try done; apply eq_None_not_Some in Hk; cbn.
  - split; [split; [exact (queue_mono _ _ _ _ Hs Hr)|by apply push_ok]|]. split; intros held D HD; [exact (delivery_mono _ _ _ _ _ Hs HD)|].
    by eapply push_delivery.
  - split; [split; [by apply push_ok|exact (queue_mono _ _ _ _ Hs Ha)]|]. split; intros held D HD; [|exact (delivery_mono _ _ _ _ _ Hs HD)].
    by eapply push_delivery.
  - split; [split; [by apply push_ok|exact (queue_mono _ _ _ _ Hs Ha)]|]. split; intros held D HD; [|exact (delivery_mono _ _ _ _ _ Hs HD)].
    by eapply push_delivery.
Qed.

Lemma AckPacket_keeps k m : keeps m (snd (AckPacket k m)).
Proof.
  intros [Hr Ha]. unfold AckPacket. destruct (q_index (repPkts m) !! k) as [e|] eqn:He; cbn.
  - split; [split; [by apply ack_ok|done]|]. split; [|done]. intros held D. by eapply ack_delivery.
  - destruct (q_index (addPkts m) !! k) as [e|] eqn:He'; cbn; [|done].
    split; [split; [done|by apply ack_ok]|]. split; [done|]. intros held D. by eapply ack_delivery.
Qed.

Lemma FailAdd_box pkt m : snd (FailAdd fetchUpdate pkt m) = snd (AckPacket (inKey pkt) m).
Proof. unfold FailAdd. destruct (AckPacket (inKey pkt) m) as [[|] m']; [|done]. by repeat case_match. Qed.

Lemma keeps_room s m' pk f : mailroom_ok s -> keeps (mr_box s) m' -> (pk = mr_peeked s \/ pk = None) ->
  mailroom_ok (mkMailroom m' pk (mr_reps s) (mr_adds s) f).
Proof.
  intros [Hb Hr Ha Hp] Hk Hpk. destruct (Hk Hb) as (Hb' & Kr & Ka).
  destruct Hpk as [->| ->]; split; cbn; try done; [by apply Kr|by apply Ka|by eapply Kr, drop_held|by eapply Ka, drop_held].
Qed.

Lemma mail_step_ok ev s s' : mailroom_ok s -> mail_step ev s = Some s' -> mailroom_ok s'.
Proof.
  intros Hok. destruct ev; cbn [mail_step].
  - intros [= <-]. apply keeps_room; [done|apply AddPacket_keeps|by left].
  - intros [= <-]. apply keeps_room; [done|apply AckPacket_keeps|by left].
  - pose proof (FailAdd_box pkt (mr_box s)) as Hb. destruct (FailAdd _ _ _) as [f box]. cbn in Hb. intros [= <-]. subst box.
    apply keeps_room; [done|apply AckPacket_keeps|by left].
  - destruct (mr_peeked s) eqn:Hpk; [done|]. destruct (courier_peek (mr_box s)) as [p|] eqn:Hp; [|done]. intros [= <-].
    destruct Hok as [[Hqr Hqa] Hr Ha _]. rewrite Hpk in Hr, Ha. cbn in Hr, Ha. unfold courier_peek in Hp.
    assert (Hpp : p = mkPeeked (peek (repPkts (mr_box s))) (peek (addPkts (mr_box s))) /\
      (is_Some (q_head (repPkts (mr_box s))) \/ is_Some (q_head (addPkts (mr_box s))))).
    { destruct (q_head (repPkts _)), (q_head (addPkts _)); try done; injection Hp as <-; (split; [done|]); eauto. }
    destruct Hpp as [-> Hhead]. split; cbn; [by split|by eapply peek_delivery|by eapply peek_delivery|]. intros p [= <-]. cbn.
    destruct Hhead as [?|?]; [left|right]; by eapply peek_head.
  - destruct (mr_peeked s) as [p|] eqn:Hpk; [|done]. cbn. destruct (courier_deliver p (mr_box s)) as [[pkt box]|] eqn:Hd; [|done]. cbn.
    intros [= <-]. destruct Hok as [[Hqr Hqa] Hr Ha _]. rewrite Hpk in Hr, Ha. cbn in Hr, Ha. unfold courier_deliver in Hd.
    destruct (nextRep p) as [[e a]|], (nextAdd p) as [[e' [a' x']]|]; try done; injection Hd as <- <-; split; cbn; rewrite ?app_nil_r; try done.
    all: try (split; [by apply advance_ok|done]); try (split; [done|by apply advance_ok]); try (by eapply drop_held); by eapply advance_delivery.
  - destruct (mr_peeked s) as [p|] eqn:Hpk; [|done]. cbn. destruct (nextAdd p) as [[e a]|]; [|done]. cbn. destruct (_ <=? _); [|done].
    pose proof (FailAdd_box (pe_pkt a) (mr_box s)) as Hb. destruct (FailAdd _ _ _) as [f box]. cbn in Hb. intros [= <-]. subst box.
    apply keeps_room; [done|apply AckPacket_keeps|by right].
  - intros [= <-]. destruct Hok as [[Hqr Hqa] _ _ _]. split; cbn; [by split; apply reset_ok|by eapply reset_delivery|by eapply reset_delivery|done].
Qed.

Lemma mail_reachable_ok s : mail_reachable s -> mailroom_ok s.
Proof.
  intros (sid & expiry & Hr). assert (Hs : mailroom_ok (new_mailroom sid expiry)).
  { split; cbn; [split; apply empty_queue_ok|apply empty_delivery|apply empty_delivery|done]. }
  induction Hr as [|s s1 s2 [ev Hev] _ IH]; [done|]. apply IH. by eapply mail_step_ok.
Qed.

Lemma courier_waits m : courier_peek m = None <-> q_head (repPkts m) = None /\ q_head (addPkts m) = None.
Proof. unfold courier_peek. destruct (q_head (repPkts m)), (q_head (addPkts m)); split; try done; by intros []. Qed.

(** A queue names each key once. *)
Lemma queue_nodup {A} (key : A -> CircuitKey) next (q : queue A) : queue_ok key next q -> NoDup ((fun x => key x.2) <$> q_list q).
Proof.
  intros Hq. pose proof (qo_sorted _ _ _ Hq) as Hs. assert (Hin : forall x, x ∈ q_list q -> x ∈ q_list q) by done. revert Hs Hin.
  generalize (q_list q) at 1 2 4. induction l as [|[e a] l IH]; [constructor|]. intros [Hs He]%StronglySorted_inv Hin.
  constructor; [|apply IH; [done|intros x Hx; apply Hin; by right]].
  intros ([e' b] & Hk & Hb)%list_elem_of_fmap. cbn in Hk.
  pose proof (queue_key key next q e a _ Hq (Hin _ ltac:(by left)) eq_refl) as H1.
  pose proof (queue_key key next q e' b _ Hq (Hin _ ltac:(by right)) eq_refl) as H2. rewrite Hk in H1.
  assert (e = e') as <- by congruence. eapply list.Forall_forall in He; [|apply elem_of_ids; by eexists]. cbn in He. lia.
Qed.

Lemma waiting_delivered {A} next (q : queue A) held D x : q_head q = None -> delivery_ok next q held D -> x ∈ q_list q -> x ∈ D.
Proof.
  intros Hh [_ _ _ H4 Hs _] Hx. destruct x as [e a]. assert (He : e ∈ ids (q_list q)) by (apply elem_of_ids; by eexists).
  apply H4 in He as [_ He]. specialize (He ltac:(rewrite Hh; done)). apply elem_of_ids in He as [b Hb]. by rewrite <- (Hs e b a Hb Hx).
Qed.

(** C27. Whatever is added, acknowledged and failed between what the courier sees and
    what it delivers: a mailbox holds at most one reply and one add for an incoming
    HTLC; since the last reset each packet was delivered at most once and in the
    order it was queued; when the courier waits, every packet still queued was
    delivered; and what the courier holds can always be delivered. *)
Theorem courier_correct (s : mailroom) : mail_reachable s ->
  NoDup ((fun x => inKey x.2) <$> q_list (repPkts (mr_box s))) /\
  NoDup ((fun x => add_key x.2) <$> q_list (addPkts (mr_box s))) /\
  StronglySorted Z.lt (ids (mr_reps s)) /\ StronglySorted Z.lt (ids (mr_adds s)) /\
  (courier_peek (mr_box s) = None -> forall x, x ∈ q_list (repPkts (mr_box s)) -> x ∈ mr_reps s) /\
  (courier_peek (mr_box s) = None -> forall x, x ∈ q_list (addPkts (mr_box s)) -> x ∈ mr_adds s) /\
  (forall p, mr_peeked s = Some p -> is_Some (mail_step EvDeliver s)).
Proof.
  intros [[Hqr Hqa] Hr Ha Hp]%mail_reachable_ok. split_and!.
  - by eapply queue_nodup.
  - by eapply queue_nodup.
  - apply Hr.
  - apply Ha.
  - intros [Hn _]%courier_waits x. by eapply waiting_delivered.
  - intros [_ Hn]%courier_waits x. by eapply waiting_delivered.
  - intros p Hpk. cbn. rewrite Hpk. cbn. unfold courier_deliver.
    destruct (Hp p Hpk) as [[[e a] ->]|[[e a] ->]]; [by eexists|]. destruct (nextRep p) as [[? ?]|]; by eexists.
Qed.

(** *** Redelivery *)

(** The courier runs without being disturbed. *)
Fixpoint drain (n : nat) m : list htlcPacket * memoryMailBox Msg :=
  match n with
  | O => ([], m)
  | S n =>
      match p ← courier_peek m; courier_deliver p m with
      | None => ([], m)
      | Some (pkt, m) => let '(l, m) := drain n m in (pkt :: l, m)
      end
  end.

(** The head is at the start of the second part. *)
Definition at_head {A} (q : queue A) (l1 l2 : list (Z * A)) : Prop := q_list q = l1 ++ l2 /\ q_head q = fst <$> head l2.

Lemma value_of_app {A} e (l1 l2 : list (Z * A)) a : e ∉ ids l1 -> value_of e (l1 ++ (e, a) :: l2) = Some a.
Proof.
  induction l1 as [|[i b] l1 IH]; cbn; [by rewrite Z.eqb_refl|]. intros [Hne Hn]%not_elem_of_cons.
  rewrite (proj2 (Z.eqb_neq i e)) by done. by apply IH.
Qed.

Lemma next_of_app {A} e (l1 l2 : list (Z * A)) a : e ∉ ids l1 -> next_of e (l1 ++ (e, a) :: l2) = fst <$> head l2.
Proof.
  induction l1 as [|[i b] l1 IH]; cbn; [by rewrite Z.eqb_refl|]. intros [Hne Hn]%not_elem_of_cons.
  rewrite (proj2 (Z.eqb_neq i e)) by done. by apply IH.
Qed.

Lemma at_head_step {A} (key : A -> CircuitKey) next (q : queue A) l1 e a l2 : queue_ok key next q -> at_head q l1 ((e, a) :: l2) ->
  peek q = Some (e, a) /\ at_head (advance e q) (l1 ++ [(e, a)]) l2.
Proof.
  intros Hq [Hl Hh]. pose proof (qo_sorted _ _ _ Hq) as Hs. rewrite Hl, ids_app in Hs.
  assert (Hn : e ∉ ids l1).
  { intros He. clear -Hs He. induction (ids l1) as [|i l IH]; [by apply elem_of_nil in He|]. cbn in Hs. apply StronglySorted_inv in Hs as [Hs Hi].
    apply elem_of_cons in He as [->|He]; [|by apply IH]. eapply list.Forall_forall in Hi; [|apply elem_of_app; right; by left]. lia. }
  cbn in Hh. unfold peek. rewrite Hh, Hl. cbn. rewrite value_of_app by done. cbn. split; [done|].
  unfold advance. rewrite decide_True by done. split; cbn; [by rewrite Hl, <- app_assoc|]. by rewrite Hl, next_of_app.
Qed.

(** The replies that are left, then the adds. *)
Lemma drain_run n : forall m r1 r2 a1 a2, box_ok m -> at_head (repPkts m) r1 r2 -> at_head (addPkts m) a1 a2 ->
  n = (length r2 + length a2)%nat ->
  exists m', drain n m = ((snd <$> r2) ++ ((fun x => pe_pkt x.2) <$> a2), m') /\
    q_list (repPkts m') = q_list (repPkts m) /\ q_list (addPkts m') = q_list (addPkts m) /\ courier_peek m' = None.
Proof.
  induction n as [|n IH]; intros m r1 r2 a1 a2 [Hqr Hqa] Hr Ha Hn.
  - destruct r2, a2; try done. exists m. split_and!; try done. apply courier_waits. by destruct Hr as [_ ->], Ha as [_ ->].
  - cbn [drain]. destruct r2 as [|[e p] r2].
    + destruct a2 as [|[e a] a2]; [done|]. injection Hn as Hn. destruct (at_head_step _ _ _ _ _ _ _ Hqa Ha) as [Hp Ha'].
      pose proof Hr as [_ Hrh]. pose proof Ha as [_ Hah]. cbn in Hrh, Hah.
      unfold courier_peek. rewrite Hrh, Hah, Hp. unfold peek. rewrite Hrh. cbn [mbind option_bind courier_deliver nextRep nextAdd].
      destruct (IH (m <| addPkts ::= advance e |>) r1 [] (a1 ++ [(e, a)]) a2) as (m' & -> & Hlr & Hla & Hw); [by split; [|apply advance_ok]|done..|].
      exists m'. split_and!; try done. rewrite Hla. cbn. unfold advance. by case_decide.
    + injection Hn as Hn. destruct (at_head_step _ _ _ _ _ _ _ Hqr Hr) as [Hp Hr']. pose proof Hr as [_ Hrh]. cbn in Hrh.
      unfold courier_peek. rewrite Hrh, Hp. cbn [mbind option_bind courier_deliver nextRep].
      destruct (IH (m <| repPkts ::= advance e |>) (r1 ++ [(e, p)]) r2 a1 a2) as (m' & -> & Hlr & Hla & Hw); [by split; [apply advance_ok|]|done..|].
      exists m'. split_and!; try done. rewrite Hlr. cbn. unfold advance. by case_decide.
Qed.

(** After a reset a courier that is not disturbed delivers exactly what was not
    acknowledged, the replies before the adds, each in the order it was queued, and
    keeps it queued. *)
Theorem reset_redelivers (s : mailroom) : mail_reachable s ->
  let m := ResetPackets (mr_box s) in
  exists m', drain (length (q_list (repPkts m)) + length (q_list (addPkts m))) m =
      ((snd <$> q_list (repPkts m)) ++ ((fun x => pe_pkt x.2) <$> q_list (addPkts m)), m') /\
    q_list (repPkts m') = q_list (repPkts m) /\ q_list (addPkts m') = q_list (addPkts m) /\ courier_peek m' = None.
Proof.
  intros [[Hqr Hqa] _ _ _]%mail_reachable_ok m. apply (drain_run _ m [] _ [] _); [by split; apply reset_ok|by split..|done].
Qed.

(** *** Failing adds *)
Lemma ack_empty {A} (key : A -> CircuitKey) next (q : queue A) k e : queue_ok key next q -> q_index q !! k = Some e ->
  q_index (ack k e q) !! k = None.
Proof. intros _ _. cbn. apply lookup_delete_eq. Qed.

(** The failure that is sent can be encoded. *)
Lemma encode_failure_ok `{!VarIntLaws} f : failure_ok f -> exists b, encode_failure f = Ok b /\ length b = 260%nat.
Proof.
  intros Hf. destruct (EncodeFailure_ok f [] Hf) as (p & He & Hl & _). exists p. unfold encode_failure. rewrite He. cbn. split; [done|].
  unfold FailureMessageLength in Hl. lia.
Qed.

(** An add is failed at most once: a packet that is not queued any more is not
    failed again.  When it is failed it leaves the mailbox, and if the channel update
    can be sent the switch gets one failure for its incoming HTLC. *)
Theorem fail_add_correct `{!VarIntLaws} (s : mailroom) (pkt : htlcPacket) (f : option htlcPacket) (m' : memoryMailBox Msg) :
  mail_reachable s -> FailAdd fetchUpdate pkt (mr_box s) = (f, m') ->
  (forall u, fetchUpdate (mb_shortChanID (mr_box s)) = Some u -> failure_ok (FailTemporaryChannelFailure (Some u))) ->
  match q_index (repPkts (mr_box s)) !! inKey pkt, q_index (addPkts (mr_box s)) !! inKey pkt with
  | None, None => f = None /\ m' = mr_box s
  | None, Some e =>
      q_list (addPkts m') = remove_el e (q_list (addPkts (mr_box s))) /\ repPkts m' = repPkts (mr_box s) /\
      FailAdd fetchUpdate pkt m' = (None, m') /\
      exists p, f = Some p /\ inKey p = inKey pkt /\ hasSource p = true /\ pk_circuit p = pk_circuit pkt /\
        (localFailure p = true <-> obfuscator pkt = None) /\
        exists r, pk_htlc p = UMFail (mkUpdateFailHTLC zero32 0 r [])
  | Some e, _ => q_list (repPkts m') = remove_el e (q_list (repPkts (mr_box s))) /\ addPkts m' = addPkts (mr_box s)
  end.
Proof.
  intros [[Hqr Hqa] _ _ _]%mail_reachable_ok Hf Hu. pose proof (FailAdd_box pkt (mr_box s)) as Hb. rewrite Hf in Hb. cbn in Hb.
  unfold AckPacket in Hb. destruct (q_index (repPkts (mr_box s)) !! inKey pkt) as [e|] eqn:Hr; [by subst m'|].
  destruct (q_index (addPkts (mr_box s)) !! inKey pkt) as [e|] eqn:Ha.
  - cbn in Hb. subst m'. split_and!; [done|done| |].
    + unfold FailAdd, AckPacket. cbn. rewrite Hr, lookup_delete_eq. done.
    + unfold FailAdd, AckPacket in Hf. rewrite Hr, Ha in Hf. cbn in Hf.
      assert (Hok : failure_ok (addFailure fetchUpdate (mb_shortChanID (mr_box s)))).
      { unfold addFailure. destruct (fetchUpdate _) eqn:Hfu; [by apply Hu|]. split; [done|]. by intros ? [=]. }
      destruct (encode_failure_ok _ Hok) as (b & He & _).
      destruct (obfuscator pkt) as [enc|].
      * unfold EncryptFirstHop in Hf. rewrite He in Hf. cbn in Hf. destruct enc; injection Hf as <-; eexists; (split; [reflexivity|]); split_and!; try done; by eexists.
      * rewrite He in Hf. injection Hf as <-. eexists. split; [reflexivity|]. split_and!; try done. by eexists.
  - unfold FailAdd, AckPacket in Hf. rewrite Hr, Ha in Hf. by injection Hf as <- <-.
Qed.
End Courier.

(** ** Late links *)
Section Late.
Context {Msg : Type}.
Implicit Types (mo : mailOrchestrator Msg).

Definition deliverAll (now : Z) (sid : ShortChannelID) (pkts : list htlcPacket) mo : mailOrchestrator Msg :=
  foldl (fun mo pkt => snd (Deliver now sid pkt mo)) mo pkts.

Inductive orch_op : Type :=
| OCreate (chanID : bytes) (sid : ShortChannelID)
| OBind (now : Z) (cid : bytes) (sid : ShortChannelID)
| ODeliver (now : Z) (sid : ShortChannelID) (pkt : htlcPacket).

(** A link is bound after its mailbox was made ([AddLink], [UpdateShortChanID]). *)
Definition run_orch (op : orch_op) mo : mailOrchestrator Msg :=
  match op with
  | OCreate chanID sid => GetOrCreateMailBox chanID sid mo
  | OBind now cid sid => BindLiveShortChanID now cid sid (GetOrCreateMailBox cid sid mo)
  | ODeliver now sid pkt => snd (Deliver now sid pkt mo)
  end.

Definition orch_reachable mo : Prop := exists expiry, rtc (fun mo mo' => exists op, mo' = run_orch op mo) (newMailOrchestrator expiry) mo.

Record orch_ok mo : Prop := {
  oo_live : forall sid cid, liveIndex mo !! sid = Some cid -> is_Some (mailboxes mo !! cid) /\ unclaimedPackets mo !! sid = None
}.

Lemma addTo_frame now cid pkt mo : liveIndex (snd (addTo now cid pkt mo)) = liveIndex mo /\
  unclaimedPackets (snd (addTo now cid pkt mo)) = unclaimedPackets mo /\
  (forall c, is_Some (mailboxes mo !! c) -> is_Some (mailboxes (snd (addTo now cid pkt mo)) !! c)).
Proof.
  unfold addTo. destruct (mailboxes mo !! cid) as [box|]; [|done]. destruct (AddPacket now pkt box) as [r b]. cbn. split_and!; try done.
  intros c Hc. destruct (decide (c = cid)) as [->|]; [rewrite lookup_insert_eq; by eexists|by rewrite lookup_insert_ne].
Qed.

Lemma addAll_frame now cid pkts : forall mo, let mo' := foldl (fun mo pkt => snd (addTo now cid pkt mo)) mo pkts in
  liveIndex mo' = liveIndex mo /\ unclaimedPackets mo' = unclaimedPackets mo /\
  (forall c, is_Some (mailboxes mo !! c) -> is_Some (mailboxes mo' !! c)).
Proof.
  induction pkts as [|p pkts IH]; intros mo; cbn; [done|]. destruct (IH (snd (addTo now cid p mo))) as (-> & -> & H).
  destruct (addTo_frame now cid p mo) as (-> & -> & H'). split_and!; try done. intros c Hc. by apply H, H'.
Qed.

Lemma create_frame cid sid mo : liveIndex (GetOrCreateMailBox cid sid mo) = liveIndex mo /\
  unclaimedPackets (GetOrCreateMailBox cid sid mo) = unclaimedPackets mo /\
  is_Some (mailboxes (GetOrCreateMailBox cid sid mo) !! cid) /\
  (forall c, is_Some (mailboxes mo !! c) -> is_Some (mailboxes (GetOrCreateMailBox cid sid mo) !! c)).
Proof.
  unfold GetOrCreateMailBox. destruct (mailboxes mo !! cid) as [box|] eqn:Hb; [rewrite Hb; split_and!; try done; by eexists|]. cbn.
  split_and!; try done; [rewrite lookup_insert_eq; by eexists|]. intros c Hc.
  destruct (decide (c = cid)) as [->|]; [rewrite lookup_insert_eq; by eexists|by rewrite lookup_insert_ne].
Qed.

Lemma bind_frame now cid sid mo : let mo' := BindLiveShortChanID now cid sid mo in
  liveIndex mo' = <[sid := cid]> (liveIndex mo) /\ unclaimedPackets mo' = delete sid (unclaimedPackets mo) /\
  (forall c, is_Some (mailboxes mo !! c) -> is_Some (mailboxes mo' !! c)).
Proof.
  unfold BindLiveShortChanID. cbv zeta. match goal with |- context [foldl ?f ?b ?l] => destruct (addAll_frame now cid l b) as (-> & -> & Hm) end.
  by split_and!.
Qed.

Lemma run_orch_ok op mo : orch_ok mo -> orch_ok (run_orch op mo).
Proof.
  intros [Hl]. destruct op as [cid sid|now cid sid|now sid pkt]; cbn [run_orch].
  - destruct (create_frame cid sid mo) as (Hli & Hun & _ & Hm). split. rewrite Hli, Hun. intros s c Hs.
    destruct (Hl s c Hs). split; [by apply Hm|done].
  - destruct (create_frame cid sid mo) as (Hli & Hun & Hc & Hm), (bind_frame now cid sid (GetOrCreateMailBox cid sid mo)) as (Hli' & Hun' & Hm').
    split. rewrite Hli', Hun', Hli, Hun. intros s c.
    destruct (decide (s = sid)) as [->|Hne]; [rewrite lookup_insert_eq, lookup_delete_eq; intros [= <-]; by split; [apply Hm'|]|].
    rewrite lookup_insert_ne, lookup_delete_ne by done. intros Hs. destruct (Hl s c Hs). split; [by apply Hm', Hm|done].
  - unfold Deliver. destruct (liveIndex mo !! sid) as [cid|] eqn:Hs.
    + destruct (create_frame cid sid mo) as (Hli & Hun & _ & Hm), (addTo_frame now cid pkt (GetOrCreateMailBox cid sid mo)) as (Hli' & Hun' & Hm').
      split. rewrite Hli', Hun', Hli, Hun. intros s c Hsc. destruct (Hl s c Hsc). split; [by apply Hm', Hm|done].
    + split. cbn. intros s c Hsc. destruct (Hl s c Hsc). split; [done|]. rewrite lookup_insert_ne; [done|]. congruence.
Qed.

(** Delivering to a short channel id that is not live only queues. *)
Lemma deliverAll_queued now sid pkts : forall mo, liveIndex mo !! sid = None ->
  deliverAll now sid pkts mo = mo <| unclaimedPackets ::= fun u => match pkts with [] => u | _ => <[sid := default [] (u !! sid) ++ pkts]> u end |>.
Proof.
  unfold deliverAll. induction pkts as [|p pkts IH]; intros mo Hs; cbn; [by destruct mo|].
  unfold Deliver at 2. rewrite Hs. rewrite IH by done. cbn. destruct pkts as [|p' pkts]; [done|]. cbn.
  unfold upd. cbn. f_equal. rewrite lookup_insert_eq. cbn. by rewrite insert_insert_eq, <- app_assoc.
Qed.

(** Delivering to a live one adds to its mailbox. *)
Lemma deliverAll_live now sid cid pkts : forall mo, liveIndex mo !! sid = Some cid -> is_Some (mailboxes mo !! cid) ->
  deliverAll now sid pkts mo = foldl (fun mo pkt => snd (addTo now cid pkt mo)) mo pkts.
Proof.
  unfold deliverAll. induction pkts as [|p pkts IH]; intros mo Hs Hc; cbn; [done|].
  assert (Hd : Deliver now sid p mo = addTo now cid p mo).
  { unfold Deliver. rewrite Hs. unfold GetOrCreateMailBox. by destruct Hc as [box ->]. }
  rewrite Hd. destruct (addTo_frame now cid p mo) as (Hli & _ & Hm). apply IH; [by rewrite Hli|by apply Hm].
Qed.

(** A link that registers late loses nothing: delivering packets to its short
    channel id and then binding it leaves the mailboxes as binding it first and then
    delivering the same packets does, and no packet stays behind unclaimed. *)
Theorem late_link_loses_nothing mo (now : Z) (cid : bytes) (sid : ShortChannelID) (pkts : list htlcPacket) :
  orch_reachable mo -> liveIndex mo !! sid = None ->
  let bind := run_orch (OBind now cid sid) in
  bind (deliverAll now sid pkts mo) = deliverAll now sid pkts (bind mo) /\
  forall s c, liveIndex (bind (deliverAll now sid pkts mo)) !! s = Some c ->
    unclaimedPackets (bind (deliverAll now sid pkts mo)) !! s = None.
Proof.
  intros (expiry & Hr) Hs bind. assert (Hok : orch_ok mo).
  { assert (H0 : orch_ok (newMailOrchestrator expiry)) by (split; cbn; intros ??; by rewrite lookup_empty).
    clear Hs. induction Hr as [|mo1 mo2 mo3 [op ->] _ IH]; [done|]. by apply IH, run_orch_ok. }
  split.
  - rewrite deliverAll_queued by done. unfold bind, run_orch.
    destruct (create_frame cid sid mo) as (Hli & Hun & Hc & _).
    assert (Hcr : GetOrCreateMailBox cid sid (mo <| unclaimedPackets ::= fun u => match pkts with [] => u | _ => <[sid := default [] (u !! sid) ++ pkts]> u end |>)
      = GetOrCreateMailBox cid sid mo <| unclaimedPackets ::= fun u => match pkts with [] => u | _ => <[sid := default [] (u !! sid) ++ pkts]> u end |>).
    { unfold GetOrCreateMailBox. cbn. by case_match. }
    rewrite Hcr. set (mo1 := GetOrCreateMailBox cid sid mo) in *. destruct (bind_frame now cid sid mo1) as (Hlb & _ & Hmb).
    rewrite (deliverAll_live now sid cid) by (rewrite ?Hlb, ?lookup_insert_eq; auto). unfold BindLiveShortChanID. cbn.
    destruct pkts as [|p pkts]; [done|]. unfold upd. cbn -[foldl]. rewrite lookup_insert_eq, delete_insert_eq. by rewrite <- foldl_app.
  - intros s c Hsc. assert (Hok' : orch_ok (bind (deliverAll now sid pkts mo))).
    { apply run_orch_ok. unfold deliverAll. clear Hsc Hs. revert mo Hr Hok. induction pkts as [|p pkts IH]; intros mo Hr Hok; [done|].
      cbn. apply (IH (run_orch (ODeliver now sid p) mo)); [eapply rtc_r; [exact Hr|by eexists]|by apply run_orch_ok]. }
    by apply (oo_live _ Hok' s c Hsc).
Qed.
End Late.

(** ** Witnesses *)
#[local] Existing Instance varint8.
#[local] Instance plain_sphinx : SphinxLib := {| EncryptError _ _ b := b |}.

Definition ex_scid (n : Z) : ShortChannelID := mkSCID n 1 0.
Definition ex_packet (n : Z) (m : UpdateMsg) : htlcPacket :=
  mkPacket (ex_scid 1) (ex_scid 2) n 0 None None 1000 990 31 m (Some mockObfuscator) false None false false false None 600 560.
Definition ex_add (n : Z) : htlcPacket := ex_packet n (UMAdd (mkUpdateAddHTLC [] 0 990 31 [] 560 [] [])).
Definition ex_reply (n : Z) : htlcPacket := ex_packet n (UMFail (mkUpdateFailHTLC [] 0 [] [])).

Definition run_mail (evs : list mail_event) (s : mailroom (Msg := bytes)) : mailroom :=
  foldl (fun s ev => default s (mail_step (fun _ => None) ev s)) s evs.

Lemma run_mail_reachable evs : forall s, mail_reachable (fun _ => None) s -> mail_reachable (fun _ => None) (run_mail evs s).
Proof.
  induction evs as [|ev evs IH]; intros s Hs; [done|]. cbn. apply IH. destruct (mail_step _ ev s) as [s'|] eqn:Hev; [|done].
  destruct Hs as (sid & expiry & Hr). exists sid, expiry. eapply rtc_r; [exact Hr|]. by exists ev.
Qed.

(** Two adds and a reply; the first add was delivered, then a reply queued. *)
Definition ex_room : mailroom (Msg := bytes) :=
  run_mail [EvAdd 0 (ex_add 0); EvAdd 0 (ex_add 1); EvPeek; EvDeliver; EvPeek; EvAdd 1 (ex_reply 7)] (new_mailroom (ex_scid 2) 60).

Lemma ex_room_reachable : mail_reachable (fun _ => None) ex_room.
Proof. apply run_mail_reachable. exists (ex_scid 2), 60. apply rtc_refl. Qed.

Lemma courier_correct_witness : StronglySorted Z.lt [0] /\ is_Some (mail_step (fun _ => None) EvDeliver ex_room).
Proof.
  destruct (courier_correct (fun _ => None) ex_room ex_room_reachable) as (_ & _ & _ & H & _ & _ & Hd).
  split; [exact H|]. eapply Hd. vm_compute. reflexivity.
Defined.

Lemma reset_redelivers_witness :
  exists m', drain 3 (ResetPackets (mr_box ex_room)) = ([ex_reply 7; ex_add 0; ex_add 1], m') /\ courier_peek m' = None.
Proof.
  destruct (reset_redelivers (fun _ => None) ex_room ex_room_reachable) as (m' & H & _ & _ & Hw). exists m'. split; [exact H|exact Hw].
Defined.

Lemma fail_add_correct_witness :
  exists p, fst (FailAdd (fun _ => None) (ex_add 1) (mr_box ex_room)) = Some p /\ inKey p = mkCircuitKey (ex_scid 1) 1 /\ hasSource p = true.
Proof.
  destruct (@fail_add_correct bytes varint8 plain_sphinx (fun _ => None) varint8_laws ex_room (ex_add 1)
    (fst (FailAdd (fun _ => None) (ex_add 1) (mr_box ex_room))) (snd (FailAdd (fun _ => None) (ex_add 1) (mr_box ex_room)))
    ex_room_reachable) as (_ & _ & _ & p & Hp & Hk & Hs & _).
  - vm_compute. reflexivity.
  - discriminate.
  - exists p. split; [exact Hp|]. split; [exact Hk|exact Hs].
Defined.

Lemma late_link_loses_nothing_witness :
  let bind := run_orch (Msg := bytes) (OBind 5 [Byte.x01] (ex_scid 2)) in
  let mo := newMailOrchestrator 60 in
  bind (deliverAll 5 (ex_scid 2) [ex_add 0; ex_reply 7] mo) = deliverAll 5 (ex_scid 2) [ex_add 0; ex_reply 7] (bind mo).
Proof.
  apply (late_link_loses_nothing (newMailOrchestrator 60) 5 [Byte.x01] (ex_scid 2) [ex_add 0; ex_reply 7]).
  - exists 60. apply rtc_refl.
  - reflexivity.
Defined.
