(* ===== verification/PayDescs.v ===== *)
(** * Descriptors of forwarded updates ([lnwallet/channel.go],
      [PayDescsFromRemoteLogUpdates])

    What a forwarding package stores, turned back into descriptors with their
    references into the package. *)

From S2P Require Import Prelude Wire Messages Units Tx FwdPkg UpdateLog.

Definition payDesc (chanID : ShortChannelID) (height : Z) (i : Z) (lu : LogUpdate) : option PaymentDescriptor :=
  let ref := mkSettleFailRef chanID height (u16 i) in
  match lu_UpdateMsg lu with
  | UMAdd m =>
      let pd := zero_pd <| pd_RHash := add_PaymentHash m |> <| pd_Timeout := add_Expiry m |> <| pd_AssetID := add_AssetID m |>
        <| pd_EntryType := Add |> <| pd_HtlcIndex := add_ID m |> <| pd_LogIndex := lu_LogIndex lu |>
        <| pd_SourceRef := Some (mkAddRef height (u16 i)) |> in
      Some (SetAmtFromHtlcMsg pd m <| pd_OnionBlob := add_OnionBlob m |>)
  | UMFulfill m =>
      Some (zero_pd <| pd_RPreimage := ful_PaymentPreimage m |> <| pd_ParentIndex := ful_ID m |> <| pd_EntryType := Settle |>
              <| pd_DestRef := Some ref |>)
  | UMFail m =>
      Some (zero_pd <| pd_ParentIndex := fail_ID m |> <| pd_EntryType := Fail |> <| pd_FailReason := fail_Reason m |>
              <| pd_DestRef := Some ref |>)
  | UMMalformed m =>
      Some (zero_pd <| pd_ParentIndex := mal_ID m |> <| pd_EntryType := MalformedFail |> <| pd_FailCode := mal_FailureCode m |>
              <| pd_ShaOnionBlob := mal_ShaOnionBlob m |> <| pd_DestRef := Some ref |>)
  | UMFee _ => None
  end.

Fixpoint payDescsFrom (chanID : ShortChannelID) (height : Z) (i : Z) (us : list LogUpdate) : option (list PaymentDescriptor) :=
  match us with
  | [] => Some []
  | u :: us => pd ← payDesc chanID height i u; pds ← payDescsFrom chanID height (i + 1) us; Some (pd :: pds)
  end.

(** None: a fee update, which is not forwarded. *)
Definition PayDescsFromRemoteLogUpdates (chanID : ShortChannelID) (height : Z) (logUpdates : list LogUpdate) :
    option (list PaymentDescriptor) := payDescsFrom chanID height 0 logUpdates.
