(* ===== verification/Switch.v ===== *)
(** * The switch ([htlcswitch/switch.go], [payment_result.go])

    The switch hands HTLCs from the link they arrive on to the link they leave by,
    and the answers back.  It knows links through the interface [ChannelLink] only;
    the indexes hold pointers to links.  Its operations run under its locks or in
    the one goroutine of the forwarder and are steps here; whether a database
    transaction commits, the clock, and which of several links is drawn are
    arguments. *)

From S2P Require Import Prelude Wire Messages Failures Results Units Tx FwdPkg UpdateLog Circuits Mailbox PayDescs.

(** ** Links as the switch sees them ([htlcswitch/interfaces.go]) *)
Class ChannelLink (L : Type) : Type := {
  ChanID : L -> bytes;
  ShortChanID : L -> ShortChannelID;
  SetShortChanID : ShortChannelID -> L -> L;
  PeerPubKey : L -> bytes;
  EligibleToForward : L -> bool;
  CheckHtlcForward : L -> bytes -> Z -> Z -> Z -> Z -> Z -> res LinkError unit;
  CheckHtlcTransit : L -> bytes -> Z -> Z -> Z -> res LinkError unit;
  handleLocalAddPacket : htlcPacket -> L -> res LinkError unit * L;
  getDustSum : L -> bool -> Z;
  getFeeRate : L -> Z;
  getDustClosure : L -> dustClosure
}.

(** What a link promises: its id and its peer are its own whatever its place in the
    chain, and it never agrees to forward more than what came in. *)
Class ChannelLinkLaws (L : Type) `{ChannelLink L} : Prop := {
  set_short l s : ShortChanID (SetShortChanID s l) = s;
  set_short_id l s : ChanID (SetShortChanID s l) = ChanID l;
  set_short_peer l s : PeerPubKey (SetShortChanID s l) = PeerPubKey l;
  local_add_id p l : ChanID (handleLocalAddPacket p l).2 = ChanID l;
  local_add_short p l : ShortChanID (handleLocalAddPacket p l).2 = ShortChanID l;
  local_add_peer p l : PeerPubKey (handleLocalAddPacket p l).2 = PeerPubKey l;
  forward_bounded l h amtIn amtOut tIn tOut height : CheckHtlcForward l h amtIn amtOut tIn tOut height = Ok tt -> amtOut <= amtIn;
  forward_returns l h amtIn amtOut tIn tOut height : CheckHtlcForward l h amtIn amtOut tIn tOut height <> Panic
}.

(** ** Data *)
Record Config := mkConfig { AllowCircularRoute : bool; RejectHTLC : bool; DustThreshold : Z }.

Record ForwardingEvent := mkForwardingEvent {
  fe_Timestamp : Z; fe_IncomingChanID : ShortChannelID; fe_OutgoingChanID : ShortChannelID; fe_AmtIn : Z; fe_AmtOut : Z
}.

Inductive swerr : Type :=
| ErrLink (e : LinkError) | ErrCircuit (e : circuiterr) | ErrBox (e : mberr) | ErrObfuscate (e : failerr)
| ErrTargetNotFound | ErrWrongUpdateType | ErrDuplicateAdd | ErrLocalAddFailed | errDustThresholdExceeded
| ErrLinkActive | ErrLinkStart | ErrChannelLinkNotFound | ErrRefreshShortChanID | ErrTrivialShortChanID
| ErrTeardownType | ErrAck (e : pkgerr) | ErrDatabaseWrite | ErrResult (e : reserr) | ErrForwardingLog.

#[export] Instance ErrorEncrypter_eq_dec : EqDecision ErrorEncrypter.
Proof. solve_decision. Defined.
#[export] Instance PaymentCircuit_eq_dec : EqDecision PaymentCircuit.
Proof. solve_decision. Defined.

Section Switch.
Context {Msg L : Type} `{ChannelLink L} `{VarIntOps, SphinxLib}.

Record Switch := mkSwitch {
  cfg : Config;
  bestHeight : Z;
  circuits : circuitMap;
  orch : mailOrchestrator Msg;
  sw_heap : gmap Z L;
  sw_next : Z;
  pendingLinkIndex : gmap bytes Z;
  linkIndex : gmap bytes Z;
  forwardingIndex : gmap ShortChannelID Z;
  interfaceIndex : gmap bytes (gmap bytes Z);
  pendingFwdingEvents : list ForwardingEvent;
  pendingSettleFails : list SettleFailRef;
  networkResults : networkResultStore;
  (** The packets on their way to the forwarder, and the goroutines
      [handleLocalResponse] that have not run yet. *)
  htlcPlex : list htlcPacket;
  sw_local : list htlcPacket;
  fwdPkgs : fwdStore
}.

#[export] Instance Switch_eta : Eta Switch := fun s =>
  mkSwitch (cfg s) (bestHeight s) (circuits s) (orch s) (sw_heap s) (sw_next s) (pendingLinkIndex s) (linkIndex s) (forwardingIndex s)
    (interfaceIndex s) (pendingFwdingEvents s) (pendingSettleFails s) (networkResults s) (htlcPlex s) (sw_local s) (fwdPkgs s).

Abbreviation SW := (M Switch swerr).

(** Operations of the parts. *)
Definition on_circuits {A} (f : M circuitMap circuiterr A) : SW A := fun s =>
  match f (circuits s) with
  | (Ok a, m) => (Ok a, s <| circuits := m |>)
  | (Err e, m) => (Err (ErrCircuit e), s <| circuits := m |>)
  | (Panic, m) => (Panic, s <| circuits := m |>)
  end.

Definition on_results {A} (f : M networkResultStore reserr A) : SW A := fun s =>
  match f (networkResults s) with
  | (Ok a, n) => (Ok a, s <| networkResults := n |>)
  | (Err e, n) => (Err (ErrResult e), s <| networkResults := n |>)
  | (Panic, n) => (Panic, s <| networkResults := n |>)
  end.

Definition deliver (now : Z) (sid : ShortChannelID) (pkt : htlcPacket) : SW unit := fun s =>
  match Deliver now sid pkt (orch s) with
  | (Ok a, o) => (Ok a, s <| orch := o |>)
  | (Err e, o) => (Err (ErrBox e), s <| orch := o |>)
  | (Panic, o) => (Panic, s <| orch := o |>)
  end.

(** [link.handleSwitchPacket]: the packet goes to the mailbox attached to the link. *)
Definition handleSwitchPacket (now : Z) (link : L) (pkt : htlcPacket) : SW unit := fun s =>
  match addTo now (ChanID link) pkt (orch s) with
  | (Ok a, o) => (Ok a, s <| orch := o |>)
  | (Err e, o) => (Err (ErrBox e), s <| orch := o |>)
  | (Panic, o) => (Panic, s <| orch := o |>)
  end.

Definition of_link {A} (r : res LinkError A) : res swerr A :=
  match r with Ok a => Ok a | Err e => Err (ErrLink e) | Panic => Panic end.

(** ** Links *)
Definition link_at (p : Z) (s : Switch) : option L := sw_heap s !! p.

Definition getLink (chanID : bytes) (s : Switch) : option Z :=
  match linkIndex s !! chanID with Some p => Some p | None => pendingLinkIndex s !! chanID end.

Definition getLinkByShortID (sid : ShortChannelID) (s : Switch) : option Z := forwardingIndex s !! sid.

Definition HasActiveLink (chanID : bytes) (s : Switch) : bool :=
  match p ← linkIndex s !! chanID; link_at p s with Some link => EligibleToForward link | None => false end.

(** In the order the map is ranged over. *)
Definition getLinks (destination : bytes) (s : Switch) : list Z :=
  match interfaceIndex s !! destination with None => [] | Some links => (map_to_list links).*2 end.

Definition addLiveLink (p : Z) (link : L) (s : Switch) : Switch :=
  s <| linkIndex ::= <[ChanID link := p]> |> <| forwardingIndex ::= <[ShortChanID link := p]> |>
    <| interfaceIndex ::= fun ix => <[PeerPubKey link := <[ChanID link := p]> (default ∅ (ix !! PeerPubKey link))]> ix |>.

Definition attachMailBox (link : L) (s : Switch) : Switch :=
  s <| orch ::= fun o =>
    GetOrCreateMailBox (ChanID link) (ShortChanID link) o
      <| mailboxes ::= alter (fun b => SetDustClosure (getDustClosure link) (SetFeeRate (getFeeRate link) b)) (ChanID link) |> |>.

(** [starts]: [link.Start] succeeds.  A link that fails to start is not in any index. *)
Definition AddLink (now : Z) (starts : bool) (link : L) : SW unit :=
  s ← get;
  _ ← check (bool_decide (is_Some (getLink (ChanID link) s))) ErrLinkActive;
  _ ← modify (attachMailBox link);
  _ ← check (negb starts) ErrLinkStart;
  let p := sw_next s in
  _ ← modify (fun s => s <| sw_heap ::= <[p := link]> |> <| sw_next ::= Z.succ |>);
  if bool_decide (ShortChanID link = Source) then modify (fun s => s <| pendingLinkIndex ::= <[ChanID link := p]> |>)
  else
    _ ← modify (addLiveLink p link);
    modify (fun s => s <| orch ::= BindLiveShortChanID now (ChanID link) (ShortChanID link) |>).

Definition RemoveLink (chanID : bytes) (s : Switch) : Switch :=
  match p ← getLink chanID s; link_at p s with
  | None => s
  | Some link =>
      s <| pendingLinkIndex ::= delete (ChanID link) |> <| linkIndex ::= delete (ChanID link) |>
        <| forwardingIndex ::= delete (ShortChanID link) |>
        <| interfaceIndex ::= fun ix =>
             match ix !! PeerPubKey link with
             | None => ix
             | Some peerIndex =>
                 let peerIndex := delete (ChanID link) peerIndex in
                 if bool_decide (peerIndex = ∅) then delete (PeerPubKey link) ix else <[PeerPubKey link := peerIndex]> ix
             end |>
  end.

(** [fresh]: the short channel id the link reads from disk, if it can. *)
Definition UpdateShortChanID (now : Z) (fresh : option ShortChannelID) (chanID : bytes) : SW unit :=
  s ← get;
  match p ← pendingLinkIndex s !! chanID; link ← link_at p s; Some (p, link) with
  | None => throw ErrChannelLinkNotFound
  | Some (p, link) =>
      match fresh with
      | None => throw ErrRefreshShortChanID
      | Some sid =>
          let link := SetShortChanID sid link in
          _ ← modify (fun s => s <| sw_heap ::= <[p := link]> |>);
          _ ← check (bool_decide (sid = Source)) ErrTrivialShortChanID;
          _ ← modify (fun s => s <| pendingLinkIndex ::= delete chanID |>);
          _ ← modify (addLiveLink p link);
          modify (fun s => s <| orch ::= fun o => BindLiveShortChanID now chanID sid (GetOrCreateMailBox chanID sid o) |>)
      end
  end.

(** ** Dust *)
Definition mailDust (chanID : bytes) : SW (Z * Z) := fun s =>
  match mailboxes (orch s) !! chanID with
  | None => (Panic, s)
  | Some box => match DustPackets box with Ok d => (Ok d, s) | Err e => (Err (ErrBox e), s) | Panic => (Panic, s) end
  end.

Definition evaluateDustThreshold (link : L) (amount assetId : Z) (incoming : bool) : SW bool :=
  s ← get;
  let isDust localCommit := getDustClosure link (getFeeRate link) incoming localCommit (ToSatoshis amount) assetId in
  if negb (isDust true || isDust false) then mret false
  else
    _ ← modify (fun s => s <| orch ::= GetOrCreateMailBox (ChanID link) (ShortChanID link) |>);
    mail ← mailDust (ChanID link);
    let sum remote mailSum := u64 (u64 (getDustSum link remote + mailSum) + (if incoming then 0 else amount)) in
    if isDust true && (DustThreshold (cfg s) <? sum false mail.1) then mret true
    else if isDust false && (DustThreshold (cfg s) <? sum true mail.2) then mret true
    else mret false.

(** ** Failing an add *)
Definition checkCircularForward (incoming outgoing : ShortChannelID) (allowCircular : bool) : res LinkError unit :=
  if negb (bool_decide (incoming = outgoing)) then Ok tt
  else if allowCircular then Ok tt
  else Err (NewDetailedLinkError (FailTemporaryChannelFailure None) OutgoingFailureCircularRoute).

Definition failed (packet : htlcPacket) (failure : LinkError) (reason : bytes) : htlcPacket :=
  mkPacket (incomingChanID packet) (outgoingChanID packet) (incomingHTLCID packet) (outgoingHTLCID packet) (sourceRef packet) None
    (pk_incomingAmount packet) (pk_amount packet) (pk_assetId packet) (UMFail (mkUpdateFailHTLC zero32 0 reason [])) None false
    (Some failure) false false false (pk_circuit packet) (incomingTimeout packet) (outgoingTimeout packet).

(** The failure is returned as an error when all went well. *)
Definition failAddPacket (now : Z) (packet : htlcPacket) (failure : LinkError) : SW unit :=
  match obfuscator packet with
  | None => panic
  | Some e =>
      match EncryptFirstHop e (WireMessage failure) with
      | Ok reason =>
          _ ← deliver now (incomingChanID packet) (failed packet failure reason);
          throw (ErrLink failure)
      | Err e => throw (ErrObfuscate e)
      | Panic => panic
      end
  end.

Definition zero_update : ChannelUpdate :=
  mkChannelUpdate (replicate 64 Byte.x00) zero32 (mkSCID 0 0 0) 0 0 0 0 0 0 0 0 0 [].

(** ** Forwarding an add *)
Definition checkLink (packet : htlcPacket) (htlc : UpdateAddHTLC) (height : Z) (link : L) : res LinkError unit :=
  if negb (EligibleToForward link) then Err (NewDetailedLinkError FailUnknownNextPeer OutgoingFailureLinkNotEligible)
  else CheckHtlcForward link (add_PaymentHash htlc) (pk_incomingAmount packet) (pk_amount packet) (incomingTimeout packet)
         (outgoingTimeout packet) height.

(** The links that take the HTLC, and why the others do not. *)
Fixpoint tryLinks (packet : htlcPacket) (htlc : UpdateAddHTLC) (ps : list Z) (s : Switch) :
    res swerr (list L * gmap ShortChannelID LinkError) :=
  match ps with
  | [] => Ok ([], ∅)
  | p :: ps =>
      match link_at p s with
      | None => Panic
      | Some link =>
          rest ← tryLinks packet htlc ps s;
          match checkLink packet htlc (bestHeight s) link with
          | Ok _ => Ok (link :: rest.1, rest.2)
          | Err e => Ok (rest.1, <[ShortChanID link := e]> rest.2)
          | Panic => Panic
          end
      end
  end.

(** [rand.Intn] of a list that is not empty. *)
Definition draw {A} (pick : nat) (l : list A) : option A := l !! (pick mod length l)%nat.

Definition tooMuchDust : LinkError := NewLinkError (FailTemporaryChannelFailure None).

(** What happens once a link was drawn. *)
Definition forwardTo (now : Z) (packet : htlcPacket) (destination : L) : SW unit :=
  s ← get;
  match p ← getLinkByShortID (incomingChanID packet) s; link_at p s with
  | None => failAddPacket now packet tooMuchDust
  | Some incomingLink =>
      inDust ← evaluateDustThreshold incomingLink (pk_amount packet) (pk_assetId packet) true;
      if inDust : bool then failAddPacket now packet tooMuchDust
      else
        outDust ← evaluateDustThreshold destination (pk_amount packet) (pk_assetId packet) false;
        if outDust : bool then failAddPacket now packet tooMuchDust
        else handleSwitchPacket now destination (packet <| outgoingChanID := ShortChanID destination |>)
  end.

Definition forwardAdd (now : Z) (pick : nat) (packet : htlcPacket) (htlc : UpdateAddHTLC) : SW unit :=
  s ← get;
  if RejectHTLC (cfg s) then
    failAddPacket now packet (NewDetailedLinkError (FailChannelDisabled 0 zero_update) OutgoingFailureForwardsDisabled)
  else match checkCircularForward (incomingChanID packet) (outgoingChanID packet) (AllowCircularRoute (cfg s)) with
  | Err linkErr => failAddPacket now packet linkErr
  | Panic => panic
  | Ok _ =>
      match p ← getLinkByShortID (outgoingChanID packet) s; link_at p s with
      | None => failAddPacket now packet (NewLinkError FailUnknownNextPeer)
      | Some targetLink =>
          tried ← lift (tryLinks packet htlc (getLinks (PeerPubKey targetLink) s) s);
          match draw pick tried.1 with
          | None =>
              failAddPacket now packet (default (NewLinkError FailUnknownNextPeer) (tried.2 !! outgoingChanID packet))
          | Some destination => forwardTo now packet destination
          end
      end
  end.

(** ** Answers *)

(** The packet with its source, and its circuit; none for a settle that is not known
    any more. *)
Definition closeCircuit (pkt : htlcPacket) : SW (option PaymentCircuit * htlcPacket) :=
  if hasSource pkt then circuit ← on_circuits (FailCircuit (inKey pkt)); mret (Some circuit, pkt)
  else fun s =>
    match on_circuits (CloseCircuit (outKey pkt)) s with
    | (Ok circuit, s) =>
        (Ok (Some circuit,
             pkt <| incomingChanID := ck_ChanID (Incoming circuit) |> <| incomingHTLCID := ck_HtlcID (Incoming circuit) |>
                 <| pk_circuit := Some circuit |> <| sourceRef := Some (pc_AddRef circuit) |>), s)
    | (Err (ErrCircuit ErrUnknownCircuit), s) =>
        let s := s <| pendingSettleFails ::= fun l => l ++ option_list (destRef pkt) |> in
        match pk_htlc pkt with
        | UMFulfill _ => (Ok (None, pkt), s)
        | _ => (Err ErrTargetNotFound, s)
        end
    | (Err e, s) => (Err e, s)
    | (Panic, s) => (Panic, s)
    end.

Definition set_reason (packet : htlcPacket) (fail : UpdateFailHTLC) (reason : bytes) : htlcPacket :=
  packet <| pk_htlc := UMFail (mkUpdateFailHTLC (fail_ChanID fail) (fail_ID fail) reason (fail_ExtraData fail)) |>.

(** The reason of a failure on its way back. *)
Definition encryptReason (circuit : PaymentCircuit) (packet : htlcPacket) (fail : UpdateFailHTLC) : htlcPacket :=
  match Encrypter circuit with
  | None => packet
  | Some e =>
      if isResolution packet then
        set_reason packet fail (match EncryptFirstHop e FailPermanentChannelFailure with Ok r => r | _ => [] end)
      else if convertedError packet then set_reason packet fail (EncryptMalformedError e (fail_Reason fail))
      else set_reason packet fail (IntermediateEncrypt e (fail_Reason fail))
  end.

Definition logForward (now : Z) (circuit : PaymentCircuit) (packet : htlcPacket) (s : Switch) : Switch :=
  match Outgoing circuit with
  | None => s
  | Some out =>
      if bool_decide (incomingChanID packet = Source) then s
      else s <| pendingFwdingEvents ::= fun l =>
             l ++ [mkForwardingEvent now (ck_ChanID (Incoming circuit)) (ck_ChanID out) (IncomingAmount circuit) (OutgoingAmount circuit)] |>
  end.

Definition forwardResponse (now : Z) (packet : htlcPacket) : SW unit :=
  closed ← closeCircuit packet;
  match closed with
  | (None, _) => mret tt
  | (Some circuit, packet) =>
      packet ← (match pk_htlc packet with
                | UMFail fail => mret (if hasSource packet then packet else encryptReason circuit packet fail)
                | _ => _ ← modify (logForward now circuit packet); mret packet
                end);
      if bool_decide (incomingChanID packet = Source) then modify (fun s => s <| sw_local ::= fun l => l ++ [packet] |>)
      else deliver now (incomingChanID packet) packet
  end.

Definition handlePacketForward (now : Z) (pick : nat) (packet : htlcPacket) : SW unit :=
  match pk_htlc packet with
  | UMAdd htlc => forwardAdd now pick packet htlc
  | UMFail _ | UMFulfill _ => forwardResponse now packet
  | _ => throw ErrWrongUpdateType
  end.

(** A contract was resolved on chain; [PreImage] is none if it failed. *)
Definition handleResolution (now : Z) (SourceChan : ShortChannelID) (HtlcIndex : Z) (PreImage : option bytes) : SW unit :=
  let m := match PreImage with
           | None => UMFail (mkUpdateFailHTLC zero32 0 [] [])
           | Some p => UMFulfill (mkUpdateFulfillHTLC zero32 0 p [])
           end in
  handlePacketForward now 0
    (mkPacket (mkSCID 0 0 0) SourceChan 0 HtlcIndex None None 0 0 0 m None false None false false true None 0 0).

(** ** Sending our own HTLCs *)
Definition getLocalLink (pkt : htlcPacket) (htlc : UpdateAddHTLC) (s : Switch) : res LinkError (Z * L) :=
  match p ← getLinkByShortID (outgoingChanID pkt) s; link ← link_at p s; Some (p, link) with
  | None => Err (NewLinkError FailUnknownNextPeer)
  | Some (p, link) =>
      if negb (EligibleToForward link) then
        Err (NewDetailedLinkError (FailTemporaryChannelFailure None) OutgoingFailureLinkNotEligible)
      else
        _ ← CheckHtlcTransit link (add_PaymentHash htlc) (add_Amount htlc) (add_Expiry htlc) (bestHeight s);
        Ok (p, link)
  end.

Definition localPacket (firstHop : ShortChannelID) (attemptID : Z) (htlc : UpdateAddHTLC) : htlcPacket :=
  mkPacket Source firstHop attemptID 0 None None 0 0 0 (UMAdd htlc) None false None false false false None 0 0.

(** [CommitCircuits] of the circuit map, which answers with its actions on an error
    too. *)
Definition commitCircuits (commits : bool) (cs : list PaymentCircuit) : SW (CircuitFwdActions * option circuiterr) := fun s =>
  let '(acts, err, m) := CommitCircuits commits cs (circuits s) in (Ok (acts, err), s <| circuits := m |>).

Definition SendHTLC (commits : bool) (firstHop : ShortChannelID) (attemptID : Z) (htlc : UpdateAddHTLC) : SW unit :=
  s ← get;
  let packet := localPacket firstHop attemptID htlc in
  pl ← lift (of_link (getLocalLink packet htlc s));
  tooMuch ← evaluateDustThreshold pl.2 (u64 (add_Amount htlc)) (add_AssetID htlc) false;
  _ ← check tooMuch errDustThresholdExceeded;
  let circuit := newPaymentCircuit (add_PaymentHash htlc) packet in
  committed ← commitCircuits commits [circuit];
  match committed with
  | (_, Some err) => throw (ErrCircuit err)
  | (acts, None) =>
      _ ← check (bool_decide (length (Drops acts) = 1%nat)) ErrDuplicateAdd;
      _ ← check (bool_decide (length (Fails acts) = 1%nat)) ErrLocalAddFailed;
      let '(r, link) := handleLocalAddPacket (packet <| pk_circuit := Some circuit |>) pl.2 in
      _ ← modify (fun s => s <| sw_heap ::= <[pl.1 := link]> |>);
      lift (of_link r)
  end.

(** ** Answers to our own HTLCs *)
Definition ackSettleFail (commits : bool) (refs : list SettleFailRef) : SW unit := fun s =>
  match ackSettleFails refs (fwdPkgs s) with
  | Ok db => if commits then (Ok tt, s <| fwdPkgs := db |>) else (Err ErrDatabaseWrite, s)
  | Err e => (Err (ErrAck e), s)
  | Panic => (Panic, s)
  end.

Definition teardownCircuit (commits : bool) (pkt : htlcPacket) : SW unit :=
  match pk_htlc pkt, pk_circuit pkt with
  | (UMFulfill _ | UMFail _), Some _ => on_circuits (DeleteCircuits commits [inKey pkt])
  | (UMFulfill _ | UMFail _), None => panic
  | _, _ => throw ErrTeardownType
  end.

(** Only a resolution has a failure without a reason. *)
Definition nilReason (pkt : htlcPacket) : bool :=
  match pk_htlc pkt with UMFail fail => isResolution pkt && bool_decide (fail_Reason fail = []) | _ => false end.

(** The goroutine; [stores], [acks] and [deletes] say which of its writes commit. *)
Definition handleLocalResponse (stores acks deletes : bool) (pkt : htlcPacket) : SW unit :=
  let n := mkNetworkResult (pk_htlc pkt) (localFailure pkt || convertedError pkt) (isResolution pkt) (nilReason pkt) in
  _ ← on_results (storeResult stores (incomingHTLCID pkt) n);
  _ ← (match destRef pkt with Some ref => ackSettleFail acks [ref] | None => mret tt end);
  teardownCircuit deletes pkt.

(** One of the goroutines runs. *)
Definition runLocal (stores acks deletes : bool) (i : nat) : SW unit :=
  s ← get;
  match sw_local s !! i with
  | None => mret tt
  | Some pkt => _ ← modify (fun s => s <| sw_local ::= delete i |>); handleLocalResponse stores acks deletes pkt
  end.

(** The result if it is there already, else the channel it will come on. *)
Definition GetPaymentResult (attemptID : Z) : SW (networkResult + nat) :=
  s ← get;
  match LookupCircuit (mkCircuitKey Source attemptID) (circuits s) with
  | None => n ← on_results (getResult attemptID); mret (inl n)
  | Some _ => c ← on_results (subscribeResult attemptID); mret (inr c)
  end.

Definition IsForwardedHTLC (chanID : ShortChannelID) (htlcIndex : Z) (s : Switch) : bool :=
  match LookupOpenCircuit (mkCircuitKey chanID htlcIndex) (circuits s) with
  | None => false
  | Some circuit => negb (bool_decide (ck_ChanID (Incoming circuit) = Source))
  end.

(** ** Forwarding a batch *)
Definition routeAsync (packet : htlcPacket) (s : Switch) : Switch := s <| htlcPlex ::= fun l => l ++ [packet] |>.

(** The forwarder takes a packet; its error is logged. *)
Definition forwardNext (now : Z) (pick : nat) : SW unit :=
  s ← get;
  match htlcPlex s with
  | [] => mret tt
  | packet :: rest => _ ← modify (fun s => s <| htlcPlex := rest |>); handlePacketForward now pick packet
  end.

(** The first pass: the adds with their circuits, and the other packets. *)
Fixpoint firstPass (packets : list htlcPacket) : list htlcPacket * list htlcPacket :=
  match packets with
  | [] => ([], [])
  | packet :: packets =>
      let '(addBatch, others) := firstPass packets in
      match pk_htlc packet with
      | UMAdd htlc => ((packet <| pk_circuit := Some (newPaymentCircuit (add_PaymentHash htlc) packet) |>) :: addBatch, others)
      | _ => (addBatch, packet :: others)
      end
  end.

(** Circuits are compared by their pointers, which a batch of different HTLCs does
    by their values. *)
Definition at_front (packet : htlcPacket) (cs : list PaymentCircuit) : bool :=
  match pk_circuit packet, cs with Some c, c' :: _ => bool_decide (c = c') | _, _ => false end.

(** The seek through the heads of the actions: the packets added, and those failed. *)
Fixpoint splitPackets (addBatch : list htlcPacket) (acts : CircuitFwdActions) : list htlcPacket * list htlcPacket :=
  match addBatch with
  | [] => ([], [])
  | packet :: addBatch =>
      if at_front packet (Adds acts) then
        let '(added, failed) := splitPackets addBatch (mkActions (tail (Adds acts)) (Drops acts) (Fails acts)) in
        (packet :: added, failed)
      else if at_front packet (Drops acts) then splitPackets addBatch (mkActions (Adds acts) (tail (Drops acts)) (Fails acts))
      else if at_front packet (Fails acts) then
        let '(added, failed) := splitPackets addBatch (mkActions (Adds acts) (Drops acts) (tail (Fails acts))) in
        (added, packet :: failed)
      else splitPackets addBatch acts
  end.

(** An error that is not looked at. *)
Definition ignore {A} (m : SW A) : SW unit := fun s =>
  match m s with (Panic, s) => (Panic, s) | (_, s) => (Ok tt, s) end.

Fixpoint failAll (now : Z) (failure : LinkError) (packets : list htlcPacket) : SW unit :=
  match packets with
  | [] => mret tt
  | packet :: packets => _ ← ignore (failAddPacket now packet failure); failAll now failure packets
  end.

Definition routeAll (packets : list htlcPacket) : SW unit := modify (fun s => foldl (fun s p => routeAsync p s) s packets).

Section ForwardPackets.
Context (fetchUpdate : ShortChannelID -> option ChannelUpdate).

(** An error of committing is logged; its actions count. *)
Definition ForwardPackets (commits : bool) (now : Z) (packets : list htlcPacket) : SW unit :=
  let '(addBatch, others) := firstPass packets in
  _ ← routeAll others;
  match omap pk_circuit addBatch with
  | [] => mret tt
  | cs =>
      committed ← commitCircuits commits cs;
      let '(addedPackets, failedPackets) := splitPackets addBatch committed.1 in
      _ ← routeAll addedPackets;
      match failedPackets with
      | [] => mret tt
      | packet :: _ =>
          let linkError := NewDetailedLinkError (addFailure fetchUpdate (incomingChanID packet)) OutgoingFailureIncompleteForward in
          failAll now linkError failedPackets
      end
  end.

(** *** After a restart *)

(** A packet from an update of the remote party that resolves one of our HTLCs. *)
Definition responsePacket (source : ShortChannelID) (pd : PaymentDescriptor) (htlc : UpdateMsg) (converted : bool) : htlcPacket :=
  mkPacket (mkSCID 0 0 0) source 0 (pd_ParentIndex pd) None (pd_DestRef pd) 0 0 0 htlc None false None converted false false None 0 0.

Definition reforwardOne (source : ShortChannelID) (pd : PaymentDescriptor) : option htlcPacket :=
  match pd_EntryType pd with
  | Settle => Some (responsePacket source pd (UMFulfill (mkUpdateFulfillHTLC zero32 0 (pd_RPreimage pd) [])) false)
  | Fail => Some (responsePacket source pd (UMFail (mkUpdateFailHTLC zero32 0 (pd_FailReason pd) [])) false)
  | _ => None
  end.

(** The descriptors whose index the filter does not contain. *)
Fixpoint unacked {E} (filter : PkgFilter) (i : Z) (pds : list PaymentDescriptor) : res E (list PaymentDescriptor) :=
  match pds with
  | [] => Ok []
  | pd :: pds =>
      acked ← PkgFilter_Contains filter (u16 i);
      rest ← unacked filter (i + 1) pds;
      Ok (if acked : bool then rest else pd :: rest)
  end.

Fixpoint reforwardSettleFails (now : Z) (pkgs : list FwdPkg) : SW unit :=
  match pkgs with
  | [] => mret tt
  | fwdPkg :: pkgs =>
      _ ← (match PayDescsFromRemoteLogUpdates (pkg_Source fwdPkg) (pkg_Height fwdPkg) (pkg_SettleFails fwdPkg) with
           | None => mret tt
           | Some settleFails =>
               pds ← lift (unacked (pkg_SettleFailFilter fwdPkg) 0 settleFails);
               ForwardPackets true now (omap (reforwardOne (pkg_Source fwdPkg)) pds)
           end);
      reforwardSettleFails now pkgs
  end.

(** The channels as the database has them, with whether they are pending. *)
Fixpoint reforwardResponses (now : Z) (openChannels : list (ShortChannelID * bool)) : SW unit :=
  match openChannels with
  | [] => mret tt
  | (shortChanID, isPending) :: openChannels =>
      _ ← (if bool_decide (shortChanID = Source) || isPending then mret tt
           else
             s ← get;
             match loadChannelFwdPkgs (fwdPkgs s) shortChanID with
             | Ok pkgs => reforwardSettleFails now pkgs
             | Err e => throw (ErrAck e)
             | Panic => panic
             end);
      reforwardResponses now openChannels
  end.
End ForwardPackets.

(** ** Tickers of the forwarder *)
Definition newBlock (height : Z) (s : Switch) : Switch := s <| bestHeight := u32 height |>.

Definition ackPendingSettleFails (commits : bool) (s : Switch) : Switch :=
  match pendingSettleFails s with
  | [] => s
  | refs => match ackSettleFail commits refs s with (Ok _, s) => s <| pendingSettleFails := [] |> | (_, s) => s end
  end.

(** The events that are written to the log. *)
Definition FlushForwardingEvents (commits : bool) : SW (list ForwardingEvent) :=
  s ← get;
  match pendingFwdingEvents s with
  | [] => mret []
  | events =>
      _ ← modify (fun s => s <| pendingFwdingEvents := [] |>);
      _ ← check (negb commits) ErrForwardingLog;
      mret events
  end.

Definition stopLinks (s : Switch) : Switch :=
  let s := foldl (fun s id => RemoveLink id s) s (map_to_list (linkIndex s)).*1 in
  foldl (fun s id => RemoveLink id s) s (map_to_list (pendingLinkIndex s)).*1.
End Switch.
Arguments Switch Msg L : clear implicits.
