(* ===== verification/SwitchTheorems.v ===== *)
(** * What the switch keeps

    The indexes of links agree in every state the switch reaches; an HTLC is
    forwarded over a link of the next peer that agrees to it, or failed for a reason
    the sender can act on; an answer passes once; a batch is split as the circuit map
    decided. *)

From stdpp Require Import relations.
From S2P Require Import Prelude Wire Messages Failures Results Units Tx FwdPkg UpdateLog Circuits CircuitOps CircuitRestart CircuitTheorems Mailbox PayDescs Switch.

Section SwitchTheorems.
Context {Msg L : Type} `{ChannelLinkLaws L} `{VarIntOps, SphinxLib}.
Implicit Types (s : Switch Msg L) (l : L).

(** ** Operations that leave the links alone *)

(** The links and their indexes stay; mailboxes are not lost and keep their dust
    closure. *)
Record steady s s' : Prop := {
  st_cfg : cfg s' = cfg s;
  st_heap : sw_heap s' = sw_heap s;
  st_next : sw_next s' = sw_next s;
  st_pending : pendingLinkIndex s' = pendingLinkIndex s;
  st_links : linkIndex s' = linkIndex s;
  st_forwarding : forwardingIndex s' = forwardingIndex s;
  st_interface : interfaceIndex s' = interfaceIndex s;
  st_live : liveIndex (orch s') = liveIndex (orch s);
  st_boxes : forall id box, mailboxes (orch s) !! id = Some box ->
    exists box', mailboxes (orch s') !! id = Some box' /\ isDust box' = isDust box
}.

#[local] Instance steady_preorder : PreOrder steady.
Proof.
  split.
  - intros s. split; try done. intros id box Hb. by exists box.
  - intros s1 s2 s3 H12 H23. destruct H12, H23. split; try congruence.
    intros id box (box' & Hb & Hd)%st_boxes0. apply st_boxes1 in Hb as (box2 & Hb2 & Hd2). exists box2. split; [done|congruence].
Qed.

Lemma add_packet_dust now pkt (box : memoryMailBox Msg) : isDust (snd (AddPacket now pkt box)) = isDust box.
Proof.
  unfold AddPacket, mbind, M_bind, get, check, modify, throw.
  destruct (pk_htlc pkt); try done; case_bool_decide; done.
Qed.

(** Mailboxes grow and keep their dust closures. *)
Definition boxes_keep (o o' : mailOrchestrator Msg) : Prop :=
  liveIndex o' = liveIndex o /\
  forall id box, mailboxes o !! id = Some box -> exists box', mailboxes o' !! id = Some box' /\ isDust box' = isDust box.

Lemma steady_orch s o : boxes_keep (orch s) o -> steady s (s <| orch := o |>).
Proof. intros [Hl Hb]. by split. Qed.

Lemma addTo_keeps now cid pkt o : boxes_keep o (snd (addTo now cid pkt o)).
Proof.
  unfold addTo. destruct (mailboxes o !! cid) as [b|] eqn:Hb; [|split; [done|]; intros id box Hx; by exists box].
  destruct (AddPacket now pkt b) as [r b'] eqn:Ha. split; [done|]. intros id box Hx. cbn. destruct (decide (id = cid)) as [->|Hne].
  - exists b'. rewrite lookup_insert_eq. split; [done|]. pose proof (add_packet_dust now pkt b) as Hd. rewrite Ha in Hd. cbn in Hd. congruence.
  - exists box. by rewrite lookup_insert_ne.
Qed.

Lemma create_keeps cid sid o : boxes_keep o (GetOrCreateMailBox cid sid o).
Proof.
  unfold GetOrCreateMailBox. destruct (mailboxes o !! cid) eqn:Hc; (split; [done|]); intros id box Hx; exists box; [done|].
  cbn. split; [|done]. rewrite lookup_insert_ne; [done|]. by intros ->; congruence.
Qed.

#[local] Instance boxes_keep_preorder : PreOrder boxes_keep.
Proof.
  split.
  - intros o. split; [done|]. intros id box Hb. by exists box.
  - intros o1 o2 o3 [Hl1 Hb1] [Hl2 Hb2]. split; [congruence|].
    intros id box (box' & Hb & Hd)%Hb1. apply Hb2 in Hb as (box2 & Hb2' & Hd2). exists box2. split; [done|congruence].
Qed.

Lemma Deliver_keeps now sid pkt o : boxes_keep o (snd (Deliver now sid pkt o)).
Proof.
  unfold Deliver. destruct (liveIndex o !! sid) as [cid|].
  - etrans; [apply (create_keeps cid sid)|apply addTo_keeps].
  - split; [done|]. intros id box Hb. by exists box.
Qed.

Lemma deliver_steady now sid pkt : frames steady (deliver now sid pkt : M (Switch Msg L) swerr unit).
Proof.
  intros s. unfold deliver. pose proof (Deliver_keeps now sid pkt (orch s)) as Hk.
  destruct (Deliver now sid pkt (orch s)) as [[] o]; by apply steady_orch.
Qed.

Lemma handleSwitchPacket_steady now l pkt : frames steady (handleSwitchPacket now l pkt : M (Switch Msg L) swerr unit).
Proof.
  intros s. unfold handleSwitchPacket. pose proof (addTo_keeps now (ChanID l) pkt (orch s)) as Hk.
  destruct (addTo now (ChanID l) pkt (orch s)) as [[] o]; by apply steady_orch.
Qed.

Lemma on_circuits_steady {A} (f : M circuitMap circuiterr A) : frames steady (on_circuits f : M (Switch Msg L) swerr A).
Proof. intros s. unfold on_circuits. destruct (f (circuits s)) as [[] m]; split; try done; intros id box Hb; by exists box. Qed.

Lemma on_results_steady {A} (f : M networkResultStore reserr A) : frames steady (on_results f : M (Switch Msg L) swerr A).
Proof. intros s. unfold on_results. destruct (f (networkResults s)) as [[] m]; split; try done; intros id box Hb; by exists box. Qed.

Lemma get_steady {E} : frames steady (get : M (Switch Msg L) E _).
Proof. intros s. reflexivity. Qed.

Lemma mailDust_steady id : frames steady (mailDust id : M (Switch Msg L) swerr _).
Proof. intros s. unfold mailDust. destruct (mailboxes (orch s) !! id); [destruct (DustPackets _)|]; reflexivity. Qed.

#[local] Hint Resolve deliver_steady handleSwitchPacket_steady on_circuits_steady on_results_steady get_steady mailDust_steady : frames.

Lemma dust_steady l amount assetId incoming : frames steady (evaluateDustThreshold l amount assetId incoming : M (Switch Msg L) swerr bool).
Proof.
  unfold evaluateDustThreshold. frames. apply frames_modify. intros s. apply steady_orch, create_keeps.
Qed.
#[local] Hint Resolve dust_steady : frames.

Lemma failAdd_steady now packet failure : frames steady (failAddPacket now packet failure : M (Switch Msg L) swerr unit).
Proof. unfold failAddPacket. frames. Qed.
#[local] Hint Resolve failAdd_steady : frames.

Lemma forwardAdd_steady now pick packet htlc : frames steady (forwardAdd now pick packet htlc : M (Switch Msg L) swerr unit).
Proof. unfold forwardAdd, forwardTo. frames. Qed.

Lemma steady_other s s' : cfg s' = cfg s -> sw_heap s' = sw_heap s -> sw_next s' = sw_next s -> pendingLinkIndex s' = pendingLinkIndex s ->
  linkIndex s' = linkIndex s -> forwardingIndex s' = forwardingIndex s -> interfaceIndex s' = interfaceIndex s -> orch s' = orch s -> steady s s'.
Proof. intros. split; try done; [congruence|]. intros id box Hb. exists box. split; [congruence|done]. Qed.

Ltac steady_other := apply frames_modify; intros ?; by apply steady_other.

Lemma closeCircuit_steady pkt : frames steady (closeCircuit pkt : M (Switch Msg L) swerr _).
Proof.
  unfold closeCircuit. destruct (hasSource pkt); [frames|]. intros s. pose proof (on_circuits_steady (CloseCircuit (outKey pkt)) s) as Hk.
  destruct (on_circuits (CloseCircuit (outKey pkt)) s) as [[c|e|] s']; cbn in *; [done| |done].
  destruct e as [?|[]|?|?| | | | | | | | | | | |?| |?|]; try done.
  destruct (pk_htlc pkt); cbn; (etrans; [exact Hk|by apply steady_other]).
Qed.
#[local] Hint Resolve forwardAdd_steady closeCircuit_steady : frames.

Lemma logForward_steady now c p s : steady s (logForward now c p s).
Proof. unfold logForward. destruct (Outgoing c); [|done]. case_bool_decide; [done|]. by apply steady_other. Qed.

Lemma handle_steady now pick packet : frames steady (handlePacketForward now pick packet : M (Switch Msg L) swerr unit).
Proof.
  unfold handlePacketForward, forwardResponse. frames; try steady_other.
  all: apply frames_modify; intros s; apply logForward_steady.
Qed.
#[local] Hint Resolve handle_steady : frames.

Lemma ack_steady commits refs : frames steady (ackSettleFail commits refs : M (Switch Msg L) swerr unit).
Proof. intros s. unfold ackSettleFail. destruct (ackSettleFails refs (fwdPkgs s)); [destruct commits|..]; by try apply steady_other. Qed.
#[local] Hint Resolve ack_steady : frames.

Lemma local_steady a b c i : frames steady (runLocal a b c i : M (Switch Msg L) swerr unit).
Proof. unfold runLocal, handleLocalResponse, teardownCircuit. frames. steady_other. Qed.

Lemma commit_steady commits cs : frames steady (commitCircuits commits cs : M (Switch Msg L) swerr _).
Proof. intros s. unfold commitCircuits. destruct (CommitCircuits commits cs (circuits s)) as [[acts err] m]. by apply steady_other. Qed.

Lemma route_steady ps s : steady s (foldl (fun s p => routeAsync p s) s ps).
Proof. revert s. induction ps as [|p ps IH]; intros s; [done|]. cbn. etrans; [|apply IH]. by apply steady_other. Qed.

Lemma routeAll_steady ps : frames steady (routeAll ps : M (Switch Msg L) swerr unit).
Proof. apply frames_modify. intros s. apply route_steady. Qed.

Lemma ignore_steady {A} (m : M (Switch Msg L) swerr A) : frames steady m -> frames steady (ignore m).
Proof. intros Hm s. unfold ignore. pose proof (Hm s) as Hk. by destruct (m s) as [[] s']. Qed.

Lemma failAll_steady now failure ps : frames steady (failAll now failure ps : M (Switch Msg L) swerr unit).
Proof. induction ps; cbn [failAll]; frames. by apply ignore_steady, failAdd_steady. Qed.
#[local] Hint Resolve local_steady commit_steady routeAll_steady failAll_steady : frames.

Lemma batch_steady fetch commits now ps : frames steady (ForwardPackets fetch commits now ps : M (Switch Msg L) swerr unit).
Proof. unfold ForwardPackets. frames. Qed.
#[local] Hint Resolve batch_steady : frames.

Lemma reforward_steady fetch now pkgs : frames steady (reforwardSettleFails fetch now pkgs : M (Switch Msg L) swerr unit).
Proof. induction pkgs; cbn [reforwardSettleFails]; frames. Qed.
#[local] Hint Resolve reforward_steady : frames.

Lemma responses_steady fetch now chs : frames steady (reforwardResponses fetch now chs : M (Switch Msg L) swerr unit).
Proof. induction chs as [|[sid pend] chs IH]; cbn [reforwardResponses]; frames. Qed.

Lemma next_steady now pick : frames steady (forwardNext now pick : M (Switch Msg L) swerr unit).
Proof. unfold forwardNext. frames. steady_other. Qed.

Lemma flush_steady commits : frames steady (FlushForwardingEvents commits : M (Switch Msg L) swerr _).
Proof. unfold FlushForwardingEvents. frames. steady_other. Qed.

Lemma resolution_steady now sid i p : frames steady (handleResolution now sid i p : M (Switch Msg L) swerr unit).
Proof. apply handle_steady. Qed.

Lemma ackPending_steady commits s : steady s (ackPendingSettleFails commits s).
Proof.
  unfold ackPendingSettleFails. destruct (pendingSettleFails s) as [|r rs]; [done|]. pose proof (ack_steady commits (r :: rs) s) as Hk.
  destruct (ackSettleFail commits (r :: rs) s) as [[] s']; cbn in *; [|done..]. etrans; [exact Hk|by apply steady_other].
Qed.

(** ** The indexes of links *)
Definition live s (p : Z) l : Prop := link_at p s = Some l /\ linkIndex s !! ChanID l = Some p.

Record links_ok s : Prop := {
  lo_next : forall p l, sw_heap s !! p = Some l -> p < sw_next s;
  lo_live : forall id p, linkIndex s !! id = Some p -> exists l, link_at p s = Some l /\ ChanID l = id /\ ShortChanID l <> Source /\
    forwardingIndex s !! ShortChanID l = Some p /\ interfaceIndex s !! PeerPubKey l ≫= (.!! id) = Some p /\
    liveIndex (orch s) !! ShortChanID l = Some id;
  lo_pending : forall id p, pendingLinkIndex s !! id = Some p ->
    exists l, link_at p s = Some l /\ ChanID l = id /\ ShortChanID l = Source /\ linkIndex s !! id = None;
  lo_forwarding : forall sid p, forwardingIndex s !! sid = Some p -> exists l, live s p l /\ ShortChanID l = sid;
  lo_interface : forall peer links id p, interfaceIndex s !! peer = Some links -> links !! id = Some p ->
    exists l, live s p l /\ PeerPubKey l = peer /\ ChanID l = id;
  lo_boxes : forall id, is_Some (getLink id s) -> exists box, mailboxes (orch s) !! id = Some box /\ is_Some (isDust box)
}.

Lemma links_steady s s' : links_ok s -> steady s s' -> links_ok s'.
Proof.
  intros [X1 X2 X3 X4 X5 X6] [Hc Hh Hn Hp Hl Hf Hi Hv Hb].
  assert (Hg : forall id, getLink id s' = getLink id s) by (intros; unfold getLink; by rewrite Hl, Hp).
  split; unfold live, link_at in *; rewrite ?Hh, ?Hn, ?Hp, ?Hl, ?Hf, ?Hi, ?Hv; try done.
  intros id. rewrite Hg. intros (box & Hx & [d Hd])%X6. apply Hb in Hx as (box' & Hx & Hd'). exists box'. split; [done|]. exists d. congruence.
Qed.

Lemma live_forwarding s p l : links_ok s -> live s p l -> forwardingIndex s !! ShortChanID l = Some p.
Proof. intros Hok [Ha Hl]. apply (lo_live s Hok) in Hl as (l' & Ha' & _ & _ & Hf & _). congruence. Qed.

Lemma live_by_short s p p' l l' : links_ok s -> live s p l -> live s p' l' -> ShortChanID l = ShortChanID l' -> p = p' /\ l = l'.
Proof.
  intros Hok Hl Hl' Heq. pose proof (live_forwarding s p l Hok Hl) as E1. pose proof (live_forwarding s p' l' Hok Hl') as E2.
  assert (p = p') as <- by congruence. split; [done|]. destruct Hl, Hl'. congruence.
Qed.

Lemma live_short s p l : links_ok s -> live s p l -> ShortChanID l <> Source.
Proof. intros Hok [Ha Hl]. apply (lo_live s Hok) in Hl as (l' & Ha' & _ & Hs & _). congruence. Qed.

(** Binding keeps the mailboxes and makes the channel live. *)
Lemma addAll_keeps now cid pkts : forall o, boxes_keep o (foldl (fun o pkt => snd (addTo now cid pkt o)) o pkts).
Proof. induction pkts as [|p pkts IH]; intros o; [done|]. cbn. etrans; [apply addTo_keeps|apply IH]. Qed.

Lemma bind_keeps now cid sid (o : mailOrchestrator Msg) :
  liveIndex (BindLiveShortChanID now cid sid o) = <[sid := cid]> (liveIndex o) /\
  forall id box, mailboxes o !! id = Some box -> exists box', mailboxes (BindLiveShortChanID now cid sid o) !! id = Some box' /\ isDust box' = isDust box.
Proof.
  unfold BindLiveShortChanID. destruct (addAll_keeps now cid (default [] (unclaimedPackets o !! sid))
    (o <| liveIndex ::= <[sid := cid]> |> <| unclaimedPackets ::= delete sid |>)) as [Hl Hb].
  split; [exact Hl|]. intros id box Hx. by apply Hb.
Qed.

(** A link goes live. *)
Definition goLive (now : Z) (p : Z) l s : Switch Msg L :=
  addLiveLink p l s <| orch ::= BindLiveShortChanID now (ChanID l) (ShortChanID l) |>.

Lemma goLive_ok now p l s : links_ok s -> link_at p s = Some l -> linkIndex s !! ChanID l = None -> pendingLinkIndex s !! ChanID l = None ->
  ShortChanID l <> Source -> (forall id, liveIndex (orch s) !! ShortChanID l = Some id -> id = ChanID l) ->
  (exists box, mailboxes (orch s) !! ChanID l = Some box /\ is_Some (isDust box)) -> links_ok (goLive now p l s).
Proof.
  intros Hok Ha Hli Hpe Hs Hlive Hbox. destruct (bind_keeps now (ChanID l) (ShortChanID l) (orch s)) as [Eb Hb].
  assert (Hfwd : forwardingIndex s !! ShortChanID l = None).
  { destruct (forwardingIndex s !! ShortChanID l) as [q|] eqn:Hq; [|done]. apply (lo_forwarding s Hok) in Hq as (l' & [Ha' Hl'] & Hsid).
    apply (lo_live s Hok) in Hl' as Hl2. destruct Hl2 as (l2 & Ha2 & _ & _ & _ & _ & Hlv). assert (l2 = l') as -> by congruence.
    rewrite Hsid in Hlv. apply Hlive in Hlv. rewrite Hlv in Hl'. congruence. }
  assert (Hkeep : forall q l', live s q l' -> live (goLive now p l s) q l').
  { intros q l' [Ha' Hl']. split; [done|]. cbn. rewrite lookup_insert_ne; [done|]. intros Heq. rewrite <- Heq in Hl'. congruence. }
  assert (Hnew : live (goLive now p l s) p l) by (split; [done|]; cbn; apply lookup_insert_eq).
  split.
  - apply (lo_next s Hok).
  - intros id q. cbn. rewrite Eb. intros [[<- <-]|[Hne Hq]]%lookup_insert_Some.
    + exists l. rewrite !lookup_insert_eq. cbn. by rewrite lookup_insert_eq.
    + apply (lo_live s Hok) in Hq as (l' & Ha' & Hid & Hs' & Hf' & Hi' & Hv'). exists l'.
      assert (Hsne : ShortChanID l <> ShortChanID l') by (intros Heq; rewrite <- Heq in Hf'; congruence).
      rewrite !(lookup_insert_ne _ _ _ _ Hsne). split_and!; try done.
      destruct (decide (PeerPubKey l' = PeerPubKey l)) as [Heq|Hpne].
      * rewrite Heq in Hi' |- *. rewrite lookup_insert_eq. cbn. rewrite lookup_insert_ne by congruence.
        destruct (interfaceIndex s !! PeerPubKey l); done.
      * by rewrite lookup_insert_ne.
  - intros id q Hq. apply (lo_pending s Hok) in Hq as Hq2. destruct Hq2 as (l' & Ha' & Hid & Hs' & Hn). exists l'. split_and!; try done.
    cbn. rewrite lookup_insert_ne; [done|]. intros Heq. cbn in Hq. rewrite Heq in Hpe. congruence.
  - intros sid q. cbn. intros [[<- <-]|[Hne Hq]]%lookup_insert_Some; [by exists l|].
    apply (lo_forwarding s Hok) in Hq as (l' & Hl' & Hsid). exists l'. auto.
  - intros peer links id q. cbn. intros [[<- <-]|[Hne Hq]]%lookup_insert_Some.
    + intros [[<- <-]|[Hne Hq]]%lookup_insert_Some; [by exists l|].
      destruct (interfaceIndex s !! PeerPubKey l) as [links|] eqn:Hx; [|cbn in Hq; by rewrite lookup_empty in Hq].
      apply (lo_interface s Hok _ _ _ _ Hx) in Hq as (l' & Hl' & Hpid). exists l'. auto.
    + intros Hid. apply (lo_interface s Hok _ _ _ _ Hq) in Hid as (l' & Hl' & Hpid). exists l'. auto.
  - intros id Hg. cbn. destruct (decide (id = ChanID l)) as [->|Hne].
    + destruct Hbox as (box & Hx & [d Hd]). apply Hb in Hx as (box' & Hx & Hd'). exists box'. split; [done|]. exists d. congruence.
    + destruct (lo_boxes s Hok id) as (box & Hx & [d Hd]).
      { unfold getLink in *. cbn in Hg. by rewrite lookup_insert_ne in Hg. }
      apply Hb in Hx as (box' & Hx & Hd'). exists box'. split; [done|]. exists d. congruence.
Qed.

(** What is left of the live links. *)
Lemma remove_live s l0 p0 q l : links_ok s -> getLink (ChanID l0) s = Some p0 -> link_at p0 s = Some l0 ->
  live (RemoveLink (ChanID l0) s) q l <-> live s q l /\ ChanID l <> ChanID l0.
Proof.
  intros Hok Hg Ha. unfold RemoveLink, live. rewrite Hg. cbn. rewrite Ha. cbn. unfold link_at. cbn. rewrite lookup_delete_Some. naive_solver.
Qed.

Lemma getLink_Some s id p : links_ok s -> getLink id s = Some p -> exists l, link_at p s = Some l /\ ChanID l = id /\
  (live s p l \/ ShortChanID l = Source /\ linkIndex s !! id = None).
Proof.
  intros Hok. unfold getLink. destruct (linkIndex s !! id) as [q|] eqn:Hl.
  - intros [= <-]. apply (lo_live s Hok) in Hl as Hl2. destruct Hl2 as (l & Ha & Hid & _). exists l. split_and!; [done|done|]. left. split; [done|congruence].
  - intros (l & Ha & Hid & Hs & Hn)%(lo_pending s Hok). exists l. auto.
Qed.

Lemma remove_ok id s : links_ok s -> links_ok (RemoveLink id s).
Proof.
  intros Hok. destruct (getLink id s) as [p0|] eqn:Hg; [|unfold RemoveLink; by rewrite Hg].
  destruct (getLink_Some s id p0 Hok Hg) as (l0 & Ha0 & <- & Hcase).
  pose proof (fun q l => remove_live s l0 p0 q l Hok Hg Ha0) as Hlive.
  assert (Hsid : forall q l, live s q l -> ChanID l <> ChanID l0 -> ShortChanID l <> ShortChanID l0).
  { intros q l Hl Hne Heq. destruct Hcase as [Hl0|[Hs0 _]].
    - apply Hne. by destruct (live_by_short s q p0 l l0 Hok Hl Hl0 Heq) as [_ ->].
    - apply (live_short s q l Hok Hl). congruence. }
  unfold RemoveLink in *. rewrite Hg in *. cbn [mbind option_bind] in *. rewrite Ha0 in *. split.
  - apply (lo_next s Hok).
  - intros id q. cbn. intros [Hne Hq]%lookup_delete_Some. apply (lo_live s Hok) in Hq as Hq2.
    destruct Hq2 as (l & Ha & Hid & Hs & Hf & Hi & Hv). exists l. split_and!; try done.
    + rewrite lookup_delete_ne; [done|]. intros Heq. apply (Hsid q l); [split; congruence|congruence|done].
    + destruct (interfaceIndex s !! PeerPubKey l0) as [links|] eqn:Hx; [|done].
      destruct (decide (PeerPubKey l = PeerPubKey l0)) as [Heq|Hpne].
      * rewrite Heq in Hi |- *. rewrite Hx in Hi. cbn in Hi. case_bool_decide as He.
        -- assert (Hd : delete (ChanID l0) links !! id = Some q) by (by rewrite lookup_delete_ne). by rewrite He, lookup_empty in Hd.
        -- rewrite lookup_insert_eq. cbn. by rewrite lookup_delete_ne.
      * case_bool_decide; [rewrite lookup_delete_ne by done|rewrite lookup_insert_ne by done]; done.
  - intros id q. cbn. intros [Hne Hq]%lookup_delete_Some. apply (lo_pending s Hok) in Hq as (l & Ha & Hid & Hs & Hn). exists l.
    split_and!; try done. by rewrite lookup_delete_ne.
  - intros sid q. cbn. intros [Hne Hq]%lookup_delete_Some. apply (lo_forwarding s Hok) in Hq as (l & Hl & Hsid'). exists l. split; [|done].
    apply Hlive. split; [done|]. intros Heq. destruct Hl as [Hal Hll]. rewrite Heq in Hll. unfold getLink in Hg. rewrite Hll in Hg. injection Hg as ->.
    congruence.
  - intros peer links id q. cbn. intros Hp Hid.
    assert (Hold : exists links', interfaceIndex s !! peer = Some links' /\ links' !! id = Some q /\ (peer = PeerPubKey l0 -> id <> ChanID l0)).
    { destruct (interfaceIndex s !! PeerPubKey l0) as [links0|] eqn:Hx; [|exists links; split_and!; [done|done|congruence]].
      case_bool_decide.
      - apply lookup_delete_Some in Hp as [Hne Hp]. exists links. split_and!; [done|done|congruence].
      - apply lookup_insert_Some in Hp as [[<- <-]|[Hne Hp]].
        + apply lookup_delete_Some in Hid as [Hne Hid]. exists links0. split_and!; [done|done|congruence].
        + exists links. split_and!; [done|done|congruence]. }
    destruct Hold as (links' & Hp' & Hid' & Hne). apply (lo_interface s Hok _ _ _ _ Hp') in Hid' as (l & Hl & Hpl & Hidl).
    exists l. split; [|done]. apply Hlive. split; [done|]. intros Heq.
    assert (l = l0) as ->; [|apply Hne; congruence]. destruct Hl as [Hal Hll]. rewrite Heq in Hll. unfold getLink in Hg. rewrite Hll in Hg. congruence.
  - intros id [q Hq]. cbn. apply (lo_boxes s Hok). unfold getLink in *. cbn in Hq.
    destruct (delete (ChanID l0) (linkIndex s) !! id) as [x|] eqn:Hx.
    + apply lookup_delete_Some in Hx as [_ Hx]. rewrite Hx. by eexists.
    + apply lookup_delete_Some in Hq as [Hne Hq]. rewrite lookup_delete_ne in Hx by done. rewrite Hx. by eexists.
Qed.

Lemma attach_ok l s : links_ok s -> links_ok (attachMailBox l s) /\
  exists box, mailboxes (orch (attachMailBox l s)) !! ChanID l = Some box /\ is_Some (isDust box).
Proof.
  intros Hok. destruct (create_keeps (ChanID l) (ShortChanID l) (orch s)) as [Hv Hb].
  assert (Hex : exists box, mailboxes (orch (attachMailBox l s)) !! ChanID l = Some box /\ is_Some (isDust box)).
  { assert (Hc : is_Some (mailboxes (GetOrCreateMailBox (ChanID l) (ShortChanID l) (orch s)) !! ChanID l)).
    { unfold GetOrCreateMailBox. destruct (mailboxes (orch s) !! ChanID l) eqn:Hx; [by rewrite Hx|]. cbn. by rewrite lookup_insert_eq. }
    destruct Hc as [box Hc]. eexists. split; [cbn; rewrite lookup_alter_eq, Hc; reflexivity|]. cbn. by eexists. }
  split; [|done]. destruct Hok as [X1 X2 X3 X4 X5 X6]. split; try done.
  - intros id p Hp. apply X2 in Hp as (l' & ? & ? & ? & ? & ? & ?). exists l'. split_and!; try done. cbn. by rewrite Hv.
  - intros id Hg. destruct (decide (id = ChanID l)) as [->|Hne]; [done|]. apply X6 in Hg as (box & Hx & [d Hd]).
    apply Hb in Hx as (box' & Hx & Hd'). exists box'. split; [|exists d; congruence]. cbn. by rewrite lookup_alter_ne.
Qed.

(** A new link in memory, not in any index. *)
Lemma new_link_ok l s : links_ok s -> links_ok (s <| sw_heap ::= <[sw_next s := l]> |> <| sw_next ::= Z.succ |>).
Proof.
  intros Hok.
  assert (Hat : forall q l', link_at q s = Some l' -> link_at q (s <| sw_heap ::= <[sw_next s := l]> |> <| sw_next ::= Z.succ |>) = Some l').
  { intros q l' Ha. unfold link_at in *. cbn. rewrite lookup_insert_ne; [done|]. apply (lo_next s Hok) in Ha. lia. }
  destruct Hok as [X1 X2 X3 X4 X5 X6]. split; try done.
  - intros q l'. cbn. intros [[<- _]|[_ Hq]]%lookup_insert_Some; [lia|]. apply X1 in Hq. lia.
  - intros id q Hq. apply X2 in Hq as (l' & Ha & ?). exists l'. split; [by apply Hat|done].
  - intros id q Hq. apply X3 in Hq as (l' & Ha & ?). exists l'. split; [by apply Hat|done].
  - intros sid q Hq. apply X4 in Hq as (l' & [Ha ?] & ?). exists l'. split; [split; [by apply Hat|done]|done].
  - intros peer links id q Hp Hq. destruct (X5 _ _ _ _ Hp Hq) as (l' & [Ha ?] & ?). exists l'. split; [split; [by apply Hat|done]|done].
Qed.

(** A short channel id belongs to one channel. *)
Definition own_short (sid : ShortChannelID) (id : bytes) s : Prop :=
  forall id', liveIndex (orch s) !! sid = Some id' -> id' = id.

Lemma add_link_ok now starts l s : links_ok s -> own_short (ShortChanID l) (ChanID l) s -> links_ok (snd (AddLink now starts l s)).
Proof.
  intros Hok Hown. unfold AddLink, mbind, M_bind, get, check, modify. case_bool_decide as Hg; [done|].
  destruct (attach_ok l s Hok) as [Hok1 Hbox]. destruct starts; [cbn [negb]|done]. set (s1 := attachMailBox l s) in *.
  pose proof (new_link_ok l s1 Hok1) as Hok2. change (sw_next s) with (sw_next s1).
  set (s2 := s1 <| sw_heap ::= _ |> <| sw_next ::= _ |>) in *.
  assert (Ha : link_at (sw_next s1) s2 = Some l) by (unfold link_at, s2; cbn; by rewrite lookup_insert_eq).
  assert (Hn : linkIndex s2 !! ChanID l = None /\ pendingLinkIndex s2 !! ChanID l = None).
  { unfold getLink in Hg. change (linkIndex s2) with (linkIndex s). change (pendingLinkIndex s2) with (pendingLinkIndex s).
    destruct (linkIndex s !! ChanID l); [by destruct Hg|]. destruct (pendingLinkIndex s !! ChanID l); [by destruct Hg|done]. }
  destruct Hn as [Hnl Hnp]. case_bool_decide as Hs.
  - cbn [snd]. destruct Hok2 as [X1 X2 X3 X4 X5 X6]. split; try done.
    + intros id q. cbn. intros [[<- <-]|[Hne Hq]]%lookup_insert_Some; [by exists l|by apply X3].
    + intros id [q Hq]. destruct (decide (id = ChanID l)) as [->|Hne]; [done|]. apply X6. exists q. unfold getLink in *. cbn in Hq.
      by rewrite lookup_insert_ne in Hq.
  - apply (goLive_ok now (sw_next s1) l s2); try done.
    intros id. change (liveIndex (orch s2)) with (liveIndex (orch s1)).
    assert (Hv : liveIndex (orch s1) = liveIndex (orch s)) by apply create_keeps. rewrite Hv. apply Hown.
Qed.

(** A link changes, but not its ids. *)
Lemma same_link_ok p l l' s : links_ok s -> link_at p s = Some l -> ChanID l' = ChanID l -> ShortChanID l' = ShortChanID l ->
  PeerPubKey l' = PeerPubKey l -> links_ok (s <| sw_heap ::= <[p := l']> |>).
Proof.
  intros Hok Ha Hc Hs Hp.
  assert (Hat : forall q m, link_at q s = Some m -> exists m', link_at q (s <| sw_heap ::= <[p := l']> |>) = Some m' /\
    ChanID m' = ChanID m /\ ShortChanID m' = ShortChanID m /\ PeerPubKey m' = PeerPubKey m).
  { intros q m Hm. unfold link_at in *. cbn. destruct (decide (q = p)) as [->|Hne].
    - exists l'. rewrite lookup_insert_eq. assert (m = l) as -> by congruence. done.
    - exists m. by rewrite lookup_insert_ne. }
  destruct Hok as [X1 X2 X3 X4 X5 X6]. split; try done.
  - intros q m. cbn. intros [[<- _]|[_ Hq]]%lookup_insert_Some; by eapply X1.
  - intros id q Hq. apply X2 in Hq as (m & (m' & Hm & E1 & E2 & E3)%Hat & ? & ? & ? & ? & ?). exists m'. rewrite E1, E2, E3. done.
  - intros id q Hq. apply X3 in Hq as (m & (m' & Hm & E1 & E2 & E3)%Hat & ? & ? & ?). exists m'. rewrite E1, E2. done.
  - intros sid q Hq. apply X4 in Hq as (m & [(m' & Hm & E1 & E2 & E3)%Hat ?] & ?). exists m'. unfold live. rewrite E1, E2. done.
  - intros peer links id q Hpe Hq. destruct (X5 _ _ _ _ Hpe Hq) as (m & [(m' & Hm & E1 & E2 & E3)%Hat ?] & ?).
    exists m'. unfold live. rewrite E1, E3. done.
Qed.

(** A link that is not live may change in any way that keeps its pending entries
    right. *)
Lemma pending_link_ok p l s : links_ok s -> (forall id, linkIndex s !! id <> Some p) -> is_Some (link_at p s) ->
  (forall id, pendingLinkIndex s !! id = Some p -> ChanID l = id /\ ShortChanID l = Source) -> links_ok (s <| sw_heap ::= <[p := l]> |>).
Proof.
  intros Hok Hnl [l0 Ha] Hpe.
  assert (Hat : forall q, q <> p -> link_at q (s <| sw_heap ::= <[p := l]> |>) = link_at q s).
  { intros q Hne. unfold link_at. cbn. by rewrite lookup_insert_ne. }
  destruct Hok as [X1 X2 X3 X4 X5 X6]. split; try done.
  - intros q m. cbn. intros [[<- _]|[_ Hq]]%lookup_insert_Some; by eapply X1.
  - intros id q Hq. assert (q <> p) by (intros ->; by apply Hnl in Hq). apply X2 in Hq as (m & Hm & ?). exists m. rewrite Hat; done.
  - intros id q Hq. destruct (decide (q = p)) as [->|Hne].
    + exists l. unfold link_at. cbn. rewrite lookup_insert_eq. destruct (Hpe id Hq) as [? ?]. apply X3 in Hq as (? & _ & _ & _ & ?). done.
    + apply X3 in Hq as (m & Hm & ?). exists m. rewrite Hat; done.
  - intros sid q Hq. apply X4 in Hq as (m & [Hm Hl] & ?). assert (q <> p) by (intros ->; by apply Hnl in Hl).
    exists m. unfold live. rewrite Hat; done.
  - intros peer links id q Hpl Hq. destruct (X5 _ _ _ _ Hpl Hq) as (m & [Hm Hl] & ?). assert (q <> p) by (intros ->; by apply Hnl in Hl).
    exists m. unfold live. rewrite Hat; done.
Qed.

Lemma unpend_ok id s : links_ok s -> links_ok (s <| pendingLinkIndex ::= delete id |>).
Proof.
  intros [X1 X2 X3 X4 X5 X6]. split; try done.
  - intros id' q. cbn. intros [_ Hq]%lookup_delete_Some. by apply X3.
  - intros id' [q Hq]. apply X6. unfold getLink in *. cbn in Hq. destruct (linkIndex s !! id'); [by eexists|].
    apply lookup_delete_Some in Hq as [_ Hq]. by exists q.
Qed.

Lemma update_short_ok now fresh id s : links_ok s -> (forall sid, fresh = Some sid -> own_short sid id s) ->
  links_ok (snd (UpdateShortChanID now fresh id s)).
Proof.
  intros Hok Hown. unfold UpdateShortChanID, mbind, M_bind, get, modify, check, throw.
  destruct (pendingLinkIndex s !! id) as [p|] eqn:Hp; [|done]. cbn [option_bind].
  apply (lo_pending s Hok) in Hp as Hp2. destruct Hp2 as (l & Ha & Hid & Hs & Hn). rewrite Ha.
  destruct fresh as [sid|]; [|done]. set (l' := SetShortChanID sid l).
  assert (Hnl : forall i, linkIndex s !! i <> Some p).
  { intros i Hi. apply (lo_live s Hok) in Hi as Hi2. destruct Hi2 as (m & Ham & Him & _). assert (m = l) as -> by congruence. congruence. }
  assert (Hpe : forall i, pendingLinkIndex s !! i = Some p -> i = id).
  { intros i Hi. apply (lo_pending s Hok) in Hi as (m & Ham & Him & _). congruence. }
  case_bool_decide as Hsrc; cbn [snd].
  - apply pending_link_ok; [done|done|by exists l|]. intros i Hi%Hpe. subst i. unfold l'. by rewrite set_short_id, set_short.
  - assert (Hbox : exists box, mailboxes (orch s) !! id = Some box /\ is_Some (isDust box)).
    { apply (lo_boxes s Hok). unfold getLink. rewrite Hn, Hp. by eexists. }
    set (s1 := s <| sw_heap ::= <[p := l']> |> <| pendingLinkIndex ::= delete id |>).
    assert (Hl' : ChanID l' = id /\ ShortChanID l' = sid) by (unfold l'; by rewrite set_short_id, set_short).
    destruct Hl' as [Hli Hls].
    assert (Hok1 : links_ok s1).
    { change s1 with (s <| pendingLinkIndex ::= delete id |> <| sw_heap ::= <[p := l']> |>).
      apply pending_link_ok; [by apply unpend_ok|done|by exists l|]. intros i. cbn. intros [Hne Hi]%lookup_delete_Some. by apply Hpe in Hi. }
    assert (Hg : links_ok (goLive now p l' s1)).
    { apply goLive_ok; rewrite ?Hli, ?Hls; try done.
      - unfold link_at, s1. cbn. by rewrite lookup_insert_eq.
      - unfold s1. cbn. by rewrite lookup_delete_eq.
      - intros i Hi. by apply (Hown sid eq_refl). }
    unfold goLive in Hg. rewrite Hli, Hls in Hg. unfold GetOrCreateMailBox. cbn.
    destruct Hbox as (box & Hx & _). revert Hg. unfold upd. cbn. by rewrite Hx.
Qed.

Lemma send_ok commits firstHop attemptID htlc s : links_ok s -> links_ok (snd (SendHTLC commits firstHop attemptID htlc s)).
Proof.
  intros Hok. unfold SendHTLC, mbind at 1, M_bind at 1, get at 1. unfold mbind at 1, M_bind at 1, lift at 1. unfold getLocalLink.
  destruct (getLinkByShortID _ s) as [p|]; cbn [mbind option_bind of_link snd]; [|done].
  destruct (link_at p s) as [l|] eqn:Ha; cbn [mbind option_bind of_link snd]; [|done].
  destruct (negb (EligibleToForward l)); [done|]. destruct (CheckHtlcTransit l _ _ _ _) as [[]| |]; [|done..]. cbn [of_link mbind res_mbind res_bind fst snd].
  unfold mbind at 1, M_bind at 1. pose proof (dust_steady l (u64 (add_Amount htlc)) (add_AssetID htlc) false s) as Hst.
  destruct (evaluateDustThreshold l _ _ _ s) as [[b| |] s1]; cbn [snd] in *; [|by eapply links_steady..].
  unfold mbind at 1, M_bind at 1, check at 1. destruct b; [by eapply links_steady|].
  unfold mbind at 1, M_bind at 1. pose proof (commit_steady commits [newPaymentCircuit (add_PaymentHash htlc) (localPacket firstHop attemptID htlc)] s1) as Hst2.
  destruct (commitCircuits commits _ s1) as [[[acts [err|]]| |] s2]; cbn [snd] in *; try (by eapply links_steady; [|etrans]).
  assert (Hst3 : steady s s2) by by etrans. unfold mbind, M_bind, check, modify, lift.
  destruct (bool_decide (length (Drops acts) = _)); [by eapply links_steady|]. destruct (bool_decide (length (Fails acts) = _)); [by eapply links_steady|].
  match goal with |- context [handleLocalAddPacket ?pk l] => pose proof (local_add_id pk l) as E1; pose proof (local_add_short pk l) as E2;
    pose proof (local_add_peer pk l) as E3; destruct (handleLocalAddPacket pk l) as [r l'] end.
  cbn [snd] in *. apply (same_link_ok p l l'); try done; [by eapply links_steady|]. unfold link_at. by rewrite (st_heap _ _ Hst3).
Qed.

Lemma stop_ok s : links_ok s -> links_ok (stopLinks s).
Proof.
  intros Hok. unfold stopLinks. set (f := fun s id => RemoveLink id s).
  assert (Hf : forall ids s0, links_ok s0 -> links_ok (foldl f s0 ids)).
  { induction ids as [|id ids IH]; intros s0 Hs0; [done|]. cbn. by apply IH, remove_ok. }
  by apply Hf, Hf.
Qed.

(** ** The switch at work *)
Definition newSwitch (c : Config) (height : Z) (m : circuitMap) (results : gmap Z bytes) (pkgs : fwdStore) (expiry : Z) : Switch Msg L :=
  mkSwitch c height m (newMailOrchestrator expiry) ∅ 0 ∅ ∅ ∅ ∅ [] [] (newNetworkResultStore results) [] [] pkgs.

(** What the node, the links, the forwarder and its tickers do; [OpBox] and [OpLink]
    are what the couriers and the links do on their own, [OpCircuits] what links ask
    of the circuit map. *)
Inductive sw_op : Type :=
| OpAddLink (now : Z) (starts : bool) (l : L)
| OpRemoveLink (id : bytes)
| OpUpdateShort (now : Z) (fresh : option ShortChannelID) (id : bytes)
| OpSend (commits : bool) (firstHop : ShortChannelID) (attemptID : Z) (htlc : UpdateAddHTLC)
| OpBatch (fetchUpdate : ShortChannelID -> option ChannelUpdate) (commits : bool) (now : Z) (packets : list htlcPacket)
| OpForward (now : Z) (pick : nat)
| OpResolve (now : Z) (sid : ShortChannelID) (i : Z) (p : option bytes)
| OpLocal (stores acks deletes : bool) (i : nat)
| OpAsk (attemptID : Z)
| OpReforward (fetchUpdate : ShortChannelID -> option ChannelUpdate) (now : Z) (channels : list (ShortChannelID * bool))
| OpBlock (height : Z)
| OpAck (commits : bool)
| OpFlush (commits : bool)
| OpStop
| OpBox (id : bytes) (f : memoryMailBox Msg -> memoryMailBox Msg)
| OpLink (p : Z) (f : L -> L)
| OpCircuits (q : request).

Definition run_sw (op : sw_op) s : Switch Msg L :=
  match op with
  | OpAddLink now starts l => snd (AddLink now starts l s)
  | OpRemoveLink id => RemoveLink id s
  | OpUpdateShort now fresh id => snd (UpdateShortChanID now fresh id s)
  | OpSend commits firstHop attemptID htlc => snd (SendHTLC commits firstHop attemptID htlc s)
  | OpBatch fetch commits now packets => snd (ForwardPackets fetch commits now packets s)
  | OpForward now pick => snd (forwardNext now pick s)
  | OpResolve now sid i p => snd (handleResolution now sid i p s)
  | OpLocal stores acks deletes i => snd (runLocal stores acks deletes i s)
  | OpAsk attemptID => snd (GetPaymentResult attemptID s)
  | OpReforward fetch now channels => snd (reforwardResponses fetch now channels s)
  | OpBlock height => newBlock height s
  | OpAck commits => ackPendingSettleFails commits s
  | OpFlush commits => snd (FlushForwardingEvents commits s)
  | OpStop => stopLinks s
  | OpBox id f => s <| orch ::= fun o => o <| mailboxes ::= alter f id |> |>
  | OpLink p f => s <| sw_heap ::= alter f p |>
  | OpCircuits q => s <| circuits ::= serve q |>
  end.

Definition sw_allowed (op : sw_op) s : Prop :=
  match op with
  | OpAddLink _ _ l => own_short (ShortChanID l) (ChanID l) s
  | OpUpdateShort _ fresh id => forall sid, fresh = Some sid -> own_short sid id s
  | OpBox _ f => forall box, isDust (f box) = isDust box
  | OpLink _ f => forall l, ChanID (f l) = ChanID l /\ ShortChanID (f l) = ShortChanID l /\ PeerPubKey (f l) = PeerPubKey l
  | OpCircuits q => allowed q (circuits s)
  | _ => True
  end.

Definition sw_step s s' : Prop := exists op, sw_allowed op s /\ s' = run_sw op s.

Definition sw_reachable s : Prop :=
  exists c height m results pkgs expiry, reachable m /\ rtc sw_step (newSwitch c height m results pkgs expiry) s.

Lemma ask_steady i : frames steady (GetPaymentResult i : M (Switch Msg L) swerr _).
Proof. unfold GetPaymentResult. frames. Qed.

Lemma run_links_ok op s : links_ok s -> sw_allowed op s -> links_ok (run_sw op s).
Proof.
  intros Hok Ha. destruct op; cbn [run_sw sw_allowed] in *.
  - by apply add_link_ok.
  - by apply remove_ok.
  - by apply update_short_ok.
  - by apply send_ok.
  - eapply links_steady; [done|apply batch_steady].
  - eapply links_steady; [done|apply next_steady].
  - eapply links_steady; [done|apply resolution_steady].
  - eapply links_steady; [done|apply local_steady].
  - eapply links_steady; [done|apply ask_steady].
  - eapply links_steady; [done|apply responses_steady].
  - eapply links_steady; [done|by apply steady_other].
  - eapply links_steady; [done|apply ackPending_steady].
  - eapply links_steady; [done|apply flush_steady].
  - by apply stop_ok.
  - eapply links_steady; [done|]. split; try done. intros i box Hb. cbn. destruct (decide (i = id)) as [->|Hne].
    + exists (f box). by rewrite lookup_alter_eq, Hb.
    + exists box. by rewrite lookup_alter_ne.
  - destruct (link_at p s) as [l|] eqn:Hl.
    + replace (s <| sw_heap ::= alter f p |>) with (s <| sw_heap ::= <[p := f l]> |>).
      * destruct (Ha l) as (? & ? & ?). by apply (same_link_ok p l).
      * unfold upd. cbn. f_equal. apply map_eq. intros i. unfold link_at in Hl. destruct (decide (i = p)) as [->|Hne].
        -- by rewrite lookup_insert_eq, lookup_alter_eq, Hl.
        -- by rewrite lookup_insert_ne, lookup_alter_ne.
    + replace (s <| sw_heap ::= alter f p |>) with s; [done|]. unfold upd. destruct s; cbn in *. f_equal.
      unfold link_at in Hl. cbn in Hl. symmetry. apply map_eq. intros i. destruct (decide (i = p)) as [->|Hne]; [by rewrite lookup_alter_eq, Hl|by rewrite lookup_alter_ne].
  - eapply links_steady; [done|by apply steady_other].
Qed.

Lemma new_switch_ok c height m results pkgs expiry : links_ok (newSwitch c height m results pkgs expiry).
Proof.
  split; cbn.
  - intros p l Hp. by rewrite lookup_empty in Hp.
  - intros id p Hp. by rewrite lookup_empty in Hp.
  - intros id p Hp. by rewrite lookup_empty in Hp.
  - intros sid p Hp. by rewrite lookup_empty in Hp.
  - intros peer links id p Hp. by rewrite lookup_empty in Hp.
  - intros id [p Hp]. unfold getLink in Hp. cbn in Hp. by rewrite !lookup_empty in Hp.
Qed.

Lemma sw_reachable_links s : sw_reachable s -> links_ok s.
Proof.
  intros (c & h & m & rs & pkgs & e & _ & Hr). pose proof (new_switch_ok c h m rs pkgs e) as Hok.
  induction Hr as [|s0 s1 s2 (op & Ha & ->) _ IH]; [done|]. apply IH. by apply run_links_ok.
Qed.

Lemma elem_of_getLinks s peer p : links_ok s -> p ∈ getLinks peer s <-> exists l, live s p l /\ PeerPubKey l = peer.
Proof.
  intros Hok. unfold getLinks. split.
  - destruct (interfaceIndex s !! peer) as [links|] eqn:Hi; [|by intros ?%elem_of_nil].
    intros ([id q] & -> & Hq%elem_of_map_to_list)%list_elem_of_fmap. destruct (lo_interface s Hok _ _ _ _ Hi Hq) as (l & Hl & Hp & _). by exists l.
  - intros (l & [Ha Hl] & <-). apply (lo_live s Hok) in Hl as (l' & Ha' & _ & _ & _ & Hi & _). assert (l' = l) as -> by congruence.
    destruct (interfaceIndex s !! PeerPubKey l) as [links|]; [|done]. apply list_elem_of_fmap. exists (ChanID l, p). split; [done|].
    by apply elem_of_map_to_list.
Qed.

(** C19. In every state the switch reaches the indexes agree: a channel id leads to its
    link; a short channel id, which is never the blank one, leads to the one live link
    that has it; a peer leads to exactly its live links; every link has a mailbox that
    can judge dust; and what is delivered to the short channel id of a live link goes
    to the mailbox of that link. *)
Theorem link_indexes_correct s : sw_reachable s ->
  (forall id p, getLink id s = Some p -> exists l, link_at p s = Some l /\ ChanID l = id) /\
  (forall sid p, getLinkByShortID sid s = Some p <-> exists l, live s p l /\ ShortChanID l = sid) /\
  (forall p l, live s p l -> ShortChanID l <> Source /\ liveIndex (orch s) !! ShortChanID l = Some (ChanID l)) /\
  (forall peer p, p ∈ getLinks peer s <-> exists l, live s p l /\ PeerPubKey l = peer) /\
  (forall id, is_Some (getLink id s) -> exists box, mailboxes (orch s) !! id = Some box /\ is_Some (isDust box)).
Proof.
  intros Hok%sw_reachable_links. split_and!.
  - intros id p (l & Ha & Hid & _)%(getLink_Some s id p Hok). by exists l.
  - intros sid p. unfold getLinkByShortID. split; [apply (lo_forwarding s Hok)|]. intros (l & Hl & <-). by apply live_forwarding.
  - intros p l Hl. split; [by apply (live_short s p)|]. destruct Hl as [Ha Hl]. apply (lo_live s Hok) in Hl as (l' & Ha' & _ & _ & _ & _ & Hv). congruence.
  - intros peer p. by apply elem_of_getLinks.
  - apply (lo_boxes s Hok).
Qed.

(** ** Forwarding an add *)

(** Writers that do not panic. *)
Definition returns {S E A} (m : M S E A) : Prop := forall st, fst (m st) <> Panic.

Lemma returns_bind {S E A B} (m : M S E A) (k : A -> M S E B) : returns m -> (forall a, returns (k a)) -> returns (m ≫= k).
Proof. intros Hm Hk st. unfold mbind, M_bind. pose proof (Hm st) as Hn. destruct (m st) as [[a| |] st1]; [apply Hk|done|done]. Qed.

Lemma writes_return (b : bytes) : returns (WriteBytes b).
Proof. by intros st. Qed.

Lemma encode_returns f : encode_failure f <> Panic.
Proof.
  assert (Hu : forall u, returns (ChannelUpdate_Encode u)).
  { intros u. unfold ChannelUpdate_Encode, ChannelUpdate_Body, WriteSig, WriteShortChannelID.
    repeat first [apply returns_bind; [|intros []] | apply writes_return | (intros st; unfold check; cbn; by repeat case_match) | by intros st | case_match]. }
  assert (Hw : forall u, returns (writeOnionErrorChanUpdate u)).
  { intros u st. unfold writeOnionErrorChanUpdate. pose proof (Hu u []) as Hn. destruct (ChannelUpdate_Encode u []) as [[[]| |] b]; [|done|done].
    apply (returns_bind (WriteUint16 _) (fun _ => WriteBytes b)); [apply writes_return|intros []; apply writes_return]. }
  assert (Hf : returns (EncodeFailureMessage f)).
  { apply returns_bind; [apply writes_return|]. intros []. destruct f as [| | | | | | | | | | | | |[u|]| | | | | | | | | |]; cbn [Failure_Encode FailTemporaryChannelFailure_Encode];
      unfold_failures; repeat first [apply Hw | apply writes_return | apply returns_bind; [|intros []] | by intros st]. }
  unfold encode_failure, EncodeFailure. pose proof (Hf []) as Hn. destruct (EncodeFailureMessage f []) as [[[]| |] b]; [|done|done].
  cbv zeta. destruct (FailureMessageLength <? _); done.
Qed.

Lemma encrypt_returns e f : EncryptFirstHop e f <> Panic.
Proof. unfold EncryptFirstHop. pose proof (encode_returns f) as Hn. destruct (encode_failure f); [by destruct e|done|done]. Qed.

Lemma AddPacket_returns now pkt (box : memoryMailBox Msg) : fst (AddPacket now pkt box) <> Panic.
Proof. unfold AddPacket, mbind, M_bind, get, check, modify, throw. destruct (pk_htlc pkt); try done; by case_bool_decide. Qed.

Lemma Deliver_returns now sid pkt (o : mailOrchestrator Msg) : fst (Deliver now sid pkt o) <> Panic.
Proof.
  unfold Deliver. destruct (liveIndex o !! sid) as [cid|]; [|done]. unfold addTo.
  assert (Hc : is_Some (mailboxes (GetOrCreateMailBox cid sid o) !! cid)).
  { unfold GetOrCreateMailBox. destruct (mailboxes o !! cid) eqn:Hx; [by rewrite Hx|]. cbn. by rewrite lookup_insert_eq. }
  destruct Hc as [box ->]. pose proof (AddPacket_returns now pkt box) as Hn. by destruct (AddPacket now pkt box).
Qed.

(** The links to a peer that take the HTLC, in the order they are tried. *)
Definition taking_of (packet : htlcPacket) (htlc : UpdateAddHTLC) (ps : list Z) s : list L :=
  omap (fun p => l ← link_at p s; match checkLink packet htlc (bestHeight s) l with Ok _ => Some l | _ => None end) ps.
Definition taking (packet : htlcPacket) (htlc : UpdateAddHTLC) (peer : bytes) s : list L := taking_of packet htlc (getLinks peer s) s.

Lemma elem_of_taking_of packet htlc ps s l : l ∈ taking_of packet htlc ps s <->
  exists p, p ∈ ps /\ link_at p s = Some l /\ checkLink packet htlc (bestHeight s) l = Ok tt.
Proof.
  unfold taking_of. rewrite list_elem_of_omap. split; intros (p & Hp & Hx); exists p; (split; [done|]).
  - destruct (link_at p s) as [l'|]; [|done]. cbn in Hx. destruct (checkLink packet htlc (bestHeight s) l') as [[]| |] eqn:Hc; try done. by injection Hx as ->.
  - destruct Hx as [-> Hc]. cbn. by rewrite Hc.
Qed.

(** Every tried link either takes the HTLC or has said why not. *)
Lemma tryLinks_spec packet htlc s ps : (forall p, p ∈ ps -> is_Some (link_at p s)) ->
  exists errs, tryLinks packet htlc ps s = Ok (taking_of packet htlc ps s, errs) /\
    (forall sid e, errs !! sid = Some e -> exists p l, p ∈ ps /\ link_at p s = Some l /\ ShortChanID l = sid /\ checkLink packet htlc (bestHeight s) l = Err e) /\
    (forall p l e, p ∈ ps -> link_at p s = Some l -> checkLink packet htlc (bestHeight s) l = Err e -> is_Some (errs !! ShortChanID l)).
Proof.
  induction ps as [|p ps IH]; intros Hps; cbn [tryLinks].
  - exists ∅. split_and!; [done| |].
    + intros sid e He. by rewrite lookup_empty in He.
    + by intros p l e ?%elem_of_nil.
  - destruct (Hps p) as [l Hl]; [by left|]. rewrite Hl. destruct IH as (errs & Hrun & He & Hs); [intros q Hq; apply Hps; by right|].
    rewrite Hrun. unfold taking_of in *. cbn [mbind res_mbind res_bind fst snd omap list_omap]. rewrite Hl. cbn [mbind option_bind].
    destruct (checkLink packet htlc (bestHeight s) l) as [[]|e|] eqn:Hc.
    + exists errs. split_and!; [done| |].
      * intros sid e Hsid. destruct (He sid e Hsid) as (q & l' & Hq & ?). exists q, l'. split; [by right|done].
      * intros q l' e [->|Hq]%elem_of_cons Ha Hk; [congruence|by eapply Hs].
    + exists (<[ShortChanID l := e]> errs). split_and!; [done| |].
      * intros sid e'. intros [[<- <-]|[_ Hsid]]%lookup_insert_Some; [exists p, l; split; [by left|done]|].
        destruct (He sid e' Hsid) as (q & l' & Hq & ?). exists q, l'. split; [by right|done].
      * intros q l' e' [->|Hq]%elem_of_cons Ha Hk; apply lookup_insert_is_Some'; [left; congruence|right; by eapply Hs].
    + exfalso. unfold checkLink in Hc. case_match; [done|]. by apply forward_returns in Hc.
Qed.

(** The exposure to dust of a live link can be judged, which changes nothing. *)
Lemma dust_run s p l amount assetId incoming : links_ok s -> live s p l ->
  exists b, evaluateDustThreshold l amount assetId incoming s = (Ok b, s).
Proof.
  intros Hok [Ha Hl]. destruct (lo_boxes s Hok (ChanID l)) as (box & Hb & [d Hd]); [unfold getLink; rewrite Hl; by eexists|].
  unfold evaluateDustThreshold, mbind, M_bind, get, modify. case_match; [by eexists|].
  assert (Hs : s <| orch ::= GetOrCreateMailBox (ChanID l) (ShortChanID l) |> = s).
  { unfold upd, GetOrCreateMailBox. rewrite Hb. by destruct s. }
  rewrite Hs. unfold mailDust. rewrite Hb. unfold DustPackets. rewrite Hd.
  assert (exists ds, (match q_list (addPkts box) with [] => Ok (0, 0) | _ :: _ =>
     Ok (foldl (dust_of d (mb_feeRate box) true) 0 ((fun x => pe_pkt x.2) <$> q_list (addPkts box)),
         foldl (dust_of d (mb_feeRate box) false) 0 ((fun x => pe_pkt x.2) <$> q_list (addPkts box))) end : res mberr (Z * Z)) = Ok ds) as [ds Hds] by (case_match; by eexists).
  destruct (q_list (addPkts box)); injection Hds as Hds; cbn zeta iota; repeat (case_match; try by eexists).
Qed.

(** The node forwards, and the route is not circular. *)
Definition let_through s (packet : htlcPacket) : Prop :=
  RejectHTLC (cfg s) = false /\ (incomingChanID packet <> outgoingChanID packet \/ AllowCircularRoute (cfg s) = true).

(** The link of the channel the sender named, and the one the HTLC came in over. *)
Definition named s (packet : htlcPacket) (l : L) : Prop := exists p, live s p l /\ ShortChanID l = outgoingChanID packet.
Definition came_in s (packet : htlcPacket) (l : L) : Prop := exists p, live s p l /\ ShortChanID l = incomingChanID packet.

(** The link that was drawn from those to the named link's peer that take the HTLC. *)
Definition chosen s (packet : htlcPacket) (htlc : UpdateAddHTLC) (pick : nat) (dest : L) : Prop :=
  let_through s packet /\ exists target, named s packet target /\ draw pick (taking packet htlc (PeerPubKey target) s) = Some dest.

(** Judging an exposure to dust changes nothing. *)
Definition dusty s (packet : htlcPacket) (incoming : bool) (l : L) (b : bool) : Prop :=
  evaluateDustThreshold l (pk_amount packet) (pk_assetId packet) incoming s = (Ok b, s).

(** Why an add is refused, and the failure its sender is told.  Every reason says that
    the checks before it were passed. *)
Inductive refused s (packet : htlcPacket) (htlc : UpdateAddHTLC) (pick : nat) : LinkError -> Prop :=
| RefRejected : RejectHTLC (cfg s) = true ->
    refused s packet htlc pick (NewDetailedLinkError (FailChannelDisabled 0 zero_update) OutgoingFailureForwardsDisabled)
| RefCircular : RejectHTLC (cfg s) = false -> incomingChanID packet = outgoingChanID packet -> AllowCircularRoute (cfg s) = false ->
    refused s packet htlc pick (NewDetailedLinkError (FailTemporaryChannelFailure None) OutgoingFailureCircularRoute)
| RefUnknown : let_through s packet -> (forall l, ~ named s packet l) ->
    refused s packet htlc pick (NewLinkError FailUnknownNextPeer)
| RefPolicy target e : let_through s packet -> named s packet target -> checkLink packet htlc (bestHeight s) target = Err e ->
    (forall q l, live s q l -> PeerPubKey l = PeerPubKey target -> checkLink packet htlc (bestHeight s) l <> Ok tt) ->
    refused s packet htlc pick e
| RefNoIncoming dest : chosen s packet htlc pick dest -> (forall l, ~ came_in s packet l) ->
    refused s packet htlc pick tooMuchDust
| RefDustIn dest l : chosen s packet htlc pick dest -> came_in s packet l -> dusty s packet true l true ->
    refused s packet htlc pick tooMuchDust
| RefDustOut dest l : chosen s packet htlc pick dest -> came_in s packet l -> dusty s packet true l false -> dusty s packet false dest true ->
    refused s packet htlc pick tooMuchDust.

(** The link that takes it. *)
Record takes s (packet : htlcPacket) (htlc : UpdateAddHTLC) (pick : nat) (p : Z) (dest : L) : Prop := {
  tk_chosen : chosen s packet htlc pick dest;
  tk_live : live s p dest;
  tk_target : exists q target, live s q target /\ ShortChanID target = outgoingChanID packet /\ PeerPubKey dest = PeerPubKey target;
  tk_eligible : EligibleToForward dest = true;
  tk_policy : CheckHtlcForward dest (add_PaymentHash htlc) (pk_incomingAmount packet) (pk_amount packet) (incomingTimeout packet)
                (outgoingTimeout packet) (bestHeight s) = Ok tt;
  tk_amount : pk_amount packet <= pk_incomingAmount packet;
  tk_dust : dusty s packet false dest false;
  tk_incoming : exists l, came_in s packet l /\ dusty s packet true l false
}.

(** The outcome of an add: all it changes are the mailboxes, and those by the one
    delivery, whether the mailbox takes the packet or not. *)
Definition add_outcome s (packet : htlcPacket) (htlc : UpdateAddHTLC) (now : Z) (pick : nat) (enc : ErrorEncrypter) (x : res swerr unit * Switch Msg L) : Prop :=
  let s' := x.2 in
  s' = s <| orch := orch s' |> /\
  match x.1 with
  | Ok _ => exists p dest, takes s packet htlc pick p dest /\
      addTo now (ChanID dest) (packet <| outgoingChanID := ShortChanID dest |>) (orch s) = (Ok tt, orch s')
  | Err (ErrLink failure) => refused s packet htlc pick failure /\ exists reason, EncryptFirstHop enc (WireMessage failure) = Ok reason /\
      Deliver now (incomingChanID packet) (failed packet failure reason) (orch s) = (Ok tt, orch s')
  | Err (ErrBox e) => (exists failure reason, refused s packet htlc pick failure /\ EncryptFirstHop enc (WireMessage failure) = Ok reason /\
        Deliver now (incomingChanID packet) (failed packet failure reason) (orch s) = (Err e, orch s')) \/
      (exists p dest, takes s packet htlc pick p dest /\ addTo now (ChanID dest) (packet <| outgoingChanID := ShortChanID dest |>) (orch s) = (Err e, orch s'))
  | Err (ErrObfuscate e) => s' = s /\ exists failure, refused s packet htlc pick failure /\ EncryptFirstHop enc (WireMessage failure) = Err e
  | _ => False
  end.

Lemma refuse_outcome s packet htlc now pick enc failure : obfuscator packet = Some enc -> refused s packet htlc pick failure ->
  add_outcome s packet htlc now pick enc (failAddPacket now packet failure s).
Proof.
  intros He Hr. unfold failAddPacket. rewrite He. pose proof (encrypt_returns enc (WireMessage failure)) as Hn.
  destruct (EncryptFirstHop enc (WireMessage failure)) as [reason|e|] eqn:Henc; [|split; [by destruct s|split; [done|by exists failure]]|done].
  unfold mbind, M_bind, deliver, throw. pose proof (Deliver_returns now (incomingChanID packet) (failed packet failure reason) (orch s)) as Hd.
  destruct (Deliver now (incomingChanID packet) (failed packet failure reason) (orch s)) as [[[]|e|] o] eqn:Hrun; [| |done]; (split; [done|]).
  - split; [done|]. by exists reason.
  - left. by exists failure, reason.
Qed.

Lemma addTo_returns now id pkt (o : mailOrchestrator Msg) : is_Some (mailboxes o !! id) -> fst (addTo now id pkt o) <> Panic.
Proof. intros [box Hb]. unfold addTo. rewrite Hb. pose proof (AddPacket_returns now pkt box) as Hn. by destruct (AddPacket now pkt box). Qed.

Lemma forwardTo_outcome s packet htlc now pick enc p dest : links_ok s -> obfuscator packet = Some enc -> live s p dest ->
  chosen s packet htlc pick dest ->
  (exists q target, live s q target /\ ShortChanID target = outgoingChanID packet /\ PeerPubKey dest = PeerPubKey target) ->
  checkLink packet htlc (bestHeight s) dest = Ok tt ->
  add_outcome s packet htlc now pick enc (forwardTo now packet dest s).
Proof.
  intros Hok He Hl Hch Ht Hc. unfold forwardTo, mbind at 1, M_bind at 1, get at 1. unfold getLinkByShortID.
  destruct (forwardingIndex s !! incomingChanID packet) as [q|] eqn:Hf; cbn [mbind option_bind].
  2: { apply refuse_outcome; [done|]. apply (RefNoIncoming _ _ _ _ dest Hch). intros l (p' & Hl' & Heq). pose proof (live_forwarding s p' l Hok Hl') as Hf'. congruence. }
  apply (lo_forwarding s Hok) in Hf as (inl & Hin & Hsid). rewrite (proj1 Hin).
  assert (Hci : came_in s packet inl) by by exists q.
  destruct (dust_run s q inl (pk_amount packet) (pk_assetId packet) true Hok Hin) as [b1 Hb1]. rewrite (M_bind_run _ _ _ _ _ Hb1).
  destruct b1; [apply refuse_outcome; [done|exact (RefDustIn _ _ _ _ dest inl Hch Hci Hb1)]|].
  destruct (dust_run s p dest (pk_amount packet) (pk_assetId packet) false Hok Hl) as [b2 Hb2]. rewrite (M_bind_run _ _ _ _ _ Hb2).
  destruct b2; [apply refuse_outcome; [done|exact (RefDustOut _ _ _ _ dest inl Hch Hci Hb1 Hb2)]|].
  assert (Htk : takes s packet htlc pick p dest).
  { unfold checkLink in Hc. destruct (EligibleToForward dest) eqn:Hel; [|done]. cbn [negb] in Hc. split; try done.
    - by eapply forward_bounded.
    - by exists inl. }
  unfold handleSwitchPacket. set (pkt := packet <| outgoingChanID := ShortChanID dest |>).
  destruct (lo_boxes s Hok (ChanID dest)) as (box & Hb & _); [unfold getLink; rewrite (proj2 Hl); by eexists|].
  pose proof (addTo_returns now (ChanID dest) pkt (orch s) (mk_is_Some _ _ Hb)) as Hn.
  destruct (addTo now (ChanID dest) pkt (orch s)) as [[[]|e|] o] eqn:Hrun; [| |done]; (split; [done|]).
  - by exists p, dest.
  - right. by exists p, dest.
Qed.

Lemma forward_add_run s s' (now : Z) (pick : nat) (packet : htlcPacket) (htlc : UpdateAddHTLC) (enc : ErrorEncrypter) (r : res swerr unit) :
  sw_reachable s -> pk_htlc packet = UMAdd htlc -> obfuscator packet = Some enc ->
  handlePacketForward now pick packet s = (r, s') -> add_outcome s packet htlc now pick enc (r, s').
Proof.
  intros Hok%sw_reachable_links Hm He <-.
  unfold handlePacketForward. rewrite Hm. unfold forwardAdd, mbind at 1, M_bind at 1, get at 1.
  destruct (RejectHTLC (cfg s)) eqn:Hrej; [by apply refuse_outcome; [|apply RefRejected]|]. unfold checkCircularForward.
  destruct (bool_decide_reflect (incomingChanID packet = outgoingChanID packet)) as [Hcirc|Hcirc]; cbn [negb];
    [destruct (AllowCircularRoute (cfg s)) eqn:Hallow; [|by apply refuse_outcome; [|apply RefCircular]]|].
  all: assert (Hal : let_through s packet) by (split; auto).
  all: unfold getLinkByShortID; destruct (forwardingIndex s !! outgoingChanID packet) as [p|] eqn:Hf; cbn [mbind option_bind];
    [|apply refuse_outcome; [done|]; apply (RefUnknown _ _ _ _ Hal); intros l (p & Hl & Heq); pose proof (live_forwarding s p l Hok Hl); congruence].
  all: apply (lo_forwarding s Hok) in Hf as (target & Hta & Hsid); rewrite (proj1 Hta).
  all: assert (Hnamed : named s packet target) by by exists p.
  all: destruct (tryLinks_spec packet htlc s (getLinks (PeerPubKey target) s)) as (errs & Htry & Herr & Hsome);
    [by intros q (l & [Hq _] & _)%(elem_of_getLinks s _ _ Hok); rewrite Hq|].
  all: unfold mbind at 1, M_bind at 1, lift; rewrite Htry; cbn [fst snd].
  all: fold (taking packet htlc (PeerPubKey target) s).
  all: destruct (draw pick (taking packet htlc (PeerPubKey target) s)) as [dest|] eqn:Hdraw.
  all: try (assert (Hch : chosen s packet htlc pick dest) by (split; [done|]; by exists target);
    apply list_elem_of_lookup_2, elem_of_taking_of in Hdraw as (q & Hq & Haq & Hcq); apply (elem_of_getLinks s _ _ Hok) in Hq as (l & Hlq & Hpq);
    assert (l = dest) as -> by (destruct Hlq; congruence); apply (forwardTo_outcome s packet htlc now pick enc q dest); try done; by exists p, target).
  all: assert (Hnone : taking packet htlc (PeerPubKey target) s = []) by (unfold draw in Hdraw; destruct (taking _ _ _ s) as [|d ds]; [done|];
    apply lookup_ge_None in Hdraw; pose proof (Nat.mod_upper_bound pick (length (d :: ds)) ltac:(done)); lia).
  all: assert (Hrefuse : forall q l, live s q l -> PeerPubKey l = PeerPubKey target -> checkLink packet htlc (bestHeight s) l <> Ok tt) by
    (intros q l Hlq Hpq Hc; assert (Hx : l ∈ taking packet htlc (PeerPubKey target) s); [apply elem_of_taking_of; exists q; split; [by apply (elem_of_getLinks s _ _ Hok); exists l|];
     by destruct Hlq|]; rewrite Hnone in Hx; by apply not_elem_of_nil in Hx).
  all: apply refuse_outcome; [done|]; destruct (checkLink packet htlc (bestHeight s) target) as [[]|e|] eqn:Hct;
    [by apply (Hrefuse p target Hta eq_refl) in Hct| |unfold checkLink in Hct; case_match; [done|]; by apply forward_returns in Hct].
  all: destruct (Hsome p target e) as [e' He']; [by apply (elem_of_getLinks s _ _ Hok); exists target|apply Hta|done|].
  all: rewrite Hsid in He'; rewrite He'; cbn; destruct (Herr _ _ He') as (q & l & Hq & Haq & Hsq & Hcq);
    apply (elem_of_getLinks s _ _ Hok) in Hq as (l' & Hlq & Hpq); assert (l' = l) as -> by (destruct Hlq; congruence);
    destruct (live_by_short s q p l target Hok Hlq Hta) as [_ ->]; [congruence|]; by apply (RefPolicy s packet htlc pick target e').
Qed.

(** C20. An add that comes to the switch is put into the mailbox of one live link: the
    one drawn from the links to the peer of the channel the sender named that are
    eligible and agree to the amounts and time locks.  Forwarding is on then, the route
    is not circular, the amount that leaves is not more than what came in, and neither
    the link it came in over nor the drawn one is exposed to too much dust.  Otherwise
    the incoming channel is delivered one failure for it, encrypted for the sender, that
    says the first check that failed, in this order: forwarding is off; the route is
    circular; the named channel is unknown; every link to its peer refuses (and this
    failure is what the named link said); the incoming link is unknown; dust on it; dust
    on the drawn link.  In every case nothing but the mailboxes changes, and those only
    by that one delivery, which may fail; nothing panics. *)
Theorem forward_add_correct s s' (now : Z) (pick : nat) (packet : htlcPacket) (htlc : UpdateAddHTLC) (enc : ErrorEncrypter) (r : res swerr unit) :
  sw_reachable s -> pk_htlc packet = UMAdd htlc -> obfuscator packet = Some enc ->
  handlePacketForward now pick packet s = (r, s') -> add_outcome s packet htlc now pick enc (r, s').
Proof. apply forward_add_run. Qed.

(** ** Answers *)

(** What is asked of the circuit map satisfies [P]. *)
Definition asks (P : request -> Prop) s s' : Prop :=
  rtc (fun m m' => exists q, allowed q m /\ P q /\ m' = serve q m) (circuits s) (circuits s').

#[local] Instance asks_preorder P : PreOrder (asks P).
Proof. split; [intros s; apply rtc_refl|unfold asks; intros s1 s2 s3 H12 H23; by etrans]. Qed.

Lemma asks_same P s s' : circuits s' = circuits s -> asks P s s'.
Proof. unfold asks. intros ->. apply rtc_refl. Qed.

Section Asks.
Context (P : request -> Prop).
Hypothesis P_commit : forall commits cs, P (RCommit commits cs).
Hypothesis P_fail : forall k, P (RFailCircuit k).
Hypothesis P_close : forall k, P (RCloseCircuit k).

Lemma asks_fail k : frames (asks P) (on_circuits (FailCircuit k) : M (Switch Msg L) swerr _).
Proof.
  intros s. assert (Hr : rtc (fun m m' => exists q, allowed q m /\ P q /\ m' = serve q m) (circuits s) (snd (FailCircuit k (circuits s)))).
  { apply rtc_once. exists (RFailCircuit k). by split_and!. }
  unfold on_circuits. destruct (FailCircuit k (circuits s)) as [[] m]; exact Hr.
Qed.

Lemma asks_close k : frames (asks P) (on_circuits (CloseCircuit k) : M (Switch Msg L) swerr _).
Proof.
  intros s. assert (Hr : rtc (fun m m' => exists q, allowed q m /\ P q /\ m' = serve q m) (circuits s) (snd (CloseCircuit k (circuits s)))).
  { apply rtc_once. exists (RCloseCircuit k). by split_and!. }
  unfold on_circuits. destruct (CloseCircuit k (circuits s)) as [[] m]; exact Hr.
Qed.

Lemma asks_delete commits ks : P (RDelete commits ks) -> frames (asks P) (on_circuits (DeleteCircuits commits ks) : M (Switch Msg L) swerr _).
Proof.
  intros HP s. assert (Hr : rtc (fun m m' => exists q, allowed q m /\ P q /\ m' = serve q m) (circuits s) (snd (DeleteCircuits commits ks (circuits s)))).
  { apply rtc_once. exists (RDelete commits ks). by split_and!. }
  unfold on_circuits. destruct (DeleteCircuits commits ks (circuits s)) as [[] m]; exact Hr.
Qed.

Lemma asks_commit commits cs : Forall fresh_circuit cs -> frames (asks P) (commitCircuits commits cs : M (Switch Msg L) swerr _).
Proof.
  intros Hf s. assert (Hr : rtc (fun m m' => exists q, allowed q m /\ P q /\ m' = serve q m) (circuits s) (CommitCircuits commits cs (circuits s)).2).
  { apply rtc_once. exists (RCommit commits cs). by split_and!. }
  unfold commitCircuits. destruct (CommitCircuits commits cs (circuits s)) as [[acts err] m]; exact Hr.
Qed.

Lemma asks_results {A} (f : M networkResultStore reserr A) : frames (asks P) (on_results f : M (Switch Msg L) swerr A).
Proof. intros s. unfold on_results. destruct (f (networkResults s)) as [[] m]; by apply asks_same. Qed.

Lemma asks_get {E} : frames (asks P) (get : M (Switch Msg L) E _).
Proof. intros s. by apply asks_same. Qed.

Lemma asks_deliver now sid pkt : frames (asks P) (deliver now sid pkt : M (Switch Msg L) swerr unit).
Proof. intros s. unfold deliver. destruct (Deliver now sid pkt (orch s)) as [[] o]; by apply asks_same. Qed.

Lemma asks_handle now l pkt : frames (asks P) (handleSwitchPacket now l pkt : M (Switch Msg L) swerr unit).
Proof. intros s. unfold handleSwitchPacket. destruct (addTo now (ChanID l) pkt (orch s)) as [[] o]; by apply asks_same. Qed.

Lemma asks_dust_box id : frames (asks P) (mailDust id : M (Switch Msg L) swerr _).
Proof. intros s. unfold mailDust. destruct (mailboxes (orch s) !! id); [destruct (DustPackets _)|]; by apply asks_same. Qed.

Lemma asks_ack commits refs : frames (asks P) (ackSettleFail commits refs : M (Switch Msg L) swerr unit).
Proof. intros s. unfold ackSettleFail. destruct (ackSettleFails refs (fwdPkgs s)); [destruct commits|..]; by apply asks_same. Qed.

#[local] Hint Resolve asks_fail asks_close asks_results asks_get asks_deliver asks_handle asks_dust_box asks_ack : frames.
Ltac asks_other := apply frames_modify; intros ?; by apply asks_same.

Lemma asks_dust l amount assetId incoming : frames (asks P) (evaluateDustThreshold l amount assetId incoming : M (Switch Msg L) swerr bool).
Proof. unfold evaluateDustThreshold. frames. asks_other. Qed.

Lemma asks_failAdd now packet failure : frames (asks P) (failAddPacket now packet failure : M (Switch Msg L) swerr unit).
Proof. unfold failAddPacket. frames. Qed.
#[local] Hint Resolve asks_dust asks_failAdd : frames.

Lemma asks_closeCircuit pkt : frames (asks P) (closeCircuit pkt : M (Switch Msg L) swerr _).
Proof.
  unfold closeCircuit. destruct (hasSource pkt); [frames|]. intros s. pose proof (asks_close (outKey pkt) s) as Hk.
  destruct (on_circuits (CloseCircuit (outKey pkt)) s) as [[c|e|] s']; cbn in *; [done| |done].
  destruct e as [?|[]|?|?| | | | | | | | | | | |?| |?|]; try done. destruct (pk_htlc pkt); exact Hk.
Qed.
#[local] Hint Resolve asks_closeCircuit : frames.

Lemma asks_forward now pick packet : frames (asks P) (handlePacketForward now pick packet : M (Switch Msg L) swerr unit).
Proof.
  unfold handlePacketForward, forwardAdd, forwardTo, forwardResponse. frames; try asks_other.
  all: apply frames_modify; intros s; apply asks_same; unfold logForward; case_match; [|done]; by case_match.
Qed.
#[local] Hint Resolve asks_forward : frames.

Lemma asks_routeAll ps : frames (asks P) (routeAll ps : M (Switch Msg L) swerr unit).
Proof. apply frames_modify. intros s. apply asks_same. revert s. induction ps as [|p ps IH]; intros s; [done|]. cbn. by rewrite IH. Qed.

Lemma asks_failAll now failure ps : frames (asks P) (failAll now failure ps : M (Switch Msg L) swerr unit).
Proof.
  induction ps; cbn [failAll]; frames. intros s. unfold ignore. pose proof (asks_failAdd now a failure s) as Hk.
  by destruct (failAddPacket now a failure s) as [[] s'].
Qed.
#[local] Hint Resolve asks_routeAll asks_failAll : frames.

Lemma firstPass_fresh ps : Forall fresh_circuit (omap pk_circuit (firstPass ps).1).
Proof.
  induction ps as [|p ps IH]; [constructor|]. cbn [firstPass]. destruct (firstPass ps) as [adds others]. cbn [fst] in IH.
  destruct (pk_htlc p); try exact IH. cbn. constructor; [apply new_circuit_fresh|exact IH].
Qed.

Lemma asks_batch fetch commits now ps : frames (asks P) (ForwardPackets fetch commits now ps : M (Switch Msg L) swerr unit).
Proof.
  unfold ForwardPackets. pose proof (firstPass_fresh ps) as Hf. destruct (firstPass ps) as [adds others]. cbn [fst] in Hf.
  apply frames_bind; [apply _|apply asks_routeAll|]. intros _. destruct (omap pk_circuit adds) as [|c cs]; [frames|].
  apply frames_bind; [apply _|by apply asks_commit|]. intros [acts err]. frames.
Qed.
#[local] Hint Resolve asks_batch : frames.

Lemma asks_local a b c pkt : P (RDelete c [inKey pkt]) -> frames (asks P) (handleLocalResponse a b c pkt : M (Switch Msg L) swerr unit).
Proof. intros HP. unfold handleLocalResponse, teardownCircuit. frames; by apply asks_delete. Qed.

Lemma asks_send commits firstHop attemptID htlc : frames (asks P) (SendHTLC commits firstHop attemptID htlc : M (Switch Msg L) swerr unit).
Proof.
  unfold SendHTLC. apply frames_bind; [apply _|apply asks_get|]. intros s0. apply frames_bind; [apply _|frames|]. intros pl.
  apply frames_bind; [apply _|apply asks_dust|]. intros tooMuch. apply frames_bind; [apply _|frames|]. intros _.
  apply frames_bind; [apply _|apply asks_commit; constructor; [apply new_circuit_fresh|constructor]|]. intros [acts err]. frames. asks_other.
Qed.

Lemma asks_reforward fetch now pkgs : frames (asks P) (reforwardSettleFails fetch now pkgs : M (Switch Msg L) swerr unit).
Proof. induction pkgs; cbn [reforwardSettleFails]; frames. Qed.
#[local] Hint Resolve asks_reforward : frames.

Lemma asks_responses fetch now chs : frames (asks P) (reforwardResponses fetch now chs : M (Switch Msg L) swerr unit).
Proof. induction chs as [|[sid pend] chs IH]; cbn [reforwardResponses]; frames. Qed.

Lemma asks_next now pick : frames (asks P) (forwardNext now pick : M (Switch Msg L) swerr unit).
Proof. unfold forwardNext. frames. asks_other. Qed.
End Asks.

(** What a step asks for besides committing, failing and closing. *)
Definition op_asks (P : request -> Prop) (op : sw_op) s : Prop :=
  match op with
  | OpLocal _ _ deletes i => forall pkt, sw_local s !! i = Some pkt -> P (RDelete deletes [inKey pkt])
  | OpCircuits q => P q
  | _ => True
  end.

#[local] Hint Resolve asks_get asks_results : frames.

Lemma run_asks (P : request -> Prop) op s : (forall commits cs, P (RCommit commits cs)) -> (forall k, P (RFailCircuit k)) ->
  (forall k, P (RCloseCircuit k)) -> sw_allowed op s -> op_asks P op s -> asks P s (run_sw op s).
Proof.
  intros Hc Hf Hcl Ha Ho. destruct op; cbn [run_sw sw_allowed op_asks] in *.
  - apply asks_same. unfold AddLink, mbind, M_bind, get, check, modify. repeat (case_match; simplify_eq/=; try done).
  - apply asks_same. unfold RemoveLink. by case_match.
  - apply asks_same. unfold UpdateShortChanID, mbind, M_bind, get, check, modify, throw. repeat (case_match; simplify_eq/=; try done).
  - by apply asks_send.
  - by apply asks_batch.
  - by apply asks_next.
  - by apply asks_forward.
  - unfold runLocal, mbind at 1, M_bind at 1, get at 1. destruct (sw_local s !! i) as [pkt|]; [|by apply asks_same].
    unfold mbind at 1, M_bind at 1, modify at 1. cbn [snd]. etrans; [by apply (asks_same _ s (s <| sw_local ::= delete i |>))|].
    apply asks_local. by apply Ho.
  - assert (Hq : frames (asks P) (GetPaymentResult attemptID : M (Switch Msg L) swerr _)); [|apply Hq].
    unfold GetPaymentResult. frames.
  - by apply asks_responses.
  - by apply asks_same.
  - apply asks_same. unfold ackPendingSettleFails, ackSettleFail. repeat (case_match; simplify_eq/=; try done).
  - apply asks_same. unfold FlushForwardingEvents, mbind, M_bind, get, check, modify. repeat (case_match; simplify_eq/=; try done).
  - apply asks_same. unfold stopLinks. set (f := fun s id => RemoveLink id s).
    assert (Hk : forall ids s0, circuits (foldl f s0 ids) = circuits s0).
    { induction ids as [|id ids IH]; intros s0; [done|]. cbn. rewrite IH. unfold f, RemoveLink. by case_match. }
    by rewrite !Hk.
  - by apply asks_same.
  - by apply asks_same.
  - apply rtc_once. exists q. done.
Qed.

Lemma sw_reachable_circuits s : sw_reachable s -> reachable (circuits s).
Proof.
  intros (c & h & m & rs & pkgs & e & Hm & Hr). assert (Hok : reachable (circuits (newSwitch c h m rs pkgs e))) by done.
  induction Hr as [|s0 s1 s2 (op & Ha & ->) _ IH]; [done|]. apply IH.
  assert (Hq : asks (fun _ => True) s0 (run_sw op s0)) by (apply run_asks; try done; by destruct op).
  unfold asks in Hq. clear -Hq Hok. revert Hok. induction Hq as [|m0 m1 m2 (q & Ha & _ & ->) _ IH]; [done|].
  intros Hm. by apply IH, reachable_serve.
Qed.

(** The circuit an answer is for: a failure of our own has its incoming key, one of
    the remote party is found by its outgoing key. *)
Definition is_answer (p : htlcPacket) : Prop := match pk_htlc p with UMFail _ | UMFulfill _ => True | _ => False end.

Definition answer_key s (p : htlcPacket) : option CircuitKey :=
  if hasSource p then Some (inKey p) else Incoming <$> LookupOpenCircuit (outKey p) (circuits s).

(** Steps that do not delete the circuit and do not restart the node. *)
Definition answer_step (k : CircuitKey) s s' : Prop :=
  exists op, sw_allowed op s /\ op_asks (fun q => ~ forgets k q) op s /\ s' = run_sw op s.

Lemma answer_steps_closed k s s' : kept (circuits s) -> k ∈ closed (circuits s) -> rtc (answer_step k) s s' ->
  kept (circuits s') /\ k ∈ closed (circuits s').
Proof.
  intros Hok Hk Hr. induction Hr as [s|s s1 s2 (op & Ha & Ho & ->) _ IH]; [done|].
  assert (Hq : asks (fun q => ~ forgets k q) s (run_sw op s)) by (apply run_asks; done || (intros; intros []) || auto).
  assert (Hx : kept (circuits (run_sw op s)) /\ k ∈ closed (circuits (run_sw op s))).
  { unfold asks in Hq. clear -Hq Hok Hk. revert Hok Hk. induction Hq as [|m m1 m2 Hstep _ IH]; intros Hok Hk; [done|].
    destruct (keeping_closed k m m1 Hok Hk) as [? ?]; [|by apply IH]. destruct Hstep as (q & ? & ? & ?). by exists q. }
  destruct Hx. by apply IH.
Qed.

(** An answer to a circuit that is closing is dropped. *)
Lemma closing_refused now pick p k s : cm_ok (circuits s) -> k ∈ closed (circuits s) -> is_answer p -> answer_key s p = Some k ->
  handlePacketForward now pick p s = (Err (ErrCircuit ErrCircuitClosing), s).
Proof.
  intros Hok Hk Ha Hkey.
  assert (Hclose : closeCircuit p s = (Err (ErrCircuit ErrCircuitClosing), s)).
  { unfold closeCircuit, answer_key in *. destruct (hasSource p).
    - injection Hkey as <-. unfold mbind, M_bind, on_circuits. rewrite fail_circuit_run.
      destruct (LookupCircuit (inKey p) (circuits s)) as [c|] eqn:Hl.
      + rewrite bool_decide_true by done. by destruct s.
      + apply (lookup_None _ Hok) in Hl. apply (ok_closed _ Hok) in Hk. rewrite Hl in Hk. by destruct Hk.
    - destruct (LookupOpenCircuit (outKey p) (circuits s)) as [c|] eqn:Hl; [|done]. injection Hkey as <-.
      unfold on_circuits. rewrite close_run, Hl, bool_decide_true by done. by destruct s. }
  unfold handlePacketForward, is_answer in *. destruct (pk_htlc p); try done; unfold forwardResponse, mbind, M_bind; by rewrite Hclose.
Qed.

(** Closing the circuit of an answer. *)
Lemma close_answer p k c p' s s1 : cm_ok (circuits s) -> answer_key s p = Some k -> closeCircuit p s = (Ok (c, p'), s1) ->
  is_Some c /\ inKey p' = k /\ pk_htlc p' = pk_htlc p /\ k ∈ closed (circuits s1) /\
  (exists m, s1 = s <| circuits := m |>) /\ is_Some (LookupCircuit k (circuits s)) /\ circuits s1 = circuits s <| closed ::= union {[k]} |>.
Proof.
  intros Hok Hkey Hrun. unfold closeCircuit, answer_key in *. destruct (hasSource p).
  - injection Hkey as <-. unfold mbind, M_bind, on_circuits in Hrun. rewrite fail_circuit_run in Hrun.
    destruct (LookupCircuit (inKey p) (circuits s)) as [c0|] eqn:Hl; [|done]. case_bool_decide; [done|]. injection Hrun as <- <- <-.
    split_and!; try done; [set_solver|by eexists].
  - destruct (LookupOpenCircuit (outKey p) (circuits s)) as [c0|] eqn:Hl; [|done]. injection Hkey as <-.
    unfold on_circuits in Hrun. rewrite close_run, Hl in Hrun. case_bool_decide; [done|]. injection Hrun as <- <- <-.
    apply (lookup_open_Some _ Hok) in Hl as [Hl _]. split_and!; try done; try (by rewrite Hl); try (by eexists); try (by destruct (Incoming c0)). set_solver.
Qed.

Lemma respond_run now p s c p' s1 : closeCircuit p s = (Ok (Some c, p'), s1) -> is_answer p' ->
  exists p2 s2, inKey p2 = inKey p' /\ circuits s2 = circuits s1 /\ orch s2 = orch s1 /\ sw_local s2 = sw_local s1 /\
    forwardResponse now p s = (if bool_decide (incomingChanID p' = Source) then (Ok tt, s2 <| sw_local ::= fun q => q ++ [p2] |>)
                               else deliver now (incomingChanID p') p2 s2).
Proof.
  intros Hrun Ha. unfold forwardResponse. rewrite (M_bind_run _ _ _ _ _ Hrun). unfold is_answer in Ha. destruct (pk_htlc p') as [|f|f| |] eqn:Hm; try done.
  - exists p', (logForward now c p' s1). 
    unfold mbind, M_bind, modify, mret, M_ret. split_and!; try done;
      try (unfold logForward; case_match; [|done]; by case_match).
    all: by case_bool_decide.
  - destruct (hasSource p').
    + exists p', s1. unfold mbind, M_bind, mret, M_ret, modify. split_and!; try done. all: by case_bool_decide.
    + exists (encryptReason c p' f), s1. assert (Hin : incomingChanID (encryptReason c p' f) = incomingChanID p' /\ inKey (encryptReason c p' f) = inKey p').
      { unfold encryptReason. repeat case_match; done. }
      destruct Hin as [Hic Hik]. unfold mbind, M_bind, mret, M_ret, modify. split_and!; try done. rewrite ?Hic; try done. all: by case_bool_decide.
Qed.

(** C21. An answer that the switch lets through goes, as one packet for the incoming HTLC
    of its circuit, to the channel the HTLC came in over, or to our own payments.  From
    then on, whatever else happens, until the circuit is deleted or the node restarts,
    every further answer to it, by whichever key, is dropped as closing and changes
    nothing: an HTLC is answered at most once. *)
Theorem answered_once s s1 (now : Z) (pick : nat) (p : htlcPacket) (k : CircuitKey) :
  sw_reachable s -> is_answer p -> answer_key s p = Some k -> handlePacketForward now pick p s = (Ok tt, s1) ->
  (exists p', inKey p' = k /\
    (ck_ChanID k = Source /\ sw_local s1 = sw_local s ++ [p'] /\ orch s1 = orch s \/
     ck_ChanID k <> Source /\ sw_local s1 = sw_local s /\ Deliver now (ck_ChanID k) p' (orch s) = (Ok tt, orch s1))) /\
  forall s2, rtc (answer_step k) s1 s2 -> forall now2 pick2 p2, is_answer p2 -> answer_key s2 p2 = Some k ->
    handlePacketForward now2 pick2 p2 s2 = (Err (ErrCircuit ErrCircuitClosing), s2).
Proof.
  intros Hr Ha Hkey Hrun. destruct (reachable_ok _ (sw_reachable_circuits s Hr)) as [Hok [stale Hsy]].
  assert (Hresp : forwardResponse now p s = (Ok tt, s1)).
  { unfold handlePacketForward, is_answer in *. destruct (pk_htlc p); done. }
  destruct (closeCircuit p s) as [[[c p']|e|] s0] eqn:Hclose; try (unfold forwardResponse, mbind at 1, M_bind at 1 in Hresp; by rewrite Hclose in Hresp).
  destruct (close_answer p k c p' s s0 Hok Hkey Hclose) as ([c0 ->] & Hik & Hm & Hcl & [m Hs0] & Hlk & Hcirc).
  destruct (respond_run now p s c0 p' s0 Hclose) as (p2 & s2 & Hk2 & Ec & Eo & El & Heq); [unfold is_answer in *; by rewrite Hm|].
  rewrite Heq in Hresp. clear Heq. assert (Hcid : incomingChanID p' = ck_ChanID k) by by rewrite <- Hik.
  assert (Hgo : (exists q, inKey q = k /\ (ck_ChanID k = Source /\ sw_local s1 = sw_local s ++ [q] /\ orch s1 = orch s \/
      ck_ChanID k <> Source /\ sw_local s1 = sw_local s /\ Deliver now (ck_ChanID k) q (orch s) = (Ok tt, orch s1))) /\ circuits s1 = circuits s0).
  { subst s0. rewrite Hcid in Hresp. case_bool_decide as Hsrc.
    - injection Hresp as <-. split; [|exact Ec]. exists p2. split; [congruence|]. left. split; [done|]. cbn. by rewrite El, Eo.
    - unfold deliver in Hresp. rewrite Eo in Hresp. cbn in Hresp. destruct (Deliver now (ck_ChanID k) p2 (orch s)) as [[[]|e|] o] eqn:Hd; try done.
      injection Hresp as <-. split; [|exact Ec]. exists p2. split; [congruence|]. right. split; [done|]. cbn. by rewrite Hd, El. }
  destruct Hgo as [Hgo Hc1]. split; [exact Hgo|]. intros sz Hsteps now2 pick2 p3 Ha3 Hk3.
  destruct (answer_steps_closed k s1 sz) as [[Hokz _] Hkz]; [rewrite Hc1, Hcirc; split; [by apply closed_ok|by exists stale]|by rewrite Hc1|done|].
  by apply (closing_refused now2 pick2 p3 k).
Qed.

(** ** Batches *)

(** The adds of a batch with their circuits. *)
Definition with_circuit (p : htlcPacket) : htlcPacket :=
  match pk_htlc p with UMAdd htlc => p <| pk_circuit := Some (newPaymentCircuit (add_PaymentHash htlc) p) |> | _ => p end.
Definition is_add (p : htlcPacket) : bool := match pk_htlc p with UMAdd _ => true | _ => false end.

Lemma firstPass_eq ps : firstPass ps = (with_circuit <$> filter (fun p => is_add p = true) ps, filter (fun p => is_add p = false) ps).
Proof.
  induction ps as [|p ps IH]; [done|]. cbn [firstPass]. rewrite IH. unfold is_add, with_circuit.
  destruct (pk_htlc p) eqn:Hm; rewrite !filter_cons, !Hm; try (rewrite decide_False by done; rewrite decide_True by done; done).
  rewrite decide_True by done. rewrite decide_False by done. cbn. by rewrite Hm.
Qed.

(** The packets of a batch whose circuit is in a list. *)
Definition of_batch (cs : list PaymentCircuit) (p : htlcPacket) : bool :=
  match pk_circuit p with Some c => bool_decide (c ∈ cs) | None => false end.

Lemma sublist_head {A} (c : A) (l cs : list A) : NoDup (c :: cs) -> l `sublist_of` c :: cs -> c ∈ l -> exists q, l = c :: q /\ q `sublist_of` cs.
Proof.
  intros [Hc _]%list.NoDup_cons Hs Hin. apply sublist_cons_r in Hs as [Hs|(q & -> & Hs)]; [|by exists q].
  destruct Hc. by eapply elem_of_sublist.
Qed.

Lemma sublist_tail {A} (c : A) (l cs : list A) : l `sublist_of` c :: cs -> c ∉ l -> l `sublist_of` cs.
Proof. intros Hs Hn. apply sublist_cons_r in Hs as [Hs|(l' & -> & Hs)]; [done|]. destruct Hn. by left. Qed.

Lemma front_in c p cs : pk_circuit p = Some c -> at_front p (c :: cs) = true.
Proof. intros Hp. unfold at_front. rewrite Hp. by rewrite bool_decide_true. Qed.

Lemma front_out c p cs : pk_circuit p = Some c -> c ∉ cs -> at_front p cs = false.
Proof. intros Hp Hn. unfold at_front. rewrite Hp. destruct cs as [|c' cs]; [done|]. rewrite bool_decide_false; [done|]. intros <-. destruct Hn. by left. Qed.

Lemma of_batch_tail c cs (ps : list htlcPacket) : c ∉ omap pk_circuit ps ->
  filter (fun p => of_batch (c :: cs) p = true) ps = filter (fun p => of_batch cs p = true) ps.
Proof.
  intros Hn. induction ps as [|p ps IH]; [done|]. assert (Hb : of_batch (c :: cs) p = of_batch cs p).
  { unfold of_batch. destruct (pk_circuit p) as [c'|] eqn:Hp; [|done]. apply bool_decide_ext. rewrite elem_of_cons. split; [|by right].
    intros [->|?]; [|done]. destruct Hn. cbn. rewrite Hp. by left. }
  rewrite !filter_cons, Hb, IH; [done|]. intros Hin. apply Hn. cbn. destruct (pk_circuit p); [by right|done].
Qed.

(** The in-order seek finds every packet where the circuit map put its circuit. *)
Lemma split_eq (ps : list htlcPacket) : forall acts, Forall (fun p => is_Some (pk_circuit p)) ps -> NoDup (omap pk_circuit ps) ->
  Adds acts ++ Drops acts ++ Fails acts ≡ₚ omap pk_circuit ps -> Adds acts `sublist_of` omap pk_circuit ps ->
  Drops acts `sublist_of` omap pk_circuit ps -> Fails acts `sublist_of` omap pk_circuit ps ->
  splitPackets ps acts = (filter (fun p => of_batch (Adds acts) p = true) ps, filter (fun p => of_batch (Fails acts) p = true) ps).
Proof.
  induction ps as [|p ps IH]; intros [adds drops fails]; cbn [Adds Drops Fails]; intros Hsome Hnd Hperm Ha Hd Hf; [done|].
  apply list.Forall_cons in Hsome as [[c Hp] Hsome]. cbn [omap list_omap] in *. rewrite Hp in *.
  pose proof Hnd as [Hnc Hnd']%list.NoDup_cons. assert (Hall : NoDup (adds ++ drops ++ fails)) by by rewrite Hperm.
  apply list.NoDup_app in Hall as (_ & Hadf & Hall). apply list.NoDup_app in Hall as (_ & Hdf & _).
  assert (Hin : c ∈ adds ++ drops ++ fails) by (rewrite Hperm; by left).
  assert (Hb : forall q, of_batch q p = bool_decide (c ∈ q)) by (intros; unfold of_batch; by rewrite Hp).
  cbn [splitPackets Adds Drops Fails]. rewrite !filter_cons, !Hb. apply elem_of_app in Hin as [Hin|Hin].
  - destruct (sublist_head c adds _ Hnd Ha Hin) as (adds' & -> & Ha'). rewrite (front_in c p adds' Hp). cbn [tail].
    assert (Hnd2 : c ∉ drops /\ c ∉ fails) by (split; intros Hx; apply (Hadf c Hin); apply elem_of_app; auto). destruct Hnd2 as [N1 N2].
    rewrite (IH (mkActions adds' drops fails)); cbn [Adds Drops Fails]; try done; try (by eapply sublist_tail); [|by apply (Permutation_cons_inv (a := c))].
    rewrite !bool_decide_true, (bool_decide_false _ N2) by done. rewrite decide_True, decide_False by done. by rewrite of_batch_tail.
  - assert (Nadd : c ∉ adds) by (intros Hx; by apply (Hadf c Hx)). rewrite (front_out c p adds Hp Nadd).
    rewrite (bool_decide_false _ Nadd), decide_False by done. apply elem_of_app in Hin as [Hin|Hin].
    + destruct (sublist_head c drops _ Hnd Hd Hin) as (drops' & -> & Hd'). rewrite (front_in c p drops' Hp). cbn [tail].
      assert (Nf : c ∉ fails) by by apply Hdf. rewrite (bool_decide_false _ Nf), decide_False by done.
      apply (IH (mkActions adds drops' fails)); cbn [Adds Drops Fails]; try done; try (by eapply sublist_tail).
      apply (Permutation_cons_inv (a := c)). rewrite <- Hperm. apply Permutation_middle.
    + assert (Nd : c ∉ drops) by (intros Hx; by apply (Hdf c Hx)). rewrite (front_out c p drops Hp Nd).
      destruct (sublist_head c fails _ Hnd Hf Hin) as (fails' & -> & Hf'). rewrite (front_in c p fails' Hp). cbn [tail].
      rewrite (IH (mkActions adds drops fails')); cbn [Adds Drops Fails]; try done; try (by eapply sublist_tail).
      * rewrite bool_decide_true, decide_True by (done || by left). by rewrite of_batch_tail.
      * apply (Permutation_cons_inv (a := c)). rewrite <- Hperm, !app_assoc. apply Permutation_middle.
Qed.

(** The channel an HTLC came in over is sent its failure, if it can be encrypted. *)
Definition failBack (now : Z) (failure : LinkError) (o : mailOrchestrator Msg) (p : htlcPacket) : mailOrchestrator Msg :=
  match obfuscator p with
  | Some e => match EncryptFirstHop e (WireMessage failure) with
              | Ok reason => snd (Deliver now (incomingChanID p) (failed p failure reason) o)
              | _ => o
              end
  | None => o
  end.

Lemma failAll_run now failure ps : forall s, Forall (fun p => is_Some (obfuscator p)) ps ->
  failAll now failure ps s = (Ok tt, s <| orch := foldl (failBack now failure) (orch s) ps |>).
Proof.
  induction ps as [|p ps IH]; intros s Hobf; cbn [failAll foldl]; [by destruct s|]. apply list.Forall_cons in Hobf as [[e He] Hobf].
  assert (Hone : ignore (failAddPacket now p failure) s = (Ok tt, s <| orch := failBack now failure (orch s) p |>)).
  { unfold ignore, failAddPacket, failBack. rewrite He. pose proof (encrypt_returns e (WireMessage failure)) as Hn.
    destruct (EncryptFirstHop e (WireMessage failure)) as [reason|x|]; [|by destruct s|done].
    unfold mbind, M_bind, deliver, throw. pose proof (Deliver_returns now (incomingChanID p) (failed p failure reason) (orch s)) as Hd.
    by destruct (Deliver now (incomingChanID p) (failed p failure reason) (orch s)) as [[] o]. }
  unfold mbind, M_bind. rewrite Hone. rewrite IH by done. cbn. done.
Qed.

Lemma route_eq ps : forall s, foldl (fun s p => routeAsync p s) s ps = s <| htlcPlex ::= fun q => q ++ ps |>.
Proof.
  induction ps as [|p ps IH]; intros s; cbn [foldl].
  - destruct s. unfold upd. cbn. by rewrite app_nil_r.
  - rewrite IH. unfold routeAsync, upd. cbn. by rewrite <- app_assoc.
Qed.

(** What is known of an HTLC when a batch has it as an add: nothing, that it is under
    way, or that it was before a restart and never left. *)
Inductive fate : Type := Unknown | UnderWay | Stranded.
Definition fate_of (m : circuitMap) (p : htlcPacket) : fate :=
  match LookupCircuit (inKey p) m with
  | None => Unknown
  | Some c => if HasKeystone c || negb (LoadedFromDisk c) then UnderWay else Stranded
  end.
#[local] Instance fate_eq_dec : EqDecision fate.
Proof. solve_decision. Defined.

Lemma underway_fate m p c : LookupCircuit (inKey p) m = Some c -> fate_of m p = UnderWay <-> underway c.
Proof. intros Hl. unfold fate_of, underway. rewrite Hl. destruct (HasKeystone c), (LoadedFromDisk c); cbn; naive_solver. Qed.

Lemma filter_agree {A} (P Q : A -> bool) (xs : list A) : (forall x, x ∈ xs -> P x = Q x) ->
  filter (fun x => P x = true) xs = filter (fun x => Q x = true) xs.
Proof.
  induction xs as [|x xs IH]; intros Hx; [done|]. rewrite !filter_cons, (Hx x) by by left.
  rewrite IH; [done|]. intros y Hy. apply Hx. by right.
Qed.

Definition adds_of (ps : list htlcPacket) : list htlcPacket := with_circuit <$> filter (fun p => is_add p = true) ps.
Definition fated (m : circuitMap) (x : fate) (ps : list htlcPacket) : list htlcPacket := filter (fun p => bool_decide (fate_of m p = x) = true) (adds_of ps).

(** Every add has the circuit of its key. *)
Lemma adds_of_circuit ps : Forall (fun p => exists c, pk_circuit p = Some c /\ Incoming c = inKey p) (adds_of ps).
Proof.
  apply list.Forall_forall. intros p (q & -> & [Ha _]%list_elem_of_filter)%list_elem_of_fmap.
  unfold is_add, with_circuit in *. destruct (pk_htlc q); try done. by eexists.
Qed.

Lemma adds_of_keys ps : Incoming <$> omap pk_circuit (adds_of ps) = inKey <$> filter (fun p => is_add p = true) ps.
Proof.
  unfold adds_of. induction ps as [|p ps IH]; [done|]. rewrite !filter_cons. destruct (decide (is_add p = true)) as [Ha|_]; [|exact IH].
  rewrite !fmap_cons. cbn [omap list_omap]. unfold is_add, with_circuit in *. destruct (pk_htlc p); try done. cbn. by f_equal.
Qed.

Lemma adds_of_obfuscator ps : Forall (fun p => is_Some (obfuscator p)) (filter (fun p => is_add p = true) ps) ->
  Forall (fun p => is_Some (obfuscator p)) (adds_of ps).
Proof.
  unfold adds_of. intros Hall. apply list.Forall_fmap. revert Hall. apply Forall_impl. intros p Hp. cbn. unfold with_circuit. by destruct (pk_htlc p).
Qed.

(** How the circuit map's answer sorts a batch, when it can be written. *)
Lemma batch_fates (m m' : circuitMap) ps acts : NoDup (inKey <$> filter (fun p => is_add p = true) ps) ->
  commit_spec m (omap pk_circuit (adds_of ps)) acts None m' -> forall p, p ∈ adds_of ps ->
  of_batch (Adds acts) p = bool_decide (fate_of m p = Unknown) /\ of_batch (Fails acts) p = bool_decide (fate_of m p = Stranded).
Proof.
  rewrite <- adds_of_keys. intros Hnd (Hperm & _ & _ & _ & _ & Hnew & Hlook & Hdrop & Hfail) p Hp.
  pose proof (adds_of_circuit ps) as Hc. rewrite list.Forall_forall in Hc. destruct (Hc p Hp) as (c & Hpc & Hk). clear Hc.
  assert (Hin : c ∈ omap pk_circuit (adds_of ps)) by (apply list_elem_of_omap; by exists p).
  rewrite <- Hperm in Hin, Hnd. rewrite !fmap_app in Hnd. apply list.NoDup_app in Hnd as (_ & Hadf & Hnd). apply list.NoDup_app in Hnd as (_ & Hdf & _).
  assert (Hold : forall f, (c ∈ Drops acts \/ c ∈ Fails acts) -> LookupCircuit (Incoming c) m' = Some f -> LookupCircuit (inKey p) m = Some f).
  { intros f Hdf' [Hf|[Ha Hi]]%Hlook; [congruence|]. exfalso. apply (Hadf (Incoming c)); [rewrite <- Hi; by apply list_elem_of_fmap_2|].
    apply elem_of_app. destruct Hdf'; [left|right]; by apply list_elem_of_fmap_2. }
  unfold of_batch. rewrite Hpc. apply elem_of_app in Hin as [Ha|[Hd|Hf]%elem_of_app].
  - assert (Hu : fate_of m p = Unknown) by (unfold fate_of; rewrite <- Hk; by rewrite (Hnew c Ha)).
    assert (HnF : c ∉ Fails acts) by (intros Hf; apply (Hadf (Incoming c)); [by apply list_elem_of_fmap_2|]; apply elem_of_app; right; by apply list_elem_of_fmap_2).
    by rewrite Hu, (bool_decide_true _ Ha), (bool_decide_false _ HnF).
  - destruct (Hdrop c Hd) as (f & Hf & Hu). apply (Hold f (or_introl Hd)) in Hf. apply (underway_fate m p f Hf) in Hu. rewrite Hu.
    assert (HnF : c ∉ Fails acts) by (intros Hx; apply (Hdf (Incoming c)); by apply list_elem_of_fmap_2).
    assert (HnA : c ∉ Adds acts) by (intros Hx; apply (Hadf (Incoming c)); [by apply list_elem_of_fmap_2|]; apply elem_of_app; left; by apply list_elem_of_fmap_2).
    by rewrite (bool_decide_false _ HnA), (bool_decide_false _ HnF).
  - destruct (Hfail c Hf) as (f & Hl & Hu). apply (Hold f (or_intror Hf)) in Hl.
    assert (Hs : fate_of m p = Stranded).
    { unfold fate_of. rewrite Hl. unfold underway in Hu. destruct (HasKeystone f), (LoadedFromDisk f); naive_solver. }
    assert (HnA : c ∉ Adds acts) by (intros Hx; apply (Hadf (Incoming c)); [by apply list_elem_of_fmap_2|]; apply elem_of_app; right; by apply list_elem_of_fmap_2).
    by rewrite Hs, (bool_decide_false _ HnA), (bool_decide_true _ Hf).
Qed.

(** And when it cannot be written. *)
Lemma batch_fates_failed (m m' : circuitMap) ps acts e : NoDup (inKey <$> filter (fun p => is_add p = true) ps) ->
  commit_spec m (omap pk_circuit (adds_of ps)) acts (Some e) m' -> forall p, p ∈ adds_of ps ->
  of_batch (Adds acts) p = false /\ of_batch (Fails acts) p = bool_decide (fate_of m p <> UnderWay).
Proof.
  rewrite <- adds_of_keys. intros Hnd (Hperm & _ & _ & _ & Hadds & _ & Hdrop & Hfail) p Hp.
  pose proof (adds_of_circuit ps) as Hc. rewrite list.Forall_forall in Hc. destruct (Hc p Hp) as (c & Hpc & Hk). clear Hc.
  assert (Hin : c ∈ omap pk_circuit (adds_of ps)) by (apply list_elem_of_omap; by exists p).
  rewrite Hadds in Hperm. cbn [app] in Hperm. rewrite <- Hperm in Hin, Hnd. rewrite fmap_app in Hnd. apply list.NoDup_app in Hnd as (_ & Hdf & _).
  unfold of_batch. rewrite Hpc, Hadds. split; [apply bool_decide_eq_false; apply not_elem_of_nil|].
  apply bool_decide_ext. unfold fate_of. rewrite <- Hk. apply elem_of_app in Hin as [Hd|Hf].
  - assert (HnF : Incoming c ∉ Incoming <$> Fails acts) by (apply Hdf; by apply list_elem_of_fmap_2).
    destruct (Hdrop c Hd) as [(f & -> & Hu)|(c' & Hc' & Heq)].
    + split; [intros Hx; destruct HnF; by apply list_elem_of_fmap_2|].
      unfold underway in Hu. destruct (HasKeystone f), (LoadedFromDisk f); cbn; naive_solver.
    + destruct HnF. rewrite <- Heq. by apply list_elem_of_fmap_2.
  - split; [intros _|done]. destruct (Hfail c Hf) as [->|(f & -> & Hu)]; [done|].
    unfold underway in Hu. destruct (HasKeystone f), (LoadedFromDisk f); cbn; naive_solver.
Qed.

(** What a batch comes to, given what the circuit map decided. *)
Definition batch_result fetch (now : Z) (ps routed stale : list htlcPacket) (m : circuitMap) s : Switch Msg L :=
  s <| circuits := m |> <| htlcPlex ::= fun q => q ++ filter (fun p => is_add p = false) ps ++ routed |>
    <| orch := match stale with
               | [] => orch s
               | p :: _ => foldl (failBack now (NewDetailedLinkError (addFailure fetch (incomingChanID p)) OutgoingFailureIncompleteForward)) (orch s) stale
               end |>.

Lemma batch_run fetch commits now ps s acts err m : reachable (circuits s) ->
  NoDup (inKey <$> filter (fun p => is_add p = true) ps) -> Forall (fun p => is_Some (obfuscator p)) (filter (fun p => is_add p = true) ps) ->
  CommitCircuits commits (omap pk_circuit (adds_of ps)) (circuits s) = (acts, err, m) ->
  commit_spec (circuits s) (omap pk_circuit (adds_of ps)) acts err m /\ (err = None \/ commits = false) /\
  (commits = true \/ Adds acts = []) /\
  ForwardPackets fetch commits now ps s = (Ok tt,
    batch_result fetch now ps (filter (fun p => of_batch (Adds acts) p = true) (adds_of ps)) (filter (fun p => of_batch (Fails acts) p = true) (adds_of ps)) m s).
Proof.
  intros [Hok [stale Hsy]]%reachable_ok Hnd Hobf Hrun.
  assert (Hfresh : Forall fresh_circuit (omap pk_circuit (adds_of ps))).
  { pose proof (firstPass_fresh ps) as Hf. by rewrite firstPass_eq in Hf. }
  destruct (commit_ok stale commits _ _ acts err m Hok Hsy Hfresh Hrun) as (_ & _ & Hspec & Herr & Hno). split_and!; [done|done|done|].
  assert (Hsplit : splitPackets (adds_of ps) acts = (filter (fun p => of_batch (Adds acts) p = true) (adds_of ps), filter (fun p => of_batch (Fails acts) p = true) (adds_of ps))).
  { destruct Hspec as (Hperm & (Ha & Hd & Hf) & _). apply split_eq; try done.
    - generalize (adds_of_circuit ps). apply Forall_impl. by intros p (c & -> & _).
    - apply (NoDup_fmap_1 Incoming). by rewrite adds_of_keys. }
  unfold ForwardPackets. rewrite firstPass_eq. change (with_circuit <$> _) with (adds_of ps).
  unfold mbind at 1, M_bind at 1, routeAll at 1, modify. rewrite route_eq.
  destruct (omap pk_circuit (adds_of ps)) as [|c cs] eqn:Hcs.
  - assert (Hnil : adds_of ps = []).
    { pose proof (adds_of_circuit ps) as Hc. destruct (adds_of ps) as [|p qs]; [done|]. apply list.Forall_cons in Hc as [(c & Hp & _) _]. cbn in Hcs. by rewrite Hp in Hcs. }
    injection Hrun as <- <- <-. rewrite Hnil. unfold batch_result, mret, M_ret, upd. destruct s; cbn. by rewrite app_nil_r.
  - unfold mbind at 1, M_bind at 1, commitCircuits. change (circuits (s <| htlcPlex ::= _ |>)) with (circuits s). rewrite Hrun. cbn [fst].
    rewrite Hsplit. unfold mbind at 1, M_bind at 1, routeAll, modify. rewrite route_eq.
    destruct (filter (fun p => of_batch (Fails acts) p = true) (adds_of ps)) as [|p qs] eqn:Hfails.
    + unfold batch_result, mret, M_ret, upd. cbn. by rewrite <- app_assoc.
    + rewrite failAll_run.
      * unfold batch_result, upd. cbn. by rewrite <- app_assoc.
      * rewrite <- Hfails. apply adds_of_obfuscator in Hobf. rewrite list.Forall_forall in Hobf. apply list.Forall_forall.
        intros q [_ Hq]%list_elem_of_filter. by apply Hobf.
Qed.

(** No add of the batch is in the list. *)
Lemma filter_none {A} (P : A -> bool) (xs : list A) : (forall x, x ∈ xs -> P x = false) -> filter (fun x => P x = true) xs = [].
Proof.
  induction xs as [|x xs IH]; intros Hx; [done|]. rewrite filter_cons, (Hx x) by by left. apply IH. intros y Hy. apply Hx. by right.
Qed.

(** C22. A batch from a link is split as the circuit map knows its HTLCs: every answer
    goes to the forwarder, and after the answers, in the order of the batch, every add
    that is not known, whose circuit the map then has; an add that is under way is
    dropped; one that was half open before a restart is failed back to the channel it
    came in over.  If the circuits cannot be written no add goes on, no circuit is
    added, and every add that is not under way is failed back.  The open circuits and
    the marks of closing stay as they are. *)
Theorem forward_packets_correct s fetch (commits : bool) (now : Z) (ps : list htlcPacket) : sw_reachable s ->
  NoDup (inKey <$> filter (fun p => is_add p = true) ps) -> Forall (fun p => is_Some (obfuscator p)) (filter (fun p => is_add p = true) ps) ->
  exists m routed stale, ForwardPackets fetch commits now ps s = (Ok tt, batch_result fetch now ps routed stale m s) /\
    (forall k c, LookupCircuit k m = Some c <->
       LookupCircuit k (circuits s) = Some c \/ exists p, p ∈ routed /\ inKey p = k /\ pk_circuit p = Some c) /\
    (forall o, LookupOpenCircuit o m = LookupOpenCircuit o (circuits s)) /\ closed m = closed (circuits s) /\
    if commits then routed = fated (circuits s) Unknown ps /\ stale = fated (circuits s) Stranded ps
    else routed = [] /\ stale = filter (fun p => bool_decide (fate_of (circuits s) p <> UnderWay) = true) (adds_of ps).
Proof.
  intros Hr%sw_reachable_circuits Hnd Hobf.
  destruct (CommitCircuits commits (omap pk_circuit (adds_of ps)) (circuits s)) as [[acts err] m] eqn:Hrun.
  destruct (batch_run fetch commits now ps s acts err m Hr Hnd Hobf Hrun) as (Hspec & Herr & Hno & Hbatch).
  pose proof Hspec as (_ & _ & Hopen & Hclosed & _).
  assert (Hnone : Adds acts = [] -> filter (fun p => of_batch (Adds acts) p = true) (adds_of ps) = []).
  { intros ->. apply filter_none. intros p _. unfold of_batch. case_match; [|done]. apply bool_decide_eq_false, not_elem_of_nil. }
  do 3 eexists. split; [exact Hbatch|]. destruct err as [e|].
  - destruct Herr as [ ? | -> ]; [done|]. pose proof (batch_fates_failed _ m ps acts e Hnd Hspec) as Hfates.
    destruct Hspec as (_ & _ & _ & _ & Hadds & Hlook & _). rewrite Hnone by done. split; [|split; [done|split; [done|split; [done|]]]].
    + intros k c. rewrite Hlook. split; [by left|]. by intros [ ? |(p & ?%elem_of_nil & _)].
    + apply filter_agree. intros p Hp. by apply Hfates.
  - pose proof (batch_fates _ m ps acts Hnd Hspec) as Hfates. split; [|split; [done|split; [done|]]].
    + destruct Hspec as (Hperm & _ & _ & _ & _ & _ & Hlook & _).
      intros k c. rewrite Hlook. pose proof (adds_of_circuit ps) as Hc. rewrite list.Forall_forall in Hc.
      split; (intros [ ?|Hx ]; [by left|right]).
      * destruct Hx as [Ha Hk]. assert (Hin : c ∈ omap pk_circuit (adds_of ps)) by (rewrite <- Hperm; apply elem_of_app; by left).
        apply list_elem_of_omap in Hin as (p & Hp & Hpc). exists p. destruct (Hc p Hp) as (c' & Hpc' & Hk').
        split; [|split; congruence]. apply list_elem_of_filter. split; [|done]. unfold of_batch. rewrite Hpc. by apply bool_decide_true.
      * destruct Hx as (p & [Ha Hp]%list_elem_of_filter & Hk & Hpc). destruct (Hc p Hp) as (c' & Hpc' & Hk').
        unfold of_batch in Ha. rewrite Hpc in Ha. apply bool_decide_eq_true in Ha. split; [done|congruence].
    + destruct commits; [split; apply filter_agree; intros p Hp; by apply Hfates|]. destruct Hno as [ ?|Hadds ]; [done|].
      rewrite Hnone by done. split; [done|]. apply filter_agree. intros p Hp. destruct (Hfates p Hp) as [Ha ->].
      assert (Hu : fate_of (circuits s) p <> Unknown).
      { intros Hu. rewrite Hu in Ha. revert Ha. unfold of_batch. rewrite Hadds. case_match; [|done].
        rewrite bool_decide_false by apply not_elem_of_nil. done. }
      by destruct (fate_of (circuits s) p).
Qed.
End SwitchTheorems.

(** ** Witnesses *)

(** A link that only has names and takes what does not cost it. *)
Record toyLink := mkToy { toy_id : bytes; toy_short : ShortChannelID; toy_peer : bytes }.
#[local] Instance toy_eta : Eta toyLink := fun l => mkToy (toy_id l) (toy_short l) (toy_peer l).
#[local] Instance toy_link : ChannelLink toyLink := {|
  ChanID := toy_id;
  ShortChanID := toy_short;
  SetShortChanID s l := l <| toy_short := s |>;
  PeerPubKey := toy_peer;
  EligibleToForward _ := true;
  CheckHtlcForward _ _ amtIn amtOut _ _ _ := if amtIn <? amtOut then Err (NewLinkError FailUnknownNextPeer) else Ok tt;
  CheckHtlcTransit _ _ _ _ _ := Ok tt;
  handleLocalAddPacket _ l := (Ok tt, l);
  getDustSum _ _ := 0;
  getFeeRate _ := 250;
  getDustClosure _ _ _ _ amt _ := amt <? 1
|}.
#[local] Instance toy_laws : ChannelLinkLaws toyLink.
Proof.
  split; try done; intros l h amtIn amtOut tIn tOut height; cbn; destruct (Z.ltb_spec amtIn amtOut); try done; lia.
Qed.
#[local] Instance toy_varint : VarIntOps := varint8.
#[local] Instance plain_sphinx : SphinxLib := {| EncryptError _ _ b := b |}.

Definition toy_scid (n : Z) : ShortChannelID := mkSCID n 1 0.
Definition toy_a : toyLink := mkToy [Byte.x01] (toy_scid 1) [Byte.xaa].
Definition toy_b : toyLink := mkToy [Byte.x02] (toy_scid 2) [Byte.xbb].
Definition toy_cfg : Config := mkConfig false false 1000000.
Definition toy_s0 : Switch bytes toyLink := newSwitch toy_cfg 100 empty_circuitMap ∅ None 60.
Definition toy_s2 : Switch bytes toyLink := run_sw (OpAddLink 0 true toy_b) (run_sw (OpAddLink 0 true toy_a) toy_s0).

Definition toy_add (n : Z) : UpdateAddHTLC := mkUpdateAddHTLC [] 0 9990000 0 [] 560 [] [].
Definition toy_packet (n : Z) (m : UpdateMsg) : htlcPacket :=
  mkPacket (toy_scid 1) (toy_scid 2) n 0 None None 10000000 9990000 0 m (Some mockObfuscator) false None false false false None 600 560.

Lemma toy_s2_reachable : sw_reachable toy_s2.
Proof.
  exists toy_cfg, 100, empty_circuitMap, ∅, None, 60. split; [exists ∅; constructor|].
  eapply rtc_l; [exists (OpAddLink 0 true toy_a); split; [by intros id|reflexivity]|].
  apply rtc_once. exists (OpAddLink 0 true toy_b). split; [by intros id|reflexivity].
Qed.

Lemma link_indexes_correct_witness :
  (exists l, link_at 0 toy_s2 = Some l /\ ChanID l = [Byte.x01]) /\ getLinkByShortID (toy_scid 2) toy_s2 = Some 1.
Proof.
  destruct (link_indexes_correct toy_s2 toy_s2_reachable) as (Hid & Hshort & _). split; [apply Hid; reflexivity|].
  apply Hshort. exists toy_b. repeat split; reflexivity.
Defined.

Definition toy_run : res swerr unit * Switch bytes toyLink := handlePacketForward 5 0 (toy_packet 7 (UMAdd (toy_add 7))) toy_s2.

Lemma forward_add_correct_witness : toy_run.1 = Ok tt /\ exists p dest, takes toy_s2 (toy_packet 7 (UMAdd (toy_add 7))) (toy_add 7) 0 p dest.
Proof.
  assert (Hok : toy_run.1 = Ok tt) by (vm_compute; reflexivity). split; [exact Hok|].
  pose proof (forward_add_correct toy_s2 (snd toy_run) 5 0 (toy_packet 7 (UMAdd (toy_add 7))) (toy_add 7) mockObfuscator (fst toy_run)
    toy_s2_reachable eq_refl eq_refl (surjective_pairing toy_run)) as Hout.
  unfold add_outcome in Hout. cbn [fst] in Hout. rewrite Hok in Hout. destruct Hout as (_ & p & dest & Ht & _). by exists p, dest.
Defined.

Definition toy_batch : list htlcPacket := [toy_packet 7 (UMAdd (toy_add 7)); toy_packet 8 (UMFulfill (mkUpdateFulfillHTLC zero32 0 [] [])); toy_packet 9 (UMAdd (toy_add 9))].

Lemma forward_packets_correct_witness :
  (exists m routed stale, ForwardPackets (fun _ => None) true 5 toy_batch toy_s2 = (Ok tt, batch_result (fun _ => None) 5 toy_batch routed stale m toy_s2) /\
    inKey <$> routed = [mkCircuitKey (toy_scid 1) 7; mkCircuitKey (toy_scid 1) 9] /\ stale = []) /\
  exists m routed stale, ForwardPackets (fun _ => None) false 5 toy_batch toy_s2 = (Ok tt, batch_result (fun _ => None) 5 toy_batch routed stale m toy_s2) /\
    routed = [] /\ inKey <$> stale = [mkCircuitKey (toy_scid 1) 7; mkCircuitKey (toy_scid 1) 9].
Proof.
  assert (Hnd : NoDup (inKey <$> filter (fun p => is_add p = true) toy_batch)) by (apply (bool_decide_unpack _); vm_compute; exact I).
  assert (Hobf : Forall (fun p => is_Some (obfuscator p)) (filter (fun p => is_add p = true) toy_batch)) by (repeat constructor; by eexists).
  split.
  - destruct (forward_packets_correct toy_s2 (fun _ => None) true 5 toy_batch toy_s2_reachable Hnd Hobf) as (m & routed & stale & Hrun & _ & _ & _ & Hr & Hs).
    exists m, routed, stale. split; [exact Hrun|]. rewrite Hr, Hs. split; vm_compute; reflexivity.
  - destruct (forward_packets_correct toy_s2 (fun _ => None) false 5 toy_batch toy_s2_reachable Hnd Hobf) as (m & routed & stale & Hrun & _ & _ & _ & Hr & Hs).
    exists m, routed, stale. split; [exact Hrun|]. rewrite Hr, Hs. split; vm_compute; reflexivity.
Defined.

Definition toy_open : sw_op (Msg := bytes) (L := toyLink) :=
  OpCircuits (ROpen true [mkKeystone (mkCircuitKey (toy_scid 1) 7) (mkCircuitKey (toy_scid 2) 0)]).
Definition toy_s3 : Switch bytes toyLink := run_sw (OpBatch (fun _ => None) true 5 toy_batch) toy_s2.
Definition toy_s4 : Switch bytes toyLink := run_sw toy_open toy_s3.
Definition toy_answer (source : bool) (reason : bytes) : htlcPacket :=
  mkPacket (toy_scid 1) (toy_scid 2) 7 0 None None 0 0 0 (UMFail (mkUpdateFailHTLC zero32 0 reason [])) None false None false source false None 0 0.

Lemma toy_s4_reachable : sw_reachable toy_s4.
Proof.
  destruct toy_s2_reachable as (c & h & m & rs & pkgs & e & Hm & Hr). exists c, h, m, rs, pkgs, e. split; [exact Hm|].
  eapply rtc_r; [eapply rtc_r; [exact Hr|]|].
  - exists (OpBatch (fun _ => None) true 5 toy_batch). split; [exact I|reflexivity].
  - exists toy_open. split; [|reflexivity]. split_and!; [by apply NoDup_singleton|by apply NoDup_singleton|].
    intros ks ->%list_elem_of_singleton. split; [by vm_compute|]. intros c0 Hc0. vm_compute in Hc0. by injection Hc0 as <-.
Qed.

Definition toy_answered : res swerr unit * Switch bytes toyLink := handlePacketForward 6 0 (toy_answer false [Byte.x01]) toy_s4.

Lemma answered_once_witness : fst toy_answered = Ok tt /\
  handlePacketForward 7 0 (toy_answer true []) (snd toy_answered) = (Err (ErrCircuit ErrCircuitClosing), snd toy_answered).
Proof.
  assert (Hok : fst toy_answered = Ok tt) by (vm_compute; reflexivity). split; [exact Hok|].
  assert (Hrun : handlePacketForward 6 0 (toy_answer false [Byte.x01]) toy_s4 = (Ok tt, snd toy_answered)) by (rewrite <- Hok; apply surjective_pairing).
  destruct (answered_once toy_s4 (snd toy_answered) 6 0 (toy_answer false [Byte.x01]) (mkCircuitKey (toy_scid 1) 7) toy_s4_reachable I) as [_ Hagain].
  - vm_compute. reflexivity.
  - exact Hrun.
  - apply Hagain; [apply rtc_refl|exact I|vm_compute; reflexivity].
Defined.
