(* ===== verification/ChanDB.v ===== *)
(** * The persistent channel ([channeldb/channel.go])

    [OpenChannel] with the part of its database bucket the commitment protocol
    writes, and the operations that write it.  The bucket holds decoded values;
    what the codecs drop on the way ([disk_diff], [disk_updates]) is dropped when
    a value is written.  An operation that fails inside its database transaction
    leaves bucket and channel as they were; failures of the key-value store itself
    are not modelled. *)

From S2P Require Import Prelude Wire Messages ChanIds Units Shachain Tx Keys FwdPkg UpdateLog.

Inductive dberr : Type :=
| ErrNoRestoredChannelMutation
| ErrChanBorked
| ErrNoPendingCommit
| ErrNoPastDeltas
| ErrLogEntryNotFound
| ErrHeightNotReached
| ErrDecodeDiff
| ErrFwdPkg (e : pkgerr)
| ErrShachain (e : shaerr).

(** ** Stored data *)
Record HTLC := mkHTLC {
  htlc_Signature : option bytes;
  htlc_RHash : bytes;
  htlc_AssetId : Z;
  htlc_BtcAmt : Z;
  htlc_AssetAmt : Z;
  htlc_RefundTimeout : Z;
  htlc_OutputIndex : Z;
  htlc_Incoming : bool;
  htlc_OnionBlob : bytes;
  htlc_HtlcIndex : Z;
  htlc_LogIndex : Z
}.

Definition HTLC_GetAmt (h : HTLC) (assetId : Z) : Z :=
  if BtcAssetId <? assetId then u64 (htlc_AssetAmt h) else u64 (htlc_BtcAmt h).

Record ChannelCommitment := mkChannelCommitment {
  CommitHeight : Z;
  LocalLogIndex : Z;
  LocalHtlcIndex : Z;
  RemoteLogIndex : Z;
  RemoteHtlcIndex : Z;
  LocalBtcBalance : Z;
  RemoteBtcBalance : Z;
  LocalAssetBalance : Z;
  RemoteAssetBalance : Z;
  CommitFee : Z;
  FeePerKw : Z;
  CommitTx : MsgTx;
  cc_CommitSig : bytes;
  Htlcs : list HTLC
}.

Definition GetLocalBalance (cc : ChannelCommitment) (assetId : Z) : Z :=
  if assetId =? BtcAssetId then u64 (LocalBtcBalance cc) else u64 (LocalAssetBalance cc).
Definition GetRemoteBalance (cc : ChannelCommitment) (assetId : Z) : Z :=
  if assetId =? BtcAssetId then u64 (RemoteBtcBalance cc) else u64 (RemoteAssetBalance cc).
Definition GetLocalCapBalance (cc : ChannelCommitment) (assetId : Z) : Z :=
  if assetId =? BtcAssetId then u64 (ToSatoshis (LocalBtcBalance cc)) else u64 (LocalAssetBalance cc).

Record CommitDiff := mkCommitDiff {
  cd_Commitment : ChannelCommitment;
  cd_LogUpdates : list LogUpdate;
  cd_CommitSig : CommitSig;
  cd_OpenedCircuitKeys : list CircuitKey;
  cd_ClosedCircuitKeys : list CircuitKey;
  cd_AddAcks : list AddRef;
  cd_SettleFailAcks : list SettleFailRef
}.

(** What [serializeLogUpdates] and [serializeCommitDiff] keep: the acks are not
    serialized, and a fee update loses its asset id. *)
Definition disk_updates (us : list LogUpdate) : list LogUpdate :=
  (fun u => mkLogUpdate (lu_LogIndex u) (on_wire (lu_UpdateMsg u))) <$> us.

Definition disk_diff (d : CommitDiff) : CommitDiff :=
  mkCommitDiff (cd_Commitment d) (disk_updates (cd_LogUpdates d)) (cd_CommitSig d)
    (cd_OpenedCircuitKeys d) (cd_ClosedCircuitKeys d) [] [].

(** ** Channel status bits *)
Definition ChanStatusDefault : Z := 0.
Definition ChanStatusBorked : Z := 1.
Definition ChanStatusCommitBroadcasted : Z := 2.
Definition ChanStatusLocalDataLoss : Z := 4.
Definition ChanStatusRestored : Z := 8.
Definition ChanStatusCoopBroadcasted : Z := 16.

Section OpenChannel.
Context `{CurveOps}.

(** The keys of the channel's bucket. *)
Record chanBucket := mkChanBucket {
  db_chanStatus : Z;
  db_localCommit : ChannelCommitment;
  db_remoteCommit : ChannelCommitment;
  db_commitDiff : option CommitDiff;
  db_unsignedAckedUpdates : option (list LogUpdate);
  db_remoteUnsignedLocalUpdates : option (list LogUpdate);
  db_lastWasRevoke : bool;
  db_dataLossCommitPoint : option PublicKey;
  db_revocationState : option PublicKey * RevocationProducer * RevocationStore * option PublicKey;
  db_revocationLog : gmap Z ChannelCommitment;
  db_totals : Z * Z * Z * Z
}.

Record OpenChannel := mkOpenChannel {
  ChanType : Z;
  FundingOutpoint : OutPoint;
  ChanShortID : ShortChannelID;
  IsInitiator : bool;
  chanStatus : Z;
  BtcCapacity : Z;
  AssetCapacity : Z;
  TotalMSatSent : Z;
  TotalMSatReceived : Z;
  TotalAssetSent : Z;
  TotalAssetReceived : Z;
  ChanAssetID : Z;
  LocalChanCfg : ChannelConfig;
  RemoteChanCfg : ChannelConfig;
  LocalCommitment : ChannelCommitment;
  RemoteCommitment : ChannelCommitment;
  RemoteCurrentRevocation : option PublicKey;
  RemoteNextRevocation : option PublicKey;
  Producer : RevocationProducer;
  Store : RevocationStore;
  LocalShutdownScript : bytes;
  RemoteShutdownScript : bytes;
  ThawHeight : Z;
  LastWasRevoke : bool;
  ChanBucket : chanBucket;
  FwdPackages : fwdStore
}.

#[export] Instance chanBucket_eta : Eta chanBucket := fun b =>
  mkChanBucket (db_chanStatus b) (db_localCommit b) (db_remoteCommit b) (db_commitDiff b)
    (db_unsignedAckedUpdates b) (db_remoteUnsignedLocalUpdates b) (db_lastWasRevoke b)
    (db_dataLossCommitPoint b) (db_revocationState b) (db_revocationLog b) (db_totals b).

#[export] Instance OpenChannel_eta : Eta OpenChannel := fun c =>
  mkOpenChannel (ChanType c) (FundingOutpoint c) (ChanShortID c) (IsInitiator c) (chanStatus c)
    (BtcCapacity c) (AssetCapacity c) (TotalMSatSent c) (TotalMSatReceived c) (TotalAssetSent c)
    (TotalAssetReceived c) (ChanAssetID c) (LocalChanCfg c) (RemoteChanCfg c)
    (LocalCommitment c) (RemoteCommitment c) (RemoteCurrentRevocation c) (RemoteNextRevocation c)
    (Producer c) (Store c) (LocalShutdownScript c) (RemoteShutdownScript c) (ThawHeight c)
    (LastWasRevoke c) (ChanBucket c) (FwdPackages c).

Definition hasChanStatus (c : OpenChannel) (status : Z) : bool :=
  if status =? ChanStatusDefault then chanStatus c =? ChanStatusDefault
  else Z.land (chanStatus c) status =? status.

Definition isBorked (b : chanBucket) : bool := negb (db_chanStatus b =? ChanStatusDefault).

(** The status on disk gains the flag, the one in memory becomes the one on disk. *)
Definition putChanStatus (status : Z) (f : chanBucket -> chanBucket) : M OpenChannel dberr unit :=
  modify (fun c =>
    let status := Z.lor (db_chanStatus (ChanBucket c)) status in
    c <| ChanBucket ::= fun b => f (b <| db_chanStatus := status |>) |> <| chanStatus := status |>).

Definition clearChanStatus (status : Z) : M OpenChannel dberr unit :=
  modify (fun c =>
    let status := Z.ldiff (db_chanStatus (ChanBucket c)) status in
    c <| ChanBucket ::= fun b => b <| db_chanStatus := status |> |> <| chanStatus := status |>).

Definition MarkBorked : M OpenChannel dberr unit := putChanStatus ChanStatusBorked id.

Definition MarkDataLoss (commitPoint : PublicKey) : M OpenChannel dberr unit :=
  putChanStatus ChanStatusLocalDataLoss (fun b => b <| db_dataLossCommitPoint := Some commitPoint |>).

(** [putChanRevocationState]. *)
Definition putChanRevocationState (c : OpenChannel) (b : chanBucket) : chanBucket :=
  b <| db_revocationState :=
    (RemoteCurrentRevocation c, Producer c, Store c, RemoteNextRevocation c) |>.

(** [putChanInfo]: of what it writes, the status and the totals change after the
    channel was opened. *)
Definition putChanInfo (c : OpenChannel) (b : chanBucket) : chanBucket :=
  b <| db_chanStatus := chanStatus c |>
    <| db_totals := (TotalMSatSent c, TotalMSatReceived c, TotalAssetSent c, TotalAssetReceived c) |>.

Definition putChanCommitments (c : OpenChannel) (b : chanBucket) : chanBucket :=
  if hasChanStatus c ChanStatusRestored then b
  else b <| db_localCommit := LocalCommitment c |> <| db_remoteCommit := RemoteCommitment c |>.

Definition putOpenChannel (c : OpenChannel) (b : chanBucket) : chanBucket :=
  putChanRevocationState c (putChanCommitments c (putChanInfo c b)).

(** The checks every state transition starts with. *)
Definition check_mutable : M OpenChannel dberr unit :=
  restored ← gets (fun c => hasChanStatus c ChanStatusRestored);
  _ ← check restored ErrNoRestoredChannelMutation;
  borked ← gets (fun c => isBorked (ChanBucket c));
  check borked ErrChanBorked.

Definition UpdateCommitment (newCommitment : ChannelCommitment)
    (unsignedAckedUpdates : list LogUpdate) : M OpenChannel dberr unit :=
  _ ← check_mutable;
  modify (fun c => c
    <| ChanBucket ::= fun b => putChanInfo c b
      <| db_localCommit := newCommitment |>
      <| db_unsignedAckedUpdates := Some (disk_updates unsignedAckedUpdates) |>
      <| db_lastWasRevoke := true |>
      <| db_remoteUnsignedLocalUpdates ::= fmap (M := option)
           (filter (fun upd => LocalLogIndex newCommitment <= lu_LogIndex upd)) |> |>
    <| LocalCommitment := newCommitment |>).

(** A packager operation on the database, its error passed on. *)
Definition fwd_op (f : fwdStore -> res pkgerr fwdStore) : M OpenChannel dberr unit := fun c =>
  match f (FwdPackages c) with
  | Ok db => (Ok tt, c <| FwdPackages := db |>)
  | Err e => (Err (ErrFwdPkg e), c)
  | Panic => (Panic, c)
  end.

Definition AppendRemoteCommitChain (diff : CommitDiff) : M OpenChannel dberr unit :=
  _ ← check_mutable;
  transaction (
    source ← gets ChanShortID;
    _ ← fwd_op (AckAddHtlcs source (cd_AddAcks diff));
    _ ← fwd_op (ackSettleFails (cd_SettleFailAcks diff));
    modify (fun c => c <| ChanBucket ::= fun b => b
      <| db_lastWasRevoke := false |>
      <| db_commitDiff := Some (disk_diff diff) |> |>)).

Definition RemoteCommitChainTip (c : OpenChannel) : res dberr CommitDiff :=
  match db_commitDiff (ChanBucket c) with
  | None => Err ErrNoPendingCommit
  | Some d => Ok d
  end.

Definition UnsignedAckedUpdates (c : OpenChannel) : list LogUpdate :=
  default [] (db_unsignedAckedUpdates (ChanBucket c)).

Definition RemoteUnsignedLocalUpdates (c : OpenChannel) : list LogUpdate :=
  default [] (db_remoteUnsignedLocalUpdates (ChanBucket c)).

Definition InsertNextRevocation (revKey : PublicKey) : M OpenChannel dberr unit :=
  _ ← modify (fun c => c <| RemoteNextRevocation := Some revKey |>);
  modify (fun c => c <| ChanBucket ::= putChanRevocationState c |>).

(** An absent diff is an empty reader, whose decoding fails. *)
Definition AdvanceCommitChainTail (fwdPkg : FwdPkg) (updates : list LogUpdate)
    : M OpenChannel dberr unit :=
  _ ← check_mutable;
  newCommit ← transaction (
    _ ← modify (fun c => c <| ChanBucket ::= putChanRevocationState c |>);
    diff ← gets (fun c => db_commitDiff (ChanBucket c));
    newCommit ← match diff with
                | None => throw ErrDecodeDiff
                | Some d => mret (cd_Commitment d)
                end;
    _ ← modify (fun c => c <| ChanBucket ::= fun b => b
          <| db_remoteCommit := newCommit |>
          <| db_commitDiff := None |>
          <| db_revocationLog ::= <[CommitHeight (RemoteCommitment c) := RemoteCommitment c]> |> |>);
    _ ← fwd_op (AddFwdPkg fwdPkg);
    _ ← modify (fun c => c <| ChanBucket ::= fun b =>
          match db_unsignedAckedUpdates b with
          | None => b
          | Some us => b
              <| db_unsignedAckedUpdates :=
                   Some (filter (fun upd => RemoteLogIndex newCommit <= lu_LogIndex upd) us) |>
              <| db_remoteUnsignedLocalUpdates := Some (disk_updates updates) |>
          end |>);
    mret newCommit);
  modify (fun c => c <| RemoteCommitment := newCommit |>).

Definition NextLocalHtlcIndex (c : OpenChannel) : Z :=
  match db_commitDiff (ChanBucket c) with
  | Some d => LocalHtlcIndex (cd_Commitment d)
  | None => LocalHtlcIndex (RemoteCommitment c)
  end.

(** An empty log bucket has no bucket on disk yet. *)
Definition FindPreviousState (c : OpenChannel) (updateNum : Z) : res dberr ChannelCommitment :=
  let log := db_revocationLog (ChanBucket c) in
  if bool_decide (log = ∅) then Err ErrNoPastDeltas
  else match log !! updateNum with
       | None => Err ErrLogEntryNotFound
       | Some commit => Ok commit
       end.

Definition balances_of (cc : ChannelCommitment) : Z * Z * Z * Z :=
  (LocalBtcBalance cc, RemoteBtcBalance cc, LocalAssetBalance cc, RemoteAssetBalance cc).

Definition BalancesAtHeight (c : OpenChannel) (height : Z) : res dberr (Z * Z * Z * Z) :=
  if (CommitHeight (LocalCommitment c) <? height) && (CommitHeight (RemoteCommitment c) <? height)
  then Err ErrHeightNotReached
  else if CommitHeight (LocalCommitment c) =? height then Ok (balances_of (LocalCommitment c))
  else if CommitHeight (RemoteCommitment c) =? height then Ok (balances_of (RemoteCommitment c))
  else commit ← FindPreviousState c height; mret (balances_of commit).

(** [lift] of a shachain result. *)
Definition sha_res {A} (r : res shaerr A) : res dberr A :=
  match r with Ok a => Ok a | Err e => Err (ErrShachain e) | Panic => Panic end.

Definition flip_first (secret : bytes) : bytes :=
  match secret with
  | [] => []
  | b :: rest => xor_byte b Byte.x01 :: rest
  end.

Definition ChanSyncMsg (c : OpenChannel) : res dberr ChannelReestablish :=
  let localHeight := CommitHeight (LocalCommitment c) in
  let nextLocalCommitHeight := u64 (localHeight + 1) in
  let remoteChainTipHeight := CommitHeight (RemoteCommitment c) in
  lastCommitSecret ← (if remoteChainTipHeight =? 0 then mret zero32
    else sha_res (LookUp (Store c) (u64 (remoteChainTipHeight - 1))));
  currentCommitSecret ← sha_res (AtIndex (Producer c) localHeight);
  let restored := hasChanStatus c ChanStatusRestored in
  let currentCommitSecret :=
    if restored then flip_first currentCommitSecret else currentCommitSecret in
  let nextLocalCommitHeight :=
    if restored && IsTweakless (ChanType c) then 0 else nextLocalCommitHeight in
  mret (mkChannelReestablish (NewChanIDFromOutPoint (FundingOutpoint c)) nextLocalCommitHeight
    remoteChainTipHeight lastCommitSecret
    (Some (ComputeCommitmentPoint currentCommitSecret)) []).

(** ** Reading the channel *)

(** [deserializeChanCommit]: a signature that was not written is read as an empty
    one. *)
Definition read_htlc (h : HTLC) : HTLC :=
  mkHTLC (Some (default [] (htlc_Signature h))) (htlc_RHash h) (htlc_AssetId h) (htlc_BtcAmt h) (htlc_AssetAmt h)
    (htlc_RefundTimeout h) (htlc_OutputIndex h) (htlc_Incoming h) (htlc_OnionBlob h) (htlc_HtlcIndex h) (htlc_LogIndex h).

Definition read_commit (cc : ChannelCommitment) : ChannelCommitment :=
  mkChannelCommitment (CommitHeight cc) (LocalLogIndex cc) (LocalHtlcIndex cc) (RemoteLogIndex cc) (RemoteHtlcIndex cc)
    (LocalBtcBalance cc) (RemoteBtcBalance cc) (LocalAssetBalance cc) (RemoteAssetBalance cc) (CommitFee cc) (FeePerKw cc)
    (CommitTx cc) (cc_CommitSig cc) (read_htlc <$> Htlcs cc).

Definition zero_commit : ChannelCommitment :=
  mkChannelCommitment 0 0 0 0 0 0 0 0 0 0 0 (mkMsgTx 0 [] [] 0) [] [].

(** The fields that never change after the opening are those the channel was
    written with. *)
Definition fetchChanInfo (c : OpenChannel) : OpenChannel :=
  let b := ChanBucket c in
  let '(msatSent, msatReceived, assetSent, assetReceived) := db_totals b in
  c <| chanStatus := db_chanStatus b |>
    <| TotalMSatSent := msatSent |> <| TotalMSatReceived := msatReceived |>
    <| TotalAssetSent := assetSent |> <| TotalAssetReceived := assetReceived |>
    <| LastWasRevoke := db_lastWasRevoke b |>.

(** A restored channel has no commitments on disk. *)
Definition fetchChanCommitments (c : OpenChannel) : OpenChannel :=
  if hasChanStatus c ChanStatusRestored then
    c <| LocalCommitment := zero_commit |> <| RemoteCommitment := zero_commit |>
  else
    c <| LocalCommitment := read_commit (db_localCommit (ChanBucket c)) |>
      <| RemoteCommitment := read_commit (db_remoteCommit (ChanBucket c)) |>.

Definition fetchChanRevocationState (c : OpenChannel) : OpenChannel :=
  let '(current, producer, store, next) := db_revocationState (ChanBucket c) in
  c <| RemoteCurrentRevocation := current |> <| Producer := producer |> <| Store := store |>
    <| RemoteNextRevocation := next |>.

(** The channel of the bucket: every field a method changes is the disk's. *)
Definition fetchOpenChannel (c : OpenChannel) : OpenChannel :=
  let c := fetchChanCommitments (fetchChanInfo c) in
  fetchChanRevocationState
    (c <| ThawHeight ::= fun h => if IsFrozen (ChanType c) || HasLeaseExpiration (ChanType c) then h else 0 |>).

End OpenChannel.

(** ** The commitment chain on disk *)
Section Rotation.
Context `{CurveOps}.

(** Restored or marked channels are frozen. *)
Definition frozen (c : OpenChannel) : bool :=
  hasChanStatus c ChanStatusRestored || isBorked (ChanBucket c).

Lemma check_mutable_spec c : check_mutable c =
  (if hasChanStatus c ChanStatusRestored then Err ErrNoRestoredChannelMutation
   else if isBorked (ChanBucket c) then Err ErrChanBorked else Ok tt, c).
Proof. unfold check_mutable, mbind, M_bind, gets, check. by destruct (hasChanStatus c _), (isBorked (ChanBucket c)). Qed.

Lemma check_mutable_frozen c : frozen c = true -> exists e, check_mutable c = (Err e, c).
Proof. rewrite check_mutable_spec. unfold frozen. destruct (hasChanStatus c _), (isBorked (ChanBucket c)); eauto; done. Qed.

Lemma check_mutable_Ok c : frozen c = false -> check_mutable c = (Ok tt, c).
Proof. rewrite check_mutable_spec. unfold frozen. by destruct (hasChanStatus c _), (isBorked (ChanBucket c)). Qed.

(** A frozen channel refuses them all and
    nothing, in memory or on disk, changes. *)
Lemma frozen_refuses c : frozen c = true ->
  (forall cc us, exists e, UpdateCommitment cc us c = (Err e, c)) /\
  (forall d, exists e, AppendRemoteCommitChain d c = (Err e, c)) /\
  (forall p us, exists e, AdvanceCommitChainTail p us c = (Err e, c)).
Proof.
  intros Hf. destruct (check_mutable_frozen c Hf) as [e He].
  split; [|split]; intros; exists e; unfold UpdateCommitment, AppendRemoteCommitChain, AdvanceCommitChainTail;
    by apply M_bind_Err.
Qed.

Lemma AddFwdPkg_total p db : exists db', AddFwdPkg p db = Ok db'.
Proof. unfold AddFwdPkg. rewrite !encoded_filter, !res_bind_Ok_l. by eexists. Qed.

(** The revocation log holds exactly the remote states below the current one,
    each under its height. *)
Definition log_ok (c : OpenChannel) : Prop :=
  0 <= CommitHeight (RemoteCommitment c) /\
  (forall h, is_Some (db_revocationLog (ChanBucket c) !! h) <->
     0 <= h < CommitHeight (RemoteCommitment c)) /\
  forall h cc, db_revocationLog (ChanBucket c) !! h = Some cc -> CommitHeight cc = h.

Lemma FindPreviousState_Some c h cc : db_revocationLog (ChanBucket c) !! h = Some cc ->
  FindPreviousState c h = Ok cc.
Proof.
  intros Hh. unfold FindPreviousState. rewrite bool_decide_eq_false_2, Hh; [done|].
  intros He. by rewrite He, lookup_empty in Hh.
Qed.

(** What advancing does to a channel that is not frozen, with a pending diff. *)
Lemma Advance_run c d p us : frozen c = false -> db_commitDiff (ChanBucket c) = Some d ->
  exists c' db', AddFwdPkg p (FwdPackages c) = Ok db' /\
    AdvanceCommitChainTail p us c = (Ok tt, c') /\
    RemoteCommitment c' = cd_Commitment d /\ FwdPackages c' = db' /\
    db_commitDiff (ChanBucket c') = None /\
    db_remoteCommit (ChanBucket c') = cd_Commitment d /\
    db_revocationLog (ChanBucket c') =
      <[CommitHeight (RemoteCommitment c) := RemoteCommitment c]> (db_revocationLog (ChanBucket c)) /\
    (forall u, u ∈ UnsignedAckedUpdates c' <->
      u ∈ UnsignedAckedUpdates c /\ RemoteLogIndex (cd_Commitment d) <= lu_LogIndex u) /\
    LocalCommitment c' = LocalCommitment c /\ chanStatus c' = chanStatus c.
Proof.
  intros Hf Hd. destruct (AddFwdPkg_total p (FwdPackages c)) as [db' Hdb'].
  unfold AdvanceCommitChainTail. rewrite (M_bind_run _ _ _ _ _ (check_mutable_Ok c Hf)).
  eexists _, db'. split; [done|].
  split.
  { unfold mbind, M_bind, transaction, modify, gets, mret, M_ret, throw. cbn. rewrite Hd. cbn.
    unfold fwd_op. cbn. rewrite Hdb'. reflexivity. }
  cbn. destruct (db_unsignedAckedUpdates (ChanBucket c)) as [us0|] eqn:Hu;
    unfold UnsignedAckedUpdates; cbn; rewrite ?Hu; cbn; (do 5 (split; [done|])); split; try done.
  - intros u. rewrite list_elem_of_filter. tauto.
  - intros u. rewrite Hu. cbn. rewrite elem_of_nil. tauto.
Qed.

Lemma advance_log_ok c c' d : log_ok c -> CommitHeight (cd_Commitment d) = CommitHeight (RemoteCommitment c) + 1 ->
  RemoteCommitment c' = cd_Commitment d ->
  db_revocationLog (ChanBucket c') =
    <[CommitHeight (RemoteCommitment c) := RemoteCommitment c]> (db_revocationLog (ChanBucket c)) -> log_ok c'.
Proof.
  intros (Hpos & Hdom & Hkey) Hnext Hrem Hlog. split; [rewrite Hrem; lia|]. rewrite Hlog, Hrem, Hnext. split.
  - intros h. rewrite lookup_insert_is_Some, Hdom. destruct (decide (CommitHeight (RemoteCommitment c) = h)); lia.
  - intros h cc. rewrite lookup_insert_Some. intros [[<- <-]|[_ ?]]; [done|by apply Hkey].
Qed.

(** The revocation log is complete: advancing the remote chain from a state
    whose log holds exactly the revoked states keeps it so when the pending diff
    is the next height; the revoked state is found under its height, states found
    before are found unchanged, the diff becomes the current state and is no
    longer pending, and the acked updates it covers are dropped.  A frozen
    channel refuses every transition and changes nothing. *)
Theorem revocation_log_complete (c : OpenChannel) (fwdPkg : FwdPkg) (updates : list LogUpdate) :
  (frozen c = false -> forall d, db_commitDiff (ChanBucket c) = Some d -> log_ok c ->
     CommitHeight (cd_Commitment d) = CommitHeight (RemoteCommitment c) + 1 ->
     exists c', AdvanceCommitChainTail fwdPkg updates c = (Ok tt, c') /\ log_ok c' /\
       RemoteCommitment c' = cd_Commitment d /\
       RemoteCommitChainTip c' = Err ErrNoPendingCommit /\
       FindPreviousState c' (CommitHeight (RemoteCommitment c)) = Ok (RemoteCommitment c) /\
       (forall h cc, 0 <= h < CommitHeight (RemoteCommitment c) -> FindPreviousState c h = Ok cc ->
          FindPreviousState c' h = Ok cc) /\
       (forall u, u ∈ UnsignedAckedUpdates c' <->
          u ∈ UnsignedAckedUpdates c /\ RemoteLogIndex (cd_Commitment d) <= lu_LogIndex u)) /\
  (frozen c = true -> exists e, AdvanceCommitChainTail fwdPkg updates c = (Err e, c)) /\
  (db_commitDiff (ChanBucket c) = None -> exists e, AdvanceCommitChainTail fwdPkg updates c = (Err e, c)).
Proof.
  split; [|split].
  - intros Hf d Hd Hok Hnext. pose proof Hok as (Hpos & Hdom & Hkey).
    destruct (Advance_run c d fwdPkg updates Hf Hd)
      as (c' & db' & _ & Hrun & Hrem & _ & Hnone & _ & Hlog & Hack & _ & _).
    exists c'. split; [done|]. split; [by apply (advance_log_ok c c' d)|split; [done|split; [|split; [|split; [|done]]]]].
    + unfold RemoteCommitChainTip. by rewrite Hnone.
    + apply FindPreviousState_Some. rewrite Hlog. apply lookup_insert_eq.
    + intros h cc Hh Hfind. apply FindPreviousState_Some. rewrite Hlog, lookup_insert_ne by lia.
      unfold FindPreviousState in Hfind. case_bool_decide; [done|].
      destruct (_ !! h); [|done]. by injection Hfind as ->.
  - intros Hf. by apply frozen_refuses.
  - intros Hd. destruct (frozen c) eqn:Hf; [by apply frozen_refuses|].
    exists ErrDecodeDiff. unfold AdvanceCommitChainTail.
    rewrite (M_bind_run _ _ _ _ _ (check_mutable_Ok c Hf)).
    unfold mbind, M_bind, transaction, modify, gets, throw. cbn. by rewrite Hd.
Qed.
End Rotation.

(** ** A concrete channel over the toy curve *)
Definition toy_commitment (height : Z) (htlcs : list HTLC) : ChannelCommitment :=
  mkChannelCommitment height 0 0 0 0 600000000 400000000 0 0 0 253
    (mkMsgTx 2 [] [] 0) [] htlcs.

Definition toy_diff (height : Z) : CommitDiff :=
  mkCommitDiff (toy_commitment height []) [] (mkCommitSig [] [] [] []) [] [] [] [].

Definition toy_outpoint : OutPoint := mkOutPoint zero_hash 1.

Definition toy_bucket (diff : option CommitDiff) (local remote : ChannelCommitment) :
    @chanBucket toy_pubkeys :=
  @mkChanBucket toy_pubkeys ChanStatusDefault local remote diff None None false None
    (None, NewRevocationProducer zero_hash, NewRevocationStore, None) ∅ (0, 0, 0, 0).

Definition toy_channel (assetID : Z) (diff : option CommitDiff) : @OpenChannel toy_pubkeys :=
  @mkOpenChannel toy_pubkeys SingleFunderTweaklessBit toy_outpoint scid_example true ChanStatusDefault
    1000000 (if assetID =? 0 then 0 else 1000000) 0 0 0 0 assetID (toy_config 10000 354) (toy_config 10000 354)
    (toy_commitment 0 []) (toy_commitment 0 []) (Some (5 : @PublicKey toy_pubkeys))
    (Some (7 : @PublicKey toy_pubkeys)) (NewRevocationProducer zero_hash) NewRevocationStore
    [Byte.x01] [Byte.x02] 0 false (toy_bucket diff (toy_commitment 0 []) (toy_commitment 0 [])) None.

Lemma revocation_log_complete_witness :
  let c := toy_channel 0 (Some (toy_diff 1)) in
  exists c', AdvanceCommitChainTail (NewFwdPkg scid_example 0 [] []) [] c = (Ok tt, c') /\
    CommitHeight (RemoteCommitment c') = 1 /\ FindPreviousState c' 0 = Ok (toy_commitment 0 []).
Proof.
  intros c.
  destruct (proj1 (revocation_log_complete c (NewFwdPkg scid_example 0 [] []) []) eq_refl (toy_diff 1) eq_refl)
    as (c' & Hrun & _ & Hrem & _ & Hfind & _).
  - split; [done|split].
    + intros h. cbn. rewrite lookup_empty. split; [intros [? ?]; done|lia].
    + intros h cc. cbn. by rewrite lookup_empty.
  - reflexivity.
  - exists c'. split; [exact Hrun|]. split; [by rewrite Hrem|exact Hfind].
Defined.
