(* ===== verification/Features.v ===== *)
(** * Feature vectors ([lnwire/features.go], [feature/deps.go])

    Sets of feature bits, what a vector has and requires, its packed wire forms,
    and the check that a vector sets the transitive dependencies of its features.
    Go ranges over a map in an unspecified order: [range] is that order. *)

From S2P Require Import Prelude Wire.

(** ** Feature bits *)
Abbreviation FeatureBit := Z.

Definition TLVOnionPayloadRequired : FeatureBit := 8.
Definition TLVOnionPayloadOptional : FeatureBit := 9.
Definition StaticRemoteKeyOptional : FeatureBit := 13.
Definition PaymentAddrRequired : FeatureBit := 14.
Definition PaymentAddrOptional : FeatureBit := 15.
Definition MPPOptional : FeatureBit := 17.
Definition AnchorsOptional : FeatureBit := 21.
Definition AnchorsZeroFeeHtlcTxOptional : FeatureBit := 23.
Definition AMPRequired : FeatureBit := 30.
Definition AMPOptional : FeatureBit := 31.
Definition ExplicitChannelTypeOptional : FeatureBit := 45.
Definition ScriptEnforcedLeaseOptional : FeatureBit := 2023.

Definition IsRequired (b : FeatureBit) : bool := Z.land b 1 =? 0.
Definition flip (b : FeatureBit) : FeatureBit := Z.lxor b 1.

(** The names of the known bits. *)
Definition FeatureNames : gmap FeatureBit string := list_to_map [
  (0, "data-loss-protect"); (1, "data-loss-protect"); (3, "initial-routing-sync");
  (4, "upfront-shutdown-script"); (5, "upfront-shutdown-script");
  (6, "gossip-queries"); (7, "gossip-queries"); (8, "tlv-onion"); (9, "tlv-onion");
  (13, "static-remote-key"); (12, "static-remote-key"); (15, "payment-addr"); (14, "payment-addr");
  (17, "multi-path-payments"); (16, "multi-path-payments"); (20, "anchor-commitments"); (21, "anchor-commitments");
  (22, "anchors-zero-fee-htlc-tx"); (23, "anchors-zero-fee-htlc-tx"); (18, "wumbo-channels"); (19, "wumbo-channels");
  (30, "amp"); (31, "amp"); (45, "explicit-commitment-type"); (44, "explicit-commitment-type");
  (2022, "script-enforced-lease"); (2023, "script-enforced-lease")]%string.

(** ** Raw feature vectors *)
Abbreviation RawFeatureVector := (gset FeatureBit).

Inductive featerr : Type := ErrFeaturePairExists | ErrMissingFeatureDep (dep : FeatureBit).

Definition NewRawFeatureVector (bits : list FeatureBit) : RawFeatureVector := foldl (fun fv b => {[b]} ∪ fv) ∅ bits.

Definition SafeSet (feature : FeatureBit) : M RawFeatureVector featerr unit :=
  fv ← get;
  _ ← check (bool_decide (flip feature ∈ fv)) ErrFeaturePairExists;
  modify (union {[feature]}).

Fixpoint Merge_loop (bits : list FeatureBit) : M RawFeatureVector featerr unit :=
  match bits with
  | [] => mret tt
  | bit :: bits => _ ← SafeSet bit; Merge_loop bits
  end.

Definition serializeSize (fv : RawFeatureVector) (width : Z) : Z :=
  let max := foldl Z.max (-1) (elements fv) in
  if max =? -1 then 0 else max `quot` width + 1.

(** One step of the loop of [encode]: [data[length-byteIndex-1] |= 1 << bitIndex],
    which panics out of range. *)
Definition set_bit (length width : Z) (data : list Z) (feature : FeatureBit) : res werr (list Z) :=
  let idx := length - feature `quot` width - 1 in
  if idx <? 0 then Panic
  else match data !! Z.to_nat idx with
       | None => Panic
       | Some d => Ok (<[Z.to_nat idx := Z.lor d (u8 (Z.shiftl 1 (feature `rem` width)))]> data)
       end.

Fixpoint set_bits (length width : Z) (data : list Z) (features : list FeatureBit) : res werr (list Z) :=
  match features with
  | [] => Ok data
  | f :: features => data ← set_bit length width data f; set_bits length width data features
  end.

Definition encode (range : RawFeatureVector -> list FeatureBit) (fv : RawFeatureVector) (length width : Z) : Writer :=
  data ← lift (set_bits length width (replicate (Z.to_nat length) 0) (range fv));
  WriteBytes (byte.of_Z <$> data).

Definition Encode range (fv : RawFeatureVector) : Writer :=
  let length := serializeSize fv 8 in
  _ ← WriteUint16 (u16 length);
  encode range fv length 8.
Definition EncodeBase256 range (fv : RawFeatureVector) : Writer := encode range fv (serializeSize fv 8) 8.
Definition EncodeBase32 range (fv : RawFeatureVector) : Writer := encode range fv (serializeSize fv 5) 5.

(** The bit of position [i] in the data read. *)
Definition bit_at (data : bytes) (length width i : Z) : bool :=
  match data !! Z.to_nat (length - i `quot` width - 1) with
  | None => false
  | Some b => Z.land (Z.shiftr (byte.unsigned b) (i `rem` width)) 1 =? 1
  end.

Definition decode (fv : RawFeatureVector) (length width : Z) : Reader RawFeatureVector :=
  data ← ReadFull (Z.to_nat length);
  mret (foldl (fun fv i => if bit_at data length width i then {[u16 i]} ∪ fv else fv) fv
          (seqZ 0 (length * width))).

Definition Decode (fv : RawFeatureVector) : Reader RawFeatureVector :=
  length ← ReadUint16; decode fv length 8.
Definition DecodeBase256 (fv : RawFeatureVector) (length : Z) : Reader RawFeatureVector := decode fv length 8.
Definition DecodeBase32 (fv : RawFeatureVector) (length : Z) : Reader RawFeatureVector := decode fv length 5.

(** ** Feature vectors: bits with their names *)
Definition isFeatureBitPair (bit : FeatureBit) : bool :=
  match FeatureNames !! bit, FeatureNames !! flip bit with
  | Some name1, Some name2 => bool_decide (name1 = name2)
  | _, _ => false
  end.

Definition IsSet (fv : RawFeatureVector) (feature : FeatureBit) : bool := bool_decide (feature ∈ fv).

Definition HasFeature (fv : RawFeatureVector) (feature : FeatureBit) : bool :=
  IsSet fv feature || isFeatureBitPair feature && IsSet fv (flip feature).

Definition RequiresFeature (fv : RawFeatureVector) (feature : FeatureBit) : bool :=
  IsSet fv (if IsRequired feature then feature else flip feature).

Definition UnknownRequiredFeatures (fv : RawFeatureVector) : list FeatureBit :=
  filter (fun f => f `rem` 2 = 0 /\ FeatureNames !! f = None) (elements fv).

(** ** Dependencies ([feature/deps.go]) *)
Definition deps : gmap FeatureBit (gset FeatureBit) := list_to_map [
  (PaymentAddrOptional, {[TLVOnionPayloadOptional]});
  (MPPOptional, {[PaymentAddrOptional]});
  (AnchorsOptional, {[StaticRemoteKeyOptional]});
  (AnchorsZeroFeeHtlcTxOptional, {[StaticRemoteKeyOptional]});
  (AMPOptional, {[PaymentAddrOptional]});
  (ExplicitChannelTypeOptional, ∅);
  (ScriptEnforcedLeaseOptional, {[ExplicitChannelTypeOptional; AnchorsZeroFeeHtlcTxOptional]})].

Definition mapToOptional (bit : FeatureBit) : FeatureBit := if IsRequired bit then flip bit else bit.

Abbreviation supportedFeatures := (gmap FeatureBit bool).

Definition initSupported (features : list FeatureBit) : supportedFeatures :=
  foldl (fun supported bit => <[mapToOptional bit := false]> supported) ∅ features.

(** The loop of [validateDeps] over the bits in order; [sub] is the recursive
    call.  [None] is out of fuel; the map of supported features is shared by all
    calls. *)
Fixpoint validate_bits (sub : gset FeatureBit -> supportedFeatures -> option (res featerr unit * supportedFeatures))
    (bits : list FeatureBit) (supported : supportedFeatures) : option (res featerr unit * supportedFeatures) :=
  match bits with
  | [] => Some (Ok tt, supported)
  | bit :: bits =>
      let bit := mapToOptional bit in
      match supported !! bit with
      | None => Some (Err (ErrMissingFeatureDep bit), supported)
      | Some true => validate_bits sub bits supported
      | Some false =>
          match sub (default ∅ (deps !! bit)) supported with
          | Some (Ok _, supported) => validate_bits sub bits (<[bit := true]> supported)
          | r => r
          end
      end
  end.

Fixpoint validateDeps (range : gset FeatureBit -> list FeatureBit) (fuel : nat) (features : gset FeatureBit)
    (supported : supportedFeatures) : option (res featerr unit * supportedFeatures) :=
  match fuel with
  | O => None
  | S fuel => validate_bits (validateDeps range fuel) (range features) supported
  end.

(** Four nested calls are enough, whatever the vector: [validate_deps_correct]. *)
Definition deps_depth : nat := 4.

Definition ValidateDeps (range : gset FeatureBit -> list FeatureBit) (fv : RawFeatureVector) : option (res featerr unit) :=
  fst <$> validateDeps range deps_depth fv (initSupported (range fv)).

(** ** The dependency check *)
Section ValidateDeps.
Context (range : gset FeatureBit -> list FeatureBit).
Context (range_perm : forall s, range s ≡ₚ elements s).

Lemma elem_of_range s b : b ∈ range s <-> b ∈ s.
Proof. rewrite range_perm. apply elem_of_elements. Qed.

(** [d] is a direct dependency of [b]. *)
Definition depends (b d : FeatureBit) : Prop := exists s, deps !! b = Some s /\ d ∈ s.

(** The height of a feature in the dependency graph. *)
Definition rank (b : FeatureBit) : nat :=
  if bool_decide (b ∈ [MPPOptional; AMPOptional; ScriptEnforcedLeaseOptional]) then 2
  else if bool_decide (b ∈ [PaymentAddrOptional; AnchorsOptional; AnchorsZeroFeeHtlcTxOptional]) then 1 else 0.

Definition edges : list (FeatureBit * FeatureBit) :=
  e ← map_to_list deps; (fun d => (fst e, d)) <$> elements (snd e).

Lemma depends_edge b d : depends b d -> (b, d) ∈ edges.
Proof.
  intros (s & Hs & Hd). unfold edges. apply list_elem_of_bind. exists (b, s).
  split; [|by apply elem_of_map_to_list]. apply list_elem_of_fmap. exists d. split; [done|]. by apply elem_of_elements.
Qed.

Lemma edges_ranked : Forall (fun '(b, d) => (rank d < rank b)%nat /\ mapToOptional d = d) edges.
Proof. apply (bool_decide_unpack _). vm_compute. exact I. Qed.

Lemma depends_rank b d : depends b d -> (rank d < rank b)%nat /\ mapToOptional d = d.
Proof. intros H%depends_edge. exact (proj1 (list.Forall_forall _ _) edges_ranked (b, d) H). Qed.

#[local] Opaque deps.

Lemma rank_bound b : (rank b <= 2)%nat.
Proof. unfold rank. repeat case_bool_decide; lia. Qed.

(** Everything [b] depends on, [b] included, is in [S]. *)
Definition sound (S : gset FeatureBit) (b : FeatureBit) : Prop := forall d, rtc depends b d -> d ∈ S.

Definition verified (supported : supportedFeatures) : Prop :=
  forall b, supported !! b = Some true -> sound (dom supported) b.

Lemma sound_step S b : b ∈ S -> (forall d, depends b d -> sound S d) -> sound S b.
Proof. intros Hb Hd d [->|(x & Hx & Hxd)]%rtc_inv; [done|]. by apply (Hd x). Qed.

Lemma deps_of b d : d ∈ default ∅ (deps !! b) <-> depends b d.
Proof.
  unfold depends. destruct (deps !! b) as [s|]; cbn; [|set_solver].
  split; [by exists s|]. by intros (? & [= <-] & ?).
Qed.

(** What a call promises: it returns; the map keeps its bits; on success every
    feature it was asked about has all it depends on, on failure the bit it names
    is missing and one of them depends on it. *)
Definition validated (bits : list FeatureBit) (s : supportedFeatures) (r : res featerr unit * supportedFeatures) : Prop :=
  verified (snd r) /\ dom (snd r) = dom s /\
  match fst r with
  | Ok _ => forall b, b ∈ bits -> sound (dom s) (mapToOptional b)
  | Err (ErrMissingFeatureDep d) => d ∉ dom s /\ exists b, b ∈ bits /\ rtc depends (mapToOptional b) d
  | _ => False
  end.

Lemma validated_cons bit bits s s1 r :
  dom s1 = dom s -> sound (dom s) (mapToOptional bit) -> validated bits s1 r -> validated (bit :: bits) s r.
Proof.
  intros Hd Hb (Hv & Hd' & Hr). split; [done|]. split; [congruence|]. rewrite Hd in Hr.
  destruct (fst r) as [u|[|d]|]; [|done| |done].
  - intros b [->|Hin]%elem_of_cons; [done|]. by apply Hr.
  - destruct Hr as [Hm (b & Hin & Hp)]. split; [done|]. exists b. split; [by right|done].
Qed.

Lemma validateDeps_ok fuel features s :
  verified s -> (0 < fuel)%nat -> (forall b, b ∈ features -> (rank (mapToOptional b) + 1 < fuel)%nat) ->
  exists r, validateDeps range fuel features s = Some r /\ validated (range features) s r.
Proof.
  revert features s. induction fuel as [|fuel IH]; intros features s Hv Hpos Hrank; [lia|]. cbn.
  assert (Hr : forall b, b ∈ range features -> (rank (mapToOptional b) < fuel)%nat).
  { intros b Hb%elem_of_range. specialize (Hrank b Hb). lia. }
  clear Hrank Hpos. generalize dependent s. induction (range features) as [|bit bits IHb]; intros s Hv.
  { exists (Ok tt, s). split; [done|]. split; [done|]. split; [done|]. by intros b ?%not_elem_of_nil. }
  assert (Hbits : forall b, b ∈ bits -> (rank (mapToOptional b) < fuel)%nat) by (intros b Hb; apply Hr; by right).
  specialize (IHb Hbits). specialize (Hr bit ltac:(by left)). cbn.
  destruct (s !! mapToOptional bit) as [[]|] eqn:Hs.
  - destruct (IHb s Hv) as (r & Hrun & Hok). exists r. split; [exact Hrun|].
    apply (validated_cons _ _ s s); [done| |done]. by apply Hv.
  - destruct (IH (default ∅ (deps !! mapToOptional bit)) s Hv ltac:(lia)) as (r1 & Hrun1 & Hv1 & Hd1 & Hr1).
    { intros d Hd%deps_of%depends_rank. destruct Hd as [? ->]. lia. }
    rewrite Hrun1. destruct r1 as [[u|[|d]|] s1]; cbn [fst snd] in *; [|done| |done].
    + assert (Hsound : sound (dom s) (mapToOptional bit)).
      { apply sound_step; [by apply elem_of_dom; eauto|]. intros d Hd. destruct (depends_rank _ _ Hd) as [_ <-].
        apply Hr1, elem_of_range, deps_of, Hd. }
      assert (Hdom : dom (<[mapToOptional bit := true]> s1) = dom s).
      { rewrite dom_insert_L, Hd1. apply subseteq_union_1_L, singleton_subseteq_l, elem_of_dom. eauto. }
      destruct (IHb (<[mapToOptional bit := true]> s1)) as (r & Hrun & Hok).
      { intros b. rewrite Hdom. destruct (decide (b = mapToOptional bit)) as [->|Hne]; [done|].
        rewrite lookup_insert_ne by done. intros Hb%Hv1. by rewrite Hd1 in Hb. }
      exists r. split; [exact Hrun|]. by apply (validated_cons _ _ s (<[mapToOptional bit := true]> s1)).
    + exists (Err (ErrMissingFeatureDep d), s1). split; [done|]. split; [done|]. split; [done|]. cbn.
      destruct Hr1 as [Hm (b & Hb%elem_of_range%deps_of & Hp)]. split; [done|]. exists bit. split; [by left|].
      apply (rtc_l _ _ b); [done|]. by destruct (depends_rank _ _ Hb) as [_ Heq]; rewrite Heq in Hp.
  - exists (Err (ErrMissingFeatureDep (mapToOptional bit)), s). split; [done|]. split; [done|]. split; [done|]. cbn.
    split; [by apply not_elem_of_dom|]. exists bit. split; [by left|done].
Qed.

Lemma initSupported_spec bits :
  dom (initSupported bits) = list_to_set (mapToOptional <$> bits) /\ (forall b x, initSupported bits !! b = Some x -> x = false).
Proof.
  unfold initSupported. assert (H : forall acc : supportedFeatures, (forall b x, acc !! b = Some x -> x = false) ->
    dom (foldl (fun s b => <[mapToOptional b := false]> s) acc bits) = dom acc ∪ list_to_set (mapToOptional <$> bits) /\
    (forall b x, foldl (fun s b => <[mapToOptional b := false]> s) acc bits !! b = Some x -> x = false)).
  { induction bits as [|bit bits IH]; intros acc Hacc; cbn; [split; [set_solver|done]|].
    destruct (IH (<[mapToOptional bit := false]> acc)) as [-> Hf]; [|split; [rewrite dom_insert_L; set_solver|exact Hf]].
    intros b x. destruct (decide (b = mapToOptional bit)) as [->|Hne]; [|rewrite lookup_insert_ne by done; apply Hacc].
    rewrite lookup_insert_eq. by intros [= <-]. }
  destruct (H ∅) as [-> Hf]; [by intros b x; rewrite lookup_empty|]. rewrite dom_empty_L. split; [set_solver|exact Hf].
Qed.

Lemma validateDeps_more fuel fuel' features s r : (fuel <= fuel')%nat ->
  validateDeps range fuel features s = Some r -> validateDeps range fuel' features s = Some r.
Proof.
  revert fuel' features s r. induction fuel as [|fuel IH]; intros fuel' features s r Hle; [done|].
  destruct fuel' as [|fuel']; [lia|]. cbn. clear - IH Hle. revert s r.
  induction (range features) as [|bit bits IHb]; intros s r; [done|]. cbn.
  destruct (s !! mapToOptional bit) as [[]|]; [apply IHb| |done].
  destruct (validateDeps range fuel _ s) as [[q s1]|] eqn:Hq; [|done].
  rewrite (IH fuel' _ _ _ ltac:(lia) Hq). destruct q; [apply IHb|done..].
Qed.

(** The optional forms of the bits of a vector. *)
Definition optional (fv : RawFeatureVector) : gset FeatureBit := set_map mapToOptional fv.

(** [ValidateDeps] returns for every vector, whatever the order its maps are
    ranged over: four nested calls are enough and more change nothing.  It accepts
    exactly the vectors that set, as required or as optional, everything their
    features transitively depend on; an error names a missing bit that a feature
    of the vector depends on. *)
Theorem validate_deps_correct (fv : RawFeatureVector) :
  exists r, ValidateDeps range fv = Some r /\
    (forall fuel, (deps_depth <= fuel)%nat -> fst <$> validateDeps range fuel fv (initSupported (range fv)) = Some r) /\
    (r = Ok tt <-> forall b d, b ∈ fv -> rtc depends (mapToOptional b) d -> d ∈ optional fv) /\
    (r = Ok tt \/ exists b d, r = Err (ErrMissingFeatureDep d) /\ b ∈ fv /\ rtc depends (mapToOptional b) d /\ d ∉ optional fv).
Proof.
  destruct (initSupported_spec (range fv)) as [Hd Hf].
  assert (Hopt : dom (initSupported (range fv)) = optional fv).
  { rewrite Hd. apply set_eq. intros d. rewrite elem_of_list_to_set, list_elem_of_fmap. unfold optional.
    rewrite elem_of_map. by setoid_rewrite elem_of_range. }
  destruct (validateDeps_ok deps_depth fv (initSupported (range fv))) as (r & Hrun & _ & _ & Hr).
  { by intros b Hb%Hf. }
  { unfold deps_depth. lia. }
  { intros b _. pose proof (rank_bound (mapToOptional b)). unfold deps_depth. lia. }
  unfold ValidateDeps. rewrite Hrun. exists (fst r). split; [done|].
  split; [intros fuel Hle; by rewrite (validateDeps_more _ _ _ _ _ Hle Hrun)|]. rewrite Hopt in Hr.
  destruct (fst r) as [[]|[|d]|]; [|done| |done].
  - split; [|by left]. split; [|done]. intros _ b d Hb. by apply Hr, elem_of_range.
  - destruct Hr as [Hm (b & Hb%elem_of_range & Hp)]. split; [|right; by exists b, d].
    split; [done|]. intros Hall. by destruct Hm; eapply Hall.
Qed.
End ValidateDeps.

Lemma validate_deps_correct_witness :
  ValidateDeps elements {[MPPOptional; PaymentAddrRequired; TLVOnionPayloadOptional]} = Some (Ok tt) /\
  ValidateDeps elements {[AMPRequired; PaymentAddrOptional]} = Some (Err (ErrMissingFeatureDep TLVOnionPayloadOptional)) /\
  exists r, ValidateDeps elements {[AMPRequired; PaymentAddrOptional]} = Some r /\ r <> Ok tt.
Proof.
  assert (H : ValidateDeps elements {[AMPRequired; PaymentAddrOptional]} =
    Some (Err (ErrMissingFeatureDep TLVOnionPayloadOptional))) by (vm_compute; reflexivity).
  split; [vm_compute; reflexivity|]. split; [exact H|].
  destruct (validate_deps_correct elements (fun s => reflexivity _) {[AMPRequired; PaymentAddrOptional]}) as (r & Hr & _).
  exists r. split; [exact Hr|]. rewrite H in Hr. by injection Hr as <-.
Defined.

(** ** The packed forms *)
Section Packed.
Context (range : gset FeatureBit -> list FeatureBit).
Context (range_perm : forall s, range s ≡ₚ elements s).
Context (width : Z) (width_ok : 0 < width <= 8).

Definition elem (data : list Z) (j : nat) : Z := default 0 (data !! j).

(** The place of a bit: its byte and its position there. *)
Definition at_place (length f : Z) (j : nat) (k : Z) : Prop := Z.of_nat j = length - f / width - 1 /\ k = f mod width.

Lemma bit_pow k i : 0 <= k < 8 -> Z.testbit (u8 (Z.shiftl 1 k)) i = bool_decide (i = k).
Proof.
  intros Hk. rewrite uwrap_id.
  - rewrite Z.shiftl_1_l. destruct (decide (i = k)) as [->|Hne].
    + rewrite bool_decide_true by done. apply Z.pow2_bits_true. lia.
    + rewrite bool_decide_false by done. apply Z.pow2_bits_false. lia.
  - unfold is_uint. rewrite Z.shiftl_1_l. split; [lia|]. apply Z.pow_lt_mono_r; lia.
Qed.

Lemma set_bit_spec (L : nat) data f : length data = L -> 0 <= f -> f / width < Z.of_nat L ->
  exists data', set_bit (Z.of_nat L) width data f = Ok data' /\ length data' = L /\
    forall j k, (j < L)%nat ->
      (Z.testbit (elem data' j) k = true <-> Z.testbit (elem data j) k = true \/ at_place (Z.of_nat L) f j k).
Proof.
  intros Hlen Hf Hlt. assert (Hdiv : 0 <= f / width) by (apply Z.div_pos; lia).
  assert (Hmod : 0 <= f mod width < 8) by (pose proof (Z.mod_pos_bound f width ltac:(lia)); lia).
  unfold set_bit. rewrite Z.quot_div_nonneg, Z.rem_mod_nonneg by lia.
  replace (Z.of_nat L - f / width - 1 <? 0) with false by (symmetry; apply Z.ltb_ge; lia).
  set (i := Z.to_nat (Z.of_nat L - f / width - 1)).
  destruct (lookup_lt_is_Some_2 data i ltac:(lia)) as [d Hd]. rewrite Hd.
  eexists. split; [reflexivity|]. split; [by rewrite length_insert|].
  intros j k Hj. unfold elem, at_place. destruct (decide (j = i)) as [->|Hne].
  - rewrite list_lookup_insert_eq, Hd by lia. cbn. rewrite Z.lor_spec, bit_pow, orb_true_iff, bool_decide_eq_true by lia.
    split; (intros [?|?]; [by left|right]); [split; [lia|done]|lia].
  - rewrite list_lookup_insert_ne by done. split; [by left|]. intros [?|[? _]]; [done|lia].
Qed.

Lemma set_bits_spec (L : nat) fs data : length data = L -> (forall f, f ∈ fs -> 0 <= f /\ f / width < Z.of_nat L) ->
  exists data', set_bits (Z.of_nat L) width data fs = Ok data' /\ length data' = L /\
    forall j k, (j < L)%nat ->
      (Z.testbit (elem data' j) k = true <->
       Z.testbit (elem data j) k = true \/ exists f, f ∈ fs /\ at_place (Z.of_nat L) f j k).
Proof.
  revert data. induction fs as [|f fs IH]; intros data Hlen Hfs.
  - exists data. split; [done|]. split; [done|]. intros j k _. split; [by left|]. intros [?|(? & ?%not_elem_of_nil & _)]; done.
  - destruct (Hfs f ltac:(by left)) as [Hf0 Hf1]. destruct (set_bit_spec L data f Hlen Hf0 Hf1) as (d1 & Hr1 & Hl1 & Hb1).
    destruct (IH d1 Hl1) as (d2 & Hr2 & Hl2 & Hb2); [intros g Hg; apply Hfs; by right|].
    exists d2. split; [cbn; by rewrite Hr1|]. split; [done|]. intros j k Hj.
    rewrite (Hb2 j k Hj), (Hb1 j k Hj). setoid_rewrite elem_of_cons. naive_solver.
Qed.

Lemma foldl_max_bound (l : list Z) acc :
  acc <= foldl Z.max acc l /\ (forall f, f ∈ l -> f <= foldl Z.max acc l) /\
  (foldl Z.max acc l = acc \/ foldl Z.max acc l ∈ l).
Proof.
  revert acc. induction l as [|x l IH]; intros acc; cbn.
  - split; [lia|]. split; [by intros f ?%not_elem_of_nil|by left].
  - destruct (IH (Z.max acc x)) as (H1 & H2 & H3). split; [lia|]. split.
    + intros f [->|Hf]%elem_of_cons; [lia|by apply H2].
    + destruct H3 as [->|Hin]; [|right; by right]. destruct (Z.max_spec acc x) as [[_ ->]|[_ ->]]; [right; by left|by left].
Qed.

(** The number of bytes: enough for every bit, and no more. *)
Lemma serializeSize_spec fv : (forall b, b ∈ fv -> 0 <= b) ->
  0 <= serializeSize fv width /\ (forall b, b ∈ fv -> b / width < serializeSize fv width) /\
  (fv = ∅ /\ serializeSize fv width = 0 \/ exists b, b ∈ fv /\ serializeSize fv width = b / width + 1).
Proof.
  intros Hpos. unfold serializeSize. destruct (foldl_max_bound (elements fv) (-1)) as (Hge & Hall & Hmax).
  setoid_rewrite elem_of_elements in Hall. rewrite elem_of_elements in Hmax.
  destruct (Z.eqb_spec (foldl Z.max (-1) (elements fv)) (-1)) as [He|Hne].
  - assert (Hempty : fv = ∅).
    { apply set_eq. intros b. split; [|set_solver]. intros Hb. specialize (Hall b Hb). specialize (Hpos b Hb). lia. }
    split; [done|]. split; [subst; set_solver|by left].
  - destruct Hmax as [?|Hin]; [done|]. specialize (Hpos _ Hin). rewrite Z.quot_div_nonneg by lia.
    pose proof (Z.div_pos _ width Hpos ltac:(lia)). split; [lia|]. split; [|right; eauto].
    intros b Hb. pose proof (Z.div_le_mono b _ width ltac:(lia) (Hall b Hb)). lia.
Qed.

Lemma same_place f i : f / width = i / width -> f mod width = i mod width -> f = i.
Proof. intros Hd Hm. rewrite (Z.div_mod f width), (Z.div_mod i width) by lia. by rewrite Hd, Hm. Qed.

Lemma decoded (bits : list Z) (P : Z -> bool) (fv : RawFeatureVector) b :
  b ∈ foldl (fun fv i => if P i then {[u16 i]} ∪ fv else fv) fv bits <->
  b ∈ fv \/ exists i, i ∈ bits /\ P i = true /\ b = u16 i.
Proof.
  revert fv. induction bits as [|i bits IH]; intros fv; cbn; [set_solver|].
  rewrite IH. setoid_rewrite elem_of_cons. destruct (P i) eqn:Hp; [rewrite elem_of_union, elem_of_singleton|]; naive_solver congruence.
Qed.

Lemma low_bits d : (forall k, Z.testbit d k = true -> k < width) -> 0 <= d < 2 ^ width /\ byte.unsigned (byte.of_Z d) = d.
Proof.
  intros Hk. assert (Hd : d mod 2 ^ width = d).
  { apply Z.bits_inj. intros k. destruct (Z.ltb_spec k 0); [by rewrite !Z.testbit_neg_r|].
    destruct (Z.lt_ge_cases k width); [by rewrite Z.mod_pow2_bits_low|].
    rewrite Z.mod_pow2_bits_high by lia. destruct (Z.testbit d k) eqn:E; [specialize (Hk k E); lia|done]. }
  assert (Hb : 0 <= d < 2 ^ width) by (rewrite <- Hd; apply Z.mod_pos_bound; lia).
  split; [done|]. rewrite byte.unsigned_of_Z. unfold byte.wrap. apply Z.mod_small.
  pose proof (Z.pow_le_mono_r 2 width 8 ltac:(lia) ltac:(lia)). lia.
Qed.

Lemma land_1 z : (Z.land z 1 =? 1) = Z.testbit z 0.
Proof.
  change 1 with (Z.ones 1) at 1. rewrite Z.land_ones by lia.
  rewrite Z.bit0_odd, Zmod_odd. by destruct (Z.odd z).
Qed.

(** The data a vector is packed into, as byte values. *)
Definition packs (fv : RawFeatureVector) (L : nat) (zs : list Z) : Prop :=
  length zs = L /\
  (forall j k, (j < L)%nat -> Z.testbit (elem zs j) k = true <-> exists f, f ∈ fv /\ at_place (Z.of_nat L) f j k) /\
  (forall j, (j < L)%nat -> 0 <= elem zs j < 2 ^ width /\ byte.unsigned (byte.of_Z (elem zs j)) = elem zs j).

Lemma encode_packs fv L : Z.of_nat L = serializeSize fv width -> (forall b, b ∈ fv -> 0 <= b) ->
  exists zs, packs fv L zs /\ set_bits (Z.of_nat L) width (replicate L 0) (range fv) = Ok zs.
Proof.
  intros HL Hpos. destruct (serializeSize_spec fv Hpos) as (_ & Hs & _).
  destruct (set_bits_spec L (range fv) (replicate L 0)) as (zs & Hzs & Hlen & Hbits).
  { apply length_replicate. }
  { intros f Hf%(elem_of_range range range_perm). rewrite HL. split; [by apply Hpos|by apply Hs]. }
  assert (Hzero : forall j k, Z.testbit (elem (replicate L 0) j) k = false).
  { intros j k. unfold elem. destruct (replicate L 0 !! j) eqn:E; [|apply Z.testbit_0_l].
    apply lookup_replicate in E as [-> _]. apply Z.testbit_0_l. }
  assert (Hbit : forall j k, (j < L)%nat -> Z.testbit (elem zs j) k = true <-> exists f, f ∈ fv /\ at_place (Z.of_nat L) f j k).
  { intros j k Hj. rewrite (Hbits j k Hj), Hzero. setoid_rewrite (elem_of_range range range_perm). naive_solver. }
  exists zs. split; [|exact Hzs]. split; [exact Hlen|]. split; [exact Hbit|].
  intros j Hj. apply low_bits. intros k (f & _ & _ & ->)%Hbit; [|done]. apply Z.mod_pos_bound. lia.
Qed.

Lemma packs_elem fv L zs j z : packs fv L zs -> zs !! j = Some z ->
  (j < L)%nat /\ elem zs j = z /\ 0 <= z < 2 ^ width /\ byte.unsigned (byte.of_Z z) = z.
Proof.
  intros (Hlen & _ & Hr) Hz. pose proof (lookup_lt_Some _ _ _ Hz). specialize (Hr j ltac:(lia)).
  unfold elem in *. rewrite Hz in *. split; [lia|done].
Qed.

(** Reading a packed bit finds exactly the features of the vector. *)
Lemma packs_bit_at fv L zs i : packs fv L zs -> 0 <= i -> i / width < Z.of_nat L ->
  bit_at (byte.of_Z <$> zs) (Z.of_nat L) width i = true <-> i ∈ fv.
Proof.
  intros Hp Hi Hlt. pose proof (Z.div_pos i width ltac:(lia) ltac:(lia)). pose proof Hp as (Hlen & Hbit & _).
  unfold bit_at. rewrite Z.quot_div_nonneg, Z.rem_mod_nonneg by lia.
  set (j := Z.to_nat (Z.of_nat L - i / width - 1)). destruct (lookup_lt_is_Some_2 zs j ltac:(lia)) as [z Hz].
  rewrite list_lookup_fmap, Hz. destruct (packs_elem fv L zs j z Hp Hz) as (Hj & Hez & _ & He). cbn.
  rewrite He, land_1, Z.shiftr_spec, Z.add_0_l, <- Hez, (Hbit j _ Hj) by lia. split.
  - intros (f & Hf & Hfj & Hk). by rewrite <- (same_place f i) by lia.
  - intros Hin. exists i. split; [done|]. split; [lia|done].
Qed.

Lemma packs_head fv L zs z : packs fv L zs -> Z.of_nat L = serializeSize fv width -> (forall b, b ∈ fv -> 0 <= b) ->
  zs !! 0%nat = Some z -> z <> 0.
Proof.
  intros Hp HL Hpos Hz. destruct (packs_elem _ _ _ _ _ Hp Hz) as (Hj & Hez & _). destruct Hp as (_ & Hbit & _).
  destruct (serializeSize_spec fv Hpos) as (_ & _ & [[_ H0]|(b & Hb & Hmax)]); [lia|]. intros ->.
  assert (Hb1 : Z.testbit (elem zs 0) (b mod width) = true).
  { apply Hbit; [lia|]. exists b. split; [done|]. split; [lia|done]. }
  by rewrite Hez, Z.testbit_0_l in Hb1.
Qed.

Lemma packs_decode fv L zs rest : packs fv L zs -> Z.of_nat L = serializeSize fv width -> (forall b, b ∈ fv -> 0 <= b < 2 ^ 16) ->
  decode ∅ (Z.of_nat L) width ((byte.of_Z <$> zs) ++ rest) = (Ok fv, rest).
Proof.
  intros Hp HL Hfv. destruct (serializeSize_spec fv) as (_ & Hs & _); [intros b Hb; by apply Hfv|].
  pose proof Hp as (Hlen & _). unfold decode, ReadFull. rewrite Nat2Z.id. unfold mbind, M_bind.
  rewrite decide_True by (rewrite length_app, length_fmap; lia).
  rewrite take_app_length', drop_app_length' by (rewrite length_fmap; lia). unfold mret, M_ret. f_equal. f_equal.
  apply set_eq. intros b. rewrite decoded. split.
  - intros [?|(i & Hi & Hb & ->)]; [set_solver|]. apply elem_of_seqZ in Hi as [Hi0 Hi].
    assert (Hdiv : i / width < Z.of_nat L) by (apply Z.div_lt_upper_bound; lia).
    apply (packs_bit_at fv) in Hb; [|done..]. by rewrite uwrap_id by (apply Hfv, Hb).
  - intros Hb. right. exists b. pose proof (Hfv b Hb) as Hr. pose proof (Hs b Hb) as Hlt. rewrite <- HL in Hlt.
    split; [apply elem_of_seqZ; pose proof (Z.div_mod b width ltac:(lia)); pose proof (Z.mod_pos_bound b width ltac:(lia)); nia|].
    split; [by apply (packs_bit_at fv L zs b Hp ltac:(lia))|by rewrite uwrap_id].
Qed.

Lemma packed fv : (forall b, b ∈ fv -> 0 <= b < 2 ^ 16) ->
  exists data, Z.of_nat (length data) = serializeSize fv width /\
    (forall buf, encode range fv (serializeSize fv width) width buf = (Ok tt, buf ++ data)) /\
    Forall (fun x => byte.unsigned x < 2 ^ width) data /\
    (forall x, data !! 0%nat = Some x -> byte.unsigned x <> 0) /\
    (forall rest, decode ∅ (Z.of_nat (length data)) width (data ++ rest) = (Ok fv, rest)).
Proof.
  intros Hfv. assert (Hpos : forall b, b ∈ fv -> 0 <= b) by (intros b Hb; by apply Hfv).
  destruct (serializeSize_spec fv Hpos) as (Hs0 & _ & _).
  set (L := Z.to_nat (serializeSize fv width)). assert (HL : Z.of_nat L = serializeSize fv width) by (unfold L; lia).
  destruct (encode_packs fv L HL Hpos) as (zs & Hp & Hzs). pose proof Hp as (Hlen & _).
  exists (byte.of_Z <$> zs). rewrite length_fmap, Hlen. split; [exact HL|]. split; [|split; [|split]].
  - intros buf. unfold encode. rewrite <- HL, Nat2Z.id. unfold mbind, M_bind, lift. by rewrite Hzs.
  - apply Forall_lookup. intros j x Hx. apply list_lookup_fmap_Some in Hx as (z & -> & Hz).
    destruct (packs_elem fv L zs j z Hp Hz) as (_ & _ & Hr & He). lia.
  - intros x Hx. apply list_lookup_fmap_Some in Hx as (z & -> & Hz).
    destruct (packs_elem fv L zs 0 z Hp Hz) as (_ & _ & _ & ->). by apply (packs_head fv L zs).
  - intros rest. by apply packs_decode.
Qed.
End Packed.

(** A vector of 16-bit features is packed, in whatever order its map is ranged
    over, into the fewest bytes (of five bits in base32, the first never zero), and
    reads back as itself from all three forms, the length-prefixed one included. *)
Theorem features_roundtrip (range : gset FeatureBit -> list FeatureBit)
    (range_perm : forall s, range s ≡ₚ elements s) (fv : RawFeatureVector) :
  (forall b, b ∈ fv -> 0 <= b < 2 ^ 16) ->
  (exists data, (forall buf, EncodeBase256 range fv buf = (Ok tt, buf ++ data)) /\
    (forall buf, Encode range fv buf = (Ok tt, buf ++ be_put 2 (Z.of_nat (length data)) ++ data)) /\
    (forall x, data !! 0%nat = Some x -> byte.unsigned x <> 0) /\
    forall rest, DecodeBase256 ∅ (Z.of_nat (length data)) (data ++ rest) = (Ok fv, rest) /\
                 Decode ∅ (be_put 2 (Z.of_nat (length data)) ++ data ++ rest) = (Ok fv, rest)) /\
  (exists data, (forall buf, EncodeBase32 range fv buf = (Ok tt, buf ++ data)) /\
    Forall (fun x => byte.unsigned x < 32) data /\ (forall x, data !! 0%nat = Some x -> byte.unsigned x <> 0) /\
    forall rest, DecodeBase32 ∅ (Z.of_nat (length data)) (data ++ rest) = (Ok fv, rest)).
Proof.
  intros Hfv. split.
  - destruct (packed range range_perm 8 ltac:(lia) fv Hfv) as (data & Hlen & Henc & _ & Hhd & Hdec).
    assert (Hsize : is_uint 16 (serializeSize fv 8)).
    { destruct (serializeSize_spec range range_perm 8 ltac:(lia) fv) as (H0 & _ & [[_ ->]|(b & Hb & ->)]); [intros b Hb; by apply Hfv|done|].
      specialize (Hfv b Hb). pose proof (Z.div_le_upper_bound b 8 (2 ^ 16) ltac:(lia) ltac:(lia)). pose proof (Z.div_lt_upper_bound b 8 (2 ^ 14) ltac:(lia) ltac:(lia)).
      unfold is_uint. pose proof (Z.div_pos b 8 ltac:(lia) ltac:(lia)). lia. }
    exists data. split; [exact Henc|]. split; [|split; [exact Hhd|]].
    + intros buf. unfold Encode. unfold mbind at 1, M_bind at 1. unfold WriteUint16, WriteBytes, modify. rewrite uwrap_id by done.
      rewrite Henc, Hlen. by rewrite <- app_assoc.
    + intros rest. split; [apply Hdec|]. unfold Decode, ReadUint16, ReadUint, ReadFull.
      unfold mbind, M_bind, mret, M_ret. rewrite decide_True by (rewrite length_app, length_be_put; lia).
      rewrite take_app_length', drop_app_length' by (by rewrite length_be_put). rewrite be_get_put_id by (rewrite Hlen; exact Hsize). apply Hdec.
  - destruct (packed range range_perm 5 ltac:(lia) fv Hfv) as (data & Hlen & Henc & Hlow & Hhd & Hdec). exists data. auto.
Qed.

Lemma features_roundtrip_witness :
  (forall b, b ∈ ({[AMPRequired; PaymentAddrOptional]} : RawFeatureVector) -> 0 <= b < 2 ^ 16) /\
  exists data, EncodeBase256 elements {[AMPRequired; PaymentAddrOptional]} [] = (Ok tt, data) /\
    DecodeBase256 ∅ (Z.of_nat (length data)) data = (Ok {[AMPRequired; PaymentAddrOptional]}, []).
Proof.
  assert (Hb : forall b, b ∈ ({[AMPRequired; PaymentAddrOptional]} : RawFeatureVector) -> 0 <= b < 2 ^ 16).
  { intros b. rewrite elem_of_union, !elem_of_singleton. intros [->| ->]; vm_compute; by split. }
  split; [exact Hb|].
  destruct (features_roundtrip elements (fun s => reflexivity _) _ Hb) as [(data & Henc & _ & _ & Hdec) _].
  exists data. split; [exact (Henc [])|]. rewrite <- (app_nil_r data) at 2. apply Hdec.
Defined.

(** [Decode] reads up to 65535 bytes, but a feature bit has 16 bits: the bits from
    65536 on are read as the bits of their low half.  A vector of 8193 bytes whose
    first byte is 1 has bit 65536 set, and is read as requiring bit 0. *)
Theorem decode_wraps_bits (rest : bytes) :
  exists fv r, decode ∅ 8193 8 (Byte.x01 :: replicate (Z.to_nat 8192) Byte.x00 ++ rest) = (Ok fv, r) /\ 0 ∈ fv.
Proof.
  unfold decode, ReadFull, mbind, M_bind, mret, M_ret.
  rewrite decide_True by (cbn [length]; rewrite length_app, length_replicate; lia). eexists _, _. split; [reflexivity|].
  apply (decoded elements (fun s => reflexivity _) 8 ltac:(lia)). right. exists 65536. split; [by apply elem_of_seqZ|]. split; [|done].
  unfold bit_at. replace (Z.to_nat (8193 - 65536 `quot` 8 - 1)) with 0%nat by done.
  by replace (Z.to_nat 8193) with (S (Z.to_nat 8192)) by lia.
Qed.
