(* ===== verification/Bech32.v ===== *)
(** * Bech32 ([zpay32/bech32.go])

    A payment request is a human-readable part, a separator and groups of five bits,
    of which the last six are a checksum.  [btcutil] writes the string and regroups
    bits ([Bech32Lib]); reading and the checksum are the code's own. *)

From S2P Require Import Prelude.

Abbreviation val := byte.unsigned.

Definition bytes_of (s : String.string) : bytes := String.list_byte_of_string s.

Definition charset : bytes := Eval compute in bytes_of "qpzry9x8gf2tvdw0s3jn54khce6mua7l"%string.
Definition gen : list Z := [0x3b6a57b2; 0x26508e6d; 0x1ea119fa; 0x3d4233dd; 0x2a1462b3].

Inductive b32err : Type := ErrBechLength | ErrBechCharacter | ErrBechCase | ErrBechSeparator | ErrBechCharset | ErrBechChecksum | ErrDataByte.

(** ** Characters *)
Definition lower_byte (b : byte) : byte := if (65 <=? val b) && (val b <=? 90) then byte.of_Z (val b + 32) else b.
Definition upper_byte (b : byte) : byte := if (97 <=? val b) && (val b <=? 122) then byte.of_Z (val b - 32) else b.
Definition ToLower (s : bytes) : bytes := lower_byte <$> s.
Definition ToUpper (s : bytes) : bytes := upper_byte <$> s.

Fixpoint IndexByte (s : bytes) (c : byte) : option nat :=
  match s with
  | [] => None
  | b :: s => if decide (b = c) then Some O else S <$> IndexByte s c
  end.

Fixpoint LastIndexByte (s : bytes) (c : byte) : option nat :=
  match s with
  | [] => None
  | b :: s => match LastIndexByte s c with Some i => Some (S i) | None => if decide (b = c) then Some O else None end
  end.

Fixpoint toBytes (chars : bytes) : res b32err bytes :=
  match chars with
  | [] => Ok []
  | c :: chars =>
      match IndexByte charset c with
      | None => Err ErrBechCharset
      | Some index => rest ← toBytes chars; Ok (byte.of_Z (Z.of_nat index) :: rest)
      end
  end.

Fixpoint toChars (data : bytes) : res b32err bytes :=
  match data with
  | [] => Ok []
  | b :: data =>
      match charset !! Z.to_nat (val b) with
      | None => Err ErrDataByte
      | Some c => rest ← toChars data; Ok (c :: rest)
      end
  end.

(** ** The checksum *)
Definition gens (b : Z) : Z :=
  foldl (fun chk ig => if Z.testbit b (Z.of_nat ig.1) then Z.lxor chk ig.2 else chk) 0 (imap pair gen).

(** The loop over [gen] adds the generators of the bits of [b]. *)
Definition polymod_step (chk v : Z) : Z :=
  let b := Z.shiftr chk 25 in
  foldl (fun chk ig => if Z.testbit b (Z.of_nat ig.1) then Z.lxor chk ig.2 else chk)
    (Z.lxor (Z.shiftl (Z.land chk 0x1ffffff) 5) v) (imap pair gen).

Definition bech32Polymod (values : list Z) : Z := foldl polymod_step 1 values.

Definition bech32HrpExpand (hrp : bytes) : list Z :=
  ((fun b => Z.shiftr (val b) 5) <$> hrp) ++ [0] ++ ((fun b => Z.land (val b) 31) <$> hrp).

Definition bech32Checksum (hrp data : bytes) : bytes :=
  let values := bech32HrpExpand hrp ++ (val <$> data) ++ [0; 0; 0; 0; 0; 0] in
  let polymod := Z.lxor (bech32Polymod values) 1 in
  (fun i => byte.of_Z (Z.land (Z.shiftr polymod (5 * (5 - i))) 31)) <$> seqZ 0 6.

Definition bech32VerifyChecksum (hrp data : bytes) : bool := bech32Polymod (bech32HrpExpand hrp ++ (val <$> data)) =? 1.

(** ** Reading *)
Definition decodeBech32 (bech : bytes) : res b32err (bytes * bytes) :=
  _ ← guard_err (Z.of_nat (length bech) <? 8) ErrBechLength;
  _ ← guard_err (existsb (fun b => (val b <? 33) || (126 <? val b)) bech) ErrBechCharacter;
  let lower := ToLower bech in
  let upper := ToUpper bech in
  _ ← guard_err (negb (bool_decide (bech = lower)) && negb (bool_decide (bech = upper))) ErrBechCase;
  let bech := lower in
  match LastIndexByte bech (byte.of_Z 49) with
  | None => Err ErrBechSeparator
  | Some one =>
      _ ← guard_err ((one <? 1)%nat || (length bech <? one + 7)%nat) ErrBechSeparator;
      let hrp := take one bech in
      let data := drop (one + 1) bech in
      decoded ← toBytes data;
      _ ← guard_err (negb (bech32VerifyChecksum hrp decoded)) ErrBechChecksum;
      Ok (hrp, take (length decoded - 6) decoded)
  end.

(** ** What [btcutil] does *)
Class Bech32Lib : Type := {
  bech32_Encode : bytes -> bytes -> res b32err bytes;
  ConvertBits : bytes -> Z -> Z -> bool -> option bytes
}.

Definition group (b : byte) : Prop := val b < 32.
#[export] Instance group_dec b : Decision (group b) := decide (val b < 32).

(** What a human-readable part may be. *)
Record hrp_ok (hrp : bytes) : Prop := { ho_some : hrp <> []; ho_chars : Forall (fun b => 33 <= val b <= 126 /\ lower_byte b = b) hrp }.

(** The documented behaviour: the string of BIP 173 with its checksum; regrouping
    bytes into groups of five bits with padding, and back without, is the identity;
    nothing is padded if the groups are full. *)
Class Bech32Laws `{Bech32Lib} : Prop := {
  encode_string hrp data chars : toChars (data ++ bech32Checksum hrp data) = Ok chars -> hrp_ok hrp ->
    bech32_Encode hrp data = Ok (hrp ++ [byte.of_Z 49] ++ chars);
  convert_groups bs : exists gs, ConvertBits bs 8 5 true = Some gs /\ Forall group gs /\
    Z.of_nat (length gs) = (8 * Z.of_nat (length bs) + 4) / 5 /\ ConvertBits gs 5 8 false = Some bs;
  convert_full bs gs : ConvertBits bs 8 5 true = Some gs -> (length bs `mod` 5 = 0)%nat -> ConvertBits gs 5 8 true = Some bs;
  convert_total gs : Forall group gs -> is_Some (ConvertBits gs 5 8 true)
}.

(** ** The checksum of a string that carries it is one *)

(** The step is linear over exclusive or. *)
Lemma gens_fold b : forall x, foldl (fun chk (ig : nat * Z) => if Z.testbit b (Z.of_nat ig.1) then Z.lxor chk ig.2 else chk) x (imap pair gen) = Z.lxor x (gens b).
Proof.
  intros x. unfold gens, gen. cbn [imap foldl Datatypes.fst Datatypes.snd compose].
  destruct (Z.testbit b (Z.of_nat 0)), (Z.testbit b (Z.of_nat 1)), (Z.testbit b (Z.of_nat 2)), (Z.testbit b (Z.of_nat 3)), (Z.testbit b (Z.of_nat 4));
    rewrite ?Z.lxor_0_l, ?Z.lxor_0_r, <- ?Z.lxor_assoc; done.
Qed.

Lemma step_eq chk v : polymod_step chk v = Z.lxor (Z.lxor (Z.shiftl (Z.land chk 0x1ffffff) 5) v) (gens (Z.shiftr chk 25)).
Proof. unfold polymod_step. apply gens_fold. Qed.

Lemma gens_lxor a b : gens (Z.lxor a b) = Z.lxor (gens a) (gens b).
Proof.
  unfold gens, gen. cbn [imap foldl Datatypes.fst Datatypes.snd compose]. rewrite !Z.lxor_spec.
  destruct (Z.testbit a (Z.of_nat 0)), (Z.testbit a (Z.of_nat 1)), (Z.testbit a (Z.of_nat 2)), (Z.testbit a (Z.of_nat 3)), (Z.testbit a (Z.of_nat 4)),
    (Z.testbit b (Z.of_nat 0)), (Z.testbit b (Z.of_nat 1)), (Z.testbit b (Z.of_nat 2)), (Z.testbit b (Z.of_nat 3)), (Z.testbit b (Z.of_nat 4)); reflexivity.
Qed.

Lemma lxor_swap a b c d : Z.lxor (Z.lxor a b) (Z.lxor c d) = Z.lxor (Z.lxor a c) (Z.lxor b d).
Proof. rewrite !Z.lxor_assoc. f_equal. rewrite <- !Z.lxor_assoc. by rewrite (Z.lxor_comm b c). Qed.

Lemma land_lxor a b m : Z.land (Z.lxor a b) m = Z.lxor (Z.land a m) (Z.land b m).
Proof. apply Z.bits_inj. intros i. rewrite Z.land_spec, !Z.lxor_spec, !Z.land_spec. by destruct (Z.testbit a i), (Z.testbit b i), (Z.testbit m i). Qed.

Lemma step_linear a b v w : polymod_step (Z.lxor a b) (Z.lxor v w) = Z.lxor (polymod_step a v) (polymod_step b w).
Proof.
  rewrite !step_eq, land_lxor, Z.shiftl_lxor, Z.shiftr_lxor, gens_lxor. 
  rewrite (lxor_swap (Z.lxor _ v) _ (Z.lxor _ w) _). f_equal. apply lxor_swap.
Qed.

Lemma polymod_linear vs : forall a b, foldl polymod_step (Z.lxor a b) vs = Z.lxor (foldl polymod_step a (replicate (length vs) 0)) (foldl polymod_step b vs).
Proof.
  induction vs as [|v vs IH]; intros a b; [done|]. cbn [foldl length replicate]. rewrite <- IH. f_equal. by rewrite <- step_linear, Z.lxor_0_l.
Qed.

Lemma lxor_bound n a b : 0 <= n -> 0 <= a < 2 ^ n -> 0 <= b < 2 ^ n -> 0 <= Z.lxor a b < 2 ^ n.
Proof.
  intros Hn [Ha Ha'] [Hb Hb']. assert (H0 : 0 <= Z.lxor a b) by (apply Z.lxor_nonneg; lia). split; [done|].
  destruct (Z.eq_dec (Z.lxor a b) 0) as [->|Hne]; [apply Z.pow_pos_nonneg; lia|]. apply Z.log2_lt_pow2; [lia|].
  pose proof (Z.log2_lxor a b Ha Hb) as Hlog.
  assert (Hl : forall x, 0 <= x < 2 ^ n -> n <> 0 -> Z.log2 x < n).
  { intros x [Hx Hx'] Hz. destruct (Z.eq_dec x 0) as [->|]; [cbn; lia|]. apply Z.log2_lt_pow2; lia. }
  destruct (Z.eq_dec n 0) as [->|Hz].
  - assert (a = 0) by lia. assert (b = 0) by lia. subst. done.
  - pose proof (Hl a (conj Ha Ha') Hz). pose proof (Hl b (conj Hb Hb') Hz). lia.
Qed.

Lemma gens_bound b : 0 <= gens b < 2 ^ 30.
Proof.
  unfold gens, gen. cbn [imap foldl Datatypes.fst Datatypes.snd compose].
  destruct (Z.testbit b (Z.of_nat 0)), (Z.testbit b (Z.of_nat 1)), (Z.testbit b (Z.of_nat 2)), (Z.testbit b (Z.of_nat 3)), (Z.testbit b (Z.of_nat 4)); vm_compute; split; discriminate || reflexivity.
Qed.

Lemma low25 chk : Z.land chk 0x1ffffff = chk mod 2 ^ 25.
Proof. change 0x1ffffff with (Z.ones 25). by apply Z.land_ones. Qed.

Lemma step_bound chk v : 0 <= v < 2 ^ 30 -> 0 <= polymod_step chk v < 2 ^ 30.
Proof.
  intros Hv. rewrite step_eq. apply lxor_bound; [lia| |apply gens_bound]. apply lxor_bound; [lia| |done].
  rewrite low25, Z.shiftl_mul_pow2 by lia. pose proof (Z.mod_pos_bound chk (2 ^ 25) ltac:(lia)). lia.
Qed.

Lemma polymod_bound vs : Forall (fun v => 0 <= v < 2 ^ 30) vs -> forall chk, 0 <= chk < 2 ^ 30 -> 0 <= foldl polymod_step chk vs < 2 ^ 30.
Proof. induction 1 as [|v vs Hv _ IH]; intros chk Hc; [done|]. cbn. apply IH. by apply step_bound. Qed.

(** Groups pass through a register with room unchanged. *)
Lemma step_room chk v : 0 <= chk < 2 ^ 25 -> 0 <= v < 32 -> polymod_step chk v = 32 * chk + v.
Proof.
  intros Hc Hv. rewrite step_eq, low25, Z.mod_small by lia. rewrite Z.shiftr_div_pow2, Z.div_small by lia.
  change (gens 0) with 0. rewrite Z.lxor_0_r, <- Z.add_nocarry_lxor.
  - rewrite Z.shiftl_mul_pow2 by lia. lia.
  - apply Z.bits_inj. intros i. rewrite Z.land_spec, Z.bits_0. destruct (Z.le_gt_cases 5 i).
    + rewrite (Z.bits_above_log2 v i), andb_false_r; [done|lia|]. destruct (Z.eq_dec v 0) as [->|]; [cbn; lia|].
      apply Z.log2_lt_pow2; [lia|]. assert (2 ^ 5 <= 2 ^ i) by (apply Z.pow_le_mono_r; lia). lia.
    + destruct (Z.le_gt_cases 0 i); [rewrite Z.shiftl_spec_low by lia; done|by rewrite (Z.testbit_neg_r _ i) by lia].
Qed.

Lemma groups_of p : 0 <= p < 2 ^ 30 ->
  foldl polymod_step 0 ((fun i => Z.land (Z.shiftr p (5 * (5 - i))) 31) <$> seqZ 0 6) = p.
Proof.
  intros Hp. change (seqZ 0 6) with [0; 1; 2; 3; 4; 5]. cbn [fmap list_fmap].
  assert (Hg : forall k, 0 <= k -> Z.land (Z.shiftr p k) 31 = (p / 2 ^ k) mod 32).
  { intros k Hk. change 31 with (Z.ones 5). rewrite Z.land_ones, Z.shiftr_div_pow2 by lia. done. }
  rewrite !Hg by lia. cbn [foldl].
  change (5 * (5 - 0)) with 25. change (5 * (5 - 1)) with 20. change (5 * (5 - 2)) with 15. change (5 * (5 - 3)) with 10. change (5 * (5 - 4)) with 5. change (5 * (5 - 5)) with 0.
  assert (Hs : forall k, 0 <= k <= 20 -> p / 2 ^ k = 32 * (p / 2 ^ (k + 5)) + (p / 2 ^ k) mod 32).
  { intros k Hk. rewrite Z.pow_add_r, <- Z.div_div by lia. change (2 ^ 5) with 32. apply Z.div_mod. lia. }
  assert (Hb : forall k, 5 <= k -> 0 <= p / 2 ^ k < 2 ^ 25).
  { intros k Hk. split; [apply Z.div_pos; lia|]. apply Z.div_lt_upper_bound; [lia|]. rewrite <- Z.pow_add_r by lia.
    assert (2 ^ 30 <= 2 ^ (k + 25)) by (apply Z.pow_le_mono_r; lia). lia. }
  assert (Hm : forall k, 0 <= (p / 2 ^ k) mod 32 < 32) by (intros k; apply Z.mod_pos_bound; lia).
  assert (H25 : (p / 2 ^ 25) mod 32 = p / 2 ^ 25) by (apply Z.mod_small; split; [apply Z.div_pos; lia|apply Z.div_lt_upper_bound; lia]).
  rewrite H25, (step_room 0) by (try lia; rewrite <- H25; apply Hm). rewrite Z.mul_0_r, Z.add_0_l.
  rewrite (step_room (p / 2 ^ 25)) by (apply Hb || apply Hm; lia). pose proof (Hs 20 ltac:(lia)) as E20. change (20 + 5) with 25 in E20. rewrite <- E20.
  rewrite (step_room (p / 2 ^ 20)) by (apply Hb || apply Hm; lia). pose proof (Hs 15 ltac:(lia)) as E15. change (15 + 5) with 20 in E15. rewrite <- E15.
  rewrite (step_room (p / 2 ^ 15)) by (apply Hb || apply Hm; lia). pose proof (Hs 10 ltac:(lia)) as E10. change (10 + 5) with 15 in E10. rewrite <- E10.
  rewrite (step_room (p / 2 ^ 10)) by (apply Hb || apply Hm; lia). pose proof (Hs 5 ltac:(lia)) as E5. change (5 + 5) with 10 in E5. rewrite <- E5.
  rewrite (step_room (p / 2 ^ 5)) by (apply Hb || apply Hm; lia). pose proof (Hs 0 ltac:(lia)) as E0. change (0 + 5) with 5 in E0. rewrite <- E0. apply Z.div_1_r.
Qed.

Lemma val_group z : 0 <= z < 256 -> val (byte.of_Z z) = z.
Proof. intros Hz. rewrite byte.unsigned_of_Z. unfold byte.wrap. by apply Z.mod_small. Qed.

Definition valued (hrp data : bytes) : list Z := bech32HrpExpand hrp ++ (val <$> data).

Lemma valued_bound hrp data : Forall (fun v => 0 <= v < 2 ^ 30) (valued hrp data).
Proof.
  unfold valued, bech32HrpExpand. rewrite !Forall_app, !list.Forall_fmap. split_and!; try (constructor; [lia|constructor]).
  all: apply list.Forall_forall; intros b _; cbn; pose proof (byte.unsigned_range b).
  - rewrite Z.shiftr_div_pow2 by lia. split; [apply Z.div_pos; lia|apply Z.div_lt_upper_bound; lia].
  - change 31 with (Z.ones 5). rewrite Z.land_ones by lia. pose proof (Z.mod_pos_bound (val b) (2 ^ 5) ltac:(lia)). lia.
  - lia.
Qed.

Lemma checksum_groups hrp data : let p := Z.lxor (foldl polymod_step (bech32Polymod (valued hrp data)) [0; 0; 0; 0; 0; 0]) 1 in
  0 <= p < 2 ^ 30 /\ val <$> bech32Checksum hrp data = (fun i => Z.land (Z.shiftr p (5 * (5 - i))) 31) <$> seqZ 0 6 /\
  Forall group (bech32Checksum hrp data).
Proof.
  intros p. assert (Hp : 0 <= p < 2 ^ 30).
  { apply lxor_bound; [lia| |lia]. apply polymod_bound; [repeat constructor; lia|]. apply polymod_bound; [apply valued_bound|lia]. }
  assert (Hg : forall i, 0 <= Z.land (Z.shiftr p i) 31 < 32).
  { intros i. change 31 with (Z.ones 5). rewrite Z.land_ones by lia. by apply Z.mod_pos_bound. }
  split; [done|]. unfold bech32Checksum. rewrite app_assoc. change (bech32HrpExpand hrp ++ (val <$> data)) with (valued hrp data).
  unfold bech32Polymod. rewrite foldl_app. fold (bech32Polymod (valued hrp data)). fold p. split.
  - rewrite <- list_fmap_compose. apply list_fmap_ext. intros j i _. cbn. apply val_group. pose proof (Hg (5 * (5 - i))). lia.
  - apply list.Forall_fmap, list.Forall_forall. intros i _. unfold group. cbn. rewrite val_group; pose proof (Hg (5 * (5 - i))); lia.
Qed.

Lemma checksum_verifies hrp data : bech32VerifyChecksum hrp (data ++ bech32Checksum hrp data) = true.
Proof.
  destruct (checksum_groups hrp data) as (Hp & Hv & _). unfold bech32VerifyChecksum. rewrite fmap_app, Hv. rewrite app_assoc.
  change (bech32HrpExpand hrp ++ (val <$> data)) with (valued hrp data). unfold bech32Polymod. rewrite foldl_app.
  set (S := foldl polymod_step 1 (valued hrp data)). rewrite <- (Z.lxor_0_r S) at 1. rewrite polymod_linear.
  unfold bech32Polymod in *. fold S in Hp |- *. rewrite groups_of by done. rewrite length_fmap, length_seqZ.
  change (replicate (Z.to_nat 6) 0) with [0; 0; 0; 0; 0; 0]. set (R := foldl polymod_step S [0; 0; 0; 0; 0; 0]).
  rewrite <- Z.lxor_assoc, Z.lxor_nilpotent, Z.lxor_0_l. done.
Qed.

(** ** Strings *)
Lemma charset_good : Forall (fun c => 33 <= val c <= 126 /\ lower_byte c = c /\ c <> byte.of_Z 49) charset.
Proof. apply (bool_decide_unpack _). vm_compute. exact I. Qed.

Lemma IndexByte_Some s c i : IndexByte s c = Some i -> s !! i = Some c.
Proof.
  revert i. induction s as [|b s IH]; intros i; cbn; [done|]. destruct (decide (b = c)) as [->|Hne]; [by intros [= <-]|].
  destruct (IndexByte s c) as [j|] eqn:Hj; [|done]. intros [= <-]. by apply IH.
Qed.

Lemma charset_index i c : charset !! i = Some c -> IndexByte charset c = Some i.
Proof.
  assert (Hall : Forall (fun i => (charset !! i ≫= IndexByte charset) = Some i) (seq 0 32)).
  { apply (bool_decide_unpack _). vm_compute. exact I. }
  intros Hi. rewrite list.Forall_forall in Hall. specialize (Hall i). rewrite Hi in Hall. apply Hall.
  apply lookup_lt_Some in Hi. apply elem_of_seq. cbn in Hi. lia.
Qed.

Lemma charset_length : length charset = 32%nat.
Proof. done. Qed.
#[local] Opaque charset.

Lemma toChars_group data : Forall group data -> exists chars, toChars data = Ok chars /\ toBytes chars = Ok data /\ length chars = length data /\
  Forall (fun c => 33 <= val c <= 126 /\ lower_byte c = c /\ c <> byte.of_Z 49) chars.
Proof.
  induction 1 as [|b data Hb _ (chars & Hc & Ht & Hl & Hg)]; [by exists []|]. pose proof (byte.unsigned_range b).
  destruct (lookup_lt_is_Some_2 charset (Z.to_nat (val b))) as [c Hch]; [rewrite charset_length; unfold group in Hb; lia|].
  exists (c :: chars). cbn. rewrite Hch, Hc, (charset_index _ _ Hch), Ht. cbn. split_and!; [done| |by rewrite Hl|].
  - do 2 f_equal. rewrite Z2Nat.id by lia. by rewrite byte.of_Z_unsigned.
  - constructor; [|done]. apply list_elem_of_lookup_2 in Hch. pose proof charset_good as Hall. rewrite list.Forall_forall in Hall. by apply Hall.
Qed.

Lemma toBytes_chars chars : forall data, toBytes chars = Ok data -> toChars data = Ok chars /\ Forall group data /\ length data = length chars.
Proof.
  induction chars as [|c chars IH]; intros data; cbn; [by intros [= <-]|]. destruct (IndexByte charset c) as [i|] eqn:Hi; [|done].
  intros Hb. apply res_bind_Ok in Hb as (rest & Hr & [= <-]). destruct (IH rest Hr) as (Hc & Hg & Hl). apply IndexByte_Some in Hi.
  pose proof (lookup_lt_Some _ _ _ Hi) as Hlt. rewrite charset_length in Hlt. cbn. rewrite val_group by lia. rewrite Nat2Z.id, Hi, Hc. cbn.
  split_and!; [done| |by rewrite Hl]. constructor; [|done]. unfold group. rewrite val_group; lia.
Qed.

Lemma LastIndex_app s c rest : c ∉ rest -> LastIndexByte (s ++ c :: rest) c = Some (length s).
Proof.
  intros Hn. assert (Hnone : LastIndexByte rest c = None).
  { induction rest as [|b rest IH]; [done|]. apply not_elem_of_cons in Hn as [Hb Hn]. cbn. by rewrite (IH Hn), decide_False. }
  induction s as [|b s IH]; cbn; [by rewrite Hnone, decide_True|by rewrite IH].
Qed.

Lemma LastIndex_Some s c i : LastIndexByte s c = Some i -> exists l r, s = l ++ c :: r /\ length l = i /\ c ∉ r.
Proof.
  revert i. induction s as [|b s IH]; intros i; cbn; [done|]. destruct (LastIndexByte s c) as [j|] eqn:Hj.
  - intros [= <-]. destruct (IH j eq_refl) as (l & r & -> & <- & Hr). by exists (b :: l), r.
  - destruct (decide (b = c)) as [->|]; [|done]. intros [= <-]. exists [], s. split_and!; [done|done|].
    clear IH. induction s as [|b s IH]; [by apply not_elem_of_nil|]. cbn in Hj. destruct (LastIndexByte s c); [done|]. destruct (decide (b = c)); [done|].
    apply not_elem_of_cons. split; [congruence|by apply IH].
Qed.

Lemma decode_chars hrp data chars : hrp_ok hrp -> Forall group data -> toChars (data ++ bech32Checksum hrp data) = Ok chars ->
  decodeBech32 (hrp ++ [byte.of_Z 49] ++ chars) = Ok (hrp, data).
Proof.
  intros [Hne Hh] Hg Hc. destruct (checksum_groups hrp data) as (_ & _ & Hgc).
  destruct (toChars_group (data ++ bech32Checksum hrp data)) as (chars' & Hc' & Ht & Hl & Hch); [by apply list.Forall_app|].
  assert (chars' = chars) as -> by congruence. rewrite length_app in Hl. assert (Hl6 : length (bech32Checksum hrp data) = 6%nat) by done.
  assert (Hlen : (1 <= length hrp)%nat) by (destruct hrp; [done|cbn; lia]).
  assert (Hall : Forall (fun b => 33 <= val b <= 126 /\ lower_byte b = b) (hrp ++ byte.of_Z 49 :: chars)).
  { apply list.Forall_app. split; [done|]. constructor; [vm_compute; split; [split; discriminate|done]|]. revert Hch. apply Forall_impl. by intros b (? & ? & _). }
  unfold decodeBech32. cbn [app].
  rewrite (proj2 (Z.ltb_ge _ _)) by (rewrite length_app; cbn; lia). cbn [guard_err mbind res_mbind res_bind].
  assert (Hex : existsb (fun b => (val b <? 33) || (126 <? val b)) (hrp ++ byte.of_Z 49 :: chars) = false).
  { apply not_true_is_false. intros (b & Hin & Hb)%existsb_exists. apply list_elem_of_In in Hin. rewrite list.Forall_forall in Hall.
    destruct (Hall b Hin) as [[? ?] _]. apply orb_true_iff in Hb as [Hb|Hb]; apply Z.ltb_lt in Hb; lia. }
  rewrite Hex. cbn [guard_err mbind res_mbind res_bind].
  assert (Hlow : ToLower (hrp ++ byte.of_Z 49 :: chars) = hrp ++ byte.of_Z 49 :: chars).
  { unfold ToLower. rewrite <- (list_fmap_id (hrp ++ byte.of_Z 49 :: chars)) at 2. apply list_fmap_ext. intros i b Hb%list_elem_of_lookup_2.
    rewrite list.Forall_forall in Hall. by apply Hall. }
  rewrite Hlow. rewrite bool_decide_true by done. cbn [negb andb guard_err mbind res_mbind res_bind].
  rewrite LastIndex_app.
  2: { intros Hin. rewrite list.Forall_forall in Hch. by destruct (Hch _ Hin) as (_ & _ & ?). }
  rewrite (proj2 (Nat.ltb_ge _ _)) by lia. rewrite (proj2 (Nat.ltb_ge _ _)) by (rewrite length_app; cbn; lia). cbn [orb guard_err mbind res_mbind res_bind].
  assert (Hdrop : drop (length hrp + 1) (hrp ++ byte.of_Z 49 :: chars) = chars) by by rewrite <- drop_drop, drop_app_length.
  rewrite take_app_length, Hdrop.
  rewrite Ht. cbn [mbind res_mbind res_bind]. rewrite checksum_verifies. cbn [negb guard_err]. rewrite length_app, Hl6.
  replace (length data + 6 - 6)%nat with (length data) by lia. by rewrite take_app_length.
Qed.

(** ** Only strings that carry their checksum are read *)
Lemma six_groups (a b : list Z) : length a = 6%nat -> length b = 6%nat -> Forall (fun v => 0 <= v < 32) a -> Forall (fun v => 0 <= v < 32) b ->
  foldl polymod_step 0 a = foldl polymod_step 0 b -> a = b.
Proof.
  assert (Hrun : forall c, length c = 6%nat -> Forall (fun v => 0 <= v < 32) c -> exists c0 c1 c2 c3 c4 c5, c = [c0; c1; c2; c3; c4; c5] /\
    0 <= c0 < 32 /\ 0 <= c1 < 32 /\ 0 <= c2 < 32 /\ 0 <= c3 < 32 /\ 0 <= c4 < 32 /\ 0 <= c5 < 32 /\
    foldl polymod_step 0 c = ((((c0 * 32 + c1) * 32 + c2) * 32 + c3) * 32 + c4) * 32 + c5).
  { intros c Hl Hf. destruct c as [|c0 [|c1 [|c2 [|c3 [|c4 [|c5 [|]]]]]]]; try done. exists c0, c1, c2, c3, c4, c5.
    rewrite !list.Forall_cons in Hf. destruct Hf as (? & ? & ? & ? & ? & ? & _). split_and!; try done; try lia. cbn [foldl].
    rewrite (step_room 0), (step_room (_ * 0 + c0)), (step_room (_ * _ + c1)), (step_room (_ * _ + c2)), (step_room (_ * _ + c3)), (step_room (_ * _ + c4)) by lia. lia. }
  intros Ha Hb Fa Fb Heq. destruct (Hrun a Ha Fa) as (a0 & a1 & a2 & a3 & a4 & a5 & -> & ? & ? & ? & ? & ? & ? & Ea).
  destruct (Hrun b Hb Fb) as (b0 & b1 & b2 & b3 & b4 & b5 & -> & ? & ? & ? & ? & ? & ? & Eb). rewrite Ea, Eb in Heq.
  assert (a5 = b5) by lia. assert (a4 = b4) by lia. assert (a3 = b3) by lia. assert (a2 = b2) by lia. assert (a1 = b1) by lia. assert (a0 = b0) by lia. by subst.
Qed.

Lemma group_range (data : bytes) : Forall group data <-> Forall (fun v => 0 <= v < 32) (val <$> data).
Proof.
  rewrite list.Forall_fmap, !list.Forall_forall. unfold group. split; intros Hd b Hb; specialize (Hd b Hb); pose proof (byte.unsigned_range b); cbn in *; lia.
Qed.

Lemma val_inj (a b : bytes) : val <$> a = val <$> b -> a = b.
Proof.
  revert b. induction a as [|x a IH]; intros [|y b]; try done. cbn. intros [= Hx Ha]. f_equal; [|by apply IH].
  rewrite <- (byte.of_Z_unsigned x), <- (byte.of_Z_unsigned y). by rewrite Hx.
Qed.

Lemma verifies_checksum hrp data cs : length cs = 6%nat -> Forall group cs -> bech32VerifyChecksum hrp (data ++ cs) = true -> cs = bech32Checksum hrp data.
Proof.
  intros Hl Hg Hv. destruct (checksum_groups hrp data) as (Hp & Hcs & Hgc). apply val_inj. apply six_groups.
  - by rewrite length_fmap.
  - by rewrite length_fmap.
  - by apply group_range.
  - by apply group_range.
  - rewrite Hcs, groups_of by done. unfold bech32VerifyChecksum in Hv. rewrite fmap_app, app_assoc in Hv.
    change (bech32HrpExpand hrp ++ (val <$> data)) with (valued hrp data) in Hv. unfold bech32Polymod in *. rewrite foldl_app in Hv.
    set (S := foldl polymod_step 1 (valued hrp data)) in *. rewrite <- (Z.lxor_0_r S), polymod_linear in Hv. rewrite length_fmap, Hl in Hv.
    change (replicate 6 0) with [0; 0; 0; 0; 0; 0] in Hv. set (R := foldl polymod_step S [0; 0; 0; 0; 0; 0]) in *. apply Z.eqb_eq in Hv.
    symmetry. change (Z.lxor R 1 = foldl polymod_step 0 (val <$> cs)). by rewrite <- Hv, <- Z.lxor_assoc, Z.lxor_nilpotent, Z.lxor_0_l.
Qed.

Lemma lower_range b : 33 <= val b <= 126 -> 33 <= val (lower_byte b) <= 126 /\ lower_byte (lower_byte b) = lower_byte b.
Proof.
  intros Hb. assert (Hcase : lower_byte b = b \/ 97 <= val (lower_byte b) <= 122).
  { unfold lower_byte. destruct ((65 <=? val b) && (val b <=? 90)) eqn:Hu; [right|by left].
    apply andb_true_iff in Hu as [H1%Z.leb_le H2%Z.leb_le]. rewrite val_group; lia. }
  destruct Hcase as [Hc|Hc]; [by rewrite !Hc|]. split; [lia|]. unfold lower_byte at 1.
  by rewrite (proj2 (Z.leb_gt (val (lower_byte b)) 90)), andb_false_r by lia.
Qed.

Lemma decode_inv s hrp data : decodeBech32 s = Ok (hrp, data) -> exists chars, ToLower s = hrp ++ [byte.of_Z 49] ++ chars /\
  toChars (data ++ bech32Checksum hrp data) = Ok chars /\ hrp_ok hrp /\ Forall group data.
Proof.
  unfold decodeBech32. intros Hd. inv_ok Hd. unfold guard_err in *.
  destruct (existsb _ s) eqn:Hex; [done|]. destruct (LastIndexByte (ToLower s) (byte.of_Z 49)) as [one|] eqn:Hone; [|done].
  match goal with H : _ = Ok (hrp, data) |- _ => rename H into Hd end. inv_ok Hd. unfold guard_err in *.
  destruct ((one <? 1)%nat || (length (ToLower s) <? one + 7)%nat) eqn:Hpos; [done|]. apply orb_false_iff in Hpos as [Hp1%Nat.ltb_ge Hp2%Nat.ltb_ge].
  apply LastIndex_Some in Hone as (l & r & Hs & Hl & _). rewrite Hs in *. subst one.
  match goal with H : toBytes _ = Ok ?d |- _ => rename H into Ht; rename d into dec end.
  assert (Hdrop : drop (length l + 1) (l ++ byte.of_Z 49 :: r) = r) by by rewrite <- drop_drop, drop_app_length.
  rewrite Hdrop in Ht. rewrite take_app_length in *. destruct (bech32VerifyChecksum l dec) eqn:Hv; [|done].
  match goal with H : Ok _ = Ok (hrp, data) |- _ => injection H as <- <- end.
  destruct (toBytes_chars r dec Ht) as (Hc & Hg & Hlen). rewrite length_app in Hp2. cbn in Hp2.
  assert (Hsplit : dec = take (length dec - 6) dec ++ drop (length dec - 6) dec) by by rewrite take_drop.
  rewrite Hsplit in Hv, Hg. apply list.Forall_app in Hg as [Hg1 Hg2]. apply verifies_checksum in Hv; [|rewrite length_drop; lia|done].
  exists r. split_and!; [done| | |done].
  - rewrite <- Hv, take_drop. exact Hc.
  - split; [intros ->; cbn in Hp1; lia|]. assert (Hall : Forall (fun b => 33 <= val b <= 126) s).
    { apply list.Forall_forall. intros b Hb. assert (Hn : (val b <? 33) || (126 <? val b) = false).
      { apply not_true_is_false. intros Hb'. assert (existsb (fun b => (val b <? 33) || (126 <? val b)) s = true); [|congruence].
        apply existsb_exists. exists b. split; [by apply list_elem_of_In|done]. }
      apply orb_false_iff in Hn as [Hn1%Z.ltb_ge Hn2%Z.ltb_ge]. lia. }
    assert (Hlow : Forall (fun b => 33 <= val b <= 126 /\ lower_byte b = b) (ToLower s)).
    { unfold ToLower. apply list.Forall_fmap. revert Hall. apply Forall_impl. intros b Hb. cbn. by apply lower_range. }
    rewrite Hs in Hlow. by apply list.Forall_app in Hlow as [? _].
Qed.

Section Bech32Theorems.
Context `{Bech32Laws}.

Lemma encode_decodes hrp data : hrp_ok hrp -> Forall group data ->
  exists chars, bech32_Encode hrp data = Ok (hrp ++ [byte.of_Z 49] ++ chars) /\ decodeBech32 (hrp ++ [byte.of_Z 49] ++ chars) = Ok (hrp, data) /\
    length chars = (length data + 6)%nat.
Proof.
  intros Hh Hg. destruct (checksum_groups hrp data) as (_ & _ & Hgc).
  destruct (toChars_group (data ++ bech32Checksum hrp data)) as (chars & Hc & _ & Hl & _); [by apply list.Forall_app|].
  exists chars. split; [by apply encode_string|]. split; [by apply decode_chars|]. by rewrite Hl, length_app.
Qed.

(** Reading and writing bech32 strings are inverse: what is written of a
    human-readable part without capitals and of groups of five bits is read back, and a
    string that is read is, in lower case, what is written of the result; so there is
    no other way to write it. *)
Theorem bech32_roundtrip (hrp data : bytes) : 
  (hrp_ok hrp -> Forall group data -> exists s, bech32_Encode hrp data = Ok s /\ decodeBech32 s = Ok (hrp, data)) /\
  (forall s, decodeBech32 s = Ok (hrp, data) -> bech32_Encode hrp data = Ok (ToLower s)).
Proof.
  split.
  - intros Hh Hg. destruct (encode_decodes hrp data Hh Hg) as (chars & He & Hd & _). by eexists.
  - intros s Hd. apply decode_inv in Hd as (chars & -> & Hc & Hh & _). by apply encode_string.
Qed.
End Bech32Theorems.

(** ** A single wrong character is noticed *)
Lemma step_kernel chk : 0 <= chk < 2 ^ 30 -> polymod_step chk 0 = 0 -> chk = 0.
Proof.
  intros Hc. rewrite step_eq, Z.lxor_0_r, low25, Z.shiftl_mul_pow2, Z.shiftr_div_pow2 by lia. intros Heq%Z.lxor_eq.
  assert (Hb : 0 <= chk / 2 ^ 25 < 32) by (split; [apply Z.div_pos; lia|apply Z.div_lt_upper_bound; lia]).
  assert (Hall : Forall (fun b => gens (Z.of_nat b) mod 32 = 0 -> b = O) (seq 0 32)) by (apply (bool_decide_unpack _); vm_compute; exact I).
  rewrite list.Forall_forall in Hall. specialize (Hall (Z.to_nat (chk / 2 ^ 25))). rewrite Z2Nat.id in Hall by lia.
  assert (Hz : Z.to_nat (chk / 2 ^ 25) = O).
  { apply Hall; [apply elem_of_seq; lia|]. rewrite <- Heq. change (2 ^ 5) with 32. apply Z.mod_mul. lia. }
  assert (Hq : chk / 2 ^ 25 = 0) by lia. rewrite Hq in Heq. change (gens 0) with 0 in Heq. pose proof (Z.div_mod chk (2 ^ 25) ltac:(lia)). lia.
Qed.

Lemma zeros_kernel n chk : 0 <= chk < 2 ^ 30 -> foldl polymod_step chk (replicate n 0) = 0 -> chk = 0.
Proof.
  revert chk. induction n as [|n IH]; intros chk Hc; [done|]. cbn. intros Hz. apply IH in Hz; [|apply step_bound; lia]. by apply step_kernel.
Qed.

Lemma polymod_at hrp l a r : bech32Polymod (bech32HrpExpand hrp ++ (val <$> (l ++ a :: r))) =
  Z.lxor (foldl polymod_step (polymod_step (bech32Polymod (valued hrp l)) (val a)) (replicate (length r) 0)) (foldl polymod_step 0 (val <$> r)).
Proof.
  unfold bech32Polymod, valued. rewrite fmap_app, fmap_cons, app_assoc, foldl_app. cbn [foldl].
  rewrite <- (length_fmap val r), <- polymod_linear. by rewrite Z.lxor_0_r.
Qed.

Lemma lxor_cancel_r a b c : Z.lxor a c = Z.lxor b c -> a = b.
Proof. intros Hx%(f_equal (fun x => Z.lxor x c)). by rewrite !Z.lxor_assoc, Z.lxor_nilpotent, !Z.lxor_0_r in Hx. Qed.

(** Two groups in one place leave different registers. *)
Lemma polymod_differs n S a b : a < 32 -> b < 32 -> 0 <= a -> 0 <= b ->
  foldl polymod_step (polymod_step S a) (replicate n 0) = foldl polymod_step (polymod_step S b) (replicate n 0) -> a = b.
Proof.
  intros Ha Hb Ha' Hb' Heq. assert (Hz : foldl polymod_step (Z.lxor (polymod_step S a) (polymod_step S b)) (replicate n 0) = 0).
  { rewrite polymod_linear, length_replicate, Heq. apply Z.lxor_nilpotent. }
  apply zeros_kernel in Hz; [|apply lxor_bound; [lia|apply step_bound; lia..]]. apply Z.lxor_eq in Hz. rewrite !step_eq in Hz.
  apply lxor_cancel_r in Hz. rewrite !(Z.lxor_comm (Z.shiftl _ _)) in Hz. by apply lxor_cancel_r in Hz.
Qed.

(** The checksum notices every single wrong group: of two data parts that differ
    in one group at most one verifies under a human-readable part. *)
Theorem checksum_detects (hrp data : bytes) (i : nat) (b : byte) : bech32VerifyChecksum hrp data = true -> Forall group data ->
  (i < length data)%nat -> group b -> data !! i <> Some b -> bech32VerifyChecksum hrp (<[i := b]> data) = false.
Proof.
  intros Hv Hg Hi Hb Hne. apply not_true_is_false. intros Hv'. destruct (lookup_lt_is_Some_2 data i Hi) as [a Ha]. unfold bech32VerifyChecksum in *.
  apply Z.eqb_eq in Hv, Hv'. rewrite insert_take_drop, polymod_at in Hv' by done. rewrite <- (take_drop_middle data i a Ha), polymod_at in Hv.
  rewrite <- Hv in Hv'. apply lxor_cancel_r in Hv'. unfold group in *. pose proof (byte.unsigned_range a). pose proof (byte.unsigned_range b).
  apply polymod_differs in Hv'; [|done| |lia..].
  - apply Hne. rewrite Ha. f_equal. by rewrite <- (byte.of_Z_unsigned a), <- Hv', byte.of_Z_unsigned.
  - rewrite list.Forall_forall in Hg. apply Hg. by apply list_elem_of_lookup_2 in Ha.
Qed.

(** ** A library that keeps the laws *)
Module Toy.
Fixpoint bits_of (w : nat) (z : Z) : list bool := match w with O => [] | S w => Z.testbit z (Z.of_nat w) :: bits_of w z end.
Definition of_bits (bs : list bool) : Z := foldl (fun z (b : bool) => 2 * z + (if b then 1 else 0)) 0 bs.

(** Groups of [S w] bits and the bits left over. *)
Fixpoint chunks (fuel w : nat) (bs : list bool) : list (list bool) * list bool :=
  match fuel with
  | O => ([], bs)
  | S fuel => if (length bs <? w)%nat then ([], bs) else let '(cs, r) := chunks fuel w (drop w bs) in (take w bs :: cs, r)
  end.

Definition convert (data : bytes) (from to : Z) (pad : bool) : option bytes :=
  let bs := concat ((fun b => bits_of (Z.to_nat from) (val b)) <$> data) in
  let '(cs, r) := chunks (length bs) (Z.to_nat to) bs in
  let out := (fun c => byte.of_Z (of_bits c)) <$> cs in
  if pad then Some (if decide (r = []) then out else out ++ [byte.of_Z (of_bits (r ++ replicate (Z.to_nat to - length r) false))])
  else if (length r <? Z.to_nat from)%nat && forallb negb r then Some out else None.

#[export] Instance toy_bech32 : Bech32Lib := {|
  bech32_Encode hrp data := chars ← toChars (data ++ bech32Checksum hrp data); Ok (hrp ++ [byte.of_Z 49] ++ chars);
  ConvertBits := convert
|}.

Lemma length_bits w z : length (bits_of w z) = w.
Proof. induction w as [|w IH]; cbn; [done|by rewrite IH]. Qed.

Lemma of_bits_app a b : of_bits (a ++ b) = of_bits a * 2 ^ Z.of_nat (length b) + of_bits b.
Proof.
  unfold of_bits. rewrite foldl_app. generalize (foldl (fun z (b : bool) => 2 * z + (if b then 1 else 0)) 0 a) as x. clear a.
  induction b as [|c b IH] using rev_ind; intros x; [cbn; lia|]. rewrite !foldl_app, length_app. cbn [foldl length]. rewrite IH.
  replace (Z.of_nat (length b + 1)) with (Z.succ (Z.of_nat (length b))) by lia. rewrite Z.pow_succ_r by lia. lia.
Qed.

Lemma of_bits_range bs : 0 <= of_bits bs < 2 ^ Z.of_nat (length bs).
Proof.
  induction bs as [|b bs IH] using rev_ind; [cbn; lia|]. rewrite of_bits_app, length_app. cbn [length].
  replace (Z.of_nat (length bs + 1)) with (Z.succ (Z.of_nat (length bs))) by lia. rewrite Z.pow_succ_r by lia. change (Z.of_nat 1) with 1. destruct b; cbn; lia.
Qed.

Lemma of_bits_of w z : of_bits (bits_of w z) = z mod 2 ^ Z.of_nat w.
Proof.
  induction w as [|w IH]; [cbn; by rewrite Z.mod_1_r|]. cbn [bits_of]. change (?b :: ?l) with ([b] ++ l). rewrite of_bits_app, length_bits, IH.
  rewrite Nat2Z.inj_succ, Z.pow_succ_r, (Z.mul_comm 2), Z.rem_mul_r, <- Z.testbit_spec' by lia. destruct (Z.testbit z (Z.of_nat w)); cbn; lia.
Qed.

Lemma of_bits_inj (a : list bool) : forall b, length a = length b -> of_bits a = of_bits b -> a = b.
Proof.
  induction a as [|x a IH] using rev_ind; intros b; [by destruct b|]. destruct b as [|y b _] using rev_ind; [rewrite length_app; cbn; lia|].
  rewrite !length_app, !of_bits_app. cbn [length]. change (2 ^ Z.of_nat 1) with 2. intros Hl Heq.
  change (of_bits [x]) with (if x then 1 else 0) in Heq. change (of_bits [y]) with (if y then 1 else 0) in Heq.
  assert (Hxy : of_bits a = of_bits b /\ x = y) by (destruct x, y; try (exfalso; lia); split; done || lia). destruct Hxy as [Ha ->].
  rewrite (IH b); [done|lia|done].
Qed.

Lemma bits_of_bits (c : list bool) : bits_of (length c) (of_bits c) = c.
Proof. apply of_bits_inj; [by rewrite length_bits|]. rewrite of_bits_of. apply Z.mod_small, of_bits_range. Qed.

Lemma chunks_split fuel w bs : (0 < w)%nat -> (length bs <= fuel)%nat -> exists cs r, chunks fuel w bs = (cs, r) /\ bs = concat cs ++ r /\
  Forall (fun c => length c = w) cs /\ (length r < w)%nat.
Proof.
  intros Hw. revert bs. induction fuel as [|fuel IH]; intros bs Hf; cbn [chunks].
  - exists [], bs. destruct bs; [split_and!; [done..|constructor|done]|cbn in Hf; lia].
  - destruct (Nat.ltb_spec (length bs) w); [exists [], bs; split_and!; [reflexivity|reflexivity|constructor|assumption]|]. assert (Hl : (length (drop w bs) <= fuel)%nat) by (rewrite length_drop; lia).
    destruct (IH _ Hl) as (cs & r & -> & Hd & Hc & Hr).
    exists (take w bs :: cs), r. split_and!; [done| |constructor; [rewrite length_take; lia|done]|done].
    cbn. by rewrite <- app_assoc, <- Hd, take_drop.
Qed.

Lemma concat_length w (cs : list (list bool)) : Forall (fun c => length c = w) cs -> length (concat cs) = (w * length cs)%nat.
Proof. induction 1 as [|c cs Hc _ IH]; cbn; [lia|]. rewrite length_app, IH. lia. Qed.

(** Groups are determined by their bits. *)
Lemma chunks_unique w (cs : list (list bool)) : Forall (fun c => length c = w) cs -> forall (cs' : list (list bool)) (r r' : list bool), Forall (fun c => length c = w) cs' ->
  (length r < w)%nat -> (length r' < w)%nat -> concat cs ++ r = concat cs' ++ r' -> cs = cs' /\ r = r'.
Proof.
  induction 1 as [|c cs Hc Hcs IH]; intros cs' r r' Hcs' Hr Hr' Heq.
  - destruct Hcs' as [|c' cs' Hc' _]; [done|]. apply (f_equal length) in Heq. cbn in Heq. rewrite !length_app in Heq. lia.
  - destruct Hcs' as [|c' cs' Hc' Hcs'].
    + apply (f_equal length) in Heq. cbn in Heq. rewrite !length_app in Heq. lia.
    + cbn in Heq. rewrite <- !app_assoc in Heq. apply app_inj_1 in Heq as [-> Heq]; [|lia]. by destruct (IH cs' r r' Hcs' Hr Hr' Heq) as [-> ->].
Qed.

Definition byte_bits (w : Z) (data : bytes) : list bool := concat ((fun b => bits_of (Z.to_nat w) (val b)) <$> data).
Definition bit_bytes (cs : list (list bool)) : bytes := (fun c => byte.of_Z (of_bits c)) <$> cs.

Lemma bits_length w data : length (byte_bits w data) = (Z.to_nat w * length data)%nat.
Proof. unfold byte_bits. rewrite (concat_length (Z.to_nat w)), length_fmap; [done|]. apply list.Forall_fmap, list.Forall_forall. intros b _. apply length_bits. Qed.

Lemma val_of_bits w c : 0 <= w <= 8 -> length c = Z.to_nat w -> val (byte.of_Z (of_bits c)) = of_bits c /\ of_bits c < 2 ^ w.
Proof.
  intros Hw Hc. pose proof (of_bits_range c) as Hr. rewrite Hc, Z2Nat.id in Hr by lia. assert (2 ^ w <= 2 ^ 8) by (apply Z.pow_le_mono_r; lia).
  split; [apply val_group; lia|lia].
Qed.

Lemma bit_bytes_bits w cs : 0 <= w <= 8 -> Forall (fun c => length c = Z.to_nat w) cs -> byte_bits w (bit_bytes cs) = concat cs.
Proof.
  intros Hw Hcs. unfold byte_bits, bit_bytes. rewrite <- list_fmap_compose. f_equal. rewrite <- (list_fmap_id cs) at 2. apply list_fmap_ext.
  intros i c Hc%list_elem_of_lookup_2. rewrite list.Forall_forall in Hcs. specialize (Hcs c Hc). cbn.
  destruct (val_of_bits w c Hw Hcs) as [-> _]. rewrite <- Hcs. apply bits_of_bits.
Qed.

Lemma byte_bits_bytes w data : 0 <= w -> Forall (fun b => val b < 2 ^ w) data -> bit_bytes ((fun b => bits_of (Z.to_nat w) (val b)) <$> data) = data.
Proof.
  intros Hw Hd. unfold bit_bytes. rewrite <- list_fmap_compose. rewrite <- (list_fmap_id data) at 2. apply list_fmap_ext.
  intros i b Hb%list_elem_of_lookup_2. rewrite list.Forall_forall in Hd. specialize (Hd b Hb). cbn. rewrite of_bits_of, Z2Nat.id, Z.mod_small by (try done; pose proof (byte.unsigned_range b); lia).
  apply byte.of_Z_unsigned.
Qed.

Lemma convert_eq data from to pad : 0 < to -> exists cs r, byte_bits from data = concat cs ++ r /\ Forall (fun c => length c = Z.to_nat to) cs /\
  (length r < Z.to_nat to)%nat /\ convert data from to pad =
    (if pad : bool then Some (if decide (r = []) then bit_bytes cs else bit_bytes cs ++ [byte.of_Z (of_bits (r ++ replicate (Z.to_nat to - length r) false))])
     else if (length r <? Z.to_nat from)%nat && forallb negb r then Some (bit_bytes cs) else None).
Proof.
  intros Hto. destruct (chunks_split (length (byte_bits from data)) (Z.to_nat to) (byte_bits from data)) as (cs & r & Hc & Hs & Hl & Hr); [lia|lia|].
  exists cs, r. split_and!; [done..|]. unfold convert. fold (byte_bits from data). by rewrite Hc.
Qed.

Lemma full_bits bs : concat ((fun b => bits_of 8 (val b)) <$> bs) = byte_bits 8 bs.
Proof. done. Qed.

(** Reading groups back whose bits are those of bytes and few zeros. *)
Lemma groups_read gs bs k : byte_bits 5 gs = byte_bits 8 bs ++ replicate k false -> (k < 5)%nat ->
  convert gs 5 8 false = Some bs /\ (k = O -> convert gs 5 8 true = Some bs).
Proof.
  intros Hb Hk. assert (Hu : forall pad, exists cs, Forall (fun c => length c = 8%nat) cs /\ convert gs 5 8 pad =
    (if pad : bool then Some (if decide (replicate k false = []) then bs else bit_bytes cs ++ [byte.of_Z (of_bits (replicate k false ++ replicate (Z.to_nat 8 - length (replicate k false)) false))])
     else if (length (replicate k false) <? Z.to_nat 5)%nat && forallb negb (replicate k false) then Some bs else None)).
  { intros pad. destruct (convert_eq gs 5 8 pad ltac:(lia)) as (cs & r & Hs & Hl & Hr & ->). rewrite Hs in Hb.
    apply (chunks_unique 8 cs Hl ((fun b => bits_of 8 (val b)) <$> bs)) in Hb as [Hcs ->].
    - exists cs. split; [done|]. assert (Hbs : bit_bytes cs = bs); [|by rewrite Hbs].
      rewrite Hcs. apply (byte_bits_bytes 8); [lia|]. apply list.Forall_forall. intros b _. apply byte.unsigned_range.
    - apply list.Forall_fmap, list.Forall_forall. intros b _. apply length_bits.
    - done.
    - rewrite length_replicate. lia. }
  split.
  - destruct (Hu false) as (cs & _ & ->). rewrite length_replicate, (proj2 (Nat.ltb_lt k _)) by lia. cbn [andb].
    assert (forallb negb (replicate k false) = true) as -> by (clear; induction k; done). done.
  - intros ->. destruct (Hu true) as (cs & _ & ->). done.
Qed.

Lemma groups_back bs : exists gs k, convert bs 8 5 true = Some gs /\ Forall group gs /\ (5 * length gs = 8 * length bs + k)%nat /\ (k < 5)%nat /\
  byte_bits 5 gs = byte_bits 8 bs ++ replicate k false.
Proof.
  destruct (convert_eq bs 8 5 true ltac:(lia)) as (cs & r & Hs & Hl & Hr & ->). change (Z.to_nat 5) with 5%nat in *.
  set (cs' := if decide (r = []) then cs else cs ++ [r ++ replicate (5 - length r) false]).
  assert (Hl' : Forall (fun c => length c = 5%nat) cs').
  { unfold cs'. destruct (decide (r = [])); [done|]. apply list.Forall_app. split; [done|]. constructor; [|done]. rewrite length_app, length_replicate. lia. }
  set (k := if decide (r = []) then O else (5 - length r)%nat). assert (Hcat : concat cs' = byte_bits 8 bs ++ replicate k false).
  { rewrite Hs. unfold cs', k. destruct (decide (r = [])) as [->|]; [by rewrite !app_nil_r|]. rewrite concat_app. cbn [concat]. by rewrite app_nil_r, <- app_assoc. }
  exists (bit_bytes cs'), k. split_and!.
  - f_equal. unfold cs'. destruct (decide (r = [])); [done|]. unfold bit_bytes. by rewrite fmap_app.
  - apply list.Forall_fmap. revert Hl'. apply Forall_impl. intros c Hc. unfold group. destruct (val_of_bits 5 c) as [Hv Hb]; [lia|done|]. cbn. rewrite Hv. lia.
  - apply (f_equal length) in Hcat. rewrite (concat_length 5), length_app, length_replicate, bits_length in Hcat by done. unfold bit_bytes. rewrite length_fmap. exact Hcat.
  - unfold k. destruct (decide (r = [])); [lia|]. destruct r; [done|cbn; lia].
  - rewrite (bit_bytes_bits 5) by (lia || done). exact Hcat.
Qed.

#[export] Instance toy_bech32_laws : Bech32Laws.
Proof.
  split.
  - intros hrp data chars Hc _. cbn. by rewrite Hc.
  - intros bs. destruct (groups_back bs) as (gs & k & Hc & Hg & Hl & Hk & Hb). exists gs. split; [done|]. split; [done|].
    split; [|by apply (groups_read gs bs k)]. apply Z.div_unique with (4 - Z.of_nat k); [left; lia|lia].
  - intros bs gs' Hc' Hm. destruct (groups_back bs) as (gs & k & Hc & Hg & Hl & Hk & Hb). change (convert bs 8 5 true = Some gs') in Hc'. rewrite Hc in Hc'. injection Hc' as <-.
    apply (groups_read gs bs k); [done|done|]. apply Nat.Div0.div_exact in Hm. lia.
  - intros gs _. change (is_Some (convert gs 5 8 true)). destruct (convert_eq gs 5 8 true ltac:(lia)) as (cs & r & _ & _ & _ & ->). by eexists.
Qed.
End Toy.

Section Witnesses.
Import Toy.

Definition toy_hrp : bytes := Eval compute in bytes_of "obo0:1"%string.
Definition toy_text : bytes := Eval compute in bytes_of "obo0:11rlqnk4nk"%string.

Lemma bech32_roundtrip_witness : bech32_Encode toy_hrp [Byte.x03; Byte.x1f] = Ok toy_text /\
  exists s, bech32_Encode toy_hrp [Byte.x03; Byte.x1f] = Ok s /\ decodeBech32 s = Ok (toy_hrp, [Byte.x03; Byte.x1f]).
Proof.
  split.
  - apply (proj2 (bech32_roundtrip toy_hrp [Byte.x03; Byte.x1f]) (ToUpper toy_text)). vm_compute. reflexivity.
  - apply (proj1 (bech32_roundtrip toy_hrp [Byte.x03; Byte.x1f])).
    + split; [discriminate|]. apply (bool_decide_unpack _). vm_compute. exact I.
    + apply (bool_decide_unpack _). vm_compute. exact I.
Defined.

Lemma checksum_detects_witness : bech32VerifyChecksum toy_hrp ([Byte.x03; Byte.x1f] ++ bech32Checksum toy_hrp [Byte.x03; Byte.x1f]) = true /\
  bech32VerifyChecksum toy_hrp (<[1%nat := Byte.x1e]> ([Byte.x03; Byte.x1f] ++ bech32Checksum toy_hrp [Byte.x03; Byte.x1f])) = false.
Proof.
  split; [vm_compute; reflexivity|]. apply checksum_detects; [vm_compute; reflexivity| |cbn; lia|done|discriminate].
  apply (bool_decide_unpack _). vm_compute. exact I.
Defined.
End Witnesses.
