(* ===== verification/PayAmounts.v ===== *)
(** * Amounts of payment requests ([zpay32/amountunits.go])

    The amount of a request is a decimal number of whole coins, or of one of the units
    below with the unit's letter behind it.  Bitcoin amounts are unsigned millisatoshi,
    asset amounts signed; the arithmetic wraps around where the code's does.  Go ranges
    over the map of units in an unspecified order: [range] is that order. *)

From S2P Require Import Prelude Units Bech32.

Inductive numerr : Type := ErrSyntax | ErrRange.

Inductive amterr : Type :=
| ErrAmountEmpty
| ErrParseUint (e : numerr)
| ErrUnknownMultiplier (c : byte)
| ErrNumberEmpty
| ErrMinimumAmount
| ErrNotExpressible (amount : Z).

(** ** Decimal numbers ([strconv])

    [FormatUint] writes the digits from the last; a 64-bit number has at most 20. *)
Definition digit (d : Z) : byte := byte.of_Z (48 + d).

Fixpoint format_digits (fuel : nat) (n : Z) (acc : bytes) : bytes :=
  match fuel with
  | O => acc
  | S fuel => let acc := digit (n mod 10) :: acc in if n <? 10 then acc else format_digits fuel (n / 10) acc
  end.

Definition FormatUint (n : Z) : bytes := format_digits 20 n [].
Definition FormatInt (n : Z) : bytes := if n <? 0 then byte.of_Z 45 :: FormatUint (- n) else FormatUint n.

Fixpoint parse_digits (n : Z) (s : bytes) : res numerr Z :=
  match s with
  | [] => Ok n
  | c :: s =>
      if (val c <? 48) || (57 <? val c) then Err ErrSyntax
      else if (2 ^ 64 - 1) / 10 + 1 <=? n then Err ErrRange
      else let n1 := u64 (n * 10 + (val c - 48)) in
           if n1 <? n * 10 then Err ErrRange else parse_digits n1 s
  end.

Definition ParseUint (s : bytes) : res numerr Z := match s with [] => Err ErrSyntax | _ => parse_digits 0 s end.

(** What [Atoi] returns beside its error: zero if there is no number, the closest
    integer if it has too many bits. *)
Definition Atoi_value (s : bytes) : Z :=
  let '(neg, s) := match s with
                   | c :: s' => if val c =? 45 then (true, s') else if val c =? 43 then (false, s') else (false, s)
                   | [] => (false, s)
                   end in
  match ParseUint s with
  | Err ErrSyntax | Panic => 0
  | Err ErrRange => if neg : bool then - 2 ^ 63 else 2 ^ 63 - 1
  | Ok un => if neg then Z.max (- un) (- 2 ^ 63) else Z.min un (2 ^ 63 - 1)
  end.

(** ** Units of bitcoin *)
Definition mSatPerBtc : Z := 100000000000.
Definition amtPerAsset : Z := 100000000.

Definition mBtcToMSat (m : Z) : res amterr Z := Ok (u64 (m * 100000000)).
Definition uBtcToMSat (u : Z) : res amterr Z := Ok (u64 (u * 100000)).
Definition nBtcToMSat (n : Z) : res amterr Z := Ok (u64 (n * 100)).
Definition pBtcToMSat (p : Z) : res amterr Z :=
  _ ← guard_err (p <? 10) ErrMinimumAmount;
  _ ← guard_err (negb (p mod 10 =? 0)) (ErrNotExpressible p);
  Ok (p / 10).

Definition mSatToMBtc (msat : Z) : res amterr Z :=
  _ ← guard_err (negb (msat mod 100000000 =? 0)) (ErrNotExpressible msat); Ok (msat / 100000000).
Definition mSatToUBtc (msat : Z) : res amterr Z :=
  _ ← guard_err (negb (msat mod 100000 =? 0)) (ErrNotExpressible msat); Ok (msat / 100000).
Definition mSatToNBtc (msat : Z) : res amterr Z :=
  _ ← guard_err (negb (msat mod 100 =? 0)) (ErrNotExpressible msat); Ok (msat / 100).
Definition mSatToPBtc (msat : Z) : res amterr Z := Ok (u64 (msat * 10)).

(** ** Units of an asset: [omnicore.Amount] is an [int64] *)
Definition mAssetToAmt (m : Z) : res amterr Z := Ok (i64 (u64 (m * 100000))).
Definition uAssetToAmt (u : Z) : res amterr Z := Ok (i64 (u64 (u * 100))).
Definition nAssetToAmt (n : Z) : res amterr Z :=
  _ ← guard_err (n <? 10) ErrMinimumAmount;
  _ ← guard_err (negb (n mod 10 =? 0)) (ErrNotExpressible n);
  Ok (i64 (n / 10)).

Definition amtToMAsset (amt : Z) : res amterr Z :=
  _ ← guard_err (negb (amt `rem` 100000 =? 0)) (ErrNotExpressible amt); Ok (u64 (amt `quot` 100000)).
Definition amtToUAsset (amt : Z) : res amterr Z :=
  _ ← guard_err (negb (amt `rem` 100 =? 0)) (ErrNotExpressible amt); Ok (u64 (amt `quot` 100)).
Definition amtToNAsset (amt : Z) : res amterr Z := Ok (u64 (i64 (amt * 10))).

(** ** The maps of units *)
Abbreviation m_unit := (byte.of_Z 109).
Abbreviation u_unit := (byte.of_Z 117).
Abbreviation n_unit := (byte.of_Z 110).
Abbreviation p_unit := (byte.of_Z 112).

Abbreviation conversion := (Z -> res amterr Z).
Definition toMSat : gmap byte conversion := {[m_unit := mBtcToMSat; u_unit := uBtcToMSat; n_unit := nBtcToMSat; p_unit := pBtcToMSat]}.
Definition fromMSat : gmap byte conversion := {[m_unit := mSatToMBtc; u_unit := mSatToUBtc; n_unit := mSatToNBtc; p_unit := mSatToPBtc]}.
Definition toAmt : gmap byte conversion := {[m_unit := mAssetToAmt; u_unit := uAssetToAmt; n_unit := nAssetToAmt]}.
Definition fromAmt : gmap byte conversion := {[m_unit := amtToMAsset; u_unit := amtToUAsset; n_unit := amtToNAsset]}.

(** ** Reading *)
Definition parse_uint (s : bytes) : res amterr Z :=
  match ParseUint s with Ok n => Ok n | Err e => Err (ErrParseUint e) | Panic => Panic end.

(** The body shared by [decodeAmount] and [decodeAssetAmount]. *)
Definition decode_units (whole : Z -> Z) (to : gmap byte conversion) (amount : bytes) : res amterr Z :=
  match list.last amount with
  | None => Err ErrAmountEmpty
  | Some char =>
      let d := u8 (val char - 48) in
      if (0 <=? d) && (d <=? 9) then n ← parse_uint amount; Ok (whole n)
      else match to !! char with
           | None => Err (ErrUnknownMultiplier char)
           | Some conv =>
               let num := take (length amount - 1) amount in
               _ ← guard_err (bool_decide (num = [])) ErrNumberEmpty;
               am ← parse_uint num; conv am
           end
  end.

Definition decodeAmount : bytes -> res amterr Z := decode_units (fun btc => u64 (btc * mSatPerBtc)) toMSat.
Definition decodeAssetAmount : bytes -> res amterr Z := decode_units (fun asset => i64 (i64 asset * amtPerAsset)) toAmt.

(** A failed call converts the zero it returned, and the caller drops it. *)
Definition decodeAmt (amount : bytes) (assetId : Z) : res amterr Z :=
  if (assetId =? 0) || (assetId =? BtcAssetId) then r ← decodeAmount amount; Ok (u64 r)
  else r ← decodeAssetAmount amount; Ok (u64 r).

(** ** Writing *)
Section Range.
Context (range : gmap byte conversion -> list (byte * conversion)).

(** The loop over the units keeps the shortest text. *)
Fixpoint shorten (units : list (byte * conversion)) (amount : Z) (shortened : bytes) : bytes :=
  match units with
  | [] => shortened
  | (unit, conv) :: units =>
      match conv amount with
      | Ok am =>
          let str := FormatUint am ++ [unit] in
          shorten units amount (if (length str <? length shortened)%nat then str else shortened)
      | _ => shorten units amount shortened
      end
  end.

Definition encodeAmount (msat : Z) : res amterr bytes :=
  if msat mod mSatPerBtc =? 0 then Ok (FormatInt (i64 (msat / mSatPerBtc)))
  else pico ← mSatToPBtc msat;
       Ok (shorten (range fromMSat) msat (FormatUint pico ++ [p_unit])).

Definition encodeAssetAmount (aamt : Z) : res amterr bytes :=
  if aamt `rem` amtPerAsset =? 0 then Ok (FormatInt (aamt `quot` amtPerAsset))
  else nano ← amtToNAsset aamt;
       Ok (shorten (range fromAmt) aamt (FormatUint nano ++ [n_unit])).

Definition encodeAmt (amt assetId : Z) : res amterr bytes :=
  if (assetId =? 0) || (assetId =? BtcAssetId) then encodeAmount amt else encodeAssetAmount (i64 amt).
End Range.

(** ** Decimal numbers read back *)
Lemma val_digit d : 0 <= d <= 9 -> val (digit d) = 48 + d.
Proof. intros Hd. unfold digit. rewrite val_group; lia. Qed.

Lemma parse_digit n d s : 0 <= d <= 9 -> 0 <= n -> n * 10 + d < 2 ^ 64 -> parse_digits n (digit d :: s) = parse_digits (n * 10 + d) s.
Proof.
  intros Hd Hn Hlt. cbn [parse_digits]. rewrite val_digit by done.
  rewrite (proj2 (Z.ltb_ge (48 + d) 48)), (proj2 (Z.ltb_ge 57 (48 + d))) by lia. cbn [orb].
  rewrite (proj2 (Z.leb_gt _ n)) by (change ((2 ^ 64 - 1) / 10 + 1) with 1844674407370955162; lia).
  replace (48 + d - 48) with d by lia. rewrite uwrap_id by (unfold is_uint; lia). by rewrite (proj2 (Z.ltb_ge _ _)) by lia.
Qed.

Lemma parse_format fuel : forall n acc, 0 <= n < 10 ^ Z.of_nat fuel -> n < 2 ^ 64 -> (0 < fuel)%nat ->
  parse_digits 0 (format_digits fuel n acc) = parse_digits n acc.
Proof.
  induction fuel as [|fuel IH]; intros n acc Hn Hlt Hf; [lia|]. cbn [format_digits]. pose proof (Z.mod_pos_bound n 10 ltac:(lia)) as Hm.
  pose proof (Z.div_mod n 10 ltac:(lia)) as Hdm. destruct (Z.ltb_spec n 10).
  - rewrite parse_digit by lia. f_equal. rewrite Z.mod_small; lia.
  - assert (Hq : 0 < n / 10) by (apply Z.div_str_pos; lia). rewrite Nat2Z.inj_succ, Z.pow_succ_r in Hn by lia.
    rewrite IH; [|split; [lia|apply Z.div_lt_upper_bound; lia]|lia|].
    + rewrite parse_digit by lia. f_equal. lia.
    + destruct fuel; [cbn in Hn; lia|lia].
Qed.

Lemma format_more fuel : forall n acc, exists ds, format_digits fuel n acc = ds ++ acc /\ Forall (fun c => 48 <= val c <= 57) ds /\ (fuel <> O -> ds <> []).
Proof.
  induction fuel as [|fuel IH]; intros n acc; [by exists []|]. cbn [format_digits]. pose proof (Z.mod_pos_bound n 10 ltac:(lia)) as Hm.
  assert (Hd : 48 <= val (digit (n mod 10)) <= 57) by (rewrite val_digit; lia).
  destruct (n <? 10); [exists [digit (n mod 10)]; split_and!; try done; by constructor|].
  destruct (IH (n / 10) (digit (n mod 10) :: acc)) as (ds & -> & Hds & _). exists (ds ++ [digit (n mod 10)]). split; [by rewrite <- app_assoc|].
  split; [apply list.Forall_app; split; [done|by constructor]|]. intros _. by destruct ds.
Qed.

(** The text of a number: digits, at least one, that read as the number. *)
Lemma FormatUint_digits n : FormatUint n <> [] /\ Forall (fun c => 48 <= val c <= 57) (FormatUint n).
Proof. unfold FormatUint. destruct (format_more 20 n []) as (ds & -> & Hds & Hne). rewrite app_nil_r. split; [by apply Hne|done]. Qed.

Lemma parse_FormatUint n : is_uint 64 n -> ParseUint (FormatUint n) = Ok n.
Proof.
  intros Hn. unfold is_uint in Hn. destruct (FormatUint_digits n) as [Hne _]. unfold ParseUint. destruct (FormatUint n) as [|c s] eqn:Hf; [done|].
  rewrite <- Hf. unfold FormatUint. rewrite parse_format; [done| |lia|lia]. change (10 ^ Z.of_nat 20) with 100000000000000000000. lia.
Qed.

Lemma parse_uint_format n : is_uint 64 n -> parse_uint (FormatUint n) = Ok n.
Proof. intros Hn. unfold parse_uint. by rewrite parse_FormatUint. Qed.

Lemma parse_uint_digits n : is_uint 64 n -> forall s, FormatUint n = s -> parse_uint s = Ok n.
Proof. intros Hn s <-. by apply parse_uint_format. Qed.

(** ** Reading what was written *)
Lemma decode_whole whole to n : is_uint 64 n -> decode_units whole to (FormatUint n) = Ok (whole n).
Proof.
  intros Hn. destruct (FormatUint_digits n) as [Hne Hd]. unfold decode_units.
  destruct (list.last (FormatUint n)) as [c|] eqn:Hl; [|by apply last_None in Hl].
  assert (Hc : 48 <= val c <= 57). { rewrite list.Forall_forall in Hd. apply Hd. by apply last_Some_elem_of. }
  rewrite uwrap_id by (unfold is_uint; lia). rewrite (proj2 (Z.leb_le 0 _)), (proj2 (Z.leb_le _ 9)) by lia. cbn [andb].
  by rewrite parse_uint_format.
Qed.

Lemma decode_unit whole to am u conv : is_uint 64 am -> 57 < val u -> to !! u = Some conv -> decode_units whole to (FormatUint am ++ [u]) = conv am.
Proof.
  intros Ham Hu Hto. destruct (FormatUint_digits am) as [Hne _]. unfold decode_units. rewrite list.last_snoc.
  pose proof (byte.unsigned_range u). rewrite uwrap_id by (unfold is_uint; lia). rewrite (proj2 (Z.leb_gt _ 9)), andb_false_r by lia. rewrite Hto.
  rewrite length_app. cbn [length]. replace (length (FormatUint am) + 1 - 1)%nat with (length (FormatUint am)) by lia. rewrite take_app_length.
  rewrite bool_decide_false by done. cbn [guard_err mbind res_mbind res_bind]. by rewrite parse_uint_format.
Qed.

(** What the loop returns: one of the texts it was offered, and none is shorter. *)
Lemma shorten_spec (P : bytes -> Prop) units amount : forall text, P text ->
  (forall u conv am, (u, conv) ∈ units -> conv amount = Ok am -> P (FormatUint am ++ [u])) ->
  P (shorten units amount text) /\ (length (shorten units amount text) <= length text)%nat /\
  (forall u conv am, (u, conv) ∈ units -> conv amount = Ok am -> (length (shorten units amount text) <= length (FormatUint am ++ [u]))%nat).
Proof.
  induction units as [|[u conv] units IH]; intros text Ht Hu; [split_and!; [done..|]; by intros ? ? ? ?%elem_of_nil|]. cbn [shorten].
  assert (Hrest : forall u' conv' am', (u', conv') ∈ units -> conv' amount = Ok am' -> P (FormatUint am' ++ [u'])).
  { intros u' conv' am' Hin. apply Hu. by apply list_elem_of_further. }
  destruct (conv amount) as [am|e|] eqn:Ha.
  - pose proof (Hu u conv am ltac:(left) Ha) as Hp. set (str := FormatUint am ++ [u]) in *.
    set (next := if (length str <? length text)%nat then str else text).
    assert (Hn : P next /\ (length next <= length text)%nat /\ (length next <= length str)%nat).
    { unfold next. destruct (Nat.ltb_spec (length str) (length text)); split_and!; try done; lia. }
    destruct Hn as (Hpn & Hn1 & Hn2). destruct (IH next Hpn Hrest) as (H1 & H2 & H3). split_and!; [done|lia|].
    intros u' conv' am' [[= -> ->]|Hin]%elem_of_cons Ha'; [|by apply (H3 u' conv')]. assert (am' = am) as -> by congruence. fold str. lia.
  - destruct (IH text Ht Hrest) as (H1 & H2 & H3). split_and!; [done..|]. intros u' conv' am' [[= -> ->]|Hin]%elem_of_cons Ha'; [congruence|by apply (H3 u' conv')].
  - destruct (IH text Ht Hrest) as (H1 & H2 & H3). split_and!; [done..|]. intros u' conv' am' [[= -> ->]|Hin]%elem_of_cons Ha'; [congruence|by apply (H3 u' conv')].
Qed.

Lemma amt_guard_Ok {A} (b : bool) (e : amterr) (r : res amterr A) a : (_ ← guard_err b e; r) = Ok a -> b = false /\ r = Ok a.
Proof. unfold guard_err. by destruct b. Qed.

Lemma fromMSat_units u conv : fromMSat !! u = Some conv -> u ∈ [m_unit; u_unit; n_unit; p_unit].
Proof. unfold fromMSat. rewrite !lookup_insert_Some, lookup_singleton_Some, !elem_of_cons. naive_solver. Qed.

Lemma fromAmt_units u conv : fromAmt !! u = Some conv -> u ∈ [m_unit; u_unit; n_unit; p_unit].
Proof. unfold fromAmt. rewrite !lookup_insert_Some, lookup_singleton_Some, !elem_of_cons. naive_solver. Qed.

(** The conversions to and from a unit. *)
Lemma fromMSat_back msat u conv am : 0 <= msat -> msat * 10 < 2 ^ 64 -> msat <> 0 -> fromMSat !! u = Some conv -> conv msat = Ok am ->
  is_uint 64 am /\ 57 < val u /\ exists conv', toMSat !! u = Some conv' /\ conv' am = Ok msat.
Proof.
  intros H0 H1 Hnz Hu Hc. unfold is_uint. unfold fromMSat in Hu.
  rewrite lookup_insert_Some in Hu. destruct Hu as [[<- <-]|[Hu1 Hu]].
  { apply amt_guard_Ok in Hc as [Hm%negb_false_iff%Z.eqb_eq [= <-]]. pose proof (Z.div_mod msat 100000000 ltac:(lia)).
    split_and!; [lia..|done|]. exists mBtcToMSat. split; [done|]. unfold mBtcToMSat. f_equal. rewrite uwrap_id by (unfold is_uint; lia). lia. }
  rewrite lookup_insert_Some in Hu. destruct Hu as [[<- <-]|[Hu2 Hu]].
  { apply amt_guard_Ok in Hc as [Hm%negb_false_iff%Z.eqb_eq [= <-]]. pose proof (Z.div_mod msat 100000 ltac:(lia)).
    split_and!; [lia..|done|]. exists uBtcToMSat. split; [done|]. unfold uBtcToMSat. f_equal. rewrite uwrap_id by (unfold is_uint; lia). lia. }
  rewrite lookup_insert_Some in Hu. destruct Hu as [[<- <-]|[Hu3 Hu]].
  { apply amt_guard_Ok in Hc as [Hm%negb_false_iff%Z.eqb_eq [= <-]]. pose proof (Z.div_mod msat 100 ltac:(lia)).
    split_and!; [lia..|done|]. exists nBtcToMSat. split; [done|]. unfold nBtcToMSat. f_equal. rewrite uwrap_id by (unfold is_uint; lia). lia. }
  apply lookup_singleton_Some in Hu as [<- <-]. unfold mSatToPBtc in Hc. rewrite uwrap_id in Hc by (unfold is_uint; lia). injection Hc as <-.
  split_and!; [lia..|done|]. exists pBtcToMSat. split; [done|]. unfold pBtcToMSat. rewrite (proj2 (Z.ltb_ge _ _)), Z.mod_mul by lia. cbn. by rewrite Z.div_mul by lia.
Qed.

Lemma fromAmt_back amt u conv am : 0 <= amt -> amt * 10 < 2 ^ 64 -> amt <> 0 -> fromAmt !! u = Some conv -> conv amt = Ok am ->
  is_uint 64 am /\ 57 < val u /\ exists conv', toAmt !! u = Some conv' /\ conv' am = Ok amt.
Proof.
  intros H0 H1 Hnz Hu Hc. unfold is_uint. unfold fromAmt in Hu.
  rewrite lookup_insert_Some in Hu. destruct Hu as [[<- <-]|[Hu1 Hu]].
  { apply amt_guard_Ok in Hc as [Hm%negb_false_iff%Z.eqb_eq Ha]. rewrite Z.rem_mod_nonneg, Z.quot_div_nonneg in * by lia. pose proof (Z.div_mod amt 100000 ltac:(lia)).
    rewrite uwrap_id in Ha by (unfold is_uint; lia). injection Ha as <-. split_and!; [lia..|done|]. exists mAssetToAmt. split; [done|].
    unfold mAssetToAmt. f_equal. rewrite uwrap_id, swrap_id by (unfold is_uint, is_sint; lia). lia. }
  rewrite lookup_insert_Some in Hu. destruct Hu as [[<- <-]|[Hu2 Hu]].
  { apply amt_guard_Ok in Hc as [Hm%negb_false_iff%Z.eqb_eq Ha]. rewrite Z.rem_mod_nonneg, Z.quot_div_nonneg in * by lia. pose proof (Z.div_mod amt 100 ltac:(lia)).
    rewrite uwrap_id in Ha by (unfold is_uint; lia). injection Ha as <-. split_and!; [lia..|done|]. exists uAssetToAmt. split; [done|].
    unfold uAssetToAmt. f_equal. rewrite uwrap_id, swrap_id by (unfold is_uint, is_sint; lia). lia. }
  apply lookup_singleton_Some in Hu as [<- <-]. unfold amtToNAsset in Hc. rewrite uwrap_swrap, uwrap_id in Hc by (unfold is_uint; lia). injection Hc as <-.
  split_and!; [lia..|done|]. exists nAssetToAmt. split; [done|]. unfold nAssetToAmt. rewrite (proj2 (Z.ltb_ge _ _)), Z.mod_mul by lia. cbn.
  by rewrite Z.div_mul, swrap_id by (unfold is_sint; lia).
Qed.

Definition amount_char (c : byte) : Prop := 48 <= val c <= 57 \/ c ∈ [m_unit; u_unit; n_unit; p_unit].

Lemma FormatUint_chars n : Forall amount_char (FormatUint n).
Proof. destruct (FormatUint_digits n) as [_ Hd]. revert Hd. apply Forall_impl. intros c Hc. by left. Qed.

Section Amounts.
Context (range : gmap byte conversion -> list (byte * conversion)).
(** Ranging over a map visits its entries. *)
Context (range_perm : forall m, range m ≡ₚ map_to_list m).

Lemma range_elem m u conv : (u, conv) ∈ range m <-> m !! u = Some conv.
Proof. by rewrite range_perm, elem_of_map_to_list. Qed.

(** The loop writes a text that reads as the amount, and no unit a shorter one. *)
Lemma shorten_back whole from to amt first unit : from !! unit = Some first -> (forall u conv, from !! u = Some conv -> u ∈ [m_unit; u_unit; n_unit; p_unit]) ->
  (forall u conv am, from !! u = Some conv -> conv amt = Ok am -> is_uint 64 am /\ 57 < val u /\ exists conv', to !! u = Some conv' /\ conv' am = Ok amt) ->
  forall am0, first amt = Ok am0 -> let text := shorten (range from) amt (FormatUint am0 ++ [unit]) in
  decode_units whole to text = Ok amt /\ Forall amount_char text /\ text <> [] /\
  (forall u conv am, from !! u = Some conv -> conv amt = Ok am -> (length text <= length (FormatUint am ++ [u]))%nat).
Proof.
  intros Hfirst Hunits Hback am0 Ham0 text.
  set (P := fun text : bytes => decode_units whole to text = Ok amt /\ Forall amount_char text /\ text <> []).
  assert (HP : forall u conv am, from !! u = Some conv -> conv amt = Ok am -> P (FormatUint am ++ [u])).
  { intros u conv am Hu Ha. destruct (Hback u conv am Hu Ha) as (Hr & Hv & conv' & Hto & Hc). split_and!.
    - by rewrite (decode_unit _ _ _ _ conv').
    - apply list.Forall_app. split; [apply FormatUint_chars|]. constructor; [|done]. right. by apply (Hunits u conv).
    - by destruct (FormatUint am). }
  destruct (shorten_spec P (range from) amt (FormatUint am0 ++ [unit])) as ((H1 & H2 & H3) & _ & H4).
  - by apply (HP unit first).
  - intros u conv am Hin%range_elem. by apply HP.
  - fold text in H1, H2, H3, H4. split_and!; [done..|]. intros u conv am Hu. apply H4. by apply range_elem.
Qed.

(** Writing an amount and reading it. *)
Lemma amount_back (amt assetId : Z) : 0 <= amt -> amt * 10 < 2 ^ 64 -> exists text,
  encodeAmt range amt assetId = Ok text /\ decodeAmt text assetId = Ok amt /\ Forall amount_char text /\ text <> [] /\
  (forall u conv am, (if assetId =? 0 then fromMSat else fromAmt) !! u = Some conv -> conv amt = Ok am ->
     amt mod (if assetId =? 0 then mSatPerBtc else amtPerAsset) <> 0 -> (length text <= length (FormatUint am ++ [u]))%nat).
Proof.
  intros H0 H1. unfold encodeAmt, decodeAmt, BtcAssetId. rewrite orb_diag. destruct (assetId =? 0).
  - unfold encodeAmount, decodeAmount, mSatPerBtc. destruct (Z.eqb_spec (amt mod 100000000000) 0) as [Hm|Hm].
    + pose proof (Z.div_mod amt 100000000000 ltac:(lia)). rewrite swrap_id by (unfold is_sint; lia). unfold FormatInt. rewrite (proj2 (Z.ltb_ge _ _)) by lia.
      eexists. split; [done|]. rewrite decode_whole by (unfold is_uint; lia). cbn. rewrite uwrap_uwrap, uwrap_id by (unfold is_uint; lia).
      split; [f_equal; lia|]. split; [apply FormatUint_chars|]. split; [apply FormatUint_digits|]. done.
    + destruct (shorten_back (fun btc => u64 (btc * 100000000000)) fromMSat toMSat amt mSatToPBtc p_unit eq_refl) with (am0 := u64 (amt * 10)) as (Hd & Hc & Hne & Hs).
      * by intros u conv Hu%fromMSat_units.
      * intros u conv am Hu Ha. apply (fromMSat_back amt u conv); try done. by intros ->.
      * done.
      * eexists. split; [reflexivity|]. rewrite Hd. cbn [mbind res_mbind res_bind]. rewrite uwrap_id by (unfold is_uint; lia). split_and!; [done..|]. intros u conv am Hu Ha _. by apply (Hs u conv).
  - assert (Ha : i64 amt = amt) by (apply swrap_id; [lia|unfold is_sint; lia]). rewrite Ha.
    unfold encodeAssetAmount, decodeAssetAmount, amtPerAsset. rewrite Z.rem_mod_nonneg, Z.quot_div_nonneg by lia.
    destruct (Z.eqb_spec (amt mod 100000000) 0) as [Hm|Hm].
    + pose proof (Z.div_mod amt 100000000 ltac:(lia)). unfold FormatInt. rewrite (proj2 (Z.ltb_ge _ _)) by lia.
      eexists. split; [done|]. rewrite decode_whole by (unfold is_uint; lia). cbn. rewrite uwrap_swrap by lia. rewrite (swrap_id 64 (amt / _)), uwrap_id by (unfold is_uint, is_sint; lia).
      split; [f_equal; lia|]. split; [apply FormatUint_chars|]. split; [apply FormatUint_digits|]. done.
    + destruct (shorten_back (fun asset => i64 (i64 asset * 100000000)) fromAmt toAmt amt amtToNAsset n_unit eq_refl) with (am0 := u64 (i64 (amt * 10))) as (Hd & Hc & Hne & Hs).
      * by intros u conv Hu%fromAmt_units.
      * intros u conv am Hu Ham. apply (fromAmt_back amt u conv); try done. by intros ->.
      * done.
      * eexists. split; [reflexivity|]. rewrite Hd. cbn [mbind res_mbind res_bind]. rewrite uwrap_id by (unfold is_uint; lia). split_and!; [done..|]. intros u conv am Hu Ham _. by apply (Hs u conv).
Qed.

(** C40. The amount of a payment request reads back: below a tenth of 2^64 an amount
    of bitcoin or of an asset is written, whatever order Go ranges over the units in, as
    a text of digits and a unit that decodes to the amount under the same asset; and
    unless it is a number of whole coins, no unit that can express it is shorter. *)
Theorem amount_roundtrip (amt assetId : Z) : 0 <= amt -> amt * 10 < 2 ^ 64 -> exists text,
  encodeAmt range amt assetId = Ok text /\ decodeAmt text assetId = Ok amt /\ Forall amount_char text /\ text <> [] /\
  (forall u conv am, (if assetId =? 0 then fromMSat else fromAmt) !! u = Some conv -> conv amt = Ok am ->
     amt mod (if assetId =? 0 then mSatPerBtc else amtPerAsset) <> 0 -> (length text <= length (FormatUint am ++ [u]))%nat).
Proof. apply amount_back. Qed.

Lemma shorten_same from amt text : (forall u conv am, from !! u = Some conv -> conv amt = Ok am -> FormatUint am ++ [u] = text) ->
  shorten (range from) amt text = text.
Proof.
  intros Hs. assert (Hs' : forall u conv am, (u, conv) ∈ range from -> conv amt = Ok am -> FormatUint am ++ [u] = text).
  { intros u conv am Hin%range_elem. by apply Hs. }
  clear Hs. induction (range from) as [|[u conv] units IH]; [done|]. cbn [shorten].
  assert (IH' : shorten units amt text = text). { apply IH. intros u' conv' am' Hin. apply (Hs' u' conv'). by apply list_elem_of_further. }
  destruct (conv amt) as [am| |] eqn:Ha; [|done..]. rewrite (Hs' u conv am ltac:(left) Ha). by rewrite Nat.ltb_irrefl.
Qed.

Lemma mod_divides k a : a mod (100 * k) = 0 -> 0 < k -> a mod 100 = 0.
Proof. intros Hz Hk. apply Z.mod_divide; [lia|]. apply Z.mod_divide in Hz as [q ->]; [|lia]. exists (q * k). lia. Qed.

(** From a tenth of 2^64 on the amount of an asset is lost: an amount that no
    larger unit expresses is multiplied by ten modulo 2^64, and the request that is
    written, without an error, is refused by whoever reads it. *)
Theorem asset_amount_unreadable (amt assetId : Z) : assetId <> 0 -> 2 ^ 64 <= amt * 10 -> amt < 2 ^ 63 -> amt mod 100 <> 0 ->
  exists text, encodeAmt range amt assetId = Ok text /\
    (decodeAmt text assetId = Err ErrMinimumAmount \/ decodeAmt text assetId = Err (ErrNotExpressible (u64 (amt * 10)))).
Proof.
  intros Hid H0 H1 Hm. unfold encodeAmt, decodeAmt, BtcAssetId. rewrite orb_diag, (proj2 (Z.eqb_neq assetId 0)) by done.
  rewrite swrap_id by (unfold is_sint; lia). unfold encodeAssetAmount, decodeAssetAmount, amtPerAsset.
  rewrite Z.rem_mod_nonneg by lia. rewrite (proj2 (Z.eqb_neq (amt mod _) 0)) by (intros Hz; apply Hm; by apply (mod_divides 1000000)). eexists. split; [reflexivity|]. rewrite shorten_same.
  - rewrite uwrap_swrap by lia. rewrite (decode_unit _ _ _ _ nAssetToAmt) by (done || by apply uwrap_range). unfold nAssetToAmt, guard_err.
    destruct (u64 (amt * 10) <? 10); [by left|right]. rewrite (proj2 (Z.eqb_neq _ 0)); [done|]. unfold uwrap.
    pose proof (Z.div_mod (amt * 10) (2 ^ 64) ltac:(lia)) as Hdm. pose proof (Z.mod_pos_bound (amt * 10) (2 ^ 64) ltac:(lia)). 
    change (2 ^ 64) with 18446744073709551616 in *. change (2 ^ 63) with 9223372036854775808 in *.
    intros Hz. pose proof (Z.div_mod ((amt * 10) mod 18446744073709551616) 10 ltac:(lia)).
    assert (1 <= amt * 10 / 18446744073709551616 <= 4) by lia. lia.
  - intros u conv am Hu Ha. unfold fromAmt in Hu. rewrite !lookup_insert_Some, lookup_singleton_Some in Hu.
    destruct Hu as [[<- <-]|[_ [[<- <-]|[_ [<- <-]]]]].
    + apply amt_guard_Ok in Ha as [Hr%negb_false_iff%Z.eqb_eq _]. rewrite Z.rem_mod_nonneg in Hr by lia. destruct Hm. by apply (mod_divides 1000).
    + apply amt_guard_Ok in Ha as [Hr%negb_false_iff%Z.eqb_eq _]. rewrite Z.rem_mod_nonneg in Hr by lia. done.
    + by injection Ha as <-.
Qed.
End Amounts.


Lemma amount_roundtrip_witness : 250000000 * 10 < 2 ^ 64 /\ exists text, encodeAmt map_to_list 250000000 0 = Ok text /\ decodeAmt text 0 = Ok 250000000.
Proof.
  split; [lia|]. destruct (amount_roundtrip map_to_list (fun _ => reflexivity _) 250000000 0 ltac:(lia) ltac:(lia)) as (text & He & Hd & _). by exists text.
Defined.

Lemma asset_amount_unreadable_witness : exists text, encodeAmt map_to_list 1844674407370955170 31 = Ok text /\
  (decodeAmt text 31 = Err ErrMinimumAmount \/ decodeAmt text 31 = Err (ErrNotExpressible 84)).
Proof. apply (asset_amount_unreadable map_to_list (fun _ => reflexivity _)); first [lia | vm_compute; congruence]. Defined.
