(* ===== verification/Zpay32.v ===== *)
(** * Payment requests ([zpay32/invoice.go], [encode.go], [decode.go], [hophint.go])

    A payment request is an invoice as a signed bech32 string: its human-readable part
    names the network, the asset and the amount, its data part carries the timestamp,
    the tagged fields and a signature over both.  Pointers to optional values are
    [option]s.  Addresses, ECDSA and the network parameters are btcd's
    ([PayReqLib]). *)

From S2P Require Import Prelude Wire Messages Sha256 Sig Units Features Bech32 PayAmounts.
From Stdlib Require Import SpecFloat.

(** ** Errors *)
Inductive payerr : Type :=
| ErrInvoiceTooLarge | ErrInvalidFieldLength | ErrBrokenTaggedField
| ErrBech32 (e : b32err) | ErrConvertBits | ErrAmount (e : amterr)
| ErrNoNet | ErrNoPaymentHash | ErrBothDescriptions | ErrNoDescription | ErrHashLength | ErrPubKeyLength | ErrNoFeatures
| ErrTimestampTooBig | ErrUnknownFallback | ErrFieldTooLong | ErrFeatures (e : werr)
| ErrSign | ErrSigFormat | ErrSigMismatch
| ErrHrpShort | ErrPrefix | ErrNetwork | ErrShort | ErrDataShort | ErrTimestampLength | ErrAssetMismatch | ErrRecover
| ErrNumberLength | ErrDataLength | ErrEmptyFallback | ErrWitnessLength | ErrBadAddress | ErrHopHintLength | ErrBadPubKey.

(** ** What btcd does *)
Inductive AddrKind : Type := AddressPubKeyHash | AddressScriptHash | AddressWitnessPubKeyHash | AddressWitnessScriptHash | AddressOther.

Class PayReqLib `{PubKeyOps} : Type := {
  Params : Type;
  Name : Params -> bytes;
  Address : Type;
  addr_kind : Address -> AddrKind;
  WitnessVersion : Address -> byte;
  ScriptAddress : Address -> bytes;
  NewAddressPubKeyHash : bytes -> Params -> option Address;
  NewAddressScriptHashFromHash : bytes -> Params -> option Address;
  NewAddressWitnessPubKeyHash : bytes -> Params -> option Address;
  NewAddressWitnessScriptHash : bytes -> Params -> option Address;
  Signature : Type;
  ParseDERSignature : bytes -> option Signature;
  Verify : Signature -> bytes -> PublicKey -> bool;
  RecoverCompact : bytes -> bytes -> option PublicKey
}.

(** ** Constants *)
Definition signatureBase32Len : nat := 104.
Definition timestampBase32Len : nat := 7.
Definition hashBase32Len : nat := 52.
Definition pubKeyBase32Len : nat := 53.
Definition hopHintLen : nat := 51.
Definition fieldTypeP : Z := 1.
Definition fieldTypeD : Z := 13.
Definition fieldTypeN : Z := 19.
Definition fieldTypeH : Z := 23.
Definition fieldTypeX : Z := 6.
Definition fieldTypeF : Z := 9.
Definition fieldTypeR : Z := 3.
Definition fieldTypeC : Z := 24.
Definition fieldType9 : Z := 5.
Definition fieldTypeS : Z := 16.
Definition fieldTypeA : Z := 17.
Definition fieldTypeRefundable : Z := 18.
Definition maxInvoiceLength : nat := Z.to_nat 7089.

(** A duration counts nanoseconds. *)
Definition Second : Z := 1000000000.
Definition DefaultInvoiceExpiry : Z := 3600 * Second.
Definition DefaultAssumedFinalCLTVDelta : Z := 9.

(** ** Data *)
Record Time : Type := mkTime { Unix : Z; Nanosecond : Z }.

Section Requests.
Context `{PubKeyOps} `{!PayReqLib} `{Bech32Lib}.

Record HopHint : Type := mkHopHint {
  NodeID : PublicKey;
  hh_ChannelID : Z;
  FeeBaseMSat : Z;
  FeeProportionalMillionths : Z;
  CLTVExpiryDelta : Z
}.

Record Invoice : Type := mkInvoice {
  Net : option Params;
  MilliSat : option Z;
  pr_AssetId : option Z;
  Timestamp : Time;
  pr_PaymentHash : option bytes;
  pr_PaymentAddr : option bytes;
  Destination : option PublicKey;
  minFinalCLTVExpiry : option Z;
  Description : option bytes;
  DescriptionHash : option bytes;
  expiry : option Z;
  FallbackAddr : option Address;
  RouteHints : list (list HopHint);
  pr_Features : option RawFeatureVector;
  Refundable : option bool
}.

#[export] Instance Invoice_eta : Eta Invoice := fun i =>
  mkInvoice (Net i) (MilliSat i) (pr_AssetId i) (Timestamp i) (pr_PaymentHash i) (pr_PaymentAddr i) (Destination i) (minFinalCLTVExpiry i)
    (Description i) (DescriptionHash i) (expiry i) (FallbackAddr i) (RouteHints i) (pr_Features i) (Refundable i).

Definition empty_invoice : Invoice := mkInvoice None None None (mkTime 0 0) None None None None None None None None [] None None.

Definition Expiry (invoice : Invoice) : Z := default DefaultInvoiceExpiry (expiry invoice).
Definition MinFinalCLTVExpiry (invoice : Invoice) : Z := default DefaultAssumedFinalCLTVDelta (minFinalCLTVExpiry invoice).

Definition validateInvoice (invoice : Invoice) : res payerr unit :=
  _ ← guard_err (match Net invoice with None => true | _ => false end) ErrNoNet;
  _ ← guard_err (match pr_PaymentHash invoice with None => true | _ => false end) ErrNoPaymentHash;
  _ ← guard_err (match Description invoice, DescriptionHash invoice with Some _, Some _ => true | _, _ => false end) ErrBothDescriptions;
  _ ← guard_err (match Description invoice, DescriptionHash invoice with None, None => true | _, _ => false end) ErrNoDescription;
  _ ← guard_err (match pr_PaymentHash invoice with Some h => negb (length h =? 32)%nat | None => false end) ErrHashLength;
  _ ← guard_err (match DescriptionHash invoice with Some h => negb (length h =? 32)%nat | None => false end) ErrHashLength;
  _ ← guard_err (match Destination invoice with Some d => negb (length (SerializeCompressed d) =? 33)%nat | None => false end) ErrPubKeyLength;
  guard_err (match pr_Features invoice with None => true | _ => false end) ErrNoFeatures.

(** The functional options, and what they make. *)
Definition NewInvoice (net : Params) (paymentHash : bytes) (timestamp : Time) (options : list (Invoice -> Invoice)) : res payerr Invoice :=
  let invoice := empty_invoice <| Net := Some net |> <| pr_PaymentHash := Some paymentHash |> <| Timestamp := timestamp |> in
  let invoice := foldl (fun invoice option => option invoice) invoice options in
  let invoice := match pr_Features invoice with None => invoice <| pr_Features := Some ∅ |> | Some _ => invoice end in
  _ ← validateInvoice invoice;
  Ok invoice.

(** ** Numbers in groups of five bits *)
Fixpoint base32_digits (fuel : nat) (num : Z) (arr : bytes) : bytes :=
  match fuel with
  | O => arr
  | S fuel => if 0 <? num then base32_digits fuel (Z.shiftr num 5) (byte.of_Z (Z.land num 31) :: arr) else arr
  end.

(** The loop fills an array of 13 groups from the end. *)
Definition uint64ToBase32 (num : Z) : bytes := if num =? 0 then [Byte.x00] else base32_digits 13 num [].

Definition base32ToUint64 (data : bytes) : res payerr Z :=
  _ ← guard_err (13 <? length data)%nat ErrNumberLength;
  Ok (foldl (fun v b => Z.lor (u64 (Z.shiftl v 5)) (val b)) 0 data).

Definition of_convert (r : option bytes) : res payerr bytes := match r with Some b => Ok b | None => Err ErrConvertBits end.

(** [copy] into an array of [n] zeroes. *)
Definition copy_array (n : nat) (src : bytes) : bytes := take n src ++ replicate (n - length src) Byte.x00.

(** [Duration.Seconds]: a [float64]; the conversion back to an integer truncates. *)
Definition float_of (z : Z) : spec_float := binary_normalize 53 1024 z 0 false.
Definition int_of (f : spec_float) : Z :=
  match f with
  | S754_finite s m e => let n := if 0 <=? e then Z.shiftl (Zpos m) e else Z.shiftr (Zpos m) (- e) in if s then - n else n
  | _ => 0
  end.
Definition Seconds (d : Z) : spec_float :=
  SFadd 53 1024 (float_of (d `quot` Second)) (SFdiv 53 1024 (float_of (d `rem` Second)) (float_of Second)).

(** ** Writing *)
Abbreviation Base32 := (M bytes payerr unit).

Definition put (b : bytes) : Base32 := modify (fun buf => buf ++ b).

Definition writeTaggedField (dataType : Z) (data : bytes) : Base32 :=
  let lenBase32 := uint64ToBase32 (Z.of_nat (length data)) in
  let lenBase32 := replicate (2 - length lenBase32) Byte.x00 ++ lenBase32 in
  _ ← check (negb (length lenBase32 =? 2)%nat) ErrFieldTooLong;
  _ ← put [byte.of_Z dataType];
  _ ← put lenBase32;
  put data.

Definition writeBytes32 (fieldType : Z) (b : bytes) : Base32 :=
  base32 ← lift (of_convert (ConvertBits b 8 5 true));
  writeTaggedField fieldType base32.

Definition when_some {A} (o : option A) (write : A -> Base32) : Base32 := match o with Some a => write a | None => mret tt end.

Definition hop_hint_bytes (hopHint : HopHint) : bytes :=
  copy_array 33 (SerializeCompressed (NodeID hopHint)) ++ be_put 8 (hh_ChannelID hopHint) ++ be_put 4 (FeeBaseMSat hopHint) ++
  be_put 4 (FeeProportionalMillionths hopHint) ++ be_put 2 (CLTVExpiryDelta hopHint).

Definition writeRouteHint (routeHint : list HopHint) : Base32 :=
  routeHintBase32 ← lift (of_convert (ConvertBits (concat (hop_hint_bytes <$> routeHint)) 8 5 true));
  writeTaggedField fieldTypeR routeHintBase32.

Fixpoint writeRouteHints (routeHints : list (list HopHint)) : Base32 :=
  match routeHints with
  | [] => mret tt
  | routeHint :: routeHints => _ ← writeRouteHint routeHint; writeRouteHints routeHints
  end.

Definition fallback_version (addr : Address) : res payerr byte :=
  match addr_kind addr with
  | AddressPubKeyHash => Ok (byte.of_Z 17)
  | AddressScriptHash => Ok (byte.of_Z 18)
  | AddressWitnessPubKeyHash | AddressWitnessScriptHash => Ok (WitnessVersion addr)
  | AddressOther => Err ErrUnknownFallback
  end.

(** [EncodeBase32] writes a vector into a buffer of its own. *)
Definition features_base32 (range : RawFeatureVector -> list FeatureBit) (fv : RawFeatureVector) : res payerr bytes :=
  match EncodeBase32 range fv [] with
  | (Ok _, buf) => Ok buf
  | (Err e, _) => Err (ErrFeatures e)
  | (Panic, _) => Panic
  end.

Definition writeTaggedFields (range : RawFeatureVector -> list FeatureBit) (invoice : Invoice) : Base32 :=
  _ ← when_some (pr_PaymentHash invoice) (writeBytes32 fieldTypeP);
  _ ← when_some (Description invoice) (fun description =>
        base32 ← lift (of_convert (ConvertBits description 8 5 true)); writeTaggedField fieldTypeD base32);
  _ ← when_some (DescriptionHash invoice) (writeBytes32 fieldTypeH);
  _ ← when_some (minFinalCLTVExpiry invoice) (fun e => writeTaggedField fieldTypeC (uint64ToBase32 e));
  _ ← when_some (expiry invoice) (fun e => writeTaggedField fieldTypeX (uint64ToBase32 (u64 (int_of (Seconds e)))));
  _ ← when_some (pr_AssetId invoice) (fun a => writeTaggedField fieldTypeA (uint64ToBase32 a));
  _ ← when_some (FallbackAddr invoice) (fun addr =>
        version ← lift (fallback_version addr);
        base32Addr ← lift (of_convert (ConvertBits (ScriptAddress addr) 8 5 true));
        writeTaggedField fieldTypeF (version :: base32Addr));
  _ ← writeRouteHints (RouteHints invoice);
  _ ← when_some (Destination invoice) (fun destination =>
        pubKeyBase32 ← lift (of_convert (ConvertBits (SerializeCompressed destination) 8 5 true));
        _ ← check (negb (length pubKeyBase32 =? pubKeyBase32Len)%nat) ErrPubKeyLength;
        writeTaggedField fieldTypeN pubKeyBase32);
  _ ← when_some (Refundable invoice) (fun r : bool => if r then writeTaggedField fieldTypeRefundable [Byte.x01] else mret tt);
  _ ← when_some (pr_PaymentAddr invoice) (writeBytes32 fieldTypeS);
  match pr_Features invoice with
  | None => panic
  | Some fv => if 0 <? serializeSize fv 5 then b ← lift (features_base32 range fv); writeTaggedField fieldType9 b else mret tt
  end.

Definition MainNet : bytes := Eval compute in bytes_of "mainnet"%string.
Definition TestNet3 : bytes := Eval compute in bytes_of "testnet3"%string.
Definition RegressionNet : bytes := Eval compute in bytes_of "regtest"%string.

Definition getObdHrpPre (cc : Params) : res payerr bytes :=
  if bool_decide (Name cc = MainNet) then Ok (bytes_of "o"%string)
  else if bool_decide (Name cc = TestNet3) then Ok (bytes_of "to"%string)
  else if bool_decide (Name cc = RegressionNet) then Ok (bytes_of "ort"%string)
  else Panic.

Definition of_amount {A} (r : res amterr A) : res payerr A := match r with Ok a => Ok a | Err e => Err (ErrAmount e) | Panic => Panic end.

(** The human-readable part. *)
Definition encode_hrp (units : gmap byte conversion -> list (byte * conversion)) (invoice : Invoice) (net : Params) : res payerr bytes :=
  pre ← getObdHrpPre net;
  match pr_AssetId invoice with
  | None => Panic
  | Some aid =>
      let hrp := bytes_of "ob"%string ++ pre ++ FormatInt aid ++ bytes_of ":"%string in
      match MilliSat invoice with
      | None => Ok hrp
      | Some amt => am ← of_amount (encodeAmt units amt aid); Ok (hrp ++ am)
      end
  end.

Definition ToSignature (sig : bytes) : res payerr Signature :=
  match ParseDERSignature (ToSignatureBytes sig) with Some s => Ok s | None => Err ErrSigFormat end.

Definition of_bech32 {A} (r : res b32err A) : res payerr A := match r with Ok a => Ok a | Err e => Err (ErrBech32 e) | Panic => Panic end.

(** The signature and its recovery id, of what the signer returns. *)
Definition split_signature (sign : bytes) : res payerr (byte * bytes) :=
  match sign with
  | [] => Panic
  | header :: rest => Ok (byte.of_Z (u8 (val header - 27 - 4)), copy_array 64 rest)
  end.

(** The timestamp and the tagged fields. *)
Definition encode_data (range : RawFeatureVector -> list FeatureBit) (invoice : Invoice) : Base32 :=
  let timestampBase32 := uint64ToBase32 (u64 (Unix (Timestamp invoice))) in
  _ ← check (timestampBase32Len <? length timestampBase32)%nat ErrTimestampTooBig;
  _ ← put (replicate (timestampBase32Len - length timestampBase32) Byte.x00);
  _ ← put timestampBase32;
  writeTaggedFields range invoice.

Definition Encode (units : gmap byte conversion -> list (byte * conversion)) (range : RawFeatureVector -> list FeatureBit)
    (SignCompact : bytes -> option bytes) (invoice : Invoice) : res payerr bytes :=
  _ ← validateInvoice invoice;
  let '(written, buffer) := encode_data range invoice [] in
  _ ← written;
  match Net invoice with
  | None => Panic
  | Some net =>
      hrp ← encode_hrp units invoice net;
      taggedFieldsBytes ← of_convert (ConvertBits buffer 5 8 true);
      let toSign := hrp ++ taggedFieldsBytes in
      sign ← match SignCompact toSign with Some sign => Ok sign | None => Err ErrSign end;
      '(recoveryID, sig) ← split_signature sign;
      _ ← match Destination invoice with
          | None => Ok tt
          | Some destination =>
              signature ← ToSignature sig;
              guard_err (negb (Verify signature (Sum256 toSign) destination)) ErrSigMismatch
          end;
      signBase32 ← of_convert (ConvertBits (sig ++ [recoveryID]) 8 5 true);
      b32 ← of_bech32 (bech32_Encode hrp (buffer ++ signBase32));
      _ ← guard_err (maxInvoiceLength <? length b32)%nat ErrInvoiceTooLarge;
      Ok b32
  end.

(** ** Reading *)
Definition parseFieldDataLength (data : bytes) : res payerr Z :=
  match data with
  | [hi; lo] => Ok (Z.lor (u16 (Z.shiftl (val hi) 5)) (val lo))
  | _ => Err ErrDataLength
  end.

Definition parse32Bytes (data : bytes) : res payerr (option bytes) :=
  if negb (length data =? hashBase32Len)%nat then Ok None
  else hash ← of_convert (ConvertBits data 5 8 false); Ok (Some (copy_array 32 hash)).

Definition parseDescription (data : bytes) : res payerr (option bytes) :=
  base256Data ← of_convert (ConvertBits data 5 8 false); Ok (Some base256Data).

Definition parse_key (b : bytes) : res payerr PublicKey := match ParsePubKey b with Some p => Ok p | None => Err ErrBadPubKey end.

Definition parseDestination (data : bytes) : res payerr (option PublicKey) :=
  if negb (length data =? pubKeyBase32Len)%nat then Ok None
  else base256Data ← of_convert (ConvertBits data 5 8 false); p ← parse_key base256Data; Ok (Some p).

Definition parseExpiry (data : bytes) : res payerr (option Z) := e ← base32ToUint64 data; Ok (Some (i64 (i64 e * Second))).
Definition parseAssetId (data : bytes) : res payerr (option Z) := a ← base32ToUint64 data; Ok (Some (u32 a)).
Definition parseMinFinalCLTVExpiry (data : bytes) : res payerr (option Z) := e ← base32ToUint64 data; Ok (Some e).

Definition of_address (a : option Address) : res payerr (option Address) := match a with Some a => Ok (Some a) | None => Err ErrBadAddress end.

Definition parseFallbackAddr (data : bytes) (net : Params) : res payerr (option Address) :=
  _ ← guard_err (length data <? 2)%nat ErrEmptyFallback;
  match data with
  | [] => Panic
  | version :: data =>
      if val version =? 0 then
        witness ← of_convert (ConvertBits data 5 8 false);
        if (length witness =? 20)%nat then of_address (NewAddressWitnessPubKeyHash witness net)
        else if (length witness =? 32)%nat then of_address (NewAddressWitnessScriptHash witness net)
        else Err ErrWitnessLength
      else if val version =? 17 then
        pubKeyHash ← of_convert (ConvertBits data 5 8 false); of_address (NewAddressPubKeyHash pubKeyHash net)
      else if val version =? 18 then
        scriptHash ← of_convert (ConvertBits data 5 8 false); of_address (NewAddressScriptHashFromHash scriptHash net)
      else Ok None
  end.

(** The loop over the hints, each of 51 bytes. *)
Fixpoint parse_hop_hints (fuel : nat) (base256Data : bytes) : res payerr (list HopHint) :=
  match fuel, base256Data with
  | S fuel, _ :: _ =>
      nodeID ← parse_key (take 33 base256Data);
      let hopHint := mkHopHint nodeID (be_get (take 8 (drop 33 base256Data))) (be_get (take 4 (drop 41 base256Data)))
                       (be_get (take 4 (drop 45 base256Data))) (be_get (take 2 (drop 49 base256Data))) in
      hints ← parse_hop_hints fuel (drop hopHintLen base256Data);
      Ok (hopHint :: hints)
  | _, _ => Ok []
  end.

Definition parseRouteHint (data : bytes) : res payerr (list HopHint) :=
  base256Data ← of_convert (ConvertBits data 5 8 false);
  _ ← guard_err (negb (length base256Data `mod` hopHintLen =? 0)%nat) ErrHopHintLength;
  parse_hop_hints (length base256Data) base256Data.

Definition parseFeatures (data : bytes) : res payerr (option RawFeatureVector) :=
  match (DecodeBase32 ∅ (Z.of_nat (length data)) data).1 with
  | Ok fv => Ok (Some fv)
  | Err e => Err (ErrFeatures e)
  | Panic => Panic
  end.

(** A field of which one was read already is skipped. *)
Definition first_only {A} (seen : option A) (invoice : Invoice) (read : res payerr Invoice) : res payerr Invoice :=
  match seen with Some _ => Ok invoice | None => read end.

Definition parseTaggedField (invoice : Invoice) (typ : Z) (base32Data : bytes) (net : Params) : res payerr Invoice :=
  if typ =? fieldTypeP then
    first_only (pr_PaymentHash invoice) invoice (h ← parse32Bytes base32Data; Ok (invoice <| pr_PaymentHash := h |>))
  else if typ =? fieldTypeS then
    first_only (pr_PaymentAddr invoice) invoice (h ← parse32Bytes base32Data; Ok (invoice <| pr_PaymentAddr := h |>))
  else if typ =? fieldTypeRefundable then
    first_only (Refundable invoice) invoice
      (Ok (if bool_decide (base32Data = [Byte.x01]) then invoice <| Refundable := Some true |> else invoice))
  else if typ =? fieldTypeD then
    first_only (Description invoice) invoice (d ← parseDescription base32Data; Ok (invoice <| Description := d |>))
  else if typ =? fieldTypeN then
    first_only (Destination invoice) invoice (d ← parseDestination base32Data; Ok (invoice <| Destination := d |>))
  else if typ =? fieldTypeH then
    first_only (DescriptionHash invoice) invoice (h ← parse32Bytes base32Data; Ok (invoice <| DescriptionHash := h |>))
  else if typ =? fieldTypeX then
    first_only (expiry invoice) invoice (e ← parseExpiry base32Data; Ok (invoice <| expiry := e |>))
  else if typ =? fieldTypeA then
    first_only (pr_AssetId invoice) invoice (a ← parseAssetId base32Data; Ok (invoice <| pr_AssetId := a |>))
  else if typ =? fieldTypeC then
    first_only (minFinalCLTVExpiry invoice) invoice (e ← parseMinFinalCLTVExpiry base32Data; Ok (invoice <| minFinalCLTVExpiry := e |>))
  else if typ =? fieldTypeF then
    first_only (FallbackAddr invoice) invoice (a ← parseFallbackAddr base32Data net; Ok (invoice <| FallbackAddr := a |>))
  else if typ =? fieldTypeR then
    routeHint ← parseRouteHint base32Data; Ok (invoice <| RouteHints ::= (fun hints => hints ++ [routeHint]) |>)
  else if typ =? fieldType9 then
    first_only (pr_Features invoice) invoice (f ← parseFeatures base32Data; Ok (invoice <| pr_Features := f |>))
  else Ok invoice.

(** The loop over the fields; every turn consumes three groups at least, so the
    length of the fields is fuel enough. *)
Fixpoint parse_fields (fuel : nat) (invoice : Invoice) (fields : bytes) (net : Params) : res payerr Invoice :=
  match fuel, fields with
  | _, [] | O, _ => Ok invoice
  | S fuel, _ =>
      match fields with
      | typ :: hi :: lo :: rest =>
          dataLength ← parseFieldDataLength [hi; lo];
          _ ← guard_err (Z.of_nat (length rest) <? dataLength) ErrInvalidFieldLength;
          invoice ← parseTaggedField invoice (val typ) (take (Z.to_nat dataLength) rest) net;
          parse_fields fuel invoice (drop (Z.to_nat dataLength) rest) net
      | _ => Err ErrBrokenTaggedField
      end
  end.

Definition parseTaggedFields (invoice : Invoice) (fields : bytes) (net : Params) : res payerr Invoice :=
  parse_fields (length fields) invoice fields net.

Definition parseTimestamp (data : bytes) : res payerr Z :=
  _ ← guard_err (negb (length data =? timestampBase32Len)%nat) ErrTimestampLength;
  base32ToUint64 data.

Definition parseData (invoice : Invoice) (data : bytes) (net : Params) : res payerr Invoice :=
  _ ← guard_err (length data <? timestampBase32Len)%nat ErrDataShort;
  t ← parseTimestamp (take timestampBase32Len data);
  parseTaggedFields (invoice <| Timestamp := mkTime (i64 t) 0 |>) (drop 7 data) net.

(** [strings.Split] with a separator of one byte. *)
Fixpoint Split (s : bytes) (sep : byte) : list bytes :=
  match s with
  | [] => [[]]
  | b :: s => match Split s sep with
              | item :: items => if decide (b = sep) then [] :: item :: items else (b :: item) :: items
              | [] => [[b]]
              end
  end.

Definition colon : byte := byte.of_Z 58.

(** What follows the network in the human-readable part. *)
Definition parse_hrp_amount (invoice : Invoice) (rest : bytes) : res payerr Invoice :=
  if (0 <? length rest)%nat then
    let aid := default 0 (pr_AssetId invoice) in
    let items := Split rest colon in
    let tmp_aid := Atoi_value (default [] (items !! 0%nat)) in
    _ ← guard_err (negb (tmp_aid =? aid)) ErrAssetMismatch;
    match items !! 1%nat with
    | None => Panic
    | Some item => amount ← of_amount (decodeAmt item aid); Ok (invoice <| MilliSat := Some amount |>)
    end
  else Ok invoice.

(** The node that signed: the one named, if its signature is good, or the one the
    signature recovers to. *)
Definition check_signature (invoice : Invoice) (sigBase256 toSign : bytes) : res payerr Invoice :=
  match sigBase256 !! 64%nat with
  | None => Panic
  | Some recoveryID =>
      let sig := copy_array 64 (take 64 sigBase256) in
      let hash := Sum256 toSign in
      match Destination invoice with
      | Some destination =>
          signature ← ToSignature sig;
          _ ← guard_err (negb (Verify signature hash destination)) ErrSigMismatch;
          Ok invoice
      | None =>
          let headerByte := byte.of_Z (u8 (val recoveryID + 27 + 4)) in
          match RecoverCompact (headerByte :: sig) hash with
          | None => Err ErrRecover
          | Some pubkey => Ok (invoice <| Destination := Some pubkey |>)
          end
      end
  end.

Definition Decode (invoice : bytes) (net : Params) : res payerr Invoice :=
  _ ← guard_err (maxInvoiceLength <? length invoice)%nat ErrInvoiceTooLarge;
  '(hrp, data) ← of_bech32 (decodeBech32 invoice);
  _ ← guard_err (length hrp <? 3)%nat ErrHrpShort;
  _ ← guard_err (negb (bool_decide (take 2 hrp = bytes_of "ob"%string))) ErrPrefix;
  expectedPrefix ← getObdHrpPre net;
  _ ← guard_err (negb (bool_decide (take (length expectedPrefix) (drop 2 hrp) = expectedPrefix))) ErrNetwork;
  _ ← guard_err (length data <? signatureBase32Len)%nat ErrShort;
  let invoiceData := take (length data - signatureBase32Len) data in
  decodedInvoice ← parseData (empty_invoice <| Net := Some net |>) invoiceData net;
  decodedInvoice ← parse_hrp_amount decodedInvoice (drop (length expectedPrefix + 2) hrp);
  let sigBase32 := drop (length data - signatureBase32Len) data in
  sigBase256 ← of_convert (ConvertBits sigBase32 5 8 true);
  taggedDataBytes ← of_convert (ConvertBits invoiceData 5 8 true);
  decodedInvoice ← check_signature decodedInvoice sigBase256 (hrp ++ taggedDataBytes);
  let decodedInvoice := match pr_Features decodedInvoice with None => decodedInvoice <| pr_Features := Some ∅ |> | Some _ => decodedInvoice end in
  _ ← validateInvoice decodedInvoice;
  Ok decodedInvoice.
End Requests.
