(* ===== verification/Zpay32Theorems.v ===== *)
(** * Payment requests: what is written is what is read

    The round trip of [Encode] and [Decode], what [Decode] guarantees of an invoice it
    accepts, and the requests it can never accept or dies on. *)

From S2P Require Import Prelude Wire Messages Sha256 Sig Units Features Bech32 PayAmounts Zpay32.
From Stdlib Require Import SpecFloat.

(** ** Numbers *)
Definition push (v : Z) (b : byte) : Z := Z.lor (u64 (Z.shiftl v 5)) (val b).

Lemma lor_shift v w : 0 <= v -> 0 <= w < 32 -> Z.lor (Z.shiftl v 5) w = 32 * v + w.
Proof.
  intros Hv Hw. rewrite <- Z.lxor_lor, <- Z.add_nocarry_lxor.
  - rewrite Z.shiftl_mul_pow2 by lia. lia.
  - apply Z.bits_inj'. intros i Hi. rewrite Z.land_spec, Z.bits_0. destruct (Z.le_gt_cases 5 i).
    + rewrite <- (Z.mod_small w (2 ^ 5)) by lia. by rewrite Z.mod_pow2_bits_high, andb_false_r by lia.
    + by rewrite Z.shiftl_spec_low by lia.
  - apply Z.bits_inj'. intros i Hi. rewrite Z.land_spec, Z.bits_0. destruct (Z.le_gt_cases 5 i).
    + rewrite <- (Z.mod_small w (2 ^ 5)) by lia. by rewrite Z.mod_pow2_bits_high, andb_false_r by lia.
    + by rewrite Z.shiftl_spec_low by lia.
Qed.

Lemma push_eq v b : 0 <= v -> group b -> 32 * v + val b < 2 ^ 64 -> push v b = 32 * v + val b.
Proof.
  intros Hv Hb Hlt. unfold push, group in *. pose proof (byte.unsigned_range b).
  rewrite uwrap_id by (unfold is_uint; rewrite Z.shiftl_mul_pow2 by lia; lia). apply lor_shift; lia.
Qed.

Lemma val_low n : 0 <= n -> val (byte.of_Z (Z.land n 31)) = n mod 32.
Proof.
  intros Hn. change 31 with (Z.ones 5). rewrite Z.land_ones by lia. change (2 ^ 5) with 32. pose proof (Z.mod_pos_bound n 32 ltac:(lia)).
  apply val_group. lia.
Qed.

Lemma digits_fold fuel : forall n acc, 0 <= n < 32 ^ Z.of_nat fuel -> n < 2 ^ 64 -> foldl push 0 (base32_digits fuel n acc) = foldl push n acc.
Proof.
  induction fuel as [|fuel IH]; intros n acc Hn Hlt; [cbn in *; f_equal; lia|]. cbn [base32_digits]. destruct (Z.ltb_spec 0 n); [|f_equal; lia].
  rewrite Z.shiftr_div_pow2 by lia. change (2 ^ 5) with 32. rewrite Nat2Z.inj_succ, Z.pow_succ_r in Hn by lia.
  pose proof (Z.div_mod n 32 ltac:(lia)). pose proof (Z.mod_pos_bound n 32 ltac:(lia)). assert (Hq : 0 <= n / 32) by (apply Z.div_pos; lia).
  rewrite IH; [|split; [done|apply Z.div_lt_upper_bound; lia]|lia]. cbn [foldl]. f_equal.
  rewrite push_eq; [rewrite val_low by lia; lia|done|unfold group; rewrite val_low; lia|rewrite val_low; lia].
Qed.

Lemma digits_group fuel : forall n acc, 0 <= n -> Forall group acc -> Forall group (base32_digits fuel n acc) /\
  (length (base32_digits fuel n acc) <= fuel + length acc)%nat.
Proof.
  induction fuel as [|fuel IH]; intros n acc Hn Ha; [done|]. cbn [base32_digits]. destruct (0 <? n); [|split; [done|lia]].
  destruct (IH (Z.shiftr n 5) (byte.of_Z (Z.land n 31) :: acc)) as [Hg Hl]; [by apply Z.shiftr_nonneg| |split; [done|cbn in Hl; lia]].
  constructor; [|done]. unfold group. rewrite val_low by done. pose proof (Z.mod_pos_bound n 32 ltac:(lia)). lia.
Qed.

Lemma uint64_groups n : 0 <= n -> Forall group (uint64ToBase32 n) /\ (length (uint64ToBase32 n) <= 13)%nat.
Proof.
  intros Hn. unfold uint64ToBase32. destruct (n =? 0); [split; [by constructor|cbn; lia]|].
  destruct (digits_group 13 n [] Hn) as [Hg Hl]; [constructor|]. split; [done|exact Hl].
Qed.

Lemma zeros_fold k data : foldl push 0 (replicate k Byte.x00 ++ data) = foldl push 0 data.
Proof. induction k; [done|]. cbn. done. Qed.

Lemma uint64_fold k n : is_uint 64 n -> foldl push 0 (replicate k Byte.x00 ++ uint64ToBase32 n) = n.
Proof.
  intros Hn. unfold is_uint in Hn. rewrite zeros_fold. unfold uint64ToBase32. destruct (Z.eqb_spec n 0) as [->|]; [done|].
  rewrite digits_fold; [done| |lia]. change (32 ^ Z.of_nat 13) with (2 ^ 65). lia.
Qed.

Lemma digits_more fuel : forall n acc, (length acc <= length (base32_digits fuel n acc))%nat.
Proof.
  induction fuel as [|fuel IH]; intros n acc; [done|]. cbn [base32_digits]. destruct (0 <? n); [|done]. specialize (IH (Z.shiftr n 5) (byte.of_Z (Z.land n 31) :: acc)).
  cbn [length] in IH. lia.
Qed.

Lemma digits_step fuel n acc : 0 < n -> base32_digits (S fuel) n acc = base32_digits fuel (n / 32) (byte.of_Z (Z.land n 31) :: acc).
Proof. intros Hn. cbn [base32_digits]. by rewrite (proj2 (Z.ltb_lt 0 n) Hn), Z.shiftr_div_pow2 by lia. Qed.

(** Two groups hold numbers below 1024. *)
Lemma two_groups n : 0 <= n -> (length (uint64ToBase32 n) <= 2)%nat -> n < 1024.
Proof.
  intros Hn Hl. destruct (Z.lt_ge_cases n 1024); [done|]. exfalso. unfold uint64ToBase32 in Hl. rewrite (proj2 (Z.eqb_neq n 0)) in Hl by lia.
  assert (H1 : 32 <= n / 32) by (apply Z.div_le_lower_bound; lia). assert (H2 : 1 <= n / 32 / 32) by (apply Z.div_le_lower_bound; lia).
  change 13%nat with (S (S (S 10))) in Hl. rewrite !digits_step in Hl by lia.
  revert Hl. apply Nat.lt_nge. eapply Nat.lt_le_trans; [|apply digits_more]. cbn [length]. lia.
Qed.

(** A number reads back, with zero groups in front of it. *)
Lemma uint64_back k n : is_uint 64 n -> (k + length (uint64ToBase32 n) <= 13)%nat -> base32ToUint64 (replicate k Byte.x00 ++ uint64ToBase32 n) = Ok n.
Proof.
  intros Hn Hl. unfold base32ToUint64. rewrite length_app, length_replicate, (proj2 (Nat.ltb_ge _ _)) by lia. cbn [guard_err mbind res_mbind res_bind].
  f_equal. by apply uint64_fold.
Qed.

Lemma zeros_groups k : Forall group (replicate k Byte.x00).
Proof. induction k; by constructor. Qed.

(** ** Durations *)
Lemma iter_xO p n : Zpos (Pos.iter xO p n) = Zpos p * 2 ^ Zpos n /\ Zpos (digits2_pos (Pos.iter xO p n)) = Zpos (digits2_pos p) + Zpos n.
Proof.
  induction n as [|n [IH1 IH2]] using Pos.peano_ind; [cbn; lia|]. rewrite Pos.iter_succ. cbn [digits2_pos]. split.
  - rewrite Pos2Z.inj_xO, IH1, Pos2Z.inj_succ, Z.pow_succ_r by lia. lia.
  - rewrite Pos2Z.inj_succ, IH2. lia.
Qed.

Lemma digits_bound p : 2 ^ (Zpos (digits2_pos p) - 1) <= Zpos p.
Proof.
  induction p as [p IH|p IH|]; cbn [digits2_pos]; [| |done].
  all: rewrite Pos2Z.inj_succ; replace (Z.succ (Zpos (digits2_pos p)) - 1) with (Z.succ (Zpos (digits2_pos p) - 1)) by lia.
  all: rewrite Z.pow_succ_r by lia; lia.
Qed.

(** Integers below 2^53 are [float64]s. *)
Lemma float_exact n : 0 <= n < 2 ^ 53 -> exists f, float_of n = f /\ int_of f = n /\ (f = S754_zero false \/ exists m e, f = S754_finite false m e).
Proof.
  intros Hn. eexists. split; [done|]. destruct n as [|p|p]; [split; [done|by left]| |lia]. unfold float_of, binary_normalize, binary_round.
  pose proof (digits_bound p) as Hd. set (d := Zpos (digits2_pos p)) in *.
  assert (Hd53 : 1 <= d <= 53). { split; [unfold d; lia|]. apply Z.lt_succ_r. cbn. destruct (Z.lt_ge_cases d 54); [done|].
    assert (2 ^ 53 <= 2 ^ (d - 1)) by (apply Z.pow_le_mono_r; lia). lia. }
  assert (Hf : fexp 53 1024 (d + 0) = d - 53) by (unfold fexp, emin; lia). rewrite Hf.
  assert (Hal : exists q, shl_align p 0 (d - 53) = (q, d - 53) /\ Zpos q = Zpos p * 2 ^ (53 - d) /\ Zpos (digits2_pos q) = 53).
  { unfold shl_align. destruct (Z.eq_dec d 53) as [He|He].
    - rewrite He. exists p. cbn. split_and!; [done|lia|done].
    - destruct (d - 53 - 0) as [|k|k] eqn:Hk; [lia|lia|]. destruct (iter_xO p k) as [H1 H2]. exists (Pos.iter xO p k). split_and!; [f_equal; lia| |unfold d in *; lia].
      rewrite H1. do 2 f_equal. lia. }
  destruct Hal as (q & -> & Hq & Hdq). unfold binary_round_aux, shr_fexp. cbn [Zdigits2 shr_record_of_loc]. rewrite Hdq.
  assert (Hz : fexp 53 1024 (53 + (d - 53)) - (d - 53) = 0) by (unfold fexp, emin; lia). rewrite Hz. cbn [shr shr_m loc_of_shr_record round_nearest_even Zdigits2].
  rewrite Hdq, Hz. cbn [shr shr_m]. rewrite (proj2 (Z.leb_le (d - 53) _)) by lia. split; [|right; by eexists _, _]. cbn [int_of]. rewrite Hq.
  destruct (Z.leb_spec 0 (d - 53)).
  - replace d with 53 by lia. change (53 - 53) with 0. rewrite Z.shiftl_0_r. lia.
  - rewrite Z.shiftr_div_pow2 by lia. replace (- (d - 53)) with (53 - d) by lia. apply Z.div_mul. lia.
Qed.

(** Whole seconds survive the float. *)
Lemma seconds_exact k : 0 <= k < 2 ^ 53 -> int_of (Seconds (k * Second)) = k.
Proof.
  intros Hk. unfold Seconds. rewrite Z.quot_mul, Z.rem_mul by done. change (SFdiv 53 1024 (float_of 0) (float_of Second)) with (S754_zero false).
  destruct (float_exact k Hk) as (f & -> & Hi & [->|(m & e & ->)]); cbn; exact Hi.
Qed.

(** ** Fields *)
Section Fields.
Context `{PubKeyLaws} `{!PayReqLib} `{Bech32Laws} (net : Params).

(** What a field looks like. *)
Definition field (t : Z) (data : bytes) : bytes :=
  byte.of_Z t :: replicate (2 - length (uint64ToBase32 (Z.of_nat (length data)))) Byte.x00 ++ uint64ToBase32 (Z.of_nat (length data)) ++ data.

Lemma write_field t data buf : writeTaggedField t data buf =
  if (length (uint64ToBase32 (Z.of_nat (length data))) <=? 2)%nat then (Ok tt, buf ++ field t data) else (Err ErrFieldTooLong, buf).
Proof.
  unfold writeTaggedField, mbind, M_bind, check, put, modify. rewrite length_app, length_replicate.
  destruct (Nat.leb_spec (length (uint64ToBase32 (Z.of_nat (length data)))) 2).
  - rewrite (proj2 (Nat.eqb_eq _ 2)) by lia. cbn [negb]. unfold field. by rewrite <- !app_assoc.
  - rewrite (proj2 (Nat.eqb_neq _ 2)) by lia. done.
Qed.

(** Enough fuel is enough. *)
Lemma fields_fuel fuel : forall fuel' inv fields, (length fields <= fuel)%nat -> (length fields <= fuel')%nat ->
  parse_fields fuel inv fields net = parse_fields fuel' inv fields net.
Proof.
  induction fuel as [|fuel IH]; intros fuel' inv fields Hf Hf'; [destruct fields; [by destruct fuel'|cbn in Hf; lia]|].
  destruct fields as [|typ [|hi [|lo rest]]]; [by destruct fuel'|destruct fuel'; [cbn in Hf'; lia|done]..|].
  destruct fuel' as [|fuel']; [cbn in Hf'; lia|]. cbn [parse_fields]. apply res_bind_ext. intros len. apply res_bind_ext. intros _.
  apply res_bind_ext. intros inv'. cbn in Hf, Hf'. apply IH; rewrite length_drop; lia.
Qed.

Lemma fields_step fuel inv typ hi lo rest : parse_fields (S fuel) inv (typ :: hi :: lo :: rest) net =
  dataLength ← parseFieldDataLength [hi; lo];
  _ ← guard_err (Z.of_nat (length rest) <? dataLength) ErrInvalidFieldLength;
  inv ← parseTaggedField inv (val typ) (take (Z.to_nat dataLength) rest) net;
  parse_fields fuel inv (drop (Z.to_nat dataLength) rest) net.
Proof. done. Qed.

Lemma parse_field t data inv rest : 0 <= t < 256 -> (length (uint64ToBase32 (Z.of_nat (length data))) <= 2)%nat ->
  parseTaggedFields inv (field t data ++ rest) net = inv' ← parseTaggedField inv t data net; parseTaggedFields inv' rest net.
Proof.
  intros Ht Hl. pose proof (two_groups (Z.of_nat (length data)) ltac:(lia) Hl) as Hlt.
  assert (Hpair : exists hi lo, replicate (2 - length (uint64ToBase32 (Z.of_nat (length data)))) Byte.x00 ++ uint64ToBase32 (Z.of_nat (length data)) = [hi; lo] /\
    group hi /\ group lo /\ push (push 0 hi) lo = Z.of_nat (length data)).
  { destruct (uint64_groups (Z.of_nat (length data)) ltac:(lia)) as [Hg _].
    pose proof (uint64_fold (2 - length (uint64ToBase32 (Z.of_nat (length data)))) (Z.of_nat (length data)) ltac:(unfold is_uint; lia)) as Hfold.
    pose proof (proj2 (list.Forall_app _ _ _) (conj (zeros_groups (2 - length (uint64ToBase32 (Z.of_nat (length data))))) Hg)) as Hall.
    assert (Hlen : length (replicate (2 - length (uint64ToBase32 (Z.of_nat (length data)))) Byte.x00 ++ uint64ToBase32 (Z.of_nat (length data))) = 2%nat)
      by (rewrite length_app, length_replicate; lia).
    destruct (replicate _ Byte.x00 ++ uint64ToBase32 (Z.of_nat (length data))) as [|hi [|lo [|]]]; try done.
    rewrite !list.Forall_cons in Hall. destruct Hall as (Hhi & Hlo & _). by exists hi, lo. }
  destruct Hpair as (hi & lo & Hhl & Hhi & Hlo & Hv). unfold parseTaggedFields, field.
  assert (Happ : (byte.of_Z t :: replicate (2 - length (uint64ToBase32 (Z.of_nat (length data)))) Byte.x00 ++ uint64ToBase32 (Z.of_nat (length data)) ++ data) ++ rest =
    byte.of_Z t :: hi :: lo :: data ++ rest).
  { cbn [app]. f_equal. rewrite (app_assoc _ (uint64ToBase32 _) data), Hhl. done. }
  rewrite Happ. cbn [length]. rewrite fields_step. cbn [parseFieldDataLength].
  assert (Hlen : Z.lor (u16 (Z.shiftl (val hi) 5)) (val lo) = Z.of_nat (length data)).
  { rewrite <- Hv. unfold group in *. pose proof (byte.unsigned_range hi). pose proof (byte.unsigned_range lo).
    change (push 0 hi) with (val hi). rewrite push_eq by (unfold group; lia).
    rewrite uwrap_id by (unfold is_uint; rewrite Z.shiftl_mul_pow2 by lia; lia). rewrite lor_shift by lia. lia. }
  rewrite Hlen. cbn [mbind res_mbind res_bind]. rewrite (proj2 (Z.ltb_ge _ _)) by (rewrite length_app; lia). cbn [guard_err mbind res_mbind res_bind].
  rewrite Nat2Z.id, take_app_length, drop_app_length, val_group by lia. apply res_bind_ext. intros inv'. apply fields_fuel; [rewrite length_app; lia|done].
Qed.

Abbreviation Base32 := (M bytes payerr unit).

(** A writer carries [inv] to [inv']: whatever it wrote is groups, and reading them
    does to the invoice what was to be said. *)
Definition carries (w : Base32) (inv inv' : Invoice) : Prop := forall buf buf', w buf = (Ok tt, buf') ->
  exists out, buf' = buf ++ out /\ Forall group out /\
    forall rest, parseTaggedFields inv (out ++ rest) net = parseTaggedFields inv' rest net.

Lemma carries_nothing inv : carries (mret tt) inv inv.
Proof. intros buf buf' [= <-]. exists []. by rewrite app_nil_r. Qed.

Lemma carries_bind w w' inv1 inv2 inv3 : carries w inv1 inv2 -> carries w' inv2 inv3 -> carries (_ ← w; w') inv1 inv3.
Proof.
  intros Hw Hw' buf buf' Hr. apply M_bind_Ok in Hr as ([] & buf1 & Hr1 & Hr2). apply Hw in Hr1 as (out & -> & Hg & Hp). apply Hw' in Hr2 as (out' & -> & Hg' & Hp').
  exists (out ++ out'). split; [by rewrite app_assoc|]. split; [by apply list.Forall_app|]. intros rest. rewrite <- app_assoc. by rewrite Hp, Hp'.
Qed.

Lemma carries_read {A} (r : res payerr A) (k : A -> Base32) inv inv' : (forall a, r = Ok a -> carries (k a) inv inv') -> carries (a ← lift r; k a) inv inv'.
Proof. intros Hk buf buf' Hr. apply M_bind_Ok in Hr as (a & s & [= Ha <-] & Hka). by apply (Hk a). Qed.

Lemma carries_check b e w inv inv' : (b = false -> carries w inv inv') -> carries (_ ← check b e; w) inv inv'.
Proof. intros Hk buf buf' Hr. apply M_bind_Ok in Hr as (u & s & [Hb ->]%check_Ok & Hw). by apply Hk. Qed.

Lemma carries_field t data inv inv' : 0 <= t < 32 -> Forall group data -> parseTaggedField inv t data net = Ok inv' -> carries (writeTaggedField t data) inv inv'.
Proof.
  intros Ht Hg Hp buf buf'. rewrite write_field. destruct (Nat.leb_spec (length (uint64ToBase32 (Z.of_nat (length data)))) 2); [|done].
  intros [= <-]. exists (field t data). split; [done|]. split.
  - unfold field. constructor; [unfold group; rewrite val_group; lia|]. rewrite !list.Forall_app. split; [apply zeros_groups|]. split; [|done]. by apply uint64_groups; lia.
  - intros rest. rewrite parse_field by (lia || done). by rewrite Hp.
Qed.

(** *** The fields one by one *)
Lemma convert_back bs gs : of_convert (ConvertBits bs 8 5 true) = Ok gs ->
  Forall group gs /\ Z.of_nat (length gs) = (8 * Z.of_nat (length bs) + 4) / 5 /\ of_convert (ConvertBits gs 5 8 false) = Ok bs.
Proof. destruct (convert_groups bs) as (gs' & -> & Hg & Hl & Hb). intros [= <-]. by rewrite Hb. Qed.

Lemma carries_when {A} (o : option A) w inv inv' : (o = None -> inv' = inv) -> (forall a, o = Some a -> carries (w a) inv inv') -> carries (when_some o w) inv inv'.
Proof. intros Hn Hs. destruct o as [a|]; cbn; [by apply Hs|]. rewrite Hn by done. apply carries_nothing. Qed.

(** The field [t] is read by [read] if it was not seen. *)
Ltac parsed := unfold parseTaggedField, fieldTypeP, fieldTypeD, fieldTypeN, fieldTypeH, fieldTypeX, fieldTypeF, fieldTypeR, fieldTypeC, fieldType9, fieldTypeS,
  fieldTypeA, fieldTypeRefundable; cbn [Z.eqb Pos.eqb]; unfold first_only.
Ltac unset := intros ->; match goal with |- _ = ?inv => destruct inv; cbn in *; subst; done end.

Lemma copy_array_id n b : length b = n -> copy_array n b = b.
Proof. intros <-. unfold copy_array. by rewrite take_ge, Nat.sub_diag, app_nil_r. Qed.

Lemma read_bytes32 b gs : length b = 32%nat -> of_convert (ConvertBits b 8 5 true) = Ok gs -> Forall group gs /\ parse32Bytes gs = Ok (Some b).
Proof.
  intros Hl Hc. destruct (convert_back b gs Hc) as (Hg & Hlen & Hb). rewrite Hl in Hlen. change ((8 * Z.of_nat 32 + 4) / 5) with 52 in Hlen.
  split; [done|]. unfold parse32Bytes, hashBase32Len. rewrite (proj2 (Nat.eqb_eq _ 52)) by lia. cbn [negb]. rewrite Hb. cbn. by rewrite copy_array_id.
Qed.

Lemma read_number n : is_uint 64 n -> Forall group (uint64ToBase32 n) /\ base32ToUint64 (uint64ToBase32 n) = Ok n.
Proof.
  intros Hn. destruct (uint64_groups n) as [Hg Hl]; [apply Hn|]. split; [done|]. exact (uint64_back 0 n Hn Hl).
Qed.

Lemma carries_payment_hash h inv : pr_PaymentHash inv = None -> (forall b, h = Some b -> length b = 32%nat) ->
  carries (when_some h (writeBytes32 fieldTypeP)) inv (inv <| pr_PaymentHash := h |>).
Proof.
  intros Hn Hl. apply carries_when; [unset|]. intros b ->. apply carries_read. intros gs Hc. destruct (read_bytes32 b gs) as [Hg Hr]; [by apply Hl|done|].
  apply carries_field; [done|done|]. parsed. by rewrite Hn, Hr.
Qed.

Lemma carries_description_hash h inv : DescriptionHash inv = None -> (forall b, h = Some b -> length b = 32%nat) ->
  carries (when_some h (writeBytes32 fieldTypeH)) inv (inv <| DescriptionHash := h |>).
Proof.
  intros Hn Hl. apply carries_when; [unset|]. intros b ->. apply carries_read. intros gs Hc. destruct (read_bytes32 b gs) as [Hg Hr]; [by apply Hl|done|].
  apply carries_field; [done|done|]. parsed. by rewrite Hn, Hr.
Qed.

Lemma carries_payment_addr h inv : pr_PaymentAddr inv = None -> (forall b, h = Some b -> length b = 32%nat) ->
  carries (when_some h (writeBytes32 fieldTypeS)) inv (inv <| pr_PaymentAddr := h |>).
Proof.
  intros Hn Hl. apply carries_when; [unset|]. intros b ->. apply carries_read. intros gs Hc. destruct (read_bytes32 b gs) as [Hg Hr]; [by apply Hl|done|].
  apply carries_field; [done|done|]. parsed. by rewrite Hn, Hr.
Qed.

Lemma carries_description d inv : Description inv = None ->
  carries (when_some d (fun description => base32 ← lift (of_convert (ConvertBits description 8 5 true)); writeTaggedField fieldTypeD base32))
    inv (inv <| Description := d |>).
Proof.
  intros Hn. apply carries_when; [unset|]. intros b ->. apply carries_read. intros gs Hc. destruct (convert_back b gs Hc) as (Hg & _ & Hb).
  apply carries_field; [done|done|]. parsed. unfold parseDescription. by rewrite Hn, Hb.
Qed.

Lemma carries_cltv e inv : minFinalCLTVExpiry inv = None -> (forall n, e = Some n -> is_uint 64 n) ->
  carries (when_some e (fun e => writeTaggedField fieldTypeC (uint64ToBase32 e))) inv (inv <| minFinalCLTVExpiry := e |>).
Proof.
  intros Hn Hr. apply carries_when; [unset|]. intros n ->. destruct (read_number n) as [Hg Hb]; [by apply Hr|].
  apply carries_field; [done|done|]. parsed. unfold parseMinFinalCLTVExpiry. by rewrite Hn, Hb.
Qed.

(** A duration of whole seconds that a [Duration] holds. *)
Definition whole_seconds (d : Z) : Prop := d mod Second = 0 /\ 0 <= d < 2 ^ 63.

Lemma carries_expiry e inv : expiry inv = None -> (forall d, e = Some d -> whole_seconds d) ->
  carries (when_some e (fun e => writeTaggedField fieldTypeX (uint64ToBase32 (u64 (int_of (Seconds e)))))) inv (inv <| expiry := e |>).
Proof.
  intros Hn Hr. apply carries_when; [unset|]. intros d ->. destruct (Hr d eq_refl) as [Hm Hd]. apply Z.mod_divide in Hm as [k ->]; [|done].
  unfold Second in Hd. rewrite seconds_exact by lia. rewrite uwrap_id by (unfold is_uint; lia).
  destruct (read_number k) as [Hg Hb]; [unfold is_uint; lia|]. apply carries_field; [done|done|]. parsed. unfold parseExpiry. rewrite Hn, Hb. cbn [mbind res_mbind res_bind].
  by rewrite (swrap_id 64 k), swrap_id by (unfold is_sint, Second; lia).
Qed.

Lemma carries_asset a inv : pr_AssetId inv = None -> (forall n, a = Some n -> is_uint 32 n) ->
  carries (when_some a (fun a => writeTaggedField fieldTypeA (uint64ToBase32 a))) inv (inv <| pr_AssetId := a |>).
Proof.
  intros Hn Hr. apply carries_when; [unset|]. intros n ->. specialize (Hr n eq_refl). destruct (read_number n) as [Hg Hb]; [unfold is_uint in *; lia|].
  apply carries_field; [done|done|]. parsed. unfold parseAssetId. rewrite Hn, Hb. cbn [mbind res_mbind res_bind]. by rewrite uwrap_id.
Qed.

(** An address of the network, as its constructor makes it. *)
Definition addr_ok (addr : Address) : Prop :=
  match addr_kind addr with
  | AddressPubKeyHash => length (ScriptAddress addr) = 20%nat /\ NewAddressPubKeyHash (ScriptAddress addr) net = Some addr
  | AddressScriptHash => length (ScriptAddress addr) = 20%nat /\ NewAddressScriptHashFromHash (ScriptAddress addr) net = Some addr
  | AddressWitnessPubKeyHash => WitnessVersion addr = Byte.x00 /\ length (ScriptAddress addr) = 20%nat /\ NewAddressWitnessPubKeyHash (ScriptAddress addr) net = Some addr
  | AddressWitnessScriptHash => WitnessVersion addr = Byte.x00 /\ length (ScriptAddress addr) = 32%nat /\ NewAddressWitnessScriptHash (ScriptAddress addr) net = Some addr
  | AddressOther => True
  end.

Lemma read_fallback addr version gs : addr_ok addr -> fallback_version addr = Ok version -> of_convert (ConvertBits (ScriptAddress addr) 8 5 true) = Ok gs ->
  Forall group (version :: gs) /\ parseFallbackAddr (version :: gs) net = Ok (Some addr).
Proof.
  intros Ha Hv Hc. destruct (convert_back _ gs Hc) as (Hg & Hl & Hb).
  assert (Hgs : (1 <= length (ScriptAddress addr))%nat -> (length (version :: gs) <? 2)%nat = false).
  { intros H1'. apply Nat.ltb_ge. cbn. assert (1 <= (8 * Z.of_nat (length (ScriptAddress addr)) + 4) / 5) by (apply Z.div_le_lower_bound; lia). lia. }
  unfold parseFallbackAddr. unfold addr_ok, fallback_version in *. destruct (addr_kind addr); try done; injection Hv as <-.
  - destruct Ha as [Hlen Hnew]. rewrite Hgs by lia. split; [by constructor|]. cbn. rewrite Hb. cbn. by rewrite Hnew.
  - destruct Ha as [Hlen Hnew]. rewrite Hgs by lia. split; [by constructor|]. cbn. rewrite Hb. cbn. by rewrite Hnew.
  - destruct Ha as (Hv0 & Hlen & Hnew). rewrite Hgs, Hv0 by lia. split; [by constructor|]. cbn -[Nat.eqb]. rewrite Hb. cbn -[Nat.eqb]. by rewrite Hlen, Hnew.
  - destruct Ha as (Hv0 & Hlen & Hnew). rewrite Hgs, Hv0 by lia. split; [by constructor|]. cbn -[Nat.eqb]. rewrite Hb. cbn -[Nat.eqb]. by rewrite Hlen, Hnew.
Qed.

Lemma carries_fallback a inv : FallbackAddr inv = None -> (forall addr, a = Some addr -> addr_ok addr) ->
  carries (when_some a (fun addr =>
    version ← lift (fallback_version addr);
    base32Addr ← lift (of_convert (ConvertBits (ScriptAddress addr) 8 5 true));
    writeTaggedField fieldTypeF (version :: base32Addr))) inv (inv <| FallbackAddr := a |>).
Proof.
  intros Hn Hok. apply carries_when; [unset|]. intros addr ->. apply carries_read. intros version Hv. apply carries_read. intros gs Hc.
  destruct (read_fallback addr version gs (Hok addr eq_refl) Hv Hc) as [Hg Hr]. apply carries_field; [done|done|]. parsed. by rewrite Hn, Hr.
Qed.

Lemma carries_destination d inv : Destination inv = None ->
  carries (when_some d (fun destination =>
    pubKeyBase32 ← lift (of_convert (ConvertBits (SerializeCompressed destination) 8 5 true));
    _ ← check (negb (length pubKeyBase32 =? pubKeyBase32Len)%nat) ErrPubKeyLength;
    writeTaggedField fieldTypeN pubKeyBase32)) inv (inv <| Destination := d |>).
Proof.
  intros Hn. apply carries_when; [unset|]. intros key ->. apply carries_read. intros gs Hc. apply carries_check. intros Hl.
  destruct (convert_back _ gs Hc) as (Hg & _ & Hb). apply carries_field; [done|done|]. parsed. unfold parseDestination, parse_key.
  rewrite Hn, Hl, Hb. cbn [mbind res_mbind res_bind]. by rewrite pubkey_parse.
Qed.

Definition refundable_read (r : option bool) : option bool := match r with Some true => Some true | _ => None end.

Lemma carries_refundable r inv : Refundable inv = None ->
  carries (when_some r (fun r : bool => if r then writeTaggedField fieldTypeRefundable [Byte.x01] else mret tt)) inv (inv <| Refundable := refundable_read r |>).
Proof.
  intros Hn. assert (Hsame : inv <| Refundable := None |> = inv) by (destruct inv; cbn in *; by subst).
  destruct r as [[|]|]; cbn [when_some refundable_read]; [|rewrite Hsame; apply carries_nothing..].
  apply carries_field; [done|by constructor|]. parsed. by rewrite Hn.
Qed.

Definition features_read (f : option RawFeatureVector) : option RawFeatureVector :=
  match f with Some fv => if decide (fv = ∅) then None else Some fv | None => None end.

Lemma carries_features range f inv : (forall s, range s ≡ₚ elements s) -> pr_Features inv = None -> (forall fv, f = Some fv -> forall b, b ∈ fv -> 0 <= b < 2 ^ 16) ->
  carries (match f with
    | None => panic
    | Some fv => if 0 <? serializeSize fv 5 then b ← lift (features_base32 range fv); writeTaggedField fieldType9 b else mret tt
    end) inv (inv <| pr_Features := features_read f |>).
Proof.
  intros Hp Hn Hok. destruct f as [fv|]; [|intros buf buf'; done]. specialize (Hok fv eq_refl). cbn [features_read].
  destruct (serializeSize_spec range Hp 5 ltac:(lia) fv) as (Hs0 & Hs & Hs'); [intros b Hb; by apply Hok|]. destruct (Z.ltb_spec 0 (serializeSize fv 5)) as [Hlt|Hge].
  - rewrite decide_False by (intros ->; change (serializeSize ∅ 5) with 0 in Hlt; lia).
    destruct (packed range Hp 5 ltac:(lia) fv Hok) as (data & Hlen & Henc & Hg & _ & Hdec). apply carries_read. intros b Hb.
    unfold features_base32, EncodeBase32 in Hb. rewrite Henc in Hb. injection Hb as <-. apply carries_field; [done|done|]. parsed. unfold parseFeatures, DecodeBase32.
    rewrite Hn. specialize (Hdec []). rewrite app_nil_r in Hdec. by rewrite Hdec.
  - destruct Hs' as [[-> _]|(b & Hb & Heq)].
    + rewrite decide_True by done. assert (Hsame : inv <| pr_Features := None |> = inv) by (destruct inv; cbn in *; by subst). rewrite Hsame. apply carries_nothing.
    + specialize (Hok b Hb). assert (0 <= b / 5) by (apply Z.div_pos; lia). lia.
Qed.

(** *** Route hints *)
Record hop_ok (h : HopHint) : Prop := {
  hop_chan : is_uint 64 (hh_ChannelID h);
  hop_base : is_uint 32 (FeeBaseMSat h);
  hop_rate : is_uint 32 (FeeProportionalMillionths h);
  hop_cltv : is_uint 16 (CLTVExpiryDelta h)
}.

Lemma hop_bytes_length h : length (hop_hint_bytes h) = 51%nat.
Proof. unfold hop_hint_bytes. by rewrite !length_app, copy_array_id, pubkey_length, !length_be_put by apply pubkey_length. Qed.

Lemma hops_length hints : length (concat (hop_hint_bytes <$> hints)) = (51 * length hints)%nat.
Proof. induction hints as [|h hints IH]; [done|]. rewrite fmap_cons. cbn [concat length]. rewrite length_app, hop_bytes_length, IH. lia. Qed.

Lemma slice_at (a b c : bytes) n k : length a = n -> length b = k -> take k (drop n (a ++ b ++ c)) = b.
Proof. intros <- <-. by rewrite drop_app_length, take_app_length. Qed.

Lemma parse_hop h rest fuel : hop_ok h -> parse_hop_hints (S fuel) (hop_hint_bytes h ++ rest) = hints ← parse_hop_hints fuel rest; Ok (h :: hints).
Proof.
  intros [Hc Hb Hr Hd]. pose proof (hop_bytes_length h) as Hlen. unfold parse_hop_hints at 1. fold parse_hop_hints.
  destruct (hop_hint_bytes h ++ rest) as [|x l] eqn:He; [by destruct (hop_hint_bytes h)|]. rewrite <- He. clear He x l.
  unfold hopHintLen. rewrite (drop_app_length' _ _ 51) by done. unfold hop_hint_bytes. rewrite copy_array_id by apply pubkey_length. rewrite <- !app_assoc.
  pose proof (pubkey_length (NodeID h)) as Hk. rewrite (take_app_length' _ _ 33) by done. unfold parse_key. rewrite pubkey_parse. cbn [mbind res_mbind res_bind].
  rewrite (slice_at _ (be_put 8 _) _ 33 8) by (done || apply length_be_put).
  rewrite (app_assoc _ (be_put 8 _)), (slice_at _ (be_put 4 _) _ 41 4) by (rewrite ?length_app, ?Hk, ?length_be_put; done).
  rewrite (app_assoc _ (be_put 4 _)), (slice_at _ (be_put 4 _) _ 45 4) by (rewrite ?length_app, ?Hk, ?length_be_put; done).
  rewrite (app_assoc _ (be_put 4 _)), (slice_at _ (be_put 2 _) _ 49 2) by (rewrite ?length_app, ?Hk, ?length_be_put; done).
  rewrite !be_get_put_id by done. by destruct h.
Qed.

Lemma parse_hops hints : forall fuel, (length hints <= fuel)%nat -> Forall hop_ok hints -> parse_hop_hints fuel (concat (hop_hint_bytes <$> hints)) = Ok hints.
Proof.
  induction hints as [|h hints IH]; intros fuel Hf Hh; [by destruct fuel|]. destruct fuel as [|fuel]; [cbn in Hf; lia|]. inversion Hh; subst.
  rewrite fmap_cons. cbn [concat]. rewrite parse_hop by done. rewrite IH; [done|cbn in Hf; lia|done].
Qed.

Lemma carries_route_hint hint inv : Forall hop_ok hint -> carries (writeRouteHint hint) inv (inv <| RouteHints ::= (fun hints => hints ++ [hint]) |>).
Proof.
  intros Hh. apply carries_read. intros gs Hc. destruct (convert_back _ gs Hc) as (Hg & _ & Hb). apply carries_field; [done|done|]. parsed.
  unfold parseRouteHint, hopHintLen. rewrite Hb. cbn [mbind res_mbind res_bind]. rewrite hops_length. rewrite Nat.mul_comm, Nat.Div0.mod_mul. cbn [Nat.eqb negb guard_err mbind res_mbind res_bind].
  by rewrite parse_hops by (lia || done).
Qed.

Lemma carries_route_hints hints : forall inv, Forall (Forall hop_ok) hints -> carries (writeRouteHints hints) inv (inv <| RouteHints ::= (fun hs => hs ++ hints) |>).
Proof.
  induction hints as [|hint hints IH]; intros inv Hh; cbn [writeRouteHints].
  - assert (Hsame : inv <| RouteHints ::= (fun hs => hs ++ []) |> = inv) by (destruct inv; cbv [upd eta Invoice_eta]; cbn; by rewrite app_nil_r). rewrite Hsame. apply carries_nothing.
  - inversion Hh; subst. eapply carries_bind; [by apply carries_route_hint|].
    assert (Hsame : inv <| RouteHints ::= (fun hs => hs ++ hint :: hints) |> = inv <| RouteHints ::= (fun hs => hs ++ [hint]) |> <| RouteHints ::= (fun hs => hs ++ hints) |>).
    { destruct inv; cbv [upd eta Invoice_eta]; cbn. by rewrite <- app_assoc. }
    rewrite Hsame. by apply IH.
Qed.

(** *** All fields *)
Record fields_ok (invoice : Invoice) : Prop := {
  fo_hash : forall b, pr_PaymentHash invoice = Some b -> length b = 32%nat;
  fo_dhash : forall b, DescriptionHash invoice = Some b -> length b = 32%nat;
  fo_addr : forall b, pr_PaymentAddr invoice = Some b -> length b = 32%nat;
  fo_cltv : forall n, minFinalCLTVExpiry invoice = Some n -> is_uint 64 n;
  fo_expiry : forall d, expiry invoice = Some d -> whole_seconds d;
  fo_asset : forall n, pr_AssetId invoice = Some n -> is_uint 32 n;
  fo_fallback : forall addr, FallbackAddr invoice = Some addr -> addr_ok addr;
  fo_hints : Forall (Forall hop_ok) (RouteHints invoice);
  fo_features : forall fv, pr_Features invoice = Some fv -> forall b, b ∈ fv -> 0 <= b < 2 ^ 16;
  fo_time : is_sint 64 (Unix (Timestamp invoice))
}.

(** What the fields of an invoice are read as. *)
Definition read_fields (invoice : Invoice) : Invoice :=
  mkInvoice (Some net) None (pr_AssetId invoice) (mkTime (Unix (Timestamp invoice)) 0) (pr_PaymentHash invoice) (pr_PaymentAddr invoice) (Destination invoice)
    (minFinalCLTVExpiry invoice) (Description invoice) (DescriptionHash invoice) (expiry invoice) (FallbackAddr invoice) (RouteHints invoice)
    (features_read (pr_Features invoice)) (refundable_read (Refundable invoice)).

Lemma carries_fields range invoice : (forall s, range s ≡ₚ elements s) -> fields_ok invoice ->
  carries (writeTaggedFields range invoice) (empty_invoice <| Net := Some net |> <| Timestamp := mkTime (Unix (Timestamp invoice)) 0 |>) (read_fields invoice).
Proof.
  intros Hp [H1' H2' H3' H4' H5' H6' H7' H8' H9' _]. unfold writeTaggedFields.
  eapply carries_bind; [by apply carries_payment_hash|]. eapply carries_bind; [by apply carries_description|].
  eapply carries_bind; [by apply carries_description_hash|]. eapply carries_bind; [by apply carries_cltv|].
  eapply carries_bind; [by apply carries_expiry|]. eapply carries_bind; [by apply carries_asset|].
  eapply carries_bind; [by apply carries_fallback|]. eapply carries_bind; [by apply carries_route_hints|].
  eapply carries_bind; [by apply carries_destination|]. eapply carries_bind; [by apply carries_refundable|].
  eapply carries_bind; [by apply carries_payment_addr|]. apply (carries_features range (pr_Features invoice)); [exact Hp|done|exact H9'].
Qed.

Lemma read_timestamp n : 0 <= n < 2 ^ 64 -> (length (uint64ToBase32 n) <= 7)%nat ->
  parseTimestamp (replicate (7 - length (uint64ToBase32 n)) Byte.x00 ++ uint64ToBase32 n) = Ok n.
Proof.
  intros Hn Hl. unfold parseTimestamp, timestampBase32Len. rewrite length_app, length_replicate, (proj2 (Nat.eqb_eq _ 7)) by lia.
  cbn [negb guard_err mbind res_mbind res_bind]. apply uint64_back; [exact Hn|lia].
Qed.

Lemma long_digits n : 2 ^ 63 <= n -> (7 < length (uint64ToBase32 n))%nat.
Proof.
  intros Hn. unfold uint64ToBase32. rewrite (proj2 (Z.eqb_neq n 0)) by lia. change 13%nat with (8 + 5)%nat.
  assert (Hs : forall k m acc, 0 < m / 32 ^ Z.of_nat k -> (S k + length acc <= length (base32_digits (S k + 5) m acc))%nat).
  { induction k as [|k IH]; intros m acc Hm.
    - change (32 ^ Z.of_nat 0) with 1 in Hm. rewrite Z.div_1_r in Hm. change (1 + 5)%nat with 6%nat. rewrite digits_step by done. etrans; [|apply digits_more]. done.
    - rewrite Nat2Z.inj_succ, Z.pow_succ_r, <- Z.div_div in Hm by lia. specialize (IH (m / 32) (byte.of_Z (Z.land m 31) :: acc) Hm).
      assert (Hm0 : 0 < m). { destruct (Z.lt_ge_cases 0 m); [done|]. assert (m / 32 <= 0) by (apply Z.div_le_upper_bound; lia).
        assert (m / 32 / 32 ^ Z.of_nat k <= 0) by (apply Z.div_le_upper_bound; [lia|]; nia). lia. }
      change (S (S k) + 5)%nat with (S (S k + 5)). rewrite digits_step by done. cbn [length] in IH. lia. }
  specialize (Hs 7%nat n []). cbn [length] in Hs. rewrite Nat.add_0_r in Hs. apply Hs. apply Z.div_str_pos. change (32 ^ Z.of_nat 7) with (2 ^ 35). lia.
Qed.

Lemma data_back range invoice buf : (forall s, range s ≡ₚ elements s) -> fields_ok invoice -> encode_data range invoice [] = (Ok tt, buf) ->
  Forall group buf /\ parseData (empty_invoice <| Net := Some net |>) buf net = Ok (read_fields invoice).
Proof.
  intros Hp Hok He. unfold encode_data, timestampBase32Len in He. set (t := Unix (Timestamp invoice)) in *.
  apply M_bind_Ok in He as ([] & s1 & [Ht ->]%check_Ok & He). apply M_bind_Ok in He as ([] & s2 & [= <-] & He). apply M_bind_Ok in He as ([] & s3 & [= <-] & He).
  apply Nat.ltb_ge in Ht. cbn [app] in He. pose proof (fo_time _ Hok) as Htime. fold t in Htime. unfold is_sint in Htime.
  assert (Ht0 : 0 <= t).
  { destruct (Z.lt_ge_cases t 0); [|done]. exfalso. assert (Hw : u64 t = t + 2 ^ 64) by (unfold uwrap; rewrite <- (Z.mod_add t 1) by lia; apply Z.mod_small; lia).
    rewrite Hw in Ht. pose proof (long_digits (t + 2 ^ 64) ltac:(lia)). lia. }
  rewrite uwrap_id in * by (unfold is_uint; lia).
  pose proof (read_timestamp t ltac:(lia) Ht) as Hr. destruct (uint64_groups t Ht0) as [Hgt _].
  set (head := replicate (7 - length (uint64ToBase32 t)) Byte.x00 ++ uint64ToBase32 t) in *.
  assert (Hlen : length head = 7%nat) by (unfold head; rewrite length_app, length_replicate; lia).
  assert (Hgh : Forall group head) by (apply list.Forall_app; split; [apply zeros_groups|done]).
  destruct (carries_fields range invoice Hp Hok _ _ He) as (out & -> & Hg & Hparse). split; [by apply list.Forall_app|].
  unfold parseData, timestampBase32Len. rewrite length_app, (proj2 (Nat.ltb_ge _ _)) by lia. cbn [guard_err mbind res_mbind res_bind].
  rewrite (take_app_length' _ _ 7), (drop_app_length' _ _ 7) by done. rewrite Hr. cbn [mbind res_mbind res_bind]. rewrite (swrap_id 64 t) by (unfold is_sint; lia).
  specialize (Hparse []). rewrite app_nil_r in Hparse. exact Hparse.
Qed.

(** ** The human-readable part *)
Lemma Split_none s c : c ∉ s -> Split s c = [s].
Proof.
  induction s as [|b s IH]; intros Hn; [done|]. apply not_elem_of_cons in Hn as [Hb Hn]. cbn [Split]. rewrite IH by done. by rewrite decide_False.
Qed.

Lemma Split_at a b c : c ∉ a -> c ∉ b -> Split (a ++ c :: b) c = [a; b].
Proof.
  intros Ha Hb. induction a as [|x a IH].
  - cbn [app Split]. rewrite Split_none by done. by rewrite decide_True.
  - apply not_elem_of_cons in Ha as [Hx Ha]. cbn [app Split]. rewrite IH by done. by rewrite decide_False.
Qed.

Lemma FormatInt_uint n : 0 <= n -> FormatInt n = FormatUint n.
Proof. intros Hn. unfold FormatInt. by rewrite (proj2 (Z.ltb_ge _ _)) by lia. Qed.

Lemma Atoi_format n : 0 <= n < 2 ^ 63 -> Atoi_value (FormatUint n) = n.
Proof.
  intros Hn. destruct (FormatUint_digits n) as [Hne Hd]. pose proof (parse_FormatUint n ltac:(unfold is_uint; lia)) as Hp. unfold Atoi_value.
  destruct (FormatUint n) as [|c s]; [done|]. inversion Hd; subst. rewrite (proj2 (Z.eqb_neq (val c) 45)), (proj2 (Z.eqb_neq (val c) 43)) by lia.
  rewrite Hp. lia.
Qed.

Lemma amount_char_ok c : amount_char c -> 33 <= val c <= 126 /\ lower_byte c = c /\ c <> colon.
Proof.
  intros Hc. assert (Hr : 33 <= val c <= 126 /\ ~ (65 <= val c <= 90) /\ val c <> 58).
  { destruct Hc as [Hc|Hc]; [lia|]. rewrite !elem_of_cons, elem_of_nil in Hc. destruct Hc as [->|[->|[->|[->|[]]]]]; vm_compute; naive_solver. }
  destruct Hr as (Hr & Hu & Hcol). split; [done|]. split; [|by intros ->].
  unfold lower_byte. destruct ((65 <=? val c) && (val c <=? 90)) eqn:Hb; [|done]. apply andb_true_iff in Hb as [Hb1%Z.leb_le Hb2%Z.leb_le]. lia.
Qed.

Lemma amount_chars_ok s : Forall amount_char s -> Forall (fun b => 33 <= val b <= 126 /\ lower_byte b = b) s /\ colon ∉ s.
Proof.
  intros Hs. split; [revert Hs; apply Forall_impl; intros c Hc; by destruct (amount_char_ok c Hc) as (? & ? & _)|].
  intros Hin. rewrite list.Forall_forall in Hs. by destruct (amount_char_ok _ (Hs _ Hin)) as (_ & _ & ?).
Qed.

(** The prefixes of the networks. *)
Lemma prefix_ok pre : getObdHrpPre net = Ok pre -> Forall (fun b => 33 <= val b <= 126 /\ lower_byte b = b) (bytes_of "ob"%string ++ pre) /\ pre <> [].
Proof.
  unfold getObdHrpPre. repeat case_bool_decide; intros [= <-]; (split; [apply (bool_decide_unpack _); vm_compute; exact I|done]).
Qed.

(** What [Encode] puts in front of the separator, and how [Decode] takes it apart. *)
Lemma hrp_shape units invoice hrp : encode_hrp units invoice net = Ok hrp -> exists pre aid am, getObdHrpPre net = Ok pre /\ pr_AssetId invoice = Some aid /\
  hrp = bytes_of "ob"%string ++ pre ++ FormatInt aid ++ [colon] ++ am /\
  (match MilliSat invoice with None => am = [] | Some amt => encodeAmt units amt aid = Ok am end).
Proof.
  unfold encode_hrp. intros He. apply res_bind_Ok in He as (pre & Hpre & He). destruct (pr_AssetId invoice) as [aid|]; [|done].
  destruct (MilliSat invoice) as [amt|].
  - apply res_bind_Ok in He as (am & Ham & [= <-]). exists pre, aid, am. split_and!; [done|done| |by unfold of_amount in Ham; destruct (encodeAmt units amt aid); try done; injection Ham as <-].
    by rewrite <- !app_assoc.
  - injection He as <-. exists pre, aid, []. split_and!; done.
Qed.

Lemma hrp_good pre aid am : getObdHrpPre net = Ok pre -> is_uint 32 aid -> Forall amount_char am ->
  let hrp := bytes_of "ob"%string ++ pre ++ FormatInt aid ++ [colon] ++ am in
  hrp_ok hrp /\ (length hrp <? 3)%nat = false /\ take 2 hrp = bytes_of "ob"%string.
Proof.
  intros Hpre Haid Ham hrp. destruct (prefix_ok pre Hpre) as [Hgood Hne]. unfold is_uint in Haid. split_and!.
  - split; [done|]. unfold hrp. rewrite app_assoc, list.Forall_app. split; [done|]. rewrite FormatInt_uint, !list.Forall_app by lia.
    split; [by apply amount_chars_ok, FormatUint_chars|]. split; [|by apply amount_chars_ok]. apply (bool_decide_unpack _). vm_compute. exact I.
  - apply Nat.ltb_ge. unfold hrp. rewrite !length_app. destruct pre; [done|cbn; lia].
  - done.
Qed.

Lemma hrp_amount invoice asset aid amt am : pr_AssetId invoice = Some aid -> Atoi_value asset = aid -> colon ∉ asset -> Forall amount_char am -> decodeAmt am aid = Ok amt ->
  parse_hrp_amount invoice (asset ++ colon :: am) = Ok (invoice <| MilliSat := Some amt |>).
Proof.
  intros Ha Haid Hcol Ham Hd. unfold parse_hrp_amount. rewrite length_app. cbn [length].
  rewrite (proj2 (Nat.ltb_lt 0 _)) by lia. destruct (amount_chars_ok am Ham) as [_ Hc2]. rewrite Split_at by done.
  cbn [lookup list_lookup default]. unfold default. rewrite Ha. cbn [id]. rewrite Haid, Z.eqb_refl. cbn [negb guard_err mbind res_mbind res_bind].
  by rewrite Hd.
Qed.

Lemma asset_text aid : is_uint 32 aid -> Atoi_value (FormatInt aid) = aid /\ colon ∉ FormatInt aid.
Proof.
  intros Haid. unfold is_uint in Haid. rewrite FormatInt_uint by lia. split; [apply Atoi_format; lia|]. by destruct (amount_chars_ok _ (FormatUint_chars aid)).
Qed.
End Fields.

(** ** Whole requests *)
Section Requests.
Context `{PubKeyLaws} `{!PayReqLib} `{Bech32Laws}.
Context (units : gmap byte conversion -> list (byte * conversion)) (units_perm : forall m, units m ≡ₚ map_to_list m).
Context (range : RawFeatureVector -> list FeatureBit) (range_perm : forall s, range s ≡ₚ elements s).

(** What is left of [Decode] after the bech32 text and the tagged fields. *)
Definition finish (invoice : Invoice) (rest sigBase256 toSign : bytes) : res payerr Invoice :=
  invoice ← parse_hrp_amount invoice rest;
  invoice ← check_signature invoice sigBase256 toSign;
  let invoice := match pr_Features invoice with None => invoice <| pr_Features := Some ∅ |> | Some _ => invoice end in
  _ ← validateInvoice invoice;
  Ok invoice.

(** A compact signature of 65 bytes recovers to the key that made it. *)
Definition signs (SignCompact : bytes -> option bytes) (key : PublicKey) : Prop :=
  forall m sign, SignCompact m = Some sign -> length sign = 65%nat /\ RecoverCompact sign (Sum256 m) = Some key.

Definition amount_ok (invoice : Invoice) : Prop := match MilliSat invoice with Some amt => 0 <= amt /\ amt * 10 < 2 ^ 64 | None => True end.

Lemma of_convert_Ok r b : of_convert r = Ok b -> r = Some b.
Proof. destruct r; [by intros [= ->]|done]. Qed.

(** The text that was written is taken apart again. *)
Lemma decode_text hrp pre buf sg b32 net sigBase32 : getObdHrpPre net = Ok pre -> hrp_ok hrp -> (length hrp <? 3)%nat = false -> take 2 hrp = bytes_of "ob"%string ->
  take (length pre) (drop 2 hrp) = pre -> Forall group buf -> length sg = 65%nat -> of_convert (ConvertBits sg 8 5 true) = Ok sigBase32 ->
  of_bech32 (bech32_Encode hrp (buf ++ sigBase32)) = Ok b32 -> (maxInvoiceLength <? length b32)%nat = false ->
  exists tagged, of_convert (ConvertBits buf 5 8 true) = Ok tagged /\
  Decode b32 net = invoice ← parseData (empty_invoice <| Net := Some net |>) buf net; finish invoice (drop (length pre + 2) hrp) sg (hrp ++ tagged).
Proof.
  intros Hpre Hok Hh3 Hob Hpp Hg Hsg Hcs He Hlen. destruct (convert_back _ _ Hcs) as (Hgs & Hls & _). rewrite Hsg in Hls. change ((8 * Z.of_nat 65 + 4) / 5) with 104 in Hls.
  destruct (encode_decodes hrp (buf ++ sigBase32) Hok) as (chars & Henc & Hdec & _); [by apply list.Forall_app|]. rewrite Henc in He. cbn [of_bech32] in He.
  assert (Hb : b32 = hrp ++ [byte.of_Z 49] ++ chars) by congruence.
  destruct (convert_total buf Hg) as [tagged Ht]. exists tagged. rewrite Ht. split; [done|]. unfold Decode. rewrite Hlen, Hb, Hdec. cbn [guard_err of_bech32 mbind res_mbind res_bind].
  rewrite Hh3, bool_decide_true by done. cbn [negb guard_err mbind res_mbind res_bind]. rewrite Hpre. cbn [mbind res_mbind res_bind]. rewrite bool_decide_true by done.
  unfold signatureBase32Len. rewrite length_app, (proj2 (Nat.ltb_ge _ _)) by lia. cbn [negb guard_err mbind res_mbind res_bind].
  replace (length buf + length sigBase32 - 104)%nat with (length buf) by lia. rewrite take_app_length, drop_app_length.
  apply of_convert_Ok in Hcs. rewrite (convert_full _ _ Hcs) by (by rewrite Hsg). rewrite Ht. apply res_bind_ext. intros inv. unfold finish. apply res_bind_ext. intros inv1. done.
Qed.

Lemma split_sign sign rec sig : split_signature sign = Ok (rec, sig) -> length sign = 65%nat ->
  length (sig ++ [rec]) = 65%nat /\ byte.of_Z (u8 (val rec + 27 + 4)) :: sig = sign /\ length sig = 64%nat.
Proof.
  destruct sign as [|header rest]; [done|]. cbn [split_signature length]. intros [= <- <-] Hl. injection Hl as Hl. rewrite copy_array_id by done. rewrite length_app, Hl.
  split_and!; [done| |done]. f_equal. pose proof (byte.unsigned_range header).
  assert (Hv : val (byte.of_Z (u8 (val header - 27 - 4))) = u8 (val header - 27 - 4)) by (apply val_group, (uwrap_range 8); lia).
  rewrite Hv. assert (Hu : u8 (u8 (val header - 27 - 4) + 27 + 4) = val header).
  { unfold uwrap. rewrite <- Z.add_assoc, Zplus_mod_idemp_l. rewrite Z.mod_small; lia. }
  rewrite Hu. apply byte.of_Z_unsigned.
Qed.

(** The check of [Encode] on the node it was given. *)
Definition names_signer (destination : option PublicKey) (sig toSign : bytes) : res payerr unit :=
  match destination with
  | None => Ok tt
  | Some destination => signature ← ToSignature sig; guard_err (negb (Verify signature (Sum256 toSign) destination)) ErrSigMismatch
  end.

Lemma check_written SignCompact key toSign sign rec sig destination inv : signs SignCompact key -> SignCompact toSign = Some sign ->
  split_signature sign = Ok (rec, sig) -> names_signer destination sig toSign = Ok tt -> Destination inv = destination ->
  check_signature inv (sig ++ [rec]) toSign = Ok (inv <| Destination := Some (default key destination) |>).
Proof.
  intros Hs Hsign Hsp Hn Hd. destruct (Hs _ _ Hsign) as [Hl Hrec]. destruct (split_sign _ _ _ Hsp Hl) as (_ & Hback & Hls). unfold check_signature.
  rewrite lookup_app_r, Hls by (rewrite Hls; lia). cbn [Nat.sub lookup list_lookup]. rewrite (take_app_length' _ _ 64), copy_array_id by done. rewrite Hd.
  destruct destination as [d|]; cbn [default names_signer] in *.
  - apply res_bind_Ok in Hn as (signature & -> & Hv). cbn [mbind res_mbind res_bind]. destruct (Verify signature (Sum256 toSign) d); [|done]. cbn.
    destruct inv; cbn in *. by subst.
  - rewrite Hback. by rewrite Hrec.
Qed.

(** A text that [Encode] wrote: how [Decode] reads it, up to its amount, on any network
    whose prefix it has. *)
Lemma encoded SignCompact key invoice net s : signs SignCompact key -> Encode units range SignCompact invoice = Ok s -> Net invoice = Some net ->
  fields_ok net invoice -> amount_ok invoice ->
  exists pre aid am sg toSign, getObdHrpPre net = Ok pre /\ pr_AssetId invoice = Some aid /\ Forall amount_char am /\
    match MilliSat invoice with None => am = [] | Some amt => decodeAmt am aid = Ok amt end /\ validateInvoice invoice = Ok tt /\
    (forall net' pre', getObdHrpPre net' = Ok pre' -> fields_ok net' invoice -> let text := pre ++ FormatInt aid ++ colon :: am in take (length pre') text = pre' ->
       Decode s net' = finish (read_fields net' invoice) (drop (length pre') text) sg toSign) /\
    forall inv, Destination inv = Destination invoice -> check_signature inv sg toSign = Ok (inv <| Destination := Some (default key (Destination invoice)) |>).
Proof.
  intros Hs He Hnet Hok Hamt. unfold Encode in He. apply res_bind_Ok in He as ([] & Hval & He). destruct (encode_data range invoice []) as [r buf] eqn:Hdata.
  apply res_bind_Ok in He as ([] & -> & He). rewrite Hnet in He. apply res_bind_Ok in He as (hrp & Hhrp & He). apply res_bind_Ok in He as (tagged & Ht & He).
  apply res_bind_Ok in He as (sign & Hsign & He). apply res_bind_Ok in He as ([rec sig] & Hsp & He). apply res_bind_Ok in He as ([] & Hn & He).
  apply res_bind_Ok in He as (sigBase32 & Hcs & He). apply res_bind_Ok in He as (b32 & Hb & He). apply res_bind_Ok in He as (u & Hlen & [= <-]).
  destruct (SignCompact (hrp ++ tagged)) as [sg0|] eqn:Hsg; [|done]. injection Hsign as ->.
  destruct (hrp_shape net units invoice hrp Hhrp) as (pre & aid & am & Hpre & Ha & -> & Ham). pose proof (fo_asset _ _ Hok _ Ha) as Haid.
  assert (Hread : Forall amount_char am /\ match MilliSat invoice with None => am = [] | Some amt => decodeAmt am aid = Ok amt end).
  { unfold amount_ok in Hamt. destruct (MilliSat invoice) as [amt|]; [|by subst am]. destruct Hamt as [H0' H1'].
    destruct (amount_back units units_perm amt aid H0' H1') as (am' & He' & Hd' & Hc' & _). rewrite He' in Ham. by injection Ham as <-. }
  destruct Hread as [Hchars Hdec]. destruct (hrp_good net pre aid am Hpre Haid Hchars) as (Hg1 & Hg2 & Hg3).
  destruct (Hs _ _ Hsg) as [Hl _]. destruct (split_sign _ _ _ Hsp Hl) as (Hl65 & _ & _).
  assert (Hlen' : (maxInvoiceLength <? length b32)%nat = false) by (unfold guard_err in Hlen; by destruct (maxInvoiceLength <? length b32)%nat).
  eexists pre, aid, am, (sig ++ [rec]), _. split_and!; [done|done|done|done|done| |intros inv Hd; by apply (check_written SignCompact key _ sign)].
  intros net' pre' Hpre' Hok' text Hp'. destruct (data_back net' range invoice buf range_perm Hok' Hdata) as [Hgroups Hparse].
  destruct (decode_text _ pre' buf (sig ++ [rec]) b32 net' sigBase32 Hpre' Hg1 Hg2 Hg3 Hp' Hgroups Hl65 Hcs Hb Hlen') as (tagged' & Ht' & Hdecode).
  assert (tagged' = tagged) as -> by congruence. rewrite Hparse in Hdecode. cbn [mbind res_mbind res_bind] in Hdecode. rewrite Hdecode. f_equal.
  rewrite Nat.add_comm, <- drop_drop. done.
Qed.

(** What an invoice is read back as: the destination is the signer, an empty feature
    vector and a refusal to refund are the same as none, the time is in seconds. *)
Definition read_back (key : PublicKey) (net : Params) (invoice : Invoice) : Invoice :=
  mkInvoice (Some net) (MilliSat invoice) (pr_AssetId invoice) (mkTime (Unix (Timestamp invoice)) 0) (pr_PaymentHash invoice) (pr_PaymentAddr invoice)
    (Some (default key (Destination invoice))) (minFinalCLTVExpiry invoice) (Description invoice) (DescriptionHash invoice) (expiry invoice) (FallbackAddr invoice)
    (RouteHints invoice) (Some (default ∅ (pr_Features invoice))) (refundable_read (Refundable invoice)).

Lemma validate_read_back key net invoice : validateInvoice invoice = Ok tt -> validateInvoice (read_back key net invoice) = Ok tt.
Proof.
  unfold validateInvoice, read_back. cbn. intros Hv. apply res_bind_Ok in Hv as ([] & _ & Hv). 
  destruct (pr_PaymentHash invoice) as [h|]; cbn in *; [|done]. destruct (Description invoice), (DescriptionHash invoice) as [dh|]; cbn in *; try done.
  all: destruct (negb (length h =? 32)%nat); cbn in *; try done. all: try (destruct (negb (length dh =? 32)%nat); cbn in *; try done).
  all: by rewrite pubkey_length.
Qed.

(** The rest of [Decode] once the amount is read. *)
Lemma finish_back key net invoice asset aid amt am sg toSign : pr_AssetId invoice = Some aid -> Atoi_value asset = aid -> colon ∉ asset -> Forall amount_char am ->
  decodeAmt am aid = Ok amt -> MilliSat invoice = Some amt -> validateInvoice invoice = Ok tt ->
  (forall inv, Destination inv = Destination invoice -> check_signature inv sg toSign = Ok (inv <| Destination := Some (default key (Destination invoice)) |>)) ->
  finish (read_fields net invoice) (asset ++ colon :: am) sg toSign = Ok (read_back key net invoice).
Proof.
  intros Ha Haid Hcol Hc Hd Hamt Hv Hcheck. unfold finish. rewrite (hrp_amount (read_fields net invoice) asset aid amt am Ha Haid Hcol Hc Hd).
  cbn [mbind res_mbind res_bind]. rewrite Hcheck by done. cbn [mbind res_mbind res_bind].
  match goal with |- context [validateInvoice ?i] => assert (Hi : i = read_back key net invoice) end.
  { unfold read_back, read_fields, features_read. rewrite Hamt. cbn. destruct (pr_Features invoice) as [fv|]; [|done]. cbn. destruct (decide (fv = ∅)) as [->|]; done. }
  rewrite Hi. by rewrite validate_read_back.
Qed.

(** C38. A payment request says what was put into it: whatever [Encode] writes for an
    invoice with an amount, [Decode] accepts on the same network and reads as that
    invoice, whose destination is then known to be the signer. *)
Theorem request_roundtrip SignCompact key invoice net s : signs SignCompact key -> Encode units range SignCompact invoice = Ok s ->
  Net invoice = Some net -> fields_ok net invoice -> is_Some (MilliSat invoice) -> amount_ok invoice ->
  Decode s net = Ok (read_back key net invoice).
Proof.
  intros Hs He Hnet Hok [amt Hamt] Hab. destruct (encoded _ _ _ _ _ Hs He Hnet Hok Hab) as (pre & aid & am & sg & toSign & Hpre & Ha & Hc & Hd & Hv & Hdec & Hcheck).
  rewrite Hamt in Hd. rewrite (Hdec net pre Hpre Hok) by apply take_app_length. rewrite drop_app_length.
  destruct (asset_text aid (fo_asset _ _ Hok _ Ha)) as [Haid Hcol]. by apply (finish_back key net invoice (FormatInt aid) aid amt).
Qed.

(** A node on mainnet accepts the bitcoin requests of regtest: the prefix of mainnet
    is the beginning of the one of regtest, and the letters left over read as asset
    zero because the error of the conversion is dropped. *)
Theorem regtest_on_mainnet SignCompact key invoice regtest mainnet s : Name regtest = RegressionNet -> Name mainnet = MainNet ->
  signs SignCompact key -> Encode units range SignCompact invoice = Ok s -> Net invoice = Some regtest -> fields_ok regtest invoice -> fields_ok mainnet invoice ->
  pr_AssetId invoice = Some 0 -> is_Some (MilliSat invoice) -> amount_ok invoice ->
  Decode s mainnet = Ok (read_back key mainnet invoice).
Proof.
  intros Hreg Hmain Hs He Hnet Hok Hok' Ha [amt Hamt] Hab. destruct (encoded _ _ _ _ _ Hs He Hnet Hok Hab) as (pre & aid & am & sg & toSign & Hpre & Ha' & Hc & Hd & Hv & Hdec & Hcheck).
  rewrite Hamt in Hd. assert (aid = 0) as -> by congruence. unfold getObdHrpPre in Hpre. rewrite Hreg in Hpre. cbn in Hpre. injection Hpre as <-.
  assert (Hpre' : getObdHrpPre mainnet = Ok (bytes_of "o"%string)) by (unfold getObdHrpPre; by rewrite Hmain).
  rewrite (Hdec mainnet _ Hpre' Hok') by done.
  apply (finish_back key mainnet invoice (bytes_of "rt0"%string) 0 amt); try done. apply (bool_decide_unpack _). vm_compute. exact I.
Qed.

(** A request without an amount is lost: [Encode] writes it, and [Decode] refuses
    what was written, because the colon after the asset makes it look for an amount. *)
Theorem amountless_refused SignCompact key invoice net s : signs SignCompact key -> Encode units range SignCompact invoice = Ok s ->
  Net invoice = Some net -> fields_ok net invoice -> MilliSat invoice = None -> Decode s net = Err (ErrAmount ErrAmountEmpty).
Proof.
  intros Hs He Hnet Hok Hamt. assert (Hab : amount_ok invoice) by (unfold amount_ok; by rewrite Hamt).
  destruct (encoded _ _ _ _ _ Hs He Hnet Hok Hab) as (pre & aid & am & sg & toSign & Hpre & Ha & Hc & Hd & Hv & Hdec & Hcheck).
  rewrite (Hdec net pre Hpre Hok) by apply take_app_length. rewrite drop_app_length.
  rewrite Hamt in Hd. subst am. destruct (asset_text aid (fo_asset _ _ Hok _ Ha)) as [Haid Hcol]. unfold finish, parse_hrp_amount. rewrite length_app. cbn [length].
  rewrite (proj2 (Nat.ltb_lt 0 _)) by lia. rewrite Split_at by (done || apply not_elem_of_nil). change (pr_AssetId (read_fields net invoice)) with (pr_AssetId invoice). rewrite Ha.
  cbn [lookup list_lookup default]. unfold default. cbn [id]. rewrite Haid, Z.eqb_refl. cbn [negb guard_err mbind res_mbind res_bind].
  unfold decodeAmt. by destruct ((aid =? 0) || (aid =? BtcAssetId)).
Qed.
End Requests.

(** ** What a reader may rely on *)
Section Reading.
Context `{PubKeyOps} `{!PayReqLib} `{Bech32Lib}.

(** The signature of a request under [key]: of the key it names, or the key it recovers to. *)
Definition signed_by (key : PublicKey) (named : option PublicKey) (sigBase256 toSign : bytes) : Prop :=
  match named with
  | Some destination => key = destination /\ exists signature, ToSignature (take 64 sigBase256) = Ok signature /\ Verify signature (Sum256 toSign) key = true
  | None => exists header, RecoverCompact (header :: take 64 sigBase256) (Sum256 toSign) = Some key
  end.

Lemma check_signature_inv inv sg toSign inv' : check_signature inv sg toSign = Ok inv' ->
  exists key, inv' = inv <| Destination := Some key |> /\ signed_by key (Destination inv) sg toSign.
Proof.
  unfold check_signature. destruct (sg !! 64%nat) as [rec|] eqn:Hrec; [|done]. apply lookup_lt_Some in Hrec.
  rewrite copy_array_id by (rewrite length_take; lia). unfold signed_by. intros Hc. destruct (Destination inv) as [d|] eqn:Hd.
  - apply res_bind_Ok in Hc as (signature & Hs & Hc). apply res_bind_Ok in Hc as ([] & Hv & [= <-]). exists d. split; [destruct inv; cbn in *; by subst|].
    split; [done|]. exists signature. split; [done|]. by destruct (Verify signature (Sum256 toSign) d).
  - destruct (RecoverCompact _ _) as [key|] eqn:Hk; [|done]. injection Hc as <-. exists key. split; [done|]. by eexists.
Qed.

(** What every accepted invoice has. *)
Record valid_invoice (invoice : Invoice) : Prop := {
  vi_hash : exists h, pr_PaymentHash invoice = Some h /\ length h = 32%nat;
  vi_description : is_Some (Description invoice) <-> DescriptionHash invoice = None;
  vi_features : is_Some (pr_Features invoice)
}.

Lemma validate_inv invoice : validateInvoice invoice = Ok tt -> valid_invoice invoice.
Proof.
  unfold validateInvoice. intros Hv. apply res_bind_Ok in Hv as ([] & _ & Hv). destruct (pr_PaymentHash invoice) as [h|] eqn:Hh; cbn in Hv; [|done].
  destruct (Description invoice) as [d|] eqn:Hd, (DescriptionHash invoice) as [dh|] eqn:Hdh; cbn in Hv; try done.
  all: destruct (Nat.eqb_spec (length h) 32); cbn in Hv; [|done].
  all: repeat (apply res_bind_Ok in Hv as ([] & _ & Hv)); destruct (pr_Features invoice) eqn:Hf; [|done].
  all: split; [by exists h|rewrite Hd, Hdh; split; intros; naive_solver|by rewrite Hf].
Qed.

(** The fields leave the network alone. *)
Lemma field_net inv t data net inv' : parseTaggedField inv t data net = Ok inv' -> Net inv' = Net inv.
Proof.
  unfold parseTaggedField, first_only. intros Hp.
  repeat match type of Hp with (if ?b then _ else _) = _ => destruct b end.
  all: repeat match type of Hp with match ?o with _ => _ end = _ => destruct o end.
  all: try (injection Hp as <-; done).
  all: try (apply res_bind_Ok in Hp as (x & _ & [= <-]); done).
  injection Hp as <-. by case_bool_decide.
Qed.

Lemma fields_net net fuel : forall inv fields inv', parse_fields fuel inv fields net = Ok inv' -> Net inv' = Net inv.
Proof.
  induction fuel as [|fuel IH]; intros inv fields inv'; [destruct fields; by intros [= <-]|].
  destruct fields as [|typ [|hi [|lo rest]]]; [by intros [= <-]|done..|]. intros Hp. cbn [parse_fields] in Hp.
  apply res_bind_Ok in Hp as (len & _ & Hp). apply res_bind_Ok in Hp as ([] & _ & Hp). apply res_bind_Ok in Hp as (inv1 & H1' & Hp).
  rewrite (IH _ _ _ Hp). by apply (field_net _ _ _ _ _ H1').
Qed.

Lemma hrp_amount_inv inv rest inv' : parse_hrp_amount inv rest = Ok inv' -> inv' = inv <| MilliSat := MilliSat inv' |> /\
  (rest <> [] -> exists item, Split rest colon !! 1%nat = Some item /\ Atoi_value (default [] (Split rest colon !! 0%nat)) = default 0 (pr_AssetId inv) /\
    exists amount, MilliSat inv' = Some amount /\ decodeAmt item (default 0 (pr_AssetId inv)) = Ok amount).
Proof.
  unfold parse_hrp_amount. destruct (0 <? length rest)%nat eqn:Hl.
  - intros Hp. apply res_bind_Ok in Hp as ([] & Hg & Hp). unfold guard_err in Hg.
    destruct (Z.eqb_spec (Atoi_value (default [] (Split rest colon !! 0%nat))) (default 0 (pr_AssetId inv))) as [Heq|]; [|done].
    destruct (Split rest colon !! 1%nat) as [item|]; [|done]. apply res_bind_Ok in Hp as (amount & Ha & [= <-]). split; [by destruct inv|]. intros _.
    exists item. split_and!; [done|done|]. exists amount. split; [done|]. unfold of_amount in Ha. destruct (decodeAmt item _); try done. by injection Ha as ->.
  - intros [= <-]. split; [by destruct inv|]. intros Hne. destruct rest; done.
Qed.

(** The data has an asset field with this number. *)
Definition asset_field (fields : bytes) (n : Z) : Prop :=
  exists before typ hi lo data after, fields = before ++ typ :: hi :: lo :: data ++ after /\ val typ = fieldTypeA /\
    parseFieldDataLength [hi; lo] = Ok (Z.of_nat (length data)) /\ base32ToUint64 data = Ok n.

Lemma field_asset inv t data net inv' : parseTaggedField inv t data net = Ok inv' ->
  pr_AssetId inv' = pr_AssetId inv \/ t = fieldTypeA /\ exists n, base32ToUint64 data = Ok n /\ pr_AssetId inv' = Some (u32 n).
Proof.
  unfold parseTaggedField, first_only. intros Hp. destruct (Z.eqb_spec t fieldTypeA) as [->|Hne].
  - cbn in Hp. destruct (pr_AssetId inv) eqn:Ha0; [injection Hp as <-; by left|]. right. split; [done|].
    apply res_bind_Ok in Hp as (a & Ha & [= <-]). unfold parseAssetId in Ha. apply res_bind_Ok in Ha as (n & Hn & [= <-]). by exists n.
  - left. repeat match type of Hp with (if ?b then _ else _) = _ => destruct b end.
    all: repeat match type of Hp with match ?o with _ => _ end = _ => destruct o end.
    all: try (injection Hp as <-; done).
    all: try (apply res_bind_Ok in Hp as (x & _ & [= <-]); done).
    injection Hp as <-. by case_bool_decide.
Qed.

Lemma field_length hi lo len : parseFieldDataLength [hi; lo] = Ok len -> 0 <= len.
Proof.
  cbn. intros [= <-]. apply Z.lor_nonneg. split; [apply Z.mod_pos_bound; lia|apply byte.unsigned_range].
Qed.

Lemma fields_asset net fuel : forall inv fields inv', parse_fields fuel inv fields net = Ok inv' ->
  pr_AssetId inv' = pr_AssetId inv \/ exists n, asset_field fields n /\ pr_AssetId inv' = Some (u32 n).
Proof.
  induction fuel as [|fuel IH]; intros inv fields inv'; [destruct fields; intros [= <-]; by left|].
  destruct fields as [|typ [|hi [|lo rest]]]; [intros [= <-]; by left|done..|]. intros Hp. cbn [parse_fields] in Hp.
  apply res_bind_Ok in Hp as (len & Hlen & Hp). apply res_bind_Ok in Hp as ([] & Hg & Hp). apply res_bind_Ok in Hp as (inv1 & H1' & Hp).
  unfold guard_err in Hg. destruct (Z.ltb_spec (Z.of_nat (length rest)) len) as [|Hle]; [done|]. pose proof (field_length _ _ _ Hlen) as Hpos.
  destruct (IH _ _ _ Hp) as [Heq|(n & (before & t & h & l & d & after & Hf & Hx) & Hn)].
  - rewrite Heq. destruct (field_asset _ _ _ _ _ H1') as [?|(Ht & n & Hd & Hn)]; [by left|]. right. exists n. split; [|done].
    exists [], typ, hi, lo, (take (Z.to_nat len) rest), (drop (Z.to_nat len) rest). rewrite take_drop. split; [done|]. split; [done|].
    split; [|done]. rewrite length_take, Hlen. f_equal. lia.
  - right. exists n. split; [|done]. exists (typ :: hi :: lo :: take (Z.to_nat len) rest ++ before), t, h, l, d, after. split; [|done].
    cbn. by rewrite <- app_assoc, <- Hf, take_drop.
Qed.

(** C39. An invoice that [Decode] returns was signed by its destination: the signature
    at the end of the text is one over the whole human-readable part and the data
    before it, by the node the data names or else by the node returned.  The
    human-readable part begins with "ob" and the prefix of this network, which for
    mainnet also begins the prefix of regtest ([regtest_on_mainnet]).  The invoice
    carries a payment hash of 32 bytes and either a description or the hash of one.  Its
    asset, if it has one, is the number of an asset field of the data, cut to 32 bits.
    If anything follows the prefix, what stands there before the first colon, read as a
    number with errors dropped (what is no number counts as 0), is that asset, or 0 if
    there is none, and what stands behind the colon is the amount, one of that asset. *)
Theorem decode_authentic (s : bytes) (net : Params) (invoice : Invoice) : Decode s net = Ok invoice ->
  exists hrp data pre tagged sigBase256 parsed key, decodeBech32 s = Ok (hrp, data) /\ getObdHrpPre net = Ok pre /\
    take 2 hrp = bytes_of "ob"%string /\ take (length pre) (drop 2 hrp) = pre /\
    ConvertBits (take (length data - 104) data) 5 8 true = Some tagged /\ ConvertBits (drop (length data - 104) data) 5 8 true = Some sigBase256 /\
    parseData (empty_invoice <| Net := Some net |>) (take (length data - 104) data) net = Ok parsed /\
    Destination invoice = Some key /\ signed_by key (Destination parsed) sigBase256 (hrp ++ tagged) /\
    Net invoice = Some net /\ valid_invoice invoice /\ pr_AssetId invoice = pr_AssetId parsed /\ pr_PaymentHash invoice = pr_PaymentHash parsed /\
    (pr_AssetId invoice = None \/ exists n, asset_field (drop 7 (take (length data - 104) data)) n /\ pr_AssetId invoice = Some (u32 n)) /\
    (drop (length pre + 2) hrp <> [] -> Atoi_value (default [] (Split (drop (length pre + 2) hrp) colon !! 0%nat)) = default 0 (pr_AssetId invoice) /\
       exists item amount, Split (drop (length pre + 2) hrp) colon !! 1%nat = Some item /\ MilliSat invoice = Some amount /\
         decodeAmt item (default 0 (pr_AssetId invoice)) = Ok amount).
Proof.
  unfold Decode, signatureBase32Len. intros Hd. apply res_bind_Ok in Hd as ([] & _ & Hd). apply res_bind_Ok in Hd as ([hrp data] & Hb & Hd).
  apply res_bind_Ok in Hd as ([] & _ & Hd). apply res_bind_Ok in Hd as ([] & Hob & Hd). apply res_bind_Ok in Hd as (pre & Hpre & Hd).
  assert (Hob' : take 2 hrp = bytes_of "ob"%string) by (unfold guard_err in Hob; destruct (bool_decide_reflect (take 2 hrp = bytes_of "ob"%string)) as [Heq|]; [exact Heq|discriminate Hob]).
  apply res_bind_Ok in Hd as ([] & Hnet & Hd). apply res_bind_Ok in Hd as ([] & _ & Hd). apply res_bind_Ok in Hd as (parsed & Hparsed & Hd).
  apply res_bind_Ok in Hd as (inv1 & Hamt & Hd). apply res_bind_Ok in Hd as (sg & Hsg%of_convert_Ok & Hd). apply res_bind_Ok in Hd as (tagged & Ht%of_convert_Ok & Hd).
  apply res_bind_Ok in Hd as (inv2 & Hcheck & Hd). apply res_bind_Ok in Hd as ([] & Hval & [= <-]).
  assert (Hb' : decodeBech32 s = Ok (hrp, data)) by (destruct (decodeBech32 s) as [[]| |]; cbn in Hb; congruence).
  apply check_signature_inv in Hcheck as (key & -> & Hkey). destruct (hrp_amount_inv _ _ _ Hamt) as [Hinv1 Hrest].
  assert (HN : Net parsed = Some net).
  { unfold parseData in Hparsed. apply res_bind_Ok in Hparsed as ([] & _ & Hp). apply res_bind_Ok in Hp as (t & _ & Hp). by rewrite (fields_net _ _ _ _ _ Hp). }
  assert (HA : pr_AssetId parsed = None \/ exists n, asset_field (drop 7 (take (length data - 104) data)) n /\ pr_AssetId parsed = Some (u32 n)).
  { unfold parseData in Hparsed. apply res_bind_Ok in Hparsed as ([] & _ & Hp). apply res_bind_Ok in Hp as (t & _ & Hp). exact (fields_asset _ _ _ _ _ Hp). }
  rewrite Hinv1 in Hkey, Hval |- *. assert (Hnet' : take (length pre) (drop 2 hrp) = pre) by (unfold guard_err in Hnet; by case_bool_decide).
  exists hrp, data, pre, tagged, sg, parsed, key. apply validate_inv in Hval. destruct parsed as [n0 ms0 a0 t0 h0 ad0 d0 c0 ds0 dh0 e0 f0 r0 fe0 rf0]. cbn in *.
  split_and!; try done; destruct fe0; cbn in *; try done.
  all: intros Hne; destruct (Hrest Hne) as (item & Hi & Haid & amount & Hm & Hda); split; [done|]; by exists item, amount.
Qed.

(** A string can crash the node: if the human-readable part has no colon after the
    network and what stands there reads as the number of the asset that the data
    names, [Decode] indexes past the end of the parts and panics, before any
    signature is looked at. *)
Theorem decode_crashes (s : bytes) (net : Params) (hrp data pre : bytes) (invoice : Invoice) :
  (length s <= maxInvoiceLength)%nat -> decodeBech32 s = Ok (hrp, data) -> (3 <= length hrp)%nat -> take 2 hrp = bytes_of "ob"%string -> getObdHrpPre net = Ok pre ->
  take (length pre) (drop 2 hrp) = pre -> (104 <= length data)%nat -> parseData (empty_invoice <| Net := Some net |>) (take (length data - 104) data) net = Ok invoice ->
  let rest := drop (length pre + 2) hrp in rest <> [] -> colon ∉ rest -> Atoi_value rest = default 0 (pr_AssetId invoice) ->
  Decode s net = Panic.
Proof.
  intros Hs Hb Hh Hob Hpre Hp Hd Hparsed rest Hne Hcol Haid. unfold Decode, signatureBase32Len. rewrite (proj2 (Nat.ltb_ge _ (length s))) by done.
  rewrite Hb. cbn [guard_err of_bech32 mbind res_mbind res_bind]. rewrite (proj2 (Nat.ltb_ge _ 3)), bool_decide_true by done. cbn [negb guard_err mbind res_mbind res_bind].
  rewrite Hpre. cbn [mbind res_mbind res_bind]. rewrite bool_decide_true by done. rewrite (proj2 (Nat.ltb_ge _ 104)) by done. cbn [negb guard_err mbind res_mbind res_bind].
  rewrite Hparsed. cbn [mbind res_mbind res_bind]. fold rest. unfold parse_hrp_amount. rewrite Split_none by done.
  assert (Hl : (0 <? length rest)%nat = true) by (destruct rest; done). rewrite Hl. cbn [lookup list_lookup]. change (default [] (Some rest)) with rest. rewrite Haid, Z.eqb_refl. done.
Qed.
End Reading.

(** ** A concrete invoice *)
Module Example.
#[local] Existing Instances toy_keys toy_keys_laws Toy.toy_bech32 Toy.toy_bech32_laws.

#[local] Instance toy_requests : PayReqLib := {|
  Params := bytes; Name := id; Address := bytes; addr_kind _ := AddressPubKeyHash; WitnessVersion _ := Byte.x00; ScriptAddress := id;
  NewAddressPubKeyHash b _ := Some b; NewAddressScriptHashFromHash b _ := Some b; NewAddressWitnessPubKeyHash b _ := Some b; NewAddressWitnessScriptHash b _ := Some b;
  Signature := bytes; ParseDERSignature := Some; Verify _ _ _ := true; RecoverCompact _ _ := Some Byte.x07
|}.

Definition toy_signer (_ : bytes) : option bytes := Some (Byte.x1f :: replicate 64 Byte.x01).

Lemma toy_signs : signs toy_signer Byte.x07.
Proof. intros m sign [= <-]. by split. Qed.

Definition toy_invoice_of (net : @Params toy_keys toy_requests) (asset : Z) (amount : option Z) : Invoice :=
  mkInvoice (Some net) amount (Some asset) (mkTime 1700000000 5) (Some (replicate 32 Byte.x0a)) (Some (replicate 32 Byte.x0b)) None (Some 40)
    (Some (bytes_of "coffee"%string)) None (Some (600 * Second)) (Some (replicate 20 Byte.x0c)) [[mkHopHint Byte.x05 77 1000 10 144]] (Some {[9; 15]}) (Some true).

Definition toy_invoice : option Z -> Invoice := toy_invoice_of MainNet 31.

Definition toy_request (amount : option Z) : bytes := match Encode map_to_list elements toy_signer (toy_invoice amount) with Ok s => s | _ => [] end.

Lemma toy_fields net net' asset amount : is_uint 32 asset -> fields_ok net (toy_invoice_of net' asset amount).
Proof.
  intros Hasset. split; cbn.
  - by intros b [= <-].
  - done.
  - by intros b [= <-].
  - intros n [= <-]. unfold is_uint. lia.
  - intros d [= <-]. unfold whole_seconds, Second. split; [done|lia].
  - by intros n [= <-].
  - intros addr [= <-]. by split.
  - repeat constructor; cbn; unfold is_uint; lia.
  - intros fv [= <-] b. rewrite elem_of_union, !elem_of_singleton. lia.
  - unfold is_sint. lia.
Qed.

Lemma request_roundtrip_witness : exists s, Encode map_to_list elements toy_signer (toy_invoice (Some 2500000)) = Ok s /\
  Decode s MainNet = Ok (read_back Byte.x07 MainNet (toy_invoice (Some 2500000))).
Proof.
  assert (He : Encode map_to_list elements toy_signer (toy_invoice (Some 2500000)) = Ok (toy_request (Some 2500000))) by (vm_compute; reflexivity).
  exists (toy_request (Some 2500000)). split; [exact He|]. apply (request_roundtrip map_to_list (fun _ => reflexivity _) elements (fun _ => reflexivity _) toy_signer).
  - apply toy_signs.
  - exact He.
  - reflexivity.
  - apply toy_fields. unfold is_uint. lia.
  - by eexists.
  - cbn. lia.
Defined.

Lemma regtest_on_mainnet_witness : exists s, Encode map_to_list elements toy_signer (toy_invoice_of RegressionNet 0 (Some 2500000)) = Ok s /\
  Decode s MainNet = Ok (read_back Byte.x07 MainNet (toy_invoice_of RegressionNet 0 (Some 2500000))).
Proof.
  set (s := match Encode map_to_list elements toy_signer (toy_invoice_of RegressionNet 0 (Some 2500000)) with Ok s => s | _ => [] end).
  assert (He : Encode map_to_list elements toy_signer (toy_invoice_of RegressionNet 0 (Some 2500000)) = Ok s) by (vm_compute; reflexivity).
  exists s. split; [exact He|]. clearbody s.
  apply (regtest_on_mainnet map_to_list (fun _ => reflexivity _) elements (fun _ => reflexivity _) toy_signer (Byte.x07 : @PublicKey toy_keys)
    (toy_invoice_of RegressionNet 0 (Some 2500000)) (RegressionNet : @Params toy_keys toy_requests)).
  - reflexivity.
  - reflexivity.
  - apply toy_signs.
  - exact He.
  - reflexivity.
  - apply toy_fields. unfold is_uint. lia.
  - apply toy_fields. unfold is_uint. lia.
  - reflexivity.
  - by eexists.
  - cbn. lia.
Defined.

Lemma amountless_refused_witness : exists s, Encode map_to_list elements toy_signer (toy_invoice None) = Ok s /\ Decode s MainNet = Err (ErrAmount ErrAmountEmpty).
Proof.
  assert (He : Encode map_to_list elements toy_signer (toy_invoice None) = Ok (toy_request None)) by (vm_compute; reflexivity).
  exists (toy_request None). split; [exact He|].
  apply (amountless_refused map_to_list (fun _ => reflexivity _) elements (fun _ => reflexivity _) toy_signer (Byte.x07 : @PublicKey toy_keys) (toy_invoice None)).
  - apply toy_signs.
  - exact He.
  - reflexivity.
  - apply toy_fields. unfold is_uint. lia.
  - reflexivity.
Defined.

Definition is_ok {E A} (r : res E A) : bool := match r with Ok _ => true | _ => false end.

Lemma decode_authentic_witness : exists invoice key, Decode (toy_request (Some 2500000)) MainNet = Ok invoice /\ Destination invoice = Some key.
Proof.
  assert (Hok : is_ok (Decode (toy_request (Some 2500000)) MainNet) = true) by (vm_compute; reflexivity).
  match type of Hok with is_ok ?r = _ => destruct r as [invoice| |] eqn:Hd; [|discriminate..] end.
  destruct (decode_authentic _ _ _ Hd) as (? & ? & ? & ? & ? & ? & key & ? & ? & ? & ? & ? & ? & ? & Hk & _). exists invoice, key. split; [reflexivity|exact Hk].
Defined.

(** A request of zeroes for nothing, on mainnet. *)
Definition crash_hrp : bytes := Eval compute in bytes_of "obo0"%string.
Definition crash_data : bytes := replicate 111 Byte.x00.
Definition crash_request : bytes := match bech32_Encode crash_hrp crash_data with Ok s => s | _ => [] end.

Lemma decode_crashes_witness : Decode crash_request MainNet = Panic.
Proof.
  apply (decode_crashes crash_request (MainNet : @Params toy_keys toy_requests) crash_hrp crash_data (bytes_of "o"%string)
    (empty_invoice <| Net := Some (MainNet : @Params toy_keys toy_requests) |>));
    [|vm_compute; reflexivity|cbn; lia|reflexivity|reflexivity|reflexivity|cbn; lia|reflexivity|discriminate| |reflexivity].
  - apply (bool_decide_unpack _). vm_compute. exact I.
  - apply (bool_decide_unpack _). vm_compute. exact I.
Defined.
End Example.
