(* ===== verification/Payments.v ===== *)
(** * Outgoing payments ([channeldb/payment_control.go], [payments.go], [mp_payment.go])

    The store of payments and their attempts: the buckets, the status a payment's
    attempts give it, and every transition of the payment control.  A value in a
    bucket is the record that is serialised there; a batched database transaction
    that returns an error leaves the database as it was. *)

From S2P Require Import Prelude Wire.

(** ** Routes ([routing/route/route.go], [record/mpp.go]) *)
Record MPP := mkMPP { paymentAddr : bytes; totalMsat : Z; mpp_assetId : Z }.

Record Hop := mkHop {
  PubKeyBytes : bytes;
  hop_ChannelID : Z;
  OutgoingTimeLock : Z;
  AmtToForward : Z;
  hop_MPP : option MPP;
  CustomRecords : list (Z * bytes);
  LegacyPayload : bool
}.

Record Route := mkRoute {
  TotalTimeLock : Z;
  TotalAmount : Z;
  rt_AssetId : Z;
  SourcePubKey : bytes;
  Hops : list Hop
}.

Definition FinalHop (r : Route) : option Hop := list.last (Hops r).

Definition ReceiverAmt (r : Route) : Z :=
  match FinalHop r with None => 0 | Some h => AmtToForward h end.

Definition TotalFees (r : Route) : Z :=
  match Hops r with [] => 0 | _ => u64 (TotalAmount r - ReceiverAmt r) end.

(** ** Attempts and payments *)
Record HTLCAttemptInfo := mkAttemptInfo {
  AttemptID : Z;
  sessionKey : bytes;
  at_Route : Route;
  AttemptTime : Z;
  at_Hash : option bytes
}.

Record HTLCSettleInfo := mkSettleInfo { Preimage : bytes; SettleTime : Z }.

Record HTLCFailInfo := mkFailInfo {
  FailTime : Z;
  fi_Message : bytes;
  fi_Reason : Z;
  FailureSourceIndex : Z
}.

Record HTLCAttempt := mkAttempt {
  ha_Info : HTLCAttemptInfo;
  ha_Settle : option HTLCSettleInfo;
  ha_Failure : option HTLCFailInfo
}.

Record PaymentCreationInfo := mkCreationInfo {
  PaymentIdentifier : bytes;
  pi_Value : Z;
  pi_AssetId : Z;
  CreationTime : Z;
  PaymentRequest : bytes;
  HaveHodlInvoice : bool
}.

Inductive PaymentStatus : Type := StatusUnknown | StatusInFlight | StatusSucceeded | StatusFailed.

#[export] Instance PaymentStatus_eq_dec : EqDecision PaymentStatus.
Proof. solve_decision. Defined.

Record MPPayment := mkPayment {
  SequenceNum : Z;
  mp_Info : PaymentCreationInfo;
  HTLCs : list HTLCAttempt;
  mp_FailureReason : option Z;
  Status : PaymentStatus
}.

Inductive payerr : Type :=
| ErrAlreadyPaid | ErrPaymentInFlight | ErrPaymentNotInitiated | ErrPaymentAlreadySucceeded
| ErrPaymentAlreadyFailed | ErrPaymentTerminal | ErrAttemptAlreadySettled | ErrAttemptAlreadyFailed
| ErrValueMismatch | ErrValueExceedsAmt | ErrNonMPPayment | ErrMPPayment
| ErrMPPPaymentAddrMismatch | ErrMPPTotalAmountMismatch | errNoAttemptInfo
| ErrSequenceNotFound | ErrCreationInfoNotFound | ErrHtlcsBucketNotFound | ErrHtlcNotRegistered (id : Z)
| ErrNonBucket | ErrCannotDelete.

(** [TerminalInfo]: the first settled attempt, or the reason the payment failed. *)
Definition TerminalInfo (m : MPPayment) : option HTLCSettleInfo * option Z :=
  match omap ha_Settle (HTLCs m) with
  | s :: _ => (Some s, None)
  | [] => (None, mp_FailureReason m)
  end.

(** [SentAmt]: amounts and fees of the attempts that did not fail, wrapping. *)
Definition SentAmt (m : MPPayment) : Z * Z :=
  foldl (fun '(sent, fees) h =>
    match ha_Failure h with
    | Some _ => (sent, fees)
    | None => (u64 (sent + ReceiverAmt (at_Route (ha_Info h))), u64 (fees + TotalFees (at_Route (ha_Info h))))
    end) (0, 0) (HTLCs m).

Definition in_flight_attempt (h : HTLCAttempt) : bool :=
  match ha_Settle h, ha_Failure h with None, None => true | _, _ => false end.

Definition InFlightHTLCs (m : MPPayment) : list HTLCAttempt :=
  filter (fun h => in_flight_attempt h = true) (HTLCs m).

Definition GetAttempt (m : MPPayment) (id : Z) : option HTLCAttempt :=
  list.head (filter (fun h => AttemptID (ha_Info h) = id) (HTLCs m)).

(** ** The buckets *)

(** The HTLC bucket of a payment, its keys split by prefix: attempt infos, settle
    infos and fail infos, each by the attempt ID. *)
Record htlcsBucket := mkHtlcs {
  hb_info : gmap Z HTLCAttemptInfo;
  hb_settle : gmap Z HTLCSettleInfo;
  hb_fail : gmap Z HTLCFailInfo
}.

(** The bucket of a payment hash. Of the duplicates old versions left only the
    sequence numbers they are keyed by matter here. *)
Record paymentBucket := mkPaymentBucket {
  pb_seq : option Z;
  pb_info : option PaymentCreationInfo;
  pb_htlcs : option htlcsBucket;
  pb_fail : option Z;
  pb_duplicates : list Z
}.

Record paymentDB := mkPaymentDB {
  db_payments : option (gmap bytes paymentBucket);
  db_index : gmap Z bytes;
  db_sequence : Z
}.

Record PaymentControl := mkPaymentControl {
  currPaymentSeq : Z;
  storedPaymentSeq : Z;
  pc_db : paymentDB
}.

#[export] Instance htlcsBucket_eta : Eta htlcsBucket := fun b => mkHtlcs (hb_info b) (hb_settle b) (hb_fail b).
#[export] Instance paymentBucket_eta : Eta paymentBucket := fun b =>
  mkPaymentBucket (pb_seq b) (pb_info b) (pb_htlcs b) (pb_fail b) (pb_duplicates b).
#[export] Instance paymentDB_eta : Eta paymentDB := fun d => mkPaymentDB (db_payments d) (db_index d) (db_sequence d).
#[export] Instance PaymentControl_eta : Eta PaymentControl := fun p =>
  mkPaymentControl (currPaymentSeq p) (storedPaymentSeq p) (pc_db p).
#[export] Instance attemptInfo_eta : Eta HTLCAttemptInfo := fun a =>
  mkAttemptInfo (AttemptID a) (sessionKey a) (at_Route a) (AttemptTime a) (at_Hash a).

Definition empty_htlcs : htlcsBucket := mkHtlcs ∅ ∅ ∅.
Definition empty_bucket : paymentBucket := mkPaymentBucket None None None None [].
Definition zero_attempt : HTLCAttemptInfo := mkAttemptInfo 0 (replicate 32 Byte.x00) (mkRoute 0 0 0 [] []) 0 None.

(** The attempt of an ID, as the loop over the bucket's keys puts it together. *)
Definition attempt_of (b : htlcsBucket) (aid : Z) : HTLCAttempt :=
  mkAttempt (match hb_info b !! aid with Some a => a <| AttemptID := aid |> | None => zero_attempt end)
    (hb_settle b !! aid) (hb_fail b !! aid).

Definition attempt_ids (b : htlcsBucket) : gset Z := dom (hb_info b) ∪ dom (hb_settle b) ∪ dom (hb_fail b).

Definition fetchHtlcAttempts (b : htlcsBucket) : res payerr (list HTLCAttempt) :=
  let ids := attempt_ids b in
  _ ← guard_err (negb (Nat.eqb (size (hb_info b)) (size ids))) errNoAttemptInfo;
  mret (attempt_of b <$> go_sort Z.ltb (elements ids)).

Definition inflight_of (htlcs : list HTLCAttempt) : bool := existsb in_flight_attempt htlcs.
Definition settled_of (htlcs : list HTLCAttempt) : bool :=
  existsb (fun h => match ha_Failure h, ha_Settle h with None, Some _ => true | _, _ => false end) htlcs.

Definition fetchPayment (b : paymentBucket) : res payerr MPPayment :=
  match pb_seq b with
  | None => Err ErrSequenceNotFound
  | Some sequenceNum =>
      match pb_info b with
      | None => Err ErrCreationInfoNotFound
      | Some creationInfo =>
          htlcs ← match pb_htlcs b with None => mret [] | Some hb => fetchHtlcAttempts hb end;
          let inflight := inflight_of htlcs in
          let settled := settled_of htlcs in
          let status :=
            if negb inflight && settled then StatusSucceeded
            else if negb inflight && bool_decide (is_Some (pb_fail b)) then StatusFailed
            else StatusInFlight in
          mret (mkPayment sequenceNum creationInfo htlcs (pb_fail b) status)
      end
  end.

Definition fetchPaymentStatus (b : paymentBucket) : res payerr PaymentStatus :=
  match pb_info b with
  | None => mret StatusUnknown
  | Some _ => p ← fetchPayment b; mret (Status p)
  end.

Definition ensureInFlight (p : MPPayment) : res payerr unit :=
  match Status p with
  | StatusInFlight => Ok tt
  | StatusUnknown => Err ErrPaymentNotInitiated
  | StatusSucceeded => Err ErrPaymentAlreadySucceeded
  | StatusFailed => Err ErrPaymentAlreadyFailed
  end.

(** ** The payment control *)
Abbreviation PC := (M PaymentControl payerr).
Abbreviation PDB := (M paymentDB payerr).

Definition on_paydb {A} (m : PDB A) : PC A := fun p =>
  let '(r, db) := m (pc_db p) in (r, p <| pc_db := db |>).

Definition payments_of (db : paymentDB) : gmap bytes paymentBucket := default ∅ (db_payments db).

Definition fetchPaymentBucketUpdate (hash : bytes) : PDB paymentBucket := fun db =>
  match db_payments db with
  | None => (Err ErrPaymentNotInitiated, db)
  | Some ps => match ps !! hash with None => (Err ErrPaymentNotInitiated, db) | Some b => (Ok b, db) end
  end.

Definition createPaymentBucket (hash : bytes) : PDB paymentBucket := fun db =>
  let ps := payments_of db in
  let b := default empty_bucket (ps !! hash) in
  (Ok b, db <| db_payments := Some (<[hash := b]> ps) |>).

Definition put_bucket (hash : bytes) (b : paymentBucket) : PDB unit :=
  modify (fun db => db <| db_payments := Some (<[hash := b]> (payments_of db)) |>).

Definition paymentSeqBlockSize : Z := 1000.

Definition nextPaymentSequence : PC Z := fun p =>
  let p :=
    if currPaymentSeq p =? storedPaymentSeq p then
      let curr := db_sequence (pc_db p) in
      let newUpperBound := u64 (curr + paymentSeqBlockSize) in
      p <| pc_db ::= fun db => db <| db_payments := Some (payments_of db) |> <| db_sequence := newUpperBound |> |>
        <| currPaymentSeq ::= fun c => if c =? 0 then curr else c |>
        <| storedPaymentSeq := newUpperBound |>
    else p in
  let next := u64 (currPaymentSeq p + 1) in
  (Ok next, p <| currPaymentSeq := next |>).

(** The body of [InitPayment]'s transaction: [Some e] is an [updateErr], which
    ends the transaction without undoing it. *)
Definition initBody (sequenceNum : Z) (hash : bytes) (info : PaymentCreationInfo) : PDB (option payerr) :=
  bucket ← createPaymentBucket hash;
  status ← lift (fetchPaymentStatus bucket);
  match status with
  | StatusInFlight => mret (Some ErrPaymentInFlight)
  | StatusSucceeded => mret (Some ErrAlreadyPaid)
  | _ =>
      _ ← modify (fun db => match pb_seq bucket with
                            | Some seq => db <| db_index ::= delete seq |>
                            | None => db
                            end);
      _ ← modify (fun db => db <| db_index ::= <[sequenceNum := PaymentIdentifier info]> |>);
      _ ← put_bucket hash (bucket <| pb_seq := Some sequenceNum |> <| pb_info := Some info |>
                             <| pb_htlcs := None |> <| pb_fail := None |>);
      mret None
  end.

Definition updateErr (m : PDB (option payerr)) : PC unit :=
  e ← on_paydb (transaction m);
  match e with Some e => throw e | None => mret tt end.

Definition InitPayment (hash : bytes) (info : PaymentCreationInfo) : PC unit :=
  sequenceNum ← nextPaymentSequence;
  updateErr (initBody sequenceNum hash info).

(** The MPP options of a new attempt against those of an attempt in flight. *)
Definition check_mpp (mpp hMpp : option MPP) : res payerr unit :=
  match mpp, hMpp with
  | None, Some _ => Err ErrMPPayment
  | Some _, None => Err ErrNonMPPayment
  | None, None => Ok tt
  | Some a, Some b =>
      _ ← guard_err (negb (bool_decide (paymentAddr a = paymentAddr b))) ErrMPPPaymentAddrMismatch;
      guard_err (negb (totalMsat a =? totalMsat b)) ErrMPPTotalAmountMismatch
  end.

Definition final_mpp (r : Route) : res payerr (option MPP) :=
  match FinalHop r with None => Panic | Some h => Ok (hop_MPP h) end.

Fixpoint check_shards (mpp : option MPP) (hs : list HTLCAttempt) : res payerr unit :=
  match hs with
  | [] => Ok tt
  | h :: hs =>
      hMpp ← final_mpp (at_Route (ha_Info h));
      _ ← check_mpp mpp hMpp;
      check_shards mpp hs
  end.

(** What is stored of an attempt: no records of a hop with a legacy payload are
    written.  Other records are assumed to be custom ones, which can be written. *)
Definition serializeHop (h : Hop) : Hop :=
  if LegacyPayload h then mkHop (PubKeyBytes h) (hop_ChannelID h) (OutgoingTimeLock h) (AmtToForward h) None [] true else h.

Definition SerializeRoute (r : Route) : Route :=
  mkRoute (TotalTimeLock r) (TotalAmount r) (rt_AssetId r) (SourcePubKey r) (serializeHop <$> Hops r).

Definition serializeHTLCAttemptInfo (a : HTLCAttemptInfo) : HTLCAttemptInfo :=
  mkAttemptInfo (AttemptID a) (sessionKey a) (SerializeRoute (at_Route a)) (AttemptTime a) (at_Hash a).

Definition registerBody (hash : bytes) (attempt : HTLCAttemptInfo) : PDB MPPayment :=
  bucket ← fetchPaymentBucketUpdate hash;
  p ← lift (fetchPayment bucket);
  _ ← check (match TerminalInfo p with (None, None) => false | _ => true end) ErrPaymentTerminal;
  _ ← lift (ensureInFlight p);
  mpp ← lift (final_mpp (at_Route attempt));
  _ ← lift (check_shards mpp (InFlightHTLCs p));
  let amt := ReceiverAmt (at_Route attempt) in
  _ ← check (bool_decide (mpp = None) && negb (amt =? pi_Value (mp_Info p))) ErrValueMismatch;
  _ ← check (pi_Value (mp_Info p) <? u64 (fst (SentAmt p) + amt)) ErrValueExceedsAmt;
  let htlcs := default empty_htlcs (pb_htlcs bucket) in
  let bucket := bucket <| pb_htlcs := Some (htlcs <| hb_info ::= <[AttemptID attempt := serializeHTLCAttemptInfo attempt]> |>) |> in
  _ ← put_bucket hash bucket;
  lift (fetchPayment bucket).

Definition RegisterAttempt (hash : bytes) (attempt : HTLCAttemptInfo) : PC MPPayment :=
  on_paydb (transaction (registerBody hash attempt)).

Definition updateHtlcKey (hash : bytes) (attemptID : Z) (put : htlcsBucket -> htlcsBucket) : PC MPPayment :=
  on_paydb (transaction (
    bucket ← fetchPaymentBucketUpdate hash;
    p ← lift (fetchPayment bucket);
    _ ← lift (ensureInFlight p);
    htlcs ← match pb_htlcs bucket with None => throw ErrHtlcsBucketNotFound | Some hb => mret hb end;
    _ ← check (bool_decide (hb_info htlcs !! attemptID = None)) (ErrHtlcNotRegistered attemptID);
    _ ← check (bool_decide (is_Some (hb_fail htlcs !! attemptID))) ErrAttemptAlreadyFailed;
    _ ← check (bool_decide (is_Some (hb_settle htlcs !! attemptID))) ErrAttemptAlreadySettled;
    let bucket := bucket <| pb_htlcs := Some (put htlcs) |> in
    _ ← put_bucket hash bucket;
    lift (fetchPayment bucket))).

Definition SettleAttempt (hash : bytes) (attemptID : Z) (settleInfo : HTLCSettleInfo) : PC MPPayment :=
  updateHtlcKey hash attemptID (fun b => b <| hb_settle ::= <[attemptID := settleInfo]> |>).

Definition FailAttempt (hash : bytes) (attemptID : Z) (failInfo : HTLCFailInfo) : PC MPPayment :=
  updateHtlcKey hash attemptID (fun b => b <| hb_fail ::= <[attemptID := failInfo]> |>).

(** [PaymentControl.Fail]; an unknown payment is an [updateErr]. *)
Definition failBody (hash : bytes) (reason : Z) : PDB (MPPayment + payerr) := fun db =>
  match fetchPaymentBucketUpdate hash db with
  | (Err ErrPaymentNotInitiated, db) => (Ok (inr ErrPaymentNotInitiated), db)
  | (Err e, db) => (Err e, db)
  | (Panic, db) => (Panic, db)
  | (Ok bucket, db) =>
      (status ← lift (fetchPaymentStatus bucket);
       if bool_decide (status = StatusUnknown) then mret (inr ErrPaymentNotInitiated)
       else
         let bucket := bucket <| pb_fail := Some reason |> in
         _ ← put_bucket hash bucket;
         payment ← lift (fetchPayment bucket);
         mret (inl payment)) db
  end.

Definition PaymentControl_Fail (hash : bytes) (reason : Z) : PC MPPayment :=
  r ← on_paydb (transaction (failBody hash reason));
  match r with inl p => mret p | inr e => throw e end.

Definition FetchPayment (hash : bytes) (p : PaymentControl) : res payerr MPPayment :=
  fst ((bucket ← fetchPaymentBucketUpdate hash; lift (fetchPayment bucket)) (pc_db p)).

(** The payments in flight, in the order of their hashes. *)
Fixpoint in_flight_from (bs : list paymentBucket) : res payerr (list MPPayment) :=
  match bs with
  | [] => Ok []
  | b :: bs =>
      status ← fetchPaymentStatus b;
      if bool_decide (status = StatusInFlight) then
        p ← fetchPayment b; ps ← in_flight_from bs; mret (p :: ps)
      else in_flight_from bs
  end.

Definition FetchInFlightPayments (p : PaymentControl) : res payerr (list MPPayment) :=
  in_flight_from (snd <$> go_sort (fun a b => bytes_lt a.1 b.1) (map_to_list (payments_of (pc_db p)))).

(** [DB.DeletePayment]. *)
Definition failed_ids (b : paymentBucket) : res payerr (list Z) :=
  htlcs ← match pb_htlcs b with None => mret [] | Some hb => fetchHtlcAttempts hb end;
  mret (AttemptID ∘ ha_Info <$> filter (fun h => is_Some (ha_Failure h)) htlcs).

Definition delete_attempt (b : htlcsBucket) (id : Z) : htlcsBucket :=
  b <| hb_info ::= delete id |> <| hb_fail ::= delete id |> <| hb_settle ::= delete id |>.

Definition DeletePayment (hash : bytes) (failedHtlcsOnly : bool) : PC unit :=
  on_paydb (transaction (fun db =>
    match db_payments db with
    | None => (Ok tt, db)
    | Some ps =>
        match ps !! hash with
        | None => (Err ErrNonBucket, db)
        | Some bucket =>
            (status ← lift (fetchPaymentStatus bucket);
             _ ← check (bool_decide (status = StatusInFlight)) ErrCannotDelete;
             if failedHtlcsOnly then
               toDelete ← lift (failed_ids bucket);
               match pb_htlcs bucket with
               | None => mret tt
               | Some hb => put_bucket hash (bucket <| pb_htlcs := Some (foldl delete_attempt hb toDelete) |>)
               end
             else
               match pb_seq bucket with
               | None => throw ErrSequenceNotFound
               | Some seq =>
                   modify (fun db => db <| db_payments := Some (delete hash ps) |>
                     <| db_index ::= fun ix => foldl (fun ix k => delete k ix) ix (seq :: pb_duplicates bucket) |>)
               end) db
        end
    end)).

(** ** What the attempts of a bucket add up to *)
Lemma Zltb_asym x y : (x <? y) = true -> (y <? x) = false.
Proof. rewrite Z.ltb_lt, Z.ltb_ge. lia. Qed.

(** What is stored pays the same amount to the same hop. *)
Lemma stored_final r : FinalHop (SerializeRoute r) = serializeHop <$> FinalHop r.
Proof. unfold FinalHop. cbn. apply fmap_last. Qed.

Lemma stored_amount r : ReceiverAmt (SerializeRoute r) = ReceiverAmt r.
Proof. unfold ReceiverAmt. rewrite stored_final. destruct (FinalHop r) as [h|]; [|done]. cbn. unfold serializeHop. by destruct (LegacyPayload h). Qed.

(** Settled and failed attempts are registered, none is both, and every route has
    a last hop. *)
Record htlcs_ok (hb : htlcsBucket) : Prop := {
  ho_settle id s : hb_settle hb !! id = Some s -> is_Some (hb_info hb !! id);
  ho_fail id f : hb_fail hb !! id = Some f -> is_Some (hb_info hb !! id);
  ho_once id s f : hb_settle hb !! id = Some s -> hb_fail hb !! id = Some f -> False;
  ho_route id a : hb_info hb !! id = Some a -> is_Some (FinalHop (at_Route a)) /\ AttemptID a = id
}.

Lemma htlcs_ok_ids hb : htlcs_ok hb -> attempt_ids hb = dom (hb_info hb).
Proof.
  intros Hok. unfold attempt_ids. apply set_eq. intros id. rewrite !elem_of_union, !elem_of_dom. split; [|tauto].
  intros [[?|[s Hs]]|[f Hf]]; [done|by eapply ho_settle|by eapply ho_fail].
Qed.

(** The attempts of a bucket, in the order of their IDs. *)
Definition attempts_of (hb : htlcsBucket) : list HTLCAttempt :=
  attempt_of hb <$> go_sort Z.ltb (elements (dom (hb_info hb))).

Lemma fetch_attempts hb : htlcs_ok hb -> fetchHtlcAttempts hb = Ok (attempts_of hb).
Proof.
  intros Hok. unfold fetchHtlcAttempts. rewrite htlcs_ok_ids by done.
  rewrite (proj2 (Nat.eqb_eq _ _)) by (symmetry; apply size_dom). done.
Qed.

Lemma elem_of_attempts hb h : h ∈ attempts_of hb <-> exists id, is_Some (hb_info hb !! id) /\ h = attempt_of hb id.
Proof.
  unfold attempts_of. rewrite list_elem_of_fmap. setoid_rewrite (go_sort_perm Z.ltb). setoid_rewrite elem_of_elements.
  setoid_rewrite elem_of_dom. naive_solver.
Qed.

Lemma inflight_iff hb : inflight_of (attempts_of hb) = true <->
  exists id, is_Some (hb_info hb !! id) /\ hb_settle hb !! id = None /\ hb_fail hb !! id = None.
Proof.
  unfold inflight_of. rewrite existsb_exists. setoid_rewrite <- list_elem_of_In. setoid_rewrite elem_of_attempts. split.
  - intros (h & (id & Hi & ->) & Hf). exists id. unfold in_flight_attempt in Hf. cbn in Hf.
    destruct (hb_settle hb !! id), (hb_fail hb !! id); done.
  - intros (id & Hi & Hs & Hf). exists (attempt_of hb id). split; [by exists id|]. unfold in_flight_attempt. cbn. by rewrite Hs, Hf.
Qed.

Lemma settled_iff hb : htlcs_ok hb -> settled_of (attempts_of hb) = true <-> exists id, is_Some (hb_settle hb !! id).
Proof.
  intros Hok. unfold settled_of. rewrite existsb_exists. setoid_rewrite <- list_elem_of_In. setoid_rewrite elem_of_attempts. split.
  - intros (h & (id & Hi & ->) & Hf). exists id. cbn in Hf. by destruct (hb_fail hb !! id), (hb_settle hb !! id).
  - intros (id & [s Hs]). exists (attempt_of hb id). split; [exists id; split; [by eapply ho_settle|done]|]. cbn. rewrite Hs.
    destruct (hb_fail hb !! id) eqn:Hf; [|done]. by destruct (ho_once _ Hok id s h).
Qed.

Lemma terminal_iff hb m : htlcs_ok hb -> HTLCs m = attempts_of hb ->
  TerminalInfo m = (None, None) <-> (forall id, hb_settle hb !! id = None) /\ mp_FailureReason m = None.
Proof.
  intros Hok Hm. unfold TerminalInfo. rewrite Hm. destruct (omap ha_Settle (attempts_of hb)) as [|s l] eqn:E.
  - split; [intros Hr; injection Hr as Hr; split; [|done]|by intros [_ ->]]. intros id.
    destruct (hb_settle hb !! id) as [s|] eqn:Hs; [|done]. exfalso.
    assert (Hin : s ∈ omap ha_Settle (attempts_of hb)).
    { apply list_elem_of_omap. exists (attempt_of hb id). split; [|done]. apply elem_of_attempts. exists id.
      split; [by eapply ho_settle|done]. }
    rewrite E in Hin. by apply not_elem_of_nil in Hin.
  - split; [done|]. intros [Hn _]. assert (Hin : s ∈ omap ha_Settle (attempts_of hb)) by (rewrite E; by left).
    apply list_elem_of_omap in Hin as (h & Hh & Hs). apply elem_of_attempts in Hh as (id & _ & ->). cbn in Hs. by rewrite Hn in Hs.
Qed.

(** What is sent: the attempts that did not fail. *)
Definition counted (hb : htlcsBucket) (id : Z) : Z :=
  match hb_info hb !! id, hb_fail hb !! id with Some a, None => ReceiverAmt (at_Route a) | _, _ => 0 end.
Definition sent_of (hb : htlcsBucket) : Z := zsum (counted hb <$> elements (dom (hb_info hb))).

Lemma SentAmt_fold l s f : is_uint 64 s ->
  fst (foldl (fun '(sent, fees) h =>
    match ha_Failure h with
    | Some _ => (sent, fees)
    | None => (u64 (sent + ReceiverAmt (at_Route (ha_Info h))), u64 (fees + TotalFees (at_Route (ha_Info h))))
    end) (s, f) l) =
  u64 (s + zsum ((fun h => match ha_Failure h with Some _ => 0 | None => ReceiverAmt (at_Route (ha_Info h)) end) <$> l)).
Proof.
  revert s f. induction l as [|h l IH]; intros s f Hs; cbn.
  { rewrite Z.add_0_r. by rewrite uwrap_id. }
  change (foldr Z.add 0) with zsum. destruct (ha_Failure h); rewrite IH by (done || by apply uwrap_range); [done|].
  unfold uwrap. rewrite Zplus_mod_idemp_l. f_equal. lia.
Qed.

Lemma SentAmt_sent hb m : HTLCs m = attempts_of hb -> fst (SentAmt m) = u64 (sent_of hb).
Proof.
  intros Hm. unfold SentAmt. rewrite Hm, SentAmt_fold by done. rewrite Z.add_0_l. f_equal. unfold sent_of, attempts_of.
  rewrite <- list_fmap_compose, (go_sort_perm Z.ltb). apply zsum_ext_in. intros id Hid. apply elem_of_elements, elem_of_dom in Hid.
  unfold counted. cbn. destruct (hb_info hb !! id) as [a|]; [|by destruct Hid]. by destruct (hb_fail hb !! id).
Qed.

Lemma zsum_le {A} (f g : A -> Z) l : (forall x, x ∈ l -> f x <= g x) -> zsum (f <$> l) <= zsum (g <$> l).
Proof.
  induction l as [|x l IH]; intros Hle; [done|]. rewrite !fmap_cons, !zsum_cons.
  pose proof (Hle x ltac:(by left)). assert (zsum (f <$> l) <= zsum (g <$> l)); [|lia]. apply IH. intros y Hy. apply Hle. by right.
Qed.

Lemma zsum_nonneg {A} (f : A -> Z) l : (forall x, x ∈ l -> 0 <= f x) -> 0 <= zsum (f <$> l).
Proof. intros Hf. rewrite <- (zsum_zero (fun _ => 0) l) by done. by apply zsum_le. Qed.

Lemma zsum_submseteq {A} (f : A -> Z) l k : l ⊆+ k -> (forall x, x ∈ k -> 0 <= f x) -> zsum (f <$> l) <= zsum (f <$> k).
Proof.
  intros [k' Hk]%submseteq_Permutation Hf. rewrite Hk, fmap_app, zsum_app.
  assert (0 <= zsum (f <$> k')); [|lia]. apply zsum_nonneg. intros x Hx. apply Hf. rewrite Hk, elem_of_app. by right.
Qed.

(** Amounts and values of a store: below 2^63. *)
Definition small (z : Z) : Prop := 0 <= z < 2 ^ 63.
Definition amounts_ok (hb : htlcsBucket) : Prop :=
  forall id a, hb_info hb !! id = Some a -> small (ReceiverAmt (at_Route a)).

Lemma counted_nonneg hb id : amounts_ok hb -> 0 <= counted hb id.
Proof.
  intros Ha. unfold counted. destruct (hb_info hb !! id) as [a|] eqn:E; [|done].
  destruct (hb_fail hb !! id); [done|]. by apply (Ha id a).
Qed.

Lemma sent_nonneg hb : amounts_ok hb -> 0 <= sent_of hb.
Proof. intros Ha. apply zsum_nonneg. intros id _. by apply counted_nonneg. Qed.

Lemma sent_mono hb hb' : amounts_ok hb -> dom (hb_info hb') ⊆ dom (hb_info hb) ->
  (forall id, is_Some (hb_info hb' !! id) -> counted hb' id <= counted hb id) -> sent_of hb' <= sent_of hb.
Proof.
  intros Ha Hsub Hc. unfold sent_of. transitivity (zsum (counted hb <$> elements (dom (hb_info hb')))).
  - apply zsum_le. intros id Hid. apply Hc. by apply elem_of_dom, elem_of_elements.
  - apply zsum_submseteq; [by apply elements_submseteq|]. intros id _. by apply counted_nonneg.
Qed.

Lemma sent_register hb id a : htlcs_ok hb -> amounts_ok hb -> small (ReceiverAmt (at_Route a)) ->
  sent_of (hb <| hb_info ::= <[id := a]> |>) <= sent_of hb + ReceiverAmt (at_Route a).
Proof.
  intros Hok Ha Hs. set (hb' := hb <| hb_info ::= <[id := a]> |>).
  assert (Hother : forall x, x <> id -> counted hb' x = counted hb x).
  { intros x Hx. unfold counted, hb'. cbn. by rewrite lookup_insert_ne. }
  assert (Hid : counted hb' id <= ReceiverAmt (at_Route a)).
  { unfold counted, hb'. cbn. rewrite lookup_insert_eq. destruct (hb_fail hb !! id); [apply Hs|lia]. }
  unfold sent_of. change (hb_info hb') with (<[id := a]> (hb_info hb)). rewrite dom_insert_L.
  destruct (decide (id ∈ dom (hb_info hb))) as [Hin|Hin].
  - rewrite (subseteq_union_1_L {[id]} (dom (hb_info hb))) by set_solver.
    transitivity (zsum ((fun x => counted hb x + (if decide (x = id) then ReceiverAmt (at_Route a) else 0)) <$> elements (dom (hb_info hb)))).
    + apply zsum_le. intros x _. case_decide as E; [|rewrite Hother by done; lia]. subst x. pose proof (counted_nonneg hb id Ha). lia.
    + rewrite zsum_add. apply Z.add_le_mono; [lia|]. rewrite zsum_single; [lia|apply NoDup_elements|by apply elem_of_elements].
  - rewrite (elements_union_singleton _ _ Hin), fmap_cons, zsum_cons.
    rewrite (zsum_ext_in (counted hb') (counted hb)); [lia|]. intros x Hx%elem_of_elements. apply Hother. by intros ->.
Qed.

(** ** The invariant of a payment's bucket *)
Definition attempts_in (b : paymentBucket) : htlcsBucket := default empty_htlcs (pb_htlcs b).

Lemma htlcs_put b hb : attempts_in (b <| pb_htlcs := Some hb |>) = hb.
Proof. done. Qed.

Record bucket_ok (b : paymentBucket) : Prop := {
  bo_seq : is_Some (pb_seq b);
  bo_info : exists info, pb_info b = Some info /\ small (pi_Value info) /\ sent_of (attempts_in b) <= pi_Value info;
  bo_htlcs : htlcs_ok (attempts_in b);
  bo_amounts : amounts_ok (attempts_in b);
  bo_duplicates : pb_duplicates b = []
}.

Definition status_of (b : paymentBucket) : PaymentStatus :=
  let hs := attempts_of (attempts_in b) in
  if negb (inflight_of hs) && settled_of hs then StatusSucceeded
  else if negb (inflight_of hs) && bool_decide (is_Some (pb_fail b)) then StatusFailed else StatusInFlight.

Lemma fetch_bucket b : bucket_ok b -> exists seq info, pb_seq b = Some seq /\ pb_info b = Some info /\
  small (pi_Value info) /\ sent_of (attempts_in b) <= pi_Value info /\
  fetchPayment b = Ok (mkPayment seq info (attempts_of (attempts_in b)) (pb_fail b) (status_of b)) /\
  fetchPaymentStatus b = Ok (status_of b).
Proof.
  intros [[seq Hs] (info & Hi & Hsm & Hsent) Hok _ _]. exists seq, info.
  assert (Hf : fetchPayment b = Ok (mkPayment seq info (attempts_of (attempts_in b)) (pb_fail b) (status_of b))).
  { unfold fetchPayment, status_of. rewrite Hs, Hi. unfold attempts_in in *. destruct (pb_htlcs b) as [hb|]; cbn [default] in *.
    - unfold mbind, res_mbind, res_bind. by rewrite fetch_attempts.
    - done. }
  do 5 (split; [done|]). unfold fetchPaymentStatus. rewrite Hi, Hf. done.
Qed.

Lemma transaction_snd {S E A} (m : M S E A) s :
  (exists a s', m s = (Ok a, s') /\ transaction m s = (Ok a, s')) \/ snd (transaction m s) = s.
Proof. unfold transaction. destruct (m s) as [[a|e|] s']; [left; by exists a, s'|by right..]. Qed.

Lemma bucket_inv hash db b db' : fetchPaymentBucketUpdate hash db = (Ok b, db') ->
  db' = db /\ exists ps, db_payments db = Some ps /\ ps !! hash = Some b.
Proof.
  unfold fetchPaymentBucketUpdate. destruct (db_payments db) as [ps|]; [|done]. destruct (ps !! hash) as [b0|] eqn:E; [|done].
  intros Hr. injection Hr as <- <-. split; [done|]. by exists ps.
Qed.

Definition with_payment (hash : bytes) (b : paymentBucket) (db : paymentDB) : paymentDB :=
  db <| db_payments := Some (<[hash := b]> (payments_of db)) |>.

(** A registered attempt: what was checked, and what it leaves. *)
Lemma register_inv hash a db p db' : registerBody hash a db = (Ok p, db') ->
  exists b pm, payments_of db !! hash = Some b /\ fetchPayment b = Ok pm /\ TerminalInfo pm = (None, None) /\
    is_Some (FinalHop (at_Route a)) /\ u64 (fst (SentAmt pm) + ReceiverAmt (at_Route a)) <= pi_Value (mp_Info pm) /\
    db' = with_payment hash (b <| pb_htlcs := Some (attempts_in b <| hb_info ::= <[AttemptID a := serializeHTLCAttemptInfo a]> |>) |>) db.
Proof.
  unfold registerBody. intros Hrun. apply M_bind_Ok in Hrun as (b & d1 & [-> (ps & Hps & Hb)]%bucket_inv & Hrun).
  apply M_bind_Ok in Hrun as (pm & d2 & Hf & Hrun). injection Hf as Hf <-.
  apply M_bind_Ok in Hrun as ([] & d3 & [Ht ->]%check_Ok & Hrun).
  apply M_bind_Ok in Hrun as ([] & d4 & He & Hrun). injection He as _ <-.
  apply M_bind_Ok in Hrun as (mpp & d5 & Hm & Hrun). injection Hm as Hm <-.
  apply M_bind_Ok in Hrun as ([] & d6 & Hs & Hrun). injection Hs as _ <-. cbv zeta in Hrun.
  apply M_bind_Ok in Hrun as ([] & d7 & [_ ->]%check_Ok & Hrun).
  apply M_bind_Ok in Hrun as ([] & d8 & [Hle%Z.ltb_ge ->]%check_Ok & Hrun).
  apply M_bind_Ok in Hrun as ([] & d9 & Hput & Hrun). injection Hput as <-. injection Hrun as _ <-.
  exists b, pm. unfold payments_of. rewrite Hps. split; [done|]. split; [done|].
  split; [by destruct (TerminalInfo pm) as [[s|] [f|]]|]. unfold final_mpp in Hm.
  destruct (FinalHop (at_Route a)); [|done]. split; [done|]. split; [done|]. unfold with_payment, payments_of, attempts_in. by rewrite Hps.
Qed.

Lemma update_inv hash id put db p db' :
  (bucket ← fetchPaymentBucketUpdate hash;
    p ← lift (fetchPayment bucket);
    _ ← lift (ensureInFlight p);
    htlcs ← match pb_htlcs bucket with None => throw ErrHtlcsBucketNotFound | Some hb => mret hb end;
    _ ← check (bool_decide (hb_info htlcs !! id = None)) (ErrHtlcNotRegistered id);
    _ ← check (bool_decide (is_Some (hb_fail htlcs !! id))) ErrAttemptAlreadyFailed;
    _ ← check (bool_decide (is_Some (hb_settle htlcs !! id))) ErrAttemptAlreadySettled;
    let bucket := bucket <| pb_htlcs := Some (put htlcs) |> in
    _ ← put_bucket hash bucket;
    lift (fetchPayment bucket)) db = (Ok p, db') ->
  exists b, payments_of db !! hash = Some b /\ is_Some (hb_info (attempts_in b) !! id) /\ hb_fail (attempts_in b) !! id = None /\
    hb_settle (attempts_in b) !! id = None /\ db' = with_payment hash (b <| pb_htlcs := Some (put (attempts_in b)) |>) db.
Proof.
  intros Hrun. apply M_bind_Ok in Hrun as (b & d1 & [-> (ps & Hps & Hb)]%bucket_inv & Hrun).
  apply M_bind_Ok in Hrun as (pm & d2 & Hf & Hrun). injection Hf as Hf <-.
  apply M_bind_Ok in Hrun as ([] & d4 & He & Hrun). injection He as _ <-.
  apply M_bind_Ok in Hrun as (hb & d5 & Hh & Hrun). destruct (pb_htlcs b) as [hb0|] eqn:Hhb; [|done]. injection Hh as <- <-.
  apply M_bind_Ok in Hrun as ([] & d6 & [Hi ->]%check_Ok & Hrun). apply M_bind_Ok in Hrun as ([] & d7 & [Hfl ->]%check_Ok & Hrun).
  apply M_bind_Ok in Hrun as ([] & d8 & [Hs ->]%check_Ok & Hrun). cbv zeta in Hrun.
  apply M_bind_Ok in Hrun as ([] & d9 & Hput & Hrun). injection Hput as <-. injection Hrun as _ <-.
  apply bool_decide_eq_false in Hi, Hfl, Hs. exists b. unfold with_payment, payments_of, attempts_in. rewrite Hps, Hhb. cbn.
  split; [done|]. split; [by apply not_eq_None_Some|]. by rewrite !eq_None_not_Some.
Qed.

(** Each transition keeps the bucket well formed. *)
Lemma bucket_register b a pm : bucket_ok b -> fetchPayment b = Ok pm -> small (ReceiverAmt (at_Route a)) ->
  is_Some (FinalHop (at_Route a)) -> u64 (fst (SentAmt pm) + ReceiverAmt (at_Route a)) <= pi_Value (mp_Info pm) ->
  bucket_ok (b <| pb_htlcs := Some (attempts_in b <| hb_info ::= <[AttemptID a := a]> |>) |>).
Proof.
  intros Hok Hf Ha Hr Hle. destruct (fetch_bucket b Hok) as (seq & info & Hs & Hi & Hsm & Hsent & Hf' & _).
  rewrite Hf in Hf'. injection Hf' as Epm. destruct Hok as [_ _ Hh Hamt Hd].
  rewrite (SentAmt_sent (attempts_in b) pm) in Hle by by rewrite Epm.
  replace (mp_Info pm) with info in Hle by by rewrite Epm. pose proof (sent_nonneg _ Hamt) as Hp. unfold small in *.
  rewrite (uwrap_id 64 (sent_of (attempts_in b))), uwrap_id in Hle by (unfold is_uint; lia).
  pose proof (sent_register (attempts_in b) (AttemptID a) a Hh Hamt Ha) as Hreg.
  split; rewrite ?htlcs_put; [by exists seq| | | |done].
  - exists info. split; [done|]. split; [done|lia].
  - split; cbn.
    + intros id s Hx. rewrite lookup_insert_is_Some'. right. by eapply ho_settle.
    + intros id s Hx. rewrite lookup_insert_is_Some'. right. by eapply ho_fail.
    + apply (ho_once _ Hh).
    + intros id x [[<- <-]|[_ Hx]]%lookup_insert_Some; [done|by apply (ho_route _ Hh)].
  - intros id x. cbn. intros [[<- <-]|[_ Hx]]%lookup_insert_Some; [done|by apply (Hamt id)].
Qed.

Lemma bucket_put b (put : htlcsBucket -> htlcsBucket) : bucket_ok b -> hb_info (put (attempts_in b)) = hb_info (attempts_in b) ->
  (forall id, counted (put (attempts_in b)) id <= counted (attempts_in b) id) -> htlcs_ok (put (attempts_in b)) ->
  bucket_ok (b <| pb_htlcs := Some (put (attempts_in b)) |>).
Proof.
  intros [Hs (info & Hi & Hsm & Hsent) Hh Ha Hd] Hinfo Hc Hok. split; rewrite ?htlcs_put; try done.
  - exists info. split; [done|]. split; [done|].
    assert (sent_of (put (attempts_in b)) <= sent_of (attempts_in b)); [|lia]. apply sent_mono; [done|by rewrite Hinfo|done].
  - intros id a. rewrite Hinfo. apply Ha.
Qed.

(** ** The store *)

(** The last sequence number handed out, or reserved before a restart. *)
Definition last_seq (p : PaymentControl) : Z :=
  if currPaymentSeq p =? 0 then db_sequence (pc_db p) else currPaymentSeq p.

Record store_ok (p : PaymentControl) : Prop := {
  so_bucket h b : payments_of (pc_db p) !! h = Some b -> bucket_ok b;
  so_seq h b n : payments_of (pc_db p) !! h = Some b -> pb_seq b = Some n -> 0 < n <= last_seq p;
  so_unique h h' b b' n : payments_of (pc_db p) !! h = Some b -> payments_of (pc_db p) !! h' = Some b' ->
    pb_seq b = Some n -> pb_seq b' = Some n -> h = h';
  so_index n id : db_index (pc_db p) !! n = Some id <-> exists h b info, payments_of (pc_db p) !! h = Some b /\
    pb_seq b = Some n /\ pb_info b = Some info /\ PaymentIdentifier info = id;
  so_counters : (currPaymentSeq p = 0 /\ storedPaymentSeq p = 0 /\ 0 <= db_sequence (pc_db p)) \/
    (0 < currPaymentSeq p <= storedPaymentSeq p /\ storedPaymentSeq p = db_sequence (pc_db p))
}.

(** What can be done to a store: the methods, and a restart, which forgets the
    counters in memory. *)
Inductive payop : Type :=
| PInit (hash : bytes) (info : PaymentCreationInfo)
| PRegister (hash : bytes) (attempt : HTLCAttemptInfo)
| PSettle (hash : bytes) (id : Z) (info : HTLCSettleInfo)
| PFailAttempt (hash : bytes) (id : Z) (info : HTLCFailInfo)
| PFail (hash : bytes) (reason : Z)
| PRestart.

Definition run_payop (op : payop) (p : PaymentControl) : PaymentControl :=
  match op with
  | PInit hash info => snd (InitPayment hash info p)
  | PRegister hash attempt => snd (RegisterAttempt hash attempt p)
  | PSettle hash id info => snd (SettleAttempt hash id info p)
  | PFailAttempt hash id info => snd (FailAttempt hash id info p)
  | PFail hash reason => snd (PaymentControl_Fail hash reason p)
  | PRestart => mkPaymentControl 0 0 (pc_db p)
  end.

Definition payop_small (op : payop) : Prop :=
  match op with
  | PInit _ info => small (pi_Value info)
  | PRegister _ attempt => small (ReceiverAmt (at_Route attempt))
  | _ => True
  end.

Definition run_payops (ops : list payop) (p : PaymentControl) : PaymentControl := foldl (fun p op => run_payop op p) p ops.

Definition new_control : PaymentControl := mkPaymentControl 0 0 (mkPaymentDB None ∅ 0).

Lemma new_control_ok : store_ok new_control.
Proof.
  assert (Hno : forall h b, payments_of (pc_db new_control) !! h = Some b -> False) by (intros h b; cbn; by rewrite lookup_empty).
  split.
  - by intros h b Hb%Hno.
  - by intros h b n Hb%Hno.
  - by intros h h' b b' n Hb%Hno.
  - intros n id. cbn -[payments_of]. rewrite lookup_empty. split; [done|]. by intros (h & b & info & Hb%Hno & _).
  - by left.
Qed.

Lemma on_paydb_snd {A} (m : PDB A) p : snd (on_paydb m p) = p <| pc_db := snd (m (pc_db p)) |>.
Proof. unfold on_paydb. by destruct (m (pc_db p)). Qed.

(** A new bucket for a known payment that keeps its number and its info. *)
Lemma store_put p h b b' : store_ok p -> payments_of (pc_db p) !! h = Some b -> bucket_ok b' -> pb_seq b' = pb_seq b ->
  pb_info b' = pb_info b -> store_ok (p <| pc_db := with_payment h b' (pc_db p) |>).
Proof.
  intros [S1 S2 S3 S4 S5] Hb Hok Es Ei.
  assert (Hfind : forall h0 b0, payments_of (with_payment h b' (pc_db p)) !! h0 = Some b0 ->
    exists b1, payments_of (pc_db p) !! h0 = Some b1 /\ pb_seq b0 = pb_seq b1 /\ pb_info b0 = pb_info b1 /\ bucket_ok b0).
  { intros h0 b0. cbn. intros [[<- <-]|[_ H0]]%lookup_insert_Some; [by exists b|]. exists b0. split; [done|]. split; [done|split; [done|]]. by apply (S1 h0). }
  assert (Hback : forall h0 b1, payments_of (pc_db p) !! h0 = Some b1 ->
    exists b0, payments_of (with_payment h b' (pc_db p)) !! h0 = Some b0 /\ pb_seq b0 = pb_seq b1 /\ pb_info b0 = pb_info b1).
  { intros h0 b1 H1. cbn. destruct (decide (h = h0)) as [<-|Hne].
    - rewrite Hb in H1. injection H1 as <-. exists b'. by rewrite lookup_insert_eq.
    - exists b1. by rewrite lookup_insert_ne. }
  split; cbn -[payments_of with_payment].
  - intros h0 b0 (b1 & _ & _ & _ & ?)%Hfind. done.
  - intros h0 b0 n (b1 & Hb1 & -> & _)%Hfind. by apply (S2 h0).
  - intros h0 h1 b0 b1 n (c0 & Hc0 & -> & _)%Hfind (c1 & Hc1 & -> & _)%Hfind. by apply (S3 h0 h1).
  - intros n id. change (db_index (with_payment h b' (pc_db p))) with (db_index (pc_db p)). rewrite S4. split.
    + intros (h0 & b1 & info & (b0 & Hb0 & <- & <-)%Hback & ?). by exists h0, b0, info.
    + intros (h0 & b0 & info & (b1 & Hb1 & -> & -> & _)%Hfind & ?). by exists h0, b1, info.
  - done.
Qed.

(** The next sequence number is above all before it. *)
Lemma next_sequence p : store_ok p -> db_sequence (pc_db p) + paymentSeqBlockSize < 2 ^ 64 ->
  exists n p', nextPaymentSequence p = (Ok n, p') /\ store_ok p' /\ n = last_seq p + 1 /\ n = last_seq p' /\
    (forall h b k, payments_of (pc_db p') !! h = Some b -> pb_seq b = Some k -> k < n) /\
    payments_of (pc_db p') = payments_of (pc_db p) /\ db_index (pc_db p') = db_index (pc_db p).
Proof.
  intros [S1 S2 S3 S4 S5] Hroom. unfold nextPaymentSequence. unfold paymentSeqBlockSize in *.
  eexists _, _. split; [reflexivity|].
  set (p1 := if currPaymentSeq p =? storedPaymentSeq p then _ else _).
  assert (Hp1 : payments_of (pc_db p1) = payments_of (pc_db p) /\ db_index (pc_db p1) = db_index (pc_db p) /\
    currPaymentSeq p1 = last_seq p /\ 0 <= last_seq p < storedPaymentSeq p1 /\ storedPaymentSeq p1 = db_sequence (pc_db p1) /\
    storedPaymentSeq p1 < 2 ^ 64).
  { unfold p1, last_seq. destruct S5 as [(E1 & E2 & E3)|(E1 & E2)].
    - rewrite E1, E2. cbn. rewrite E1. cbn. rewrite uwrap_id by (unfold is_uint; lia). done || (repeat split; lia).
    - rewrite (proj2 (Z.eqb_neq (currPaymentSeq p) 0)) by lia.
      destruct (Z.eqb_spec (currPaymentSeq p) (storedPaymentSeq p)) as [E|E]; cbn.
      + rewrite (proj2 (Z.eqb_neq (currPaymentSeq p) 0)) by lia. rewrite uwrap_id by (unfold is_uint; lia). repeat split; lia.
      + repeat split; lia. }
  destruct Hp1 as (E1 & E2 & E3 & E4 & E5 & E6). rewrite E3.
  assert (Hn : u64 (last_seq p + 1) = last_seq p + 1) by (apply uwrap_id; unfold is_uint; lia). rewrite Hn.
  assert (Hl : last_seq (p1 <| currPaymentSeq := last_seq p + 1 |>) = last_seq p + 1).
  { unfold last_seq at 1. cbn. by rewrite (proj2 (Z.eqb_neq (last_seq p + 1) 0)) by lia. }
  split; [|split; [done|split; [done|split; [|done]]]].
  - split; cbn -[payments_of last_seq]; rewrite ?E1, ?E2; [done| |done|done|].
    + intros h b n Hb Hs. specialize (S2 h b n Hb Hs). rewrite Hl. lia.
    + right. rewrite <- E5. lia.
  - cbn -[payments_of]. rewrite E1. intros h b k Hb Hk. specialize (S2 h b k Hb Hk). lia.
Qed.

(** *** Opening a payment *)
Definition opened_bucket (n : Z) (info : PaymentCreationInfo) (b : paymentBucket) : paymentBucket :=
  b <| pb_seq := Some n |> <| pb_info := Some info |> <| pb_htlcs := None |> <| pb_fail := None |>.

Definition reindex (old : option Z) (n : Z) (id : bytes) (ix : gmap Z bytes) : gmap Z bytes :=
  <[n := id]> (match old with Some seq => delete seq ix | None => ix end).

Definition opened_db (n : Z) (hash : bytes) (info : PaymentCreationInfo) (b : paymentBucket) (db : paymentDB) : paymentDB :=
  with_payment hash (opened_bucket n info b) db <| db_index ::= reindex (pb_seq b) n (PaymentIdentifier info) |>.

Lemma init_run n hash info db : (forall b, payments_of db !! hash = Some b -> bucket_ok b) ->
  initBody n hash info db =
    match payments_of db !! hash with
    | None => (Ok None, opened_db n hash info empty_bucket db)
    | Some b =>
        match status_of b with
        | StatusInFlight => (Ok (Some ErrPaymentInFlight), with_payment hash b db)
        | StatusSucceeded => (Ok (Some ErrAlreadyPaid), with_payment hash b db)
        | _ => (Ok None, opened_db n hash info b db)
        end
    end.
Proof.
  intros Hok. unfold initBody.
  rewrite (M_bind_run (createPaymentBucket hash) _ db (default empty_bucket (payments_of db !! hash))
    (with_payment hash (default empty_bucket (payments_of db !! hash)) db) eq_refl).
  destruct (payments_of db !! hash) as [b|] eqn:Hb; cbn [default].
  - destruct (fetch_bucket b (Hok b eq_refl)) as (seq & i0 & Hs & Hi & _ & _ & _ & Hst).
    rewrite (M_bind_run (lift (fetchPaymentStatus b)) _ _ (status_of b) _ ltac:(unfold lift; by rewrite Hst)).
    destruct (status_of b); try done; unfold opened_db, reindex, mbind, M_bind, modify, mret, M_ret, put_bucket; cbn; rewrite Hs; cbn;
      unfold with_payment, payments_of; cbn; by rewrite insert_insert_eq.
  - rewrite (M_bind_run (lift (fetchPaymentStatus empty_bucket)) _ _ StatusUnknown _ eq_refl).
    unfold opened_db, reindex, mbind, M_bind, modify, mret, M_ret, put_bucket; cbn.
    unfold with_payment, payments_of; cbn; by rewrite insert_insert_eq.
Qed.

Lemma opened_bucket_ok n info b : small (pi_Value info) -> pb_duplicates b = [] -> bucket_ok (opened_bucket n info b).
Proof.
  intros Hs Hd. split; [by exists n| | | |done].
  - exists info. split; [done|]. split; [done|]. change (0 <= pi_Value info). apply Hs.
  - by split.
  - by intros id a.
Qed.

Lemma store_open p n hash info : store_ok p -> n = last_seq p -> 0 < n ->
  (forall h b k, payments_of (pc_db p) !! h = Some b -> pb_seq b = Some k -> k < n) -> small (pi_Value info) ->
  store_ok (p <| pc_db := opened_db n hash info (default empty_bucket (payments_of (pc_db p) !! hash)) (pc_db p) |>).
Proof.
  intros [S1 S2 S3 S4 S5] Hn Hpos Hlt Hsm. set (b := default empty_bucket (payments_of (pc_db p) !! hash)).
  set (nb := opened_bucket n info b).
  assert (Hps : payments_of (opened_db n hash info b (pc_db p)) = <[hash := nb]> (payments_of (pc_db p))) by done.
  assert (Hd : pb_duplicates b = []).
  { unfold b. destruct (payments_of (pc_db p) !! hash) as [b0|] eqn:E; [|done]. by apply (bo_duplicates b0), (S1 hash). }
  assert (Hold : forall h b0 k, payments_of (pc_db p) !! h = Some b0 -> pb_seq b0 = Some k -> pb_seq b = Some k -> h = hash).
  { intros h b0 k Hb0 Hk0 Hk. unfold b in Hk. destruct (payments_of (pc_db p) !! hash) as [b1|] eqn:E; [|done].
    by apply (S3 h hash b0 b1 k). }
  split; cbn -[payments_of opened_db]; rewrite ?Hps.
  - intros h b0. intros [[<- <-]|[_ H0]]%lookup_insert_Some; [by apply opened_bucket_ok|by apply (S1 h)].
  - intros h b0 k. change (last_seq (p <| pc_db := opened_db n hash info b (pc_db p) |>)) with (last_seq p).
    intros [[<- <-]|[_ H0]]%lookup_insert_Some Hk; [injection Hk as <-; lia|by apply (S2 h b0)].
  - intros h h' b0 b1 k [[<- <-]|[_ H0]]%lookup_insert_Some [[<- <-]|[_ H1]]%lookup_insert_Some Hk Hk'; [done|..].
    + injection Hk as <-. specialize (Hlt h' b1 n H1 Hk'). lia.
    + injection Hk' as <-. specialize (Hlt h b0 n H0 Hk). lia.
    + by apply (S3 h h' b0 b1 k).
  - intros k id. change (db_index (opened_db n hash info b (pc_db p))) with (reindex (pb_seq b) n (PaymentIdentifier info) (db_index (pc_db p))).
    unfold reindex. rewrite lookup_insert_Some. split.
    + intros [[<- <-]|[Hne Hix]]; [exists hash, nb, info; by rewrite lookup_insert_eq|].
      assert (Hix' : db_index (pc_db p) !! k = Some id /\ pb_seq b <> Some k).
      { destruct (pb_seq b) as [s|]; [|done]. apply lookup_delete_Some in Hix as [Hs Hix]. split; [done|]. intros E. by injection E as ->. }
      destruct Hix' as [Hx Hsb]. apply S4 in Hx as (h & b0 & i0 & Hb0 & Hs0 & Hi0 & Hid). exists h, b0, i0.
      rewrite lookup_insert_ne; [done|]. intros <-. apply Hsb. unfold b. by rewrite Hb0.
    + intros (h & b0 & i0 & [[<- <-]|[Hne Hb0]]%lookup_insert_Some & Hs0 & Hi0 & Hid).
      * injection Hs0 as <-. injection Hi0 as <-. by left.
      * right. pose proof (Hlt h b0 k Hb0 Hs0). split; [lia|].
        assert (Hx : db_index (pc_db p) !! k = Some id) by (apply S4; by exists h, b0, i0).
        destruct (pb_seq b) as [s|] eqn:Es; [|done]. apply lookup_delete_Some. split; [|done]. intros ->.
        by apply Hne, eq_sym, (Hold h b0 k).
  - done.
Qed.

Lemma init_store p hash info : store_ok p -> small (pi_Value info) -> db_sequence (pc_db p) + paymentSeqBlockSize < 2 ^ 64 ->
  store_ok (snd (InitPayment hash info p)) /\
  fst (InitPayment hash info p) =
    match payments_of (pc_db p) !! hash with
    | Some b => match status_of b with StatusInFlight => Err ErrPaymentInFlight | StatusSucceeded => Err ErrAlreadyPaid | _ => Ok tt end
    | None => Ok tt
    end /\
  (forall h, h <> hash -> payments_of (pc_db (snd (InitPayment hash info p))) !! h = payments_of (pc_db p) !! h) /\
  (fst (InitPayment hash info p) <> Ok tt -> payments_of (pc_db (snd (InitPayment hash info p))) = payments_of (pc_db p)).
Proof.
  intros Hok Hsm Hroom. destruct (next_sequence p Hok Hroom) as (n & p1 & Hrun & Hok1 & Hn & Hn1 & Hlt & Eps & Eix).
  unfold InitPayment. rewrite (M_bind_run _ _ _ _ _ Hrun). unfold updateErr.
  pose proof (init_run n hash info (pc_db p1) ltac:(intros b; apply (so_bucket _ Hok1))) as Hbody.
  pose proof (store_open p1 n hash info Hok1 Hn1) as Hopen. rewrite Eps in Hbody, Hopen.
  assert (Hpos : 0 < n).
  { rewrite Hn. destruct (so_counters _ Hok) as [(E1 & E2 & E3)|[E1 E2]]; unfold last_seq; [by rewrite E1; cbn; lia|].
    rewrite (proj2 (Z.eqb_neq _ _)); lia. }
  specialize (Hopen Hpos ltac:(by rewrite <- Eps) Hsm).
  assert (Hsame : forall b, payments_of (pc_db p) !! hash = Some b -> store_ok (p1 <| pc_db := with_payment hash b (pc_db p1) |>) /\
    payments_of (with_payment hash b (pc_db p1)) = payments_of (pc_db p)).
  { intros b Hb. split; [apply (store_put p1 hash b b); try done; [by rewrite Eps|by apply (so_bucket _ Hok hash)]|].
    cbn. rewrite Eps. by apply insert_id. }
  unfold mbind, M_bind, on_paydb, transaction. rewrite Hbody.
  destruct (payments_of (pc_db p) !! hash) as [b|] eqn:Hb; cbn [default] in Hopen.
  - destruct (Hsame b eq_refl) as [Hs1 Hs2].
    destruct (status_of b); cbn -[payments_of opened_db with_payment]; (split; [done|]); (split; [done|]);
      (split; [|done]); intros h Hh; try (by rewrite Hs2); cbn; rewrite Eps; by rewrite lookup_insert_ne.
  - cbn -[payments_of opened_db with_payment]. split; [done|]. split; [done|]. split; [|done].
    intros h Hh. cbn. rewrite Eps. by rewrite lookup_insert_ne.
Qed.

(** ** The store from step to step *)
Definition pay_step (p p' : PaymentControl) : Prop :=
  exists op, payop_small op /\ db_sequence (pc_db p) + paymentSeqBlockSize < 2 ^ 64 /\ p' = run_payop op p.

Definition settled_at (p : PaymentControl) (hash : bytes) (id : Z) (s : HTLCSettleInfo) : Prop :=
  exists b, payments_of (pc_db p) !! hash = Some b /\ hb_settle (attempts_in b) !! id = Some s.

Definition infos_at (p : PaymentControl) (hash : bytes) : option (gmap Z HTLCAttemptInfo) :=
  hb_info ∘ attempts_in <$> payments_of (pc_db p) !! hash.

Lemma settled_status b id s : bucket_ok b -> hb_settle (attempts_in b) !! id = Some s ->
  status_of b = if inflight_of (attempts_of (attempts_in b)) then StatusInFlight else StatusSucceeded.
Proof.
  intros Hok Hs. unfold status_of. rewrite (proj2 (settled_iff _ (bo_htlcs _ Hok))) by by (exists id; rewrite Hs).
  by destruct (inflight_of _).
Qed.

(** One bucket rewritten, keeping number, info, attempts and settlements. *)
Lemma keep_put p h b b' hash id s : payments_of (pc_db p) !! h = Some b ->
  hb_info (attempts_in b') = hb_info (attempts_in b) ->
  (forall id s, hb_settle (attempts_in b) !! id = Some s -> hb_settle (attempts_in b') !! id = Some s) ->
  settled_at p hash id s ->
  settled_at (p <| pc_db := with_payment h b' (pc_db p) |>) hash id s /\
  infos_at (p <| pc_db := with_payment h b' (pc_db p) |>) hash = infos_at p hash.
Proof.
  intros Hb Hi Hs (b0 & Hb0 & Hs0). unfold settled_at, infos_at. cbn. destruct (decide (h = hash)) as [<-|Hne].
  - rewrite lookup_insert_eq, Hb. rewrite Hb in Hb0. injection Hb0 as <-. split; [exists b'; split; [done|by apply Hs]|].
    cbn. by rewrite Hi.
  - rewrite lookup_insert_ne by done. split; [by exists b0|done].
Qed.

Lemma fail_run hash reason db ps b : db_payments db = Some ps -> ps !! hash = Some b -> bucket_ok b ->
  exists pm, failBody hash reason db = (Ok (inl pm), with_payment hash (b <| pb_fail := Some reason |>) db).
Proof.
  intros Hps Hb Hok. destruct (fetch_bucket b Hok) as (seq & info & Hs & Hi & _ & _ & _ & Hst).
  assert (Hok' : bucket_ok (b <| pb_fail := Some reason |>)) by by destruct Hok; split.
  destruct (fetch_bucket _ Hok') as (seq' & info' & _ & _ & _ & _ & Hf' & _).
  unfold failBody, fetchPaymentBucketUpdate. rewrite Hps, Hb.
  rewrite (M_bind_run (lift (fetchPaymentStatus b)) _ db (status_of b) db ltac:(unfold lift; by rewrite Hst)).
  rewrite bool_decide_eq_false_2 by (unfold status_of; repeat case_match; done). cbv zeta.
  rewrite (M_bind_run (put_bucket hash (b <| pb_fail := Some reason |>)) _ db tt (with_payment hash (b <| pb_fail := Some reason |>) db) eq_refl).
  rewrite (M_bind_run (lift (fetchPayment (b <| pb_fail := Some reason |>))) _ _ _ _ ltac:(unfold lift; by rewrite Hf')).
  by eexists.
Qed.

(** Every operation keeps the store, and what is settled stays so, with the same
    attempts. *)
Lemma payop_step p op : store_ok p -> payop_small op -> db_sequence (pc_db p) + paymentSeqBlockSize < 2 ^ 64 ->
  store_ok (run_payop op p) /\
  forall hash id s, settled_at p hash id s -> settled_at (run_payop op p) hash id s /\ infos_at (run_payop op p) hash = infos_at p hash.
Proof.
  intros Hok Hsm Hroom. destruct op as [h info|h a|h i si|h i fi|h reason|]; cbn [run_payop payop_small] in *.
  - destruct (init_store p h info Hok Hsm Hroom) as (Hok' & Hr & Hother & Hfail). split; [done|].
    intros hash id s (b & Hb & Hs). unfold settled_at, infos_at. destruct (decide (hash = h)) as [->|Hne].
    + assert (Hne : fst (InitPayment h info p) <> Ok tt).
      { rewrite Hr, Hb, (settled_status b id s (so_bucket _ Hok h b Hb) Hs). by destruct (inflight_of _). }
      rewrite (Hfail Hne). split; [by exists b|done].
    + rewrite Hother by done. split; [by exists b|done].
  - unfold RegisterAttempt. rewrite on_paydb_snd. destruct (transaction_snd (registerBody h a) (pc_db p)) as [(pm & db' & Hrun & ->)| ->].
    2: { by replace (p <| pc_db := pc_db p |>) with p by by destruct p. }
    destruct (register_inv _ _ _ _ _ Hrun) as (b & m & Hb & Hf & Ht & Hr & Hle & ->). cbn [snd].
    pose proof (so_bucket _ Hok h b Hb) as Hbok. split.
    { apply (store_put p h b); try done. apply (bucket_register b (serializeHTLCAttemptInfo a) m Hbok Hf); cbn [at_Route serializeHTLCAttemptInfo].
      - by rewrite stored_amount.
      - rewrite stored_final. by apply fmap_is_Some.
      - by rewrite stored_amount. }
    intros hash id s Hs. unfold settled_at, infos_at. cbn. destruct (decide (h = hash)) as [<-|Hne].
    + exfalso. destruct Hs as (b0 & Hb0 & Hs). rewrite Hb in Hb0. injection Hb0 as <-.
      destruct (fetch_bucket b Hbok) as (seq & info & _ & _ & _ & _ & Hf' & _). rewrite Hf in Hf'. injection Hf' as ->.
      apply (terminal_iff (attempts_in b)) in Ht as [Hn _]; [|by apply Hbok|done]. by rewrite Hn in Hs.
    + rewrite lookup_insert_ne by done. done.
  - unfold SettleAttempt, updateHtlcKey. rewrite on_paydb_snd.
    match goal with |- context [transaction ?m (pc_db p)] => destruct (transaction_snd m (pc_db p)) as [(pm & db' & Hrun & ->)| ->] end.
    2: { by replace (p <| pc_db := pc_db p |>) with p by by destruct p. }
    destruct (update_inv _ _ _ _ _ _ Hrun) as (b & Hb & Hi & Hf & Hn & ->). cbn [snd]. pose proof (so_bucket _ Hok h b Hb) as Hbok. split.
    { apply (store_put p h b); try done. apply (bucket_put b (fun hb => hb <| hb_settle ::= <[i := si]> |>)); try done.
      destruct (bo_htlcs _ Hbok) as [K1 K2 K3 K4]. split; cbn; try done.
      - intros x s [[<- _]|[_ Hx]]%lookup_insert_Some; [done|by apply (K1 x s)].
      - intros x s f [[<- _]|[_ Hx]]%lookup_insert_Some Hf'; [congruence|by apply (K3 x s f)]. }
    intros hash id s. apply (keep_put p h b); [done|done|]. intros x s' Hx. rewrite htlcs_put. cbn.
    rewrite lookup_insert_ne; [done|]. intros ->. congruence.
  - unfold FailAttempt, updateHtlcKey. rewrite on_paydb_snd.
    match goal with |- context [transaction ?m (pc_db p)] => destruct (transaction_snd m (pc_db p)) as [(pm & db' & Hrun & ->)| ->] end.
    2: { by replace (p <| pc_db := pc_db p |>) with p by by destruct p. }
    destruct (update_inv _ _ _ _ _ _ Hrun) as (b & Hb & Hi & Hf & Hn & ->). cbn [snd]. pose proof (so_bucket _ Hok h b Hb) as Hbok. split.
    { apply (store_put p h b); try done. apply (bucket_put b (fun hb => hb <| hb_fail ::= <[i := fi]> |>)); try done.
      - intros x. unfold counted. cbn. destruct (hb_info (attempts_in b) !! x) as [a|] eqn:Ha; [|done].
        destruct (decide (i = x)) as [<-|Hne]; [|by rewrite lookup_insert_ne].
        rewrite lookup_insert_eq, Hf. by apply (bo_amounts _ Hbok i).
      - destruct (bo_htlcs _ Hbok) as [K1 K2 K3 K4]. split; cbn; try done.
        + intros x f [[<- _]|[_ Hx]]%lookup_insert_Some; [done|by apply (K2 x f)].
        + intros x s f Hs [[<- _]|[_ Hx]]%lookup_insert_Some; [congruence|by apply (K3 x s f)]. }
    intros hash id s. by apply (keep_put p h b).
  - unfold PaymentControl_Fail, mbind, M_bind, on_paydb.
    destruct (db_payments (pc_db p)) as [ps|] eqn:Hps; [destruct (ps !! h) as [b|] eqn:Hb|].
    + assert (Hb' : payments_of (pc_db p) !! h = Some b) by (unfold payments_of; by rewrite Hps).
      pose proof (so_bucket _ Hok h b Hb') as Hbok.
      destruct (fail_run h reason (pc_db p) ps b Hps Hb Hbok) as (pm & Hrun). unfold transaction. rewrite Hrun. cbn [snd]. split.
      * apply (store_put p h b); try done. by destruct Hbok; split.
      * intros hash id s. by apply (keep_put p h b).
    + unfold transaction, failBody, fetchPaymentBucketUpdate. rewrite Hps, Hb. cbn.
      by replace (p <| pc_db := pc_db p |>) with p by by destruct p.
    + unfold transaction, failBody, fetchPaymentBucketUpdate. rewrite Hps. cbn.
      by replace (p <| pc_db := pc_db p |>) with p by by destruct p.
  - split; [|done]. destruct Hok as [S1 S2 S3 S4 S5]. split; cbn -[payments_of]; try done.
    + intros h b n Hb Hn. specialize (S2 h b n Hb Hn). unfold last_seq in *. cbn.
      destruct S5 as [(E1 & E2 & E3)|(E1 & E2)]; [by rewrite E1 in S2|]. rewrite (proj2 (Z.eqb_neq (currPaymentSeq p) 0)) in S2 by lia. lia.
    + left. destruct S5 as [(E1 & E2 & E3)|(E1 & E2)]; lia.
Qed.

Lemma reach_store p p' : store_ok p -> rtc pay_step p p' -> store_ok p' /\
  forall hash id s, settled_at p hash id s -> settled_at p' hash id s /\ infos_at p' hash = infos_at p hash.
Proof.
  intros Hok Hr. induction Hr as [p|p p1 p' (op & Hsm & Hroom & ->) _ IH]; [done|].
  destruct (payop_step p op Hok Hsm Hroom) as [Hok1 Hkeep]. destruct (IH Hok1) as [Hok' Hkeep']. split; [done|].
  intros hash id s Hs. destruct (Hkeep hash id s Hs) as [Hs1 <-]. by apply Hkeep'.
Qed.

Lemma fetch_run hash p b : payments_of (pc_db p) !! hash = Some b -> FetchPayment hash p = fetchPayment b.
Proof.
  unfold payments_of, FetchPayment, mbind, M_bind, fetchPaymentBucketUpdate.
  destruct (db_payments (pc_db p)) as [ps|]; cbn; [|by rewrite lookup_empty]. by intros ->.
Qed.

(** C10. In every state the store of payments reaches, restarts included: a payment
    can be read; the attempts that did not fail never add up to more than its
    amount; it has succeeded exactly when an attempt settled and none is left in
    flight, and failed when it was given up, nothing settled and none is left; its
    sequence number is its own, and the index maps exactly the numbers of the
    stored payments, each to the identifier of its payment. *)
Theorem payment_store_correct (p : PaymentControl) :
  rtc pay_step new_control p ->
  (forall hash b, payments_of (pc_db p) !! hash = Some b ->
     exists info m, pb_info b = Some info /\ FetchPayment hash p = Ok m /\ mp_Info m = info /\
       HTLCs m = attempts_of (attempts_in b) /\ 0 <= fst (SentAmt m) <= pi_Value info /\
       let settled := exists id, is_Some (hb_settle (attempts_in b) !! id) in
       let in_flight := exists id, is_Some (hb_info (attempts_in b) !! id) /\
         hb_settle (attempts_in b) !! id = None /\ hb_fail (attempts_in b) !! id = None in
       (Status m = StatusSucceeded <-> settled /\ ~ in_flight) /\
       (Status m = StatusFailed <-> ~ settled /\ ~ in_flight /\ is_Some (pb_fail b)) /\ Status m <> StatusUnknown) /\
  (forall n id, db_index (pc_db p) !! n = Some id <-> exists hash b info, payments_of (pc_db p) !! hash = Some b /\
     pb_seq b = Some n /\ pb_info b = Some info /\ PaymentIdentifier info = id) /\
  (forall hash hash' b b' n, payments_of (pc_db p) !! hash = Some b -> payments_of (pc_db p) !! hash' = Some b' ->
     pb_seq b = Some n -> pb_seq b' = Some n -> hash = hash').
Proof.
  intros Hr. destruct (reach_store new_control p new_control_ok Hr) as [Hok _].
  split; [|split; [apply (so_index _ Hok)|apply (so_unique _ Hok)]].
  intros hash b Hb. pose proof (so_bucket _ Hok hash b Hb) as Hbok.
  destruct (fetch_bucket b Hbok) as (seq & info & Hs & Hi & Hsm & Hsent & Hf & _).
  eexists info, _. split; [done|]. split; [by rewrite (fetch_run _ _ _ Hb)|]. split; [done|]. split; [done|].
  set (m := mkPayment _ _ _ _ _). split.
  { rewrite (SentAmt_sent (attempts_in b) m) by done. pose proof (sent_nonneg _ (bo_amounts _ Hbok)). unfold small in Hsm.
    rewrite uwrap_id by (unfold is_uint; lia). lia. }
  cbn zeta. change (Status m) with (status_of b). rewrite <- inflight_iff, <- settled_iff by apply Hbok. unfold status_of.
  destruct (inflight_of _), (settled_of _); cbn; try (split; [naive_solver|]); try (split; [naive_solver|]); try done.
  all: case_bool_decide; split; naive_solver.
Qed.

(** C11. No payment is made twice. Once an attempt of a payment settled, whatever
    happens to the store afterwards - restarts, failures and races of other
    attempts included - the settlement stays with its preimage, no attempt is ever
    added, every further attempt is refused as terminal, and the payment cannot be
    initiated again: as already paid, or as in transition while attempts are out. *)
Theorem no_double_payment (p p' : PaymentControl) (hash : bytes) (id : Z) (s : HTLCSettleInfo) :
  rtc pay_step new_control p -> settled_at p hash id s -> rtc pay_step p p' ->
  settled_at p' hash id s /\ infos_at p' hash = infos_at p hash /\
  (forall a, RegisterAttempt hash a p' = (Err ErrPaymentTerminal, p')) /\
  (forall info, small (pi_Value info) -> db_sequence (pc_db p') + paymentSeqBlockSize < 2 ^ 64 ->
     (fst (InitPayment hash info p') = Err ErrAlreadyPaid \/ fst (InitPayment hash info p') = Err ErrPaymentInFlight) /\
     settled_at (snd (InitPayment hash info p')) hash id s).
Proof.
  intros Hr Hs Hr'. destruct (reach_store new_control p new_control_ok Hr) as [Hok _].
  destruct (reach_store p p' Hok Hr') as [Hok' Hkeep]. destruct (Hkeep hash id s Hs) as [Hs' Hi'].
  split; [done|]. split; [done|]. pose proof Hs' as (b & Hb & Hsb). pose proof (so_bucket _ Hok' hash b Hb) as Hbok. split.
  - intros a. unfold RegisterAttempt, on_paydb, transaction, registerBody.
    assert (Hfb : fetchPaymentBucketUpdate hash (pc_db p') = (Ok b, pc_db p')).
    { unfold fetchPaymentBucketUpdate, payments_of in *. destruct (db_payments (pc_db p')) as [ps|]; cbn in Hb; [by rewrite Hb|by rewrite lookup_empty in Hb]. }
    rewrite (M_bind_run _ _ _ _ _ Hfb). destruct (fetch_bucket b Hbok) as (seq & info & _ & _ & _ & _ & Hf & _).
    rewrite (M_bind_run (lift (fetchPayment b)) _ _ _ _ ltac:(unfold lift; by rewrite Hf)).
    set (m := mkPayment _ _ _ _ _). assert (Ht : TerminalInfo m <> (None, None)).
    { intros Ht. apply (terminal_iff (attempts_in b)) in Ht as [Hn _]; [|by apply Hbok|done]. by rewrite Hn in Hsb. }
    rewrite (M_bind_Err (check _ _) _ _ ErrPaymentTerminal (pc_db p')).
    + by destruct p'.
    + unfold check. destruct (TerminalInfo m) as [[?|] [?|]]; done.
  - intros info Hsm Hroom. destruct (init_store p' hash info Hok' Hsm Hroom) as (_ & Hres & _ & Hsame).
    rewrite Hb, (settled_status b id s Hbok Hsb) in Hres.
    assert (Hne : fst (InitPayment hash info p') <> Ok tt) by (rewrite Hres; by destruct (inflight_of _)).
    split; [rewrite Hres; destruct (inflight_of _); tauto|]. unfold settled_at. rewrite (Hsame Hne). by exists b.
Qed.

(** ** A concrete run *)
Definition toy_route (amt : Z) (mpp : option MPP) : Route :=
  mkRoute 100 (amt + 1) 0 [] [mkHop [] 7 90 amt mpp [] false].
Definition toy_mpp : option MPP := Some (mkMPP [Byte.x01] 1000 0).
Definition toy_attempt (id amt : Z) (mpp : option MPP) : HTLCAttemptInfo := mkAttemptInfo id [] (toy_route amt mpp) 5 None.
Definition toy_hash : bytes := [Byte.x0a].
Definition toy_info : PaymentCreationInfo := mkCreationInfo toy_hash 1000 0 3 [] false.

(** Two shards, the second too large, then the first fails and the second settles. *)
Definition toy_ops : list payop :=
  [PInit toy_hash toy_info; PRegister toy_hash (toy_attempt 1 600 toy_mpp); PRegister toy_hash (toy_attempt 2 500 toy_mpp);
   PRestart; PRegister toy_hash (toy_attempt 3 400 toy_mpp); PFailAttempt toy_hash 1 (mkFailInfo 6 [] 0 0);
   PSettle toy_hash 3 (mkSettleInfo [Byte.x0b] 7)].
Definition toy_store : PaymentControl := run_payops toy_ops new_control.

Lemma run_reach ops p : Forall payop_small ops ->
  (forall k, db_sequence (pc_db (run_payops (take k ops) p)) + paymentSeqBlockSize < 2 ^ 64) -> rtc pay_step p (run_payops ops p).
Proof.
  revert p. induction ops as [|op ops IH]; intros p Hsm Hroom; [apply rtc_refl|].
  inversion_clear Hsm as [|? ? Hs Hsm']. eapply rtc_l; [exists op; split; [done|]; split; [apply (Hroom 0%nat)|reflexivity]|].
  apply IH; [done|]. intros k. apply (Hroom (S k)).
Qed.

Lemma toy_store_reach : rtc pay_step new_control toy_store.
Proof.
  apply run_reach.
  - repeat (constructor; [cbn; unfold small; cbn; lia|]). constructor.
  - intros k. do 8 (destruct k as [|k]; [vm_compute; reflexivity|]). vm_compute. reflexivity.
Qed.

Lemma toy_store_settled : settled_at toy_store toy_hash 3 (mkSettleInfo [Byte.x0b] 7).
Proof.
  assert (E : (fun b => hb_settle (attempts_in b) !! 3) <$> (payments_of (pc_db toy_store) !! toy_hash) = Some (Some (mkSettleInfo [Byte.x0b] 7)))
    by (vm_compute; reflexivity).
  apply fmap_Some in E as (b & Hb & Hs). by exists b.
Qed.

Lemma payment_store_correct_witness :
  exists m, FetchPayment toy_hash toy_store = Ok m /\ Status m = StatusSucceeded.
Proof.
  destruct toy_store_settled as (b & Hb & Hs).
  destruct (proj1 (payment_store_correct toy_store toy_store_reach) toy_hash b Hb) as (info & m & _ & Hf & _ & _ & _ & Hst & _).
  exists m. split; [exact Hf|].
  assert (E : (fun m => Status m) <$> (match FetchPayment toy_hash toy_store with Ok m => Some m | _ => None end) = Some StatusSucceeded)
    by (vm_compute; reflexivity).
  rewrite Hf in E. by injection E.
Defined.

Lemma no_double_payment_witness :
  RegisterAttempt toy_hash (toy_attempt 9 10 toy_mpp) toy_store = (Err ErrPaymentTerminal, toy_store) /\
  fst (InitPayment toy_hash toy_info toy_store) = Err ErrAlreadyPaid.
Proof.
  split; [|vm_compute; reflexivity].
  apply (no_double_payment toy_store toy_store toy_hash 3 _ toy_store_reach toy_store_settled (rtc_refl _ _)).
Defined.

(** The asset of an attempt is not checked: a payment of an asset takes an attempt
    whose route carries bitcoin, and counts it at face value. *)
Lemma attempt_asset_unchecked :
  let p := run_payops [PInit toy_hash (mkCreationInfo toy_hash 1000 31 3 [] false)] new_control in
  rt_AssetId (at_Route (toy_attempt 1 1000 None)) = 0 /\
  (fun r => match r with Ok m => fst (SentAmt m) | _ => 0 end) (fst (RegisterAttempt toy_hash (toy_attempt 1 1000 None) p)) = 1000.
Proof. split; [reflexivity|]. vm_compute. reflexivity. Qed.
