(* ===== verification/Amp.v ===== *)
(** * Atomic multi-path payments ([amp], [record/amp.go])

    A root seed is shared by XOR among the shards of a payment; a shard's payment
    hash and preimage are derived from the root, its share and its index.  The
    sender splits and merges shares as attempts are made and fail; the receiver
    rebuilds the root from the shares it was sent.  What [rand.Read] draws is an
    argument. *)

From S2P Require Import Prelude Sha256 Wire Payments.

(** ** Shares *)
Abbreviation Share := bytes.

(** [Share.Xor] of 32-byte arrays. *)
Definition Xor (x y : Share) : Share := zip_with xor_byte x y.

Definition zeroShare : Share := replicate 32 Byte.x00.

#[global] Arguments zeroShare : simpl never.

Definition is_share (s : Share) : Prop := length s = 32%nat.

Record ChildDesc := mkChildDesc { cd_Share : Share; cd_Index : Z }.
Record Child := mkChild { c_Desc : ChildDesc; c_Preimage : bytes; c_Hash : bytes }.

Definition DeriveChild (root : Share) (desc : ChildDesc) : Child :=
  let preimage := Sum256 (root ++ cd_Share desc ++ be_put 4 (cd_Index desc)) in
  mkChild desc preimage (Sum256 preimage).

(** ** Sharers *)
Record SeedSharer := mkSharer { sh_root : Share; sh_curr : Share }.

Inductive amperr : Type := ErrSplitZero | ErrPidNotFound.

Definition SeedSharerFromRoot (root : Share) : SeedSharer := mkSharer root root.

(** [split]: the left share is drawn at random. *)
Definition split_share (parent left : Share) : Share * Share := (left, Xor parent left).

Definition Split (s : SeedSharer) (left : Share) : res amperr (SeedSharer * SeedSharer) :=
  if bool_decide (sh_curr s = zeroShare) then Err ErrSplitZero
  else
    let '(shareLeft, shareRight) := split_share (sh_curr s) left in
    Ok (mkSharer (sh_root s) shareLeft, mkSharer (sh_root s) shareRight).

Definition Merge (s : SeedSharer) (child : Child) : SeedSharer :=
  mkSharer (sh_root s) (Xor (sh_curr s) (cd_Share (c_Desc child))).

Definition Zero (s : SeedSharer) : SeedSharer := mkSharer (sh_root s) zeroShare.

Definition Sharer_Child (s : SeedSharer) (index : Z) : Child := DeriveChild (sh_root s) (mkChildDesc (sh_curr s) index).

Definition ReconstructChildren (descs : list ChildDesc) : list Child :=
  let root := foldl (fun root desc => Xor root (cd_Share desc)) zeroShare descs in
  DeriveChild root <$> descs.

(** ** Records and shards *)
Record AMP := mkAMP { rootShare : Share; amp_setID : bytes; childIndex : Z }.

#[export] Instance AMP_eq_dec : EqDecision AMP.
Proof. solve_decision. Defined.

Record Shard := mkShard { sd_child : Child; sd_mpp : MPP; sd_amp : AMP }.

Record ShardTracker := mkTracker {
  st_setID : bytes;
  st_paymentAddr : bytes;
  st_totalAmt : Z;
  st_assetId : Z;
  st_sharer : SeedSharer;
  st_shards : gmap Z Child
}.

#[export] Instance ShardTracker_eta : Eta ShardTracker := fun t =>
  mkTracker (st_setID t) (st_paymentAddr t) (st_totalAmt t) (st_assetId t) (st_sharer t) (st_shards t).

(** The asset of the payment is an argument, and is not kept. *)
Definition NewShardTracker (root setID payAddr : bytes) (totalAmt assetId : Z) : ShardTracker :=
  mkTracker setID payAddr totalAmt 0 (SeedSharerFromRoot root) ∅.

(** [idx] and [left] are what the two calls of [rand.Read] draw. *)
Definition NewShard (idx : Z) (left : Share) (pid : Z) (last : bool) : M ShardTracker amperr Shard :=
  s ← get;
  child ← (if last then
             let child := Sharer_Child (st_sharer s) idx in
             _ ← modify (fun s => s <| st_sharer ::= Zero |>);
             mret child
           else
             p ← lift (Split (st_sharer s) left);
             _ ← modify (fun s => s <| st_sharer := snd p |>);
             mret (Sharer_Child (fst p) idx));
  _ ← modify (fun s => s <| st_shards ::= <[pid := child]> |>);
  mret (mkShard child (mkMPP (st_paymentAddr s) (st_totalAmt s) (st_assetId s))
          (mkAMP (cd_Share (c_Desc child)) (st_setID s) (cd_Index (c_Desc child)))).

Definition CancelShard (pid : Z) : M ShardTracker amperr unit :=
  s ← get;
  match st_shards s !! pid with
  | None => throw ErrPidNotFound
  | Some c =>
      _ ← modify (fun s => s <| st_shards ::= delete pid |>);
      modify (fun s => s <| st_sharer ::= fun sh => Merge sh c |>)
  end.

Definition GetHash (pid : Z) (s : ShardTracker) : res amperr bytes :=
  match st_shards s !! pid with None => Err ErrPidNotFound | Some c => Ok (c_Hash c) end.

(** ** The algebra of shares *)
Lemma xor_byte_unsigned x y : byte.unsigned (xor_byte x y) = Z.lxor (byte.unsigned x) (byte.unsigned y).
Proof.
  unfold xor_byte. rewrite byte.unsigned_of_Z. unfold byte.wrap. apply Z.mod_small.
  apply (lxor_range 8); [lia|apply byte.unsigned_range..].
Qed.

Lemma xor_byte_comm x y : xor_byte x y = xor_byte y x.
Proof. unfold xor_byte. by rewrite Z.lxor_comm. Qed.

Lemma xor_byte_assoc x y z : xor_byte x (xor_byte y z) = xor_byte (xor_byte x y) z.
Proof. apply unsigned_inj. by rewrite !xor_byte_unsigned, Z.lxor_assoc. Qed.

Lemma xor_byte_diag x : xor_byte x x = Byte.x00.
Proof. unfold xor_byte. by rewrite Z.lxor_nilpotent. Qed.

Lemma xor_byte_0_r x : xor_byte x Byte.x00 = x.
Proof. apply unsigned_inj. rewrite xor_byte_unsigned. apply Z.lxor_0_r. Qed.

#[export] Instance Xor_comm : Comm (=) Xor.
Proof. intros x. induction x as [|a x IH]; intros [|b y]; cbn; [done..|]. by rewrite xor_byte_comm, IH. Qed.

#[export] Instance Xor_assoc : Assoc (=) Xor.
Proof. intros x. induction x as [|a x IH]; intros [|b y] [|c z]; cbn; [done..|]. by rewrite xor_byte_assoc, IH. Qed.

Lemma Xor_share x y : is_share x -> is_share y -> is_share (Xor x y).
Proof. unfold is_share, Xor. intros Hx Hy. rewrite length_zip_with. lia. Qed.

Lemma zero_share : is_share zeroShare.
Proof. done. Qed.

Lemma Xor_zeros n x : length x = n -> Xor x (replicate n Byte.x00) = x.
Proof. revert n. induction x as [|a x IH]; intros [|n] Hn; cbn in *; [done..|]. rewrite xor_byte_0_r, IH; [done|lia]. Qed.

Lemma Xor_0_r x : is_share x -> Xor x zeroShare = x.
Proof. apply Xor_zeros. Qed.

Lemma Xor_0_l x : is_share x -> Xor zeroShare x = x.
Proof. rewrite (comm Xor). apply Xor_0_r. Qed.

Lemma Xor_diag x : is_share x -> Xor x x = zeroShare.
Proof.
  unfold is_share, zeroShare. intros <-. unfold Xor. induction x as [|a x IH]; cbn; [done|]. by rewrite xor_byte_diag, IH.
Qed.

Lemma Xor_cancel x y : is_share x -> is_share y -> Xor (Xor x y) y = x.
Proof. intros Hx Hy. by rewrite <- (assoc Xor), Xor_diag, Xor_0_r. Qed.

(** The XOR of all shares. *)
Definition total (shares : list Share) : Share := foldr Xor zeroShare shares.

#[export] Instance total_perm : Proper ((≡ₚ) ==> (=)) total.
Proof. intros l l' Hp. unfold total. refine (foldr_permutation_proper (=) Xor zeroShare _ l l' Hp). intros a b c. by rewrite !(assoc Xor), (comm Xor a b). Qed.

Lemma total_share l : Forall is_share l -> is_share (total l).
Proof. induction 1; [done|]. by apply Xor_share. Qed.

Lemma fold_total descs acc : Forall (fun d => is_share (cd_Share d)) descs -> is_share acc ->
  foldl (fun root desc => Xor root (cd_Share desc)) acc descs = Xor acc (total (cd_Share <$> descs)).
Proof.
  intros Hd. revert acc. induction Hd as [|d descs Hd Hds IH]; intros acc Hacc; cbn; [by rewrite Xor_0_r|].
  rewrite IH by (by apply Xor_share). by rewrite <- (assoc Xor).
Qed.

(** ** The invariant of a tracker *)
Definition shares_of (t : ShardTracker) : list Share := (fun c => cd_Share (c_Desc c.2)) <$> map_to_list (st_shards t).

Record tracker_ok (root : Share) (t : ShardTracker) : Prop := {
  tk_root : sh_root (st_sharer t) = root;
  tk_curr : is_share (sh_curr (st_sharer t));
  tk_shards : forall pid c, st_shards t !! pid = Some c -> is_share (cd_Share (c_Desc c)) /\ c = DeriveChild root (c_Desc c);
  tk_total : Xor (sh_curr (st_sharer t)) (total (shares_of t)) = root
}.

Lemma shares_ok root t : tracker_ok root t -> Forall is_share (shares_of t).
Proof.
  intros Hok. apply Forall_fmap, list.Forall_forall. intros [pid c] Hin%elem_of_map_to_list.
  by destruct (tk_shards _ _ Hok pid c Hin).
Qed.

Lemma shares_insert t pid c : st_shards t !! pid = None ->
  total (shares_of (t <| st_shards ::= <[pid := c]> |>)) = Xor (cd_Share (c_Desc c)) (total (shares_of t)).
Proof. intros Hn. unfold shares_of. cbn. by rewrite (map_to_list_insert _ _ _ Hn). Qed.

Lemma shares_delete t pid c : st_shards t !! pid = Some c ->
  total (shares_of t) = Xor (cd_Share (c_Desc c)) (total (shares_of (t <| st_shards ::= delete pid |>))).
Proof. intros Hs. unfold shares_of. cbn. by rewrite <- (map_to_list_delete _ _ _ Hs). Qed.

Inductive tracker_step (t : ShardTracker) : ShardTracker -> Prop :=
| step_new idx left pid last : is_share left -> st_shards t !! pid = None -> tracker_step t (snd (NewShard idx left pid last t))
| step_cancel pid : tracker_step t (snd (CancelShard pid t)).

Lemma new_tracker_ok root setID payAddr amt asset : is_share root -> tracker_ok root (NewShardTracker root setID payAddr amt asset).
Proof.
  intros Hr. split; cbn; [done|done| |].
  - intros pid c. by rewrite lookup_empty.
  - by rewrite Xor_0_r.
Qed.

Lemma track_ok root t pid c curr :
  tracker_ok root t -> st_shards t !! pid = None -> is_share curr -> is_share (cd_Share (c_Desc c)) ->
  c = DeriveChild root (c_Desc c) -> Xor curr (cd_Share (c_Desc c)) = sh_curr (st_sharer t) ->
  tracker_ok root (t <| st_sharer := mkSharer (sh_root (st_sharer t)) curr |> <| st_shards ::= <[pid := c]> |>).
Proof.
  intros Hok Hn Hcurr Hc Hd Hx. split; cbn; [apply Hok|done| |].
  - intros p c'. destruct (decide (p = pid)) as [->|Hne].
    + rewrite lookup_insert_eq. by intros [= <-].
    + rewrite lookup_insert_ne by done. apply Hok.
  - rewrite shares_insert by done. rewrite (assoc Xor), Hx. apply Hok.
Qed.

Lemma new_shard_ok root t idx left pid last : tracker_ok root t -> is_share left -> st_shards t !! pid = None ->
  let '(r, t') := NewShard idx left pid last t in
  tracker_ok root t' /\
  match r with
  | Ok s => st_shards t' = <[pid := sd_child s]> (st_shards t) /\
            rootShare (sd_amp s) = cd_Share (c_Desc (sd_child s)) /\ childIndex (sd_amp s) = cd_Index (c_Desc (sd_child s)) /\
            (last = true -> sh_curr (st_sharer t') = zeroShare)
  | Err e => t' = t /\ e = ErrSplitZero /\ last = false /\ sh_curr (st_sharer t) = zeroShare
  | Panic => False
  end.
Proof.
  intros Hok Hl Hn. pose proof (tk_curr _ _ Hok) as Hc. pose proof (tk_root _ _ Hok) as Hr.
  unfold NewShard, mbind, M_bind, get. cbn. destruct last; cbn.
  - split; [|done]. apply (track_ok root t pid _ zeroShare); cbn; [done|done|done|done|by rewrite <- Hr|by apply Xor_0_l].
  - unfold lift, Split, split_share. case_bool_decide as Hz; cbn; [done|]. split; [|done].
    apply (track_ok root t pid _ (Xor (sh_curr (st_sharer t)) left)); cbn; [done|done|by apply Xor_share|done|by rewrite <- Hr|by apply Xor_cancel].
Qed.

Lemma cancel_shard_ok root t pid : tracker_ok root t -> tracker_ok root (snd (CancelShard pid t)).
Proof.
  intros Hok. unfold CancelShard, mbind, M_bind, get. cbn. destruct (st_shards t !! pid) as [c|] eqn:Hs; [|done].
  destruct (tk_shards _ _ Hok pid c Hs) as [Hc _]. pose proof (tk_curr _ _ Hok). split; cbn.
  - apply Hok.
  - by apply Xor_share.
  - intros p c' Hp. rewrite lookup_delete_Some in Hp. destruct Hp as [_ Hp]. by apply (tk_shards _ _ Hok p).
  - pose proof (tk_total _ _ Hok) as Ht. rewrite (shares_delete t pid c Hs) in Ht. by rewrite <- (assoc Xor).
Qed.

Lemma tracker_reach root t t' : tracker_ok root t -> rtc tracker_step t t' -> tracker_ok root t'.
Proof.
  intros Hok Hr. induction Hr as [|t t1 t' Hstep _ IH]; [done|]. apply IH. destruct Hstep as [idx left pid last Hl Hn|pid].
  - pose proof (new_shard_ok root t idx left pid last Hok Hl Hn) as H. by destruct (NewShard idx left pid last t) as [r t'']; destruct H.
  - by apply cancel_shard_ok.
Qed.

(** Once nothing is left to share, the children rebuild one another. *)
Lemma reconstruct root t : tracker_ok root t -> sh_curr (st_sharer t) = zeroShare ->
  forall children, children ≡ₚ (map_to_list (st_shards t)).*2 -> ReconstructChildren (c_Desc <$> children) = children.
Proof.
  intros Hok Hz children Hp.
  assert (Hin : forall c, c ∈ children -> is_share (cd_Share (c_Desc c)) /\ c = DeriveChild root (c_Desc c)).
  { intros c. rewrite Hp, list_elem_of_fmap. intros ([pid c'] & -> & Hc%elem_of_map_to_list). by apply (tk_shards _ _ Hok pid). }
  assert (Hroot : total (cd_Share <$> (c_Desc <$> children)) = root).
  { rewrite <- list_fmap_compose, Hp, <- list_fmap_compose. pose proof (tk_total _ _ Hok) as Ht.
    rewrite Hz, Xor_0_l in Ht by (by apply total_share, (shares_ok root)). exact Ht. }
  unfold ReconstructChildren. rewrite fold_total; [| |done].
  - rewrite Hroot, Xor_0_l by (rewrite <- Hroot; apply total_share, Forall_fmap, Forall_fmap, list.Forall_forall; intros c Hc; by apply Hin).
    rewrite <- list_fmap_compose. rewrite <- (list_fmap_id children) at 2. apply list_fmap_ext.
    intros i c Hc%list_elem_of_lookup_2. symmetry. by apply Hin.
  - apply Forall_fmap, list.Forall_forall. intros c Hc. by apply Hin.
Qed.

(** C37. Whatever attempts a sender made and cancelled, the last shard completes the
    set: from the shares and indexes of the shards then outstanding, in any order,
    the receiver derives exactly their hashes and preimages, and each preimage
    opens the hash its shard was sent with. *)
Theorem amp_set_reconstructs (root setID payAddr left : bytes) (amt asset idx pid : Z) (t t' : ShardTracker) (s : Shard) :
  is_share root -> rtc tracker_step (NewShardTracker root setID payAddr amt asset) t ->
  is_share left -> st_shards t !! pid = None -> NewShard idx left pid true t = (Ok s, t') ->
  st_shards t' = <[pid := sd_child s]> (st_shards t) /\
  (forall children, children ≡ₚ (map_to_list (st_shards t')).*2 -> ReconstructChildren (c_Desc <$> children) = children) /\
  forall p c, st_shards t' !! p = Some c -> GetHash p t' = Ok (Sum256 (c_Preimage c)).
Proof.
  intros Hroot Hreach Hl Hn Hnew.
  pose proof (tracker_reach root _ t (new_tracker_ok root setID payAddr amt asset Hroot) Hreach) as Hok.
  pose proof (new_shard_ok root t idx left pid true Hok Hl Hn) as H. rewrite Hnew in H. destruct H as (Hok' & Hst & _ & _ & Hz).
  split; [exact Hst|]. split; [exact (reconstruct root t' Hok' (Hz eq_refl))|].
  intros p c Hc. unfold GetHash. rewrite Hc. destruct (tk_shards _ _ Hok' p c Hc) as [_ ->]. done.
Qed.

Definition toy_root : Share := be_put 32 5.
Definition toy_left : Share := be_put 32 3.
Definition toy_tracker : ShardTracker :=
  snd (NewShard 7 toy_left 1 false (NewShardTracker toy_root (be_put 32 1) (be_put 32 2) 1000 31)).

Lemma amp_set_reconstructs_witness :
  exists s t', NewShard 8 toy_left 2 true toy_tracker = (Ok s, t') /\ size (st_shards t') = 2%nat /\
    ReconstructChildren (c_Desc <$> (map_to_list (st_shards t')).*2) = (map_to_list (st_shards t')).*2.
Proof.
  assert (Hl : is_share toy_left) by apply length_be_put. assert (Hr : is_share toy_root) by apply length_be_put.
  assert (Hreach : rtc tracker_step (NewShardTracker toy_root (be_put 32 1) (be_put 32 2) 1000 31) toy_tracker).
  { eapply rtc_l; [|apply rtc_refl]. by apply step_new. }
  assert (Hn : st_shards toy_tracker !! 2 = None) by (vm_compute; reflexivity).
  destruct (NewShard 8 toy_left 2 true toy_tracker) as [[s|e|] t'] eqn:Hrun; [|discriminate Hrun..].
  exists s, t'. split; [reflexivity|].
  destruct (amp_set_reconstructs toy_root (be_put 32 1) (be_put 32 2) toy_left 1000 31 8 2 toy_tracker t' s
    Hr Hreach Hl Hn Hrun) as (Hst & Hrec & _).
  split; [|by apply Hrec]. rewrite Hst. vm_compute. reflexivity.
Defined.

(** The tracker never keeps the asset of its payment: the MPP record of every
    shard names asset 0. *)
Lemma amp_asset_dropped (root setID payAddr left : bytes) (amt asset idx pid : Z) (last : bool) (t t' : ShardTracker) (s : Shard) :
  rtc tracker_step (NewShardTracker root setID payAddr amt asset) t ->
  NewShard idx left pid last t = (Ok s, t') -> mpp_assetId (sd_mpp s) = 0.
Proof.
  intros Hreach Hnew. assert (Hz : st_assetId t = 0).
  { refine (rtc_ind_r (fun t => st_assetId t = 0) _ _ _ _ Hreach); [done|].
    intros t1 t2 _ Hstep Hz. destruct Hstep as [i l p b _ _|p].
    - unfold NewShard, mbind, M_bind, get, lift, modify. cbn. destruct b; cbn; [done|].
      destruct (Split (st_sharer t1) l) as [q| |]; cbn; done.
    - unfold CancelShard, mbind, M_bind, get, modify. cbn. by destruct (st_shards t1 !! p). }
  unfold NewShard, mbind, M_bind, get, lift, modify in Hnew. cbn in Hnew. destruct last; cbn in Hnew.
  - injection Hnew as <- <-. done.
  - destruct (Split (st_sharer t) left) as [q| |]; cbn in Hnew; [|done..]. by injection Hnew as <- <-.
Qed.
