(* ===== verification/InvoiceDB.v ===== *)
(** * The invoice database ([channeldb/invoices.go])

    Invoices with the HTLCs that pay them: the buckets, adding, fetching, updating
    and deleting an invoice.  A value in a bucket is the record that is read back
    from it.  Where Go ranges over a map whose order shows in nothing but which of
    several errors is returned, the model takes the order of [map_to_list].  The
    nested buckets, which Go creates on the first write (a lookup before that
    fails with [ErrNoInvoicesCreated]), are there from the start. *)

From S2P Require Import Prelude Sha256 Wire UpdateLog Features Payments Amp.

(** ** Invoices *)
Inductive ContractState : Type := ContractOpen | ContractSettled | ContractCanceled | ContractAccepted.
Inductive HtlcState : Type := HtlcStateAccepted | HtlcStateCanceled | HtlcStateSettled.

#[export] Instance ContractState_eq_dec : EqDecision ContractState.
Proof. solve_decision. Defined.
#[export] Instance HtlcState_eq_dec : EqDecision HtlcState.
Proof. solve_decision. Defined.

Abbreviation SetID := bytes.
Abbreviation CustomSet := (gmap Z bytes).

Record InvoiceHtlcAMPData := mkAMPData { ad_Record : AMP; ad_Hash : bytes; ad_Preimage : option bytes }.

(** Times are in nanoseconds, 0 the zero time. *)
Record InvoiceHTLC := mkInvoiceHTLC {
  ih_Amt : Z;
  ih_AssetId : Z;
  ih_MppTotalAmt : Z;
  ih_AcceptHeight : Z;
  ih_AcceptTime : Z;
  ih_ResolveTime : Z;
  ih_Expiry : Z;
  ih_State : HtlcState;
  ih_CustomRecords : CustomSet;
  ih_AMP : option InvoiceHtlcAMPData
}.

Record ContractTerm := mkTerms {
  FinalCltvDelta : Z;
  ct_Expiry : Z;
  PaymentPreimage : option bytes;
  ct_Value : Z;
  ct_AssetId : Z;
  PaymentAddr : bytes;
  PayerAddr : bytes;
  ct_Features : RawFeatureVector
}.

Record InvoiceStateAMP := mkStateAMP {
  as_State : HtlcState;
  as_SettleIndex : Z;
  as_SettleDate : Z;
  InvoiceKeys : gset CircuitKey;
  as_AmtPaid : Z;
  as_AssetId : Z
}.

Record Invoice := mkInvoice {
  Memo : bytes;
  inv_PaymentRequest : bytes;
  CreationDate : Z;
  SettleDate : Z;
  Terms : ContractTerm;
  AddIndex : Z;
  SettleIndex : Z;
  inv_State : ContractState;
  AmtPaid : Z;
  inv_AssetId : Z;
  Htlcs : gmap CircuitKey InvoiceHTLC;
  AMPState : gmap SetID InvoiceStateAMP;
  HodlInvoice : bool
}.

#[export] Instance AMPData_eta : Eta InvoiceHtlcAMPData := fun d => mkAMPData (ad_Record d) (ad_Hash d) (ad_Preimage d).
#[export] Instance InvoiceHTLC_eta : Eta InvoiceHTLC := fun h =>
  mkInvoiceHTLC (ih_Amt h) (ih_AssetId h) (ih_MppTotalAmt h) (ih_AcceptHeight h) (ih_AcceptTime h) (ih_ResolveTime h)
    (ih_Expiry h) (ih_State h) (ih_CustomRecords h) (ih_AMP h).
#[export] Instance ContractTerm_eta : Eta ContractTerm := fun t =>
  mkTerms (FinalCltvDelta t) (ct_Expiry t) (PaymentPreimage t) (ct_Value t) (ct_AssetId t) (PaymentAddr t) (PayerAddr t) (ct_Features t).
#[export] Instance StateAMP_eta : Eta InvoiceStateAMP := fun s =>
  mkStateAMP (as_State s) (as_SettleIndex s) (as_SettleDate s) (InvoiceKeys s) (as_AmtPaid s) (as_AssetId s).
#[export] Instance Invoice_eta : Eta Invoice := fun i =>
  mkInvoice (Memo i) (inv_PaymentRequest i) (CreationDate i) (SettleDate i) (Terms i) (AddIndex i) (SettleIndex i)
    (inv_State i) (AmtPaid i) (inv_AssetId i) (Htlcs i) (AMPState i) (HodlInvoice i).

Definition IsFinal (c : ContractState) : bool := bool_decide (c = ContractSettled) || bool_decide (c = ContractCanceled).
Definition IsPending (i : Invoice) : bool := bool_decide (inv_State i = ContractOpen) || bool_decide (inv_State i = ContractAccepted).

(** [None] is a nil set id. *)
Definition IsInHTLCSet (setID : option SetID) (h : InvoiceHTLC) : bool :=
  match setID, ih_AMP h with
  | None, None => true
  | Some id, Some d => bool_decide (id = amp_setID (ad_Record d))
  | _, _ => false
  end.

Definition HTLCSet (i : Invoice) (setID : option SetID) (state : HtlcState) : gmap CircuitKey InvoiceHTLC :=
  filter (fun kh => ih_State kh.2 = state /\ IsInHTLCSet setID kh.2 = true) (Htlcs i).

Definition HTLCSetCompliment (i : Invoice) (setID : option SetID) (state : HtlcState) : gmap CircuitKey InvoiceHTLC :=
  filter (fun kh => ih_State kh.2 = state /\ IsInHTLCSet setID kh.2 = false) (Htlcs i).

(** ** Update descriptors *)
Record HtlcAcceptDesc := mkAcceptDesc {
  had_AcceptHeight : Z;
  had_Amt : Z;
  had_AssetId : Z;
  had_MppTotalAmt : Z;
  had_Expiry : Z;
  had_CustomRecords : option CustomSet;
  had_AMP : option InvoiceHtlcAMPData
}.

Record InvoiceStateUpdateDesc := mkStateUpdate {
  NewState : ContractState;
  su_Preimage : option bytes;
  HTLCPreimages : gmap CircuitKey bytes;
  su_SetID : option SetID
}.

Record InvoiceUpdateDesc := mkUpdateDesc {
  ud_State : option InvoiceStateUpdateDesc;
  CancelHtlcs : gset CircuitKey;
  AddHtlcs : gmap CircuitKey HtlcAcceptDesc;
  ud_SetID : option SetID;
  ud_PayerAddress : bytes
}.

#[export] Instance UpdateDesc_eta : Eta InvoiceUpdateDesc := fun u =>
  mkUpdateDesc (ud_State u) (CancelHtlcs u) (AddHtlcs u) (ud_SetID u) (ud_PayerAddress u).

(** ** The database *)
Inductive inverr : Type :=
| ErrDuplicateInvoice | ErrDuplicatePayAddr | ErrInvoiceNotFound | ErrInvRefEquivocation
| ErrInvoiceAlreadySettled | ErrInvoiceAlreadyCanceled | ErrInvoiceStillOpen | ErrInvoiceCannotOpen
| ErrInvoiceCannotAccept | ErrInvoicePreimageMismatch | ErrHTLCPreimageMissing | ErrHTLCPreimageMismatch
| ErrHTLCAlreadySettled | ErrInvoiceHasHtlcs | ErrEmptyHTLCSet | ErrUnexpectedInvoicePreimage
| ErrHTLCPreimageAlreadyExists | ErrDuplicateSetID (setID : SetID)
| ErrZeroPreimageHash | ErrMemoTooLong | ErrPaymentRequestTooLong | ErrFeatures (e : featerr) | ErrNoPreimage
| ErrZeroPreimage | ErrDuplicateAdd (key : CircuitKey) | ErrNilCustomRecords | ErrAddedCanceled (key : CircuitKey)
| ErrCancelUnknown | ErrCanceledInState (s : ContractState) | ErrCanceledHtlcInState (s : HtlcState)
| ErrAMPWithPreimage | ErrUnknownPreimage | ErrUnknownInAddIndex | ErrUnknownInSettleIndex
| ErrHtlcNotFound (key : CircuitKey) | ErrAcceptedNotPresent (key : CircuitKey).

(** The buckets: invoices by number with, beside them, the HTLC sets of AMP
    invoices; the indexes by payment hash, payment address and set id; the add and
    settle series with their sequences. *)
Record invoiceDB := mkInvoiceDB {
  idb_invoices : gmap Z Invoice;
  idb_sets : gmap (Z * SetID) (gmap CircuitKey InvoiceHTLC);
  idb_hashes : gmap bytes Z;
  idb_num : Z;
  idb_addrs : gmap bytes Z;
  idb_setids : gmap SetID Z;
  idb_added : gmap Z Z;
  idb_addSeq : Z;
  idb_settled : gmap Z (Z * option SetID);
  idb_settleSeq : Z
}.

#[export] Instance invoiceDB_eta : Eta invoiceDB := fun d =>
  mkInvoiceDB (idb_invoices d) (idb_sets d) (idb_hashes d) (idb_num d) (idb_addrs d) (idb_setids d) (idb_added d)
    (idb_addSeq d) (idb_settled d) (idb_settleSeq d).

Abbreviation IDB := (M invoiceDB inverr).

Definition zero32 : bytes := replicate 32 Byte.x00.
Definition unknownPreimage : bytes := zero32.
Definition BlankPayAddr : bytes := zero32.

Definition invoiceIsAMP (i : Invoice) : bool := HasFeature (ct_Features (Terms i)) AMPOptional.

(** [serializeInvoice], read back by [deserializeInvoice]: the asset of the terms
    is not stored, the HTLCs of an AMP invoice are not stored in line. *)
Definition storedInvoice (i : Invoice) : res inverr Invoice :=
  _ ← guard_err (bool_decide (PaymentPreimage (Terms i) = Some unknownPreimage)) ErrZeroPreimage;
  let i := i <| Terms ::= fun t => t <| ct_AssetId := 0 |> |> in
  mret (if invoiceIsAMP i then i <| Htlcs := ∅ |> else i).

Definition MaxMemoSize : Z := 1024.
Definition MaxPaymentRequestSize : Z := 4096.

(** A nil feature vector, which is refused as well, is not represented. *)
Definition validateInvoice (i : Invoice) (paymentHash : bytes) : res inverr unit :=
  _ ← guard_err (bool_decide (paymentHash = Sum256 unknownPreimage)) ErrZeroPreimageHash;
  _ ← guard_err (MaxMemoSize <? Z.of_nat (length (Memo i))) ErrMemoTooLong;
  _ ← guard_err (MaxPaymentRequestSize <? Z.of_nat (length (inv_PaymentRequest i))) ErrPaymentRequestTooLong;
  _ ← match ValidateDeps elements (ct_Features (Terms i)) with
      | Some (Ok _) => Ok tt
      | Some (Err e) => Err (ErrFeatures e)
      | _ => Panic
      end;
  _ ← guard_err (bool_decide (PaymentPreimage (Terms i) = None) && negb (HodlInvoice i || invoiceIsAMP i)) ErrNoPreimage;
  guard_err (bool_decide (Htlcs i <> ∅)) ErrInvoiceHasHtlcs.

Definition putInvoice (i : Invoice) (invoiceNum : Z) (paymentHash : bytes) : IDB Z :=
  _ ← modify (fun d => d <| idb_num := u32 (invoiceNum + 1) |> <| idb_hashes ::= <[paymentHash := invoiceNum]> |>
        <| idb_addrs ::= fun a => if bool_decide (PaymentAddr (Terms i) = BlankPayAddr) then a
                                  else <[PaymentAddr (Terms i) := invoiceNum]> a |>);
  nextAddSeqNo ← gets (fun d => u64 (idb_addSeq d + 1));
  _ ← modify (fun d => d <| idb_addSeq := nextAddSeqNo |> <| idb_added ::= <[nextAddSeqNo := invoiceNum]> |>);
  stored ← lift (storedInvoice (i <| AddIndex := nextAddSeqNo |>));
  _ ← modify (fun d => d <| idb_invoices ::= <[invoiceNum := stored]> |>);
  mret nextAddSeqNo.

Definition DB_AddInvoice (newInvoice : Invoice) (paymentHash : bytes) : IDB Z :=
  _ ← lift (validateInvoice newInvoice paymentHash);
  transaction (
    d ← get;
    _ ← check (bool_decide (is_Some (idb_hashes d !! paymentHash))) ErrDuplicateInvoice;
    _ ← check (negb (bool_decide (PaymentAddr (Terms newInvoice) = BlankPayAddr)) &&
               bool_decide (is_Some (idb_addrs d !! PaymentAddr (Terms newInvoice)))) ErrDuplicatePayAddr;
    putInvoice newInvoice (idb_num d) paymentHash).

(** ** References *)
Inductive RefModifier : Type := DefaultModifier | HtlcSetOnlyModifier | HtlcSetBlankModifier.

Record InvoiceRef := mkRef {
  ref_payHash : option bytes;
  ref_payAddr : option bytes;
  ref_setID : option SetID;
  refModifier : RefModifier
}.

Definition InvoiceRefByHash (h : bytes) : InvoiceRef := mkRef (Some h) None None DefaultModifier.
Definition InvoiceRefByHashAndAddr (h a : bytes) : InvoiceRef := mkRef (Some h) (Some a) None DefaultModifier.
Definition InvoiceRefByAddr (a : bytes) : InvoiceRef := mkRef None (Some a) None DefaultModifier.

Definition fetchInvoiceNumByRef (ref : InvoiceRef) (d : invoiceDB) : res inverr Z :=
  match ref_setID ref with
  | Some setID => match idb_setids d !! setID with None => Err ErrInvoiceNotFound | Some n => Ok n end
  | None =>
      let invoiceNumByHash := h ← ref_payHash ref; idb_hashes d !! h in
      let invoiceNumByAddr :=
        a ← ref_payAddr ref; if bool_decide (a = BlankPayAddr) then None else idb_addrs d !! a in
      match invoiceNumByAddr, invoiceNumByHash with
      | Some a, Some h => if a =? h then Ok a else Err ErrInvRefEquivocation
      | Some a, None => if bool_decide (ref_payHash ref = None) then Ok a else Err ErrInvoiceNotFound
      | None, Some h => Ok h
      | None, None => Err ErrInvoiceNotFound
      end
  end.

(** ** Fetching *)

(** [fetchFilteredAmpInvoices]: what was read so far, and whether a set was missing. *)
Fixpoint fetchFilteredAmpInvoices (num : Z) (setIDs : list SetID) (d : invoiceDB)
    (htlcs : gmap CircuitKey InvoiceHTLC) : gmap CircuitKey InvoiceHTLC * bool :=
  match setIDs with
  | [] => (htlcs, true)
  | setID :: setIDs =>
      match idb_sets d !! (num, setID) with
      | None => (htlcs, false)
      | Some set => fetchFilteredAmpInvoices num setIDs d (set ∪ htlcs)
      end
  end.

(** The sets stored under the number of an invoice, in the order of their keys. *)
Definition sub_sets (num : Z) (d : invoiceDB) : list (SetID * gmap CircuitKey InvoiceHTLC) :=
  go_sort (fun a b => bytes_lt (fst a) (fst b))
    (omap (fun '((n, id), set) => if n =? num then Some (id, set) else None) (map_to_list (idb_sets d))).

(** [fetchAmpSubInvoices] with one set id, or none (a nil one is none). *)
Definition fetchAmpSubInvoices (num : Z) (setID : option SetID) (d : invoiceDB) : gmap CircuitKey InvoiceHTLC :=
  match setID with
  | Some id => fst (fetchFilteredAmpInvoices num [id] d ∅)
  | None => foldl (fun htlcs s => snd s ∪ htlcs) ∅ (sub_sets num d)
  end.

Definition fetchInvoice (num : Z) (setID : option SetID) (d : invoiceDB) : res inverr Invoice :=
  match idb_invoices d !! num with
  | None => Err ErrInvoiceNotFound
  | Some invoice =>
      if negb (invoiceIsAMP invoice) then Ok invoice
      else if negb (bool_decide (Htlcs invoice = ∅)) then Ok invoice
      else if bool_decide (setID = Some BlankPayAddr) then Ok invoice
      else Ok (invoice <| Htlcs := fetchAmpSubInvoices num setID d |>)
  end.

Definition LookupInvoice (ref : InvoiceRef) (d : invoiceDB) : res inverr Invoice :=
  num ← fetchInvoiceNumByRef ref d;
  let setID :=
    match ref_payAddr ref, ref_setID ref, refModifier ref with
    | Some _, _, HtlcSetBlankModifier => Some BlankPayAddr
    | _, Some id, HtlcSetOnlyModifier => Some id
    | _, _, _ => None
    end in
  fetchInvoice num setID d.

(** [copyInvoice]: the copy a callback is given has no AMP state and asset 0. *)
Definition copyInvoice (i : Invoice) : Invoice := i <| inv_AssetId := 0 |> <| AMPState := ∅ |>.

(** ** Updating

    The HTLCs collected for writing are pointers into the invoice's own map: they
    are named here by their circuit keys, and read when they are written. *)
Abbreviation ampUpdate := (gmap SetID (gset CircuitKey)).

Definition empty_ampState : InvoiceStateAMP := mkStateAMP HtlcStateAccepted 0 0 ∅ 0 0.

Definition updateHtlcsAmp (htlc : InvoiceHTLC) (setID : SetID) (key : CircuitKey) (s : Invoice * ampUpdate) : Invoice * ampUpdate :=
  let '(invoice, upd) := s in
  let ampState := default empty_ampState (AMPState invoice !! setID) in
  let ampState := ampState <| as_AmtPaid ::= fun a => u64 (a + ih_Amt htlc) |> <| InvoiceKeys ::= union {[key]} |> in
  let invoice := invoice <| AMPState ::= <[setID := ampState]> |> in
  let set := default (dom (HTLCSet invoice (Some setID) HtlcStateAccepted)) (upd !! setID) in
  (invoice, <[setID := {[key]} ∪ set]> upd).

(** [None] is the nil dereference of an HTLC without AMP data. *)
Definition amp_set (htlc : InvoiceHTLC) : option SetID := (fun d => amp_setID (ad_Record d)) <$> ih_AMP htlc.

Definition cancelHtlcsAmp (htlc : InvoiceHTLC) (key : CircuitKey) (s : Invoice * ampUpdate) : res inverr (Invoice * ampUpdate) :=
  let '(invoice, upd) := s in
  match amp_set htlc with
  | None => Panic
  | Some setID =>
      (* The keys of a missing entry are a nil map: writing into it panics. *)
      match AMPState invoice !! setID with
      | None => Panic
      | Some ampState =>
          let ampState := ampState <| as_State := HtlcStateCanceled |> <| InvoiceKeys ::= union {[key]} |>
                            <| as_AmtPaid ::= fun a => u64 (a - ih_Amt htlc) |> in
          let invoice := invoice <| AMPState ::= <[setID := ampState]> |> in
          let set := default (dom (HTLCSet invoice (Some setID) HtlcStateAccepted) ∪
                              dom (HTLCSet invoice (Some setID) HtlcStateCanceled)) (upd !! setID) in
          Ok (invoice <| AmtPaid ::= fun a => if a =? 0 then a else u64 (a - ih_Amt htlc) |>,
              <[setID := {[key]} ∪ set]> upd)
      end
  end.

Definition settleHtlcsAmp (htlc : InvoiceHTLC) (key : CircuitKey) (s : Invoice * gset SetID * ampUpdate) :
    res inverr (Invoice * gset SetID * ampUpdate) :=
  let '(invoice, settled, upd) := s in
  match amp_set htlc with
  | None => Panic
  | Some setID =>
      match AMPState invoice !! setID with
      | None => Panic
      | Some ampState =>
          let ampState := ampState <| as_State := HtlcStateSettled |> <| InvoiceKeys ::= union {[key]} |> in
          Ok (invoice <| AMPState ::= <[setID := ampState]> |>, {[setID]} ∪ settled,
              <[setID := {[key]} ∪ default ∅ (upd !! setID)]> upd)
      end
  end.

(** The new state and the invoice, whose preimage may have become known. *)
Definition updateInvoiceState (invoice : Invoice) (hash : option bytes) (update : InvoiceStateUpdateDesc) :
    res inverr (ContractState * Invoice) :=
  _ ← guard_err (bool_decide (NewState update = ContractOpen)) ErrInvoiceCannotOpen;
  match inv_State invoice with
  | ContractSettled => Err ErrInvoiceAlreadySettled
  | ContractCanceled => Err ErrInvoiceAlreadyCanceled
  | state =>
      _ ← guard_err (bool_decide (state = ContractAccepted) && bool_decide (NewState update = ContractAccepted)) ErrInvoiceCannotAccept;
      if bool_decide (NewState update = ContractCanceled) then Ok (ContractCanceled, invoice)
      else
        _ ← guard_err (bool_decide (HTLCSet invoice (su_SetID update) HtlcStateAccepted = ∅)) ErrEmptyHTLCSet;
        match su_SetID update with
        | Some _ =>
            _ ← guard_err (bool_decide (is_Some (su_Preimage update))) ErrAMPWithPreimage;
            Ok (NewState update, invoice)
        | None =>
            match su_Preimage update, hash with
            | Some _, None => Err ErrUnexpectedInvoicePreimage
            | Some p, Some h =>
                _ ← guard_err (negb (bool_decide (Sum256 p = h))) ErrInvoicePreimageMismatch;
                Ok (NewState update, invoice <| Terms ::= fun t => t <| PaymentPreimage := Some p |> |>)
            | None, _ =>
                _ ← guard_err (bool_decide (NewState update = ContractSettled) &&
                               bool_decide (PaymentPreimage (Terms invoice) = None)) ErrUnknownPreimage;
                Ok (NewState update, invoice)
            end
        end
  end.

Definition cancelSingleHtlc (resolveTime : Z) (htlc : InvoiceHTLC) (invState : ContractState) : res inverr InvoiceHTLC :=
  _ ← guard_err (negb (bool_decide (invState = ContractOpen))) (ErrCanceledInState invState);
  _ ← guard_err (negb (bool_decide (ih_State htlc = HtlcStateAccepted))) (ErrCanceledHtlcInState (ih_State htlc));
  Ok (htlc <| ih_State := HtlcStateCanceled |> <| ih_ResolveTime := resolveTime |>).

(** [trySettle]: whether it settled, and the HTLC. *)
Definition trySettle (resolveTime : Z) (htlc : InvoiceHTLC) (setID : option SetID) (persist : bool) : res inverr (bool * InvoiceHTLC) :=
  if negb (bool_decide (ih_State htlc = HtlcStateAccepted)) then Ok (false, htlc)
  else
    ready ← (if IsInHTLCSet setID htlc then
               match setID, ih_AMP htlc with
               | None, _ => Ok true
               | Some _, None => Panic
               | Some _, Some d =>
                   match ad_Preimage d with
                   | None => Err ErrHTLCPreimageMissing
                   | Some p => _ ← guard_err (negb (bool_decide (ad_Hash d = Sum256 p))) ErrHTLCPreimageMismatch; Ok true
                   end
               end
             else Ok false);
    if persist && ready then Ok (true, htlc <| ih_State := HtlcStateSettled |> <| ih_ResolveTime := resolveTime |>)
    else Ok (false, htlc).

Definition updateHtlc (resolveTime : Z) (htlc : InvoiceHTLC) (invState : ContractState) (setID : option SetID) :
    res inverr (bool * InvoiceHTLC) :=
  match invState with
  | ContractSettled => trySettle resolveTime htlc setID true
  | _ =>
      _ ← guard_err (bool_decide (ih_State htlc = HtlcStateSettled)) ErrHTLCAlreadySettled;
      match invState with
      | ContractCanceled =>
          if bool_decide (ih_State htlc = HtlcStateAccepted) then
            Ok (false, htlc <| ih_State := HtlcStateCanceled |> <| ih_ResolveTime := resolveTime |>)
          else Ok (false, htlc)
      | ContractAccepted => trySettle resolveTime htlc setID false
      | _ => Ok (false, htlc)
      end
  end.

Definition setSettleMetaFields (invoiceNum : Z) (now : Z) (setID : option SetID) (invoice : Invoice) : IDB Invoice :=
  nextSettleSeqNo ← gets (fun d => u64 (idb_settleSeq d + 1));
  _ ← modify (fun d => d <| idb_settleSeq := nextSettleSeqNo |> <| idb_settled ::= <[nextSettleSeqNo := (invoiceNum, setID)]> |>);
  mret match setID with
       | None => invoice <| SettleDate := now |> <| SettleIndex := nextSettleSeqNo |>
       | Some id =>
           let ampState := default empty_ampState (AMPState invoice !! id) in
           invoice <| AMPState ::= <[id := ampState <| as_SettleDate := now |> <| as_SettleIndex := nextSettleSeqNo |>]> |>
       end.

Section Update.
Context (now : Z) (invoiceNum : Z) (isAMP : bool).

(** One HTLC of [AddHtlcs]. Its asset is not kept. *)
Definition addHtlc (key : CircuitKey) (htlcUpdate : HtlcAcceptDesc) (s : Invoice * ampUpdate) : IDB (Invoice * ampUpdate) :=
  let '(invoice, upd) := s in
  _ ← check (bool_decide (is_Some (Htlcs invoice !! key))) (ErrDuplicateAdd key);
  match had_CustomRecords htlcUpdate with
  | None => throw ErrNilCustomRecords
  | Some records =>
      setID ← match had_AMP htlcUpdate with
              | None => mret zero32
              | Some d =>
                  let setID := amp_setID (ad_Record d) in
                  setIDInvNum ← gets (fun db => idb_setids db !! setID);
                  _ ← match setIDInvNum with
                      | None => modify (fun db => db <| idb_setids ::= <[setID := invoiceNum]> |>)
                      | Some n => check (negb (n =? invoiceNum)) (ErrDuplicateSetID setID)
                      end;
                  mret setID
              end;
      let htlc := mkInvoiceHTLC (had_Amt htlcUpdate) 0 (had_MppTotalAmt htlcUpdate) (u32 (had_AcceptHeight htlcUpdate))
                    now 0 (had_Expiry htlcUpdate) HtlcStateAccepted records (had_AMP htlcUpdate) in
      let invoice := invoice <| Htlcs ::= <[key := htlc]> |> in
      mret (if isAMP then updateHtlcsAmp htlc setID key (invoice, upd) else (invoice, upd))
  end.

Fixpoint addHtlcs (adds : list (CircuitKey * HtlcAcceptDesc)) (s : Invoice * ampUpdate) : IDB (Invoice * ampUpdate) :=
  match adds with
  | [] => mret s
  | (key, u) :: adds => s ← addHtlc key u s; addHtlcs adds s
  end.

(** The HTLCs of [CancelHtlcs]; [newState] is the state the invoice moves to. *)
Fixpoint cancelHtlcs (update : InvoiceUpdateDesc) (newState : ContractState) (htlcs : list (CircuitKey * InvoiceHTLC))
    (s : Invoice * ampUpdate) : res inverr (Invoice * ampUpdate) :=
  match htlcs with
  | [] => Ok s
  | (key, htlc) :: htlcs =>
      if negb (bool_decide (key ∈ CancelHtlcs update)) then cancelHtlcs update newState htlcs s
      else
        _ ← guard_err (bool_decide (is_Some (AddHtlcs update !! key))) (ErrAddedCanceled key);
        htlc ← cancelSingleHtlc now htlc newState;
        let s := (fst s <| Htlcs ::= <[key := htlc]> |>, snd s) in
        s ← (if isAMP then cancelHtlcsAmp htlc key s else Ok s);
        cancelHtlcs update newState htlcs s
  end.

(** Stores the preimage an AMP settlement brings for an HTLC. *)
Definition setPreimage (setID : option SetID) (state : option InvoiceStateUpdateDesc) (key : CircuitKey) (htlc : InvoiceHTLC) :
    res inverr InvoiceHTLC :=
  match setID, state with
  | Some _, Some u =>
      match HTLCPreimages u !! key with
      | None => Ok htlc
      | Some preimage =>
          match ih_AMP htlc with
          | None => Panic
          | Some d =>
              match ad_Preimage d with
              | None => Ok (htlc <| ih_AMP := Some (d <| ad_Preimage := Some preimage |>) |>)
              | Some p => _ ← guard_err (negb (bool_decide (p = preimage))) ErrHTLCPreimageAlreadyExists; Ok htlc
              end
          end
      end
  | _, _ => Ok htlc
  end.

Definition counts (update : InvoiceUpdateDesc) (key : CircuitKey) (htlc : InvoiceHTLC) (state : ContractState) : bool :=
  let ready := negb (bool_decide (ih_State htlc = HtlcStateCanceled)) in
  if isAMP then bool_decide (is_Some (AddHtlcs update !! key)) && bool_decide (state = ContractOpen) && ready
  else negb (bool_decide (state = ContractOpen)) && ready.

(** Aligns every HTLC with the state of the invoice, adding up what was paid. *)
Fixpoint alignHtlcs (update : InvoiceUpdateDesc) (setID : option SetID) (settleEligibleAMP : bool)
    (htlcs : list (CircuitKey * InvoiceHTLC)) (s : Invoice * gset SetID * ampUpdate) (amtPaid : Z) :
    res inverr (Invoice * gset SetID * ampUpdate * Z) :=
  match htlcs with
  | [] => Ok (s, amtPaid)
  | (key, htlc) :: htlcs =>
      htlc ← setPreimage setID (ud_State update) key htlc;
      let '(invoice, settledSetIDs, upd) := s in
      let htlcContextState := if settleEligibleAMP then ContractSettled else inv_State invoice in
      r ← updateHtlc now htlc htlcContextState setID;
      let '(htlcSettled, htlc) := r in
      let s := (invoice <| Htlcs ::= <[key := htlc]> |>, settledSetIDs, upd) in
      s ← (if htlcSettled && isAMP then settleHtlcsAmp htlc key s else Ok s);
      let amtPaid := if counts update key htlc (inv_State invoice) then u64 (amtPaid + ih_Amt htlc) else amtPaid in
      alignHtlcs update setID settleEligibleAMP htlcs s amtPaid
  end.

Fixpoint settleSets (setIDs : list SetID) (invoice : Invoice) : IDB Invoice :=
  match setIDs with
  | [] => mret invoice
  | id :: setIDs => invoice ← setSettleMetaFields invoiceNum now (Some id) invoice; settleSets setIDs invoice
  end.

Definition updateAMPInvoices (invoice : Invoice) (upd : ampUpdate) : IDB unit :=
  modify (fun d => d <| idb_sets ::= fun sets =>
    map_fold (fun setID keys sets =>
      <[(invoiceNum, setID) := filter (fun kh => kh.1 ∈ keys) (Htlcs invoice)]> sets) sets upd |>).

Definition changeState (hash : option bytes) (update : InvoiceUpdateDesc) (invoice : Invoice) : IDB Invoice :=
  match ud_State update with
  | None => mret invoice
  | Some su =>
      r ← lift (updateInvoiceState invoice hash su);
      let '(newState, invoice) := r in
      let invoice := if negb isAMP || bool_decide (newState = ContractCanceled) then invoice <| inv_State := newState |> else invoice in
      if negb isAMP && bool_decide (NewState su = ContractSettled) then setSettleMetaFields invoiceNum now None invoice
      else mret invoice
  end.

Definition storeInvoice (upd : ampUpdate) (invoice : Invoice) : IDB unit :=
  stored ← lift (storedInvoice invoice);
  _ ← modify (fun d => d <| idb_invoices ::= <[invoiceNum := stored]> |>);
  if isAMP then updateAMPInvoices invoice upd else mret tt.

(** The part of [updateInvoice] after its callback returned a descriptor. *)
Definition applyUpdate (hash : option bytes) (update : InvoiceUpdateDesc) (invoice : Invoice) : IDB Invoice :=
  let newState := match ud_State update with Some su => NewState su | None => inv_State invoice end in
  let setID := match ud_State update with Some su => su_SetID su | None => ud_SetID update end in
  s ← addHtlcs (map_to_list (AddHtlcs update)) (invoice, ∅);
  s ← lift (cancelHtlcs update newState (map_to_list (Htlcs (fst s))) s);
  let '(invoice, upd) := s in
  _ ← check (negb (bool_decide (CancelHtlcs update ⊆ dom (Htlcs invoice)))) ErrCancelUnknown;
  invoice ← changeState hash update invoice;
  let settleEligibleAMP :=
    match ud_State update with Some su => negb (bool_decide (HTLCPreimages su = ∅)) | None => false end in
  r ← lift (alignHtlcs update setID settleEligibleAMP (map_to_list (Htlcs invoice)) (invoice, ∅, upd) 0);
  let '(invoice, settledSetIDs, upd, amtPaid) := r in
  let invoice := invoice <| AmtPaid ::= fun a => if isAMP then u64 (a + amtPaid) else amtPaid |> in
  invoice ← settleSets (elements settledSetIDs) invoice;
  let invoice := match ud_PayerAddress update with [] => invoice | a => invoice <| Terms ::= fun t => t <| PayerAddr := a |> |> end in
  _ ← storeInvoice upd invoice;
  mret invoice.
End Update.

(** [UpdateInvoice]: what the callback leaves in its caller's variables is the
    second component of the result. *)
Definition UpdateInvoice {R} (now : Z) (ref : InvoiceRef) (setIDHint : option SetID)
    (callback : Invoice -> res inverr (option InvoiceUpdateDesc * R)) : IDB (Invoice * R) :=
  transaction (
    d ← get;
    invoiceNum ← lift (fetchInvoiceNumByRef ref d);
    invoice ← lift (fetchInvoice invoiceNum (Some (default zero32 setIDHint)) d);
    r ← lift (callback (copyInvoice invoice));
    match r with
    | (None, x) => mret (invoice, x)
    | (Some update, x) =>
        invoice ← applyUpdate now invoiceNum (invoiceIsAMP invoice) (ref_payHash ref) update invoice;
        mret (invoice, x)
    end).

(** ** Deleting *)
Record InvoiceDeleteRef := mkDeleteRef { dr_PayHash : bytes; dr_PayAddr : option bytes; dr_AddIndex : Z; dr_SettleIndex : Z }.

Definition delAMPSettleIndex (invoiceKey : Z) : IDB unit :=
  d ← get;
  match idb_invoices d !! invoiceKey with
  | None => throw ErrInvoiceNotFound
  | Some i =>
      modify (fun d => d <| idb_settled ::= fun m => foldl (fun m s => delete (as_SettleIndex s) m) m (map_to_list (AMPState i)).*2 |>)
  end.

Definition deleteOne (ref : InvoiceDeleteRef) : IDB unit :=
  d ← get;
  match idb_hashes d !! dr_PayHash ref with
  | None => throw ErrInvoiceNotFound
  | Some invoiceKey =>
      _ ← modify (fun d => d <| idb_hashes ::= delete (dr_PayHash ref) |>
            <| idb_addrs ::= fun a => match dr_PayAddr ref with
                                      | Some p => if bool_decide (a !! p = Some invoiceKey) then delete p a else a
                                      | None => a
                                      end |>);
      _ ← check (negb (bool_decide (idb_added d !! dr_AddIndex ref = Some invoiceKey))) ErrUnknownInAddIndex;
      _ ← modify (fun d => d <| idb_added ::= delete (dr_AddIndex ref) |>);
      _ ← (if 0 <? dr_SettleIndex ref then
             _ ← check (negb (bool_decide (idb_settled d !! dr_SettleIndex ref = Some (invoiceKey, None)))) ErrUnknownInSettleIndex;
             modify (fun d => d <| idb_settled ::= delete (dr_SettleIndex ref) |>)
           else mret tt);
      _ ← delAMPSettleIndex invoiceKey;
      modify (fun d => d <| idb_sets ::= filter (fun kv => fst kv.1 <> invoiceKey) |> <| idb_invoices ::= delete invoiceKey |>)
  end.

Fixpoint deleteAll (refs : list InvoiceDeleteRef) : IDB unit :=
  match refs with
  | [] => mret tt
  | r :: refs => _ ← deleteOne r; deleteAll refs
  end.

Definition DeleteInvoice (refs : list InvoiceDeleteRef) : IDB unit := transaction (deleteAll refs).

(** [ScanInvoices]: every invoice with its payment hash. *)
Definition scanInvoices (d : invoiceDB) : res inverr (list (bytes * Invoice)) :=
  foldr (fun '(h, num) acc => invoice ← fetchInvoice num None d; rest ← acc; Ok ((h, invoice) :: rest))
    (Ok []) (map_to_list (idb_hashes d)).

Definition new_invoiceDB : invoiceDB := mkInvoiceDB ∅ ∅ ∅ 0 ∅ ∅ ∅ 0 ∅ 0.
