(* ===== verification/Invoices.v ===== *)
(** * The invoice registry ([invoices/invoiceregistry.go], [update.go], [resolution.go])

    What becomes of an HTLC that pays one of our invoices, and every other way an
    invoice changes.  Subscriptions of invoice clients, the expiry watcher and the
    payment an atomic swap triggers in a goroutine are outside the model; the wall
    clock is an argument. *)

From S2P Require Import Prelude Sha256 Wire UpdateLog Features Payments Amp InvoiceDB.

(** ** Resolutions *)
Inductive acceptResolutionResult : Type :=
| resultReplayToAccepted | resultDuplicateToAccepted | resultAccepted | resultPartialAccepted.

Inductive FailResolutionResult : Type :=
| ResultReplayToCanceled | ResultInvoiceAlreadyCanceled | ResultInvoiceAlreadySettled | ResultAmountTooLow
| ResultExpiryTooSoon | ResultCanceled | ResultInvoiceNotOpen | ResultMppTimeout | ResultAddressMismatch
| ResultHtlcSetTotalMismatch | ResultHtlcSetTotalTooLow | ResultHtlcSetOverpayment | ResultInvoiceNotFound
| ResultKeySendError | ResultMppInProgress | ResultHtlcInvoiceTypeMismatch | ResultAmpError
| ResultAmpReconstruction | ResultAtomicSwapError.

Inductive SettleResolutionResult : Type := ResultSettled | ResultReplayToSettled | ResultDuplicateToSettled.

#[export] Instance acceptResult_eq_dec : EqDecision acceptResolutionResult.
Proof. solve_decision. Defined.

Definition IsSetFailure (f : FailResolutionResult) : bool :=
  match f with
  | ResultAmpReconstruction | ResultHtlcSetTotalTooLow | ResultHtlcSetTotalMismatch | ResultHtlcSetOverpayment => true
  | _ => false
  end.

Inductive HtlcResolution : Type :=
| HtlcFail (key : CircuitKey) (AcceptHeight : Z) (Outcome : FailResolutionResult)
| HtlcSettle (Preimage : bytes) (key : CircuitKey) (AcceptHeight : Z) (Outcome : SettleResolutionResult)
| HtlcAccept (key : CircuitKey) (autoRelease : bool) (acceptTime : Z) (outcome : acceptResolutionResult).

Definition res_key (r : HtlcResolution) : CircuitKey :=
  match r with HtlcFail k _ _ | HtlcSettle _ k _ _ | HtlcAccept k _ _ _ => k end.

(** ** The update of an invoice by an HTLC ([update.go]) *)
Definition KeySendType : Z := 5482373484.
Definition ASType : Z := 5482373483.
Definition PayerAddressType : Z := 5482373482.

Record invoiceUpdateCtx := mkCtx {
  cx_hash : bytes;
  cx_circuitKey : CircuitKey;
  cx_amtPaid : Z;
  cx_assetId : Z;
  cx_expiry : Z;
  cx_currentHeight : Z;
  cx_finalCltvRejectDelta : Z;
  cx_customRecords : option CustomSet;
  cx_mpp : option MPP;
  cx_amp : option AMP;
  cx_payerAddress : bytes
}.

#[export] Instance ctx_eta : Eta invoiceUpdateCtx := fun c =>
  mkCtx (cx_hash c) (cx_circuitKey c) (cx_amtPaid c) (cx_assetId c) (cx_expiry c) (cx_currentHeight c)
    (cx_finalCltvRejectDelta c) (cx_customRecords c) (cx_mpp c) (cx_amp c) (cx_payerAddress c).

Definition customRecord (ctx : invoiceUpdateCtx) (type : Z) : option bytes := r ← cx_customRecords ctx; r !! type.

Definition invoiceRef (ctx : invoiceUpdateCtx) : InvoiceRef :=
  match cx_amp ctx, cx_mpp ctx with
  | Some _, Some mpp => InvoiceRefByAddr (paymentAddr mpp)
  | None, Some mpp => InvoiceRefByHashAndAddr (cx_hash ctx) (paymentAddr mpp)
  | _, None => InvoiceRefByHash (cx_hash ctx)
  end.

Definition ctx_setID (ctx : invoiceUpdateCtx) : option SetID := amp_setID <$> cx_amp ctx.

Definition failRes (ctx : invoiceUpdateCtx) (outcome : FailResolutionResult) : HtlcResolution :=
  HtlcFail (cx_circuitKey ctx) (cx_currentHeight ctx) outcome.
Definition settleRes (ctx : invoiceUpdateCtx) (preimage : bytes) (outcome : SettleResolutionResult) : HtlcResolution :=
  HtlcSettle preimage (cx_circuitKey ctx) (cx_currentHeight ctx) outcome.
Definition acceptRes (ctx : invoiceUpdateCtx) (outcome : acceptResolutionResult) : HtlcResolution :=
  HtlcAccept (cx_circuitKey ctx) false 0 outcome.

Abbreviation Outcome := (res inverr (option InvoiceUpdateDesc * HtlcResolution)).

Definition fails (ctx : invoiceUpdateCtx) (outcome : FailResolutionResult) : Outcome := Ok (None, failRes ctx outcome).

(** [*inv.Terms.PaymentPreimage]. *)
Definition knownPreimage (inv : Invoice) : res inverr bytes :=
  match PaymentPreimage (Terms inv) with None => Panic | Some p => Ok p end.

(** The height test every HTLC has to pass. *)
Definition tooSoon (ctx : invoiceUpdateCtx) (inv : Invoice) : bool :=
  (cx_expiry ctx <? u32 (i32 (cx_currentHeight ctx + cx_finalCltvRejectDelta ctx)))
  || (cx_expiry ctx <? u32 (i32 (cx_currentHeight ctx + FinalCltvDelta (Terms inv)))).

Definition addOne (ctx : invoiceUpdateCtx) (d : HtlcAcceptDesc) (state : option InvoiceStateUpdateDesc) : InvoiceUpdateDesc :=
  mkUpdateDesc state ∅ {[cx_circuitKey ctx := d]} None [].

Definition child_desc (a : AMP) : ChildDesc := mkChildDesc (rootShare a) (childIndex a).

(** The preimages of the set, or that the shares do not fit the hashes. *)
Definition reconstructAMPPreimages (ctx : invoiceUpdateCtx) (amp : AMP) (htlcSet : gmap CircuitKey InvoiceHTLC) :
    res inverr (option (gmap CircuitKey bytes)) :=
  match mapM (fun kh : CircuitKey * InvoiceHTLC => d ← ih_AMP kh.2; Some (kh.1, d)) (map_to_list htlcSet) with
  | None => Panic
  | Some others =>
      match ReconstructChildren (child_desc amp :: ((fun kd => child_desc (ad_Record kd.2)) <$> others)) with
      | [] => Panic
      | child :: children =>
          if negb (bool_decide (cx_hash ctx = c_Hash child)) then Ok None
          else if negb (forallb (fun '(kd, c) => bool_decide (ad_Hash (snd kd) = c_Hash c)) (zip others children)) then Ok None
          else Ok (Some (list_to_map (zip others.*1 (c_Preimage <$> children) ++ [(cx_circuitKey ctx, c_Preimage child)])))
      end
  end.

(** The HTLCs of the set against the announced total: their sum, or a mismatch. *)
Fixpoint setTotal (total : Z) (htlcs : list InvoiceHTLC) (acc : Z) : option Z :=
  match htlcs with
  | [] => Some acc
  | h :: htlcs => if negb (total =? ih_MppTotalAmt h) then None else setTotal total htlcs (u64 (acc + ih_Amt h))
  end.

Definition updateMpp (ctx : invoiceUpdateCtx) (mpp : MPP) (inv : Invoice) : Outcome :=
  let required := RequiresFeature (ct_Features (Terms inv)) AMPRequired in
  if required && bool_decide (cx_amp ctx = None) then fails ctx ResultHtlcInvoiceTypeMismatch
  else if negb required && negb (bool_decide (cx_amp ctx = None)) then fails ctx ResultHtlcInvoiceTypeMismatch
  else
    let setID := ctx_setID ctx in
    let acceptDesc := mkAcceptDesc (cx_currentHeight ctx) (cx_amtPaid ctx) (cx_assetId ctx) (totalMsat mpp) (cx_expiry ctx)
                        (cx_customRecords ctx) ((fun a => mkAMPData a (cx_hash ctx) None) <$> cx_amp ctx) in
    if negb (bool_decide (inv_State inv = ContractOpen)) then fails ctx ResultInvoiceNotOpen
    else if negb (bool_decide (paymentAddr mpp = PaymentAddr (Terms inv))) then fails ctx ResultAddressMismatch
    else if totalMsat mpp =? 0 then fails ctx ResultHtlcSetTotalTooLow
    else if totalMsat mpp <? ct_Value (Terms inv) then fails ctx ResultHtlcSetTotalTooLow
    else
      let htlcSet := HTLCSet inv setID HtlcStateAccepted in
      match setTotal (totalMsat mpp) (map_to_list htlcSet).*2 0 with
      | None => fails ctx ResultHtlcSetTotalMismatch
      | Some sum =>
          let newSetTotal := u64 (sum + cx_amtPaid ctx) in
          if totalMsat mpp <? newSetTotal then fails ctx ResultHtlcSetOverpayment
          else if tooSoon ctx inv then fails ctx ResultExpiryTooSoon
          else if negb (newSetTotal =? totalMsat mpp) then
            Ok (Some (addOne ctx acceptDesc None), acceptRes ctx resultPartialAccepted)
          else if HodlInvoice inv then
            Ok (Some (addOne ctx acceptDesc (Some (mkStateUpdate ContractAccepted None ∅ setID))), acceptRes ctx resultAccepted)
          else
            match cx_amp ctx with
            | Some amp =>
                preimages ← reconstructAMPPreimages ctx amp htlcSet;
                match preimages with
                | None => Ok (Some (addOne ctx acceptDesc (Some (mkStateUpdate ContractCanceled None ∅ setID))),
                              failRes ctx ResultAmpReconstruction)
                | Some preimages =>
                    Ok (Some (addOne ctx acceptDesc (Some (mkStateUpdate ContractSettled (PaymentPreimage (Terms inv)) preimages setID))),
                        settleRes ctx (default zero32 (preimages !! cx_circuitKey ctx)) ResultSettled)
                end
            | None =>
                preimage ← knownPreimage inv;
                Ok (Some (addOne ctx acceptDesc (Some (mkStateUpdate ContractSettled (PaymentPreimage (Terms inv)) ∅ setID))),
                    settleRes ctx preimage ResultSettled)
            end
      end.

Definition updateLegacy (ctx : invoiceUpdateCtx) (inv : Invoice) : Outcome :=
  if bool_decide (inv_State inv = ContractCanceled) then fails ctx ResultInvoiceAlreadyCanceled
  else if cx_amtPaid ctx <? ct_Value (Terms inv) then fails ctx ResultAmountTooLow
  else if bool_decide (customRecord ctx KeySendType = None) && RequiresFeature (ct_Features (Terms inv)) PaymentAddrRequired
  then fails ctx ResultAddressMismatch
  else if existsb (fun h => 0 <? ih_MppTotalAmt h) (map_to_list (HTLCSet inv None HtlcStateAccepted)).*2
  then fails ctx ResultMppInProgress
  else if tooSoon ctx inv then fails ctx ResultExpiryTooSoon
  else
    let acceptDesc := mkAcceptDesc (cx_currentHeight ctx) (cx_amtPaid ctx) 0 0 (cx_expiry ctx) (cx_customRecords ctx) None in
    match inv_State inv with
    | ContractAccepted => Ok (Some (addOne ctx acceptDesc None), acceptRes ctx resultDuplicateToAccepted)
    | ContractSettled =>
        preimage ← knownPreimage inv;
        Ok (Some (addOne ctx acceptDesc None), settleRes ctx preimage ResultDuplicateToSettled)
    | _ =>
        if HodlInvoice inv then
          Ok (Some (addOne ctx acceptDesc (Some (mkStateUpdate ContractAccepted None ∅ None))), acceptRes ctx resultAccepted)
        else
          preimage ← knownPreimage inv;
          Ok (Some (addOne ctx acceptDesc (Some (mkStateUpdate ContractSettled (PaymentPreimage (Terms inv)) ∅ None))),
              settleRes ctx preimage ResultSettled)
    end.

Definition updateInvoice (ctx : invoiceUpdateCtx) (inv : Invoice) : Outcome :=
  match Htlcs inv !! cx_circuitKey ctx with
  | Some htlc =>
      match ih_State htlc with
      | HtlcStateCanceled => fails ctx ResultReplayToCanceled
      | HtlcStateAccepted => Ok (None, acceptRes ctx resultReplayToAccepted)
      | HtlcStateSettled => preimage ← knownPreimage inv; Ok (None, settleRes ctx preimage ResultReplayToSettled)
      end
  | None => match cx_mpp ctx with None => updateLegacy ctx inv | Some mpp => updateMpp ctx mpp inv end
  end.

(** ** The registry *)
Record RegistryConfig := mkRegistryConfig {
  FinalCltvRejectDelta : Z;
  HtlcHoldDuration : Z;
  AcceptKeySend : bool;
  AcceptAMP : bool;
  GcCanceledInvoicesOnStartup : bool;
  GcCanceledInvoicesOnTheFly : bool;
  KeysendHoldTime : Z
}.

(** Subscribers are the channels of links and resolvers, by number; [rg_outbox]
    is what was sent on them, [rg_timers] the pending release events. *)
Record InvoiceRegistry := mkRegistry {
  rg_cdb : invoiceDB;
  hodlSubscriptions : gmap CircuitKey (gset Z);
  hodlReverseSubscriptions : gmap Z (gset CircuitKey);
  rg_timers : list (InvoiceRef * CircuitKey * Z);
  rg_outbox : list (Z * HtlcResolution)
}.

#[export] Instance Registry_eta : Eta InvoiceRegistry := fun r =>
  mkRegistry (rg_cdb r) (hodlSubscriptions r) (hodlReverseSubscriptions r) (rg_timers r) (rg_outbox r).

Inductive regerr : Type :=
| ErrInvoiceDB (e : inverr) | ErrPreimageLength | ErrKeysendPreimage | ErrMppKeysend | ErrFinalExpiry | ErrNoMPP
| ErrUnmarshal.

Abbreviation REG := (M InvoiceRegistry regerr).

Definition on_cdb {A} (m : IDB A) : REG A := fun r =>
  let '(x, d) := m (rg_cdb r) in
  (match x with Ok a => Ok a | Err e => Err (ErrInvoiceDB e) | Panic => Panic end, r <| rg_cdb := d |>).

(** [notifyHodlSubscribers]: sends to every subscriber and forgets them. *)
Definition notifyHodlSubscribers (res : HtlcResolution) : REG unit := modify (fun r =>
  match hodlSubscriptions r !! res_key res with
  | None => r
  | Some subscribers =>
      r <| rg_outbox ::= fun o => o ++ ((fun s => (s, res)) <$> elements subscribers) |>
        <| hodlReverseSubscriptions ::= fun rev => foldl (fun rev s => alter (fun keys => keys ∖ {[res_key res]}) s rev) rev (elements subscribers) |>
        <| hodlSubscriptions ::= delete (res_key res) |>
  end).

Fixpoint notifyAll (rs : list HtlcResolution) : REG unit :=
  match rs with [] => mret tt | r :: rs => _ ← notifyHodlSubscribers r; notifyAll rs end.

Definition hodlSubscribe (subscriber : Z) (key : CircuitKey) : REG unit := modify (fun r =>
  r <| hodlSubscriptions ::= fun m => <[key := {[subscriber]} ∪ default ∅ (m !! key)]> m |>
    <| hodlReverseSubscriptions ::= fun m => <[subscriber := {[key]} ∪ default ∅ (m !! subscriber)]> m |>).

Definition HodlUnsubscribeAll (subscriber : Z) : REG unit := modify (fun r =>
  r <| hodlSubscriptions ::= fun m => foldl (fun m k => alter (fun s => s ∖ {[subscriber]}) k m) m
                               (elements (default ∅ (hodlReverseSubscriptions r !! subscriber))) |>
    <| hodlReverseSubscriptions ::= delete subscriber |>).

Section Registry.
Context (cfg : RegistryConfig).
(** Whether [proto.Unmarshal] accepts the data of an atomic swap invoice. *)
Context (unmarshals : bytes -> bool).

Definition AddInvoice (invoice : Invoice) (paymentHash : bytes) : REG Z := on_cdb (DB_AddInvoice invoice paymentHash).

Definition fresh_invoice (now assetId delta expiry value : Z) (preimage : option bytes) (addr : bytes) (features : RawFeatureVector) (hodl : bool) : Invoice :=
  mkInvoice [] [] now 0 (mkTerms delta expiry preimage value assetId addr [] features) 0 0 ContractOpen 0 assetId ∅ ∅ hodl.

(** [AddInvoice] of a just-in-time invoice, duplicates ignored. *)
Definition addIgnoring (dup : inverr -> bool) (invoice : Invoice) (hash : bytes) : REG unit := fun r =>
  match AddInvoice invoice hash r with
  | (Err (ErrInvoiceDB e), r) => ((if dup e then Ok tt else Err (ErrInvoiceDB e)), r)
  | (Ok _, r) => (Ok tt, r)
  | (Err e, r) => (Err e, r)
  | (Panic, r) => (Panic, r)
  end.

Definition dupHash (e : inverr) : bool := match e with ErrDuplicateInvoice => true | _ => false end.
Definition dupAny (e : inverr) : bool := match e with ErrDuplicateInvoice | ErrDuplicatePayAddr => true | _ => false end.

Definition jit_features : RawFeatureVector := NewRawFeatureVector [TLVOnionPayloadOptional].

Definition expiresTooSoon (ctx : invoiceUpdateCtx) : bool :=
  cx_expiry ctx <? u32 (i32 (cx_currentHeight ctx + FinalCltvRejectDelta cfg)).

Definition processKeySend (now : Z) (ctx : invoiceUpdateCtx) : REG unit :=
  match customRecord ctx KeySendType with
  | None => mret tt
  | Some preimage =>
      _ ← check (negb (Z.of_nat (length preimage) =? 32)) ErrPreimageLength;
      _ ← check (negb (bool_decide (Sum256 preimage = cx_hash ctx))) ErrKeysendPreimage;
      _ ← check (negb (bool_decide (cx_mpp ctx = None))) ErrMppKeysend;
      _ ← check (expiresTooSoon ctx) ErrFinalExpiry;
      let hold := negb (KeysendHoldTime cfg =? 0) in
      addIgnoring dupHash (fresh_invoice now (cx_assetId ctx) (FinalCltvRejectDelta cfg) (if hold then KeysendHoldTime cfg else 0)
        (cx_amtPaid ctx) (Some preimage) BlankPayAddr jit_features hold) (cx_hash ctx)
  end.

(** Duplicates are not ignored here: the error of [AddInvoice] is returned, after
    the payment of the swap was started. *)
Definition processAtomicSwap (now : Z) (ctx : invoiceUpdateCtx) : REG unit :=
  match customRecord ctx ASType with
  | None => mret tt
  | Some asData =>
      _ ← check (negb (unmarshals asData)) ErrUnmarshal;
      _ ← check (negb (bool_decide (cx_mpp ctx = None))) ErrMppKeysend;
      _ ← check (expiresTooSoon ctx) ErrFinalExpiry;
      _ ← AddInvoice (fresh_invoice now (cx_assetId ctx) (FinalCltvRejectDelta cfg) 0
        (cx_amtPaid ctx) None BlankPayAddr jit_features true) (cx_hash ctx);
      mret tt
  end.

Definition amp_features : RawFeatureVector := NewRawFeatureVector [TLVOnionPayloadOptional; PaymentAddrOptional; AMPRequired].

Definition processAMP (now : Z) (ctx : invoiceUpdateCtx) : REG unit :=
  match cx_mpp ctx with
  | None => throw ErrNoMPP
  | Some mpp =>
      _ ← check (expiresTooSoon ctx) ErrFinalExpiry;
      addIgnoring dupAny (fresh_invoice now 0 (FinalCltvRejectDelta cfg) 0 (totalMsat mpp) None (paymentAddr mpp) amp_features false)
        (cx_hash ctx)
  end.

(** What a final resolution sends to the links holding HTLCs of the same set. *)
Definition failNotices (ctx : invoiceUpdateCtx) (outcome : FailResolutionResult) (invoice : Invoice) : list HtlcResolution :=
  (fun kh => HtlcFail kh.1 (i32 (ih_AcceptHeight kh.2)) outcome) <$>
    map_to_list (HTLCSet invoice (ctx_setID ctx) HtlcStateCanceled).

Definition settleNotices (ctx : invoiceUpdateCtx) (preimage : bytes) (outcome : SettleResolutionResult) (invoice : Invoice) : list HtlcResolution :=
  ((fun kh : CircuitKey * InvoiceHTLC =>
      HtlcSettle (default preimage (d ← ih_AMP kh.2; ad_Preimage d)) kh.1 (i32 (ih_AcceptHeight kh.2)) outcome) <$>
    map_to_list (HTLCSet invoice (ctx_setID ctx) HtlcStateSettled)) ++
  ((fun kh => HtlcFail kh.1 (i32 (ih_AcceptHeight kh.2)) ResultInvoiceAlreadySettled) <$>
    map_to_list (HTLCSetCompliment invoice (ctx_setID ctx) HtlcStateCanceled)).

(** The callback of [notifyExitHopHtlcLocked]. *)
Definition exitCallback (ctx : invoiceUpdateCtx) (inv : Invoice) : Outcome :=
  x ← updateInvoice ctx inv;
  let '(update, resolution) := (x : option InvoiceUpdateDesc * HtlcResolution) in
  Ok (match cx_payerAddress ctx with
      | [] => update
      | a => (fun u => u <| ud_PayerAddress := a |>) <$> update
      end, resolution).

Definition notifyExitHopHtlcLocked (now : Z) (ctx : invoiceUpdateCtx) (hodlChan : Z) : REG HtlcResolution := fun r =>
  match on_cdb (UpdateInvoice now (invoiceRef ctx) (ctx_setID ctx) (exitCallback ctx)) r with
  | (Err (ErrInvoiceDB ErrInvoiceNotFound), r) => (Ok (failRes ctx ResultInvoiceNotFound), r)
  | (Err e, r) => (Err e, r)
  | (Panic, r) => (Panic, r)
  | (Ok (invoice, resolution), r) =>
      match resolution with
      | HtlcFail key height outcome =>
          let height := match Htlcs invoice !! cx_circuitKey ctx with Some h => i32 (ih_AcceptHeight h) | None => height end in
          (_ ← notifyAll (if IsSetFailure outcome then failNotices ctx outcome invoice else []);
           mret (HtlcFail key height outcome)) r
      | HtlcSettle preimage key height outcome =>
          (_ ← notifyAll (settleNotices ctx preimage outcome invoice); mret resolution) r
      | HtlcAccept key _ _ outcome =>
          match Htlcs invoice !! cx_circuitKey ctx with
          | None => (Err (ErrInvoiceDB (ErrAcceptedNotPresent (cx_circuitKey ctx))), r)
          | Some h =>
              (_ ← hodlSubscribe hodlChan (cx_circuitKey ctx);
               mret (if bool_decide (inv_State invoice = ContractOpen) then HtlcAccept key true (ih_AcceptTime h) outcome else resolution)) r
          end
      end
  end.

(** A failure of a just-in-time invoice fails the HTLC. *)
Definition jit (ctx : invoiceUpdateCtx) (outcome : FailResolutionResult) (m : REG unit) (k : REG (option HtlcResolution)) : REG (option HtlcResolution) := fun r =>
  match m r with
  | (Ok _, r) => k r
  | (Err _, r) => (Ok (Some (failRes ctx outcome)), r)
  | (Panic, r) => (Panic, r)
  end.

(** The resolution of the exit hop; an HTLC of an open invoice is released in time. *)
Definition resolveExit (now : Z) (ctx : invoiceUpdateCtx) (hodlChan : Z) : REG (option HtlcResolution) :=
  resolution ← notifyExitHopHtlcLocked now ctx hodlChan;
  match resolution with
  | HtlcAccept key autoRelease acceptTime _ =>
      _ ← (if autoRelease : bool then
             modify (fun r => r <| rg_timers ::= fun t => t ++ [(invoiceRef ctx, key, acceptTime + HtlcHoldDuration cfg)] |>)
           else mret tt);
      mret None
  | _ => mret (Some resolution)
  end.

(** [NotifyExitHopHtlc] for the context it builds of its arguments; [None] is the
    nil resolution of an accepted HTLC. *)
Definition NotifyExitHopHtlc (now : Z) (ctx : invoiceUpdateCtx) (hodlChan : Z) : REG (option HtlcResolution) :=
  let ctx := ctx <| cx_finalCltvRejectDelta := FinalCltvRejectDelta cfg |> <| cx_payerAddress := [] |> in
  let exit :=
    jit ctx ResultAtomicSwapError (processAtomicSwap now ctx)
      (resolveExit now (ctx <| cx_payerAddress := default [] (customRecord ctx PayerAddressType) |>) hodlChan) in
  if AcceptAMP cfg && negb (bool_decide (cx_amp ctx = None)) then jit ctx ResultAmpError (processAMP now ctx) exit
  else if AcceptKeySend cfg && bool_decide (cx_amp ctx = None) then jit ctx ResultKeySendError (processKeySend now ctx) exit
  else exit.

(** The callback of [SettleHodlInvoice]. *)
Definition settleHodl (preimage : bytes) (invoice : Invoice) : res inverr (option InvoiceUpdateDesc * unit) :=
  match inv_State invoice with
  | ContractOpen => Err ErrInvoiceStillOpen
  | ContractCanceled => Err ErrInvoiceAlreadyCanceled
  | ContractSettled => Err ErrInvoiceAlreadySettled
  | ContractAccepted => Ok (Some (mkUpdateDesc (Some (mkStateUpdate ContractSettled (Some preimage) ∅ None)) ∅ ∅ None []), tt)
  end.

Definition with_state (state : HtlcState) (f : CircuitKey -> InvoiceHTLC -> HtlcResolution) (invoice : Invoice) : list HtlcResolution :=
  omap (fun kh => if bool_decide (ih_State kh.2 = state) then Some (f kh.1 kh.2) else None) (map_to_list (Htlcs invoice)).

Definition SettleHodlInvoice (now : Z) (preimage : bytes) : REG unit :=
  r ← on_cdb (UpdateInvoice now (InvoiceRefByHash (Sum256 preimage)) None (settleHodl preimage));
  notifyAll (with_state HtlcStateSettled (fun k h => HtlcSettle preimage k (i32 (ih_AcceptHeight h)) ResultSettled) (fst r)).

Definition shouldCancel (state : ContractState) (cancelAccepted : bool) : bool :=
  if negb (bool_decide (state = ContractAccepted)) then true else cancelAccepted.

(** The callback of [cancelInvoiceImpl]. *)
Definition cancelUpdate (cancelAccepted : bool) (invoice : Invoice) : res inverr (option InvoiceUpdateDesc * unit) :=
  if negb (shouldCancel (inv_State invoice) cancelAccepted) then Ok (None, tt)
  else Ok (Some (mkUpdateDesc (Some (mkStateUpdate ContractCanceled None ∅ None)) ∅ ∅ None []), tt).

Definition deleteRef (payHash : bytes) (invoice : Invoice) : InvoiceDeleteRef :=
  mkDeleteRef payHash
    (if bool_decide (PaymentAddr (Terms invoice) = BlankPayAddr) then None else Some (PaymentAddr (Terms invoice)))
    (AddIndex invoice) (SettleIndex invoice).

(** A failed deletion is only logged. *)
Definition deleteLogged (refs : list InvoiceDeleteRef) : REG unit := fun r =>
  match on_cdb (DeleteInvoice refs) r with (Panic, r) => (Panic, r) | (_, r) => (Ok tt, r) end.

Definition cancelInvoiceImpl (now : Z) (payHash : bytes) (cancelAccepted : bool) : REG unit := fun r =>
  match on_cdb (UpdateInvoice now (InvoiceRefByHash payHash) None (cancelUpdate cancelAccepted)) r with
  | (Err (ErrInvoiceDB ErrInvoiceAlreadyCanceled), r) => (Ok tt, r)
  | (Err e, r) => (Err e, r)
  | (Panic, r) => (Panic, r)
  | (Ok (invoice, _), r) =>
      if bool_decide (inv_State invoice = ContractAccepted) then (Ok tt, r)
      else
        (_ ← notifyAll (with_state HtlcStateCanceled (fun k h => HtlcFail k (i32 (ih_AcceptHeight h)) ResultCanceled) invoice);
         if GcCanceledInvoicesOnTheFly cfg then deleteLogged [deleteRef payHash invoice] else mret tt) r
  end.

Definition CancelInvoice (now : Z) (payHash : bytes) : REG unit := cancelInvoiceImpl now payHash true.

(** The callback of the registry's [cancelSingleHtlc], and whether it updates. *)
Definition cancelOne (key : CircuitKey) (invoice : Invoice) : res inverr (option InvoiceUpdateDesc * bool) :=
  if negb (bool_decide (inv_State invoice = ContractOpen)) then Ok (None, false)
  else
    r ← match Htlcs invoice !! key with
        | Some h => Ok (ih_State h, None)
        | None =>
            match list.last (filter (fun ks => key ∈ InvoiceKeys ks.2) (map_to_list (AMPState invoice))) with
            | Some (setID, s) => Ok (as_State s, Some setID)
            | None => Err (ErrHtlcNotFound key)
            end
        end;
    let '(htlcState, setID) := r in
    if negb (bool_decide (htlcState = HtlcStateAccepted)) then Ok (None, false)
    else Ok (Some (mkUpdateDesc None {[key]} ∅ setID []), true).

Definition registry_cancelSingleHtlc (now : Z) (ref : InvoiceRef) (key : CircuitKey) (result : FailResolutionResult) : REG unit :=
  r ← on_cdb (UpdateInvoice now ref None (cancelOne key));
  let '(invoice, updated) := r in
  if negb updated then mret tt
  else
    match Htlcs invoice !! key with
    | None => throw (ErrInvoiceDB (ErrHtlcNotFound key))
    | Some h =>
        if bool_decide (ih_State h = HtlcStateCanceled) then notifyHodlSubscribers (HtlcFail key (i32 (ih_AcceptHeight h)) result)
        else mret tt
    end.

(** The main loop takes the earliest release event that is due. *)
Definition releaseHtlc (now : Z) (i : nat) : REG unit := fun r =>
  match rg_timers r !! i with
  | Some (ref, key, releaseTime) =>
      if releaseTime <=? now then
        registry_cancelSingleHtlc now ref key ResultMppTimeout (r <| rg_timers := delete i (rg_timers r) |>)
      else (Ok tt, r)
  | None => (Ok tt, r)
  end.

(** What [scanInvoicesOnStart] deletes. *)
Definition scanInvoicesOnStart : REG unit := fun r =>
  match scanInvoices (rg_cdb r) with
  | Ok found =>
      let removable :=
        omap (fun hi => if negb (IsPending hi.2) && GcCanceledInvoicesOnStartup cfg && bool_decide (inv_State hi.2 = ContractCanceled)
                        then Some (deleteRef hi.1 hi.2) else None) found in
      match removable with [] => (Ok tt, r) | _ => deleteLogged removable r end
  | Err e => (Err (ErrInvoiceDB e), r)
  | Panic => (Panic, r)
  end.

(** A restart keeps the database and forgets the subscriptions. *)
Definition NewRegistry (db : invoiceDB) : InvoiceRegistry := mkRegistry db ∅ ∅ [] [].
End Registry.
