(* ===== verification/InvoiceSafety.v ===== *)
(** * Safety of the invoice registry

    What holds of every invoice in every state the registry reaches: its state,
    its HTLCs and the amount paid agree, a settled invoice stays settled, and a
    preimage is handed out only for an invoice that is paid. *)

From S2P Require Import Prelude Sha256 Wire UpdateLog Features Payments Amp InvoiceDB Invoices.

(** ** Sums over the HTLCs of an invoice *)
Definition worth (h : InvoiceHTLC) : Z := if bool_decide (ih_State h = HtlcStateCanceled) then 0 else ih_Amt h.

(** What the HTLCs that were not canceled are worth. *)
Definition live (m : gmap CircuitKey InvoiceHTLC) : Z := sum (fun kh => worth kh.2) (map_to_list m).

Lemma live_insert m k h : m !! k = None -> live (<[k := h]> m) = worth h + live m.
Proof. intros Hn. unfold live. by rewrite (map_to_list_insert _ _ _ Hn). Qed.

Lemma live_delete m k h : m !! k = Some h -> live m = worth h + live (delete k m).
Proof. intros Hs. unfold live. by rewrite <- (map_to_list_delete _ _ _ Hs). Qed.

Lemma live_update m k h h' : m !! k = Some h -> live (<[k := h']> m) = live m - worth h + worth h'.
Proof.
  intros Hs. rewrite (live_delete m k h Hs), <- (insert_delete_eq m k h'), live_insert by apply lookup_delete_eq. lia.
Qed.

Lemma live_ext m m' : (forall k, worth <$> m' !! k = worth <$> m !! k) -> live m' = live m.
Proof.
  intros Heq. assert (Hsum : forall n : gmap CircuitKey InvoiceHTLC, live n = sum snd (map_to_list (worth <$> n))).
  { intros n. unfold live. rewrite map_to_list_fmap, sum_fmap. apply sum_ext. by intros [] _. }
  rewrite !Hsum. do 2 f_equal. apply map_eq. intros k. by rewrite !lookup_fmap.
Qed.

Lemma live_nonneg m : (forall k h, m !! k = Some h -> 0 <= ih_Amt h) -> 0 <= live m.
Proof.
  intros Hm. apply sum_nonneg, list.Forall_forall. intros [k h] Hin%elem_of_map_to_list.
  specialize (Hm k h Hin). unfold worth. cbn. case_bool_decide; lia.
Qed.

Lemma live_zero m : (forall k h, m !! k = Some h -> ih_State h = HtlcStateCanceled) -> live m = 0.
Proof.
  intros Hm. unfold live. rewrite (sum_ext _ (fun _ => 0)).
  - clear. induction (map_to_list m); cbn; lia.
  - intros [k h] Hin%elem_of_map_to_list. unfold worth. cbn. by rewrite bool_decide_true by (by apply (Hm k)).
Qed.

Lemma sum_filter {A} (P : A -> Prop) `{!forall x, Decision (P x)} (f : A -> Z) l :
  sum f (filter P l) = sum (fun x => if decide (P x) then f x else 0) l.
Proof. induction l as [|x l IH]; [done|]. rewrite filter_cons. cbn [sum]. rewrite <- IH. by destruct (decide (P x)). Qed.

Lemma map_to_list_filter (P : CircuitKey * InvoiceHTLC -> Prop) `{!forall x, Decision (P x)} (m : gmap CircuitKey InvoiceHTLC) :
  map_to_list (filter P m) ≡ₚ filter P (map_to_list m).
Proof.
  rewrite map_filter_alt. apply map_to_list_to_map.
  eapply sublist_NoDup; [apply (NoDup_fst_map_to_list m)|]. apply fmap_sublist, sublist_filter.
Qed.

(** ** The steps of [applyUpdate] on an invoice that is not AMP *)
Section Steps.
Context (now num : Z).

Definition no_amp (m : gmap CircuitKey InvoiceHTLC) : Prop := forall k h, m !! k = Some h -> ih_AMP h = None.

Definition align (st : ContractState) (h : InvoiceHTLC) : InvoiceHTLC :=
  match updateHtlc now h st None with Ok (_, h') => h' | _ => h end.

Definition may_align (st : ContractState) (h : InvoiceHTLC) : Prop := exists b h', updateHtlc now h st None = Ok (b, h').

Lemma alignHtlcs_spec update invoice upd l acc r :
  NoDup l.*1 -> (forall k h, (k, h) ∈ l -> Htlcs invoice !! k = Some h) -> is_uint 64 acc ->
  alignHtlcs now false update None false l (invoice, ∅, upd) acc = Ok r ->
  exists m amt, r = (invoice <| Htlcs := m |>, ∅, upd, amt) /\
    (forall k h, (k, h) ∈ l -> may_align (inv_State invoice) h /\ m !! k = Some (align (inv_State invoice) h)) /\
    (forall k, k ∉ l.*1 -> m !! k = Htlcs invoice !! k) /\
    amt = u64 (acc + sum (fun kh => if bool_decide (inv_State invoice = ContractOpen) then 0
                                    else worth (align (inv_State invoice) kh.2)) l).
Proof.
  revert invoice acc. induction l as [|[k h] l IH]; intros invoice acc Hnd Hl Hacc Hrun.
  - cbn in Hrun. injection Hrun as <-. exists (Htlcs invoice), acc. split; [by destruct invoice|].
    split; [by intros k h ?%not_elem_of_nil|]. split; [done|]. cbn. by rewrite Z.add_0_r, uwrap_id.
  - apply list.NoDup_cons in Hnd as [Hk Hnd]. cbn in Hrun.
    destruct (updateHtlc now h (inv_State invoice) None) as [[b h']| |] eqn:Hu; [|done..]. cbn in Hrun.
    rewrite andb_false_r in Hrun. cbn in Hrun.
    assert (Ha : align (inv_State invoice) h = h') by (unfold align; by rewrite Hu).
    apply IH in Hrun as (m & amt & -> & Hin & Hout & ->).
    + cbn [inv_State] in *. change (inv_State (invoice <| Htlcs ::= <[k := h']> |>)) with (inv_State invoice) in *.
      exists m. eexists. split; [done|]. split; [|split].
      * intros k2 h2 [[= -> ->]|Hin2]%elem_of_cons; [|by apply Hin].
        split; [by exists b, h'|]. rewrite Hout by done. cbn. rewrite lookup_insert_eq, Ha. done.
      * intros k2 Hk2. rewrite fmap_cons, not_elem_of_cons in Hk2. destruct Hk2 as [Hne Hk2].
        rewrite Hout by done. cbn. by rewrite lookup_insert_ne by done.
      * cbn [sum snd]. rewrite Ha. unfold counts. cbn.
        assert (Hw : (if negb (bool_decide (inv_State invoice = ContractOpen)) && negb (bool_decide (ih_State h' = HtlcStateCanceled))
                      then u64 (acc + ih_Amt h') else acc) =
                     u64 (acc + (if bool_decide (inv_State invoice = ContractOpen) then 0 else worth h'))).
        { unfold worth. destruct (bool_decide (inv_State invoice = ContractOpen)); cbn; [by rewrite Z.add_0_r, uwrap_id|].
          destruct (bool_decide (ih_State h' = HtlcStateCanceled)); cbn; [by rewrite Z.add_0_r, uwrap_id|done]. }
        rewrite Hw. unfold uwrap. rewrite Zplus_mod_idemp_l. f_equal. lia.
    + done.
    + intros k2 h2 Hin2. cbn. rewrite lookup_insert_ne; [by apply Hl; right|].
      intros ->. apply Hk. by apply (list_elem_of_fmap_2 fst l (k2, h2)).
    + unfold counts. cbn. destruct (_ && _); [apply uwrap_range; lia|done].
Qed.
Lemma align_map update invoice upd r :
  alignHtlcs now false update None false (map_to_list (Htlcs invoice)) (invoice, ∅, upd) 0 = Ok r ->
  (forall k h, Htlcs invoice !! k = Some h -> may_align (inv_State invoice) h) /\
  r = (invoice <| Htlcs := align (inv_State invoice) <$> Htlcs invoice |>, ∅, upd,
       if bool_decide (inv_State invoice = ContractOpen) then 0 else u64 (live (align (inv_State invoice) <$> Htlcs invoice))).
Proof.
  intros Hrun. apply alignHtlcs_spec in Hrun as (m & amt & -> & Hin & Hout & ->).
  - split; [intros k h Hk; by apply (Hin k h), elem_of_map_to_list|].
    assert (Hm : m = align (inv_State invoice) <$> Htlcs invoice).
    { apply map_eq. intros k. rewrite lookup_fmap. destruct (Htlcs invoice !! k) as [h|] eqn:Hk.
      - by apply Hin, elem_of_map_to_list.
      - rewrite Hout, Hk; [done|]. intros ((k' & h) & -> & Hkh%elem_of_map_to_list)%list_elem_of_fmap. cbn in Hk. congruence. }
    rewrite Hm. f_equal. unfold live. rewrite map_to_list_fmap, sum_fmap, Z.add_0_l.
    case_bool_decide; [|done]. cbn. clear. induction (map_to_list (Htlcs invoice)); cbn; [done|exact IHl].
  - apply NoDup_fst_map_to_list.
  - intros k h. apply elem_of_map_to_list.
  - done.
Qed.

Lemma cancel_none update st l s : CancelHtlcs update = ∅ -> cancelHtlcs now false update st l s = Ok s.
Proof.
  intros Hc. revert s. induction l as [|[k h] l IH]; intros s; cbn; [done|].
  rewrite Hc, bool_decide_false by set_solver. apply IH.
Qed.

Definition canceled (h : InvoiceHTLC) : InvoiceHTLC := h <| ih_State := HtlcStateCanceled |> <| ih_ResolveTime := now |>.

Lemma cancel_one update st l i u s key : CancelHtlcs update = {[key]} -> NoDup l.*1 ->
  cancelHtlcs now false update st l (i, u) = Ok s ->
  key ∉ l.*1 /\ s = (i, u) \/
  exists h, (key, h) ∈ l /\ st = ContractOpen /\ ih_State h = HtlcStateAccepted /\
    s = (i <| Htlcs ::= <[key := canceled h]> |>, u).
Proof.
  intros Hc. revert i. induction l as [|[k h] l IH]; intros i Hnd; cbn.
  { intros [= <-]. left. split; [apply not_elem_of_nil|done]. }
  apply list.NoDup_cons in Hnd as [Hk Hnd]. rewrite Hc. destruct (decide (k = key)) as [->|Hne].
  - rewrite bool_decide_true by set_solver. cbn. intros Hrun. right. exists h.
    apply res_bind_Ok in Hrun as ([] & _ & Hrun). apply res_bind_Ok in Hrun as (h' & Hh & Hrun).
    unfold cancelSingleHtlc in Hh. apply res_bind_Ok in Hh as ([] & H1 & Hh). apply res_bind_Ok in Hh as ([] & H2 & [= <-]).
    unfold guard_err in H1, H2. destruct (decide (st = ContractOpen)) as [->|]; [|by rewrite bool_decide_false in H1 by done].
    destruct (decide (ih_State h = HtlcStateAccepted)) as [Hst|]; [|by rewrite bool_decide_false in H2 by done].
    cbn in Hrun. destruct (IH _ Hnd Hrun) as [[_ ->]|(h2 & Hin & _)].
    + split; [by left|]. done.
    + destruct Hk. by apply (list_elem_of_fmap_2 fst l (key, h2)).
  - rewrite bool_decide_false by set_solver. cbn. intros Hrun. destruct (IH i Hnd Hrun) as [[Hn ->]|(h2 & Hin & Hst & Ha & ->)].
    + left. split; [|done]. apply not_elem_of_cons. by split.
    + right. exists h2. split; [by right|done].
Qed.

Definition new_htlc (d : HtlcAcceptDesc) (records : CustomSet) : InvoiceHTLC :=
  mkInvoiceHTLC (had_Amt d) 0 (had_MppTotalAmt d) (u32 (had_AcceptHeight d)) now 0 (had_Expiry d) HtlcStateAccepted records (had_AMP d).

Lemma add_one key u invoice d s d' : had_AMP u = None ->
  addHtlcs now num false (map_to_list {[key := u]}) (invoice, ∅) d = (Ok s, d') ->
  d' = d /\ Htlcs invoice !! key = None /\
  exists records, had_CustomRecords u = Some records /\ s = (invoice <| Htlcs ::= <[key := new_htlc u records]> |>, ∅).
Proof.
  intros Hamp. rewrite map_to_list_singleton. cbn. unfold addHtlc. rewrite Hamp.
  unfold mbind, M_bind, check. case_bool_decide as Hk; cbn; [done|].
  destruct (had_CustomRecords u) as [records|]; cbn; [|done]. intros [= <- <-].
  split; [done|]. split; [by apply eq_None_not_Some|]. exists records. split; [done|]. unfold new_htlc. by rewrite Hamp.
Qed.
End Steps.

(** ** The invariant of an invoice *)
Definition max_amount : Z := 2 ^ 63.

(** An open invoice holds at most an incomplete set of partial payments; an
    accepted one is fully paid but held; a settled one is paid and its preimage
    opens its hash; a canceled one holds nothing. *)
Definition state_ok (hash : bytes) (i : Invoice) : Prop :=
  match inv_State i with
  | ContractOpen => AmtPaid i = 0 /\ exists T, 0 < T < max_amount /\ live (Htlcs i) < T /\
      forall k h, Htlcs i !! k = Some h -> ih_State h <> HtlcStateSettled /\
        (ih_State h = HtlcStateAccepted -> ih_MppTotalAmt h = T /\ ct_Value (Terms i) <= T)
  | ContractAccepted => AmtPaid i = u64 (live (Htlcs i)) /\ ct_Value (Terms i) <= live (Htlcs i) /\
      forall k h, Htlcs i !! k = Some h -> ih_State h <> HtlcStateSettled
  | ContractSettled => AmtPaid i = u64 (live (Htlcs i)) /\ ct_Value (Terms i) <= live (Htlcs i) /\
      (exists p, PaymentPreimage (Terms i) = Some p /\ Sum256 p = hash) /\
      forall k h, Htlcs i !! k = Some h -> ih_State h <> HtlcStateAccepted
  | ContractCanceled => AmtPaid i = 0 /\ forall k h, Htlcs i !! k = Some h -> ih_State h = HtlcStateCanceled
  end.

Record invoice_ok (hash : bytes) (i : Invoice) : Prop := {
  io_plain : invoiceIsAMP i = false;
  io_noamp : no_amp (Htlcs i);
  io_amts : forall k h, Htlcs i !! k = Some h -> 0 <= ih_Amt h < max_amount;
  io_state : state_ok hash i
}.

Lemma in_set_none h : ih_AMP h = None -> IsInHTLCSet None h = true.
Proof. unfold IsInHTLCSet. by intros ->. Qed.

(** Without settled HTLCs the accepted set is worth all the invoice holds. *)
Lemma accepted_sum i : no_amp (Htlcs i) -> (forall k h, Htlcs i !! k = Some h -> ih_State h <> HtlcStateSettled) ->
  sum (fun kh => ih_Amt kh.2) (map_to_list (HTLCSet i None HtlcStateAccepted)) = live (Htlcs i).
Proof.
  intros Hna Hns. unfold HTLCSet, live. rewrite map_to_list_filter, sum_filter. apply sum_ext.
  intros [k h] Hin%elem_of_map_to_list. specialize (Hna k h Hin). specialize (Hns k h Hin). cbn in *. unfold worth.
  destruct (ih_State h) eqn:Hst; [rewrite decide_True, bool_decide_false by (by (split; [done|by apply in_set_none]) || done); done| |done].
  rewrite decide_False by (by intros [? _]). by rewrite bool_decide_true.
Qed.

Lemma setTotal_spec T l acc s : is_uint 64 acc -> setTotal T l acc = Some s ->
  Forall (fun h => ih_MppTotalAmt h = T) l /\ s = u64 (acc + sum ih_Amt l).
Proof.
  revert acc. induction l as [|h l IH]; intros acc Hacc; cbn.
  - intros [= <-]. split; [done|]. by rewrite Z.add_0_r, uwrap_id.
  - destruct (Z.eqb_spec T (ih_MppTotalAmt h)) as [->|]; cbn; [|done]. intros Hrun.
    apply IH in Hrun as [Hall ->]; [|apply uwrap_range; lia]. split; [by constructor|].
    unfold uwrap. rewrite Zplus_mod_idemp_l. f_equal. lia.
Qed.

Lemma guard_Ok {E} b (e : E) u : guard_err b e = Ok u -> b = false.
Proof. by destruct b. Qed.

(** ** [applyUpdate] on an invoice that is not AMP *)
Section Apply.
Context (now num : Z).

(** The updates such an invoice is given: no set of an AMP payment is involved. *)
Definition plain_update (u : InvoiceUpdateDesc) : Prop :=
  match ud_State u with Some su => su_SetID su = None /\ HTLCPreimages su = ∅ | None => ud_SetID u = None end.

Definition with_payer (u : InvoiceUpdateDesc) (i : Invoice) : Invoice :=
  match ud_PayerAddress u with [] => i | a => i <| Terms ::= fun t => t <| PayerAddr := a |> |> end.

Definition settled_up (i : Invoice) : Invoice :=
  i <| Htlcs := align now (inv_State i) <$> Htlcs i |>
    <| AmtPaid := if bool_decide (inv_State i = ContractOpen) then 0 else u64 (live (align now (inv_State i) <$> Htlcs i)) |>.

Definition newState_of (u : InvoiceUpdateDesc) (i : Invoice) : ContractState :=
  match ud_State u with Some su => NewState su | None => inv_State i end.

Lemma apply_inv u hash i d i' d' : plain_update u -> applyUpdate now num false hash u i d = (Ok i', d') ->
  exists s d1 ib upd i2 d2 st,
    addHtlcs now num false (map_to_list (AddHtlcs u)) (i, ∅) d = (Ok s, d1) /\
    cancelHtlcs now false u (newState_of u i) (map_to_list (Htlcs (fst s))) s = Ok (ib, upd) /\
    CancelHtlcs u ⊆ dom (Htlcs ib) /\
    changeState now num false hash u ib d1 = (Ok i2, d2) /\
    (forall k h, Htlcs i2 !! k = Some h -> may_align now (inv_State i2) h) /\
    i' = with_payer u (settled_up i2) /\
    storedInvoice i' = Ok st /\ d' = d2 <| idb_invoices ::= <[num := st]> |>.
Proof.
  intros Hplain Hrun. unfold applyUpdate in Hrun.
  apply M_bind_Ok in Hrun as (s & d1 & Hadd & Hrun). apply M_bind_Ok in Hrun as ([ib upd] & d1' & Hcan & Hrun).
  injection Hcan as Hcan <-. apply M_bind_Ok in Hrun as ([] & d1' & [Hsub ->]%check_Ok & Hrun).
  apply M_bind_Ok in Hrun as (i2 & d2 & Hchg & Hrun). apply M_bind_Ok in Hrun as (r & d2' & Hal & Hrun).
  assert (Hset : match ud_State u with Some su => su_SetID su | None => ud_SetID u end = None).
  { unfold plain_update in Hplain. by destruct (ud_State u); [destruct Hplain|]. }
  assert (Hel : match ud_State u with Some su => negb (bool_decide (HTLCPreimages su = ∅)) | None => false end = false).
  { unfold plain_update in Hplain. destruct (ud_State u) as [su|]; [|done]. destruct Hplain as [_ ->]. by rewrite bool_decide_true. }
  rewrite Hset, Hel in Hal. injection Hal as Hal <-. apply align_map in Hal as [Hmay ->].
  rewrite elements_empty in Hrun. cbn [settleSets] in Hrun. unfold mret in Hrun.
  apply M_bind_Ok in Hrun as (i3 & d3 & [= <- <-] & Hrun). apply M_bind_Ok in Hrun as ([] & d4 & Hst & Hrun).
  injection Hrun as <- <-. unfold storeInvoice in Hst. apply M_bind_Ok in Hst as (st & d5 & Hst & Hput).
  injection Hst as Hst <-. unfold modify in Hput. injection Hput as <-.
  exists s, d1, ib, upd, i2, d2, st. do 3 (split; [first [done|by destruct (bool_decide_reflect (CancelHtlcs u ⊆ dom (Htlcs ib)))]|]).
  split; [done|]. split; [done|]. split; [reflexivity|]. split; [exact Hst|reflexivity].
Qed.

Definition same_index (d d' : invoiceDB) : Prop :=
  idb_hashes d' = idb_hashes d /\ idb_num d' = idb_num d /\ idb_invoices d' = idb_invoices d.

#[local] Instance same_index_pre : PreOrder same_index.
Proof. split; [by intros d|]. intros a b c (?&?&?) (?&?&?). repeat split; congruence. Qed.

Lemma state_inv i hash su ns i' : su_SetID su = None -> updateInvoiceState i hash su = Ok (ns, i') ->
  ns = NewState su /\ ns <> ContractOpen /\
  (inv_State i = ContractOpen \/ inv_State i = ContractAccepted /\ ns <> ContractAccepted) /\
  (ns = ContractCanceled /\ i' = i \/
   ns <> ContractCanceled /\ HTLCSet i None HtlcStateAccepted <> ∅ /\
   (su_Preimage su = None /\ i' = i /\ (ns = ContractSettled -> is_Some (PaymentPreimage (Terms i))) \/
    exists p, su_Preimage su = Some p /\ hash = Some (Sum256 p) /\
      i' = i <| Terms ::= fun t => t <| PaymentPreimage := Some p |> |>)).
Proof.
  intros Hs. unfold updateInvoiceState. rewrite Hs. intros Hrun.
  apply res_bind_Ok in Hrun as ([] & Hno%guard_Ok%bool_decide_eq_false & Hrun).
  assert (Hst : inv_State i = ContractOpen \/ inv_State i = ContractAccepted) by (destruct (inv_State i); auto; discriminate).
  assert (Hrun' : (_ ← guard_err (bool_decide (inv_State i = ContractAccepted) && bool_decide (NewState su = ContractAccepted)) ErrInvoiceCannotAccept;
    if bool_decide (NewState su = ContractCanceled) then Ok (ContractCanceled, i)
    else
      _ ← guard_err (bool_decide (HTLCSet i None HtlcStateAccepted = ∅)) ErrEmptyHTLCSet;
      match su_Preimage su, hash with
      | Some _, None => Err ErrUnexpectedInvoicePreimage
      | Some p, Some h =>
          _ ← guard_err (negb (bool_decide (Sum256 p = h))) ErrInvoicePreimageMismatch;
          Ok (NewState su, i <| Terms ::= fun t => t <| PaymentPreimage := Some p |> |>)
      | None, _ =>
          _ ← guard_err (bool_decide (NewState su = ContractSettled) &&
                         bool_decide (PaymentPreimage (Terms i) = None)) ErrUnknownPreimage;
          Ok (NewState su, i)
      end) = Ok (ns, i')) by (destruct Hst as [E|E]; rewrite E in Hrun |- *; exact Hrun). clear Hrun. rename Hrun' into Hrun.
  apply res_bind_Ok in Hrun as ([] & Ha%guard_Ok & Hrun).
  assert (Hok : inv_State i = ContractOpen \/ inv_State i = ContractAccepted /\ NewState su <> ContractAccepted).
  { destruct Hst as [?|Hacc]; [by left|right]. split; [done|]. intros Hn. by rewrite Hacc, Hn in Ha. } clear Ha.
  destruct (bool_decide_reflect (NewState su = ContractCanceled)) as [Hc|Hc]; [injection Hrun as <- <-; rewrite Hc in *; repeat split; auto|].
  apply res_bind_Ok in Hrun as ([] & Hempty%guard_Ok%bool_decide_eq_false & Hrun).
  destruct (su_Preimage su) as [p|] eqn:Hp; [destruct hash as [h|]; [|done]|].
  - apply res_bind_Ok in Hrun as ([] & Hh%guard_Ok & [= <- <-]).
    apply negb_false_iff, bool_decide_eq_true in Hh.
    repeat split; auto. right. repeat split; auto. right. exists p. by rewrite Hh.
  - apply res_bind_Ok in Hrun as ([] & Hm%guard_Ok & [= <- <-]).
    repeat split; auto. right. repeat split; auto. left. repeat split; auto. intros Hns. rewrite Hns, bool_decide_true in Hm by done.
    by destruct (PaymentPreimage (Terms i)); [eexists|].
Qed.

Lemma change_inv u hash i d i' d' : plain_update u -> changeState now num false hash u i d = (Ok i', d') ->
  match ud_State u with
  | None => i' = i /\ d' = d
  | Some su => exists i1, updateInvoiceState i hash su = Ok (NewState su, i1) /\ same_index d d' /\
      Htlcs i' = Htlcs i1 /\ inv_State i' = NewState su /\ Terms i' = Terms i1
  end.
Proof.
  unfold plain_update, changeState. destruct (ud_State u) as [su|]; [|by intros _ [= <- <-]].
  intros [Hset _] Hrun. apply M_bind_Ok in Hrun as ([ns i1] & d1 & Hu & Hrun). injection Hu as Hu <-. cbn [negb orb andb] in Hrun.
  destruct (state_inv i hash su ns i1 Hset Hu) as (-> & _). exists i1. split; [exact Hu|].
  destruct (bool_decide (NewState su = ContractSettled)).
  - unfold setSettleMetaFields in Hrun. apply M_bind_Ok in Hrun as (n & d2 & [= <- <-] & Hrun).
    apply M_bind_Ok in Hrun as ([] & d3 & [= <-] & Hrun). injection Hrun as <- <-. done.
  - injection Hrun as <- <-. done.
Qed.

Lemma align_spec st h : ih_AMP h = None -> may_align now st h ->
  ih_AMP (align now st h) = None /\ ih_Amt (align now st h) = ih_Amt h /\ ih_MppTotalAmt (align now st h) = ih_MppTotalAmt h /\
  ih_State (align now st h) =
    match st, ih_State h with
    | ContractSettled, HtlcStateAccepted => HtlcStateSettled
    | ContractCanceled, _ => HtlcStateCanceled
    | _, s => s
    end /\
  (st <> ContractSettled -> ih_State h <> HtlcStateSettled) /\ (ih_State h = HtlcStateSettled -> align now st h = h).
Proof.
  intros Hamp (b & h' & Hu). unfold align. rewrite Hu. unfold updateHtlc, trySettle, IsInHTLCSet in Hu. rewrite Hamp in Hu.
  destruct st, (ih_State h) eqn:Hst; cbn in Hu; (discriminate Hu || injection Hu as <- <-); cbn; rewrite ?Hst; repeat split; done.
Qed.

(** What is still to hold before the HTLCs are aligned with the state. *)
Definition pre_ok (hash : bytes) (i : Invoice) : Prop :=
  match inv_State i with
  | ContractOpen => exists T, 0 < T < max_amount /\ live (Htlcs i) < T /\
      forall k h, Htlcs i !! k = Some h -> ih_State h = HtlcStateAccepted -> ih_MppTotalAmt h = T /\ ct_Value (Terms i) <= T
  | ContractAccepted => ct_Value (Terms i) <= live (Htlcs i)
  | ContractSettled => ct_Value (Terms i) <= live (Htlcs i) /\
      exists p, PaymentPreimage (Terms i) = Some p /\ Sum256 p = hash
  | ContractCanceled => True
  end.

Lemma live_align st m : no_amp m -> (forall k h, m !! k = Some h -> may_align now st h) -> st <> ContractCanceled ->
  live (align now st <$> m) = live m.
Proof.
  intros Hna Hmay Hst. apply live_ext. intros k. rewrite lookup_fmap. destruct (m !! k) as [h|] eqn:Hk; [|done]. cbn.
  destruct (align_spec st h (Hna k h Hk) (Hmay k h Hk)) as (_ & Ha & _ & Hs & _). f_equal. unfold worth. rewrite Ha, Hs.
  by destruct st, (ih_State h).
Qed.

Lemma settled_up_ok hash i : invoiceIsAMP i = false -> no_amp (Htlcs i) ->
  (forall k h, Htlcs i !! k = Some h -> 0 <= ih_Amt h < max_amount) ->
  (forall k h, Htlcs i !! k = Some h -> may_align now (inv_State i) h) -> pre_ok hash i -> invoice_ok hash (settled_up i).
Proof.
  intros Hp Hna Ham Hmay Hpre.
  assert (Hal : forall k h', (align now (inv_State i) <$> Htlcs i) !! k = Some h' -> exists h, Htlcs i !! k = Some h /\ h' = align now (inv_State i) h /\
    ih_AMP h' = None /\ ih_Amt h' = ih_Amt h /\ ih_MppTotalAmt h' = ih_MppTotalAmt h /\
    ih_State h' = match inv_State i, ih_State h with
                  | ContractSettled, HtlcStateAccepted => HtlcStateSettled | ContractCanceled, _ => HtlcStateCanceled | _, s => s end /\
    (inv_State i <> ContractSettled -> ih_State h <> HtlcStateSettled)).
  { intros k h' Hk. rewrite lookup_fmap in Hk. destruct (Htlcs i !! k) as [h|] eqn:Hh; [|done]. injection Hk as <-.
    destruct (align_spec (inv_State i) h (Hna k h Hh) (Hmay k h Hh)) as (?&?&?&?&?&_). by exists h. }
  split; [done| | |].
  - intros k h' Hk. by destruct (Hal k h' Hk) as (h & ? & ? & ? & _).
  - intros k h' Hk. destruct (Hal k h' Hk) as (h & Hh & _ & _ & -> & _). by apply (Ham k).
  - unfold state_ok, pre_ok in *. change (inv_State (settled_up i)) with (inv_State i).
    assert (Hlive : inv_State i <> ContractCanceled -> live (Htlcs (settled_up i)) = live (Htlcs i)) by (intros Hs; by apply live_align).
    destruct (inv_State i) eqn:Hst.
    + split; [cbn; by rewrite Hst|]. destruct Hpre as (T & HT & Hl & Hm). exists T. split; [done|]. split; [by rewrite Hlive|].
      intros k h' Hk. cbn in Hk. rewrite Hst in Hk. destruct (Hal k h' Hk) as (h & Hh & _ & _ & _ & -> & -> & Hns).
      destruct (ih_State h) eqn:Hs; [split; [done|]; intros _; by apply (Hm k)|done|by destruct Hns].
    + destruct Hpre as [Hv Hpi]. rewrite Hlive by done. split; [|split; [done|split; [done|]]].
      * cbn. rewrite Hst, bool_decide_false by done. rewrite <- Hlive by done. cbn. by rewrite Hst.
      * intros k h' Hk. cbn in Hk. rewrite Hst in Hk. destruct (Hal k h' Hk) as (h & _ & _ & _ & _ & _ & -> & _). by destruct (ih_State h).
    + split.
      * cbn. rewrite Hst, bool_decide_false by done. rewrite live_zero; [done|].
        intros k h' Hk. by destruct (Hal k h' Hk) as (h & _ & _ & _ & _ & _ & -> & _).
      * intros k h' Hk. cbn in Hk. rewrite Hst in Hk. by destruct (Hal k h' Hk) as (h & _ & _ & _ & _ & _ & -> & _).
    + rewrite Hlive by done. split; [|split; [done|]].
      * cbn. rewrite Hst, bool_decide_false by done. rewrite <- Hlive by done. cbn. by rewrite Hst.
      * intros k h' Hk. cbn in Hk. rewrite Hst in Hk. destruct (Hal k h' Hk) as (h & _ & _ & _ & _ & _ & -> & Hns). by apply Hns.
Qed.

(** What an update of the terms and the bookkeeping fields leaves alone. *)
Definition same_core (i i' : Invoice) : Prop :=
  inv_State i' = inv_State i /\ Htlcs i' = Htlcs i /\ AmtPaid i' = AmtPaid i /\
  PaymentPreimage (Terms i') = PaymentPreimage (Terms i) /\ ct_Value (Terms i') = ct_Value (Terms i) /\
  ct_Features (Terms i') = ct_Features (Terms i).

Lemma same_core_ok hash i i' : same_core i i' -> invoice_ok hash i -> invoice_ok hash i'.
Proof.
  intros (Hs & Hh & Ha & Hp & Hv & Hf) [Hpl Hna Ham Hst]. split.
  - unfold invoiceIsAMP in *. by rewrite Hf.
  - by rewrite Hh.
  - by rewrite Hh.
  - unfold state_ok in *. by rewrite Hs, Hh, Ha, Hp, Hv.
Qed.

Lemma payer_core u i : same_core i (with_payer u i).
Proof. unfold with_payer. by destruct (ud_PayerAddress u). Qed.

Lemma stored_core i st : invoiceIsAMP i = false -> storedInvoice i = Ok st -> same_core i st.
Proof.
  intros Hp Hs. unfold storedInvoice in Hs. apply res_bind_Ok in Hs as ([] & _ & Hs). injection Hs as <-.
  change (invoiceIsAMP (i <| Terms ::= fun t => t <| ct_AssetId := 0 |> |>)) with (invoiceIsAMP i). by rewrite Hp.
Qed.

Lemma same_core_trans i j k : same_core i j -> same_core j k -> same_core i k.
Proof. intros (?&?&?&?&?&?) (?&?&?&?&?&?). repeat split; congruence. Qed.

(** A settled invoice stays settled, with its preimage and its settled HTLCs. *)
Definition keeps (i i' : Invoice) : Prop :=
  inv_State i = ContractSettled ->
  inv_State i' = ContractSettled /\ PaymentPreimage (Terms i') = PaymentPreimage (Terms i) /\
  forall k h, Htlcs i !! k = Some h -> ih_State h = HtlcStateSettled -> Htlcs i' !! k = Some h.

(** An amount that fits the set being gathered. *)
Definition fits (d : HtlcAcceptDesc) (i : Invoice) : Prop :=
  exists T, 0 < T < max_amount /\ had_MppTotalAmt d = T /\ ct_Value (Terms i) <= T /\ live (Htlcs i) + had_Amt d < T /\
    forall k h, Htlcs i !! k = Some h -> ih_State h = HtlcStateAccepted -> ih_MppTotalAmt h = T.

(** The updates the callbacks of the registry ask for. *)
Inductive allowed (i : Invoice) (u : InvoiceUpdateDesc) : Prop :=
| allow_add key d :
    AddHtlcs u = {[key := d]} -> had_AMP d = None -> 0 <= had_Amt d < max_amount -> CancelHtlcs u = ∅ ->
    ud_State u = None -> ud_SetID u = None ->
    (inv_State i = ContractSettled \/ inv_State i = ContractAccepted \/ inv_State i = ContractOpen /\ fits d i) ->
    allowed i u
| allow_complete key d su :
    AddHtlcs u = {[key := d]} -> had_AMP d = None -> 0 <= had_Amt d < max_amount -> CancelHtlcs u = ∅ ->
    ud_State u = Some su -> su_SetID su = None -> HTLCPreimages su = ∅ ->
    NewState su <> ContractCanceled -> inv_State i = ContractOpen ->
    ct_Value (Terms i) <= live (Htlcs i) + had_Amt d -> su_Preimage su = None \/ su_Preimage su = PaymentPreimage (Terms i) ->
    (NewState su = ContractSettled -> is_Some (su_Preimage su)) ->
    allowed i u
| allow_state su :
    AddHtlcs u = ∅ -> CancelHtlcs u = ∅ -> ud_State u = Some su -> su_SetID su = None -> HTLCPreimages su = ∅ ->
    NewState su = ContractCanceled \/ NewState su = ContractSettled /\ is_Some (su_Preimage su) /\ inv_State i = ContractAccepted ->
    allowed i u
| allow_cancel key :
    AddHtlcs u = ∅ -> CancelHtlcs u = {[key]} -> ud_State u = None -> ud_SetID u = None -> inv_State i = ContractOpen ->
    allowed i u.

Lemma allowed_plain i u : allowed i u -> plain_update u.
Proof. unfold plain_update. intros Ha. destruct Ha; repeat match goal with H : ud_State u = _ |- _ => rewrite H; clear H end; auto. Qed.

Lemma new_htlc_ok d records : had_AMP d = None -> 0 <= had_Amt d < max_amount ->
  ih_AMP (new_htlc now d records) = None /\ 0 <= ih_Amt (new_htlc now d records) < max_amount /\ worth (new_htlc now d records) = had_Amt d.
Proof. done. Qed.

(** The preimage the update brings, or the one there is. *)
Definition newPreimage_of (u : InvoiceUpdateDesc) (i : Invoice) : option bytes :=
  match su ← ud_State u; su_Preimage su with Some p => Some p | None => PaymentPreimage (Terms i) end.

(** Everything about the edited invoice, before it is aligned. *)
Record edited (hash : bytes) (i : Invoice) (u : InvoiceUpdateDesc) (i2 : Invoice) : Prop := {
  ed_plain : invoiceIsAMP i2 = false;
  ed_noamp : no_amp (Htlcs i2);
  ed_amts : forall k h, Htlcs i2 !! k = Some h -> 0 <= ih_Amt h < max_amount;
  ed_pre : pre_ok hash i2;
  ed_keeps : inv_State i = ContractSettled -> inv_State i2 = ContractSettled /\ PaymentPreimage (Terms i2) = PaymentPreimage (Terms i) /\
    forall k h, Htlcs i !! k = Some h -> Htlcs i2 !! k = Some h;
  ed_terms : ct_Value (Terms i2) = ct_Value (Terms i);
  ed_state : inv_State i2 = newState_of u i;
  ed_preimage : inv_State i2 = ContractSettled -> PaymentPreimage (Terms i2) = newPreimage_of u i;
  ed_added : forall k d, AddHtlcs u !! k = Some d -> exists records, Htlcs i2 !! k = Some (new_htlc now d records);
  ed_room : forall k d, AddHtlcs u !! k = Some d -> Htlcs i !! k = None
}.

Lemma add_edit u hash i key d records ib : invoice_ok hash i -> had_AMP d = None -> 0 <= had_Amt d < max_amount ->
  AddHtlcs u = {[key := d]} -> Htlcs i !! key = None -> ib = i <| Htlcs ::= <[key := new_htlc now d records]> |> ->
  live (Htlcs ib) = had_Amt d + live (Htlcs i) /\ no_amp (Htlcs ib) /\
  (forall k h, Htlcs ib !! k = Some h -> 0 <= ih_Amt h < max_amount) /\
  (forall k h, Htlcs i !! k = Some h -> Htlcs ib !! k = Some h) /\
  (forall k d, AddHtlcs u !! k = Some d -> Htlcs i !! k = None /\ exists records, Htlcs ib !! k = Some (new_htlc now d records)).
Proof.
  intros [Hpl Hna Ham _] Hd Hamt Hu Hk ->. cbn. split; [by rewrite live_insert|]. split; [|split; [|split]].
  - intros k h [[<- <-]|[? Hk']]%lookup_insert_Some; [done|by apply (Hna k)].
  - intros k h [[<- <-]|[? Hk']]%lookup_insert_Some; [done|by apply (Ham k)].
  - intros k h Hk'. rewrite lookup_insert_ne; [done|]. by intros ->; rewrite Hk in Hk'.
  - intros k d'. rewrite Hu, lookup_singleton_Some. intros [<- <-].
    split; [done|]. exists records. by rewrite lookup_insert_eq.
Qed.

Lemma state_amounts hash i : invoice_ok hash i -> inv_State i = ContractSettled \/ inv_State i = ContractAccepted ->
  ct_Value (Terms i) <= live (Htlcs i).
Proof. intros [_ _ _ Hst] Hs. unfold state_ok in Hst. destruct Hs as [Hs|Hs]; rewrite Hs in Hst; by destruct Hst as (_ & ? & _). Qed.

Lemma add_edited hash i u key d ib : invoice_ok hash i -> AddHtlcs u = {[key := d]} -> ud_State u = None -> had_AMP d = None -> 0 <= had_Amt d < max_amount ->
  inv_State i = ContractSettled \/ inv_State i = ContractAccepted \/ inv_State i = ContractOpen /\ fits d i ->
  Htlcs i !! key = None -> (exists records, ib = i <| Htlcs ::= <[key := new_htlc now d records]> |>) -> edited hash i u ib.
Proof.
  intros Hok Hu Hsu Hd Hamt Hs Hk (records & Hib).
  destruct (add_edit u hash i key d records ib Hok Hd Hamt Hu Hk Hib) as (Hl & Hna & Ham & Hkeep & Hadd).
  assert (Hcore : inv_State ib = inv_State i /\ Terms ib = Terms i) by by subst ib. destruct Hcore as [Hs2 Ht2].
  split; [unfold invoiceIsAMP; rewrite Ht2; apply Hok|exact Hna|exact Ham| |..].
  - unfold pre_ok. rewrite Hs2, Ht2. pose proof (io_state _ _ Hok) as Hst. unfold state_ok in Hst.
    destruct Hs as [Hs|[Hs|[Hs (T & HT & Hmpp & Hv & Hlt & Hall)]]].
    + rewrite Hs in *. destruct Hst as (_ & Hv & Hp & _). split; [lia|exact Hp].
    + rewrite Hs in *. destruct Hst as (_ & Hv & _). lia.
    + rewrite Hs in *. exists T. split; [done|]. split; [lia|]. intros k h Hh Ha.
      rewrite Hib in Hh. cbn in Hh. apply lookup_insert_Some in Hh as [[<- <-]|[_ Hh]]; [done|]. split; [by apply (Hall k)|done].
  - intros Hset. rewrite Hs2, Ht2. split; [done|]. split; [done|exact Hkeep].
  - by rewrite Ht2.
  - unfold newState_of. by rewrite Hsu.
  - intros _. unfold newPreimage_of. by rewrite Hsu, Ht2.
  - intros k d' Hk'. by apply Hadd.
  - intros k d' Hk'. by apply (Hadd k d').
Qed.

Lemma complete_edited hash i u key d su ib i1 i2 : invoice_ok hash i -> AddHtlcs u = {[key := d]} -> ud_State u = Some su -> had_AMP d = None ->
  0 <= had_Amt d < max_amount -> su_SetID su = None -> NewState su <> ContractCanceled -> inv_State i = ContractOpen ->
  ct_Value (Terms i) <= live (Htlcs i) + had_Amt d -> (NewState su = ContractSettled -> is_Some (su_Preimage su)) ->
  Htlcs i !! key = None -> (exists records, ib = i <| Htlcs ::= <[key := new_htlc now d records]> |>) ->
  updateInvoiceState ib (Some hash) su = Ok (NewState su, i1) ->
  Htlcs i2 = Htlcs i1 -> inv_State i2 = NewState su -> Terms i2 = Terms i1 -> edited hash i u i2.
Proof.
  intros Hok Hu Hsu Hd Hamt Hset Hnc Hopen Hv Hpre Hk (records & Hib) Hrun Hh2 Hs2 Ht2.
  destruct (add_edit u hash i key d records ib Hok Hd Hamt Hu Hk Hib) as (Hl & Hna & Ham & Hkeep & Hadd).
  destruct (state_inv _ _ _ _ _ Hset Hrun) as (_ & Hno & _ & [[? _]|(_ & _ & Hcase)]); [done|].
  assert (H1 : Htlcs i1 = Htlcs ib /\ ct_Features (Terms i1) = ct_Features (Terms i) /\ ct_Value (Terms i1) = ct_Value (Terms i)).
  { destruct Hcase as [(_ & -> & _)|(p & _ & _ & ->)]; subst ib; done. }
  destruct H1 as (Hh1 & Hf1 & Hv1). rewrite Hh1 in Hh2. split.
  - unfold invoiceIsAMP. rewrite Ht2, Hf1. apply Hok.
  - by rewrite Hh2.
  - by rewrite Hh2.
  - unfold pre_ok. rewrite Hs2, Hh2, Ht2, Hv1. destruct (NewState su) eqn:Hns; [done| |done|lia]. split; [lia|].
    destruct Hcase as [(Hn & _)|(p & _ & [= ->] & ->)]; [by destruct (Hpre eq_refl) as [? Hp]; rewrite Hp in Hn|]. by exists p.
  - intros Hst. congruence.
  - by rewrite Ht2.
  - unfold newState_of. by rewrite Hsu.
  - intros _. unfold newPreimage_of. rewrite Hsu, Ht2. cbn. destruct Hcase as [(Hn & Heq & _)|(p & Hp & _ & Heq)]; subst i1.
    + rewrite Hn. by subst ib.
    + by rewrite Hp.
  - intros k d' Hk'. rewrite Hh2. by apply Hadd.
  - intros k d' Hk'. by apply (Hadd k d').
Qed.

Lemma allowed_edit hash i u d s d1 ib upd i2 d2 : invoice_ok hash i -> allowed i u ->
  addHtlcs now num false (map_to_list (AddHtlcs u)) (i, ∅) d = (Ok s, d1) ->
  cancelHtlcs now false u (newState_of u i) (map_to_list (Htlcs (fst s))) s = Ok (ib, upd) ->
  changeState now num false (Some hash) u ib d1 = (Ok i2, d2) ->
  edited hash i u i2 /\ same_index d d2.
Proof.
  intros Hok Hall Hadd Hcan Hchg. pose proof (change_inv _ _ _ _ _ _ (allowed_plain _ _ Hall) Hchg) as Hinv.
  destruct Hall as [key a Hu Hd Hamt Hc Hs Hset Hst|key a su Hu Hd Hamt Hc Hs Hset Hpi Hnc Hopen Hv Hpp Hpre|su Hu Hc Hs Hset Hpi Hns|key Hu Hc Hs Hset Hopen];
    rewrite Hs in Hinv; rewrite Hu in Hadd.
  - destruct Hinv as [-> ->]. destruct (add_one now num key a i d s d1 Hd Hadd) as (-> & Hk & records & Hrec & ->).
    rewrite cancel_none in Hcan by done. injection Hcan as <- <-. split; [|reflexivity].
    apply (add_edited hash i u key a); eauto.
  - destruct (add_one now num key a i d s d1 Hd Hadd) as (-> & Hk & records & Hrec & ->).
    rewrite cancel_none in Hcan by done. injection Hcan as <- <-. destruct Hinv as (i1 & Hrun & Hidx & Hh2 & Hs2 & Ht2).
    split; [|exact Hidx]. eapply (complete_edited hash i u key a su); eauto.
  - rewrite map_to_list_empty in Hadd. injection Hadd as <- <-. rewrite cancel_none in Hcan by done. injection Hcan as <- <-.
    destruct Hinv as (i1 & Hrun & Hidx & Hh2 & Hs2 & Ht2). split; [|exact Hidx].
    destruct (state_inv _ _ _ _ _ Hset Hrun) as (_ & Hno & Hfrom & Hcase).
    assert (H1 : Htlcs i1 = Htlcs i /\ ct_Features (Terms i1) = ct_Features (Terms i) /\ ct_Value (Terms i1) = ct_Value (Terms i)).
    { destruct Hcase as [[_ ->]|(_ & _ & [(_ & -> & _)|(p & _ & _ & ->)])]; done. }
    destruct H1 as (Hh1 & Hf1 & Hv1). rewrite Hh1 in Hh2. split.
    + unfold invoiceIsAMP. rewrite Ht2, Hf1. apply Hok.
    + rewrite Hh2. apply Hok.
    + rewrite Hh2. apply Hok.
    + unfold pre_ok. rewrite Hs2, Hh2, Ht2, Hv1. destruct Hns as [->|(Hns & [p0 Hp0] & Hacc)]; [done|]. rewrite Hns.
      split; [apply (state_amounts hash); auto|]. destruct Hcase as [[? _]|(_ & _ & [(Hn & _)|(p & _ & [= ->] & ->)])]; [congruence..|by exists p].
    + intros Hst. destruct Hfrom as [?|[? _]]; congruence.
    + by rewrite Ht2.
    + unfold newState_of. by rewrite Hs.
    + intros Hst. unfold newPreimage_of. rewrite Hs, Ht2. cbn.
      destruct Hcase as [[? _]|(_ & _ & [(Hn & Heq & _)|(p & Hp & _ & Heq)])]; [congruence|by rewrite Hn, Heq|by rewrite Hp, Heq].
    + intros k a Hk. by rewrite Hu, lookup_empty in Hk.
    + intros k a Hk. by rewrite Hu, lookup_empty in Hk.
  - rewrite map_to_list_empty in Hadd. injection Hadd as <- <-. destruct Hinv as [-> ->]. split; [|reflexivity].
    destruct (cancel_one now u _ _ i ∅ (ib, upd) key Hc (NoDup_fst_map_to_list _) Hcan) as [[_ Heq]|(h & Hh & _ & Hacc & Heq)];
      injection Heq as -> ->.
    + split; try apply Hok; [|auto|done|unfold newState_of; by rewrite Hs|unfold newPreimage_of; by rewrite Hs|by intros k a; rewrite Hu, lookup_empty..].
      pose proof (io_state _ _ Hok) as Hst. unfold state_ok, pre_ok in *. rewrite Hopen in *.
      destruct Hst as (_ & T & HT & Hl & Hm). exists T. split; [done|]. split; [done|]. intros k h Hk. by apply (Hm k).
    + apply elem_of_map_to_list in Hh. cbn in Hh. split; [apply Hok| | | | |done|unfold newState_of; by rewrite Hs|unfold newPreimage_of; by rewrite Hs|by intros k a; rewrite Hu, lookup_empty..].
      * intros k h' Hk; cbn in Hk; apply lookup_insert_Some in Hk as [[<- <-]|[_ Hk]]; [by apply (io_noamp _ _ Hok key h)|by apply (io_noamp _ _ Hok k)].
      * intros k h' Hk; cbn in Hk; apply lookup_insert_Some in Hk as [[<- <-]|[_ Hk]]; [by apply (io_amts _ _ Hok key h)|by apply (io_amts _ _ Hok k)].
      * pose proof (io_state _ _ Hok) as Hst. unfold state_ok, pre_ok in *. cbn [inv_State] in *. 
        change (inv_State (i <| Htlcs ::= <[key := canceled now h]> |>)) with (inv_State i). rewrite Hopen in *.
        destruct Hst as (_ & T & HT & Hl & Hm). exists T. split; [done|]. cbn. split.
        -- rewrite (live_update _ _ _ _ Hh). pose proof (io_amts _ _ Hok key h Hh).
           change (worth (canceled now h)) with 0. unfold worth. case_bool_decide; lia.
        -- intros k h' Hk; cbn in Hk; apply lookup_insert_Some in Hk as [[<- <-]|[_ Hk]]; [done|]. by apply (Hm k).
      * intros Hst. congruence.
Qed.
Lemma edited_ok hash i u i2 : edited hash i u i2 ->
  (forall k h, Htlcs i2 !! k = Some h -> may_align now (inv_State i2) h) ->
  invoice_ok hash (settled_up i2) /\ keeps i (settled_up i2) /\ inv_State (settled_up i2) = newState_of u i /\
  (inv_State (settled_up i2) = ContractSettled -> PaymentPreimage (Terms (settled_up i2)) = newPreimage_of u i) /\
  (forall k a, AddHtlcs u !! k = Some a -> Htlcs i !! k = None /\ exists h, Htlcs (settled_up i2) !! k = Some h /\ ih_Amt h = had_Amt a /\
    (inv_State (settled_up i2) = ContractSettled -> ih_State h = HtlcStateSettled)).
Proof.
  intros Hed Hmay. split; [|split; [|split; [apply Hed|split; [apply Hed|]]]].
  - apply settled_up_ok; [apply Hed..|exact Hmay|apply Hed].
  - intros Hs. destruct (ed_keeps _ _ _ _ Hed Hs) as (Hs2 & Hp2 & Hk2). split; [exact Hs2|]. split; [exact Hp2|].
    intros k h Hk Hst. specialize (Hk2 k h Hk). cbn. rewrite lookup_fmap, Hk2. cbn. f_equal.
    by apply (align_spec (inv_State i2) h (ed_noamp _ _ _ _ Hed k h Hk2) (Hmay k h Hk2)).
  - intros k a Ha. split; [by apply (ed_room _ _ _ _ Hed k a)|].
    destruct (ed_added _ _ _ _ Hed k a Ha) as [records Hk]. cbn. rewrite lookup_fmap, Hk. eexists. split; [done|].
    assert (Hna := ed_noamp _ _ _ _ Hed k _ Hk). destruct (align_spec (inv_State i2) _ Hna (Hmay k _ Hk)) as (_ & -> & _ & Hst & _).
    split; [done|]. cbn. intros Hs. by rewrite Hst, Hs.
Qed.

(** An allowed update keeps the invariant, writes the invoice back under its
    number, and changes none of the indexes. *)
Lemma apply_ok hash i u d i' d' : invoice_ok hash i -> allowed i u ->
  applyUpdate now num false (Some hash) u i d = (Ok i', d') ->
  invoice_ok hash i' /\ keeps i i' /\ inv_State i' = newState_of u i /\
  (inv_State i' = ContractSettled -> PaymentPreimage (Terms i') = newPreimage_of u i) /\
  (forall k a, AddHtlcs u !! k = Some a -> Htlcs i !! k = None /\ exists h, Htlcs i' !! k = Some h /\ ih_Amt h = had_Amt a /\
    (inv_State i' = ContractSettled -> ih_State h = HtlcStateSettled)) /\
  exists st, same_core i' st /\ idb_hashes d' = idb_hashes d /\ idb_num d' = idb_num d /\ idb_invoices d' = <[num := st]> (idb_invoices d).
Proof.
  intros Hok Hall Hrun.
  apply apply_inv in Hrun as (s & d1 & ib & upd & i2 & d2 & st & Hadd & Hcan & _ & Hchg & Hmay & -> & Hst & ->); [|by eapply allowed_plain].
  destruct (allowed_edit _ _ _ _ _ _ _ _ _ _ Hok Hall Hadd Hcan Hchg) as [Hed (Hh & Hn & Hi)].
  destruct (edited_ok _ _ _ _ Hed Hmay) as (Hok2 & Hkeep & Hns & Hpp & Hadds). pose proof (payer_core u (settled_up i2)) as Hcore.
  assert (Hok' := same_core_ok _ _ _ Hcore Hok2). split; [done|]. pose proof Hcore as (Hs1 & Hh1 & _ & Hp1 & _). split; [|split; [congruence|split; [|split]]].
  - intros Hs. destruct (Hkeep Hs) as (? & ? & ?). unfold keeps. rewrite Hs1, Hh1, Hp1. done.
  - by rewrite Hs1, Hp1.
  - by rewrite Hh1, Hs1.
  - exists st. split; [apply stored_core; [apply Hok'|exact Hst]|]. cbn. by rewrite Hh, Hn, Hi.
Qed.
End Apply.

(** ** The callbacks ask for allowed updates *)
Lemma allowed_payer i u a : allowed i u -> allowed i (u <| ud_PayerAddress := a |>).
Proof.
  intros [key d|key d su|su|key]; [eapply allow_add|eapply allow_complete|eapply allow_state|eapply allow_cancel]; eauto.
Qed.

Lemma allowed_copy i u : allowed (copyInvoice i) u -> allowed i u.
Proof.
  intros [key d|key d su|su|key]; [eapply allow_add|eapply allow_complete|eapply allow_state|eapply allow_cancel]; eauto.
Qed.

Lemma copy_core i : same_core i (copyInvoice i).
Proof. done. Qed.

(** Amounts far from wrapping: all bitcoin is worth less than 2^61 millisatoshi. *)
Definition small (ctx : invoiceUpdateCtx) : Prop :=
  0 <= cx_amtPaid ctx < max_amount /\ forall mpp, cx_mpp ctx = Some mpp -> 0 <= totalMsat mpp < max_amount.

Lemma live_ok hash i : invoice_ok hash i -> 0 <= live (Htlcs i).
Proof. intros Hok. apply live_nonneg. intros k h Hk. by apply (io_amts _ _ Hok k). Qed.

Lemma updateLegacy_allowed hash ctx i u r : invoice_ok hash i -> small ctx -> updateLegacy ctx i = Ok (Some u, r) -> allowed i u.
Proof.
  intros Hok [Hamt _]. pose proof (live_ok _ _ Hok) as Hl. unfold updateLegacy, fails.
  destruct (bool_decide_reflect (inv_State i = ContractCanceled)); [done|].
  destruct (Z.ltb_spec (cx_amtPaid ctx) (ct_Value (Terms i))); [done|].
  destruct (_ && _); [done|]. destruct (existsb _ _); [done|]. destruct (tooSoon ctx i); [done|].
  destruct (inv_State i) eqn:Hs; [|unfold knownPreimage; destruct (PaymentPreimage (Terms i)); cbn; [|done]|done|].
  - destruct (HodlInvoice i).
    + intros [= <- <-]. eapply allow_complete; [reflexivity|..]; cbn; eauto; (lia || done).
    + unfold knownPreimage. destruct (PaymentPreimage (Terms i)) as [p|] eqn:Hp; cbn; [|done].
      intros [= <- <-]. eapply allow_complete; [reflexivity|..]; cbn; eauto; (lia || done).
  - intros [= <- <-]. eapply allow_add; [reflexivity|..]; cbn; eauto.
  - intros [= <- <-]. eapply allow_add; [reflexivity|..]; cbn; eauto.
Qed.

Lemma plain_not_required i : invoiceIsAMP i = false -> RequiresFeature (ct_Features (Terms i)) AMPRequired = false.
Proof.
  unfold invoiceIsAMP, HasFeature, RequiresFeature. intros [_ Ha]%orb_false_iff.
  change (isFeatureBitPair AMPOptional) with true in Ha. by change (flip AMPOptional) with AMPRequired in Ha.
Qed.

(** What an open invoice has received so far. *)
Lemma open_total hash i : invoice_ok hash i -> inv_State i = ContractOpen ->
  live (Htlcs i) < max_amount /\
  sum (fun kh => ih_Amt kh.2) (map_to_list (HTLCSet i None HtlcStateAccepted)) = live (Htlcs i).
Proof.
  intros [_ Hna _ Hst] Hs. unfold state_ok in Hst. rewrite Hs in Hst. destruct Hst as (_ & T & HT & Hl & Hm). split; [lia|].
  apply accepted_sum; [done|]. intros k h Hk. by apply (Hm k).
Qed.

Lemma set_total hash i T s : invoice_ok hash i -> inv_State i = ContractOpen ->
  setTotal T (map_to_list (HTLCSet i None HtlcStateAccepted)).*2 0 = Some s ->
  s = live (Htlcs i) /\ forall k h, Htlcs i !! k = Some h -> ih_State h = HtlcStateAccepted -> ih_MppTotalAmt h = T.
Proof.
  intros Hok Hs Hrun. destruct (open_total _ _ Hok Hs) as [Hlt Hsum]. pose proof (live_ok _ _ Hok) as Hge.
  apply setTotal_spec in Hrun as [Hall ->]; [|done]. split.
  - rewrite sum_fmap, Z.add_0_l, Hsum. apply uwrap_id. unfold is_uint, max_amount in *. lia.
  - intros k h Hk Hst. rewrite list.Forall_forall in Hall. apply Hall.
    apply (list_elem_of_fmap_2 snd _ (k, h)), elem_of_map_to_list, map_lookup_filter_Some. cbn.
    split; [done|]. split; [done|]. by apply in_set_none, (io_noamp _ _ Hok k).
Qed.

Lemma updateMpp_allowed hash ctx mpp i u r : invoice_ok hash i -> 0 <= cx_amtPaid ctx < max_amount -> 0 <= totalMsat mpp < max_amount ->
  updateMpp ctx mpp i = Ok (Some u, r) -> allowed i u.
Proof.
  intros Hok Hamt Htot. unfold updateMpp, fails. rewrite (plain_not_required i) by apply Hok. cbn [andb negb].
  destruct (bool_decide_reflect (cx_amp ctx = None)) as [Hamp|]; [|done]. cbn [negb].
  destruct (bool_decide_reflect (inv_State i = ContractOpen)) as [Hs|]; [|done]. cbn [negb].
  destruct (negb _); [done|]. destruct (Z.eqb_spec (totalMsat mpp) 0); [done|].
  destruct (Z.ltb_spec (totalMsat mpp) (ct_Value (Terms i))) as [|Hv]; [done|].
  unfold ctx_setID. rewrite Hamp. cbn [fmap option_fmap option_map].
  destruct (setTotal _ _ _) as [sm|] eqn:Hset; [|done]. apply (set_total hash) in Hset as [-> Hall]; [|done..].
  destruct (open_total _ _ Hok Hs) as [Hlt _]. pose proof (live_ok _ _ Hok) as Hge.
  rewrite uwrap_id by (unfold is_uint, max_amount in *; lia).
  destruct (Z.ltb_spec (totalMsat mpp) (live (Htlcs i) + cx_amtPaid ctx)); [done|].
  destruct (tooSoon ctx i); [done|]. destruct (Z.eqb_spec (live (Htlcs i) + cx_amtPaid ctx) (totalMsat mpp)) as [Heq|Hne]; cbn [negb].
  - destruct (HodlInvoice i); [intros [= <- <-]; eapply allow_complete; [reflexivity|..]; cbn; eauto; (lia || done)|].
    unfold knownPreimage. destruct (PaymentPreimage (Terms i)) as [p|] eqn:Hp; cbn; [|done].
    intros [= <- <-]. eapply allow_complete; [reflexivity|..]; cbn; eauto; (lia || done).
  - intros [= <- <-]. eapply allow_add; [reflexivity|..]; cbn; eauto. right; right. split; [done|].
    exists (totalMsat mpp). cbn. repeat split; auto; lia.
Qed.

(** The state of an HTLC that is known is not changed by its replay. *)
Lemma updateInvoice_allowed hash ctx i u r : invoice_ok hash i -> small ctx -> updateInvoice ctx i = Ok (Some u, r) -> allowed i u.
Proof.
  intros Hok Hsm. unfold updateInvoice, fails. destruct (Htlcs i !! cx_circuitKey ctx) as [h|].
  - destruct (ih_State h); [done|done|]. unfold knownPreimage. by destruct (PaymentPreimage (Terms i)).
  - destruct (cx_mpp ctx) as [mpp|] eqn:Hm; [|by apply (updateLegacy_allowed hash)].
    destruct Hsm as [Ha Ht]. apply (updateMpp_allowed hash); auto.
Qed.

Lemma exitCallback_inv ctx i u r : exitCallback ctx i = Ok (u, r) ->
  exists u0, updateInvoice ctx i = Ok (u0, r) /\ (u = u0 \/ u = (fun v => v <| ud_PayerAddress := cx_payerAddress ctx |>) <$> u0).
Proof.
  unfold exitCallback. intros ([u0 r0] & Hu & [= <- <-])%res_bind_Ok. exists u0. split; [done|]. destruct (cx_payerAddress ctx); auto.
Qed.

Lemma exitCallback_allowed hash ctx i u r : invoice_ok hash i -> small ctx -> exitCallback ctx i = Ok (Some u, r) -> allowed i u.
Proof.
  intros Hok Hsm (u0 & Hu & [<-|Heq])%exitCallback_inv; [by eapply updateInvoice_allowed|].
  destruct u0 as [u0|]; [|done]. injection Heq as ->. apply allowed_payer. by eapply updateInvoice_allowed.
Qed.

Lemma settleHodl_allowed p i u x : settleHodl p i = Ok (Some u, x) -> allowed i u.
Proof.
  unfold settleHodl. destruct (inv_State i) eqn:Hs; [done|done|done|]. intros [= <- _].
  eapply allow_state; cbn; eauto.
Qed.

Lemma cancelUpdate_allowed b i u x : cancelUpdate b i = Ok (Some u, x) -> allowed i u.
Proof.
  unfold cancelUpdate. destruct (negb _); [done|]. intros [= <- _]. eapply allow_state; cbn; eauto.
Qed.

Lemma cancelOne_allowed key i u x : AMPState i = ∅ -> cancelOne key i = Ok (Some u, x) -> allowed i u.
Proof.
  intros Hamp. unfold cancelOne. destruct (bool_decide_reflect (inv_State i = ContractOpen)) as [Hs|]; [|done]. cbn [negb].
  rewrite Hamp, map_to_list_empty. destruct (Htlcs i !! key) as [h|]; cbn; [|done].
  destruct (negb _); [done|]. intros [= <- _]. eapply allow_cancel; cbn; eauto.
Qed.
