(* ===== verification/InvoiceStore.v ===== *)
(** * The invoice store in every state the registry reaches

    The operations of the registry as steps, the invariant of the database they
    keep, and what it means for those who pay and are paid. *)

From S2P Require Import Prelude Sha256 Wire UpdateLog Features Payments Amp InvoiceDB Invoices InvoiceSafety.

(** ** What an update leaves alone, AMP or not *)
#[export] Instance same_index_pre : PreOrder same_index.
Proof. split; [by intros d|]. intros a b c (?&?&?) (?&?&?). repeat split; congruence. Qed.

(** Nothing an update of an AMP invoice does changes its features or makes it
    anything but canceled, and no preimage becomes known. *)
Definition amp_core (i i' : Invoice) : Prop :=
  ct_Features (Terms i') = ct_Features (Terms i) /\ PaymentPreimage (Terms i') = PaymentPreimage (Terms i) /\
  (inv_State i' = inv_State i \/ inv_State i' = ContractCanceled).

#[export] Instance amp_core_pre : PreOrder amp_core.
Proof.
  split; [by intros i; repeat split; left|]. intros i j k (?&?&Hs) (?&?&Ht). repeat split; [congruence..|].
  destruct Ht as [Ht|Ht]; rewrite Ht; auto.
Qed.

Section Amp.
Context (now num : Z) (isAMP : bool).

Lemma frames_addHtlcs adds s : frames same_index (addHtlcs now num isAMP adds s).
Proof.
  revert s. induction adds as [|[k a] adds IH]; intros s; cbn; unfold addHtlc; frames; [|apply IH..].
  intros d. by cbn.
Qed.

Lemma frames_settleMeta id i : frames same_index (setSettleMetaFields num now id i).
Proof. unfold setSettleMetaFields. frames. by apply frames_modify. Qed.

Lemma frames_settleSets ids i : frames same_index (settleSets now num ids i).
Proof. revert i. induction ids; intros i; cbn; frames; apply frames_settleMeta. Qed.

Lemma frames_changeState hash u i : frames same_index (changeState now num isAMP hash u i).
Proof. unfold changeState. frames; apply frames_settleMeta. Qed.

Lemma add_core adds i upd d s d' : addHtlcs now num isAMP adds (i, upd) d = (Ok s, d') -> amp_core i (fst s).
Proof.
  revert i upd d. induction adds as [|[k a] adds IH]; intros i upd d; cbn [addHtlcs].
  { by intros [= <- <-]. }
  intros ([i1 upd1] & d1 & Ha & Hrun)%M_bind_Ok. etrans; [|by eapply IH].
  unfold addHtlc in Ha. apply M_bind_Ok in Ha as ([] & d2 & [_ ->]%check_Ok & Ha).
  destruct (had_CustomRecords a) as [records|]; [|done]. apply M_bind_Ok in Ha as (setID & d3 & _ & Heq).
  destruct isAMP; injection Heq as <- _ _; repeat split; by left.
Qed.

Lemma cancel_core u st l s s' : cancelHtlcs now isAMP u st l s = Ok s' -> amp_core (fst s) (fst s').
Proof.
  revert s. induction l as [|[k h] l IH]; intros s; cbn; [by intros [= <-]|].
  destruct (negb _); [apply IH|]. intros ([] & _ & (h' & _ & (s1 & Hs1 & Hrun)%res_bind_Ok)%res_bind_Ok)%res_bind_Ok.
  etrans; [|by apply IH]. destruct s as [i upd]. destruct isAMP; [|injection Hs1 as <-; repeat split; by left].
  unfold cancelHtlcsAmp in Hs1. destruct (amp_set h'); [|done]. cbn in Hs1. destruct (AMPState i !! _); [|done].
  injection Hs1 as <-. repeat split; by left.
Qed.

Lemma align_core u id b l s acc r : alignHtlcs now isAMP u id b l s acc = Ok r -> amp_core (fst (fst s)) (fst (fst (fst r))).
Proof.
  revert s acc. induction l as [|[k h] l IH]; intros s acc; cbn; [by intros [= <-]|]. destruct s as [[i settled] upd].
  intros (h1 & _ & ([b' h2] & _ & (s1 & Hs1 & Hrun)%res_bind_Ok)%res_bind_Ok)%res_bind_Ok.
  etrans; [|by eapply IH]. destruct (b' && isAMP); [|injection Hs1 as <-; repeat split; by left].
  unfold settleHtlcsAmp in Hs1. destruct (amp_set h2); [|done]. cbn in Hs1. destruct (AMPState i !! _); [|done].
  injection Hs1 as <-. repeat split; by left.
Qed.

Lemma settleMeta_core id i d i' d' : setSettleMetaFields num now id i d = (Ok i', d') -> amp_core i i'.
Proof.
  unfold setSettleMetaFields. intros (n & d1 & _ & ([] & d2 & _ & Heq)%M_bind_Ok)%M_bind_Ok.
  injection Heq as <- _. destruct id; repeat split; by left.
Qed.

Lemma settleSets_core ids i d i' d' : settleSets now num ids i d = (Ok i', d') -> amp_core i i'.
Proof.
  revert i d. induction ids as [|id ids IH]; intros i d; cbn; [by intros [= <- _]|].
  intros (i1 & d1 & H1%settleMeta_core & H2)%M_bind_Ok. etrans; [exact H1|by eapply IH].
Qed.

Definition no_preimage (u : InvoiceUpdateDesc) : Prop := forall su, ud_State u = Some su -> su_Preimage su = None.

Lemma noPreimage_inv i hash su ns i' : su_Preimage su = None -> updateInvoiceState i hash su = Ok (ns, i') -> i' = i.
Proof.
  intros Hp. unfold updateInvoiceState. rewrite Hp. intros ([] & _ & Hrun)%res_bind_Ok.
  destruct (inv_State i); try done; apply res_bind_Ok in Hrun as ([] & _ & Hrun);
    (destruct (bool_decide (NewState su = ContractCanceled)); [by injection Hrun as _ <-|]);
    apply res_bind_Ok in Hrun as ([] & _ & Hrun); destruct (su_SetID su); [|destruct hash| |destruct hash];
    apply res_bind_Ok in Hrun as ([] & _ & Hrun); by injection Hrun as _ <-.
Qed.
End Amp.

Lemma change_core now num hash u i d i' d' : no_preimage u -> changeState now num true hash u i d = (Ok i', d') -> amp_core i i'.
Proof.
  intros Hu. unfold changeState. destruct (ud_State u) as [su|] eqn:Hs; [|by intros [= <- _]].
  intros ([ns i1] & d1 & H1 & Hrun)%M_bind_Ok. injection H1 as H1 <-. apply noPreimage_inv in H1 as ->; [|by apply Hu].
  cbn [negb orb andb] in Hrun. injection Hrun as <- _. destruct (bool_decide_reflect (ns = ContractCanceled)) as [->|].
  - repeat split. by right.
  - done.
Qed.

Lemma frames_run {S E A} (R : S -> S -> Prop) (m : M S E A) s a s' : frames R m -> m s = (Ok a, s') -> R s s'.
Proof. intros Hm Hrun. specialize (Hm s). by rewrite Hrun in Hm. Qed.

Lemma apply_amp now num hash u i d i' d' : no_preimage u -> applyUpdate now num true hash u i d = (Ok i', d') ->
  amp_core i i' /\ exists st, storedInvoice i' = Ok st /\
    idb_hashes d' = idb_hashes d /\ idb_num d' = idb_num d /\ idb_invoices d' = <[num := st]> (idb_invoices d).
Proof.
  intros Hu Hrun. unfold applyUpdate in Hrun.
  apply M_bind_Ok in Hrun as (s & d1 & Hadd & Hrun). apply M_bind_Ok in Hrun as ([i2 upd] & d1' & Hcan & Hrun).
  injection Hcan as Hcan <-. apply M_bind_Ok in Hrun as ([] & d1' & [_ ->]%check_Ok & Hrun).
  apply M_bind_Ok in Hrun as (i3 & d2 & Hchg & Hrun). apply M_bind_Ok in Hrun as ([[[i4 settled] upd4] amt] & d2' & Hal & Hrun).
  injection Hal as Hal <-. apply M_bind_Ok in Hrun as (i5 & d3 & Hset & Hrun). apply M_bind_Ok in Hrun as ([] & d4 & Hst & Hrun).
  injection Hrun as <- <-.
  pose proof (frames_run _ _ _ _ _ (frames_addHtlcs _ _ _ _ _) Hadd) as F1.
  pose proof (frames_run _ _ _ _ _ (frames_changeState _ _ _ _ _ _) Hchg) as F2.
  pose proof (frames_run _ _ _ _ _ (frames_settleSets _ _ _ _) Hset) as F3.
  apply add_core in Hadd. apply cancel_core in Hcan. apply change_core in Hchg; [|done]. apply align_core in Hal.
  apply settleSets_core in Hset. cbn [fst snd] in *. split.
  - assert (Hpay : amp_core i5 match ud_PayerAddress u with [] => i5 | a => i5 <| Terms ::= fun t => t <| PayerAddr := a |> |> end).
    { destruct (ud_PayerAddress u); repeat split; by left. }
    etrans; [exact Hadd|]. etrans; [exact Hcan|]. etrans; [exact Hchg|]. etrans; [exact Hal|].
    etrans; [|exact Hpay]. exact Hset.
  - assert (F : same_index d d3) by (etrans; [exact F1|etrans; [exact F2|exact F3]]). destruct F as (Fh & Fn & Fi).
    unfold storeInvoice in Hst. apply M_bind_Ok in Hst as (st & d5 & Hst & Hput). injection Hst as Hst <-.
    exists st. split; [exact Hst|]. apply M_bind_Ok in Hput as ([] & d6 & Hput & Hamp). injection Hput as <-. injection Hamp as <-.
    cbn. by rewrite Fh, Fn, Fi.
Qed.

(** ** The invariant of the database *)

(** An AMP invoice as stored: its HTLCs are kept in their sets, and the invoice
    itself is never accepted or settled. *)
Record amp_ok (i : Invoice) : Prop := {
  ao_amp : invoiceIsAMP i = true;
  ao_pre : PaymentPreimage (Terms i) = None;
  ao_state : inv_State i = ContractOpen \/ inv_State i = ContractCanceled
}.

Definition entry_ok (hash : bytes) (i : Invoice) : Prop := if invoiceIsAMP i then amp_ok i else invoice_ok hash i.

Record store_ok (d : invoiceDB) : Prop := {
  so_inj : forall h1 h2 n, idb_hashes d !! h1 = Some n -> idb_hashes d !! h2 = Some n -> h1 = h2;
  so_bound : forall h n, idb_hashes d !! h = Some n -> 0 <= n < idb_num d;
  so_has : forall h n, idb_hashes d !! h = Some n -> is_Some (idb_invoices d !! n);
  so_entry : forall n i, idb_invoices d !! n = Some i -> exists h, idb_hashes d !! h = Some n /\ entry_ok h i;
  so_num : 0 <= idb_num d
}.

(** A settled invoice is still there, settled with the same preimage, and its
    settled HTLCs are unchanged. *)
Definition keeps_settled (d d' : invoiceDB) : Prop := forall h n i,
  idb_hashes d !! h = Some n -> idb_invoices d !! n = Some i -> inv_State i = ContractSettled ->
  exists i', idb_hashes d' !! h = Some n /\ idb_invoices d' !! n = Some i' /\ keeps i i'.

#[export] Instance keeps_pre : PreOrder keeps.
Proof.
  split; [by intros i H|]. intros i j k Hij Hjk Hs. destruct (Hij Hs) as (Hj & Hp & Hh). destruct (Hjk Hj) as (Hk & Hp' & Hh').
  split; [done|]. split; [congruence|]. auto.
Qed.

#[export] Instance keeps_settled_pre : PreOrder keeps_settled.
Proof.
  split; [intros d h n i Hh Hi _; by exists i|]. intros a b c Hab Hbc h n i Hh Hi Hs.
  destruct (Hab h n i Hh Hi Hs) as (j & Hh' & Hj & Hij). destruct (Hbc h n j Hh' Hj) as (k & Hh2 & Hk & Hjk); [by apply Hij|].
  exists k. split; [done|]. split; [done|]. by etrans.
Qed.

Lemma same_core_keeps i i' : same_core i i' -> keeps i i'.
Proof. intros (Hs & Hh & _ & Hp & _) Hst. split; [congruence|]. split; [done|]. intros k h Hk _. by rewrite Hh. Qed.

Lemma store_hash d h n i : store_ok d -> idb_hashes d !! h = Some n -> idb_invoices d !! n = Some i -> entry_ok h i.
Proof.
  intros Hok Hh Hi. destruct (so_entry _ Hok n i Hi) as (h' & Hh' & He). by rewrite (so_inj _ Hok h h' n Hh Hh').
Qed.

(** The invoice under one number is replaced. *)
Lemma store_update d d' h n i st : store_ok d -> idb_hashes d !! h = Some n -> idb_invoices d !! n = Some i ->
  entry_ok h st -> keeps i st ->
  idb_hashes d' = idb_hashes d -> idb_num d' = idb_num d -> idb_invoices d' = <[n := st]> (idb_invoices d) ->
  store_ok d' /\ keeps_settled d d'.
Proof.
  intros Hok Hh Hi He Hk Eh En Ei. split; [split|]; rewrite ?Eh, ?En; try apply Hok.
  - intros h' n' Hh'. rewrite Ei. destruct (decide (n' = n)) as [->|]; [rewrite lookup_insert_eq; by eexists|].
    rewrite lookup_insert_ne by done. by apply (so_has _ Hok h').
  - intros n' i'. rewrite Ei. intros [[<- <-]|[Hne Hi']]%lookup_insert_Some; [by exists h|]. by apply Hok.
  - intros h' n' i' Hh' Hi' Hs. rewrite Eh, Ei. destruct (decide (n' = n)) as [->|].
    + rewrite lookup_insert_eq. exists st. split; [done|]. split; [done|]. by replace i' with i by congruence.
    + rewrite lookup_insert_ne by done. by exists i'.
Qed.

(** A callback of the registry: plain invoices get updates that are allowed, and
    only when looked up by their hash; AMP invoices get no preimage. *)
Record good {R} (ref : InvoiceRef) (f : Invoice -> res inverr (option InvoiceUpdateDesc * R)) : Prop := {
  gd_setid : ref_setID ref = None;
  gd_plain : forall hash i u x, invoice_ok hash i -> f (copyInvoice i) = Ok (Some u, x) -> allowed i u /\ (is_Some (ref_payHash ref) \/ ud_State u = None);
  gd_amp : forall i u x, amp_ok i -> f (copyInvoice i) = Ok (Some u, x) -> no_preimage u
}.

Lemma fetch_by_hash ref h d n : ref_setID ref = None -> ref_payHash ref = Some h -> fetchInvoiceNumByRef ref d = Ok n ->
  idb_hashes d !! h = Some n.
Proof.
  intros Hs Hh. unfold fetchInvoiceNumByRef. rewrite Hs, Hh. cbn [mbind option_bind].
  destruct (ref_payAddr ref) as [a|]; cbn [mbind option_bind]; [destruct (bool_decide (a = BlankPayAddr)); [|destruct (idb_addrs d !! a) as [na|]]|];
    destruct (idb_hashes d !! h) as [nh|]; try done; try (by intros [= ->]).
  - destruct (Z.eqb_spec na nh) as [->|]; [by intros [= ->]|done].
Qed.

Lemma fetch_plain n hint d i : fetchInvoice n hint d = Ok i -> exists i0, idb_invoices d !! n = Some i0 /\
  (invoiceIsAMP i0 = false -> i = i0) /\ (amp_ok i0 -> amp_ok i) /\ inv_State i = inv_State i0.
Proof.
  unfold fetchInvoice. destruct (idb_invoices d !! n) as [i0|] eqn:Hi; [|done]. intros Hf. exists i0. split; [done|].
  destruct (invoiceIsAMP i0) eqn:Ha; cbn [negb] in Hf; [|by injection Hf as <-]. split; [done|].
  destruct (negb _); [by injection Hf as <-|]. destruct (bool_decide _); injection Hf as <-; [done|].
  split; [|done]. intros [H1 H2 H3]. by split.
Qed.

Lemma stored_features i st : storedInvoice i = Ok st ->
  ct_Features (Terms st) = ct_Features (Terms i) /\ PaymentPreimage (Terms st) = PaymentPreimage (Terms i) /\ inv_State st = inv_State i.
Proof.
  unfold storedInvoice. intros ([] & _ & Heq)%res_bind_Ok. injection Heq as <-. by destruct (invoiceIsAMP _).
Qed.

Lemma amp_core_ok i i' : amp_core i i' -> amp_ok i -> amp_ok i'.
Proof.
  intros (Hf & Hp & Hs) [Ha Hp' Hs']. split; [by unfold invoiceIsAMP in *; rewrite Hf|congruence|].
  destruct Hs as [Hs|Hs]; rewrite Hs; auto.
Qed.

(** What [UpdateInvoice] did with the invoice [i0] stored under [n]. *)
Inductive updated {R} (f : Invoice -> res inverr (option InvoiceUpdateDesc * R)) (n : Z) (h : bytes) (ref : InvoiceRef)
    (i0 i' : Invoice) (x : R) (d d' : invoiceDB) : Prop :=
| upd_none : d' = d -> f (copyInvoice i') = Ok (None, x) -> (invoiceIsAMP i0 = false -> i' = i0) -> (amp_ok i0 -> amp_ok i') ->
    updated f n h ref i0 i' x d d'
| upd_plain u st : invoice_ok h i0 -> f (copyInvoice i0) = Ok (Some u, x) ->
    invoice_ok h i' -> keeps i0 i' -> inv_State i' = newState_of u i0 ->
    (inv_State i' = ContractSettled -> PaymentPreimage (Terms i') = newPreimage_of u i0) -> same_core i' st ->
    (forall k a, AddHtlcs u !! k = Some a -> Htlcs i0 !! k = None /\ exists hl, Htlcs i' !! k = Some hl /\ ih_Amt hl = had_Amt a /\
      (inv_State i' = ContractSettled -> ih_State hl = HtlcStateSettled)) ->
    idb_invoices d' = <[n := st]> (idb_invoices d) -> updated f n h ref i0 i' x d d'
| upd_amp u i st : amp_ok i0 -> amp_ok i -> f (copyInvoice i) = Ok (Some u, x) -> amp_ok i' -> storedInvoice i' = Ok st ->
    idb_invoices d' = <[n := st]> (idb_invoices d) -> updated f n h ref i0 i' x d d'.

(** The hash serves to check the preimage of a new state. *)
Lemma apply_hash now n oh h u i d : oh = Some h \/ ud_State u = None ->
  applyUpdate now n false oh u i d = applyUpdate now n false (Some h) u i d.
Proof. intros [->|Hs]; [done|]. unfold applyUpdate, changeState. by rewrite Hs. Qed.

Lemma UpdateInvoice_ok {R} now ref hint (f : Invoice -> res inverr (option InvoiceUpdateDesc * R)) d i' x d' :
  store_ok d -> good ref f -> UpdateInvoice now ref hint f d = (Ok (i', x), d') ->
  store_ok d' /\ keeps_settled d d' /\ idb_hashes d' = idb_hashes d /\ idb_num d' = idb_num d /\
  exists n h i0, fetchInvoiceNumByRef ref d = Ok n /\ idb_hashes d !! h = Some n /\ idb_invoices d !! n = Some i0 /\
    updated f n h ref i0 i' x d d'.
Proof.
  intros Hok Hg Hrun%transaction_Ok. apply M_bind_Ok in Hrun as (d1 & d2 & Hget & Hrun). injection Hget as <- <-.
  apply M_bind_Ok in Hrun as (n & d1 & Hn & Hrun). injection Hn as Hn <-.
  apply M_bind_Ok in Hrun as (i & d1 & Hi & Hrun). injection Hi as Hi <-.
  apply M_bind_Ok in Hrun as ([o y] & d1 & Hf & Hrun). injection Hf as Hf <-.
  destruct (fetch_plain _ _ _ _ Hi) as (i0 & Hi0 & Hplain & Hamp & _). destruct (so_entry _ Hok n i0 Hi0) as (h & Hh & He).
  unfold entry_ok in He. destruct o as [u|].
  - apply M_bind_Ok in Hrun as (i2 & d1 & Ha & Hrun). injection Hrun as -> -> <-. destruct (invoiceIsAMP i0) eqn:Hamp0.
    + specialize (Hamp He). rewrite (ao_amp _ Hamp) in Ha. apply apply_amp in Ha as (Hc & st & Hst & Eh & En & Ei);
        [|by apply (gd_amp _ _ Hg i u x)]. assert (Hi' := amp_core_ok _ _ Hc Hamp).
      destruct (stored_features _ _ Hst) as (Sf & Sp & Ss).
      destruct (store_update d d1 h n i0 st) as [Hok' Hk]; auto.
      * unfold entry_ok, invoiceIsAMP. rewrite Sf. fold (invoiceIsAMP i'). rewrite (ao_amp _ Hi').
        split; [unfold invoiceIsAMP; rewrite Sf; apply Hi'|rewrite Sp; apply Hi'|rewrite Ss; apply Hi'].
      * intros Hs. destruct (ao_state _ He); congruence.
      * do 4 (split; [done|]). exists n, h, i0. do 3 (split; [done|]). by apply (upd_amp _ _ _ _ _ _ _ _ _ u i st).
    + assert (i = i0) as -> by auto. rewrite Hamp0 in Ha.
      destruct (gd_plain _ _ Hg h i0 u x He Hf) as [Hall Hby].
      rewrite (apply_hash now n (ref_payHash ref) h) in Ha.
      2: { destruct Hby as [[h' Hh']|Hby]; [left|by right]. rewrite Hh'. f_equal.
           eapply (so_inj _ Hok); [eapply fetch_by_hash; [apply Hg|exact Hh'|exact Hn]|exact Hh]. }
      destruct (apply_ok _ _ _ _ _ _ _ _ He Hall Ha) as (Hi' & Hkeep & Hns & Hpp & Hadds & st & Hcore & Eh & En & Ei).
      assert (Hst := same_core_ok _ _ _ Hcore Hi').
      destruct (store_update d d1 h n i0 st) as [Hok' Hk]; auto.
      * unfold entry_ok. by rewrite (io_plain _ _ Hst).
      * etrans; [exact Hkeep|by apply same_core_keeps].
      * do 4 (split; [done|]). exists n, h, i0. do 3 (split; [done|]). by apply (upd_plain _ _ _ _ _ _ _ _ _ u st).
  - injection Hrun as -> -> <-. split; [done|]. split; [reflexivity|]. split; [done|]. split; [done|].
    exists n, h, i0. split; [done|]. split; [done|]. split; [done|]. by apply upd_none.
Qed.

Lemma UpdateInvoice_fails {R} now ref hint (f : Invoice -> res inverr (option InvoiceUpdateDesc * R)) d r d' :
  UpdateInvoice now ref hint f d = (r, d') -> (forall a, r <> Ok a) -> d' = d.
Proof.
  unfold UpdateInvoice, transaction. match goal with |- context [match ?m with _ => _ end] => destruct m as [[a| |] d1] end;
    intros [= <- <-] Hn; [by destruct (Hn a)|done..].
Qed.

(** ** The callbacks are good *)
Lemma good_exit ctx : small ctx -> good (invoiceRef ctx) (exitCallback ctx).
Proof.
  intros Hsm. split.
  - unfold invoiceRef. by destruct (cx_amp ctx), (cx_mpp ctx).
  - intros hash i u x Hi Hf. assert (Hi' := same_core_ok _ _ _ (copy_core i) Hi). split.
    { apply allowed_copy. by eapply exitCallback_allowed. }
    unfold invoiceRef. destruct (cx_amp ctx) as [a|] eqn:Ha, (cx_mpp ctx) as [mpp|] eqn:Hm; try (left; by eexists).
    exfalso. apply exitCallback_inv in Hf as (u0 & Hu & Hcase). assert (u0 = None) as ->; [|by destruct Hcase].
    unfold updateInvoice, fails in Hu. rewrite Hm in Hu. destruct (Htlcs (copyInvoice i) !! _) as [hl|].
    + destruct (ih_State hl); [by injection Hu as <-|by injection Hu as <-|].
      unfold knownPreimage in Hu. destruct (PaymentPreimage _); [by injection Hu as <-|done].
    + unfold updateMpp, fails in Hu. rewrite (plain_not_required (copyInvoice i)), Ha in Hu by apply Hi'.
      by injection Hu as <-.
  - intros i u x [_ Hp _] (u0 & Hu & Hcase)%exitCallback_inv su Hsu.
    assert (Hu0 : exists v, u0 = Some v /\ ud_State v = Some su).
    { destruct Hcase as [<-|Hcase]; [by exists u|]. destruct u0 as [v|]; [|done]. injection Hcase as ->. by exists v. }
    clear Hcase Hsu. destruct Hu0 as (v & -> & Hv). change (PaymentPreimage (Terms (copyInvoice i)) = None) in Hp.
    revert Hp Hu Hv. generalize (copyInvoice i) as j. intros j Hp Hu Hv. unfold updateInvoice, fails, knownPreimage in Hu.
    destruct (Htlcs j !! _) as [hl|]; [by rewrite Hp in Hu; destruct (ih_State hl)|]. destruct (cx_mpp ctx) as [mpp|].
    + unfold updateMpp, fails, knownPreimage in Hu. rewrite Hp in Hu.
      repeat match type of Hu with (if ?b then _ else _) = _ => destruct b; [first [done|idtac]|] end; try done.
      destruct (setTotal _ _ _); [|done].
      repeat match type of Hu with (if ?b then _ else _) = _ => destruct b end; try done;
        try (injection Hu as <- <-; cbn in Hv; (done || by injection Hv as <-)).
      destruct (cx_amp ctx) as [a|]; [|done]. apply res_bind_Ok in Hu as ([ps|] & _ & Hu);
        injection Hu as <- <-; cbn in Hv; by injection Hv as <-.
    + unfold updateLegacy, fails, knownPreimage in Hu. rewrite Hp in Hu.
      repeat match type of Hu with (if ?b then _ else _) = _ => destruct b; [done|] end.
      destruct (inv_State j), (HodlInvoice j); cbn in Hu; try done;
        injection Hu as <- <-; cbn in Hv; (done || by injection Hv as <-).
Qed.

Lemma good_settleHodl p h : good (InvoiceRefByHash h) (settleHodl p).
Proof.
  split; [done| |].
  - intros hash i u x Hi Hf. split; [|left; by eexists]. apply allowed_copy. by eapply settleHodl_allowed.
  - intros i u x [_ _ Hs]. unfold settleHodl. change (inv_State (copyInvoice i)) with (inv_State i). by destruct Hs as [Hs|Hs]; rewrite Hs.
Qed.

Lemma good_cancel b h : good (InvoiceRefByHash h) (cancelUpdate b).
Proof.
  split; [done| |].
  - intros hash i u x Hi Hf. split; [|left; by eexists]. apply allowed_copy. by eapply cancelUpdate_allowed.
  - intros i u x _. unfold cancelUpdate. destruct (negb _); [done|]. intros [= <- _] su [= <-]. done.
Qed.

Lemma cancelOne_state key i u x : cancelOne key i = Ok (Some u, x) -> ud_State u = None.
Proof.
  unfold cancelOne. destruct (negb _); [done|]. intros ([st id] & _ & Hf)%res_bind_Ok.
  destruct (negb _); [done|]. by injection Hf as <- _.
Qed.

Lemma good_cancelOne ref key : ref_setID ref = None -> good ref (cancelOne key).
Proof.
  intros Hs. split; [done| |].
  - intros hash i u x Hi Hf. split; [apply allowed_copy; by eapply cancelOne_allowed|]. right. by eapply cancelOne_state.
  - intros i u x _ Hf su Hsu. apply cancelOne_state in Hf. congruence.
Qed.

(** ** Adding and deleting *)

(** An invoice as it is created: open, nothing paid, and no preimage for AMP. *)
Definition new_invoice (i : Invoice) : Prop :=
  inv_State i = ContractOpen /\ AmtPaid i = 0 /\ (invoiceIsAMP i = true -> PaymentPreimage (Terms i) = None).

(** The number of an invoice has 32 bits. *)
Definition has_room (d : invoiceDB) : Prop := idb_num d < 2 ^ 32 - 1.

Definition kept (d d' : invoiceDB) : Prop := store_ok d' /\ keeps_settled d d'.

Lemma kept_refl d : store_ok d -> kept d d.
Proof. by split. Qed.

Lemma new_entry hash i idx st : new_invoice i -> Htlcs i = ∅ -> storedInvoice (i <| AddIndex := idx |>) = Ok st -> entry_ok hash st.
Proof.
  intros (Hs & Ha & Hp) Hh Hst. destruct (stored_features _ _ Hst) as (Sf & Sp & Ss). cbn in Sf, Sp, Ss. unfold entry_ok.
  replace (invoiceIsAMP st) with (invoiceIsAMP i) by (unfold invoiceIsAMP; by rewrite Sf).
  destruct (invoiceIsAMP i) eqn:Hamp.
  - split; [by unfold invoiceIsAMP in *; rewrite Sf|by rewrite Sp, Hp|left; congruence].
  - apply stored_core in Hst as (_ & Sh & Sa & _); [|exact Hamp]. cbn in Sh, Sa. rewrite Hh in Sh. split.
    + by unfold invoiceIsAMP in *; rewrite Sf.
    + intros k h. by rewrite Sh, lookup_empty.
    + intros k h. by rewrite Sh, lookup_empty.
    + unfold state_ok. rewrite Ss, Hs. split; [congruence|]. exists 1. split; [done|]. rewrite Sh. split; [done|].
      intros k h. by rewrite lookup_empty.
Qed.

Lemma AddInvoice_ok i hash d r d' : store_ok d -> new_invoice i -> has_room d -> DB_AddInvoice i hash d = (r, d') ->
  kept d d' /\ idb_num d' <= idb_num d + 1.
Proof.
  intros Hok Hnew Hroom Hrun. unfold DB_AddInvoice in Hrun.
  destruct (validateInvoice i hash) as [[]|e|] eqn:Hval; [|injection Hrun as <- <-; split; [by apply kept_refl|lia]..].
  assert (Hh : Htlcs i = ∅).
  { unfold validateInvoice in Hval. do 5 (apply res_bind_Ok in Hval as ([] & _ & Hval)).
    by apply guard_Ok, bool_decide_eq_false, dec_stable in Hval. }
  destruct r as [a|e|].
  2,3: unfold mbind, M_bind, lift, transaction in Hrun; cbn in Hrun;
       match type of Hrun with match ?m with _ => _ end = _ => destruct m as [[| |] ?] end;
       (discriminate Hrun || (injection Hrun as <- <-; split; [by apply kept_refl|lia]) || (injection Hrun as <-; split; [by apply kept_refl|lia])).
  apply M_bind_Ok in Hrun as ([] & d1 & Hl & Hrun). injection Hl as <-. apply transaction_Ok in Hrun.
  apply M_bind_Ok in Hrun as (d0 & d1 & Hget & Hrun). injection Hget as <- <-.
  apply M_bind_Ok in Hrun as ([] & d1 & [Hdup ->]%check_Ok & Hrun). apply M_bind_Ok in Hrun as ([] & d1 & [_ ->]%check_Ok & Hrun).
  unfold putInvoice in Hrun. apply M_bind_Ok in Hrun as ([] & d1 & H1 & Hrun). injection H1 as <-.
  apply M_bind_Ok in Hrun as (idx & d1 & H1 & Hrun). injection H1 as H1 <-. apply M_bind_Ok in Hrun as ([] & d1 & H2 & Hrun). injection H2 as <-.
  apply M_bind_Ok in Hrun as (st & d1 & Hst & Hrun). injection Hst as Hst <-. apply M_bind_Ok in Hrun as ([] & d1 & H2 & Hrun).
  injection H2 as <-. injection Hrun as _ <-. apply (new_entry hash) in Hst; [|done..].
  assert (Hfree : idb_hashes d !! hash = None) by (by apply bool_decide_eq_false in Hdup; apply eq_None_not_Some). clear Hdup H1.
  assert (Hn : u32 (idb_num d + 1) = idb_num d + 1).
  { apply uwrap_id. pose proof (so_num _ Hok). unfold has_room in Hroom. unfold is_uint. lia. }
  assert (Hlt : forall h n, idb_hashes d !! h = Some n -> n <> idb_num d) by (intros h n Hhn; apply (so_bound _ Hok) in Hhn; lia).
  split; [split; [split|]|cbn; lia]; cbn; rewrite ?Hn.
  - intros h1 h2 n [[<- <-]|[Hne1 H1]]%lookup_insert_Some [[<- Heq]|[Hne2 H2]]%lookup_insert_Some; [done|by apply Hlt in H2| |by eapply so_inj].
    subst n. by apply Hlt in H1.
  - intros h n [[<- <-]|[Hne H1]]%lookup_insert_Some; [pose proof (so_num _ Hok); lia|]. apply (so_bound _ Hok) in H1. lia.
  - intros h n [[<- <-]|[Hne H1]]%lookup_insert_Some; [rewrite lookup_insert_eq; by eexists|].
    rewrite lookup_insert_ne by (intros Heq; by apply (Hlt h n)). by apply (so_has _ Hok h).
  - intros n j [[<- <-]|[Hne Hj]]%lookup_insert_Some; [exists hash; by rewrite lookup_insert_eq|].
    destruct (so_entry _ Hok n j Hj) as (h & Hh' & He). exists h. split; [|done]. rewrite lookup_insert_ne; [done|]. congruence.
  - pose proof (so_num _ Hok). lia.
  - intros h n j Hhn Hj Hs. exists j. cbn. rewrite !lookup_insert_ne; [done| |]; [intros Heq; by apply (Hlt h n)|congruence].
Qed.

Definition unsettled (d : invoiceDB) (hash : bytes) : Prop := forall n i,
  idb_hashes d !! hash = Some n -> idb_invoices d !! n = Some i -> inv_State i <> ContractSettled.

(** Only entries disappear. *)
Definition shrinks (d d' : invoiceDB) : Prop :=
  (forall h n, idb_hashes d' !! h = Some n -> idb_hashes d !! h = Some n) /\
  (forall n i, idb_invoices d' !! n = Some i -> idb_invoices d !! n = Some i).

Lemma unsettled_shrinks d d' h : shrinks d d' -> unsettled d h -> unsettled d' h.
Proof. intros [Hh Hi] Hu n i H1 H2. apply (Hu n i); auto. Qed.

Lemma deleteOne_inv ref d d' : deleteOne ref d = (Ok tt, d') -> exists n, idb_hashes d !! dr_PayHash ref = Some n /\
  idb_hashes d' = delete (dr_PayHash ref) (idb_hashes d) /\ idb_invoices d' = delete n (idb_invoices d) /\ idb_num d' = idb_num d.
Proof.
  unfold deleteOne. intros (d0 & d1 & Hget & Hrun)%M_bind_Ok. injection Hget as <- <-.
  destruct (idb_hashes d !! dr_PayHash ref) as [n|] eqn:Hn; [|done]. exists n. split; [done|].
  apply M_bind_Ok in Hrun as ([] & d1 & H1 & Hrun). injection H1 as <-.
  apply M_bind_Ok in Hrun as ([] & d1 & [_ ->]%check_Ok & Hrun). apply M_bind_Ok in Hrun as ([] & d1 & H1 & Hrun). injection H1 as <-.
  apply M_bind_Ok in Hrun as ([] & d1 & H1 & Hrun). apply M_bind_Ok in Hrun as ([] & d2 & H2 & Hrun). injection Hrun as <-.
  assert (E1 : idb_hashes d1 = delete (dr_PayHash ref) (idb_hashes d) /\ idb_invoices d1 = idb_invoices d /\ idb_num d1 = idb_num d).
  { destruct (0 <? dr_SettleIndex ref); [|by injection H1 as <-].
    apply M_bind_Ok in H1 as ([] & d3 & [_ ->]%check_Ok & H1). by injection H1 as <-. }
  destruct E1 as (E1 & E2 & E3). unfold delAMPSettleIndex in H2. apply M_bind_Ok in H2 as (d3 & d4 & Hget & H2). injection Hget as <- <-.
  destruct (idb_invoices d1 !! n); [|done]. injection H2 as <-. cbn. by rewrite E1, E2, E3.
Qed.

Lemma deleteOne_ok ref d d' : store_ok d -> unsettled d (dr_PayHash ref) -> deleteOne ref d = (Ok tt, d') -> kept d d' /\ shrinks d d'.
Proof.
  intros Hok Hun (n & Hn & Eh & Ei & En)%deleteOne_inv.
  assert (Hother : forall h m, h <> dr_PayHash ref -> idb_hashes d !! h = Some m -> m <> n).
  { intros h m Hne Hm ->. by apply Hne, (so_inj _ Hok h _ n). }
  split; [split; [split|]|split]; rewrite ?Eh, ?Ei, ?En.
  - intros h1 h2 m [_ H1]%lookup_delete_Some [_ H2]%lookup_delete_Some. by eapply so_inj.
  - intros h m [_ H1]%lookup_delete_Some. by apply (so_bound _ Hok h).
  - intros h m [Hne H1]%lookup_delete_Some. rewrite lookup_delete_ne; [by apply (so_has _ Hok h)|].
    intros <-. by apply (Hother h n).
  - intros m i [Hne Hi]%lookup_delete_Some. destruct (so_entry _ Hok m i Hi) as (h & Hh & He). exists h. split; [|done].
    rewrite lookup_delete_ne; [done|]. intros <-. congruence.
  - apply Hok.
  - intros h m i Hh Hi Hs. destruct (decide (h = dr_PayHash ref)) as [->|Hne]; [by destruct (Hun m i)|].
    exists i. rewrite Eh, Ei, !lookup_delete_ne; [done| |congruence]. intros <-. by apply (Hother h n).
  - intros h m. rewrite lookup_delete_Some. by intros [_ ?].
  - intros m i. rewrite lookup_delete_Some. by intros [_ ?].
Qed.

Lemma deleteAll_ok refs d d' : store_ok d -> Forall (fun r => unsettled d (dr_PayHash r)) refs -> deleteAll refs d = (Ok tt, d') -> kept d d'.
Proof.
  revert d. induction refs as [|r refs IH]; intros d Hok Hall; cbn; [intros [= <-]; by apply kept_refl|].
  intros ([] & d1 & H1 & Hrun)%M_bind_Ok. apply list.Forall_cons in Hall as [Hr Hall].
  destruct (deleteOne_ok r d d1 Hok Hr H1) as [[Hok1 Hk1] Hsh]. destruct (IH d1 Hok1) as [Hok2 Hk2]; [|done|].
  - eapply list.Forall_impl; [exact Hall|]. intros x. by apply unsettled_shrinks.
  - split; [done|]. by etrans.
Qed.

Lemma transaction_kept {A} (m : IDB A) d r d' : store_ok d -> (forall a d1, m d = (Ok a, d1) -> kept d d1) ->
  transaction m d = (r, d') -> kept d d'.
Proof.
  intros Hok Hm. unfold transaction. destruct (m d) as [[a|e|] d1] eqn:Hrun; intros [= <- <-]; [by eapply Hm|by apply kept_refl..].
Qed.

Lemma DeleteInvoice_ok refs d r d' : store_ok d -> Forall (fun r => unsettled d (dr_PayHash r)) refs ->
  DeleteInvoice refs d = (r, d') -> kept d d'.
Proof. intros Hok Hall. apply transaction_kept; [done|]. intros [] d1. by apply deleteAll_ok. Qed.

(** ** The operations of the registry *)
Record reg_ok (r : InvoiceRegistry) : Prop := {
  ro_store : store_ok (rg_cdb r);
  ro_timers : Forall (fun t => ref_setID t.1.1 = None) (rg_timers r)
}.

(** The invariant is kept, with room for [k] more invoices. *)
Definition grows (k : Z) {A} (m : REG A) : Prop := forall r x r', m r = (x, r') -> reg_ok r -> idb_num (rg_cdb r) + k < 2 ^ 32 ->
  reg_ok r' /\ keeps_settled (rg_cdb r) (rg_cdb r') /\ idb_num (rg_cdb r') <= idb_num (rg_cdb r) + k.

Lemma grows_same {A} (m : REG A) : (forall r, rg_cdb (snd (m r)) = rg_cdb r /\ rg_timers (snd (m r)) = rg_timers r) -> grows 0 m.
Proof.
  intros Hm r x r' Hrun [Hs Ht] _. destruct (Hm r) as [Hc Htm]. rewrite Hrun in Hc, Htm. cbn in Hc, Htm.
  split; [split; [by rewrite Hc|by rewrite Htm]|]. rewrite Hc. split; [reflexivity|lia].
Qed.

Lemma grows_bind k1 k2 {A B} (m : REG A) (f : A -> REG B) : 0 <= k2 -> 0 <= k1 -> grows k1 m -> (forall a, grows k2 (f a)) -> grows (k1 + k2) (m ≫= f).
Proof.
  intros Hk2 Hk1 Hm Hf r x r' Hrun Hok Hroom. unfold mbind, M_bind in Hrun. destruct (m r) as [y r1] eqn:H1.
  destruct (Hm _ _ _ H1 Hok) as (Hok1 & Hs1 & Hn1); [lia|]. destruct y as [a|e|]; [|injection Hrun as _ <-; split; [done|split; [done|lia]]..].
  destruct (Hf a _ _ _ Hrun Hok1) as (Hok2 & Hs2 & Hn2); [lia|]. split; [done|]. split; [by etrans|lia].
Qed.

Lemma grows_bind0 {A B} (m : REG A) (f : A -> REG B) : grows 0 m -> (forall a, grows 0 (f a)) -> grows 0 (m ≫= f).
Proof. by apply (grows_bind 0 0). Qed.

Lemma grows_mono k1 k2 {A} (m : REG A) : k1 <= k2 -> grows k1 m -> grows k2 m.
Proof. intros Hk Hm r x r' Hrun Hok Hroom. destruct (Hm _ _ _ Hrun Hok) as (? & ? & ?); [lia|]. split; [done|split; [done|lia]]. Qed.

Lemma on_cdb_inv {A} (m : IDB A) r x r' : on_cdb m r = (x, r') -> exists y d, m (rg_cdb r) = (y, d) /\ r' = r <| rg_cdb := d |> /\
  (forall a, x = Ok a <-> y = Ok a) /\ (forall e, x = Err (ErrInvoiceDB e) <-> y = Err e).
Proof.
  unfold on_cdb. destruct (m (rg_cdb r)) as [y d]. intros [= <- <-]. exists y, d. do 2 (split; [done|]).
  destruct y; repeat split; congruence.
Qed.

Lemma UpdateInvoice_kept {R} now ref hint (f : Invoice -> res inverr (option InvoiceUpdateDesc * R)) d y d' :
  store_ok d -> good ref f -> UpdateInvoice now ref hint f d = (y, d') -> kept d d' /\ idb_num d' = idb_num d.
Proof.
  intros Hok Hg Hrun. destruct y as [[i x]|e|].
  - by destruct (UpdateInvoice_ok _ _ _ _ _ _ _ _ Hok Hg Hrun) as (Hs & Hk & _ & Hn & _).
  - apply UpdateInvoice_fails in Hrun as ->; [|done]. split; [by apply kept_refl|done].
  - apply UpdateInvoice_fails in Hrun as ->; [|done]. split; [by apply kept_refl|done].
Qed.

Lemma grows_update {R} now ref hint (f : Invoice -> res inverr (option InvoiceUpdateDesc * R)) : good ref f -> grows 0 (on_cdb (UpdateInvoice now ref hint f)).
Proof.
  intros Hg r x r' (y & d & Hrun & -> & _)%on_cdb_inv [Hs Ht] _.
  destruct (UpdateInvoice_kept _ _ _ _ _ _ _ Hs Hg Hrun) as [[Hs' Hk] Hn]. split; [by split|]. split; [done|]. cbn. lia.
Qed.

Lemma grows_notify res : grows 0 (notifyHodlSubscribers res).
Proof. apply grows_same. intros r. unfold notifyHodlSubscribers, modify. cbn. by destruct (hodlSubscriptions r !! _). Qed.

Lemma grows_ret {A} (x : A) : grows 0 (mret x).
Proof. by apply grows_same. Qed.

Lemma grows_notifyAll rs : grows 0 (notifyAll rs).
Proof. induction rs; cbn; [apply grows_ret|]. apply grows_bind0; [apply grows_notify|done]. Qed.

Lemma grows_pass {A} k (m : REG A) r x r' : grows k m -> m r = (x, r') -> reg_ok r -> idb_num (rg_cdb r) + k < 2 ^ 32 ->
  reg_ok r' /\ keeps_settled (rg_cdb r) (rg_cdb r').
Proof. intros Hm Hrun Hok Hroom. by destruct (Hm r x r' Hrun Hok Hroom) as (? & ? & _). Qed.

Lemma grows_check b e : grows 0 (check b e : REG unit).
Proof. by apply grows_same. Qed.

Lemma grows_add i hash : new_invoice i -> grows 1 (AddInvoice i hash).
Proof.
  intros Hi r x r' (y & d & Hrun & -> & _)%on_cdb_inv [Hs Ht] Hroom.
  destruct (AddInvoice_ok _ _ _ _ _ Hs Hi ltac:(unfold has_room; lia) Hrun) as [[Hs' Hk] Hn]. split; [by split|]. by split.
Qed.

Lemma grows_addIgnoring dup i hash : new_invoice i -> grows 1 (addIgnoring dup i hash).
Proof.
  intros Hi r x r' Hrun. unfold addIgnoring in Hrun. destruct (AddInvoice i hash r) as [y r1] eqn:Ha.
  assert (r' = r1) as -> by (destruct y as [?|[]|]; congruence). by apply (grows_add i hash Hi r y).
Qed.

Lemma new_fresh now asset delta exp v p addr fv hodl : (HasFeature fv AMPOptional = true -> p = None) ->
  new_invoice (fresh_invoice now asset delta exp v p addr fv hodl).
Proof. intros Hp. by repeat split. Qed.

Lemma grows_bind_l k {A B} (m : REG A) (f : A -> REG B) : 0 <= k -> grows 0 m -> (forall a, grows k (f a)) -> grows k (m ≫= f).
Proof. intros Hk. by apply (grows_bind 0 k). Qed.

Lemma grows_bind_r k {A B} (m : REG A) (f : A -> REG B) : 0 <= k -> grows k m -> (forall a, grows 0 (f a)) -> grows k (m ≫= f).
Proof. intros Hk Hm Hf. rewrite <- (Z.add_0_r k). by apply grows_bind. Qed.

Section Registry.
Context (cfg : RegistryConfig) (unmarshals : bytes -> bool).

Lemma grows_keysend now ctx : grows 1 (processKeySend cfg now ctx).
Proof.
  unfold processKeySend. destruct (customRecord ctx KeySendType) as [p|]; [|by apply (grows_mono 0), grows_ret].
  do 4 (apply grows_bind_l; [done|apply grows_check|intros _]). by apply grows_addIgnoring, new_fresh.
Qed.

Lemma grows_swap now ctx : grows 1 (processAtomicSwap cfg unmarshals now ctx).
Proof.
  unfold processAtomicSwap. destruct (customRecord ctx ASType) as [p|]; [|by apply (grows_mono 0), grows_ret].
  do 3 (apply grows_bind_l; [done|apply grows_check|intros _]). apply grows_bind_r; [done| |intros _; apply grows_ret].
  by apply grows_add, new_fresh.
Qed.

Lemma grows_amp now ctx : grows 1 (processAMP cfg now ctx).
Proof.
  unfold processAMP. destruct (cx_mpp ctx) as [mpp|]; [|by apply (grows_mono 0); [|apply grows_same]].
  apply grows_bind_l; [done|apply grows_check|intros _]. by apply grows_addIgnoring, new_fresh.
Qed.

Lemma notifyAll_same rs r a r2 : notifyAll rs r = (a, r2) -> rg_cdb r2 = rg_cdb r /\ rg_timers r2 = rg_timers r /\ a = Ok tt.
Proof.
  revert r. induction rs as [|res rs IH]; intros r; cbn [notifyAll]; [by intros [= <- <-]|].
  unfold mbind, M_bind, notifyHodlSubscribers, modify. intros (-> & -> & ->)%IH. by destruct (hodlSubscriptions r !! _).
Qed.

(** What the update of the invoice an HTLC pays comes to. *)
Lemma exitLocked_inv now ctx sub r x r' : notifyExitHopHtlcLocked now ctx sub r = (x, r') ->
  exists y r1, on_cdb (UpdateInvoice now (invoiceRef ctx) (ctx_setID ctx) (exitCallback ctx)) r = (y, r1) /\
    rg_cdb r' = rg_cdb r1 /\ rg_timers r' = rg_timers r1 /\
    (forall p k height o, x = Ok (HtlcSettle p k height o) -> exists i, y = Ok (i, HtlcSettle p k height o)).
Proof.
  unfold notifyExitHopHtlcLocked. destruct (on_cdb _ r) as [y r1] eqn:Hu. intros Hrun. exists y, r1. split; [done|].
  destruct y as [[i res]|e|]; [|destruct e as [[]| | | | | |]; injection Hrun as <- <-; done|by injection Hrun as <- <-].
  destruct res as [key height o|p key height o|key b t o].
  - unfold mbind, M_bind in Hrun. destruct (notifyAll _ r1) as [a r2] eqn:Hn. destruct (notifyAll_same _ _ _ _ Hn) as (<- & <- & ->).
    by injection Hrun as <- <-.
  - unfold mbind, M_bind in Hrun. destruct (notifyAll _ r1) as [a r2] eqn:Hn. destruct (notifyAll_same _ _ _ _ Hn) as (<- & <- & ->).
    injection Hrun as <- <-. do 2 (split; [done|]). intros p' k' h' o' [= <- <- <- <-]. by eexists.
  - destruct (Htlcs i !! _) as [h|]; injection Hrun as <- <-; [|done]. do 2 (split; [done|]). by destruct (bool_decide _).
Qed.

Lemma grows_locked now ctx sub : small ctx -> grows 0 (notifyExitHopHtlcLocked now ctx sub).
Proof.
  intros Hsm r x r' (y & r1 & Hu & Hc & Ht & _)%exitLocked_inv Hok Hroom.
  destruct (grows_update _ _ _ _ (good_exit ctx Hsm) _ _ _ Hu Hok Hroom) as ([Hs Hti] & Hk & Hn).
  rewrite Hc. split; [split; [by rewrite Hc|by rewrite Ht]|done].
Qed.

Lemma grows_jit k1 k2 ctx outcome (m : REG unit) (k : REG (option HtlcResolution)) : 0 <= k2 -> 0 <= k1 ->
  grows k1 m -> grows k2 k -> grows (k1 + k2) (jit ctx outcome m k).
Proof.
  intros Hk2 Hk1 Hm Hk r x r' Hrun Hok Hroom. unfold jit in Hrun. destruct (m r) as [y r1] eqn:H1.
  destruct (Hm _ _ _ H1 Hok) as (Hok1 & Hs1 & Hn1); [lia|]. destruct y as [a|e|]; [|injection Hrun as _ <-; split; [done|split; [done|lia]]..].
  destruct (Hk _ _ _ Hrun Hok1) as (Hok2 & Hs2 & Hn2); [lia|]. split; [done|]. split; [by etrans|lia].
Qed.

(** The timer of an accepted HTLC names the invoice as the HTLC did. *)
Lemma grows_timer ref key t : ref_setID ref = None ->
  grows 0 (modify (fun r => r <| rg_timers ::= fun l => l ++ [(ref, key, t)] |>) : REG unit).
Proof.
  intros Hs r x r' Hrun [Hok Ht] _. injection Hrun as _ <-. split; [|split; [reflexivity|cbn; lia]].
  split; [done|]. cbn. apply Forall_app. split; [done|]. by constructor.
Qed.

Lemma invoiceRef_setID ctx : ref_setID (invoiceRef ctx) = None.
Proof. unfold invoiceRef. by destruct (cx_amp ctx), (cx_mpp ctx). Qed.

Lemma grows_resolve now ctx sub : small ctx -> grows 0 (resolveExit cfg now ctx sub).
Proof.
  intros Hsm. apply grows_bind0; [by apply grows_locked|].
  intros [| |key b t o]; [apply grows_ret..|]. apply grows_bind0; [|intros; apply grows_ret].
  destruct b; [apply grows_timer, invoiceRef_setID|apply grows_ret].
Qed.

Lemma grows_exit now ctx sub : small ctx -> grows 2 (NotifyExitHopHtlc cfg unmarshals now ctx sub).
Proof.
  intros Hsm. unfold NotifyExitHopHtlc.
  set (c := ctx <| cx_finalCltvRejectDelta := FinalCltvRejectDelta cfg |> <| cx_payerAddress := [] |>).
  change (small c) in Hsm. clearbody c.
  set (exit := jit c ResultAtomicSwapError _ _).
  assert (Hexit : grows 1 exit) by (apply (grows_jit 1 0); [done|done|apply grows_swap|by apply grows_resolve]).
  destruct (_ && _); [apply (grows_jit 1 1); [done|done|apply grows_amp|exact Hexit]|].
  destruct (_ && _); [apply (grows_jit 1 1); [done|done|apply grows_keysend|exact Hexit]|].
  by apply (grows_mono 1).
Qed.

Lemma grows_settle now p : grows 0 (SettleHodlInvoice now p).
Proof. apply grows_bind0; [apply grows_update, good_settleHodl|intros; apply grows_notifyAll]. Qed.

Lemma grows_cancelSingle now ref key result : ref_setID ref = None -> grows 0 (registry_cancelSingleHtlc now ref key result).
Proof.
  intros Hs. apply grows_bind0; [by apply grows_update, good_cancelOne|]. intros [i b]. destruct (negb b); [apply grows_ret|].
  destruct (Htlcs i !! key) as [h|]; [|by apply grows_same]. destruct (bool_decide _); [apply grows_notify|apply grows_ret].
Qed.

Lemma grows_release now i : grows 0 (releaseHtlc now i).
Proof.
  intros r x r' Hrun Hok Hroom. unfold releaseHtlc in Hrun. destruct (rg_timers r !! i) as [[[ref key] t]|] eqn:Hi;
    [|injection Hrun as _ <-; split; [done|split; [reflexivity|lia]]].
  destruct (t <=? now); [|injection Hrun as _ <-; split; [done|split; [reflexivity|lia]]].
  destruct Hok as [Hok Ht]. assert (Hs : ref_setID ref = None) by apply (list.Forall_lookup_1 _ _ _ _ Ht Hi).
  apply (grows_cancelSingle now ref key ResultMppTimeout Hs _ _ _ Hrun); [|exact Hroom].
  split; [exact Hok|]. cbn. by apply list.Forall_delete.
Qed.

Lemma grows_unsubscribe s : grows 0 (HodlUnsubscribeAll s).
Proof. by apply grows_same. Qed.

Lemma deleteLogged_ok refs r x r' : reg_ok r -> Forall (fun d => unsettled (rg_cdb r) (dr_PayHash d)) refs ->
  deleteLogged refs r = (x, r') -> reg_ok r' /\ keeps_settled (rg_cdb r) (rg_cdb r').
Proof.
  intros [Hs Ht] Hall Hrun. unfold deleteLogged in Hrun. destruct (on_cdb (DeleteInvoice refs) r) as [y r1] eqn:H1.
  assert (r' = r1) as -> by (destruct y; congruence). apply on_cdb_inv in H1 as (z & d & Hd & -> & _).
  destruct (DeleteInvoice_ok _ _ _ _ Hs Hall Hd) as [Hok Hk]. split; [by split|done].
Qed.

Lemma cancel_unsettled now h b d i x d' : store_ok d ->
  UpdateInvoice now (InvoiceRefByHash h) None (cancelUpdate b) d = (Ok (i, x), d') -> inv_State i <> ContractAccepted -> unsettled d' h.
Proof.
  intros Hok Hrun Hna. destruct (UpdateInvoice_ok _ _ _ _ _ _ _ _ Hok (good_cancel b h) Hrun) as (_ & _ & Eh & _ & n & h' & i0 & Hn & Hh' & Hi0 & Hupd).
  apply (fetch_by_hash _ h) in Hn; [|done..]. intros m j. rewrite Eh. intros Hm. replace m with n by congruence.
  destruct Hupd as [-> Hf _ _|u st _ Hf _ _ Hs _ Hcore _ ->|u j0 st _ _ _ Hi Hst ->].
  - exfalso. unfold cancelUpdate, shouldCancel in Hf. change (inv_State (copyInvoice i)) with (inv_State i) in Hf.
    by rewrite bool_decide_false in Hf.
  - rewrite lookup_insert_eq. intros [= <-]. destruct Hcore as (-> & _). rewrite Hs. unfold cancelUpdate in Hf.
    destruct (negb _); [done|]. by injection Hf as <- _.
  - rewrite lookup_insert_eq. intros [= <-]. destruct (stored_features _ _ Hst) as (_ & _ & ->). by destruct (ao_state _ Hi) as [Hs|Hs]; rewrite Hs.
Qed.

Lemma cancel_ok now h b r x r' : reg_ok r -> idb_num (rg_cdb r) < 2 ^ 32 -> cancelInvoiceImpl cfg now h b r = (x, r') ->
  reg_ok r' /\ keeps_settled (rg_cdb r) (rg_cdb r').
Proof.
  intros Hok Hroom Hrun. unfold cancelInvoiceImpl in Hrun.
  destruct (on_cdb (UpdateInvoice now (InvoiceRefByHash h) None (cancelUpdate b)) r) as [y r1] eqn:Hu.
  destruct (grows_update now _ None _ (good_cancel b h) _ _ _ Hu Hok) as (Hok1 & Hk1 & Hn1); [lia|].
  destruct y as [[i []]|e|]; [|replace r' with r1; [done|destruct e as [[]| | | | | |]; congruence]|by injection Hrun as _ <-].
  destruct (bool_decide_reflect (inv_State i = ContractAccepted)) as [|Hna]; [by injection Hrun as _ <-|].
  unfold mbind, M_bind in Hrun. destruct (notifyAll _ r1) as [z r2] eqn:Hn.
  assert (Hc : rg_cdb r2 = rg_cdb r1 /\ rg_timers r2 = rg_timers r1 /\ z = Ok tt) by by apply notifyAll_same in Hn.
  destruct Hc as (Hc & Ht & ->). assert (Hok2 : reg_ok r2) by (split; [rewrite Hc; apply Hok1|rewrite Ht; apply Hok1]).
  destruct (GcCanceledInvoicesOnTheFly cfg); [|injection Hrun as _ <-; by rewrite Hc].
  apply deleteLogged_ok in Hrun as [Hok3 Hk3]; [|done|].
  - split; [done|]. rewrite Hc in Hk3. by etrans.
  - constructor; [|done]. rewrite Hc. cbn. apply on_cdb_inv in Hu as (y & d & Hu & -> & Hy & _).
    eapply cancel_unsettled; [apply Hok| |exact Hna]. rewrite Hu. f_equal. by apply Hy.
Qed.

Lemma scan_found d l h i : store_ok d -> scanInvoices d = Ok l -> (h, i) ∈ l -> inv_State i = ContractCanceled -> unsettled d h.
Proof.
  intros Hok Hscan Hin Hc. unfold scanInvoices in Hscan.
  assert (Hall : forall m l, foldr (fun '(h, num) acc => invoice ← fetchInvoice num None d; rest ← acc; Ok ((h, invoice) :: rest)) (Ok []) m = Ok l ->
    (h, i) ∈ l -> exists n, (h, n) ∈ m /\ fetchInvoice n None d = Ok i).
  { clear. induction m as [|[h' n] m IH]; intros l; cbn; [intros [= <-]; by rewrite elem_of_nil|].
    intros (j & Hj & (rest & Hrest & Heq)%res_bind_Ok)%res_bind_Ok. injection Heq as <-.
    intros [[= <- <-]|Hin]%elem_of_cons; [exists n; by split; [left|]|]. destruct (IH _ Hrest Hin) as (n' & ? & ?). exists n'. by split; [right|]. }
  destruct (Hall _ _ Hscan Hin) as (n & Hn%elem_of_map_to_list & Hf).
  destruct (fetch_plain _ _ _ _ Hf) as (i0 & Hi0 & _ & _ & Hs). intros m j Hm Hj. replace j with i0 by congruence. congruence.
Qed.

Lemma scan_ok r x r' : reg_ok r -> scanInvoicesOnStart cfg r = (x, r') -> reg_ok r' /\ keeps_settled (rg_cdb r) (rg_cdb r').
Proof.
  intros Hok Hrun. unfold scanInvoicesOnStart in Hrun. destruct (scanInvoices (rg_cdb r)) as [l|e|] eqn:Hl; [|by injection Hrun as _ <-..].
  set (removable := omap _ l) in Hrun.
  assert (Hrem : Forall (fun d => unsettled (rg_cdb r) (dr_PayHash d)) removable).
  { apply list.Forall_forall. intros d ([h i] & Hin & Hd)%list_elem_of_omap. cbn in Hd.
    destruct (_ && bool_decide (inv_State i = ContractCanceled)) eqn:Hb; [|done]. injection Hd as <-. cbn.
    apply andb_true_iff in Hb as [_ Hb]. eapply scan_found; [apply Hok|exact Hl|exact Hin|by apply bool_decide_eq_true in Hb]. }
  destruct removable; [by injection Hrun as _ <-|]. by eapply deleteLogged_ok.
Qed.
End Registry.
