(* ===== verification/InvoiceTheorems.v ===== *)
(** * What the invoice registry guarantees, and where it fails

    The steps of the registry; that its store stays correct and settled invoices
    stay settled; that a preimage is released only for an invoice that is paid;
    and the payments the code does not treat as it means to. *)

From S2P Require Import Prelude Sha256 Wire UpdateLog Features Payments Amp InvoiceDB Invoices InvoiceSafety InvoiceStore.

Section Steps.
Context (cfg : RegistryConfig) (unmarshals : bytes -> bool).

(** Whatever the registry is asked to do, in any order; the results are left out.
    Invoices are added as they are created, payments are of realistic amounts, and
    the numbers of invoices, of 32 bits, are not used up. *)
Inductive reg_step (r : InvoiceRegistry) : InvoiceRegistry -> Prop :=
| step_add i hash : new_invoice i -> has_room (rg_cdb r) -> reg_step r (snd (AddInvoice i hash r))
| step_notify now ctx sub : small ctx -> idb_num (rg_cdb r) + 2 < 2 ^ 32 ->
    reg_step r (snd (NotifyExitHopHtlc cfg unmarshals now ctx sub r))
| step_settle now p : has_room (rg_cdb r) -> reg_step r (snd (SettleHodlInvoice now p r))
| step_cancel now hash cancelAccepted : has_room (rg_cdb r) -> reg_step r (snd (cancelInvoiceImpl cfg now hash cancelAccepted r))
| step_release now i : has_room (rg_cdb r) -> reg_step r (snd (releaseHtlc now i r))
| step_unsubscribe sub : reg_step r (snd (HodlUnsubscribeAll sub r))
| step_restart : reg_step r (snd (scanInvoicesOnStart cfg (NewRegistry (rg_cdb r)))).

Lemma step_ok r r' : reg_step r r' -> reg_ok r -> reg_ok r' /\ keeps_settled (rg_cdb r) (rg_cdb r').
Proof.
  intros Hstep Hok.
  assert (Hgrow : forall k A (m : REG A), grows k m -> idb_num (rg_cdb r) + k < 2 ^ 32 ->
    reg_ok (snd (m r)) /\ keeps_settled (rg_cdb r) (rg_cdb (snd (m r)))).
  { intros k A m Hm Hroom. apply (grows_pass k m r (fst (m r))); [done|by destruct (m r)|done..]. }
  destruct Hstep as [i hash Hi Hroom|now ctx sub Hsm Hroom|now p Hroom|now hash b Hroom|now i Hroom|sub|]; unfold has_room in *.
  - apply (Hgrow 1); [by apply grows_add|lia].
  - by apply (Hgrow 2); [apply grows_exit|].
  - apply (Hgrow 0); [apply grows_settle|lia].
  - destruct (cancelInvoiceImpl cfg now hash b r) as [x r'] eqn:Hrun. eapply cancel_ok; [done| |exact Hrun]. lia.
  - apply (Hgrow 0); [apply grows_release|lia].
  - split; [|reflexivity]. by destruct Hok.
  - destruct (scanInvoicesOnStart cfg (NewRegistry (rg_cdb r))) as [x r'] eqn:Hrun.
    apply (scan_ok cfg (NewRegistry (rg_cdb r)) x); [|exact Hrun]. split; [apply Hok|by constructor].
Qed.

Lemma steps_ok r r' : rtc reg_step r r' -> reg_ok r -> reg_ok r' /\ keeps_settled (rg_cdb r) (rg_cdb r').
Proof.
  induction 1 as [r|r r1 r' Hstep _ IH]; intros Hok; [by split|].
  destruct (step_ok r r1 Hstep Hok) as [Hok1 Hk1]. destruct (IH Hok1) as [Hok' Hk']. split; [done|by etrans].
Qed.

Lemma empty_ok : reg_ok (NewRegistry new_invoiceDB).
Proof. split; [|constructor]. split; cbn; intros *; rewrite ?lookup_empty; done. Qed.
End Steps.

(** C12. In every state the registry reaches, each hash of the index names one
    invoice of the store and each invoice is under one hash, and a plain invoice is
    consistent: its HTLCs are in states that fit its own, open it holds less than
    the set being gathered, accepted or settled it holds at least its value, the
    amount paid is the sum of its HTLCs, and once settled its preimage opens its
    hash. *)
Theorem invoice_store_correct cfg unmarshals r : rtc (reg_step cfg unmarshals) (NewRegistry new_invoiceDB) r ->
  (forall h n, idb_hashes (rg_cdb r) !! h = Some n -> exists i, idb_invoices (rg_cdb r) !! n = Some i /\
     (invoiceIsAMP i = true -> inv_State i = ContractOpen \/ inv_State i = ContractCanceled) /\
     (invoiceIsAMP i = false -> invoice_ok h i)) /\
  (forall n i, idb_invoices (rg_cdb r) !! n = Some i -> exists! h, idb_hashes (rg_cdb r) !! h = Some n).
Proof.
  intros Hr. destruct (steps_ok _ _ _ _ Hr empty_ok) as [[Hok _] _]. split.
  - intros h n Hh. destruct (so_has _ Hok h n Hh) as [i Hi]. exists i. split; [done|].
    pose proof (store_hash _ _ _ _ Hok Hh Hi) as He. unfold entry_ok in He.
    destruct (invoiceIsAMP i); (split; [intros Hamp|intros Hamp]); try done. apply He.
  - intros n i Hi. destruct (so_entry _ Hok n i Hi) as (h & Hh & _). exists h. split; [done|].
    intros h' Hh'. by eapply so_inj.
Qed.

(** C13. Once an invoice is settled, nothing the registry does changes that: it is
    never deleted, and its preimage and its settled HTLCs stay what they are. *)
Theorem settled_invoice_stays cfg unmarshals r r' h n i :
  rtc (reg_step cfg unmarshals) (NewRegistry new_invoiceDB) r -> rtc (reg_step cfg unmarshals) r r' ->
  idb_hashes (rg_cdb r) !! h = Some n -> idb_invoices (rg_cdb r) !! n = Some i -> inv_State i = ContractSettled ->
  exists i', idb_hashes (rg_cdb r') !! h = Some n /\ idb_invoices (rg_cdb r') !! n = Some i' /\
    inv_State i' = ContractSettled /\ PaymentPreimage (Terms i') = PaymentPreimage (Terms i) /\
    forall k hl, Htlcs i !! k = Some hl -> ih_State hl = HtlcStateSettled -> Htlcs i' !! k = Some hl.
Proof.
  intros Hr Hr' Hh Hi Hs. destruct (steps_ok _ _ _ _ Hr empty_ok) as [Hok _].
  destruct (steps_ok _ _ _ _ Hr' Hok) as [_ Hk]. destruct (Hk h n i Hh Hi Hs) as (i' & Hh' & Hi' & Hkeep).
  exists i'. split; [done|]. split; [done|]. by apply Hkeep.
Qed.

(** ** Releasing preimages *)
Lemma jit_settle ctx outcome m k r p key height o r' : jit ctx outcome m k r = (Ok (Some (HtlcSettle p key height o)), r') ->
  exists r1, m r = (Ok tt, r1) /\ k r1 = (Ok (Some (HtlcSettle p key height o)), r').
Proof. unfold jit. destruct (m r) as [[[]|e|] r1]; [|done..]. intros Hk. by exists r1. Qed.

(** What asking for a settlement comes to, on an invoice that is not AMP. *)
Lemma settle_update ctx i u p key height o : cx_amp ctx = None -> updateInvoice ctx i = Ok (u, HtlcSettle p key height o) ->
  key = cx_circuitKey ctx /\ PaymentPreimage (Terms i) = Some p /\
  match u with
  | None => exists hl, Htlcs i !! key = Some hl /\ ih_State hl = HtlcStateSettled /\ o = ResultReplayToSettled
  | Some u => newState_of u i = ContractSettled /\ newPreimage_of u i = Some p /\
      exists d, AddHtlcs u = {[key := d]} /\ had_Amt d = cx_amtPaid ctx
  end.
Proof.
  intros Hamp. unfold updateInvoice, fails. destruct (Htlcs i !! cx_circuitKey ctx) as [hl|] eqn:Hh.
  - destruct (ih_State hl) eqn:Hst; [done|done|]. unfold knownPreimage. destruct (PaymentPreimage (Terms i)) as [q|]; [|done].
    intros [= <- <- <- <- <-]. do 2 (split; [done|]). by exists hl.
  - destruct (cx_mpp ctx) as [mpp|].
    + unfold updateMpp, fails. rewrite Hamp.
      repeat match goal with |- (if ?b then Ok (None, failRes _ _) else _) = _ -> _ => destruct b; [done|] end.
      destruct (setTotal _ _ _); [|done].
      repeat match goal with |- (if ?b then _ else _) = _ -> _ => destruct b; [done|] end.
      unfold knownPreimage. destruct (PaymentPreimage (Terms i)) as [q|]; [|done]. intros [= <- <- <- <- <-].
      do 2 (split; [done|]). split; [done|]. split; [done|]. by eexists.
    + unfold updateLegacy, fails.
      repeat match goal with |- (if ?b then Ok (None, failRes _ _) else _) = _ -> _ => destruct b; [done|] end.
      unfold knownPreimage. destruct (inv_State i) eqn:Hs, (HodlInvoice i); try done;
        destruct (PaymentPreimage (Terms i)) as [q|] eqn:Hp; try done; intros [= <- <- <- <- <-];
        do 2 (split; [done|]); unfold newState_of, newPreimage_of; cbn; rewrite ?Hs, ?Hp; (split; [done|]); (split; [done|]); by eexists.
Qed.

Lemma exit_update ctx i u p key height o : cx_amp ctx = None -> exitCallback ctx i = Ok (u, HtlcSettle p key height o) ->
  key = cx_circuitKey ctx /\ PaymentPreimage (Terms i) = Some p /\
  match u with
  | None => exists hl, Htlcs i !! key = Some hl /\ ih_State hl = HtlcStateSettled /\ o = ResultReplayToSettled
  | Some u => newState_of u i = ContractSettled /\ newPreimage_of u i = Some p /\
      exists d, AddHtlcs u = {[key := d]} /\ had_Amt d = cx_amtPaid ctx
  end.
Proof.
  intros Hamp (u0 & Hu & Hcase)%exitCallback_inv. apply settle_update in Hu; [|done]. destruct Hcase as [Hu0|Hu0]; subst u; [done|]. by destruct u0.
Qed.

(** What is released by an update of a plain invoice of the store. *)
Definition released (ctx : invoiceUpdateCtx) (p : bytes) (key : CircuitKey) (o : SettleResolutionResult) (d : invoiceDB) : Prop :=
  key = cx_circuitKey ctx /\ Sum256 p = cx_hash ctx /\
  exists n i hl, idb_hashes d !! cx_hash ctx = Some n /\ idb_invoices d !! n = Some i /\
    inv_State i = ContractSettled /\ ct_Value (Terms i) <= live (Htlcs i) /\ AmtPaid i = u64 (live (Htlcs i)) /\
    Htlcs i !! key = Some hl /\ ih_State hl = HtlcStateSettled /\ (o <> ResultReplayToSettled -> ih_Amt hl = cx_amtPaid ctx).

Lemma settled_facts h i : invoice_ok h i -> inv_State i = ContractSettled ->
  ct_Value (Terms i) <= live (Htlcs i) /\ AmtPaid i = u64 (live (Htlcs i)) /\
  forall p, PaymentPreimage (Terms i) = Some p -> Sum256 p = h.
Proof.
  intros [_ _ _ Hst] Hs. unfold state_ok in Hst. rewrite Hs in Hst. destruct Hst as (Ha & Hv & (q & Hq & Hh) & _).
  split; [done|]. split; [done|]. intros p Hp. congruence.
Qed.

Lemma exit_settles now ctx d i p key height o d' : store_ok d -> small ctx -> cx_amp ctx = None ->
  UpdateInvoice now (invoiceRef ctx) (ctx_setID ctx) (exitCallback ctx) d = (Ok (i, HtlcSettle p key height o), d') ->
  released ctx p key o d'.
Proof.
  intros Hok Hsm Hamp Hrun.
  destruct (UpdateInvoice_ok _ _ _ _ _ _ _ _ Hok (good_exit ctx Hsm) Hrun) as (_ & _ & Eh & _ & n & h & i0 & Hn & Hh & Hi0 & Hupd).
  assert (Hc : idb_hashes d !! cx_hash ctx = Some n).
  { eapply fetch_by_hash; [apply invoiceRef_setID| |exact Hn]. unfold invoiceRef. rewrite Hamp. by destruct (cx_mpp ctx). }
  assert (h = cx_hash ctx) as -> by (by eapply so_inj).
  assert (He := store_hash _ _ _ _ Hok Hh Hi0). unfold entry_ok in He.
  destruct Hupd as [-> Hf Hplain Hao|u st Hi Hf Hi' _ Hs Hpre Hcore Hadds Ei|u j st _ Hj Hf _ _ _].
  - apply exit_update in Hf as (-> & Hp & hl & Hhl & Hst & ->); [|done]. cbn in Hp, Hhl.
    destruct (invoiceIsAMP i0) eqn:Ha; [by rewrite (ao_pre _ (Hao He)) in Hp|]. rewrite (Hplain eq_refl) in *.
    assert (Hset : inv_State i0 = ContractSettled).
    { pose proof (io_state _ _ He) as Hso. unfold state_ok in Hso. destruct (inv_State i0); [|done|..]; exfalso.
      - destruct Hso as (_ & T & _ & _ & Hall). by destruct (Hall _ _ Hhl).
      - destruct Hso as (_ & Hall). specialize (Hall _ _ Hhl). congruence.
      - destruct Hso as (_ & _ & Hall). by apply (Hall _ _ Hhl). }
    destruct (settled_facts _ _ He Hset) as (Hv & Hpaid & Hopen). split; [done|]. split; [by apply Hopen|].
    exists n, i0, hl. repeat (split; [done|]). done.
  - apply exit_update in Hf as (-> & _ & Hns & Hnp & a & Ha & Hamt); [|done].
    change (newState_of u i0 = ContractSettled) in Hns. change (newPreimage_of u i0 = Some p) in Hnp.
    assert (Hset : inv_State i = ContractSettled) by congruence. specialize (Hpre Hset).
    destruct (Hadds (cx_circuitKey ctx) a) as (_ & hl & Hhl & Hamt' & Hst); [by rewrite Ha, lookup_singleton_eq|].
    assert (Hst' := same_core_ok _ _ _ Hcore Hi'). destruct Hcore as (Es & Ehl & _ & Ep & _).
    destruct (settled_facts _ _ Hst' (eq_trans Es Hset)) as (Hv & Hpaid & Hopen).
    split; [done|]. split; [apply Hopen; congruence|]. exists n, st, hl.
    rewrite Eh, Ei, lookup_insert_eq, Ehl. rewrite Ehl in Hv, Hpaid. repeat (split; [first [done|congruence|by apply Hst]|]). congruence.
  - apply exit_update in Hf as (_ & Hp & _); [|done]. cbn in Hp. by rewrite (ao_pre _ Hj) in Hp.
Qed.

(** C14. A preimage is handed out for an HTLC without AMP data only if it opens the
    hash of the HTLC, and then the invoice of that hash is settled and has received
    at least its value in HTLCs that were not canceled, this one among them. *)
Theorem preimage_released_when_paid cfg unmarshals r now ctx sub p key height o r' :
  rtc (reg_step cfg unmarshals) (NewRegistry new_invoiceDB) r ->
  small ctx -> idb_num (rg_cdb r) + 2 < 2 ^ 32 -> cx_amp ctx = None ->
  NotifyExitHopHtlc cfg unmarshals now ctx sub r = (Ok (Some (HtlcSettle p key height o)), r') ->
  key = cx_circuitKey ctx /\ Sum256 p = cx_hash ctx /\
  exists n i hl, idb_hashes (rg_cdb r') !! cx_hash ctx = Some n /\ idb_invoices (rg_cdb r') !! n = Some i /\
    inv_State i = ContractSettled /\ ct_Value (Terms i) <= live (Htlcs i) /\ AmtPaid i = u64 (live (Htlcs i)) /\
    Htlcs i !! key = Some hl /\ ih_State hl = HtlcStateSettled /\ (o <> ResultReplayToSettled -> ih_Amt hl = cx_amtPaid ctx).
Proof.
  intros Hr Hsm Hroom Hamp Hrun. destruct (steps_ok _ _ _ _ Hr empty_ok) as [Hok _].
  unfold NotifyExitHopHtlc in Hrun.
  set (c := ctx <| cx_finalCltvRejectDelta := FinalCltvRejectDelta cfg |> <| cx_payerAddress := [] |>) in Hrun.
  assert (Hlast : exists r1, reg_ok r1 /\
    resolveExit cfg now (c <| cx_payerAddress := default [] (customRecord c PayerAddressType) |>) sub r1 =
      (Ok (Some (HtlcSettle p key height o)), r')).
  { assert (Hswap : forall r0, reg_ok r0 -> idb_num (rg_cdb r0) + 1 < 2 ^ 32 -> forall x r1,
      processAtomicSwap cfg unmarshals now c r0 = (x, r1) -> reg_ok r1) by (intros; by eapply (grows_swap cfg unmarshals now c)).
    destruct (_ && _); [|destruct (_ && _)].
    - apply jit_settle in Hrun as (r0 & H0 & Hrun). destruct (grows_amp cfg now c _ _ _ H0 Hok) as (Hok0 & _ & Hn0); [lia|].
      apply jit_settle in Hrun as (r1 & H1 & Hrun). exists r1. split; [|exact Hrun]. eapply Hswap; [exact Hok0|lia|exact H1].
    - apply jit_settle in Hrun as (r0 & H0 & Hrun). destruct (grows_keysend cfg now c _ _ _ H0 Hok) as (Hok0 & _ & Hn0); [lia|].
      apply jit_settle in Hrun as (r1 & H1 & Hrun). exists r1. split; [|exact Hrun]. eapply Hswap; [exact Hok0|lia|exact H1].
    - apply jit_settle in Hrun as (r1 & H1 & Hrun). exists r1. split; [|exact Hrun]. eapply Hswap; [exact Hok|lia|exact H1]. }
  clear Hrun. destruct Hlast as (r1 & Hok1 & Hrun). apply M_bind_Ok in Hrun as (res & r2 & Hlock & Hrun).
  assert (Hres : res = HtlcSettle p key height o /\ r' = r2).
  { destruct res as [| |k b t o']; [by injection Hrun|by injection Hrun as <- <- <- <- <-|].
    apply M_bind_Ok in Hrun as (? & ? & _ & Hrun). by injection Hrun. }
  destruct Hres as [-> ->]. apply exitLocked_inv in Hlock as (y & r3 & Hu & Hc & _ & Hy).
  destruct (Hy _ _ _ _ eq_refl) as [i ->]. apply on_cdb_inv in Hu as (z & d & Hu & -> & Hz & _). cbn in Hc. rewrite Hc.
  rewrite (proj1 (Hz _) eq_refl) in Hu. by apply exit_settles in Hu; [|apply Hok1|..].
Qed.

(** ** The asset of an HTLC *)
Definition no_asset (d : HtlcAcceptDesc) : HtlcAcceptDesc :=
  mkAcceptDesc (had_AcceptHeight d) (had_Amt d) 0 (had_MppTotalAmt d) (had_Expiry d) (had_CustomRecords d) (had_AMP d).

Definition strip (u : InvoiceUpdateDesc) : InvoiceUpdateDesc := u <| AddHtlcs ::= fmap no_asset |>.

Lemma strip_added u k : bool_decide (is_Some (AddHtlcs (strip u) !! k)) = bool_decide (is_Some (AddHtlcs u !! k)).
Proof. apply bool_decide_ext. cbn. by rewrite lookup_fmap, fmap_is_Some. Qed.

Lemma addHtlcs_strip now num amp adds s d :
  addHtlcs now num amp (prod_map id no_asset <$> adds) s d = addHtlcs now num amp adds s d.
Proof.
  revert s d. induction adds as [|[k a] adds IH]; intros s d; [done|]. rewrite fmap_cons. cbn [addHtlcs prod_map id fst snd].
  change (addHtlc now num amp k (no_asset a) s) with (addHtlc now num amp k a s).
  unfold mbind, M_bind. by destruct (addHtlc now num amp k a s d) as [[s'| |] d'].
Qed.

Lemma cancelHtlcs_strip now amp u st l s : cancelHtlcs now amp (strip u) st l s = cancelHtlcs now amp u st l s.
Proof.
  revert s. induction l as [|[k h] l IH]; intros s; [done|]. cbn [cancelHtlcs]. rewrite strip_added.
  change (CancelHtlcs (strip u)) with (CancelHtlcs u). destruct (negb _); [done|].
  apply res_bind_ext. intros _. apply res_bind_ext. intros h'. by apply res_bind_ext.
Qed.

Lemma alignHtlcs_strip now amp u id b l s acc : alignHtlcs now amp (strip u) id b l s acc = alignHtlcs now amp u id b l s acc.
Proof.
  revert s acc. induction l as [|[k h] l IH]; intros [[i settled] upd] acc; [done|]. cbn [alignHtlcs].
  apply res_bind_ext. intros h1. apply res_bind_ext. intros [b' h2]. apply res_bind_ext. intros s.
  unfold counts. rewrite strip_added. apply IH.
Qed.

(** The asset of an added HTLC is not kept. *)
Lemma applyUpdate_strip now num amp hash u i d : applyUpdate now num amp hash (strip u) i d = applyUpdate now num amp hash u i d.
Proof.
  unfold applyUpdate. apply M_bind_ext.
  { change (AddHtlcs (strip u)) with (no_asset <$> AddHtlcs u). by rewrite map_to_list_fmap, addHtlcs_strip. }
  intros s d1. apply M_bind_ext; [by rewrite cancelHtlcs_strip|]. intros [i2 upd] d2. apply M_bind_ext; [done|]. intros [] d3.
  apply M_bind_ext; [done|]. intros i3 d4. apply M_bind_ext; [by rewrite alignHtlcs_strip|]. by intros [[[i4 settled] upd4] amt] d5.
Qed.

Definition strip_res {R} (x : res inverr (option InvoiceUpdateDesc * R)) : res inverr (option InvoiceUpdateDesc * R) :=
  match x with Ok (u, y) => Ok (strip <$> u, y) | Err e => Err e | Panic => Panic end.

(** Callbacks that differ in the assets of added HTLCs have the same effect. *)
Lemma UpdateInvoice_strip {R} now ref hint (f g : Invoice -> res inverr (option InvoiceUpdateDesc * R)) d :
  (forall i, strip_res (f i) = strip_res (g i)) -> UpdateInvoice now ref hint f d = UpdateInvoice now ref hint g d.
Proof.
  intros Hfg. unfold UpdateInvoice, transaction.
  match goal with |- match ?m with _ => _ end = match ?m' with _ => _ end => assert (Hm : m = m'); [|by rewrite Hm] end.
  apply M_bind_ext; [done|]. intros d0 d1. apply M_bind_ext; [done|]. intros n d2. apply M_bind_ext; [done|]. intros i d3.
  specialize (Hfg (copyInvoice i)). unfold strip_res in Hfg. unfold mbind, M_bind, lift.
  destruct (f (copyInvoice i)) as [[u x]|e|], (g (copyInvoice i)) as [[v y]|e'|]; try done; [|by injection Hfg as ->].
  injection Hfg as Huv ->. destruct u as [u|], v as [v|]; try done. apply (inj Some) in Huv.
  assert (Happ : forall num amp hash, applyUpdate now num amp hash u i d3 = applyUpdate now num amp hash v i d3); [|by rewrite Happ].
  intros num amp hash. rewrite <- (applyUpdate_strip _ _ _ _ u), <- (applyUpdate_strip _ _ _ _ v). by rewrite Huv.
Qed.

Lemma strip_addOne ctx ctx' d d' st x : cx_circuitKey ctx = cx_circuitKey ctx' -> no_asset d = no_asset d' ->
  strip_res (Ok (Some (addOne ctx d st), x : HtlcResolution)) = strip_res (Ok (Some (addOne ctx' d' st), x)).
Proof.
  intros Hk Hd. unfold strip_res. cbn [fmap option_fmap option_map]. do 3 f_equal. unfold addOne.
  change (mkUpdateDesc st ∅ (no_asset <$> {[cx_circuitKey ctx := d]}) None [] =
          mkUpdateDesc st ∅ (no_asset <$> {[cx_circuitKey ctx' := d']}) None []).
  by rewrite !map_fmap_singleton, Hk, Hd.
Qed.

Lemma updateMpp_asset ctx a mpp i : strip_res (updateMpp (ctx <| cx_assetId := a |>) mpp i) = strip_res (updateMpp ctx mpp i).
Proof.
  unfold updateMpp. change (ctx_setID (ctx <| cx_assetId := a |>)) with (ctx_setID ctx).
  change (tooSoon (ctx <| cx_assetId := a |>)) with (tooSoon ctx).
  change (reconstructAMPPreimages (ctx <| cx_assetId := a |>)) with (reconstructAMPPreimages ctx). cbn -[RequiresFeature].
  repeat match goal with |- strip_res (if ?b then _ else _) = _ => destruct b; [done|] end.
  destruct (setTotal _ _ _); [|done].
  repeat match goal with |- strip_res (if ?b then _ else _) = _ => destruct b; [done|] end.
  repeat match goal with |- strip_res (if ?b then _ else _) = _ => destruct b; [by apply strip_addOne|] end.
  destruct (cx_amp ctx) as [amp|].
  - destruct (reconstructAMPPreimages _ _ _) as [[ps|]|e|]; cbn [mbind res_mbind res_bind]; [by apply strip_addOne..|done|done].
  - destruct (knownPreimage i) as [p|e|]; cbn [mbind res_mbind res_bind]; [by apply strip_addOne|done|done].
Qed.

Lemma exitCallback_asset ctx a i : strip_res (exitCallback (ctx <| cx_assetId := a |>) i) = strip_res (exitCallback ctx i).
Proof.
  assert (Hu : strip_res (updateInvoice (ctx <| cx_assetId := a |>) i) = strip_res (updateInvoice ctx i)).
  { unfold updateInvoice. change (cx_circuitKey (ctx <| cx_assetId := a |>)) with (cx_circuitKey ctx).
    change (cx_mpp (ctx <| cx_assetId := a |>)) with (cx_mpp ctx).
    destruct (Htlcs i !! _); [done|]. destruct (cx_mpp ctx) as [mpp|]; [apply updateMpp_asset|done]. }
  unfold exitCallback. change (cx_payerAddress (ctx <| cx_assetId := a |>)) with (cx_payerAddress ctx).
  destruct (updateInvoice (ctx <| cx_assetId := a |>) i) as [[u x]|e|], (updateInvoice ctx i) as [[v y]|e'|]; try done.
  injection Hu as Huv ->. cbn. destruct (cx_payerAddress ctx); [by rewrite Huv|].
  destruct u as [u|], v as [v|]; try done. apply (inj Some) in Huv. cbn. do 3 f_equal.
  change (strip u <| ud_PayerAddress := b :: l |> = strip v <| ud_PayerAddress := b :: l |>). by rewrite Huv.
Qed.

(** The asset of an HTLC does not matter: without a keysend or atomic swap
    record, an HTLC in any asset has the same effect and gets the same answer.  An
    invoice in one asset is settled by an HTLC of as many units of any other. *)
Theorem asset_never_checked cfg unmarshals now ctx sub r a :
  customRecord ctx KeySendType = None -> customRecord ctx ASType = None ->
  NotifyExitHopHtlc cfg unmarshals now (ctx <| cx_assetId := a |>) sub r = NotifyExitHopHtlc cfg unmarshals now ctx sub r.
Proof.
  intros Hk Hs.
  assert (Hres : forall c r, resolveExit cfg now (c <| cx_assetId := a |>) sub r = resolveExit cfg now c sub r).
  { intros c r0. apply M_bind_ext; [|done]. unfold notifyExitHopHtlcLocked.
    assert (Hu : on_cdb (UpdateInvoice now (invoiceRef (c <| cx_assetId := a |>)) (ctx_setID (c <| cx_assetId := a |>)) (exitCallback (c <| cx_assetId := a |>))) r0 =
      on_cdb (UpdateInvoice now (invoiceRef c) (ctx_setID c) (exitCallback c)) r0); [|by rewrite Hu].
    unfold on_cdb. by rewrite (UpdateInvoice_strip _ _ _ _ (exitCallback c) _ (exitCallback_asset c a)). }
  unfold NotifyExitHopHtlc.
  set (c := ctx <| cx_finalCltvRejectDelta := FinalCltvRejectDelta cfg |> <| cx_payerAddress := [] |>).
  set (ca := ctx <| cx_assetId := a |> <| cx_finalCltvRejectDelta := FinalCltvRejectDelta cfg |> <| cx_payerAddress := [] |>).
  assert (Hc : ca = c <| cx_assetId := a |>) by done. clearbody ca.
  assert (Hkc : customRecord c KeySendType = None) by done. assert (Hsc : customRecord c ASType = None) by done. clearbody c. subst ca.
  cbv zeta. change (AcceptAMP cfg && negb (bool_decide (cx_amp (c <| cx_assetId := a |>) = None))) with
    (AcceptAMP cfg && negb (bool_decide (cx_amp c = None))).
  change (cx_amp (c <| cx_assetId := a |>)) with (cx_amp c).
  assert (Hsw : forall r, jit (c <| cx_assetId := a |>) ResultAtomicSwapError (processAtomicSwap cfg unmarshals now (c <| cx_assetId := a |>))
      (resolveExit cfg now (c <| cx_assetId := a |> <| cx_payerAddress := default [] (customRecord (c <| cx_assetId := a |>) PayerAddressType) |>) sub) r =
    jit c ResultAtomicSwapError (processAtomicSwap cfg unmarshals now c)
      (resolveExit cfg now (c <| cx_payerAddress := default [] (customRecord c PayerAddressType) |>) sub) r).
  { intros r0. unfold jit, processAtomicSwap. change (customRecord (c <| cx_assetId := a |>)) with (customRecord c). rewrite Hsc. unfold mret, M_ret.
    generalize (default [] (customRecord c PayerAddressType)). intros p. rewrite <- (Hres (c <| cx_payerAddress := p |>)).
    assert (Hset : c <| cx_assetId := a |> <| cx_payerAddress := p |> = c <| cx_payerAddress := p |> <| cx_assetId := a |>) by reflexivity.
    by rewrite Hset. }
  destruct (AcceptAMP cfg && _); [|destruct (AcceptKeySend cfg && _); [|apply Hsw]].
  - unfold jit at 1 3. change (processAMP cfg now (c <| cx_assetId := a |>)) with (processAMP cfg now c).
    destruct (processAMP cfg now c r) as [[[]|e|] r1]; [apply Hsw|done..].
  - unfold jit at 1 3, processKeySend. change (customRecord (c <| cx_assetId := a |>)) with (customRecord c). rewrite Hkc. apply Hsw.
Qed.

(** ** AMP invoices *)
Lemma fetch_amp d n i hint : idb_invoices d !! n = Some i -> amp_ok i -> Htlcs i = ∅ -> hint = zero32 ->
  fetchInvoice n (Some hint) d = Ok i.
Proof.
  intros Hi Ha Hh ->. unfold fetchInvoice. rewrite Hi, (ao_amp _ Ha), Hh. cbn [negb].
  by rewrite (bool_decide_true (∅ = ∅)), (bool_decide_true (Some zero32 = Some BlankPayAddr)).
Qed.

Lemma UpdateInvoice_callback {R} now ref hint (f : Invoice -> res inverr (option InvoiceUpdateDesc * R)) d n i :
  fetchInvoiceNumByRef ref d = Ok n -> fetchInvoice n (Some (default zero32 hint)) d = Ok i ->
  (f (copyInvoice i) = Panic -> UpdateInvoice now ref hint f d = (Panic, d)) /\
  (forall e, f (copyInvoice i) = Err e -> UpdateInvoice now ref hint f d = (Err e, d)).
Proof.
  intros Hn Hi. unfold UpdateInvoice, transaction, mbind, M_bind, get, lift. rewrite Hn, Hi.
  split; [intros ->|intros e ->]; done.
Qed.

Lemma set_cdb_same r : r <| rg_cdb := rg_cdb r |> = r.
Proof. by destruct r. Qed.

(** An HTLC without MPP payload that pays the hash an AMP invoice is stored
    under, and passes the checks of amount, payment address and expiry, crashes the
    node: the settlement dereferences the preimage, and AMP invoices have none. *)
Theorem legacy_htlc_crashes_amp cfg unmarshals now ctx sub r n i :
  idb_hashes (rg_cdb r) !! cx_hash ctx = Some n -> idb_invoices (rg_cdb r) !! n = Some i ->
  amp_ok i -> Htlcs i = ∅ -> inv_State i = ContractOpen -> HodlInvoice i = false ->
  cx_mpp ctx = None -> cx_amp ctx = None -> customRecord ctx KeySendType = None -> customRecord ctx ASType = None ->
  RequiresFeature (ct_Features (Terms i)) PaymentAddrRequired = false -> ct_Value (Terms i) <= cx_amtPaid ctx ->
  tooSoon (ctx <| cx_finalCltvRejectDelta := FinalCltvRejectDelta cfg |>) i = false ->
  NotifyExitHopHtlc cfg unmarshals now ctx sub r = (Panic, r).
Proof.
  intros Hh Hi Ha Hnone Hopen Hhodl Hmpp Hamp Hks Has Hreq Hval Hsoon.
  assert (Hres : forall a, resolveExit cfg now (ctx <| cx_finalCltvRejectDelta := FinalCltvRejectDelta cfg |> <| cx_payerAddress := [] |>
      <| cx_payerAddress := a |>) sub r = (Panic, r)).
  { intros a. unfold resolveExit, notifyExitHopHtlcLocked, mbind, M_bind, on_cdb.
    set (c := ctx <| cx_finalCltvRejectDelta := FinalCltvRejectDelta cfg |> <| cx_payerAddress := [] |> <| cx_payerAddress := a |>).
    assert (Hup : UpdateInvoice now (invoiceRef c) (ctx_setID c) (exitCallback c) (rg_cdb r) = (Panic, rg_cdb r)).
    { destruct (UpdateInvoice_callback now (invoiceRef c) (ctx_setID c) (exitCallback c) (rg_cdb r) n i) as [Hp _].
      - unfold invoiceRef. change (cx_amp c) with (cx_amp ctx). change (cx_mpp c) with (cx_mpp ctx). rewrite Hamp, Hmpp.
        unfold fetchInvoiceNumByRef. cbn [ref_setID ref_payHash ref_payAddr InvoiceRefByHash mbind option_bind].
        change (cx_hash c) with (cx_hash ctx). by rewrite Hh.
      - unfold ctx_setID. change (cx_amp c) with (cx_amp ctx). rewrite Hamp. by apply fetch_amp.
      - apply Hp. unfold exitCallback, updateInvoice. change (cx_mpp c) with (cx_mpp ctx). change (Htlcs (copyInvoice i)) with (Htlcs i).
        rewrite Hnone, lookup_empty, Hmpp. unfold updateLegacy. change (inv_State (copyInvoice i)) with (inv_State i).
        change (Terms (copyInvoice i)) with (Terms i). change (HodlInvoice (copyInvoice i)) with (HodlInvoice i).
        change (tooSoon c (copyInvoice i)) with (tooSoon (ctx <| cx_finalCltvRejectDelta := FinalCltvRejectDelta cfg |>) i).
        change (cx_amtPaid c) with (cx_amtPaid ctx). rewrite Hopen, Hsoon, Hhodl, Hreq, andb_false_r.
        rewrite (proj2 (Z.ltb_ge _ _) Hval). unfold HTLCSet. change (Htlcs (copyInvoice i)) with (Htlcs i).
        rewrite Hnone, map_filter_empty, map_to_list_empty. cbn [existsb fmap list_fmap].
        rewrite bool_decide_false by done. unfold knownPreimage. change (Terms (copyInvoice i)) with (Terms i). by rewrite (ao_pre _ Ha). }
    by rewrite Hup, set_cdb_same. }
  unfold NotifyExitHopHtlc. set (c := ctx <| cx_finalCltvRejectDelta := _ |> <| cx_payerAddress := [] |>) in *.
  assert (Hcr : customRecord c = customRecord ctx) by done. assert (Hca : cx_amp c = None) by done. clearbody c. cbv zeta.
  rewrite Hca, bool_decide_true, andb_false_r by done.
  assert (Hswap : jit c ResultAtomicSwapError (processAtomicSwap cfg unmarshals now c)
     (resolveExit cfg now (c <| cx_payerAddress := default [] (customRecord c PayerAddressType) |>) sub) r = (Panic, r)).
  { unfold jit, processAtomicSwap. rewrite Hcr, Has. apply Hres. }
  destruct (AcceptKeySend cfg && true); [|apply Hswap]. unfold jit at 1, processKeySend. rewrite Hcr, Hks. rewrite Hcr in Hswap. apply Hswap.
Qed.

(** The release of an HTLC of an incomplete AMP set fails, whenever it is tried:
    the callback looks for the HTLC in the AMP state, and the copy of the invoice it
    is given has none. *)
Theorem amp_htlc_never_released now ref key result r n i :
  fetchInvoiceNumByRef ref (rg_cdb r) = Ok n -> idb_invoices (rg_cdb r) !! n = Some i ->
  amp_ok i -> Htlcs i = ∅ -> inv_State i = ContractOpen ->
  registry_cancelSingleHtlc now ref key result r = (Err (ErrInvoiceDB (ErrHtlcNotFound key)), r).
Proof.
  intros Hn Hi Ha Hh Hopen. unfold registry_cancelSingleHtlc, mbind, M_bind, on_cdb.
  destruct (UpdateInvoice_callback now ref None (cancelOne key) (rg_cdb r) n i Hn) as [_ Herr]; [by apply fetch_amp|].
  rewrite (Herr (ErrHtlcNotFound key)); [by rewrite set_cdb_same|].
  unfold cancelOne. change (inv_State (copyInvoice i)) with (inv_State i). change (Htlcs (copyInvoice i)) with (Htlcs i).
  rewrite Hopen, Hh, lookup_empty. change (AMPState (copyInvoice i)) with (∅ : gmap SetID InvoiceStateAMP).
  by rewrite map_to_list_empty.
Qed.

(** ** Held invoices *)
Lemma align_total now update invoice upd st l acc :
  inv_State invoice = st -> (forall k h, (k, h) ∈ l -> may_align now st h) ->
  exists r, alignHtlcs now false update None false l (invoice, ∅, upd) acc = Ok r.
Proof.
  revert invoice acc. induction l as [|[k h] l IH]; intros invoice acc Hst Hl; [by eexists|].
  destruct (Hl k h) as (b & h' & Hu); [by left|]. cbn [alignHtlcs setPreimage]. cbn [mbind res_mbind res_bind].
  rewrite Hst, Hu. cbn [mbind res_mbind res_bind]. rewrite andb_false_r. cbn [mbind res_mbind res_bind].
  apply IH; [exact Hst|]. intros k2 h2 Hin. apply (Hl k2 h2). by right.
Qed.

Lemma settled_may_align now h : may_align now ContractSettled h.
Proof.
  unfold may_align, updateHtlc, trySettle, IsInHTLCSet. destruct (negb _); [by do 2 eexists|].
  destruct (ih_AMP h); cbn; by do 2 eexists.
Qed.

Definition settle_desc (p : bytes) : InvoiceUpdateDesc := mkUpdateDesc (Some (mkStateUpdate ContractSettled (Some p) ∅ None)) ∅ ∅ None [].

(** Settling an accepted invoice that holds an HTLC succeeds. *)
Lemma settle_applies now n h i p d : invoice_ok h i -> inv_State i = ContractAccepted -> Sum256 p = h -> p <> unknownPreimage ->
  HTLCSet i None HtlcStateAccepted <> ∅ ->
  exists i' d', applyUpdate now n false (Some h) (settle_desc p) i d = (Ok i', d') /\ Htlcs i' = align now ContractSettled <$> Htlcs i.
Proof.
  intros Hok Hacc Hp Hz Hset. unfold applyUpdate.
  rewrite (M_bind_run _ _ d (i, ∅) d) by (cbn; by rewrite map_to_list_empty).
  rewrite (M_bind_run _ _ d (i, ∅) d) by (unfold lift; by rewrite cancel_none).
  rewrite (M_bind_run _ _ d tt d) by (apply check_Ok; split; [|done]; cbn; by rewrite bool_decide_true by set_solver).
  set (i1 := i <| Terms ::= fun t => t <| PaymentPreimage := Some p |> |> <| inv_State := ContractSettled |>).
  assert (Hchg : exists d1 idx, changeState now n false (Some h) (settle_desc p) i d = (Ok (i1 <| SettleDate := now |> <| SettleIndex := idx |>), d1)).
  { unfold changeState. cbn [ud_State settle_desc].
    assert (Hrun : updateInvoiceState i (Some h) (mkStateUpdate ContractSettled (Some p) ∅ None) =
      Ok (ContractSettled, i <| Terms ::= fun t => t <| PaymentPreimage := Some p |> |>)).
    { unfold updateInvoiceState. cbn [NewState su_SetID su_Preimage]. rewrite Hacc.
      rewrite !(bool_decide_false (ContractSettled = _)), andb_false_r by done. cbn [guard_err mbind res_mbind res_bind].
      rewrite (bool_decide_false (HTLCSet i None HtlcStateAccepted = ∅)) by done. cbn [guard_err mbind res_mbind res_bind].
      by rewrite (bool_decide_true (Sum256 p = h)). }
    do 2 eexists. unfold lift, mbind, M_bind. rewrite Hrun. reflexivity. }
  destruct Hchg as (d1 & idx & Hchg). rewrite (M_bind_run _ _ _ _ _ Hchg).
  set (i2 := i1 <| SettleDate := now |> <| SettleIndex := idx |>).
  destruct (align_total now (settle_desc p) i2 ∅ ContractSettled (map_to_list (Htlcs i2)) 0 eq_refl) as [r Hr];
    [intros; apply settled_may_align|].
  assert (Hlift : (lift (alignHtlcs now false (settle_desc p) None false (map_to_list (Htlcs i2)) (i2, ∅, ∅) 0) : IDB _) d1 = (Ok r, d1))
    by (unfold lift; by rewrite Hr).
  cbn [ud_State settle_desc su_SetID HTLCPreimages]. rewrite (bool_decide_true (∅ = ∅)) by done. cbn [negb].
  rewrite (M_bind_run _ _ _ _ _ Hlift). apply align_map in Hr as [_ ->]. rewrite elements_empty. cbn [settleSets].
  cbn [ud_PayerAddress settle_desc]. set (i3 := _ <| AmtPaid ::= _ |>).
  assert (Hst : exists st, storedInvoice i3 = Ok st).
  { unfold storedInvoice. change (PaymentPreimage (Terms i3)) with (Some p). rewrite bool_decide_false by congruence. by eexists. }
  destruct Hst as [st Hst]. assert (Hh3 : Htlcs i3 = align now ContractSettled <$> Htlcs i) by done. clearbody i3. unfold mret, M_ret, mbind, M_bind, storeInvoice, mbind, M_bind, lift. rewrite Hst. do 2 eexists. by split.
Qed.

Lemma notifyAll_cons res rs r : snd (notifyAll (res :: rs) r) = snd (notifyAll rs (snd (notifyHodlSubscribers res r))).
Proof. done. Qed.

Lemma notifyAll_mono rs r :
  (forall m : Z * HtlcResolution, m ∈ rg_outbox r -> m ∈ rg_outbox (snd (notifyAll rs r))) /\
  (forall k : CircuitKey, hodlSubscriptions r !! k = None -> hodlSubscriptions (snd (notifyAll rs r)) !! k = None).
Proof.
  revert r. induction rs as [|res rs IH]; intros r; [done|]. rewrite notifyAll_cons.
  unfold notifyHodlSubscribers, modify. cbn [snd]. destruct (hodlSubscriptions r !! res_key res) as [subs|] eqn:Hs; [|apply IH].
  match goal with |- context [notifyAll rs ?r1] => destruct (IH r1) as [Ho Hd] end. split.
  - intros m Hm. apply Ho. cbn. apply elem_of_app. by left.
  - intros k Hk. apply Hd. cbn. apply lookup_delete_None. by right.
Qed.

(** Every subscriber of a resolution's HTLC is sent it. *)
Lemma notifyAll_sends rs r : NoDup (res_key <$> rs) -> forall res subs sub, res ∈ rs ->
  hodlSubscriptions r !! res_key res = Some subs -> sub ∈ subs ->
  (sub, res) ∈ rg_outbox (snd (notifyAll rs r)) /\ hodlSubscriptions (snd (notifyAll rs r)) !! res_key res = None.
Proof.
  revert r. induction rs as [|r0 rs IH]; intros r Hnd res subs sub Hin Hs Hsub; [by apply not_elem_of_nil in Hin|].
  rewrite fmap_cons in Hnd. apply list.NoDup_cons in Hnd as [Hk Hnd]. rewrite notifyAll_cons.
  unfold notifyHodlSubscribers, modify. cbn [snd]. apply elem_of_cons in Hin as [->|Hin].
  - rewrite Hs. split; apply notifyAll_mono; cbn; [|apply lookup_delete_eq].
    apply elem_of_app. right. apply list_elem_of_fmap. exists sub. split; [done|]. by apply elem_of_elements.
  - assert (Hne : res_key r0 <> res_key res) by (intros Heq; apply Hk; rewrite Heq; by apply list_elem_of_fmap_2).
    apply (IH _ Hnd res subs sub Hin); [|done]. destruct (hodlSubscriptions r !! res_key r0); [|done]. cbn. by rewrite lookup_delete_ne.
Qed.

Lemma with_state_keys st (f : CircuitKey -> InvoiceHTLC -> HtlcResolution) i : (forall k h, res_key (f k h) = k) ->
  NoDup (res_key <$> with_state st f i).
Proof.
  intros Hf. unfold with_state. pose proof (NoDup_fst_map_to_list (Htlcs i)) as Hnd. revert Hnd.
  induction (map_to_list (Htlcs i)) as [|[k h] l IH]; cbn; [constructor|]. intros [Hk Hnd]%list.NoDup_cons.
  case_bool_decide; [|by apply IH]. cbn. rewrite Hf. constructor; [|by apply IH].
  intros (m & -> & ([k' h'] & Hin & Hm)%list_elem_of_omap)%list_elem_of_fmap. cbn in Hm. case_bool_decide; [|done].
  injection Hm as <-. rewrite Hf in Hk. apply Hk. by apply (list_elem_of_fmap_2 fst l (k', h')).
Qed.

(** C36. Settling a held invoice with the preimage of its hash succeeds when it holds
    an HTLC: the invoice is settled, and every link or resolver that waits for one of
    its accepted HTLCs is sent the preimage, and waits no longer. *)
Theorem settle_answers_htlcs cfg unmarshals r now p n i k0 h0 :
  rtc (reg_step cfg unmarshals) (NewRegistry new_invoiceDB) r ->
  idb_hashes (rg_cdb r) !! Sum256 p = Some n -> idb_invoices (rg_cdb r) !! n = Some i -> invoiceIsAMP i = false ->
  inv_State i = ContractAccepted -> p <> unknownPreimage -> Htlcs i !! k0 = Some h0 -> ih_State h0 = HtlcStateAccepted ->
  exists r', SettleHodlInvoice now p r = (Ok tt, r') /\
    (exists i', idb_invoices (rg_cdb r') !! n = Some i' /\ inv_State i' = ContractSettled /\ PaymentPreimage (Terms i') = Some p) /\
    forall k h subs sub, Htlcs i !! k = Some h -> ih_State h = HtlcStateAccepted ->
      hodlSubscriptions r !! k = Some subs -> sub ∈ subs ->
      (exists height, (sub, HtlcSettle p k height ResultSettled) ∈ rg_outbox r') /\ hodlSubscriptions r' !! k = None.
Proof.
  intros Hr Hh Hi Hamp Hacc Hz Hk0 Hst0. destruct (steps_ok _ _ _ _ Hr empty_ok) as [[Hok _] _].
  assert (He := store_hash _ _ _ _ Hok Hh Hi). unfold entry_ok in He. rewrite Hamp in He.
  destruct (settle_applies now n (Sum256 p) i p (rg_cdb r) He Hacc eq_refl Hz) as (i' & d' & Happ & Hhtlcs).
  { intros Hempty. assert (Hin : HTLCSet i None HtlcStateAccepted !! k0 = Some h0).
    { apply map_lookup_filter_Some. split; [done|]. split; [done|]. by apply in_set_none, (io_noamp _ _ He k0). }
    by rewrite Hempty, lookup_empty in Hin. }
  assert (Hup : UpdateInvoice now (InvoiceRefByHash (Sum256 p)) None (settleHodl p) (rg_cdb r) = (Ok (i', tt), d')).
  { unfold UpdateInvoice, transaction, mbind, M_bind, get, lift.
    change (fetchInvoiceNumByRef (InvoiceRefByHash (Sum256 p)) (rg_cdb r)) with
      (match idb_hashes (rg_cdb r) !! Sum256 p with Some h => Ok h | None => Err ErrInvoiceNotFound end). rewrite Hh.
    unfold fetchInvoice. rewrite Hi, Hamp. cbn [negb]. unfold settleHodl. change (inv_State (copyInvoice i)) with (inv_State i).
    rewrite Hacc, Hamp. change (ref_payHash (InvoiceRefByHash (Sum256 p))) with (Some (Sum256 p)). fold (settle_desc p). by rewrite Happ. }
  destruct (apply_ok _ _ _ _ _ _ _ _ He (settleHodl_allowed p i _ tt ltac:(unfold settleHodl; by rewrite Hacc)) Happ)
    as (Hi' & _ & Hs & Hpre & _ & st & Hcore & _ & _ & Ei).
  set (msgs := with_state HtlcStateSettled (fun k h => HtlcSettle p k (i32 (ih_AcceptHeight h)) ResultSettled) i').
  exists (snd (notifyAll msgs (r <| rg_cdb := d' |>))).
  assert (Hdb : rg_cdb (snd (notifyAll msgs (r <| rg_cdb := d' |>))) = d').
  { destruct (notifyAll msgs _) as [a r2] eqn:Hn. apply notifyAll_same in Hn as (Hc & _). exact Hc. }
  split; [|split].
  - unfold SettleHodlInvoice, mbind, M_bind, on_cdb. rewrite Hup. cbn [fst]. fold msgs.
    destruct (notifyAll msgs _) as [a r2] eqn:Hn. apply notifyAll_same in Hn as (_ & _ & Ha). by subst a.
  - rewrite Hdb, Ei. exists st. rewrite lookup_insert_eq. destruct Hcore as (Es & _ & _ & Ep & _). split; [done|].
    split; [by rewrite Es, Hs|]. rewrite Ep. by apply Hpre.
  - intros k h subs sub Hk Hst Hsubs Hsub.
    assert (Hin : HtlcSettle p k (i32 (ih_AcceptHeight (align now ContractSettled h))) ResultSettled ∈ msgs).
    { apply list_elem_of_omap. exists (k, align now ContractSettled h). split; [apply elem_of_map_to_list; by rewrite Hhtlcs, lookup_fmap, Hk|].
      cbn. destruct (align_spec now ContractSettled h (io_noamp _ _ He k h Hk) (settled_may_align now h)) as (_ & _ & _ & Ha & _).
      rewrite Hst in Ha. by rewrite bool_decide_true. }
    destruct (notifyAll_sends msgs (r <| rg_cdb := d' |>)) with (res := HtlcSettle p k (i32 (ih_AcceptHeight (align now ContractSettled h))) ResultSettled)
      (subs := subs) (sub := sub) as [Hout Hgone]; auto.
    + by apply with_state_keys.
    + split; [by eexists|done].
Qed.

(** ** Runs *)
Definition ex_preimage : bytes := replicate 32 Byte.x01.
Definition ex_hash : bytes := Sum256 ex_preimage.
Definition ex_cfg : RegistryConfig := mkRegistryConfig 10 100 false true true true 0.
Definition ex_unmarshals (data : bytes) : bool := true.
Definition ex_key : CircuitKey := mkCircuitKey (mkSCID 1 2 3) 4.

(** An invoice for 1000 units of asset 7, paid by 1000 units of asset 8. *)
Definition ex_invoice : Invoice := fresh_invoice 5 7 40 0 1000 (Some ex_preimage) BlankPayAddr ∅ false.
Definition ex_ctx : invoiceUpdateCtx := mkCtx ex_hash ex_key 1000 8 200 100 0 (Some ∅) None None [].
Definition ex_r1 : InvoiceRegistry := snd (AddInvoice ex_invoice ex_hash (NewRegistry new_invoiceDB)).
Definition ex_run : res regerr (option HtlcResolution) * InvoiceRegistry := NotifyExitHopHtlc ex_cfg ex_unmarshals 6 ex_ctx 1 ex_r1.
Definition ex_i2 : Invoice := default ex_invoice (idb_invoices (rg_cdb (snd ex_run)) !! 0).

Lemma ex_small : small ex_ctx.
Proof. split; [by vm_compute|]. intros mpp. discriminate. Qed.

Lemma ex_added : rtc (reg_step ex_cfg ex_unmarshals) (NewRegistry new_invoiceDB) ex_r1.
Proof. apply rtc_once, step_add; [|by vm_compute]. split; [done|]. split; [done|]. intros H. by vm_compute in H. Qed.

Lemma ex_paid : rtc (reg_step ex_cfg ex_unmarshals) (NewRegistry new_invoiceDB) (snd ex_run).
Proof. eapply rtc_r; [apply ex_added|]. apply step_notify; [apply ex_small|by vm_compute]. Qed.

Lemma invoice_store_correct_witness :
  rtc (reg_step ex_cfg ex_unmarshals) (NewRegistry new_invoiceDB) (snd ex_run) /\
  exists i, idb_invoices (rg_cdb (snd ex_run)) !! 0 = Some i /\ invoice_ok ex_hash i /\ inv_State i = ContractSettled.
Proof.
  split; [apply ex_paid|].
  destruct (proj1 (invoice_store_correct ex_cfg ex_unmarshals (snd ex_run) ex_paid) ex_hash 0) as (i & Hi & _ & Hok);
    [vm_compute; reflexivity|].
  exists i. assert (i = ex_i2) as -> by (unfold ex_i2; by rewrite Hi). split; [exact Hi|].
  split; [apply Hok; vm_compute; reflexivity|vm_compute; reflexivity].
Defined.

Definition ex_r3 : InvoiceRegistry := snd (cancelInvoiceImpl ex_cfg 7 ex_hash true (snd ex_run)).

Lemma settled_invoice_stays_witness :
  reg_step ex_cfg ex_unmarshals (snd ex_run) ex_r3 /\
  exists i', idb_hashes (rg_cdb ex_r3) !! ex_hash = Some 0 /\ idb_invoices (rg_cdb ex_r3) !! 0 = Some i' /\
    inv_State i' = ContractSettled /\ PaymentPreimage (Terms i') = Some ex_preimage.
Proof.
  assert (Hstep : reg_step ex_cfg ex_unmarshals (snd ex_run) ex_r3) by (apply step_cancel; by vm_compute).
  split; [exact Hstep|].
  destruct (settled_invoice_stays ex_cfg ex_unmarshals (snd ex_run) ex_r3 ex_hash 0 ex_i2 ex_paid (rtc_once _ _ Hstep))
    as (i' & Hh & Hi & Hs & Hp & _); [vm_compute; reflexivity..|].
  exists i'. split; [exact Hh|]. split; [exact Hi|]. split; [exact Hs|]. rewrite Hp. vm_compute. reflexivity.
Defined.

Lemma preimage_released_when_paid_witness :
  fst ex_run = Ok (Some (HtlcSettle ex_preimage ex_key 100 ResultSettled)) /\
  exists n i hl, idb_hashes (rg_cdb (snd ex_run)) !! ex_hash = Some n /\ idb_invoices (rg_cdb (snd ex_run)) !! n = Some i /\
    inv_State i = ContractSettled /\ Htlcs i !! ex_key = Some hl /\ ih_Amt hl = 1000.
Proof.
  assert (Hrun : fst ex_run = Ok (Some (HtlcSettle ex_preimage ex_key 100 ResultSettled))) by (vm_compute; reflexivity).
  split; [exact Hrun|].
  destruct (preimage_released_when_paid ex_cfg ex_unmarshals ex_r1 6 ex_ctx 1 ex_preimage ex_key 100 ResultSettled (snd ex_run) ex_added ex_small)
    as (_ & _ & n & i & hl & Hh & Hi & Hs & _ & _ & Hk & _ & Hamt).
  - vm_compute. reflexivity.
  - reflexivity.
  - fold ex_run. rewrite <- Hrun. apply surjective_pairing.
  - exists n, i, hl. split; [exact Hh|]. split; [exact Hi|]. split; [exact Hs|]. split; [exact Hk|]. by apply Hamt.
Defined.

(** Asset 8 instead of 7 makes no difference. *)
Lemma asset_never_checked_witness :
  (customRecord ex_ctx KeySendType = None /\ customRecord ex_ctx ASType = None) /\
  inv_AssetId ex_invoice = 7 /\ cx_assetId ex_ctx = 8 /\
  NotifyExitHopHtlc ex_cfg ex_unmarshals 6 (ex_ctx <| cx_assetId := 7 |>) 1 ex_r1 = ex_run.
Proof.
  assert (Hk : customRecord ex_ctx KeySendType = None) by reflexivity. assert (Ha : customRecord ex_ctx ASType = None) by reflexivity.
  split; [by split|]. split; [reflexivity|]. split; [reflexivity|].
  apply (asset_never_checked ex_cfg ex_unmarshals 6 ex_ctx 1 ex_r1 7 Hk Ha).
Defined.

(** The just-in-time invoice of an AMP payment. *)
Definition ex_amp : Invoice := fresh_invoice 5 0 10 0 1000 None [Byte.x02] amp_features false <| AddIndex := 1 |>.
Definition ex_amp_r : InvoiceRegistry := NewRegistry (mkInvoiceDB {[0 := ex_amp]} ∅ {[ex_hash := 0]} 1 {[[Byte.x02] := 0]} ∅ {[1 := 0]} 1 ∅ 0).

Lemma ex_amp_ok : amp_ok ex_amp.
Proof. split; [vm_compute; reflexivity|reflexivity|by left]. Qed.

Lemma legacy_htlc_crashes_amp_witness :
  idb_invoices (rg_cdb ex_amp_r) !! 0 = Some ex_amp /\
  NotifyExitHopHtlc ex_cfg ex_unmarshals 6 ex_ctx 1 ex_amp_r = (Panic, ex_amp_r).
Proof.
  split; [reflexivity|].
  apply (legacy_htlc_crashes_amp ex_cfg ex_unmarshals 6 ex_ctx 1 ex_amp_r 0 ex_amp);
    [vm_compute; reflexivity|reflexivity|apply ex_amp_ok|..|vm_compute; discriminate|]; vm_compute; reflexivity.
Defined.

Lemma amp_htlc_never_released_witness :
  fetchInvoiceNumByRef (InvoiceRefByAddr [Byte.x02]) (rg_cdb ex_amp_r) = Ok 0 /\
  registry_cancelSingleHtlc 6 (InvoiceRefByAddr [Byte.x02]) ex_key ResultMppTimeout ex_amp_r =
    (Err (ErrInvoiceDB (ErrHtlcNotFound ex_key)), ex_amp_r).
Proof.
  assert (Hn : fetchInvoiceNumByRef (InvoiceRefByAddr [Byte.x02]) (rg_cdb ex_amp_r) = Ok 0) by (vm_compute; reflexivity).
  split; [exact Hn|].
  by apply (amp_htlc_never_released 6 (InvoiceRefByAddr [Byte.x02]) ex_key ResultMppTimeout ex_amp_r 0 ex_amp Hn eq_refl ex_amp_ok).
Defined.

(** A held invoice, its payment accepted, settled by its owner. *)
Definition ex_hodl : Invoice := fresh_invoice 5 7 40 0 1000 None BlankPayAddr ∅ true.
Definition ex_h1 : InvoiceRegistry := snd (AddInvoice ex_hodl ex_hash (NewRegistry new_invoiceDB)).
Definition ex_h2 : InvoiceRegistry := snd (NotifyExitHopHtlc ex_cfg ex_unmarshals 6 ex_ctx 1 ex_h1).
Definition ex_h2_i : Invoice := default ex_hodl (idb_invoices (rg_cdb ex_h2) !! 0).
Definition ex_h2_htlc : InvoiceHTLC := mkInvoiceHTLC 1000 0 0 100 6 0 200 HtlcStateAccepted ∅ None.

Lemma ex_held : rtc (reg_step ex_cfg ex_unmarshals) (NewRegistry new_invoiceDB) ex_h2.
Proof.
  eapply rtc_r; [apply rtc_once, step_add; [|by vm_compute]|apply step_notify; [apply ex_small|by vm_compute]].
  split; [done|]. split; [done|]. intros H. by vm_compute in H.
Qed.

Lemma settle_answers_htlcs_witness :
  (inv_State ex_h2_i = ContractAccepted /\ hodlSubscriptions ex_h2 !! ex_key = Some {[1]}) /\
  exists r' height, SettleHodlInvoice 9 ex_preimage ex_h2 = (Ok tt, r') /\ (1, HtlcSettle ex_preimage ex_key height ResultSettled) ∈ rg_outbox r'.
Proof.
  assert (Hsub : hodlSubscriptions ex_h2 !! ex_key = Some {[1]}) by (vm_compute; reflexivity).
  assert (Hk : Htlcs ex_h2_i !! ex_key = Some ex_h2_htlc) by (vm_compute; reflexivity).
  split; [split; [vm_compute; reflexivity|exact Hsub]|].
  destruct (settle_answers_htlcs ex_cfg ex_unmarshals ex_h2 9 ex_preimage 0 ex_h2_i ex_key ex_h2_htlc ex_held) as (r' & Hrun & _ & Hall);
    [vm_compute; reflexivity..|vm_compute; discriminate|exact Hk|reflexivity|].
  destruct (Hall ex_key ex_h2_htlc {[1]} 1 Hk eq_refl Hsub) as ([height Hout] & _); [set_solver|].
  exists r', height. by split.
Defined.
