(* ===== verification/Commitment.v ===== *)
(** * Commitments ([lnwallet/commitment.go], [transactions.go], [channel.go])

    The in-memory [commitment], the construction of a commitment transaction
    from an HTLC view ([createUnsignedCommitmentTx], [CreateCommitTx],
    [addHTLC]), the state hint, the second-level HTLC transactions, the location
    of HTLC outputs ([populateHtlcIndexes]) and the conversion to the stored
    commitment. *)

From S2P Require Import Prelude Wire Messages ChanIds Units Sha256 Shachain Sig Tx OmniOp Keys Scripts FwdPkg UpdateLog ChanDB.

(** ** Errors of the channel state machine *)
Inductive chanerr : Type :=
| ErrScript (e : scripterr)
| ErrOp (e : operr)
| ErrDb (e : dberr)
| ErrSha (e : shaerr)
| ErrStateNumTooBig
| ErrNotOneInput
| ErrLocalOutputDust
| ErrRemoteOutputDust
| ErrTxSanity
| ErrOverCapacity
| ErrUnableToFindHtlc
| ErrCannotAffordCoopFee
| ErrNoWindow
| ErrMaxWeightCost
| ErrMaxHTLCNumber
| ErrMaxPendingAmount
| ErrBelowChanReserve
| ErrBelowMinHTLC
| ErrInvalidHTLCAmt
| ErrInsufficientBalance
| ErrPredictAsset
| ErrCannotSyncCommitChains
| ErrInvalidLastCommitSecret
| ErrInvalidLocalUnrevokedCommitPoint
| ErrCommitSyncRemoteDataLoss
| ErrUnknownHtlcIndex (index : Z)
| ErrHtlcIndexAlreadyFailed (index : Z)
| ErrHtlcIndexAlreadySettled (index : Z)
| ErrInvalidSettlePreimage
| ErrHtlcIdMismatch
| ErrParentNotFound
| ErrParentHeightZero
| ErrEffectiveFeeRate
| ErrFeeRate
| ErrNotInitiator
| ErrIsInitiator
| ErrInvalidHtlcSig
| ErrInvalidCommitSig
| ErrHtlcSigsMissing
| ErrRevKeyMismatch
| ErrNextRevocationKey
| ErrUnknownUpdate
| ErrUnsignedRemoteUpdate (index : Z)
| ErrWireCodec (e : werr)
| ErrSigParse
| ErrSig (e : sigerr)
| ErrSigner
| ErrSigHash.

Definition of_script {A} (r : res scripterr A) : res chanerr A :=
  match r with Ok a => Ok a | Err e => Err (ErrScript e) | Panic => Panic end.
Definition of_op {A} (r : res operr A) : res chanerr A :=
  match r with Ok a => Ok a | Err e => Err (ErrOp e) | Panic => Panic end.
Definition of_sort {A} (r : res unit A) : res chanerr A :=
  match r with Ok a => Ok a | _ => Panic end.

(** What the construction uses of btcd: the consensus sanity check, the weight
    and the hash of a transaction. *)
Class TxLib : Type := {
  CheckTransactionSanity : MsgTx -> bool;
  GetTransactionWeight : MsgTx -> Z;
  TxHash : MsgTx -> bytes
}.

(** ** The state hint ([lnwallet/transactions.go]) *)
Definition StateHintSize : nat := 6.
Definition maxStateHint : Z := 2 ^ 48 - 1.
Definition TimelockShift : Z := 2 ^ 29.
Definition SequenceLockTimeDisabled : Z := 2 ^ 31.

Definition xorInt (obfuscator : bytes) : Z := be_get ([Byte.x00; Byte.x00] ++ obfuscator).

Definition SetStateNumHint (commitTx : MsgTx) (stateNum : Z) (obfuscator : bytes) : res chanerr MsgTx :=
  if maxStateHint <? stateNum then Err ErrStateNumTooBig
  else match TxIns commitTx with
       | [txin] =>
           let stateNum := Z.lxor stateNum (xorInt obfuscator) in
           Ok (mkMsgTx (Version commitTx)
             [mkTxIn (PreviousOutPoint txin) (SignatureScript txin) (Witness txin)
                (Z.lor (u32 (Z.shiftr stateNum 24)) SequenceLockTimeDisabled)]
             (TxOuts commitTx)
             (Z.lor (u32 (Z.land stateNum 0xFFFFFF)) TimelockShift))
       | _ => Err ErrNotOneInput
       end.

Definition GetStateNumHint (commitTx : MsgTx) (obfuscator : bytes) : res chanerr Z :=
  match TxIns commitTx with
  | [] => Panic
  | txin :: _ =>
      let stateNumXor := u64 (Z.shiftl (Z.land (Sequence txin) 0xFFFFFF) 24) in
      let stateNumXor := Z.lor stateNumXor (Z.land (LockTime commitTx) 0xFFFFFF) in
      Ok (Z.lxor stateNumXor (xorInt obfuscator))
  end.

(** ** The in-memory commitment ([lnwallet/channel.go])

    The HTLC slices hold copies of descriptors; the index maps point into them. *)
Record commitment := mkCommitment {
  c_height : Z;
  c_isOurs : bool;
  c_ourMessageIndex : Z;
  c_theirMessageIndex : Z;
  c_ourHtlcIndex : Z;
  c_theirHtlcIndex : Z;
  c_txn : MsgTx;
  c_sig : bytes;
  c_ourBtcBalance : Z;
  c_theirBtcBalance : Z;
  c_ourAssetBalance : Z;
  c_theirAssetBalance : Z;
  c_fee : Z;
  c_feePerKw : Z;
  c_dustLimit : Z;
  outgoingHTLCs : list PaymentDescriptor;
  incomingHTLCs : list PaymentDescriptor;
  outgoingHTLCIndex : gmap Z nat;
  incomingHTLCIndex : gmap Z nat
}.

#[export] Instance commitment_eta : Eta commitment := fun c =>
  mkCommitment (c_height c) (c_isOurs c) (c_ourMessageIndex c) (c_theirMessageIndex c)
    (c_ourHtlcIndex c) (c_theirHtlcIndex c) (c_txn c) (c_sig c) (c_ourBtcBalance c)
    (c_theirBtcBalance c) (c_ourAssetBalance c) (c_theirAssetBalance c) (c_fee c) (c_feePerKw c)
    (c_dustLimit c) (outgoingHTLCs c) (incomingHTLCs c) (outgoingHTLCIndex c) (incomingHTLCIndex c).

(** The outputs already given to an HTLC, by payment hash. *)
Abbreviation dupmap := (gmap bytes (list Z)).

Fixpoint locate_from (p : PaymentDescriptor) (pkScript : bytes) (dups : dupmap) (i : Z)
    (outs : list TxOut) (cltvs : list Z) : res chanerr (Z * dupmap) :=
  match outs, cltvs with
  | [], _ => Err ErrUnableToFindHtlc
  | _ :: _, [] => Panic
  | txOut :: outs, cltv :: cltvs =>
      let seen := default [] (dups !! pd_RHash p) in
      if bool_decide (PkScript txOut = pkScript) &&
         (Value txOut =? i64 (ToSatoshis (pd_BtcAmount p))) &&
         (cltv =? pd_Timeout p) && negb (bool_decide (swrap 32 i ∈ seen))
      then Ok (swrap 32 i, <[pd_RHash p := seen ++ [swrap 32 i]]> dups)
      else locate_from p pkScript dups (i + 1) outs cltvs
  end.

(** An output of value zero in front is the payload output, which has no expiry
    in [cltvs]. *)
Definition locateOutputIndex (p : PaymentDescriptor) (tx : MsgTx) (ourCommit : bool)
    (dups : dupmap) (cltvs : list Z) : res chanerr (Z * dupmap) :=
  let pkScript := if ourCommit then ourPkScript p else theirPkScript p in
  match TxOuts tx with
  | [] => Panic
  | first :: _ =>
      let cltvs := if Value first =? 0 then 0 :: cltvs else cltvs in
      locate_from p pkScript dups 0 (TxOuts tx) cltvs
  end.

(** The loop over one slice: locates each HTLC and, on our own commitment,
    indexes its position by the output. *)
Fixpoint populate (isOurs : bool) (tx : MsgTx) (cltvs : list Z) (pos : nat)
    (hs : list PaymentDescriptor) (dups : dupmap) (idx : gmap Z nat)
    : res chanerr (list PaymentDescriptor * dupmap * gmap Z nat) :=
  match hs with
  | [] => Ok ([], dups, idx)
  | h :: hs =>
      '(i, dups) ← locateOutputIndex h tx isOurs dups cltvs;
      let h := if isOurs then h <| localOutputIndex := i |> else h <| remoteOutputIndex := i |> in
      let idx := if isOurs then <[i := pos]> idx else idx in
      '(hs, dups, idx) ← populate isOurs tx cltvs (S pos) hs dups idx;
      mret (h :: hs, dups, idx)
  end.

Definition populateHtlcIndexes (c : commitment) (cltvs : list Z) : res chanerr commitment :=
  '(outs, dups, outIdx) ← populate (c_isOurs c) (c_txn c) cltvs 0 (outgoingHTLCs c) ∅ ∅;
  '(ins, _, inIdx) ← populate (c_isOurs c) (c_txn c) cltvs 0 (incomingHTLCs c) dups ∅;
  mret (c <| outgoingHTLCs := outs |> <| incomingHTLCs := ins |>
          <| outgoingHTLCIndex := outIdx |> <| incomingHTLCIndex := inIdx |>).

(** One HTLC of [toDiskCommit]; the struct literal names no [AssetId]. *)
Definition toDiskHtlc (ourCommit incoming : bool) (htlc : PaymentDescriptor) : HTLC :=
  mkHTLC (if ourCommit then pd_sig htlc else None) (pd_RHash htlc) 0 (pd_BtcAmount htlc)
    (pd_AssetAmount htlc) (pd_Timeout htlc)
    (if ourCommit then localOutputIndex htlc else remoteOutputIndex htlc)
    incoming (pd_OnionBlob htlc) (pd_HtlcIndex htlc) (pd_LogIndex htlc).

Definition toDiskCommit (c : commitment) (ourCommit : bool) : ChannelCommitment :=
  mkChannelCommitment (c_height c) (c_ourMessageIndex c) (c_ourHtlcIndex c) (c_theirMessageIndex c)
    (c_theirHtlcIndex c) (c_ourBtcBalance c) (c_theirBtcBalance c) (c_ourAssetBalance c)
    (c_theirAssetBalance c) (c_fee c) (c_feePerKw c) (c_txn c) (c_sig c)
    ((toDiskHtlc ourCommit false <$> outgoingHTLCs c) ++ (toDiskHtlc ourCommit true <$> incomingHTLCs c)).

(** ** HTLC views *)
Record htlcView := mkHtlcView {
  ourUpdates : list ptr;
  theirUpdates : list ptr;
  v_feePerKw : Z
}.

Section Construction.
Context `{CurveOps, !ScriptLib, !TxLib}.

Definition DeriveStateHintObfuscator (key1 key2 : PublicKey) : bytes :=
  drop 26 (Sum256 (SerializeCompressed key1 ++ SerializeCompressed key2)).

Definition createStateHintObfuscator (state : OpenChannel) : bytes :=
  if IsInitiator state then
    DeriveStateHintObfuscator (PaymentBasePoint (LocalChanCfg state))
      (PaymentBasePoint (RemoteChanCfg state))
  else
    DeriveStateHintObfuscator (PaymentBasePoint (RemoteChanCfg state))
      (PaymentBasePoint (LocalChanCfg state)).

Definition fundingTxIn (chanState : OpenChannel) : TxIn :=
  mkTxIn (FundingOutpoint chanState) [] [] 0xFFFFFFFF.

(** ** [CreateCommitTx] *)
Definition CreateCommitTx (chanType : Z) (fundingOutput : TxIn) (keyRing : CommitmentKeyRing)
    (localChanCfg remoteChanCfg : ChannelConfig) (btcAmountToLocal btcAmountToRemote : Z)
    (assetAmountToLocal assetAmountToRemote : Z) (numHTLCs : Z) (initiator : bool)
    (leaseExpiry : Z) (opAmounts : PksAmounts) (remoteShutdownScript : bytes)
    : res chanerr (MsgTx * PksAmounts) :=
  toLocalScript ← of_script (CommitScriptToSelf chanType initiator (ToLocalKey keyRing)
    (RevocationKey keyRing) (CsvDelay localChanCfg) leaseExpiry);
  let localOutput := DustLimit localChanCfg <=? btcAmountToLocal in
  _ ← guard_err (negb localOutput && (0 <? assetAmountToLocal)) ErrLocalOutputDust;
  let outs := if localOutput then [mkTxOut (i64 btcAmountToLocal) (si_PkScript toLocalScript)] else [] in
  let opAmounts := if localOutput
    then PksAmounts_Add opAmounts (si_PkScript toLocalScript) assetAmountToLocal else opAmounts in
  let remoteOutput := DustLimit localChanCfg <=? btcAmountToRemote in
  _ ← guard_err (negb remoteOutput && (0 <? assetAmountToRemote)) ErrRemoteOutputDust;
  let outs := if remoteOutput
    then outs ++ [mkTxOut (i64 btcAmountToRemote) remoteShutdownScript] else outs in
  let opAmounts := if remoteOutput
    then PksAmounts_Add opAmounts remoteShutdownScript assetAmountToRemote else opAmounts in
  mret (mkMsgTx 2 [fundingOutput] outs 0, opAmounts).

(** ** [addHTLC]: appends the output and records its script in the descriptor *)
Definition addHTLC (commitTx : MsgTx) (ourCommit isIncoming : bool) (paymentDesc : ptr)
    (keyRing : CommitmentKeyRing) (chanType : Z) (opAmounts : PksAmounts)
    : M heap chanerr (MsgTx * PksAmounts) :=
  pd ← gets (fun h => deref h paymentDesc);
  '(p2wsh, witnessScript) ← lift (of_script
    (genHtlcScript chanType isIncoming ourCommit (pd_Timeout pd) (pd_RHash pd) keyRing));
  let amountPending := i64 (ToSatoshis (pd_BtcAmount pd)) in
  let commitTx := set_TxOuts commitTx (TxOuts commitTx ++ [mkTxOut amountPending p2wsh]) in
  let opAmounts := PksAmounts_Add opAmounts p2wsh (pd_AssetAmount pd) in
  _ ← modify (fun h => write h paymentDesc (fun pd =>
    if ourCommit then pd <| ourPkScript := p2wsh |> <| ourWitnessScript := witnessScript |>
    else pd <| theirPkScript := p2wsh |> <| theirWitnessScript := witnessScript |>));
  mret (commitTx, opAmounts).

(** The HTLCs of one side that are not dust get an output and an expiry. *)
Definition htlc_is_dust (chanState : OpenChannel) (incoming isOurs : bool) (feePerKw : Z)
    (pd : PaymentDescriptor) : bool :=
  let dustLimit := if isOurs then DustLimit (LocalChanCfg chanState)
                   else DustLimit (RemoteChanCfg chanState) in
  HtlcIsDust (ChanType chanState) incoming isOurs feePerKw (ToSatoshis (pd_BtcAmount pd)) dustLimit
    (pd_AssetID pd).

Fixpoint addHTLCs (chanState : OpenChannel) (isOurs incoming : bool) (feePerKw : Z)
    (keyRing : CommitmentKeyRing) (ps : list ptr) (commitTx : MsgTx) (opAmounts : PksAmounts)
    (cltvs : list Z) : M heap chanerr (MsgTx * PksAmounts * list Z) :=
  match ps with
  | [] => mret (commitTx, opAmounts, cltvs)
  | p :: ps =>
      pd ← gets (fun h => deref h p);
      if htlc_is_dust chanState incoming isOurs feePerKw pd
      then addHTLCs chanState isOurs incoming feePerKw keyRing ps commitTx opAmounts cltvs
      else
        '(commitTx, opAmounts) ← addHTLC commitTx isOurs incoming p keyRing (ChanType chanState) opAmounts;
        addHTLCs chanState isOurs incoming feePerKw keyRing ps commitTx opAmounts
          (cltvs ++ [pd_Timeout pd])
  end.

Record unsignedCommitmentTx := mkUnsigned {
  u_txn : MsgTx;
  u_fee : Z;
  u_ourBtcBalance : Z;
  u_theirBtcBalance : Z;
  u_ourAssetBalance : Z;
  u_theirAssetBalance : Z;
  u_cltvs : list Z
}.

(** The BTC balances after the fee.  In an asset channel the party that did not
    open it gets a fixed amount and the other what is left of the capacity. *)
Definition asset_other_balance (otherAssetBalance : Z) : Z :=
  if 0 <? otherAssetBalance then NewMSatFromSatoshis (OmniGas + 1106 + 100) else 0.

Definition asset_initiator_balance (capacity other commitFeeMSat numHTLCs : Z) : Z :=
  let b := NewMSatFromSatoshis capacity in
  let b := u64 (b - other) in
  let b := u64 (b - commitFeeMSat) in
  let b := u64 (b - NewMSatFromSatoshis (i64 (i64 (OmniGas * 3) * numHTLCs))) in
  if b <? 0 then 0 else b.

Definition btc_balances (chanState : OpenChannel) (ourBtcBalance theirBtcBalance : Z)
    (ourAssetBalance theirAssetBalance commitFee numHTLCs : Z) : Z * Z :=
  let commitFeeMSat := NewMSatFromSatoshis commitFee in
  if BtcAssetId <? ChanAssetID chanState then
    if IsInitiator chanState then
      let their := asset_other_balance theirAssetBalance in
      (asset_initiator_balance (BtcCapacity chanState) their commitFeeMSat numHTLCs, their)
    else
      let our := asset_other_balance ourAssetBalance in
      (our, asset_initiator_balance (BtcCapacity chanState) our commitFeeMSat numHTLCs)
  else if IsInitiator chanState then
    if ToSatoshis ourBtcBalance <? commitFee then (0, theirBtcBalance)
    else (u64 (ourBtcBalance - commitFeeMSat), theirBtcBalance)
  else
    if ToSatoshis theirBtcBalance <? commitFee then (ourBtcBalance, 0)
    else (ourBtcBalance, u64 (theirBtcBalance - commitFeeMSat)).

Definition count_htlcs (chanState : OpenChannel) (isOurs : bool) (feePerKw : Z) (h : heap)
    (view : htlcView) : Z :=
  let kept incoming ps :=
    filter (fun p => htlc_is_dust chanState incoming isOurs feePerKw (deref h p) = false) ps in
  Z.of_nat (length (kept false (ourUpdates view)) + length (kept true (theirUpdates view))).

Definition commit_fee (chanType feePerKw numHTLCs : Z) : Z :=
  FeeForWeight feePerKw (CommitWeight chanType + HTLCWeight * numHTLCs).

(** Sums of [int64] values. *)
Definition total_out (outs : list TxOut) : Z := foldl (fun t o => i64 (t + Value o)) 0 outs.

(** The part after the HTLC outputs: hint, sort, payload output, checks. *)
Definition finish_commit_tx (chanState : OpenChannel) (obfuscator : bytes) (height commitFee : Z)
    (commitTx : MsgTx) (opAmounts : PksAmounts) (cltvs : list Z) : res chanerr (MsgTx * list Z) :=
  commitTx ← SetStateNumHint commitTx height obfuscator;
  '(commitTx, cltvs) ← of_sort (InPlaceCommitSort commitTx cltvs);
  commitTx ← of_op (AddOpReturnToTx commitTx opAmounts);
  _ ← guard_err (negb (CheckTransactionSanity commitTx)) ErrTxSanity;
  _ ← guard_err (BtcCapacity chanState <? i64 (total_out (TxOuts commitTx) + commitFee)) ErrOverCapacity;
  mret (commitTx, cltvs).

Definition base_commit_tx (chanState : OpenChannel) (isOurs : bool) (keyRing : CommitmentKeyRing)
    (ourBtc theirBtc ourAsset theirAsset numHTLCs : Z) : res chanerr (MsgTx * PksAmounts) :=
  let leaseExpiry := if HasLeaseExpiration (ChanType chanState) then ThawHeight chanState else 0 in
  let opAmounts := NewPksAmounts (ChanAssetID chanState) in
  if isOurs then
    CreateCommitTx (ChanType chanState) (fundingTxIn chanState) keyRing
      (LocalChanCfg chanState) (RemoteChanCfg chanState) (ToSatoshis ourBtc) (ToSatoshis theirBtc)
      ourAsset theirAsset numHTLCs (IsInitiator chanState) leaseExpiry opAmounts
      (RemoteShutdownScript chanState)
  else
    CreateCommitTx (ChanType chanState) (fundingTxIn chanState) keyRing
      (RemoteChanCfg chanState) (LocalChanCfg chanState) (ToSatoshis theirBtc) (ToSatoshis ourBtc)
      theirAsset ourAsset numHTLCs (negb (IsInitiator chanState)) leaseExpiry opAmounts
      (LocalShutdownScript chanState).

Definition createUnsignedCommitmentTx (chanState : OpenChannel) (obfuscator : bytes)
    (ourBtcBalance theirBtcBalance ourAssetBalance theirAssetBalance : Z) (isOurs : bool)
    (feePerKw height : Z) (filteredHTLCView : htlcView) (keyRing : CommitmentKeyRing)
    : M heap chanerr unsignedCommitmentTx :=
  numHTLCs ← gets (fun h => count_htlcs chanState isOurs feePerKw h filteredHTLCView);
  let commitFee := commit_fee (ChanType chanState) feePerKw numHTLCs in
  let '(ourBtcBalance, theirBtcBalance) := btc_balances chanState ourBtcBalance theirBtcBalance
    ourAssetBalance theirAssetBalance commitFee numHTLCs in
  '(commitTx, opAmounts) ← lift (base_commit_tx chanState isOurs keyRing ourBtcBalance theirBtcBalance
    ourAssetBalance theirAssetBalance numHTLCs);
  let cltvs := replicate (length (TxOuts commitTx)) 0 in
  '(commitTx, opAmounts, cltvs) ← addHTLCs chanState isOurs false feePerKw keyRing
    (ourUpdates filteredHTLCView) commitTx opAmounts cltvs;
  '(commitTx, opAmounts, cltvs) ← addHTLCs chanState isOurs true feePerKw keyRing
    (theirUpdates filteredHTLCView) commitTx opAmounts cltvs;
  '(commitTx, cltvs) ← lift (finish_commit_tx chanState obfuscator height commitFee commitTx opAmounts cltvs);
  mret (mkUnsigned commitTx commitFee ourBtcBalance theirBtcBalance ourAssetBalance theirAssetBalance cltvs).

(** ** [CoopCloseBalance] *)
Definition CoopCloseBalance (isInitiator : bool) (coopCloseFee : Z) (localCommit : ChannelCommitment)
    : res chanerr (Z * Z * Z * Z) :=
  let ourBalance := ToSatoshis (LocalBtcBalance localCommit) in
  let theirBalance := ToSatoshis (RemoteBtcBalance localCommit) in
  let initiatorDelta := i64 (CommitFee localCommit - coopCloseFee) in
  let ourBalance := if isInitiator then i64 (ourBalance + initiatorDelta) else ourBalance in
  let theirBalance := if isInitiator then theirBalance else i64 (theirBalance + initiatorDelta) in
  if (ourBalance <? 0) || (theirBalance <? 0) then Err ErrCannotAffordCoopFee
  else Ok (ourBalance, theirBalance, LocalAssetBalance localCommit, RemoteAssetBalance localCommit).

(** ** Second-level HTLC transactions ([lnwallet/transactions.go]) *)
Definition htlc_tx (lockTime : Z) (chanType : Z) (initiator : bool) (htlcOutput : OutPoint)
    (htlcBtcAmt htlcAssetAmt assetId csvDelay leaseExpiry : Z)
    (revocationKey delayKey : PublicKey) : res chanerr MsgTx :=
  let txin := mkTxIn htlcOutput [] [] (HtlcSecondLevelInputSequence chanType) in
  script ← of_script (SecondLevelHtlcScript chanType initiator revocationKey delayKey csvDelay leaseExpiry);
  let tx := mkMsgTx 2 [txin] [mkTxOut (i64 htlcBtcAmt) (si_PkScript script)] lockTime in
  of_op (AddOpReturnToTx tx (PksAmounts_Add (NewPksAmounts assetId) (si_PkScript script) htlcAssetAmt)).

Definition CreateHtlcSuccessTx (chanType : Z) (initiator : bool) (htlcOutput : OutPoint)
    (htlcBtcAmt htlcAssetAmt assetId csvDelay leaseExpiry : Z)
    (revocationKey delayKey : PublicKey) : res chanerr MsgTx :=
  htlc_tx 0 chanType initiator htlcOutput htlcBtcAmt htlcAssetAmt assetId csvDelay leaseExpiry
    revocationKey delayKey.

Definition CreateHtlcTimeoutTx (chanType : Z) (initiator : bool) (htlcOutput : OutPoint)
    (htlcBtcAmt htlcAssetAmt assetId cltvExpiry csvDelay leaseExpiry : Z)
    (revocationKey delayKey : PublicKey) : res chanerr MsgTx :=
  htlc_tx cltvExpiry chanType initiator htlcOutput htlcBtcAmt htlcAssetAmt assetId csvDelay leaseExpiry
    revocationKey delayKey.

End Construction.

(** ** The state hint *)
Lemma xorInt_range obf : length obf = StateHintSize -> is_uint 48 (xorInt obf).
Proof.
  intros Hl. unfold xorInt. cbn [app]. rewrite !be_get_cons0.
  pose proof (be_get_range obf) as H. by rewrite Hl in H.
Qed.

Lemma land_low24 a b : is_uint 24 a -> Z.land b 0xFFFFFF = 0 ->
  Z.land (Z.lor a b) 0xFFFFFF = a.
Proof.
  intros Ha Hb. rewrite Z.land_lor_distr_l, Hb, Z.lor_0_r, land_ones_mod.
  apply Z.mod_small, Ha.
Qed.

Lemma split_48 x : is_uint 48 x -> is_uint 24 (Z.shiftr x 24) /\ is_uint 24 (Z.land x 0xFFFFFF) /\
  Z.lor (Z.shiftl (Z.shiftr x 24) 24) (Z.land x 0xFFFFFF) = x.
Proof.
  intros Hx. rewrite land_ones_mod, Z.shiftr_div_pow2 by lia. unfold is_uint in *.
  pose proof (Z.mod_pos_bound x (2 ^ 24) ltac:(lia)).
  split; [split; [apply Z.div_pos; lia|apply Z.div_lt_upper_bound; lia]|].
  split; [lia|]. rewrite lor_shiftl_add by (unfold is_uint; lia).
  pose proof (Z.div_mod x (2 ^ 24)). lia.
Qed.

Lemma hint_roundtrip tx txin n obf : length obf = StateHintSize -> 0 <= n <= maxStateHint ->
  TxIns tx = [txin] ->
  exists tx', SetStateNumHint tx n obf = Ok tx' /\ TxOuts tx' = TxOuts tx /\ Version tx' = Version tx /\
    (exists txin', TxIns tx' = [txin'] /\ PreviousOutPoint txin' = PreviousOutPoint txin /\
       Z.testbit (Sequence txin') 31 = true) /\
    forall tx'', TxIns tx'' = TxIns tx' -> LockTime tx'' = LockTime tx' ->
      GetStateNumHint tx'' obf = Ok n.
Proof.
  intros Hobf Hn Hin. unfold SetStateNumHint, maxStateHint in *.
  destruct (Z.ltb_spec (2 ^ 48 - 1) n); [lia|]. rewrite Hin. eexists. split; [reflexivity|]. cbn [TxOuts Version].
  do 2 (split; [done|]). pose proof (xorInt_range obf Hobf) as Hk.
  set (x := Z.lxor n (xorInt obf)).
  assert (Hx : is_uint 48 x) by (apply lxor_range; [lia|unfold is_uint; lia|done]).
  destruct (split_48 x Hx) as (Hhi & Hlo & Heq).
  split.
  { eexists. split; [reflexivity|]. split; [done|]. cbn [Sequence].
    rewrite Z.lor_spec. change SequenceLockTimeDisabled with (2 ^ 31).
    rewrite Z.pow2_bits_true by lia. apply orb_true_r. }
  intros tx'' Hi Ht. unfold GetStateNumHint. rewrite Hi, Ht. cbn [TxIns LockTime Sequence]. f_equal.
  assert (H32 : forall z, is_uint 24 z -> is_uint 32 z) by (unfold is_uint; lia).
  rewrite !(uwrap_id 32) by auto. rewrite !land_low24 by done.
  rewrite uwrap_id by (rewrite Z.shiftl_mul_pow2 by lia; unfold is_uint in *; lia).
  rewrite Heq. unfold x. by rewrite Z.lxor_assoc, Z.lxor_nilpotent, Z.lxor_0_r.
Qed.

(** ** HTLC outputs as a function of the descriptors *)

(** The fields the construction reads. *)
Definition pd_same (a b : PaymentDescriptor) : Prop :=
  pd_RHash a = pd_RHash b /\ pd_Timeout a = pd_Timeout b /\ pd_BtcAmount a = pd_BtcAmount b /\
  pd_AssetAmount a = pd_AssetAmount b /\ pd_AssetID a = pd_AssetID b.

#[export] Instance pd_same_equiv : Equivalence pd_same.
Proof.
  split; unfold pd_same; [done|intros ?? (?&?&?&?&?); done|].
  intros ??? (?&?&?&?&?) (?&?&?&?&?). repeat split; congruence.
Qed.

Abbreviation entry := (TxOut * Z * Z)%type.

Section Build.
Context `{CurveOps, !ScriptLib, !TxLib}.

(** One HTLC: its output, its asset amount and its expiry. *)
Definition htlc_entry (cs : OpenChannel) (isOurs incoming : bool) (kr : CommitmentKeyRing)
    (pd : PaymentDescriptor) : res chanerr entry :=
  '(p2wsh, _) ← of_script (genHtlcScript (ChanType cs) incoming isOurs (pd_Timeout pd) (pd_RHash pd) kr);
  mret (mkTxOut (i64 (ToSatoshis (pd_BtcAmount pd))) p2wsh, pd_AssetAmount pd, pd_Timeout pd).

Fixpoint htlc_entries (cs : OpenChannel) (isOurs incoming : bool) (fee : Z) (kr : CommitmentKeyRing)
    (pds : list PaymentDescriptor) : res chanerr (list entry) :=
  match pds with
  | [] => Ok []
  | pd :: pds =>
      if htlc_is_dust cs incoming isOurs fee pd then htlc_entries cs isOurs incoming fee kr pds
      else e ← htlc_entry cs isOurs incoming kr pd;
           es ← htlc_entries cs isOurs incoming fee kr pds;
           mret (e :: es)
  end.

Definition add_entries (op : PksAmounts) (es : list entry) : PksAmounts :=
  foldl (fun op (e : entry) => PksAmounts_Add op (PkScript e.1.1) e.1.2) op es.

Lemma htlc_entries_same cs isOurs incoming fee kr l l' : Forall2 pd_same l l' ->
  htlc_entries cs isOurs incoming fee kr l = htlc_entries cs isOurs incoming fee kr l'.
Proof.
  induction 1 as [|a b l l' (E1 & E2 & E3 & E4 & E5) _ IH]; [done|]. cbn.
  unfold htlc_is_dust, htlc_entry. by rewrite E1, E2, E3, E4, E5, IH.
Qed.

(** Writing a descriptor's scripts keeps the fields the construction reads. *)
Definition heap_same (h h' : heap) : Prop := forall p, pd_same (deref h' p) (deref h p).

Lemma heap_same_write h p f : (forall pd, pd_same (f pd) pd) -> heap_same h (write h p f).
Proof.
  intros Hf q. unfold deref, write. destruct (decide (p = q)) as [->|Hne].
  - rewrite list_lookup_alter_eq. destruct (h !! q) as [x|]; [apply Hf|done].
  - by rewrite list_lookup_alter_ne.
Qed.

Lemma heap_same_Forall2 h h' ps : heap_same h h' -> Forall2 pd_same (deref h' <$> ps) (deref h <$> ps).
Proof. intros Hs. rewrite Forall2_fmap. apply Forall_Forall2_diag. apply list.Forall_forall. intros p _. apply Hs. Qed.

Lemma addHTLC_pure cs isOurs incoming kr p tx op h :
  exists h', heap_same h h' /\ addHTLC tx isOurs incoming p kr (ChanType cs) op h =
    (match htlc_entry cs isOurs incoming kr (deref h p) with
     | Ok e => Ok (set_TxOuts tx (TxOuts tx ++ [e.1.1]), PksAmounts_Add op (PkScript e.1.1) e.1.2)
     | Err x => Err x | Panic => Panic end, h').
Proof.
  unfold addHTLC, htlc_entry, mbind, M_bind, res_mbind, gets, lift, modify, mret, M_ret, res_ret.
  destruct (of_script _) as [[p2wsh ws]|x|]; cbn.
  - eexists. split; [|reflexivity]. apply heap_same_write. intros pd. by destruct isOurs.
  - exists h. split; [|done]. intros q. done.
  - exists h. split; [|done]. intros q. done.
Qed.

Lemma addHTLCs_pure cs isOurs incoming fee kr ps tx op cl h :
  exists h', heap_same h h' /\ addHTLCs cs isOurs incoming fee kr ps tx op cl h =
    (match htlc_entries cs isOurs incoming fee kr (deref h <$> ps) with
     | Ok es => Ok (set_TxOuts tx (TxOuts tx ++ (fst ∘ fst <$> es)), add_entries op es, cl ++ (snd <$> es))
     | Err x => Err x | Panic => Panic end, h').
Proof.
  revert tx op cl h. induction ps as [|p ps IH]; intros tx op cl h.
  { exists h. split; [intros q; done|]. cbn. rewrite !app_nil_r. by destruct tx. }
  cbn [addHTLCs fmap list_fmap htlc_entries]. unfold mbind at 1, M_bind at 1, gets.
  destruct (htlc_is_dust cs incoming isOurs fee (deref h p)); [apply IH|].
  destruct (addHTLC_pure cs isOurs incoming kr p tx op h) as (h1 & Hs1 & Hrun).
  unfold mbind at 1, M_bind at 1. rewrite Hrun. unfold mbind at 2, res_mbind at 2.
  destruct (htlc_entry cs isOurs incoming kr (deref h p)) as [e|x|] eqn:He; cbn [res_bind];
    [|by exists h1..].
  destruct (IH (set_TxOuts tx (TxOuts tx ++ [e.1.1])) (PksAmounts_Add op (PkScript e.1.1) e.1.2)
             (cl ++ [pd_Timeout (deref h p)]) h1) as (h' & Hs' & ->).
  exists h'. split; [intros q; etrans; [apply Hs'|apply Hs1]|].
  rewrite (htlc_entries_same _ _ _ _ _ _ _ (heap_same_Forall2 _ _ ps Hs1)).
  assert (Ht : e.2 = pd_Timeout (deref h p)).
  { unfold htlc_entry, mbind, res_mbind in He. destruct (of_script _) as [[? ?]| |]; cbn in He; try done.
    by injection He as <-. }
  unfold mbind, res_mbind.
  destruct (htlc_entries cs isOurs incoming fee kr (deref h <$> ps)) as [es|x|]; cbn; try done.
  unfold set_TxOuts; cbn. rewrite <- !app_assoc. cbn. by rewrite Ht.
Qed.
End Build.

(** ** The transaction as a function of its entries *)
Section Symmetry.
Context `{CurveOps, !ScriptLib, !TxLib}.

Definition asset_pairs (es : list entry) : list (bytes * Z) :=
  filter (fun pa => pa.2 <> 0) ((fun e : entry => (PkScript e.1.1, e.1.2)) <$> es).

Lemma add_entries_eq op es : add_entries op es =
  if (AssetID op =? 0) || (AssetID op =? BtcAssetId) then op
  else mkPksAmounts (AssetID op) (pksAmounts op ++ asset_pairs es).
Proof.
  revert op. induction es as [|[[o a] c] es IH]; intros op; cbn [add_entries foldl].
  { unfold asset_pairs. cbn. rewrite app_nil_r. destruct ((AssetID op =? 0) || (AssetID op =? BtcAssetId)); [done|]. by destruct op. }
  change (foldl _ ?x es) with (add_entries x es). rewrite IH. cbn. unfold PksAmounts_Add.
  destruct ((AssetID op =? 0) || (AssetID op =? BtcAssetId)) eqn:Hid; [by rewrite Hid|].
  unfold asset_pairs. cbn [fmap list_fmap fst snd filter list_filter]. 
  destruct (Z.eqb_spec a 0) as [->|Ha].
  - rewrite Hid. by rewrite decide_False by (intros E; by apply E).
  - cbn [AssetID pksAmounts]. rewrite Hid. rewrite decide_True by done. by rewrite <- app_assoc.
Qed.

Lemma add_entries_asset op es : AssetID (add_entries op es) = AssetID op.
Proof. rewrite add_entries_eq. by destruct ((AssetID op =? 0) || (AssetID op =? BtcAssetId)). Qed.

Lemma add_entries_app op es es' : add_entries op (es ++ es') = add_entries (add_entries op es) es'.
Proof. unfold add_entries. by rewrite foldl_app. Qed.

(** What the construction makes of the entries, in whatever order. *)
Definition build (cs : OpenChannel) (obf : bytes) (height commitFee : Z) (es : list entry)
    : res chanerr (MsgTx * list Z) :=
  finish_commit_tx cs obf height commitFee (mkMsgTx 2 [fundingTxIn cs] (fst ∘ fst <$> es) 0)
    (add_entries (NewPksAmounts (ChanAssetID cs)) es) (snd <$> es).

(** The two settled outputs as entries. *)
Definition commit_entries (chanType : Z) (kr : CommitmentKeyRing) (cfg : ChannelConfig)
    (btcLocal btcRemote assetLocal assetRemote : Z) (initiator : bool) (leaseExpiry : Z)
    (remoteScript : bytes) : res chanerr (list entry) :=
  s ← of_script (CommitScriptToSelf chanType initiator (ToLocalKey kr) (RevocationKey kr)
    (CsvDelay cfg) leaseExpiry);
  let l := DustLimit cfg <=? btcLocal in
  _ ← guard_err (negb l && (0 <? assetLocal)) ErrLocalOutputDust;
  let r := DustLimit cfg <=? btcRemote in
  _ ← guard_err (negb r && (0 <? assetRemote)) ErrRemoteOutputDust;
  mret ((if l then [(mkTxOut (i64 btcLocal) (si_PkScript s), assetLocal, 0)] else []) ++
        (if r then [(mkTxOut (i64 btcRemote) remoteScript, assetRemote, 0)] else [])).

Definition of_entries (cs : OpenChannel) (es : list entry) : MsgTx * PksAmounts :=
  (mkMsgTx 2 [fundingTxIn cs] (fst ∘ fst <$> es) 0,
   add_entries (NewPksAmounts (ChanAssetID cs)) es).

Lemma CreateCommitTx_entries cs ct kr cfgl cfgr al ar sl sr n ini le rs :
  CreateCommitTx ct (fundingTxIn cs) kr cfgl cfgr al ar sl sr n ini le
    (NewPksAmounts (ChanAssetID cs)) rs =
  (es ← commit_entries ct kr cfgl al ar sl sr ini le rs; mret (of_entries cs es)).
Proof.
  unfold CreateCommitTx, commit_entries, mbind, res_mbind.
  destruct (of_script _) as [s|e|]; cbn; [|done..].
  destruct (DustLimit cfgl <=? al); cbn.
  - destruct (DustLimit cfgl <=? ar); cbn; [done|]. by destruct (0 <? sr).
  - destruct (0 <? sl); cbn; [done|]. destruct (DustLimit cfgl <=? ar); cbn; [done|].
    by destruct (0 <? sr).
Qed.

Lemma commit_entries_cltvs ct kr cfg al ar sl sr ini le rs es :
  commit_entries ct kr cfg al ar sl sr ini le rs = Ok es ->
  replicate (length es) 0 = (snd <$> es).
Proof.
  unfold commit_entries. intros Hc. inv_ok Hc.
  by destruct (DustLimit cfg <=? al), (DustLimit cfg <=? ar);
    match goal with E : mret _ = Ok _ |- _ => injection E as <- end.
Qed.

(** From the point of view of whoever owns the commitment. *)
Definition base_entries (cs : OpenChannel) (isOurs : bool) (kr : CommitmentKeyRing)
    (ourBtc theirBtc ourAsset theirAsset : Z) : res chanerr (list entry) :=
  let leaseExpiry := if HasLeaseExpiration (ChanType cs) then ThawHeight cs else 0 in
  if isOurs then
    commit_entries (ChanType cs) kr (LocalChanCfg cs) (ToSatoshis ourBtc) (ToSatoshis theirBtc)
      ourAsset theirAsset (IsInitiator cs) leaseExpiry (RemoteShutdownScript cs)
  else
    commit_entries (ChanType cs) kr (RemoteChanCfg cs) (ToSatoshis theirBtc) (ToSatoshis ourBtc)
      theirAsset ourAsset (negb (IsInitiator cs)) leaseExpiry (LocalShutdownScript cs).

Lemma base_commit_tx_entries cs isOurs kr ob tb oa ta n :
  base_commit_tx cs isOurs kr ob tb oa ta n =
  (es ← base_entries cs isOurs kr ob tb oa ta; mret (of_entries cs es)).
Proof. unfold base_commit_tx, base_entries. destruct isOurs; apply CreateCommitTx_entries. Qed.

Lemma base_entries_cltvs cs isOurs kr ob tb oa ta es :
  base_entries cs isOurs kr ob tb oa ta = Ok es -> replicate (length es) 0 = (snd <$> es).
Proof. unfold base_entries. destruct isOurs; apply commit_entries_cltvs. Qed.

(** The whole construction without the heap. *)
Definition commit_spec (cs : OpenChannel) (obf : bytes) (ob tb oa ta : Z) (isOurs : bool)
    (fee height : Z) (n : Z) (ours theirs : list PaymentDescriptor) (kr : CommitmentKeyRing)
    : res chanerr unsignedCommitmentTx :=
  let cf := commit_fee (ChanType cs) fee n in
  let '(ob, tb) := btc_balances cs ob tb oa ta cf n in
  es ← base_entries cs isOurs kr ob tb oa ta;
  e1 ← htlc_entries cs isOurs false fee kr ours;
  e2 ← htlc_entries cs isOurs true fee kr theirs;
  '(tx, cl) ← build cs obf height cf (es ++ e1 ++ e2);
  mret (mkUnsigned tx cf ob tb oa ta cl).

Lemma createUnsigned_spec cs obf ob tb oa ta isOurs fee height v kr h :
  exists h', heap_same h h' /\
    createUnsignedCommitmentTx cs obf ob tb oa ta isOurs fee height v kr h =
    (commit_spec cs obf ob tb oa ta isOurs fee height (count_htlcs cs isOurs fee h v)
       (deref h <$> ourUpdates v) (deref h <$> theirUpdates v) kr, h').
Proof.
  assert (Hrefl : heap_same h h) by (intros q; done).
  unfold createUnsignedCommitmentTx, commit_spec. set (n := count_htlcs cs isOurs fee h v).
  rewrite (M_bind_run _ _ h n h) by reflexivity.
  set (cf := commit_fee (ChanType cs) fee n).
  destruct (btc_balances cs ob tb oa ta cf n) as [ob' tb'].
  unfold mbind at 1, M_bind at 1, lift at 1. rewrite base_commit_tx_entries.
  destruct (base_entries cs isOurs kr ob' tb' oa ta) as [es|x|] eqn:Hes; cbn; [|by exists h..].
  rewrite length_fmap, (base_entries_cltvs _ _ _ _ _ _ _ _ Hes).
  match goal with |- context [addHTLCs cs isOurs false fee kr _ ?t ?o ?c] =>
    destruct (addHTLCs_pure cs isOurs false fee kr (ourUpdates v) t o c h) as (h1 & Hs1 & E1) end.
  rewrite (M_bind_pair _ _ _ _ _ E1). clear E1.
  destruct (htlc_entries cs isOurs false fee kr (deref h <$> ourUpdates v)) as [e1|x|]; cbn; [|by exists h1..].
  match goal with |- context [addHTLCs cs isOurs true fee kr _ ?t ?o ?c] =>
    destruct (addHTLCs_pure cs isOurs true fee kr (theirUpdates v) t o c h1) as (h2 & Hs2 & E2) end.
  assert (Hs : heap_same h h2) by (intros q; etrans; [apply Hs2|apply Hs1]).
  rewrite (M_bind_pair _ _ _ _ _ E2). clear E2.
  rewrite (htlc_entries_same _ _ _ _ _ _ _ (heap_same_Forall2 _ _ (theirUpdates v) Hs1)).
  destruct (htlc_entries cs isOurs true fee kr (deref h <$> theirUpdates v)) as [e2|x|]; cbn; [|by exists h2..].
  exists h2. split; [done|]. unfold build. rewrite !add_entries_app, !fmap_app.
  unfold set_TxOuts, mbind, M_bind, lift. cbn. rewrite <- !app_assoc.
  by destruct (finish_commit_tx _ _ _ _ _ _ _) as [[tx cl]|x|].
Qed.

(** ** Both peers build the same commitment *)
Record mirrored (A B : OpenChannel) : Prop := {
  mi_type : ChanType A = ChanType B;
  mi_fund : FundingOutpoint A = FundingOutpoint B;
  mi_init : IsInitiator A = negb (IsInitiator B);
  mi_cap : BtcCapacity A = BtcCapacity B;
  mi_asset : ChanAssetID A = ChanAssetID B;
  mi_local : LocalChanCfg A = RemoteChanCfg B;
  mi_remote : RemoteChanCfg A = LocalChanCfg B;
  mi_lscript : LocalShutdownScript A = RemoteShutdownScript B;
  mi_rscript : RemoteShutdownScript A = LocalShutdownScript B;
  mi_thaw : ThawHeight A = ThawHeight B
}.

(** The HTLCs [ps] of one heap are those of the other, in the same order. *)
Definition same_htlcs (h h' : heap) (ps ps' : list ptr) : Prop :=
  Forall2 pd_same (deref h <$> ps) (deref h' <$> ps').

Lemma mirrored_obfuscator A B : mirrored A B ->
  createStateHintObfuscator A = createStateHintObfuscator B.
Proof.
  intros Hm. unfold createStateHintObfuscator. rewrite (mi_init _ _ Hm), (mi_local _ _ Hm), (mi_remote _ _ Hm).
  by destruct (IsInitiator B).
Qed.

Lemma HtlcIsDust_mirror ct incoming isOurs fee amt dust id :
  HtlcIsDust ct incoming isOurs fee amt dust id = HtlcIsDust ct (negb incoming) (negb isOurs) fee amt dust id.
Proof. unfold HtlcIsDust. by destruct incoming, isOurs. Qed.

Lemma dust_mirror A B incoming isOurs fee a b : mirrored A B -> pd_same a b ->
  htlc_is_dust A incoming isOurs fee a = htlc_is_dust B (negb incoming) (negb isOurs) fee b.
Proof.
  intros Hm (E1 & E2 & E3 & E4 & E5). unfold htlc_is_dust.
  rewrite HtlcIsDust_mirror, E3, E5, (mi_type _ _ Hm), (mi_local _ _ Hm), (mi_remote _ _ Hm).
  by destruct isOurs.
Qed.

Lemma entries_mirror A B incoming isOurs fee kA kB l l' : mirrored A B -> same_keys kA kB ->
  Forall2 pd_same l l' ->
  htlc_entries A isOurs incoming fee kA l = htlc_entries B (negb isOurs) (negb incoming) fee kB l'.
Proof.
  intros Hm Hk. induction 1 as [|a b l l' Hab _ IH]; [done|]. cbn.
  rewrite (dust_mirror A B incoming isOurs fee a b Hm Hab), IH.
  destruct Hab as (E1 & E2 & E3 & E4 & E5). unfold htlc_entry.
  by rewrite E1, E2, E3, E4, (mi_type _ _ Hm), (genHtlcScript_same _ _ _ _ _ kA kB Hk).
Qed.

Lemma kept_mirror A B hA hB incoming isOurs fee ps ps' : mirrored A B -> same_htlcs hA hB ps ps' ->
  length (filter (fun p => htlc_is_dust A incoming isOurs fee (deref hA p) = false) ps) =
  length (filter (fun p => htlc_is_dust B (negb incoming) (negb isOurs) fee (deref hB p) = false) ps').
Proof.
  intros Hm Hs. unfold same_htlcs in Hs. rewrite Forall2_fmap in Hs.
  induction Hs as [|p q ps ps' Hpq _ IH]; [done|]. rewrite !filter_cons.
  rewrite (dust_mirror A B incoming isOurs fee _ _ Hm Hpq). by case_decide; cbn; rewrite IH.
Qed.

Lemma balances_mirror A B ob tb oa ta cf n : mirrored A B ->
  btc_balances B tb ob ta oa cf n = let '(o, t) := btc_balances A ob tb oa ta cf n in (t, o).
Proof.
  intros Hm. unfold btc_balances. rewrite (mi_asset _ _ Hm), (mi_init _ _ Hm), (mi_cap _ _ Hm).
  destruct (BtcAssetId <? ChanAssetID B), (IsInitiator B); cbn; try done.
  - by destruct (ToSatoshis tb <? cf).
  - by destruct (ToSatoshis ob <? cf).
Qed.

Lemma base_mirror A B isOurs kA kB ob tb oa ta : mirrored A B -> same_keys kA kB ->
  base_entries B (negb isOurs) kB tb ob ta oa = base_entries A isOurs kA ob tb oa ta.
Proof.
  intros Hm (_ & _ & Hl & Hr & Hrev). unfold base_entries, commit_entries.
  rewrite Hl, Hrev, (mi_type _ _ Hm), (mi_init _ _ Hm), (mi_local _ _ Hm), (mi_remote _ _ Hm),
    (mi_lscript _ _ Hm), (mi_rscript _ _ Hm), (mi_thaw _ _ Hm).
  destruct isOurs; cbn; by rewrite ?negb_involutive.
Qed.

Lemma NoDup_filter_fst {X Y} (P : X * Y -> Prop) `{!forall x, Decision (P x)} l :
  NoDup l.*1 -> NoDup (filter P l).*1.
Proof.
  induction l as [|[x y] l IH]; [done|]. cbn [fmap list_fmap fst]. intros [Hn Hnd]%list.NoDup_cons.
  rewrite filter_cons. case_decide; [|by apply IH]. cbn. apply list.NoDup_cons. split; [|by apply IH].
  intros ([x' y'] & He & Hin)%list_elem_of_fmap. cbn in He. subst x'. apply list_elem_of_filter in Hin as [_ Hin].
  apply Hn. apply list_elem_of_fmap. by exists (x, y').
Qed.

Lemma fst_snd_zip (es : list entry) : zip (fst ∘ fst <$> es) (snd <$> es) = (fun e => (e.1.1, e.2)) <$> es.
Proof. induction es as [|[[o a] c] es IH]; [done|]. cbn. by rewrite IH. Qed.

(** Outputs with distinct scripts, or no assets: the order of the entries does
    not matter. *)
Lemma build_perm A B obf height cf es es' tx cl : mirrored A B -> es ≡ₚ es' ->
  build A obf height cf es = Ok (tx, cl) ->
  ChanAssetID A = BtcAssetId \/ NoDup (PkScript <$> TxOuts tx) /\ (length (TxOuts tx) < 255)%nat ->
  build B obf height cf es' = Ok (tx, cl).
Proof.
  intros Hm Hp. unfold build, finish_commit_tx. rewrite <- (mi_asset _ _ Hm), <- (mi_cap _ _ Hm).
  assert (Hf : fundingTxIn A = fundingTxIn B) by (unfold fundingTxIn; by rewrite (mi_fund _ _ Hm)).
  rewrite <- Hf. unfold SetStateNumHint. destruct (maxStateHint <? height); [done|].
  cbn [TxIns Version TxOuts]. rewrite !res_bind_Ok_l. unfold InPlaceCommitSort. cbn [TxIns Version TxOuts LockTime].
  rewrite !decide_False by (rewrite !length_fmap; intros E; by apply E).
  cbn [of_sort]. rewrite !res_bind_Ok_l, !fst_snd_zip.
  assert (Hsort : go_sort output_Less ((fun e : entry => (e.1.1, e.2)) <$> es) =
                  go_sort output_Less ((fun e : entry => (e.1.1, e.2)) <$> es')) by (apply zip_perm_sorted; by rewrite Hp).
  rewrite <- Hsort. set (outs := go_sort _ _). intros Hb Hcond.
  match type of Hb with (?m ≫= _) = _ => destruct m as [tx1|x|] eqn:Hop; [|done..] end.
  assert (Hop' : of_op (AddOpReturnToTx
    (mkMsgTx 2 (go_sort input_Less [mkTxIn (PreviousOutPoint (fundingTxIn A)) (SignatureScript (fundingTxIn A))
       (Witness (fundingTxIn A)) (Z.lor (u32 (Z.shiftr (Z.lxor height (xorInt obf)) 24)) SequenceLockTimeDisabled)])
       outs.*1 (Z.lor (u32 (Z.land (Z.lxor height (xorInt obf)) 16777215)) TimelockShift))
    (add_entries (NewPksAmounts (ChanAssetID A)) es')) = Ok tx1); [|by rewrite Hop'].
  rewrite !add_entries_eq in Hop |- *. cbn [AssetID NewPksAmounts pksAmounts app] in Hop |- *.
  destruct ((ChanAssetID A =? 0) || (ChanAssetID A =? BtcAssetId)) eqn:Hid; [exact Hop|].
  destruct Hcond as [Hbtc|[Hnd Hlen]]; [by rewrite Hbtc in Hid|].
  assert (Htx : tx1 = tx).
  { rewrite res_bind_Ok_l in Hb. unfold guard_err in Hb.
    destruct (negb _); [done|]. destruct (_ <? _); [done|]. by injection Hb. }
  subst tx1. unfold of_op in Hop |- *.
  match type of Hop with match ?m with _ => _ end = _ => destruct m as [tx1|x|] eqn:Hret; [|done..] end.
  injection Hop as ->.
  destruct (AddOpReturn_outs _ _ _ Hret) as (pre & Htxo).
  cbn [TxOuts] in Htxo. rewrite Htxo in Hnd, Hlen. rewrite fmap_app in Hnd. apply list.NoDup_app in Hnd as (_ & _ & Hnd).
  rewrite length_app in Hlen.
  erewrite AddOpReturn_perm; [reflexivity|..|exact Hret].
  - unfold asset_pairs. by rewrite Hp.
  - assert (Hall : NoDup ((fun e : entry => (PkScript e.1.1, e.1.2)) <$> es).*1).
    { revert Hnd. unfold outs. rewrite go_sort_perm. rewrite <- !list_fmap_compose. done. }
    by apply NoDup_filter_fst.
  - cbn [TxOuts]. lia.
Qed.

(** C29. Both peers build the same commitment transaction.  With mirrored channel
    states, the two views of the commitment's keys, and the same HTLCs in the same
    order in the mirrored logs, if one peer builds a commitment then so does the
    other: the same transaction (byte for byte what is signed), the same expiries
    and fee, the balances swapped.  In an asset channel only for commitments with
    fewer than 255 outputs whose scripts are all different: there two HTLCs of one
    hash, expiry and direction, which share a script, are left out. *)
Theorem peers_build_same_commitment (A B : OpenChannel) (kA kB : CommitmentKeyRing)
    (hA hB hA' : heap) (vA vB : htlcView) (isOurs : bool) (ob tb oa ta fee height : Z)
    (u : unsignedCommitmentTx) :
  mirrored A B -> same_keys kA kB ->
  same_htlcs hA hB (ourUpdates vA) (theirUpdates vB) ->
  same_htlcs hA hB (theirUpdates vA) (ourUpdates vB) ->
  createUnsignedCommitmentTx A (createStateHintObfuscator A) ob tb oa ta isOurs fee height vA kA hA
    = (Ok u, hA') ->
  ChanAssetID A = BtcAssetId \/
    NoDup (PkScript <$> TxOuts (u_txn u)) /\ (length (TxOuts (u_txn u)) < 255)%nat ->
  exists hB', createUnsignedCommitmentTx B (createStateHintObfuscator B) tb ob ta oa (negb isOurs)
      fee height vB kB hB =
    (Ok (mkUnsigned (u_txn u) (u_fee u) (u_theirBtcBalance u) (u_ourBtcBalance u)
           (u_theirAssetBalance u) (u_ourAssetBalance u) (u_cltvs u)), hB').
Proof.
  intros Hm Hk Hot Hto Hrun Hcond.
  destruct (createUnsigned_spec A (createStateHintObfuscator A) ob tb oa ta isOurs fee height vA kA hA)
    as (h1 & _ & E1). rewrite E1 in Hrun. clear E1.
  destruct (createUnsigned_spec B (createStateHintObfuscator B) tb ob ta oa (negb isOurs) fee height vB kB hB)
    as (h2 & _ & ->). exists h2. f_equal. injection Hrun as Hspec _.
  assert (Hn : count_htlcs B (negb isOurs) fee hB vB = count_htlcs A isOurs fee hA vA).
  { unfold count_htlcs. rewrite (kept_mirror A B hA hB false isOurs fee _ _ Hm Hot).
    rewrite (kept_mirror A B hA hB true isOurs fee _ _ Hm Hto). cbn [negb]. lia. }
  rewrite Hn. set (n := count_htlcs A isOurs fee hA vA) in *. clearbody n.
  unfold commit_spec in *. rewrite <- (mi_type _ _ Hm), (balances_mirror A B _ _ _ _ _ _ Hm).
  destruct (btc_balances A ob tb oa ta _ n) as [o1 t1].
  rewrite (base_mirror A B isOurs kA kB _ _ _ _ Hm Hk), <- (mirrored_obfuscator A B Hm).
  pose proof (entries_mirror A B true isOurs fee kA kB _ _ Hm Hk Hto) as Et.
  pose proof (entries_mirror A B false isOurs fee kA kB _ _ Hm Hk Hot) as Eo.
  cbn [negb] in Et, Eo. rewrite <- Et, <- Eo.
  destruct (base_entries A isOurs kA o1 t1 oa ta) as [es|x|]; [|done..]. rewrite !res_bind_Ok_l in *.
  destruct (htlc_entries A isOurs false fee kA _) as [e1|x|]; [|done..].
  rewrite !res_bind_Ok_l in Hspec.
  destruct (htlc_entries A isOurs true fee kA _) as [e2|x|]; [|done..]. rewrite !res_bind_Ok_l in *.
  destruct (build A _ height _ (es ++ e1 ++ e2)) as [[tx cl]|x|] eqn:Hb; [|done..].
  injection Hspec as <-. cbn [u_txn u_fee u_cltvs u_ourBtcBalance u_theirBtcBalance u_ourAssetBalance
    u_theirAssetBalance] in *.
  rewrite (build_perm A B _ _ _ (es ++ e1 ++ e2) (es ++ e2 ++ e1) tx cl Hm); [done| |exact Hb|exact Hcond].
  by rewrite (Permutation_app_comm e1 e2).
Qed.

(** The HTLCs that get an output, and the output and the expiry of one. *)
Definition with_output (cs : OpenChannel) (isOurs incoming : bool) (fee : Z) (pds : list PaymentDescriptor) : list PaymentDescriptor :=
  filter (fun pd => htlc_is_dust cs incoming isOurs fee pd = false) pds.

Definition htlc_output (cs : OpenChannel) (isOurs incoming : bool) (kr : CommitmentKeyRing) (pd : PaymentDescriptor) (oc : TxOut * Z) : Prop :=
  exists script witness, of_script (genHtlcScript (ChanType cs) incoming isOurs (pd_Timeout pd) (pd_RHash pd) kr) = Ok (script, witness) /\
    oc = (mkTxOut (i64 (ToSatoshis (pd_BtcAmount pd))) script, pd_Timeout pd).

Lemma htlc_entries_outputs cs isOurs incoming fee kr l : forall es, htlc_entries cs isOurs incoming fee kr l = Ok es ->
  Forall2 (htlc_output cs isOurs incoming kr) (with_output cs isOurs incoming fee l) ((fun e : entry => (e.1.1, e.2)) <$> es).
Proof.
  unfold with_output. induction l as [|pd l IH]; intros es Hes; cbn [htlc_entries] in Hes; [injection Hes as <-; constructor|].
  rewrite filter_cons. destruct (htlc_is_dust cs incoming isOurs fee pd).
  { rewrite decide_False by done. by apply IH. }
  rewrite decide_True by done. apply res_bind_Ok in Hes as (e & He & Hes). apply res_bind_Ok in Hes as (es' & Hes' & [= <-]).
  rewrite fmap_cons. constructor; [|by apply IH]. unfold htlc_entry in He. apply res_bind_Ok in He as ([script witness] & Hs & [= <-]).
  by exists script, witness.
Qed.

Lemma commit_entries_length ct kr cfg al ar sl sr ini le rs es :
  commit_entries ct kr cfg al ar sl sr ini le rs = Ok es -> (length es <= 2)%nat.
Proof.
  unfold commit_entries. intros Hc. inv_ok Hc.
  by destruct (DustLimit cfg <=? al), (DustLimit cfg <=? ar);
    match goal with E : mret _ = Ok _ |- _ => injection E as <- end; cbn; lia.
Qed.

(** The outputs of the two balances have no expiry. *)
Lemma base_entries_outputs cs isOurs kr ob tb oa ta es : base_entries cs isOurs kr ob tb oa ta = Ok es ->
  (length es <= 2)%nat /\ Forall (fun oc => oc.2 = 0) ((fun e : entry => (e.1.1, e.2)) <$> es).
Proof.
  intros Hes. split; [unfold base_entries in Hes; destruct isOurs; by eapply commit_entries_length|].
  pose proof (base_entries_cltvs _ _ _ _ _ _ _ _ Hes) as Hc. apply list.Forall_fmap, list.Forall_forall.
  intros e [i Hi]%list_elem_of_lookup. cbn. assert (Hx : (snd <$> es) !! i = Some e.2) by by rewrite list_lookup_fmap, Hi.
  rewrite <- Hc in Hx. by apply lookup_replicate in Hx as [-> _].
Qed.

(** C31. A commitment that is built is fit to sign: it spends the funding output
    alone, its state hint decodes to the commitment's height, it passes the
    consensus sanity check, and its outputs and the fee stay within the channel's
    capacity.  It has exactly one expiry for every output but the payload, which an
    asset channel may put in front: sorted together, they are the outputs of at most
    two balances, with no expiry, and for every HTLC that is not dust the output to
    its script with its timeout. *)
Theorem commitment_wellformed (cs : OpenChannel) (obf : bytes) (ob tb oa ta : Z) (isOurs : bool)
    (fee height : Z) (v : htlcView) (kr : CommitmentKeyRing) (h h' : heap) (u : unsignedCommitmentTx) :
  length obf = StateHintSize -> 0 <= height ->
  createUnsignedCommitmentTx cs obf ob tb oa ta isOurs fee height v kr h = (Ok u, h') ->
  GetStateNumHint (u_txn u) obf = Ok height /\
  (exists txin, TxIns (u_txn u) = [txin] /\ PreviousOutPoint txin = FundingOutpoint cs) /\
  CheckTransactionSanity (u_txn u) = true /\
  i64 (total_out (TxOuts (u_txn u)) + u_fee u) <= BtcCapacity cs /\
  (exists pre outs base offered received, TxOuts (u_txn u) = pre ++ outs /\
    (length pre <= 1)%nat /\ (ChanAssetID cs = BtcAssetId -> pre = []) /\
    length outs = length (u_cltvs u) /\
    zip outs (u_cltvs u) = go_sort output_Less (base ++ offered ++ received) /\
    (length base <= 2)%nat /\ Forall (fun oc => oc.2 = 0) base /\
    Forall2 (htlc_output cs isOurs false kr) (with_output cs isOurs false fee (deref h <$> ourUpdates v)) offered /\
    Forall2 (htlc_output cs isOurs true kr) (with_output cs isOurs true fee (deref h <$> theirUpdates v)) received).
Proof.
  intros Hobf Hh Hrun.
  destruct (createUnsigned_spec cs obf ob tb oa ta isOurs fee height v kr h) as (h1 & _ & E1).
  rewrite E1 in Hrun. injection Hrun as Hspec _. unfold commit_spec in Hspec.
  destruct (btc_balances _ _ _ _ _ _ _) as [o1 t1]. inv_ok Hspec.
  match goal with E : build _ _ _ _ _ = Ok ?a |- _ => destruct a as [tx cl]; rename E into Hb end.
  match goal with E : mret _ = Ok _ |- _ => injection E as <- end.
  cbn [u_txn u_fee u_cltvs]. unfold build, finish_commit_tx in Hb.
  set (tx0 := mkMsgTx 2 _ _ 0) in Hb.
  destruct (decide (height <= maxStateHint)) as [Hmax|Hmax].
  2:{ unfold SetStateNumHint in Hb. destruct (Z.ltb_spec maxStateHint height); [done|lia]. }
  destruct (hint_roundtrip tx0 (fundingTxIn cs) height obf Hobf ltac:(lia) eq_refl)
    as (tx1 & Hset & Houts & _ & (txin & Hin & Hprev & _) & Hget).
  rewrite Hset, res_bind_Ok_l in Hb. unfold InPlaceCommitSort in Hb.
  rewrite decide_False in Hb by (rewrite Houts; cbn; rewrite !length_fmap; intros E; by apply E).
  cbn [of_sort] in Hb. rewrite res_bind_Ok_l in Hb. inv_ok Hb.
  match goal with E : of_op ?m = Ok ?t |- _ => destruct m as [tx2|x|] eqn:Hop; [|done..]; injection E as <- end.
  match goal with E : mret _ = Ok _ |- _ => injection E as <- <- end.
  destruct (AddOpReturn_rest _ _ _ Hop) as (Ei & El & _). cbn in Ei, El. rewrite Hin in Ei.
  destruct (AddOpReturn_pre _ _ _ Hop) as (pre & Epre & Hpre1 & Hpre0).
  unfold guard_err in *.
  match goal with E : (if negb ?c then _ else _) = Ok _ |- _ => destruct c eqn:Hsane; [|done] end.
  match goal with E : (if ?c then _ else _) = Ok _ |- _ => destruct c eqn:Hcap; [done|] end.
  split; [apply Hget; [by rewrite Ei, Hin|done]|].
  split; [by exists txin|split; [done|split; [by apply Z.ltb_ge|]]].
  match goal with E : base_entries _ _ _ _ _ _ _ = Ok _ |- _ => pose proof (base_entries_outputs _ _ _ _ _ _ _ _ E) as [Hb1 Hb2] end.
  match goal with E : htlc_entries _ _ false _ _ _ = Ok _ |- _ => pose proof (htlc_entries_outputs _ _ _ _ _ _ _ E) as Ho end.
  match goal with E : htlc_entries _ _ true _ _ _ = Ok _ |- _ => pose proof (htlc_entries_outputs _ _ _ _ _ _ _ E) as Hr end.
  eexists pre, _, _, _, _. split; [exact Epre|]. cbn [TxOuts]. split; [done|].
  split; [intros Hid; apply Hpre0; by rewrite add_entries_asset|].
  split; [by rewrite !length_fmap|].
  split; [|split; [|split; [exact Hb2|split; [exact Ho|exact Hr]]]].
  - rewrite zip_fst_snd, Houts. unfold tx0. cbn [TxOuts].
    match goal with |- context [zip ?x ?y] => change (zip x y) with (zip (fst ∘ fst <$> (a ++ a0 ++ a1)) (snd <$> (a ++ a0 ++ a1))) end.
    by rewrite fst_snd_zip, !fmap_app.
  - by rewrite length_fmap.
Qed.

End Symmetry.

(** ** Locating the HTLC outputs *)
Section Locate.

Definition commit_script (isOurs : bool) (p : PaymentDescriptor) : bytes :=
  if isOurs then ourPkScript p else theirPkScript p.
Definition output_index (isOurs : bool) (p : PaymentDescriptor) : Z :=
  if isOurs then localOutputIndex p else remoteOutputIndex p.
Definition set_index (isOurs : bool) (p : PaymentDescriptor) (i : Z) : PaymentDescriptor :=
  if isOurs then p <| localOutputIndex := i |> else p <| remoteOutputIndex := i |>.

(** Output [i] of the transaction pays HTLC [p]. *)
Definition pays (isOurs : bool) (tx : MsgTx) (p : PaymentDescriptor) (i : Z) : Prop :=
  exists k o, i = swrap 32 (Z.of_nat k) /\ TxOuts tx !! k = Some o /\
    PkScript o = commit_script isOurs p /\ Value o = i64 (ToSatoshis (pd_BtcAmount p)).

Lemma locate_from_spec p s dups i outs cltvs :
  match locate_from p s dups i outs cltvs with
  | Ok (r, dups') => exists k o, r = swrap 32 (i + Z.of_nat k) /\ outs !! k = Some o /\ PkScript o = s /\
      Value o = i64 (ToSatoshis (pd_BtcAmount p)) /\
      r ∉ default [] (dups !! pd_RHash p) /\
      dups' = <[pd_RHash p := default [] (dups !! pd_RHash p) ++ [r]]> dups
  | _ => True
  end.
Proof.
  revert i cltvs. induction outs as [|o outs IH]; intros i [|c cltvs]; cbn [locate_from]; try done.
  destruct (bool_decide (PkScript o = s) && _ && _ && _) eqn:Hb.
  - apply andb_prop in Hb as [Hb Hd]. apply andb_prop in Hb as [Hb _]. apply andb_prop in Hb as [Hs Hv].
    apply bool_decide_eq_true in Hs. apply Z.eqb_eq in Hv. apply negb_true_iff, bool_decide_eq_false in Hd.
    exists 0%nat, o. rewrite Z.add_0_r. done.
  - specialize (IH (i + 1) cltvs). destruct (locate_from p s dups (i + 1) outs cltvs) as [[r d]|e|]; [|done..].
    destruct IH as (k & o' & -> & Ho & Hs & Hv & Hd & ->). exists (S k), o'.
    split; [f_equal; lia|done].
Qed.

Lemma locate_spec p tx isOurs dups cltvs r dups' :
  locateOutputIndex p tx isOurs dups cltvs = Ok (r, dups') ->
  pays isOurs tx p r /\ r ∉ default [] (dups !! pd_RHash p) /\
  dups' = <[pd_RHash p := default [] (dups !! pd_RHash p) ++ [r]]> dups.
Proof.
  unfold locateOutputIndex. destruct (TxOuts tx) as [|o0 outs] eqn:Ho; [done|]. intros Hl.
  match type of Hl with locate_from p ?s dups 0 ?os ?cl = _ =>
    pose proof (locate_from_spec p s dups 0 os cl) as Hs end.
  rewrite Hl in Hs. destruct Hs as (k & o & -> & Hk & Hsc & Hv & Hd & ->).
  split; [|done]. exists k, o. rewrite Ho. done.
Qed.

(** The indexes the map already holds for a hash. *)
Definition taken (dups : dupmap) (h : bytes) : list Z := default [] (dups !! h).

Lemma populate_spec isOurs tx cltvs pos hs dups idx hs' dups' idx' :
  populate isOurs tx cltvs pos hs dups idx = Ok (hs', dups', idx') ->
  Forall2 (fun p p' => p' = set_index isOurs p (output_index isOurs p') /\
    pays isOurs tx p (output_index isOurs p')) hs hs' /\
  (forall h, exists new, taken dups' h = taken dups h ++ new /\
     (NoDup (taken dups h) -> NoDup (taken dups h ++ new)) /\
     new = (output_index isOurs <$> filter (fun p' => pd_RHash p' = h) hs')).
Proof.
  revert pos dups idx hs' dups' idx'.
  induction hs as [|p hs IH]; intros pos dups idx hs' dups' idx' Hp; cbn [populate] in Hp.
  { injection Hp as <- <- <-. split; [constructor|]. intros h. exists []. rewrite app_nil_r. done. }
  inv_ok Hp. destruct a as [i dups1].
  match goal with E : (_ ≫= _) = Ok _ |- _ => inv_ok E end.
  match goal with E : populate _ _ _ _ _ _ _ = Ok ?x |- _ =>
    destruct x as [[hs1 dups2] idx2]; apply IH in E as [HF Htk] end.
  match goal with E : mret _ = Ok _ |- _ => injection E as <- <- <- end.
  match goal with E : locateOutputIndex _ _ _ _ _ = Ok _ |- _ =>
    apply locate_spec in E as (Hpays & Hnew & ->) end.
  assert (Hoi : output_index isOurs (set_index isOurs p i) = i) by (by destruct isOurs).
  change (if isOurs then p <| localOutputIndex := i |> else p <| remoteOutputIndex := i |>)
    with (set_index isOurs p i).
  split; [constructor; [by rewrite Hoi|done]|].
  intros h. destruct (Htk h) as (new & Hn & Hnd & Hnw). unfold taken in *.
  assert (Hh : pd_RHash (set_index isOurs p i) = pd_RHash p) by (by destruct isOurs).
  rewrite filter_cons, Hh. case_decide as Hd; [subst h|].
  - rewrite lookup_insert_eq in Hn, Hnd. cbn [default from_option id] in Hn, Hnd.
    exists (i :: new). rewrite Hn, <- app_assoc. split; [done|]. split.
    + intros Hnd0. cbn in Hnd. rewrite <- app_assoc in Hnd. apply Hnd. apply list.NoDup_app.
      split; [done|]. split; [|apply list.NoDup_singleton].
      intros x Hx ->%list_elem_of_singleton. done.
    + cbn. by rewrite Hoi, Hnw.
  - rewrite lookup_insert_ne in Hn, Hnd by done. by exists new.
Qed.

(** Locating the HTLC outputs is sound: every HTLC of the commitment gets the
    index of an output that carries exactly its script and value, nothing else of
    it changes, and two HTLCs with the same payment hash never share an index, so
    the signatures and the stored indexes refer to distinct outputs. *)
Theorem htlc_outputs_located (c c' : commitment) (cltvs : list Z) :
  populateHtlcIndexes c cltvs = Ok c' ->
  let located p p' := p' = set_index (c_isOurs c) p (output_index (c_isOurs c) p') /\
    pays (c_isOurs c) (c_txn c) p (output_index (c_isOurs c) p') in
  Forall2 located (outgoingHTLCs c) (outgoingHTLCs c') /\
  Forall2 located (incomingHTLCs c) (incomingHTLCs c') /\
  forall h, NoDup (output_index (c_isOurs c) <$>
    filter (fun p' => pd_RHash p' = h) (outgoingHTLCs c' ++ incomingHTLCs c')).
Proof.
  intros Hp located. unfold populateHtlcIndexes in Hp. inv_ok Hp. destruct a as [[outs d1] oi].
  match goal with E : (_ ≫= _) = Ok _ |- _ => inv_ok E end.
  match goal with E : populate _ _ _ _ (incomingHTLCs c) _ _ = Ok ?x |- _ => destruct x as [[ins d2] ii];
    apply populate_spec in E as [HFi Hti] end.
  match goal with E : populate _ _ _ _ (outgoingHTLCs c) _ _ = Ok _ |- _ =>
    apply populate_spec in E as [HFo Hto] end.
  match goal with E : mret _ = Ok _ |- _ => injection E as <- end. cbn.
  split; [exact HFo|split; [exact HFi|]]. intros h. rewrite list.filter_app, fmap_app.
  destruct (Hto h) as (new1 & H1 & Hnd1 & <-). destruct (Hti h) as (new2 & H2 & Hnd2 & <-).
  unfold taken in *. rewrite lookup_empty in H1, Hnd1. cbn in H1, Hnd1. rewrite H1 in Hnd2.
  apply Hnd2, Hnd1. constructor.
Qed.

(** An HTLC without an output stops the commitment.  [createUnsignedCommitmentTx]
    gives no output to an HTLC that is dust, but [populateHtlcIndexes] no longer
    skips dust: with an HTLC whose script is on no output it always fails. *)
Theorem outputless_htlc_fails (c : commitment) (cltvs : list Z) (p : PaymentDescriptor) :
  p ∈ outgoingHTLCs c ++ incomingHTLCs c ->
  commit_script (c_isOurs c) p ∉ PkScript <$> TxOuts (c_txn c) ->
  forall c', populateHtlcIndexes c cltvs <> Ok c'.
Proof.
  intros Hp Hno c' Hok. unfold populateHtlcIndexes in Hok. inv_ok Hok. destruct a as [[outs d1] oi].
  match goal with E : (_ ≫= _) = Ok _ |- _ => inv_ok E end.
  match goal with E : populate _ _ _ _ (incomingHTLCs c) _ _ = Ok ?x |- _ => destruct x as [[ins d2] ii];
    apply populate_spec in E as [HFi _] end.
  match goal with E : populate _ _ _ _ (outgoingHTLCs c) _ _ = Ok _ |- _ =>
    apply populate_spec in E as [HFo _] end.
  apply elem_of_app in Hp as [Hp|Hp]; apply list_elem_of_lookup in Hp as [k Hk];
    [destruct (Forall2_lookup_l _ _ _ _ _ HFo Hk) as (p' & _ & _ & j & o & _ & Ho & Hs & _)
    |destruct (Forall2_lookup_l _ _ _ _ _ HFi Hk) as (p' & _ & _ & j & o & _ & Ho & Hs & _)];
    apply Hno, list_elem_of_fmap; exists o; (split; [done|]); by apply list_elem_of_lookup_2 in Ho.
Qed.

(** What is stored of a commitment: every HTLC keeps hash, amounts, expiry,
    indexes and onion, but its asset id is always stored as 0, so reading an HTLC
    of an asset channel back through [HTLC.GetAmt] with its own asset id yields
    the bitcoin that carries it, never its asset amount. *)
Theorem stored_htlc_loses_asset (c : commitment) (ourCommit : bool) :
  Htlcs (toDiskCommit c ourCommit) =
    (toDiskHtlc ourCommit false <$> outgoingHTLCs c) ++ (toDiskHtlc ourCommit true <$> incomingHTLCs c) /\
  forall d, d ∈ Htlcs (toDiskCommit c ourCommit) ->
    (exists p, p ∈ outgoingHTLCs c ++ incomingHTLCs c /\
       htlc_RHash d = pd_RHash p /\ htlc_BtcAmt d = pd_BtcAmount p /\ htlc_AssetAmt d = pd_AssetAmount p /\
       htlc_RefundTimeout d = pd_Timeout p /\ htlc_HtlcIndex d = pd_HtlcIndex p /\
       htlc_LogIndex d = pd_LogIndex p /\ htlc_OnionBlob d = pd_OnionBlob p /\
       htlc_OutputIndex d = output_index ourCommit p /\
       (htlc_Incoming d = true -> p ∈ incomingHTLCs c) /\ (htlc_Incoming d = false -> p ∈ outgoingHTLCs c)) /\
    htlc_AssetId d = BtcAssetId /\ HTLC_GetAmt d (htlc_AssetId d) = u64 (htlc_BtcAmt d).
Proof.
  split; [done|]. intros d Hd. cbn in Hd.
  apply elem_of_app in Hd as [(p & -> & Hp)%list_elem_of_fmap|(p & -> & Hp)%list_elem_of_fmap];
    (split; [|done]); exists p; (split; [apply elem_of_app; tauto|]);
    repeat split; by intros.
Qed.
End Locate.

(** ** Cooperative close *)

(** Closing conserves the coins: when the balances to close with are
    computed, they are non-negative, the opener alone pays the closing fee and
    gets the commitment fee back, the other side keeps its satoshis, and the
    asset balances are those of the commitment. *)
Theorem coop_close_balances (isInitiator : bool) (coopCloseFee : Z) (lc : ChannelCommitment) :
  is_uint 60 (LocalBtcBalance lc) -> is_uint 60 (RemoteBtcBalance lc) ->
  is_uint 60 (CommitFee lc) -> is_uint 60 coopCloseFee ->
  let our0 := LocalBtcBalance lc / 1000 in
  let their0 := RemoteBtcBalance lc / 1000 in
  let payer := (if isInitiator then our0 else their0) + CommitFee lc - coopCloseFee in
  match CoopCloseBalance isInitiator coopCloseFee lc with
  | Ok (our, their, ourAsset, theirAsset) =>
      0 <= our /\ 0 <= their /\ our + their = our0 + their0 + CommitFee lc - coopCloseFee /\
      (if isInitiator then their = their0 else our = our0) /\
      ourAsset = LocalAssetBalance lc /\ theirAsset = RemoteAssetBalance lc /\ 0 <= payer
  | Err e => e = ErrCannotAffordCoopFee /\ payer < 0
  | Panic => False
  end.
Proof.
  intros Hl Hr Hf Hc our0 their0 payer. unfold CoopCloseBalance.
  assert (Hdiv : forall m, is_uint 60 m -> ToSatoshis m = m / 1000 /\ 0 <= m / 1000 < 2 ^ 60).
  { intros m Hm. unfold is_uint in Hm. split; [apply ToSatoshis_div; unfold is_uint; lia|].
    split; [apply Z.div_pos; lia|apply Z.div_lt_upper_bound; lia]. }
  destruct (Hdiv _ Hl) as [-> ?], (Hdiv _ Hr) as [-> ?]. fold our0 their0 in H, H0 |- *.
  unfold is_uint in Hf, Hc.
  assert (Hi : forall z, - 2 ^ 62 <= z < 2 ^ 62 -> i64 z = z).
  { intros z Hz. apply swrap_id; [lia|]. unfold is_sint. lia. }
  rewrite (Hi (CommitFee lc - coopCloseFee)) by lia.
  destruct isInitiator; rewrite Hi by lia; unfold payer;
    [destruct (Z.ltb_spec (our0 + (CommitFee lc - coopCloseFee)) 0), (Z.ltb_spec their0 0)
    |destruct (Z.ltb_spec our0 0), (Z.ltb_spec (their0 + (CommitFee lc - coopCloseFee)) 0)]; cbn; 
    repeat split; lia.
Qed.

Lemma coop_close_balances_witness :
  CoopCloseBalance true 500 (toy_commitment 3 []) = Ok (599500, 400000, 0, 0) /\
  (let '(our, their, _, _) := (599500, 400000, 0, 0) in our + their = 600000 + 400000 + 0 - 500).
Proof.
  assert (Hu : forall z, 0 <= z < 2 ^ 60 -> is_uint 60 z) by (unfold is_uint; lia).
  pose proof (coop_close_balances true 500 (toy_commitment 3 [])) as H.
  specialize (H ltac:(apply Hu; cbn; lia) ltac:(apply Hu; cbn; lia) ltac:(apply Hu; cbn; lia) ltac:(apply Hu; cbn; lia)).
  vm_compute in H. vm_compute. split; [reflexivity|]. apply H.
Defined.

(** ** Concrete instances for the library interfaces *)
Definition toy_opcode (o : opcode) : Z :=
  match o with
  | OP_0 => 0 | OP_1 => 81 | OP_2 => 82 | OP_16 => 96 | OP_IF => 99 | OP_NOTIF => 100
  | OP_ELSE => 103 | OP_ENDIF => 104 | OP_DUP => 118 | OP_IFDUP => 115 | OP_DROP => 117
  | OP_SWAP => 124 | OP_SIZE => 130 | OP_EQUAL => 135 | OP_EQUALVERIFY => 136 | OP_HASH160 => 169
  | OP_CHECKSIG => 172 | OP_CHECKSIGVERIFY => 173 | OP_CHECKMULTISIG => 174
  | OP_CHECKLOCKTIMEVERIFY => 177 | OP_CHECKSEQUENCEVERIFY => 178
  end.

Definition toy_item (i : item) : bytes :=
  match i with
  | AddOp o => [byte.of_Z (toy_opcode o)]
  | AddData d => byte.of_Z (Z.of_nat (length d)) :: d
  | AddInt64 n => Byte.x08 :: be_put 8 n
  end.

Definition toy_scripts : ScriptLib := {|
  BuildScript l := Some (concat (toy_item <$> l));
  Hash160 b := take 20 (b ++ replicate 20 Byte.x00);
  Ripemd160 b := take 20 b
|}.

Definition toy_txlib : TxLib := {|
  CheckTransactionSanity _ := true;
  GetTransactionWeight tx := 4 * Z.of_nat (length (TxOuts tx));
  TxHash _ := zero_hash
|}.

#[local] Existing Instance toy_scripts.
#[local] Existing Instance toy_txlib.
#[local] Existing Instance toy_pubkeys.
#[local] Existing Instance toy_curve.

(** The channel of the other side. *)
Definition mirror_channel (c : @OpenChannel toy_pubkeys) : @OpenChannel toy_pubkeys :=
  c <| IsInitiator ::= negb |> <| LocalChanCfg := RemoteChanCfg c |> <| RemoteChanCfg := LocalChanCfg c |>
    <| LocalShutdownScript := RemoteShutdownScript c |>
    <| RemoteShutdownScript := LocalShutdownScript c |>.

Lemma mirror_mirrored c : mirrored c (mirror_channel c).
Proof. by split; cbn; rewrite ?negb_involutive. Qed.

Definition toy_ring (isOurs : bool) (c : @OpenChannel toy_pubkeys) : @CommitmentKeyRing toy_pubkeys :=
  DeriveCommitmentKeys (9 : @PublicKey toy_pubkeys) isOurs (ChanType c)
    (LocalChanCfg c) (RemoteChanCfg c).

(** Two HTLCs offered by one side, one by the other. *)
Definition toy_htlc (amt idx : Z) (hash : bytes) : PaymentDescriptor :=
  zero_pd <| pd_BtcAmount := amt |> <| pd_HtlcIndex := idx |> <| pd_LogIndex := idx |>
          <| pd_RHash := hash |> <| pd_Timeout := 500 + idx |>.

Definition toy_heap : heap :=
  [toy_htlc 20000000 0 (replicate 32 Byte.x01); toy_htlc 30000000 1 (replicate 32 Byte.x02);
   toy_htlc 20000000 0 (replicate 32 Byte.x03)].

Definition toy_run (isOurs : bool) (c : @OpenChannel toy_pubkeys) (v : htlcView) :=
  createUnsignedCommitmentTx c (createStateHintObfuscator c)
    550000000 380000000 0 0 isOurs 253 7 v (toy_ring isOurs c) toy_heap.

Definition result_of {S E A} (x : res E A * S) (dummy : A) : A :=
  match x with (Ok a, _) => a | _ => dummy end.

Definition zero_unsigned : unsignedCommitmentTx := mkUnsigned (mkMsgTx 0 [] [] 0) 0 0 0 0 0 [].

Lemma peers_build_same_commitment_witness :
  let A := toy_channel 0 None in let B := mirror_channel A in
  let u := result_of (toy_run false A (mkHtlcView [0%nat; 1%nat] [2%nat] 253)) zero_unsigned in
  length (TxOuts (u_txn u)) = 5%nat /\
  exists hB', createUnsignedCommitmentTx B (createStateHintObfuscator B)
      380000000 550000000 0 0 true 253 7 (mkHtlcView [2%nat] [0%nat; 1%nat] 253) (toy_ring true B) toy_heap =
    (Ok (mkUnsigned (u_txn u) (u_fee u) (u_theirBtcBalance u) (u_ourBtcBalance u)
           (u_theirAssetBalance u) (u_ourAssetBalance u) (u_cltvs u)), hB').
Proof.
  intros A B u. split; [vm_compute; reflexivity|].
  refine (peers_build_same_commitment A B (toy_ring false A) (toy_ring true B) toy_heap toy_heap
    (snd (toy_run false A (mkHtlcView [0%nat; 1%nat] [2%nat] 253))) (mkHtlcView [0%nat; 1%nat] [2%nat] 253) _
    false _ _ _ _ _ _ u (mirror_mirrored A) (same_keys_derive _ _ _ _ _) _ _ _ (or_introl eq_refl)).
  - repeat constructor.
  - repeat constructor.
  - vm_compute. reflexivity.
Defined.

Lemma commitment_wellformed_witness :
  let A := toy_channel 0 None in let u :=
    result_of (toy_run false A (mkHtlcView [0%nat; 1%nat] [2%nat] 253)) zero_unsigned in
  GetStateNumHint (u_txn u) (createStateHintObfuscator A) = Ok 7.
Proof.
  intros A u.
  refine (proj1 (commitment_wellformed A (createStateHintObfuscator A) 550000000 380000000 0 0 false 253 7
    (mkHtlcView [0%nat; 1%nat] [2%nat] 253) (toy_ring false A) toy_heap
    (snd (toy_run false A (mkHtlcView [0%nat; 1%nat] [2%nat] 253))) u _ _ _)).
  - vm_compute. reflexivity.
  - lia.
  - vm_compute. reflexivity.
Defined.

Definition toy_located : PaymentDescriptor := toy_htlc 20000000 0 zero_hash <| theirPkScript := [Byte.x09] |>.

Definition toy_mem_commit (outs : list TxOut) (hs : list PaymentDescriptor) : commitment :=
  mkCommitment 1 false 1 0 1 0 (mkMsgTx 2 [] outs 0) [] 0 0 0 0 0 253 354 hs [] ∅ ∅.

Lemma htlc_outputs_located_witness :
  let c := toy_mem_commit [mkTxOut 500 [Byte.x07]; mkTxOut 20000 [Byte.x09]] [toy_located] in
  exists c', populateHtlcIndexes c [0; 500] = Ok c' /\
    Forall2 (fun p p' => p' = set_index false p (output_index false p') /\
      pays false (c_txn c) p (output_index false p')) (outgoingHTLCs c) (outgoingHTLCs c').
Proof.
  intros c. eexists. split; [vm_compute; reflexivity|].
  exact (proj1 (htlc_outputs_located c _ [0; 500] eq_refl)).
Defined.

Lemma outputless_htlc_fails_witness :
  match populateHtlcIndexes (toy_mem_commit [mkTxOut 500 [Byte.x07]] [toy_located]) [0] with
  | Ok _ => False
  | _ => True
  end.
Proof.
  destruct (populateHtlcIndexes _ _) as [c'|e|] eqn:Hc; [|done|done].
  refine (outputless_htlc_fails _ _ toy_located _ _ c' Hc).
  - by left.
  - vm_compute. intros H. inversion H as [|? ? ? H']; subst. inversion H'.
Defined.

Lemma stored_htlc_loses_asset_witness :
  let p := toy_htlc 1638000 0 zero_hash <| pd_AssetID := 31 |> <| pd_AssetAmount := 5000 |> in
  let d := toDiskHtlc false false p in
  htlc_AssetAmt d = 5000 /\ HTLC_GetAmt d (htlc_AssetId d) = 1638000.
Proof.
  intros p d. split; [reflexivity|].
  destruct (proj2 (stored_htlc_loses_asset (toy_mem_commit [] [p]) false) d ltac:(by left)) as (_ & _ & Hg).
  rewrite Hg. vm_compute. reflexivity.
Defined.
