(* ===== verification/Channel.v ===== *)
(** * The channel state machine: views and balances ([lnwallet/channel.go])

    [LightningChannel] with its commitment chains, update logs and descriptor
    heap; the evaluation of an HTLC view ([evaluateHTLCView], [computeView]),
    the construction of the next commitment ([fetchCommitmentView]) and the
    constraint check ([validateCommitmentSanity]).

    A method is a computation over [LightningChannel]: what it wrote before an
    early return stays written.  A [commitmentChain] is the list of its
    commitments from tail to tip; the tip or tail of an empty list is a nil
    element, whose use panics.  Locking and logging are not modelled. *)

From S2P Require Import Prelude Wire Messages ChanIds Units Sha256 Shachain Tx OmniOp Keys Scripts FwdPkg UpdateLog ChanDB Commitment.

(** ** Commitment chains *)
Abbreviation commitmentChain := (list commitment).

Definition addCommitment (s : commitmentChain) (c : commitment) : commitmentChain := s ++ [c].
Definition advanceTail (s : commitmentChain) : res chanerr commitmentChain :=
  match s with [] => Panic | _ :: s => Ok s end.
Definition tip (s : commitmentChain) : res chanerr commitment :=
  match list.last s with None => Panic | Some c => Ok c end.
Definition chain_tail (s : commitmentChain) : res chanerr commitment :=
  match head s with None => Panic | Some c => Ok c end.

(** [Front() != Back()]. *)
Definition hasUnackedCommitment (s : commitmentChain) : bool :=
  match s with [] | [_] => false | _ => true end.

(** ** Balances under evaluation *)
Record balances := mkBalances {
  ourBtc : Z;
  theirBtc : Z;
  ourAsset : Z;
  theirAsset : Z
}.

#[export] Instance balances_eta : Eta balances := fun b =>
  mkBalances (ourBtc b) (theirBtc b) (ourAsset b) (theirAsset b).

Definition credit_us (pd : PaymentDescriptor) (b : balances) : balances :=
  b <| ourBtc ::= fun x => u64 (x + pd_BtcAmount pd) |>
    <| ourAsset ::= fun x => i64 (x + pd_AssetAmount pd) |>.
Definition credit_them (pd : PaymentDescriptor) (b : balances) : balances :=
  b <| theirBtc ::= fun x => u64 (x + pd_BtcAmount pd) |>
    <| theirAsset ::= fun x => i64 (x + pd_AssetAmount pd) |>.
Definition debit_us (pd : PaymentDescriptor) (b : balances) : balances :=
  b <| ourBtc ::= fun x => u64 (x - pd_BtcAmount pd) |>
    <| ourAsset ::= fun x => i64 (x - pd_AssetAmount pd) |>.
Definition debit_them (pd : PaymentDescriptor) (b : balances) : balances :=
  b <| theirBtc ::= fun x => u64 (x - pd_BtcAmount pd) |>
    <| theirAsset ::= fun x => i64 (x - pd_AssetAmount pd) |>.

(** ** Heights at which a descriptor entered and left a chain *)
Definition addHeight (remoteChain : bool) (pd : PaymentDescriptor) : Z :=
  if remoteChain then addCommitHeightRemote pd else addCommitHeightLocal pd.
Definition removeHeight (remoteChain : bool) (pd : PaymentDescriptor) : Z :=
  if remoteChain then removeCommitHeightRemote pd else removeCommitHeightLocal pd.
Definition set_addHeight (remoteChain : bool) (h : Z) (pd : PaymentDescriptor) : PaymentDescriptor :=
  if remoteChain then pd <| addCommitHeightRemote := h |> else pd <| addCommitHeightLocal := h |>.
Definition set_removeHeight (remoteChain : bool) (h : Z) (pd : PaymentDescriptor) : PaymentDescriptor :=
  if remoteChain then pd <| removeCommitHeightRemote := h |> else pd <| removeCommitHeightLocal := h |>.

Section Channel.
Context `{CurveOps}.

(** What a signer is asked to sign ([input/signdescriptor.go]). *)
Record SignDescriptor := mkSignDesc {
  sd_PubKey : PublicKey;
  SingleTweak : bytes;
  sd_WitnessScript : bytes;
  sd_Output : TxOut;
  HashType : Z;
  sd_InputIndex : Z
}.

(** ** The channel *)
Record LightningChannel := mkLC {
  lc_heap : heap;
  lc_BtcCapacity : Z;
  lc_AssetCapacity : Z;
  currentHeight : Z;
  remoteCommitChain : commitmentChain;
  localCommitChain : commitmentChain;
  channelState : OpenChannel;
  obfuscator : bytes;
  signDesc : SignDescriptor;
  localUpdateLog : updateLog;
  remoteUpdateLog : updateLog
}.

#[export] Instance LightningChannel_eta : Eta LightningChannel := fun l =>
  mkLC (lc_heap l) (lc_BtcCapacity l) (lc_AssetCapacity l) (currentHeight l) (remoteCommitChain l)
    (localCommitChain l) (channelState l) (obfuscator l) (signDesc l) (localUpdateLog l)
    (remoteUpdateLog l).

Abbreviation LC := (M LightningChannel chanerr).

Definition commit_chain (lc : LightningChannel) (remoteChain : bool) : commitmentChain :=
  if remoteChain then remoteCommitChain lc else localCommitChain lc.

(** A computation over the heap, on the heap of the channel. *)
Definition on_heap {A} (m : M heap chanerr A) : LC A := fun lc =>
  let '(r, h) := m (lc_heap lc) in (r, lc <| lc_heap := h |>).

(** A computation over the stored channel. *)
Definition on_db {A} (m : M OpenChannel dberr A) : LC A := fun lc =>
  let '(r, c) := m (channelState lc) in
  (match r with Ok a => Ok a | Err e => Err (ErrDb e) | Panic => Panic end, lc <| channelState := c |>).

(** [&PaymentDescriptor{...}]. *)
Definition alloc (pd : PaymentDescriptor) : LC ptr := fun lc =>
  (Ok (length (lc_heap lc)), lc <| lc_heap := lc_heap lc ++ [pd] |>).

(** ** HTLC views *)
Definition below (h : heap) (index : Z) (u : updateLog) : list ptr :=
  filter (fun p => pd_LogIndex (deref h p) < index) (entries u).

Definition fetchHTLCView (lc : LightningChannel) (theirLogIndex ourLogIndex : Z) : htlcView :=
  mkHtlcView (below (lc_heap lc) ourLogIndex (localUpdateLog lc))
    (below (lc_heap lc) theirLogIndex (remoteUpdateLog lc)) 0.

Definition fetchParent (lc : LightningChannel) (entry : PaymentDescriptor)
    (remoteChain remoteLog : bool) : res chanerr ptr :=
  let log := if remoteLog then remoteUpdateLog lc else localUpdateLog lc in
  match lookupHtlc log (pd_ParentIndex entry) with
  | None => Err ErrParentNotFound
  | Some addEntry =>
      if addHeight remoteChain (deref (lc_heap lc) addEntry) =? 0 then Err ErrParentHeightZero
      else Ok addEntry
  end.

(** ** Evaluation of a view

    The state of [evaluateHTLCView]: the channel it may write to, the balances
    it was given pointers to and the fee rate of the new view. *)
Record evalState := mkEval {
  ev_lc : LightningChannel;
  ev_bal : balances;
  ev_feePerKw : Z
}.

#[export] Instance evalState_eta : Eta evalState := fun s =>
  mkEval (ev_lc s) (ev_bal s) (ev_feePerKw s).

Definition ev_read (p : ptr) : M evalState chanerr PaymentDescriptor :=
  gets (fun s => deref (lc_heap (ev_lc s)) p).
Definition ev_write (p : ptr) (f : PaymentDescriptor -> PaymentDescriptor) : M evalState chanerr unit :=
  modify (fun s => s <| ev_lc ::= fun lc => lc <| lc_heap ::= fun h => write h p f |> |>).
Definition when (b : bool) (m : M evalState chanerr unit) : M evalState chanerr unit :=
  if b then m else mret tt.

Section Evaluate.
Context (nextHeight : Z) (remoteChain mutateState : bool).

Definition processAddEntry (isIncoming : bool) (htlc : ptr) : M evalState chanerr unit :=
  pd ← ev_read htlc;
  if negb (addHeight remoteChain pd =? 0) then mret tt
  else
    _ ← modify (fun s => s <| ev_bal ::= if isIncoming then debit_them pd else debit_us pd |>);
    when mutateState (ev_write htlc (set_addHeight remoteChain nextHeight)).

Definition removal_credit (isIncoming : bool) (pd : PaymentDescriptor) (b : balances) : balances :=
  match pd_EntryType pd, isIncoming with
  | Settle, true => credit_us pd b
  | (Fail | MalformedFail), true => credit_them pd b
  | Settle, false => credit_them pd b
  | (Fail | MalformedFail), false => credit_us pd b
  | _, _ => b
  end.

Definition processRemoveEntry (isIncoming : bool) (htlc : ptr) : M evalState chanerr unit :=
  pd ← ev_read htlc;
  if negb (removeHeight remoteChain pd =? 0) then mret tt
  else
    _ ← modify (fun s => s <| ev_bal ::= removal_credit isIncoming pd |>);
    when mutateState (ev_write htlc (set_removeHeight remoteChain nextHeight)).

Definition processFeeUpdate (feeUpdate : ptr) : M evalState chanerr unit :=
  pd ← ev_read feeUpdate;
  if negb (addHeight remoteChain pd =? 0) then mret tt
  else
    _ ← modify (fun s => s <| ev_feePerKw := ToSatoshis (pd_BtcAmount pd) |>);
    when mutateState (ev_write feeUpdate (fun pd =>
      set_removeHeight remoteChain nextHeight (set_addHeight remoteChain nextHeight pd))).

(** A settle that reaches our chain counts in the totals of the channel. *)
Definition count_settle (own : bool) (pd : PaymentDescriptor) (c : OpenChannel) : OpenChannel :=
  if own then c <| TotalMSatReceived ::= fun x => u64 (x + pd_BtcAmount pd) |>
               <| TotalAssetReceived ::= fun x => i64 (x + pd_AssetAmount pd) |>
  else c <| TotalMSatSent ::= fun x => u64 (x + pd_BtcAmount pd) |>
         <| TotalAssetSent ::= fun x => i64 (x + pd_AssetAmount pd) |>.

(** One iteration of the first two loops; [own] says whose log it runs over.
    An entry of our log removes an HTLC of the remote log. *)
Definition eval_removal (own : bool) (entry : ptr) (skip : gset Z) : M evalState chanerr (gset Z) :=
  pd ← ev_read entry;
  match pd_EntryType pd with
  | Add => mret skip
  | FeeUpdate => _ ← processFeeUpdate entry; mret skip
  | t =>
      _ ← when (mutateState && bool_decide (t = Settle) && negb remoteChain &&
                (removeCommitHeightLocal pd =? 0))
            (modify (fun s => s <| ev_lc ::= fun lc => lc <| channelState ::= count_settle own pd |> |>));
      parent ← (fun s => (fetchParent (ev_lc s) pd remoteChain own, s));
      addEntry ← ev_read parent;
      _ ← processRemoveEntry own entry;
      mret ({[pd_HtlcIndex addEntry]} ∪ skip)
  end.

Fixpoint eval_removals (own : bool) (es : list ptr) (skip : gset Z) : M evalState chanerr (gset Z) :=
  match es with
  | [] => mret skip
  | e :: es => skip ← eval_removal own e skip; eval_removals own es skip
  end.

(** The last two loops: the adds that are not skipped, in order. *)
Fixpoint eval_adds (isIncoming : bool) (skip : gset Z) (es : list ptr) : M evalState chanerr (list ptr) :=
  match es with
  | [] => mret []
  | e :: es =>
      pd ← ev_read e;
      if negb (bool_decide (pd_EntryType pd = Add)) || bool_decide (pd_HtlcIndex pd ∈ skip)
      then eval_adds isIncoming skip es
      else
        _ ← processAddEntry isIncoming e;
        rest ← eval_adds isIncoming skip es;
        mret (e :: rest)
  end.

(** In an asset channel both bitcoin balances are overwritten with the capacity
    less the carriers of twice the incoming HTLCs. *)
Definition asset_view_balance (lc : LightningChannel) (theirs : list ptr) : Z :=
  let n := Z.of_nat (length theirs + length theirs) in
  NewMSatFromSatoshis (i64 (lc_BtcCapacity lc - i64 (i64 (n * (3 * OmniGas))))).

Definition evaluateHTLCView (view : htlcView) : M evalState chanerr htlcView :=
  _ ← modify (fun s => s <| ev_feePerKw := v_feePerKw view |>);
  skipThem ← eval_removals true (ourUpdates view) ∅;
  skipUs ← eval_removals false (theirUpdates view) ∅;
  ours ← eval_adds false skipUs (ourUpdates view);
  theirs ← eval_adds true skipThem (theirUpdates view);
  asset ← gets (fun s => BtcAssetId <? ChanAssetID (channelState (ev_lc s)));
  _ ← when asset (modify (fun s =>
        let cap := asset_view_balance (ev_lc s) theirs in
        s <| ev_bal ::= fun b => b <| ourBtc := cap |> <| theirBtc := cap |> |>));
  fee ← gets ev_feePerKw;
  mret (mkHtlcView ours theirs fee).
End Evaluate.

(** ** [computeView] *)
Definition tipM (remoteChain : bool) : LC commitment := fun lc => (tip (commit_chain lc remoteChain), lc).
Definition tailM (remoteChain : bool) : LC commitment := fun lc => (chain_tail (commit_chain lc remoteChain), lc).

(** The balances a new view starts from: those of the tip, its fee given back
    to the opener. *)
Definition start_balances (initiator : bool) (c : commitment) : balances :=
  let fee := NewMSatFromSatoshis (c_fee c) in
  mkBalances
    (if initiator then u64 (c_ourBtcBalance c + fee) else c_ourBtcBalance c)
    (if initiator then c_theirBtcBalance c else u64 (c_theirBtcBalance c + fee))
    (c_ourAssetBalance c) (c_theirAssetBalance c).

Definition evaluate (nextHeight : Z) (remoteChain mutateState : bool) (view : htlcView) (b : balances)
    : LC (htlcView * balances) := fun lc =>
  let '(r, s) := evaluateHTLCView nextHeight remoteChain mutateState view (mkEval lc b 0) in
  (v ← r; mret (v, ev_bal s), ev_lc s).

Definition htlc_weight (lc : LightningChannel) (remoteChain incoming : bool) (feePerKw : Z)
    (ps : list ptr) : Z :=
  HTLCWeight * Z.of_nat (length (filter (fun p =>
    htlc_is_dust (channelState lc) incoming (negb remoteChain) feePerKw (deref (lc_heap lc) p) = false) ps)).

Definition computeView (view : htlcView) (remoteChain updateState : bool)
    : LC (balances * Z * htlcView) :=
  tip ← tipM remoteChain;
  initiator ← gets (fun lc => IsInitiator (channelState lc));
  let view := mkHtlcView (ourUpdates view) (theirUpdates view) (c_feePerKw tip) in
  '(filtered, bal) ← evaluate (u64 (c_height tip + 1)) remoteChain updateState view
    (start_balances initiator tip);
  totalHtlcWeight ← gets (fun lc =>
    i64 (htlc_weight lc remoteChain false (v_feePerKw filtered) (ourUpdates filtered) +
         htlc_weight lc remoteChain true (v_feePerKw filtered) (theirUpdates filtered)));
  chanType ← gets (fun lc => ChanType (channelState lc));
  mret (bal, i64 (CommitWeight chanType + totalHtlcWeight), filtered).

(** ** [validateCommitmentSanity] *)

(** The loop of [validateUpdates] over the number and the amount in flight. *)
Fixpoint in_flight (constraints : ChannelConfig) (h : heap) (es : list ptr) (numInFlight amtInFlight : Z)
    : res chanerr (Z * Z) :=
  match es with
  | [] => Ok (numInFlight, amtInFlight)
  | e :: es =>
      let entry := deref h e in
      if bool_decide (pd_EntryType entry = Add) then
        let amt := u64 (amtInFlight + GetMsgAmt entry) in
        let num := u16 (numInFlight + 1) in
        _ ← guard_err (GetMsgAmt entry =? 0) ErrInvalidHTLCAmt;
        _ ← guard_err (GetMsgAmt entry <? MinHTLC constraints) ErrBelowMinHTLC;
        in_flight constraints h es num amt
      else in_flight constraints h es numInFlight amtInFlight
  end.

Definition validateUpdates (constraints : ChannelConfig) (h : heap) (updates : list ptr) : res chanerr unit :=
  '(num, amt) ← in_flight constraints h updates 0 0;
  _ ← guard_err (MaxPendingAmount constraints <? amt) ErrMaxPendingAmount;
  guard_err (MaxAcceptedHtlcs constraints <? num) ErrMaxHTLCNumber.

(** A descriptor that carries an asset amount without an asset id. *)
Definition misses_asset (pd : PaymentDescriptor) : bool :=
  (0 <? pd_AssetAmount pd) && (pd_AssetID pd =? BtcAssetId).
Definition is_asset (pd : PaymentDescriptor) : bool := negb (pd_AssetID pd =? BtcAssetId).
Definition opt_test (f : PaymentDescriptor -> bool) (h : heap) (p : option ptr) : bool :=
  match p with None => false | Some p => f (deref h p) end.
Definition opt_list {A} (p : option A) : list A := match p with None => [] | Some p => [p] end.

(** The unit the constraints are checked in: milli-satoshis in a bitcoin
    channel, the asset's own unit otherwise. *)
Definition our_amount (assetID : Z) (b : balances) : Z :=
  if assetID =? BtcAssetId then u64 (ourBtc b) else u64 (ourAsset b).
Definition their_amount (assetID : Z) (b : balances) : Z :=
  if assetID =? BtcAssetId then u64 (theirBtc b) else u64 (theirAsset b).
Definition reserve (assetID : Z) (cfg : ChannelConfig) : Z :=
  if assetID =? BtcAssetId then u64 (UnitPrec8_ToMsat (ChanReserve cfg)) else u64 (ChanReserve cfg).

Definition tip_balances (c : commitment) : balances :=
  mkBalances (c_ourBtcBalance c) (c_theirBtcBalance c) (c_ourAssetBalance c) (c_theirAssetBalance c).

(** The opener pays the commitment fee. *)
Definition pay_fee (initiator : bool) (fee : Z) (b : balances) : balances :=
  if initiator then b <| ourBtc ::= fun x => u64 (x - fee) |>
  else b <| theirBtc ::= fun x => u64 (x - fee) |>.

(** The checks of [validateCommitmentSanity] on the view it computed. *)
Definition check_view (cs : OpenChannel) (h : heap) (tip : commitment) (bal : balances)
    (commitWeight : Z) (filteredView : htlcView) : res chanerr unit :=
  let feePerKw := v_feePerKw filteredView in
  let commitFeeMsat := NewMSatFromSatoshis (FeeForWeight feePerKw commitWeight) in
  let bal := pay_fee (IsInitiator cs) commitFeeMsat bal in
  let asset := ChanAssetID cs in
  _ ← guard_err (i64 (ourBtc bal) <? 0) ErrBelowChanReserve;
  _ ← guard_err (i64 (theirBtc bal) <? 0) ErrBelowChanReserve;
  _ ← guard_err (feePerKw <? FeePerKwFloor) ErrFeeRate;
  _ ← guard_err ((our_amount asset bal <? our_amount asset (tip_balances tip)) &&
                 (our_amount asset bal <? reserve asset (LocalChanCfg cs))) ErrBelowChanReserve;
  _ ← guard_err ((their_amount asset bal <? their_amount asset (tip_balances tip)) &&
                 (their_amount asset bal <? reserve asset (RemoteChanCfg cs))) ErrBelowChanReserve;
  _ ← validateUpdates (RemoteChanCfg cs) h (theirUpdates filteredView);
  validateUpdates (LocalChanCfg cs) h (ourUpdates filteredView).

Definition validateCommitmentSanity (theirLogCounter ourLogCounter : Z) (remoteChain : bool)
    (predictOurAdd predictTheirAdd : option ptr) : LC unit :=
  h ← gets lc_heap;
  _ ← check (opt_test misses_asset h predictOurAdd) ErrPredictAsset;
  if opt_test is_asset h predictOurAdd || opt_test is_asset h predictTheirAdd then mret tt
  else
    _ ← check (opt_test misses_asset h predictTheirAdd) ErrPredictAsset;
    view ← gets (fun lc => fetchHTLCView lc theirLogCounter ourLogCounter);
    let view := mkHtlcView (ourUpdates view ++ opt_list predictOurAdd)
                  (theirUpdates view ++ opt_list predictTheirAdd) (v_feePerKw view) in
    tip ← tipM remoteChain;
    '(bal, commitWeight, filteredView) ← computeView view remoteChain false;
    cs ← gets channelState;
    lift (check_view cs h tip bal commitWeight filteredView).

(** ** [fetchCommitmentView] *)
Section Commit.
Context `{!ScriptLib, !TxLib}.

Definition effective_fee_rate (cs : OpenChannel) (txn : MsgTx) : Z :=
  let fee := i64 (BtcCapacity cs - total_out (TxOuts txn)) in
  let weight := i64 (GetTransactionWeight txn + WitnessCommitmentTxWeight) in
  go_div (i64 (fee * 1000)) weight.

Definition fetchCommitmentView (remoteChain : bool)
    (ourLogIndex ourHtlcIndex theirLogIndex theirHtlcIndex : Z) (keyRing : CommitmentKeyRing)
    : LC commitment :=
  tip ← tipM remoteChain;
  let nextHeight := u64 (c_height tip + 1) in
  view ← gets (fun lc => fetchHTLCView lc theirLogIndex ourLogIndex);
  '(bal, _, filtered) ← computeView view remoteChain true;
  let feePerKw := v_feePerKw filtered in
  cs ← gets channelState;
  obf ← gets obfuscator;
  commitTx ← on_heap (createUnsignedCommitmentTx cs obf (ourBtc bal) (theirBtc bal)
    (ourAsset bal) (theirAsset bal) (negb remoteChain) feePerKw nextHeight filtered keyRing);
  _ ← check (effective_fee_rate cs (u_txn commitTx) <? AbsoluteFeePerKwFloor) ErrEffectiveFeeRate;
  h ← gets lc_heap;
  lift (populateHtlcIndexes
    (mkCommitment nextHeight (negb remoteChain) ourLogIndex theirLogIndex ourHtlcIndex theirHtlcIndex
       (u_txn commitTx) [] (u_ourBtcBalance commitTx) (u_theirBtcBalance commitTx)
       (u_ourAssetBalance commitTx) (u_theirAssetBalance commitTx) (u_fee commitTx) feePerKw
       (DustLimit (if remoteChain then RemoteChanCfg cs else LocalChanCfg cs))
       (deref h <$> ourUpdates filtered) (deref h <$> theirUpdates filtered) ∅ ∅)
    (u_cltvs commitTx)).
End Commit.

(** ** What the chains owe each other *)
Definition oweCommitment (local : bool) (lc : LightningChannel) : res chanerr bool :=
  lastLocalCommit ← tip (localCommitChain lc);
  lastRemoteCommit ← tip (remoteCommitChain lc);
  mret (if local then
          negb (logIndex (localUpdateLog lc) =? c_ourMessageIndex lastRemoteCommit) ||
          negb (c_theirMessageIndex lastLocalCommit =? c_theirMessageIndex lastRemoteCommit)
        else
          negb (logIndex (remoteUpdateLog lc) =? c_theirMessageIndex lastLocalCommit) ||
          negb (c_ourMessageIndex lastRemoteCommit =? c_ourMessageIndex lastLocalCommit)).

Definition PendingLocalUpdateCount (lc : LightningChannel) : res chanerr Z :=
  lastRemoteCommit ← tip (remoteCommitChain lc);
  mret (u64 (logIndex (localUpdateLog lc) - c_ourMessageIndex lastRemoteCommit)).

(** [channeldb.OpenChannel.ActiveHtlcs]: our HTLCs whose onion is also on the
    remote commitment. *)
Definition ActiveHtlcs (c : OpenChannel) : list HTLC :=
  let remoteHtlcs := (fun htlc => Sum256 (htlc_OnionBlob htlc)) <$> Htlcs (RemoteCommitment c) in
  filter (fun htlc => Sum256 (htlc_OnionBlob htlc) ∈ remoteHtlcs) (Htlcs (LocalCommitment c)).

Definition IsChannelClean (lc : LightningChannel) : res chanerr bool :=
  if hasUnackedCommitment (localCommitChain lc) then mret false
  else if hasUnackedCommitment (remoteCommitChain lc) then mret false
  else if negb (bool_decide (ActiveHtlcs (channelState lc) = [])) then mret false
  else
    oweLocal ← oweCommitment true lc;
    if oweLocal : bool then mret false
    else oweRemote ← oweCommitment false lc; mret (negb oweRemote).

End Channel.

(** ** What an evaluation may write *)
Section Frame.
Context `{CurveOps}.

(** A descriptor without its heights. *)
Definition pd_core (pd : PaymentDescriptor) : PaymentDescriptor :=
  pd <| addCommitHeightRemote := 0 |> <| addCommitHeightLocal := 0 |>
     <| removeCommitHeightRemote := 0 |> <| removeCommitHeightLocal := 0 |>.

(** Only the totals of the channel differ. *)
Definition totals_only (c c' : OpenChannel) : Prop :=
  c' = c <| TotalMSatSent := TotalMSatSent c' |> <| TotalMSatReceived := TotalMSatReceived c' |>
         <| TotalAssetSent := TotalAssetSent c' |> <| TotalAssetReceived := TotalAssetReceived c' |>.

#[export] Instance totals_only_preorder : PreOrder totals_only.
Proof.
  split; [by intros [] |]. intros c1 c2 c3 H1 H2. unfold totals_only in *.
  rewrite H2 at 1. rewrite H1. reflexivity.
Qed.

(** Between [lc] and [lc'] only heights of the descriptors in [T], and the
    totals, were written. *)
Record touched (T : ptr -> Prop) (lc lc' : LightningChannel) : Prop := {
  to_rest : lc' = lc <| lc_heap := lc_heap lc' |> <| channelState := channelState lc' |>;
  to_totals : totals_only (channelState lc) (channelState lc');
  to_length : length (lc_heap lc') = length (lc_heap lc);
  to_core p : pd_core (deref (lc_heap lc') p) = pd_core (deref (lc_heap lc) p);
  to_same p : ~ T p -> deref (lc_heap lc') p = deref (lc_heap lc) p
}.

Lemma touched_refl T lc : touched T lc lc.
Proof. split; try done. by destruct lc. Qed.

Lemma touched_trans (T1 T2 T : ptr -> Prop) l1 l2 l3 :
  (forall p, T1 p -> T p) -> (forall p, T2 p -> T p) ->
  touched T1 l1 l2 -> touched T2 l2 l3 -> touched T l1 l3.
Proof.
  intros HT1 HT2 [R1 C1 L1 K1 S1] [R2 C2 L2 K2 S2]. split.
  - rewrite R2 at 1. rewrite R1. reflexivity.
  - by etrans.
  - by rewrite L2.
  - intros p. by rewrite K2.
  - intros p Hp. rewrite S2, S1; [done|naive_solver|naive_solver].
Qed.

Lemma deref_write_any h p q f :
  deref (write h p f) q = if decide (p = q /\ is_Some (h !! p)) then f (deref h q) else deref h q.
Proof.
  unfold deref, write. case_decide as Hd.
  - destruct Hd as [<- [x Hx]]. by rewrite list_lookup_alter_eq, Hx.
  - destruct (decide (p = q)) as [<-|Hne]; [|by rewrite list_lookup_alter_ne].
    rewrite list_lookup_alter_eq. destruct (h !! p) eqn:E'; [|done]. destruct Hd; eauto.
Qed.

Lemma touched_write (T : ptr -> Prop) lc p f : T p -> (forall pd, pd_core (f pd) = pd_core pd) ->
  touched T lc (lc <| lc_heap ::= fun h => write h p f |>).
Proof.
  intros HT Hf. split; cbn.
  - by destruct lc.
  - reflexivity.
  - unfold write. by rewrite length_alter.
  - intros q. rewrite deref_write_any. by case_decide.
  - intros q Hq. rewrite deref_write_any. case_decide as Hd; [|done]. destruct Hd as [-> _]. done.
Qed.

Lemma touched_totals T lc own pd :
  touched T lc (lc <| channelState ::= count_settle own pd |>).
Proof. split; try done. destruct lc. cbn. by destruct own. Qed.

Lemma core_set_add rc h pd : pd_core (set_addHeight rc h pd) = pd_core pd.
Proof. by destruct rc. Qed.
Lemma core_set_remove rc h pd : pd_core (set_removeHeight rc h pd) = pd_core pd.
Proof. by destruct rc. Qed.

Lemma core_fields a b : pd_core a = pd_core b ->
  pd_EntryType a = pd_EntryType b /\ pd_LogIndex a = pd_LogIndex b /\ pd_HtlcIndex a = pd_HtlcIndex b /\
  pd_ParentIndex a = pd_ParentIndex b /\ pd_BtcAmount a = pd_BtcAmount b /\
  pd_AssetAmount a = pd_AssetAmount b /\ pd_AssetID a = pd_AssetID b.
Proof. destruct a, b. unfold pd_core; cbn. intros E. injection E as -> -> -> -> -> -> -> -> -> -> -> -> -> -> -> -> -> -> -> -> -> -> -> -> -> ->. done. Qed.

Lemma touched_heap_le T lc lc' : touched T lc lc' -> heap_le (lc_heap lc) (lc_heap lc').
Proof.
  intros [_ _ L K _]. split; [by rewrite L|]. intros p _.
  destruct (core_fields _ _ (K p)) as (E1 & E2 & E3 & E4 & _). unfold pd_id. by rewrite E1, E2, E3, E4.
Qed.
End Frame.

(** ** The evaluation, step by step *)
Section Evaluation.
Context `{CurveOps}.
Context (nextHeight : Z) (rc mutate : bool).

Abbreviation heap_of s := (lc_heap (ev_lc s)).

(** The entry gives its amount back: a removal this chain has not seen. *)
Definition credited (pd : PaymentDescriptor) : bool :=
  is_removal (pd_EntryType pd) && (removeHeight rc pd =? 0).
(** The entry takes its amount: an add this chain has not seen. *)
Definition debited (pd : PaymentDescriptor) : bool := addHeight rc pd =? 0.

Lemma processRemoveEntry_run own e s :
  exists s', processRemoveEntry nextHeight rc mutate own e s = (Ok tt, s') /\
    touched (fun q => q = e) (ev_lc s) (ev_lc s') /\
    (mutate = false -> ev_lc s' = ev_lc s) /\
    ev_bal s' = (let pd := deref (heap_of s) e in
                 if removeHeight rc pd =? 0 then removal_credit own pd (ev_bal s) else ev_bal s).
Proof.
  unfold processRemoveEntry, ev_read, when, ev_write.
  unfold mbind, M_bind, gets, modify, mret, M_ret. cbn.
  destruct (removeHeight rc _ =? 0); cbn; [|by exists s; split; [done|split; [apply touched_refl|]]].
  destruct mutate; cbn; eexists; (split; [reflexivity|]); cbn.
  - split; [|split; done]. apply touched_write; [done|apply core_set_remove].
  - split; [apply touched_refl|done].
Qed.

Lemma processAddEntry_run incoming e s :
  exists s', processAddEntry nextHeight rc mutate incoming e s = (Ok tt, s') /\
    touched (fun q => q = e) (ev_lc s) (ev_lc s') /\
    (mutate = false -> ev_lc s' = ev_lc s) /\
    ev_bal s' = (let pd := deref (heap_of s) e in
                 if debited pd then (if incoming then debit_them pd else debit_us pd) (ev_bal s) else ev_bal s).
Proof.
  unfold processAddEntry, ev_read, when, ev_write, debited.
  unfold mbind, M_bind, gets, modify, mret, M_ret. cbn.
  destruct (addHeight rc _ =? 0); cbn; [|by exists s; split; [done|split; [apply touched_refl|]]].
  destruct mutate; cbn; eexists; (split; [reflexivity|]); cbn.
  - split; [|split; [done|by destruct incoming]]. apply touched_write; [done|apply core_set_add].
  - split; [apply touched_refl|by destruct incoming].
Qed.

Lemma processFeeUpdate_run e s :
  exists s', processFeeUpdate nextHeight rc mutate e s = (Ok tt, s') /\
    touched (fun q => q = e) (ev_lc s) (ev_lc s') /\
    (mutate = false -> ev_lc s' = ev_lc s) /\ ev_bal s' = ev_bal s.
Proof.
  unfold processFeeUpdate, ev_read, when, ev_write.
  unfold mbind, M_bind, gets, modify, mret, M_ret. cbn.
  destruct (addHeight rc _ =? 0); cbn; [|by exists s; split; [done|split; [apply touched_refl|]]].
  destruct mutate; cbn; eexists; (split; [reflexivity|]); cbn.
  - split; [|done]. apply touched_write; [done|].
    intros pd. by rewrite core_set_remove, core_set_add.
  - split; [apply touched_refl|done].
Qed.

(** What a removal does after its type is known. *)
Lemma removal_body own e (skip : gset Z) b s :
  let pd := deref (heap_of s) e in
  exists r s',
    (_ ← when (mutate && b) (modify (fun s => s <| ev_lc ::= fun lc => lc <| channelState ::= count_settle own pd |> |>));
     parent ← (fun s => (fetchParent (ev_lc s) pd rc own, s));
     addEntry ← ev_read parent;
     _ ← processRemoveEntry nextHeight rc mutate own e;
     mret ({[pd_HtlcIndex addEntry]} ∪ skip)) s = (r, s') /\
    touched (fun q => q = e) (ev_lc s) (ev_lc s') /\
    (mutate = false -> ev_lc s' = ev_lc s) /\
    match fetchParent (ev_lc s) pd rc own with
    | Ok parent =>
        r = Ok ({[pd_HtlcIndex (deref (heap_of s) parent)]} ∪ skip) /\
        ev_bal s' = (if removeHeight rc pd =? 0 then removal_credit own pd (ev_bal s) else ev_bal s)
    | Err err => r = Err err
    | Panic => r = Panic
    end.
Proof.
  intros pd.
  assert (exists s1, when (mutate && b) (modify (fun s => s <| ev_lc ::= fun lc =>
      lc <| channelState ::= count_settle own pd |> |>)) s = (Ok tt, s1) /\
    touched (fun q => q = e) (ev_lc s) (ev_lc s1) /\ (mutate = false -> ev_lc s1 = ev_lc s) /\
    ev_bal s1 = ev_bal s /\ heap_of s1 = heap_of s /\
    fetchParent (ev_lc s1) pd rc own = fetchParent (ev_lc s) pd rc own) as (s1 & Hw & Ht1 & Hm1 & Hb1 & Hh1 & Hf1).
  { unfold when. destruct (mutate && b) eqn:Hb; eexists; (split; [reflexivity|]).
    - split; [apply touched_totals|]. split; [|done]. by destruct mutate.
    - split; [apply touched_refl|done]. }
  rewrite (M_bind_run _ _ _ _ _ Hw).
  rewrite (M_bind_pair (fun s => (fetchParent (ev_lc s) pd rc own, s)) _ s1 _ s1 eq_refl), Hf1.
  destruct (fetchParent (ev_lc s) pd rc own) as [parent|err|]; [|by eexists _, s1..].
  rewrite (M_bind_run (ev_read parent) _ s1 (deref (heap_of s1) parent) s1 eq_refl).
  destruct (processRemoveEntry_run own e s1) as (s2 & Hr & Ht2 & Hm2 & Hb2).
  rewrite (M_bind_run _ _ _ _ _ Hr). eexists _, s2. split; [reflexivity|].
  split; [by eapply touched_trans; [| |exact Ht1|exact Ht2]|].
  split; [intros Hm; by rewrite Hm2, Hm1|]. cbn in Hb2. rewrite Hh1 in Hb2 |- *. by rewrite Hb2, Hb1.
Qed.

(** One removal: what it credits and which HTLC it takes out of the view. *)
Lemma eval_removal_run own e skip s :
  let pd := deref (heap_of s) e in
  exists r s', eval_removal nextHeight rc mutate own e skip s = (r, s') /\
    touched (fun q => q = e /\ pd_EntryType pd <> Add) (ev_lc s) (ev_lc s') /\
    (mutate = false -> ev_lc s' = ev_lc s) /\
    if is_removal (pd_EntryType pd) then
      match fetchParent (ev_lc s) pd rc own with
      | Ok parent =>
          r = Ok ({[pd_HtlcIndex (deref (heap_of s) parent)]} ∪ skip) /\
          ev_bal s' = (if credited pd then removal_credit own pd (ev_bal s) else ev_bal s)
      | Err err => r = Err err
      | Panic => r = Panic
      end
    else r = Ok skip /\ ev_bal s' = ev_bal s.
Proof.
  intros pd. unfold eval_removal.
  rewrite (M_bind_run (ev_read e) _ s pd s eq_refl). unfold credited.
  destruct (pd_EntryType pd) eqn:Ht; cbn [is_removal andb].
  1: { exists (Ok skip), s. split; [done|split; [apply touched_refl|done]]. }
  4: { destruct (processFeeUpdate_run e s) as (s' & Hr & Ht1 & Hm & Hb).
    rewrite (M_bind_run _ _ _ _ _ Hr). exists (Ok skip), s'. split; [done|].
    split; [|done]. eapply touched_trans; [| |apply (touched_refl (fun _ => False))|exact Ht1]; [done|].
    intros p ->. done. }
  all: rewrite <- !andb_assoc;
    match goal with |- context [when (mutate && ?b)] =>
      destruct (removal_body own e skip b s) as (r & s' & Hr & Ht1 & Hm & Hres) end;
    fold pd in Hr, Hres; exists r, s'; (split; [exact Hr|]); (split; [|done]);
    (eapply touched_trans; [| |apply (touched_refl (fun _ => False))|exact Ht1]; [done|by intros p ->]).
Qed.

(** Whatever the outcome, only heights and totals were written, and nothing at
    all when the state is not to be mutated. *)
Lemma eval_removals_frame own es skip s r s' :
  eval_removals nextHeight rc mutate own es skip s = (r, s') ->
  touched (fun q => q ∈ es /\ pd_EntryType (deref (heap_of s) q) <> Add) (ev_lc s) (ev_lc s') /\
  (mutate = false -> ev_lc s' = ev_lc s).
Proof.
  revert skip s. induction es as [|e es IH]; intros skip s Hrun; cbn in Hrun.
  { injection Hrun as _ <-. split; [apply touched_refl|done]. }
  destruct (eval_removal_run own e skip s) as (r1 & s1 & Hr & Ht & Hm & _).
  rewrite (M_bind_pair _ _ _ _ _ Hr) in Hrun.
  assert (Hfirst : touched (fun q => q ∈ e :: es /\ pd_EntryType (deref (heap_of s) q) <> Add) (ev_lc s) (ev_lc s1)).
  { eapply touched_trans; [| |apply (touched_refl (fun _ => False))|exact Ht]; [done|].
    intros p [-> Hp]. split; [by left|done]. }
  destruct r1 as [skip1|err|]; [|by injection Hrun as _ <-..].
  destruct (IH _ _ Hrun) as [Ht2 Hm2]. split; [|intros Hf; by rewrite Hm2, Hm].
  eapply touched_trans; [| |exact Hfirst|exact Ht2]; [done|].
  intros p [Hp Hne]. split; [by right|].
  by destruct (core_fields _ _ (to_core _ _ _ Ht p)) as (<- & _).
Qed.

Lemma eval_adds_frame incoming skip es s r s' :
  eval_adds nextHeight rc mutate incoming skip es s = (r, s') ->
  touched (fun q => q ∈ es /\ pd_EntryType (deref (heap_of s) q) = Add) (ev_lc s) (ev_lc s') /\
  (mutate = false -> ev_lc s' = ev_lc s).
Proof.
  revert s r. induction es as [|e es IH]; intros s r Hrun.
  { cbn in Hrun. injection Hrun as _ <-. split; [apply touched_refl|done]. }
  cbn [eval_adds] in Hrun. rewrite (M_bind_run (ev_read e) _ s _ s eq_refl) in Hrun.
  destruct (decide (pd_EntryType (deref (heap_of s) e) = Add)) as [Hadd|Hnot].
  - destruct (negb _ || _).
    + destruct (IH _ _ Hrun) as [Ht Hm]. split; [|done].
      eapply touched_trans; [| |apply (touched_refl (fun _ => False))|exact Ht]; [done|].
      intros p [Hp ?]. split; [by right|done].
    + destruct (processAddEntry_run incoming e s) as (s1 & Hr & Ht & Hm & _).
      rewrite (M_bind_run _ _ _ _ _ Hr) in Hrun.
      destruct (eval_adds nextHeight rc mutate incoming skip es s1) as [r2 s2] eqn:H2.
      rewrite (M_bind_pair _ _ _ _ _ H2) in Hrun.
      assert (s2 = s') as -> by (destruct r2; by injection Hrun as _ ->).
      destruct (IH _ _ H2) as [Ht2 Hm2]. split; [|intros Hf; by rewrite Hm2, Hm].
      eapply touched_trans; [| |exact Ht|exact Ht2].
      * intros p ->. split; [by left|done].
      * intros p [Hp Ha]. split; [by right|].
        by destruct (core_fields _ _ (to_core _ _ _ Ht p)) as (<- & _).
  - rewrite bool_decide_eq_false_2 in Hrun by done. cbn in Hrun.
    destruct (IH _ _ Hrun) as [Ht Hm]. split; [|done].
    eapply touched_trans; [| |apply (touched_refl (fun _ => False))|exact Ht]; [done|].
    intros p [Hp ?]. split; [by right|done].
Qed.

Lemma evaluate_frame view s r s' :
  evaluateHTLCView nextHeight rc mutate view s = (r, s') ->
  touched (fun q => q ∈ ourUpdates view ++ theirUpdates view) (ev_lc s) (ev_lc s') /\
  (mutate = false -> ev_lc s' = ev_lc s).
Proof.
  set (T := fun q => _). unfold evaluateHTLCView. intros Hrun.
  rewrite (M_bind_run (modify _) _ s tt _ eq_refl) in Hrun.
  set (s0 := s <| ev_feePerKw := _ |>) in Hrun.
  assert (F0 : touched T (ev_lc s) (ev_lc s0) /\ (mutate = false -> ev_lc s0 = ev_lc s))
    by (split; [apply touched_refl|done]).
  assert (Hnext : forall T' a b, (forall q, T' q -> T q) ->
    touched T (ev_lc s) (ev_lc a) /\ (mutate = false -> ev_lc a = ev_lc s) ->
    touched T' (ev_lc a) (ev_lc b) /\ (mutate = false -> ev_lc b = ev_lc a) ->
    touched T (ev_lc s) (ev_lc b) /\ (mutate = false -> ev_lc b = ev_lc s)).
  { intros T' a b HT [Ht Hm] [Ht' Hm']. split; [|intros Hf; by rewrite Hm', Hm].
    by eapply touched_trans; [| |exact Ht|exact Ht']. }
  assert (HT1 : forall q (P : Prop), q ∈ ourUpdates view /\ P -> T q).
  { intros q P [Hq _]. apply elem_of_app. by left. }
  assert (HT2 : forall q (P : Prop), q ∈ theirUpdates view /\ P -> T q).
  { intros q P [Hq _]. apply elem_of_app. by right. }
  destruct (eval_removals nextHeight rc mutate true (ourUpdates view) ∅ s0) as [r1 s1] eqn:E1.
  pose proof (Hnext _ s0 s1 (fun q => HT1 q _) F0 (eval_removals_frame _ _ _ _ _ _ E1)) as F1.
  rewrite (M_bind_pair _ _ _ _ _ E1) in Hrun. destruct r1 as [skipThem|e|]; [|by injection Hrun as _ <-..].
  destruct (eval_removals nextHeight rc mutate false (theirUpdates view) ∅ s1) as [r2 s2] eqn:E2.
  pose proof (Hnext _ s1 s2 (fun q => HT2 q _) F1 (eval_removals_frame _ _ _ _ _ _ E2)) as F2.
  rewrite (M_bind_pair _ _ _ _ _ E2) in Hrun. destruct r2 as [skipUs|e|]; [|by injection Hrun as _ <-..].
  destruct (eval_adds nextHeight rc mutate false skipUs (ourUpdates view) s2) as [r3 s3] eqn:E3.
  pose proof (Hnext _ s2 s3 (fun q => HT1 q _) F2 (eval_adds_frame _ _ _ _ _ _ E3)) as F3.
  rewrite (M_bind_pair _ _ _ _ _ E3) in Hrun. destruct r3 as [ours|e|]; [|by injection Hrun as _ <-..].
  destruct (eval_adds nextHeight rc mutate true skipThem (theirUpdates view) s3) as [r4 s4] eqn:E4.
  pose proof (Hnext _ s3 s4 (fun q => HT2 q _) F3 (eval_adds_frame _ _ _ _ _ _ E4)) as F4.
  rewrite (M_bind_pair _ _ _ _ _ E4) in Hrun. destruct r4 as [theirs|e|]; [|by injection Hrun as _ <-..].
  unfold mbind, M_bind, gets, when, modify, mret, M_ret in Hrun. cbn in Hrun.
  destruct (BtcAssetId <? _); injection Hrun as _ <-; exact F4.
Qed.
End Evaluation.

(** ** Conservation *)
Section Conservation.
Context `{CurveOps}.
Context (nextHeight : Z) (rc mutate : bool).

(** A currency: the amount a descriptor carries and the coins both sides have. *)
Context (amt : PaymentDescriptor -> Z) (total : balances -> Z).
Context (amt_core : forall a b, pd_core a = pd_core b -> amt a = amt b).
Context (total_credit_us : forall pd b, eqw 64 (total (credit_us pd b)) (total b + amt pd)).
Context (total_credit_them : forall pd b, eqw 64 (total (credit_them pd b)) (total b + amt pd)).
Context (total_debit_us : forall pd b, eqw 64 (total (debit_us pd b)) (total b - amt pd)).
Context (total_debit_them : forall pd b, eqw 64 (total (debit_them pd b)) (total b - amt pd)).

Abbreviation heap_of s := (lc_heap (ev_lc s)).
Abbreviation type_of h p := (pd_EntryType (deref h p)).

Definition log_of (lc : LightningChannel) (remoteLog : bool) : updateLog :=
  if remoteLog then remoteUpdateLog lc else localUpdateLog lc.

(** What an entry gives back, and what it takes. *)
Definition given (h : heap) (p : ptr) : Z := if credited rc (deref h p) then amt (deref h p) else 0.
Definition taken (h : heap) (p : ptr) : Z := if debited rc (deref h p) then amt (deref h p) else 0.

Lemma total_removal own pd b : is_removal (pd_EntryType pd) = true ->
  eqw 64 (total (removal_credit own pd b)) (total b + amt pd).
Proof using Type*.
  unfold removal_credit. destruct (pd_EntryType pd), own; intros Hr; try discriminate Hr; auto.
Qed.

Lemma touched_same_read (T : ptr -> Prop) lc lc' p : touched T lc lc' ->
  type_of (lc_heap lc') p = type_of (lc_heap lc) p /\
  pd_ParentIndex (deref (lc_heap lc') p) = pd_ParentIndex (deref (lc_heap lc) p) /\
  pd_HtlcIndex (deref (lc_heap lc') p) = pd_HtlcIndex (deref (lc_heap lc) p).
Proof. intros Ht. destruct (core_fields _ _ (to_core _ _ _ Ht p)) as (-> & _ & -> & -> & _). done. Qed.

Lemma touched_log (T : ptr -> Prop) lc lc' own : touched T lc lc' -> log_of lc' own = log_of lc own.
Proof. intros Ht. rewrite (to_rest _ _ _ Ht). by destruct own. Qed.

Lemma fetchParent_Ok lc pd own parent : fetchParent lc pd rc own = Ok parent ->
  lookupHtlc (log_of lc own) (pd_ParentIndex pd) = Some parent /\
  addHeight rc (deref (lc_heap lc) parent) <> 0.
Proof.
  unfold fetchParent, log_of. destruct (lookupHtlc _ _) as [q|]; [|done].
  destruct (Z.eqb_spec (addHeight rc (deref (lc_heap lc) q)) 0); [done|]. intros E. by injection E as <-.
Qed.

(** The parent a removal of our log ([own]) or of theirs refers to. *)
Definition parent_of (lc : LightningChannel) (own : bool) (p q : ptr) : Prop :=
  is_removal (type_of (lc_heap lc) p) = true /\
  lookupHtlc (log_of lc own) (pd_ParentIndex (deref (lc_heap lc) p)) = Some q.

Lemma eval_removals_Ok own es skip s skip' s' : NoDup es ->
  eval_removals nextHeight rc mutate own es skip s = (Ok skip', s') ->
  eqw 64 (total (ev_bal s')) (total (ev_bal s) + zsum (given (heap_of s) <$> es)) /\
  (forall i, i ∈ skip' <-> i ∈ skip \/ exists p q, p ∈ es /\ parent_of (ev_lc s) own p q /\
     pd_HtlcIndex (deref (heap_of s) q) = i) /\
  (forall p, p ∈ es -> is_removal (type_of (heap_of s) p) = true -> exists q, parent_of (ev_lc s) own p q /\
     (type_of (heap_of s) q = Add -> addHeight rc (deref (heap_of s) q) <> 0)).
Proof using Type*.
  revert skip s. induction es as [|e es IH]; intros skip s Hnd Hrun; cbn in Hrun.
  { injection Hrun as <- <-. cbn. rewrite Z.add_0_r. split; [done|]. split.
    - intros i. split; [by left|]. intros [?|(p & q & Hp & _)]; [done|]. by apply not_elem_of_nil in Hp.
    - intros p Hp. by apply not_elem_of_nil in Hp. }
  apply list.NoDup_cons in Hnd as [Hni Hnd].
  destruct (eval_removal_run nextHeight rc mutate own e skip s) as (r1 & s1 & Hr & Ht & _ & Hspec).
  rewrite (M_bind_pair _ _ _ _ _ Hr) in Hrun. destruct r1 as [skip1|err|]; [|done..].
  destruct (IH _ _ Hnd Hrun) as (Hbal & Hskip & Hpar).
  assert (Hsame : forall p, p <> e \/ type_of (heap_of s) p = Add -> deref (heap_of s1) p = deref (heap_of s) p).
  { intros p Hp. apply (to_same _ _ _ Ht). intros [-> Hna]. by destruct Hp. }
  assert (Hgiven : zsum (given (heap_of s1) <$> es) = zsum (given (heap_of s) <$> es)).
  { apply zsum_ext_in. intros p Hp. unfold given. rewrite Hsame; [done|]. left. by intros ->. }
  assert (Hparent : forall p q, parent_of (ev_lc s1) own p q <-> parent_of (ev_lc s) own p q).
  { intros p q. unfold parent_of. rewrite (touched_log _ _ _ own Ht).
    destruct (touched_same_read _ _ _ p Ht) as (-> & -> & _). done. }
  rewrite Hgiven in Hbal. rewrite fmap_cons.
  assert (Hhi : forall q, pd_HtlcIndex (deref (heap_of s1) q) = pd_HtlcIndex (deref (heap_of s) q)).
  { intros q. by destruct (touched_same_read _ _ _ q Ht) as (_ & _ & ->). }
  assert (Hrest : forall p, p ∈ es -> is_removal (type_of (heap_of s) p) = true ->
    exists q, parent_of (ev_lc s) own p q /\
      (type_of (heap_of s) q = Add -> addHeight rc (deref (heap_of s) q) <> 0)).
  { intros p Hp Hrm. destruct (Hpar p Hp) as (q & Hq & Ha).
    { by destruct (touched_same_read _ _ _ p Ht) as (-> & _ & _). }
    exists q. split; [by apply Hparent|]. intros Hadd. rewrite <- Hsame by (by right). apply Ha.
    by destruct (touched_same_read _ _ _ q Ht) as (-> & _ & _). }
  destruct (is_removal (type_of (heap_of s) e)) eqn:Hrm.
  - destruct (fetchParent (ev_lc s) (deref (heap_of s) e) rc own) as [parent|err|] eqn:Hf;
      [|done|done].
    destruct Hspec as [Hr1 Hb1]. injection Hr1 as ->. apply fetchParent_Ok in Hf as [Hlk Hah].
    assert (Hpe : parent_of (ev_lc s) own e parent) by done.
    split; [|split].
    + rewrite Hbal, Hb1. rewrite zsum_cons. unfold given at 2. destruct (credited rc _).
      * rewrite total_removal by done. by rewrite <- Z.add_assoc.
      * done.
    + intros i. rewrite Hskip, elem_of_union, elem_of_singleton. split.
      * intros [[->|?]|(p & q & Hp & Hq & <-)]; [right|by left|right].
        -- exists e, parent. split; [by left|done].
        -- exists p, q. split; [by right|]. split; [by apply Hparent|by rewrite Hhi].
      * intros [?|(p & q & [->|Hp]%elem_of_cons & Hq & <-)]; [tauto| |].
        -- left. left. destruct Hq as [_ Hq]. congruence.
        -- right. exists p, q. split; [done|]. split; [by apply Hparent|by rewrite Hhi].
    + intros p [->|Hp]%elem_of_cons Hrmp; [by exists parent|by apply Hrest].
  - destruct Hspec as [Hr1 Hb1]. injection Hr1 as ->.
    split; [|split].
    + rewrite Hbal, Hb1. rewrite zsum_cons. unfold given at 2, credited. rewrite Hrm. done.
    + intros i. rewrite Hskip. split.
      * intros [?|(p & q & Hp & Hq & <-)]; [by left|right].
        exists p, q. split; [by right|]. split; [by apply Hparent|by rewrite Hhi].
      * intros [?|(p & q & [->|Hp]%elem_of_cons & Hq & <-)]; [tauto| |].
        -- destruct Hq as [Hq _]. congruence.
        -- right. exists p, q. split; [done|]. split; [by apply Hparent|by rewrite Hhi].
    + intros p [->|Hp]%elem_of_cons Hrmp; [congruence|by apply Hrest].
Qed.

(** An entry that stays in the view: an add no removal skips. *)
Definition kept (h : heap) (skip : gset Z) (p : ptr) : Prop :=
  type_of h p = Add /\ pd_HtlcIndex (deref h p) ∉ skip.

#[export] Instance kept_dec h skip p : Decision (kept h skip p).
Proof. unfold kept. apply _. Defined.

Lemma eval_adds_Ok incoming skip es s l s' : NoDup es ->
  eval_adds nextHeight rc mutate incoming skip es s = (Ok l, s') ->
  l = filter (kept (heap_of s) skip) es /\
  eqw 64 (total (ev_bal s')) (total (ev_bal s) - zsum (taken (heap_of s) <$> l)).
Proof using Type*.
  revert s l. induction es as [|e es IH]; intros s l Hnd Hrun.
  { cbn in Hrun. injection Hrun as <- <-. cbn. by rewrite Z.sub_0_r. }
  apply list.NoDup_cons in Hnd as [Hni Hnd]. cbn [eval_adds] in Hrun.
  rewrite (M_bind_run (ev_read e) _ s _ s eq_refl) in Hrun. rewrite filter_cons.
  destruct (decide (kept (heap_of s) skip e)) as [[Ha Hs]|Hk].
  - rewrite bool_decide_eq_true_2, bool_decide_eq_false_2 in Hrun by done. cbn [negb orb] in Hrun.
    destruct (processAddEntry_run nextHeight rc mutate incoming e s) as (s1 & Hr & Ht & _ & Hb).
    rewrite (M_bind_run _ _ _ _ _ Hr) in Hrun.
    destruct (eval_adds nextHeight rc mutate incoming skip es s1) as [r2 s2] eqn:H2.
    rewrite (M_bind_pair _ _ _ _ _ H2) in Hrun. destruct r2 as [rest|err|]; [|done..].
    injection Hrun as <- ->. destruct (IH _ _ Hnd H2) as [-> Hbal].
    assert (Hsame : forall p, p ∈ es -> deref (heap_of s1) p = deref (heap_of s) p).
    { intros p Hp. apply (to_same _ _ _ Ht). by intros ->. }
    assert (Hf : filter (kept (heap_of s1) skip) es = filter (kept (heap_of s) skip) es).
    { apply Prelude.filter_ext_in. intros p Hp. unfold kept. by rewrite Hsame. }
    rewrite Hf in Hbal |- *. split; [done|]. rewrite fmap_cons. rewrite zsum_cons.
    assert (Hz : zsum (taken (heap_of s1) <$> filter (kept (heap_of s) skip) es) =
                 zsum (taken (heap_of s) <$> filter (kept (heap_of s) skip) es)).
    { apply zsum_ext_in. intros p [_ Hp]%list_elem_of_filter. unfold taken. by rewrite Hsame. }
    rewrite Hbal, Hz, Hb. unfold taken at 2. cbn zeta.
    destruct (debited rc _).
    + rewrite Z.sub_add_distr. by destruct incoming; rewrite ?total_debit_us, ?total_debit_them.
    + done.
  - assert (Hcond : negb (bool_decide (type_of (heap_of s) e = Add)) ||
      bool_decide (pd_HtlcIndex (deref (heap_of s) e) ∈ skip) = true).
    { unfold kept in Hk. case_bool_decide; [|done]. cbn. apply bool_decide_eq_true_2.
      destruct (decide (pd_HtlcIndex (deref (heap_of s) e) ∈ skip)); [done|tauto]. }
    rewrite Hcond in Hrun. by apply IH.
Qed.

(** The HTLCs of one side the last commitment of the chain carries: added to
    it, and not removed from it. *)
Definition gone (h : heap) (rs : list ptr) (a : ptr) : Prop :=
  Exists (fun r => is_removal (type_of h r) = true /\
    pd_ParentIndex (deref h r) = pd_HtlcIndex (deref h a) /\ removeHeight rc (deref h r) <> 0) rs.

Definition pending (h : heap) (as_ rs : list ptr) : list ptr :=
  filter (fun a => type_of h a = Add /\ addHeight rc (deref h a) <> 0 /\ ~ gone h rs a) as_.

(** The HTLC a removal in [rs] gives back now. *)
Definition hit (h : heap) (rs : list ptr) (a : ptr) : Prop :=
  Exists (fun r => credited rc (deref h r) = true /\
    pd_ParentIndex (deref h r) = pd_HtlcIndex (deref h a)) rs.

#[local] Instance gone_dec h rs a : Decision (gone h rs a).
Proof. unfold gone. apply _. Defined.
#[local] Instance hit_dec h rs a : Decision (hit h rs a).
Proof. unfold hit. apply _. Defined.

(** The removals [rs] of one log and the HTLCs [as_] of the other belong
    together: one removal per HTLC, and the HTLC it removes is there, on the
    chain, with the same amount. *)
Record paired (h : heap) (as_ rs : list ptr) : Prop := {
  pr_nodup_adds : NoDup as_;
  pr_nodup : NoDup rs;
  pr_unique r r' : r ∈ rs -> r' ∈ rs -> is_removal (type_of h r) = true ->
    is_removal (type_of h r') = true ->
    pd_ParentIndex (deref h r) = pd_ParentIndex (deref h r') -> r = r';
  pr_index a a' : a ∈ as_ -> a' ∈ as_ -> type_of h a = Add -> type_of h a' = Add ->
    pd_HtlcIndex (deref h a) = pd_HtlcIndex (deref h a') -> a = a';
  pr_parent r : r ∈ rs -> is_removal (type_of h r) = true ->
    exists a, a ∈ as_ /\ type_of h a = Add /\ pd_HtlcIndex (deref h a) = pd_ParentIndex (deref h r) /\
      addHeight rc (deref h a) <> 0 /\ amt (deref h a) = amt (deref h r)
}.

Lemma credited_removal pd : credited rc pd = true ->
  is_removal (pd_EntryType pd) = true /\ removeHeight rc pd = 0.
Proof. unfold credited. intros [? ?%Z.eqb_eq]%andb_prop. done. Qed.

Lemma given_hit h as_ rs : paired h as_ rs ->
  zsum (given h <$> rs) =
  zsum ((fun a => if decide (type_of h a = Add /\ hit h rs a) then amt (deref h a) else 0) <$> as_).
Proof.
  induction rs as [|r rs IH]; intros Hp.
  { symmetry. apply zsum_zero. intros a _. rewrite decide_False; [done|].
    intros [_ Hx]. by apply Exists_nil in Hx. }
  destruct Hp as [Hna Hnd Hu Hi Hpar]. apply list.NoDup_cons in Hnd as [Hr Hnd].
  rewrite fmap_cons, zsum_cons, IH; [clear IH|split; [done|done| |done|]].
  2: { intros x y Hx Hy. by apply Hu; right. }
  2: { intros x Hx. apply Hpar. by right. }
  unfold given at 1. destruct (credited rc (deref h r)) eqn:Hc.
  - destruct (credited_removal _ Hc) as [Hrm _].
    destruct (Hpar r ltac:(by left) Hrm) as (q & Hq & Hadd & Hidx & _ & Hamt).
    rewrite <- (zsum_single q (amt (deref h r)) as_ Hna Hq), <- zsum_add.
    apply zsum_ext_in. intros a Ha. destruct (decide (a = q)) as [->|Hne].
    + rewrite decide_False, decide_True; [lia| |].
      * split; [done|]. left. by rewrite Hidx.
      * intros [_ (x & Hx & Hcx & Hex)%Exists_exists]. apply list_elem_of_In in Hx. apply Hr.
        rewrite (Hu r x); [done|by left|by right|done| |congruence]. by apply credited_removal.
    + rewrite Z.add_0_l. assert (Heq : hit h (r :: rs) a <-> hit h rs a \/ pd_HtlcIndex (deref h a) = pd_HtlcIndex (deref h q)).
      { unfold hit. rewrite Exists_cons, Hidx. naive_solver. }
      destruct (decide (type_of h a = Add /\ hit h rs a)), (decide (type_of h a = Add /\ hit h (r :: rs) a)) as [[Ht Hx]|Hx];
        try done.
      * naive_solver.
      * apply Heq in Hx as [?|Hx]; [naive_solver|]. by destruct Hne; apply Hi.
  - rewrite Z.add_0_l. apply zsum_ext_in. intros a _.
    assert (Heq : hit h (r :: rs) a <-> hit h rs a).
    { unfold hit. rewrite Exists_cons, Hc. naive_solver. }
    destruct (decide (type_of h a = Add /\ hit h rs a)), (decide (type_of h a = Add /\ hit h (r :: rs) a));
      naive_solver.
Qed.

(** One side: what stays in the view, plus what was given back, less what was
    newly taken, is what was pending. *)
Lemma side_conservation h as_ rs skip : paired h as_ rs ->
  (forall i, i ∈ skip <-> exists r, r ∈ rs /\ is_removal (type_of h r) = true /\
     pd_ParentIndex (deref h r) = i) ->
  let kept := filter (kept h skip) as_ in
  zsum ((fun a => amt (deref h a)) <$> kept) + zsum (given h <$> rs) - zsum (taken h <$> kept) =
  zsum ((fun a => amt (deref h a)) <$> pending h as_ rs).
Proof.
  intros Hp Hskip k. rewrite (given_hit h as_ rs Hp). unfold k, pending. rewrite !zsum_filter.
  set (f := fun a => _). set (g := fun a => _). set (t := fun x => if decide _ then taken _ _ else _).
  set (w := fun x => if decide (_ /\ _ /\ _) then _ else _).
  assert (E : zsum (f <$> as_) + zsum (g <$> as_) = zsum (w <$> as_) + zsum (t <$> as_)); [|lia].
  rewrite <- !zsum_add. apply zsum_ext_in. intros a Ha. unfold f, g, t, w, kept, taken, debited. clear f g t w.
  destruct Hp as [Hna Hnd Hu Hi Hpar].
  destruct (decide (type_of h a = Add)) as [Hadd|Hno]; [|repeat (rewrite decide_False by tauto); done].
  assert (Hhit : hit h rs a -> pd_HtlcIndex (deref h a) ∈ skip /\ addHeight rc (deref h a) <> 0 /\ ~ gone h rs a).
  { intros (r & Hr & Hc & Hidx)%Exists_exists. apply list_elem_of_In in Hr.
    destruct (credited_removal _ Hc) as [Hrm H0r]. split; [apply Hskip; by exists r|]. split.
    - destruct (Hpar r Hr Hrm) as (q & Hq & Hqa & Hqi & Hqh & _). by rewrite (Hi a q) by (done || congruence).
    - intros (x & Hx & Hxr & Hxi & Hxn)%Exists_exists. apply list_elem_of_In in Hx.
      rewrite (Hu x r) in Hxn; [done..|congruence]. }
  assert (Hgone : gone h rs a -> pd_HtlcIndex (deref h a) ∈ skip).
  { intros (x & Hx & Hxr & Hxi & Hxn)%Exists_exists. apply list_elem_of_In in Hx. apply Hskip. by exists x. }
  assert (Hcase : pd_HtlcIndex (deref h a) ∈ skip -> hit h rs a \/ gone h rs a).
  { intros (r & Hr & Hrm & Hidx)%Hskip. destruct (decide (removeHeight rc (deref h r) = 0)) as [H0r|Hn].
    - left. apply Exists_exists. exists r. split; [by apply list_elem_of_In|]. unfold credited. by rewrite Hrm, H0r.
    - right. apply Exists_exists. exists r. split; [by apply list_elem_of_In|]. done. }
  assert (Hon : pd_HtlcIndex (deref h a) ∈ skip -> addHeight rc (deref h a) <> 0).
  { intros (r & Hr & Hrm & Hidx)%Hskip. destruct (Hpar r Hr Hrm) as (q & Hq & Hqa & Hqi & Hqh & _).
    by rewrite (Hi a q) by (done || congruence). }
  destruct (decide (pd_HtlcIndex (deref h a) ∈ skip)) as [Hs|Hs].
  - do 2 rewrite (decide_False (P := _ /\ _ ∉ skip)) by tauto.
    destruct (decide (hit h rs a)) as [Hh|Hh].
    + rewrite (decide_True (P := _ /\ hit _ _ _)), (decide_True (P := _ /\ _ /\ _)) by tauto. lia.
    + rewrite (decide_False (P := _ /\ hit _ _ _)), (decide_False (P := _ /\ _ /\ _)) by tauto. lia.
  - do 2 rewrite (decide_True (P := _ /\ _ ∉ skip)) by tauto.
    rewrite (decide_False (P := _ /\ hit _ _ _)) by tauto.
    destruct (Z.eqb_spec (addHeight rc (deref h a)) 0).
    + rewrite (decide_False (P := _ /\ _ /\ _)) by tauto. lia.
    + rewrite (decide_True (P := _ /\ _ /\ _)) by tauto. lia.
Qed.
End Conservation.

(** ** Views of well-formed logs *)
Section Views.
Context `{CurveOps}.

(** The invariant of a channel's logs: they are well formed and a removal
    carries the amounts of the HTLC it removes. *)
Record lc_logs_ok (lc : LightningChannel) : Prop := {
  lk_logs : logs_ok (lc_heap lc) (localUpdateLog lc) (remoteUpdateLog lc);
  lk_amounts own p q : p ∈ entries (log_of lc (negb own)) -> parent_of lc own p q ->
    pd_BtcAmount (deref (lc_heap lc) p) = pd_BtcAmount (deref (lc_heap lc) q) /\
    pd_AssetAmount (deref (lc_heap lc) p) = pd_AssetAmount (deref (lc_heap lc) q)
}.

(** The indexes of a view reach every HTLC the chain already carries. *)
Definition in_view (lc : LightningChannel) (rc : bool) (theirLogIndex ourLogIndex : Z) : Prop :=
  forall own p, p ∈ entries (log_of lc own) -> pd_EntryType (deref (lc_heap lc) p) = Add ->
    addHeight rc (deref (lc_heap lc) p) <> 0 ->
    pd_LogIndex (deref (lc_heap lc) p) < (if own then theirLogIndex else ourLogIndex).

Lemma elem_of_below h i u p : p ∈ below h i u <-> p ∈ entries u /\ pd_LogIndex (deref h p) < i.
Proof. unfold below. rewrite list_elem_of_filter. tauto. Qed.

Lemma NoDup_below h i u : NoDup (entries u) -> NoDup (below h i u).
Proof. apply list.NoDup_filter. Qed.

Lemma log_wf_of lc own : lc_logs_ok lc -> log_wf (lc_heap lc) (log_of lc own).
Proof. intros [Hl _]. destruct own; [apply (lo_B _ _ _ Hl)|apply (lo_A _ _ _ Hl)]. Qed.

Lemma removals_of lc own : lc_logs_ok lc ->
  removals (lc_heap lc) (log_of lc (negb own)) (log_of lc own).
Proof. intros [Hl _]. destruct own; [apply (lo_AB _ _ _ Hl)|apply (lo_BA _ _ _ Hl)]. Qed.

(** The views of two well-formed logs are paired once the evaluation found the
    parents. *)
Lemma paired_views lc rc own (amt : PaymentDescriptor -> Z) i j :
  lc_logs_ok lc -> (forall p q, p ∈ entries (log_of lc (negb own)) -> parent_of lc own p q ->
     amt (deref (lc_heap lc) p) = amt (deref (lc_heap lc) q)) ->
  (forall p, p ∈ entries (log_of lc own) -> pd_EntryType (deref (lc_heap lc) p) = Add ->
     addHeight rc (deref (lc_heap lc) p) <> 0 -> pd_LogIndex (deref (lc_heap lc) p) < i) ->
  (forall p, p ∈ below (lc_heap lc) j (log_of lc (negb own)) ->
     is_removal (pd_EntryType (deref (lc_heap lc) p)) = true ->
     exists q, parent_of lc own p q /\ (pd_EntryType (deref (lc_heap lc) q) = Add ->
       addHeight rc (deref (lc_heap lc) q) <> 0)) ->
  paired rc amt (lc_heap lc) (below (lc_heap lc) i (log_of lc own))
    (below (lc_heap lc) j (log_of lc (negb own))).
Proof.
  intros Hok Hamt Hin Hpar. pose proof (log_wf_of lc own Hok) as Hw.
  pose proof (log_wf_of lc (negb own) Hok) as Hw'. pose proof (removals_of lc own Hok) as Hrm.
  split.
  - apply NoDup_below, (lw_nodup _ _ Hw).
  - apply NoDup_below, (lw_nodup _ _ Hw').
  - intros r r' [Hr _]%elem_of_below [Hr' _]%elem_of_below. by apply (rm_unique _ _ _ Hrm).
  - intros a a' [Ha _]%elem_of_below [Ha' _]%elem_of_below Ht Ht' Hi.
    pose proof (proj2 (lw_htlc _ _ Hw _ a) (conj Ha (conj Ht Hi))).
    pose proof (proj2 (lw_htlc _ _ Hw _ a') (conj Ha' (conj Ht' eq_refl))). congruence.
  - intros r Hr Ht. destruct (Hpar r Hr Ht) as (q & Hq & Hah). destruct Hq as [_ Hlk].
    pose proof Hlk as (Hqin & Hqa & Hqi)%(lw_htlc _ _ Hw). exists q.
    split; [apply elem_of_below; by auto|]. repeat (split; [by auto|]).
    symmetry. apply Hamt; [by apply elem_of_below in Hr as [? _]|done].
Qed.

Lemma parent_of_touched T lc lc' own p q : touched T lc lc' -> parent_of lc' own p q <-> parent_of lc own p q.
Proof.
  intros Ht. unfold parent_of. rewrite (touched_log _ _ _ own Ht).
  destruct (touched_same_read _ _ _ p Ht) as (-> & -> & _). done.
Qed.

(** The four loops, on two lists without a common element. *)
Lemma eval_loops nextHeight rc mutate (amt : PaymentDescriptor -> Z) (total : balances -> Z) ours theirs s0
    skipThem s1 skipUs s2 l3 s3 l4 s4 :
  (forall a b, pd_core a = pd_core b -> amt a = amt b) ->
  (forall pd b, eqw 64 (total (credit_us pd b)) (total b + amt pd)) ->
  (forall pd b, eqw 64 (total (credit_them pd b)) (total b + amt pd)) ->
  (forall pd b, eqw 64 (total (debit_us pd b)) (total b - amt pd)) ->
  (forall pd b, eqw 64 (total (debit_them pd b)) (total b - amt pd)) ->
  NoDup ours -> NoDup theirs -> (forall p, p ∈ ours -> p ∈ theirs -> False) ->
  let h := lc_heap (ev_lc s0) in
  eval_removals nextHeight rc mutate true ours ∅ s0 = (Ok skipThem, s1) ->
  eval_removals nextHeight rc mutate false theirs ∅ s1 = (Ok skipUs, s2) ->
  eval_adds nextHeight rc mutate false skipUs ours s2 = (Ok l3, s3) ->
  eval_adds nextHeight rc mutate true skipThem theirs s3 = (Ok l4, s4) ->
  l3 = filter (kept h skipUs) ours /\ l4 = filter (kept h skipThem) theirs /\
  eqw 64 (total (ev_bal s4)) (total (ev_bal s0) + zsum (given rc amt h <$> ours) + zsum (given rc amt h <$> theirs)
    - zsum (taken rc amt h <$> l3) - zsum (taken rc amt h <$> l4)) /\
  (forall i, i ∈ skipThem <-> exists p q, p ∈ ours /\ parent_of (ev_lc s0) true p q /\ pd_HtlcIndex (deref h q) = i) /\
  (forall i, i ∈ skipUs <-> exists p q, p ∈ theirs /\ parent_of (ev_lc s0) false p q /\ pd_HtlcIndex (deref h q) = i) /\
  (forall p, p ∈ ours -> is_removal (pd_EntryType (deref h p)) = true -> exists q, parent_of (ev_lc s0) true p q /\
     (pd_EntryType (deref h q) = Add -> addHeight rc (deref h q) <> 0)) /\
  (forall p, p ∈ theirs -> is_removal (pd_EntryType (deref h p)) = true -> exists q, parent_of (ev_lc s0) false p q /\
     (pd_EntryType (deref h q) = Add -> addHeight rc (deref h q) <> 0)).
Proof.
  intros Hcore Hcu Hct Hdu Hdt Hno Hnt Hdis h E1 E2 E3 E4.
  destruct (eval_removals_Ok nextHeight rc mutate amt total Hcore Hcu Hct Hdu Hdt _ _ _ _ _ _ Hno E1) as (B1 & S1 & P1).
  destruct (eval_removals_Ok nextHeight rc mutate amt total Hcore Hcu Hct Hdu Hdt _ _ _ _ _ _ Hnt E2) as (B2 & S2 & P2).
  destruct (eval_adds_Ok nextHeight rc mutate amt total Hcore Hcu Hct Hdu Hdt _ _ _ _ _ _ Hno E3) as (L3 & B3).
  destruct (eval_adds_Ok nextHeight rc mutate amt total Hcore Hcu Hct Hdu Hdt _ _ _ _ _ _ Hnt E4) as (L4 & B4).
  destruct (eval_removals_frame _ _ _ _ _ _ _ _ _ E1) as [T1 _].
  destruct (eval_removals_frame _ _ _ _ _ _ _ _ _ E2) as [T2 _].
  destruct (eval_adds_frame _ _ _ _ _ _ _ _ _ E3) as [T3 _].
  set (h1 := lc_heap (ev_lc s1)) in *. set (h2 := lc_heap (ev_lc s2)) in *. set (h3 := lc_heap (ev_lc s3)) in *.
  assert (R1 : forall p, p ∈ theirs \/ pd_EntryType (deref h p) = Add -> deref h1 p = deref h p).
  { intros p Hp. apply (to_same _ _ _ T1). intros [Ho Hna]. destruct Hp; [by apply (Hdis p)|done]. }
  assert (R2 : forall p, pd_EntryType (deref h p) = Add -> deref h2 p = deref h p).
  { intros p Hp. rewrite <- R1 by (by right). apply (to_same _ _ _ T2). intros [_ Hna]. apply Hna. by rewrite R1 by (by right). }
  assert (R3 : forall p, p ∈ theirs -> pd_EntryType (deref h p) = Add -> deref h3 p = deref h p).
  { intros p Hp Ha. rewrite <- R2 by done. apply (to_same _ _ _ T3). intros [Ho _]. by apply (Hdis p). }
  assert (C1 : forall p, pd_EntryType (deref h1 p) = pd_EntryType (deref h p) /\
    pd_HtlcIndex (deref h1 p) = pd_HtlcIndex (deref h p)).
  { intros p. by destruct (touched_same_read _ _ _ p T1) as (? & _ & ?). }
  assert (C2 : forall p, pd_EntryType (deref h2 p) = pd_EntryType (deref h p) /\
    pd_HtlcIndex (deref h2 p) = pd_HtlcIndex (deref h p)).
  { intros p. destruct (touched_same_read _ _ _ p T2) as (? & _ & ?), (C1 p). split; by etrans. }
  assert (C3 : forall p, pd_EntryType (deref h3 p) = pd_EntryType (deref h p) /\
    pd_HtlcIndex (deref h3 p) = pd_HtlcIndex (deref h p)).
  { intros p. destruct (touched_same_read _ _ _ p T3) as (? & _ & ?), (C2 p). split; by etrans. }
  assert (K2 : forall sk, filter (kept h2 sk) ours = filter (kept h sk) ours).
  { intros sk. apply Prelude.filter_ext_in. intros p _. unfold kept. by destruct (C2 p) as [-> ->]. }
  assert (K3 : forall sk, filter (kept h3 sk) theirs = filter (kept h sk) theirs).
  { intros sk. apply Prelude.filter_ext_in. intros p _. unfold kept. by destruct (C3 p) as [-> ->]. }
  rewrite K2 in L3. rewrite K3 in L4.
  assert (G : zsum (given rc amt h1 <$> theirs) = zsum (given rc amt h <$> theirs)).
  { apply zsum_ext_in. intros p Hp. unfold given. by rewrite R1 by (by left). }
  assert (K : zsum (taken rc amt h2 <$> l3) = zsum (taken rc amt h <$> l3)).
  { apply zsum_ext_in. rewrite L3. intros p [[Ha _] _]%list_elem_of_filter. unfold taken. by rewrite R2. }
  assert (K' : zsum (taken rc amt h3 <$> l4) = zsum (taken rc amt h <$> l4)).
  { apply zsum_ext_in. rewrite L4. intros p [[Ha _] Hp]%list_elem_of_filter. unfold taken. by rewrite R3. }
  rewrite G in B2. rewrite K in B3. rewrite K' in B4.
  split; [done|split; [done|]]. split; [by rewrite B4, B3, B2, B1|].
  split; [|split; [|split; [done|]]].
  - intros i. rewrite S1. setoid_rewrite elem_of_empty. tauto.
  - intros i. rewrite S2. setoid_rewrite elem_of_empty.
    setoid_rewrite (fun p q => parent_of_touched _ _ _ false p q T1).
    assert (Hi : forall q, pd_HtlcIndex (deref h1 q) = pd_HtlcIndex (deref h q)) by apply C1.
    setoid_rewrite Hi. tauto.
  - intros p Hp Hrm. destruct (P2 p Hp) as (q & Hq & Ha).
    { by rewrite R1 by (by left). }
    exists q. split; [by apply (parent_of_touched _ _ _ false p q T1)|].
    intros Hadd. rewrite <- R1 by (by right). apply Ha. by rewrite R1 by (by right).
Qed.

(** The skip set of one side, by the removals of the other. *)
Lemma skip_indexes lc (rs : list ptr) own (skip : gset Z) : lc_logs_ok lc ->
  (forall i, i ∈ skip <-> exists p q, p ∈ rs /\ parent_of lc own p q /\ pd_HtlcIndex (deref (lc_heap lc) q) = i) ->
  (forall p, p ∈ rs -> is_removal (pd_EntryType (deref (lc_heap lc) p)) = true -> exists q, parent_of lc own p q) ->
  forall i, i ∈ skip <-> exists r, r ∈ rs /\ is_removal (pd_EntryType (deref (lc_heap lc) r)) = true /\
    pd_ParentIndex (deref (lc_heap lc) r) = i.
Proof.
  intros Hok Hs Hp i. pose proof (log_wf_of lc own Hok) as Hw. rewrite Hs.
  assert (Hidx : forall p q, parent_of lc own p q ->
    pd_HtlcIndex (deref (lc_heap lc) q) = pd_ParentIndex (deref (lc_heap lc) p)).
  { intros p q [_ Hlk]. by apply (lw_htlc _ _ Hw) in Hlk as (_ & _ & ?). }
  split.
  - intros (p & q & Hin & Hq & <-). exists p. split; [done|]. split; [apply Hq|]. by rewrite (Hidx p q).
  - intros (p & Hin & Hr & <-). destruct (Hp p Hin Hr) as (q & Hq). exists p, q.
    split; [done|]. split; [done|by apply Hidx].
Qed.

(** What the evaluation of a view does to a currency's total: mod [2 ^ 64], the
    coins of both sides and of the HTLCs that stay are those of the start and of
    the HTLCs pending so far. *)
Lemma evaluate_conserves nextHeight rc mutate (amt : PaymentDescriptor -> Z) (total : balances -> Z)
    lc b i j fee v s' :
  (forall a b, pd_core a = pd_core b -> amt a = amt b) ->
  (forall pd b, eqw 64 (total (credit_us pd b)) (total b + amt pd)) ->
  (forall pd b, eqw 64 (total (credit_them pd b)) (total b + amt pd)) ->
  (forall pd b, eqw 64 (total (debit_us pd b)) (total b - amt pd)) ->
  (forall pd b, eqw 64 (total (debit_them pd b)) (total b - amt pd)) ->
  lc_logs_ok lc -> in_view lc rc j i ->
  (forall own p q, p ∈ entries (log_of lc (negb own)) -> parent_of lc own p q ->
     amt (deref (lc_heap lc) p) = amt (deref (lc_heap lc) q)) ->
  (ChanAssetID (channelState lc) <= BtcAssetId \/
   forall c c' b, total (b <| ourBtc := c |> <| theirBtc := c' |>) = total b) ->
  let h := lc_heap lc in
  let ours := below h i (localUpdateLog lc) in
  let theirs := below h j (remoteUpdateLog lc) in
  evaluateHTLCView nextHeight rc mutate (mkHtlcView ours theirs fee) (mkEval lc b 0) = (Ok v, s') ->
  eqw 64 (total (ev_bal s') + zsum ((fun p => amt (deref h p)) <$> ourUpdates v ++ theirUpdates v))
         (total b + zsum ((fun p => amt (deref h p)) <$> pending rc h ours theirs ++ pending rc h theirs ours)).
Proof.
  intros Hcore Hcu Hct Hdu Hdt Hok Hin Hamt Hasset h ours theirs Hrun.
  unfold evaluateHTLCView in Hrun. cbn [ourUpdates theirUpdates] in Hrun.
  rewrite (M_bind_run (modify _) _ _ tt _ eq_refl) in Hrun.
  set (s0 := mkEval lc b 0 <| ev_feePerKw := _ |>) in Hrun.
  apply M_bind_Ok in Hrun as (skipThem & s1 & E1 & Hrun).
  apply M_bind_Ok in Hrun as (skipUs & s2 & E2 & Hrun).
  apply M_bind_Ok in Hrun as (l3 & s3 & E3 & Hrun).
  apply M_bind_Ok in Hrun as (l4 & s4 & E4 & Hrun).
  pose proof (lk_logs _ Hok) as Hlogs.
  assert (Hdis : forall p, p ∈ ours -> p ∈ theirs -> False).
  { intros p [Hp _]%elem_of_below [Hp' _]%elem_of_below. by apply (lo_disjoint _ _ _ Hlogs p). }
  destruct (eval_loops nextHeight rc mutate amt total ours theirs s0 _ _ _ _ _ _ _ _ Hcore Hcu Hct Hdu Hdt
    (NoDup_below _ _ _ (lw_nodup _ _ (lo_A _ _ _ Hlogs))) (NoDup_below _ _ _ (lw_nodup _ _ (lo_B _ _ _ Hlogs)))
    Hdis E1 E2 E3 E4) as (L3 & L4 & Hbal & S1 & S2 & P1 & P2).
  change (lc_heap (ev_lc s0)) with h in *. change (ev_lc s0) with lc in *. change (ev_bal s0) with b in Hbal.
  assert (Htot : eqw 64 (total (ev_bal s')) (total (ev_bal s4)) /\ ourUpdates v = l3 /\ theirUpdates v = l4).
  { destruct (eval_removals_frame _ _ _ _ _ _ _ _ _ E1) as [T1 _].
    destruct (eval_removals_frame _ _ _ _ _ _ _ _ _ E2) as [T2 _].
    destruct (eval_adds_frame _ _ _ _ _ _ _ _ _ E3) as [T3 _].
    destruct (eval_adds_frame _ _ _ _ _ _ _ _ _ E4) as [T4 _].
    assert (Hid : ChanAssetID (channelState (ev_lc s4)) = ChanAssetID (channelState lc)).
    { assert (Hc : totals_only (channelState lc) (channelState (ev_lc s4))).
      { etrans; [apply (to_totals _ _ _ T1)|]. etrans; [apply (to_totals _ _ _ T2)|].
        etrans; [apply (to_totals _ _ _ T3)|apply (to_totals _ _ _ T4)]. }
      by rewrite Hc. }
    unfold mbind, M_bind, gets, when, modify, mret, M_ret in Hrun. cbn in Hrun. rewrite Hid in Hrun.
    destruct (Z.ltb_spec BtcAssetId (ChanAssetID (channelState lc))); injection Hrun as <- <-; cbn; [|done].
    destruct Hasset as [?|Ht]; [lia|]. by rewrite Ht. }
  destruct Htot as (Htot & -> & ->).
  assert (Q1 : paired rc amt h ours theirs).
  { apply (paired_views lc rc false amt i j Hok); [by apply (Hamt false)|by apply (Hin false)|exact P2]. }
  assert (Q2 : paired rc amt h theirs ours).
  { apply (paired_views lc rc true amt j i Hok); [by apply (Hamt true)|by apply (Hin true)|exact P1]. }
  pose proof (side_conservation rc amt h ours theirs skipUs Q1
    ltac:(refine (skip_indexes lc theirs false skipUs Hok S2 _); intros p Hp Hr; destruct (P2 p Hp Hr) as (q & Hq & _);
          by exists q)) as C1.
  pose proof (side_conservation rc amt h theirs ours skipThem Q2
    ltac:(refine (skip_indexes lc ours true skipThem Hok S1 _); intros p Hp Hr; destruct (P1 p Hp Hr) as (q & Hq & _);
          by exists q)) as C2.
  cbn zeta in C1, C2. rewrite <- L3 in C1. rewrite <- L4 in C2.
  rewrite !fmap_app, !zsum_app, <- C1, <- C2, Htot, Hbal.
  match goal with |- eqw _ ?a ?b => replace a with b by lia end. done.
Qed.
End Views.

(** ** [computeView] and [validateCommitmentSanity] *)
Section Properties.
Context `{CurveOps}.

Lemma evaluate_run nextHeight rc mutate view b lc :
  exists r s', evaluateHTLCView nextHeight rc mutate view (mkEval lc b 0) = (r, s') /\
    evaluate nextHeight rc mutate view b lc =
      (match r with Ok v => Ok (v, ev_bal s') | Err e => Err e | Panic => Panic end, ev_lc s') /\
    touched (fun q => q ∈ ourUpdates view ++ theirUpdates view) lc (ev_lc s') /\
    (mutate = false -> ev_lc s' = lc).
Proof.
  unfold evaluate. destruct (evaluateHTLCView _ _ _ _ _) as [r s'] eqn:E.
  exists r, s'. split; [done|]. split; [by destruct r|].
  apply (evaluate_frame _ _ _ _ _ _ _ E).
Qed.

Lemma tipM_run rc lc : tipM rc lc = (tip (commit_chain lc rc), lc).
Proof. done. Qed.

(** A successful view, with the evaluation it comes from. *)
Lemma computeView_Ok view rc upd lc bal w v lc' :
  computeView view rc upd lc = (Ok (bal, w, v), lc') ->
  exists c s', tip (commit_chain lc rc) = Ok c /\
    evaluateHTLCView (u64 (c_height c + 1)) rc upd
      (mkHtlcView (ourUpdates view) (theirUpdates view) (c_feePerKw c))
      (mkEval lc (start_balances (IsInitiator (channelState lc)) c) 0) = (Ok v, s') /\
    bal = ev_bal s' /\ lc' = ev_lc s' /\
    w = i64 (CommitWeight (ChanType (channelState lc')) +
             i64 (htlc_weight lc' rc false (v_feePerKw v) (ourUpdates v) +
                  htlc_weight lc' rc true (v_feePerKw v) (theirUpdates v))).
Proof.
  unfold computeView. intros Hrun. apply M_bind_Ok in Hrun as (c & l1 & Ht & Hrun).
  rewrite tipM_run in Ht. destruct (tip (commit_chain lc rc)) as [c0|e|]; try done. injection Ht as -> <-.
  rewrite (M_bind_run (gets _) _ lc (IsInitiator (channelState lc)) lc eq_refl) in Hrun.
  apply M_bind_Ok in Hrun as ([v0 b0] & l2 & He & Hrun).
  destruct (evaluate_run (u64 (c_height c + 1)) rc upd (mkHtlcView (ourUpdates view) (theirUpdates view) (c_feePerKw c))
    (start_balances (IsInitiator (channelState lc)) c) lc) as (r & s' & Hev & Hrun' & _ & _).
  rewrite Hrun' in He. destruct r as [v1|e|]; try done. injection He as <- <- <-.
  unfold mbind, M_bind, gets, mret, M_ret in Hrun. cbn in Hrun. injection Hrun as <- <- <- <-.
  exists c, s'. done.
Qed.

(** Without the permission to mutate nothing is written, whatever the outcome. *)
Lemma computeView_frame view rc upd lc :
  touched (fun q => q ∈ ourUpdates view ++ theirUpdates view) lc (snd (computeView view rc upd lc)) /\
  (upd = false -> snd (computeView view rc upd lc) = lc).
Proof.
  unfold computeView. destruct (tip (commit_chain lc rc)) as [c|e|] eqn:Ht.
  2,3: rewrite (M_bind_pair (tipM rc) _ lc _ lc eq_refl), Ht; split; [apply touched_refl|done].
  rewrite (M_bind_run (tipM rc) _ lc c lc) by (by rewrite tipM_run, Ht).
  rewrite (M_bind_run (gets _) _ lc (IsInitiator (channelState lc)) lc eq_refl).
  destruct (evaluate_run (u64 (c_height c + 1)) rc upd (mkHtlcView (ourUpdates view) (theirUpdates view) (c_feePerKw c))
    (start_balances (IsInitiator (channelState lc)) c) lc) as (r & s' & _ & Hrun & Ht' & Hm).
  rewrite (M_bind_pair _ _ _ _ _ Hrun).
  destruct r as [v|e|]; cbn; split; done.
Qed.

Lemma validate_pure j i rc p q lc : snd (validateCommitmentSanity j i rc p q lc) = lc.
Proof.
  unfold validateCommitmentSanity. rewrite (M_bind_run (gets _) _ lc (lc_heap lc) lc eq_refl).
  unfold mbind at 1, M_bind at 1, check. destruct (opt_test misses_asset _ p); [done|].
  destruct (_ || _); [done|].
  unfold mbind at 1, M_bind at 1. destruct (opt_test misses_asset _ q); [done|].
  rewrite (M_bind_run (gets _) _ lc (fetchHTLCView lc j i) lc eq_refl).
  rewrite (M_bind_pair (tipM rc) _ lc _ lc eq_refl). destruct (tip _) as [c| |]; [|done..].
  set (vw := mkHtlcView _ _ _). pose proof (proj2 (computeView_frame vw rc false lc) eq_refl) as Hp.
  destruct (computeView vw rc false lc) as [r lc1] eqn:Hc. cbn in Hp. subst lc1.
  rewrite (M_bind_pair _ _ _ _ _ Hc). destruct r as [[[b w] v]| |]; done.
Qed.

(** The HTLCs of a view that passed: number and amount in flight within the
    constraints, every amount positive and not below the minimum. *)
Definition within (cfg : ChannelConfig) (h : heap) (ps : list ptr) : Prop :=
  let adds := filter (fun p => pd_EntryType (deref h p) = Add) ps in
  u16 (Z.of_nat (length adds)) <= MaxAcceptedHtlcs cfg /\
  u64 (zsum ((fun p => GetMsgAmt (deref h p)) <$> adds)) <= MaxPendingAmount cfg /\
  forall p, p ∈ adds -> GetMsgAmt (deref h p) <> 0 /\ MinHTLC cfg <= GetMsgAmt (deref h p).

Lemma in_flight_Ok cfg h es n a n' a' : in_flight cfg h es n a = Ok (n', a') ->
  let adds := filter (fun p => pd_EntryType (deref h p) = Add) es in
  eqw 16 n' (n + Z.of_nat (length adds)) /\ eqw 64 a' (a + zsum ((fun p => GetMsgAmt (deref h p)) <$> adds)) /\
  (is_uint 16 n -> is_uint 16 n') /\ (is_uint 64 a -> is_uint 64 a') /\
  forall p, p ∈ adds -> GetMsgAmt (deref h p) <> 0 /\ MinHTLC cfg <= GetMsgAmt (deref h p).
Proof.
  revert n a. induction es as [|e es IH]; intros n a Hrun; cbn in Hrun.
  { injection Hrun as <- <-. cbn. rewrite !Z.add_0_r. repeat (split; [done|]).
    intros p Hp. by apply not_elem_of_nil in Hp. }
  cbn zeta. rewrite filter_cons. case_bool_decide as Ht; [rewrite decide_True by done|rewrite decide_False by done; by apply IH].
  apply res_bind_Ok in Hrun as ([] & G1 & Hrun). apply res_bind_Ok in Hrun as ([] & G2 & Hrun).
  unfold guard_err in G1, G2. destruct (Z.eqb_spec (GetMsgAmt (deref h e)) 0) as [|E1]; [done|].
  destruct (Z.ltb_spec (GetMsgAmt (deref h e)) (MinHTLC cfg)) as [|E2]; [done|].
  destruct (IH _ _ Hrun) as (Hn & Ha & Hrn & Hra & Hall). rewrite fmap_cons, zsum_cons. cbn [length].
  split; [|split; [|split; [|split]]].
  - rewrite Hn, eqw_uwrap. match goal with |- eqw _ ?x ?y => replace x with y by lia end. done.
  - rewrite Ha, eqw_uwrap. by rewrite Z.add_assoc.
  - intros _. apply Hrn. by apply uwrap_range.
  - intros _. apply Hra. by apply uwrap_range.
  - intros p [->|Hp]%elem_of_cons; [done|by apply Hall].
Qed.

Lemma validateUpdates_Ok cfg h ps u : validateUpdates cfg h ps = Ok u -> within cfg h ps.
Proof.
  unfold validateUpdates. intros Hrun. apply res_bind_Ok in Hrun as ([n a] & Hf & Hrun).
  apply res_bind_Ok in Hrun as ([] & G1 & G2). unfold guard_err in G1, G2.
  destruct (Z.ltb_spec (MaxPendingAmount cfg) a) as [|E1]; [done|].
  destruct (Z.ltb_spec (MaxAcceptedHtlcs cfg) n) as [|E2]; [done|].
  apply in_flight_Ok in Hf as (Hn & Ha & Hrn & Hra & Hall).
  assert (Hz : forall w, 0 <= w -> is_uint w 0) by (unfold is_uint; intros; split; [done|apply Z.pow_pos_nonneg; lia]).
  split; [|split; [|done]].
  - replace (u16 _) with n; [done|]. symmetry. apply (eqw_eq_uint 16); [by apply uwrap_range|by apply Hrn, Hz|].
    rewrite eqw_uwrap. symmetry. exact Hn.
  - replace (u64 _) with a; [done|]. symmetry. apply (eqw_eq_uint 64); [by apply uwrap_range|by apply Hra, Hz|].
    rewrite eqw_uwrap. symmetry. exact Ha.
Qed.

(** The HTLCs of both logs a chain carries when the logs are cut at these
    indexes. *)
Definition carried (rc : bool) (lc : LightningChannel) (theirLogIndex ourLogIndex : Z) : list ptr :=
  let v := fetchHTLCView lc theirLogIndex ourLogIndex in
  pending rc (lc_heap lc) (ourUpdates v) (theirUpdates v) ++ pending rc (lc_heap lc) (theirUpdates v) (ourUpdates v).

Definition btc_sum (h : heap) (ps : list ptr) : Z := zsum ((fun p => pd_BtcAmount (deref h p)) <$> ps).
Definition asset_sum (h : heap) (ps : list ptr) : Z := zsum ((fun p => pd_AssetAmount (deref h p)) <$> ps).

(** The two currencies. *)
Lemma asset_conserved lc rc upd theirIdx ourIdx c bal w v lc' :
  lc_logs_ok lc -> in_view lc rc theirIdx ourIdx -> tip (commit_chain lc rc) = Ok c ->
  computeView (fetchHTLCView lc theirIdx ourIdx) rc upd lc = (Ok (bal, w, v), lc') ->
  eqw 64 (ourAsset bal + theirAsset bal + asset_sum (lc_heap lc) (ourUpdates v ++ theirUpdates v))
    (c_ourAssetBalance c + c_theirAssetBalance c + asset_sum (lc_heap lc) (carried rc lc theirIdx ourIdx)).
Proof.
  intros Hok Hin Ht Hrun. destruct (computeView_Ok _ _ _ _ _ _ _ _ Hrun) as (c' & s' & Ht' & Hev & -> & _ & _).
  rewrite Ht in Ht'. injection Ht' as <-.
  set (b := start_balances _ c) in Hev. cbn [ourUpdates theirUpdates fetchHTLCView] in Hev. assert (Hz : 0 < 64) by lia.
  refine (evaluate_conserves _ rc upd pd_AssetAmount (fun b => ourAsset b + theirAsset b) lc b ourIdx theirIdx _ v s'
      _ _ _ _ _ Hok Hin _ (or_intror (fun _ _ _ => eq_refl)) Hev); cbn.
  1: { intros a1 a2 E. by destruct (core_fields a1 a2 E) as (_ & _ & _ & _ & _ & ? & _). }
  5: { intros own p q Hp Hq. by destruct (lk_amounts _ Hok own p q Hp Hq). }
  all: intros pd b0; rewrite (eqw_swrap 64 _ Hz); apply eqw_of_eq; lia.
Qed.

Lemma btc_conserved lc rc upd theirIdx ourIdx c bal w v lc' :
  lc_logs_ok lc -> in_view lc rc theirIdx ourIdx -> tip (commit_chain lc rc) = Ok c ->
  computeView (fetchHTLCView lc theirIdx ourIdx) rc upd lc = (Ok (bal, w, v), lc') ->
  ChanAssetID (channelState lc) <= BtcAssetId ->
  eqw 64 (ourBtc bal + theirBtc bal + btc_sum (lc_heap lc) (ourUpdates v ++ theirUpdates v))
    (c_ourBtcBalance c + c_theirBtcBalance c + NewMSatFromSatoshis (c_fee c) +
     btc_sum (lc_heap lc) (carried rc lc theirIdx ourIdx)).
Proof.
  intros Hok Hin Ht Hrun Hbtc. destruct (computeView_Ok _ _ _ _ _ _ _ _ Hrun) as (c' & s' & Ht' & Hev & -> & _ & _).
  rewrite Ht in Ht'. injection Ht' as <-.
  set (b := start_balances _ c) in Hev. cbn [ourUpdates theirUpdates fetchHTLCView] in Hev.
  pose proof (evaluate_conserves (u64 (c_height c + 1)) rc upd pd_BtcAmount (fun b => ourBtc b + theirBtc b) lc b ourIdx theirIdx
    (c_feePerKw c) v s') as Hc. cbn in Hc.
  assert (Hb : eqw 64 (ourBtc b + theirBtc b) (c_ourBtcBalance c + c_theirBtcBalance c + NewMSatFromSatoshis (c_fee c))).
  { unfold b, start_balances. cbn. destruct (IsInitiator _); rewrite eqw_uwrap; apply eqw_of_eq; lia. }
  rewrite <- Hb. apply Hc; try done; try (by left).
  1: { intros a1 a2 E. by destruct (core_fields a1 a2 E) as (_ & _ & _ & _ & ? & _). }
  5: { intros own p q Hp Hq. by destruct (lk_amounts _ Hok own p q Hp Hq). }
  all: intros pd b0; rewrite eqw_uwrap; apply eqw_of_eq; lia.
Qed.

(** C33. Conservation: whatever updates a view of well-formed logs applies (new
    HTLCs, settles, fails), and whether or not it records heights, the balances it
    computes together with the HTLCs it keeps are worth exactly the balances of
    the last commitment, the fee given back to the opener, and the HTLCs that
    commitment carried; for the asset always, for bitcoin in a bitcoin channel
    (an asset channel overwrites the bitcoin balances).  Amounts are compared
    modulo [2 ^ 64], the width the code computes in. *)
Theorem view_conserves (lc : LightningChannel) (rc upd : bool) (theirIdx ourIdx : Z)
    (c : commitment) (bal : balances) (w : Z) (v : htlcView) (lc' : LightningChannel) :
  lc_logs_ok lc -> in_view lc rc theirIdx ourIdx -> tip (commit_chain lc rc) = Ok c ->
  computeView (fetchHTLCView lc theirIdx ourIdx) rc upd lc = (Ok (bal, w, v), lc') ->
  let h := lc_heap lc in
  let active := ourUpdates v ++ theirUpdates v in
  eqw 64 (ourAsset bal + theirAsset bal + asset_sum h active)
         (c_ourAssetBalance c + c_theirAssetBalance c + asset_sum h (carried rc lc theirIdx ourIdx)) /\
  (ChanAssetID (channelState lc) <= BtcAssetId ->
   eqw 64 (ourBtc bal + theirBtc bal + btc_sum h active)
          (c_ourBtcBalance c + c_theirBtcBalance c + NewMSatFromSatoshis (c_fee c) +
           btc_sum h (carried rc lc theirIdx ourIdx))).
Proof.
  intros Hok Hin Ht Hrun h active.
  split; [by eapply asset_conserved|]. intros Hbtc. by eapply btc_conserved.
Qed.

(** An accepted view. *)
Lemma sanity_Ok (lc : LightningChannel) (theirIdx ourIdx : Z) (rc : bool) (p q : option ptr) :
  let h := lc_heap lc in
  let res := validateCommitmentSanity theirIdx ourIdx rc p q lc in
  fst res = Ok tt -> opt_test is_asset h p = false -> opt_test is_asset h q = false ->
   let cs := channelState lc in
   let view := fetchHTLCView lc theirIdx ourIdx in
   exists c bal w v, tip (commit_chain lc rc) = Ok c /\
     computeView (mkHtlcView (ourUpdates view ++ opt_list p) (theirUpdates view ++ opt_list q) 0) rc false lc =
       (Ok (bal, w, v), lc) /\
     within (RemoteChanCfg cs) h (theirUpdates v) /\ within (LocalChanCfg cs) h (ourUpdates v) /\
     FeePerKwFloor <= v_feePerKw v /\
     let bal := pay_fee (IsInitiator cs) (NewMSatFromSatoshis (FeeForWeight (v_feePerKw v) w)) bal in
     let asset := ChanAssetID cs in
     0 <= i64 (ourBtc bal) /\ 0 <= i64 (theirBtc bal) /\
     (our_amount asset bal < our_amount asset (tip_balances c) ->
        reserve asset (LocalChanCfg cs) <= our_amount asset bal) /\
     (their_amount asset bal < their_amount asset (tip_balances c) ->
        reserve asset (RemoteChanCfg cs) <= their_amount asset bal).
Proof.
  intros h res. unfold res, validateCommitmentSanity.
  rewrite (M_bind_run (gets _) _ lc (lc_heap lc) lc eq_refl). fold h.
  intros Hok Hp Hq. cbn zeta. set (cs := channelState lc). set (view := fetchHTLCView lc theirIdx ourIdx).
  revert Hok.
  unfold mbind at 1, M_bind at 1, check. destruct (opt_test misses_asset h p); [done|]. rewrite Hp, Hq. cbn [orb].
  unfold mbind at 1, M_bind at 1. destruct (opt_test misses_asset h q); [done|].
  rewrite (M_bind_run (gets (fun lc => fetchHTLCView lc theirIdx ourIdx)) _ lc view lc eq_refl).
  rewrite (M_bind_pair (tipM rc) _ lc _ lc eq_refl). destruct (tip _) as [c| |] eqn:Ht; [|done..].
  set (vw := mkHtlcView _ _ _). pose proof (proj2 (computeView_frame vw rc false lc) eq_refl) as Hpure.
  destruct (computeView vw rc false lc) as [r lc1] eqn:Hc. cbn in Hpure. subst lc1.
  rewrite (M_bind_pair _ _ _ _ _ Hc). destruct r as [[[bal w] v]| |]; [|done..].
  rewrite (M_bind_run (gets channelState) _ lc cs lc eq_refl). cbn. unfold check_view. intros Hok.
  exists c, bal, w, v. do 2 (split; [done|]).
  do 6 (apply res_bind_Ok in Hok as ([] & ? & Hok)). unfold guard_err in *.
  repeat match goal with E : (if ?b then Err _ else Ok _) = Ok _ |- _ => destruct b eqn:?; [done|]; clear E end.
  match goal with E : validateUpdates (RemoteChanCfg cs) h _ = Ok _ |- _ => apply validateUpdates_Ok in E end.
  apply validateUpdates_Ok in Hok.
  repeat match goal with E : (_ <? _) = false |- _ => apply Z.ltb_ge in E end.
  do 5 (split; [done|]).
  split; intros Hlt%Z.ltb_lt; rewrite Hlt in *; cbn [andb] in *;
    repeat match goal with E : (_ <? _) = false |- _ => apply Z.ltb_ge in E end; done.
Qed.

(** C34. The constraint check writes nothing, whatever it answers.  When it
    accepts a view without asset HTLCs, every HTLC of the resulting commitment is
    positive and at least the minimum, their number and their sum are within the
    limits of the side that offers them, the fee rate is at the floor, the opener
    can pay the fee, and no balance that went down is below its reserve.  A
    predicted asset HTLC is accepted unchecked, whatever it is worth. *)
Theorem sanity_enforces (lc : LightningChannel) (theirIdx ourIdx : Z) (rc : bool) (p q : option ptr) :
  let h := lc_heap lc in
  let res := validateCommitmentSanity theirIdx ourIdx rc p q lc in
  snd res = lc /\
  (opt_test is_asset h p = true -> fst res = Ok tt) /\
  (fst res = Ok tt -> opt_test is_asset h p = false -> opt_test is_asset h q = false ->
   let cs := channelState lc in
   let view := fetchHTLCView lc theirIdx ourIdx in
   exists c bal w v, tip (commit_chain lc rc) = Ok c /\
     computeView (mkHtlcView (ourUpdates view ++ opt_list p) (theirUpdates view ++ opt_list q) 0) rc false lc =
       (Ok (bal, w, v), lc) /\
     within (RemoteChanCfg cs) h (theirUpdates v) /\ within (LocalChanCfg cs) h (ourUpdates v) /\
     FeePerKwFloor <= v_feePerKw v /\
     let bal := pay_fee (IsInitiator cs) (NewMSatFromSatoshis (FeeForWeight (v_feePerKw v) w)) bal in
     let asset := ChanAssetID cs in
     0 <= i64 (ourBtc bal) /\ 0 <= i64 (theirBtc bal) /\
     (our_amount asset bal < our_amount asset (tip_balances c) ->
        reserve asset (LocalChanCfg cs) <= our_amount asset bal) /\
     (their_amount asset bal < their_amount asset (tip_balances c) ->
        reserve asset (RemoteChanCfg cs) <= their_amount asset bal)).
Proof.
  intros h res. split; [apply validate_pure|]. split; [|apply sanity_Ok].
  intros Ha. unfold res, validateCommitmentSanity. rewrite (M_bind_run (gets _) _ lc (lc_heap lc) lc eq_refl). fold h.
  assert (Hm : opt_test misses_asset h p = false).
  { destruct p as [p|]; [|done]. cbn in Ha |- *. unfold is_asset, misses_asset in *. by destruct (pd_AssetID _ =? _), (0 <? _). }
  unfold mbind, M_bind, check. by rewrite Hm, Ha.
Qed.
End Properties.

(** ** A concrete channel: of our two HTLCs the first is on both chains and
    settled by the peer, the second is new *)
#[local] Existing Instance toy_pubkeys.
#[local] Existing Instance toy_curve.

Definition toy_lc_heap (assetID : Z) : heap :=
  let asset pd := if assetID =? 0 then pd else pd <| pd_AssetID := assetID |> <| pd_AssetAmount := 5000 |> in
  [asset (toy_htlc 20000000 0 (Sum256 zero_hash) <| addCommitHeightLocal := 1 |> <| addCommitHeightRemote := 1 |>);
   asset (toy_htlc 30000000 1 (Sum256 [Byte.x02]));
   asset (zero_pd <| pd_EntryType := Settle |> <| pd_BtcAmount := 20000000 |> <| pd_RPreimage := zero_hash |>)].

Definition toy_local_log : updateLog :=
  markHtlcModified (appendHtlc (appendHtlc (newUpdateLog 0 0) 0) 1) 0.
Definition toy_remote_log : updateLog := appendUpdate (newUpdateLog 0 0) 2.

Definition toy_tip (isOurs : bool) (assetID height : Z) : commitment :=
  let bal := if assetID =? 0 then 0 else 500000 in
  mkCommitment height isOurs 1 0 1 0 (mkMsgTx 2 [] [] 0) [] 570000000 400000000 bal bal 10000 253 354 [] [] ∅ ∅.

Definition toy_lc (assetID : Z) : LightningChannel :=
  mkLC (toy_lc_heap assetID) 1000000 0 1 [toy_tip false assetID 1] [toy_tip true assetID 1]
    (toy_channel assetID None) [Byte.x01; Byte.x02; Byte.x03; Byte.x04; Byte.x05; Byte.x06]
    (mkSignDesc 5 [] [] (mkTxOut 1000000 []) 1 0) toy_local_log toy_remote_log.

Lemma toy_logs_ok assetID : logs_ok (toy_lc_heap assetID) toy_local_log toy_remote_log.
Proof.
  assert (F0 : logs_ok (toy_lc_heap assetID) (appendHtlc (newUpdateLog 0 0) 0) (newUpdateLog 0 0)).
  { apply appendHtlc_ok; [by apply logs_ok_new|cbn; lia|by apply not_elem_of_nil..| | | | |];
      unfold toy_lc_heap; by destruct (assetID =? 0). }
  assert (F1 : logs_ok (toy_lc_heap assetID) (appendHtlc (appendHtlc (newUpdateLog 0 0) 0) 1) (newUpdateLog 0 0)).
  { apply appendHtlc_ok; [exact F0|cbn; lia|cbn; by rewrite list_elem_of_singleton|by apply not_elem_of_nil| | | | |];
      unfold toy_lc_heap; by destruct (assetID =? 0). }
  apply logs_ok_sym in F1. apply logs_ok_sym. unfold toy_remote_log, toy_local_log.
  pose proof (appendRemoval_ok (toy_lc_heap assetID) (newUpdateLog 0 0)
    (appendHtlc (appendHtlc (newUpdateLog 0 0) 0) 1) 2 F1) as F2.
  replace (pd_ParentIndex (deref (toy_lc_heap assetID) 2)) with 0 in F2
    by (unfold toy_lc_heap; by destruct (assetID =? 0)).
  apply F2; try (unfold toy_lc_heap; by destruct (assetID =? 0)).
  - cbn. lia.
  - by apply not_elem_of_nil.
  - cbn. rewrite elem_of_cons, list_elem_of_singleton. by intros [?|?].
Qed.

Lemma toy_lc_ok assetID : lc_logs_ok (toy_lc assetID).
Proof.
  split; [apply toy_logs_ok|]. intros own p q Hp [Hr Hlk]. unfold toy_lc, toy_lc_heap in *. cbn in Hp, Hr, Hlk |- *.
  destruct own; cbn in Hp; [apply elem_of_cons in Hp as [->|Hp]|]; try apply list_elem_of_singleton in Hp as ->;
    destruct (assetID =? 0); try discriminate Hr; vm_compute in Hlk; injection Hlk as <-; done.
Qed.

Lemma toy_in_view assetID rc : in_view (toy_lc assetID) rc 1 2.
Proof.
  intros own p Hp Ha _. unfold toy_lc, toy_lc_heap in *. cbn in Hp, Ha |- *.
  destruct own; cbn in Hp; [apply list_elem_of_singleton in Hp as ->|
    apply elem_of_cons in Hp as [->| ->%list_elem_of_singleton]]; destruct (assetID =? 0);
    (discriminate Ha || (vm_compute; reflexivity)).
Qed.

(** What a computation returned. *)
Definition value_of {S E A} (d : A) (x : res E A * S) : A :=
  match x with (Ok a, _) => a | _ => d end.

Definition toy_view (assetID : Z) : balances * Z * htlcView :=
  value_of (mkBalances 0 0 0 0, 0, mkHtlcView [] [] 0)
    (computeView (fetchHTLCView (toy_lc assetID) 1 2) false true (toy_lc assetID)).

Lemma run_eq {S E A} (x : res E A * S) a : fst x = Ok a -> x = (Ok a, snd x).
Proof. destruct x as [r t]. cbn. by intros ->. Qed.

Lemma view_conserves_witness :
  toy_view 0 = (mkBalances 550000000 420000000 0 0, 896, mkHtlcView [1%nat] [] 253) /\
  eqw 64 (550000000 + 420000000 + 30000000) (570000000 + 400000000 + 10000000 + 20000000).
Proof.
  split; [vm_compute; reflexivity|].
  refine (proj2 (view_conserves (toy_lc 0) false true 1 2 (toy_tip true 0 1)
    (mkBalances 550000000 420000000 0 0) 896 (mkHtlcView [1%nat] [] 253) _
    (toy_lc_ok 0) (toy_in_view 0 false) eq_refl (run_eq _ _ _)) _); [|unfold BtcAssetId; cbn; lia].
  vm_compute. reflexivity.
Defined.

(** Adding an HTLC of 25 satoshis, and one of an asset that is worth nothing. *)
Definition toy_added (pd : PaymentDescriptor) (assetID : Z) : LightningChannel :=
  toy_lc assetID <| lc_heap ::= fun h => h ++ [pd] |>.

Lemma sanity_enforces_witness :
  let lc := toy_added (toy_htlc 25000000 2 zero_hash) 0 in
  let asset := toy_added (zero_pd <| pd_AssetID := 31 |>) 31 in
  fst (validateCommitmentSanity 1 2 true (Some 3%nat) None lc) = Ok tt /\
  fst (validateCommitmentSanity 1 2 true (Some 3%nat) None asset) = Ok tt /\
  (exists c bal w v, tip (commit_chain lc true) = Ok c /\
     computeView (mkHtlcView [0%nat; 1%nat; 3%nat] [2%nat] 0) true false lc = (Ok (bal, w, v), lc) /\
     within (toy_config 10000 354) (lc_heap lc) (ourUpdates v)).
Proof.
  intros lc asset.
  assert (F : fst (validateCommitmentSanity 1 2 true (Some 3%nat) None lc) = Ok tt) by (vm_compute; reflexivity).
  split; [exact F|]. split.
  - refine (proj1 (proj2 (sanity_enforces asset 1 2 true (Some 3%nat) None)) _). vm_compute. reflexivity.
  - destruct (proj2 (proj2 (sanity_enforces lc 1 2 true (Some 3%nat) None)) F) as
      (c & bal & w & v & Ht & Hc & _ & Hw & _); [vm_compute; reflexivity|vm_compute; reflexivity|].
    exists c, bal, w, v. split; [exact Ht|]. split; [exact Hc|exact Hw].
Defined.
