(* ===== verification/ChannelOps.v ===== *)
(** * The channel state machine: updates ([lnwallet/channel.go])

    The methods that add, settle and fail HTLCs and change the fee, on our log
    and on the peer's, with the checks that guard them and the balance they are
    checked against. *)

From S2P Require Import Prelude Wire Messages ChanIds Units Sha256 Shachain Tx OmniOp Keys Scripts FwdPkg UpdateLog ChanDB Commitment Channel.

Section Ops.
Context `{CurveOps}.

Abbreviation LC := (M LightningChannel chanerr).

Definition readM (p : ptr) : LC PaymentDescriptor := gets (fun lc => deref (lc_heap lc) p).

(** ** Adding an HTLC *)
Definition htlcAddDescriptor (lc : LightningChannel) (htlc : UpdateAddHTLC) (openKey : option CircuitKey)
    : PaymentDescriptor :=
  SetAmtFromMsgHtlc
    (zero_pd <| pd_EntryType := Add |> <| pd_RHash := add_PaymentHash htlc |>
      <| pd_Timeout := add_Expiry htlc |> <| pd_AssetID := add_AssetID htlc |>
      <| pd_LogIndex := logIndex (localUpdateLog lc) |>
      <| pd_HtlcIndex := htlcCounter (localUpdateLog lc) |>
      <| pd_OnionBlob := add_OnionBlob htlc |> <| pd_OpenCircuitKey := openKey |>) htlc.

Definition validateAddHtlc (p : ptr) : LC unit :=
  pd ← readM p;
  if BtcAssetId <? pd_AssetID pd then mret tt
  else
    _ ← check (misses_asset pd) ErrPredictAsset;
    tail ← tailM false;
    ours ← gets (fun lc => logIndex (localUpdateLog lc));
    theirs ← gets (fun lc => logIndex (remoteUpdateLog lc));
    _ ← validateCommitmentSanity (c_theirMessageIndex tail) ours true (Some p) None;
    validateCommitmentSanity theirs ours false (Some p) None.

Definition AddHTLC (htlc : UpdateAddHTLC) (openKey : option CircuitKey) : LC Z :=
  pd ← gets (fun lc => htlcAddDescriptor lc htlc openKey);
  p ← alloc pd;
  _ ← validateAddHtlc p;
  _ ← modify (fun lc => lc <| localUpdateLog ::= fun u => appendHtlc u p |>);
  mret (pd_HtlcIndex pd).

(** A zero onion blob, as in a literal that names none. *)
Definition zero_onion : bytes := replicate OnionPacketSize Byte.x00.

Definition mock_amount (lc : LightningChannel) (amt : Z) : Z :=
  let min := MinHTLC (LocalChanCfg (channelState lc)) in
  if negb (amt =? 0) then amt else if negb (min =? 0) then min else 1.

Definition mock_htlc (amount assetID : Z) : UpdateAddHTLC :=
  mkUpdateAddHTLC zero_hash 0 amount assetID zero_hash 0 zero_onion [].

Definition zero_circuit : CircuitKey := mkCircuitKey (mkSCID 0 0 0) 0.

Definition MayAddOutgoingHtlc (amt : Z) : LC unit :=
  pd ← gets (fun lc => htlcAddDescriptor lc
         (mock_htlc (mock_amount lc amt) (ChanAssetID (channelState lc))) (Some zero_circuit));
  p ← alloc pd;
  validateAddHtlc p.

Definition htlcReceiveDescriptor (lc : LightningChannel) (htlc : UpdateAddHTLC) : PaymentDescriptor :=
  SetAmtFromMsgHtlc
    (zero_pd <| pd_EntryType := Add |> <| pd_RHash := add_PaymentHash htlc |>
      <| pd_Timeout := add_Expiry htlc |> <| pd_AssetID := add_AssetID htlc |>
      <| pd_LogIndex := logIndex (remoteUpdateLog lc) |>
      <| pd_HtlcIndex := htlcCounter (remoteUpdateLog lc) |>
      <| pd_OnionBlob := add_OnionBlob htlc |>) htlc.

Definition ReceiveHTLC (htlc : UpdateAddHTLC) : LC Z :=
  counter ← gets (fun lc => htlcCounter (remoteUpdateLog lc));
  _ ← check (negb (add_ID htlc =? counter)) ErrHtlcIdMismatch;
  pd ← gets (fun lc => htlcReceiveDescriptor lc htlc);
  p ← alloc pd;
  tail ← tailM true;
  theirs ← gets (fun lc => logIndex (remoteUpdateLog lc));
  _ ← validateCommitmentSanity theirs (c_ourMessageIndex tail) false None (Some p);
  _ ← modify (fun lc => lc <| remoteUpdateLog ::= fun u => appendHtlc u p |>);
  mret (pd_HtlcIndex pd).

(** ** Removing an HTLC *)

(** The HTLC a removal targets: in the remote log for ours, in the local log for
    the peer's. *)
Definition targetHtlc (remoteLog : bool) (htlcIndex : Z) (already : Z -> chanerr) : LC PaymentDescriptor :=
  log ← gets (fun lc => log_of lc remoteLog);
  match lookupHtlc log htlcIndex with
  | None => throw (ErrUnknownHtlcIndex htlcIndex)
  | Some p =>
      _ ← check (htlcHasModification log htlcIndex) (already htlcIndex);
      readM p
  end.

(** Appends a removal to the log opposite to its HTLC's and marks the HTLC. *)
Definition appendRemoval (remoteLog : bool) (htlcIndex : Z) (pd : PaymentDescriptor) : LC unit :=
  p ← alloc pd;
  modify (fun lc =>
    if remoteLog then
      lc <| localUpdateLog ::= fun u => appendUpdate u p |>
         <| remoteUpdateLog ::= fun u => markHtlcModified u htlcIndex |>
    else
      lc <| remoteUpdateLog ::= fun u => appendUpdate u p |>
         <| localUpdateLog ::= fun u => markHtlcModified u htlcIndex |>).

Definition amounts_of (htlc : PaymentDescriptor) : PaymentDescriptor :=
  zero_pd <| pd_AssetID := pd_AssetID htlc |> <| pd_AssetAmount := pd_AssetAmount htlc |>
          <| pd_BtcAmount := pd_BtcAmount htlc |>.

Definition SettleHTLC (preimage : bytes) (htlcIndex : Z) (sourceRef : option AddRef)
    (destRef : option SettleFailRef) (closeKey : option CircuitKey) : LC unit :=
  htlc ← targetHtlc true htlcIndex ErrHtlcIndexAlreadySettled;
  _ ← check (negb (bool_decide (pd_RHash htlc = Sum256 preimage))) ErrInvalidSettlePreimage;
  ours ← gets (fun lc => logIndex (localUpdateLog lc));
  appendRemoval true htlcIndex
    (amounts_of htlc <| pd_RPreimage := preimage |> <| pd_LogIndex := ours |>
      <| pd_ParentIndex := htlcIndex |> <| pd_EntryType := Settle |> <| pd_SourceRef := sourceRef |>
      <| pd_DestRef := destRef |> <| pd_ClosedCircuitKey := closeKey |>).

Definition ReceiveHTLCSettle (preimage : bytes) (htlcIndex : Z) : LC unit :=
  htlc ← targetHtlc false htlcIndex ErrHtlcIndexAlreadySettled;
  _ ← check (negb (bool_decide (pd_RHash htlc = Sum256 preimage))) ErrInvalidSettlePreimage;
  theirs ← gets (fun lc => logIndex (remoteUpdateLog lc));
  appendRemoval false htlcIndex
    (amounts_of htlc <| pd_RPreimage := preimage |> <| pd_ParentIndex := pd_HtlcIndex htlc |>
      <| pd_RHash := pd_RHash htlc |> <| pd_LogIndex := theirs |> <| pd_EntryType := Settle |>).

Definition FailHTLC (htlcIndex : Z) (reason : bytes) (sourceRef : option AddRef)
    (destRef : option SettleFailRef) (closeKey : option CircuitKey) : LC unit :=
  htlc ← targetHtlc true htlcIndex ErrHtlcIndexAlreadyFailed;
  ours ← gets (fun lc => logIndex (localUpdateLog lc));
  appendRemoval true htlcIndex
    (amounts_of htlc <| pd_RHash := pd_RHash htlc |> <| pd_ParentIndex := htlcIndex |>
      <| pd_LogIndex := ours |> <| pd_EntryType := Fail |> <| pd_FailReason := reason |>
      <| pd_SourceRef := sourceRef |> <| pd_DestRef := destRef |> <| pd_ClosedCircuitKey := closeKey |>).

Definition MalformedFailHTLC (htlcIndex failCode : Z) (shaOnionBlob : bytes) (sourceRef : option AddRef)
    : LC unit :=
  htlc ← targetHtlc true htlcIndex ErrHtlcIndexAlreadyFailed;
  ours ← gets (fun lc => logIndex (localUpdateLog lc));
  appendRemoval true htlcIndex
    (amounts_of htlc <| pd_RHash := pd_RHash htlc |> <| pd_ParentIndex := htlcIndex |>
      <| pd_LogIndex := ours |> <| pd_EntryType := MalformedFail |> <| pd_FailCode := failCode |>
      <| pd_ShaOnionBlob := shaOnionBlob |> <| pd_SourceRef := sourceRef |>).

Definition ReceiveFailHTLC (htlcIndex : Z) (reason : bytes) : LC unit :=
  htlc ← targetHtlc false htlcIndex ErrHtlcIndexAlreadyFailed;
  theirs ← gets (fun lc => logIndex (remoteUpdateLog lc));
  appendRemoval false htlcIndex
    (amounts_of htlc <| pd_RHash := pd_RHash htlc |> <| pd_ParentIndex := pd_HtlcIndex htlc |>
      <| pd_LogIndex := theirs |> <| pd_EntryType := Fail |> <| pd_FailReason := reason |>).

(** ** The balance available for HTLCs *)
Definition availableCommitmentBalance (view : htlcView) (remoteChain : bool) : LC (Z * Z) := fun lc =>
  match computeView view remoteChain false lc with
  | (Panic, lc) => (Panic, lc)
  | (Err _, lc) => (Ok (0, 0), lc)
  | (Ok (bal, commitWeight, filteredView), lc) =>
      let cs := channelState lc in
      let asset := ChanAssetID cs in
      let btc := asset =? BtcAssetId in
      let ourReserve := reserve asset (LocalChanCfg cs) in
      let ourAmt := our_amount asset bal in
      let ourAmt := if ourReserve <=? ourAmt then u64 (ourAmt - ourReserve) else 0 in
      let feePerKw := v_feePerKw filteredView in
      let htlcCommitFee := NewMSatFromSatoshis (FeeForWeight feePerKw (i64 (commitWeight + HTLCWeight))) in
      (Ok (if IsInitiator cs then
             if btc then
               if ourAmt <? htlcCommitFee then (0, commitWeight)
               else (u64 (ourAmt - htlcCommitFee), commitWeight)
             else (ourAmt, commitWeight)
           else
             let theirReserve := reserve asset (RemoteChanCfg cs) in
             let theirAmt := their_amount asset bal in
             let theirAmt := if theirReserve <=? theirAmt then u64 (theirAmt - theirReserve) else 0 in
             let dustlimit := DustLimit (if remoteChain then RemoteChanCfg cs else LocalChanCfg cs) in
             let htlcFee := NewMSatFromSatoshis
               (if remoteChain then HtlcSuccessFee (ChanType cs) feePerKw
                else HtlcTimeoutFee (ChanType cs) feePerKw) in
             let nonDustHtlcAmt := u64 (NewMSatFromSatoshis dustlimit + htlcFee) in
             if btc && (theirAmt <? htlcCommitFee) && (nonDustHtlcAmt <=? ourAmt)
             then (u64 (nonDustHtlcAmt - 1), commitWeight)
             else (ourAmt, commitWeight)), lc)
  end.

Definition availableBalance : LC (Z * Z) :=
  localTip ← tipM false;
  view ← gets (fun lc => fetchHTLCView lc (c_theirMessageIndex localTip) (logIndex (localUpdateLog lc)));
  '(ourLocal, commitWeight) ← availableCommitmentBalance view false;
  '(ourRemote, _) ← availableCommitmentBalance view true;
  mret (if ourRemote <? ourLocal then (ourRemote, commitWeight) else (ourLocal, commitWeight)).

(** ** Fee updates *)
Definition validateFeeRate (feePerKw : Z) : LC unit :=
  asset ← gets (fun lc => ChanAssetID (channelState lc));
  if BtcAssetId <? asset then mret tt
  else
    '(available, txWeight) ← availableBalance;
    localTip ← tipM false;
    let oldFee := NewMSatFromSatoshis (FeeForWeight (c_feePerKw localTip) txWeight) in
    let baseBalance := u64 (available + oldFee) in
    let newFee := NewMSatFromSatoshis (FeeForWeight feePerKw txWeight) in
    check (baseBalance <? newFee) ErrFeeRate.

Definition fee_descriptor (index feePerKw assetID : Z) : PaymentDescriptor :=
  zero_pd <| pd_LogIndex := index |> <| pd_BtcAmount := NewMSatFromSatoshis feePerKw |>
          <| pd_EntryType := FeeUpdate |> <| pd_AssetID := assetID |>.

Definition UpdateFee (feePerKw : Z) : LC unit :=
  initiator ← gets (fun lc => IsInitiator (channelState lc));
  _ ← check (negb initiator) ErrNotInitiator;
  _ ← validateFeeRate feePerKw;
  pd ← gets (fun lc => fee_descriptor (logIndex (localUpdateLog lc)) feePerKw (ChanAssetID (channelState lc)));
  p ← alloc pd;
  modify (fun lc => lc <| localUpdateLog ::= fun u => appendUpdate u p |>).

Definition ReceiveUpdateFee (feePerKw : Z) : LC unit :=
  initiator ← gets (fun lc => IsInitiator (channelState lc));
  _ ← check initiator ErrIsInitiator;
  pd ← gets (fun lc => fee_descriptor (logIndex (remoteUpdateLog lc)) feePerKw (ChanAssetID (channelState lc)));
  p ← alloc pd;
  modify (fun lc => lc <| remoteUpdateLog ::= fun u => appendUpdate u p |>).

(** ** Dust *)
Definition dust_in (lc : LightningChannel) (remote incoming : bool) (feeRate dustLimit : Z) : Z -> list ptr -> Z :=
  foldl (fun dustSum p =>
    let pd := deref (lc_heap lc) p in
    if bool_decide (pd_EntryType pd = Add) &&
       HtlcIsDust (ChanType (channelState lc)) incoming (negb remote) feeRate
         (ToSatoshis (pd_BtcAmount pd)) dustLimit (pd_AssetID pd)
    then u64 (dustSum + pd_BtcAmount pd) else dustSum).

Definition GetDustSum (lc : LightningChannel) (remote : bool) : Z :=
  let cs := channelState lc in
  let dustLimit := DustLimit (if remote then RemoteChanCfg cs else LocalChanCfg cs) in
  let feeRate := i64 (FeePerKw (if remote then RemoteCommitment cs else LocalCommitment cs)) in
  let dustSum := dust_in lc remote false feeRate dustLimit 0 (entries (localUpdateLog lc)) in
  dust_in lc remote true feeRate dustLimit dustSum (entries (remoteUpdateLog lc)).
End Ops.

(** ** The invariant of the logs under one more update *)
Section Appending.
Context `{CurveOps}.

(** What the updates leave alone: the chains and the stored channel. *)
Definition same_chains (lc lc' : LightningChannel) : Prop :=
  channelState lc' = channelState lc /\ localCommitChain lc' = localCommitChain lc /\
  remoteCommitChain lc' = remoteCommitChain lc /\ currentHeight lc' = currentHeight lc.

Definition with_heap (lc : LightningChannel) (pd : PaymentDescriptor) : LightningChannel :=
  lc <| lc_heap := lc_heap lc ++ [pd] |>.
Definition set_log (remoteLog : bool) (u : updateLog) (lc : LightningChannel) : LightningChannel :=
  if remoteLog then lc <| remoteUpdateLog := u |> else lc <| localUpdateLog := u |>.

Lemma deref_old h pd p : (p < length h)%nat -> deref (h ++ [pd]) p = deref h p.
Proof. intros Hp. unfold deref. by rewrite lookup_app_l. Qed.

Lemma entries_alloc lc own p : lc_logs_ok lc -> p ∈ entries (log_of lc own) -> (p < length (lc_heap lc))%nat.
Proof. intros Hok. apply (lw_alloc _ _ (log_wf_of lc own Hok)). Qed.

Lemma lookup_entry lc own i q : lc_logs_ok lc -> lookupHtlc (log_of lc own) i = Some q ->
  q ∈ entries (log_of lc own) /\ pd_EntryType (deref (lc_heap lc) q) = Add /\ pd_HtlcIndex (deref (lc_heap lc) q) = i.
Proof. intros Hok. apply (lw_htlc _ _ (log_wf_of lc own Hok)). Qed.

Lemma fresh lc own : lc_logs_ok lc -> length (lc_heap lc) ∉ entries (log_of lc own).
Proof. intros Hok Hp. apply (entries_alloc lc own _ Hok) in Hp. lia. Qed.

Lemma with_heap_ok lc pd : lc_logs_ok lc -> lc_logs_ok (with_heap lc pd).
Proof.
  intros Hok. split.
  - apply (logs_ok_heap_le (lc_heap lc)); [apply heap_le_alloc|apply (lk_logs _ Hok)].
  - intros own p q Hp [Hr Hl].
    assert (Hp' : p ∈ entries (log_of lc (negb own))) by by destruct own.
    assert (Hd : deref (lc_heap (with_heap lc pd)) p = deref (lc_heap lc) p) by (apply deref_old; by eapply entries_alloc).
    rewrite Hd in Hr, Hl. replace (log_of (with_heap lc pd) own) with (log_of lc own) in Hl by by destruct own.
    destruct (lookup_entry lc own _ q Hok Hl) as (Hq & _).
    rewrite Hd. cbn. rewrite (deref_old _ _ q) by by eapply entries_alloc.
    apply (lk_amounts _ Hok own p q Hp'). done.
Qed.

(** The logs of a channel, in the order of the log that grows. *)
Lemma logs_of lc own : lc_logs_ok lc -> logs_ok (lc_heap lc) (log_of lc own) (log_of lc (negb own)).
Proof. intros [Hl _]. destruct own; [by apply logs_ok_sym|done]. Qed.

(** The new descriptor can be appended. *)
Lemma append_pre lc own pd : lc_logs_ok lc -> pd_LogIndex pd = logIndex (log_of lc own) ->
  let h := lc_heap lc ++ [pd] in
  let p := length (lc_heap lc) in
  logs_ok h (log_of lc own) (log_of lc (negb own)) /\ (p < length h)%nat /\
  p ∉ entries (log_of lc own) /\ p ∉ entries (log_of lc (negb own)) /\
  pd_LogIndex (deref h p) = logIndex (log_of lc own).
Proof.
  intros Hok HL h p. split; [|split; [|split; [|split]]].
  - apply (logs_ok_heap_le (lc_heap lc)); [apply heap_le_alloc|by apply logs_of].
  - unfold h, p. rewrite length_app. cbn. lia.
  - by apply fresh.
  - by apply fresh.
  - unfold h, p. by rewrite deref_alloc.
Qed.

(** A new entry that is not a removal keeps the amounts. *)
Lemma amounts_append lc own pd u (Hok : lc_logs_ok lc) :
  is_removal (pd_EntryType pd) = false ->
  entries u = entries (log_of lc own) ++ [length (lc_heap lc)] ->
  (forall i q, i <> htlcCounter (log_of lc own) \/ pd_EntryType pd <> Add -> lookupHtlc u i = Some q -> lookupHtlc (log_of lc own) i = Some q) ->
  (forall i, i ∈ modifiedHtlcs (log_of lc own) -> i <> htlcCounter (log_of lc own)) ->
  forall o p q, let lc' := set_log own u (with_heap lc pd) in
  p ∈ entries (log_of lc' (negb o)) -> parent_of lc' o p q ->
  pd_BtcAmount (deref (lc_heap lc') p) = pd_BtcAmount (deref (lc_heap lc') q) /\
  pd_AssetAmount (deref (lc_heap lc') p) = pd_AssetAmount (deref (lc_heap lc') q).
Proof.
  intros Hna Hent Hlk Hmod o p q lc' Hp [Hr Hl].
  assert (Hheap : lc_heap lc' = lc_heap lc ++ [pd]) by by (unfold lc', set_log; destruct own).
  rewrite Hheap in Hr, Hl |- *.
  assert (Hp' : p ∈ entries (log_of lc (negb o))).
  { destruct (decide (negb o = own)) as [E|E].
    - replace (log_of lc' (negb o)) with u in Hp by (unfold lc', set_log; by destruct o, own).
      rewrite Hent in Hp. apply elem_of_snoc in Hp as [Hp| ->]; [by rewrite E|].
      by rewrite deref_alloc, Hna in Hr.
    - by replace (log_of lc' (negb o)) with (log_of lc (negb o)) in Hp by (unfold lc', set_log; by destruct o, own). }
  rewrite deref_old in Hr, Hl |- * by by eapply entries_alloc.
  assert (Hl' : lookupHtlc (log_of lc o) (pd_ParentIndex (deref (lc_heap lc) p)) = Some q).
  { destruct (decide (o = own)) as [E|E].
    - replace (log_of lc' o) with u in Hl by (unfold lc', set_log; by destruct o, own). subst own.
      apply Hlk; [|done]. left. apply Hmod. apply (rm_marked _ _ _ (removals_of lc o Hok)). by exists p.
    - by replace (log_of lc' o) with (log_of lc o) in Hl by (unfold lc', set_log; by destruct o, own). }
  destruct (lookup_entry lc o _ q Hok Hl') as (Hq & _).
  rewrite !(deref_old _ _ q) by by eapply entries_alloc.
  by apply (lk_amounts _ Hok o p q Hp').
Qed.

(** The marks on a log are on HTLCs it has, below its counter. *)
Lemma marks_below lc own i : lc_logs_ok lc -> i ∈ modifiedHtlcs (log_of lc own) -> i < htlcCounter (log_of lc own).
Proof.
  intros Hok Hi. destruct (rm_parent _ _ _ (removals_of lc own Hok) i Hi) as [q Hq].
  destruct (lookup_entry lc own i q Hok Hq) as (Hin & Ha & <-).
  by apply (lw_next_htlc _ _ (log_wf_of lc own Hok)).
Qed.

Lemma htlc_appended_ok lc own pd : lc_logs_ok lc -> pd_EntryType pd = Add ->
  pd_LogIndex pd = logIndex (log_of lc own) -> pd_HtlcIndex pd = htlcCounter (log_of lc own) ->
  logIndex (log_of lc own) + 1 < 2 ^ 64 -> htlcCounter (log_of lc own) + 1 < 2 ^ 64 ->
  lc_logs_ok (set_log own (appendHtlc (log_of lc own) (length (lc_heap lc))) (with_heap lc pd)).
Proof.
  intros Hok Ht HL HI Hb Hb'. destruct (append_pre lc own pd Hok HL) as (P1 & P2 & P3 & P4 & P5).
  pose proof (appendHtlc_ok _ _ _ _ P1 P2 P3 P4 P5 Hb) as Happ. rewrite deref_alloc in Happ.
  specialize (Happ Ht HI Hb'). split.
  - destruct own; [by apply logs_ok_sym|done].
  - apply amounts_append; [done|by rewrite Ht|done| |].
    + intros i q [Hi|Hi] Hl; [|done]. unfold lookupHtlc in *. cbn in Hl. by rewrite lookup_insert_ne in Hl.
    + intros i Hi%marks_below; [lia|done].
Qed.

Lemma fee_appended_ok lc own pd : lc_logs_ok lc -> pd_EntryType pd = FeeUpdate ->
  pd_LogIndex pd = logIndex (log_of lc own) -> logIndex (log_of lc own) + 1 < 2 ^ 64 ->
  lc_logs_ok (set_log own (appendUpdate (log_of lc own) (length (lc_heap lc))) (with_heap lc pd)).
Proof.
  intros Hok Ht HL Hb. destruct (append_pre lc own pd Hok HL) as (P1 & P2 & P3 & P4 & P5).
  pose proof (appendFee_ok _ _ _ _ P1 P2 P3 P4 P5 Hb) as Happ. rewrite deref_alloc in Happ.
  specialize (Happ Ht). split.
  - destruct own; [by apply logs_ok_sym|done].
  - apply amounts_append; [done|by rewrite Ht|done|done|].
    intros i Hi%marks_below; [lia|done].
Qed.

(** A descriptor that no commitment has seen yet. *)
Definition unseen (pd : PaymentDescriptor) : Prop :=
  addCommitHeightRemote pd = 0 /\ addCommitHeightLocal pd = 0 /\
  removeCommitHeightRemote pd = 0 /\ removeCommitHeightLocal pd = 0 /\ isForwarded pd = false.

(** A removal of the HTLC [i] of the log [target], appended to the other. *)
Definition with_removal (lc : LightningChannel) (target : bool) (i : Z) (pd : PaymentDescriptor) : LightningChannel :=
  set_log target (markHtlcModified (log_of lc target) i)
    (set_log (negb target) (appendUpdate (log_of lc (negb target)) (length (lc_heap lc))) (with_heap lc pd)).

Lemma with_removal_logs lc target i pd o :
  log_of (with_removal lc target i pd) o =
    (if bool_decide (o = target) then markHtlcModified (log_of lc target) i
     else appendUpdate (log_of lc (negb target)) (length (lc_heap lc))) /\
  lc_heap (with_removal lc target i pd) = lc_heap lc ++ [pd].
Proof. unfold with_removal, set_log. by destruct o, target. Qed.

Lemma removal_appended_ok lc target i q pd : lc_logs_ok lc ->
  lookupHtlc (log_of lc target) i = Some q -> htlcHasModification (log_of lc target) i = false ->
  is_removal (pd_EntryType pd) = true -> pd_ParentIndex pd = i ->
  pd_BtcAmount pd = pd_BtcAmount (deref (lc_heap lc) q) ->
  pd_AssetAmount pd = pd_AssetAmount (deref (lc_heap lc) q) ->
  pd_LogIndex pd = logIndex (log_of lc (negb target)) -> logIndex (log_of lc (negb target)) + 1 < 2 ^ 64 ->
  lc_logs_ok (with_removal lc target i pd).
Proof.
  intros Hok Hq Hno Hrm HI HB HA HL Hb.
  destruct (append_pre lc (negb target) pd Hok HL) as (P1 & P2 & P3 & P4 & P5).
  rewrite negb_involutive in P1, P4.
  pose proof (appendRemoval_ok _ _ _ _ P1 P2 P3 P4 P5 Hb) as Happ. rewrite deref_alloc, HI in Happ.
  specialize (Happ Hrm ltac:(by exists q) Hno). split.
  - unfold with_removal. destruct target; [exact Happ|by apply logs_ok_sym].
  - intros o p p' Hp [Hr Hl].
    destruct (with_removal_logs lc target i pd (negb o)) as [E1 Hheap].
    destruct (with_removal_logs lc target i pd o) as [E2 _].
    rewrite Hheap in Hr, Hl |- *. rewrite E1 in Hp. rewrite E2 in Hl. clear E1 E2 Hheap.
    assert (Hl' : lookupHtlc (log_of lc o) (pd_ParentIndex (deref (lc_heap lc ++ [pd]) p)) = Some p').
    { rewrite <- Hl. case_bool_decide as E; [by rewrite E|]. by destruct o, target. }
    destruct (lookup_entry lc o _ p' Hok Hl') as (Hp' & _).
    rewrite !(deref_old _ _ p') by by eapply entries_alloc.
    assert (Hcase : p = length (lc_heap lc) /\ o = target \/ p ∈ entries (log_of lc (negb o))).
    { destruct (decide (negb o = target)) as [E|E];
        [rewrite bool_decide_eq_true_2 in Hp by done|rewrite bool_decide_eq_false_2 in Hp by done].
      - right. rewrite E. exact Hp.
      - assert (o = target) as -> by by destruct o, target. cbn in Hp. apply elem_of_snoc in Hp. tauto. }
    destruct Hcase as [[-> ->]|Hpo].
    + rewrite deref_alloc in *. rewrite HI, Hq in Hl'. by injection Hl' as <-.
    + rewrite !(deref_old _ _ p) in * by by eapply entries_alloc. by apply (lk_amounts _ Hok o p p').
Qed.
End Appending.

(** ** Adding *)
Section Adding.
Context `{CurveOps}.

Lemma alloc_run pd lc : alloc pd lc = (Ok (length (lc_heap lc)), with_heap lc pd).
Proof. done. Qed.

Lemma validate_run j i rc p q lc :
  validateCommitmentSanity j i rc p q lc = (fst (validateCommitmentSanity j i rc p q lc), lc).
Proof. rewrite <- (validate_pure j i rc p q lc) at 3. apply surjective_pairing. Qed.

Lemma validateAddHtlc_run p lc : validateAddHtlc p lc = (fst (validateAddHtlc p lc), lc).
Proof.
  rewrite (surjective_pairing (validateAddHtlc p lc)) at 1. f_equal. unfold validateAddHtlc.
  rewrite (M_bind_run (readM p) _ lc _ lc eq_refl). destruct (BtcAssetId <? _); [done|].
  unfold mbind at 1, M_bind at 1, check. destruct (misses_asset _); [done|].
  rewrite (M_bind_pair (tailM false) _ lc _ lc eq_refl). destruct (chain_tail _) as [c| |]; [|done..].
  rewrite (M_bind_run (gets _) _ lc (logIndex (localUpdateLog lc)) lc eq_refl).
  rewrite (M_bind_run (gets _) _ lc (logIndex (remoteUpdateLog lc)) lc eq_refl).
  rewrite (M_bind_pair _ _ _ _ _ (validate_run _ _ _ _ _ lc)).
  destruct (fst (validateCommitmentSanity _ _ true _ _ lc)); [|done..].
  apply validate_pure.
Qed.

(** An asset HTLC is never refused. *)
Lemma validate_asset p lc : BtcAssetId < pd_AssetID (deref (lc_heap lc) p) -> validateAddHtlc p lc = (Ok tt, lc).
Proof.
  intros Ha. unfold validateAddHtlc. rewrite (M_bind_run (readM p) _ lc _ lc eq_refl).
  by rewrite (proj2 (Z.ltb_lt _ _) Ha).
Qed.

(** A bitcoin HTLC that is accepted passed the checks of both commitments. *)
Lemma validate_bitcoin p lc : pd_AssetID (deref (lc_heap lc) p) = BtcAssetId ->
  fst (validateAddHtlc p lc) = Ok tt -> exists c, chain_tail (localCommitChain lc) = Ok c /\
    fst (validateCommitmentSanity (c_theirMessageIndex c) (logIndex (localUpdateLog lc)) true (Some p) None lc) = Ok tt /\
    fst (validateCommitmentSanity (logIndex (remoteUpdateLog lc)) (logIndex (localUpdateLog lc)) false (Some p) None lc) = Ok tt.
Proof.
  intros Ha. unfold validateAddHtlc. rewrite (M_bind_run (readM p) _ lc _ lc eq_refl), Ha, Z.ltb_irrefl.
  unfold mbind at 1, M_bind at 1, check. destruct (misses_asset _); [done|].
  rewrite (M_bind_pair (tailM false) _ lc _ lc eq_refl). cbn [commit_chain].
  destruct (chain_tail (localCommitChain lc)) as [c| |]; [|done..].
  rewrite (M_bind_run (gets _) _ lc (logIndex (localUpdateLog lc)) lc eq_refl).
  rewrite (M_bind_run (gets _) _ lc (logIndex (remoteUpdateLog lc)) lc eq_refl).
  rewrite (M_bind_pair _ _ _ _ _ (validate_run _ _ _ _ _ lc)). intros Hv. exists c. split; [done|].
  destruct (fst (validateCommitmentSanity _ _ true _ _ _)) as [[]| |]; [|done..]. done.
Qed.

Lemma htlcAddDescriptor_fields lc htlc key :
  let pd := htlcAddDescriptor lc htlc key in
  pd_EntryType pd = Add /\ pd_LogIndex pd = logIndex (localUpdateLog lc) /\
  pd_HtlcIndex pd = htlcCounter (localUpdateLog lc) /\ pd_AssetID pd = add_AssetID htlc /\
  pd_RHash pd = add_PaymentHash htlc /\ pd_Timeout pd = add_Expiry htlc /\
  pd_OnionBlob pd = add_OnionBlob htlc /\ (is_uint 63 (add_Amount htlc) -> GetMsgAmt pd = add_Amount htlc).
Proof.
  unfold htlcAddDescriptor, SetAmtFromMsgHtlc, GetMsgAmt.
  destruct (Z.eqb_spec (add_AssetID htlc) BtcAssetId) as [E|E]; cbn; (do 7 (split; [done|]));
    unfold is_uint; intros Hu; [rewrite E; cbn|rewrite (proj2 (Z.eqb_neq _ _) E)].
  - rewrite uwrap_uwrap. apply uwrap_id. unfold is_uint. lia.
  - rewrite uwrap_swrap by lia. apply uwrap_id. unfold is_uint. lia.
Qed.

(** The run of [AddHTLC]: one descriptor is allocated, and appended if it is
    accepted. *)
Lemma AddHTLC_run htlc key lc :
  let pd := htlcAddDescriptor lc htlc key in
  let p := length (lc_heap lc) in
  AddHTLC htlc key lc =
    match fst (validateAddHtlc p (with_heap lc pd)) with
    | Ok _ => (Ok (pd_HtlcIndex pd), set_log false (appendHtlc (localUpdateLog lc) p) (with_heap lc pd))
    | Err e => (Err e, with_heap lc pd)
    | Panic => (Panic, with_heap lc pd)
    end.
Proof.
  intros pd p. unfold AddHTLC.
  rewrite (M_bind_run (gets (fun lc => htlcAddDescriptor lc htlc key)) _ lc pd lc eq_refl),
    (M_bind_run _ _ _ _ _ (alloc_run pd lc)). fold p.
  rewrite (M_bind_pair _ _ _ _ _ (validateAddHtlc_run p (with_heap lc pd))).
  by destruct (fst (validateAddHtlc p (with_heap lc pd))).
Qed.

(** Adding an HTLC of ours: the logs stay well formed whatever the outcome
    and the chains are untouched.  On success the HTLC gets the next index of the
    log, is found under it, is the last entry and carries the amount, hash, expiry
    and onion of the message; a bitcoin HTLC then passed the constraints of both
    commitments.  A refusal leaves both logs as they were, and only a bitcoin HTLC
    can be refused. *)
Theorem add_htlc_correct (lc : LightningChannel) (htlc : UpdateAddHTLC) (openKey : option CircuitKey)
    (r : res chanerr Z) (lc' : LightningChannel) :
  lc_logs_ok lc -> 0 <= add_AssetID htlc ->
  logIndex (localUpdateLog lc) + 1 < 2 ^ 64 -> htlcCounter (localUpdateLog lc) + 1 < 2 ^ 64 ->
  AddHTLC htlc openKey lc = (r, lc') ->
  lc_logs_ok lc' /\ same_chains lc lc' /\ remoteUpdateLog lc' = remoteUpdateLog lc /\
  match r with
  | Ok i =>
      let p := length (lc_heap lc) in
      let pd := deref (lc_heap lc') p in
      i = htlcCounter (localUpdateLog lc) /\ htlcCounter (localUpdateLog lc') = i + 1 /\
      logIndex (localUpdateLog lc') = logIndex (localUpdateLog lc) + 1 /\
      lookupHtlc (localUpdateLog lc') i = Some p /\
      entries (localUpdateLog lc') = entries (localUpdateLog lc) ++ [p] /\
      pd_RHash pd = add_PaymentHash htlc /\ pd_Timeout pd = add_Expiry htlc /\
      pd_OnionBlob pd = add_OnionBlob htlc /\ pd_AssetID pd = add_AssetID htlc /\
      (is_uint 63 (add_Amount htlc) -> GetMsgAmt pd = add_Amount htlc) /\
      (add_AssetID htlc = BtcAssetId -> exists c, chain_tail (localCommitChain lc) = Ok c /\
         let new := with_heap lc pd in
         fst (validateCommitmentSanity (c_theirMessageIndex c) (logIndex (localUpdateLog lc)) true (Some p) None new) = Ok tt /\
         fst (validateCommitmentSanity (logIndex (remoteUpdateLog lc)) (logIndex (localUpdateLog lc)) false (Some p) None new) = Ok tt)
  | _ => localUpdateLog lc' = localUpdateLog lc /\ add_AssetID htlc = BtcAssetId
  end.
Proof.
  intros Hok Hpos Hb Hb'. rewrite AddHTLC_run. set (pd := htlcAddDescriptor lc htlc openKey).
  set (p := length (lc_heap lc)). intros Hrun.
  destruct (htlcAddDescriptor_fields lc htlc openKey) as (Ht & HL & HI & HA & ? & ? & ? & ?).
  fold pd in Ht, HL, HI, HA.
  assert (Hd : deref (lc_heap (with_heap lc pd)) p = pd) by apply deref_alloc.
  destruct (fst (validateAddHtlc p (with_heap lc pd))) as [[]|e|] eqn:Hv.
  - injection Hrun as <- <-.
    split; [apply (htlc_appended_ok lc false pd Hok Ht HL HI Hb Hb')|]. split; [done|]. split; [done|].
    cbn zeta.
    pose proof (lw_range _ _ (log_wf_of lc false Hok)) as [Hr1 Hr2]. cbn [log_of] in Hr1, Hr2.
    change (lc_heap (with_heap lc pd)) with (lc_heap lc ++ [pd]) in Hd.
    match goal with |- context [deref ?h p] => change (deref h p) with (deref (lc_heap lc ++ [pd]) p) end. rewrite Hd.
    split; [exact HI|]. split; [cbn; rewrite HI; apply uwrap_id; unfold is_uint; lia|].
    split; [cbn; apply uwrap_id; unfold is_uint; lia|].
    split; [unfold lookupHtlc; cbn; rewrite HI; apply lookup_insert_eq|]. do 6 (split; [done|]).
    intros Hbtc. refine (validate_bitcoin p (with_heap lc pd) _ Hv).
    transitivity (pd_AssetID pd); [exact (f_equal pd_AssetID Hd)|by rewrite HA].
  - injection Hrun as <- <-. split; [by apply with_heap_ok|]. do 3 (split; [done|]).
    destruct (Z.eq_dec (add_AssetID htlc) BtcAssetId) as [|Hne]; [done|].
    rewrite validate_asset in Hv; [done|]. rewrite Hd, HA. unfold BtcAssetId in *. lia.
  - injection Hrun as <- <-. split; [by apply with_heap_ok|]. do 3 (split; [done|]).
    destruct (Z.eq_dec (add_AssetID htlc) BtcAssetId) as [|Hne]; [done|].
    rewrite validate_asset in Hv; [done|]. rewrite Hd, HA. unfold BtcAssetId in *. lia.
Qed.

Lemma htlcReceiveDescriptor_fields lc htlc :
  let pd := htlcReceiveDescriptor lc htlc in
  pd_EntryType pd = Add /\ pd_LogIndex pd = logIndex (remoteUpdateLog lc) /\
  pd_HtlcIndex pd = htlcCounter (remoteUpdateLog lc) /\ pd_AssetID pd = add_AssetID htlc /\
  pd_RHash pd = add_PaymentHash htlc /\ pd_Timeout pd = add_Expiry htlc /\
  pd_OnionBlob pd = add_OnionBlob htlc /\ (is_uint 63 (add_Amount htlc) -> GetMsgAmt pd = add_Amount htlc).
Proof.
  unfold htlcReceiveDescriptor, SetAmtFromMsgHtlc, GetMsgAmt.
  destruct (Z.eqb_spec (add_AssetID htlc) BtcAssetId) as [E|E]; cbn; (do 7 (split; [done|]));
    unfold is_uint; intros Hu; [rewrite E; cbn|rewrite (proj2 (Z.eqb_neq _ _) E)].
  - rewrite uwrap_uwrap. apply uwrap_id. unfold is_uint. lia.
  - rewrite uwrap_swrap by lia. apply uwrap_id. unfold is_uint. lia.
Qed.

(** The check an incoming HTLC has to pass. *)
Definition receive_check (lc : LightningChannel) (htlc : UpdateAddHTLC) : res chanerr unit :=
  let lc1 := with_heap lc (htlcReceiveDescriptor lc htlc) in
  c ← chain_tail (remoteCommitChain lc);
  fst (validateCommitmentSanity (logIndex (remoteUpdateLog lc)) (c_ourMessageIndex c) false None
         (Some (length (lc_heap lc))) lc1).

Lemma ReceiveHTLC_run htlc lc : add_ID htlc = htlcCounter (remoteUpdateLog lc) ->
  let pd := htlcReceiveDescriptor lc htlc in
  let p := length (lc_heap lc) in
  ReceiveHTLC htlc lc =
    match receive_check lc htlc with
    | Ok _ => (Ok (pd_HtlcIndex pd), set_log true (appendHtlc (remoteUpdateLog lc) p) (with_heap lc pd))
    | Err e => (Err e, with_heap lc pd)
    | Panic => (Panic, with_heap lc pd)
    end.
Proof.
  intros Hid pd p. unfold ReceiveHTLC, receive_check.
  rewrite (M_bind_run (gets _) _ lc (htlcCounter (remoteUpdateLog lc)) lc eq_refl).
  rewrite Hid, Z.eqb_refl. rewrite (M_bind_run (check false _) _ lc tt lc eq_refl).
  rewrite (M_bind_run (gets (fun lc => htlcReceiveDescriptor lc htlc)) _ lc pd lc eq_refl),
    (M_bind_run _ _ _ _ _ (alloc_run pd lc)). fold p pd.
  rewrite (M_bind_pair (tailM true) _ _ _ (with_heap lc pd) eq_refl).
  change (commit_chain (with_heap lc pd) true) with (remoteCommitChain lc).
  destruct (chain_tail (remoteCommitChain lc)) as [c|e|]; [|done..].
  rewrite (M_bind_run (gets _) _ _ (logIndex (remoteUpdateLog lc)) (with_heap lc pd) eq_refl).
  rewrite (M_bind_pair _ _ _ _ _ (validate_run _ _ _ _ _ (with_heap lc pd))), res_bind_Ok_l.
  by destruct (fst (validateCommitmentSanity _ _ _ _ _ _)).
Qed.

(** Receiving an HTLC: one with another id than the next of the remote log
    is refused and nothing changes, not even the heap; otherwise the logs stay
    well formed whatever the outcome, the chains and our log are untouched, and on
    success the HTLC, which passed the constraints of our commitment, is the last
    entry of the remote log, found under its id with the contents of the
    message. *)
Theorem receive_htlc_correct (lc : LightningChannel) (htlc : UpdateAddHTLC)
    (r : res chanerr Z) (lc' : LightningChannel) :
  lc_logs_ok lc ->
  logIndex (remoteUpdateLog lc) + 1 < 2 ^ 64 -> htlcCounter (remoteUpdateLog lc) + 1 < 2 ^ 64 ->
  ReceiveHTLC htlc lc = (r, lc') ->
  lc_logs_ok lc' /\ same_chains lc lc' /\ localUpdateLog lc' = localUpdateLog lc /\
  (add_ID htlc <> htlcCounter (remoteUpdateLog lc) -> r = Err ErrHtlcIdMismatch /\ lc' = lc) /\
  match r with
  | Ok i =>
      let p := length (lc_heap lc) in
      let pd := deref (lc_heap lc') p in
      i = add_ID htlc /\ htlcCounter (remoteUpdateLog lc') = i + 1 /\
      lookupHtlc (remoteUpdateLog lc') i = Some p /\
      entries (remoteUpdateLog lc') = entries (remoteUpdateLog lc) ++ [p] /\
      pd_RHash pd = add_PaymentHash htlc /\ pd_Timeout pd = add_Expiry htlc /\
      pd_OnionBlob pd = add_OnionBlob htlc /\ pd_AssetID pd = add_AssetID htlc /\
      (is_uint 63 (add_Amount htlc) -> GetMsgAmt pd = add_Amount htlc) /\
      exists c, chain_tail (remoteCommitChain lc) = Ok c /\
        fst (validateCommitmentSanity (logIndex (remoteUpdateLog lc)) (c_ourMessageIndex c) false None (Some p)
               (with_heap lc pd)) = Ok tt
  | _ => remoteUpdateLog lc' = remoteUpdateLog lc
  end.
Proof.
  intros Hok Hb Hb'. destruct (Z.eq_dec (add_ID htlc) (htlcCounter (remoteUpdateLog lc))) as [Hid|Hne].
  2: { unfold ReceiveHTLC. rewrite (M_bind_run (gets _) _ lc (htlcCounter (remoteUpdateLog lc)) lc eq_refl).
    unfold mbind, M_bind, check. rewrite (proj2 (Z.eqb_neq _ _) Hne). cbn. intros Hrun. injection Hrun as <- <-. done. }
  rewrite (ReceiveHTLC_run htlc lc Hid). set (pd := htlcReceiveDescriptor lc htlc).
  set (p := length (lc_heap lc)). intros Hrun.
  destruct (htlcReceiveDescriptor_fields lc htlc) as (Ht & HL & HI & HA & ? & ? & ? & ?).
  fold pd in Ht, HL, HI, HA.
  destruct (receive_check lc htlc) as [[]|e|] eqn:Hv; injection Hrun as <- <-.
  2,3: split; [by apply with_heap_ok|do 2 (split; [done|])]; split; [|done]; by intros Hne.
  split; [apply (htlc_appended_ok lc true pd Hok Ht HL HI Hb Hb')|]. split; [done|]. split; [done|].
  split; [by intros Hne|]. cbn zeta.
  pose proof (lw_range _ _ (log_wf_of lc true Hok)) as [Hr1 Hr2]. cbn [log_of] in Hr1, Hr2.
  assert (Hd : deref (lc_heap lc ++ [pd]) p = pd) by apply deref_alloc.
  match goal with |- context [deref ?h p] => change (deref h p) with (deref (lc_heap lc ++ [pd]) p) end. rewrite Hd.
  split; [by rewrite HI|]. split; [cbn; rewrite HI; apply uwrap_id; unfold is_uint; lia|].
  split; [unfold lookupHtlc; cbn; rewrite HI; apply lookup_insert_eq|]. do 6 (split; [done|]).
  unfold receive_check in Hv. fold pd p in Hv. destruct (chain_tail (remoteCommitChain lc)) as [c|e|]; [|done..].
  exists c. by split.
Qed.
End Adding.

(** ** Removing *)
Section Removing.
Context `{CurveOps}.

(** A removal: which of the five methods, with its arguments. *)
Inductive removal : Type :=
| RSettle (preimage : bytes) (i : Z) (src : option AddRef) (dst : option SettleFailRef) (key : option CircuitKey)
| RFail (i : Z) (reason : bytes) (src : option AddRef) (dst : option SettleFailRef) (key : option CircuitKey)
| RMalformed (i failCode : Z) (shaOnionBlob : bytes) (src : option AddRef)
| RReceiveSettle (preimage : bytes) (i : Z)
| RReceiveFail (i : Z) (reason : bytes).

Definition run_removal (op : removal) : M LightningChannel chanerr unit :=
  match op with
  | RSettle pre i src dst key => SettleHTLC pre i src dst key
  | RFail i reason src dst key => FailHTLC i reason src dst key
  | RMalformed i code sha src => MalformedFailHTLC i code sha src
  | RReceiveSettle pre i => ReceiveHTLCSettle pre i
  | RReceiveFail i reason => ReceiveFailHTLC i reason
  end.

(** The log the HTLC is in, its index, the error of a second removal, the
    preimage and the type of the entry. *)
Definition r_remote (op : removal) : bool :=
  match op with RSettle _ _ _ _ _ | RFail _ _ _ _ _ | RMalformed _ _ _ _ => true | _ => false end.
Definition r_index (op : removal) : Z :=
  match op with
  | RSettle _ i _ _ _ | RFail i _ _ _ _ | RMalformed i _ _ _ | RReceiveSettle _ i | RReceiveFail i _ => i
  end.
Definition r_preimage (op : removal) : option bytes :=
  match op with RSettle pre _ _ _ _ | RReceiveSettle pre _ => Some pre | _ => None end.
Definition r_already (op : removal) : chanerr :=
  match r_preimage op with
  | Some _ => ErrHtlcIndexAlreadySettled (r_index op)
  | None => ErrHtlcIndexAlreadyFailed (r_index op)
  end.
Definition r_type (op : removal) : updateType :=
  match op with RSettle _ _ _ _ _ | RReceiveSettle _ _ => Settle | RMalformed _ _ _ _ => MalformedFail | _ => Fail end.

Lemma targetHtlc_run own i already lc :
  targetHtlc own i already lc =
    (match lookupHtlc (log_of lc own) i with
     | None => Err (ErrUnknownHtlcIndex i)
     | Some q => if htlcHasModification (log_of lc own) i then Err (already i) else Ok (deref (lc_heap lc) q)
     end, lc).
Proof.
  unfold targetHtlc. rewrite (M_bind_run (gets _) _ lc (log_of lc own) lc eq_refl).
  destruct (lookupHtlc _ _) as [q|]; [|done]. unfold mbind, M_bind, check.
  by destruct (htlcHasModification _ _).
Qed.

Lemma appendRemoval_run own i pd lc : appendRemoval own i pd lc = (Ok tt, with_removal lc own i pd).
Proof. unfold appendRemoval. rewrite (M_bind_run _ _ _ _ _ (alloc_run pd lc)). by destruct own. Qed.

(** One run of a removal. *)
Lemma removal_run op lc :
  (lookupHtlc (log_of lc (r_remote op)) (r_index op) = None ->
     run_removal op lc = (Err (ErrUnknownHtlcIndex (r_index op)), lc)) /\
  forall q, lookupHtlc (log_of lc (r_remote op)) (r_index op) = Some q ->
    (htlcHasModification (log_of lc (r_remote op)) (r_index op) = true ->
       run_removal op lc = (Err (r_already op), lc)) /\
    (htlcHasModification (log_of lc (r_remote op)) (r_index op) = false ->
       let htlc := deref (lc_heap lc) q in
       (forall pre, r_preimage op = Some pre -> pd_RHash htlc <> Sum256 pre ->
          run_removal op lc = (Err ErrInvalidSettlePreimage, lc)) /\
       ((forall pre, r_preimage op = Some pre -> pd_RHash htlc = Sum256 pre) -> pd_HtlcIndex htlc = r_index op ->
          exists pd, run_removal op lc = (Ok tt, with_removal lc (r_remote op) (r_index op) pd) /\
            pd_EntryType pd = r_type op /\ pd_ParentIndex pd = r_index op /\
            pd_BtcAmount pd = pd_BtcAmount htlc /\ pd_AssetAmount pd = pd_AssetAmount htlc /\
            pd_AssetID pd = pd_AssetID htlc /\
            pd_LogIndex pd = logIndex (log_of lc (negb (r_remote op))) /\ unseen pd)).
Proof.
  assert (Hstep : forall own i already (k : PaymentDescriptor -> M LightningChannel chanerr unit),
    (targetHtlc own i already ≫= k) lc =
      match lookupHtlc (log_of lc own) i with
      | None => (Err (ErrUnknownHtlcIndex i), lc)
      | Some q => if htlcHasModification (log_of lc own) i then (Err (already i), lc) else k (deref (lc_heap lc) q) lc
      end).
  { intros own i already k. rewrite (M_bind_pair _ _ _ _ _ (targetHtlc_run own i already lc)).
    destruct (lookupHtlc _ _); [|done]. by destruct (htlcHasModification _ _). }
  split.
  - intros Hnone. destruct op; cbn [run_removal r_remote r_index] in *;
      unfold SettleHTLC, FailHTLC, MalformedFailHTLC, ReceiveHTLCSettle, ReceiveFailHTLC; by rewrite Hstep, Hnone.
  - intros q Hq. split.
    + intros Hm. destruct op; cbn [run_removal r_remote r_index] in *;
        unfold SettleHTLC, FailHTLC, MalformedFailHTLC, ReceiveHTLCSettle, ReceiveFailHTLC; by rewrite Hstep, Hq, Hm.
    + intros Hm htlc. split.
      * intros pre Hpre Hne. destruct op; try discriminate Hpre; injection Hpre as ->; cbn [run_removal r_remote r_index] in *;
          unfold SettleHTLC, ReceiveHTLCSettle; rewrite Hstep, Hq, Hm; unfold mbind, M_bind, check;
          by rewrite bool_decide_eq_false_2.
      * intros Hpre Hidx. destruct op; cbn [run_removal r_remote r_index r_preimage] in *;
          unfold SettleHTLC, FailHTLC, MalformedFailHTLC, ReceiveHTLCSettle, ReceiveFailHTLC; rewrite Hstep, Hq, Hm;
          fold htlc; try rewrite bool_decide_eq_true_2 by (by apply Hpre); cbn [negb];
          try rewrite (M_bind_run (check false _) _ lc tt lc eq_refl);
          rewrite (M_bind_run (gets _) _ lc _ lc eq_refl), appendRemoval_run;
          eexists; (split; [reflexivity|]); by rewrite ?Hidx.
Qed.

(** C35. An HTLC is settled or failed at most once, and only with its preimage.
    A removal of an unknown or an already removed HTLC, or a settle with a wrong
    preimage, is refused and changes nothing.  Otherwise it succeeds: one entry
    with the amounts of the HTLC is appended to the opposite log, the HTLC is
    marked, and from then on every removal of it by any method is refused.  The
    logs stay well formed and the chains are untouched in every case. *)
Theorem removal_at_most_once (lc : LightningChannel) (op : removal) (r : res chanerr unit) (lc' : LightningChannel) :
  lc_logs_ok lc -> logIndex (log_of lc (negb (r_remote op))) + 1 < 2 ^ 64 ->
  run_removal op lc = (r, lc') ->
  let target := log_of lc (r_remote op) in
  lc_logs_ok lc' /\ same_chains lc lc' /\
  match lookupHtlc target (r_index op) with
  | None => r = Err (ErrUnknownHtlcIndex (r_index op)) /\ lc' = lc
  | Some q =>
      let htlc := deref (lc_heap lc) q in
      (htlcHasModification target (r_index op) = true /\ r = Err (r_already op) /\ lc' = lc) \/
      (htlcHasModification target (r_index op) = false /\ r = Err ErrInvalidSettlePreimage /\ lc' = lc /\
       exists pre, r_preimage op = Some pre /\ pd_RHash htlc <> Sum256 pre) \/
      (htlcHasModification target (r_index op) = false /\ r = Ok tt /\
       (forall pre, r_preimage op = Some pre -> pd_RHash htlc = Sum256 pre) /\
       (exists p, entries (log_of lc' (negb (r_remote op))) = entries (log_of lc (negb (r_remote op))) ++ [p] /\
          let pd := deref (lc_heap lc') p in
          pd_EntryType pd = r_type op /\ pd_ParentIndex pd = r_index op /\
          pd_BtcAmount pd = pd_BtcAmount htlc /\ pd_AssetAmount pd = pd_AssetAmount htlc) /\
       forall op', r_remote op' = r_remote op -> r_index op' = r_index op -> run_removal op' lc' = (Err (r_already op'), lc'))
  end.
Proof.
  intros Hok Hb Hrun target. destruct (removal_run op lc) as [Hnone Hsome]. fold target in Hnone, Hsome.
  destruct (lookupHtlc target (r_index op)) as [q|] eqn:Hq.
  2: { rewrite Hnone in Hrun by done. by injection Hrun as <- <-. }
  destruct (Hsome q eq_refl) as [Hmod Hun]. clear Hnone Hsome.
  destruct (htlcHasModification target (r_index op)) eqn:Hm.
  { rewrite Hmod in Hrun by done. injection Hrun as <- <-. split; [done|split; [done|]]. by left. }
  destruct (Hun eq_refl) as [Hbad Hgood]. clear Hmod Hun.
  destruct (lookup_entry lc (r_remote op) _ q Hok Hq) as (_ & _ & Hidx).
  assert (Hdec : (exists pre, r_preimage op = Some pre /\ pd_RHash (deref (lc_heap lc) q) <> Sum256 pre) \/
    (forall pre, r_preimage op = Some pre -> pd_RHash (deref (lc_heap lc) q) = Sum256 pre)).
  { destruct (r_preimage op) as [pre|]; [|by right].
    destruct (decide (pd_RHash (deref (lc_heap lc) q) = Sum256 pre)); [right|left]; naive_solver. }
  destruct Hdec as [(pre & Hpre & Hne)|Hall].
  { rewrite (Hbad pre Hpre Hne) in Hrun. injection Hrun as <- <-. split; [done|split; [done|]]. right. left.
    do 3 (split; [done|]). by exists pre. }
  destruct (Hgood Hall Hidx) as (pd & Hrun' & Ht & HP & HB & HA & _ & HL & _). rewrite Hrun' in Hrun. injection Hrun as <- <-.
  split.
  { apply (removal_appended_ok lc _ _ q); try done. rewrite Ht. by destruct op. }
  split; [unfold with_removal, set_log, same_chains; by destruct (r_remote op)|]. right. right. do 3 (split; [done|]).
  destruct (with_removal_logs lc (r_remote op) (r_index op) pd (negb (r_remote op))) as [E1 Hh].
  destruct (with_removal_logs lc (r_remote op) (r_index op) pd (r_remote op)) as [E2 _].
  rewrite bool_decide_eq_false_2 in E1 by (by destruct (r_remote op)). rewrite bool_decide_eq_true_2 in E2 by done.
  split.
  - exists (length (lc_heap lc)). rewrite E1, Hh. split; [done|]. cbn zeta. by rewrite deref_alloc.
  - intros op' Hr' Hi'. destruct (removal_run op' (with_removal lc (r_remote op) (r_index op) pd)) as [_ Hs].
    rewrite Hr', Hi', E2 in Hs. destruct (Hs q Hq) as [Hdone _]. apply Hdone.
    unfold htlcHasModification. apply bool_decide_eq_true_2. cbn. set_solver.
Qed.
End Removing.

(** ** Fee updates *)
Section Fees.
Context `{CurveOps}.

Lemma availableCommitmentBalance_pure view rc lc : snd (availableCommitmentBalance view rc lc) = lc.
Proof.
  unfold availableCommitmentBalance. pose proof (proj2 (computeView_frame view rc false lc) eq_refl) as Hp.
  destruct (computeView view rc false lc) as [r lc1]. cbn in Hp. subst lc1. by destruct r as [[[b w] v]| |].
Qed.

Lemma availableBalance_pure lc : snd (availableBalance lc) = lc.
Proof.
  unfold availableBalance. rewrite (M_bind_pair (tipM false) _ lc _ lc eq_refl). destruct (tip _) as [c| |]; [|done..].
  rewrite (M_bind_run (gets (fun lc => fetchHTLCView lc (c_theirMessageIndex c) (logIndex (localUpdateLog lc)))) _ lc _ lc eq_refl).
  set (v := fetchHTLCView _ _ _). pose proof (availableCommitmentBalance_pure v) as Hp.
  unfold mbind at 1, M_bind at 1. pose proof (Hp false lc) as H1.
  destruct (availableCommitmentBalance v false lc) as [[[a w]| |] lc1]; cbn in H1; subst lc1; [|done..].
  unfold mbind at 1, M_bind at 1. pose proof (Hp true lc) as H2.
  destruct (availableCommitmentBalance v true lc) as [[[b w2]| |] lc2]; cbn in H2; subst lc2; [|done..].
  by destruct (b <? a).
Qed.

Lemma validateFeeRate_pure f lc : snd (validateFeeRate f lc) = lc.
Proof.
  unfold validateFeeRate. rewrite (M_bind_run (gets _) _ lc (ChanAssetID (channelState lc)) lc eq_refl).
  destruct (BtcAssetId <? _); [done|]. unfold mbind at 1, M_bind at 1.
  pose proof (availableBalance_pure lc) as Hp.
  destruct (availableBalance lc) as [[[a w]| |] lc1]; cbn in Hp; subst lc1; [|done..].
  rewrite (M_bind_pair (tipM false) _ lc _ lc eq_refl). by destruct (tip _).
Qed.

Lemma fee_descriptor_fee index f a : 0 <= f < 2 ^ 53 -> ToSatoshis (pd_BtcAmount (fee_descriptor index f a)) = f.
Proof.
  intros Hf. cbn. assert (2 ^ 53 < 2 ^ 64 / 1000) by reflexivity. rewrite NewMSat_small by lia. rewrite ToSatoshis_div by (unfold is_uint; lia).
  rewrite Z.mul_comm. apply Z.div_mul. lia.
Qed.

(** What a fee update appends to the log [own]. *)
Definition fee_appended (own : bool) (f : Z) (lc lc' : LightningChannel) : Prop :=
  exists p, entries (log_of lc' own) = entries (log_of lc own) ++ [p] /\
    log_of lc' (negb own) = log_of lc (negb own) /\
    let pd := deref (lc_heap lc') p in
    pd_EntryType pd = FeeUpdate /\ pd_LogIndex pd = logIndex (log_of lc own) /\
    (0 <= f < 2 ^ 53 -> ToSatoshis (pd_BtcAmount pd) = f).

Lemma fee_appended_run own f lc : lc_logs_ok lc -> logIndex (log_of lc own) + 1 < 2 ^ 64 ->
  let pd := fee_descriptor (logIndex (log_of lc own)) f (ChanAssetID (channelState lc)) in
  let lc' := set_log own (appendUpdate (log_of lc own) (length (lc_heap lc))) (with_heap lc pd) in
  lc_logs_ok lc' /\ same_chains lc lc' /\ fee_appended own f lc lc'.
Proof.
  intros Hok Hb pd lc'. split; [by apply fee_appended_ok|]. split; [by destruct own|].
  exists (length (lc_heap lc)). unfold lc'. split; [by destruct own|]. split; [by destruct own|].
  assert (Hd : deref (lc_heap (set_log own (appendUpdate (log_of lc own) (length (lc_heap lc))) (with_heap lc pd)))
    (length (lc_heap lc)) = pd) by (destruct own; apply deref_alloc).
  rewrite Hd. do 2 (split; [done|]). apply fee_descriptor_fee.
Qed.

(** Only the opener of a channel may change the fee: we refuse to send an
    update when we are not the opener and to accept one when we are, and a refusal
    changes nothing.  Otherwise one fee entry with the rate is appended to the log
    of the opener; the logs stay well formed, the chains and the other log are
    untouched. *)
Theorem fee_update_roles (lc : LightningChannel) (f : Z) :
  lc_logs_ok lc ->
  logIndex (localUpdateLog lc) + 1 < 2 ^ 64 -> logIndex (remoteUpdateLog lc) + 1 < 2 ^ 64 ->
  (forall r lc', UpdateFee f lc = (r, lc') ->
     lc_logs_ok lc' /\ same_chains lc lc' /\
     (IsInitiator (channelState lc) = false -> r = Err ErrNotInitiator) /\
     match r with Ok _ => fee_appended false f lc lc' | _ => lc' = lc end) /\
  (forall r lc', ReceiveUpdateFee f lc = (r, lc') ->
     lc_logs_ok lc' /\ same_chains lc lc' /\
     if IsInitiator (channelState lc) then r = Err ErrIsInitiator /\ lc' = lc
     else r = Ok tt /\ fee_appended true f lc lc').
Proof.
  intros Hok Hb Hb'. split; intros r lc' Hrun.
  - unfold UpdateFee in Hrun. rewrite (M_bind_run (gets _) _ lc (IsInitiator (channelState lc)) lc eq_refl) in Hrun.
    destruct (IsInitiator (channelState lc)) eqn:Hi; cbn [negb] in Hrun.
    2: { unfold mbind, M_bind, check in Hrun. injection Hrun as <- <-. done. }
    rewrite (M_bind_run (check false _) _ lc tt lc eq_refl) in Hrun.
    rewrite (M_bind_pair (validateFeeRate f) _ lc (fst (validateFeeRate f lc)) lc) in Hrun
      by (rewrite <- (validateFeeRate_pure f lc) at 3; apply surjective_pairing).
    destruct (fst (validateFeeRate f lc)) as [u|e|]; [|by injection Hrun as <- <-..].
    rewrite (M_bind_run (gets (fun lc => fee_descriptor (logIndex (localUpdateLog lc)) f (ChanAssetID (channelState lc))))
      _ lc _ lc eq_refl), (M_bind_run _ _ _ _ _ (alloc_run _ lc)) in Hrun. injection Hrun as <- <-.
    destruct (fee_appended_run false f lc Hok Hb) as (R1 & R2 & R3). by split.
  - unfold ReceiveUpdateFee in Hrun. rewrite (M_bind_run (gets _) _ lc (IsInitiator (channelState lc)) lc eq_refl) in Hrun.
    destruct (IsInitiator (channelState lc)) eqn:Hi.
    { unfold mbind, M_bind, check in Hrun. injection Hrun as <- <-. done. }
    rewrite (M_bind_run (check false _) _ lc tt lc eq_refl) in Hrun.
    rewrite (M_bind_run (gets (fun lc => fee_descriptor (logIndex (remoteUpdateLog lc)) f (ChanAssetID (channelState lc))))
      _ lc _ lc eq_refl), (M_bind_run _ _ _ _ _ (alloc_run _ lc)) in Hrun. injection Hrun as <- <-.
    destruct (fee_appended_run true f lc Hok Hb') as (R1 & R2 & R3). done.
Qed.
End Fees.

(** ** Concrete runs *)
#[local] Existing Instance toy_pubkeys.
#[local] Existing Instance toy_curve.

Definition toy_add (id amount assetID : Z) : UpdateAddHTLC :=
  mkUpdateAddHTLC zero_hash id amount assetID zero_hash 700 zero_onion [].

Lemma add_htlc_correct_witness :
  fst (AddHTLC (toy_add 0 25000000 0) None (toy_lc 0)) = Ok 2 /\
  fst (AddHTLC (toy_add 0 5000000000000 0) None (toy_lc 0)) = Err ErrBelowChanReserve /\
  fst (AddHTLC (toy_add 0 5000000000000 31) None (toy_lc 31)) = Ok 2 /\
  htlcCounter (localUpdateLog (snd (AddHTLC (toy_add 0 25000000 0) None (toy_lc 0)))) = 3.
Proof.
  do 3 (split; [vm_compute; reflexivity|]).
  refine (proj1 (proj2 (proj2 (proj2 (proj2 (add_htlc_correct (toy_lc 0) (toy_add 0 25000000 0) None (Ok 2)
    (snd (AddHTLC (toy_add 0 25000000 0) None (toy_lc 0))) (toy_lc_ok 0) _ _ _ (run_eq _ _ _))))))).
  - done.
  - done.
  - done.
  - vm_compute. reflexivity.
Defined.

Lemma receive_htlc_correct_witness :
  fst (ReceiveHTLC (toy_add 1 25000000 0) (toy_lc 0)) = Err ErrHtlcIdMismatch /\
  fst (ReceiveHTLC (toy_add 0 25000000 0) (toy_lc 0)) = Ok 0 /\
  htlcCounter (remoteUpdateLog (snd (ReceiveHTLC (toy_add 0 25000000 0) (toy_lc 0)))) = 1.
Proof.
  do 2 (split; [vm_compute; reflexivity|]).
  refine (proj1 (proj2 (proj2 (proj2 (proj2 (proj2 (receive_htlc_correct (toy_lc 0) (toy_add 0 25000000 0) (Ok 0)
    (snd (ReceiveHTLC (toy_add 0 25000000 0) (toy_lc 0))) (toy_lc_ok 0) _ _ (run_eq _ _ _)))))))).
  - done.
  - done.
  - vm_compute. reflexivity.
Defined.

(** The peer fails the second HTLC; the first is already settled. *)
Lemma removal_at_most_once_witness :
  fst (ReceiveFailHTLC 1 [] (toy_lc 0)) = Ok tt /\
  fst (ReceiveHTLCSettle zero_hash 0 (toy_lc 0)) = Err (ErrHtlcIndexAlreadySettled 0) /\
  fst (ReceiveHTLCSettle zero_hash 1 (toy_lc 0)) = Err ErrInvalidSettlePreimage /\
  lc_logs_ok (snd (ReceiveFailHTLC 1 [] (toy_lc 0))).
Proof.
  do 3 (split; [vm_compute; reflexivity|]).
  refine (proj1 (removal_at_most_once (toy_lc 0) (RReceiveFail 1 []) (Ok tt)
    (snd (ReceiveFailHTLC 1 [] (toy_lc 0))) (toy_lc_ok 0) _ (run_eq _ _ _))).
  - done.
  - vm_compute. reflexivity.
Defined.

Lemma fee_update_roles_witness :
  fst (UpdateFee 500 (toy_lc 0)) = Ok tt /\
  ReceiveUpdateFee 500 (toy_lc 0) = (Err ErrIsInitiator, toy_lc 0) /\
  lc_logs_ok (snd (UpdateFee 500 (toy_lc 0))).
Proof.
  split; [vm_compute; reflexivity|]. split; [reflexivity|].
  refine (proj1 (proj1 (fee_update_roles (toy_lc 0) 500 (toy_lc_ok 0) _ _) (Ok tt) _ (run_eq _ _ _))).
  - done.
  - done.
  - vm_compute. reflexivity.
Defined.
