(* ===== verification/Link.v ===== *)
(** * Links: what they forward ([htlcswitch/link.go])

    A link is one end of a channel.  It says what may leave over it, turns the updates
    its peer has locked in into packets for the switch, and after a restart does so
    again from the forwarding packages.  The hops of an onion are decoded by a library;
    what it makes of each onion is an argument. *)

From S2P Require Import Prelude Wire Messages ChanIds Failures Results Units Sha256 Shachain Tx OmniOp Keys Scripts FwdPkg UpdateLog Circuits Mailbox PayDescs Switch ChanDB Commitment Channel ChannelOps.

(** ** Forwarding policies *)
Record ForwardingPolicyCfg := mkPolicyCfg {
  cf_MinHTLCOut : Z; cf_AssetMinHTLCOut : Z; cf_MaxHTLC : Z; cf_AssetMaxHTLC : Z;
  cf_BaseFee : Z; cf_FeeRate : Z; cf_AssetFeeRate : Z; cf_TimeLockDelta : Z
}.

Record ForwardingPolicy := mkPolicy {
  MinHTLCOut : Z; fp_MaxHTLC : Z; fp_BaseFee : Z; fp_FeeRate : Z; fp_TimeLockDelta : Z
}.

(** Amounts of assets are signed. *)
Definition LoadCfg (fpCfg : ForwardingPolicyCfg) (assetId : Z) : ForwardingPolicy :=
  if assetId =? BtcAssetId then
    mkPolicy (cf_MinHTLCOut fpCfg) (cf_MaxHTLC fpCfg) (cf_BaseFee fpCfg) (cf_FeeRate fpCfg) (cf_TimeLockDelta fpCfg)
  else
    mkPolicy (u64 (cf_AssetMinHTLCOut fpCfg)) (u64 (cf_AssetMaxHTLC fpCfg)) (cf_BaseFee fpCfg) (u64 (cf_AssetFeeRate fpCfg))
      (cf_TimeLockDelta fpCfg).

Definition ExpectedFee (f : ForwardingPolicy) (htlcAmt : Z) : Z := u64 (fp_BaseFee f + u64 (htlcAmt * fp_FeeRate f) / 1000000).

Section Link.
Context `{CurveOps}.

(** ** The link *)
Record channelLink := mkLink {
  lk_channel : LightningChannel;
  shortChanID : ShortChannelID;
  lk_peer : bytes;
  reestablished : bool;
  FwrdingPolicy : ForwardingPolicy;
  OutgoingCltvRejectDelta : Z;
  MaxOutgoingCltvExpiry : Z;
  (** The circuits the next commitment opens and closes, and the keystones to write. *)
  openedCircuits : list CircuitKey;
  closedCircuits : list CircuitKey;
  keystoneBatch : list Keystone
}.

#[export] Instance channelLink_eta : Eta channelLink := fun l =>
  mkLink (lk_channel l) (shortChanID l) (lk_peer l) (reestablished l) (FwrdingPolicy l) (OutgoingCltvRejectDelta l) (MaxOutgoingCltvExpiry l)
    (openedCircuits l) (closedCircuits l) (keystoneBatch l).

(** [AvailableBalance] has no error to give; a channel always has commitments. *)
Definition Bandwidth (l : channelLink) : Z := match (availableBalance (lk_channel l)).1 with Ok (bal, _) => bal | _ => 0 end.

Definition link_EligibleToForward (l : channelLink) : bool :=
  bool_decide (is_Some (RemoteNextRevocation (channelState (lk_channel l)))) && negb (bool_decide (shortChanID l = Source)) && reestablished l.

Definition UpdateForwardingPolicy (newPolicy : ForwardingPolicy) (l : channelLink) : channelLink := l <| FwrdingPolicy := newPolicy |>.

Definition dustHelper (chantype localDustLimit remoteDustLimit : Z) : dustClosure :=
  fun feerate incoming localCommit amt assetId =>
    if localCommit then HtlcIsDust chantype incoming true feerate amt localDustLimit assetId
    else HtlcIsDust chantype incoming false feerate amt remoteDustLimit assetId.

Definition link_getDustClosure (l : channelLink) : dustClosure :=
  let cs := channelState (lk_channel l) in
  dustHelper (ChanType cs) (DustLimit (LocalChanCfg cs)) (DustLimit (RemoteChanCfg cs)).

(** [CommitFeeRate]. *)
Definition link_getFeeRate (l : channelLink) : Z := i64 (FeePerKw (LocalCommitment (channelState (lk_channel l)))).

(** ** What may leave *)
Section Policy.
(** The last channel update of a channel, if there is one. *)
Context (FetchLastChannelUpdate : ShortChannelID -> option ChannelUpdate).

Definition createFailureWithUpdate (l : channelLink) (cb : ChannelUpdate -> FailureMessage) : FailureMessage :=
  match FetchLastChannelUpdate (shortChanID l) with None => FailTemporaryNodeFailure | Some update => cb update end.

Definition canSendHtlc (l : channelLink) (policy : ForwardingPolicy) (amt timeout heightNow : Z) : res LinkError unit :=
  if amt <? MinHTLCOut policy then Err (NewLinkError (createFailureWithUpdate l (FailAmountBelowMinimum amt)))
  else if negb (fp_MaxHTLC policy =? 0) && (fp_MaxHTLC policy <? amt) then
    Err (NewDetailedLinkError (createFailureWithUpdate l (fun upd => FailTemporaryChannelFailure (Some upd))) OutgoingFailureHTLCExceedsMax)
  else if timeout <=? u32 (heightNow + OutgoingCltvRejectDelta l) then Err (NewLinkError (createFailureWithUpdate l FailExpiryTooSoon))
  else if u32 (MaxOutgoingCltvExpiry l + heightNow) <? timeout then Err (NewLinkError FailExpiryTooFar)
  else if Bandwidth l <? amt then
    Err (NewDetailedLinkError (createFailureWithUpdate l (fun upd => FailTemporaryChannelFailure (Some upd))) OutgoingFailureInsufficientBalance)
  else Ok tt.

Definition link_CheckHtlcForward (l : channelLink) (incomingHtlcAmt amtToForward incomingTimeout outgoingTimeout heightNow : Z) : res LinkError unit :=
  let policy := FwrdingPolicy l in
  _ ← canSendHtlc l policy amtToForward outgoingTimeout heightNow;
  let expectedFee := ExpectedFee policy amtToForward in
  let actualFee := u64 (incomingHtlcAmt - amtToForward) in
  if (incomingHtlcAmt <? amtToForward) || (actualFee <? expectedFee) then
    Err (NewLinkError (createFailureWithUpdate l (FailFeeInsufficient amtToForward)))
  else if incomingTimeout <? u32 (outgoingTimeout + fp_TimeLockDelta policy) then
    Err (NewLinkError (createFailureWithUpdate l (FailIncorrectCltvExpiry incomingTimeout)))
  else Ok tt.

Definition link_CheckHtlcTransit (l : channelLink) (amt timeout heightNow : Z) : res LinkError unit :=
  canSendHtlc l (FwrdingPolicy l) amt timeout heightNow.
End Policy.

(** ** Settles and failures the peer has locked in *)
Definition convertedErrorSize : Z := FailureMessageLength + 4.

(** A settle or a failure of one of our HTLCs, as the switch is told of it. *)
Definition settleFailPacket (l : channelLink) (pd : PaymentDescriptor) : option htlcPacket :=
  match pd_EntryType pd with
  | Settle => Some (responsePacket (shortChanID l) pd (UMFulfill (mkUpdateFulfillHTLC zero32 0 (pd_RPreimage pd) [])) false)
  | Fail =>
      Some (responsePacket (shortChanID l) pd (UMFail (mkUpdateFailHTLC zero32 0 (pd_FailReason pd) []))
              (Z.of_nat (length (pd_FailReason pd)) =? convertedErrorSize))
  | _ => None
  end.

Definition processRemoteSettleFails {E} (l : channelLink) (fwdPkg : FwdPkg) (settleFails : list PaymentDescriptor) : res E (list htlcPacket) :=
  pds ← (unacked (pkg_SettleFailFilter fwdPkg) 0 settleFails : res E (list PaymentDescriptor));
  mret (omap (settleFailPacket l) (pds : list PaymentDescriptor)).

(** Packets with an answer in the mailbox are left out. *)
Definition forwardBatch {Msg} (mailBox : memoryMailBox Msg) (packets : list htlcPacket) : list htlcPacket :=
  filter (fun pkt => HasPacket (inKey pkt) mailBox = false) packets.

(** A malformed failure, as the channel keeps it. *)
Definition convertMalformed (msg : UpdateFailMalformedHTLC) : FailureMessage :=
  if mal_FailureCode msg =? CodeInvalidOnionVersion then FailInvalidOnionVersion (mal_ShaOnionBlob msg)
  else if mal_FailureCode msg =? CodeInvalidOnionHmac then FailInvalidOnionHmac (mal_ShaOnionBlob msg)
  else FailInvalidOnionKey (mal_ShaOnionBlob msg).

(** ** HTLCs the peer has locked in *)
Record ForwardingInfo := mkForwardingInfo { NextHop : ShortChannelID; AmountToForward : Z; OutgoingCTLV : Z }.

(** What the onion of an HTLC holds: how to encrypt a failure, or why that cannot be
    known; the payload, or the type of the record that is wrong; the onion of the next
    hop, if it can be encoded. *)
Record Iterator := mkIterator {
  ExtractErrorEncrypter : Z + ErrorEncrypter;
  HopPayload : Z + ForwardingInfo;
  EncodeNextHop : option bytes
}.

(** Zero is the id of the last hop. *)
Definition Exit : ShortChannelID := mkSCID 0 0 0.

Inductive add_fate : Type :=
| AddAcked
| AddMalformed (pd : PaymentDescriptor) (code : Z)
| AddError (pd : PaymentDescriptor) (failure : LinkError) (e : ErrorEncrypter) (isReceive : bool)
| AddExit (pd : PaymentDescriptor) (e : ErrorEncrypter)
| AddForward (pkt : htlcPacket)
| AddNothing.

(** The last hop: the HTLC is what the sender said it would be, or fails. *)
Definition processExitHop (pd : PaymentDescriptor) (e : ErrorEncrypter) (fwdInfo : ForwardingInfo) : add_fate :=
  if negb (GetMsgAmt pd =? AmountToForward fwdInfo) then AddError pd (NewLinkError (FailFinalIncorrectHtlcAmount (GetMsgAmt pd))) e true
  else if negb (pd_Timeout pd =? OutgoingCTLV fwdInfo) then AddError pd (NewLinkError (FailFinalIncorrectCltvExpiry (pd_Timeout pd))) e true
  else AddExit pd e.

Definition updatePacket (l : channelLink) (pd : PaymentDescriptor) (fwdInfo : ForwardingInfo) (e : ErrorEncrypter) (assetID : Z) (onion : bytes) : htlcPacket :=
  mkPacket (shortChanID l) (NextHop fwdInfo) (pd_HtlcIndex pd) 0 (pd_SourceRef pd) None (GetMsgAmt pd) (AmountToForward fwdInfo) assetID
    (UMAdd (mkUpdateAddHTLC zero32 0 (AmountToForward fwdInfo) assetID (pd_RHash pd) (OutgoingCTLV fwdInfo) onion []))
    (Some e) false None false false false None (pd_Timeout pd) (OutgoingCTLV fwdInfo).

Section Adds.
Context (FetchLastChannelUpdate : ShortChannelID -> option ChannelUpdate).

Definition forwardFate {E} (l : channelLink) (fwdPkg : FwdPkg) (idx : Z) (pd : PaymentDescriptor) (it : Iterator) (fwdInfo : ForwardingInfo)
    (e : ErrorEncrypter) : res E add_fate :=
  forwarded ← (match pkg_State fwdPkg with FwdStateProcessed => PkgFilter_Contains (pkg_FwdFilter fwdPkg) idx | _ => Ok false end);
  if forwarded : bool then Ok (AddForward (updatePacket l pd fwdInfo e (pd_AssetID pd) (default zero_onion (EncodeNextHop it))))
  else match EncodeNextHop it with
  | None => Ok (AddError pd (NewLinkError (createFailureWithUpdate FetchLastChannelUpdate l (fun upd => FailTemporaryChannelFailure (Some upd)))) e false)
  | Some onion =>
      match pkg_State fwdPkg with
      | FwdStateLockedIn => Ok (AddForward (updatePacket l pd fwdInfo e (ChanAssetID (channelState (lk_channel l))) onion))
      | _ => Ok AddNothing
      end
  end.

(** One HTLC; [resp] is what its onion decodes to, or the failure code. *)
Definition addFate {E} (l : channelLink) (fwdPkg : FwdPkg) (idx : Z) (pd : PaymentDescriptor) (resp : Z + Iterator) : res E add_fate :=
  acked ← (match pkg_State fwdPkg with FwdStateProcessed => PkgFilter_Contains (pkg_AckFilter fwdPkg) idx | _ => Ok false end);
  if acked : bool then Ok AddAcked
  else match resp with
  | inl code => Ok (AddMalformed pd code)
  | inr it =>
      match ExtractErrorEncrypter it with
      | inl code => Ok (AddMalformed pd code)
      | inr e =>
          match HopPayload it with
          | inl failedType => Ok (AddError pd (NewLinkError (InvalidOnionPayload failedType 0)) e false)
          | inr fwdInfo =>
              if bool_decide (NextHop fwdInfo = Exit) then Ok (processExitHop pd e fwdInfo)
              else forwardFate l fwdPkg idx pd it fwdInfo e
          end
      end
  end.

(** [notifies]: the registry of invoices takes the HTLC; if it does not the link
    fails, and the rest is not looked at. *)
Context (notifies : PaymentDescriptor -> bool).

Record adds_result := mkAdds { ar_fates : list add_fate; ar_filter : PkgFilter; ar_failed : bool }.

Fixpoint processAdds {E} (l : channelLink) (fwdPkg : FwdPkg) (i : Z) (pds : list PaymentDescriptor) (resps : list (Z + Iterator)) : res E adds_result :=
  match pds, resps with
  | [], _ => Ok (mkAdds [] (pkg_FwdFilter fwdPkg) false)
  | pd :: pds, resp :: resps =>
      fate ← addFate l fwdPkg (u16 i) pd resp;
      match fate with
      | AddExit pd _ =>
          if notifies pd then
            rest ← processAdds l fwdPkg (i + 1) pds resps;
            Ok (mkAdds (fate :: ar_fates rest) (ar_filter rest) (ar_failed rest))
          else Ok (mkAdds [fate] (pkg_FwdFilter fwdPkg) true)
      | AddForward _ =>
          filter ← (match pkg_State fwdPkg with FwdStateLockedIn => PkgFilter_Set (pkg_FwdFilter fwdPkg) (u16 i) | _ => Ok (pkg_FwdFilter fwdPkg) end);
          rest ← processAdds l (mkFwdPkg (pkg_Source fwdPkg) (pkg_Height fwdPkg) (pkg_State fwdPkg) (pkg_Adds fwdPkg) filter (pkg_AckFilter fwdPkg)
                   (pkg_SettleFails fwdPkg) (pkg_SettleFailFilter fwdPkg)) (i + 1) pds resps;
          Ok (mkAdds (fate :: ar_fates rest) (ar_filter rest) (ar_failed rest))
      | _ =>
          rest ← processAdds l fwdPkg (i + 1) pds resps;
          Ok (mkAdds (fate :: ar_fates rest) (ar_filter rest) (ar_failed rest))
      end
  | _ :: _, [] => Panic
  end.

Definition forwarded_packets (fates : list add_fate) : list htlcPacket :=
  omap (fun f => match f with AddForward pkt => Some pkt | _ => None end) fates.

(** What the link does with a package: the fates of its HTLCs, the filter it stores
    if the package is new, and the packets it forwards.  [saves]: the filter can be
    written. *)
Definition processRemoteAdds {E} (saves : bool) (l : channelLink) (fwdPkg : FwdPkg) (lockedInHtlcs : list PaymentDescriptor)
    (decodeResps : option (list (Z + Iterator))) : res E (list add_fate * option PkgFilter * list htlcPacket) :=
  match decodeResps with
  | None => Ok ([], None, [])
  | Some resps =>
      r ← processAdds l fwdPkg 0 lockedInHtlcs resps;
      if ar_failed r then Ok (ar_fates r, None, [])
      else match pkg_State fwdPkg with
      | FwdStateLockedIn => if saves then Ok (ar_fates r, Some (ar_filter r), forwarded_packets (ar_fates r)) else Ok (ar_fates r, None, [])
      | _ => Ok (ar_fates r, None, forwarded_packets (ar_fates r))
      end
  end.
End Adds.

(** ** Packets from the switch *)

(** What the link asks of the peer, the mailbox and the channel besides. *)
Inductive link_out : Type :=
| SendMessage (m : UpdateMsg)
| AckMail (k : CircuitKey)
| FailMail (pkt : htlcPacket)
| CleanupSpurious (pkt : htlcPacket)
| TryUpdateCommitTx
| UpdateCommitTx.

Definition on_channel {A} (l : channelLink) (f : M LightningChannel chanerr A) : res chanerr A * channelLink :=
  let '(r, lc) := f (lk_channel l) in (r, l <| lk_channel := lc |>).

Definition chanID (l : channelLink) : bytes := NewChanIDFromOutPoint (FundingOutpoint (channelState (lk_channel l))).

Definition downstreamFailure : LinkError := NewDetailedLinkError (FailTemporaryChannelFailure None) OutgoingFailureDownstreamHtlcAdd.

Definition handleDownstreamUpdateAdd (l : channelLink) (pkt : htlcPacket) (htlc : UpdateAddHTLC) : res LinkError unit * list link_out * channelLink :=
  let htlc := mkUpdateAddHTLC (chanID l) (add_ID htlc) (add_Amount htlc) (add_AssetID htlc) (add_PaymentHash htlc) (add_Expiry htlc)
                (add_OnionBlob htlc) (add_ExtraData htlc) in
  match on_channel l (AddHTLC htlc (Some (inKey pkt))) with
  | (Panic, l) => (Panic, [], l)
  | (Err _, l) => (Err downstreamFailure, [FailMail pkt], l)
  | (Ok index, l) =>
      let htlc := mkUpdateAddHTLC (add_ChanID htlc) index (add_Amount htlc) (add_AssetID htlc) (add_PaymentHash htlc) (add_Expiry htlc)
                    (add_OnionBlob htlc) (add_ExtraData htlc) in
      (Ok tt, [SendMessage (UMAdd htlc); TryUpdateCommitTx],
       l <| openedCircuits ::= fun ks => ks ++ [inKey pkt] |>
         <| keystoneBatch ::= fun ks => ks ++ [mkKeystone (inKey pkt) (mkCircuitKey (shortChanID l) index)] |>)
  end.

Definition removeDownstream (l : channelLink) (pkt : htlcPacket) (f : M LightningChannel chanerr unit) (m : UpdateMsg) : res LinkError unit * list link_out * channelLink :=
  match on_channel l f with
  | (Panic, l) => (Panic, [], l)
  | (Err e, l) =>
      (Ok tt, (match e with ErrUnknownHtlcIndex _ => [CleanupSpurious pkt] | _ => [] end) ++ [AckMail (inKey pkt)], l)
  | (Ok _, l) => (Ok tt, [SendMessage m; UpdateCommitTx], l <| closedCircuits ::= fun ks => ks ++ [inKey pkt] |>)
  end.

Definition handleDownstreamPkt (l : channelLink) (pkt : htlcPacket) : res LinkError unit * list link_out * channelLink :=
  match pk_htlc pkt with
  | UMAdd htlc => let '(r, out, l) := handleDownstreamUpdateAdd l pkt htlc in (match r with Panic => Panic | _ => Ok tt end, out, l)
  | UMFulfill htlc =>
      removeDownstream l pkt (SettleHTLC (ful_PaymentPreimage htlc) (incomingHTLCID pkt) (sourceRef pkt) (destRef pkt) (Some (inKey pkt)))
        (UMFulfill (mkUpdateFulfillHTLC (chanID l) (incomingHTLCID pkt) (ful_PaymentPreimage htlc) (ful_ExtraData htlc)))
  | UMFail htlc =>
      removeDownstream l pkt (FailHTLC (incomingHTLCID pkt) (fail_Reason htlc) (sourceRef pkt) (destRef pkt) (Some (inKey pkt)))
        (UMFail (mkUpdateFailHTLC (chanID l) (incomingHTLCID pkt) (fail_Reason htlc) (fail_ExtraData htlc)))
  | _ => (Ok tt, [], l)
  end.

(** The packets of the commitment that was signed leave the mailbox: its adds, and if
    their circuits can be deleted its answers.  The first list is what leaves. *)
Definition ackDownStreamPackets (deletes : bool) (l : channelLink) (m : circuitMap) : list CircuitKey * res circuiterr unit * channelLink * circuitMap :=
  let '(r, m) := DeleteCircuits deletes (closedCircuits l) m in
  match r with
  | Ok _ => (openedCircuits l ++ closedCircuits l, r, l <| openedCircuits := [] |> <| closedCircuits := [] |>, m)
  | _ => (openedCircuits l, r, l, m)
  end.

(** An answer whose HTLC the channel does not know any more: it is not to come again.
    [acksAdd], [acksSettle], [deletes]: the writes commit. *)
Definition cleanupSpuriousResponse (acksAdd acksSettle deletes : bool) (l : channelLink) (pkt : htlcPacket) (db : fwdStore) (m : circuitMap) :
    res pkgerr (fwdStore * circuitMap) :=
  match sourceRef pkt with
  | None => Ok (db, m)
  | Some ref =>
      match AckAddHtlcs (ChanShortID (channelState (lk_channel l))) [ref] db with
      | Panic => Panic
      | Err _ => Ok (db, m)
      | Ok db1 =>
          if negb acksAdd then Ok (db, m)
          else
            db2 ← (match destRef pkt with
                   | None => Ok db1
                   | Some dref => match ackSettleFails [dref] db1 with Ok db2 => Ok (if acksSettle then db2 else db1) | Err _ => Ok db1 | Panic => Panic end
                   end);
            Ok (db2, (DeleteCircuits deletes [inKey pkt] m).2)
      end
  end.

(** ** The link as the switch sees it *)
Section Instance.
Context (FetchLastChannelUpdate : ShortChannelID -> option ChannelUpdate).

Definition channel_link : ChannelLink channelLink := {|
  ChanID := chanID;
  ShortChanID := shortChanID;
  SetShortChanID s l := l <| shortChanID := s |>;
  PeerPubKey := lk_peer;
  EligibleToForward := link_EligibleToForward;
  CheckHtlcForward l _ amtIn amtOut tIn tOut height := link_CheckHtlcForward FetchLastChannelUpdate l amtIn amtOut tIn tOut height;
  CheckHtlcTransit l _ amt timeout height := link_CheckHtlcTransit FetchLastChannelUpdate l amt timeout height;
  handleLocalAddPacket pkt l :=
    match pk_htlc pkt with
    | UMAdd htlc => let '(r, _, l) := handleDownstreamUpdateAdd l pkt htlc in (r, l)
    | _ => (Ok tt, l)
    end;
  Switch.getDustSum l remote := GetDustSum (lk_channel l) remote;
  Switch.getFeeRate := link_getFeeRate;
  Switch.getDustClosure := link_getDustClosure
|}.
End Instance.
End Link.
