(* ===== verification/LinkTheorems.v ===== *)
(** * What a link forwards

    The checks of a forwarding policy are what they say over whole numbers as long as
    nothing wraps, and bound the fee when something does; an HTLC has the same fate
    when its package is processed again; a link is one the switch can use. *)

From S2P Require Import Prelude Wire Messages ChanIds Failures Results Units Sha256 Shachain Tx OmniOp Keys Scripts FwdPkg UpdateLog Circuits CircuitOps CircuitTheorems Mailbox PayDescs Switch ChanDB Commitment Channel ChannelOps SwitchTheorems Link.

Section LinkTheorems.
Context `{CurveOps}.
Implicit Types (l : channelLink).

(** ** Fees *)
Record policy_ok (f : ForwardingPolicy) : Prop := {
  po_min : is_uint 64 (MinHTLCOut f); po_max : is_uint 64 (fp_MaxHTLC f); po_base : is_uint 64 (fp_BaseFee f);
  po_rate : is_uint 64 (fp_FeeRate f); po_delta : is_uint 32 (fp_TimeLockDelta f)
}.

(** The fee over whole numbers. *)
Definition exactFee (f : ForwardingPolicy) (amt : Z) : Z := fp_BaseFee f + amt * fp_FeeRate f / 1000000.

Lemma expected_fee_exact f amt : policy_ok f -> 0 <= amt -> amt * fp_FeeRate f < 2 ^ 64 -> exactFee f amt < 2 ^ 64 -> ExpectedFee f amt = exactFee f amt.
Proof.
  intros [_ _ Hb Hr _] Ha Hm Hx. unfold ExpectedFee, exactFee, is_uint in *. rewrite (uwrap_id 64 (amt * fp_FeeRate f)) by (unfold is_uint; nia).
  apply uwrap_id. unfold is_uint. assert (0 <= amt * fp_FeeRate f / 1000000) by (apply Z.div_pos; nia). lia.
Qed.

(** C25. The fee that a policy asks is the base fee and the rate, in millionths, of the
    amount as long as their product fits 64 bits.  From there on it wraps: whatever the
    amount, the rate never adds more than 18446744073709 (about 184467 coins of an
    asset with eight decimals), and the fee asked is then less than what the policy
    says. *)
Theorem expected_fee_bounds (f : ForwardingPolicy) (amt : Z) : policy_ok f -> is_uint 64 amt -> fp_BaseFee f + 2 ^ 64 / 1000000 < 2 ^ 64 ->
  (amt * fp_FeeRate f < 2 ^ 64 -> ExpectedFee f amt = fp_BaseFee f + amt * fp_FeeRate f / 1000000) /\
  (2 ^ 64 <= amt * fp_FeeRate f -> ExpectedFee f amt < fp_BaseFee f + amt * fp_FeeRate f / 1000000) /\
  ExpectedFee f amt <= fp_BaseFee f + 18446744073709.
Proof.
  intros Hf Ha Hb. pose proof Hf as [_ _ Hbase Hr _]. unfold is_uint in *.
  change (2 ^ 64 / 1000000) with 18446744073709 in Hb.
  assert (Hw : forall z, 0 <= u64 z < 2 ^ 64) by (intros z; apply Z.mod_pos_bound; lia).
  assert (Hd : 0 <= u64 (amt * fp_FeeRate f) / 1000000 <= 18446744073709).
  { pose proof (Hw (amt * fp_FeeRate f)). split; [apply Z.div_pos; lia|]. change 18446744073709 with ((2 ^ 64 - 1) / 1000000). apply Z.div_le_mono; lia. }
  assert (He : ExpectedFee f amt = fp_BaseFee f + u64 (amt * fp_FeeRate f) / 1000000) by (apply uwrap_id; unfold is_uint; lia).
  rewrite He. split_and!; [| |lia].
  - intros Hm. rewrite (uwrap_id 64 (amt * fp_FeeRate f)) by (unfold is_uint; nia). done.
  - intros Hm. assert (Hlow : u64 (amt * fp_FeeRate f) <= amt * fp_FeeRate f - 2 ^ 64).
    { pose proof (Z.div_mod (amt * fp_FeeRate f) (2 ^ 64) ltac:(lia)) as Hdm. unfold uwrap.
      assert (1 <= amt * fp_FeeRate f / 2 ^ 64) by (apply Z.div_le_lower_bound; lia). nia. }
    assert (u64 (amt * fp_FeeRate f) / 1000000 < amt * fp_FeeRate f / 1000000); [|lia].
    apply Z.lt_le_trans with ((u64 (amt * fp_FeeRate f) + 1 * 1000000) / 1000000); [rewrite Z.div_add by lia; lia|].
    apply Z.div_le_mono; lia.
Qed.

(** ** Checks *)

(** What a policy asks of an HTLC, over whole numbers. *)
Record sendable l (policy : ForwardingPolicy) (amt timeout height : Z) : Prop := {
  sd_min : MinHTLCOut policy <= amt;
  sd_max : fp_MaxHTLC policy = 0 \/ amt <= fp_MaxHTLC policy;
  sd_soon : height + OutgoingCltvRejectDelta l < timeout;
  sd_far : timeout <= height + MaxOutgoingCltvExpiry l;
  sd_bandwidth : amt <= Bandwidth l
}.

Lemma can_send_iff fetch l policy amt timeout height : is_uint 32 (height + OutgoingCltvRejectDelta l) -> is_uint 32 (MaxOutgoingCltvExpiry l + height) ->
  canSendHtlc fetch l policy amt timeout height = Ok tt <-> sendable l policy amt timeout height.
Proof.
  intros H1 H2. unfold canSendHtlc. rewrite !uwrap_id by done.
  destruct (Z.ltb_spec amt (MinHTLCOut policy)); [split; [done|intros []; lia]|].
  destruct (Z.eqb_spec (fp_MaxHTLC policy) 0) as [Hz|Hz]; cbn [negb andb]; [|destruct (Z.ltb_spec (fp_MaxHTLC policy) amt); [split; [done|intros []; lia]|]].
  all: destruct (Z.leb_spec timeout (height + OutgoingCltvRejectDelta l)); [split; [done|intros []; lia]|].
  all: destruct (Z.ltb_spec (MaxOutgoingCltvExpiry l + height) timeout); [split; [done|intros []; lia]|].
  all: destruct (Z.ltb_spec (Bandwidth l) amt); [split; [done|intros []; lia]|]; split; [intros _; split; lia|done].
Qed.

(** What the code asks, heights and fee in their machine widths. *)
Record sendable_wrapped l (policy : ForwardingPolicy) (amt timeout height : Z) : Prop := {
  sw_min : MinHTLCOut policy <= amt;
  sw_max : fp_MaxHTLC policy = 0 \/ amt <= fp_MaxHTLC policy;
  sw_soon : u32 (height + OutgoingCltvRejectDelta l) < timeout;
  sw_far : timeout <= u32 (MaxOutgoingCltvExpiry l + height);
  sw_bandwidth : amt <= Bandwidth l
}.

Lemma can_send_wrapped fetch l policy amt timeout height :
  canSendHtlc fetch l policy amt timeout height = Ok tt -> sendable_wrapped l policy amt timeout height.
Proof.
  unfold canSendHtlc. destruct (Z.ltb_spec amt (MinHTLCOut policy)); [done|].
  destruct (Z.eqb_spec (fp_MaxHTLC policy) 0) as [Hz|Hz]; cbn [negb andb]; [|destruct (Z.ltb_spec (fp_MaxHTLC policy) amt); [done|]].
  all: case_match; [done|]; case_match; [done|]; case_match; [done|]; intros _.
  all: split; lia.
Qed.

Lemma check_forward_wrapped fetch l amtIn amtOut tIn tOut height : is_uint 64 amtIn -> is_uint 64 amtOut ->
  link_CheckHtlcForward fetch l amtIn amtOut tIn tOut height = Ok tt ->
  sendable_wrapped l (FwrdingPolicy l) amtOut tOut height /\ amtOut + ExpectedFee (FwrdingPolicy l) amtOut <= amtIn /\
  u32 (tOut + fp_TimeLockDelta (FwrdingPolicy l)) <= tIn.
Proof.
  intros Hi Ho Hrun. unfold link_CheckHtlcForward in Hrun. apply res_bind_Ok in Hrun as ([] & Hsend & Hrun).
  apply can_send_wrapped in Hsend. split; [done|]. destruct (Z.ltb_spec amtIn amtOut); [done|]. cbn [orb] in Hrun. unfold is_uint in *.
  rewrite (uwrap_id 64 (amtIn - amtOut)) in Hrun by (unfold is_uint; lia).
  destruct (Z.ltb_spec (amtIn - amtOut) (ExpectedFee (FwrdingPolicy l) amtOut)); [done|]. case_match; [done|]. lia.
Qed.

Lemma check_forward_iff fetch l amtIn amtOut tIn tOut height : policy_ok (FwrdingPolicy l) -> is_uint 64 amtIn -> is_uint 64 amtOut ->
  is_uint 32 (height + OutgoingCltvRejectDelta l) -> is_uint 32 (MaxOutgoingCltvExpiry l + height) -> is_uint 32 (tOut + fp_TimeLockDelta (FwrdingPolicy l)) ->
  link_CheckHtlcForward fetch l amtIn amtOut tIn tOut height = Ok tt <->
  sendable l (FwrdingPolicy l) amtOut tOut height /\ amtOut + ExpectedFee (FwrdingPolicy l) amtOut <= amtIn /\ tOut + fp_TimeLockDelta (FwrdingPolicy l) <= tIn.
Proof.
  intros Hp Hi Ho H1 H2 H3. unfold link_CheckHtlcForward. rewrite (uwrap_id 32 (tOut + _)) by done.
  rewrite <- (can_send_iff fetch) by done. destruct (canSendHtlc _ _ _ _ _ _) as [[]|e|]; cbn [mbind res_mbind res_bind]; [|by split; [|intros (? & _)]..].
  unfold is_uint in *. assert (Hfee : 0 <= ExpectedFee (FwrdingPolicy l) amtOut) by (apply Z.mod_pos_bound; lia).
  destruct (Z.ltb_spec amtIn amtOut); cbn [orb]; [split; [done|lia]|].
  rewrite (uwrap_id 64) by (unfold is_uint; lia).
  destruct (Z.ltb_spec (amtIn - amtOut) (ExpectedFee (FwrdingPolicy l) amtOut)); [split; [done|lia]|].
  destruct (Z.ltb_spec tIn (tOut + fp_TimeLockDelta (FwrdingPolicy l))); [split; [done|lia]|]. split; [intros _; split_and!; [done|lia|lia]|done].
Qed.

Lemma forward_pays fetch l amtIn amtOut tIn tOut height : link_CheckHtlcForward fetch l amtIn amtOut tIn tOut height = Ok tt -> amtOut <= amtIn.
Proof.
  unfold link_CheckHtlcForward. destruct (canSendHtlc _ _ _ _ _ _) as [[]|e|]; [|done..]. cbn [mbind res_mbind res_bind].
  destruct (Z.ltb_spec amtIn amtOut); [done|lia].
Qed.

(** A link agrees to forward an HTLC exactly if, over whole numbers, the amount
    that leaves is within the bounds of its policy and what the channel can send, it
    expires neither too soon nor too far in the future, and what came in pays the base
    fee and the rate and expires later by the time lock delta; for amounts, fees and
    heights at which nothing wraps. *)
Theorem check_forward_correct fetch l (amtIn amtOut tIn tOut height : Z) : policy_ok (FwrdingPolicy l) -> is_uint 64 amtIn -> is_uint 64 amtOut ->
  is_uint 32 (height + OutgoingCltvRejectDelta l) -> is_uint 32 (MaxOutgoingCltvExpiry l + height) -> is_uint 32 (tOut + fp_TimeLockDelta (FwrdingPolicy l)) ->
  amtOut * fp_FeeRate (FwrdingPolicy l) < 2 ^ 64 -> exactFee (FwrdingPolicy l) amtOut < 2 ^ 64 ->
  link_CheckHtlcForward fetch l amtIn amtOut tIn tOut height = Ok tt <->
  sendable l (FwrdingPolicy l) amtOut tOut height /\ amtOut + exactFee (FwrdingPolicy l) amtOut <= amtIn /\ tOut + fp_TimeLockDelta (FwrdingPolicy l) <= tIn.
Proof.
  intros Hp Hi Ho H1 H2 H3 Hm Hx. rewrite check_forward_iff by done. rewrite expected_fee_exact by (done || apply Ho). done.
Qed.

(** ** The link as the switch sees it *)
Section Laws.
Context (fetch : ShortChannelID -> option ChannelUpdate).
#[local] Existing Instance channel_link.

Lemma downstream_add_keeps l pkt htlc : let l' := (handleDownstreamUpdateAdd l pkt htlc).2 in
  channelState (lk_channel l') = channelState (lk_channel l) /\ shortChanID l' = shortChanID l /\ lk_peer l' = lk_peer l.
Proof. unfold handleDownstreamUpdateAdd, on_channel. rewrite AddHTLC_run. by destruct (fst (validateAddHtlc _ _)). Qed.

#[export] Instance channel_link_laws : @ChannelLinkLaws channelLink (channel_link fetch).
Proof.
  split; try done.
  - intros pkt l. cbn. destruct (pk_htlc pkt) as [htlc| | | |]; try done. pose proof (downstream_add_keeps l pkt htlc) as (Hc & _).
    destruct (handleDownstreamUpdateAdd l pkt htlc) as [[r o] l']. cbn in *. unfold chanID. by rewrite Hc.
  - intros pkt l. cbn. destruct (pk_htlc pkt) as [htlc| | | |]; try done. pose proof (downstream_add_keeps l pkt htlc) as (_ & Hs & _).
    by destruct (handleDownstreamUpdateAdd l pkt htlc) as [[r o] l'].
  - intros pkt l. cbn. destruct (pk_htlc pkt) as [htlc| | | |]; try done. pose proof (downstream_add_keeps l pkt htlc) as (_ & _ & Hp).
    by destruct (handleDownstreamUpdateAdd l pkt htlc) as [[r o] l'].
  - intros l h amtIn amtOut tIn tOut height. apply forward_pays.
  - intros l h amtIn amtOut tIn tOut height. cbn. unfold link_CheckHtlcForward, canSendHtlc. by repeat case_match.
Qed.
End Laws.

(** ** After a restart: settles and failures *)

(** The descriptors whose bit is not set. *)
Fixpoint still_pending (bits : bytes) (i : Z) (pds : list PaymentDescriptor) : list PaymentDescriptor :=
  match pds with
  | [] => []
  | pd :: pds => let rest := still_pending bits (i + 1) pds in if bit_at bits i then rest else pd :: rest
  end.

Lemma unacked_ok {E} filter : filter_ok filter -> count filter < 2 ^ 16 -> forall pds i, 0 <= i -> i + Z.of_nat (length pds) <= count filter ->
  @unacked E filter i pds = Ok (still_pending (filter_bits filter) i pds).
Proof.
  intros Hf Hc. induction pds as [|pd pds IH]; intros i Hi Hn; [done|]. cbn [unacked length still_pending] in *.
  rewrite (uwrap_id 16 i) by (unfold is_uint; lia). rewrite Contains_bit by (done || lia). rewrite res_bind_Ok_l, IH by (done || lia).
  rewrite res_bind_Ok_l. by destruct (bit_at (filter_bits filter) i).
Qed.

Definition fail_reason (pkt : htlcPacket) : option bytes := match pk_htlc pkt with UMFail f => Some (fail_Reason f) | _ => None end.

Lemma settle_fail_again l source pd : shortChanID l = source ->
  reforwardOne source pd = (fun pkt => pkt <| convertedError := false |>) <$> settleFailPacket l pd.
Proof. intros <-. unfold reforwardOne, settleFailPacket. by destruct (pd_EntryType pd). Qed.

(** What the switch forwards of a package after a restart are the settles and
    failures that the link forwarded of it at first, in their order, less those that
    are acknowledged; but a failure that the link had taken for a malformed one, by
    its length of 260 bytes, comes without that mark.  The two are the same exactly if
    there is no such failure. *)
Theorem settle_fails_replayed {Msg L : Type} `{ChannelLink L, VarIntOps, SphinxLib} fetch (now : Z) (s : Switch Msg L) l (pkg : FwdPkg) (pds : list PaymentDescriptor) :
  shortChanID l = pkg_Source pkg -> filter_ok (pkg_SettleFailFilter pkg) -> Z.of_nat (length pds) <= count (pkg_SettleFailFilter pkg) < 2 ^ 16 ->
  PayDescsFromRemoteLogUpdates (pkg_Source pkg) (pkg_Height pkg) (pkg_SettleFails pkg) = Some pds ->
  exists first again, processRemoteSettleFails l pkg pds = (Ok first : res swerr (list htlcPacket)) /\
    reforwardSettleFails fetch now [pkg] s = (_ ← ForwardPackets fetch true now again; mret tt) s /\
    again = (fun pkt => pkt <| convertedError := false |>) <$> first /\
    (forall pkt, pkt ∈ first -> convertedError pkt = true <-> exists reason, fail_reason pkt = Some reason /\ Z.of_nat (length reason) = 260) /\
    (again = first <-> forall pkt reason, pkt ∈ first -> fail_reason pkt = Some reason -> Z.of_nat (length reason) <> 260).
Proof.
  intros Hs Hf [Hn Hc] Hpds. set (pend := still_pending (filter_bits (pkg_SettleFailFilter pkg)) 0 pds).
  assert (Hmap : omap (reforwardOne (pkg_Source pkg)) pend = (fun pkt => pkt <| convertedError := false |>) <$> omap (settleFailPacket l) pend).
  { induction pend as [|pd q IH]; [done|]. cbn. rewrite (settle_fail_again l) by done. destruct (settleFailPacket l pd); [cbn; by f_equal|exact IH]. }
  assert (Hmark : forall pkt, pkt ∈ omap (settleFailPacket l) pend -> convertedError pkt = true <-> exists reason, fail_reason pkt = Some reason /\ Z.of_nat (length reason) = 260).
  { intros pkt (pd & _ & Hp)%list_elem_of_omap. unfold settleFailPacket, fail_reason in *. destruct (pd_EntryType pd); try done; injection Hp as <-; cbn.
    - rewrite Z.eqb_eq. split; [intros Hl; by eexists|by intros (r & [= <-] & Hl)].
    - split; [done|by intros (? & ? & _)]. }
  exists (omap (settleFailPacket l) pend), (omap (reforwardOne (pkg_Source pkg)) pend). split_and!; try done.
  - unfold processRemoteSettleFails. by rewrite (unacked_ok _ Hf Hc pds 0) by lia.
  - cbn [reforwardSettleFails]. rewrite Hpds. unfold mbind, M_bind, lift. by rewrite (unacked_ok _ Hf Hc pds 0) by lia.
  - rewrite Hmap. revert Hmark. generalize (omap (settleFailPacket l) pend) as first. intros first Hmark. split.
    + intros Heq pkt reason Hin Hr Hl. assert (Hc1 : convertedError pkt = true) by (apply Hmark; [done|by exists reason]).
      rewrite <- Heq in Hin. apply list_elem_of_fmap in Hin as (q & -> & _). done.
    + intros Hno. rewrite <- (list_fmap_id first) at 2. apply list_fmap_ext. intros i pkt Hin%list_elem_of_lookup_2. assert (Hc0 : convertedError pkt = false); [|by destruct pkt; cbn in *; rewrite <- Hc0].
      apply not_true_is_false. intros (r & Hr & Hl)%Hmark; [|done]. by apply (Hno pkt r).
Qed.

(** ** After a restart: adds *)
Section Replay.
Context (fetch : ShortChannelID -> option ChannelUpdate) (notifies : PaymentDescriptor -> bool).

Definition is_forward (f : add_fate) : bool := match f with AddForward _ => true | _ => false end.

(** The fate of an HTLC the first time. *)
Definition first_fate l (pd : PaymentDescriptor) (resp : Z + Iterator) : add_fate :=
  match resp with
  | inl code => AddMalformed pd code
  | inr it =>
      match ExtractErrorEncrypter it with
      | inl code => AddMalformed pd code
      | inr e =>
          match HopPayload it with
          | inl failedType => AddError pd (NewLinkError (InvalidOnionPayload failedType 0)) e false
          | inr fwdInfo =>
              if bool_decide (NextHop fwdInfo = Exit) then processExitHop pd e fwdInfo
              else match EncodeNextHop it with
                   | None => AddError pd (NewLinkError (createFailureWithUpdate fetch l (fun upd => FailTemporaryChannelFailure (Some upd)))) e false
                   | Some onion => AddForward (updatePacket l pd fwdInfo e (ChanAssetID (channelState (lk_channel l))) onion)
                   end
          end
      end
  end.

Lemma fate_locked {E} l pkg idx pd resp : pkg_State pkg = FwdStateLockedIn -> addFate (E := E) fetch l pkg idx pd resp = Ok (first_fate l pd resp).
Proof.
  intros Hs. unfold addFate, first_fate, forwardFate. rewrite Hs, !res_bind_Ok_l. repeat (case_match; try done).
Qed.

Lemma exit_not_forward pd e info : is_forward (processExitHop pd e info) = false.
Proof. unfold processExitHop. by repeat case_match. Qed.

(** The packet of the replay, and the HTLC in it, have the asset of the HTLC that came
    in; the first one has that of the channel. *)
Definition with_asset (asset : Z) (pkt : htlcPacket) : htlcPacket :=
  pkt <| pk_assetId := asset |>
      <| pk_htlc ::= fun m => match m with
           | UMAdd h => UMAdd (mkUpdateAddHTLC (add_ChanID h) (add_ID h) (add_Amount h) asset (add_PaymentHash h) (add_Expiry h) (add_OnionBlob h) (add_ExtraData h))
           | _ => m
           end |>.

Definition replayed (pd : PaymentDescriptor) (f : add_fate) : add_fate :=
  match f with AddForward pkt => AddForward (with_asset (pd_AssetID pd) pkt) | _ => f end.

Lemma replayed_forward l pd info e asset onion :
  replayed pd (AddForward (updatePacket l pd info e asset onion)) = AddForward (updatePacket l pd info e (pd_AssetID pd) onion).
Proof. done. Qed.

Lemma replayed_exit pd pd' e info : replayed pd (processExitHop pd' e info) = processExitHop pd' e info.
Proof. unfold processExitHop. by repeat case_match. Qed.

Lemma fate_again {E} l pkg idx pd resp : pkg_State pkg = FwdStateProcessed -> filter_ok (pkg_FwdFilter pkg) -> filter_ok (pkg_AckFilter pkg) ->
  0 <= idx < count (pkg_FwdFilter pkg) -> idx < count (pkg_AckFilter pkg) ->
  bit_at (filter_bits (pkg_FwdFilter pkg)) idx = is_forward (first_fate l pd resp) ->
  addFate (E := E) fetch l pkg idx pd resp = Ok (if bit_at (filter_bits (pkg_AckFilter pkg)) idx then AddAcked else replayed pd (first_fate l pd resp)).
Proof.
  intros Hs Hf Ha Hi Hia Hbit. unfold addFate, forwardFate. rewrite Hs. cbn iota.
  rewrite (Contains_bit (pkg_AckFilter pkg)) by (done || lia). rewrite res_bind_Ok_l.
  destruct (bit_at (filter_bits (pkg_AckFilter pkg)) idx); [done|]. unfold first_fate in *. destruct resp as [code|it]; [done|].
  destruct (ExtractErrorEncrypter it) as [code|e]; [done|]. destruct (HopPayload it) as [t|info]; [done|].
  case_bool_decide; [by rewrite replayed_exit|].
  rewrite Contains_bit by done. rewrite res_bind_Ok_l, Hbit. by destruct (EncodeNextHop it).
Qed.

(** Which of the HTLCs were forwarded. *)
Definition marks (fates : list add_fate) (j : Z) : bool := (0 <=? j) && from_option is_forward false (fates !! Z.to_nat j).

Lemma marks_cons f fates j : marks (f :: fates) j = (j =? 0) && is_forward f || marks fates (j - 1).
Proof.
  unfold marks. destruct (Z.eqb_spec j 0) as [->|Hj]; [by rewrite orb_false_r|]. cbn [andb orb].
  destruct (Z.leb_spec 0 j); [|by rewrite (proj2 (Z.leb_gt 0 (j - 1))) by lia]. rewrite (proj2 (Z.leb_le 0 (j - 1))) by lia.
  replace (Z.to_nat j) with (S (Z.to_nat (j - 1))) by lia. done.
Qed.

Definition set_filter (pkg : FwdPkg) (f : PkgFilter) : FwdPkg :=
  mkFwdPkg (pkg_Source pkg) (pkg_Height pkg) (pkg_State pkg) (pkg_Adds pkg) f (pkg_AckFilter pkg) (pkg_SettleFails pkg) (pkg_SettleFailFilter pkg).

Definition refused_exit (f : add_fate) : bool := match f with AddExit pd _ => negb (notifies pd) | _ => false end.

Lemma first_step {E} l pkg i pd resp pds resps : pkg_State pkg = FwdStateLockedIn -> filter_ok (pkg_FwdFilter pkg) -> 0 <= i < count (pkg_FwdFilter pkg) ->
  count (pkg_FwdFilter pkg) < 2 ^ 16 -> exists f, filter_ok f /\ count f = count (pkg_FwdFilter pkg) /\
    (forall k, 0 <= k < count f -> bit_at (filter_bits f) k = bit_at (filter_bits (pkg_FwdFilter pkg)) k || (k - i =? 0) && is_forward (first_fate l pd resp)) /\
    processAdds (E := E) fetch notifies l pkg i (pd :: pds) (resp :: resps) =
      if refused_exit (first_fate l pd resp) then Ok (mkAdds [first_fate l pd resp] (pkg_FwdFilter pkg) true)
      else r ← processAdds fetch notifies l (set_filter pkg f) (i + 1) pds resps;
           Ok (mkAdds (first_fate l pd resp :: ar_fates r) (ar_filter r) (ar_failed r)).
Proof.
  intros Hs Hf Hi Hc. cbn [processAdds]. rewrite (uwrap_id 16 i) by (unfold is_uint; lia). rewrite fate_locked by done. rewrite res_bind_Ok_l, Hs.
  destruct (is_forward (first_fate l pd resp)) eqn:Hfw.
  - destruct (Set_bit (E := E) (pkg_FwdFilter pkg) i Hf Hi) as (f & Hset & Hf' & Hcf & Hb). exists f. split_and!; [done|done| |].
    + intros k Hk. rewrite Hb by lia. rewrite andb_true_r. f_equal. destruct (Z.eqb_spec i k), (Z.eqb_spec (k - i) 0); done || lia.
    + destruct (first_fate l pd resp); try done. cbn [refused_exit]. rewrite Hset, res_bind_Ok_l. unfold set_filter. by rewrite Hs.
  - exists (pkg_FwdFilter pkg). assert (Hpkg : set_filter pkg (pkg_FwdFilter pkg) = pkg) by by destruct pkg. rewrite Hpkg. split_and!; try done.
    + intros k _. by rewrite andb_false_r, orb_false_r.
    + destruct (first_fate l pd resp); try done. cbn [refused_exit]. by destruct (notifies pd0).
Qed.

Lemma first_run {E} l : forall pds resps pkg i r, pkg_State pkg = FwdStateLockedIn -> filter_ok (pkg_FwdFilter pkg) -> 0 <= i ->
  i + Z.of_nat (length pds) <= count (pkg_FwdFilter pkg) < 2 ^ 16 -> processAdds (E := E) fetch notifies l pkg i pds resps = Ok r -> ar_failed r = false ->
  (length pds <= length resps)%nat /\ ar_fates r = zip_with (first_fate l) pds resps /\ Forall (fun f => refused_exit f = false) (ar_fates r) /\
  filter_ok (ar_filter r) /\ count (ar_filter r) = count (pkg_FwdFilter pkg) /\
  forall k, 0 <= k < count (pkg_FwdFilter pkg) -> bit_at (filter_bits (ar_filter r)) k = bit_at (filter_bits (pkg_FwdFilter pkg)) k || marks (ar_fates r) (k - i).
Proof.
  induction pds as [|pd pds IH]; intros resps pkg i r Hs Hf Hi Hn Hrun Hfail.
  - cbn in Hrun. injection Hrun as <-. cbn. split_and!; try done; [lia|]. intros k _. unfold marks. rewrite lookup_nil. cbn [from_option]. by rewrite andb_false_r, orb_false_r.
  - destruct resps as [|resp resps]; [done|]. cbn [length] in Hn.
    destruct (first_step (E := E) l pkg i pd resp pds resps Hs Hf) as (f & Hf' & Hcf & Hb & Heq); [lia|lia|]. rewrite Heq in Hrun.
    destruct (refused_exit (first_fate l pd resp)) eqn:Hex; [by injection Hrun as <-|].
    apply res_bind_Ok in Hrun as (r' & Hrun & [= <-]). cbn in Hfail.
    destruct (IH resps (set_filter pkg f) (i + 1) r') as (Hl & Hfates & Hexits & Hok & Hcr & Hbits); try done; [cbn; lia..|].
    cbn in *. split_and!; [lia|by f_equal|by constructor|done|congruence|].
    intros k Hk. rewrite Hbits, Hb by lia. rewrite marks_cons. replace (k - (i + 1)) with (k - i - 1) by lia. by rewrite orb_assoc.
Qed.

Lemma first_fate_same l pd resp : pd_AssetID pd = ChanAssetID (channelState (lk_channel l)) -> replayed pd (first_fate l pd resp) = first_fate l pd resp.
Proof.
  intros Has. unfold first_fate. destruct resp as [code|it]; [done|]. destruct (ExtractErrorEncrypter it); [done|].
  destruct (HopPayload it) as [t|info]; [done|]. case_bool_decide; [apply replayed_exit|]. destruct (EncodeNextHop it); [|done].
  by rewrite replayed_forward, Has.
Qed.

(** The fates of the HTLCs when the package is processed again: an acknowledged one is
    left alone. *)
Fixpoint again_fates (acks : bytes) (i : Z) (pds : list PaymentDescriptor) (fates : list add_fate) : list add_fate :=
  match pds, fates with
  | pd :: pds, f :: fates => (if bit_at acks i then AddAcked else replayed pd f) :: again_fates acks (i + 1) pds fates
  | _, _ => []
  end.

Lemma again_run {E} l : forall pds resps pkg i, pkg_State pkg = FwdStateProcessed -> filter_ok (pkg_FwdFilter pkg) -> filter_ok (pkg_AckFilter pkg) -> 0 <= i ->
  i + Z.of_nat (length pds) <= count (pkg_FwdFilter pkg) -> i + Z.of_nat (length pds) <= count (pkg_AckFilter pkg) < 2 ^ 16 ->
  (length pds <= length resps)%nat ->
  Forall (fun f => refused_exit f = false) (zip_with (first_fate l) pds resps) ->
  (forall k, i <= k < i + Z.of_nat (length pds) -> bit_at (filter_bits (pkg_FwdFilter pkg)) k = marks (zip_with (first_fate l) pds resps) (k - i)) ->
  processAdds (E := E) fetch notifies l pkg i pds resps =
    Ok (mkAdds (again_fates (filter_bits (pkg_AckFilter pkg)) i pds (zip_with (first_fate l) pds resps)) (pkg_FwdFilter pkg) false).
Proof.
  induction pds as [|pd pds IH]; intros resps pkg i Hs Hf Ha Hi Hn Hna Hl Hex Hbits; [done|].
  destruct resps as [|resp resps]; [cbn in Hl; lia|]. cbn [zip_with length processAdds again_fates] in *.
  apply list.Forall_cons in Hex as [Hex0 Hex]. rewrite (uwrap_id 16 i) by (unfold is_uint; lia).
  assert (Hb0 : bit_at (filter_bits (pkg_FwdFilter pkg)) i = is_forward (first_fate l pd resp)).
  { rewrite Hbits by lia. rewrite Z.sub_diag. done. }
  rewrite (fate_again l pkg i pd resp Hs Hf Ha) by (done || lia). rewrite res_bind_Ok_l.
  assert (Hrest : processAdds (E := E) fetch notifies l pkg (i + 1) pds resps =
    Ok (mkAdds (again_fates (filter_bits (pkg_AckFilter pkg)) (i + 1) pds (zip_with (first_fate l) pds resps)) (pkg_FwdFilter pkg) false)).
  { apply IH; try done; [lia..|]. intros k Hk. rewrite Hbits by lia. rewrite marks_cons. rewrite (proj2 (Z.eqb_neq _ _)) by lia. cbn. f_equal. lia. }
  assert (Hpkg : set_filter pkg (pkg_FwdFilter pkg) = pkg) by by destruct pkg.
  rewrite Hs. destruct (bit_at (filter_bits (pkg_AckFilter pkg)) i); [by rewrite Hrest|].
  destruct (first_fate l pd resp); cbn [refused_exit replayed] in Hex0 |- *; rewrite ?res_bind_Ok_l; try (by rewrite Hrest).
  - apply negb_false_iff in Hex0. by rewrite Hex0, Hrest.
  - unfold set_filter in Hpkg. rewrite Hs in Hpkg. by rewrite Hpkg, Hrest.
Qed.

Lemma again_same l (acks : bytes) : forall pds resps i, Forall (fun pd => pd_AssetID pd = ChanAssetID (channelState (lk_channel l))) pds ->
  (length pds <= length resps)%nat ->
  again_fates acks i pds (zip_with (first_fate l) pds resps) =
    imap (fun j f => if bit_at acks (i + Z.of_nat j) then AddAcked else f) (zip_with (first_fate l) pds resps).
Proof.
  induction pds as [|pd pds IH]; intros resps i Has Hl; [done|]. destruct resps as [|resp resps]; [cbn in Hl; lia|].
  apply list.Forall_cons in Has as [Has0 Has]. cbn [zip_with again_fates imap length] in *. rewrite Z.add_0_r, first_fate_same by done. f_equal.
  rewrite IH by (done || lia). apply imap_ext. intros j f _. cbn. by replace (i + 1 + Z.of_nat j) with (i + Z.of_nat (S j)) by lia.
Qed.

(** The package as it is stored once the link has gone through it, with what is
    acknowledged since. *)
Definition processed (pkg : FwdPkg) (filter acks : PkgFilter) : FwdPkg :=
  mkFwdPkg (pkg_Source pkg) (pkg_Height pkg) FwdStateProcessed (pkg_Adds pkg) filter acks (pkg_SettleFails pkg) (pkg_SettleFailFilter pkg).

(** C24. A package of HTLCs that a link went through before a restart comes to the same
    when it goes through it again, whatever was acknowledged meanwhile: an HTLC that is
    acknowledged is left alone, and every other one is failed for the same reason,
    handed to the invoices, or forwarded in the packet it was forwarded in the first
    time, but for the asset: the packet now has the asset of the HTLC, the first had that
    of the channel.  If all HTLCs are of the asset of the channel, the packets are the
    same. *)
Theorem adds_replayed l (pkg : FwdPkg) (pds : list PaymentDescriptor) (resps : list (Z + Iterator)) fates filter packets (acks : PkgFilter) (saves : bool) :
  pkg_State pkg = FwdStateLockedIn -> pkg_FwdFilter pkg = NewPkgFilter (Z.of_nat (length pds)) -> Z.of_nat (length pds) <= 65528 ->
  filter_ok acks -> count acks = Z.of_nat (length pds) ->
  processRemoteAdds (E := pkgerr) fetch notifies true l pkg pds (Some resps) = Ok (fates, Some filter, packets) ->
  packets = forwarded_packets fates /\ length fates = length pds /\
  let again := again_fates (filter_bits acks) 0 pds fates in
  processRemoteAdds (E := pkgerr) fetch notifies saves l (processed pkg filter acks) pds (Some resps) = Ok (again, None, forwarded_packets again) /\
  (Forall (fun pd => pd_AssetID pd = ChanAssetID (channelState (lk_channel l))) pds ->
    again = imap (fun j f => if bit_at (filter_bits acks) (Z.of_nat j) then AddAcked else f) fates).
Proof.
  intros Hs Hnew Hlen Hacks Hcount. unfold processRemoteAdds. intros Hrun. apply res_bind_Ok in Hrun as (r & Hrun & Hr).
  destruct (ar_failed r) eqn:Hfail; [done|]. rewrite Hs in Hr. injection Hr as <- <- <-. split; [done|].
  destruct (NewPkgFilter_ok (Z.of_nat (length pds))) as (Hf0 & Hc0 & Hbit0); [lia|]. rewrite <- Hnew in Hf0, Hc0.
  destruct (first_run (E := pkgerr) l pds resps pkg 0 r Hs Hf0) as (Hl & Hfates & Hex & Hf & Hc & Hbits); [lia|lia|done|done|].
  split; [rewrite Hfates, length_zip_with; lia|]. cbv zeta. split.
  - rewrite (again_run (E := pkgerr) l pds resps (processed pkg (ar_filter r) acks) 0); cbn; try done; try lia.
    + by rewrite Hfates.
    + by rewrite <- Hfates.
    + intros k Hk. rewrite Hbits by lia. by rewrite <- Hfates, Hnew, Hbit0.
  - intros Has. rewrite Hfates. by apply again_same.
Qed.
End Replay.

(** ** The switch over real links *)
Section Forwarding.
Context {Msg : Type} `{VarIntOps, SphinxLib} (fetch : ShortChannelID -> option ChannelUpdate).
#[local] Instance real_link : ChannelLink channelLink := channel_link fetch.
#[local] Instance real_laws : ChannelLinkLaws channelLink := channel_link_laws fetch.

(** The amounts and heights at which the checks of a link do not wrap. *)
Record in_range (s : Switch Msg channelLink) (packet : htlcPacket) l : Prop := {
  ir_policy : policy_ok (FwrdingPolicy l);
  ir_soon : is_uint 32 (bestHeight s + OutgoingCltvRejectDelta l);
  ir_far : is_uint 32 (MaxOutgoingCltvExpiry l + bestHeight s);
  ir_delta : is_uint 32 (outgoingTimeout packet + fp_TimeLockDelta (FwrdingPolicy l));
  ir_rate : pk_amount packet * fp_FeeRate (FwrdingPolicy l) < 2 ^ 64;
  ir_fee : exactFee (FwrdingPolicy l) (pk_amount packet) < 2 ^ 64
}.

(** C23. The switch over links of this kind, in every state it reaches: an add that it
    lets through went into the mailbox of a live link of the peer the sender named that
    can send it; what comes in covers what goes out and the fee that the link computes
    in 64 bits ([ExpectedFee], see [expected_fee_bounds]), and its time lock, in 32 bits,
    is not above the incoming one.  If for that link none of these numbers wraps
    ([in_range]), what comes in covers the base fee and the rate of its policy, and its
    time lock delta is left to claim it. *)
Theorem forwarded_htlc_pays (s s' : Switch Msg channelLink) (now : Z) (pick : nat) (packet : htlcPacket) (htlc : UpdateAddHTLC) (enc : ErrorEncrypter) :
  sw_reachable s -> pk_htlc packet = UMAdd htlc -> Circuits.obfuscator packet = Some enc -> is_uint 64 (pk_amount packet) -> is_uint 64 (pk_incomingAmount packet) ->
  handlePacketForward now pick packet s = (Ok tt, s') ->
  exists p l target q, live s p l /\ live s q target /\ shortChanID target = outgoingChanID packet /\ lk_peer l = lk_peer target /\
    addTo now (chanID l) (packet <| outgoingChanID := shortChanID l |>) (orch s) = (Ok tt, orch s') /\
    sendable_wrapped l (FwrdingPolicy l) (pk_amount packet) (outgoingTimeout packet) (bestHeight s) /\
    pk_amount packet + ExpectedFee (FwrdingPolicy l) (pk_amount packet) <= pk_incomingAmount packet /\
    u32 (outgoingTimeout packet + fp_TimeLockDelta (FwrdingPolicy l)) <= incomingTimeout packet /\
    (in_range s packet l ->
      sendable l (FwrdingPolicy l) (pk_amount packet) (outgoingTimeout packet) (bestHeight s) /\
      pk_amount packet + exactFee (FwrdingPolicy l) (pk_amount packet) <= pk_incomingAmount packet /\
      outgoingTimeout packet + fp_TimeLockDelta (FwrdingPolicy l) <= incomingTimeout packet).
Proof.
  intros Hr Hm He Ha Hi Hrun. pose proof (forward_add_run s s' now pick packet htlc enc (Ok tt) Hr Hm He Hrun) as (_ & p & l & Ht & Hadd).
  destruct Ht as [_ Hlive (q & target & Hq & Hs & Hp) _ Hpol _ _ _]. exists p, l, target, q. cbn in Hpol.
  destruct (check_forward_wrapped _ _ _ _ _ _ _ Hi Ha Hpol) as (Hsend & Hfee & Ht). split_and!; try done.
  intros [R1 R2 R3 R4 R5 R6]. apply check_forward_iff in Hpol as (Hsend' & Hfee' & Ht'); try done.
  rewrite expected_fee_exact in Hfee' by (done || apply Ha). split_and!; done.
Qed.
End Forwarding.
End LinkTheorems.

(** ** Witnesses *)
#[local] Existing Instance toy_pubkeys.
#[local] Existing Instance toy_curve.
#[local] Instance plain_varint : VarIntOps := varint8.
#[local] Instance identity_sphinx : SphinxLib := {| EncryptError _ _ b := b |}.

Definition toy_policy : ForwardingPolicy := mkPolicy 1000 0 1000 100 40.

Lemma toy_policy_ok : policy_ok toy_policy.
Proof. split; unfold is_uint; cbn; lia. Qed.

(** A rate of one percent on 2 ^ 60 units. *)
Lemma expected_fee_bounds_witness : let f := mkPolicy 0 0 1000 10000 40 in
  ExpectedFee f (2 ^ 60) < fp_BaseFee f + 2 ^ 60 * fp_FeeRate f / 1000000.
Proof.
  intros f. destruct (expected_fee_bounds f (2 ^ 60)) as (_ & Hless & _).
  - split; unfold is_uint; cbn; lia.
  - unfold is_uint. lia.
  - by vm_compute.
  - apply Hless. by vm_compute.
Defined.

Definition toy_link (n : Z) : channelLink :=
  mkLink (toy_lc 0 <| channelState ::= fun c => c <| FundingOutpoint := mkOutPoint (replicate 32 (byte.of_Z n)) 0 |> |>)
    (mkSCID n 1 0) [byte.of_Z n] true toy_policy 10 2016 [] [] [].

Lemma check_forward_correct_witness :
  link_CheckHtlcForward (fun _ => None) (toy_link 1) 25003500 25000000 600 560 500 = Ok tt /\
  sendable (toy_link 1) toy_policy 25000000 560 500.
Proof.
  assert (Hrun : link_CheckHtlcForward (fun _ => None) (toy_link 1) 25003500 25000000 600 560 500 = Ok tt) by (vm_compute; reflexivity).
  split; [exact Hrun|]. 
  refine (proj1 (proj1 (check_forward_correct (fun _ => None) (toy_link 1) 25003500 25000000 600 560 500 toy_policy_ok _ _ _ _ _ _ _) Hrun)). all: clear Hrun; by vm_compute.
Defined.

(** A package with two failures: one of another node, one that stands for a malformed
    answer. *)
Definition toy_fails : list LogUpdate :=
  [mkLogUpdate 4 (UMFail (mkUpdateFailHTLC zero32 0 (replicate 292 Byte.x01) [])); mkLogUpdate 5 (UMFail (mkUpdateFailHTLC zero32 1 (replicate 260 Byte.x02) []))].
Definition toy_pkg : FwdPkg := NewFwdPkg (mkSCID 1 1 0) 3 [] toy_fails.
Definition toy_switch : Switch bytes toyLink := toy_s2.

Lemma settle_fails_replayed_witness : exists first again,
  processRemoteSettleFails (toy_link 1) toy_pkg (default [] (PayDescsFromRemoteLogUpdates (mkSCID 1 1 0) 3 toy_fails)) = (Ok first : res swerr _) /\
  again = (fun pkt => pkt <| convertedError := false |>) <$> first /\ convertedError <$> first = [false; true] /\ again <> first.
Proof.
  destruct (settle_fails_replayed (H1 := SwitchTheorems.toy_link) (fun _ => None) 5 toy_switch (toy_link 1) toy_pkg
    (default [] (PayDescsFromRemoteLogUpdates (mkSCID 1 1 0) 3 toy_fails))) as (first & again & Hf & _ & Ha & _ & Heq).
  - reflexivity.
  - by apply NewPkgFilter_ok.
  - by vm_compute.
  - reflexivity.
  - assert (Hmarks : convertedError <$> first = [false; true]) by (vm_compute in Hf; injection Hf as <-; reflexivity).
    exists first, again. split_and!; [exact Hf|exact Ha|exact Hmarks|]. intros E. rewrite E in Ha.
    apply (f_equal (fmap convertedError)) in Ha. rewrite Hmarks, <- list_fmap_compose in Ha.
    destruct first as [|a [|b first]]; done.
Defined.

(** Three HTLCs: one to forward, one with an onion that cannot be read, one for us. *)
Definition toy_hop (n : Z) : Z + Iterator :=
  inr (mkIterator (inr mockObfuscator) (inr (mkForwardingInfo (mkSCID n 1 0) 1000 560)) (Some zero_onion)).
Definition toy_pd (i : Z) : PaymentDescriptor := zero_pd <| pd_EntryType := Add |> <| pd_HtlcIndex := i |> <| pd_BtcAmount := 1000 |> <| pd_Timeout := 560 |>.
Definition toy_resps : list (Z + Iterator) := [toy_hop 2; inl CodeInvalidOnionHmac; inr (mkIterator (inr mockObfuscator) (inr (mkForwardingInfo Exit 1000 560)) None)].
Definition toy_adds_pkg : FwdPkg := mkFwdPkg (mkSCID 1 1 0) 3 FwdStateLockedIn [] (NewPkgFilter 3) (NewPkgFilter 3) [] (NewPkgFilter 0).
Definition toy_acks : PkgFilter := mkPkgFilter 3 [Byte.x40].

(** The first HTLC is of another asset than the channel. *)
Definition toy_pds2 : list PaymentDescriptor := [toy_pd 0 <| pd_AssetID := 31 |>; toy_pd 1; toy_pd 2].

Lemma adds_replayed_witness : exists fates filter packet,
  processRemoteAdds (E := pkgerr) (fun _ => None) (fun _ => true) true (toy_link 1) toy_adds_pkg toy_pds2 (Some toy_resps) = Ok (fates, Some filter, [packet]) /\
  processRemoteAdds (E := pkgerr) (fun _ => None) (fun _ => true) true (toy_link 1) (processed toy_adds_pkg filter toy_acks) toy_pds2 (Some toy_resps) =
    Ok (again_fates [Byte.x40] 0 toy_pds2 fates, None, [with_asset 31 packet]) /\ pk_assetId packet = 0.
Proof.
  destruct (processRemoteAdds (E := pkgerr) (fun _ => None) (fun _ => true) true (toy_link 1) toy_adds_pkg toy_pds2 (Some toy_resps))
    as [[[fates [filter|]] packets]|e|] eqn:Hrun; [|vm_compute in Hrun; discriminate..].
  destruct (adds_replayed (fun _ => None) (fun _ => true) (toy_link 1) toy_adds_pkg toy_pds2 toy_resps fates filter packets toy_acks true eq_refl eq_refl) as (_ & _ & Hagain & _).
  - by vm_compute.
  - by vm_compute.
  - reflexivity.
  - exact Hrun.
  - assert (Hp : exists packet, packets = [packet] /\ pk_assetId packet = 0 /\
      forwarded_packets (again_fates [Byte.x40] 0 toy_pds2 fates) = [with_asset 31 packet]).
    { vm_compute in Hrun. injection Hrun as <- <- <-. eexists. split; [reflexivity|]. split; reflexivity. }
    destruct Hp as (packet & -> & Ha & Hf). exists fates, filter, packet. split; [reflexivity|]. split; [|exact Ha].
    rewrite Hagain. f_equal. f_equal. exact Hf.
Defined.

Definition real_s0 : Switch bytes channelLink := newSwitch (mkConfig false false 1000000000) 500 empty_circuitMap ∅ None 60.
Definition real_s1 : Switch bytes channelLink := run_sw (H := channel_link (fun _ => None)) (OpAddLink 0 true (toy_link 1)) real_s0.
Definition real_s2 : Switch bytes channelLink := run_sw (H := channel_link (fun _ => None)) (OpAddLink 0 true (toy_link 2)) real_s1.
Definition real_add : UpdateAddHTLC := mkUpdateAddHTLC [] 0 25000000 0 [] 560 [] [].
Definition real_packet : htlcPacket :=
  mkPacket (mkSCID 1 1 0) (mkSCID 2 1 0) 7 0 None None 25003500 25000000 0 (UMAdd real_add) (Some mockObfuscator) false None false false false None 600 560.

Lemma real_s2_reachable : sw_reachable (H := channel_link (fun _ => None)) real_s2.
Proof.
  eexists _, _, _, _, _, _. split; [exists ∅; constructor|]. eapply rtc_l; [exists (OpAddLink 0 true (toy_link 1)); split; [by intros id|reflexivity]|].
  apply rtc_once. exists (OpAddLink 0 true (toy_link 2)). split; [by intros id|reflexivity].
Qed.

Lemma added_heap (s : Switch bytes channelLink) l : getLink (chanID l) s = None ->
  sw_heap (run_sw (H := channel_link (fun _ => None)) (OpAddLink 0 true l) s) = <[sw_next s := l]> (sw_heap s) /\
  sw_next (run_sw (H := channel_link (fun _ => None)) (OpAddLink 0 true l) s) = sw_next s + 1.
Proof.
  intros Hn. cbn [run_sw]. unfold AddLink, mbind, M_bind, get, check, modify. change (ChanID l) with (chanID l). rewrite Hn.
  rewrite bool_decide_false by (by intros [? ?]). cbn [negb]. by case_bool_decide.
Qed.

Lemma real_links p l : link_at p real_s2 = Some l -> l = toy_link 1 \/ l = toy_link 2.
Proof.
  destruct (added_heap real_s0 (toy_link 1)) as [H1 N1]; [by vm_compute|]. destruct (added_heap real_s1 (toy_link 2)) as [H2 _]; [by vm_compute|].
  unfold link_at, real_s2. rewrite H2. unfold real_s1. rewrite H1, N1. change (sw_heap real_s0) with (∅ : gmap Z channelLink).
  intros [[_ <-]|[_ [[_ <-]|[_ Hl]]%lookup_insert_Some]]%lookup_insert_Some; [by right|by left|by rewrite lookup_empty in Hl].
Qed.

Lemma toy_in_range n : in_range real_s2 real_packet (toy_link n).
Proof. split; [exact toy_policy_ok|by vm_compute..]. Qed.

Definition real_run : res swerr unit * Switch bytes channelLink := handlePacketForward (H := channel_link (fun _ => None)) 5 0 real_packet real_s2.
Lemma real_run_ok : fst real_run = Ok tt.
Proof. vm_compute. reflexivity. Qed.
Lemma real_run_eq : real_run = (Ok tt, snd real_run).
Proof. rewrite <- real_run_ok. apply surjective_pairing. Qed.
Lemma real_in_range p l : live (H := channel_link (fun _ => None)) real_s2 p l -> in_range real_s2 real_packet l.
Proof. intros [Hl _]. destruct (real_links p l Hl) as [-> | ->]; apply toy_in_range. Qed.

Lemma forwarded_htlc_pays_witness : exists l, 25000000 + exactFee (FwrdingPolicy l) 25000000 <= 25003500.
Proof.
  destruct (forwarded_htlc_pays (fun _ => None) real_s2 (snd real_run) 5 0 real_packet real_add mockObfuscator real_s2_reachable eq_refl eq_refl
    ltac:(by vm_compute) ltac:(by vm_compute) real_run_eq) as (p & l & _ & _ & Hlive & _ & _ & _ & _ & _ & _ & _ & Hpay).
  exists l. exact (proj1 (proj2 (Hpay (real_in_range p l Hlive)))).
Defined.
