(* ===== verification/ChannelSign.v ===== *)
(** * The commitment dance ([lnwallet/channel.go])

    Signing the peer's next commitment, accepting ours, revoking and receiving a
    revocation, with the signature jobs, the stored diff and the forwarding
    packages they make.  Signing, signature hashes and verification are an
    interface, [SigLib]; the worker pool runs every job to the result the job
    alone determines. *)

From S2P Require Import Prelude Wire Messages ChanIds Units Sha256 Shachain Sig Tx OmniOp Keys Scripts FwdPkg UpdateLog ChanDB Commitment Channel ChannelOps.

(** What the channel uses of btcd and of its signer: a raw (DER) signature for a
    descriptor, the hash that is signed, the strict DER parser and the check. *)
Class SigLib `{CurveOps} : Type := {
  SignOutputRaw : MsgTx -> SignDescriptor -> option bytes;
  CalcSignatureHash : bytes -> Z -> MsgTx -> Z -> option bytes;
  ParseDERSignature : bytes -> option bytes;
  VerifySig : bytes -> bytes -> PublicKey -> bool
}.

Definition SigHashAll : Z := 1.

Definition of_sig {A} (r : res sigerr A) : res chanerr A :=
  match r with Ok a => Ok a | Err e => Err (ErrSig e) | Panic => Panic end.
Definition of_opt {A} (e : chanerr) (o : option A) : res chanerr A :=
  match o with Some a => Ok a | None => Err e end.
Definition of_sha {A} (r : res shaerr A) : res chanerr A :=
  match r with Ok a => Ok a | Err e => Err (ErrSha e) | Panic => Panic end.

(** ** Log updates *)

(** The wire message of an entry. *)
Definition fixed_onion (blob : bytes) : bytes :=
  take OnionPacketSize (blob ++ replicate OnionPacketSize Byte.x00).

Definition updateMsg (chanID : bytes) (pd : PaymentDescriptor) : UpdateMsg :=
  match pd_EntryType pd with
  | Add => UMAdd (mkUpdateAddHTLC chanID (pd_HtlcIndex pd) (GetHtlcAmt pd) (pd_AssetID pd) (pd_RHash pd)
             (pd_Timeout pd) (fixed_onion (pd_OnionBlob pd)) [])
  | Settle => UMFulfill (mkUpdateFulfillHTLC chanID (pd_ParentIndex pd) (pd_RPreimage pd) [])
  | Fail => UMFail (mkUpdateFailHTLC chanID (pd_ParentIndex pd) (pd_FailReason pd) [])
  | MalformedFail => UMMalformed (mkUpdateFailMalformedHTLC chanID (pd_ParentIndex pd) (pd_ShaOnionBlob pd)
                       (pd_FailCode pd) [])
  | FeeUpdate => UMFee (mkUpdateFee chanID (pd_AssetID pd) (u32 (ToSatoshis (pd_BtcAmount pd))) [])
  end.

Definition logUpdate (chanID : bytes) (pd : PaymentDescriptor) : LogUpdate :=
  mkLogUpdate (pd_LogIndex pd) (updateMsg chanID pd).

Section Dance.
Context `{CurveOps, !ScriptLib, !TxLib, !SigLib}.

Abbreviation LC := (M LightningChannel chanerr).

Definition chan_id (lc : LightningChannel) : bytes := NewChanIDFromOutPoint (FundingOutpoint (channelState lc)).

Definition log_pds (lc : LightningChannel) (u : updateLog) : list PaymentDescriptor :=
  deref (lc_heap lc) <$> entries u.

(** ** [createSignDesc] *)
Definition createSignDesc (state : OpenChannel) : res chanerr SignDescriptor :=
  multiSig ← of_script (GenMultiSigScript (SerializeCompressed (MultiSigKey (LocalChanCfg state)))
    (SerializeCompressed (MultiSigKey (RemoteChanCfg state))));
  fundingPkScript ← of_script (GenerateP2SH multiSig);
  mret (mkSignDesc (MultiSigKey (LocalChanCfg state)) [] multiSig
    (mkTxOut (BtcCapacity state) fundingPkScript) SigHashAll 0).

(** ** Signing the peer's commitment *)
Record SignJob := mkSignJob {
  sj_SignDesc : SignDescriptor;
  sj_Tx : MsgTx;
  sj_OutputIndex : Z
}.

(** [slice[i]] with a signed index. *)
Definition index_out (outs : list TxOut) (i : Z) : res chanerr TxOut :=
  if i <? 0 then Panic else match outs !! Z.to_nat i with Some o => Ok o | None => Panic end.

Definition remote_dust (cs : OpenChannel) (c : commitment) (incoming : bool) (htlc : PaymentDescriptor) : bool :=
  HtlcIsDust (ChanType cs) incoming false (c_feePerKw c) (ToSatoshis (pd_BtcAmount htlc))
    (DustLimit (RemoteChanCfg cs)) (pd_AssetID htlc).

Definition leaseExpiryOf (cs : OpenChannel) : Z :=
  if HasLeaseExpiration (ChanType cs) then ThawHeight cs else 0.

(** The job of one HTLC on the peer's commitment: a timeout transaction if it is
    incoming to us, a success transaction otherwise. *)
Definition remoteSigJob (cs : OpenChannel) (keyRing : CommitmentKeyRing) (c : commitment)
    (incoming : bool) (htlc : PaymentDescriptor) : res chanerr SignJob :=
  let op := mkOutPoint (TxHash (c_txn c)) (u32 (remoteOutputIndex htlc)) in
  let initiator := negb (IsInitiator cs) in
  let csv := CsvDelay (RemoteChanCfg cs) in
  let amt fee := i64 (ToSatoshis (pd_BtcAmount htlc) - fee) in
  tx ← (if incoming then
          CreateHtlcTimeoutTx (ChanType cs) initiator op (amt (HtlcTimeoutFee (ChanType cs) (c_feePerKw c)))
            (pd_AssetAmount htlc) (pd_AssetID htlc) (pd_Timeout htlc) csv (leaseExpiryOf cs)
            (RevocationKey keyRing) (ToLocalKey keyRing)
        else
          CreateHtlcSuccessTx (ChanType cs) initiator op (amt (HtlcSuccessFee (ChanType cs) (c_feePerKw c)))
            (pd_AssetAmount htlc) (pd_AssetID htlc) csv (leaseExpiryOf cs)
            (RevocationKey keyRing) (ToLocalKey keyRing));
  txOut ← index_out (TxOuts (c_txn c)) (remoteOutputIndex htlc);
  mret (mkSignJob (mkSignDesc (HtlcBasePoint (LocalChanCfg cs)) (LocalHtlcKeyTweak keyRing)
                     (theirWitnessScript htlc) txOut SigHashAll 0) tx (remoteOutputIndex htlc)).

Fixpoint sigJobs (cs : OpenChannel) (keyRing : CommitmentKeyRing) (c : commitment) (incoming : bool)
    (hs : list PaymentDescriptor) : res chanerr (list SignJob) :=
  match hs with
  | [] => Ok []
  | htlc :: hs =>
      if remote_dust cs c incoming htlc then sigJobs cs keyRing c incoming hs
      else
        job ← remoteSigJob cs keyRing c incoming htlc;
        jobs ← sigJobs cs keyRing c incoming hs;
        mret (job :: jobs)
  end.

Definition genRemoteHtlcSigJobs (cs : OpenChannel) (keyRing : CommitmentKeyRing) (c : commitment)
    : res chanerr (list SignJob) :=
  ins ← sigJobs cs keyRing c true (incomingHTLCs c);
  outs ← sigJobs cs keyRing c false (outgoingHTLCs c);
  mret (ins ++ outs).

(** A worker's answer to a sign job. *)
Definition sign (tx : MsgTx) (desc : SignDescriptor) : res chanerr bytes :=
  raw ← of_opt ErrSigner (SignOutputRaw tx desc);
  of_sig (NewSigFromRawSignature raw).

Fixpoint signAll (jobs : list SignJob) : res chanerr (list bytes) :=
  match jobs with
  | [] => Ok []
  | j :: jobs => sig ← sign (sj_Tx j) (sj_SignDesc j); sigs ← signAll jobs; mret (sig :: sigs)
  end.

Definition sortJobs (jobs : list SignJob) : list SignJob :=
  go_sort (fun a b => sj_OutputIndex a <? sj_OutputIndex b) jobs.

(** ** [createCommitDiff] *)
Definition committed_at (height : Z) (pd : PaymentDescriptor) : bool :=
  (addCommitHeightRemote pd =? height) || (removeCommitHeightRemote pd =? height).

Definition option_refs {A} (f : PaymentDescriptor -> option A) (pds : list PaymentDescriptor) : list A :=
  omap f pds.

Definition createCommitDiff (lc : LightningChannel) (newCommit : commitment) (commitSig : bytes)
    (htlcSigs : list bytes) : CommitDiff :=
  let pds := filter (fun pd => committed_at (c_height newCommit) pd = true) (log_pds lc (localUpdateLog lc)) in
  let adds := filter (fun pd => pd_EntryType pd = Add) pds in
  let others := filter (fun pd => pd_EntryType pd <> Add) pds in
  mkCommitDiff (toDiskCommit newCommit false) (logUpdate (chan_id lc) <$> pds)
    (mkCommitSig (chan_id lc) commitSig htlcSigs [])
    (option_refs pd_OpenCircuitKey adds) (option_refs pd_ClosedCircuitKey others)
    (option_refs pd_SourceRef others) (option_refs pd_DestRef others).

Definition SignNextCommitment : LC (bytes * list bytes * list HTLC) :=
  _ ← (fun lc => (oweCommitment true lc, lc));
  commitPoint ← gets (fun lc => RemoteNextRevocation (channelState lc));
  unacked ← gets (fun lc => hasUnackedCommitment (remoteCommitChain lc));
  commitPoint ← match unacked, commitPoint with
                | false, Some p => mret p
                | _, _ => throw ErrNoWindow
                end;
  localTail ← tailM false;
  ours ← gets (fun lc => logIndex (localUpdateLog lc));
  ourHtlcs ← gets (fun lc => htlcCounter (localUpdateLog lc));
  _ ← validateCommitmentSanity (c_theirMessageIndex localTail) ours true None None;
  cs ← gets channelState;
  let keyRing := DeriveCommitmentKeys commitPoint false (ChanType cs) (LocalChanCfg cs) (RemoteChanCfg cs) in
  newCommitView ← fetchCommitmentView true ours ourHtlcs (c_theirMessageIndex localTail)
                    (c_theirHtlcIndex localTail) keyRing;
  sigBatch ← (fun lc => (genRemoteHtlcSigJobs (channelState lc) keyRing newCommitView, lc));
  desc ← gets signDesc;
  sig ← lift (sign (c_txn newCommitView) desc);
  htlcSigs ← lift (signAll (sortJobs sigBatch));
  commitDiff ← gets (fun lc => createCommitDiff lc newCommitView sig htlcSigs);
  _ ← on_db (AppendRemoteCommitChain commitDiff);
  _ ← modify (fun lc => lc <| remoteCommitChain ::= fun s => addCommitment s newCommitView |>);
  mret (sig, htlcSigs, Htlcs (cd_Commitment commitDiff)).

(** ** Accepting our commitment *)
Record VerifyJob := mkVerifyJob {
  vj_HtlcIndex : Z;
  vj_PubKey : PublicKey;
  vj_Sig : bytes;
  vj_SigHash : res chanerr bytes
}.

Definition ToSignature (sig : bytes) : res chanerr bytes :=
  of_opt ErrSigParse (ParseDERSignature (ToSignatureBytes sig)).

(** The hash the peer signed for an HTLC of our commitment: of the success
    transaction if it is incoming to us, of the timeout transaction otherwise. *)
Definition htlcSigHash (cs : OpenChannel) (keyRing : CommitmentKeyRing) (c : commitment)
    (incoming : bool) (htlc : PaymentDescriptor) : res chanerr bytes :=
  let op := mkOutPoint (TxHash (c_txn c)) (u32 (localOutputIndex htlc)) in
  let csv := CsvDelay (LocalChanCfg cs) in
  let amt fee := i64 (ToSatoshis (pd_BtcAmount htlc) - fee) in
  tx ← (if incoming then
          CreateHtlcSuccessTx (ChanType cs) (IsInitiator cs) op (amt (HtlcSuccessFee (ChanType cs) (c_feePerKw c)))
            (pd_AssetAmount htlc) (pd_AssetID htlc) csv (leaseExpiryOf cs) (RevocationKey keyRing) (ToLocalKey keyRing)
        else
          CreateHtlcTimeoutTx (ChanType cs) (IsInitiator cs) op (amt (HtlcTimeoutFee (ChanType cs) (c_feePerKw c)))
            (pd_AssetAmount htlc) (pd_AssetID htlc) (pd_Timeout htlc) csv (leaseExpiryOf cs)
            (RevocationKey keyRing) (ToLocalKey keyRing));
  of_opt ErrSigHash (CalcSignatureHash (ourWitnessScript htlc) SigHashAll tx 0).

(** The HTLC at an output: its side and its position in the slice. *)
Definition htlc_at (c : commitment) (outputIndex : Z) : option (bool * nat) :=
  match incomingHTLCIndex c !! outputIndex with
  | Some k => Some (true, k)
  | None => match outgoingHTLCIndex c !! outputIndex with Some k => Some (false, k) | None => None end
  end.

Definition htlcs_of (c : commitment) (incoming : bool) : list PaymentDescriptor :=
  if incoming then incomingHTLCs c else outgoingHTLCs c.

(** [htlc.sig = sig], through the pointer of the index. *)
Definition set_sig (c : commitment) (incoming : bool) (k : nat) (sig : bytes) : commitment :=
  let f := alter (fun htlc => htlc <| pd_sig := Some sig |>) k in
  if incoming then c <| incomingHTLCs ::= f |> else c <| outgoingHTLCs ::= f |>.

(** The loop over the outputs: the commitment with the signatures stored, the
    jobs and the signatures that are left. *)
Fixpoint verifyJobs (cs : OpenChannel) (keyRing : CommitmentKeyRing) (outs : list TxOut) (index : Z)
    (sigs : list bytes) (c : commitment) : res chanerr (commitment * list VerifyJob * list bytes) :=
  match outs with
  | [] => Ok (c, [], sigs)
  | _ :: outs =>
      match htlc_at c (swrap 32 index) with
      | None => verifyJobs cs keyRing outs (index + 1) sigs c
      | Some (incoming, k) =>
          match htlcs_of c incoming !! k, sigs with
          | None, _ => Panic
          | Some _, [] => Err ErrHtlcSigsMissing
          | Some htlc, s :: sigs =>
              sig ← ToSignature s;
              '(c', jobs, rest) ← verifyJobs cs keyRing outs (index + 1) sigs (set_sig c incoming k sig);
              mret (c', mkVerifyJob (pd_HtlcIndex htlc) (RemoteHtlcKey keyRing) sig
                          (htlcSigHash cs keyRing c incoming htlc) :: jobs, rest)
          end
      end
  end.

Definition genHtlcSigValidationJobs (cs : OpenChannel) (keyRing : CommitmentKeyRing)
    (htlcSigs : list bytes) (c : commitment) : res chanerr (commitment * list VerifyJob) :=
  '(c, jobs, rest) ← verifyJobs cs keyRing (TxOuts (c_txn c)) 0 htlcSigs c;
  _ ← guard_err (negb (bool_decide (rest = []))) ErrHtlcSigsMissing;
  mret (c, jobs).

(** A worker's answer to a verify job. *)
Definition job_valid (j : VerifyJob) : bool :=
  match vj_SigHash j with Ok h => VerifySig (vj_Sig j) h (vj_PubKey j) | _ => false end.

(** The first job that fails ends the method; in which order the answers arrive
    does not matter for whether one does. *)
Definition check_jobs (jobs : list VerifyJob) : res chanerr unit :=
  match List.find (fun j => negb (job_valid j)) jobs with
  | None => Ok tt
  | Some j => match vj_SigHash j with Ok _ => Err ErrInvalidHtlcSig | Err e => Err e | Panic => Panic end
  end.

Definition ReceiveNewCommitment (commitSig : bytes) (htlcSigs : list bytes) : LC unit :=
  _ ← (fun lc => (oweCommitment false lc, lc));
  remoteTail ← tailM true;
  theirs ← gets (fun lc => logIndex (remoteUpdateLog lc));
  theirHtlcs ← gets (fun lc => htlcCounter (remoteUpdateLog lc));
  _ ← validateCommitmentSanity theirs (c_ourMessageIndex remoteTail) false None None;
  nextHeight ← gets (fun lc => u64 (currentHeight lc + 1));
  commitSecret ← (fun lc => (of_sha (AtIndex (Producer (channelState lc)) nextHeight), lc));
  cs ← gets channelState;
  let keyRing := DeriveCommitmentKeys (ComputeCommitmentPoint commitSecret) true (ChanType cs)
                   (LocalChanCfg cs) (RemoteChanCfg cs) in
  view ← fetchCommitmentView false (c_ourMessageIndex remoteTail) (c_ourHtlcIndex remoteTail)
           theirs theirHtlcs keyRing;
  desc ← gets signDesc;
  sigHash ← lift (of_opt ErrSigHash (CalcSignatureHash (sd_WitnessScript desc) (HashType desc) (c_txn view) 0));
  '(view, jobs) ← (fun lc => (genHtlcSigValidationJobs (channelState lc) keyRing htlcSigs view, lc));
  cSig ← lift (ToSignature commitSig);
  _ ← check (negb (VerifySig cSig sigHash (MultiSigKey (RemoteChanCfg cs)))) ErrInvalidCommitSig;
  _ ← lift (check_jobs jobs);
  modify (fun lc => lc <| localCommitChain ::= fun s =>
    addCommitment s (view <| c_sig := ToSignatureBytes commitSig |>) |>).

(** ** Revoking *)
Definition generateRevocation (lc : LightningChannel) (height : Z) : res chanerr RevokeAndAck :=
  commitSecret ← of_sha (AtIndex (Producer (channelState lc)) height);
  nextCommitSecret ← of_sha (AtIndex (Producer (channelState lc)) (u64 (height + 2)));
  mret (mkRevokeAndAck (chan_id lc) commitSecret (Some (ComputeCommitmentPoint nextCommitSecret)) []).

Definition getUnsignedAckedUpdates (lc : LightningChannel) : res chanerr (list LogUpdate) :=
  remoteTail ← chain_tail (remoteCommitChain lc);
  localTail ← chain_tail (localCommitChain lc);
  mret (logUpdate (chan_id lc) <$>
    filter (fun pd => c_theirMessageIndex remoteTail <= pd_LogIndex pd < c_theirMessageIndex localTail)
      (log_pds lc (remoteUpdateLog lc))).

Definition RevokeCurrentCommitment : LC (RevokeAndAck * list HTLC) :=
  height ← gets currentHeight;
  revocationMsg ← (fun lc => (generateRevocation lc height, lc));
  _ ← tailM false;
  chain ← (fun lc => (advanceTail (localCommitChain lc), lc));
  _ ← modify (fun lc => lc <| localCommitChain := chain |> <| currentHeight ::= fun h => u64 (h + 1) |>);
  chainTail ← tailM false;
  let newCommitment := toDiskCommit chainTail true in
  unsignedAckedUpdates ← (fun lc => (getUnsignedAckedUpdates lc, lc));
  _ ← on_db (UpdateCommitment newCommitment unsignedAckedUpdates);
  mret (revocationMsg, Htlcs newCommitment).

(** ** Receiving a revocation *)
Definition unsignedLocalUpdates (lc : LightningChannel) (remoteMessageIndex localMessageIndex : Z)
    : list LogUpdate :=
  logUpdate (chan_id lc) <$>
    filter (fun pd => pd_EntryType pd <> Add /\ localMessageIndex <= pd_LogIndex pd < remoteMessageIndex)
      (log_pds lc (localUpdateLog lc)).

(** What becomes irrevocable with this revocation: an add or a removal on both
    chains that just reached the remote tail. *)
Definition fwd_add (remoteTail localTail : Z) (pd : PaymentDescriptor) : bool :=
  bool_decide (pd_EntryType pd = Add) &&
  (0 <? addCommitHeightRemote pd) && (0 <? addCommitHeightLocal pd) &&
  (remoteTail =? addCommitHeightRemote pd) && (addCommitHeightLocal pd <=? localTail).
Definition fwd_rmv (remoteTail localTail : Z) (pd : PaymentDescriptor) : bool :=
  bool_decide (pd_EntryType pd <> Add) &&
  (0 <? removeCommitHeightRemote pd) && (0 <? removeCommitHeightLocal pd) &&
  (remoteTail =? removeCommitHeightRemote pd) && (removeCommitHeightLocal pd <=? localTail).

(** The loop over the remote log: the adds and the removals to forward, each
    with its log update. *)
Fixpoint forward (source : ShortChannelID) (chanID : bytes) (remoteTail localTail : Z) (es : list ptr)
    (addIndex settleFailIndex : Z) (h : heap) : heap * list (ptr * LogUpdate) * list (ptr * LogUpdate) :=
  match es with
  | [] => (h, [], [])
  | e :: es =>
      let pd := deref h e in
      if bool_decide (pd_EntryType pd = FeeUpdate) || isForwarded pd then
        forward source chanID remoteTail localTail es addIndex settleFailIndex h
      else if fwd_add remoteTail localTail pd then
        let h := write h e (fun pd => pd <| pd_SourceRef := Some (mkAddRef remoteTail addIndex) |>
                                         <| isForwarded := true |>) in
        let '(h, adds, rmvs) := forward source chanID remoteTail localTail es (u16 (addIndex + 1)) settleFailIndex h in
        (h, (e, logUpdate chanID pd) :: adds, rmvs)
      else if fwd_rmv remoteTail localTail pd then
        let h := write h e (fun pd => pd <| pd_DestRef := Some (mkSettleFailRef source remoteTail settleFailIndex) |>
                                         <| isForwarded := true |>) in
        let '(h, adds, rmvs) := forward source chanID remoteTail localTail es addIndex (u16 (settleFailIndex + 1)) h in
        (h, adds, (e, logUpdate chanID pd) :: rmvs)
      else forward source chanID remoteTail localTail es addIndex settleFailIndex h
  end.

Definition insertSecret (secret : bytes) : LC unit := fun lc =>
  let '(r, store) := AddNextEntry secret (Store (channelState lc)) in
  (of_sha r, lc <| channelState ::= fun c => c <| Store := store |> |>).

Definition ReceiveRevocation (revMsg : RevokeAndAck) : LC (FwdPkg * list ptr * list ptr * list HTLC) :=
  revocation ← lift (of_sha (NewHash (rev_Revocation revMsg)));
  _ ← insertSecret revocation;
  current ← gets (fun lc => RemoteCurrentRevocation (channelState lc));
  _ ← match current with
      | None => panic
      | Some p => check (negb (bool_decide (ComputeCommitmentPoint (rev_Revocation revMsg) = p))) ErrRevKeyMismatch
      end;
  _ ← modify (fun lc => lc <| channelState ::= fun c => c
        <| RemoteCurrentRevocation := RemoteNextRevocation c |>
        <| RemoteNextRevocation := rev_NextRevocationKey revMsg |> |>);
  remoteTail ← tailM true;
  localTail ← tailM false;
  let remoteChainTail := u64 (c_height remoteTail + 1) in
  let localChainTail := c_height localTail in
  source ← gets (fun lc => ChanShortID (channelState lc));
  chanID ← gets chan_id;
  '(adds, rmvs) ← (fun lc =>
    let '(h, adds, rmvs) := forward source chanID remoteChainTail localChainTail
                              (entries (remoteUpdateLog lc)) 0 0 (lc_heap lc) in
    (Ok (adds, rmvs), lc <| lc_heap := h |>));
  remoteTip ← tipM true;
  localPeerUpdates ← gets (fun lc => unsignedLocalUpdates lc (c_ourMessageIndex remoteTip) (c_ourMessageIndex localTail));
  let fwdPkg := NewFwdPkg source remoteChainTail (snd <$> adds) (snd <$> rmvs) in
  _ ← on_db (AdvanceCommitChainTail fwdPkg localPeerUpdates);
  chain ← (fun lc => (advanceTail (remoteCommitChain lc), lc));
  _ ← modify (fun lc => lc <| remoteCommitChain := chain |>);
  '(ourLog, theirLog) ← (fun lc =>
    (compactLogs (lc_heap lc) (localUpdateLog lc) (remoteUpdateLog lc) localChainTail remoteChainTail, lc));
  _ ← modify (fun lc => lc <| localUpdateLog := ourLog |> <| remoteUpdateLog := theirLog |>);
  remoteHTLCs ← gets (fun lc => Htlcs (RemoteCommitment (channelState lc)));
  mret (fwdPkg, fst <$> adds, fst <$> rmvs, remoteHTLCs).

End Dance.

(** ** What building a commitment may write *)
Section Frames.
Context `{CurveOps, !ScriptLib, !TxLib, !SigLib}.

(** The fields the log invariant is about. *)
Definition pd_money (pd : PaymentDescriptor) : updateType * Z * Z * Z * Z * Z :=
  (pd_id pd, pd_BtcAmount pd, pd_AssetAmount pd).

Definition heap_keep (h h' : heap) : Prop :=
  length h' = length h /\ forall p, pd_money (deref h' p) = pd_money (deref h p).

#[export] Instance heap_keep_preorder : PreOrder heap_keep.
Proof. split; [done|]. intros h1 h2 h3 [L1 K1] [L2 K2]. split; [congruence|]. intros p. by rewrite K2. Qed.

Lemma heap_keep_write h p f : (forall pd, pd_money (f pd) = pd_money pd) -> heap_keep h (write h p f).
Proof.
  intros Hf. split; [unfold write; by rewrite length_alter|]. intros q. rewrite deref_write_any. by case_decide.
Qed.

Lemma heap_keep_le h h' : heap_keep h h' -> heap_le h h'.
Proof. intros [L K]. split; [lia|]. intros p _. specialize (K p). unfold pd_money in K. congruence. Qed.

(** A descriptor without its scripts, and heaps that differ in the scripts. *)
Definition pd_unscripted (pd : PaymentDescriptor) : PaymentDescriptor :=
  pd <| ourPkScript := [] |> <| ourWitnessScript := [] |> <| theirPkScript := [] |> <| theirWitnessScript := [] |>.

Definition scripts_only (h h' : heap) : Prop :=
  length h' = length h /\ forall p, pd_unscripted (deref h' p) = pd_unscripted (deref h p).

#[export] Instance scripts_only_preorder : PreOrder scripts_only.
Proof. split; [done|]. intros h1 h2 h3 [L1 K1] [L2 K2]. split; [congruence|]. intros p. by rewrite K2. Qed.

Lemma scripts_only_read {X} (f : PaymentDescriptor -> X) h h' p :
  (forall pd, f (pd_unscripted pd) = f pd) -> scripts_only h h' -> f (deref h' p) = f (deref h p).
Proof. intros Hf [_ K]. by rewrite <- (Hf (deref h' p)), K, Hf. Qed.

Lemma scripts_only_keep h h' : scripts_only h h' -> heap_keep h h'.
Proof. intros Hs. split; [apply Hs|]. intros p. by apply scripts_only_read. Qed.

(** Only the heap, within [heap_keep], and the totals differ. *)
Record viewed (lc lc' : LightningChannel) : Prop := {
  vw_heap : heap_keep (lc_heap lc) (lc_heap lc');
  vw_rest : lc' = lc <| lc_heap := lc_heap lc' |> <| channelState := channelState lc' |>;
  vw_totals : totals_only (channelState lc) (channelState lc')
}.

#[export] Instance viewed_preorder : PreOrder viewed.
Proof.
  split.
  - intros lc. split; [reflexivity|by destruct lc|reflexivity].
  - intros l1 l2 l3 [K1 R1 T1] [K2 R2 T2]. split; [by etrans| |by etrans].
    rewrite R2 at 1. rewrite R1. reflexivity.
Qed.

Lemma touched_viewed T lc lc' : touched T lc lc' -> viewed lc lc'.
Proof.
  intros [R C L K _]. split; [split; [done|]|done|done]. intros p.
  destruct (core_fields _ _ (K p)) as (E1 & E2 & E3 & E4 & E5 & E6 & _).
  unfold pd_money, pd_id. by rewrite E1, E2, E3, E4, E5, E6.
Qed.

Lemma viewed_logs lc lc' own : viewed lc lc' -> log_of lc' own = log_of lc own.
Proof. intros [_ R _]. rewrite R. by destruct own. Qed.

Lemma viewed_logs_ok lc lc' : viewed lc lc' -> lc_logs_ok lc -> lc_logs_ok lc'.
Proof.
  intros Hv Hok. pose proof (vw_heap _ _ Hv) as Hk.
  assert (Hl := fun own => viewed_logs lc lc' own Hv). split.
  - pose proof (Hl true) as E1. pose proof (Hl false) as E2. cbn in E1, E2. rewrite E1, E2.
    apply (logs_ok_heap_le (lc_heap lc)); [by apply heap_keep_le|apply (lk_logs _ Hok)].
  - intros own p q Hp [Hr Hlk]. rewrite Hl in Hp. rewrite Hl in Hlk.
    pose proof (proj2 Hk) as K. pose proof (K p) as Kp. pose proof (K q) as Kq.
    unfold pd_money, pd_id in Kp, Kq. injection Kp as E1 E2 E3 E4 E5 E6. injection Kq as F1 F2 F3 F4 F5 F6.
    rewrite E5, E6, F5, F6. apply (lk_amounts _ Hok own p q Hp). split; congruence.
Qed.

Lemma on_heap_viewed {A} (m : M heap chanerr A) : frames heap_keep m -> frames viewed (on_heap m).
Proof.
  intros Hm lc. unfold on_heap. specialize (Hm (lc_heap lc)). destruct (m (lc_heap lc)) as [r h]. cbn in *.
  split; cbn; [done|by destruct lc|reflexivity].
Qed.

Lemma computeView_viewed view rc upd : frames viewed (computeView view rc upd).
Proof. intros lc. eapply touched_viewed, computeView_frame. Qed.

Lemma validate_viewed j i rc p q : frames viewed (validateCommitmentSanity j i rc p q).
Proof. intros lc. by rewrite validate_pure. Qed.

Lemma addHTLC_scripts tx ourCommit isIncoming p kr ct op : frames scripts_only (addHTLC tx ourCommit isIncoming p kr ct op).
Proof.
  unfold addHTLC. frames. apply frames_modify. intros h. split; [unfold write; by rewrite length_alter|].
  intros q. rewrite deref_write_any. case_decide; [by destruct ourCommit|done].
Qed.

Lemma addHTLCs_scripts cs isOurs incoming fee kr ps tx op cl :
  frames scripts_only (addHTLCs cs isOurs incoming fee kr ps tx op cl).
Proof.
  revert tx op cl. induction ps as [|p ps IH]; intros tx op cl; cbn [addHTLCs].
  - apply (frames_read _ (fun _ => Ok _)).
  - apply frames_bind; [apply _|apply (frames_read _ (fun s => Ok _))|]. intros pd.
    destruct (htlc_is_dust _ _ _ _ _); [apply IH|].
    apply frames_bind; [apply _|apply addHTLC_scripts|]. intros [tx' op']. apply IH.
Qed.
#[local] Hint Resolve addHTLCs_scripts : frames.

Lemma createUnsigned_scripts cs obf a b c d isOurs fee height view kr :
  frames scripts_only (createUnsignedCommitmentTx cs obf a b c d isOurs fee height view kr).
Proof.
  unfold createUnsignedCommitmentTx. apply frames_bind; [apply _|apply (frames_read _ (fun s => Ok _))|]. intros n.
  cbv zeta. destruct (btc_balances _ _ _ _ _ _ _). frames.
Qed.

Lemma fetchCommitmentView_viewed rc a b c d kr : frames viewed (fetchCommitmentView rc a b c d kr).
Proof.
  unfold fetchCommitmentView, tipM. frames.
  - apply computeView_viewed.
  - eapply on_heap_viewed, frames_mono, createUnsigned_scripts. apply scripts_only_keep.
Qed.

(** What locating the outputs leaves alone, and what the view puts into the
    commitment. *)
Lemma populate_fields c cl c' : populateHtlcIndexes c cl = Ok c' ->
  c_height c' = c_height c /\ c_isOurs c' = c_isOurs c /\ c_ourMessageIndex c' = c_ourMessageIndex c /\
  c_theirMessageIndex c' = c_theirMessageIndex c /\ c_ourHtlcIndex c' = c_ourHtlcIndex c /\
  c_theirHtlcIndex c' = c_theirHtlcIndex c /\ c_txn c' = c_txn c.
Proof.
  unfold populateHtlcIndexes. intros Hrun. apply res_bind_Ok in Hrun as ([[o1 d1] i1] & _ & Hrun).
  apply res_bind_Ok in Hrun as ([[o2 d2] i2] & _ & Hrun). by injection Hrun as <-.
Qed.

Lemma fetchCommitmentView_Ok rc a b c d kr lc v lc' : fetchCommitmentView rc a b c d kr lc = (Ok v, lc') ->
  exists t, tip (commit_chain lc rc) = Ok t /\ c_height v = u64 (c_height t + 1) /\ c_isOurs v = negb rc /\
    c_ourMessageIndex v = a /\ c_ourHtlcIndex v = b /\ c_theirMessageIndex v = c /\ c_theirHtlcIndex v = d.
Proof.
  unfold fetchCommitmentView. intros Hrun.
  apply M_bind_Ok in Hrun as (t & l1 & Ht & Hrun). rewrite tipM_run in Ht.
  destruct (tip (commit_chain lc rc)) as [t0| |]; try done. injection Ht as -> ->. exists t. split; [done|].
  apply M_bind_Ok in Hrun as (vw & l2 & _ & Hrun).
  apply M_bind_Ok in Hrun as ([[bal w] flt] & l3 & _ & Hrun).
  apply M_bind_Ok in Hrun as (cs & l4 & _ & Hrun). apply M_bind_Ok in Hrun as (obf & l5 & _ & Hrun).
  apply M_bind_Ok in Hrun as (u & l6 & _ & Hrun). apply M_bind_Ok in Hrun as (u' & l7 & _ & Hrun).
  apply M_bind_Ok in Hrun as (h & l8 & _ & Hrun). unfold lift in Hrun.
  destruct (populateHtlcIndexes _ _) as [v0| |] eqn:Hp; try done. injection Hrun as -> _.
  destruct (populate_fields _ _ _ Hp) as (-> & -> & -> & -> & -> & -> & _). done.
Qed.
End Frames.
