(* ===== verification/Reload.v ===== *)
(** * The channel after a restart ([lnwallet/channel.go], [NewLightningChannel])

    The state machine rebuilt from what [channeldb] read: the commitments of both
    chains, the pending one, and the update logs, from the HTLCs the commitments
    hold and the updates that were stored because no commitment holds them yet.
    A restored descriptor is a new one on the heap; a lookup that finds nothing
    yields a nil pointer, whose use panics. *)

From S2P Require Import Prelude Wire Messages ChanIds Units Sha256 Shachain Sig Tx OmniOp Keys Scripts FwdPkg UpdateLog ChanDB Commitment Channel ChannelOps ChannelSign.

Section Restore.
Context `{CurveOps, !ScriptLib, !TxLib, !SigLib}.

Abbreviation LC := (M LightningChannel chanerr).

Fixpoint for_each {A} (f : A -> LC unit) (l : list A) : LC unit :=
  match l with
  | [] => mret tt
  | x :: l => _ ← f x; for_each f l
  end.

(** ** Commitments *)

(** The scripts of an HTLC on one commitment: none for dust or without a ring. *)
Definition disk_scripts (chanType : Z) (htlc : HTLC) (ourCommit isDust : bool) (keys : option CommitmentKeyRing)
    : res chanerr (bytes * bytes) :=
  match keys with
  | Some keyRing =>
      if isDust then mret ([], [])
      else of_script (genHtlcScript chanType (htlc_Incoming htlc) ourCommit (htlc_RefundTimeout htlc) (htlc_RHash htlc) keyRing)
  | None => mret ([], [])
  end.

Definition diskHtlcToPayDesc (cs : OpenChannel) (feeRate : Z) (htlc : HTLC)
    (localCommitKeys remoteCommitKeys : option CommitmentKeyRing) (isLocal : bool) (assetId : Z) : res chanerr PaymentDescriptor :=
  let isDust ourCommit cfg := HtlcIsDust (ChanType cs) (htlc_Incoming htlc) ourCommit feeRate
    (ToSatoshis (htlc_BtcAmt htlc)) (DustLimit cfg) assetId in
  '(ourP2WSH, ourWitness) ← disk_scripts (ChanType cs) htlc true (isDust true (LocalChanCfg cs)) localCommitKeys;
  '(theirP2WSH, theirWitness) ← disk_scripts (ChanType cs) htlc false (isDust false (RemoteChanCfg cs)) remoteCommitKeys;
  mret (zero_pd <| pd_RHash := htlc_RHash htlc |> <| pd_Timeout := htlc_RefundTimeout htlc |>
    <| pd_BtcAmount := htlc_BtcAmt htlc |> <| pd_AssetAmount := htlc_AssetAmt htlc |> <| pd_EntryType := Add |>
    <| pd_HtlcIndex := htlc_HtlcIndex htlc |> <| pd_LogIndex := htlc_LogIndex htlc |> <| pd_OnionBlob := htlc_OnionBlob htlc |>
    <| localOutputIndex := if isLocal then htlc_OutputIndex htlc else 0 |>
    <| remoteOutputIndex := if isLocal then 0 else htlc_OutputIndex htlc |>
    <| ourPkScript := ourP2WSH |> <| ourWitnessScript := ourWitness |>
    <| theirPkScript := theirP2WSH |> <| theirWitnessScript := theirWitness |> <| pd_AssetID := assetId |>).

(** The incoming and the outgoing ones. *)
Fixpoint extractPayDescs (cs : OpenChannel) (feeRate : Z) (htlcs : list HTLC)
    (localCommitKeys remoteCommitKeys : option CommitmentKeyRing) (isLocal : bool) (assetId : Z)
    : res chanerr (list PaymentDescriptor * list PaymentDescriptor) :=
  match htlcs with
  | [] => mret ([], [])
  | htlc :: htlcs =>
      payDesc ← diskHtlcToPayDesc cs feeRate htlc localCommitKeys remoteCommitKeys isLocal assetId;
      '(incoming, outgoing) ← extractPayDescs cs feeRate htlcs localCommitKeys remoteCommitKeys isLocal assetId;
      mret (if htlc_Incoming htlc then (payDesc :: incoming, outgoing) else (incoming, payDesc :: outgoing))
  end.

Definition diskCommitToMemCommit (cs : OpenChannel) (isLocal : bool) (diskCommit : ChannelCommitment)
    (localCommitPoint remoteCommitPoint : option PublicKey) : res chanerr commitment :=
  let ring ours p := DeriveCommitmentKeys p ours (ChanType cs) (LocalChanCfg cs) (RemoteChanCfg cs) in
  '(incoming, outgoing) ← extractPayDescs cs (FeePerKw diskCommit) (Htlcs diskCommit)
    (ring true <$> localCommitPoint) (ring false <$> remoteCommitPoint) isLocal (ChanAssetID cs);
  mret (mkCommitment (CommitHeight diskCommit) isLocal (LocalLogIndex diskCommit) (RemoteLogIndex diskCommit)
    (LocalHtlcIndex diskCommit) (RemoteHtlcIndex diskCommit) (CommitTx diskCommit) (cc_CommitSig diskCommit)
    (LocalBtcBalance diskCommit) (RemoteBtcBalance diskCommit) (LocalAssetBalance diskCommit) (RemoteAssetBalance diskCommit)
    (CommitFee diskCommit) (FeePerKw diskCommit) (DustLimit (if isLocal then LocalChanCfg cs else RemoteChanCfg cs))
    outgoing incoming ∅ ∅).

(** ** Updates *)

(** The HTLC an update removes. *)
Definition removed_id (logUpdate : LogUpdate) : option Z :=
  match lu_UpdateMsg logUpdate with
  | UMFulfill m => Some (ful_ID m)
  | UMFail m => Some (fail_ID m)
  | UMMalformed m => Some (mal_ID m)
  | _ => None
  end.

Definition lookup_original (remoteLog : bool) (id : Z) : LC PaymentDescriptor := fun lc =>
  match lookupHtlc (log_of lc remoteLog) id with
  | Some p => (Ok (deref (lc_heap lc) p), lc)
  | None => (Panic, lc)
  end.

(** The removal of an HTLC, before its height is set. *)
Definition removal_desc (logUpdate : LogUpdate) (ogHTLC : PaymentDescriptor) : PaymentDescriptor :=
  let pd := zero_pd <| pd_AssetID := pd_AssetID ogHTLC |> <| pd_BtcAmount := pd_BtcAmount ogHTLC |>
    <| pd_AssetAmount := pd_AssetAmount ogHTLC |> <| pd_RHash := pd_RHash ogHTLC |>
    <| pd_ParentIndex := pd_HtlcIndex ogHTLC |> <| pd_LogIndex := lu_LogIndex logUpdate |> in
  match lu_UpdateMsg logUpdate with
  | UMFulfill m => pd <| pd_RPreimage := ful_PaymentPreimage m |> <| pd_EntryType := Settle |>
  | UMFail m => pd <| pd_EntryType := Fail |> <| pd_FailReason := fail_Reason m |>
  | UMMalformed m => pd <| pd_EntryType := MalformedFail |> <| pd_FailCode := mal_FailureCode m |>
                        <| pd_ShaOnionBlob := mal_ShaOnionBlob m |>
  | _ => pd
  end.

Definition fee_desc (logUpdate : LogUpdate) (m : Messages.UpdateFee) : PaymentDescriptor :=
  zero_pd <| pd_LogIndex := lu_LogIndex logUpdate |> <| pd_BtcAmount := NewMSatFromSatoshis (fee_FeePerKw m) |>
    <| pd_AssetID := fee_AssetID m |> <| pd_EntryType := FeeUpdate |>.

Definition add_desc (logUpdate : LogUpdate) (m : UpdateAddHTLC) : PaymentDescriptor :=
  SetAmtFromMsgHtlc (zero_pd <| pd_RHash := add_PaymentHash m |> <| pd_Timeout := add_Expiry m |> <| pd_EntryType := Add |>
    <| pd_HtlcIndex := add_ID m |> <| pd_LogIndex := lu_LogIndex logUpdate |>) m <| pd_OnionBlob := add_OnionBlob m |>.

Definition removeAt (remoteChain : bool) (height : Z) (pd : PaymentDescriptor) : PaymentDescriptor :=
  if remoteChain then pd <| removeCommitHeightRemote := height |> else pd <| removeCommitHeightLocal := height |>.
Definition addAt (remoteChain : bool) (height : Z) (pd : PaymentDescriptor) : PaymentDescriptor :=
  if remoteChain then pd <| addCommitHeightRemote := height |> else pd <| addCommitHeightLocal := height |>.

(** The updates of a pending commitment: ours, on the peer's chain. *)
Definition logUpdateToPayDesc (logUpdate : LogUpdate) (commitHeight feeRate : Z) (remoteCommitKeys : CommitmentKeyRing)
    (remoteDustLimit : Z) : LC PaymentDescriptor :=
  match lu_UpdateMsg logUpdate with
  | UMAdd m =>
      let pd := addAt true commitHeight (add_desc logUpdate m) in
      cs ← gets channelState;
      if HtlcIsDust (ChanType cs) false false feeRate (ToSatoshis (u64 (add_Amount m))) remoteDustLimit (add_AssetID m)
      then mret pd
      else '(theirP2WSH, theirWitness) ← lift (of_script
             (genHtlcScript (ChanType cs) false false (add_Expiry m) (add_PaymentHash m) remoteCommitKeys));
           mret (pd <| theirPkScript := theirP2WSH |> <| theirWitnessScript := theirWitness |>)
  | UMFee m => mret (removeAt true commitHeight (addAt true commitHeight (fee_desc logUpdate m)))
  | UMFulfill (mkUpdateFulfillHTLC _ id _ _) | UMFail (mkUpdateFailHTLC _ id _ _)
  | UMMalformed (mkUpdateFailMalformedHTLC _ id _ _ _) =>
      ogHTLC ← lookup_original true id;
      mret (removeAt true commitHeight (removal_desc logUpdate ogHTLC))
  end.

(** Our updates the peer has still to sign for. *)
Definition localLogUpdateToPayDesc (logUpdate : LogUpdate) (commitHeight : Z) : LC PaymentDescriptor :=
  match lu_UpdateMsg logUpdate with
  | UMAdd _ => throw ErrUnknownUpdate
  | UMFee m => mret (removeAt true commitHeight (addAt true commitHeight (fee_desc logUpdate m)))
  | UMFulfill (mkUpdateFulfillHTLC _ id _ _) | UMFail (mkUpdateFailHTLC _ id _ _)
  | UMMalformed (mkUpdateFailMalformedHTLC _ id _ _ _) =>
      ogHTLC ← lookup_original true id;
      mret (removeAt true commitHeight (removal_desc logUpdate ogHTLC))
  end.

(** The peer's updates we have still to sign for. *)
Definition remoteLogUpdateToPayDesc (logUpdate : LogUpdate) (commitHeight : Z) : LC PaymentDescriptor :=
  match lu_UpdateMsg logUpdate with
  | UMAdd m => mret (addAt false commitHeight (add_desc logUpdate m))
  | UMFee m => mret (removeAt false commitHeight (addAt false commitHeight (fee_desc logUpdate m)))
  | UMFulfill (mkUpdateFulfillHTLC _ id _ _) | UMFail (mkUpdateFailHTLC _ id _ _)
  | UMMalformed (mkUpdateFailMalformedHTLC _ id _ _ _) =>
      ogHTLC ← lookup_original false id;
      mret (removeAt false commitHeight (removal_desc logUpdate ogHTLC))
  end.

(** ** Logs *)

(** A method of a log, called with a new descriptor. *)
Definition log_pd (remoteLog : bool) (pd : PaymentDescriptor) (f : heap -> updateLog -> ptr -> updateLog) : LC unit :=
  p ← alloc pd;
  modify (fun lc => set_log remoteLog (f (lc_heap lc) (log_of lc remoteLog) p) lc).

Definition mark_modified (remoteLog : bool) (id : Z) : LC unit :=
  modify (fun lc => set_log remoteLog (markHtlcModified (log_of lc remoteLog) id) lc).

Definition restorePendingLocalUpdate (pendingCommit : ChannelCommitment) (pendingRemoteKeys : CommitmentKeyRing)
    (logUpdate : LogUpdate) : LC unit :=
  dustLimit ← gets (fun lc => DustLimit (RemoteChanCfg (channelState lc)));
  payDesc ← logUpdateToPayDesc logUpdate (CommitHeight pendingCommit) (FeePerKw pendingCommit) pendingRemoteKeys dustLimit;
  log ← gets localUpdateLog;
  let payDesc := if bool_decide (pd_EntryType payDesc = FeeUpdate) && (pd_LogIndex payDesc =? 0) && (0 <? logIndex log)
                 then payDesc <| pd_LogIndex := logIndex log |> else payDesc in
  if negb (pd_LogIndex payDesc =? logIndex log) then panic
  else match pd_EntryType payDesc with
       | Add =>
           if negb (pd_HtlcIndex payDesc =? htlcCounter log) then panic
           else log_pd false payDesc (fun _ => appendHtlc)
       | FeeUpdate => log_pd false payDesc (fun _ => appendUpdate)
       | _ =>
           _ ← log_pd false payDesc (fun _ => appendUpdate);
           mark_modified true (pd_ParentIndex payDesc)
       end.

Definition restorePendingLocalUpdates (pendingRemoteCommitDiff : CommitDiff) (pendingRemoteKeys : CommitmentKeyRing) : LC unit :=
  for_each (restorePendingLocalUpdate (cd_Commitment pendingRemoteCommitDiff) pendingRemoteKeys)
    (cd_LogUpdates pendingRemoteCommitDiff).

(** An update the pending commitment holds has its height on the peer's chain. *)
Definition restorePendingRemoteUpdate (localCommitmentHeight : Z) (pendingRemoteCommit : option commitment)
    (logUpdate : LogUpdate) : LC unit :=
  payDesc ← remoteLogUpdateToPayDesc logUpdate localCommitmentHeight;
  let logIdx := pd_LogIndex payDesc in
  next ← gets (fun lc => logIndex (remoteUpdateLog lc));
  _ ← check (next <=? logIdx) (ErrUnsignedRemoteUpdate logIdx);
  let height := match pendingRemoteCommit with
                | Some c => if logIdx <? c_theirMessageIndex c then Some (c_height c) else None
                | None => None
                end in
  match pd_EntryType payDesc with
  | Add => mret tt
  | FeeUpdate =>
      let payDesc := match height with
                     | Some h => removeAt true h (addAt true h payDesc)
                     | None => payDesc
                     end in
      log_pd true payDesc restoreUpdate
  | _ =>
      let payDesc := match height with Some h => removeAt true h payDesc | None => payDesc end in
      _ ← log_pd true payDesc restoreUpdate;
      mark_modified false (pd_ParentIndex payDesc)
  end.

Definition restorePendingRemoteUpdates (unsignedAckedUpdates : list LogUpdate) (localCommitmentHeight : Z)
    (pendingRemoteCommit : option commitment) : LC unit :=
  for_each (restorePendingRemoteUpdate localCommitmentHeight pendingRemoteCommit) unsignedAckedUpdates.

Definition restorePeerLocalUpdate (remoteCommitmentHeight : Z) (logUpdate : LogUpdate) : LC unit :=
  payDesc ← localLogUpdateToPayDesc logUpdate remoteCommitmentHeight;
  _ ← log_pd false payDesc restoreUpdate;
  if bool_decide (pd_EntryType payDesc = FeeUpdate) then mret tt else mark_modified true (pd_ParentIndex payDesc).

Definition restorePeerLocalUpdates (updates : list LogUpdate) (remoteCommitmentHeight : Z) : LC unit :=
  for_each (restorePeerLocalUpdate remoteCommitmentHeight) updates.

(** [m[id] = height] for each id. *)
Definition set_heights (height : Z) (ids : list Z) (m : gmap Z Z) : gmap Z Z :=
  foldl (fun m id => <[id := height]> m) m ids.

Definition restoreStateLogs (localCommitment remoteCommitment : commitment)
    (pendingRemote : option (commitment * CommitDiff * CommitmentKeyRing))
    (unsignedAckedUpdates remoteUnsignedLocalUpdates : list LogUpdate) : LC unit :=
  let pendingRemoteCommit := (fun x => fst (fst x)) <$> pendingRemote in
  let ids := fmap pd_HtlcIndex in
  let incomingRemoteAddHeights :=
    set_heights (c_height remoteCommitment) (omap removed_id remoteUnsignedLocalUpdates)
      (set_heights (c_height remoteCommitment) (ids (incomingHTLCs remoteCommitment))
        (match pendingRemoteCommit with
         | Some c => set_heights (c_height c) (ids (incomingHTLCs c)) ∅
         | None => ∅
         end)) in
  let outgoingLocalAddHeights :=
    set_heights (c_height localCommitment) (omap removed_id unsignedAckedUpdates)
      (set_heights (c_height localCommitment) (ids (outgoingHTLCs localCommitment)) ∅) in
  let height (m : gmap Z Z) htlc := default 0 (m !! pd_HtlcIndex htlc) in
  _ ← for_each (fun htlc => log_pd true (addAt true (height incomingRemoteAddHeights htlc)
        (addAt false (c_height localCommitment) htlc)) restoreHtlc) (incomingHTLCs localCommitment);
  _ ← for_each (fun htlc => log_pd false (addAt false (height outgoingLocalAddHeights htlc)
        (addAt true (c_height remoteCommitment) htlc)) restoreHtlc) (outgoingHTLCs remoteCommitment);
  _ ← match pendingRemote with
      | Some (_, diff, keys) => restorePendingLocalUpdates diff keys
      | None => mret tt
      end;
  _ ← restorePendingRemoteUpdates unsignedAckedUpdates (c_height localCommitment) pendingRemoteCommit;
  restorePeerLocalUpdates remoteUnsignedLocalUpdates (c_height remoteCommitment).

(** ** The channel *)
Definition add_commit (remoteChain : bool) (c : commitment) : LC unit :=
  modify (fun lc => if remoteChain then lc <| remoteCommitChain ::= fun s => addCommitment s c |>
                    else lc <| localCommitChain ::= fun s => addCommitment s c |>).

(** The pending commitment, on the peer's chain, with its diff and its keys; a
    commitment without the peer's next point dereferences nil. *)
Definition restore_pending (cs : OpenChannel) : LC (option (commitment * CommitDiff * CommitmentKeyRing)) :=
  match RemoteCommitChainTip cs with
  | Err ErrNoPendingCommit => mret None
  | Err e => throw (ErrDb e)
  | Panic => panic
  | Ok diff =>
      c ← lift (diskCommitToMemCommit cs false (cd_Commitment diff) None (RemoteNextRevocation cs));
      _ ← add_commit true c;
      match RemoteNextRevocation cs with
      | None => panic
      | Some point =>
          mret (Some (c, diff, DeriveCommitmentKeys point false (ChanType cs) (LocalChanCfg cs) (RemoteChanCfg cs)))
      end
  end.

Definition restoreCommitState (localCommitState remoteCommitState : ChannelCommitment) : LC unit :=
  cs ← gets channelState;
  height ← gets currentHeight;
  ourRevPreImage ← lift (of_sha (AtIndex (Producer cs) height));
  let localCommitPoint := Some (ComputeCommitmentPoint ourRevPreImage) in
  let remoteCommitPoint := RemoteCurrentRevocation cs in
  localCommit ← lift (diskCommitToMemCommit cs true localCommitState localCommitPoint remoteCommitPoint);
  _ ← add_commit false localCommit;
  remoteCommit ← lift (diskCommitToMemCommit cs false remoteCommitState localCommitPoint remoteCommitPoint);
  _ ← add_commit true remoteCommit;
  pending ← restore_pending cs;
  restoreStateLogs localCommit remoteCommit pending (UnsignedAckedUpdates cs) (RemoteUnsignedLocalUpdates cs).

(** The sign descriptor is nil until [createSignDesc]. *)
Definition fresh_channel (state : OpenChannel) : LightningChannel :=
  let localCommit := LocalCommitment state in
  let remoteCommit := RemoteCommitment state in
  mkLC [] (BtcCapacity state) (AssetCapacity state) (CommitHeight localCommit) [] [] state (createStateHintObfuscator state)
    (mkSignDesc (MultiSigKey (LocalChanCfg state)) [] [] (mkTxOut 0 []) 0 0)
    (newUpdateLog (LocalLogIndex remoteCommit) (LocalHtlcIndex remoteCommit))
    (newUpdateLog (RemoteLogIndex localCommit) (RemoteHtlcIndex localCommit)).

Definition NewLightningChannel (state : OpenChannel) : res chanerr LightningChannel :=
  match restoreCommitState (LocalCommitment state) (RemoteCommitment state) (fresh_channel state) with
  | (Ok _, lc) => desc ← createSignDesc state; mret (lc <| signDesc := desc |>)
  | (Err e, _) => Err e
  | (Panic, _) => Panic
  end.

(** ** What is rebuilt *)

(** Only the heap and the logs differ. *)
Definition logs_only (lc lc' : LightningChannel) : Prop :=
  lc' = lc <| lc_heap := lc_heap lc' |> <| localUpdateLog := localUpdateLog lc' |> <| remoteUpdateLog := remoteUpdateLog lc' |>.

#[local] Instance logs_only_preorder : PreOrder logs_only.
Proof.
  split; [by intros []|]. intros l1 l2 l3 E1 E2. unfold logs_only in *. rewrite E2 at 1. rewrite E1. reflexivity.
Qed.

Lemma set_log_only remoteLog u lc : logs_only lc (set_log remoteLog u lc).
Proof. by destruct lc, remoteLog. Qed.

Lemma log_pd_only remoteLog pd f : frames logs_only (log_pd remoteLog pd f).
Proof.
  unfold log_pd. apply (frames_bind logs_only); [by intros []|]. intros p. apply frames_modify. intros lc. apply set_log_only.
Qed.

Lemma mark_modified_only remoteLog id : frames logs_only (mark_modified remoteLog id).
Proof. apply frames_modify. intros lc. apply set_log_only. Qed.

Lemma lookup_original_only remoteLog id : frames logs_only (lookup_original remoteLog id).
Proof. intros lc. unfold lookup_original. by destruct (lookupHtlc _ _); destruct lc. Qed.

Lemma for_each_only {A} (f : A -> LC unit) l : (forall x, frames logs_only (f x)) -> frames logs_only (for_each f l).
Proof. intros Hf. induction l; cbn [for_each]; frames; apply Hf. Qed.

#[local] Hint Resolve log_pd_only mark_modified_only lookup_original_only : frames.

Lemma logUpdateToPayDesc_only u h fee keys dust : frames logs_only (logUpdateToPayDesc u h fee keys dust).
Proof. unfold logUpdateToPayDesc. frames. Qed.

Lemma localLogUpdateToPayDesc_only u h : frames logs_only (localLogUpdateToPayDesc u h).
Proof. unfold localLogUpdateToPayDesc. frames. Qed.

Lemma remoteLogUpdateToPayDesc_only u h : frames logs_only (remoteLogUpdateToPayDesc u h).
Proof. unfold remoteLogUpdateToPayDesc. frames. Qed.

#[local] Hint Resolve logUpdateToPayDesc_only localLogUpdateToPayDesc_only remoteLogUpdateToPayDesc_only : frames.

Lemma restorePendingLocalUpdate_only c k u : frames logs_only (restorePendingLocalUpdate c k u).
Proof. unfold restorePendingLocalUpdate. frames. Qed.

Lemma restorePendingRemoteUpdate_only h c u : frames logs_only (restorePendingRemoteUpdate h c u).
Proof. unfold restorePendingRemoteUpdate. frames. Qed.

Lemma restorePeerLocalUpdate_only h u : frames logs_only (restorePeerLocalUpdate h u).
Proof. unfold restorePeerLocalUpdate. frames. Qed.

#[local] Hint Resolve for_each_only restorePendingLocalUpdate_only restorePendingRemoteUpdate_only restorePeerLocalUpdate_only : frames.

Lemma restoreStateLogs_only lt rt pend us vs : frames logs_only (restoreStateLogs lt rt pend us vs).
Proof. unfold restoreStateLogs, restorePendingLocalUpdates, restorePendingRemoteUpdates, restorePeerLocalUpdates. frames. Qed.

Lemma memCommit_fields cs isLocal d p q c : diskCommitToMemCommit cs isLocal d p q = Ok c ->
  c_height c = CommitHeight d /\ c_isOurs c = isLocal /\ c_ourMessageIndex c = LocalLogIndex d /\ c_theirMessageIndex c = RemoteLogIndex d.
Proof.
  unfold diskCommitToMemCommit. intros Hrun. apply res_bind_Ok in Hrun as ([i o] & _ & Hrun). by injection Hrun as <-.
Qed.

(** The chains of a restored channel: the two stored commitments and the pending
    one. *)
Lemma restored_chains c lc : NewLightningChannel c = Ok lc ->
  channelState lc = c /\ currentHeight lc = CommitHeight (LocalCommitment c) /\
  exists lt rt, localCommitChain lc = [lt] /\ c_height lt = CommitHeight (LocalCommitment c) /\
    c_height rt = CommitHeight (RemoteCommitment c) /\
    match db_commitDiff (ChanBucket c) with
    | None => remoteCommitChain lc = [rt]
    | Some d => exists v, remoteCommitChain lc = [rt; v] /\ c_height v = CommitHeight (cd_Commitment d)
    end.
Proof.
  unfold NewLightningChannel. destruct (restoreCommitState _ _ _) as [[u|e|] l] eqn:Hrun; try done.
  intros Hd. apply res_bind_Ok in Hd as (desc & _ & Hd). injection Hd as <-. cbn [channelState currentHeight localCommitChain remoteCommitChain].
  unfold restoreCommitState in Hrun. set (l0 := fresh_channel c) in *.
  apply M_bind_Ok in Hrun as (cs & s0 & E0 & Hrun). injection E0 as <- <-.
  apply M_bind_Ok in Hrun as (hh & s0 & E0 & Hrun). injection E0 as <- <-.
  apply M_bind_Ok in Hrun as (sec & s0 & E0 & Hrun). injection E0 as _ <-. cbv zeta in Hrun.
  apply M_bind_Ok in Hrun as (lt & s0 & E0 & Hrun). injection E0 as Hlt <-.
  apply M_bind_Ok in Hrun as ([] & s1 & E0 & Hrun). injection E0 as <-.
  apply M_bind_Ok in Hrun as (rt & s0 & E0 & Hrun). injection E0 as Hrt <-.
  apply M_bind_Ok in Hrun as ([] & s2 & E0 & Hrun). injection E0 as <-.
  apply M_bind_Ok in Hrun as (pend & s3 & Hpend & Hrun).
  destruct (memCommit_fields _ _ _ _ _ _ Hlt) as (El & _). destruct (memCommit_fields _ _ _ _ _ _ Hrt) as (Er & _).
  match type of Hrun with restoreStateLogs ?a ?b ?p ?u ?v _ = _ => pose proof (restoreStateLogs_only a b p u v s3) as Ho end.
  rewrite Hrun in Ho. cbn [snd] in Ho. rewrite Ho. unfold restore_pending, RemoteCommitChainTip in Hpend.
  change (channelState l0) with c in *.
  destruct (db_commitDiff (ChanBucket c)) as [d|].
  - apply M_bind_Ok in Hpend as (v & s4 & E0 & Hpend). injection E0 as Hv <-.
    apply M_bind_Ok in Hpend as ([] & s5 & E0 & Hpend). injection E0 as <-.
    destruct (RemoteNextRevocation c) as [p|]; [|done]. injection Hpend as _ <-.
    destruct (memCommit_fields _ _ _ _ _ _ Hv) as (Ev & _).
    split; [done|]. split; [done|]. exists lt, rt. do 3 (split; [done|]). by exists v.
  - injection Hpend as _ <-. split; [done|]. split; [done|]. by exists lt, rt.
Qed.
End Restore.
