(* ===== verification/Reestablish.v ===== *)
(** * Reestablishing a channel ([lnwallet/channel.go], [htlcswitch/link.go])

    When two peers meet again each tells the other how far it came
    ([ChanDB.ChanSyncMsg]).  From the peer's message a channel finds out what the
    peer has not received, sends it again, or finds that one of them has lost state;
    the link then resumes, or fails the channel. *)

From S2P Require Import Prelude Wire Messages ChanIds Units Sha256 Shachain Sig Tx OmniOp Keys Scripts FwdPkg UpdateLog Circuits ChanDB Commitment Channel ChannelOps Link ChannelSign.

Section Reestablish.
Context `{CurveOps, !ScriptLib, !TxLib, !SigLib}.

(** The errors of the method: one carries what a later recovery needs. *)
Inductive syncErr : Type :=
| ErrChan (e : chanerr)
| ErrCommitSyncLocalDataLoss (ChannelPoint : OutPoint) (CommitPoint : PublicKey).

(** The messages that may be sent again. *)
Inductive syncMsg : Type :=
| RevokeMsg (m : RevokeAndAck)
| UpdMsg (m : UpdateMsg)
| SigMsg (m : CommitSig).

Abbreviation SC := (M LightningChannel syncErr).

Definition of_chan {A} (r : res chanerr A) : res syncErr A :=
  match r with Ok a => Ok a | Err e => Err (ErrChan e) | Panic => Panic end.
Definition on_chan {A} (m : M LightningChannel chanerr A) : SC A := fun lc => let '(r, lc) := m lc in (of_chan r, lc).

(** ** [ProcessChanSyncMsg] *)

(** The secret the peer says it last got from us; a message with a point has one. *)
Definition checkLastSecret (cs : OpenChannel) (msg : ChannelReestablish) : res chanerr unit :=
  if bool_decide (is_Some (re_LocalUnrevokedCommitPoint msg)) && negb (re_RemoteCommitTailHeight msg =? 0) then
    heightSecret ← of_sha (AtIndex (Producer cs) (u64 (re_RemoteCommitTailHeight msg - 1)));
    guard_err (negb (bool_decide (heightSecret = re_LastRemoteCommitSecret msg))) ErrInvalidLastCommitSecret
  else Ok tt.

(** The revocation they have not got, and a signature if we owe one and may sign. *)
Definition signOwed (revocationMsg : RevokeAndAck) : SC (list syncMsg) := fun lc =>
  match SignNextCommitment lc with
  | (Ok (commitSig, htlcSigs, _), lc) =>
      (Ok [RevokeMsg revocationMsg; SigMsg (mkCommitSig (chan_id lc) commitSig htlcSigs [])], lc)
  | (Err ErrNoWindow, lc) => (Ok [RevokeMsg revocationMsg], lc)
  | (Err e, lc) => (Err (ErrChan e), lc)
  | (Panic, lc) => (Panic, lc)
  end.

Definition resendRevocation (localTailHeight : Z) : SC (list syncMsg) :=
  revocationMsg ← on_chan (fun lc => (generateRevocation lc (u64 (localTailHeight - 1)), lc));
  owe ← on_chan (fun lc => (oweCommitment true lc, lc));
  if owe : bool then signOwed revocationMsg else mret [RevokeMsg revocationMsg].

(** Their view of our chain. *)
Definition syncLocalChain (msg : ChannelReestablish) (localTailHeight : Z) : SC (list syncMsg) :=
  cs ← gets channelState;
  let height := re_RemoteCommitTailHeight msg in
  if (localTailHeight <? height) || hasChanStatus cs ChanStatusRestored then
    match re_LocalUnrevokedCommitPoint msg with
    | None => throw (ErrChan ErrCannotSyncCommitChains)
    | Some p => throw (ErrCommitSyncLocalDataLoss (FundingOutpoint cs) p)
    end
  else if u64 (height + 1) <? localTailHeight then throw (ErrChan ErrCommitSyncRemoteDataLoss)
  else if height =? localTailHeight then mret []
  else if u64 (height + 1) =? localTailHeight then resendRevocation localTailHeight
  else throw (ErrChan ErrCannotSyncCommitChains).

(** The commitment they have not got, with its updates, before or after the
    revocation. *)
Definition resendCommitment (lastWasRevoke : bool) (commitDiff : CommitDiff) (updates : list syncMsg) : list syncMsg :=
  let commitUpdates := ((fun u => UpdMsg (lu_UpdateMsg u)) <$> cd_LogUpdates commitDiff) ++ [SigMsg (cd_CommitSig commitDiff)] in
  if lastWasRevoke then commitUpdates ++ updates else updates ++ commitUpdates.

(** Our view of their chain. *)
Definition syncRemoteChain (msg : ChannelReestablish) (remoteTailHeight remoteTipHeight : Z) (updates : list syncMsg)
    : SC (list syncMsg * list CircuitKey * list CircuitKey) :=
  let next := re_NextLocalCommitHeight msg in
  if u64 (remoteTipHeight + 1) <? next then throw (ErrChan ErrCannotSyncCommitChains)
  else if next <=? remoteTailHeight then throw (ErrChan ErrCommitSyncRemoteDataLoss)
  else if next =? u64 (remoteTipHeight + 1) then mret (updates, [], [])
  else if next =? remoteTipHeight then
    cs ← gets channelState;
    commitDiff ← lift (match RemoteCommitChainTip cs with Ok d => Ok d | Err e => Err (ErrChan (ErrDb e)) | Panic => Panic end);
    mret (resendCommitment (LastWasRevoke cs) commitDiff updates, cd_OpenedCircuitKeys commitDiff, cd_ClosedCircuitKeys commitDiff)
  else throw (ErrChan ErrCannotSyncCommitChains).

Definition expectedPoint (cs : OpenChannel) (msg : ChannelReestablish) (remoteTailHeight : Z) : option PublicKey :=
  if re_NextLocalCommitHeight msg =? u64 (remoteTailHeight + 1) then RemoteCurrentRevocation cs
  else if re_NextLocalCommitHeight msg =? u64 (remoteTailHeight + 2) then RemoteNextRevocation cs
  else None.

(** The point they are on; in a channel without tweaks it may be anything. *)
Definition checkCommitPoint (cs : OpenChannel) (msg : ChannelReestablish) (remoteTailHeight : Z) : res chanerr unit :=
  match re_LocalUnrevokedCommitPoint msg with
  | None => Ok tt
  | Some p =>
      guard_err (negb (IsTweakless (ChanType cs)) &&
        match expectedPoint cs msg remoteTailHeight with Some q => negb (bool_decide (q = p)) | None => false end)
        ErrInvalidLocalUnrevokedCommitPoint
  end.

Definition ProcessChanSyncMsg (msg : ChannelReestablish) : SC (list syncMsg * list CircuitKey * list CircuitKey) :=
  _ ← on_chan (fun lc => (checkLastSecret (channelState lc) msg, lc));
  localTail ← on_chan (tailM false);
  remoteTail ← on_chan (tailM true);
  remoteTip ← on_chan (tipM true);
  updates ← syncLocalChain msg (c_height localTail);
  result ← syncRemoteChain msg (c_height remoteTail) (c_height remoteTip) updates;
  _ ← on_chan (fun lc => (checkCommitPoint (channelState lc) msg (c_height remoteTail), lc));
  mret result.

Definition NextRevocationKey (lc : LightningChannel) : res chanerr PublicKey :=
  revocation ← of_sha (AtIndex (Producer (channelState lc)) (u64 (currentHeight lc + 1)));
  mret (ComputeCommitmentPoint revocation).

(** ** The link: [syncChanStates] *)

(** What the link sends, takes from its mailbox and reports. *)
Inductive errorCode : Type :=
| ErrInternalError | ErrRemoteError | ErrRemoteUnresponsive | ErrSyncError
| ErrInvalidUpdate | ErrInvalidCommitment | ErrInvalidRevocation | ErrRecoveryError.

Inductive syncOut : Type :=
| OutReestablish (m : ChannelReestablish)
| OutFundingLocked (chanID : bytes) (nextPoint : PublicKey)
| OutResend (m : syncMsg)
| OutAckPacket (inKey : CircuitKey)
| OutFailure (code : errorCode) (ForceClose : bool).

Inductive linkSyncErr : Type :=
| ErrNoSyncMsg (e : dberr)
| ErrSendSyncMsg
| ErrNotReestablish
| ErrNextRevocation (e : chanerr)
| ErrSendFundingLocked
| ErrProcessSync (e : syncErr)
| ErrAckPackets (e : circuiterr)
| ErrLinkShuttingDown.

(** What arrives on the link's queue first: nothing before it is told to quit,
    another message, or the peer's. *)
Inductive firstMsg : Type := Quit | OtherMsg | Reestablish (m : ChannelReestablish).

(** Which messages the peer connection takes, and whether the circuits are deleted. *)
Context (sends : syncOut -> bool) (deletes : bool).

Definition resendFundingLocked (IsPending : bool) (l : channelLink) (ours theirs : ChannelReestablish) : res linkSyncErr (list syncOut) :=
  if (re_NextLocalCommitHeight theirs =? 1) && (re_NextLocalCommitHeight ours =? 1) && negb IsPending then
    match NextRevocationKey (lk_channel l) with
    | Panic => Panic
    | Err e => Err (ErrNextRevocation e)
    | Ok nextRevocation =>
        let out := OutFundingLocked (chan_id (lk_channel l)) nextRevocation in
        if sends out then Ok [out] else Err ErrSendFundingLocked
    end
  else Ok [].

Definition syncChanStates (IsPending : bool) (upstream : firstMsg) (l : channelLink) (m : circuitMap)
    : res linkSyncErr unit * list syncOut * channelLink * circuitMap :=
  match ChanSyncMsg (channelState (lk_channel l)) with
  | Panic => (Panic, [], l, m)
  | Err e => (Err (ErrNoSyncMsg e), [], l, m)
  | Ok ours =>
      if negb (sends (OutReestablish ours)) then (Err ErrSendSyncMsg, [], l, m)
      else
        let out := [OutReestablish ours] in
        match upstream with
        | Quit => (Err ErrLinkShuttingDown, out, l, m)
        | OtherMsg => (Err ErrNotReestablish, out, l, m)
        | Reestablish theirs =>
            match resendFundingLocked IsPending l ours theirs with
            | Panic => (Panic, out, l, m)
            | Err e => (Err e, out, l, m)
            | Ok locked =>
                let out := out ++ locked in
                match ProcessChanSyncMsg theirs (lk_channel l) with
                | (Panic, lc) => (Panic, out, l <| lk_channel := lc |>, m)
                | (Err e, lc) => (Err (ErrProcessSync e), out, l <| lk_channel := lc |>, m)
                | (Ok (msgsToReSend, opened, closed), lc) =>
                    let l := l <| lk_channel := lc |> <| openedCircuits := opened |> <| closedCircuits := closed |> in
                    let '(acked, r, l, m) := ackDownStreamPackets deletes l m in
                    let out := out ++ (OutAckPacket <$> acked) in
                    match r with
                    | Panic => (Panic, out, l, m)
                    | Err e => (Err (ErrAckPackets e), out, l, m)
                    | Ok _ => (Ok tt, out ++ (OutResend <$> msgsToReSend), l, m)
                    end
                end
            end
        end
  end.

(** [MarkDataLoss] and [MarkBorked] of the channel; their errors are logged. *)
Definition mark (f : M OpenChannel dberr unit) (l : channelLink) : channelLink :=
  l <| lk_channel ::= fun lc => lc <| channelState := snd (f (channelState lc)) |> |>.

(** Whether the peer is to be told that the channel will be closed by force. *)
Definition forcesClose (e : linkSyncErr) : bool :=
  match e with
  | ErrProcessSync (ErrChan ErrCommitSyncRemoteDataLoss)
  | ErrProcessSync (ErrChan ErrInvalidLastCommitSecret)
  | ErrProcessSync (ErrChan ErrInvalidLocalUnrevokedCommitPoint) => true
  | _ => false
  end.

(** The beginning of [htlcManager]: [true] if the link goes on. *)
Definition htlcManager_sync (SyncStates IsPending : bool) (upstream : firstMsg) (l : channelLink) (m : circuitMap)
    : res Empty_set bool * list syncOut * channelLink * circuitMap :=
  if negb SyncStates then (Ok true, [], l <| reestablished := true |>, m)
  else
    let '(r, out, l, m) := syncChanStates IsPending upstream l m in
    match r with
    | Panic => (Panic, out, l, m)
    | Ok _ => (Ok true, out, l <| reestablished := true |>, m)
    | Err ErrLinkShuttingDown => (Ok false, out, l, m)
    | Err e =>
        if forcesClose e then (Ok false, out ++ [OutFailure ErrSyncError true], l, m)
        else
          let l := match e with
                   | ErrProcessSync (ErrCommitSyncLocalDataLoss _ p) => mark (MarkDataLoss p) l
                   | ErrProcessSync (ErrChan ErrCannotSyncCommitChains) => mark MarkBorked l
                   | _ => l
                   end in
          (Ok false, out ++ [OutFailure ErrRecoveryError false], l, m)
    end.
End Reestablish.
