(* ===== verification/Views.v ===== *)
(** * Evaluating a view, exactly

    [evaluateHTLCView] with and without the permission to record heights: the
    balances and the fee rate as folds over the entries, the view as a filter, and
    the heap as the entries of the view with their heights recorded.  Two runs
    that differ only in that permission compute the same view. *)

From S2P Require Import Prelude Wire Units FwdPkg UpdateLog ChanDB Keys Commitment Channel.

Section Exact.
Context `{CurveOps}.
Context (n : Z) (rc mutate : bool).

Abbreviation heap_of s := (lc_heap (ev_lc s)).

(** The heights of an entry once the chain has it. *)
Definition recorded (pd : PaymentDescriptor) : PaymentDescriptor :=
  match pd_EntryType pd with
  | Add => if addHeight rc pd =? 0 then set_addHeight rc n pd else pd
  | FeeUpdate => if addHeight rc pd =? 0 then set_removeHeight rc n (set_addHeight rc n pd) else pd
  | _ => if removeHeight rc pd =? 0 then set_removeHeight rc n pd else pd
  end.

Definition record_if (pd : PaymentDescriptor) : PaymentDescriptor := if mutate then recorded pd else pd.

Definition credit_of (own : bool) (h : heap) (b : balances) (p : ptr) : balances :=
  let pd := deref h p in if credited rc pd then removal_credit own pd b else b.
Definition fee_of (h : heap) (fee : Z) (p : ptr) : Z :=
  let pd := deref h p in
  if bool_decide (pd_EntryType pd = FeeUpdate) && (addHeight rc pd =? 0)
  then ToSatoshis (pd_BtcAmount pd) else fee.
Definition debit_of (incoming : bool) (h : heap) (b : balances) (p : ptr) : balances :=
  let pd := deref h p in
  if debited rc pd then (if incoming then debit_them pd else debit_us pd) b else b.

(** What one entry may do to the heap. *)
Definition rewritten (T : ptr -> Prop) `{forall p, Decision (T p)} (h h' : heap) : Prop :=
  length h' = length h /\
  forall p, deref h' p = if decide (T p) then record_if (deref h p) else deref h p.

Lemma rewritten_write h e f (T : ptr -> Prop) `{forall p, Decision (T p)} : (e < length h)%nat ->
  f (deref h e) = recorded (deref h e) -> (forall p, T p <-> p = e) -> mutate = true ->
  rewritten T h (write h e f).
Proof.
  intros He Hf HT Hm. split; [unfold write; by rewrite length_alter|]. intros p. rewrite deref_write_any.
  unfold record_if. rewrite Hm. destruct (decide (T p)) as [Hp|Hp]; rewrite HT in Hp.
  - subst p. rewrite decide_True; [done|]. split; [done|]. by apply lookup_lt_is_Some_2.
  - rewrite decide_False; [done|]. intros [E _]. by apply Hp.
Qed.

Lemma rewritten_same h (T : ptr -> Prop) `{forall p, Decision (T p)} :
  (forall p, T p -> record_if (deref h p) = deref h p) -> rewritten T h h.
Proof. intros HT. split; [done|]. intros p. destruct (decide (T p)) as [Hp|]; [by rewrite HT|done]. Qed.

(** One step of the loops. *)
Definition stepped (bal : balances) (fee : Z) (T : ptr -> Prop) `{forall p, Decision (T p)} (s s' : evalState) : Prop :=
  ev_bal s' = bal /\ ev_feePerKw s' = fee /\ rewritten T (heap_of s) (heap_of s').

Definition at_removal (h : heap) (e p : ptr) : Prop := p = e /\ pd_EntryType (deref h p) <> Add.
#[export] Instance at_removal_dec h e p : Decision (at_removal h e p).
Proof. unfold at_removal. apply _. Defined.

Lemma processRemoveEntry_exact own e s : (e < length (heap_of s))%nat ->
  is_removal (pd_EntryType (deref (heap_of s) e)) = true ->
  exists s', processRemoveEntry n rc mutate own e s = (Ok tt, s') /\
    stepped (credit_of own (heap_of s) (ev_bal s) e) (ev_feePerKw s) (at_removal (heap_of s) e) s s'.
Proof.
  intros He Hr. pose proof (is_removal_not_add _ Hr) as Hna.
  assert (Hrec : recorded (deref (heap_of s) e) = if removeHeight rc (deref (heap_of s) e) =? 0
    then set_removeHeight rc n (deref (heap_of s) e) else deref (heap_of s) e).
  { unfold recorded. by destruct (pd_EntryType _). }
  unfold processRemoveEntry, ev_read, when, ev_write, credit_of, credited. rewrite Hr. cbn [andb].
  unfold mbind, M_bind, gets, modify, mret, M_ret. cbn.
  destruct (removeHeight rc _ =? 0) eqn:Hz; cbn.
  - destruct mutate eqn:Hm; cbn; eexists; (split; [reflexivity|]); (split; [done|split; [done|]]); cbn.
    + apply rewritten_write; [done|by rewrite Hrec| |done]. intros p. unfold at_removal. naive_solver.
    + apply rewritten_same. intros p _. unfold record_if. by rewrite Hm.
  - eexists. split; [reflexivity|]. split; [done|split; [done|]]. apply rewritten_same.
    intros p [-> _]. unfold record_if. by destruct mutate.
Qed.

Lemma processFeeUpdate_exact e s : (e < length (heap_of s))%nat ->
  pd_EntryType (deref (heap_of s) e) = FeeUpdate ->
  exists s', processFeeUpdate n rc mutate e s = (Ok tt, s') /\
    stepped (ev_bal s) (fee_of (heap_of s) (ev_feePerKw s) e) (at_removal (heap_of s) e) s s'.
Proof.
  intros He Ht.
  assert (Hrec : recorded (deref (heap_of s) e) = if addHeight rc (deref (heap_of s) e) =? 0
    then set_removeHeight rc n (set_addHeight rc n (deref (heap_of s) e)) else deref (heap_of s) e).
  { unfold recorded. by rewrite Ht. }
  unfold processFeeUpdate, ev_read, when, ev_write, fee_of. rewrite Ht. cbn [andb].
  unfold mbind, M_bind, gets, modify, mret, M_ret. cbn.
  destruct (addHeight rc _ =? 0) eqn:Hz; cbn.
  - destruct mutate eqn:Hm; cbn; eexists; (split; [reflexivity|]); (split; [done|split; [done|]]); cbn.
    + apply rewritten_write; [done|by rewrite Hrec| |done]. intros p. unfold at_removal. split; [naive_solver|].
      intros ->. by rewrite Ht.
    + apply rewritten_same. intros p _. unfold record_if. by rewrite Hm.
  - eexists. split; [reflexivity|]. split; [done|split; [done|]]. apply rewritten_same.
    intros p [-> _]. unfold record_if. by destruct mutate.
Qed.

(** The common part of a settle and a fail. *)
Lemma removal_exact own e (skip skip' : gset Z) b s s' : (e < length (heap_of s))%nat ->
  is_removal (pd_EntryType (deref (heap_of s) e)) = true ->
  (_ ← when b (modify (fun s0 => s0 <| ev_lc ::= fun lc => lc <| channelState ::=
          count_settle own (deref (heap_of s) e) |> |>));
   parent ← (fun s0 => (fetchParent (ev_lc s0) (deref (heap_of s) e) rc own, s0));
   addEntry ← ev_read parent;
   _ ← processRemoveEntry n rc mutate own e;
   mret ({[pd_HtlcIndex addEntry]} ∪ skip)) s = (Ok skip', s') ->
  stepped (credit_of own (heap_of s) (ev_bal s) e) (ev_feePerKw s) (at_removal (heap_of s) e) s s'.
Proof.
  intros He Hr Hrun. apply M_bind_Ok in Hrun as (u & s1 & Hw & Hrun).
  assert (Hs1 : heap_of s1 = heap_of s /\ ev_bal s1 = ev_bal s /\ ev_feePerKw s1 = ev_feePerKw s).
  { unfold when in Hw. destruct b; injection Hw as _ <-; done. }
  destruct Hs1 as (Hh & Hb & Hf).
  apply M_bind_Ok in Hrun as (q & s2 & Hq & Hrun). injection Hq as _ <-.
  rewrite (M_bind_run (ev_read q) _ s1 _ s1 eq_refl) in Hrun.
  rewrite <- Hh in He, Hr. destruct (processRemoveEntry_exact own e s1 He Hr) as (s3 & H3 & Hst).
  rewrite (M_bind_run _ _ _ _ _ H3) in Hrun. injection Hrun as _ <-.
  unfold stepped in *. by rewrite Hh, Hb, Hf in Hst.
Qed.

Lemma eval_removal_exact own e skip s skip' s' : (e < length (heap_of s))%nat ->
  eval_removal n rc mutate own e skip s = (Ok skip', s') ->
  stepped (credit_of own (heap_of s) (ev_bal s) e) (fee_of (heap_of s) (ev_feePerKw s) e)
    (at_removal (heap_of s) e) s s'.
Proof.
  intros He Hrun. unfold eval_removal in Hrun.
  rewrite (M_bind_run (ev_read e) _ s (deref (heap_of s) e) s eq_refl) in Hrun.
  assert (Hfee : pd_EntryType (deref (heap_of s) e) <> FeeUpdate -> fee_of (heap_of s) (ev_feePerKw s) e = ev_feePerKw s).
  { intros Hne. unfold fee_of. by rewrite bool_decide_eq_false_2. }
  assert (Hbal : is_removal (pd_EntryType (deref (heap_of s) e)) = false -> credit_of own (heap_of s) (ev_bal s) e = ev_bal s).
  { intros Hne. unfold credit_of, credited. by rewrite Hne. }
  destruct (pd_EntryType (deref (heap_of s) e)) eqn:Ht.
  1: { injection Hrun as _ <-. rewrite Hfee, Hbal by done. split; [done|split; [done|]].
    apply rewritten_same. intros p [-> Hna]. by rewrite Ht in Hna. }
  4: { destruct (processFeeUpdate_exact e s He Ht) as (s1 & H1 & Hst). rewrite Hbal by done.
    rewrite (M_bind_run _ _ _ _ _ H1) in Hrun. by injection Hrun as _ <-. }
  all: rewrite Hfee by done; eapply removal_exact; [done|by rewrite Ht|exact Hrun].
Qed.
(** The loops. *)
Definition on_removals (h : heap) (es : list ptr) (p : ptr) : Prop := p ∈ es /\ pd_EntryType (deref h p) <> Add.
#[export] Instance on_removals_dec h es p : Decision (on_removals h es p).
Proof. unfold on_removals. apply _. Defined.

Lemma fold_agree {A} (f : heap -> A -> ptr -> A) (h h' : heap) es a :
  (forall a p, p ∈ es -> f h' a p = f h a p) -> foldl (f h') a es = foldl (f h) a es.
Proof.
  revert a. induction es as [|e es IH]; intros a Hf; [done|]. cbn. rewrite (Hf a e) by (by left).
  apply IH. intros b p Hp. apply Hf. by right.
Qed.

Lemma eval_removals_exact own es skip s skip' s' : NoDup es -> (forall p, p ∈ es -> p < length (heap_of s))%nat ->
  eval_removals n rc mutate own es skip s = (Ok skip', s') ->
  let h := heap_of s in
  stepped (foldl (credit_of own h) (ev_bal s) es) (foldl (fee_of h) (ev_feePerKw s) es) (on_removals h es) s s'.
Proof.
  revert skip s. induction es as [|e es IH]; intros skip s Hnd Hal Hrun h; cbn in Hrun.
  { injection Hrun as _ <-. split; [done|split; [done|]]. apply rewritten_same. intros p [Hp _]. by apply not_elem_of_nil in Hp. }
  apply list.NoDup_cons in Hnd as [Hni Hnd]. apply M_bind_Ok in Hrun as (skip1 & s1 & H1 & Hrun).
  apply eval_removal_exact in H1 as (B1 & F1 & L1 & R1); [|apply Hal; by left].
  destruct (IH skip1 s1 Hnd) as (B2 & F2 & L2 & R2); [|done|].
  { intros p Hp. rewrite L1. apply Hal. by right. }
  assert (Hsame : forall p, p ∈ es -> deref (heap_of s1) p = deref h p).
  { intros p Hp. rewrite R1, decide_False; [done|]. by intros [-> _]. }
  cbn [foldl]. split; [|split; [|split; [by rewrite L2, L1|]]].
  - rewrite B2, B1. apply (fold_agree (credit_of own)). intros b p Hp. unfold credit_of. by rewrite Hsame.
  - rewrite F2, F1. apply (fold_agree fee_of). intros b p Hp. unfold fee_of. by rewrite Hsame.
  - intros p. rewrite R2. fold h.
    destruct (decide (on_removals (heap_of s1) es p)) as [[Hp Ha]|D].
    + rewrite (Hsame p Hp) in *. rewrite decide_True; [done|]. split; [by right|done].
    + rewrite R1. fold h. destruct (decide (at_removal h e p)) as [[-> Ha]|D'].
      * rewrite decide_True; [done|]. split; [by left|done].
      * rewrite decide_False; [done|]. intros [[->|Hp]%elem_of_cons Ha]; [by apply D'|].
        apply D. split; [done|]. by rewrite (Hsame p Hp).
Qed.

Definition kept_in (h : heap) (skip : gset Z) (es : list ptr) (p : ptr) : Prop := p ∈ filter (kept h skip) es.
#[export] Instance kept_in_dec h skip es p : Decision (kept_in h skip es p).
Proof. unfold kept_in. apply _. Defined.

Lemma processAddEntry_exact incoming e s : (e < length (heap_of s))%nat ->
  pd_EntryType (deref (heap_of s) e) = Add ->
  exists s', processAddEntry n rc mutate incoming e s = (Ok tt, s') /\
    stepped (debit_of incoming (heap_of s) (ev_bal s) e) (ev_feePerKw s) (fun p => p = e) s s'.
Proof.
  intros He Ht.
  assert (Hrec : recorded (deref (heap_of s) e) = if addHeight rc (deref (heap_of s) e) =? 0
    then set_addHeight rc n (deref (heap_of s) e) else deref (heap_of s) e).
  { unfold recorded. by rewrite Ht. }
  unfold processAddEntry, ev_read, when, ev_write, debit_of, debited.
  unfold mbind, M_bind, gets, modify, mret, M_ret. cbn.
  destruct (addHeight rc _ =? 0) eqn:Hz; cbn.
  - destruct mutate eqn:Hm; cbn; eexists; (split; [reflexivity|]); (split; [by destruct incoming|split; [done|]]); cbn.
    + apply rewritten_write; [done|by rewrite Hrec|done|done].
    + apply rewritten_same. intros p _. unfold record_if. by rewrite Hm.
  - eexists. split; [reflexivity|]. split; [done|split; [done|]]. apply rewritten_same.
    intros p ->. unfold record_if. by destruct mutate.
Qed.

Lemma eval_adds_exact incoming skip es s l s' : NoDup es -> (forall p, p ∈ es -> p < length (heap_of s))%nat ->
  eval_adds n rc mutate incoming skip es s = (Ok l, s') ->
  let h := heap_of s in
  l = filter (kept h skip) es /\
  stepped (foldl (debit_of incoming h) (ev_bal s) l) (ev_feePerKw s) (kept_in h skip es) s s'.
Proof.
  revert s l. induction es as [|e es IH]; intros s l Hnd Hal Hrun h.
  { cbn in Hrun. injection Hrun as <- <-. split; [done|]. split; [done|split; [done|]]. apply rewritten_same.
    intros p Hp. by apply not_elem_of_nil in Hp. }
  apply list.NoDup_cons in Hnd as [Hni Hnd]. cbn [eval_adds] in Hrun.
  rewrite (M_bind_run (ev_read e) _ s (deref h e) s eq_refl) in Hrun. rewrite filter_cons.
  assert (Hcond : negb (bool_decide (pd_EntryType (deref h e) = Add)) ||
    bool_decide (pd_HtlcIndex (deref h e) ∈ skip) = negb (bool_decide (kept h skip e))).
  { unfold kept. repeat case_bool_decide; naive_solver. }
  rewrite Hcond in Hrun. destruct (decide (kept h skip e)) as [Hk|Hk].
  - rewrite bool_decide_eq_true_2 in Hrun by done. cbn [negb] in Hrun. destruct Hk as [Ha Hs].
    destruct (processAddEntry_exact incoming e s) as (s1 & H1 & B1 & F1 & L1 & R1); [apply Hal; by left|done|].
    rewrite (M_bind_run _ _ _ _ _ H1) in Hrun. apply M_bind_Ok in Hrun as (rest & s2 & H2 & Hrun).
    injection Hrun as <- <-. destruct (IH s1 rest Hnd) as (E2 & B2 & F2 & L2 & R2); [|done|].
    { intros p Hp. rewrite L1. apply Hal. by right. }
    assert (Hsame : forall p, p ∈ es -> deref (heap_of s1) p = deref h p).
    { intros p Hp. rewrite R1, decide_False; [done|]. by intros ->. }
    assert (Hf : filter (kept (heap_of s1) skip) es = filter (kept h skip) es).
    { apply Prelude.filter_ext_in. intros p Hp. unfold kept. by rewrite Hsame. }
    rewrite Hf in E2. subst rest. split; [done|]. split; [|split; [by rewrite F2|split; [by rewrite L2, L1|]]].
    + rewrite B2, B1. cbn [foldl]. apply (fold_agree (debit_of incoming)).
      intros b p [_ Hp]%list_elem_of_filter. unfold debit_of. by rewrite Hsame.
    + assert (Hiff : forall p, kept_in h skip (e :: es) p <-> p = e \/ kept_in (heap_of s1) skip es p).
      { intros p. unfold kept_in. rewrite Hf, filter_cons, decide_True by done. apply elem_of_cons. }
      intros p. rewrite R2. fold h. destruct (decide (kept_in (heap_of s1) skip es p)) as [D|D].
      * rewrite decide_True by (apply Hiff; by right). rewrite Hsame; [done|].
        unfold kept_in in D. by apply list_elem_of_filter in D as [_ ?].
      * rewrite R1. fold h. destruct (decide (p = e)) as [->|Hne].
        -- rewrite decide_True; [done|apply Hiff; by left].
        -- rewrite decide_False; [done|]. by intros [?|?]%Hiff.
  - rewrite bool_decide_eq_false_2 in Hrun by done. cbn [negb] in Hrun.
    destruct (IH s l Hnd) as (E2 & B2 & F2 & L2 & R2); [intros p Hp; apply Hal; by right|done|].
    split; [done|]. split; [done|split; [done|split; [done|]]]. intros p. rewrite R2. fold h.
    assert (Hiff : kept_in h skip (e :: es) p <-> kept_in h skip es p).
    { unfold kept_in. by rewrite filter_cons, decide_False. }
    destruct (decide (kept_in h skip es p)) as [D|D].
    + by rewrite decide_True by by apply Hiff.
    + by rewrite decide_False by by rewrite Hiff.
Qed.
End Exact.

(** ** The reference *)
Section Reference.
Context `{CurveOps}.

(** The HTLCs the removals of a log name, and the HTLCs that stay. *)
Definition removed_ids (h : heap) (rs : list ptr) : gset Z :=
  list_to_set ((fun p => pd_ParentIndex (deref h p)) <$>
    filter (fun p => is_removal (pd_EntryType (deref h p)) = true) rs).

Definition active (h : heap) (as_ rs : list ptr) : list ptr := filter (kept h (removed_ids h rs)) as_.

Lemma elem_of_removed_ids h rs i : i ∈ removed_ids h rs <->
  exists r, r ∈ rs /\ is_removal (pd_EntryType (deref h r)) = true /\ pd_ParentIndex (deref h r) = i.
Proof.
  unfold removed_ids. rewrite elem_of_list_to_set, list_elem_of_fmap. setoid_rewrite list_elem_of_filter. naive_solver.
Qed.

(** Balances and fee rate of the view. *)
Definition ref_fee (rc : bool) (h : heap) (ours theirs : list ptr) (fee : Z) : Z :=
  foldl (fee_of rc h) (foldl (fee_of rc h) fee ours) theirs.

Definition ref_balances (rc : bool) (lc : LightningChannel) (ours theirs : list ptr) (b : balances) : balances :=
  let h := lc_heap lc in
  let b := foldl (credit_of rc true h) b ours in
  let b := foldl (credit_of rc false h) b theirs in
  let b := foldl (debit_of rc false h) b (active h ours theirs) in
  let b := foldl (debit_of rc true h) b (active h theirs ours) in
  if BtcAssetId <? ChanAssetID (channelState lc) then
    let cap := asset_view_balance lc (active h theirs ours) in
    b <| ourBtc := cap |> <| theirBtc := cap |>
  else b.

Definition ref_view (rc : bool) (h : heap) (ours theirs : list ptr) (fee : Z) : htlcView :=
  mkHtlcView (active h ours theirs) (active h theirs ours) (ref_fee rc h ours theirs fee).

Lemma touched_rest T lc lc' : touched T lc lc' ->
  lc_BtcCapacity lc' = lc_BtcCapacity lc /\ ChanAssetID (channelState lc') = ChanAssetID (channelState lc).
Proof. intros Ht. rewrite (to_rest _ _ _ Ht). split; [done|]. cbn. by rewrite (to_totals _ _ _ Ht). Qed.

(** An add of the view that is skipped is on the chain already: its parent was
    found there. *)
Lemma skipped_recorded n rc mutate lc own rs a i : lc_logs_ok lc ->
  (forall p, p ∈ rs -> is_removal (pd_EntryType (deref (lc_heap lc) p)) = true ->
     exists q, parent_of lc own p q /\ (pd_EntryType (deref (lc_heap lc) q) = Add ->
       addHeight rc (deref (lc_heap lc) q) <> 0)) ->
  a ∈ below (lc_heap lc) i (log_of lc own) -> pd_EntryType (deref (lc_heap lc) a) = Add ->
  pd_HtlcIndex (deref (lc_heap lc) a) ∈ removed_ids (lc_heap lc) rs ->
  record_if n rc mutate (deref (lc_heap lc) a) = deref (lc_heap lc) a.
Proof.
  intros Hok Hpar [Ha _]%elem_of_below Ht (r & Hr & Hrm & Hi)%elem_of_removed_ids.
  destruct (Hpar r Hr Hrm) as (q & [_ Hq] & Hah). pose proof (log_wf_of lc own Hok) as Hw.
  assert (q = a) as ->.
  { pose proof (proj2 (lw_htlc _ _ Hw _ a) (conj Ha (conj Ht eq_refl))) as Hla. rewrite <- Hi in Hla.
    unfold lookupHtlc in Hq. congruence. }
  unfold record_if, recorded. rewrite Ht, (proj2 (Z.eqb_neq _ _) (Hah Ht)). by destruct mutate.
Qed.
Lemma recorded_core n rc mutate pd : pd_core (record_if n rc mutate pd) = pd_core pd.
Proof.
  unfold record_if, recorded. destruct mutate; [|done].
  destruct (pd_EntryType pd), (addHeight rc pd =? 0), (removeHeight rc pd =? 0);
    by rewrite ?core_set_remove, ?core_set_add.
Qed.

Lemma recorded_type n rc mutate pd : pd_EntryType (record_if n rc mutate pd) = pd_EntryType pd.
Proof. by destruct (core_fields _ _ (recorded_core n rc mutate pd)) as (-> & _). Qed.

(** The heap of each loop in terms of the one before it. *)
Lemma loops_heap n rc mutate (h h1 h2 h3 h4 : heap) (ours theirs l3 l4 : list ptr) :
  (forall p, p ∈ ours -> p ∈ theirs -> False) ->
  (forall p, p ∈ l3 -> p ∈ ours /\ pd_EntryType (deref h p) = Add) ->
  (forall p, p ∈ l4 -> p ∈ theirs /\ pd_EntryType (deref h p) = Add) ->
  (forall p, p ∈ ours -> pd_EntryType (deref h p) = Add -> p ∈ l3 \/ record_if n rc mutate (deref h p) = deref h p) ->
  (forall p, p ∈ theirs -> pd_EntryType (deref h p) = Add -> p ∈ l4 \/ record_if n rc mutate (deref h p) = deref h p) ->
  (forall p, deref h1 p = if decide (on_removals h ours p) then record_if n rc mutate (deref h p) else deref h p) ->
  (forall p, deref h2 p = if decide (on_removals h1 theirs p) then record_if n rc mutate (deref h1 p) else deref h1 p) ->
  (forall p, deref h3 p = if decide (p ∈ l3) then record_if n rc mutate (deref h2 p) else deref h2 p) ->
  (forall p, deref h4 p = if decide (p ∈ l4) then record_if n rc mutate (deref h3 p) else deref h3 p) ->
  forall p, deref h4 p = if decide (p ∈ ours ++ theirs) then record_if n rc mutate (deref h p) else deref h p.
Proof.
  intros Hdis Hl3 Hl4 Hk3 Hk4 R1 R2 R3 R4 p.
  assert (T1 : forall q, pd_EntryType (deref h1 q) = pd_EntryType (deref h q)).
  { intros q. rewrite R1. case_decide; [apply recorded_type|done]. }
  rewrite R4, R3, R2, R1.
  destruct (decide (p ∈ ours)) as [Ho|Ho]; [|destruct (decide (p ∈ theirs)) as [Ht|Ht]].
  - assert (Hn4 : p ∉ l4) by (intros Hp; apply (Hdis p Ho), (Hl4 p Hp)).
    rewrite (decide_False (P := p ∈ l4)) by done. rewrite (decide_True (P := p ∈ ours ++ theirs)) by (apply elem_of_app; by left).
    rewrite (decide_False (P := on_removals h1 theirs p)) by (intros [Hp _]; by apply (Hdis p)).
    destruct (decide (pd_EntryType (deref h p) = Add)) as [Ha|Ha].
    + rewrite (decide_False (P := on_removals h ours p)) by (intros [_ Hp]; done).
      destruct (decide (p ∈ l3)); [done|]. destruct (Hk3 p Ho Ha) as [?|E]; [done|by rewrite E].
    + rewrite (decide_False (P := p ∈ l3)) by (intros Hp; by apply Ha, Hl3).
      by rewrite (decide_True (P := on_removals h ours p)).
  - assert (Hn3 : p ∉ l3) by (intros Hp; by apply Ho, Hl3).
    rewrite (decide_False (P := p ∈ l3)) by done. rewrite (decide_True (P := p ∈ ours ++ theirs)) by (apply elem_of_app; by right).
    rewrite (decide_False (P := on_removals h ours p)) by (intros [Hp _]; done).
    destruct (decide (pd_EntryType (deref h p) = Add)) as [Ha|Ha].
    + rewrite (decide_False (P := on_removals h1 theirs p)) by (intros [_ Hp]; by rewrite T1 in Hp).
      destruct (decide (p ∈ l4)); [done|]. destruct (Hk4 p Ht Ha) as [?|E]; [done|by rewrite E].
    + rewrite (decide_False (P := p ∈ l4)) by (intros Hp; by apply Ha, Hl4).
      rewrite (decide_True (P := on_removals h1 theirs p)); [done|]. split; [done|by rewrite T1].
  - rewrite (decide_False (P := p ∈ l4)) by (intros Hp; by apply Ht, Hl4).
    rewrite (decide_False (P := p ∈ l3)) by (intros Hp; by apply Ho, Hl3).
    rewrite (decide_False (P := on_removals h1 theirs p)) by (intros [Hp _]; done).
    rewrite (decide_False (P := on_removals h ours p)) by (intros [Hp _]; done).
    rewrite decide_False; [done|]. by intros [?|?]%elem_of_app.
Qed.
(** The four loops on two disjoint lists, the skip sets as the reference has
    them and the skipped adds on the chain already. *)
Lemma loops_exact n rc mutate (ours theirs : list ptr) s0 s1 s2 s3 s4 l3 l4 :
  let h := lc_heap (ev_lc s0) in
  NoDup ours -> NoDup theirs -> (forall p, p ∈ ours -> p ∈ theirs -> False) ->
  (forall p, p ∈ ours -> (p < length h)%nat) -> (forall p, p ∈ theirs -> (p < length h)%nat) ->
  (forall p, p ∈ ours -> pd_EntryType (deref h p) = Add -> pd_HtlcIndex (deref h p) ∈ removed_ids h theirs ->
     record_if n rc mutate (deref h p) = deref h p) ->
  (forall p, p ∈ theirs -> pd_EntryType (deref h p) = Add -> pd_HtlcIndex (deref h p) ∈ removed_ids h ours ->
     record_if n rc mutate (deref h p) = deref h p) ->
  l3 = active h ours theirs -> l4 = active h theirs ours ->
  eval_removals n rc mutate true ours ∅ s0 = (Ok (removed_ids h ours), s1) ->
  eval_removals n rc mutate false theirs ∅ s1 = (Ok (removed_ids h theirs), s2) ->
  eval_adds n rc mutate false (removed_ids h theirs) ours s2 = (Ok l3, s3) ->
  eval_adds n rc mutate true (removed_ids h ours) theirs s3 = (Ok l4, s4) ->
  ev_bal s4 = foldl (debit_of rc true h) (foldl (debit_of rc false h)
    (foldl (credit_of rc false h) (foldl (credit_of rc true h) (ev_bal s0) ours) theirs) l3) l4 /\
  ev_feePerKw s4 = ref_fee rc h ours theirs (ev_feePerKw s0) /\
  forall p, deref (lc_heap (ev_lc s4)) p = if decide (p ∈ ours ++ theirs) then record_if n rc mutate (deref h p) else deref h p.
Proof.
  intros h Ndo Ndt Hdis Alo Alt Sk3 Sk4 L3 L4 E1 E2 E3 E4.
  destruct (eval_removals_exact n rc mutate true ours ∅ s0 _ s1 Ndo Alo E1) as (B1 & F1 & Len1 & R1).
  destruct (eval_removals_exact n rc mutate false theirs ∅ s1 _ s2 Ndt
    ltac:(intros p Hp; rewrite Len1; by apply Alt) E2) as (B2 & F2 & Len2 & R2).
  destruct (eval_adds_exact n rc mutate false (removed_ids h theirs) ours s2 l3 s3 Ndo
    ltac:(intros p Hp; rewrite Len2, Len1; by apply Alo) E3) as (M3 & B3 & F3 & Len3 & R3).
  destruct (eval_adds_exact n rc mutate true (removed_ids h ours) theirs s3 l4 s4 Ndt
    ltac:(intros p Hp; rewrite Len3, Len2, Len1; by apply Alt) E4) as (M4 & B4 & F4 & Len4 & R4).
  fold h in R1, B1, F1. set (h1 := lc_heap (ev_lc s1)) in *. set (h2 := lc_heap (ev_lc s2)) in *. set (h3 := lc_heap (ev_lc s3)) in *.
  assert (R3' : forall p, deref h3 p = if decide (p ∈ l3) then record_if n rc mutate (deref h2 p) else deref h2 p).
  { intros p. rewrite R3. apply decide_ext. by rewrite M3. }
  assert (R4' : forall p, deref (lc_heap (ev_lc s4)) p = if decide (p ∈ l4) then record_if n rc mutate (deref h3 p) else deref h3 p).
  { intros p. rewrite R4. apply decide_ext. by rewrite M4. }
  assert (In3 : forall p, p ∈ l3 -> p ∈ ours /\ pd_EntryType (deref h p) = Add).
  { intros p. rewrite L3. by intros [[? _] ?]%list_elem_of_filter. }
  assert (In4 : forall p, p ∈ l4 -> p ∈ theirs /\ pd_EntryType (deref h p) = Add).
  { intros p. rewrite L4. by intros [[? _] ?]%list_elem_of_filter. }
  assert (Hin : forall rs es p, p ∈ es -> pd_EntryType (deref h p) = Add ->
    p ∈ active h es rs \/ pd_HtlcIndex (deref h p) ∈ removed_ids h rs).
  { intros rs es p Hp Ha. destruct (decide (pd_HtlcIndex (deref h p) ∈ removed_ids h rs)); [by right|left].
    by apply list_elem_of_filter. }
  assert (A1 : forall p, p ∈ theirs \/ pd_EntryType (deref h p) = Add -> deref h1 p = deref h p).
  { intros p Hp. rewrite R1, decide_False; [done|]. intros [Ho Hna]. destruct Hp; [by apply (Hdis p)|done]. }
  assert (A2 : forall p, pd_EntryType (deref h p) = Add -> deref h2 p = deref h p).
  { intros p Hp. rewrite R2, A1 by (by right). rewrite decide_False; [done|]. intros [_ Hna]. by rewrite A1 in Hna by (by right). }
  split; [|split].
  - rewrite B4, B3, B2, B1.
    rewrite (fold_agree (credit_of rc false) h) by (intros c p Hp; unfold credit_of; by rewrite A1 by (by left)).
    rewrite (fold_agree (debit_of rc false) h _ l3) by (intros c p Hp; unfold debit_of; rewrite A2; [done|by apply In3]).
    apply (fold_agree (debit_of rc true)). intros c p Hp. destruct (In4 p Hp) as [Ht Ha]. unfold debit_of.
    rewrite R3', A2, decide_False; [done| |done]. intros [Ho _]%In3. by apply (Hdis p).
  - rewrite F4, F3, F2, F1. apply (fold_agree (fee_of rc)). intros c p Hp. unfold fee_of. by rewrite A1 by (by left).
  - apply (loops_heap n rc mutate h h1 h2 h3 _ ours theirs l3 l4 Hdis In3 In4); try assumption.
    + intros p Hp Ha. rewrite L3. destruct (Hin theirs ours p Hp Ha); [by left|right; by apply Sk3].
    + intros p Hp Ha. rewrite L4. destruct (Hin ours theirs p Hp Ha); [by left|right; by apply Sk4].
Qed.

(** Evaluating the view of well-formed logs. *)
Lemma evaluate_exact n rc mutate lc b i j fee v s' : lc_logs_ok lc ->
  let h := lc_heap lc in
  let ours := below h i (localUpdateLog lc) in
  let theirs := below h j (remoteUpdateLog lc) in
  evaluateHTLCView n rc mutate (mkHtlcView ours theirs fee) (mkEval lc b 0) = (Ok v, s') ->
  v = ref_view rc h ours theirs fee /\ ev_bal s' = ref_balances rc lc ours theirs b /\
  forall p, deref (lc_heap (ev_lc s')) p = if decide (p ∈ ours ++ theirs) then record_if n rc mutate (deref h p) else deref h p.
Proof.
  intros Hok h ours theirs Hrun. unfold evaluateHTLCView in Hrun. cbn [ourUpdates theirUpdates] in Hrun.
  rewrite (M_bind_run (modify _) _ _ tt _ eq_refl) in Hrun.
  set (s0 := mkEval lc b 0 <| ev_feePerKw := _ |>) in Hrun.
  apply M_bind_Ok in Hrun as (skipThem & s1 & E1 & Hrun). apply M_bind_Ok in Hrun as (skipUs & s2 & E2 & Hrun).
  apply M_bind_Ok in Hrun as (l3 & s3 & E3 & Hrun). apply M_bind_Ok in Hrun as (l4 & s4 & E4 & Hrun).
  pose proof (log_wf_of lc false Hok) as Hwo. pose proof (log_wf_of lc true Hok) as Hwt.
  assert (Hdis : forall p, p ∈ ours -> p ∈ theirs -> False).
  { intros p [Hp _]%elem_of_below [Hp' _]%elem_of_below. by apply (lo_disjoint _ _ _ (lk_logs _ Hok) p). }
  pose proof (NoDup_below h i _ (lw_nodup _ _ Hwo) : NoDup ours) as Ndo.
  pose proof (NoDup_below h j _ (lw_nodup _ _ Hwt) : NoDup theirs) as Ndt.
  destruct (eval_loops n rc mutate (fun _ => 0) (fun _ => 0) ours theirs s0 _ _ _ _ _ _ _ _ (fun _ _ _ => eq_refl)
    (fun _ _ => eqw_of_eq _ _ _ eq_refl) (fun _ _ => eqw_of_eq _ _ _ eq_refl) (fun _ _ => eqw_of_eq _ _ _ eq_refl)
    (fun _ _ => eqw_of_eq _ _ _ eq_refl) Ndo Ndt Hdis E1 E2 E3 E4) as (L3 & L4 & _ & S1 & S2 & P1 & P2).
  assert (skipThem = removed_ids h ours) as ->.
  { apply set_eq. intros x. rewrite elem_of_removed_ids. apply (skip_indexes lc ours true skipThem Hok S1).
    intros p Hp Hr. destruct (P1 p Hp Hr) as (q & Hq & _). by exists q. }
  assert (skipUs = removed_ids h theirs) as ->.
  { apply set_eq. intros x. rewrite elem_of_removed_ids. apply (skip_indexes lc theirs false skipUs Hok S2).
    intros p Hp Hr. destruct (P2 p Hp Hr) as (q & Hq & _). by exists q. }
  destruct (loops_exact n rc mutate ours theirs s0 s1 s2 s3 s4 l3 l4 Ndo Ndt Hdis
    ltac:(intros p [Hp _]%elem_of_below; by apply (lw_alloc _ _ Hwo))
    ltac:(intros p [Hp _]%elem_of_below; by apply (lw_alloc _ _ Hwt))
    (fun p Hp Ha Hs => skipped_recorded n rc mutate lc false theirs p i Hok P2 Hp Ha Hs)
    (fun p Hp Ha Hs => skipped_recorded n rc mutate lc true ours p j Hok P1 Hp Ha Hs) L3 L4 E1 E2 E3 E4) as (Bal & Fee & Heap).
  destruct (evaluate_frame n rc mutate (mkHtlcView ours theirs fee) (mkEval lc b 0) (Ok v) s') as [Ht _].
  { unfold evaluateHTLCView. rewrite (M_bind_run (modify _) _ _ tt s0 eq_refl). cbn [ourUpdates theirUpdates].
    by rewrite (M_bind_run _ _ _ _ _ E1), (M_bind_run _ _ _ _ _ E2), (M_bind_run _ _ _ _ _ E3), (M_bind_run _ _ _ _ _ E4). }
  destruct (touched_rest _ _ _ Ht) as [Hcap Hid]. cbn in Hcap, Hid.
  unfold mbind, M_bind, gets, when, modify, mret, M_ret in Hrun. cbn in Hrun.
  assert (Hs : ev_lc s' = ev_lc s4) by (destruct (BtcAssetId <? _); by injection Hrun as _ <-).
  rewrite Hs in Hcap, Hid |- *. rewrite Hid in Hrun. unfold ref_balances, ref_view. fold h.
  change (lc_heap (ev_lc s0)) with h in L3, L4, Bal, Fee, Heap. fold (active h ours theirs) in L3. fold (active h theirs ours) in L4.
  rewrite <- L3, <- L4. change (ev_bal s0) with b in Bal. change (ev_feePerKw s0) with fee in Fee.
  rewrite <- Bal, <- Fee.
  destruct (BtcAssetId <? ChanAssetID (channelState lc)); injection Hrun as <- <-; (split; [done|split; [|exact Heap]]); [|done].
  cbn. unfold asset_view_balance. by rewrite Hcap.
Qed.
(** The weight of the commitment of a view. *)
Definition view_weight (rc : bool) (lc : LightningChannel) (v : htlcView) : Z :=
  i64 (CommitWeight (ChanType (channelState lc)) +
       i64 (htlc_weight lc rc false (v_feePerKw v) (ourUpdates v) + htlc_weight lc rc true (v_feePerKw v) (theirUpdates v))).

Lemma dust_core cs incoming ours fee a b : pd_core a = pd_core b ->
  htlc_is_dust cs incoming ours fee a = htlc_is_dust cs incoming ours fee b.
Proof. intros E. destruct (core_fields _ _ E) as (_ & _ & _ & _ & EB & _ & EA). unfold htlc_is_dust. by rewrite EB, EA. Qed.

Lemma view_weight_touched T rc lc lc' v : touched T lc lc' -> view_weight rc lc' v = view_weight rc lc v.
Proof.
  intros Ht. assert (Hcs : forall inc ours fee pd, htlc_is_dust (channelState lc') inc ours fee pd =
    htlc_is_dust (channelState lc) inc ours fee pd) by (intros; by rewrite (to_totals _ _ _ Ht)).
  assert (Hw : forall inc fee ps, htlc_weight lc' rc inc fee ps = htlc_weight lc rc inc fee ps).
  { intros inc fee ps. unfold htlc_weight. do 3 f_equal. apply Prelude.filter_ext_in. intros p _.
    by rewrite Hcs, (dust_core _ _ _ _ _ _ (to_core _ _ _ Ht p)). }
  unfold view_weight. rewrite !Hw. by rewrite (to_totals _ _ _ Ht).
Qed.

Lemma computeView_exact lc rc upd i j bal w v lc' : lc_logs_ok lc ->
  computeView (fetchHTLCView lc j i) rc upd lc = (Ok (bal, w, v), lc') ->
  let h := lc_heap lc in
  let ours := below h i (localUpdateLog lc) in
  let theirs := below h j (remoteUpdateLog lc) in
  exists c, tip (commit_chain lc rc) = Ok c /\
    v = ref_view rc h ours theirs (c_feePerKw c) /\
    bal = ref_balances rc lc ours theirs (start_balances (IsInitiator (channelState lc)) c) /\
    w = view_weight rc lc v /\
    touched (fun q => q ∈ ours ++ theirs) lc lc' /\
    forall p, deref (lc_heap lc') p =
      if decide (p ∈ ours ++ theirs) then record_if (u64 (c_height c + 1)) rc upd (deref h p) else deref h p.
Proof.
  intros Hok Hrun h ours theirs. pose proof (proj1 (computeView_frame (fetchHTLCView lc j i) rc upd lc)) as Ht.
  rewrite Hrun in Ht. cbn [snd ourUpdates theirUpdates fetchHTLCView] in Ht.
  destruct (computeView_Ok _ _ _ _ _ _ _ _ Hrun) as (c & s' & Htip & Hev & -> & -> & ->).
  cbn [ourUpdates theirUpdates fetchHTLCView] in Hev.
  destruct (evaluate_exact _ rc upd lc _ i j _ _ _ Hok Hev) as (-> & -> & Hh).
  exists c. do 3 (split; [done|]). split; [by rewrite <- (view_weight_touched _ _ _ _ _ Ht)|]. done.
Qed.
End Reference.
