(* ===== verification/Dance.v ===== *)
(** * The commitment dance, from state to state

    The invariant of a channel while both sides add, sign and revoke, and that
    every method keeps it: the two chains advance one height at a time and never
    more than one commitment ahead, a commitment holds only updates the other
    side has acknowledged, its HTLCs are those the logs record for it, no coin is
    made or lost from one commitment to the next, and the channel on disk is the
    tail of both chains. *)

From S2P Require Import Prelude Wire Messages ChanIds Units Sha256 Shachain Sig Tx OmniOp Keys Scripts FwdPkg UpdateLog ChanDB Commitment Channel ChannelOps ChannelSign Views.

(** ** What a chain carries *)
Section Carried.
Context `{CurveOps}.

(** A commitment's position in the log of a side. *)
Definition c_index (own : bool) (c : commitment) : Z := if own then c_theirMessageIndex c else c_ourMessageIndex c.
Definition c_htlcIndex (own : bool) (c : commitment) : Z := if own then c_theirHtlcIndex c else c_ourHtlcIndex c.

(** The height at which the entry reached a chain, 0 if it did not. *)
Definition height (rc : bool) (pd : PaymentDescriptor) : Z :=
  if is_removal (pd_EntryType pd) then removeHeight rc pd else addHeight rc pd.
Definition on_chain (rc : bool) (pd : PaymentDescriptor) : bool := negb (height rc pd =? 0).

(** The entries of both logs recorded on the chain are exactly those below these
    indexes. *)
Definition recorded_to (rc : bool) (lc : LightningChannel) (j i : Z) : Prop :=
  forall own p, p ∈ entries (log_of lc own) ->
    on_chain rc (deref (lc_heap lc) p) = bool_decide (pd_LogIndex (deref (lc_heap lc) p) < (if own then j else i)).

(** The HTLCs a chain carries according to the logs. *)
Definition carries (rc : bool) (lc : LightningChannel) : list ptr :=
  let h := lc_heap lc in
  pending rc h (entries (localUpdateLog lc)) (entries (remoteUpdateLog lc)) ++
  pending rc h (entries (remoteUpdateLog lc)) (entries (localUpdateLog lc)).

Lemma recorded_height n rc pd : height rc (recorded n rc pd) = if height rc pd =? 0 then n else height rc pd.
Proof.
  unfold height. change (recorded n rc pd) with (record_if n rc true pd). rewrite recorded_type.
  unfold record_if, recorded.
  destruct (pd_EntryType pd), rc; cbn;
    match goal with |- context [?f pd =? 0] => destruct (Z.eqb_spec (f pd) 0) end; done.
Qed.

Lemma recorded_other n rc pd : height (negb rc) (recorded n rc pd) = height (negb rc) pd.
Proof.
  unfold height. change (recorded n rc pd) with (record_if n rc true pd). rewrite recorded_type.
  unfold record_if, recorded.
  destruct (pd_EntryType pd), rc; cbn; match goal with |- context [?f pd =? 0] => destruct (f pd =? 0) end; done.
Qed.

Lemma recorded_on n rc pd : n <> 0 -> on_chain rc (recorded n rc pd) = true.
Proof.
  intros Hn. unfold on_chain. rewrite recorded_height. apply negb_true_iff, Z.eqb_neq.
  by destruct (Z.eqb_spec (height rc pd) 0).
Qed.

(** The pending HTLCs of two lists depend on what the chain has of them. *)
Lemma pending_alt rc h as_ rs : pending rc h as_ rs =
  filter (fun a => pd_EntryType (deref h a) = Add /\ on_chain rc (deref h a) = true /\
    pd_HtlcIndex (deref h a) ∉ removed_ids h (filter (fun r => on_chain rc (deref h r) = true) rs)) as_.
Proof.
  unfold pending. apply list_filter_iff. intros a. rewrite elem_of_removed_ids.
  assert (Hg : gone rc h rs a <-> exists r, r ∈ filter (fun r => on_chain rc (deref h r) = true) rs /\
    is_removal (pd_EntryType (deref h r)) = true /\ pd_ParentIndex (deref h r) = pd_HtlcIndex (deref h a)).
  { unfold gone. rewrite Exists_exists. setoid_rewrite list_elem_of_filter. setoid_rewrite <- list_elem_of_In.
    unfold on_chain, height. split; intros (r & Hr).
    - destruct Hr as (Hr & Hm & Hi & Hn). exists r. rewrite Hm. split; [split; [|done]|done]. by apply negb_true_iff, Z.eqb_neq.
    - destruct Hr as ([Hn Hr] & Hm & Hi). exists r. rewrite Hm in Hn. split; [done|split; [done|split; [done|]]].
      by apply negb_true_iff, Z.eqb_neq in Hn. }
  rewrite Hg. assert (Ha : pd_EntryType (deref h a) = Add -> (addHeight rc (deref h a) <> 0 <-> on_chain rc (deref h a) = true)).
  { intros Ha. unfold on_chain, height. rewrite Ha. cbn. by rewrite negb_true_iff, Z.eqb_neq. }
  naive_solver.
Qed.
(** Two heaps with the same entries, but for heights, outputs and scripts. *)
Definition same_ids (h h' : heap) : Prop := forall p, pd_id (deref h' p) = pd_id (deref h p).

Lemma same_ids_fields h h' p : same_ids h h' ->
  pd_EntryType (deref h' p) = pd_EntryType (deref h p) /\ pd_LogIndex (deref h' p) = pd_LogIndex (deref h p) /\
  pd_HtlcIndex (deref h' p) = pd_HtlcIndex (deref h p) /\ pd_ParentIndex (deref h' p) = pd_ParentIndex (deref h p).
Proof. intros Hs. specialize (Hs p). unfold pd_id in Hs. by injection Hs as -> -> -> ->. Qed.

Lemma below_ids h h' i u : same_ids h h' -> below h' i u = below h i u.
Proof. intros Hs. apply Prelude.filter_ext_in. intros p _. by destruct (same_ids_fields h h' p Hs) as (_ & -> & _). Qed.

Lemma active_ids h h' (as_ rs : list ptr) : same_ids h h' -> active h' as_ rs = active h as_ rs.
Proof.
  intros Hs. assert (Hr : removed_ids h' rs = removed_ids h rs).
  { apply set_eq. intros i. rewrite !elem_of_removed_ids. f_equiv. intros r.
    by destruct (same_ids_fields h h' r Hs) as (-> & _ & _ & ->). }
  unfold active. rewrite Hr. apply Prelude.filter_ext_in. intros p _. unfold kept.
  by destruct (same_ids_fields h h' p Hs) as (-> & _ & -> & _).
Qed.

(** One side of what a chain carries, from the indexes it is recorded to. *)
Lemma pending_active rc lc j i j' i' own : recorded_to rc lc j i -> j <= j' -> i <= i' ->
  let h := lc_heap lc in
  let cut (own : bool) := below h (if own then j else i) (log_of lc own) in
  let cut' (own : bool) := below h (if own then j' else i') (log_of lc own) in
  pending rc h (cut' own) (cut' (negb own)) = active h (cut own) (cut (negb own)) /\
  pending rc h (entries (log_of lc own)) (entries (log_of lc (negb own))) = active h (cut own) (cut (negb own)).
Proof.
  intros Hr Hj Hi h cut cut'.
  assert (Hon : forall own p, p ∈ entries (log_of lc own) ->
    (on_chain rc (deref h p) = true <-> pd_LogIndex (deref h p) < (if own then j else i))).
  { intros o p Hp. unfold h. rewrite (Hr o p Hp). apply bool_decide_eq_true. }
  assert (Hcut : forall o p, p ∈ cut o <-> p ∈ entries (log_of lc o) /\ on_chain rc (deref h p) = true).
  { intros o p. unfold cut. rewrite elem_of_below. split; intros [Hp ?]; (split; [done|]); by apply (Hon o p Hp). }
  assert (Hids : forall rs : list ptr, (forall p, p ∈ rs <-> p ∈ rs /\ p ∈ entries (log_of lc (negb own))) ->
    (forall p, p ∈ cut (negb own) -> p ∈ rs) ->
    removed_ids h (filter (fun r => on_chain rc (deref h r) = true) rs) = removed_ids h (cut (negb own))).
  { intros rs Hin Hsub. apply set_eq. intros x. rewrite !elem_of_removed_ids. f_equiv. intros r.
    rewrite list_elem_of_filter, Hcut. split; [|intros [[Hp Ho] ?]; split; [split; [done|]|done]].
    - intros [[Ho [_ Hp]%Hin] ?]. done.
    - apply Hsub, Hcut. done. }
  assert (Hsub : forall p, p ∈ cut (negb own) -> p ∈ cut' (negb own)).
  { intros p. unfold cut, cut'. rewrite !elem_of_below. intros [? ?]. split; [done|]. destruct (negb own); lia. }
  split; rewrite pending_alt, Hids.
  - unfold active, cut', cut, below. rewrite !list_filter_filter. apply Prelude.filter_ext_in. intros p Hp. unfold kept.
    specialize (Hon own p Hp). destruct own; naive_solver lia.
  - intros p. unfold cut'. rewrite elem_of_below. tauto.
  - done.
  - unfold active, cut, below. rewrite list_filter_filter. apply Prelude.filter_ext_in. intros p Hp. unfold kept.
    specialize (Hon own p Hp). naive_solver.
  - tauto.
  - intros p [? _]%Hcut. done.
Qed.
Lemma carries_eq rc lc j i : recorded_to rc lc j i ->
  let ours := below (lc_heap lc) i (localUpdateLog lc) in
  let theirs := below (lc_heap lc) j (remoteUpdateLog lc) in
  carries rc lc = active (lc_heap lc) ours theirs ++ active (lc_heap lc) theirs ours.
Proof.
  intros Hr ours theirs. unfold carries.
  destruct (pending_active rc lc j i j i false Hr (Z.le_refl _) (Z.le_refl _)) as [_ E1].
  destruct (pending_active rc lc j i j i true Hr (Z.le_refl _) (Z.le_refl _)) as [_ E2].
  cbn [negb log_of] in E1, E2. by rewrite E1, E2.
Qed.

(** The HTLCs of a view that reaches past the recorded entries are those of the
    chain. *)
Lemma carried_eq rc lc j i j' i' : recorded_to rc lc j i -> j <= j' -> i <= i' -> carried rc lc j' i' = carries rc lc.
Proof.
  intros Hr Hj Hi. rewrite (carries_eq rc lc j i Hr). unfold carried. cbn [ourUpdates theirUpdates fetchHTLCView].
  destruct (pending_active rc lc j i j' i' false Hr Hj Hi) as [E1 _].
  destruct (pending_active rc lc j i j' i' true Hr Hj Hi) as [E2 _].
  cbn [negb log_of] in E1, E2. by rewrite E1, E2.
Qed.

Lemma recorded_in_view rc lc j i j' i' : recorded_to rc lc j i -> j <= j' -> i <= i' -> in_view lc rc j' i'.
Proof.
  intros Hr Hj Hi own p Hp Ht Hh. specialize (Hr own p Hp). unfold on_chain, height in Hr. rewrite Ht in Hr. cbn [is_removal] in Hr.
  rewrite (proj2 (Z.eqb_neq _ _) Hh) in Hr. symmetry in Hr. apply bool_decide_eq_true in Hr. destruct own; lia.
Qed.

(** Heaps that agree on the entries but for scripts and output indexes. *)
Lemma recorded_to_ext rc lc lc' j i : (forall own, log_of lc' own = log_of lc own) ->
  (forall own p, p ∈ entries (log_of lc own) ->
     on_chain rc (deref (lc_heap lc') p) = on_chain rc (deref (lc_heap lc) p) /\
     pd_LogIndex (deref (lc_heap lc') p) = pd_LogIndex (deref (lc_heap lc) p)) ->
  recorded_to rc lc j i -> recorded_to rc lc' j i.
Proof. intros Hl Hh Hr own p Hp. rewrite Hl in Hp. destruct (Hh own p Hp) as [-> ->]. by apply Hr. Qed.

(** Recording a view on a chain: the chain then has exactly the view, the other
    chain is as before. *)
Lemma record_view n rc lc lc' j0 i0 j i :
  let h := lc_heap lc in
  let ours := below h i (localUpdateLog lc) in
  let theirs := below h j (remoteUpdateLog lc) in
  lc_logs_ok lc -> recorded_to rc lc j0 i0 -> j0 <= j -> i0 <= i -> n <> 0 ->
  (forall own, log_of lc' own = log_of lc own) ->
  (forall p, pd_unscripted (deref (lc_heap lc') p) =
     pd_unscripted (if decide (p ∈ ours ++ theirs) then recorded n rc (deref h p) else deref h p)) ->
  recorded_to rc lc' j i /\ carries rc lc' = active h ours theirs ++ active h theirs ours /\ same_ids h (lc_heap lc') /\
  forall own p, p ∈ entries (log_of lc own) -> height (negb rc) (deref (lc_heap lc') p) = height (negb rc) (deref h p) /\
    height rc (deref (lc_heap lc') p) =
      if (pd_LogIndex (deref h p) <? (if own then j else i)) && (height rc (deref h p) =? 0) then n else height rc (deref h p).
Proof.
  intros h ours theirs Hok Hr Hj Hi Hn Hlog Hheap.
  assert (Hread : forall {X} (f : PaymentDescriptor -> X) p, (forall pd, f (pd_unscripted pd) = f pd) ->
    f (deref (lc_heap lc') p) = f (if decide (p ∈ ours ++ theirs) then recorded n rc (deref h p) else deref h p)).
  { intros X f p Hf. by rewrite <- (Hf (deref (lc_heap lc') p)), Hheap, Hf. }
  assert (Hids : same_ids h (lc_heap lc')).
  { intros p. rewrite (Hread _ pd_id p) by done. case_decide; [|done].
    destruct (core_fields _ _ (recorded_core n rc true (deref h p))) as (E1 & E2 & E3 & E4 & _).
    unfold pd_id. cbn in E1, E2, E3, E4. by rewrite E1, E2, E3, E4. }
  assert (Hview : forall own p, p ∈ entries (log_of lc own) ->
    (p ∈ ours ++ theirs <-> pd_LogIndex (deref h p) < (if own then j else i))).
  { intros own p Hp. unfold ours, theirs. rewrite elem_of_app, !elem_of_below.
    pose proof (lo_disjoint _ _ _ (lk_logs _ Hok) p) as Hd. destruct own; cbn [log_of] in Hp; naive_solver. }
  assert (Hrec : recorded_to rc lc' j i).
  { intros own p Hp. rewrite Hlog in Hp. destruct (same_ids_fields _ _ p Hids) as (_ & -> & _).
    rewrite (Hread _ (on_chain rc) p) by done. specialize (Hview own p Hp). destruct (decide (p ∈ ours ++ theirs)) as [Hin|Hin].
    - rewrite recorded_on by done. symmetry. apply bool_decide_eq_true. by apply Hview.
    - unfold h. rewrite (Hr own p Hp), !bool_decide_eq_false_2; [done|by intros Hlt; apply Hin, Hview|].
      intros Hlt. apply Hin, Hview. fold h in Hlt. destruct own; lia. }
  split; [done|]. split; [|split; [done|]].
  - pose proof (Hlog true) as E1. pose proof (Hlog false) as E2. cbn in E1, E2.
    rewrite (carries_eq rc lc' j i Hrec), E1, E2, !(below_ids _ _ _ _ Hids). by rewrite !(active_ids _ _ _ _ Hids).
  - intros own p Hp. rewrite (Hread _ (height rc) p), (Hread _ (height (negb rc)) p) by done. specialize (Hview own p Hp).
    destruct (decide (p ∈ ours ++ theirs)) as [Hin|Hin]; rewrite Hview in Hin.
    + rewrite recorded_other, recorded_height. split; [done|]. by rewrite (proj2 (Z.ltb_lt _ _) Hin).
    + split; [done|]. by rewrite (proj2 (Z.ltb_nlt _ _) Hin).
Qed.
End Carried.

(** ** What a new commitment is worth *)
Section Values.
Context `{CurveOps, !ScriptLib, !TxLib, !SigLib}.

Definition htlcs (c : commitment) : list PaymentDescriptor := outgoingHTLCs c ++ incomingHTLCs c.
Definition asset_value (c : commitment) : Z :=
  c_ourAssetBalance c + c_theirAssetBalance c + zsum (pd_AssetAmount <$> htlcs c).
Definition btc_value (c : commitment) : Z :=
  c_ourBtcBalance c + c_theirBtcBalance c + NewMSatFromSatoshis (c_fee c) + zsum (pd_BtcAmount <$> htlcs c).

(** The HTLCs of a commitment are those the logs record on the chain. *)
Definition htlcs_match (rc : bool) (lc : LightningChannel) (c : commitment) : Prop :=
  pd_money <$> htlcs c ≡ₚ (fun p => pd_money (deref (lc_heap lc) p)) <$> carries rc lc.

Lemma populate_money isOurs tx cl pos hs dups idx hs' dups' idx' :
  populate isOurs tx cl pos hs dups idx = Ok (hs', dups', idx') -> pd_money <$> hs' = pd_money <$> hs.
Proof.
  revert pos dups idx hs' dups' idx'. induction hs as [|h hs IH]; intros pos dups idx hs' dups' idx' Hrun; cbn in Hrun.
  { by injection Hrun as <- <- <-. }
  apply res_bind_Ok in Hrun as ([i d1] & _ & Hrun). apply res_bind_Ok in Hrun as ([[hs1 d2] i2] & Hp & Hrun).
  injection Hrun as <- <- <-. apply IH in Hp. rewrite !fmap_cons, Hp. f_equal. by destruct isOurs.
Qed.

(** What locating the outputs keeps. *)
Lemma populate_keeps c cl v : populateHtlcIndexes c cl = Ok v ->
  v = c <| outgoingHTLCs := outgoingHTLCs v |> <| incomingHTLCs := incomingHTLCs v |>
        <| outgoingHTLCIndex := outgoingHTLCIndex v |> <| incomingHTLCIndex := incomingHTLCIndex v |> /\
  pd_money <$> htlcs v = pd_money <$> htlcs c.
Proof.
  unfold populateHtlcIndexes. intros Hrun. apply res_bind_Ok in Hrun as ([[o1 d1] i1] & P1 & Hrun).
  apply res_bind_Ok in Hrun as ([[o2 d2] i2] & P2 & Hrun). injection Hrun as <-. split; [done|].
  unfold htlcs. cbn. rewrite !fmap_app. by rewrite (populate_money _ _ _ _ _ _ _ _ _ _ P1), (populate_money _ _ _ _ _ _ _ _ _ _ P2).
Qed.

Lemma createUnsigned_values cs obf a b d e isOurs fee height view kr h u h' :
  createUnsignedCommitmentTx cs obf a b d e isOurs fee height view kr h = (Ok u, h') ->
  let n := count_htlcs cs isOurs fee h view in
  u_fee u = commit_fee (ChanType cs) fee n /\
  (u_ourBtcBalance u, u_theirBtcBalance u) = btc_balances cs a b d e (u_fee u) n /\
  u_ourAssetBalance u = d /\ u_theirAssetBalance u = e /\ height <= maxStateHint.
Proof.
  intros Hrun n. unfold createUnsignedCommitmentTx in Hrun.
  rewrite (M_bind_run (gets (fun h => count_htlcs cs isOurs fee h view)) _ h n h eq_refl) in Hrun. cbn zeta in Hrun.
  destruct (btc_balances cs a b d e _ n) as [o t] eqn:Hb.
  apply M_bind_Ok in Hrun as ([tx op] & h1 & _ & Hrun).
  apply M_bind_Ok in Hrun as ([[tx1 op1] cl1] & h2 & _ & Hrun).
  apply M_bind_Ok in Hrun as ([[tx2 op2] cl2] & h3 & _ & Hrun).
  apply M_bind_Ok in Hrun as ([tx3 cl3] & h4 & Hfin & Hrun). unfold lift in Hfin. injection Hfin as Hfin _.
  injection Hrun as <- _. cbn. do 4 (split; [done|]).
  apply res_bind_Ok in Hfin as (tx4 & Hhint & _). unfold SetStateNumHint in Hhint.
  destruct (Z.ltb_spec maxStateHint height); [done|lia].
Qed.

(** A new commitment, taken apart. *)
Lemma fetch_inv rc i ih j jh kr lc v lc' : fetchCommitmentView rc i ih j jh kr lc = (Ok v, lc') ->
  exists t bal w flt l2 u h3, tip (commit_chain lc rc) = Ok t /\
    computeView (fetchHTLCView lc j i) rc true lc = (Ok (bal, w, flt), l2) /\
    createUnsignedCommitmentTx (channelState l2) (obfuscator l2) (ourBtc bal) (theirBtc bal) (ourAsset bal) (theirAsset bal)
      (negb rc) (v_feePerKw flt) (u64 (c_height t + 1)) flt kr (lc_heap l2) = (Ok u, h3) /\
    lc' = l2 <| lc_heap := h3 |> /\ u64 (c_height t + 1) <= maxStateHint /\
    c_height v = u64 (c_height t + 1) /\ c_isOurs v = negb rc /\ c_feePerKw v = v_feePerKw flt /\ c_fee v = u_fee u /\
    (c_ourBtcBalance v, c_theirBtcBalance v) = (u_ourBtcBalance u, u_theirBtcBalance u) /\
    (c_ourAssetBalance v, c_theirAssetBalance v) = (ourAsset bal, theirAsset bal) /\
    (forall own, c_index own v = if own then j else i) /\ (forall own, c_htlcIndex own v = if own then jh else ih) /\
    pd_money <$> htlcs v = (fun p => pd_money (deref h3 p)) <$> (ourUpdates flt ++ theirUpdates flt).
Proof.
  unfold fetchCommitmentView. intros Hrun. apply M_bind_Ok in Hrun as (t & l1 & Ht & Hrun). rewrite tipM_run in Ht.
  destruct (tip (commit_chain lc rc)) as [t0| |]; try done. injection Ht as -> ->.
  rewrite (M_bind_run (gets (fun lc => fetchHTLCView lc j i)) _ l1 (fetchHTLCView l1 j i) l1 eq_refl) in Hrun.
  apply M_bind_Ok in Hrun as ([[bal w] flt] & l2 & Hc & Hrun).
  rewrite (M_bind_run (gets channelState) _ l2 (channelState l2) l2 eq_refl) in Hrun.
  rewrite (M_bind_run (gets obfuscator) _ l2 (obfuscator l2) l2 eq_refl) in Hrun.
  apply M_bind_Ok in Hrun as (u & l3 & Hu & Hrun). unfold on_heap in Hu.
  destruct (createUnsignedCommitmentTx _ _ _ _ _ _ _ _ _ _ _ _) as [ru h3] eqn:Hcu. injection Hu as -> <-.
  apply M_bind_Ok in Hrun as ([] & l4 & [_ ->]%check_Ok & Hrun).
  apply M_bind_Ok in Hrun as (hh & l5 & Hg & Hrun). injection Hg as <- <-. unfold lift in Hrun.
  destruct (populateHtlcIndexes _ _) as [v0| |] eqn:Hp; try done. injection Hrun as -> <-.
  destruct (populate_keeps _ _ _ Hp) as [Hv Hm].
  destruct (createUnsigned_values _ _ _ _ _ _ _ _ _ _ _ _ _ _ Hcu) as (_ & _ & EA & EB & Hh).
  exists t, bal, w, flt, l2, u, h3. rewrite Hm. do 5 (split; [done|]).
  rewrite <- EA, <- EB. do 6 (split; [by rewrite Hv|]).
  split; [intros []; by rewrite Hv|]. split; [intros []; by rewrite Hv|].
  unfold htlcs. cbn [outgoingHTLCs incomingHTLCs]. by rewrite !fmap_app, <- !list_fmap_compose.
Qed.
Lemma money_sums (h : heap) (ps : list ptr) (pds : list PaymentDescriptor) :
  pd_money <$> pds ≡ₚ (fun p => pd_money (deref h p)) <$> ps ->
  zsum (pd_BtcAmount <$> pds) = btc_sum h ps /\ zsum (pd_AssetAmount <$> pds) = asset_sum h ps.
Proof.
  intros Hp. split.
  - transitivity (zsum ((fun m => m.1.2) <$> (pd_money <$> pds))); [by rewrite <- list_fmap_compose|].
    rewrite Hp, <- list_fmap_compose. done.
  - transitivity (zsum ((fun m => m.2) <$> (pd_money <$> pds))); [by rewrite <- list_fmap_compose|].
    rewrite Hp, <- list_fmap_compose. done.
Qed.

(** What a chain carries, and the commitment that matches it, only depend on
    what the chain has of the logs. *)
Lemma match_same rc lc lc' j i c : recorded_to rc lc j i -> recorded_to rc lc' j i ->
  heap_keep (lc_heap lc) (lc_heap lc') -> (forall own, log_of lc' own = log_of lc own) ->
  htlcs_match rc lc c -> htlcs_match rc lc' c.
Proof.
  intros Hr Hr' Hk Hl Hm. unfold htlcs_match in *. rewrite Hm.
  assert (Hids : same_ids (lc_heap lc) (lc_heap lc')).
  { intros p. pose proof (proj2 Hk p) as E. unfold pd_money in E. congruence. }
  pose proof (Hl true) as E1. pose proof (Hl false) as E2. cbn in E1, E2.
  rewrite (carries_eq rc lc' j i Hr'), (carries_eq rc lc j i Hr), E1, E2, !(below_ids _ _ _ _ Hids), !(active_ids _ _ _ _ Hids).
  apply Permutation_refl', list_fmap_ext. intros k p _. symmetry. apply (proj2 Hk).
Qed.

(** A new commitment of a chain whose last one, [t], matches the logs: the next
    height, worth as much, matching the logs, with the view now recorded on the
    chain; the other chain is as it was. *)
Record extends (rc : bool) (j i : Z) (lc lc' : LightningChannel) (t v : commitment) : Prop := {
  ex_viewed : viewed lc lc';
  ex_height : c_height v = c_height t + 1 /\ c_height v <= maxStateHint;
  ex_ours : c_isOurs v = negb rc;
  ex_index own : c_index own v = if own then j else i;
  ex_recorded : recorded_to rc lc' j i;
  ex_heights own p : p ∈ entries (log_of lc own) ->
    height (negb rc) (deref (lc_heap lc') p) = height (negb rc) (deref (lc_heap lc) p) /\
    height rc (deref (lc_heap lc') p) =
      if (pd_LogIndex (deref (lc_heap lc) p) <? (if own then j else i)) && (height rc (deref (lc_heap lc) p) =? 0)
      then c_height v else height rc (deref (lc_heap lc) p);
  ex_forwarded p : isForwarded (deref (lc_heap lc') p) = isForwarded (deref (lc_heap lc) p);
  ex_match : htlcs_match rc lc' v;
  ex_asset : eqw 64 (asset_value v) (asset_value t)
}.

Lemma fetch_extends rc i ih j jh kr lc v lc' t : fetchCommitmentView rc i ih j jh kr lc = (Ok v, lc') ->
  lc_logs_ok lc -> tip (commit_chain lc rc) = Ok t -> 0 <= c_height t <= maxStateHint ->
  recorded_to rc lc (c_theirMessageIndex t) (c_ourMessageIndex t) -> htlcs_match rc lc t ->
  c_theirMessageIndex t <= j -> c_ourMessageIndex t <= i -> extends rc j i lc lc' t v.
Proof.
  intros Hrun Hok Ht Hh Hrec Hm Hj Hi.
  pose proof (fetchCommitmentView_viewed rc i ih j jh kr lc) as Hv. rewrite Hrun in Hv. cbn in Hv.
  destruct (fetch_inv _ _ _ _ _ _ _ _ _ Hrun) as (t' & bal & w & flt & l2 & u & h3 & Ht' & Hc & Hcu & -> & Hmax & Hvh & Hours
    & _ & _ & _ & Hasset & Hidx & _ & Hmoney).
  rewrite Ht in Ht'. injection Ht' as <-.
  assert (Hn : u64 (c_height t + 1) = c_height t + 1) by (apply uwrap_id; unfold is_uint, maxStateHint in *; lia).
  destruct (computeView_exact _ _ _ _ _ _ _ _ _ Hok Hc) as (t' & Ht' & Hflt & _ & _ & Htouch & Hheap).
  rewrite Ht in Ht'. injection Ht' as <-.
  pose proof (createUnsigned_scripts (channelState l2) (obfuscator l2) (ourBtc bal) (theirBtc bal) (ourAsset bal)
    (theirAsset bal) (negb rc) (v_feePerKw flt) (u64 (c_height t + 1)) flt kr (lc_heap l2)) as Hs.
  rewrite Hcu in Hs. cbn in Hs.
  assert (Hlogs : forall own, log_of (l2 <| lc_heap := h3 |>) own = log_of lc own).
  { intros own. by apply viewed_logs. }
  destruct (record_view (c_height t + 1) rc lc (l2 <| lc_heap := h3 |>) _ _ j i Hok Hrec Hj Hi) as (R1 & R3 & R4 & R2);
    [lia|done| |].
  { intros p. cbn [lc_heap]. change (lc_heap (l2 <| lc_heap := h3 |>)) with h3.
    rewrite (proj2 Hs p), (Hheap p), Hn. by case_decide. }
  assert (Hm' : htlcs_match rc (l2 <| lc_heap := h3 |>) v).
  { unfold htlcs_match. rewrite R3, Hmoney, Hflt. done. }
  split; try done; [by rewrite Hvh, Hn, <- Hn|by rewrite Hvh, Hn| |].
  { intros p. change (isForwarded (pd_unscripted (deref h3 p)) = isForwarded (deref (lc_heap lc) p)).
    rewrite (proj2 Hs p), (Hheap p). case_decide; [|done].
    exact (f_equal isForwarded (recorded_core (u64 (c_height t + 1)) rc true (deref (lc_heap lc) p))). }
  unfold asset_value. rewrite (proj2 (money_sums _ _ _ Hm)), (proj2 (money_sums _ _ _ Hm')), R3.
  injection Hasset as -> ->.
  pose proof (asset_conserved lc rc true j i t bal w flt l2 Hok (recorded_in_view _ _ _ _ _ _ Hrec Hj Hi) Ht Hc) as Hcons.
  rewrite (carried_eq rc lc _ _ j i Hrec Hj Hi), Hflt in Hcons. rewrite <- Hcons.
  apply eqw_of_eq. f_equal. apply zsum_ext_in. intros p _.
  pose proof (proj2 (vw_heap _ _ Hv) p) as E. unfold pd_money in E. cbn in E |- *. congruence.
Qed.
(** The fee the check deducts is the fee the commitment pays. *)
Lemma FeeForWeight_eqw s w w' : eqw 64 w w' -> FeeForWeight s w = FeeForWeight s w'.
Proof.
  intros Hw. unfold FeeForWeight. f_equal. apply (eqw_eq_sint 64); [lia|by apply swrap_range|by apply swrap_range|].
  rewrite !(eqw_swrap 64) by lia. by rewrite Hw.
Qed.

Lemma fee_agree rc lc v :
  FeeForWeight (v_feePerKw v) (view_weight rc lc v) =
  commit_fee (ChanType (channelState lc)) (v_feePerKw v)
    (count_htlcs (channelState lc) (negb rc) (v_feePerKw v) (lc_heap lc) v).
Proof.
  apply FeeForWeight_eqw. unfold view_weight. rewrite !(eqw_swrap 64) by lia. apply eqw_of_eq. f_equal.
  unfold htlc_weight, count_htlcs. rewrite Nat2Z.inj_add. ring.
Qed.

(** The opener's balance stays within 64 bits. *)
Definition opener_btc (initiator : bool) (b : balances) : Z := if initiator then ourBtc b else theirBtc b.

Lemma opener_fold {A} (f : balances -> A -> balances) initiator l b :
  (forall b x, opener_btc initiator (f b x) = opener_btc initiator b \/ is_uint 64 (opener_btc initiator (f b x))) ->
  is_uint 64 (opener_btc initiator b) -> is_uint 64 (opener_btc initiator (foldl f b l)).
Proof.
  intros Hf. revert b. induction l as [|x l IH]; intros b Hb; [done|]. apply IH. by destruct (Hf b x) as [-> |?].
Qed.

Lemma u64_range z : is_uint 64 (u64 z).
Proof. by apply uwrap_range. Qed.

Lemma opener_range rc lc ours theirs t : ChanAssetID (channelState lc) <= BtcAssetId ->
  let initiator := IsInitiator (channelState lc) in
  is_uint 64 (opener_btc initiator (ref_balances rc lc ours theirs (start_balances initiator t))).
Proof.
  intros Hbtc initiator. unfold ref_balances. rewrite (proj2 (Z.ltb_ge _ _) Hbtc).
  assert (Hc : forall own h b x, opener_btc initiator (credit_of rc own h b x) = opener_btc initiator b \/
    is_uint 64 (opener_btc initiator (credit_of rc own h b x))).
  { intros own h b x. unfold credit_of, removal_credit, credit_us, credit_them.
    destruct (credited _ _); [|by left]. destruct (pd_EntryType _), own, initiator; cbn;
      first [by left|right; apply u64_range]. }
  assert (Hd : forall own h b x, opener_btc initiator (debit_of rc own h b x) = opener_btc initiator b \/
    is_uint 64 (opener_btc initiator (debit_of rc own h b x))).
  { intros own h b x. unfold debit_of, debit_us, debit_them.
    destruct (debited _ _); [|by left]. destruct own, initiator; cbn; first [by left|right; apply u64_range]. }
  do 2 (apply opener_fold; [apply Hd|]). do 2 (apply opener_fold; [apply Hc|]).
  unfold start_balances, opener_btc. destruct initiator; apply u64_range.
Qed.

Lemma fee_covered x fee : is_uint 64 x -> 0 <= fee < 2 ^ 53 -> 0 <= i64 (u64 (x - NewMSatFromSatoshis fee)) ->
  (ToSatoshis x <? fee) = false.
Proof.
  intros Hx Hf Hpos. apply Z.ltb_ge. rewrite ToSatoshis_div by done.
  assert (2 ^ 53 < 2 ^ 64 / 1000) by reflexivity. rewrite NewMSat_small in Hpos by lia.
  destruct (Z.le_gt_cases fee (x / 1000)) as [|Hlt]; [done|exfalso].
  assert (x < fee * 1000) by (pose proof (Z.div_mod x 1000 ltac:(lia)); pose proof (Z.mod_pos_bound x 1000 ltac:(lia)); lia).
  unfold is_uint in Hx. rewrite swrap_uwrap, swrap_id in Hpos; [lia|lia|unfold is_sint; cbn; lia|lia].
Qed.

(** With the check passed on the same view, no bitcoin is lost either: the opener
    can pay the fee of the new commitment. *)
Lemma fetch_btc rc i ih j jh kr lc v lc' t : fetchCommitmentView rc i ih j jh kr lc = (Ok v, lc') ->
  fst (validateCommitmentSanity j i rc None None lc) = Ok tt ->
  lc_logs_ok lc -> tip (commit_chain lc rc) = Ok t -> 0 <= c_height t <= maxStateHint ->
  recorded_to rc lc (c_theirMessageIndex t) (c_ourMessageIndex t) -> htlcs_match rc lc t ->
  c_theirMessageIndex t <= j -> c_ourMessageIndex t <= i ->
  ChanAssetID (channelState lc) <= BtcAssetId -> 0 <= c_fee v < 2 ^ 53 -> eqw 64 (btc_value v) (btc_value t).
Proof.
  intros Hrun Hval Hok Ht Hh Hrec Hm Hj Hi Hbtc Hfee.
  pose proof (fetch_extends _ _ _ _ _ _ _ _ _ _ Hrun Hok Ht Hh Hrec Hm Hj Hi) as [Hv _ _ _ _ _ _ Hm' _].
  destruct (fetch_inv _ _ _ _ _ _ _ _ _ Hrun) as (t' & bal & w & flt & l2 & u & h3 & Ht' & Hc & Hcu & -> & _ & _ & _
    & Hrate & Hvfee & Hvbtc & _ & _ & _ & Hmoney).
  rewrite Ht in Ht'. injection Ht' as <-.
  destruct (computeView_exact _ _ _ _ _ _ _ _ _ Hok Hc) as (t' & Ht' & Hflt & Hbal & Hw & Htouch & _).
  rewrite Ht in Ht'. injection Ht' as <-.
  destruct (sanity_Ok lc j i rc None None Hval eq_refl eq_refl) as (t' & bal' & w' & v' & Ht' & Hc' & _ & _ & _ & Ho & Hth & _).
  rewrite Ht in Ht'. injection Ht' as <-. cbn [opt_list] in Hc'. rewrite !app_nil_r in Hc'.
  destruct (computeView_exact lc rc false i j _ _ _ _ Hok Hc') as (t' & Ht' & Hflt' & Hbal' & Hw' & _).
  rewrite Ht in Ht'. injection Ht' as <-. rewrite <- Hflt in Hflt'. rewrite <- Hbal in Hbal'. subst v' bal' w'. clear Hc'.
  destruct (createUnsigned_values _ _ _ _ _ _ _ _ _ _ _ _ _ _ Hcu) as (Hufee & Hubtc & _).
  assert (Hinit : IsInitiator (channelState l2) = IsInitiator (channelState lc)) by by rewrite (to_totals _ _ _ Htouch).
  assert (Hasset : ChanAssetID (channelState l2) = ChanAssetID (channelState lc)) by by rewrite (to_totals _ _ _ Htouch).
  rewrite <- (view_weight_touched _ rc _ _ flt Htouch), fee_agree, <- Hufee, <- Hvfee in Ho, Hth.
  assert (Hrange : is_uint 64 (opener_btc (IsInitiator (channelState lc)) bal)) by (rewrite Hbal; by apply opener_range).
  unfold btc_balances in Hubtc. rewrite Hasset, Hinit, (proj2 (Z.ltb_ge _ _) Hbtc), <- Hvfee, <- Hvbtc in Hubtc.
  assert (Hsum : eqw 64 (c_ourBtcBalance v + c_theirBtcBalance v + NewMSatFromSatoshis (c_fee v)) (ourBtc bal + theirBtc bal)).
  { unfold opener_btc, pay_fee in *. destruct (IsInitiator (channelState lc)); cbn in Ho, Hth;
      rewrite fee_covered in Hubtc by done; injection Hubtc as -> ->; rewrite eqw_uwrap; apply eqw_of_eq; lia. }
  unfold btc_value. rewrite Hsum, (proj1 (money_sums _ _ _ Hm)).
  rewrite (proj1 (money_sums h3 (ourUpdates flt ++ theirUpdates flt) (htlcs v) (Permutation_refl' Hmoney))).
  pose proof (btc_conserved lc rc true j i t bal w flt l2 Hok (recorded_in_view _ _ _ _ _ _ Hrec Hj Hi) Ht Hc Hbtc) as Hcons.
  rewrite (carried_eq rc lc _ _ j i Hrec Hj Hi) in Hcons. rewrite <- Hcons. apply eqw_of_eq. f_equal. apply zsum_ext_in.
  intros p _. pose proof (proj2 (vw_heap _ _ Hv) p) as E. unfold pd_money in E. cbn in E |- *. congruence.
Qed.
End Values.
