(* ===== verification/Protocol.v ===== *)
(** * The commitment dance as a transition system

    The methods of a channel as steps between states, the invariant they keep,
    and what signing, accepting, revoking and receiving a revocation do. *)

From S2P Require Import Prelude Wire Messages ChanIds Units Sha256 Shachain Sig Tx OmniOp Keys Scripts FwdPkg UpdateLog ChanDB Commitment Channel ChannelOps ChannelSign Views Dance.

Section Runs.
Context `{CurveOps, !ScriptLib, !TxLib, !SigLib}.

(** ** The runs of the commitment methods *)
Definition lift_run {S E A} (r : res E A) (s : S) : (fun s => (r, s)) s = (r, s) := eq_refl.

Lemma append_diff_Ok d c r c' : AppendRemoteCommitChain d c = (Ok r, c') ->
  frozen c = false /\ exists fp, c' = c <| FwdPackages := fp |>
    <| ChanBucket ::= fun b => b <| db_lastWasRevoke := false |> <| db_commitDiff := Some (disk_diff d) |> |>.
Proof.
  unfold AppendRemoteCommitChain. intros Hrun. destruct (frozen c) eqn:Hf.
  { destruct (check_mutable_frozen c Hf) as [e He]. by rewrite (M_bind_Err _ _ _ _ _ He) in Hrun. }
  rewrite (M_bind_run _ _ _ _ _ (check_mutable_Ok c Hf)) in Hrun. split; [done|].
  apply transaction_Ok in Hrun as Hm. apply M_bind_Ok in Hm as (src & s0 & Hs & Hm). injection Hs as <- <-.
  apply M_bind_Ok in Hm as ([] & s1 & E1 & Hm). apply M_bind_Ok in Hm as ([] & s2 & E2 & Hm). injection Hm as _ <-.
  unfold fwd_op in E1, E2. destruct (AckAddHtlcs _ _ _) as [db1| |]; try done. injection E1 as <-.
  destruct (ackSettleFails _ _) as [db2| |]; try done. injection E2 as <-. by exists db2.
Qed.

(** Signing without a window: nothing happens. *)
Lemma sign_no_window lc t1 t2 : tip (localCommitChain lc) = Ok t1 -> tip (remoteCommitChain lc) = Ok t2 ->
  hasUnackedCommitment (remoteCommitChain lc) = true \/ RemoteNextRevocation (channelState lc) = None ->
  SignNextCommitment lc = (Err ErrNoWindow, lc).
Proof.
  intros Ht1 Ht2 Hw. unfold SignNextCommitment.
  rewrite (M_bind_run (fun lc => (oweCommitment true lc, lc)) _ lc _ lc (f_equal (fun r => (r, lc)) (proj2 (res_bind_Ok _ _ _)
    (ex_intro _ t1 (conj Ht1 (proj2 (res_bind_Ok _ _ _) (ex_intro _ t2 (conj Ht2 eq_refl)))))))).
  rewrite (M_bind_run (gets _) _ lc (RemoteNextRevocation (channelState lc)) lc eq_refl).
  rewrite (M_bind_run (gets _) _ lc (hasUnackedCommitment (remoteCommitChain lc)) lc eq_refl).
  destruct Hw as [-> | ->]; [done|]. by destruct (hasUnackedCommitment _).
Qed.

Lemma sign_inv lc sig htlcSigs hs lc' : SignNextCommitment lc = (Ok (sig, htlcSigs, hs), lc') ->
  exists cp lt v lc1 jobs c2,
    let kr := DeriveCommitmentKeys cp false (ChanType (channelState lc)) (LocalChanCfg (channelState lc)) (RemoteChanCfg (channelState lc)) in
    let diff := createCommitDiff lc1 v sig htlcSigs in
    RemoteNextRevocation (channelState lc) = Some cp /\ hasUnackedCommitment (remoteCommitChain lc) = false /\
    chain_tail (localCommitChain lc) = Ok lt /\
    fst (validateCommitmentSanity (c_theirMessageIndex lt) (logIndex (localUpdateLog lc)) true None None lc) = Ok tt /\
    fetchCommitmentView true (logIndex (localUpdateLog lc)) (htlcCounter (localUpdateLog lc)) (c_theirMessageIndex lt)
      (c_theirHtlcIndex lt) kr lc = (Ok v, lc1) /\
    genRemoteHtlcSigJobs (channelState lc1) kr v = Ok jobs /\ sign (c_txn v) (signDesc lc1) = Ok sig /\
    signAll (sortJobs jobs) = Ok htlcSigs /\ AppendRemoteCommitChain diff (channelState lc1) = (Ok tt, c2) /\
    lc' = lc1 <| channelState := c2 |> <| remoteCommitChain ::= fun s => addCommitment s v |> /\
    hs = Htlcs (cd_Commitment diff).
Proof.
  unfold SignNextCommitment. intros Hrun. apply M_bind_Ok in Hrun as (o & l0 & Ho & Hrun). injection Ho as _ <-.
  rewrite (M_bind_run (gets (fun lc => RemoteNextRevocation (channelState lc))) _ lc _ lc eq_refl) in Hrun.
  rewrite (M_bind_run (gets (fun lc => hasUnackedCommitment (remoteCommitChain lc))) _ lc _ lc eq_refl) in Hrun.
  apply M_bind_Ok in Hrun as (cp & l1 & Hcp & Hrun).
  destruct (hasUnackedCommitment (remoteCommitChain lc)) eqn:Hw; [done|].
  destruct (RemoteNextRevocation (channelState lc)) as [cp0|] eqn:Hcp0; [|done]. injection Hcp as -> <-.
  apply M_bind_Ok in Hrun as (lt & l2 & Hlt & Hrun). injection Hlt as Hlt <-.
  rewrite (M_bind_run (gets (fun lc => logIndex (localUpdateLog lc))) _ lc _ lc eq_refl) in Hrun.
  rewrite (M_bind_run (gets (fun lc => htlcCounter (localUpdateLog lc))) _ lc _ lc eq_refl) in Hrun.
  apply M_bind_Ok in Hrun as ([] & l3 & Hval & Hrun). rewrite validate_run in Hval. injection Hval as Hval <-.
  rewrite (M_bind_run (gets channelState) _ lc (channelState lc) lc eq_refl) in Hrun. cbv zeta in Hrun.
  apply M_bind_Ok in Hrun as (v & lc1 & Hv & Hrun).
  apply M_bind_Ok in Hrun as (jobs & l4 & Hj & Hrun). injection Hj as Hj <-.
  rewrite (M_bind_run (gets signDesc) _ lc1 (signDesc lc1) lc1 eq_refl) in Hrun.
  apply M_bind_Ok in Hrun as (s & l5 & Hs & Hrun). injection Hs as Hs <-.
  apply M_bind_Ok in Hrun as (hsigs & l6 & Hhs & Hrun). injection Hhs as Hhs <-.
  rewrite (M_bind_run (gets (fun lc => createCommitDiff lc v s hsigs)) _ lc1 _ lc1 eq_refl) in Hrun.
  apply M_bind_Ok in Hrun as ([] & l7 & Hdb & Hrun). unfold on_db in Hdb.
  destruct (AppendRemoteCommitChain _ _) as [[[]| |] c2] eqn:Ha; try done. injection Hdb as <-.
  apply M_bind_Ok in Hrun as ([] & l8 & Hm & Hrun). injection Hm as <-. injection Hrun as <- <- <- <-.
  exists cp, lt, v, lc1, jobs, c2. done.
Qed.

(** The signatures a commitment received stand in its HTLCs and nowhere else. *)
Lemma verifyJobs_keeps cs kr outs index sigs c c' jobs rest :
  verifyJobs cs kr outs index sigs c = Ok (c', jobs, rest) ->
  c' = c <| outgoingHTLCs := outgoingHTLCs c' |> <| incomingHTLCs := incomingHTLCs c' |> /\
  pd_money <$> htlcs c' = pd_money <$> htlcs c.
Proof.
  revert index sigs c c' jobs rest. induction outs as [|o outs IH]; intros index sigs c c' jobs rest Hrun; cbn in Hrun.
  { injection Hrun as <- _ _. split; [by destruct c|done]. }
  destruct (htlc_at c (swrap 32 index)) as [[inc k]|]; [|by eapply IH].
  destruct (htlcs_of c inc !! k) as [htlc|]; [|done]. destruct sigs as [|s sigs]; [done|].
  apply res_bind_Ok in Hrun as (sg & _ & Hrun). apply res_bind_Ok in Hrun as ([[c1 j1] r1] & Hrec & Hrun).
  injection Hrun as <- _ _. destruct (IH _ _ _ _ _ _ Hrec) as [Hc Hm].
  assert (Hset : forall l : list PaymentDescriptor, pd_money <$> alter (fun h => h <| pd_sig := Some sg |>) k l = pd_money <$> l).
  { intros l. apply list_eq. intros x. rewrite !list_lookup_fmap. destruct (decide (k = x)) as [<-|Hne].
    - rewrite list_lookup_alter_eq. by destruct (l !! k).
    - by rewrite list_lookup_alter_ne. }
  split; [rewrite Hc at 1; by destruct inc|]. rewrite Hm. unfold htlcs, set_sig.
  destruct inc; cbn; rewrite !fmap_app; by rewrite Hset.
Qed.

Lemma receive_sig_inv lc commitSig htlcSigs u lc' : ReceiveNewCommitment commitSig htlcSigs lc = (Ok u, lc') ->
  exists rt secret v lc1 sigHash v' jobs cSig,
    let cs := channelState lc in
    let kr := DeriveCommitmentKeys (ComputeCommitmentPoint secret) true (ChanType cs) (LocalChanCfg cs) (RemoteChanCfg cs) in
    chain_tail (remoteCommitChain lc) = Ok rt /\
    fst (validateCommitmentSanity (logIndex (remoteUpdateLog lc)) (c_ourMessageIndex rt) false None None lc) = Ok tt /\
    AtIndex (Producer cs) (u64 (currentHeight lc + 1)) = Ok secret /\
    fetchCommitmentView false (c_ourMessageIndex rt) (c_ourHtlcIndex rt) (logIndex (remoteUpdateLog lc))
      (htlcCounter (remoteUpdateLog lc)) kr lc = (Ok v, lc1) /\
    CalcSignatureHash (sd_WitnessScript (signDesc lc1)) (HashType (signDesc lc1)) (c_txn v) 0 = Some sigHash /\
    genHtlcSigValidationJobs (channelState lc1) kr htlcSigs v = Ok (v', jobs) /\
    ToSignature commitSig = Ok cSig /\ VerifySig cSig sigHash (MultiSigKey (RemoteChanCfg cs)) = true /\
    check_jobs jobs = Ok tt /\
    lc' = lc1 <| localCommitChain ::= fun s => addCommitment s (v' <| c_sig := ToSignatureBytes commitSig |>) |>.
Proof.
  unfold ReceiveNewCommitment. intros Hrun. apply M_bind_Ok in Hrun as (o & l0 & Ho & Hrun). injection Ho as _ <-.
  apply M_bind_Ok in Hrun as (rt & l1 & Hrt & Hrun). injection Hrt as Hrt <-.
  rewrite (M_bind_run (gets (fun lc => logIndex (remoteUpdateLog lc))) _ lc _ lc eq_refl) in Hrun.
  rewrite (M_bind_run (gets (fun lc => htlcCounter (remoteUpdateLog lc))) _ lc _ lc eq_refl) in Hrun.
  apply M_bind_Ok in Hrun as ([] & l2 & Hval & Hrun). rewrite validate_run in Hval. injection Hval as Hval <-.
  rewrite (M_bind_run (gets (fun lc => u64 (currentHeight lc + 1))) _ lc _ lc eq_refl) in Hrun.
  apply M_bind_Ok in Hrun as (secret & l3 & Hsec & Hrun). injection Hsec as Hsec <-.
  rewrite (M_bind_run (gets channelState) _ lc (channelState lc) lc eq_refl) in Hrun. cbv zeta in Hrun.
  apply M_bind_Ok in Hrun as (v & lc1 & Hv & Hrun).
  rewrite (M_bind_run (gets signDesc) _ lc1 (signDesc lc1) lc1 eq_refl) in Hrun.
  apply M_bind_Ok in Hrun as (sh & l4 & Hsh & Hrun). injection Hsh as Hsh <-.
  apply M_bind_Ok in Hrun as ([v' jobs] & l5 & Hj & Hrun). injection Hj as Hj <-.
  apply M_bind_Ok in Hrun as (cSig & l6 & Hc & Hrun). injection Hc as Hc <-.
  apply M_bind_Ok in Hrun as ([] & l7 & [Hver ->]%check_Ok & Hrun). apply negb_false_iff in Hver.
  apply M_bind_Ok in Hrun as ([] & l8 & Hcj & Hrun). injection Hcj as Hcj <-. injection Hrun as _ <-.
  exists rt, secret, v, lc1, sh, v', jobs, cSig.
  destruct (AtIndex _ _) as [sec| |]; try done. injection Hsec as <-.
  destruct (CalcSignatureHash _ _ _ _) as [h|]; try done. injection Hsh as <-. done.
Qed.

Lemma update_commitment_Ok cc us c r c' : UpdateCommitment cc us c = (Ok r, c') ->
  frozen c = false /\ LocalCommitment c' = cc /\ RemoteCommitment c' = RemoteCommitment c /\
  chanStatus c' = chanStatus c /\ db_chanStatus (ChanBucket c') = chanStatus c /\
  db_commitDiff (ChanBucket c') = db_commitDiff (ChanBucket c) /\
  db_revocationLog (ChanBucket c') = db_revocationLog (ChanBucket c) /\ ChanAssetID c' = ChanAssetID c.
Proof.
  unfold UpdateCommitment. intros Hrun. destruct (frozen c) eqn:Hf.
  { destruct (check_mutable_frozen c Hf) as [e He]. by rewrite (M_bind_Err _ _ _ _ _ He) in Hrun. }
  rewrite (M_bind_run _ _ _ _ _ (check_mutable_Ok c Hf)) in Hrun. injection Hrun as _ <-. done.
Qed.

Lemma revoke_inv lc msg hs lc' : RevokeCurrentCommitment lc = (Ok (msg, hs), lc') ->
  exists t0 t1 rest us c',
    generateRevocation lc (currentHeight lc) = Ok msg /\ localCommitChain lc = t0 :: t1 :: rest /\
    UpdateCommitment (toDiskCommit t1 true) us (channelState lc) = (Ok tt, c') /\
    lc' = lc <| localCommitChain := t1 :: rest |> <| currentHeight ::= fun h => u64 (h + 1) |> <| channelState := c' |> /\
    hs = Htlcs (toDiskCommit t1 true).
Proof.
  unfold RevokeCurrentCommitment. intros Hrun.
  rewrite (M_bind_run (gets currentHeight) _ lc (currentHeight lc) lc eq_refl) in Hrun.
  apply M_bind_Ok in Hrun as (m & l1 & Hm & Hrun). injection Hm as Hm <-.
  apply M_bind_Ok in Hrun as (t0 & l2 & Ht0 & Hrun). injection Ht0 as Ht0 <-.
  apply M_bind_Ok in Hrun as (ch & l3 & Hch & Hrun). injection Hch as Hch <-.
  apply M_bind_Ok in Hrun as ([] & l4 & Hmod & Hrun). injection Hmod as <-.
  apply M_bind_Ok in Hrun as (t1 & l5 & Ht1 & Hrun). injection Ht1 as Ht1 <-. cbv zeta in Hrun.
  apply M_bind_Ok in Hrun as (us & l6 & Hus & Hrun). injection Hus as _ <-.
  apply M_bind_Ok in Hrun as ([] & l7 & Hdb & Hrun). unfold on_db in Hdb.
  destruct (UpdateCommitment _ _ _) as [[[]| |] c'] eqn:Hu; try done. injection Hdb as <-. injection Hrun as <- <- <-.
  cbn in Ht0, Ht1, Hch. destruct (localCommitChain lc) as [|x ch0]; [done|]. injection Hch as <-.
  destruct ch0 as [|y rest]; [done|]. injection Ht0 as ->. injection Ht1 as ->.
  exists t0, t1, rest, us, c'. done.
Qed.

(** ** What a revocation forwards *)
Definition to_forward (kind : Z -> Z -> PaymentDescriptor -> bool) (r l : Z) (pd : PaymentDescriptor) : bool :=
  negb (bool_decide (pd_EntryType pd = FeeUpdate) || isForwarded pd) && kind r l pd.

(** A descriptor without its forwarding fields. *)
Definition pd_unforwarded (pd : PaymentDescriptor) : PaymentDescriptor :=
  pd <| pd_SourceRef := None |> <| pd_DestRef := None |> <| isForwarded := false |>.

Lemma fwd_exclusive r l pd : fwd_add r l pd = true -> fwd_rmv r l pd = false.
Proof. unfold fwd_add, fwd_rmv. repeat case_bool_decide; try done. Qed.

Lemma forward_spec src cid r l es ai si h h' adds rmvs : NoDup es -> (forall p, p ∈ es -> p < length h)%nat ->
  forward src cid r l es ai si h = (h', adds, rmvs) ->
  fst <$> adds = filter (fun p => to_forward fwd_add r l (deref h p) = true) es /\
  fst <$> rmvs = filter (fun p => to_forward fwd_rmv r l (deref h p) = true) es /\
  snd <$> adds = (fun p => logUpdate cid (deref h p)) <$> (fst <$> adds) /\
  snd <$> rmvs = (fun p => logUpdate cid (deref h p)) <$> (fst <$> rmvs) /\
  length h' = length h /\
  forall p, pd_unforwarded (deref h' p) = pd_unforwarded (deref h p) /\
    isForwarded (deref h' p) = isForwarded (deref h p) || bool_decide (p ∈ (fst <$> adds) ++ (fst <$> rmvs)).
Proof.
  revert ai si h h' adds rmvs. induction es as [|e es IH]; intros ai si h h' adds rmvs Hnd Hal Hrun.
  { cbn in Hrun. injection Hrun as <- <- <-. do 5 (split; [done|]). intros p. cbn.
    rewrite bool_decide_eq_false_2 by apply not_elem_of_nil. by rewrite orb_false_r. }
  apply list.NoDup_cons in Hnd as [Hni Hnd]. cbn [forward] in Hrun. rewrite !filter_cons.
  assert (Hsame : forall f, (forall q, q ∈ es -> deref (write h e f) q = deref h q)).
  { intros f q Hq. rewrite deref_write_any, decide_False; [done|]. by intros [-> _]. }
  assert (Hext : forall f (P : PaymentDescriptor -> bool),
    filter (fun p => P (deref (write h e f) p) = true) es = filter (fun p => P (deref h p) = true) es).
  { intros f P. apply Prelude.filter_ext_in. intros q Hq. by rewrite Hsame. }
  assert (Hstep : forall f h1 a1 r1 ai si, (forall pd, pd_unforwarded (f pd) = pd_unforwarded pd) ->
    (forall pd, isForwarded (f pd) = true) -> forward src cid r l es ai si (write h e f) = (h1, a1, r1) ->
    fst <$> a1 = filter (fun p => to_forward fwd_add r l (deref h p) = true) es /\
    fst <$> r1 = filter (fun p => to_forward fwd_rmv r l (deref h p) = true) es /\
    snd <$> a1 = (fun p => logUpdate cid (deref h p)) <$> (fst <$> a1) /\
    snd <$> r1 = (fun p => logUpdate cid (deref h p)) <$> (fst <$> r1) /\ length h1 = length h /\
    forall p, pd_unforwarded (deref h1 p) = pd_unforwarded (deref h p) /\
      isForwarded (deref h1 p) = isForwarded (deref h p) || bool_decide (p = e \/ p ∈ (fst <$> a1) ++ (fst <$> r1))).
  { intros f h1 a1 r1 ai' si' Hf Hf' Hr. apply IH in Hr as (E1 & E2 & E3 & E4 & E5 & E6); [|done|].
    2: { intros p Hp. unfold write. rewrite length_alter. apply Hal. by right. }
    rewrite !Hext in *. split; [done|split; [done|]].
    assert (Hsub : forall p, p ∈ (fst <$> a1) ++ (fst <$> r1) -> p ∈ es).
    { intros p. rewrite E1, E2. by intros [[_ ?]%list_elem_of_filter|[_ ?]%list_elem_of_filter]%elem_of_app. }
    split; [rewrite E3|split; [rewrite E4|split; [by rewrite E5; unfold write; rewrite length_alter|]]].
    1,2: apply list_fmap_ext; intros k p Hk; rewrite Hsame; [done|]; apply Hsub, elem_of_app;
      apply list_elem_of_lookup_2 in Hk; tauto.
    intros p. destruct (E6 p) as [-> ->]. rewrite !deref_write_any. split; [destruct (decide (e = p /\ is_Some (h !! e))); [apply Hf|done]|].
    destruct (decide (p = e)) as [->|Hne].
    - assert (is_Some (h !! e)) by (apply lookup_lt_is_Some_2, Hal; by left).
      rewrite decide_True by done. rewrite Hf'. cbn [orb]. rewrite bool_decide_eq_true_2 by (by left). by rewrite orb_true_r.
    - rewrite decide_False by (by intros [-> _]). f_equal. apply bool_decide_ext. naive_solver. }
  assert (Htf : forall kind, to_forward kind r l (deref h e) =
    negb (bool_decide (pd_EntryType (deref h e) = FeeUpdate) || isForwarded (deref h e)) && kind r l (deref h e)) by done.
  destruct (bool_decide (pd_EntryType (deref h e) = FeeUpdate) || isForwarded (deref h e)); cbn [negb andb] in Htf.
  { apply IH in Hrun as Hr; [|done|intros p Hp; apply Hal; by right]. by rewrite !decide_False by by rewrite Htf. }
  destruct (fwd_add r l (deref h e)) eqn:Ha.
  { pose proof (fwd_exclusive _ _ _ Ha) as Hx.
    rewrite decide_True, (decide_False (P := to_forward fwd_rmv r l (deref h e) = true)) by (rewrite Htf; congruence).
    destruct (forward _ _ _ _ es _ _ _) as [[h1 a1] r1] eqn:Hr. injection Hrun as <- <- <-.
    apply Hstep in Hr as (E1 & E2 & E3 & E4 & E5 & E6); [|done|done].
    rewrite !fmap_cons. cbn [fst snd]. rewrite E3. split; [by rewrite E1|]. do 4 (split; [done|]).
    intros p. destruct (E6 p) as [-> ->]. split; [done|]. f_equal. apply bool_decide_ext. cbn. by rewrite elem_of_cons. }
  rewrite (decide_False (P := to_forward fwd_add r l (deref h e) = true)) by (rewrite Htf; congruence).
  destruct (fwd_rmv r l (deref h e)) eqn:Hr0.
  { rewrite decide_True by (rewrite Htf; congruence).
    destruct (forward _ _ _ _ es _ _ _) as [[h1 a1] r1] eqn:Hr. injection Hrun as <- <- <-.
    apply Hstep in Hr as (E1 & E2 & E3 & E4 & E5 & E6); [|done|done].
    rewrite !fmap_cons. cbn [fst snd]. rewrite E4. split; [done|]. split; [by rewrite E2|]. do 3 (split; [done|]).
    intros p. destruct (E6 p) as [-> ->]. split; [done|]. f_equal. apply bool_decide_ext.
    rewrite !elem_of_app, elem_of_cons. tauto. }
  rewrite decide_False by (rewrite Htf; congruence). apply IH in Hrun as Hr; [done|done|intros p Hp; apply Hal; by right].
Qed.

Lemma revocation_inv lc msg pkg adds rmvs hs lc' : ReceiveRevocation msg lc = (Ok (pkg, adds, rmvs, hs), lc') ->
  exists revocation store rt lt rest h' adds' rmvs' us c3 ourLog theirLog,
    let cs := channelState lc in
    let r := u64 (c_height rt + 1) in
    NewHash (rev_Revocation msg) = Ok revocation /\ AddNextEntry revocation (Store cs) = (Ok tt, store) /\
    RemoteCurrentRevocation cs = Some (ComputeCommitmentPoint (rev_Revocation msg)) /\
    remoteCommitChain lc = rt :: rest /\ chain_tail (localCommitChain lc) = Ok lt /\
    forward (ChanShortID cs) (chan_id lc) r (c_height lt) (entries (remoteUpdateLog lc)) 0 0 (lc_heap lc) = (h', adds', rmvs') /\
    pkg = NewFwdPkg (ChanShortID cs) r (snd <$> adds') (snd <$> rmvs') /\
    AdvanceCommitChainTail pkg us (cs <| Store := store |> <| RemoteCurrentRevocation := RemoteNextRevocation cs |>
      <| RemoteNextRevocation := rev_NextRevocationKey msg |>) = (Ok tt, c3) /\
    compactLogs h' (localUpdateLog lc) (remoteUpdateLog lc) (c_height lt) r = Ok (E := chanerr) (ourLog, theirLog) /\
    lc' = lc <| lc_heap := h' |> <| channelState := c3 |> <| remoteCommitChain := rest |>
             <| localUpdateLog := ourLog |> <| remoteUpdateLog := theirLog |> /\
    adds = fst <$> adds' /\ rmvs = fst <$> rmvs' /\ hs = Htlcs (RemoteCommitment c3).
Proof.
  unfold ReceiveRevocation. intros Hrun.
  apply M_bind_Ok in Hrun as (rv & l1 & Hrv & Hrun). injection Hrv as Hrv <-.
  apply M_bind_Ok in Hrun as ([] & l2 & Hins & Hrun). unfold insertSecret in Hins.
  destruct (AddNextEntry rv (Store (channelState lc))) as [ra store] eqn:Hadd. injection Hins as Hra <-.
  apply M_bind_Ok in Hrun as (cur & l3 & Hcur & Hrun). injection Hcur as <- <-.
  apply M_bind_Ok in Hrun as ([] & l4 & Hkey & Hrun). cbn [channelState] in Hkey.
  match type of Hkey with context [match ?x with Some _ => _ | None => _ end] => destruct x as [p|] eqn:Hp; [|done] end.
  apply check_Ok in Hkey as [Hkey ->]. apply negb_false_iff, bool_decide_eq_true in Hkey.
  apply M_bind_Ok in Hrun as ([] & l5 & Hmod & Hrun). injection Hmod as <-.
  apply M_bind_Ok in Hrun as (rt & l6 & Hrt & Hrun). injection Hrt as Hrt <-.
  apply M_bind_Ok in Hrun as (lt & l7 & Hlt & Hrun). injection Hlt as Hlt <-. cbv zeta in Hrun.
  apply M_bind_Ok in Hrun as (src & l8 & Hsrc & Hrun). injection Hsrc as <- <-.
  apply M_bind_Ok in Hrun as (cid & l9 & Hcid & Hrun). injection Hcid as <- <-.
  apply M_bind_Ok in Hrun as ([adds0 rmvs0] & l10 & Hfw & Hrun).
  destruct (forward _ _ _ _ _ _ _ _) as [[h' adds'] rmvs'] eqn:Hforward. injection Hfw as <- <- <-.
  apply M_bind_Ok in Hrun as (rtip & l11 & Hrtip & Hrun). injection Hrtip as Hrtip <-.
  apply M_bind_Ok in Hrun as (us & l12 & Hus & Hrun). injection Hus as <- <-. cbv zeta in Hrun.
  apply M_bind_Ok in Hrun as ([] & l13 & Hdb & Hrun). unfold on_db in Hdb.
  destruct (AdvanceCommitChainTail _ _ _) as [[[]| |] c3] eqn:Hadv; try done. injection Hdb as <-.
  apply M_bind_Ok in Hrun as (ch & l14 & Hch & Hrun). injection Hch as Hch <-.
  apply M_bind_Ok in Hrun as ([] & l15 & Hm & Hrun). injection Hm as <-.
  apply M_bind_Ok in Hrun as ([ourLog theirLog] & l16 & Hcl & Hrun). injection Hcl as Hcl <-.
  apply M_bind_Ok in Hrun as ([] & l17 & Hm & Hrun). injection Hm as <-.
  apply M_bind_Ok in Hrun as (rh & l18 & Hrh & Hrun). injection Hrh as <- <-. injection Hrun as <- <- <- <- <-.
  cbn in Hrt, Hlt, Hch. destruct (remoteCommitChain lc) as [|x rest]; [done|]. injection Hrt as ->. injection Hch as ->.
  destruct (NewHash _) as [rv0| |]; try done. injection Hrv as ->. destruct ra as [[]| |]; try done.
  cbn in Hp. subst p.
  exists rv, store, rt, lt, ch, h', adds', rmvs'. eexists _, c3, ourLog, theirLog. cbn.
  do 7 (split; [done|]). split; [exact Hadv|]. done.
Qed.
End Runs.
