(* ===== verification/Reach.v ===== *)
(** * What every reachable state of a channel satisfies

    [dance_ok]: the invariant that adding, removing, fee updates, signing,
    accepting, revoking and receiving a revocation keep. *)

From S2P Require Import Prelude Wire Messages ChanIds Units Sha256 Shachain Sig Tx OmniOp Keys Scripts FwdPkg UpdateLog ChanDB Commitment Channel ChannelOps ChannelSign Views Dance Protocol.

(** ** Chains *)
Section Chains.
Context `{CurveOps}.

Lemma tip_snoc s v : tip (s ++ [v]) = Ok v.
Proof. unfold tip. by rewrite last_snoc. Qed.

Lemma tail_snoc s v t : chain_tail s = Ok t -> chain_tail (s ++ [v]) = Ok t.
Proof. by destruct s. Qed.

Lemma tip_elem s t : tip s = Ok t -> t ∈ s.
Proof. unfold tip. destruct (list.last s) as [c|] eqn:Hl; [|done]. intros E. injection E as <-. by apply last_Some_elem_of. Qed.

Lemma tail_elem s t : chain_tail s = Ok t -> t ∈ s.
Proof. destruct s; [done|]. intros E. injection E as <-. by left. Qed.

(** Heights grow by one and indexes never go back along a chain. *)
Record chain_ok (rc : bool) (s : commitmentChain) : Prop := {
  ch_next k c c' : s !! k = Some c -> s !! S k = Some c' ->
    c_height c' = c_height c + 1 /\ forall own, c_index own c <= c_index own c';
  ch_each c : c ∈ s -> 0 <= c_height c <= maxStateHint /\ c_isOurs c = negb rc
}.

Lemma chain_ok_tail rc c s : chain_ok rc (c :: s) -> chain_ok rc s.
Proof.
  intros [Hn He]. split.
  - intros k. apply (Hn (S k)).
  - intros x Hx. apply He. by right.
Qed.

Lemma chain_ok_head rc c s x : chain_ok rc (c :: s) -> x ∈ s -> c_height c < c_height x /\ forall own, c_index own c <= c_index own x.
Proof.
  revert c. induction s as [|y s IH]; intros c Hc Hx; [by apply not_elem_of_nil in Hx|].
  destruct (ch_next _ _ Hc 0 c y eq_refl eq_refl) as [E1 E2].
  apply elem_of_cons in Hx as [->|Hx]; [split; [lia|done]|].
  destruct (IH y (chain_ok_tail _ _ _ Hc) Hx) as [F1 F2]. split; [lia|]. intros own. specialize (E2 own). specialize (F2 own). lia.
Qed.

Lemma chain_ok_le rc s t x : chain_ok rc s -> chain_tail s = Ok t -> x ∈ s -> c_height t <= c_height x /\ forall own, c_index own t <= c_index own x.
Proof.
  intros Hc Ht Hx. destruct s as [|c s]; [done|]. injection Ht as <-. apply elem_of_cons in Hx as [->|Hx]; [done|].
  destruct (chain_ok_head _ _ _ _ Hc Hx). split; [lia|done].
Qed.

Lemma chain_ok_tip rc s t x : chain_ok rc s -> tip s = Ok t -> x ∈ s -> c_height x <= c_height t /\ forall own, c_index own x <= c_index own t.
Proof.
  revert x. induction s as [|c s IH]; intros x Hc Ht Hx; [done|]. destruct s as [|y s].
  - apply list_elem_of_singleton in Hx as ->. by injection Ht as ->.
  - assert (Ht' : tip (y :: s) = Ok t) by done. apply elem_of_cons in Hx as [->|Hx].
    + destruct (chain_ok_head _ _ _ t Hc (tip_elem _ _ Ht')). split; [lia|done].
    + by apply (IH x (chain_ok_tail _ _ _ Hc)).
Qed.

Lemma chain_ok_snoc rc s t v : chain_ok rc s -> tip s = Ok t -> c_height v = c_height t + 1 -> c_height v <= maxStateHint ->
  c_isOurs v = negb rc -> (forall own, c_index own t <= c_index own v) -> chain_ok rc (s ++ [v]).
Proof.
  intros Hc Ht Hh Hm Ho Hi. pose proof (ch_each _ _ Hc t (tip_elem _ _ Ht)) as [Ht0 _]. split.
  - intros k c c' Hk Hk'. apply lookup_app_Some in Hk' as [Hk'|[Hl Hk']].
    + rewrite lookup_app_l in Hk by (apply lookup_lt_Some in Hk'; lia). by apply (ch_next _ _ Hc k).
    + apply list_lookup_singleton_Some in Hk' as [Hz <-].
      assert (Hkl : s !! k = Some c) by (rewrite lookup_app_l in Hk; [done|lia]).
      unfold tip in Ht. rewrite last_lookup in Ht. replace (pred (length s)) with k in Ht by lia.
      rewrite Hkl in Ht. injection Ht as <-. done.
  - intros c [Hin| ->]%elem_of_snoc; [by apply Hc|]. split; [lia|done].
Qed.
End Chains.

(** ** The invariant *)
Section Invariant.
Context `{CurveOps, !ScriptLib, !TxLib, !SigLib}.

(** What the channel is worth: the asset, and bitcoin in a bitcoin channel. *)
Record worth := mkWorth { w_asset : Z; w_btc : Z }.

(** The indexes of the commitments: within the logs, and never past what the
    other side has acknowledged by revoking. *)
Record indexed (lc : LightningChannel) : Prop := {
  ix_chain rc : chain_ok rc (commit_chain lc rc);
  ix_bound rc own c : c ∈ commit_chain lc rc -> c_index own c <= logIndex (log_of lc own);
  ix_acked own c t : c ∈ commit_chain lc own -> chain_tail (commit_chain lc (negb own)) = Ok t ->
    c_index own c <= c_index own t
}.

(** The heights the entries carry: an entry is recorded at or below the height of
    a commitment exactly when it is below the commitment's index. *)
Record heighted (lc : LightningChannel) : Prop := {
  he_at rc own c p : c ∈ commit_chain lc rc -> p ∈ entries (log_of lc own) ->
    (on_chain rc (deref (lc_heap lc) p) = true /\ height rc (deref (lc_heap lc) p) <= c_height c <->
     pd_LogIndex (deref (lc_heap lc) p) < c_index own c);
  he_tip rc own t p : tip (commit_chain lc rc) = Ok t -> p ∈ entries (log_of lc own) ->
    0 <= height rc (deref (lc_heap lc) p) <= c_height t;
  he_forwarded t p : chain_tail (remoteCommitChain lc) = Ok t -> p ∈ entries (remoteUpdateLog lc) ->
    isForwarded (deref (lc_heap lc) p) = true -> pd_LogIndex (deref (lc_heap lc) p) < c_theirMessageIndex t
}.

(** Every commitment is worth the same, and the last one of a chain has the HTLCs
    the logs record on it. *)
Record valued (w : worth) (lc : LightningChannel) : Prop := {
  va_match rc t : tip (commit_chain lc rc) = Ok t -> htlcs_match rc lc t;
  va_asset rc c : c ∈ commit_chain lc rc -> eqw 64 (asset_value c) (w_asset w);
  va_btc rc c : c ∈ commit_chain lc rc -> ChanAssetID (channelState lc) <= BtcAssetId -> eqw 64 (btc_value c) (w_btc w)
}.

(** The channel on disk: both tails, the pending commitment if there is one, and
    the revocation log. *)
Record stored (lc : LightningChannel) : Prop := {
  st_local : exists t, chain_tail (localCommitChain lc) = Ok t /\ currentHeight lc = c_height t /\
    LocalCommitment (channelState lc) = toDiskCommit t true;
  st_remote : exists t, RemoteCommitment (channelState lc) = toDiskCommit t false /\
    ((remoteCommitChain lc = [t] /\ db_commitDiff (ChanBucket (channelState lc)) = None) \/
     exists v d, remoteCommitChain lc = [t; v] /\ db_commitDiff (ChanBucket (channelState lc)) = Some d /\
       cd_Commitment d = toDiskCommit v false);
  st_log : log_ok (channelState lc)
}.

Record dance_ok (w : worth) (lc : LightningChannel) : Prop := {
  do_logs : lc_logs_ok lc;
  do_index : indexed lc;
  do_height : heighted lc;
  do_value : valued w lc;
  do_stored : stored lc
}.

Lemma heighted_recorded lc rc t : heighted lc -> tip (commit_chain lc rc) = Ok t ->
  recorded_to rc lc (c_theirMessageIndex t) (c_ourMessageIndex t).
Proof.
  intros Hh Ht own p Hp. pose proof (he_at _ Hh rc own t p (tip_elem _ _ Ht) Hp) as Ha.
  pose proof (he_tip _ Hh rc own t p Ht Hp) as Hb.
  apply eq_bool_prop_intro. rewrite bool_decide_spec. change (if own then _ else _) with (c_index own t). rewrite <- Ha.
  destruct (on_chain _ _); cbn; [split; [|done]; intros _; split; [done|lia]|]. split; [done|]. by intros [? _].
Qed.

(** ** Updates to the logs *)
Record grown (lc lc' : LightningChannel) : Prop := {
  gr_logs : lc_logs_ok lc';
  gr_chains : same_chains lc lc';
  gr_old p : (p < length (lc_heap lc))%nat -> deref (lc_heap lc') p = deref (lc_heap lc) p;
  gr_new own : exists new, entries (log_of lc' own) = entries (log_of lc own) ++ new /\
    forall p, p ∈ new -> logIndex (log_of lc own) <= pd_LogIndex (deref (lc_heap lc') p) /\
      (forall rc, height rc (deref (lc_heap lc') p) = 0) /\ isForwarded (deref (lc_heap lc') p) = false;
  gr_index own : logIndex (log_of lc own) <= logIndex (log_of lc' own)
}.

Lemma same_chains_chain lc lc' rc : same_chains lc lc' -> commit_chain lc' rc = commit_chain lc rc.
Proof. intros (_ & E1 & E2 & _). by destruct rc. Qed.

(** What a chain carries does not change. *)
Lemma grown_carries lc lc' rc : lc_logs_ok lc -> grown lc lc' -> carries rc lc' = carries rc lc.
Proof.
  intros Hok Hg.
  assert (Hold : forall own p, p ∈ entries (log_of lc own) -> deref (lc_heap lc') p = deref (lc_heap lc) p).
  { intros own p Hp. apply (gr_old _ _ Hg). by apply (lw_alloc _ _ (log_wf_of lc own Hok)). }
  assert (Hoff : forall p, (forall rc, height rc (deref (lc_heap lc') p) = 0) -> on_chain rc (deref (lc_heap lc') p) = false).
  { intros p Hz. unfold on_chain. by rewrite Hz. }
  assert (Hids : forall own, removed_ids (lc_heap lc') (filter (fun r => on_chain rc (deref (lc_heap lc') r) = true) (entries (log_of lc' own))) =
    removed_ids (lc_heap lc) (filter (fun r => on_chain rc (deref (lc_heap lc) r) = true) (entries (log_of lc own)))).
  { intros own. destruct (gr_new _ _ Hg own) as (new & He & Hnew). apply set_eq. intros x.
    rewrite !elem_of_removed_ids, He. f_equiv. intros r. rewrite !list_elem_of_filter, elem_of_app. split.
    - intros [[Ho [Hr|Hr]] Hx]; [rewrite (Hold own r Hr) in *; done|].
      destruct (Hnew r Hr) as (_ & Hz & _). by rewrite (Hoff r Hz) in Ho.
    - intros [[Ho Hr] Hx]. rewrite (Hold own r Hr). split; [split; [done|by left]|done]. }
  assert (Hnone : forall new : list ptr, (forall p, p ∈ new -> on_chain rc (deref (lc_heap lc') p) = false) -> forall ids : gset Z,
    filter (fun a => pd_EntryType (deref (lc_heap lc') a) = Add /\ on_chain rc (deref (lc_heap lc') a) = true /\
      pd_HtlcIndex (deref (lc_heap lc') a) ∉ ids) new = []).
  { intros new Hn ids. induction new as [|a new IH]; [done|]. rewrite filter_cons, decide_False.
    - apply IH. intros p Hp. apply Hn. by right.
    - rewrite Hn by (by left). naive_solver. }
  assert (Hside : forall own, pending rc (lc_heap lc') (entries (log_of lc' own)) (entries (log_of lc' (negb own))) =
    pending rc (lc_heap lc) (entries (log_of lc own)) (entries (log_of lc (negb own)))).
  { intros own. rewrite !pending_alt, Hids. destruct (gr_new _ _ Hg own) as (new & He & Hnew).
    rewrite He, list.filter_app, (Hnone new), app_nil_r.
    - apply Prelude.filter_ext_in. intros p Hp. by rewrite (Hold own p Hp).
    - intros p Hp. apply Hoff. by apply (Hnew p Hp). }
  unfold carries. pose proof (Hside false) as E1. pose proof (Hside true) as E2. cbn in E1, E2. by rewrite E1, E2.
Qed.

Lemma unseen_height pd rc : unseen pd -> height rc pd = 0.
Proof. intros (E1 & E2 & E3 & E4 & _). unfold height, addHeight, removeHeight. by destruct (is_removal _), rc. Qed.

Lemma grown_refl lc : lc_logs_ok lc -> grown lc lc.
Proof. intros Hok. split; try done. intros own. exists []. rewrite app_nil_r. split; [done|]. intros p Hp. by apply not_elem_of_nil in Hp. Qed.

Lemma grown_heap lc pd : lc_logs_ok lc -> grown lc (with_heap lc pd).
Proof.
  intros Hok. split; try done; [by apply with_heap_ok| |].
  - intros p Hp. cbn. unfold deref. by rewrite lookup_app_l.
  - intros own. exists []. rewrite app_nil_r. split; [by destruct own|]. intros p Hp. by apply not_elem_of_nil in Hp.
Qed.

(** One entry more, at the end of one log. *)
Lemma grown_append lc lc' own pd : lc_logs_ok lc -> lc_logs_ok lc' -> same_chains lc lc' -> lc_heap lc' = lc_heap lc ++ [pd] ->
  entries (log_of lc' own) = entries (log_of lc own) ++ [length (lc_heap lc)] ->
  entries (log_of lc' (negb own)) = entries (log_of lc (negb own)) ->
  logIndex (log_of lc' own) = u64 (logIndex (log_of lc own) + 1) ->
  logIndex (log_of lc' (negb own)) = logIndex (log_of lc (negb own)) ->
  logIndex (log_of lc own) + 1 < 2 ^ 64 -> unseen pd -> pd_LogIndex pd = logIndex (log_of lc own) -> grown lc lc'.
Proof.
  intros Hok Hok' Hsc Hh E1 E2 E3 E4 Hb Hu HL. pose proof (lw_range _ _ (log_wf_of lc own Hok)) as [Hr _].
  split; try done.
  - intros p Hp. rewrite Hh. unfold deref. by rewrite lookup_app_l.
  - intros o. destruct (decide (o = own)) as [->|Hne].
    + exists [length (lc_heap lc)]. split; [done|]. intros p ->%list_elem_of_singleton. rewrite Hh, deref_alloc, HL.
      split; [lia|]. split; [intros rc; by apply unseen_height|]. by apply Hu.
    + replace o with (negb own) by by destruct o, own. exists []. rewrite app_nil_r. split; [done|].
      intros p Hp. by apply not_elem_of_nil in Hp.
  - intros o. destruct (decide (o = own)) as [->|Hne].
    + rewrite E3, uwrap_id by (unfold is_uint; lia). lia.
    + replace o with (negb own) by by destruct o, own. lia.
Qed.

Lemma carries_entry rc lc p : p ∈ carries rc lc -> exists own, p ∈ entries (log_of lc own).
Proof.
  unfold carries, pending. rewrite elem_of_app, !list_elem_of_filter. intros [[_ Hp]|[_ Hp]]; [by exists false|by exists true].
Qed.

Lemma grown_entry lc lc' own p : lc_logs_ok lc -> grown lc lc' -> p ∈ entries (log_of lc' own) ->
  (p ∈ entries (log_of lc own) /\ deref (lc_heap lc') p = deref (lc_heap lc) p) \/
  (logIndex (log_of lc own) <= pd_LogIndex (deref (lc_heap lc') p) /\
   (forall rc, height rc (deref (lc_heap lc') p) = 0) /\ isForwarded (deref (lc_heap lc') p) = false).
Proof.
  intros Hok Hg Hp. destruct (gr_new _ _ Hg own) as (new & He & Hnew). rewrite He, elem_of_app in Hp.
  destruct Hp as [Hp|Hp]; [left|right; by apply Hnew]. split; [done|]. apply (gr_old _ _ Hg).
  by apply (lw_alloc _ _ (log_wf_of lc own Hok)).
Qed.

Lemma grown_dance w lc lc' : dance_ok w lc -> grown lc lc' -> dance_ok w lc'.
Proof.
  intros [Hok Hi Hh Hv Hst] Hg. pose proof (gr_chains _ _ Hg) as Hsc.
  assert (Hch : forall rc, commit_chain lc' rc = commit_chain lc rc) by (intros rc; by apply same_chains_chain).
  destruct Hsc as (Ecs & El & Er & Eh). split; [by apply Hg| | | |].
  - split.
    + intros rc. rewrite Hch. apply Hi.
    + intros rc own c. rewrite Hch. intros Hc. pose proof (ix_bound _ Hi rc own c Hc). pose proof (gr_index _ _ Hg own). lia.
    + intros own c t. rewrite !Hch. apply (ix_acked _ Hi).
  - split.
    + intros rc own c p. rewrite Hch. intros Hc Hp.
      destruct (grown_entry _ _ _ _ Hok Hg Hp) as [[Hp' ->]|(HL & Hz & _)]; [by apply Hh|].
      unfold on_chain. rewrite Hz. pose proof (ix_bound _ Hi rc own c Hc). split; [by intros [? _]|lia].
    + intros rc own t p. rewrite Hch. intros Ht Hp.
      destruct (grown_entry _ _ _ _ Hok Hg Hp) as [[Hp' ->]|(_ & Hz & _)]; [by apply (he_tip _ Hh rc own)|].
      rewrite Hz. pose proof (ch_each _ _ (ix_chain _ Hi rc) t (tip_elem _ _ Ht)) as [? _]. lia.
    + intros t p. rewrite Er. intros Ht Hp Hf.
      destruct (grown_entry _ _ true _ Hok Hg Hp) as [[Hp' E]|(_ & _ & Hz)]; [|congruence]. rewrite E in *. by apply (he_forwarded _ Hh).
  - split.
    + intros rc t. rewrite Hch. intros Ht. unfold htlcs_match. rewrite (va_match _ _ Hv rc t Ht), (grown_carries _ _ rc Hok Hg).
      apply Permutation_refl', list_fmap_ext. intros k p Hp%list_elem_of_lookup_2%carries_entry. destruct Hp as [own Hp].
      f_equal. symmetry. apply (gr_old _ _ Hg). by apply (lw_alloc _ _ (log_wf_of lc own Hok)).
    + intros rc c. rewrite Hch. apply Hv.
    + intros rc c. rewrite Hch, Ecs. apply Hv.
  - destruct Hst as [S1 S2 S3]. split; rewrite ?Ecs, ?El, ?Er, ?Eh; done.
Qed.
End Invariant.

(** ** The updates of a channel *)
Section Updates.
Context `{CurveOps, !ScriptLib, !TxLib, !SigLib}.

(** Every method that adds to a log. *)
Inductive update : Type :=
| Offer (htlc : UpdateAddHTLC) (key : option CircuitKey)
| Receive (htlc : UpdateAddHTLC)
| Resolve (op : removal)
| SetFee (feePerKw : Z)
| ReceiveFee (feePerKw : Z).

Definition run_update (u : update) (lc : LightningChannel) : LightningChannel :=
  match u with
  | Offer htlc key => snd (AddHTLC htlc key lc)
  | Receive htlc => snd (ReceiveHTLC htlc lc)
  | Resolve op => snd (run_removal op lc)
  | SetFee f => snd (UpdateFee f lc)
  | ReceiveFee f => snd (ReceiveUpdateFee f lc)
  end.

(** The counters have not reached the end of 64 bits. *)
Definition room (lc : LightningChannel) : Prop :=
  forall own, logIndex (log_of lc own) + 1 < 2 ^ 64 /\ htlcCounter (log_of lc own) + 1 < 2 ^ 64.

Lemma grown_htlc lc own pd : lc_logs_ok lc -> room lc -> pd_EntryType pd = Add ->
  pd_LogIndex pd = logIndex (log_of lc own) -> pd_HtlcIndex pd = htlcCounter (log_of lc own) -> unseen pd ->
  grown lc (set_log own (appendHtlc (log_of lc own) (length (lc_heap lc))) (with_heap lc pd)).
Proof.
  intros Hok Hr Ht HL HI Hu. destruct (Hr own).
  apply (grown_append lc _ own pd); try done; try (by destruct own). by apply htlc_appended_ok.
Qed.

Lemma unseen_amount pd htlc : unseen pd -> unseen (SetAmtFromHtlcMsg pd htlc) /\ unseen (SetAmtFromMsgHtlc pd htlc).
Proof. unfold SetAmtFromHtlcMsg, SetAmtFromMsgHtlc. repeat case_match; done. Qed.

Lemma htlc_unseen lc htlc key : unseen (htlcAddDescriptor lc htlc key) /\ unseen (htlcReceiveDescriptor lc htlc).
Proof. split; by apply unseen_amount. Qed.

Lemma grown_fee lc own f : lc_logs_ok lc -> room lc ->
  grown lc (set_log own (appendUpdate (log_of lc own) (length (lc_heap lc)))
    (with_heap lc (fee_descriptor (logIndex (log_of lc own)) f (ChanAssetID (channelState lc))))).
Proof.
  intros Hok Hr. destruct (Hr own).
  eapply (grown_append lc _ own _); try done; try (by destruct own). by apply fee_appended_ok.
Qed.

Lemma grown_removal lc op : lc_logs_ok lc -> room lc -> grown lc (snd (run_removal op lc)).
Proof.
  intros Hok Hr. destruct (removal_run op lc) as [Hnone Hsome].
  destruct (lookupHtlc (log_of lc (r_remote op)) (r_index op)) as [q|] eqn:Hq.
  2: { rewrite Hnone by done. by apply grown_refl. }
  destruct (Hsome q eq_refl) as [Hmod Hun].
  destruct (htlcHasModification (log_of lc (r_remote op)) (r_index op)) eqn:Hm.
  { rewrite Hmod by done. by apply grown_refl. }
  destruct (Hun eq_refl) as [Hbad Hgood].
  destruct (lookup_entry lc (r_remote op) _ q Hok Hq) as (_ & _ & Hidx).
  assert (Hdec : (exists pre, r_preimage op = Some pre /\ pd_RHash (deref (lc_heap lc) q) <> Sum256 pre) \/
    (forall pre, r_preimage op = Some pre -> pd_RHash (deref (lc_heap lc) q) = Sum256 pre)).
  { destruct (r_preimage op) as [pre|]; [|by right].
    destruct (decide (pd_RHash (deref (lc_heap lc) q) = Sum256 pre)); [right|left]; naive_solver. }
  destruct Hdec as [(pre & Hpre & Hne)|Hall]; [rewrite (Hbad pre Hpre Hne); by apply grown_refl|].
  destruct (Hgood Hall Hidx) as (pd & -> & Ht & HP & HB & HA & _ & HL & Hu). cbn [snd].
  destruct (Hr (negb (r_remote op))).
  pose proof (with_removal_logs lc (r_remote op) (r_index op) pd (negb (r_remote op))) as [E1 Hh].
  pose proof (with_removal_logs lc (r_remote op) (r_index op) pd (r_remote op)) as [E2 _].
  rewrite bool_decide_eq_false_2 in E1 by (by destruct (r_remote op)). rewrite bool_decide_eq_true_2 in E2 by done.
  apply (grown_append lc _ (negb (r_remote op)) pd); try done; rewrite ?negb_involutive, ?E1, ?E2; try done.
  - apply (removal_appended_ok lc _ _ q); try done. rewrite Ht. by destruct op.
  - unfold with_removal, set_log, same_chains; by destruct (r_remote op).
Qed.

Lemma update_grown u lc : lc_logs_ok lc -> room lc -> grown lc (run_update u lc).
Proof.
  intros Hok Hr. destruct u as [htlc key|htlc|op|f|f]; cbn [run_update].
  - rewrite AddHTLC_run. destruct (htlcAddDescriptor_fields lc htlc key) as (Ht & HL & HI & _).
    destruct (fst (validateAddHtlc _ _)); [|by apply grown_heap..]. exact (grown_htlc lc false _ Hok Hr Ht HL HI (proj1 (htlc_unseen lc htlc key))).
  - destruct (Z.eq_dec (add_ID htlc) (htlcCounter (remoteUpdateLog lc))) as [Hid|Hne].
    + rewrite (ReceiveHTLC_run htlc lc Hid). destruct (htlcReceiveDescriptor_fields lc htlc) as (Ht & HL & HI & _).
      destruct (receive_check lc htlc); [|by apply grown_heap..]. exact (grown_htlc lc true _ Hok Hr Ht HL HI (proj2 (htlc_unseen lc htlc None))).
    + unfold ReceiveHTLC. rewrite (M_bind_run (gets _) _ lc (htlcCounter (remoteUpdateLog lc)) lc eq_refl).
      unfold mbind, M_bind, check. rewrite (proj2 (Z.eqb_neq _ _) Hne). by apply grown_refl.
  - by apply grown_removal.
  - unfold UpdateFee. rewrite (M_bind_run (gets _) _ lc (IsInitiator (channelState lc)) lc eq_refl).
    destruct (IsInitiator (channelState lc)); [|by apply grown_refl].
    rewrite (M_bind_run (check false _) _ lc tt lc eq_refl).
    rewrite (M_bind_pair (validateFeeRate f) _ lc (fst (validateFeeRate f lc)) lc)
      by (rewrite <- (validateFeeRate_pure f lc) at 3; apply surjective_pairing).
    destruct (fst (validateFeeRate f lc)); [|by apply grown_refl..]. by apply (grown_fee lc false).
  - unfold ReceiveUpdateFee. rewrite (M_bind_run (gets _) _ lc (IsInitiator (channelState lc)) lc eq_refl).
    destruct (IsInitiator (channelState lc)); [by apply grown_refl|]. by apply (grown_fee lc true).
Qed.
End Updates.
