(* ===== verification/Safety.v ===== *)
(** * Signing, accepting and revoking keep the invariant *)

From S2P Require Import Prelude Wire Messages ChanIds Units Sha256 Shachain Sig Tx OmniOp Keys Scripts FwdPkg UpdateLog ChanDB Commitment Channel ChannelOps ChannelSign Views Dance Protocol Reach.

(** ** A chain with one commitment more *)
Section Extending.
Context `{CurveOps, !ScriptLib, !TxLib, !SigLib}.

(** Two commitments that differ in signatures and transactions only. *)
Record same_commit (v v2 : commitment) : Prop := {
  sc_height : c_height v2 = c_height v;
  sc_ours : c_isOurs v2 = c_isOurs v;
  sc_index own : c_index own v2 = c_index own v;
  sc_money : pd_money <$> htlcs v2 = pd_money <$> htlcs v;
  sc_values : asset_value v2 = asset_value v /\ btc_value v2 = btc_value v
}.

Lemma same_commit_refl v : same_commit v v.
Proof. done. Qed.

(** [lc2] is [lc1], reached from [lc] by a view, with [v2] at the end of a chain. *)
Record extended (rc : bool) (lc lc1 : LightningChannel) (v2 : commitment) (lc2 : LightningChannel) : Prop := {
  xt_heap : lc_heap lc2 = lc_heap lc1;
  xt_log own : log_of lc2 own = log_of lc1 own;
  xt_chain : commit_chain lc2 rc = commit_chain lc rc ++ [v2];
  xt_other : commit_chain lc2 (negb rc) = commit_chain lc (negb rc);
  xt_asset : ChanAssetID (channelState lc2) = ChanAssetID (channelState lc)
}.

Lemma lc_logs_ok_ext lc lc' : lc_heap lc' = lc_heap lc -> (forall own, log_of lc' own = log_of lc own) ->
  lc_logs_ok lc -> lc_logs_ok lc'.
Proof.
  intros Hh Hl [Hlogs Ham]. pose proof (Hl false) as E1. pose proof (Hl true) as E2. cbn in E1, E2. split.
  - by rewrite Hh, E1, E2.
  - intros own p q. unfold parent_of. rewrite !Hl, Hh. apply Ham.
Qed.

Lemma carries_ext rc lc lc' : lc_heap lc' = lc_heap lc -> (forall own, log_of lc' own = log_of lc own) ->
  carries rc lc' = carries rc lc.
Proof. intros Hh Hl. unfold carries. pose proof (Hl false) as E1. pose proof (Hl true) as E2. cbn in E1, E2. by rewrite Hh, E1, E2. Qed.

Section Extension.
Variables (w : worth) (rc : bool) (j i : Z) (lc lc1 lc2 : LightningChannel) (t v v2 : commitment).
Hypothesis (Hok : dance_ok w lc) (Htip : tip (commit_chain lc rc) = Ok t).
Hypothesis (Hex : extends rc j i lc lc1 t v) (Hsame : same_commit v v2) (Hxt : extended rc lc lc1 v2 lc2).
Hypothesis Hrange : forall own, c_index own t <= c_index own v <= logIndex (log_of lc own).
Hypothesis Hacked : forall tl, chain_tail (commit_chain lc (negb rc)) = Ok tl -> c_index rc v <= c_index rc tl.
Hypothesis Hbtc : ChanAssetID (channelState lc) <= BtcAssetId -> eqw 64 (btc_value v) (btc_value t).

Lemma extended_log own : log_of lc2 own = log_of lc own.
Proof. rewrite (xt_log _ _ _ _ _ Hxt). apply viewed_logs. by apply Hex. Qed.

Lemma extended_pd p : pd_money (deref (lc_heap lc2) p) = pd_money (deref (lc_heap lc) p).
Proof. rewrite (xt_heap _ _ _ _ _ Hxt). apply (vw_heap _ _ (ex_viewed _ _ _ _ _ _ _ Hex)). Qed.

Lemma extended_index p : pd_LogIndex (deref (lc_heap lc2) p) = pd_LogIndex (deref (lc_heap lc) p).
Proof. pose proof (extended_pd p) as E. unfold pd_money, pd_id in E. congruence. Qed.

Lemma extended_elem rc' c : c ∈ commit_chain lc2 rc' -> c ∈ commit_chain lc rc' \/ rc' = rc /\ c = v2.
Proof.
  destruct (decide (rc' = rc)) as [->|Hne].
  - rewrite (xt_chain _ _ _ _ _ Hxt), elem_of_snoc. tauto.
  - replace rc' with (negb rc) by by destruct rc', rc. rewrite (xt_other _ _ _ _ _ Hxt). tauto.
Qed.

Lemma extended_tip rc' c : tip (commit_chain lc2 rc') = Ok c ->
  rc' = rc /\ c = v2 \/ rc' = negb rc /\ tip (commit_chain lc (negb rc)) = Ok c.
Proof.
  destruct (decide (rc' = rc)) as [->|Hne].
  - rewrite (xt_chain _ _ _ _ _ Hxt), tip_snoc. intros E. left. split; [done|]. by injection E.
  - replace rc' with (negb rc) by by destruct rc', rc. rewrite (xt_other _ _ _ _ _ Hxt). tauto.
Qed.

Lemma extended_tail rc' c : chain_tail (commit_chain lc2 rc') = Ok c -> chain_tail (commit_chain lc rc') = Ok c.
Proof.
  destruct (decide (rc' = rc)) as [->|Hne].
  - rewrite (xt_chain _ _ _ _ _ Hxt). destruct (commit_chain lc rc); [done|]. by cbn.
  - replace rc' with (negb rc) by by destruct rc', rc. by rewrite (xt_other _ _ _ _ _ Hxt).
Qed.

Lemma extended_logs_ok : lc_logs_ok lc2.
Proof.
  apply (lc_logs_ok_ext lc1); [by apply Hxt..|]. apply (viewed_logs_ok lc); [by apply Hex|by apply Hok].
Qed.

Lemma extended_indexed : indexed lc2.
Proof.
  pose proof (do_index _ _ Hok) as Hi. split.
  - intros rc'. destruct (decide (rc' = rc)) as [->|Hne].
    + rewrite (xt_chain _ _ _ _ _ Hxt). destruct (ex_height _ _ _ _ _ _ _ Hex) as [Hh Hm].
      apply (chain_ok_snoc rc _ t); [by apply Hi|done|..].
      * by rewrite (sc_height _ _ Hsame).
      * by rewrite (sc_height _ _ Hsame).
      * rewrite (sc_ours _ _ Hsame). apply Hex.
      * intros own. rewrite (sc_index _ _ Hsame). apply Hrange.
    + replace rc' with (negb rc) by by destruct rc', rc. rewrite (xt_other _ _ _ _ _ Hxt). apply Hi.
  - intros rc' own c [Hc|[-> ->]]%extended_elem; rewrite extended_log; [by apply (ix_bound _ Hi rc')|].
    rewrite (sc_index _ _ Hsame). apply Hrange.
  - intros own c tl Hc Htl%extended_tail. apply extended_elem in Hc as [Hc|[-> ->]]; [by apply (ix_acked _ Hi)|].
    rewrite (sc_index _ _ Hsame). by apply Hacked.
Qed.

Lemma extended_height own p : p ∈ entries (log_of lc own) ->
  height (negb rc) (deref (lc_heap lc2) p) = height (negb rc) (deref (lc_heap lc) p) /\
  height rc (deref (lc_heap lc2) p) =
    if (pd_LogIndex (deref (lc_heap lc) p) <? c_index own v) && (height rc (deref (lc_heap lc) p) =? 0)
    then c_height v else height rc (deref (lc_heap lc) p).
Proof. intros Hp. rewrite (xt_heap _ _ _ _ _ Hxt), (ex_index _ _ _ _ _ _ _ Hex own). by apply Hex. Qed.

Lemma extended_heighted : heighted lc2.
Proof.
  pose proof (do_height _ _ Hok) as Hh. pose proof (do_index _ _ Hok) as Hi. destruct (ex_height _ _ _ _ _ _ _ Hex) as [Hnext _].
  pose proof (ch_each _ _ (ix_chain _ Hi rc) t (tip_elem _ _ Htip)) as [Hpos _].
  assert (Hother : forall rc', rc' <> rc -> rc' = negb rc) by by intros [] ?; destruct rc.
  split.
  - intros rc' own c p Hc. rewrite extended_log, extended_index. intros Hp. unfold on_chain.
    destruct (extended_height own p Hp) as [E1 E2]. pose proof (he_tip _ Hh rc own t p Htip Hp) as Hle.
    apply extended_elem in Hc as [Hc|[-> ->]].
    + pose proof (he_at _ Hh rc' own c p Hc Hp) as Hat. unfold on_chain in Hat.
      destruct (decide (rc' = rc)) as [->|Hne%Hother]; [|subst rc'; by rewrite E1]. rewrite E2, <- Hat.
      pose proof (chain_ok_tip _ _ _ c (ix_chain _ Hi rc) Htip Hc) as [? _].
      destruct (Z.eqb_spec (height rc (deref (lc_heap lc) p)) 0) as [Hz|Hz]; [|by rewrite andb_false_r, (proj2 (Z.eqb_neq _ _) Hz)].
      rewrite andb_true_r, Hz. split; [|by intros [? _]]. intros [Ho Hb]. exfalso.
      destruct (pd_LogIndex (deref (lc_heap lc) p) <? c_index own v) ; [lia|done].
    + rewrite (sc_height _ _ Hsame), (sc_index _ _ Hsame).
      pose proof (ex_recorded _ _ _ _ _ _ _ Hex own p) as Hrec.
      rewrite <- (xt_log _ _ _ _ _ Hxt), extended_log, <- (xt_heap _ _ _ _ _ Hxt), <- (ex_index _ _ _ _ _ _ _ Hex own), extended_index in Hrec.
      specialize (Hrec Hp). unfold on_chain in Hrec. rewrite Hrec, bool_decide_eq_true, E2.
      destruct (_ && _); split; [by intros [? _]|split; [done|lia]|by intros [? _]|split; [done|lia]].
  - intros rc' own c p Hc. rewrite extended_log. intros Hp. destruct (extended_height own p Hp) as [E1 E2].
    apply extended_tip in Hc as [[-> ->]|[-> Hc]].
    + rewrite E2, (sc_height _ _ Hsame). pose proof (he_tip _ Hh rc own t p Htip Hp) as Hle. destruct (_ && _); lia.
    + rewrite E1. by apply (he_tip _ Hh _ own).
  - intros c p Hc. pose proof (extended_log true) as E. cbn in E. rewrite E. intros Hp. rewrite extended_index.
    rewrite (xt_heap _ _ _ _ _ Hxt), (ex_forwarded _ _ _ _ _ _ _ Hex). apply (he_forwarded _ Hh); [|done].
    by apply (extended_tail true).
Qed.

Lemma extended_valued : valued w lc2.
Proof.
  pose proof (do_height _ _ Hok) as Hh. pose proof (do_value _ _ Hok) as Hv.
  split.
  - intros rc' c [[-> ->]|[-> Hc]]%extended_tip.
    + unfold htlcs_match. rewrite (sc_money _ _ Hsame), (ex_match _ _ _ _ _ _ _ Hex).
      rewrite (carries_ext rc lc1 lc2) by by apply Hxt. by rewrite (xt_heap _ _ _ _ _ Hxt).
    + apply (match_same (negb rc) lc lc2 (c_theirMessageIndex c) (c_ourMessageIndex c)).
      * by apply heighted_recorded.
      * apply (heighted_recorded lc2); [apply extended_heighted|]. by rewrite (xt_other _ _ _ _ _ Hxt).
      * rewrite (xt_heap _ _ _ _ _ Hxt). by apply Hex.
      * apply extended_log.
      * by apply (va_match _ _ Hv).
  - intros rc' c [Hc|[-> ->]]%extended_elem; [by apply (va_asset _ _ Hv rc')|].
    rewrite (proj1 (sc_values _ _ Hsame)). transitivity (asset_value t); [apply Hex|].
    apply (va_asset _ _ Hv rc). by apply tip_elem.
  - intros rc' c Hc. rewrite (xt_asset _ _ _ _ _ Hxt). intros Ha.
    apply extended_elem in Hc as [Hc|[-> ->]]; [by apply (va_btc _ _ Hv rc')|].
    rewrite (proj2 (sc_values _ _ Hsame)). transitivity (btc_value t); [by apply Hbtc|].
    apply (va_btc _ _ Hv rc); [by apply tip_elem|done].
Qed.
End Extension.
End Extending.

(** ** The four methods of the dance *)
Section Methods.
Context `{CurveOps, !ScriptLib, !TxLib, !SigLib}.

(** In a bitcoin channel, fees are below 2^53 satoshis: 2^53 is over four times
    the satoshis there will ever be. *)
Definition fees_ok (lc : LightningChannel) : Prop :=
  ChanAssetID (channelState lc) <= BtcAssetId -> forall rc c, c ∈ commit_chain lc rc -> 0 <= c_fee c < 2 ^ 53.

Lemma no_unacked w lc : dance_ok w lc -> hasUnackedCommitment (remoteCommitChain lc) = false ->
  exists t, remoteCommitChain lc = [t] /\ RemoteCommitment (channelState lc) = toDiskCommit t false.
Proof.
  intros Hok Hw. destruct (st_remote _ (do_stored _ _ Hok)) as (t & Hd & [[E _]|(v & d & E & _)]); [by exists t|].
  by rewrite E in Hw.
Qed.

Lemma totals_only_read {X} (f : OpenChannel -> X) c c' : totals_only c c' ->
  (forall c a b d e, f (c <| TotalMSatSent := a |> <| TotalMSatReceived := b |> <| TotalAssetSent := d |>
    <| TotalAssetReceived := e |>) = f c) -> f c' = f c.
Proof. intros Ht Hf. rewrite Ht. apply Hf. Qed.

Lemma viewed_fields lc lc' : viewed lc lc' ->
  localCommitChain lc' = localCommitChain lc /\ remoteCommitChain lc' = remoteCommitChain lc /\ currentHeight lc' = currentHeight lc /\
  let cs := channelState lc in let cs' := channelState lc' in
  LocalCommitment cs' = LocalCommitment cs /\ RemoteCommitment cs' = RemoteCommitment cs /\ ChanBucket cs' = ChanBucket cs /\
  ChanAssetID cs' = ChanAssetID cs.
Proof.
  intros [_ Hr Ht]. rewrite Hr. do 3 (split; [done|]). cbn.
  repeat split; apply (totals_only_read _ _ _ Ht); done.
Qed.

Lemma fee_of_tip (lc : LightningChannel) rc v s : fees_ok lc -> ChanAssetID (channelState lc) <= BtcAssetId ->
  commit_chain lc rc = s ++ [v] -> 0 <= c_fee v < 2 ^ 53.
Proof. intros Hf Ha E. apply (Hf Ha rc). rewrite E. apply elem_of_snoc. by right. Qed.

Lemma sign_dance w lc r lc' : dance_ok w lc -> fees_ok lc' -> SignNextCommitment lc = (Ok r, lc') -> dance_ok w lc'.
Proof.
  intros Hok Hfees Hrun. destruct r as [[sig htlcSigs] hs].
  destruct (sign_inv _ _ _ _ _ Hrun) as (cp & lt & v & lc1 & jobs & c2 & _ & Hw & Hlt & Hval & Hv & _ & _ & _ & Hdb & -> & _).
  destruct (no_unacked w lc Hok Hw) as (t & Hchain & Hdisk).
  pose proof (do_index _ _ Hok) as Hi. pose proof (do_logs _ _ Hok) as Hlogs.
  assert (Htip : tip (commit_chain lc true) = Ok t) by (cbn; by rewrite Hchain).
  pose proof (heighted_recorded _ _ _ (do_height _ _ Hok) Htip) as Hrec.
  pose proof (va_match _ _ (do_value _ _ Hok) true t Htip) as Hm.
  pose proof (ch_each _ _ (ix_chain _ Hi true) t (tip_elem _ _ Htip)) as [Hh _].
  pose proof (ix_acked _ Hi true t lt (tip_elem _ _ Htip) Hlt) as Hack.
  pose proof (ix_bound _ Hi true false t (tip_elem _ _ Htip)) as Hb.
  pose proof (ix_bound _ Hi false true lt (tail_elem _ _ Hlt)) as Hb'. cbn in Hack, Hb, Hb'.
  pose proof (fetch_extends _ _ _ _ _ _ _ _ _ _ Hv Hlogs Htip Hh Hrec Hm Hack Hb) as Hex.
  destruct (viewed_fields _ _ (ex_viewed _ _ _ _ _ _ _ Hex)) as (El & Er & Eh & Ec1 & Ec2 & Ec3 & Ec4).
  apply append_diff_Ok in Hdb as (_ & fp & ->).
  set (lc' := lc1 <| channelState := _ |> <| remoteCommitChain ::= _ |>) in *.
  assert (Hchain' : remoteCommitChain lc' = [t; v]) by (unfold lc'; cbn; by rewrite Er, Hchain).
  assert (Hxt : extended true lc lc1 v lc').
  { split; [done|by intros []|cbn [commit_chain]; by rewrite Hchain', Hchain|exact El|exact Ec4]. }
  assert (Hrange : forall own, c_index own t <= c_index own v <= logIndex (log_of lc own)).
  { intros own. rewrite (ex_index _ _ _ _ _ _ _ Hex own). destruct own; cbn; lia. }
  assert (Hacked : forall tl, chain_tail (commit_chain lc false) = Ok tl -> c_index true v <= c_index true tl).
  { intros tl Htl. cbn in Htl. rewrite Hlt in Htl. injection Htl as <-. by rewrite (ex_index _ _ _ _ _ _ _ Hex true). }
  assert (Hbtc : ChanAssetID (channelState lc) <= BtcAssetId -> eqw 64 (btc_value v) (btc_value t)).
  { intros Ha. eapply fetch_btc; try done. apply (fee_of_tip lc' true v [t] Hfees); [|done]. cbn. by rewrite Ec4. }
  split.
  - by eapply (extended_logs_ok w true).
  - by eapply (extended_indexed w true).
  - by eapply (extended_heighted w true).
  - by eapply (extended_valued w true).
  - destruct (do_stored _ _ Hok) as [(t0 & Ht0 & Hcur & Hloc) _ Hlog]. split.
    + exists t0. cbn. by rewrite El, Eh, Ec1.
    + exists t. rewrite Hchain'. cbn. rewrite Ec2. split; [done|]. right. eexists v, _. done.
    + unfold log_ok in *. cbn. by rewrite Ec2, Ec3.
Qed.

Lemma jobs_keep cs kr sigs c c' jobs : genHtlcSigValidationJobs cs kr sigs c = Ok (c', jobs) ->
  c' = c <| outgoingHTLCs := outgoingHTLCs c' |> <| incomingHTLCs := incomingHTLCs c' |> /\ pd_money <$> htlcs c' = pd_money <$> htlcs c.
Proof.
  unfold genHtlcSigValidationJobs. intros Hrun. apply res_bind_Ok in Hrun as ([[c1 j1] rest] & Hr & Hrun).
  apply verifyJobs_keeps in Hr. destruct rest; [|done]. by injection Hrun as <- _.
Qed.

Lemma receive_sig_dance w lc commitSig htlcSigs u lc' : dance_ok w lc -> fees_ok lc' ->
  ReceiveNewCommitment commitSig htlcSigs lc = (Ok u, lc') -> dance_ok w lc'.
Proof.
  intros Hok Hfees Hrun.
  destruct (receive_sig_inv _ _ _ _ _ Hrun) as (rt & secret & v & lc1 & sh & v' & jobs & cSig & Hrt & Hval & _ & Hv & _ & Hj & _ & _ & _ & ->).
  destruct (jobs_keep _ _ _ _ _ _ Hj) as [Ev Emoney].
  pose proof (do_index _ _ Hok) as Hi. pose proof (do_logs _ _ Hok) as Hlogs.
  destruct (st_local _ (do_stored _ _ Hok)) as (lt & Hlt & Hcur & Hloc).
  assert (exists t, tip (localCommitChain lc) = Ok t) as [t Htip].
  { unfold tip. destruct (list.last _) eqn:E; [eauto|]. by apply last_None in E; rewrite E in Hlt. }
  pose proof (heighted_recorded lc false t (do_height _ _ Hok) Htip) as Hrec.
  pose proof (va_match _ _ (do_value _ _ Hok) false t Htip) as Hm.
  pose proof (ch_each _ _ (ix_chain _ Hi false) t (tip_elem _ _ Htip)) as [Hh _].
  pose proof (ix_acked _ Hi false t rt (tip_elem _ _ Htip) Hrt) as Hack.
  pose proof (ix_bound _ Hi false true t (tip_elem _ _ Htip)) as Hb.
  pose proof (ix_bound _ Hi true false rt (tail_elem _ _ Hrt)) as Hb'. cbn in Hack, Hb, Hb'.
  pose proof (fetch_extends _ _ _ _ _ _ _ _ _ _ Hv Hlogs Htip Hh Hrec Hm Hb Hack) as Hex.
  destruct (viewed_fields _ _ (ex_viewed _ _ _ _ _ _ _ Hex)) as (El & Er & Eh & Ec1 & Ec2 & Ec3 & Ec4).
  set (v2 := v' <| c_sig := _ |>) in *. set (lc' := lc1 <| localCommitChain ::= _ |>) in *.
  assert (Hchain' : localCommitChain lc' = localCommitChain lc ++ [v2]) by (unfold lc'; cbn; by rewrite El).
  assert (Hsame : same_commit v v2).
  { assert (Emoney2 : pd_money <$> htlcs v2 = pd_money <$> htlcs v) by exact Emoney.
    destruct (money_sums (lc_heap lc1) (carries false lc1) (htlcs v2)) as [F1 F2]; [rewrite Emoney2; apply Hex|].
    destruct (money_sums _ _ _ (ex_match _ _ _ _ _ _ _ Hex)) as [G1 G2].
    split; try done; unfold v2; rewrite Ev; try done; try by intros []. unfold asset_value, btc_value.
    unfold v2 in F1, F2. rewrite Ev in F1, F2. rewrite F1, F2, G1, G2. done. }
  assert (Hxt : extended false lc lc1 v2 lc') by (split; [done|by intros []|exact Hchain'|exact Er|exact Ec4]).
  assert (Hrange : forall own, c_index own t <= c_index own v <= logIndex (log_of lc own)).
  { intros own. rewrite (ex_index _ _ _ _ _ _ _ Hex own). destruct own; cbn; lia. }
  assert (Hacked : forall tl, chain_tail (commit_chain lc true) = Ok tl -> c_index false v <= c_index false tl).
  { intros tl Htl. cbn in Htl. rewrite Hrt in Htl. injection Htl as <-. by rewrite (ex_index _ _ _ _ _ _ _ Hex false). }
  assert (Hbtc : ChanAssetID (channelState lc) <= BtcAssetId -> eqw 64 (btc_value v) (btc_value t)).
  { intros Ha. eapply fetch_btc; try done. assert (E : c_fee v = c_fee v2) by (unfold v2; by rewrite Ev).
    rewrite E. apply (fee_of_tip lc' false v2 (localCommitChain lc) Hfees); [|done]. cbn. by rewrite Ec4. }
  split.
  - by eapply (extended_logs_ok w false).
  - by eapply (extended_indexed w false).
  - by eapply (extended_heighted w false).
  - by eapply (extended_valued w false).
  - destruct (do_stored _ _ Hok) as [_ Hrem Hlog]. split.
    + exists lt. rewrite Hchain'. split; [by apply tail_snoc|]. cbn. by rewrite Eh, Ec1.
    + cbn. by rewrite Er, Ec2, Ec3.
    + unfold log_ok in *. cbn. by rewrite Ec2, Ec3.
Qed.

(** *** Dropping the tail of a chain *)
Lemma dropped_chain rc (lc lc' : LightningChannel) c0 c1 rest : commit_chain lc rc = c0 :: c1 :: rest ->
  commit_chain lc' rc = c1 :: rest -> commit_chain lc' (negb rc) = commit_chain lc (negb rc) ->
  (forall rc' c, c ∈ commit_chain lc' rc' -> c ∈ commit_chain lc rc') /\
  (forall rc', tip (commit_chain lc' rc') = tip (commit_chain lc rc')).
Proof.
  intros E1 E2 E3. assert (Hcase : forall rc', rc' = rc \/ rc' = negb rc) by (intros []; destruct rc; tauto). split.
  - intros rc' c. destruct (Hcase rc') as [->| ->]; [|by rewrite E3]. rewrite E1, E2. intros Hc. by right.
  - intros rc'. destruct (Hcase rc') as [->| ->]; [|by rewrite E3]. by rewrite E1, E2.
Qed.

Lemma dropped_indexed rc (lc lc' : LightningChannel) c0 c1 rest : indexed lc -> commit_chain lc rc = c0 :: c1 :: rest ->
  commit_chain lc' rc = c1 :: rest -> commit_chain lc' (negb rc) = commit_chain lc (negb rc) ->
  (forall own, logIndex (log_of lc' own) = logIndex (log_of lc own)) -> indexed lc'.
Proof.
  intros Hi E1 E2 E3 Hl. destruct (dropped_chain rc lc lc' c0 c1 rest E1 E2 E3) as [Hsub _].
  assert (Hcase : forall rc', rc' = rc \/ rc' = negb rc) by (intros []; destruct rc; tauto). split.
  - intros rc'. destruct (Hcase rc') as [->| ->]; [|rewrite E3; apply Hi]. rewrite E2. pose proof (ix_chain _ Hi rc) as Hc.
    rewrite E1 in Hc. by eapply chain_ok_tail.
  - intros rc' own c Hc. rewrite Hl. by apply (ix_bound _ Hi rc'), Hsub.
  - intros own c tl Hc%Hsub Htl. destruct (Hcase (negb own)) as [E|E].
    + rewrite E, E2 in Htl. injection Htl as <-.
      pose proof (ix_acked _ Hi own c c0 Hc) as Ha. rewrite E, E1 in Ha. specialize (Ha eq_refl).
      pose proof (ix_chain _ Hi rc) as Hch. rewrite E1 in Hch.
      destruct (ch_next _ _ Hch 0 c0 c1 eq_refl eq_refl) as [_ Hn]. specialize (Hn own). lia.
    + apply (ix_acked _ Hi own c tl Hc). by rewrite E, <- E3, <- E.
Qed.

Lemma revoke_dance w lc r lc' : dance_ok w lc -> RevokeCurrentCommitment lc = (Ok r, lc') -> dance_ok w lc'.
Proof.
  intros Hok Hrun. destruct r as [msg hs].
  destruct (revoke_inv _ _ _ _ Hrun) as (t0 & t1 & rest & us & c' & _ & Hchain & Hdb & -> & _).
  destruct (update_commitment_Ok _ _ _ _ _ Hdb) as (_ & Eloc & Erem & _ & _ & Ediff & Elog & Easset).
  set (lc' := lc <| localCommitChain := _ |> <| currentHeight ::= _ |> <| channelState := _ |>) in *.
  pose proof (do_index _ _ Hok) as Hi. pose proof (do_height _ _ Hok) as Hh. pose proof (do_value _ _ Hok) as Hv.
  destruct (dropped_chain false lc lc' t0 t1 rest Hchain eq_refl eq_refl) as [Hsub Htips].
  split.
  - by apply (lc_logs_ok_ext lc); [|intros []|apply Hok].
  - by apply (dropped_indexed false lc lc' t0 t1 rest Hi Hchain).
  - split.
    + intros rc own c p Hc%Hsub Hp. apply (he_at _ Hh rc own c p Hc). by destruct own.
    + intros rc own c p Hc. rewrite Htips in Hc. intros Hp. apply (he_tip _ Hh rc own c p Hc). by destruct own.
    + apply (he_forwarded _ Hh).
  - split.
    + intros rc t. rewrite Htips. apply (va_match _ _ Hv).
    + intros rc c Hc%Hsub. by apply (va_asset _ _ Hv rc).
    + intros rc c Hc%Hsub. change (ChanAssetID (channelState lc')) with (ChanAssetID c'). rewrite Easset. by apply (va_btc _ _ Hv rc).
  - destruct (do_stored _ _ Hok) as [(t & Ht & Hcur & _) Hr Hlog]. rewrite Hchain in Ht. injection Ht as <-. split.
    + exists t1. split; [done|]. split; [|done]. cbn. rewrite Hcur.
      pose proof (ix_chain _ Hi false) as Hch. cbn in Hch. rewrite Hchain in Hch.
      destruct (ch_next _ _ Hch 0 t0 t1 eq_refl eq_refl) as [Hn _].
      destruct (ch_each _ _ Hch t1) as [Hm _]; [right; by left|].
      rewrite Hn. apply uwrap_id. unfold is_uint, maxStateHint in *. lia.
    + cbn. by rewrite Erem, Ediff.
    + unfold log_ok in *. cbn. by rewrite Erem, Elog.
Qed.

(** *** Receiving a revocation *)
Lemma spent_on_chain rc h l r q : spent h l r q -> is_removal (pd_EntryType (deref h q)) = true -> on_chain rc (deref h q) = true.
Proof.
  intros [_ Hc] Hm. unfold compactable in Hc. unfold on_chain, height, removeHeight. rewrite Hm.
  destruct rc; destruct (_ =? 0), (_ =? 0); done.
Qed.

(** Compacting the logs changes nothing of what a chain carries. *)
Lemma compact_pending rc h l r A B A' B' : NoDup (entries A) -> compacted h l r A B A' -> compacted h l r B A B' ->
  pending rc h (entries A') (entries B') ≡ₚ pending rc h (entries A) (entries B).
Proof.
  intros Hnd (HsA & HA & _) (_ & HB & _). rewrite !pending_alt.
  assert (Hnd' : NoDup (entries A')) by by eapply sublist_NoDup.
  apply NoDup_Permutation; [by apply list.NoDup_filter..|]. intros p. rewrite !list_elem_of_filter, !elem_of_removed_ids, HA.
  setoid_rewrite list_elem_of_filter. setoid_rewrite HB. split.
  - intros ([Ht [Ho Hn]] & Hp & Hs & Hr). split; [|done]. split; [done|split; [done|]]. intros (q & [Hq Hqb] & Hm & Hi).
    apply Hn. exists q. split; [|done]. split; [done|]. split; [done|]. split.
    + intros Hsp. apply Hr. split; [done|]. by exists q.
    + intros [Ha _]. by rewrite Ha in Hm.
  - intros ([Ht [Ho Hn]] & Hp). split; [|split; [done|split; [by intros [? _]|]]].
    + split; [done|split; [done|]]. intros (q & [Hq [Hqb _]] & Hm & Hi). apply Hn. by exists q.
    + intros [_ (q & Hq & Hsp & Hm & Hi)]. apply Hn. exists q. split; [|done]. split; [|done]. by apply (spent_on_chain rc h l r).
Qed.

(** The entries between two indexes of the peer's log that are not fee updates. *)
Definition committed_between (lc : LightningChannel) (rt v : commitment) (p : ptr) : Prop :=
  p ∈ entries (remoteUpdateLog lc) /\ c_theirMessageIndex rt <= pd_LogIndex (deref (lc_heap lc) p) < c_theirMessageIndex v.

(** What a revocation forwards is what it moves below the peer's tail. *)
Lemma forwarded_between w lc rt v rest lt p : dance_ok w lc -> remoteCommitChain lc = rt :: v :: rest ->
  chain_tail (localCommitChain lc) = Ok lt -> p ∈ entries (remoteUpdateLog lc) ->
  let pd := deref (lc_heap lc) p in
  (to_forward fwd_add (c_height v) (c_height lt) pd = true <-> pd_EntryType pd = Add /\ committed_between lc rt v p) /\
  (to_forward fwd_rmv (c_height v) (c_height lt) pd = true <->
     is_removal (pd_EntryType pd) = true /\ committed_between lc rt v p).
Proof.
  intros Hok Hchain Hlt Hp pd. pose proof (do_index _ _ Hok) as Hi. pose proof (do_height _ _ Hok) as Hh.
  assert (Hrt : rt ∈ commit_chain lc true) by (cbn; rewrite Hchain; by left).
  assert (Hv : v ∈ commit_chain lc true) by (cbn; rewrite Hchain; right; by left).
  pose proof (tail_elem _ _ Hlt) as Hl.
  pose proof (he_at _ Hh true true rt p Hrt Hp) as Art. pose proof (he_at _ Hh true true v p Hv Hp) as Av.
  pose proof (he_at _ Hh false true lt p Hl Hp) as Al.
  pose proof (ix_acked _ Hi true v lt Hv Hlt) as Hack. cbn [c_index] in *.
  pose proof (ix_chain _ Hi true) as Hch. cbn in Hch. rewrite Hchain in Hch.
  destruct (ch_next _ _ Hch 0 rt v eq_refl eq_refl) as [Hnext _]. destruct (ch_each _ _ Hch v) as [Hpos _]; [right; by left|].
  pose proof (he_forwarded _ Hh rt p ltac:(by rewrite Hchain) Hp) as Hf.
  assert (exists tl, tip (localCommitChain lc) = Ok tl) as [tl Htl].
  { unfold tip. destruct (list.last _) eqn:E; [eauto|]. by apply last_None in E; rewrite E in Hlt. }
  assert (exists tr, tip (remoteCommitChain lc) = Ok tr) as [tr Htr].
  { unfold tip. destruct (list.last _) eqn:E; [eauto|]. by apply last_None in E; rewrite E in Hchain. }
  pose proof (he_tip _ Hh false true tl p Htl Hp) as Bl. pose proof (he_tip _ Hh true true tr p Htr Hp) as Br.
  fold pd in Art, Av, Al, Hf, Bl, Br. unfold committed_between. fold pd.
  assert (Hkey : (0 < height true pd /\ 0 < height false pd /\ c_height v = height true pd /\ height false pd <= c_height lt <->
    c_theirMessageIndex rt <= pd_LogIndex pd < c_theirMessageIndex v) /\
    (c_theirMessageIndex rt <= pd_LogIndex pd -> isForwarded pd = false)).
  { split; [|intros Hle; destruct (isForwarded pd); [specialize (Hf eq_refl); lia|done]].
    unfold on_chain in *. rewrite !negb_true_iff, !Z.eqb_neq in *. lia. }
  destruct Hkey as [Hkey Hunf]. clear Art Av Al Hf Bl Br.
  unfold to_forward, fwd_add, fwd_rmv, height, addHeight, removeHeight in *.
  rewrite !andb_true_iff, negb_true_iff, orb_false_iff, !bool_decide_eq_true, bool_decide_eq_false, !Z.ltb_lt, !Z.eqb_eq, !Z.leb_le.
  split; destruct (pd_EntryType pd); cbn [is_removal] in *; split; intros Hfw; decompose [and] Hfw; try done.
  all: first [split; [done|]; split; [done|apply Hkey; tauto]|split; [split; [done|apply Hunf; tauto]|]; repeat split; try done; tauto].
Qed.

Lemma unforwarded_read {X} (f : PaymentDescriptor -> X) h h' p : pd_unforwarded (deref h' p) = pd_unforwarded (deref h p) ->
  (forall pd, f (pd_unforwarded pd) = f pd) -> f (deref h' p) = f (deref h p).
Proof. intros E Hf. by rewrite <- (Hf (deref h' p)), E, Hf. Qed.

(** What an accepted revocation did. *)
Record revoked (lc : LightningChannel) (rt v lt : commitment) (adds rmvs : list ptr) (lc' : LightningChannel) : Prop := {
  rv_chain : remoteCommitChain lc = [rt; v] /\ remoteCommitChain lc' = [v];
  rv_tail : chain_tail (localCommitChain lc) = Ok lt;
  rv_local : localCommitChain lc' = localCommitChain lc /\ currentHeight lc' = currentHeight lc;
  rv_adds : adds = filter (fun p => to_forward fwd_add (c_height v) (c_height lt) (deref (lc_heap lc) p) = true) (entries (remoteUpdateLog lc));
  rv_rmvs : rmvs = filter (fun p => to_forward fwd_rmv (c_height v) (c_height lt) (deref (lc_heap lc) p) = true) (entries (remoteUpdateLog lc));
  rv_heap p : pd_unforwarded (deref (lc_heap lc') p) = pd_unforwarded (deref (lc_heap lc) p) /\
    isForwarded (deref (lc_heap lc') p) = isForwarded (deref (lc_heap lc) p) || bool_decide (p ∈ adds ++ rmvs);
  rv_logs own : compacted (lc_heap lc') (c_height lt) (c_height v) (log_of lc own) (log_of lc (negb own)) (log_of lc' own);
  rv_ok : logs_ok (lc_heap lc') (localUpdateLog lc') (remoteUpdateLog lc');
  rv_state : LocalCommitment (channelState lc') = LocalCommitment (channelState lc) /\
    RemoteCommitment (channelState lc') = toDiskCommit v false /\ db_commitDiff (ChanBucket (channelState lc')) = None /\
    db_revocationLog (ChanBucket (channelState lc')) = <[CommitHeight (RemoteCommitment (channelState lc)) :=
      RemoteCommitment (channelState lc)]> (db_revocationLog (ChanBucket (channelState lc))) /\
    ChanAssetID (channelState lc') = ChanAssetID (channelState lc)
}.

Lemma advance_pending p us c r c' : AdvanceCommitChainTail p us c = (Ok r, c') ->
  frozen c = false /\ is_Some (db_commitDiff (ChanBucket c)) /\ ChanAssetID c' = ChanAssetID c.
Proof.
  unfold AdvanceCommitChainTail. intros Hrun. destruct (frozen c) eqn:Hf.
  { destruct (check_mutable_frozen c Hf) as [e He]. by rewrite (M_bind_Err _ _ _ _ _ He) in Hrun. }
  rewrite (M_bind_run _ _ _ _ _ (check_mutable_Ok c Hf)) in Hrun. split; [done|].
  destruct (db_commitDiff (ChanBucket c)) as [d|] eqn:Hd.
  - split; [done|]. unfold mbind, M_bind, transaction, modify, gets, mret, M_ret, throw in Hrun. cbn in Hrun. rewrite Hd in Hrun.
    cbn in Hrun. unfold fwd_op in Hrun. destruct (AddFwdPkg _ _); try done. cbn in Hrun. injection Hrun as _ <-. done.
  - unfold mbind, M_bind, transaction, modify, gets, mret, M_ret, throw in Hrun. cbn in Hrun. by rewrite Hd in Hrun.
Qed.

Lemma revocation_run w lc msg pkg adds rmvs hs lc' : dance_ok w lc ->
  ReceiveRevocation msg lc = (Ok (pkg, adds, rmvs, hs), lc') ->
  exists rt v lt, revoked lc rt v lt adds rmvs lc' /\
    pkg = NewFwdPkg (ChanShortID (channelState lc)) (c_height v)
      ((fun p => logUpdate (chan_id lc) (deref (lc_heap lc) p)) <$> adds)
      ((fun p => logUpdate (chan_id lc) (deref (lc_heap lc) p)) <$> rmvs) /\
    AddFwdPkg pkg (FwdPackages (channelState lc)) = Ok (FwdPackages (channelState lc')).
Proof.
  intros Hok Hrun. destruct (revocation_inv _ _ _ _ _ _ _ Hrun) as (rv & store & rt & lt & rest & h' & adds' & rmvs' & us & c3 &
    ourLog & theirLog & _ & _ & _ & Hchain & Hlt & Hfw & -> & Hdb & Hcomp & -> & -> & -> & _).
  set (r := u64 (c_height rt + 1)) in *. set (cs := channelState lc) in *.
  set (pre := cs <| Store := store |> <| RemoteCurrentRevocation := _ |> <| RemoteNextRevocation := _ |>) in *.
  destruct (advance_pending _ _ _ _ _ Hdb) as (Hfr & [d Hd] & Easset).
  destruct (st_remote _ (do_stored _ _ Hok)) as (t0 & Hdisk & [[E Hn]|(v & d0 & E & Hd0 & Hcd)]).
  { fold cs in Hn. change (ChanBucket pre) with (ChanBucket cs) in Hd. congruence. }
  rewrite Hchain in E. injection E as -> ->.
  pose proof (do_index _ _ Hok) as Hi. pose proof (ix_chain _ Hi true) as Hch. cbn in Hch. rewrite Hchain in Hch.
  destruct (ch_next _ _ Hch 0 t0 v eq_refl eq_refl) as [Hnext _].
  destruct (ch_each _ _ Hch v) as [Hpos _]; [right; by left|].
  assert (Hr : r = c_height v).
  { unfold r. rewrite <- Hnext. apply uwrap_id. unfold is_uint, maxStateHint in *. lia. }
  pose proof (do_logs _ _ Hok) as Hlogs.
  destruct (forward_spec _ _ _ _ _ _ _ _ _ _ _ (lw_nodup _ _ (log_wf_of lc true Hlogs)) (lw_alloc _ _ (log_wf_of lc true Hlogs)) Hfw)
    as (E1 & E2 & E3 & E4 & E5 & E6).
  assert (Hle : heap_le (lc_heap lc) h').
  { split; [lia|]. intros p _. by apply (unforwarded_read pd_id _ _ p (proj1 (E6 p))). }
  pose proof (logs_ok_heap_le _ _ _ _ Hle (lk_logs _ Hlogs)) as Hlogs'.
  destruct (@compactLogs_spec chanerr h' (c_height lt) r _ _ Hlogs') as (A' & B' & Hrun' & Hwf & HA & HB).
  rewrite Hcomp in Hrun'. injection Hrun' as <- <-.
  destruct (Advance_run pre d (NewFwdPkg (ChanShortID cs) r (snd <$> adds') (snd <$> rmvs')) us Hfr Hd)
    as (c4 & db' & Hadd & Hrun4 & F1 & F2 & F3 & F4 & F5 & F6 & F7 & F8).
  rewrite Hdb in Hrun4. injection Hrun4 as <-.
  change (ChanBucket pre) with (ChanBucket cs) in *. fold cs in Hd0. rewrite Hd in Hd0. injection Hd0 as ->.
  exists t0, v, lt. split; [|split].
  - rewrite Hr in *. split; try done.
    + intros []; done.
    + cbn. rewrite F1. done.
  - rewrite <- Hr, E3, E4. done.
  - cbn [channelState]. by rewrite <- F2 in Hadd.
Qed.

Lemma revoked_carries rc lc rt v lt adds rmvs lc' : lc_logs_ok lc -> revoked lc rt v lt adds rmvs lc' ->
  carries rc lc' ≡ₚ carries rc lc.
Proof.
  intros Hok Hr.
  assert (Hread : forall {X} (f : PaymentDescriptor -> X) p, (forall pd, f (pd_unforwarded pd) = f pd) ->
    f (deref (lc_heap lc') p) = f (deref (lc_heap lc) p)).
  { intros X f p. apply (unforwarded_read f), (rv_heap _ _ _ _ _ _ _ Hr). }
  assert (Hside : forall own, pending rc (lc_heap lc') (entries (log_of lc' own)) (entries (log_of lc' (negb own))) ≡ₚ
    pending rc (lc_heap lc) (entries (log_of lc own)) (entries (log_of lc (negb own)))).
  { intros own. pose proof (rv_logs _ _ _ _ _ _ _ Hr own) as HA. pose proof (rv_logs _ _ _ _ _ _ _ Hr (negb own)) as HB.
    rewrite negb_involutive in HB.
    rewrite (compact_pending rc _ _ _ _ _ _ _ (lw_nodup _ _ (log_wf_of lc own Hok)) HA HB). rewrite !pending_alt.
    assert (Hids : forall rs : list ptr, removed_ids (lc_heap lc') (filter (fun r => on_chain rc (deref (lc_heap lc') r) = true) rs) =
      removed_ids (lc_heap lc) (filter (fun r => on_chain rc (deref (lc_heap lc) r) = true) rs)).
    { intros rs. apply set_eq. intros x. rewrite !elem_of_removed_ids. f_equiv. intros q. rewrite !list_elem_of_filter.
      by rewrite (Hread _ (on_chain rc) q), (Hread _ pd_EntryType q), (Hread _ pd_ParentIndex q). }
    rewrite Hids. apply Permutation_refl', Prelude.filter_ext_in. intros p _.
    by rewrite (Hread _ (on_chain rc) p), (Hread _ pd_EntryType p), (Hread _ pd_HtlcIndex p). }
  unfold carries. pose proof (Hside false) as E1. pose proof (Hside true) as E2. cbn in E1, E2. by rewrite E1, E2.
Qed.

Lemma revocation_dance w lc msg r lc' : dance_ok w lc -> ReceiveRevocation msg lc = (Ok r, lc') -> dance_ok w lc'.
Proof.
  intros Hok Hrun. destruct r as [[[pkg adds] rmvs] hs].
  destruct (revocation_run w lc msg pkg adds rmvs hs lc' Hok Hrun) as (rt & v & lt & Hr & _).
  destruct (rv_chain _ _ _ _ _ _ _ Hr) as [E1 E2]. destruct (rv_local _ _ _ _ _ _ _ Hr) as [E3 E4].
  destruct (rv_state _ _ _ _ _ _ _ Hr) as (F1 & F2 & F3 & F4 & F5).
  pose proof (do_logs _ _ Hok) as Hlogs. pose proof (do_index _ _ Hok) as Hi. pose proof (do_height _ _ Hok) as Hh.
  pose proof (do_value _ _ Hok) as Hv.
  destruct (dropped_chain true lc lc' rt v [] E1 E2 E3) as [Hsub Htips].
  assert (Hread : forall {X} (f : PaymentDescriptor -> X) p, (forall pd, f (pd_unforwarded pd) = f pd) ->
    f (deref (lc_heap lc') p) = f (deref (lc_heap lc) p)).
  { intros X f p. apply (unforwarded_read f), (rv_heap _ _ _ _ _ _ _ Hr). }
  assert (Hin : forall own p, p ∈ entries (log_of lc' own) -> p ∈ entries (log_of lc own)).
  { intros own p. destruct (rv_logs _ _ _ _ _ _ _ Hr own) as (_ & Hel & _). rewrite Hel. tauto. }
  split.
  - split; [apply Hr|]. intros own p q Hp [Hm Hq].
    assert (Hq' : lookupHtlc (log_of lc own) (pd_ParentIndex (deref (lc_heap lc) p)) = Some q).
    { rewrite (Hread _ pd_ParentIndex p) in Hq by done. pose proof (log_wf_of lc own Hlogs) as Hwf.
      assert (Hwf' : log_wf (lc_heap lc') (log_of lc' own)) by (destruct own; apply (rv_ok _ _ _ _ _ _ _ Hr)).
      unfold lookupHtlc in *. apply (lw_htlc _ _ Hwf') in Hq as (Hq & Ht & HI). apply (lw_htlc _ _ Hwf).
      split; [by apply Hin|]. by rewrite <- (Hread _ pd_EntryType q), <- (Hread _ pd_HtlcIndex q). }
    rewrite !(Hread _ pd_BtcAmount), !(Hread _ pd_AssetAmount) by done. rewrite (Hread _ pd_EntryType p) in Hm by done.
    by apply (lk_amounts _ Hlogs own p q); [apply Hin|].
  - apply (dropped_indexed true lc lc' rt v [] Hi E1 E2 E3). intros own. by destruct (rv_logs _ _ _ _ _ _ _ Hr own) as (_ & _ & ? & _).
  - split.
    + intros rc own c p Hc%Hsub Hp%Hin. rewrite (Hread _ (on_chain rc)), (Hread _ (height rc)), (Hread _ pd_LogIndex) by done.
      by apply (he_at _ Hh).
    + intros rc own c p. rewrite Htips, (Hread _ (height rc)) by done. intros Hc Hp%Hin. by apply (he_tip _ Hh rc own).
    + intros c p. rewrite E2. intros Hc. injection Hc as <-. intros Hp%(Hin true) Hf. rewrite (Hread _ pd_LogIndex) by done.
      destruct (rv_heap _ _ _ _ _ _ _ Hr p) as [_ Hfw]. rewrite Hf in Hfw. symmetry in Hfw.
      pose proof (ix_chain _ Hi true) as Hch. cbn in Hch. rewrite E1 in Hch.
      destruct (ch_next _ _ Hch 0 rt v eq_refl eq_refl) as [_ Hidx]. specialize (Hidx true). cbn in Hidx.
      apply orb_true_iff in Hfw as [Hold|Hnew%bool_decide_eq_true].
      * pose proof (he_forwarded _ Hh rt p ltac:(by rewrite E1) Hp Hold). lia.
      * destruct (forwarded_between w lc rt v [] lt p Hok E1 (rv_tail _ _ _ _ _ _ _ Hr) Hp) as [Ha Hm].
        rewrite (rv_adds _ _ _ _ _ _ _ Hr), (rv_rmvs _ _ _ _ _ _ _ Hr), elem_of_app, !list_elem_of_filter in Hnew.
        destruct Hnew as [[Hx _]|[Hx _]]; [apply Ha in Hx|apply Hm in Hx]; apply Hx.
  - split.
    + intros rc t. rewrite Htips. intros Ht. unfold htlcs_match.
      rewrite (va_match _ _ Hv rc t Ht), (revoked_carries rc _ _ _ _ _ _ _ Hlogs Hr).
      apply Permutation_refl', list_fmap_ext. intros k p _. symmetry. by apply (Hread _ pd_money).
    + intros rc c Hc%Hsub. by apply (va_asset _ _ Hv rc).
    + intros rc c Hc%Hsub. rewrite F5. by apply (va_btc _ _ Hv rc).
  - destruct (do_stored _ _ Hok) as [(t & Ht & Hcur & Hloc) (t0 & Hd0 & Hrem) Hlog]. split.
    + exists t. rewrite E3, E4, F1. done.
    + exists v. rewrite E2, F2. split; [done|]. by left.
    + destruct Hrem as [[Hrem _]|(v0 & d & Hrem & _)]; [by rewrite E1 in Hrem|]. rewrite E1 in Hrem. injection Hrem as <- <-.
      pose proof (ix_chain _ Hi true) as Hch. cbn in Hch. rewrite E1 in Hch.
      destruct (ch_next _ _ Hch 0 rt v eq_refl eq_refl) as [Hnext _].
      apply (advance_log_ok (channelState lc) (channelState lc') (mkCommitDiff (toDiskCommit v false) [] (mkCommitSig [] [] [] []) [] [] [] []));
        [done| |done|done]. rewrite Hd0. exact Hnext.
Qed.
End Methods.
