(* ===== verification/HtlcSigs.v ===== *)
(** * The HTLC signatures of an accepted commitment

    Every HTLC of a commitment of ours is found at one of its outputs; a batch of
    signatures passes only if it has one for each of those outputs, in the order
    of the outputs, and each verifies, under the peer's HTLC key, the second-level
    transaction of the HTLC at its output. *)

From S2P Require Import Prelude Wire Messages ChanIds Units Sha256 Shachain Sig Tx OmniOp Keys Scripts FwdPkg UpdateLog ChanDB Commitment Channel ChannelOps ChannelSign Views Dance Protocol Reach Safety.

Section Located.
Context `{CurveOps, !ScriptLib, !TxLib, !SigLib}.

(** ** Where the HTLCs are *)

(** The HTLC outputs, in the order of the transaction: the side and the position
    of the HTLC at each. *)
Definition htlc_outputs (c : commitment) : list (bool * nat) :=
  omap (fun i => htlc_at c (swrap 32 i)) (seqZ 0 (Z.of_nat (length (TxOuts (c_txn c))))).

(** The index entries one slice makes. *)
Lemma populate_index tx cltvs pos hs dups idx hs' dups' idx' :
  populate true tx cltvs pos hs dups idx = Ok (hs', dups', idx') ->
  (forall i k, idx' !! i = Some k -> idx !! i = Some k \/
     exists j p, k = (pos + j)%nat /\ hs' !! j = Some p /\ localOutputIndex p = i) /\
  (forall i, is_Some (idx !! i) -> is_Some (idx' !! i)) /\
  (forall p, p ∈ hs' -> is_Some (idx' !! localOutputIndex p)).
Proof.
  revert pos dups idx hs' dups' idx'. induction hs as [|p hs IH]; intros pos dups idx hs' dups' idx' Hp; cbn [populate] in Hp.
  { injection Hp as <- <- <-. split; [by left|]. split; [done|]. intros q Hq. by apply not_elem_of_nil in Hq. }
  apply res_bind_Ok in Hp as ([i d1] & _ & Hp). apply res_bind_Ok in Hp as ([[hs1 d2] idx1] & Hr & Hp).
  injection Hp as <- _ <-. destruct (IH _ _ _ _ _ _ Hr) as (Hin & Hk & Hall). split; [|split].
  - intros x k Hx. destruct (Hin x k Hx) as [Hx'|(j & q & -> & Hj & Hq)].
    + apply lookup_insert_Some in Hx' as [[<- <-]|[_ Hx']]; [|by left]. right. exists 0%nat. eexists. split; [lia|]. done.
    + right. exists (S j), q. split; [lia|done].
  - intros x Hx. apply Hk. rewrite lookup_insert_is_Some. destruct (decide (i = x)); tauto.
  - intros q Hq. apply elem_of_cons in Hq as [->|Hq]; [|by apply Hall]. apply Hk. rewrite lookup_insert_is_Some. by left.
Qed.

(** The commitment of ours with its HTLCs located. *)
Record located (c : commitment) : Prop := {
  lo_at i incoming k : htlc_at c i = Some (incoming, k) ->
    exists p, htlcs_of c incoming !! k = Some p /\ localOutputIndex p = i;
  lo_all p : p ∈ htlcs c -> is_Some (htlc_at c (localOutputIndex p)) /\
    exists n, (n < length (TxOuts (c_txn c)))%nat /\ localOutputIndex p = swrap 32 (Z.of_nat n)
}.

Lemma populated_located c cl v : populateHtlcIndexes c cl = Ok v -> c_isOurs c = true -> located v.
Proof.
  intros Hp Ho. pose proof (htlc_outputs_located c v cl Hp) as (HFo & HFi & _). rewrite Ho in HFo, HFi.
  unfold populateHtlcIndexes in Hp. rewrite Ho in Hp.
  apply res_bind_Ok in Hp as ([[o1 d1] i1] & P1 & Hp). apply res_bind_Ok in Hp as ([[o2 d2] i2] & P2 & Hp). injection Hp as <-.
  destruct (populate_index _ _ _ _ _ _ _ _ _ P1) as (A1 & _ & A3). destruct (populate_index _ _ _ _ _ _ _ _ _ P2) as (B1 & _ & B3).
  assert (Hpays : forall l l', Forall2 (fun p p' => p' = set_index true p (output_index true p') /\
      pays true (c_txn c) p (output_index true p')) l l' -> forall p', p' ∈ l' ->
      exists n, (n < length (TxOuts (c_txn c)))%nat /\ localOutputIndex p' = swrap 32 (Z.of_nat n)).
  { intros l l' HF p' Hp'. apply list_elem_of_lookup in Hp' as [j Hj].
    destruct (Forall2_lookup_r _ _ _ _ _ HF Hj) as (p & _ & _ & n & o & Hn & Hout & _). exists n. split; [|done].
    by apply lookup_lt_Some in Hout. }
  split; cbn.
  - intros i incoming k. unfold htlc_at. cbn. destruct (i2 !! i) as [k2|] eqn:E2.
    + intros [= <- <-]. destruct (B1 i k2 E2) as [Hx|(j & p & -> & Hj & Hq)]; [by rewrite lookup_empty in Hx|]. by exists p.
    + destruct (i1 !! i) as [k1|] eqn:E1; [|done]. intros [= <- <-].
      destruct (A1 i k1 E1) as [Hx|(j & p & -> & Hj & Hq)]; [by rewrite lookup_empty in Hx|]. by exists p.
  - unfold htlcs. cbn. intros p [Hq|Hq]%elem_of_app.
    + split; [|by apply (Hpays _ _ HFo)]. destruct (A3 p Hq) as [k Hk]. unfold htlc_at. cbn. rewrite Hk. by destruct (i2 !! _).
    + split; [|by apply (Hpays _ _ HFi)]. destruct (B3 p Hq) as [k Hk]. unfold htlc_at. cbn. by rewrite Hk.
Qed.

Lemma fetch_located i ih j jh kr lc v lc' : fetchCommitmentView false i ih j jh kr lc = (Ok v, lc') -> located v.
Proof.
  unfold fetchCommitmentView. intros Hrun.
  apply M_bind_Ok in Hrun as (t & l1 & _ & Hrun). apply M_bind_Ok in Hrun as (vw & l2 & _ & Hrun).
  apply M_bind_Ok in Hrun as ([[bal w] flt] & l3 & _ & Hrun).
  apply M_bind_Ok in Hrun as (cs & l4 & _ & Hrun). apply M_bind_Ok in Hrun as (obf & l5 & _ & Hrun).
  apply M_bind_Ok in Hrun as (u & l6 & _ & Hrun). apply M_bind_Ok in Hrun as (u' & l7 & _ & Hrun).
  apply M_bind_Ok in Hrun as (h & l8 & _ & Hrun). unfold lift in Hrun.
  destruct (populateHtlcIndexes _ _) as [v0| |] eqn:Hp; try done. injection Hrun as -> _. by apply (populated_located _ _ _ Hp).
Qed.

(** ** What the signatures cover *)

Definition unsign (p : PaymentDescriptor) : PaymentDescriptor := p <| pd_sig := None |>.
Definition unsigned (c : commitment) : commitment :=
  c <| outgoingHTLCs ::= fmap unsign |> <| incomingHTLCs ::= fmap unsign |>.

Lemma unsigned_set_sig c incoming k s : unsigned (set_sig c incoming k s) = unsigned c.
Proof.
  assert (E : forall l : list PaymentDescriptor, unsign <$> alter (fun h => h <| pd_sig := Some s |>) k l = unsign <$> l).
  { intros l. apply list_eq. intros x. rewrite !list_lookup_fmap. destruct (decide (k = x)) as [<-|Hne].
    - rewrite list_lookup_alter_eq. by destruct (l !! k).
    - by rewrite list_lookup_alter_ne. }
  destruct c. unfold unsigned, set_sig. destruct incoming; unfold upd; cbn; f_equal; apply E.
Qed.

Lemma unsigned_lookup c c' incoming k : unsigned c = unsigned c' ->
  unsign <$> htlcs_of c incoming !! k = unsign <$> htlcs_of c' incoming !! k.
Proof.
  intros E. rewrite <- !list_lookup_fmap. destruct incoming; cbn.
  - exact (f_equal (fun x => incomingHTLCs x !! k) E).
  - exact (f_equal (fun x => outgoingHTLCs x !! k) E).
Qed.

(** The hash does not depend on signatures. *)
Lemma sigHash_unsigned cs kr c c' incoming p p' : unsigned c = unsigned c' -> unsign p = unsign p' ->
  htlcSigHash cs kr c incoming p = htlcSigHash cs kr c' incoming p'.
Proof.
  intros Ec Ep. change (htlcSigHash cs kr c incoming p) with (htlcSigHash cs kr (unsigned c) incoming (unsign p)).
  by rewrite Ec, Ep.
Qed.

(** A signature that covers the HTLC at a position. *)
Definition covers (cs : OpenChannel) (kr : CommitmentKeyRing) (c : commitment) (at_ : bool * nat) (s : bytes) : Prop :=
  exists p sig hash, htlcs_of c (fst at_) !! snd at_ = Some p /\ ToSignature s = Ok sig /\
    htlcSigHash cs kr c (fst at_) p = Ok hash /\ VerifySig sig hash (RemoteHtlcKey kr) = true.

Lemma covers_unsigned cs kr c c' at_ s : unsigned c = unsigned c' -> covers cs kr c at_ s -> covers cs kr c' at_ s.
Proof.
  intros E (p & sig & hash & Hp & Hs & Hh & Hv). pose proof (unsigned_lookup c c' (fst at_) (snd at_) E) as El. rewrite Hp in El.
  destruct (htlcs_of c' (fst at_) !! snd at_) as [p'|] eqn:Hp'; [|done]. apply (inj Some) in El. exists p', sig, hash.
  split; [done|]. split; [done|]. split; [|done]. rewrite <- Hh. symmetry. by apply sigHash_unsigned.
Qed.

Lemma verifyJobs_spec cs kr outs index sigs c c' jobs rest :
  verifyJobs cs kr outs index sigs c = Ok (c', jobs, rest) -> Forall (fun j => job_valid j = true) jobs ->
  unsigned c' = unsigned c /\ exists used, sigs = used ++ rest /\
    Forall2 (covers cs kr c') (omap (fun i => htlc_at c (swrap 32 i)) (seqZ index (Z.of_nat (length outs)))) used.
Proof.
  revert index sigs c c' jobs rest. induction outs as [|o outs IH]; intros index sigs c c' jobs rest Hrun Hj; cbn [verifyJobs] in Hrun.
  { injection Hrun as <- _ <-. split; [done|]. exists []. split; [done|]. constructor. }
  cbn [length]. rewrite seqZ_cons by lia. replace (Z.pred (Z.of_nat (S (length outs)))) with (Z.of_nat (length outs)) by lia.
  cbn [omap list_omap]. rewrite <- Z.add_1_r. destruct (htlc_at c (swrap 32 index)) as [[inc k]|] eqn:Hat; [|by eapply IH].
  destruct (htlcs_of c inc !! k) as [p|] eqn:Hp; [|done]. destruct sigs as [|s sigs]; [done|].
  apply res_bind_Ok in Hrun as (sig & Hs & Hrun). apply res_bind_Ok in Hrun as ([[c1 j1] r1] & Hrec & Hrun). injection Hrun as <- <- <-.
  apply list.Forall_cons in Hj as [Hv Hj]. destruct (IH _ _ _ _ _ _ Hrec Hj) as (E & used & -> & HF). rewrite unsigned_set_sig in E.
  split; [done|]. exists (s :: used). split; [done|]. constructor.
  - apply (covers_unsigned cs kr c); [done|]. unfold job_valid in Hv. cbn in Hv.
    destruct (htlcSigHash cs kr c inc p) as [h| |] eqn:Hh; [|done..]. exists p, sig, h. done.
  - assert (Eat : forall i, htlc_at (set_sig c inc k sig) i = htlc_at c i) by (intros i; unfold htlc_at, set_sig; by destruct inc).
    erewrite list_omap_ext; [exact HF|]. apply Forall_Forall2_diag, Forall_true. intros i. by rewrite Eat.
Qed.

Lemma checked_valid jobs : check_jobs jobs = Ok tt -> Forall (fun j => job_valid j = true) jobs.
Proof.
  unfold check_jobs. intros Hck. apply List.Forall_forall. intros j Hj.
  destruct (List.find _ _) eqn:E; [by destruct (vj_SigHash v)|].
  pose proof (List.find_none _ _ E j Hj) as Hn. by apply negb_false_iff in Hn.
Qed.

(** A batch that passes the check has exactly one signature per HTLC output, and
    each covers the HTLC at its output. *)
Lemma checked_sigs cs kr sigs c c' jobs : genHtlcSigValidationJobs cs kr sigs c = Ok (c', jobs) -> check_jobs jobs = Ok tt ->
  unsigned c' = unsigned c /\ Forall2 (covers cs kr c') (htlc_outputs c) sigs.
Proof.
  unfold genHtlcSigValidationJobs. intros Hrun Hck. apply res_bind_Ok in Hrun as ([[c1 j1] rest] & Hr & Hrun).
  apply res_bind_Ok in Hrun as ([] & Hrest & Hrun). injection Hrun as <- <-.
  unfold guard_err in Hrest. case_bool_decide as Er; [|done]. subst rest.
  destruct (verifyJobs_spec _ _ _ _ _ _ _ _ _ Hr (checked_valid _ Hck)) as (E & used & -> & HF). split; [done|].
  by rewrite app_nil_r.
Qed.

Lemma unsigned_outputs c c' : unsigned c = unsigned c' -> htlc_outputs c = htlc_outputs c'.
Proof.
  intros E. change (htlc_outputs c) with (htlc_outputs (unsigned c)). change (htlc_outputs c') with (htlc_outputs (unsigned c')).
  by rewrite E.
Qed.

(** Every HTLC of a located commitment is at one of its HTLC outputs. *)
Lemma located_covered c p : located c -> p ∈ htlcs c ->
  exists at_ q, at_ ∈ htlc_outputs c /\ htlcs_of c (fst at_) !! snd at_ = Some q /\ localOutputIndex q = localOutputIndex p.
Proof.
  intros Hl Hp. destruct (lo_all _ Hl p Hp) as ([[inc k] Hat] & n & Hn & E). destruct (lo_at _ Hl _ _ _ Hat) as (q & Hq & Eq).
  exists (inc, k), q. split; [|done]. apply list_elem_of_omap. exists (Z.of_nat n). split; [|by rewrite <- E].
  apply elem_of_seqZ. lia.
Qed.

Lemma located_unsigned c c' : unsigned c = unsigned c' -> located c -> located c'.
Proof.
  intros E [Ha Hall].
  assert (Eat : forall i, htlc_at c' i = htlc_at c i).
  { intros i. change (htlc_at c' i) with (htlc_at (unsigned c') i). by rewrite <- E. }
  assert (Etx : c_txn c' = c_txn c) by (change (c_txn (unsigned c') = c_txn (unsigned c)); by rewrite E).
  split.
  - intros i inc k. rewrite Eat. intros Hx. destruct (Ha _ _ _ Hx) as (p & Hp & Ei).
    pose proof (unsigned_lookup c c' inc k E) as El. rewrite Hp in El. destruct (htlcs_of c' inc !! k) as [p'|]; [|done].
    apply (inj Some) in El. exists p'. split; [done|]. rewrite <- Ei. change (localOutputIndex (unsign p') = localOutputIndex (unsign p)). by rewrite El.
  - intros p Hp. rewrite Eat, Etx. assert (Hm : unsign p ∈ unsign <$> htlcs c).
    { assert (Eh : unsign <$> htlcs c = unsign <$> htlcs c').
      { unfold htlcs. rewrite !fmap_app. exact (f_equal (fun x => outgoingHTLCs x ++ incomingHTLCs x) E). }
      rewrite Eh. by apply list_elem_of_fmap_2. }
    apply list_elem_of_fmap in Hm as (p0 & E0 & Hp0). change (localOutputIndex p) with (localOutputIndex (unsign p)). rewrite E0.
    exact (Hall p0 Hp0).
Qed.

(** The totals of the channel do not matter. *)
Lemma covers_totals cs cs' kr c at_ s : totals_only cs cs' -> covers cs' kr c at_ s -> covers cs kr c at_ s.
Proof.
  intros Ht (p & sig & hash & Hp & Hs & Hh & Hv). exists p, sig, hash. do 2 (split; [done|]). split; [|done]. rewrite <- Hh.
  pose proof (fun X f => totals_only_read (X := X) f _ _ Ht) as E.
  unfold htlcSigHash, leaseExpiryOf. rewrite (E _ ChanType), (E _ IsInitiator), (E _ LocalChanCfg), (E _ ThawHeight); done.
Qed.
End Located.
