(* ===== verification/DanceSpec.v ===== *)
(** * What the commitment dance promises

    The methods of a channel as a transition system over the states reached from a
    newly opened channel; the safety of every reachable state, what each of the
    four methods does there, and that neither revoking nor receiving a valid
    revocation can fail. *)

From S2P Require Import Prelude Wire Messages ChanIds Units Sha256 Shachain Sig Tx OmniOp Keys Scripts FwdPkg UpdateLog ChanDB Commitment Channel ChannelOps ChannelSign Views Dance Protocol Reach Safety HtlcSigs.

Section Spec.
Context `{CurveOps, !ScriptLib, !TxLib, !SigLib}.

(** ** The transition system *)

(** A channel as it is opened: one commitment on each chain, both stored, no
    HTLC, empty logs. *)
Record opened (w : worth) (lc : LightningChannel) : Prop := {
  op_logs : localUpdateLog lc = newUpdateLog 0 0 /\ remoteUpdateLog lc = newUpdateLog 0 0;
  op_chains rc : exists c, commit_chain lc rc = [c] /\ c_height c = 0 /\ c_isOurs c = negb rc /\ htlcs c = [] /\
    (forall own, c_index own c = 0) /\ eqw 64 (asset_value c) (w_asset w) /\
    (ChanAssetID (channelState lc) <= BtcAssetId -> eqw 64 (btc_value c) (w_btc w)) /\
    (if rc then RemoteCommitment (channelState lc) else LocalCommitment (channelState lc)) = toDiskCommit c (negb rc);
  op_height : currentHeight lc = 0;
  op_disk : db_commitDiff (ChanBucket (channelState lc)) = None /\ db_revocationLog (ChanBucket (channelState lc)) = ∅
}.

(** An update, whatever its outcome, or one of the four methods when it succeeds. *)
Inductive step : LightningChannel -> LightningChannel -> Prop :=
| step_update u lc : room lc -> step lc (run_update u lc)
| step_sign lc r lc' : SignNextCommitment lc = (Ok r, lc') -> fees_ok lc' -> step lc lc'
| step_accept commitSig htlcSigs lc u lc' :
    ReceiveNewCommitment commitSig htlcSigs lc = (Ok u, lc') -> fees_ok lc' -> step lc lc'
| step_revoke lc r lc' : RevokeCurrentCommitment lc = (Ok r, lc') -> step lc lc'
| step_revoked msg lc r lc' : ReceiveRevocation msg lc = (Ok r, lc') -> step lc lc'.

Lemma opened_dance w lc : opened w lc -> dance_ok w lc.
Proof.
  intros [[EL ER] Hc Hh [Hd Hlog]].
  assert (Hin : forall own p, p ∈ entries (log_of lc own) -> False).
  { intros own p. destruct own; cbn; rewrite ?EL, ?ER; apply not_elem_of_nil. }
  assert (Hone : forall rc c, c ∈ commit_chain lc rc -> c_height c = 0 /\ c_isOurs c = negb rc /\ (forall own, c_index own c = 0) /\
    eqw 64 (asset_value c) (w_asset w) /\ (ChanAssetID (channelState lc) <= BtcAssetId -> eqw 64 (btc_value c) (w_btc w)) /\ htlcs c = []).
  { intros rc c. destruct (Hc rc) as (c0 & E & ? & ? & ? & ? & ? & ? & _). rewrite E. by intros ->%list_elem_of_singleton. }
  split.
  - split; [rewrite EL, ER; by apply logs_ok_new|]. intros own p q Hp. by apply Hin in Hp.
  - split.
    + intros rc. destruct (Hc rc) as (c & E & Hz & Ho & _). rewrite E. split; [by intros [|k]|].
      intros c' ->%list_elem_of_singleton. rewrite Hz. split; [split; [lia|done]|done].
    + intros rc own c Hx. destruct (Hone rc c Hx) as (_ & _ & -> & _). destruct own; cbn; by rewrite ?EL, ?ER.
    + intros own c t Hx Ht%tail_elem. destruct (Hone _ _ Hx) as (_ & _ & -> & _). by destruct (Hone _ _ Ht) as (_ & _ & -> & _).
  - split; [intros rc own c p _ Hp|intros rc own t p _ Hp|intros t p _ Hp _]; exfalso; [by apply (Hin own p)..|by apply (Hin true p)].
  - split.
    + intros rc t Ht%tip_elem. destruct (Hone _ _ Ht) as (_ & _ & _ & _ & _ & E). unfold htlcs_match, carries, pending. by rewrite E, EL, ER.
    + intros rc c Hx. apply (Hone _ _ Hx).
    + intros rc c Hx. apply (Hone _ _ Hx).
  - split.
    + destruct (Hc false) as (c & E & Hz & _ & _ & _ & _ & _ & Hs). cbn in E. exists c. rewrite E, Hh, Hz. done.
    + destruct (Hc true) as (c & E & Hz & _ & _ & _ & _ & _ & Hs). cbn in E. exists c. rewrite E. split; [exact Hs|]. by left.
    + destruct (Hc true) as (c & E & Hz & _ & _ & _ & _ & _ & Hs). split; [rewrite Hs; cbn; lia|]. rewrite Hlog, Hs. cbn. rewrite Hz.
      split; [|done]. intros h. split; [by intros [? ?]|lia].
Qed.

Lemma step_dance w lc lc' : step lc lc' -> dance_ok w lc -> dance_ok w lc'.
Proof.
  intros Hs Hok. destruct Hs as [u lc Hr|lc r lc' Hrun Hf|sig sigs lc u lc' Hrun Hf|lc r lc' Hrun|msg lc r lc' Hrun].
  - apply (grown_dance w lc); [done|]. apply update_grown; [by apply Hok|done].
  - by eapply sign_dance.
  - by eapply receive_sig_dance.
  - by eapply revoke_dance.
  - by eapply revocation_dance.
Qed.

Lemma reach_dance w lc lc' : opened w lc -> rtc step lc lc' -> dance_ok w lc'.
Proof.
  intros Ho Hr. pose proof (opened_dance w lc Ho) as Hok. clear Ho.
  induction Hr as [|lc lc1 lc' Hs _ IH]; [done|]. by eapply IH, step_dance.
Qed.

(** ** What is on the disk *)

(** What a channel holds in memory of its commitments, its status and its
    revocation state is what its bucket holds. *)
Record on_disk (c : OpenChannel) : Prop := {
  od_status : db_chanStatus (ChanBucket c) = chanStatus c;
  od_local : db_localCommit (ChanBucket c) = LocalCommitment c;
  od_remote : db_remoteCommit (ChanBucket c) = RemoteCommitment c;
  od_revocation : db_revocationState (ChanBucket c) = (RemoteCurrentRevocation c, Producer c, Store c, RemoteNextRevocation c)
}.

Lemma put_on_disk c : hasChanStatus c ChanStatusRestored = false -> on_disk (c <| ChanBucket ::= putOpenChannel c |>).
Proof. intros Hl. by split; cbn; unfold putChanCommitments; rewrite ?Hl. Qed.

(** The totals of the payments apart, computing a view changes nothing of it. *)
Lemma totals_on_disk c c' : totals_only c c' -> on_disk c -> on_disk c'.
Proof.
  intros Ht [Hs Hl Hr Hv]. pose proof (fun X f => totals_only_read (X := X) f _ _ Ht) as E.
  split; rewrite (E _ ChanBucket), ?(E _ chanStatus), ?(E _ LocalCommitment), ?(E _ RemoteCommitment), ?(E _ RemoteCurrentRevocation),
    ?(E _ Producer), ?(E _ Store), ?(E _ RemoteNextRevocation); done.
Qed.

Lemma view_on_disk rc a b c d kr lc v lc1 : fetchCommitmentView rc a b c d kr lc = (Ok v, lc1) ->
  on_disk (channelState lc) -> on_disk (channelState lc1).
Proof.
  intros Hv. pose proof (fetchCommitmentView_viewed rc a b c d kr lc) as Hx. rewrite Hv in Hx.
  exact (totals_on_disk _ _ (vw_totals _ _ Hx)).
Qed.

Lemma update_on_disk cc us c r c' : UpdateCommitment cc us c = (Ok r, c') -> on_disk c -> on_disk c'.
Proof.
  intros Hrun [Hs Hl Hr Hv]. destruct (frozen c) eqn:Hf.
  { destruct (proj1 (frozen_refuses c Hf) cc us) as [e He]. by rewrite He in Hrun. }
  unfold UpdateCommitment in Hrun. rewrite (M_bind_run _ _ _ _ _ (check_mutable_Ok c Hf)) in Hrun. by injection Hrun as _ <-.
Qed.

Lemma advance_on_disk p us c r c' : AdvanceCommitChainTail p us c = (Ok r, c') ->
  db_chanStatus (ChanBucket c) = chanStatus c -> db_localCommit (ChanBucket c) = LocalCommitment c -> on_disk c'.
Proof.
  intros Hrun Hs Hl. destruct (frozen c) eqn:Hf.
  { destruct (proj2 (proj2 (frozen_refuses c Hf)) p us) as [e He]. by rewrite He in Hrun. }
  unfold AdvanceCommitChainTail in Hrun. rewrite (M_bind_run _ _ _ _ _ (check_mutable_Ok c Hf)) in Hrun.
  unfold mbind, M_bind, transaction, modify, gets, mret, M_ret, throw, fwd_op in Hrun. cbn in Hrun.
  destruct (db_commitDiff (ChanBucket c)) as [d|]; [|done]. cbn in Hrun.
  destruct (AddFwdPkg p (FwdPackages c)) as [db| |]; try done. cbn in Hrun. injection Hrun as _ <-.
  split; cbn; destruct (db_unsignedAckedUpdates (ChanBucket c)); done.
Qed.

Lemma step_on_disk lc lc' : step lc lc' -> lc_logs_ok lc -> on_disk (channelState lc) -> on_disk (channelState lc').
Proof.
  intros Hs Hok Hd. destruct Hs as [u lc Hr|lc [[sig sigs] hs] lc' Hrun Hf|sig sigs lc u lc' Hrun Hf|lc [m hs] lc' Hrun|msg lc [[[pkg adds] rmvs] hs] lc' Hrun].
  - destruct (gr_chains _ _ (update_grown u lc Hok Hr)) as (-> & _). done.
  - destruct (sign_inv _ _ _ _ _ Hrun) as (cp & lt & v & l1 & jobs & c2 & _ & _ & _ & _ & Hv & _ & _ & _ & Ha & -> & _).
    apply append_diff_Ok in Ha as (_ & fp & ->).
    by destruct (view_on_disk _ _ _ _ _ _ _ _ _ Hv Hd).
  - destruct (receive_sig_inv _ _ _ _ _ Hrun) as (rt & secret & v & l1 & sh & v' & jobs & cSig & _ & _ & _ & Hv & _ & _ & _ & _ & _ & ->).
    exact (view_on_disk _ _ _ _ _ _ _ _ _ Hv Hd).
  - destruct (revoke_inv _ _ _ _ Hrun) as (t0 & t1 & rest & us & c' & _ & _ & Hu & -> & _). by eapply update_on_disk.
  - destruct (revocation_inv _ _ _ _ _ _ _ Hrun) as (rv & store & rt & lt & rest & h' & a' & r' & us & c3 & ol & tl & _ & _ & _ & _ & _ & _ & _ & Ha & _ & -> & _).
    eapply advance_on_disk; [exact Ha|apply Hd..].
Qed.

Lemma reach_on_disk w lc lc' : opened w lc -> on_disk (channelState lc) -> rtc step lc lc' -> on_disk (channelState lc').
Proof.
  intros Ho Hd Hr. pose proof (opened_dance w lc Ho) as Hok. clear Ho.
  induction Hr as [|lc lc1 lc' Hs _ IH]; [done|]. apply IH; [by apply (step_on_disk _ _ Hs); [apply Hok|]|by eapply step_dance].
Qed.

(** C1. Every state a channel reaches from its opening by adding, resolving,
    changing the fee, signing, accepting signatures, revoking and receiving
    revocations is safe: no commitment makes or loses a coin of the asset (nor, in
    a bitcoin channel, a satoshi), heights follow one another, the peer is never
    more than one unrevoked commitment ahead, a commitment holds only updates its
    owner's counterparty acknowledged, the last commitment's HTLCs are those of
    the logs, and the bucket on disk holds both tails, the pending commitment,
    every revoked state under its height, the status and the revocation state -
    the peer's points, our secrets and the peer's - as they are in memory. *)
Theorem dance_safety (w : worth) (lc lc' : LightningChannel) :
  opened w lc -> on_disk (channelState lc) -> rtc step lc lc' ->
  let cs := channelState lc' in
  let disk := ChanBucket cs in
  (forall rc c, c ∈ commit_chain lc' rc -> eqw 64 (asset_value c) (w_asset w) /\
     (ChanAssetID (channelState lc') <= BtcAssetId -> eqw 64 (btc_value c) (w_btc w))) /\
  (forall rc k c c', commit_chain lc' rc !! k = Some c -> commit_chain lc' rc !! S k = Some c' -> c_height c' = c_height c + 1) /\
  (forall own c t, c ∈ commit_chain lc' own -> chain_tail (commit_chain lc' (negb own)) = Ok t -> c_index own c <= c_index own t) /\
  (forall rc t, tip (commit_chain lc' rc) = Ok t -> htlcs_match rc lc' t) /\
  (exists t, chain_tail (localCommitChain lc') = Ok t /\ LocalCommitment cs = toDiskCommit t true /\
     db_localCommit disk = toDiskCommit t true) /\
  (exists t, RemoteCommitment cs = toDiskCommit t false /\ db_remoteCommit disk = toDiskCommit t false /\
     (remoteCommitChain lc' = [t] /\ db_commitDiff disk = None \/ exists v, remoteCommitChain lc' = [t; v] /\
        cd_Commitment <$> db_commitDiff disk = Some (toDiskCommit v false))) /\
  (forall h, 0 <= h < CommitHeight (RemoteCommitment cs) ->
     exists cc, db_revocationLog disk !! h = Some cc /\ FindPreviousState cs h = Ok cc /\ CommitHeight cc = h) /\
  db_chanStatus disk = chanStatus cs /\
  db_revocationState disk = (RemoteCurrentRevocation cs, Producer cs, Store cs, RemoteNextRevocation cs).
Proof.
  intros Ho Hd0 Hr cs disk. destruct (reach_dance w lc lc' Ho Hr) as [_ Hi _ Hv Hst].
  destruct (reach_on_disk w lc lc' Ho Hd0 Hr) as [Ds Dl Dr Dv].
  split; [intros rc c Hc; split; [by apply (va_asset _ _ Hv rc)|by apply (va_btc _ _ Hv rc)]|].
  split; [intros rc k c c' Hk Hk'; by apply (ch_next _ _ (ix_chain _ Hi rc) k)|].
  split; [apply (ix_acked _ Hi)|]. split; [apply (va_match _ _ Hv)|].
  destruct Hst as [(t & Ht & _ & Hd) (r & Hrd & Hrc) (Hp & Hdom & Hkey)]. split; [exists t; by rewrite <- Hd|]. split; [|split].
  - exists r. split; [done|]. split; [by rewrite <- Hrd|]. destruct Hrc as [?|(v & d & E & Hdb & Hcd)]; [by left|]. right. exists v.
    split; [done|]. unfold disk, cs. rewrite Hdb. cbn. by rewrite Hcd.
  - intros h Hh. destruct (proj2 (Hdom h) Hh) as [cc Hcc]. exists cc. split; [done|]. split; [by apply FindPreviousState_Some|by apply Hkey].
  - done.
Qed.

(** C3. Signing. With the window closed - the peer owes a revocation, or gave no
    next point - signing refuses and changes nothing. A signature covers a
    commitment one height up holding all of our updates and exactly those of the
    peer's that our own current commitment acknowledges; before it is returned the
    commitment is stored as the pending one, and it becomes the end of the peer's
    chain; our own chain is untouched. *)
Theorem sign_next_commitment (w : worth) (lc : LightningChannel) :
  dance_ok w lc ->
  ((exists t v, remoteCommitChain lc = [t; v]) \/ RemoteNextRevocation (channelState lc) = None ->
     SignNextCommitment lc = (Err ErrNoWindow, lc)) /\
  forall sig htlcSigs hs lc', SignNextCommitment lc = (Ok (sig, htlcSigs, hs), lc') ->
    exists t lt v d, remoteCommitChain lc = [t] /\ chain_tail (localCommitChain lc) = Ok lt /\
      remoteCommitChain lc' = [t; v] /\ localCommitChain lc' = localCommitChain lc /\ currentHeight lc' = currentHeight lc /\
      c_height v = c_height t + 1 /\ c_ourMessageIndex v = logIndex (localUpdateLog lc) /\
      c_theirMessageIndex v = c_theirMessageIndex lt /\
      htlcs_match true lc' v /\ eqw 64 (asset_value v) (asset_value t) /\
      (exists desc, sign (c_txn v) desc = Ok sig) /\
      db_commitDiff (ChanBucket (channelState lc')) = Some d /\ cd_Commitment d = toDiskCommit v false /\
      hs = Htlcs (toDiskCommit v false).
Proof.
  intros Hok. pose proof (do_index _ _ Hok) as Hi. destruct (st_remote _ (do_stored _ _ Hok)) as (t & _ & Hrem).
  destruct (st_local _ (do_stored _ _ Hok)) as (lt & Hlt & _). split.
  - intros Hclosed.
    assert (exists t1, tip (localCommitChain lc) = Ok t1) as [t1 Ht1].
    { unfold tip. destruct (list.last _) eqn:E; [eauto|]. by apply last_None in E; rewrite E in Hlt. }
    assert (exists t2, tip (remoteCommitChain lc) = Ok t2) as [t2 Ht2].
    { destruct Hrem as [[-> _]|(v & d & -> & _)]; by eexists. }
    apply (sign_no_window lc t1 t2 Ht1 Ht2). destruct Hclosed as [(x & y & E)|E]; [left; by rewrite E|by right].
  - intros sig htlcSigs hs lc' Hrun.
    destruct (sign_inv _ _ _ _ _ Hrun) as (cp & lt0 & v & lc1 & jobs & c2 & _ & Hw & Hlt0 & _ & Hv & _ & Hsig & _ & Hdb & -> & Hhs).
    destruct (no_unacked w lc Hok Hw) as (t0 & Hchain & _).
    assert (Htip : tip (commit_chain lc true) = Ok t0) by (cbn; by rewrite Hchain).
    pose proof (fetch_extends _ _ _ _ _ _ _ _ _ _ Hv (do_logs _ _ Hok) Htip (proj1 (ch_each _ _ (ix_chain _ Hi true) t0 (tip_elem _ _ Htip)))
      (heighted_recorded _ _ _ (do_height _ _ Hok) Htip) (va_match _ _ (do_value _ _ Hok) true t0 Htip)
      (ix_acked _ Hi true t0 lt0 (tip_elem _ _ Htip) Hlt0) (ix_bound _ Hi true false t0 (tip_elem _ _ Htip))) as Hex.
    destruct (viewed_fields _ _ (ex_viewed _ _ _ _ _ _ _ Hex)) as (El & Er & Eh & _).
    apply append_diff_Ok in Hdb as (_ & fp & ->).
    exists t0, lt0, v. eexists. split; [exact Hchain|]. split; [exact Hlt0|]. cbn. rewrite El, Er, Eh, Hchain.
    do 3 (split; [done|]). split; [apply Hex|].
    split; [exact (ex_index _ _ _ _ _ _ _ Hex false)|]. split; [exact (ex_index _ _ _ _ _ _ _ Hex true)|].
    split; [exact (ex_match _ _ _ _ _ _ _ Hex)|]. split; [apply Hex|]. split; [by eexists|]. done.
Qed.

(** C4. Accepting. A new commitment of ours is accepted only with a signature, by
    the peer's funding key, of its transaction as our funding output is signed, and
    with exactly one signature per HTLC output, in the order of the outputs, each of
    which verifies under the peer's HTLC key the second-level transaction of the
    HTLC at that output; keys and scripts are those of the commitment point of the
    new height, and no HTLC of the commitment is left without such an output. The
    commitment is one height up, holds all of the peer's updates and exactly those
    of ours the peer's current commitment acknowledges, and its HTLCs are those of
    the logs. The disk and the peer's chain are untouched: until we revoke, our
    current commitment stays the stored one. *)
Theorem receive_new_commitment (w : worth) (lc : LightningChannel) (commitSig : bytes) (htlcSigs : list bytes)
    (u : unit) (lc' : LightningChannel) :
  dance_ok w lc -> ReceiveNewCommitment commitSig htlcSigs lc = (Ok u, lc') ->
  let cs := channelState lc in
  exists t rt v secret sigHash cSig, tip (localCommitChain lc) = Ok t /\ chain_tail (remoteCommitChain lc) = Ok rt /\
    localCommitChain lc' = localCommitChain lc ++ [v] /\ remoteCommitChain lc' = remoteCommitChain lc /\
    ChanBucket (channelState lc') = ChanBucket cs /\ currentHeight lc' = currentHeight lc /\
    c_height v = c_height t + 1 /\ c_theirMessageIndex v = logIndex (remoteUpdateLog lc) /\
    c_ourMessageIndex v = c_ourMessageIndex rt /\
    htlcs_match false lc' v /\ eqw 64 (asset_value v) (asset_value t) /\
    CalcSignatureHash (sd_WitnessScript (signDesc lc)) (HashType (signDesc lc)) (c_txn v) 0 = Some sigHash /\
    ToSignature commitSig = Ok cSig /\ VerifySig cSig sigHash (MultiSigKey (RemoteChanCfg cs)) = true /\
    c_sig v = ToSignatureBytes commitSig /\
    AtIndex (Producer cs) (u64 (currentHeight lc + 1)) = Ok secret /\
    let kr := DeriveCommitmentKeys (ComputeCommitmentPoint secret) true (ChanType cs) (LocalChanCfg cs) (RemoteChanCfg cs) in
    Forall2 (covers cs kr v) (htlc_outputs v) htlcSigs /\
    (forall p, p ∈ htlcs v -> exists at_ q, at_ ∈ htlc_outputs v /\ htlcs_of v (fst at_) !! snd at_ = Some q /\
       localOutputIndex q = localOutputIndex p).
Proof.
  intros Hok Hrun cs. pose proof (do_index _ _ Hok) as Hi.
  destruct (receive_sig_inv _ _ _ _ _ Hrun) as (rt & secret & v & lc1 & sh & v' & jobs & cSig & Hrt & _ & Hsec & Hv & Hsh & Hj & Hsg & Hver & Hck & ->).
  destruct (jobs_keep _ _ _ _ _ _ Hj) as [Ev Emoney].
  destruct (checked_sigs _ _ _ _ _ _ Hj Hck) as [Eun Hcov].
  destruct (st_local _ (do_stored _ _ Hok)) as (lt & Hlt & _).
  assert (exists t, tip (localCommitChain lc) = Ok t) as [t Htip].
  { unfold tip. destruct (list.last _) eqn:E; [eauto|]. by apply last_None in E; rewrite E in Hlt. }
  pose proof (fetch_extends _ _ _ _ _ _ _ _ _ t Hv (do_logs _ _ Hok) Htip (proj1 (ch_each _ _ (ix_chain _ Hi false) t (tip_elem _ _ Htip)))
      (heighted_recorded lc false t (do_height _ _ Hok) Htip) (va_match _ _ (do_value _ _ Hok) false t Htip)
      (ix_bound _ Hi false true t (tip_elem _ _ Htip)) (ix_acked _ Hi false t rt (tip_elem _ _ Htip) Hrt)) as Hex.
  destruct (viewed_fields _ _ (ex_viewed _ _ _ _ _ _ _ Hex)) as (El & Er & Eh & _ & _ & Eb & _).
  assert (Ed : signDesc lc1 = signDesc lc) by (by rewrite (vw_rest _ _ (ex_viewed _ _ _ _ _ _ _ Hex))).
  destruct (money_sums _ _ _ (ex_match _ _ _ _ _ _ _ Hex)) as [_ G2].
  set (v2 := v' <| c_sig := ToSignatureBytes commitSig |>).
  assert (Eun2 : unsigned v = unsigned (v2 <| c_sig := c_sig v' |>)) by (rewrite <- Eun; by destruct v').
  assert (Eout : htlc_outputs v2 = htlc_outputs v) by (symmetry; exact (unsigned_outputs _ _ Eun2)).
  exists t, rt, v2, secret, sh, cSig.
  split; [exact Htip|]. split; [exact Hrt|]. cbn [localCommitChain remoteCommitChain channelState currentHeight].
  set (lc' := lc1 <| localCommitChain ::= _ |>).
  assert (Hm : htlcs_match false lc' v2).
  { unfold htlcs_match. transitivity (pd_money <$> htlcs v); [by apply Permutation_refl'|]. apply Hex. }
  assert (Ha : asset_value v2 = asset_value v).
  { unfold asset_value. rewrite G2. change (carries false lc1) with (carries false lc') in *. change (lc_heap lc1) with (lc_heap lc').
    rewrite <- (proj2 (money_sums _ _ _ Hm)). unfold v2. rewrite Ev. done. }
  split; [unfold lc'; cbn; by rewrite El|]. split; [exact Er|]. split; [exact Eb|]. split; [exact Eh|].
  rewrite Ha. unfold v2 at 1 2 3 5. rewrite Ev. split; [apply Hex|].
  split; [exact (ex_index _ _ _ _ _ _ _ Hex true)|]. split; [exact (ex_index _ _ _ _ _ _ _ Hex false)|].
  split; [exact Hm|]. split; [apply Hex|]. split; [rewrite <- Ed; exact Hsh|]. split; [exact Hsg|]. split; [exact Hver|].
  split; [done|]. split; [exact Hsec|]. cbv zeta. rewrite Eout. split.
  - eapply Forall2_impl; [|exact Hcov]. intros at_ s Hc. change (covers cs) with (covers (channelState lc)).
    apply (covers_totals _ _ _ _ _ _ (vw_totals _ _ (ex_viewed _ _ _ _ _ _ _ Hex))) in Hc. exact Hc.
  - intros p Hp. destruct (located_covered v2 p) as (at_ & q & Hat & Hq); [|exact Hp|].
    + pose proof (located_unsigned _ _ Eun2 (fetch_located _ _ _ _ _ _ _ _ Hv)) as [L1 L2]. split; [exact L1|exact L2].
    + exists at_, q. rewrite Eout in Hat. exact (conj Hat Hq).
Qed.

(** C2. Receiving a revocation hands over exactly the HTLCs and resolutions it
    makes irrevocable - the peer's updates, fees apart, between its revoked
    commitment and the next -, each for the only time: what was handed over before
    is never handed over again. They are stored as the forwarding package of the
    new height, the pending commitment becomes the current one, and compacting the
    logs changes nothing of what either chain carries. *)
Theorem receive_revocation (w : worth) (lc : LightningChannel) (msg : RevokeAndAck) (pkg : FwdPkg)
    (adds rmvs : list ptr) (hs : list HTLC) (lc' : LightningChannel) :
  dance_ok w lc -> ReceiveRevocation msg lc = (Ok (pkg, adds, rmvs, hs), lc') ->
  exists rt v, remoteCommitChain lc = [rt; v] /\ remoteCommitChain lc' = [v] /\ localCommitChain lc' = localCommitChain lc /\
    (forall p, p ∈ adds <-> committed_between lc rt v p /\ pd_EntryType (deref (lc_heap lc) p) = Add) /\
    (forall p, p ∈ rmvs <-> committed_between lc rt v p /\ is_removal (pd_EntryType (deref (lc_heap lc) p)) = true) /\
    (forall p, p ∈ adds ++ rmvs -> isForwarded (deref (lc_heap lc) p) = false /\ isForwarded (deref (lc_heap lc') p) = true) /\
    NoDup (adds ++ rmvs) /\
    pkg = NewFwdPkg (ChanShortID (channelState lc)) (c_height v)
      ((fun p => logUpdate (chan_id lc) (deref (lc_heap lc) p)) <$> adds)
      ((fun p => logUpdate (chan_id lc) (deref (lc_heap lc) p)) <$> rmvs) /\
    AddFwdPkg pkg (FwdPackages (channelState lc)) = Ok (FwdPackages (channelState lc')) /\
    RemoteCommitment (channelState lc') = toDiskCommit v false /\
    (forall rc, carries rc lc' ≡ₚ carries rc lc).
Proof.
  intros Hok Hrun. destruct (revocation_run w lc msg pkg adds rmvs hs lc' Hok Hrun) as (rt & v & lt & Hr & Hpkg & Hadd).
  destruct (rv_chain _ _ _ _ _ _ _ Hr) as [E1 E2].
  assert (Hb := fun p => forwarded_between w lc rt v [] lt p Hok E1 (rv_tail _ _ _ _ _ _ _ Hr)).
  pose proof (rv_adds _ _ _ _ _ _ _ Hr) as Ha. pose proof (rv_rmvs _ _ _ _ _ _ _ Hr) as Hm.
  assert (HA : forall p, p ∈ adds <-> committed_between lc rt v p /\ pd_EntryType (deref (lc_heap lc) p) = Add).
  { intros p. rewrite Ha, list_elem_of_filter. split; [intros [Hx Hp]; apply (Hb p Hp) in Hx; tauto|].
    intros [Hc Ht]. pose proof Hc as [Hp _]. split; [|done]. by apply (Hb p Hp). }
  assert (HM : forall p, p ∈ rmvs <-> committed_between lc rt v p /\ is_removal (pd_EntryType (deref (lc_heap lc) p)) = true).
  { intros p. rewrite Hm, list_elem_of_filter. split; [intros [Hx Hp]; apply (Hb p Hp) in Hx; tauto|].
    intros [Hc Ht]. pose proof Hc as [Hp _]. split; [|done]. by apply (Hb p Hp). }
  exists rt, v. split; [done|]. split; [done|]. split; [apply Hr|]. split; [done|]. split; [done|]. split.
  - intros p Hp. destruct (rv_heap _ _ _ _ _ _ _ Hr p) as [_ Hf]. rewrite Hf, bool_decide_eq_true_2, orb_true_r by done.
    split; [|done]. apply not_true_iff_false. intros Hfw.
    assert (Hc : committed_between lc rt v p) by (apply elem_of_app in Hp as [Hp|Hp]; [apply HA in Hp|apply HM in Hp]; tauto).
    pose proof (he_forwarded _ (do_height _ _ Hok) rt p ltac:(by rewrite E1) (proj1 Hc) Hfw). destruct Hc as [_ Hc]. lia.
  - pose proof (lw_nodup _ _ (log_wf_of lc true (do_logs _ _ Hok))) as Hnd. split.
    + apply list.NoDup_app. split; [rewrite Ha; by apply list.NoDup_filter|]. split; [|rewrite Hm; by apply list.NoDup_filter].
      intros p [_ Hadd']%HA [_ Hrmv]%HM. by rewrite Hadd' in Hrmv.
    + split; [done|]. split; [done|]. split; [apply Hr|]. intros rc. eapply revoked_carries; [by apply Hok|done].
Qed.

Lemma UpdateCommitment_runs cc us c : frozen c = false -> exists c', UpdateCommitment cc us c = (Ok tt, c').
Proof.
  intros Hf. unfold UpdateCommitment. rewrite (M_bind_run _ _ _ _ _ (check_mutable_Ok c Hf)). by eexists.
Qed.

Lemma revoke_runs w lc t0 t1 rest seed : dance_ok w lc -> frozen (channelState lc) = false ->
  localCommitChain lc = t0 :: t1 :: rest -> Producer (channelState lc) = NewRevocationProducer seed ->
  length seed = 32%nat -> currentHeight lc + 2 < 2 ^ 48 ->
  exists m hs lc', RevokeCurrentCommitment lc = (Ok (m, hs), lc') /\ localCommitChain lc' = t1 :: rest /\
    rev_Revocation m = secret seed (newIndex (currentHeight lc)) /\
    rev_NextRevocationKey m = Some (ComputeCommitmentPoint (secret seed (newIndex (currentHeight lc + 2)))).
Proof.
  intros Hok Hf Hchain Hprod Hseed Hb.
  destruct (st_local _ (do_stored _ _ Hok)) as (t & Ht & Hcur & _). rewrite Hchain in Ht. injection Ht as <-.
  pose proof (ix_chain _ (do_index _ _ Hok) false) as Hch. cbn in Hch. rewrite Hchain in Hch.
  destruct (ch_each _ _ Hch t0) as [Hpos _]; [by left|].
  destruct (st_remote _ (do_stored _ _ Hok)) as (rt & _ & Hrem).
  assert (Hrt : chain_tail (remoteCommitChain lc) = Ok rt) by (by destruct Hrem as [[-> _]|(v & d & -> & _)]).
  assert (Hu : u64 (currentHeight lc + 2) = currentHeight lc + 2) by (apply uwrap_id; unfold is_uint; lia).
  set (msg := mkRevokeAndAck (chan_id lc) (secret seed (newIndex (currentHeight lc)))
    (Some (ComputeCommitmentPoint (secret seed (newIndex (currentHeight lc + 2))))) []).
  assert (Hgen : generateRevocation lc (currentHeight lc) = Ok msg).
  { unfold generateRevocation. rewrite Hprod, Hu, !AtIndex_secret by (done || lia). done. }
  set (lc1 := lc <| localCommitChain := t1 :: rest |> <| currentHeight ::= fun h => u64 (h + 1) |>).
  assert (exists us, getUnsignedAckedUpdates lc1 = Ok us) as [us Hus].
  { unfold getUnsignedAckedUpdates. change (remoteCommitChain lc1) with (remoteCommitChain lc). rewrite Hrt, res_bind_Ok_l. by eexists. }
  destruct (UpdateCommitment_runs (toDiskCommit t1 true) us (channelState lc) Hf) as [c' Hc'].
  exists msg, (Htlcs (toDiskCommit t1 true)), (lc1 <| channelState := c' |>). split; [|done].
  unfold RevokeCurrentCommitment. rewrite (M_bind_run (gets currentHeight) _ lc _ lc eq_refl).
  rewrite (M_bind_run (fun l => (generateRevocation l (currentHeight lc), l)) _ lc _ lc (f_equal (fun r => (r, lc)) Hgen)).
  rewrite (M_bind_run (tailM false) _ lc t0 lc) by (unfold tailM; cbn; by rewrite Hchain).
  rewrite (M_bind_run (fun lc => (advanceTail (localCommitChain lc), lc)) _ lc (t1 :: rest) lc) by (by rewrite Hchain).
  rewrite (M_bind_run (modify (fun lc => lc <| localCommitChain := t1 :: rest |> <| currentHeight ::= fun h => u64 (h + 1) |>)) _ lc tt lc1 eq_refl).
  rewrite (M_bind_run (tailM false) _ lc1 t1 lc1 eq_refl).
  rewrite (M_bind_run (fun lc => (getUnsignedAckedUpdates lc, lc)) _ lc1 us lc1 (f_equal (fun r => (r, lc1)) Hus)).
  rewrite (M_bind_run (on_db (UpdateCommitment (toDiskCommit t1 true) us)) _ lc1 tt (lc1 <| channelState := c' |>)); [done|].
  unfold on_db. change (channelState lc1) with (channelState lc). by rewrite Hc'.
Qed.

Lemma receive_revocation_runs w lc rt v rev store msg : dance_ok w lc -> frozen (channelState lc) = false ->
  remoteCommitChain lc = [rt; v] -> NewHash (rev_Revocation msg) = Ok rev ->
  AddNextEntry rev (Store (channelState lc)) = (Ok tt, store) ->
  RemoteCurrentRevocation (channelState lc) = Some (ComputeCommitmentPoint (rev_Revocation msg)) ->
  exists r lc', ReceiveRevocation msg lc = (Ok r, lc').
Proof.
  intros Hok Hf Hchain Hrev Hadd Hkey.
  destruct (st_local _ (do_stored _ _ Hok)) as (lt & Hlt & _).
  destruct (st_remote _ (do_stored _ _ Hok)) as (t0 & _ & [[E _]|(v0 & d & E & Hd & _)]); [by rewrite Hchain in E|].
  rewrite Hchain in E. injection E as <- <-.
  unfold ReceiveRevocation.
  rewrite (M_bind_run (lift (of_sha (NewHash (rev_Revocation msg)))) _ lc rev lc) by (unfold lift; by rewrite Hrev).
  set (lc1 := lc <| channelState ::= fun c => c <| Store := store |> |>).
  rewrite (M_bind_run (insertSecret rev) _ lc tt lc1) by (unfold insertSecret; by rewrite Hadd).
  rewrite (M_bind_run (gets (fun lc => RemoteCurrentRevocation (channelState lc))) _ lc1 _ lc1 eq_refl).
  change (RemoteCurrentRevocation (channelState lc1)) with (RemoteCurrentRevocation (channelState lc)). rewrite Hkey.
  rewrite bool_decide_eq_true_2 by done. rewrite (M_bind_run (check (negb true) _) _ lc1 tt lc1 eq_refl).
  set (set_next := fun lc => lc <| channelState ::= fun c => c <| RemoteCurrentRevocation := RemoteNextRevocation c |>
        <| RemoteNextRevocation := rev_NextRevocationKey msg |> |>).
  rewrite (M_bind_run (modify set_next) _ lc1 tt (set_next lc1) eq_refl). set (lc2 := set_next lc1).
  rewrite (M_bind_run (tailM true) _ lc2 rt lc2) by (unfold tailM; cbn; by rewrite Hchain).
  rewrite (M_bind_run (tailM false) _ lc2 lt lc2) by (unfold tailM; cbn; by rewrite Hlt). cbv zeta.
  rewrite (M_bind_run (gets (fun lc => ChanShortID (channelState lc))) _ lc2 _ lc2 eq_refl).
  rewrite (M_bind_run (gets chan_id) _ lc2 _ lc2 eq_refl).
  destruct (forward (ChanShortID (channelState lc2)) (chan_id lc2) (u64 (c_height rt + 1)) (c_height lt)
    (entries (remoteUpdateLog lc2)) 0 0 (lc_heap lc2)) as [[h' adds] rmvs] eqn:Hfw.
  set (lc3 := lc2 <| lc_heap := h' |>).
  match goal with |- context [(?m ≫= _) lc2] => rewrite (M_bind_run m _ lc2 (adds, rmvs) lc3) by by rewrite Hfw end.
  rewrite (M_bind_run (tipM true) _ lc3 v lc3) by (rewrite tipM_run; cbn; by rewrite Hchain).
  match goal with |- context [(gets ?f ≫= _) lc3] => rewrite (M_bind_run (gets f) _ lc3 _ lc3 eq_refl) end.
  assert (Hdb : forall p us, exists c', AdvanceCommitChainTail p us (channelState lc3) = (Ok tt, c')).
  { intros p us. destruct (Advance_run (channelState lc3) d p us Hf Hd) as (c' & db' & _ & Hrun & _). by exists c'. }
  match goal with |- context [(on_db (AdvanceCommitChainTail ?p ?us) ≫= _) lc3] => destruct (Hdb p us) as [c' Hc'];
    rewrite (M_bind_run (on_db (AdvanceCommitChainTail p us)) _ lc3 tt (lc3 <| channelState := c' |>)) by (unfold on_db; by rewrite Hc') end.
  set (lc4 := lc3 <| channelState := c' |>).
  rewrite (M_bind_run (fun lc => (advanceTail (remoteCommitChain lc), lc)) _ lc4 [v] lc4) by (cbn; by rewrite Hchain).
  rewrite (M_bind_run (modify (fun lc => lc <| remoteCommitChain := [v] |>)) _ lc4 tt (lc4 <| remoteCommitChain := [v] |>) eq_refl).
  set (lc5 := lc4 <| remoteCommitChain := [v] |>).
  pose proof (do_logs _ _ Hok) as Hlogs.
  destruct (forward_spec _ _ _ _ _ _ _ _ _ _ _ (lw_nodup _ _ (log_wf_of lc true Hlogs)) (lw_alloc _ _ (log_wf_of lc true Hlogs)) Hfw)
    as (_ & _ & _ & _ & E5 & E6).
  assert (Hle : heap_le (lc_heap lc) h').
  { split; [change (lc_heap lc2) with (lc_heap lc) in E5; lia|]. intros p _. by apply (unforwarded_read pd_id _ _ p (proj1 (E6 p))). }
  destruct (@compactLogs_spec chanerr h' (c_height lt) (u64 (c_height rt + 1)) _ _ (logs_ok_heap_le _ _ _ _ Hle (lk_logs _ Hlogs)))
    as (A' & B' & Hrun' & _).
  match goal with |- context [(?m ≫= _) lc5] => rewrite (M_bind_run m _ lc5 (A', B') lc5) by (f_equal; exact Hrun') end.
  by eexists _, _.
Qed.

(** C5. Nothing blocks the dance. A live channel with a new commitment of its own
    can always revoke the old one, revealing the secret of its height and the
    point two heights on; and with an unrevoked commitment of the peer, a
    revocation that opens the peer's current point and fits the secrets received
    so far is always accepted. *)
Theorem dance_progress (w : worth) (lc0 lc : LightningChannel) (seed : bytes) :
  opened w lc0 -> rtc step lc0 lc -> frozen (channelState lc) = false ->
  Producer (channelState lc) = NewRevocationProducer seed -> length seed = 32%nat -> currentHeight lc + 2 < 2 ^ 48 ->
  (forall t0 t1 rest, localCommitChain lc = t0 :: t1 :: rest ->
     exists m hs lc', RevokeCurrentCommitment lc = (Ok (m, hs), lc') /\ localCommitChain lc' = t1 :: rest /\
       rev_Revocation m = secret seed (newIndex (currentHeight lc)) /\
       rev_NextRevocationKey m = Some (ComputeCommitmentPoint (secret seed (newIndex (currentHeight lc + 2))))) /\
  (forall msg rev store, hasUnackedCommitment (remoteCommitChain lc) = true ->
     NewHash (rev_Revocation msg) = Ok rev -> AddNextEntry rev (Store (channelState lc)) = (Ok tt, store) ->
     RemoteCurrentRevocation (channelState lc) = Some (ComputeCommitmentPoint (rev_Revocation msg)) ->
     exists r lc', ReceiveRevocation msg lc = (Ok r, lc')).
Proof.
  intros Ho Hr Hf Hp Hs Hb. pose proof (reach_dance w lc0 lc Ho Hr) as Hok. split.
  - intros t0 t1 rest Hc. by apply (revoke_runs w lc t0 t1 rest seed).
  - intros msg rev store Hu Hn Hadd Hk.
    destruct (st_remote _ (do_stored _ _ Hok)) as (t & _ & [[E _]|(v & d & E & _)]); [by rewrite E in Hu|].
    by apply (receive_revocation_runs w lc t v rev store msg).
Qed.
End Spec.

(** ** A concrete channel over the toy curve *)
#[local] Existing Instance toy_pubkeys.
#[local] Existing Instance toy_curve.
#[local] Existing Instance toy_scripts.
#[local] Existing Instance toy_txlib.

Definition toy_der : bytes := der [Byte.x05] [Byte.x07].
Definition toy_wire_sig : bytes := replicate 31 Byte.x00 ++ [Byte.x05] ++ replicate 31 Byte.x00 ++ [Byte.x07].

(** A signer with one signature, and a check that knows it. *)
#[local] Instance toy_siglib : SigLib := {|
  SignOutputRaw _ _ := Some toy_der;
  CalcSignatureHash _ _ _ _ := Some zero_hash;
  ParseDERSignature b := Some b;
  VerifySig sig _ _ := bool_decide (sig = toy_der)
|}.

Definition peer_secret (h : Z) : bytes := replicate 31 Byte.x07 ++ [byte.of_Z h].

Definition open_commit (isOurs : bool) : commitment :=
  mkCommitment 0 isOurs 0 0 0 0 (mkMsgTx 2 [] [] 0) [] 599817000 400000000 0 0 183 253 354 [] [] ∅ ∅.

Definition open_state : OpenChannel :=
  toy_channel 0 None <| LocalCommitment := toDiskCommit (open_commit true) true |>
    <| RemoteCommitment := toDiskCommit (open_commit false) false |>
    <| Producer := NewRevocationProducer (replicate 32 Byte.x09) |>
    <| RemoteCurrentRevocation := Some (ComputeCommitmentPoint (peer_secret 0)) |>
    <| RemoteNextRevocation := Some (ComputeCommitmentPoint (peer_secret 1)) |>.

(** The channel as it is stored. *)
Definition stored_state (c : OpenChannel) : OpenChannel := c <| ChanBucket ::= putOpenChannel c |>.

Lemma stored_on_disk c : hasChanStatus c ChanStatusRestored = false -> on_disk (stored_state c).
Proof. exact (put_on_disk c). Qed.

Lemma with_state_on_disk lc c : hasChanStatus c ChanStatusRestored = false -> on_disk (channelState (lc <| channelState := stored_state c |>)).
Proof. exact (stored_on_disk c). Qed.

Definition open_lc : LightningChannel :=
  mkLC [] 1000000 0 0 [open_commit false] [open_commit true] (stored_state open_state)
    [Byte.x01; Byte.x02; Byte.x03; Byte.x04; Byte.x05; Byte.x06]
    (mkSignDesc 5 [] [] (mkTxOut 1000000 []) 1 0) (newUpdateLog 0 0) (newUpdateLog 0 0).

Definition toy_worth : worth := mkWorth 0 1000000000.

Lemma open_lc_opened : opened toy_worth open_lc.
Proof.
  split; [done| |done|done]. intros rc. exists (open_commit (negb rc)). destruct rc; (repeat split; [by intros []|done..]).
Qed.

(** What a run leaves. *)
Definition is_ok {S E A} (x : res E A * S) : bool := match fst x with Ok _ => true | _ => false end.

Lemma ok_run {S E A} (d : A) (x : res E A * S) : is_ok x = true -> x = (Ok (value_of d x), snd x).
Proof. destruct x as [[a| |] s]; [done|done..]. Qed.

(** We offer an HTLC, sign, and get the peer's revocation. *)
Definition offered : LightningChannel := run_update (Offer (toy_add 0 25000000 0) None) open_lc.
Definition sign_run := SignNextCommitment offered.
Definition peer_revocation : RevokeAndAck :=
  mkRevokeAndAck (chan_id open_lc) (peer_secret 0) (Some (ComputeCommitmentPoint (peer_secret 2))) [].
Definition revoked_run := ReceiveRevocation peer_revocation (snd sign_run).

(** The peer offers one and signs our commitment. *)
Definition received : LightningChannel := run_update (Receive (toy_add 0 25000000 0)) open_lc.
Definition accept_run := ReceiveNewCommitment toy_wire_sig [toy_wire_sig] received.

(** The fees of both chains, checked. *)
Definition fees_checked (lc : LightningChannel) : bool :=
  forallb (fun c => (0 <=? c_fee c) && (c_fee c <? 2 ^ 53)) (localCommitChain lc ++ remoteCommitChain lc).

Lemma fees_checked_ok lc : fees_checked lc = true -> fees_ok lc.
Proof.
  unfold fees_checked. rewrite forallb_forall. intros Hf _ rc c Hc. specialize (Hf c).
  rewrite andb_true_iff, Z.leb_le, Z.ltb_lt in Hf. apply Hf, in_or_app. destruct rc; [right|left]; by apply list_elem_of_In.
Qed.

Lemma all_true (a b c : bool) : a && b && c = true -> a = true /\ b = true /\ c = true.
Proof. by destruct a, b, c. Qed.

Lemma toy_run_ok : is_ok sign_run = true /\ fees_checked (snd sign_run) = true /\ is_ok revoked_run = true.
Proof. apply all_true. vm_compute. reflexivity. Qed.

Lemma toy_accept_ok : is_ok accept_run = true.
Proof. vm_compute. reflexivity. Qed.

Definition no_pkg : FwdPkg := NewFwdPkg scid_example 0 [] [].

#[local] Strategy expand [accept_run sign_run revoked_run].

Lemma toy_room : room open_lc.
Proof. intros []; cbn; lia. Qed.

Lemma toy_steps : step open_lc offered /\ step offered (snd sign_run) /\ step (snd sign_run) (snd revoked_run).
Proof.
  destruct toy_run_ok as (H1 & H2 & H3). split; [|split].
  - by apply step_update, toy_room.
  - exact (step_sign _ _ _ (ok_run ([], [], []) sign_run H1) (fees_checked_ok _ H2)).
  - exact (step_revoked peer_revocation _ _ _ (ok_run (no_pkg, [], [], []) revoked_run H3)).
Qed.

Lemma toy_reach : rtc step open_lc (snd sign_run) /\ rtc step open_lc (snd revoked_run).
Proof.
  destruct toy_steps as (S1 & S2 & S3).
  exact (conj (rtc_l _ _ _ _ S1 (rtc_once _ _ S2)) (rtc_l _ _ _ _ S1 (rtc_l _ _ _ _ S2 (rtc_once _ _ S3)))).
Qed.

Lemma toy_dance : dance_ok toy_worth offered /\ dance_ok toy_worth (snd sign_run) /\ dance_ok toy_worth received.
Proof.
  destruct toy_steps as (S1 & S2 & _). pose proof (opened_dance _ _ open_lc_opened) as H0.
  pose proof (step_dance _ _ _ S1 H0) as H1. split; [exact H1|]. split; [exact (step_dance _ _ _ S2 H1)|].
  exact (step_dance toy_worth _ _ (step_update (Receive (toy_add 0 25000000 0)) _ toy_room) H0).
Qed.

(** ** Witnesses *)
Lemma dance_safety_witness :
  CommitHeight (RemoteCommitment (channelState (snd revoked_run))) = 1 /\
  (exists cc, db_revocationLog (ChanBucket (channelState (snd revoked_run))) !! 0 = Some cc /\ CommitHeight cc = 0) /\
  exists t, RemoteCommitment (channelState (snd revoked_run)) = toDiskCommit t false /\
    db_remoteCommit (ChanBucket (channelState (snd revoked_run))) = toDiskCommit t false.
Proof.
  assert (E : CommitHeight (RemoteCommitment (channelState (snd revoked_run))) = 1) by (vm_compute; reflexivity).
  assert (Hd : on_disk (channelState open_lc)) by exact (stored_on_disk open_state eq_refl).
  destruct (dance_safety toy_worth open_lc (snd revoked_run) open_lc_opened Hd (proj2 toy_reach))
    as (_ & _ & _ & _ & _ & (t & E1 & E2 & _) & Hlog & _).
  destruct (Hlog 0) as (cc & E3 & _ & E4); [rewrite E; lia|].
  exact (conj E (conj (ex_intro _ cc (conj E3 E4)) (ex_intro _ t (conj E1 E2)))).
Defined.

Lemma sign_next_commitment_witness :
  SignNextCommitment (snd sign_run) = (Err ErrNoWindow, snd sign_run) /\
  exists t v, remoteCommitChain (snd sign_run) = [t; v] /\ c_height v = c_height t + 1.
Proof.
  destruct toy_run_ok as (H1 & H2 & H3).
  assert (Hw : exists t v, remoteCommitChain (snd sign_run) = [t; v] /\ c_height v = c_height t + 1).
  { pose proof (ok_run ([], [], []) sign_run H1) as Hrun. destruct (value_of ([], [], []) sign_run) as [[sig sigs] hs].
    assert (Hsign : SignNextCommitment offered = (Ok (sig, sigs, hs), snd sign_run)) by exact Hrun.
    pose proof (sign_next_commitment toy_worth offered (proj1 toy_dance)) as Hspec.
    destruct (proj2 Hspec sig sigs hs (snd sign_run) Hsign) as (t & lt & v & d & _ & _ & E & _ & _ & Hh & _).
    exists t, v. exact (conj E Hh). }
  split; [|exact Hw].
  apply (proj1 (sign_next_commitment toy_worth (snd sign_run) (proj1 (proj2 toy_dance)))).
  left. destruct Hw as (t & v & E & _). exists t, v. exact E.
Defined.

Lemma receive_new_commitment_witness :
  exists v, localCommitChain (snd accept_run) = [open_commit true; v] /\ c_height v = 1 /\ length (htlc_outputs v) = 1%nat.
Proof.
  destruct toy_run_ok as (H1 & H2 & H3).
  assert (Hrun : ReceiveNewCommitment toy_wire_sig [toy_wire_sig] received = (Ok (value_of tt accept_run), snd accept_run))
    by exact (ok_run tt accept_run toy_accept_ok).
  destruct (receive_new_commitment toy_worth received toy_wire_sig [toy_wire_sig] _ (snd accept_run) (proj2 (proj2 toy_dance)) Hrun)
    as (t & rt & v & sec & sh & cs & Ht & _ & E & _ & _ & _ & Hh & _ & _ & _ & _ & _ & _ & _ & _ & _ & Hcov & _).
  assert (E0 : localCommitChain received = [open_commit true]) by (vm_compute; reflexivity).
  rewrite E0 in E, Ht. injection Ht as <-. exists v. split; [exact E|]. split; [exact Hh|]. exact (Forall2_length Hcov).
Defined.

Lemma receive_revocation_witness :
  exists rt v, remoteCommitChain (snd sign_run) = [rt; v] /\ remoteCommitChain (snd revoked_run) = [v] /\
    RemoteCommitment (channelState (snd revoked_run)) = toDiskCommit v false.
Proof.
  destruct toy_run_ok as (H1 & H2 & H3).
  pose proof (ok_run (no_pkg, [], [], []) revoked_run H3) as Hrun.
  destruct (value_of (no_pkg, [], [], []) revoked_run) as [[[pkg adds] rmvs] hs].
  assert (Hrecv : ReceiveRevocation peer_revocation (snd sign_run) = (Ok (pkg, adds, rmvs, hs), snd revoked_run)) by exact Hrun.
  destruct (receive_revocation toy_worth (snd sign_run) peer_revocation pkg adds rmvs hs (snd revoked_run) (proj1 (proj2 toy_dance)) Hrecv) as (rt & v & E1 & E2 & _ & _ & _ & _ & _ & _ & _ & Hd & _).
  exists rt, v. exact (conj E1 (conj E2 Hd)).
Defined.

Lemma dance_progress_witness :
  exists r lc', ReceiveRevocation peer_revocation (snd sign_run) = (Ok r, lc').
Proof.
  assert (Hadd : fst (AddNextEntry (peer_secret 0) (Store (channelState (snd sign_run)))) = Ok tt) by (vm_compute; reflexivity).
  assert (Hlive : frozen (channelState (snd sign_run)) = false) by (vm_compute; reflexivity).
  assert (Hseed : Producer (channelState (snd sign_run)) = NewRevocationProducer (replicate 32 Byte.x09)) by (vm_compute; reflexivity).
  assert (Hroom : currentHeight (snd sign_run) + 2 < 2 ^ 48) by (vm_compute; reflexivity).
  assert (Hwait : hasUnackedCommitment (remoteCommitChain (snd sign_run)) = true) by (vm_compute; reflexivity).
  assert (Hhash : NewHash (rev_Revocation peer_revocation) = Ok (peer_secret 0)) by (vm_compute; reflexivity).
  assert (Hkey : RemoteCurrentRevocation (channelState (snd sign_run)) = Some (ComputeCommitmentPoint (rev_Revocation peer_revocation)))
    by (vm_compute; reflexivity).
  exact (proj2 (dance_progress toy_worth open_lc (snd sign_run) (replicate 32 Byte.x09) open_lc_opened (proj1 toy_reach)
    Hlive Hseed eq_refl Hroom) peer_revocation (peer_secret 0) _ Hwait Hhash (run_eq _ tt Hadd) Hkey).
Defined.
