(* ===== verification/ReestablishTheorems.v ===== *)
(** * What reestablishing a channel promises

    Two peers that agree on the protocol and differ only in what was lost between
    them get exactly what was lost; whatever message arrives, no secret but the last
    revoked one is told; and a channel that has lost state never closes by force. *)

From S2P Require Import Prelude Wire Messages ChanIds Units Sha256 Shachain Sig Tx OmniOp Keys Scripts FwdPkg UpdateLog Circuits ChanDB Commitment Channel ChannelOps Link ChannelSign Reload Reestablish Views Dance Protocol Reach Safety DanceSpec.

#[local] Opaque secret newIndex.

Section Reestablish.
Context `{CurveOps, !ScriptLib, !TxLib, !SigLib}.

Definition secret_at (seed : bytes) (h : Z) : bytes := secret seed (newIndex h).
Definition point_at (seed : bytes) (h : Z) : PublicKey := ComputeCommitmentPoint (secret_at seed h).

(** Our channel and what the peer has of it on disk, whatever was lost in between:
    each is at most one step behind the other. *)
Record peers (ours theirs : bytes) (lc : LightningChannel) (c : OpenChannel) : Prop := {
  pe_ours : Producer (channelState lc) = NewRevocationProducer ours /\ length ours = 32%nat /\ currentHeight lc + 1 < 2 ^ 48;
  pe_theirs : Producer c = NewRevocationProducer theirs /\ length theirs = 32%nat;
  pe_store : store_holds ours (2 ^ 48 - CommitHeight (RemoteCommitment c)) (Store c);
  pe_local : 0 <= CommitHeight (RemoteCommitment c) /\ currentHeight lc - 1 <= CommitHeight (RemoteCommitment c) <= currentHeight lc;
  pe_remote t v : chain_tail (remoteCommitChain lc) = Ok t -> tip (remoteCommitChain lc) = Ok v ->
    c_height t <= CommitHeight (LocalCommitment c) <= c_height v /\ c_height v + 1 < 2 ^ 48;
  pe_current t : chain_tail (remoteCommitChain lc) = Ok t ->
    RemoteCurrentRevocation (channelState lc) = Some (point_at theirs (c_height t));
  pe_next t p : chain_tail (remoteCommitChain lc) = Ok t ->
    RemoteNextRevocation (channelState lc) = Some p -> p = point_at theirs (c_height t + 1);
  pe_live : hasChanStatus (channelState lc) ChanStatusRestored = false /\ hasChanStatus c ChanStatusRestored = false
}.

Lemma u64_id z : 0 <= z < 2 ^ 64 -> u64 z = z.
Proof. intros ?. by apply uwrap_id. Qed.

Lemma sha_res_Ok {A} (r : res shaerr A) a : r = Ok a -> sha_res r = Ok a.
Proof. by intros ->. Qed.

(** What the peer's message says. *)
Definition sync_of (ours theirs : bytes) (c : OpenChannel) : ChannelReestablish :=
  mkChannelReestablish (NewChanIDFromOutPoint (FundingOutpoint c)) (CommitHeight (LocalCommitment c) + 1)
    (CommitHeight (RemoteCommitment c))
    (if CommitHeight (RemoteCommitment c) =? 0 then zero32 else secret_at ours (CommitHeight (RemoteCommitment c) - 1))
    (Some (point_at theirs (CommitHeight (LocalCommitment c)))) [].

Lemma sync_message ours theirs lc c : peers ours theirs lc c -> 0 <= CommitHeight (LocalCommitment c) < 2 ^ 48 ->
  ChanSyncMsg c = Ok (sync_of ours theirs c).
Proof.
  intros Hp Hh. destruct (pe_ours _ _ _ _ Hp) as (_ & Ho & Hb). destruct (pe_theirs _ _ _ _ Hp) as (Ht & Hl).
  pose proof (pe_local _ _ _ _ Hp) as Hr. pose proof (pe_store _ _ _ _ Hp) as Hs. destruct (pe_live _ _ _ _ Hp) as [_ Hlive].
  assert (Hat : AtIndex (NewRevocationProducer theirs) (CommitHeight (LocalCommitment c)) = Ok (secret_at theirs (CommitHeight (LocalCommitment c)))).
  { apply AtIndex_secret; [exact Hl|lia]. }
  assert (Hlook : (if CommitHeight (RemoteCommitment c) =? 0 then mret zero32
      else sha_res (LookUp (Store c) (u64 (CommitHeight (RemoteCommitment c) - 1)))) =
    Ok (if CommitHeight (RemoteCommitment c) =? 0 then zero32 else secret_at ours (CommitHeight (RemoteCommitment c) - 1))).
  { destruct (Z.eqb_spec (CommitHeight (RemoteCommitment c)) 0) as [E|Hne]; [reflexivity|].
    rewrite u64_id by lia. rewrite (LookUp_spec ours _ _ _ Ho Hs) by lia. unfold secret_at. rewrite newIndex_eq by lia.
    rewrite decide_True by lia. reflexivity. }
  unfold ChanSyncMsg. rewrite Hlook, res_bind_Ok_l, Ht, Hat, Hlive. rewrite (u64_id (_ + 1)) by lia. reflexivity.
Qed.

(** ** Runs of the steps *)
Lemma on_chan_run {A} (m : M LightningChannel chanerr A) lc a lc1 : m lc = (Ok a, lc1) -> on_chan m lc = (Ok a, lc1).
Proof. intros E. unfold on_chan. by rewrite E. Qed.

(** The heights the method reads. *)
Record heads (lc : LightningChannel) (lt rt rv : commitment) : Prop := {
  hd_local : chain_tail (localCommitChain lc) = Ok lt;
  hd_remote : chain_tail (remoteCommitChain lc) = Ok rt;
  hd_tip : tip (remoteCommitChain lc) = Ok rv;
  hd_height : currentHeight lc = c_height lt;
  hd_pos : 0 <= c_height lt /\ 0 <= c_height rt;
  hd_next : rv = rt /\ db_commitDiff (ChanBucket (channelState lc)) = None /\ hasUnackedCommitment (remoteCommitChain lc) = false \/
    c_height rv = c_height rt + 1 /\ hasUnackedCommitment (remoteCommitChain lc) = true /\
    exists d, db_commitDiff (ChanBucket (channelState lc)) = Some d /\ CommitHeight (cd_Commitment d) = c_height rv
}.

Lemma dance_heads w lc : dance_ok w lc -> exists lt rt rv, heads lc lt rt rv.
Proof.
  intros Hok. destruct (st_local _ (do_stored _ _ Hok)) as (lt & Hlt & Hh & _).
  destruct (st_remote _ (do_stored _ _ Hok)) as (rt & _ & Hr). pose proof (do_index _ _ Hok) as Hi.
  pose proof (ch_each _ _ (ix_chain _ Hi false) lt (tail_elem _ _ Hlt)) as [Hl _].
  destruct Hr as [[Hc Hd]|(v & d & Hc & Hd & Ed)].
  - pose proof (ch_each _ _ (ix_chain _ Hi true) rt) as Hr. cbn in Hr. rewrite Hc in Hr.
    exists lt, rt, rt. split; try done; rewrite ?Hc; [done|done|split; [apply Hl|apply Hr; by left]|by left].
  - pose proof (ix_chain _ Hi true) as Hch. cbn in Hch. rewrite Hc in Hch.
    destruct (ch_next _ _ Hch 0 rt v eq_refl eq_refl) as [Hn _]. destruct (ch_each _ _ Hch rt) as [Hr _]; [by left|].
    exists lt, rt, v. split; try done; rewrite ?Hc; [done|done|split; [apply Hl|apply Hr]|].
    right. split; [done|]. split; [done|]. exists d. by rewrite Ed.
Qed.

Lemma process_after msg lc lt rt rv : heads lc lt rt rv -> checkLastSecret (channelState lc) msg = Ok tt ->
  ProcessChanSyncMsg msg lc = (us ← syncLocalChain msg (c_height lt);
    result ← syncRemoteChain msg (c_height rt) (c_height rv) us;
    _ ← on_chan (fun lc => (checkCommitPoint (channelState lc) msg (c_height rt), lc)); mret result) lc.
Proof.
  intros Hd Hc. unfold ProcessChanSyncMsg.
  rewrite (M_bind_run _ _ lc tt lc) by (apply on_chan_run; by rewrite Hc).
  rewrite (M_bind_run _ _ lc lt lc) by (apply on_chan_run; unfold tailM; cbn; by rewrite (hd_local _ _ _ _ Hd)).
  rewrite (M_bind_run _ _ lc rt lc) by (apply on_chan_run; unfold tailM; cbn; by rewrite (hd_remote _ _ _ _ Hd)).
  by rewrite (M_bind_run _ _ lc rv lc) by (apply on_chan_run; rewrite tipM_run; cbn; by rewrite (hd_tip _ _ _ _ Hd)).
Qed.

Lemma process_run msg lc lt rt rv us lc1 : heads lc lt rt rv -> checkLastSecret (channelState lc) msg = Ok tt ->
  syncLocalChain msg (c_height lt) lc = (Ok us, lc1) ->
  ProcessChanSyncMsg msg lc = (result ← syncRemoteChain msg (c_height rt) (c_height rv) us;
    _ ← on_chan (fun lc => (checkCommitPoint (channelState lc) msg (c_height rt), lc)); mret result) lc1.
Proof. intros Hd Hc Hs. rewrite (process_after _ _ _ _ _ Hd Hc). by rewrite (M_bind_run _ _ _ _ _ Hs). Qed.

Lemma process_local_fails msg lc lt rt rv r lc1 : heads lc lt rt rv -> checkLastSecret (channelState lc) msg = Ok tt ->
  syncLocalChain msg (c_height lt) lc = (r, lc1) -> (forall us, r <> Ok us) ->
  ProcessChanSyncMsg msg lc = (match r with Err e => Err e | _ => Panic end, lc1).
Proof.
  intros Hd Hc Hs Hne. rewrite (process_after _ _ _ _ _ Hd Hc). unfold mbind, M_bind. rewrite Hs.
  destruct r as [us| |]; [by destruct (Hne us)|done..].
Qed.

(** The revocation of a height, as it was sent and is sent again. *)
Definition revocation_at (ours : bytes) (lc : LightningChannel) (h : Z) : RevokeAndAck :=
  mkRevokeAndAck (chan_id lc) (secret_at ours h) (Some (point_at ours (h + 2))) [].

Lemma producer_at lc ours v : Producer (channelState lc) = NewRevocationProducer ours -> length ours = 32%nat ->
  0 <= v < 2 ^ 48 -> of_sha (AtIndex (Producer (channelState lc)) v) = Ok (secret_at ours v).
Proof. intros -> Hl Hv. unfold secret_at. by rewrite (AtIndex_secret _ _ Hl Hv). Qed.

Lemma generate_at ours lc h : Producer (channelState lc) = NewRevocationProducer ours -> length ours = 32%nat ->
  0 <= h -> h + 2 < 2 ^ 48 -> generateRevocation lc h = Ok (revocation_at ours lc h).
Proof.
  intros Hp Hl Hh Hb. unfold generateRevocation. rewrite u64_id by lia. rewrite !(producer_at _ _ _ Hp Hl) by lia.
  by rewrite !(res_bind_Ok_l (E := chanerr)).
Qed.

Section Honest.
Variables (ours theirs : bytes) (lc : LightningChannel) (c : OpenChannel) (lt rt rv : commitment).
Hypothesis (Hp : peers ours theirs lc c) (Hd : heads lc lt rt rv).

Lemma honest_secret : checkLastSecret (channelState lc) (sync_of ours theirs c) = Ok tt.
Proof using Hp.
  destruct (pe_ours _ _ _ _ Hp) as (E & Hl & Hb). pose proof (pe_local _ _ _ _ Hp) as Hr.
  unfold checkLastSecret, sync_of. cbn [re_LocalUnrevokedCommitPoint re_RemoteCommitTailHeight re_LastRemoteCommitSecret].
  rewrite bool_decide_eq_true_2 by done. destruct (Z.eqb_spec (CommitHeight (RemoteCommitment c)) 0) as [|Hne]; [done|].
  cbn [negb andb]. rewrite u64_id by lia. rewrite (producer_at _ _ _ E Hl) by lia.
  rewrite (res_bind_Ok_l (E := chanerr)). by rewrite bool_decide_eq_true_2.
Qed.

Definition owed_revocation : list syncMsg :=
  if CommitHeight (RemoteCommitment c) =? currentHeight lc then [] else [RevokeMsg (revocation_at ours lc (currentHeight lc - 1))].

Lemma local_current : CommitHeight (RemoteCommitment c) = currentHeight lc ->
  syncLocalChain (sync_of ours theirs c) (c_height lt) lc = (Ok [], lc).
Proof using Hp Hd.
  intros E. pose proof (hd_height _ _ _ _ Hd) as Eh. destruct (pe_live _ _ _ _ Hp) as [Hl _]. destruct (pe_ours _ _ _ _ Hp) as (_ & _ & Hb).
  pose proof (hd_pos _ _ _ _ Hd) as Hpos.
  unfold syncLocalChain. rewrite (M_bind_run (gets channelState) _ lc _ lc eq_refl). cbn [sync_of re_RemoteCommitTailHeight].
  rewrite Hl, orb_false_r, u64_id by lia. rewrite (proj2 (Z.ltb_ge _ _)) by lia. rewrite (proj2 (Z.ltb_ge _ _)) by lia.
  by rewrite (proj2 (Z.eqb_eq _ _)) by lia.
Qed.

Lemma local_behind : CommitHeight (RemoteCommitment c) <> currentHeight lc ->
  syncLocalChain (sync_of ours theirs c) (c_height lt) lc = resendRevocation (c_height lt) lc.
Proof using Hp Hd.
  intros E. pose proof (hd_height _ _ _ _ Hd) as Eh. destruct (pe_live _ _ _ _ Hp) as [Hl _]. destruct (pe_ours _ _ _ _ Hp) as (_ & _ & Hb).
  pose proof (hd_pos _ _ _ _ Hd) as Hpos. pose proof (pe_local _ _ _ _ Hp) as Hr.
  unfold syncLocalChain. rewrite (M_bind_run (gets channelState) _ lc _ lc eq_refl). cbn [sync_of re_RemoteCommitTailHeight].
  rewrite Hl, orb_false_r, u64_id by lia. rewrite (proj2 (Z.ltb_ge _ _)) by lia. rewrite (proj2 (Z.ltb_ge _ _)) by lia.
  rewrite (proj2 (Z.eqb_neq _ _)) by lia. by rewrite (proj2 (Z.eqb_eq _ _)) by lia.
Qed.

Lemma resend_run owe : CommitHeight (RemoteCommitment c) <> currentHeight lc -> oweCommitment true lc = Ok owe ->
  resendRevocation (c_height lt) lc = (if owe then signOwed (revocation_at ours lc (currentHeight lc - 1))
    else mret [RevokeMsg (revocation_at ours lc (currentHeight lc - 1))]) lc.
Proof using Hp Hd.
  intros E Ho. destruct (pe_ours _ _ _ _ Hp) as (Ep & Hl & Hb). pose proof (pe_local _ _ _ _ Hp) as Hr.
  unfold resendRevocation. rewrite <- (hd_height _ _ _ _ Hd).
  rewrite (M_bind_run _ _ lc (revocation_at ours lc (currentHeight lc - 1)) lc).
  - rewrite (M_bind_run _ _ lc owe lc); [by destruct owe|]. apply on_chan_run. by rewrite Ho.
  - apply on_chan_run. rewrite u64_id by lia. by rewrite (generate_at ours) by (first [exact Ep|exact Hl|lia]).
Qed.

Lemma tip_owed : exists owe, oweCommitment true lc = Ok owe.
Proof using Hd.
  unfold oweCommitment. rewrite (hd_tip _ _ _ _ Hd). unfold tip at 1. pose proof (hd_local _ _ _ _ Hd) as Hl.
  destruct (localCommitChain lc) as [|x s]; [done|]. destruct (list.last (x :: s)) eqn:E; [by eexists|]. by apply last_None in E.
Qed.

Lemma honest_point cs : RemoteCurrentRevocation cs = RemoteCurrentRevocation (channelState lc) ->
  RemoteNextRevocation cs = RemoteNextRevocation (channelState lc) ->
  checkCommitPoint cs (sync_of ours theirs c) (c_height rt) = Ok tt.
Proof using Hp Hd.
  intros E1 E2. pose proof (hd_remote _ _ _ _ Hd) as Hr. pose proof (hd_pos _ _ _ _ Hd) as Hpos.
  destruct (pe_remote _ _ _ _ Hp _ _ Hr (hd_tip _ _ _ _ Hd)) as [Hh Hb].
  pose proof (pe_current _ _ _ _ Hp _ Hr) as Ec. pose proof (fun p => pe_next _ _ _ _ Hp _ p Hr) as En.
  unfold checkCommitPoint, expectedPoint. cbn [sync_of re_LocalUnrevokedCommitPoint re_NextLocalCommitHeight].
  assert (Hh' : CommitHeight (LocalCommitment c) = c_height rt \/ CommitHeight (LocalCommitment c) = c_height rt + 1).
  { destruct (hd_next _ _ _ _ Hd) as [(-> & _)|(E & _)]; lia. }
  rewrite E1, E2, Ec, !u64_id by lia.
  destruct Hh' as [->| ->].
  - rewrite (proj2 (Z.eqb_eq _ _)) by lia. rewrite bool_decide_eq_true_2 by done. by rewrite andb_false_r.
  - rewrite (proj2 (Z.eqb_neq _ _)) by lia. rewrite (proj2 (Z.eqb_eq _ _)) by lia.
    destruct (RemoteNextRevocation (channelState lc)) as [q|]; [|by rewrite andb_false_r].
    rewrite (En q eq_refl). rewrite bool_decide_eq_true_2 by done. by rewrite andb_false_r.
Qed.

Lemma remote_received us lc1 : CommitHeight (LocalCommitment c) = c_height rv ->
  syncRemoteChain (sync_of ours theirs c) (c_height rt) (c_height rv) us lc1 = (Ok (us, [], []), lc1).
Proof using Hp Hd.
  intros E. pose proof (hd_remote _ _ _ _ Hd) as Hr. pose proof (hd_pos _ _ _ _ Hd) as Hpos.
  destruct (pe_remote _ _ _ _ Hp _ _ Hr (hd_tip _ _ _ _ Hd)) as [Hh Hb].
  unfold syncRemoteChain. cbn [sync_of re_NextLocalCommitHeight]. rewrite E, !u64_id by lia.
  rewrite (proj2 (Z.ltb_ge _ _)) by lia. rewrite (proj2 (Z.leb_gt _ _)) by lia. by rewrite (proj2 (Z.eqb_eq _ _)) by lia.
Qed.

Lemma remote_lost d us : db_commitDiff (ChanBucket (channelState lc)) = Some d -> CommitHeight (LocalCommitment c) + 1 = c_height rv ->
  syncRemoteChain (sync_of ours theirs c) (c_height rt) (c_height rv) us lc =
    (Ok (resendCommitment (LastWasRevoke (channelState lc)) d us, cd_OpenedCircuitKeys d, cd_ClosedCircuitKeys d), lc).
Proof using Hp Hd.
  intros Ed E. pose proof (hd_remote _ _ _ _ Hd) as Hr. pose proof (hd_pos _ _ _ _ Hd) as Hpos.
  destruct (pe_remote _ _ _ _ Hp _ _ Hr (hd_tip _ _ _ _ Hd)) as [Hh Hb].
  unfold syncRemoteChain. cbn [sync_of re_NextLocalCommitHeight]. rewrite E, u64_id by lia.
  rewrite (proj2 (Z.ltb_ge _ _)) by lia. rewrite (proj2 (Z.leb_gt _ _)) by lia. rewrite (proj2 (Z.eqb_neq _ _)) by lia.
  rewrite (proj2 (Z.eqb_eq _ _)) by lia. rewrite (M_bind_run (gets channelState) _ lc _ lc eq_refl).
  rewrite (M_bind_run _ _ lc d lc); [done|]. unfold RemoteCommitChainTip. by rewrite Ed.
Qed.

Lemma honest_run us lc1 x : syncLocalChain (sync_of ours theirs c) (c_height lt) lc = (Ok us, lc1) ->
  RemoteCurrentRevocation (channelState lc1) = RemoteCurrentRevocation (channelState lc) ->
  RemoteNextRevocation (channelState lc1) = RemoteNextRevocation (channelState lc) ->
  syncRemoteChain (sync_of ours theirs c) (c_height rt) (c_height rv) us lc1 = (Ok x, lc1) ->
  ProcessChanSyncMsg (sync_of ours theirs c) lc = (Ok x, lc1).
Proof using Hp Hd.
  intros Hs E1 E2 Hr. rewrite (process_run _ _ _ _ _ _ _ Hd honest_secret Hs).
  rewrite (M_bind_run _ _ _ _ _ Hr). rewrite (M_bind_run _ _ lc1 tt lc1); [done|].
  apply on_chan_run. by rewrite (honest_point _ E1 E2).
Qed.

(** Our half, when nothing can be signed. *)
Lemma local_half : CommitHeight (RemoteCommitment c) = currentHeight lc \/ oweCommitment true lc = Ok false \/
    hasUnackedCommitment (remoteCommitChain lc) = true \/ RemoteNextRevocation (channelState lc) = None ->
  syncLocalChain (sync_of ours theirs c) (c_height lt) lc = (Ok owed_revocation, lc).
Proof using Hp Hd.
  intros Hcl. unfold owed_revocation. destruct (Z.eqb_spec (CommitHeight (RemoteCommitment c)) (currentHeight lc)) as [E|E].
  - by apply local_current.
  - destruct Hcl as [?|Hcl]; [done|]. destruct tip_owed as [owe Ho]. rewrite (local_behind E), (resend_run owe E Ho).
    destruct owe; [|done]. destruct Hcl as [Hf|Hcl]; [congruence|]. unfold signOwed.
    assert (exists t1, tip (localCommitChain lc) = Ok t1) as [t1 Ht1].
    { unfold oweCommitment in Ho. destruct (tip (localCommitChain lc)) as [t1| |]; [by exists t1|done..]. }
    by rewrite (sign_no_window lc t1 rv Ht1 (hd_tip _ _ _ _ Hd) Hcl).
Qed.
Lemma pending_run d : db_commitDiff (ChanBucket (channelState lc)) = Some d ->
  ProcessChanSyncMsg (sync_of ours theirs c) lc =
    (Ok (if CommitHeight (LocalCommitment c) + 1 =? CommitHeight (cd_Commitment d) then
           (resendCommitment (LastWasRevoke (channelState lc)) d owed_revocation, cd_OpenedCircuitKeys d, cd_ClosedCircuitKeys d)
         else (owed_revocation, [], [])), lc).
Proof using Hp Hd.
  intros Ed. destruct (hd_next _ _ _ _ Hd) as [(_ & E & _)|(Ev & Hu & d' & Ed' & Ec)]; [by rewrite E in Ed|].
  rewrite Ed in Ed'. injection Ed' as <-. rewrite Ec.
  apply (honest_run _ _ _ (local_half (or_intror (or_intror (or_introl Hu)))) eq_refl eq_refl).
  destruct (Z.eqb_spec (CommitHeight (LocalCommitment c) + 1) (c_height rv)) as [E|E]; [by apply remote_lost|].
  apply remote_received.
  destruct (pe_remote _ _ _ _ Hp _ _ (hd_remote _ _ _ _ Hd) (hd_tip _ _ _ _ Hd)) as [Hh _]. lia.
Qed.
End Honest.

(** ** Peers that agree *)

(** What signing leaves alone. *)
Lemma sign_keeps lc sig htlcSigs hs lc1 : SignNextCommitment lc = (Ok (sig, htlcSigs, hs), lc1) ->
  hasUnackedCommitment (remoteCommitChain lc) = false /\ chan_id lc1 = chan_id lc /\
  RemoteCurrentRevocation (channelState lc1) = RemoteCurrentRevocation (channelState lc) /\
  RemoteNextRevocation (channelState lc1) = RemoteNextRevocation (channelState lc) /\
  Producer (channelState lc1) = Producer (channelState lc) /\
  exists d, db_commitDiff (ChanBucket (channelState lc1)) = Some d /\ cd_CommitSig d = mkCommitSig (chan_id lc) sig htlcSigs [] /\
    db_lastWasRevoke (ChanBucket (channelState lc1)) = false.
Proof.
  intros Hrun. destruct (sign_inv _ _ _ _ _ Hrun) as (cp & lt & v & l1 & jobs & c2 & _ & Hw & _ & _ & Hv & _ & _ & _ & Hdb & -> & _).
  split; [done|]. pose proof (fetchCommitmentView_viewed true (logIndex (localUpdateLog lc)) (htlcCounter (localUpdateLog lc))
    (c_theirMessageIndex lt) (c_theirHtlcIndex lt) (DeriveCommitmentKeys cp false (ChanType (channelState lc))
      (LocalChanCfg (channelState lc)) (RemoteChanCfg (channelState lc))) lc) as Hf. rewrite Hv in Hf. cbn in Hf.
  apply append_diff_Ok in Hdb as (_ & fp & ->). pose proof (fun X f => totals_only_read (X := X) f _ _ (vw_totals _ _ Hf)) as Hr.
  assert (Ef : chan_id l1 = chan_id lc) by (unfold chan_id; by rewrite (Hr _ FundingOutpoint)).
  split; [exact Ef|]. split; [exact (Hr _ RemoteCurrentRevocation (fun _ _ _ _ _ => eq_refl))|].
  split; [exact (Hr _ RemoteNextRevocation (fun _ _ _ _ _ => eq_refl))|]. split; [exact (Hr _ Producer (fun _ _ _ _ _ => eq_refl))|].
  eexists. split; [done|]. cbn. by rewrite Ef.
Qed.

Lemma peers_message w ours theirs lc c : dance_ok w lc -> peers ours theirs lc c ->
  exists lt rt rv, heads lc lt rt rv /\ ChanSyncMsg c = Ok (sync_of ours theirs c) /\
    c_height rt <= CommitHeight (LocalCommitment c) <= c_height rv.
Proof.
  intros Hok Hp. destruct (dance_heads w lc Hok) as (lt & rt & rv & Hd). exists lt, rt, rv. split; [done|].
  destruct (pe_remote _ _ _ _ Hp _ _ (hd_remote _ _ _ _ Hd) (hd_tip _ _ _ _ Hd)) as [Hh Hb]. split; [|done].
  apply (sync_message ours theirs lc c Hp). pose proof (hd_pos _ _ _ _ Hd). lia.
Qed.

(** C6. Two peers get back in step. Whatever was lost between a channel and its
    peer, the peer's message makes the channel send again exactly what the peer has
    not got, and changes nothing: the revocation of the height below, unless the peer
    has it, and if the peer has not got the pending commitment, its updates and its
    signature, before or after the revocation as they were before. Only a channel
    that owes a revocation and a signature, and may sign, signs a new commitment. *)
Theorem resync_peer (w : worth) (ours theirs : bytes) (lc : LightningChannel) (c : OpenChannel) :
  dance_ok w lc -> peers ours theirs lc c ->
  exists msg, ChanSyncMsg c = Ok msg /\
    (forall d, db_commitDiff (ChanBucket (channelState lc)) = Some d ->
       ProcessChanSyncMsg msg lc =
         (Ok (if CommitHeight (LocalCommitment c) + 1 =? CommitHeight (cd_Commitment d) then
                (resendCommitment (LastWasRevoke (channelState lc)) d (owed_revocation ours lc c), cd_OpenedCircuitKeys d,
                  cd_ClosedCircuitKeys d)
              else (owed_revocation ours lc c, [], [])), lc)) /\
    (db_commitDiff (ChanBucket (channelState lc)) = None ->
       CommitHeight (RemoteCommitment c) = currentHeight lc \/ oweCommitment true lc = Ok false \/
         RemoteNextRevocation (channelState lc) = None ->
       ProcessChanSyncMsg msg lc = (Ok (owed_revocation ours lc c, [], []), lc)) /\
    (db_commitDiff (ChanBucket (channelState lc)) = None ->
       CommitHeight (RemoteCommitment c) <> currentHeight lc -> oweCommitment true lc = Ok true ->
       forall sig htlcSigs hs lc1, SignNextCommitment lc = (Ok (sig, htlcSigs, hs), lc1) ->
       ProcessChanSyncMsg msg lc =
         (Ok (owed_revocation ours lc c ++ [SigMsg (mkCommitSig (chan_id lc) sig htlcSigs [])], [], []), lc1)).
Proof.
  intros Hok Hp. destruct (peers_message _ _ _ _ _ Hok Hp) as (lt & rt & rv & Hd & Hm & Hh).
  exists (sync_of ours theirs c). split; [done|]. split; [|split].
  - intros d Ed. exact (pending_run _ _ _ _ _ _ _ Hp Hd d Ed).
  - intros E Hcl. destruct (hd_next _ _ _ _ Hd) as [(-> & _)|(_ & _ & d & Ed & _)]; [|by rewrite E in Ed].
    apply (honest_run _ _ _ _ _ _ _ Hp Hd (owed_revocation ours lc c)); [|done..|].
    + apply (local_half _ _ _ _ _ _ _ Hp Hd). tauto.
    + apply (remote_received ours theirs lc c lt); [done..|lia].
  - intros E Hne Howe sig htlcSigs hs lc1 Hs. destruct (hd_next _ _ _ _ Hd) as [(-> & _)|(_ & _ & d & Ed & _)]; [|by rewrite E in Ed].
    destruct (sign_keeps _ _ _ _ _ Hs) as (_ & Ei & E1 & E2 & _).
    apply (honest_run _ _ _ _ _ _ _ Hp Hd (owed_revocation ours lc c ++ [SigMsg (mkCommitSig (chan_id lc) sig htlcSigs [])])); [|done..|].
    + rewrite (local_behind _ _ _ _ _ _ _ Hp Hd Hne), (resend_run _ _ _ _ _ _ _ Hp Hd true Hne Howe).
      unfold signOwed, owed_revocation. rewrite Hs, Ei. by rewrite (proj2 (Z.eqb_neq _ _)) by done.
    + apply (remote_received ours theirs lc c lt); [done..|lia].
Qed.

(** ** Any message *)
Lemma on_chan_state {A} (m : M LightningChannel chanerr A) lc r lc1 : on_chan m lc = (r, lc1) -> lc1 = snd (m lc).
Proof. unfold on_chan. destruct (m lc) as [r' l']. by intros [= _ <-]. Qed.

Lemma on_chan_Ok {A} (f : LightningChannel -> res chanerr A) lc a lc1 : on_chan (fun lc => (f lc, lc)) lc = (Ok a, lc1) -> f lc = Ok a /\ lc1 = lc.
Proof. unfold on_chan. destruct (f lc) eqn:E; intros [= <- <-]; done. Qed.

(** Our half sends at most the last revocation and, after it, a new signature. *)
Definition local_sends (msg : ChannelReestablish) (h : Z) (lc lc1 : LightningChannel) (us : list syncMsg) : Prop :=
  us = [] \/ exists m, generateRevocation lc (u64 (h - 1)) = Ok m /\ u64 (re_RemoteCommitTailHeight msg + 1) = h /\
    re_RemoteCommitTailHeight msg <= h /\
    (us = [RevokeMsg m] \/ exists sig htlcSigs hs, SignNextCommitment lc = (Ok (sig, htlcSigs, hs), lc1) /\
       us = [RevokeMsg m; SigMsg (mkCommitSig (chan_id lc1) sig htlcSigs [])]).

Lemma sign_owed_inv m lc r lc1 : signOwed m lc = (r, lc1) ->
  (exists x, SignNextCommitment lc = (x, lc1)) /\
  forall us, r = Ok us -> us = [RevokeMsg m] \/ exists sig htlcSigs hs, SignNextCommitment lc = (Ok (sig, htlcSigs, hs), lc1) /\
    us = [RevokeMsg m; SigMsg (mkCommitSig (chan_id lc1) sig htlcSigs [])].
Proof.
  unfold signOwed. destruct (SignNextCommitment lc) as [[[[sig sigs] hs]|e|] l] eqn:E.
  - intros [= <- <-]. split; [by eexists|]. intros us [= <-]. right. by exists sig, sigs, hs.
  - intros Hr. assert (lc1 = l) as -> by (by destruct e; injection Hr). split; [by eexists|]. intros us ->.
    left. by destruct e; try done; injection Hr as <-.
  - intros [= <- <-]. split; [by eexists|]. done.
Qed.

Lemma resend_inv h lc r lc1 : resendRevocation h lc = (r, lc1) ->
  (lc1 = lc \/ exists x, SignNextCommitment lc = (x, lc1)) /\
  forall us, r = Ok us -> exists m, generateRevocation lc (u64 (h - 1)) = Ok m /\
    (us = [RevokeMsg m] \/ exists sig htlcSigs hs, SignNextCommitment lc = (Ok (sig, htlcSigs, hs), lc1) /\
       us = [RevokeMsg m; SigMsg (mkCommitSig (chan_id lc1) sig htlcSigs [])]).
Proof.
  unfold resendRevocation. unfold mbind, M_bind at 1, on_chan at 1.
  destruct (generateRevocation lc (u64 (h - 1))) as [m|e|] eqn:Hg; cbn [of_chan]; try by intros [= <- <-]; split; [by left|].
  unfold mbind, M_bind, on_chan. destruct (oweCommitment true lc) as [[]|e|]; cbn [of_chan]; try by intros [= <- <-]; split; [by left|].
  - intros [Hx Hus]%sign_owed_inv. split; [by right|]. intros us E. exists m. split; [done|]. by apply Hus.
  - intros [= <- <-]. split; [by left|]. intros us [= <-]. exists m. split; [done|]. by left.
Qed.

Lemma sync_local_inv msg h lc r lc1 : syncLocalChain msg h lc = (r, lc1) ->
  (lc1 = lc \/ exists x, SignNextCommitment lc = (x, lc1)) /\ forall us, r = Ok us -> local_sends msg h lc lc1 us.
Proof.
  unfold syncLocalChain. rewrite (M_bind_run (gets channelState) _ lc _ lc eq_refl). cbv zeta.
  destruct (h <? re_RemoteCommitTailHeight msg) eqn:E0; cbn [orb].
  { destruct (re_LocalUnrevokedCommitPoint msg); intros [= <- <-]; (split; [by left|done]). }
  destruct (hasChanStatus (channelState lc) ChanStatusRestored).
  { destruct (re_LocalUnrevokedCommitPoint msg); intros [= <- <-]; (split; [by left|done]). }
  destruct (u64 (re_RemoteCommitTailHeight msg + 1) <? h) eqn:E1; [intros [= <- <-]; by (split; [left|])|].
  destruct (re_RemoteCommitTailHeight msg =? h) eqn:E2; [intros [= <- <-]; split; [by left|]; intros us [= <-]; by left|].
  destruct (u64 (re_RemoteCommitTailHeight msg + 1) =? h) eqn:E3; [|intros [= <- <-]; by (split; [left|])].
  intros [Hx Hus]%resend_inv. split; [done|]. intros us E. destruct (Hus us E) as (m & Hg & Hm). right. exists m.
  apply Z.eqb_eq in E3. apply Z.ltb_ge in E0. done.
Qed.

Lemma sync_remote_inv msg ht hv us lc r lc1 : syncRemoteChain msg ht hv us lc = (r, lc1) ->
  lc1 = lc /\ forall out o cl, r = Ok (out, o, cl) -> out = us \/
    ht < re_NextLocalCommitHeight msg /\ re_NextLocalCommitHeight msg = hv /\
    exists d, db_commitDiff (ChanBucket (channelState lc)) = Some d /\ out = resendCommitment (LastWasRevoke (channelState lc)) d us.
Proof.
  unfold syncRemoteChain. cbv zeta. destruct (_ <? _); [by intros [= <- <-]|].
  destruct (_ <=? ht) eqn:E1; [by intros [= <- <-]|]. apply Z.leb_gt in E1.
  destruct (_ =? u64 _); [intros [= <- <-]; split; [done|]; intros ? ? ? [= <- _ _]; by left|].
  destruct (_ =? hv) eqn:E2; [|by intros [= <- <-]]. apply Z.eqb_eq in E2.
  rewrite (M_bind_run (gets channelState) _ lc _ lc eq_refl). unfold RemoteCommitChainTip, mbind, M_bind, lift.
  destruct (db_commitDiff _) as [d|]; [|by intros [= <- <-]]. intros [= <- <-]. split; [done|].
  intros ? ? ? [= <- _ _]. right. split; [done|]. split; [done|]. by exists d.
Qed.

Lemma resendCommitment_elem b d us x : x ∈ resendCommitment b d us <->
  x ∈ us \/ (exists u, u ∈ cd_LogUpdates d /\ x = UpdMsg (lu_UpdateMsg u)) \/ x = SigMsg (cd_CommitSig d).
Proof.
  unfold resendCommitment. destruct b; rewrite !elem_of_app, list_elem_of_fmap, list_elem_of_singleton; naive_solver.
Qed.

Lemma process_inv msg lc lt rt rv r lc1 : heads lc lt rt rv -> ProcessChanSyncMsg msg lc = (r, lc1) ->
  (lc1 = lc \/ exists rl, syncLocalChain msg (c_height lt) lc = (rl, lc1)) /\
  forall x, r = Ok x -> exists us, checkLastSecret (channelState lc) msg = Ok tt /\
    syncLocalChain msg (c_height lt) lc = (Ok us, lc1) /\
    syncRemoteChain msg (c_height rt) (c_height rv) us lc1 = (Ok x, lc1).
Proof.
  intros Hd Hrun. destruct (checkLastSecret (channelState lc) msg) as [[]|e|] eqn:Hc.
  2,3: unfold ProcessChanSyncMsg, mbind, M_bind, on_chan in Hrun; rewrite Hc in Hrun; injection Hrun as <- <-; by (split; [left|]).
  destruct (syncLocalChain msg (c_height lt) lc) as [rl l1] eqn:Hs. destruct rl as [us|e|].
  - rewrite (process_run _ _ _ _ _ _ _ Hd Hc Hs) in Hrun. unfold mbind, M_bind in Hrun.
    destruct (syncRemoteChain _ _ _ us l1) as [rr l2] eqn:Hr. destruct (sync_remote_inv _ _ _ _ _ _ _ Hr) as [-> _].
    assert (lc1 = l1 /\ forall x, r = Ok x -> rr = Ok x) as [-> Hx].
    { destruct rr as [x|e|]; [|by injection Hrun as <- <-..]. unfold on_chan in Hrun.
      destruct (checkCommitPoint _ _ _) as [[]|e|]; injection Hrun as <- <-; done. }
    split; [right; by eexists|]. intros x E. exists us. rewrite Hr. by rewrite (Hx x E).
  - rewrite (process_local_fails _ _ _ _ _ _ _ Hd Hc Hs) in Hrun by done. injection Hrun as <- <-. split; [right; by eexists|done].
  - rewrite (process_local_fails _ _ _ _ _ _ _ Hd Hc Hs) in Hrun by done. injection Hrun as <- <-. split; [right; by eexists|done].
Qed.

(** C7. A peer learns nothing from asking. Whatever message arrives, the channel
    changes by signing at most; the only secret it tells is that of the height just
    below the stored commitment, which was revoked when that one was stored, in the
    very message that revoked it; and every update and signature it sends are those of
    the pending commitment, which is stored. *)
Theorem sync_reveals_only_revoked (w : worth) (ours : bytes) (lc : LightningChannel) (msg : ChannelReestablish)
    (r : res syncErr (list syncMsg * list CircuitKey * list CircuitKey)) (lc1 : LightningChannel) :
  dance_ok w lc -> Producer (channelState lc) = NewRevocationProducer ours -> length ours = 32%nat ->
  currentHeight lc + 1 < 2 ^ 48 -> 0 <= re_RemoteCommitTailHeight msg ->
  ProcessChanSyncMsg msg lc = (r, lc1) ->
  (lc1 = lc \/ exists x, SignNextCommitment lc = (x, lc1)) /\
  forall us opened closed x, r = Ok (us, opened, closed) -> x ∈ us ->
    match x with
    | RevokeMsg m => m = revocation_at ours lc (currentHeight lc - 1) /\
        0 < currentHeight lc /\ currentHeight lc = CommitHeight (LocalCommitment (channelState lc)) /\
        re_RemoteCommitTailHeight msg = currentHeight lc - 1
    | UpdMsg u => exists d, db_commitDiff (ChanBucket (channelState lc1)) = Some d /\ u ∈ lu_UpdateMsg <$> cd_LogUpdates d
    | SigMsg s => exists d, db_commitDiff (ChanBucket (channelState lc1)) = Some d /\ s = cd_CommitSig d
    end.
Proof.
  intros Hok Ep Hl Hb Htail Hrun. destruct (dance_heads w lc Hok) as (lt & rt & rv & Hd).
  destruct (process_inv _ _ _ _ _ _ _ Hd Hrun) as [Hst Hres]. split.
  { destruct Hst as [?|[rl Hs]]; [by left|]. apply (sync_local_inv _ _ _ _ _ Hs). }
  intros us opened closed x -> Hx. destruct (Hres _ eq_refl) as (us0 & _ & Hs & Hr).
  destruct (sync_local_inv _ _ _ _ _ Hs) as [_ Hloc]. specialize (Hloc us0 eq_refl).
  destruct (sync_remote_inv _ _ _ _ _ _ _ Hr) as [_ Hrem]. specialize (Hrem _ _ _ eq_refl).
  assert (Hx' : x ∈ us0 \/ exists d, db_commitDiff (ChanBucket (channelState lc1)) = Some d /\
    ((exists u, u ∈ cd_LogUpdates d /\ x = UpdMsg (lu_UpdateMsg u)) \/ x = SigMsg (cd_CommitSig d))).
  { destruct Hrem as [->|(_ & _ & d & Ed & ->)]; [by left|]. apply resendCommitment_elem in Hx as [?|Hx]; [by left|].
    right. by exists d. }
  destruct Hx' as [Hin|(d & Ed & [(u & Hu & ->)| ->])].
  - destruct Hloc as [->|(m & Hg & Hu & Hle & Hus)]; [by apply not_elem_of_nil in Hin|].
    destruct (hd_pos _ _ _ _ Hd) as [Hp _]. rewrite (hd_height _ _ _ _ Hd) in *.
    destruct (st_local _ (do_stored _ _ Hok)) as (t & Ht & _ & Ecur). rewrite (hd_local _ _ _ _ Hd) in Ht. injection Ht as <-.
    rewrite u64_id in Hu by lia. rewrite u64_id in Hg by lia. rewrite (generate_at ours) in Hg by (first [exact Ep|exact Hl|lia]).
    injection Hg as <-. assert (Hm : x = RevokeMsg (revocation_at ours lc (c_height lt - 1)) \/
      exists sig htlcSigs hs, SignNextCommitment lc = (Ok (sig, htlcSigs, hs), lc1) /\ x = SigMsg (mkCommitSig (chan_id lc1) sig htlcSigs [])).
    { destruct Hus as [->|(sig & sigs & hs & Hsig & ->)]; set_unfold; naive_solver. }
    destruct Hm as [->|(sig & sigs & hs & Hsig & ->)].
    + split; [done|]. rewrite Ecur. cbn. lia.
    + destruct (sign_keeps _ _ _ _ _ Hsig) as (_ & Ei & _ & _ & _ & d & Ed & Es & _). exists d. rewrite Ei. by rewrite Es.
  - exists d. split; [done|]. apply list_elem_of_fmap. by exists u.
  - by exists d.
Qed.

(** ** The order of what was lost *)
Lemma update_commitment_keeps cc us c r c' : UpdateCommitment cc us c = (Ok r, c') ->
  FundingOutpoint c' = FundingOutpoint c /\ Producer c' = Producer c /\ db_lastWasRevoke (ChanBucket c') = true.
Proof.
  unfold UpdateCommitment. intros Hrun. destruct (frozen c) eqn:Hf.
  { destruct (check_mutable_frozen c Hf) as [e He]. by rewrite (M_bind_Err _ _ _ _ _ He) in Hrun. }
  rewrite (M_bind_run _ _ _ _ _ (check_mutable_Ok c Hf)) in Hrun. by injection Hrun as _ <-.
Qed.

Lemma revoke_keeps w lc m hs lc1 : dance_ok w lc -> RevokeCurrentCommitment lc = (Ok (m, hs), lc1) ->
  generateRevocation lc (currentHeight lc) = Ok m /\ chan_id lc1 = chan_id lc /\
  Producer (channelState lc1) = Producer (channelState lc) /\ db_lastWasRevoke (ChanBucket (channelState lc1)) = true /\
  CommitHeight (LocalCommitment (channelState lc1)) = currentHeight lc + 1.
Proof.
  intros Hok Hrun. destruct (revoke_inv _ _ _ _ Hrun) as (t0 & t1 & rest & us & c' & Hg & Hc & Hu & -> & _).
  destruct (update_commitment_keeps _ _ _ _ _ Hu) as (Ef & Ep & Ew). destruct (update_commitment_Ok _ _ _ _ _ Hu) as (_ & El & _).
  destruct (st_local _ (do_stored _ _ Hok)) as (t & Ht & Hh & _). rewrite Hc in Ht. injection Ht as <-.
  pose proof (ix_chain _ (do_index _ _ Hok) false) as Hch. cbn in Hch. rewrite Hc in Hch.
  destruct (ch_next _ _ Hch 0 t0 t1 eq_refl eq_refl) as [Hn _].
  split; [done|]. unfold chan_id. cbn. rewrite Ef, Ep, Ew, El, Hh, <- Hn. done.
Qed.

(** ** After a restart *)

(** What is read of a channel that is on disk as it is in memory. *)
Lemma fetched_fields c : on_disk c -> hasChanStatus c ChanStatusRestored = false ->
  let c2 := fetchOpenChannel c in
  FundingOutpoint c2 = FundingOutpoint c /\ ChanBucket c2 = ChanBucket c /\ chanStatus c2 = chanStatus c /\
  LocalCommitment c2 = read_commit (LocalCommitment c) /\ RemoteCommitment c2 = read_commit (RemoteCommitment c) /\
  RemoteCurrentRevocation c2 = RemoteCurrentRevocation c /\ RemoteNextRevocation c2 = RemoteNextRevocation c /\
  Producer c2 = Producer c /\ LastWasRevoke c2 = db_lastWasRevoke (ChanBucket c).
Proof.
  intros [Ds Dl Dr Dv] Hl c2. assert (Hr : hasChanStatus (fetchChanInfo c) ChanStatusRestored = false).
  { unfold hasChanStatus, fetchChanInfo. destruct (db_totals (ChanBucket c)) as [[[? ?] ?] ?]. cbn. by rewrite Ds. }
  subst c2. unfold fetchOpenChannel, fetchChanCommitments, fetchChanRevocationState. rewrite Hr. unfold fetchChanInfo.
  destruct (db_totals (ChanBucket c)) as [[[? ?] ?] ?]. cbn. rewrite Dv. cbn. by rewrite Ds, Dl, Dr.
Qed.

Section Reopened.
Variables (w : worth) (lc lc2 : LightningChannel).
Hypothesis (Hok : dance_ok w lc) (Hd : on_disk (channelState lc)) (Hl : hasChanStatus (channelState lc) ChanStatusRestored = false)
  (Hnew : NewLightningChannel (fetchOpenChannel (channelState lc)) = Ok lc2).

(** The heights of the chains survive, and so does the pending commitment. *)
Lemma reopened_heads : exists lt rt rv lt2 rt2 rv2, heads lc lt rt rv /\ heads lc2 lt2 rt2 rv2 /\
  c_height lt2 = c_height lt /\ c_height rt2 = c_height rt /\ c_height rv2 = c_height rv.
Proof using All.
  destruct (dance_heads w lc Hok) as (lt & rt & rv & Hh). exists lt, rt, rv.
  destruct (restored_chains _ _ Hnew) as (Es & Eh & lt2 & rt2 & El & Hlt & Hrt & Hrem).
  destruct (fetched_fields _ Hd Hl) as (_ & Eb & _ & E1 & E2 & _). rewrite Eb in Hrem. rewrite E1 in Eh, Hlt. rewrite E2 in Hrt.
  cbn [read_commit CommitHeight] in *.
  destruct (st_local _ (do_stored _ _ Hok)) as (t & Ht & Hcur & Dl). rewrite (hd_local _ _ _ _ Hh) in Ht. injection Ht as <-.
  destruct (st_remote _ (do_stored _ _ Hok)) as (r & Dr & Hchain).
  assert (r = rt) as -> by (pose proof (hd_remote _ _ _ _ Hh) as Hx; destruct Hchain as [[E _]|(v & d & E & _)]; rewrite E in Hx; by injection Hx).
  rewrite Dl in Eh, Hlt. rewrite Dr in Hrt. cbn [toDiskCommit CommitHeight] in *.
  destruct (hd_next _ _ _ _ Hh) as [(-> & Ed & _)|(Ev & _ & d & Ed & Ec)]; rewrite Ed in *.
  - exists lt2, rt2, rt2. split; [done|]. split; [|done].
    split; rewrite ?El, ?Hrem, ?Es, ?Eb; try done; [by rewrite Eh, Hlt|rewrite Hlt, Hrt; apply Hh|by left].
  - destruct Hrem as (v & Hrem & Hv). exists lt2, rt2, v. split; [done|]. split; [|by rewrite Hv].
    split; rewrite ?El, ?Hrem, ?Es, ?Eb; try done; [by rewrite Eh, Hlt|rewrite Hlt, Hrt; apply Hh|].
    right. rewrite Hv, Ec, Ev, Hrt. split; [done|]. split; [done|]. exists d. by rewrite Ec, Ev.
Qed.

Lemma reopened_peers ours theirs c : peers ours theirs lc c -> peers ours theirs lc2 c.
Proof using All.
  intros [P1 P2 P3 P4 P5 P6 P7 P8]. destruct reopened_heads as (lt & rt & rv & lt2 & rt2 & rv2 & Hh & Hh2 & E1 & E2 & E3).
  destruct (restored_chains _ _ Hnew) as (Es & _). destruct (fetched_fields _ Hd Hl) as (_ & _ & Est & _ & _ & Ec & En & Ep & _).
  assert (Ecur : currentHeight lc2 = currentHeight lc) by (by rewrite (hd_height _ _ _ _ Hh), (hd_height _ _ _ _ Hh2), E1).
  split; rewrite ?Es, ?Ecur, ?Ep, ?Ec, ?En; try done.
  - intros t v Ht Hv. rewrite (hd_remote _ _ _ _ Hh2) in Ht. rewrite (hd_tip _ _ _ _ Hh2) in Hv. injection Ht as <-. injection Hv as <-.
    rewrite E2, E3. apply P5; [apply Hh..].
  - intros t Ht. rewrite (hd_remote _ _ _ _ Hh2) in Ht. injection Ht as <-. rewrite E2. apply P6, Hh.
  - intros t p Ht. rewrite (hd_remote _ _ _ _ Hh2) in Ht. injection Ht as <-. rewrite E2. apply P7, Hh.
  - split; [|apply P8]. unfold hasChanStatus in *. rewrite Est. exact Hl.
Qed.

(** The restarted channel against a peer that got neither. *)
Lemma reopened_both_lost ours theirs c d : peers ours theirs lc c -> db_commitDiff (ChanBucket (channelState lc)) = Some d ->
  CommitHeight (RemoteCommitment c) <> currentHeight lc -> CommitHeight (LocalCommitment c) + 1 = CommitHeight (cd_Commitment d) ->
  ProcessChanSyncMsg (sync_of ours theirs c) lc2 =
    (Ok (resendCommitment (db_lastWasRevoke (ChanBucket (channelState lc))) d [RevokeMsg (revocation_at ours lc (currentHeight lc - 1))],
      cd_OpenedCircuitKeys d, cd_ClosedCircuitKeys d), lc2).
Proof using All.
  intros Hp Ed Hr Hc. destruct reopened_heads as (lt & rt & rv & lt2 & rt2 & rv2 & Hh & Hh2 & E1 & _).
  destruct (restored_chains _ _ Hnew) as (Es & _). destruct (fetched_fields _ Hd Hl) as (Ef & Eb & _ & _ & _ & _ & _ & _ & Ew).
  assert (Ecur : currentHeight lc2 = currentHeight lc) by (by rewrite (hd_height _ _ _ _ Hh), (hd_height _ _ _ _ Hh2), E1).
  assert (Ed2 : db_commitDiff (ChanBucket (channelState lc2)) = Some d) by (by rewrite Es, Eb).
  rewrite (pending_run ours theirs lc2 c lt2 rt2 rv2 (reopened_peers _ _ _ Hp) Hh2 d Ed2).
  rewrite (proj2 (Z.eqb_eq _ _) Hc). unfold owed_revocation. rewrite Ecur, (proj2 (Z.eqb_neq _ _) Hr), Es, Ew.
  unfold revocation_at, chan_id. by rewrite Es, Ef.
Qed.
End Reopened.

(** C8. What was lost is sent again in the order it was sent, also after a restart.
    When the peer has neither the last revocation nor the pending commitment, the
    channel that is rebuilt from what is read from the disk - commitments, pending
    diff, revocation state and flag - sends both again, verbatim: the signature last
    if it was made last, the revocation last if it was. *)
Theorem resends_in_order (w : worth) (ours theirs : bytes) (lc0 lc lc1 lc2 : LightningChannel) (c : OpenChannel) (d : CommitDiff) :
  opened w lc0 -> on_disk (channelState lc0) -> rtc step lc0 lc -> step lc lc1 ->
  NewLightningChannel (fetchOpenChannel (channelState lc1)) = Ok lc2 ->
  peers ours theirs lc1 c -> db_commitDiff (ChanBucket (channelState lc1)) = Some d ->
  CommitHeight (RemoteCommitment c) <> currentHeight lc1 -> CommitHeight (LocalCommitment c) + 1 = CommitHeight (cd_Commitment d) ->
  let updates := (fun u => UpdMsg (lu_UpdateMsg u)) <$> cd_LogUpdates d in
  exists msg, ChanSyncMsg c = Ok msg /\
    (forall m hs, RevokeCurrentCommitment lc = (Ok (m, hs), lc1) ->
       ProcessChanSyncMsg msg lc2 =
         (Ok (updates ++ [SigMsg (cd_CommitSig d)] ++ [RevokeMsg m], cd_OpenedCircuitKeys d, cd_ClosedCircuitKeys d), lc2)) /\
    (forall sig htlcSigs hs, SignNextCommitment lc = (Ok (sig, htlcSigs, hs), lc1) ->
       ProcessChanSyncMsg msg lc2 =
         (Ok (RevokeMsg (revocation_at ours lc (currentHeight lc1 - 1)) :: updates ++ [SigMsg (mkCommitSig (chan_id lc) sig htlcSigs [])],
            cd_OpenedCircuitKeys d, cd_ClosedCircuitKeys d), lc2)).
Proof.
  intros Ho Hd0 Hreach Hstep Hnew Hp Ed Hr Hc updates. pose proof (reach_dance w lc0 lc Ho Hreach) as Hok.
  pose proof (step_dance w lc lc1 Hstep Hok) as Hok1.
  pose proof (step_on_disk lc lc1 Hstep (do_logs _ _ Hok) (reach_on_disk w lc0 lc Ho Hd0 Hreach)) as Hd1.
  destruct (pe_live _ _ _ _ Hp) as [Hl1 _]. destruct (peers_message _ _ _ _ _ Hok1 Hp) as (_ & _ & _ & _ & Hm & _).
  exists (sync_of ours theirs c). split; [done|].
  rewrite (reopened_both_lost w lc1 lc2 Hok1 Hd1 Hl1 Hnew ours theirs c d Hp Ed Hr Hc). split.
  - intros m hs Hrun. destruct (revoke_keeps _ _ _ _ _ Hok Hrun) as (Hg & E1 & E2 & -> & E4).
    destruct (pe_ours _ _ _ _ Hp) as (Ep & Hlen & Hb). rewrite E2 in Ep.
    destruct (st_local _ (do_stored _ _ Hok1)) as (t1 & Ht1 & Hh1 & Es1). rewrite Es1 in E4. cbn in E4.
    destruct (st_local _ (do_stored _ _ Hok)) as (t & Ht & Hh & _).
    destruct (ch_each _ _ (ix_chain _ (do_index _ _ Hok) false) t (tail_elem _ _ Ht)) as [Hpos _].
    rewrite (generate_at ours) in Hg by (first [exact Ep|exact Hlen|lia]). injection Hg as <-.
    unfold resendCommitment. rewrite <- app_assoc. replace (currentHeight lc1 - 1) with (currentHeight lc) by lia.
    unfold revocation_at. by rewrite E1.
  - intros sig sigs hs Hrun. destruct (sign_keeps _ _ _ _ _ Hrun) as (_ & E1 & _ & _ & _ & d' & Ed' & Es & ->).
    rewrite Ed in Ed'. injection Ed' as <-. unfold resendCommitment, revocation_at. by rewrite E1, Es.
Qed.

(** ** A channel that has lost state *)
Lemma local_data_loss msg h lc : h < re_RemoteCommitTailHeight msg \/ hasChanStatus (channelState lc) ChanStatusRestored = true ->
  syncLocalChain msg h lc = (Err (match re_LocalUnrevokedCommitPoint msg with
    | Some p => ErrCommitSyncLocalDataLoss (FundingOutpoint (channelState lc)) p
    | None => ErrChan ErrCannotSyncCommitChains end), lc).
Proof.
  intros Hl. unfold syncLocalChain. rewrite (M_bind_run (gets channelState) _ lc _ lc eq_refl). cbv zeta.
  assert ((h <? re_RemoteCommitTailHeight msg) || hasChanStatus (channelState lc) ChanStatusRestored = true) as ->.
  { destruct Hl as [Hl| ->]; [|apply orb_true_r]. by rewrite (proj2 (Z.ltb_lt _ _) Hl). }
  by destruct (re_LocalUnrevokedCommitPoint msg).
Qed.

Lemma lor_flag_nonzero a n : 0 <= n -> Z.testbit a n = true -> forall z, Z.lor z a <> 0.
Proof. intros Hn Ht z E. apply (f_equal (fun x => Z.testbit x n)) in E. by rewrite Z.lor_spec, Ht, orb_true_r, Z.bits_0 in E. Qed.

Lemma marked_frozen l (f : M OpenChannel dberr unit) : f = MarkBorked \/ (exists p, f = MarkDataLoss p) ->
  frozen (channelState (lk_channel (mark f l))) = true.
Proof.
  intros Hf. unfold frozen, isBorked. apply orb_true_intro. right. apply negb_true_iff, Z.eqb_neq.
  destruct Hf as [->|[p ->]]; cbn; [by apply (lor_flag_nonzero _ 0)|by apply (lor_flag_nonzero _ 2)].
Qed.

(** C9. A channel that has lost state is not closed by force. If the peer proves, with
    the secret of our own height, that it is ahead of us, or the channel was restored
    from a backup, the link stops without sending anything again and without asking for
    a forced close; the peer's point is stored for the recovery, or, if it sent none, the
    channel is marked; either way every further transition is refused. *)
Theorem lost_state_stays_open (w : worth) (sends : syncOut -> bool) (deletes IsPending : bool) (l : channelLink) (m : circuitMap)
    (ours theirs : ChannelReestablish) (locked : list syncOut) :
  dance_ok w (lk_channel l) -> ChanSyncMsg (channelState (lk_channel l)) = Ok ours -> sends (OutReestablish ours) = true ->
  resendFundingLocked sends IsPending l ours theirs = Ok locked -> checkLastSecret (channelState (lk_channel l)) theirs = Ok tt ->
  currentHeight (lk_channel l) < re_RemoteCommitTailHeight theirs \/ hasChanStatus (channelState (lk_channel l)) ChanStatusRestored = true ->
  exists l1, htlcManager_sync sends deletes true IsPending (Reestablish theirs) l m =
      (Ok false, OutReestablish ours :: locked ++ [OutFailure ErrRecoveryError false], l1, m) /\
    reestablished l1 = reestablished l /\
    (forall p, re_LocalUnrevokedCommitPoint theirs = Some p ->
       db_dataLossCommitPoint (ChanBucket (channelState (lk_channel l1))) = Some p) /\
    forall cc us diff pkg, (exists e, UpdateCommitment cc us (channelState (lk_channel l1)) = (Err e, channelState (lk_channel l1))) /\
      (exists e, AppendRemoteCommitChain diff (channelState (lk_channel l1)) = (Err e, channelState (lk_channel l1))) /\
      (exists e, AdvanceCommitChainTail pkg us (channelState (lk_channel l1)) = (Err e, channelState (lk_channel l1))).
Proof.
  intros Hok Ho Hsend Hlock Hsec Hloss. destruct (dance_heads w _ Hok) as (lt & rt & rv & Hd).
  rewrite (hd_height _ _ _ _ Hd) in Hloss.
  pose proof (process_local_fails _ _ _ _ _ _ _ Hd Hsec (local_data_loss _ _ _ Hloss) (fun _ => ltac:(done))) as Hrun.
  unfold htlcManager_sync, syncChanStates. cbn [negb]. rewrite Ho, Hsend, Hlock, Hrun. cbn [negb].
  assert (El : l <| lk_channel := lk_channel l |> = l) by by destruct l. rewrite El.
  destruct (re_LocalUnrevokedCommitPoint theirs) as [p|]; cbn [forcesClose].
  - exists (mark (MarkDataLoss p) l). split; [done|]. split; [done|]. split; [by intros q [= <-]|]. intros cc us diff pkg.
    destruct (frozen_refuses _ (marked_frozen l _ (or_intror (ex_intro _ p eq_refl)))) as (F1 & F2 & F3). done.
  - exists (mark MarkBorked l). split; [done|]. split; [done|]. split; [done|]. intros cc us diff pkg.
    destruct (frozen_refuses _ (marked_frozen l _ (or_introl eq_refl))) as (F1 & F2 & F3). done.
Qed.
End Reestablish.

(** ** Two peers over the toy curve *)
#[local] Existing Instance toy_pubkeys.
#[local] Existing Instance toy_curve.
#[local] Existing Instance toy_scripts.
#[local] Existing Instance toy_txlib.
#[local] Existing Instance toy_siglib.

Definition our_seed : bytes := replicate 32 Byte.x09.
Definition their_seed : bytes := replicate 32 Byte.x08.

Definition sync_state : OpenChannel :=
  open_state <| RemoteCurrentRevocation := Some (point_at their_seed 0) |> <| RemoteNextRevocation := Some (point_at their_seed 1) |>.
Definition sync_start : LightningChannel := open_lc <| channelState := stored_state sync_state |>.

(** We offer an HTLC and sign; the peer offers one and signs; we revoke. *)
Definition offer1 (lc : LightningChannel) : LightningChannel := run_update (Offer (toy_add 0 25000000 0) None) lc.
Definition receive1 (lc : LightningChannel) : LightningChannel := run_update (Receive (toy_add 0 25000000 0)) lc.
Definition sync_sign := SignNextCommitment (offer1 sync_start).
Definition sync_accept := ReceiveNewCommitment toy_wire_sig [toy_wire_sig] (receive1 (snd sync_sign)).
Definition sync_revoke := RevokeCurrentCommitment (snd sync_accept).

(** The channel, and the peer, which got nothing of it. *)
Definition sync_lc : LightningChannel := snd sync_revoke.
Definition sync_peer : OpenChannel := toy_channel 0 None <| Producer := NewRevocationProducer their_seed |>.

(** The channel after a restart. *)
Abbreviation restarted lc := (NewLightningChannel (fetchOpenChannel (channelState lc))).
Definition res_ok {E A} (r : res E A) : bool := match r with Ok _ => true | _ => false end.

Definition heights (s : commitmentChain) : list Z := c_height <$> s.

Definition is_some {A} (o : option A) : bool := match o with Some _ => true | None => false end.
Definition same_point (o : option PublicKey) (p : PublicKey) : bool := match o with Some q => bool_decide (q = p) | None => false end.

Definition has_room (lc : LightningChannel) : bool :=
  forallb (fun own => (logIndex (log_of lc own) + 1 <? 2 ^ 64) && (htlcCounter (log_of lc own) + 1 <? 2 ^ 64)) [true; false].

Definition sync_checks : bool :=
  let r1 := sync_sign in
  let r2 := ReceiveNewCommitment toy_wire_sig [toy_wire_sig] (receive1 (snd r1)) in
  let r3 := RevokeCurrentCommitment (snd r2) in
  let lc := snd r3 in
  (is_ok r1 && fees_checked (snd r1) && is_ok r2) && (fees_checked (snd r2) && is_ok r3 &&
    bool_decide (heights (remoteCommitChain lc) = [0; 1] :> list Z)) &&
  ((currentHeight lc =? 1) && same_point (RemoteCurrentRevocation (channelState lc)) (point_at their_seed 0) &&
    same_point (RemoteNextRevocation (channelState lc)) (point_at their_seed 1)) &&
  (isEqual (Producer (channelState lc)) (NewRevocationProducer our_seed) && negb (hasChanStatus (channelState lc) ChanStatusRestored) &&
   is_some (db_commitDiff (ChanBucket (channelState lc)))) && (has_room (snd r1) && res_ok (restarted lc)).

Lemma sync_checked : sync_checks = true.
Proof. vm_cast_no_check (eq_refl true). Qed.

#[local] Strategy expand [sync_checks sync_sign sync_accept sync_revoke sync_lc offer1 receive1].

Lemma sync_runs : is_ok sync_sign = true /\ fees_checked (snd sync_sign) = true /\ is_ok sync_accept = true /\
  fees_checked (snd sync_accept) = true /\ is_ok sync_revoke = true.
Proof.
  pose proof sync_checked as Hc. apply andb_true_iff in Hc as [Hc _]. apply andb_true_iff in Hc as [Hc _].
  apply andb_true_iff in Hc as [Hc _]. apply andb_true_iff in Hc as [(H1 & H2 & H3)%all_true (H4 & H5 & _)%all_true].
  exact (conj H1 (conj H2 (conj H3 (conj H4 H5)))).
Qed.

Lemma isEqual_true e e2 : isEqual e e2 = true -> e = e2.
Proof. unfold isEqual. rewrite andb_true_iff, !bool_decide_eq_true. destruct e, e2. cbn. by intros [-> ->]. Qed.

Lemma same_point_true o p : same_point o p = true -> o = Some p.
Proof. destruct o as [q|]; [|done]. cbn. by intros ->%bool_decide_eq_true. Qed.

Lemma sync_facts : heights (remoteCommitChain sync_lc) = [0; 1] /\ currentHeight sync_lc = 1 /\
  RemoteCurrentRevocation (channelState sync_lc) = Some (point_at their_seed 0) /\
  RemoteNextRevocation (channelState sync_lc) = Some (point_at their_seed 1) /\
  Producer (channelState sync_lc) = NewRevocationProducer our_seed /\
  hasChanStatus (channelState sync_lc) ChanStatusRestored = false /\
  exists d, db_commitDiff (ChanBucket (channelState sync_lc)) = Some d.
Proof.
  pose proof sync_checked as Hc. apply andb_true_iff in Hc as [Hc _]. apply andb_true_iff in Hc as [Hc (E5 & E6 & E7)%all_true].
  apply andb_true_iff in Hc as [Hc (E2 & E3 & E4)%all_true]. apply andb_true_iff in Hc as [_ (_ & _ & E1)%all_true].
  split; [exact (bool_decide_eq_true_1 _ E1)|]. split; [exact (proj1 (Z.eqb_eq _ _) E2)|].
  split; [exact (same_point_true _ _ E3)|]. split; [exact (same_point_true _ _ E4)|].
  split; [exact (isEqual_true _ _ E5)|]. split; [exact (proj1 (negb_true_iff _) E6)|].
  assert (Hs : forall o : option CommitDiff, is_some o = true -> exists d, o = Some d) by (by intros [d|] ?; [exists d|]).
  exact (Hs _ E7).
Qed.

Lemma sync_start_opened : opened toy_worth sync_start.
Proof.
  split; [done| |done|done]. intros rc. exists (open_commit (negb rc)). destruct rc; (repeat split; [by intros []|done..]).
Qed.

Lemma sync_live : hasChanStatus sync_state ChanStatusRestored = false.
Proof. reflexivity. Qed.

Lemma sync_on_disk : on_disk (channelState sync_start).
Proof. exact (with_state_on_disk open_lc sync_state sync_live). Qed.

Lemma has_room_ok lc : has_room lc = true -> room lc.
Proof.
  unfold has_room. cbn [forallb]. rewrite !andb_true_iff, !Z.ltb_lt. intros ([? ?] & [? ?] & _) []; lia.
Qed.

Lemma sync_room : room (snd sync_sign).
Proof. pose proof sync_checked as Hc. apply andb_true_iff in Hc as [_ Hc]. apply andb_true_iff in Hc as [Hc _]. exact (has_room_ok _ Hc). Qed.

Lemma res_ok_true {E A} (r : res E A) : res_ok r = true -> exists a, r = Ok a.
Proof. destruct r as [a| |]; [by exists a|done..]. Qed.

Lemma sync_restarts : exists lc2, restarted sync_lc = Ok lc2.
Proof. pose proof sync_checked as Hc. apply andb_true_iff in Hc as [_ Hc]. apply andb_true_iff in Hc as [_ Hc]. exact (res_ok_true _ Hc). Qed.

Lemma sync_steps : rtc step sync_start (snd sync_accept) /\ step (snd sync_accept) sync_lc.
Proof.
  destruct sync_runs as (H1 & H2 & H3 & H4 & H5).
  assert (R0 : room sync_start) by (intros []; split; reflexivity).
  pose proof (step_update (Offer (toy_add 0 25000000 0) None) _ R0) as D1.
  pose proof (step_sign _ _ _ (ok_run ([], [], []) sync_sign H1) (fees_checked_ok _ H2)) as D2.
  pose proof (step_update (Receive (toy_add 0 25000000 0)) _ sync_room) as D3.
  pose proof (step_accept toy_wire_sig [toy_wire_sig] _ _ _ (ok_run tt sync_accept H3) (fees_checked_ok _ H4)) as D4.
  split; [|exact (step_revoke _ _ _ (ok_run (mkRevokeAndAck [] [] None [], []) sync_revoke H5))].
  exact (rtc_l _ _ _ _ D1 (rtc_l _ _ _ _ D2 (rtc_l _ _ _ _ D3 (rtc_once _ _ D4)))).
Qed.

Lemma sync_dance : dance_ok toy_worth sync_lc.
Proof.
  destruct sync_steps as [S1 S2]. exact (step_dance _ _ _ S2 (reach_dance _ _ _ sync_start_opened S1)).
Qed.

Lemma heights_tail s t h hs : chain_tail s = Ok t -> heights s = h :: hs -> c_height t = h.
Proof. destruct s as [|x s]; [done|]. cbn. by intros [= <-] [= <- _]. Qed.

Lemma heights_tip s t h hs : tip s = Ok t -> heights s = hs ++ [h] -> c_height t = h.
Proof.
  unfold tip, heights. intros Ht Hs. apply (f_equal list.last) in Hs. rewrite fmap_last, last_snoc in Hs.
  destruct (list.last s); [|done]. injection Ht as <-. by injection Hs.
Qed.

Lemma sync_peers : peers our_seed their_seed sync_lc sync_peer.
Proof.
  destruct sync_facts as (E1 & E2 & E3 & E4 & E5 & E6 & _). assert (Eb : 1 + 1 < 2 ^ 48) by reflexivity. split.
  - rewrite E2. exact (conj E5 (conj eq_refl Eb)).
  - exact (conj eq_refl eq_refl).
  - exact (new_store_holds our_seed).
  - rewrite E2. exact (conj (Z.le_refl 0) (conj (Z.le_refl 0) Z.le_0_1)).
  - intros t v Ht Hv. rewrite (heights_tail _ _ _ _ Ht E1), (heights_tip _ _ 1 [0] Hv E1).
    exact (conj (conj (Z.le_refl 0) Z.le_0_1) Eb).
  - intros t Ht. rewrite (heights_tail _ _ _ _ Ht E1). exact E3.
  - intros t p Ht. rewrite (heights_tail _ _ _ _ Ht E1). intros E. rewrite E4 in E.
    exact (eq_sym (f_equal (fun o => match o with Some q => q | None => p end) E)).
  - exact (conj E6 eq_refl).
Qed.

(** ** Witnesses *)
Lemma resync_peer_witness :
  exists msg x, ChanSyncMsg sync_peer = Ok msg /\ ProcessChanSyncMsg msg sync_lc = (Ok x, sync_lc).
Proof.
  destruct sync_facts as (_ & _ & _ & _ & _ & _ & d & Hd).
  destruct (resync_peer toy_worth our_seed their_seed sync_lc sync_peer sync_dance sync_peers) as (msg & Hm & Hp & _).
  exact (ex_intro _ msg (ex_intro _ _ (conj Hm (Hp d Hd)))).
Defined.

Lemma sync_reveals_only_revoked_witness :
  exists r lc1, ProcessChanSyncMsg (sync_of our_seed their_seed sync_peer) sync_lc = (r, lc1) /\
    (lc1 = sync_lc \/ exists x, SignNextCommitment sync_lc = (x, lc1)).
Proof.
  destruct sync_facts as (_ & E2 & _ & _ & E5 & _).
  assert (Eb : currentHeight sync_lc + 1 < 2 ^ 48) by (rewrite E2; reflexivity).
  destruct (ProcessChanSyncMsg (sync_of our_seed their_seed sync_peer) sync_lc) as [r lc1] eqn:E.
  exact (ex_intro _ r (ex_intro _ lc1 (conj eq_refl
    (proj1 (sync_reveals_only_revoked toy_worth our_seed sync_lc (sync_of our_seed their_seed sync_peer) r lc1
      sync_dance E5 eq_refl Eb (Z.le_refl 0) E))))).
Defined.

Lemma sync_pending : exists d, db_commitDiff (ChanBucket (channelState sync_lc)) = Some d /\ CommitHeight (cd_Commitment d) = 1.
Proof.
  destruct sync_facts as (E1 & _ & _ & _ & _ & _ & d & Hd). destruct (dance_heads _ _ sync_dance) as (lt & rt & rv & Hh).
  exists d. split; [exact Hd|]. destruct (hd_next _ _ _ _ Hh) as [(_ & E & _)|(_ & _ & d' & Ed & Ec)].
  - rewrite Hd in E. discriminate E.
  - rewrite Hd in Ed. injection Ed as Ed. rewrite Ed, Ec. exact (heights_tip _ _ 1 [0] (hd_tip _ _ _ _ Hh) E1).
Qed.

Lemma resends_in_order_witness :
  exists lc2 msg m us opened closed, restarted sync_lc = Ok lc2 /\ ChanSyncMsg sync_peer = Ok msg /\
    ProcessChanSyncMsg msg lc2 = (Ok (us ++ [RevokeMsg m], opened, closed), lc2).
Proof.
  destruct sync_pending as (d & Hd & Ed). destruct sync_facts as (_ & E2 & _). destruct sync_runs as (_ & _ & _ & _ & H5).
  assert (Hr : CommitHeight (RemoteCommitment sync_peer) <> currentHeight sync_lc) by (rewrite E2; discriminate).
  assert (Hc : CommitHeight (LocalCommitment sync_peer) + 1 = CommitHeight (cd_Commitment d)) by (rewrite Ed; reflexivity).
  destruct sync_restarts as [lc2 Hnew].  destruct sync_steps as [S1 S2].
  destruct (resends_in_order toy_worth our_seed their_seed sync_start (snd sync_accept) sync_lc lc2 sync_peer d
    sync_start_opened sync_on_disk S1 S2 Hnew sync_peers Hd Hr Hc) as (msg & Hm & Hrev & _).
  pose proof (ok_run (mkRevokeAndAck [] [] None [], []) sync_revoke H5) as Hrun.
  destruct (value_of (mkRevokeAndAck [] [] None [], []) sync_revoke) as [m hs]. specialize (Hrev m hs Hrun).
  rewrite app_assoc in Hrev.
  exact (ex_intro _ lc2 (ex_intro _ msg (ex_intro _ m (ex_intro _ _ (ex_intro _ _ (ex_intro _ _ (conj Hnew (conj Hm Hrev)))))))).
Defined.

(** A peer that proves it is three commitments ahead. *)
Definition lost_link : channelLink := mkLink sync_start scid_example [] false (mkPolicy 0 0 0 0 0) 0 0 [] [] [].
Definition lost_ours : ChannelReestablish :=
  mkChannelReestablish (chan_id sync_start) 1 0 zero32 (Some (point_at our_seed 0)) [].
Definition lost_theirs : ChannelReestablish := mkChannelReestablish [] 2 3 (secret_at our_seed 2) (Some (point_at their_seed 1)) [].
Definition no_circuits : circuitMap := mkCircuitMap ∅ 0 ∅ ∅ ∅ ∅ ∅ ∅.

Lemma sync_fresh (c : OpenChannel) s : CommitHeight (LocalCommitment c) = 0 -> CommitHeight (RemoteCommitment c) = 0 ->
  AtIndex (Producer c) 0 = Ok s -> hasChanStatus c ChanStatusRestored = false ->
  ChanSyncMsg c = Ok (mkChannelReestablish (NewChanIDFromOutPoint (FundingOutpoint c)) 1 0 zero32 (Some (ComputeCommitmentPoint s)) []).
Proof. intros E1 E2 Ha Hl. unfold ChanSyncMsg. rewrite E1, E2, Ha, Hl. reflexivity. Qed.

Lemma lost_sync : ChanSyncMsg (channelState sync_start) = Ok lost_ours.
Proof.
  apply (sync_fresh (channelState sync_start) (secret_at our_seed 0)); [reflexivity..| |reflexivity].
  apply (AtIndex_secret our_seed 0); [reflexivity|lia].
Qed.

Lemma lost_secret : checkLastSecret (channelState sync_start) lost_theirs = Ok tt.
Proof.
  unfold checkLastSecret, lost_theirs. cbn [re_LocalUnrevokedCommitPoint re_RemoteCommitTailHeight re_LastRemoteCommitSecret].
  rewrite bool_decide_eq_true_2 by done. change (negb (3 =? 0)) with true. cbn [andb]. rewrite u64_id by lia. change (3 - 1) with 2.
  rewrite (producer_at sync_start our_seed 2) by (first [reflexivity|lia]). rewrite (res_bind_Ok_l (E := chanerr)).
  rewrite bool_decide_eq_true_2 by reflexivity. reflexivity.
Qed.

Lemma lost_state_stays_open_witness :
  exists l1, htlcManager_sync (fun _ => true) true true false (Reestablish lost_theirs) lost_link no_circuits =
      (Ok false, [OutReestablish lost_ours; OutFailure ErrRecoveryError false], l1, no_circuits) /\
    db_dataLossCommitPoint (ChanBucket (channelState (lk_channel l1))) = Some (point_at their_seed 1).
Proof.
  destruct (lost_state_stays_open toy_worth (fun _ => true) true false lost_link no_circuits lost_ours lost_theirs []
    (opened_dance _ _ sync_start_opened) lost_sync eq_refl eq_refl lost_secret (or_introl eq_refl)) as (l1 & Hrun & _ & Hp & _).
  exact (ex_intro _ l1 (conj Hrun (Hp _ eq_refl))).
Defined.
